(* ===== verification/_CoqProject ===== *)
-Q . S2P
Prelude.v
Protocol.v
Request.v
Scanner.v
Framer.v
Tracker.v
Command.v
Auth.v
Pipeline.v
Wire.v
Availability.v
Filter.v
Index.v
Router.v
Article.v
Cache.v
Disk.v
Hybrid.v
Stream.v
Transfer.v
Exchange.v
Isolated.v
Retry.v
RetryFacts.v
Precheck.v
Serve.v
Session.v
Window.v
Loop.v
Stateful.v
Handoff.v
Yenc.v
Headers.v
Layout.v
Client.v
Setup.v
Connect.v
Pool.v
Compression.v
Buffers.v
Metrics.v
Collector.v
Stats.v
Lifecycle.v
Config.v
Build.v
Args.v
Logs.v
Dashboard.v
