(* ===== verification/Prelude.v ===== *)
(** * A verification of nntp-proxy

    [nntp-proxy] is an NNTP proxy: clients speak to it as to one news server,
    and it spreads their commands over several backend servers, pipelining and
    retrying them.  This library is a shallow embedding of its protocol core in
    Rocq, with the theorems that make that core correct.  Every definition is
    an executable translation of a Rust function of the repository and carries
    its name, or says in its comment which one it models; file names below are
    relative to [src/src].

    ** The parts of the program and the files that model them

    A client's bytes are cut into command lines and batches ([Pipeline.v]),
    each line is parsed into a typed request ([Request.v]) and given an
    execution plan from the request, the client's authentication and the
    routing mode ([Command.v]).  The session answers what it can itself and
    forwards the rest ([Session.v], [Loop.v]), with AUTHINFO handled by
    [Auth.v].  A forwarded request is served from the cache or sent to backends
    ([Serve.v]), a batch of pipelined requests through a window of requests sent
    ahead to one backend ([Window.v]).  A request is routed to a backend ([Router.v]) among those that are
    not known to miss the article: what is known is a bit set per article
    ([Availability.v]), remembered across requests by a fixed-size index
    ([Filter.v], [Index.v]) that is saved to disk ([Wire.v] has the codec).  The
    backend's bytes are cut into responses ([Scanner.v], [Framer.v]) and sent
    to the client in the order of the requests ([Tracker.v]).  One response moves
    from a connection to the client and, on the way, to the cache
    ([Stream.v], [Transfer.v], [Exchange.v], [Isolated.v]); an article request
    tries backends until one answers ([Retry.v], [RetryFacts.v]), after asking
    them all at once where that is configured ([Precheck.v]).  Articles are cached in memory
    ([Article.v], [Cache.v]) or on disk ([Disk.v], [Hybrid.v]).  A client that
    uses stateful commands gets a connection of its own ([Stateful.v]), from the
    start or when it first needs one ([Handoff.v]).  Backend connections are
    opened to one of the addresses of a server ([Connect.v]), made ready by a
    dialogue with it ([Setup.v]), which may put a compressed stream on it
    ([Compression.v]), and kept in pools ([Pool.v]).  The buffers that responses are
    read into are pooled as well ([Buffers.v]).  What happens is counted per
    backend and per user ([Metrics.v], [Collector.v]), and the counters survive
    restarts in a file ([Stats.v]); connections are also gathered into log lines, of
    which the latest are kept ([Logs.v]), and snapshots of it all are displayed
    ([Dashboard.v]).  A proxy starts from a configuration, read
    from a file, the environment and the command line ([Config.v], [Args.v]), from
    which its components are built ([Build.v]), and serves clients until it is
    stopped ([Lifecycle.v]).  The repository is
    also a client library: it fetches articles over such connections ([Client.v])
    and parses and decodes them ([Layout.v], [Headers.v], [Yenc.v]).

    - [Prelude.v]: bytes, slices, machine integers ([u64] and [usize] are [N]
      with wrapping or saturating operations written out), the [result] monad,
      list and search lemmas, the tactics and the hint database [nntp].
    - [Protocol.v]: [protocol/response.rs] ([StatusCode]), [protocol/codes.rs],
      [protocol/responses.rs], [types/protocol.rs] ([MessageId]).
    - [Request.v]: [protocol/request.rs] and [protocol/commands.rs]:
      [RequestContext] as a record, its parser, classification, serialisation
      and completion record.
    - [Scanner.v]: the vectorised terminator scanners and the iterator of
      terminator ends of [session/multiline_framing.rs], for each target.
    - [Framer.v]: [MultilineFramer] of the same file, with its packing
      policies, response classification and captured payloads.
    - [Tracker.v]: [BackendReplyTracker] and [BackendResponseOrder] of the same
      file, and the abstract machine of expected replies that they refine.
    - [Command.v]: [command/handler.rs], [session/mode_state.rs].
    - [Auth.v]: [auth/handler.rs], [session/auth_state.rs] and
      [session/common.rs] ([handle_auth_command]), [types/validated.rs].
    - [Pipeline.v]: [session/handlers/pipeline.rs].
    - [Wire.v]: little-endian codecs and cursor parsers.
    - [Availability.v]: [cache/availability.rs], [cache/ttl.rs],
      [cache/availability_identity.rs] (slots, layouts, the registry file).
    - [Filter.v]: blocks, generations and [FilterState] of
      [cache/availability_index.rs]; [Index.v]: the sharded index, the snapshot
      file and its loading.
    - [Router.v]: [router/mod.rs], [router/strategies.rs],
      [router/backend_info.rs].
    - [Article.v] and [Cache.v]: [cache/article.rs]: typed payloads, captured
      responses and what is served from them, entries with their misses, and the
      updates and lookups of the in-memory cache.
    - [Disk.v]: [cache/hybrid_codec.rs] (disk entries and their four format
      versions); [Hybrid.v]: the operations of [cache/hybrid.rs].
    - [Stream.v]: [pool/buffer.rs], [stream/connection_stream.rs],
      [connection_error.rs] and the phases of [pool/connection_guard.rs].
    - [Transfer.v]: the response exchange of [session/multiline_framing.rs] with
      [session/response_transfer.rs], [session/session_error.rs] and
      [session/backend.rs]; [Exchange.v]: its behaviour with a backend that
      answers; [Isolated.v]: the captures of one response on a connection of its
      own.
    - [Retry.v]: [session/handlers/command_execution.rs],
      [session/handlers/article_retry.rs], the policies of [session/routing] and
      the cache updates of [session/handlers/cache_operations.rs], in a state
      monad over the world of one request; [RetryFacts.v]: what they guarantee.
    - [Precheck.v]: [session/precheck.rs], the queries of all backends and the
      race for the first hit.
    - [Serve.v]: [route_and_execute_request] of
      [session/handlers/article_retry.rs] with the cache lookups of
      [session/handlers/cache_operations.rs].
    - [Session.v]: the handlers of [session/handlers/per_command.rs] for one
      command; [Window.v]: the upstream article window of its pipelined batches;
      [Loop.v]: batch rejections, trailing commands and the session loop.
    - [Stateful.v]: [session/handlers/stateful.rs], [session/state.rs] and the
      stateful part of [session/common.rs]: the loop of a session with a dedicated
      connection, round by round; [Handoff.v]: [session/handlers/hybrid.rs], the
      switch from the per-command loop to it.
    - [Yenc.v]: [protocol/article/yenc.rs] and the decoder of
      [protocol/article/mod.rs]; [Headers.v]: [protocol/article/headers.rs];
      [Layout.v]: the article parsers of [protocol/article/mod.rs] with
      [protocol/article/state.rs]; [Client.v]: [client/mod.rs].
    - [Setup.v]: the dialogue of [pool/deadpool_connection.rs] with a new backend
      connection, the state machine it implements, and the health checks of
      [pool/health_check.rs] and [pool/connection_guard.rs].
    - [Connect.v]: the resolver cache, the rotation of addresses and the connect
      passes of [pool/deadpool_connection.rs].
    - [Pool.v]: the provider of [pool/provider.rs], its cooldowns as operations
      and as tasks of atomic steps.
    - [Compression.v]: [compression.rs], the deflate stream poll by poll, and the
      vectored writer of [io_util.rs].
    - [Buffers.v]: the buffer pool of [pool/buffer.rs] as tasks of atomic steps, and
      its chunked responses.
    - [Metrics.v]: the counters and users of [metrics/store.rs], with the updates of
      users in [metrics/collector.rs] and [session/core.rs]; [Collector.v]: the
      recording methods of [metrics/collector.rs]; [Stats.v]: the statistics file of
      [metrics/store.rs] and [io_util.rs].
    - [Lifecycle.v]: the clients, the idle check and the end of sessions in
      [proxy/lifecycle.rs].
    - [Config.v]: [config/types.rs], [config/defaults.rs], [config/validation.rs] and
      [config/loading.rs]; [Args.v]: [args.rs]; [Build.v]: [proxy/builder.rs].
    - [Logs.v]: [tui/log_capture.rs] and [metrics/connection_stats.rs]; [Dashboard.v]:
      the snapshots of [metrics/collector.rs] and [metrics/snapshot.rs], the displayed
      state of [tui/app.rs] and [tui/dashboard.rs], and what [tui/remote.rs] sends.

    ** How state and effects correspond

    A struct is a record and a method that mutates it returns the new record.
    [Result] is [result], [Option] is [option], and a panic is [None] where the
    code can reach it.  Asynchronous code is modelled at its awaits: a reader
    is the list of pieces in which its bytes arrive, a writer is a flag that
    says whether [write_all] succeeds and the bytes written are returned.  From
    [Stream.v] on a connection is the list of what its next reads give, errors
    included, with the input queued in front of it, and a client writer is what
    it has sent with a script of the outcomes of its next writes.  The handlers
    of [Retry.v] are programs of a state monad; what happens outside the request
    (pool counts, checked out connections, failing sends, the order in which
    probes finish, other sessions) is an [Oracle] they ask, a function of time.
    The cache updates and metrics they issue are logged, and the statements of
    [Cache.v] are about such logs of updates; what a lookup finds is an oracle
    too, which [Serve.v] instantiates with the cache after any such log.  The
    [select!] of the stateful loop is a [Peer]: an arbitrary choice of the side that
    is ready in each round, and a backend whose reads may depend on what it was
    sent.
    Atomics are fields of the state; what other threads do in between is an
    argument ([env] of [route]) or an interleaving of steps ([ledger_step] of
    [Router.v], the operations of [Tracker.v], the executions of [Index.v],
    [pool_step] of [Pool.v], [pool_run] of [Buffers.v], [interleaved] of
    [Collector.v], [user_session_step] of [Metrics.v], [clients_step] of
    [Lifecycle.v]).  A file system is a finite map, and what replaces a file gives the
    list of its states.  In [Compression.v], where
    it matters what a call leaves behind when it is not ready, the model is one level
    below: a poll is an operation that may be [Pending].  A backend under setup is what its reads give and what
    each further command makes arrive.

    Code outside the repository is an argument of the definitions that use it:
    the searches of memchr (the class [Memchr], with the documented behaviour in
    [MemchrSpec] and an instance for evaluation), the hash function of the
    index, the checksum of crc32fast ([Crc32] with [Crc32Spec]), the pool library
    deadpool ([Deadpool] with [DeadpoolSpec]), the compressor and decompressor of flate2
    ([Deflate] and [Inflate] with [DeflateSpec] and [InflateSpec]), the readers and
    writers of JSON ([JsonSpec]) and TOML ([Toml] with [TomlSpec]), the status counts of the connection
    pools, the DNS resolver, the UUID generator, the clock, and the backends.  The storage and eviction
    of moka and foyer is a finite map with an operation that removes any entry.

    ** What the theorems show

    - Pipelining: the client receives every reply whole and in the order of
      its requests, whatever the fragmentation of the backend's bytes
      ([pipelined_replies_in_order]), because the ordering layer refines an
      abstract machine ([response_order_refines]) and the tracker attributes
      every byte to its request ([tracker_attributes_replies],
      [tracker_lossless], [reply_end_protocol]).
    - Framing: the end of a response depends neither on fragmentation nor on
      the target ([framing_partition_independent], [scanners_equivalent],
      [rolling_tail_refines]), the policies and splits are exact
      ([split_chunk_correct], [parse_bytes_correct],
      [captured_payload_body_exact], [captured_article_sections_exact]), and
      two boundary cases in which the code is not as documented are examples
      ([overlapping_terminators], [packed_suffix_depends_on_reads]).
    - Requests: a forwarded request is one line that parses back to itself
      ([request_wire_roundtrip], [request_wire_single_line]); message-ids are
      valid ([request_message_id]); the reader and the batches lose nothing
      ([read_command_line_exact], [read_command_batch_exact]).
    - Access: nothing reaches a backend before authentication
      ([no_backend_before_authentication]), identities come from accepted
      passwords only ([authentication_sound], [configured_user_logs_in],
      [auth_error_no_transition]), posting and transport commands are refused
      ([posting_and_transport_refused], [command_plan_table]), AUTHINFO
      arguments round-trip ([authinfo_roundtrip]).
    - Sessions: every line of the client is answered once, in order, until the
      session ends ([session_answers_in_order]): a forwarded request by one answer
      from the cache or a backend ([request_answered_once]), a batch through a
      window of bounded size ([upstream_window_bounded]) whose failures fall back
      to requests one by one.  With a dedicated connection the replies come in
      order too ([stateful_session_in_order]) and the counters are exact
      ([stateful_bytes_accounted]); a switch in mid-session loses nothing
      ([hybrid_session_in_order]).
    - Availability: the bits of a layout mean what they should
      ([exhausted_iff_no_backend_left], [servers_share_slots]) and keep their
      meaning across restarts ([registry_slots_stable],
      [snapshot_load_sound], [snapshot_roundtrip]); the index reports only
      recorded misses and reports them long enough ([index_lookup_sound],
      [recorded_miss_retained]); [miss_reported_after_ttl] shows the age bound
      exceeding the TTL.
    - Transfers: the client gets a prefix of what a backend sends, and errors and
      connection fates say truly what it got ([forwarding_safe]); a backend that
      answers is forwarded response by response ([exchanges_in_order]) and
      captured exactly ([capture_exact]).
    - Retry: a request ends, after one attempt per backend at most, with at most
      one response, and reuses connections only at the end of a response
      ([article_request_answered_once]); misses told or recorded were answered by
      backends ([misses_come_from_backends]); probes waste their connections
      ([probe_discards_its_connection]).
    - Caches: served responses are complete, verbatim and made of what was
      ingested for the key ([served_response_complete],
      [cached_response_verbatim], [framed_parse_equivalent],
      [cached_response_provenance]); reported misses were recorded within the TTL
      ([cached_miss_recorded]); updates lose nothing useful ([update_monotone]);
      disk entries round-trip, the decoder accepts exactly the four layouts
      ([disk_entry_roundtrip], [decode_exact]), and the hybrid cache implements
      the in-memory one ([hybrid_refines_memory]).
    - Routing: tiers, limits and strategies ([selection_respects_tiers],
      [weighted_round_robin_fair], [least_loaded_minimal]), reservations and
      counters under concurrency ([route_reserves_once],
      [counters_balanced]).
    - Connections: an address that accepts connections is found
      ([connection_found]), addresses are used in turn ([rotation_fair]), the
      resolver settles ([resolver_settles]); setup is a state machine
      ([setup_refines_machine]) that no backend can make send a password unasked
      ([setup_safe]); a connection in doubt is kept exactly when it answers DATE
      ([salvage_exact]).  The size of a pool is exact without overlap
      ([pool_size_exact]) and bounded with it ([pool_interleaving_safe]), and
      [pool_stays_shrunk] and [cooldown_cap_exceeded] are its races.  A
      request sent over a compressed connection arrives ([compressed_request_delivered])
      unless it meets one of two defects ([write_loses_byte], [write_overtakes_flush]).
    - Buffers: the buffer pool neither loses buffers nor hands out one in use, short or
      with old bytes ([buffer_pool_balanced], [acquired_buffer_ready]), and a chunked
      response is the byte string that was appended ([chunked_response_refines]).
    - Metrics: nothing recorded by any number of threads is lost
      ([metrics_interleaving_exact]), the gauges of users are the open sessions
      ([user_gauges_balanced], with the race [user_update_lost]), the users that are
      remembered are the active and the busiest ([prune_exact]), and the statistics
      survive restarts and failing writes ([stats_survive_restart]) unless two servers
      share a name ([duplicate_names_lose_counters]).
    - Display: the captured lines are the latest that were written
      ([captured_lines_exact]), every session is logged once
      ([sessions_logged_once], with the race [flush_loses_event]), and the state sent to
      a dashboard exists and agrees with itself ([remote_dashboard_consistent]), also when
      the gauges were read while they changed ([torn_snapshot_capped]), and shows the
      users that transferred most ([top_users_ranked]).
    - Life cycle: clients are counted exactly, and no pool is cleared under a client
      ([clients_counted]); [idle_clock_race] and [zero_timeout_clears] are early
      clearings, and [stateful_bytes_counted_twice] shows that the bytes of stateful
      sessions are counted twice.
    - Configuration: what is loaded is usable ([loaded_config_usable]) and is built
      into components that fit together ([loaded_config_built]); the servers of the
      environment are found completely ([env_servers_exact]), old files are migrated
      once and without loss ([migration_once]), up to the fractions of seconds of
      [default_pool_timeout_lost]; the dashboard listens only locally and apart from
      the proxy ([dashboard_listener_apart]).
    - Articles: the parsers accept exactly well-formed articles
      ([article_parse_exact], [header_validation_exact], [header_lookup_exact],
      [unfolding_exact]); yEnc parts round-trip and are validated exactly
      ([yenc_roundtrip], [yenc_validation_exact]); a fetch returns complete articles
      and keeps only clean connections ([client_fetch_safe]), and what was encoded is
      fetched and decoded ([fetched_body_decodes]).

    ** Bounds and fuel

    Loops are structural where the data allows it (the tracker recurses over its
    queue, the rotation over the rotations due).  The others take fuel that the
    callers fix: a scan of [n] bytes gets [S n] rounds, each of which consumes a
    byte; the line reader gets two rounds more than there are pieces still to
    arrive; a batch gets its maximal depth; the loops over the candidate bits of
    a block get one round more than it has slots; the loops that read a response
    get [reads_left] rounds, which every successful read decreases; the reader of a
    single-line reply gets the size of its buffer, of which every read fills a byte;
    appending to a chunked response gets a round per byte; a read through the
    decompressor gets two rounds per compressed byte still to come; the scan of the
    environment for servers gets one round more than there are variables;
    the retry loop
    gets one round more than there are backends, since an attempt that does not
    end it rules a backend out; the window gets a round per request; the session
    loop gets one more than the bytes of the client's stream, of which every batch
    takes at least one.  The theorems about them state
    the result, so running out of fuel is excluded.  [route] keeps its
    fuel as an argument: its loop ends when the other threads stop interfering,
    which is what its theorem says.  So does the stateful loop, which may run as
    long as both sides stay connected: its theorems hold after every number of
    rounds and say what has been delivered by then.

    ** What is not modelled

    Sockets, the recycling of pooled connections, TLS, the parsing of TOML and of the
    command line, listener tasks, worker threads and shutdown, logging, and of the terminal
    interface the rendering, the keys, the websocket, the system and cache statistics, and
    the rates, shares and charts (floating point numbers for display): they are input and output or belong to external crates. *)

From Stdlib.Strings Require Export Byte.
From Stdlib Require Export NArith.
From stdpp Require Export prelude gmap strings list.

(** * Bytes and byte strings *)

(** A Rust [u8] is a [byte]; a [&[u8]], [Vec<u8>] or [SmallVec<[u8; N]>] is a
    list of bytes, and so is a [&str] (its UTF-8 encoding). *)
Abbreviation bytes := (list byte).

Declare Scope nntp_scope.
Delimit Scope nntp_scope with nntp.

(** A byte-string literal, [b"..."] in the source. *)
Definition bs (s : string) : bytes := String.list_byte_of_string s.

Definition CR : byte := x0d.
Definition LF : byte := x0a.
Definition CRLF : bytes := [CR; LF].

#[global] Instance byte_eq_decision : EqDecision byte := Byte.byte_eq_dec.

#[global] Instance byte_inhabited : Inhabited byte := populate x00.

(** [byte_in lo hi b] is the pattern [lo..=hi] on a byte. *)
Definition byte_in (lo hi b : byte) : bool :=
  (Byte.to_N lo <=? Byte.to_N b)%N && (Byte.to_N b <=? Byte.to_N hi)%N.

(** [u8::is_ascii_digit], [u8::is_ascii_whitespace], [u8::to_ascii_lowercase]. *)
Definition is_ascii_digit (b : byte) : bool := byte_in x30 x39 b.

Definition is_ascii_whitespace (b : byte) : bool :=
  match b with
  | x20 | x09 | x0a | x0c | x0d => true
  | _ => false
  end.

Definition to_ascii_lowercase (b : byte) : byte :=
  if byte_in x41 x5a b
  then default b (Byte.of_N (Byte.to_N b + 32)) else b.

(** [<[u8]>::eq_ignore_ascii_case]. *)
Fixpoint eq_ignore_ascii_case (l r : bytes) : bool :=
  match l, r with
  | [], [] => true
  | x :: l, y :: r =>
      Byte.eqb (to_ascii_lowercase x) (to_ascii_lowercase y) && eq_ignore_ascii_case l r
  | _, _ => false
  end.

(** [u8 | u8] *)
Definition byte_or (x y : byte) : byte :=
  default x00 (Byte.of_N (N.lor (Byte.to_N x) (Byte.to_N y))).

(** [std::str::from_utf8(l).is_ok()]: the well-formed byte sequences of the
    Unicode standard (table 3-7), the check Rust performs. *)
Definition utf8_cont (b : byte) : bool := byte_in x80 xbf b.

Definition utf8_second3 (b0 b1 : byte) : bool :=
  match b0 with
  | xe0 => byte_in xa0 xbf b1
  | xed => byte_in x80 x9f b1
  | _ => utf8_cont b1
  end.

Definition utf8_second4 (b0 b1 : byte) : bool :=
  match b0 with
  | xf0 => byte_in x90 xbf b1
  | xf4 => byte_in x80 x8f b1
  | _ => utf8_cont b1
  end.

Fixpoint utf8_valid (l : bytes) : bool :=
  match l with
  | [] => true
  | b0 :: l1 =>
      if byte_in x00 x7f b0 then utf8_valid l1
      else if byte_in xc2 xdf b0 then
        match l1 with
        | b1 :: l2 => utf8_cont b1 && utf8_valid l2
        | _ => false
        end
      else if byte_in xe0 xef b0 then
        match l1 with
        | b1 :: b2 :: l3 => utf8_second3 b0 b1 && utf8_cont b2 && utf8_valid l3
        | _ => false
        end
      else if byte_in xf0 xf4 b0 then
        match l1 with
        | b1 :: b2 :: b3 :: l4 =>
            utf8_second4 b0 b1 && utf8_cont b2 && utf8_cont b3 && utf8_valid l4
        | _ => false
        end
      else false
  end.

(** The UTF-8 encodings of the code points with the Unicode property
    [White_Space], which [str::trim] removes from both ends. *)
Definition unicode_white_space : list bytes :=
  [[x09]; [x0a]; [x0b]; [x0c]; [x0d]; [x20]; [xc2; x85]; [xc2; xa0]; [xe1; x9a; x80];
   [xe2; x80; x80]; [xe2; x80; x81]; [xe2; x80; x82]; [xe2; x80; x83]; [xe2; x80; x84];
   [xe2; x80; x85]; [xe2; x80; x86]; [xe2; x80; x87]; [xe2; x80; x88]; [xe2; x80; x89];
   [xe2; x80; x8a]; [xe2; x80; xa8]; [xe2; x80; xa9]; [xe2; x80; xaf]; [xe2; x81; x9f];
   [xe3; x80; x80]].

(** The length of the white-space character a string starts with, 0 if none.
    The table [ws] is a parameter so that the same scan runs on the reversed
    string with the reversed encodings. *)
Fixpoint leading_char (ws : list bytes) (l : bytes) : nat :=
  match ws with
  | [] => 0
  | w :: ws => if decide (w `prefix_of` l) then length w else leading_char ws l
  end.

(** The scan removes at least one byte per round, so [length l] rounds reach
    the first character that is not white space. *)
Fixpoint trim_start_with (fuel : nat) (ws : list bytes) (l : bytes) : bytes :=
  match fuel with
  | 0 => l
  | S fuel =>
      match leading_char ws l with
      | 0 => l
      | n => trim_start_with fuel ws (drop n l)
      end
  end.

Definition trim_start (l : bytes) : bytes := trim_start_with (length l) unicode_white_space l.

Definition trim_end (l : bytes) : bytes :=
  reverse (trim_start_with (length l) (reverse <$> unicode_white_space) (reverse l)).

(** [str::trim] *)
Definition str_trim (l : bytes) : bytes := trim_end (trim_start l).

(** * Slices and searches *)

(** [&l[a..b]] *)
Definition slice {A} (a b : nat) (l : list A) : list A := take (b - a) (drop a l).

(** [iter().position(p)] and [iter().rposition(p)]. *)
Fixpoint position {A} (p : A → bool) (l : list A) : option nat :=
  match l with
  | [] => None
  | x :: l => if p x then Some 0 else S <$> position p l
  end.

Definition rposition {A} (p : A → bool) (l : list A) : option nat :=
  (λ i, length l - 1 - i) <$> position p (reverse l).

(** [pat] occurs in [l] at index [i]. *)
Definition match_at {A} (pat l : list A) (i : nat) : Prop := pat `prefix_of` drop i l.

(** [r] is the answer of a leftmost search for [pat] in [l]. *)
Definition leftmost {A} (pat l : list A) (r : option nat) : Prop :=
  match r with
  | Some i => match_at pat l i ∧ ∀ j, j < i → ¬ match_at pat l j
  | None => ∀ j, ¬ match_at pat l j
  end.

(** The last [n] elements of a list. *)
Definition lastn {A} (n : nat) (l : list A) : list A := drop (length l - n) l.

(** * Results *)

(** Rust's [Result<A, E>]; the error type comes first so that [result E] is a
    monad and stdpp's [x ← c; k] is the [?] operator. *)
Inductive result (E A : Type) : Type :=
| Ok (a : A)
| Err (e : E).
Arguments Ok {E A} a.
Arguments Err {E A} e.

#[global] Instance result_ret {E} : MRet (result E) := λ A a, Ok a.

#[global] Instance result_bind {E} : MBind (result E) := λ A B f m,
  match m with Ok a => f a | Err e => Err e end.

#[global] Instance result_fmap {E} : FMap (result E) := λ A B f m,
  match m with Ok a => Ok (f a) | Err e => Err e end.

Lemma Ok_inj {E A} (a b : A) : @Ok E A a = Ok b → a = b.
Proof. congruence. Qed.

Definition ok_or {E A} (e : E) (o : option A) : result E A :=
  match o with Some a => Ok a | None => Err e end.

Definition map_err {E F A} (f : E → F) (r : result E A) : result F A :=
  match r with Ok a => Ok a | Err e => Err (f e) end.

(** [if !cond { bail!(e) }] *)
Definition ensure {E} (e : E) (b : bool) : result E unit := if b then Ok () else Err e.

(** * Machine integers *)

(** A [u64] or [usize] is an [N] below [2^64] (the model is of a 64-bit
    target); arithmetic that wraps or saturates says so. *)
Definition wrap64 (n : N) : N := (n mod 2 ^ 64)%N.
Definition u64_max : N := (2 ^ 64 - 1)%N.
Definition sat_add64 (a b : N) : N := N.min (a + b) u64_max.
Definition sat_mul64 (a b : N) : N := N.min (a * b) u64_max.

(** [usize::saturating_sub] is truncated subtraction, [N.sub]. *)
Abbreviation sat_sub := N.sub.

Definition u64_ok (n : N) : Prop := (n < 2 ^ 64)%N.

(** * The [memchr] crate *)

(** [memchr] is not part of the repository: the searches it offers are
    parameters of the model, and [MemchrSpec] states what its documentation
    promises of them. *)
Class Memchr := {
  memchr : byte → bytes → option nat;
  memchr2 : byte → byte → bytes → option nat;
  memmem_find : bytes → bytes → option nat;
  memmem_find_iter : bytes → bytes → list nat;
}.

Class MemchrSpec (MC : Memchr) : Prop := {
  memchr_spec b l : memchr b l = position (Byte.eqb b) l;
  memchr2_spec b c l : memchr2 b c l = position (λ x, Byte.eqb b x || Byte.eqb c x) l;
  memmem_find_spec pat l : leftmost pat l (memmem_find pat l);
  memmem_find_iter_spec pat l : pat ≠ [] →
    memmem_find_iter pat l =
      match memmem_find pat l with
      | None => []
      | Some i =>
          i :: ((λ j, i + length pat + j) <$>
                memmem_find_iter pat (drop (i + length pat) l))
      end;
}.

(** Naive searches that satisfy the specification, for evaluation. *)
Fixpoint naive_find (pat l : bytes) : option nat :=
  if decide (pat `prefix_of` l) then Some 0
  else match l with
       | [] => None
       | _ :: l => S <$> naive_find pat l
       end.

Fixpoint naive_find_iter (fuel : nat) (pat l : bytes) : list nat :=
  match fuel with
  | 0 => []
  | S fuel =>
      match naive_find pat l with
      | None => []
      | Some i =>
          i :: ((λ j, i + length pat + j) <$>
                naive_find_iter fuel pat (drop (i + length pat) l))
      end
  end.

Definition naive_memchr : Memchr := {|
  memchr b := position (Byte.eqb b);
  memchr2 b c := position (λ x, Byte.eqb b x || Byte.eqb c x);
  memmem_find := naive_find;
  memmem_find_iter pat l := naive_find_iter (S (length l)) pat l;
|}.

(** * Automation *)

(** Lemmas that normalise lengths, slices and lookups. *)
Create HintDb nntp discriminated.
Create Rewrite HintDb nntp.

#[export] Hint Rewrite @length_app @length_take @length_drop @length_nil @length_cons
  @length_reverse @length_fmap @drop_drop @take_take @drop_0 @take_0 @app_nil_r
  @app_nil_l @length_insert @length_replicate : nntp.

(** Case analysis on the scrutinee of every [match] and [if] of the goal and
    the hypotheses, with equations, then substitution. *)
Ltac split_matches :=
  repeat (case_match; simplify_eq/=).

(** Turn boolean tests into propositions. *)
Ltac reflect_bools :=
  repeat match goal with
  | H : (_ && _) = true |- _ => apply andb_true_iff in H; destruct H
  | H : (_ || _) = false |- _ => apply orb_false_iff in H; destruct H
  | H : negb _ = true |- _ => apply negb_true_iff in H
  | H : negb _ = false |- _ => apply negb_false_iff in H
  | H : bool_decide _ = true |- _ => apply bool_decide_eq_true in H
  | H : bool_decide _ = false |- _ => apply bool_decide_eq_false in H
  | H : (_ =? _)%N = true |- _ => apply N.eqb_eq in H
  | H : (_ =? _)%N = false |- _ => apply N.eqb_neq in H
  | H : (_ <? _)%N = true |- _ => apply N.ltb_lt in H
  | H : (_ <? _)%N = false |- _ => apply N.ltb_ge in H
  | H : (_ <=? _)%N = true |- _ => apply N.leb_le in H
  | H : (_ <=? _)%N = false |- _ => apply N.leb_gt in H
  | H : (_ =? _) = true |- _ => apply Nat.eqb_eq in H
  | H : (_ =? _) = false |- _ => apply Nat.eqb_neq in H
  | H : (_ <? _) = true |- _ => apply Nat.ltb_lt in H
  | H : (_ <? _) = false |- _ => apply Nat.ltb_ge in H
  | H : (_ <=? _) = true |- _ => apply Nat.leb_le in H
  | H : (_ <=? _) = false |- _ => apply Nat.leb_gt in H
  | H : Byte.eqb _ _ = true |- _ => apply Byte.byte_dec_bl in H
  end.

(** Length and index side conditions. *)
Ltac len := autorewrite with nntp in *; simpl in *; try lia.

(** * Facts about bytes *)

Lemma byte_eqb_eq (x y : byte) : Byte.eqb x y = true ↔ x = y.
Proof. split; [apply Byte.byte_dec_bl | apply Byte.byte_dec_lb]. Qed.

Lemma byte_eqb_neq (x y : byte) : Byte.eqb x y = false ↔ x ≠ y.
Proof. rewrite <-not_true_iff_false, byte_eqb_eq. done. Qed.

Lemma byte_to_N_lt (b : byte) : (Byte.to_N b < 256)%N.
Proof. destruct b; reflexivity. Qed.

Lemma byte_to_N_inj (x y : byte) : Byte.to_N x = Byte.to_N y → x = y.
Proof.
  intros H. apply (f_equal Byte.of_N) in H. rewrite !Byte.of_to_N in H. by simplify_eq.
Qed.

Lemma byte_of_N_lt (n : N) : (n < 256)%N → ∃ b, Byte.of_N n = Some b ∧ Byte.to_N b = n.
Proof.
  intros Hn. destruct (Byte.of_N n) as [b|] eqn:E.
  - exists b. split; [done|]. by apply Byte.to_of_N.
  - apply Byte.of_N_None_iff in E. lia.
Qed.

#[global] Instance byte_countable : Countable byte :=
  inj_countable Byte.to_N Byte.of_N Byte.of_to_N.

Lemma byte_or_diag (b : byte) : byte_or b b = b.
Proof. destruct b; reflexivity. Qed.

Lemma utf8_valid_ascii (l : bytes) :
  Forall (λ b, byte_in x00 x7f b = true) l → utf8_valid l = true.
Proof. induction 1 as [|b l Hb _ IH]; simpl; [done|]. by rewrite Hb. Qed.

(** * Facts about slices and searches *)

Lemma slice_length {A} a b (l : list A) :
  a ≤ b → b ≤ length l → length (slice a b l) = b - a.
Proof. intros. unfold slice. len. Qed.

Lemma slice_full {A} (l : list A) : slice 0 (length l) l = l.
Proof. unfold slice. rewrite drop_0, Nat.sub_0_r. apply take_ge. lia. Qed.

Lemma position_Some {A} (p : A → bool) l i :
  position p l = Some i ↔
  (∃ x, l !! i = Some x ∧ p x = true) ∧
  ∀ j y, j < i → l !! j = Some y → p y = false.
Proof.
  revert i. induction l as [|x l IH]; intros i; simpl.
  { split; [done|]. intros [(y & Hy & _) _]. by rewrite lookup_nil in Hy. }
  destruct (p x) eqn:Hx.
  - split.
    + intros [= <-]. split; [by exists x|]. lia.
    + intros [_ Hlt]. destruct i as [|i]; [done|].
      specialize (Hlt 0 x). simpl in Hlt. rewrite Hlt in Hx; [done|lia|done].
  - rewrite fmap_Some. split.
    + intros (k & Hk & ->). apply IH in Hk as [(y & Hy & Hpy) Hlt].
      split; [by exists y|]. intros [|j] z Hj Hz; simpl in Hz; simplify_eq; [done|].
      eapply Hlt; [|done]. lia.
    + intros [(y & Hy & Hpy) Hlt]. destruct i as [|i]; simpl in Hy; [congruence|].
      exists i. split; [|done]. apply IH. split; [by exists y|].
      intros j z Hj Hz. apply (Hlt (S j) z); [lia|done].
Qed.

Lemma position_None {A} (p : A → bool) l :
  position p l = None ↔ Forall (λ x, p x = false) l.
Proof.
  induction l as [|x l IH]; simpl; [by split|].
  rewrite Forall_cons. destruct (p x) eqn:Hx; [naive_solver|].
  rewrite fmap_None, IH. naive_solver.
Qed.

Lemma position_app {A} (p : A → bool) l1 l2 :
  position p (l1 ++ l2) =
  match position p l1 with
  | Some i => Some i
  | None => (λ i, length l1 + i) <$> position p l2
  end.
Proof.
  induction l1 as [|x l1 IH]; simpl.
  { destruct (position p l2); done. }
  destruct (p x); [done|]. rewrite IH.
  destruct (position p l1); simpl; [done|]. by destruct (position p l2).
Qed.

Lemma position_lt {A} (p : A → bool) l i : position p l = Some i → i < length l.
Proof. intros [(x & Hx & _) _]%position_Some. by eapply lookup_lt_Some. Qed.

Lemma rposition_Some {A} (p : A → bool) l i :
  rposition p l = Some i →
  (∃ x, l !! i = Some x ∧ p x = true) ∧ i < length l ∧
  ∀ j y, i < j → l !! j = Some y → p y = false.
Proof.
  unfold rposition. intros (k & Hk & ->)%fmap_Some.
  pose proof (position_lt _ _ _ Hk) as Hlt. rewrite length_reverse in Hlt.
  apply position_Some in Hk as [(x & Hx & Hpx) Hbefore].
  rewrite reverse_lookup_Some in Hx. destruct Hx as [Hx _].
  replace (length l - 1 - k) with (length l - S k) by lia.
  split; [by exists x|]. split; [lia|].
  intros j y Hj Hy. pose proof (lookup_lt_Some _ _ _ Hy).
  apply (Hbefore (length l - S j) y); [lia|].
  apply reverse_lookup_Some. replace (length l - S (length l - S j)) with j by lia.
  split; [done|lia].
Qed.

Lemma match_at_length {A} (pat l : list A) i :
  match_at pat l i → pat ≠ [] → i + length pat ≤ length l.
Proof.
  unfold match_at. intros Hp Hne. pose proof (prefix_length _ _ Hp) as Hl.
  rewrite length_drop in Hl. destruct pat; [done|]. simpl in *. lia.
Qed.

Lemma match_at_app_l {A} (pat l1 l2 : list A) i :
  i + length pat ≤ length l1 → match_at pat (l1 ++ l2) i ↔ match_at pat l1 i.
Proof.
  intros Hl. unfold match_at. rewrite drop_app_le by lia. split.
  - intros Hp.
    destruct (prefix_weak_total pat (drop i l1) (drop i l1 ++ l2)) as [?|Hq];
      [done|by exists l2|done|].
    rewrite (prefix_length_eq _ _ Hq); [done|]. rewrite length_drop. lia.
  - intros Hp. by apply prefix_app_r.
Qed.

Lemma match_at_drop {A} (pat l : list A) k i :
  match_at pat (drop k l) i ↔ match_at pat l (k + i).
Proof. unfold match_at. by rewrite drop_drop. Qed.

Lemma match_at_take {A} (pat l : list A) n i :
  i + length pat ≤ n → n ≤ length l → match_at pat (take n l) i ↔ match_at pat l i.
Proof.
  intros Hi Hn. rewrite <-(take_drop n l) at 2.
  rewrite match_at_app_l; [done|]. rewrite length_take. lia.
Qed.

#[global] Instance match_at_dec {A} `{EqDecision A} (pat l : list A) i :
  Decision (match_at pat l i).
Proof. unfold match_at. apply _. Defined.

Lemma leftmost_unique {A} (pat l : list A) r r' :
  leftmost pat l r → leftmost pat l r' → r = r'.
Proof.
  destruct r as [i|], r' as [j|]; simpl; [|naive_solver..].
  intros [Hi Hbi] [Hj Hbj]. destruct (Nat.lt_total i j) as [?|[?|?]]; naive_solver.
Qed.

Lemma naive_find_leftmost (pat l : bytes) : leftmost pat l (naive_find pat l).
Proof.
  induction l as [|x l IH]; simpl; case_decide as Hd.
  - split; [done|lia].
  - intros j Hj. unfold match_at in Hj. by rewrite drop_nil in Hj.
  - split; [done|lia].
  - destruct (naive_find pat l) as [i|]; simpl in *.
    + destruct IH as [Hi Hb]. split; [done|].
      intros [|j] Hj; [done|]. apply (Hb j). lia.
    + intros [|j]; [done|]. apply IH.
Qed.

Lemma naive_find_iter_fuel fuel (pat l : bytes) :
  pat ≠ [] → length l < fuel →
  naive_find_iter fuel pat l = naive_find_iter (S (length l)) pat l.
Proof.
  intros Hpat. revert l. induction (lt_wf fuel) as [fuel _ IH]. intros l Hl.
  destruct fuel as [|fuel]; [lia|]. simpl.
  destruct (naive_find pat l) as [i|] eqn:E; [|done]. do 2 f_equal.
  pose proof (naive_find_leftmost pat l) as Hlm. rewrite E in Hlm.
  destruct Hlm as [Hm _]. apply match_at_length in Hm; [|done].
  assert (0 < length pat) by (destruct pat; simpl; [done|lia]).
  rewrite IH by (rewrite ?length_drop; lia). symmetry.
  rewrite IH by (rewrite ?length_drop; lia). done.
Qed.

#[global] Instance naive_memchr_spec : MemchrSpec naive_memchr.
Proof.
  split; simpl; [done|done|apply naive_find_leftmost|].
  intros pat l Hpat. destruct (naive_find pat l) as [i|] eqn:E; [|done].
  do 2 f_equal. pose proof (naive_find_leftmost pat l) as Hlm. rewrite E in Hlm.
  destruct Hlm as [Hm _]. apply match_at_length in Hm; [|done].
  assert (0 < length pat) by (destruct pat; simpl; [done|lia]).
  rewrite naive_find_iter_fuel; [done|done|]. rewrite length_drop. lia.
Qed.

Lemma length_lastn {A} n (l : list A) : length (lastn n l) = Nat.min n (length l).
Proof. unfold lastn. rewrite length_drop. lia. Qed.

Lemma lastn_all {A} n (l : list A) : length l ≤ n → lastn n l = l.
Proof. intros H. unfold lastn. replace (length l - n) with 0 by lia. done. Qed.

Lemma lastn_app {A} n (l1 l2 : list A) :
  lastn n (l1 ++ l2) = lastn (n - length l2) l1 ++ lastn n l2.
Proof.
  unfold lastn. rewrite length_app.
  destruct (decide (n ≤ length l2)).
  - rewrite drop_app_ge by lia. replace (n - length l2) with 0 by lia.
    rewrite Nat.sub_0_r, drop_all. simpl. f_equal. lia.
  - rewrite drop_app_le by lia. f_equal; [f_equal; lia|].
    by replace (length l2 - n) with 0 by lia.
Qed.

Lemma lastn_lastn_app {A} n (l1 l2 : list A) :
  lastn n (lastn n l1 ++ l2) = lastn n (l1 ++ l2).
Proof.
  rewrite !lastn_app. f_equal. unfold lastn. rewrite drop_drop, length_drop.
  destruct (decide (n ≤ length l1)); f_equal; lia.
Qed.

Lemma lastn_suffix {A} n (l : list A) : ∃ k, l = k ++ lastn n l.
Proof. exists (take (length l - n) l). unfold lastn. by rewrite take_drop. Qed.

Lemma lastn_app_ge {A} n (l1 l2 : list A) : n ≤ length l2 → lastn n (l1 ++ l2) = lastn n l2.
Proof.
  intros Hn. rewrite lastn_app. replace (n - length l2) with 0 by lia.
  unfold lastn at 1. by rewrite Nat.sub_0_r, drop_all.
Qed.

(** The first line of a byte string that contains the separator [c]. *)
Lemma position_line (c : byte) l i :
  position (Byte.eqb c) l = Some i →
  ∃ line rest, l = line ++ c :: rest ∧ length line = i ∧ c ∉ line.
Proof.
  intros [(x & Hx & ->%byte_eqb_eq) Hb]%position_Some.
  exists (take i l), (drop (S i) l). split_and!.
  - by rewrite take_drop_middle.
  - rewrite length_take. apply lookup_lt_Some in Hx. lia.
  - intros (j & Hj)%list_elem_of_lookup. apply lookup_take_Some in Hj as [Hj Hlt].
    specialize (Hb j x Hlt Hj). by apply byte_eqb_neq in Hb.
Qed.

(** The number of elements for which [f] holds. *)
Definition count_if {A} (f : A → bool) (l : list A) : nat := length (List.filter f l).

Lemma count_if_app {A} (f : A → bool) l1 l2 : count_if f (l1 ++ l2) = count_if f l1 + count_if f l2.
Proof. unfold count_if. by rewrite List.filter_app, length_app. Qed.

Lemma count_if_pos {A} (f : A → bool) l i x : l !! i = Some x → f x = true → 0 < count_if f l.
Proof.
  intros Hi Hf. unfold count_if. rewrite <- (take_drop_middle l i x Hi), List.filter_app, length_app. cbn [List.filter]. rewrite Hf. cbn. lia.
Qed.

Lemma count_if_none {A} (f : A → bool) l : Forall (λ x, f x = false) l → count_if f l = 0.
Proof. unfold count_if. induction 1 as [|x l Hx _ IH]; [done|]. cbn [List.filter]. by rewrite Hx. Qed.

#[global] Instance count_if_proper {A} (f : A → bool) : Proper ((≡ₚ) ==> (=)) (count_if f).
Proof. unfold count_if. induction 1; cbn; repeat case_match; cbn; congruence. Qed.

Lemma count_if_insert {A} (f : A → bool) l i x y :
  l !! i = Some x → count_if f (<[i := y]> l) + (if f x then 1 else 0) = count_if f l + (if f y then 1 else 0).
Proof.
  intros Hi. unfold count_if. rewrite <- (take_drop_middle l i x Hi) at 2.
  rewrite (insert_take_drop l i y) by (by eapply lookup_lt_Some).
  rewrite !List.filter_app, !length_app. cbn [List.filter]. destruct (f x), (f y); cbn; lia.
Qed.
