(* ===== verification/Protocol.v ===== *)
(** * Protocol: status codes, message identifiers, local responses

    Models [src/src/protocol/codes.rs], [src/src/protocol/response.rs]
    ([StatusCode] and its parser), [src/src/types/protocol.rs] ([MessageId])
    and the static responses of [src/src/protocol/responses.rs]. *)

From S2P Require Import Prelude.

(** ** Status codes ([protocol/codes.rs]) *)
Module codes.
Definition HELP_TEXT : N := 100.
Definition CAPABILITY_LIST : N := 101.
Definition CONNECTION_CLOSING : N := 205.
Definition GROUP_SELECTED : N := 211.
Definition INFORMATION_FOLLOWS : N := 215.
Definition ARTICLE_FOLLOWS : N := 220.
Definition HEAD_FOLLOWS : N := 221.
Definition BODY_FOLLOWS : N := 222.
Definition ARTICLE_EXISTS : N := 223.
Definition OVERVIEW_FOLLOWS : N := 224.
Definition HEADERS_FOLLOW : N := 225.
Definition NEW_ARTICLES_FOLLOW : N := 230.
Definition NEW_GROUPS_FOLLOW : N := 231.
Definition AUTH_ACCEPTED : N := 281.
Definition PASSWORD_REQUIRED : N := 381.
Definition NO_SUCH_ARTICLE_ID : N := 430.
Definition AUTH_REQUIRED : N := 480.
Definition AUTH_REJECTED : N := 481.
Definition AUTH_OUT_OF_SEQUENCE : N := 482.
Definition COMMAND_SYNTAX_ERROR : N := 501.
Definition ACCESS_DENIED : N := 502.
Definition FEATURE_NOT_SUPPORTED : N := 503.
End codes.

(** ** [StatusCode] ([protocol/response.rs]) *)

(** The field is private in the source: values come from [try_new] only. *)
Record StatusCode := mkStatusCode { as_u16 : N }.

#[global] Instance StatusCode_eq_dec : EqDecision StatusCode.
Proof. solve_decision. Defined.

Definition StatusCode_MIN : N := 100.
Definition StatusCode_MAX : N := 599.

Definition try_new (value : N) : option StatusCode :=
  if (StatusCode_MIN <=? value)%N && (value <=? StatusCode_MAX)%N
  then Some (mkStatusCode value) else None.

Definition is_success (s : StatusCode) : bool := (200 <=? as_u16 s)%N && (as_u16 s <? 400)%N.
Definition is_error (s : StatusCode) : bool := (400 <=? as_u16 s)%N && (as_u16 s <? 600)%N.
Definition is_continuation (s : StatusCode) : bool :=
  (300 <=? as_u16 s)%N && (as_u16 s <? 400)%N.
Definition is_informational (s : StatusCode) : bool :=
  (100 <=? as_u16 s)%N && (as_u16 s <? 200)%N.
Definition is_greeting (s : StatusCode) : bool := (as_u16 s =? 200)%N || (as_u16 s =? 201)%N.
Definition requires_auth_credentials (s : StatusCode) : bool :=
  (as_u16 s =? 381)%N || (as_u16 s =? 480)%N.
Definition is_auth_accepted (s : StatusCode) : bool := (as_u16 s =? 281)%N.
Definition is_article_missing (s : StatusCode) : bool := (as_u16 s =? 430)%N.

(** [b.wrapping_sub(b'0')] on [u8]. *)
Definition digit_value (b : byte) : N := ((Byte.to_N b + 256 - 48) mod 256)%N.

(** [StatusCode::parse] *)
Definition parse (data : bytes) : option StatusCode :=
  match data with
  | b0 :: b1 :: b2 :: _ =>
      let d0 := digit_value b0 in
      let d1 := digit_value b1 in
      let d2 := digit_value b2 in
      if (9 <? d0)%N || (9 <? d1)%N || (9 <? d2)%N then None
      else try_new (d0 * 100 + d1 * 10 + d2)%N
  | _ => None
  end.

(** [u64::from_str]: an optional plus sign and at least one digit. *)
Definition parse_u64 (s : bytes) : option N :=
  let digits := match s with x2b :: s => s | _ => s end in
  if negb (bool_decide (digits = [])) && forallb (λ b, (digit_value b <=? 9)%N) digits
  then
    let v := foldl (λ v b, (v * 10 + digit_value b)%N) 0%N digits in
    if (v <=? u64_max)%N then Some v else None
  else None.

(** ** Message identifiers ([types/protocol.rs]) *)

Definition MIN_MESSAGE_ID_OCTETS : nat := 3.
Definition MAX_MESSAGE_ID_OCTETS : nat := 250.

Inductive ValidationError :=
| EmptyHostName
| EmptyServerName
| InvalidMessageId
| EmptyConfigPath
| EmptyUsername
| EmptyPassword.

(** [ValidatedMessageId::validate] *)
Definition validate_message_id (s : bytes) : result ValidationError unit :=
  if negb ((MIN_MESSAGE_ID_OCTETS <=? length s) && (length s <=? MAX_MESSAGE_ID_OCTETS))
     || negb (bool_decide (head s = Some x3c))
     || negb (bool_decide (last s = Some x3e))
  then Err InvalidMessageId
  else
    let inner := slice 1 (length s - 1) s in
    if existsb (λ b, negb (byte_in x21 x7e b) || Byte.eqb b x3e) inner
    then Err InvalidMessageId
    else Ok ().

(** A [MessageId] is a string that passed [validate]. *)
Record MessageId := mkMessageId { message_id_str : bytes }.

(** [MessageId::from_borrowed] and [MessageId::new]. *)
Definition MessageId_new (s : bytes) : result ValidationError MessageId :=
  _ ← validate_message_id s; mret (mkMessageId s).

Definition has_angle_brackets (s : bytes) : bool :=
  bool_decide (head s = Some x3c) && bool_decide (last s = Some x3e).

(** [MessageId::from_str_or_wrap] *)
Definition from_str_or_wrap (s : bytes) : result ValidationError MessageId :=
  match s with
  | [] => Err InvalidMessageId
  | _ => MessageId_new (if has_angle_brackets s then s else x3c :: s ++ [x3e])
  end.

(** [without_brackets]: [strip_prefix('<')] then [strip_suffix('>')]; [None]
    is the [expect] that panics. *)
Definition without_brackets (m : MessageId) : option bytes :=
  match message_id_str m with
  | x3c :: rest =>
      match last rest with
      | Some x3e => Some (take (length rest - 1) rest)
      | _ => None
      end
  | _ => None
  end.

(** ** Local responses ([protocol/responses.rs]) *)
Module responses.
Definition MIN_RESPONSE_LENGTH : nat := 5.
Definition AUTH_REQUIRED : bytes := bs "381 Password required" ++ CRLF.
Definition AUTH_ACCEPTED : bytes := bs "281 Authentication accepted" ++ CRLF.
Definition AUTH_FAILED : bytes := bs "481 Authentication failed" ++ CRLF.
Definition AUTH_REQUIRED_FOR_COMMAND : bytes := bs "480 Authentication required" ++ CRLF.
Definition AUTH_OUT_OF_SEQUENCE : bytes :=
  bs "482 Authentication commands issued out of sequence" ++ CRLF.
Definition AUTH_ALREADY_AUTHENTICATED : bytes := bs "502 Already authenticated" ++ CRLF.
Definition AUTH_UNKNOWN_SUBCOMMAND : bytes := bs "501 Syntax error in command" ++ CRLF.
Definition CONNECTION_CLOSING : bytes := bs "205 Connection closing" ++ CRLF.
Definition POSTING_NOT_PERMITTED : bytes := bs "440 Posting not permitted" ++ CRLF.
Definition BACKEND_ERROR : bytes := bs "503 Backend error" ++ CRLF.
Definition BACKEND_UNAVAILABLE : bytes := bs "400 Backend server unavailable" ++ CRLF.
Definition COMMAND_TOO_LONG : bytes := bs "501 Command too long" ++ CRLF.
Definition COMMAND_SYNTAX_ERROR_RESPONSE : bytes := bs "501 Syntax error in command" ++ CRLF.
Definition NO_SUCH_ARTICLE : bytes := bs "430 No such article" ++ CRLF.
End responses.

(** ** Properties of status codes *)

(** Every [StatusCode] the program can hold. *)
Definition status_ok (s : StatusCode) : Prop := (100 <= as_u16 s <= 599)%N.

Lemma try_new_Some v s : try_new v = Some s ↔ s = mkStatusCode v ∧ (100 <= v <= 599)%N.
Proof.
  unfold try_new, StatusCode_MIN, StatusCode_MAX.
  destruct (_ && _) eqn:E; reflect_bools.
  - split; [intros [= <-]; split; [done|lia]|by intros [-> _]].
  - split; [done|]. intros [-> Hv]. apply andb_false_iff in E as [E|E]; reflect_bools; lia.
Qed.

(** The ASCII digit of a value below ten. *)
Definition digit_byte (n : N) : byte := default x00 (Byte.of_N (48 + n)).

(** The three digits [StatusCode]'s [Display] prints. *)
Definition print_status (s : StatusCode) : bytes :=
  [digit_byte (as_u16 s / 100); digit_byte (as_u16 s / 10 mod 10); digit_byte (as_u16 s mod 10)].

Lemma digit_value_digit_byte n : (n <= 9)%N → digit_value (digit_byte n) = n.
Proof.
  intros Hn. unfold digit_value, digit_byte.
  destruct (byte_of_N_lt (48 + n)) as (b & -> & Hb); [lia|]. simpl. rewrite Hb.
  replace (48 + n + 256 - 48)%N with (n + 1 * 256)%N by lia.
  rewrite N.Div0.mod_add. apply N.mod_small. lia.
Qed.

Lemma digit_value_small b : (digit_value b <= 9)%N → b = digit_byte (digit_value b).
Proof.
  unfold digit_value, digit_byte. destruct b; simpl; intros H; first [reflexivity|exfalso].
  all: vm_compute in H; congruence.
Qed.

Lemma parse_Some data s :
  parse data = Some s ↔ status_ok s ∧ ∃ rest, data = print_status s ++ rest.
Proof.
  unfold parse, status_ok. split.
  - destruct data as [|b0 [|b1 [|b2 rest]]]; try done.
    destruct (_ || _) eqn:E; [done|]. reflect_bools.
    intros [-> Hr]%try_new_Some. cbn [as_u16]. split; [done|]. exists rest.
    unfold print_status; cbn [as_u16 app].
    set (d0 := digit_value b0) in *. set (d1 := digit_value b1) in *.
    set (d2 := digit_value b2) in *.
    replace ((d0 * 100 + d1 * 10 + d2) / 100)%N with d0
      by (apply (N.div_unique _ 100 _ (d1 * 10 + d2)); lia).
    replace ((d0 * 100 + d1 * 10 + d2) / 10)%N with (d0 * 10 + d1)%N
      by (apply (N.div_unique _ 10 _ d2); lia).
    replace ((d0 * 10 + d1) mod 10)%N with d1 by (apply (N.mod_unique _ 10 d0); lia).
    replace ((d0 * 100 + d1 * 10 + d2) mod 10)%N with d2
      by (apply (N.mod_unique _ 10 (d0 * 10 + d1)); lia).
    unfold d0, d1, d2. rewrite <-!digit_value_small by (unfold d0, d1, d2 in *; lia). done.
  - intros [Hok (rest & ->)]. destruct s as [v]; simpl in *.
    pose proof (N.mod_lt v 10). pose proof (N.mod_lt (v / 10) 10).
    assert (v / 100 <= 9)%N by (apply N.lt_succ_r, N.Div0.div_lt_upper_bound; lia).
    rewrite !digit_value_digit_byte by lia.
    replace (_ || _) with false by (symmetry; rewrite !orb_false_iff, !N.ltb_ge; lia).
    assert (v / 100 * 100 + v / 10 mod 10 * 10 + v mod 10 = v)%N as ->.
    { pose proof (N.Div0.div_mod v 10). pose proof (N.Div0.div_mod (v / 10) 10) as Hd.
      rewrite N.Div0.div_div in Hd. change (10 * 10)%N with 100%N in Hd. lia. }
    by apply try_new_Some.
Qed.

(** ** Properties of message identifiers *)

(** The shape RFC 3977 gives a message-id, as the code checks it. *)
Definition message_id_inner (inner : bytes) : Prop :=
  1 ≤ length inner ≤ 248 ∧ Forall (λ b, byte_in x21 x7e b = true ∧ b ≠ x3e) inner.

Lemma bracketed_shape (s : bytes) (x y : byte) :
  head s = Some x → last s = Some y → 2 ≤ length s →
  s = x :: slice 1 (length s - 1) s ++ [y].
Proof.
  destruct s as [|a s]; [done|]. cbn [head]. intros [= ->] Hl Hlen. f_equal.
  destruct (last_Some (x :: s) y) as [Hls _]. destruct (Hls Hl) as [l' Hl'].
  destruct l' as [|b l']; simplify_eq/=; [simpl in Hlen; lia|].
  unfold slice. simpl. rewrite drop_0, length_app. simpl.
  replace (length l' + 1 - 0 - 1) with (length l') by lia. by rewrite take_app_length.
Qed.

Lemma validate_message_id_ok s :
  validate_message_id s = Ok () ↔
  ∃ inner, s = x3c :: inner ++ [x3e] ∧ message_id_inner inner.
Proof.
  unfold validate_message_id, message_id_inner, MIN_MESSAGE_ID_OCTETS, MAX_MESSAGE_ID_OCTETS.
  split.
  - destruct (_ || _) eqn:E; [done|]. reflect_bools.
    destruct (existsb _ _) eqn:Ex; [done|]. intros _.
    exists (slice 1 (length s - 1) s). split; [apply bracketed_shape; [done..|lia]|].
    split; [rewrite slice_length by lia; lia|].
    apply Forall_forall. intros b Hb. apply list_elem_of_In in Hb.
    assert (negb (byte_in x21 x7e b) || Byte.eqb b x3e = false) as Hf.
    { apply not_true_iff_false. intros Ht. apply not_true_iff_false in Ex. apply Ex.
      apply existsb_exists. eauto. }
    reflect_bools. split; [done|]. by apply byte_eqb_neq.
  - intros (inner & -> & Hlen & Hall).
    rewrite last_cons, last_snoc. simpl. rewrite length_app. simpl.
    replace (_ || _) with false; cycle 1.
    { symmetry. rewrite !orb_false_iff, !negb_false_iff, andb_true_iff.
      repeat split; try done; destruct (length inner + 1) as [|[|n]] eqn:En; try lia; try done.
      apply (Nat.leb_le (S (S n)) 249). lia. }
    unfold slice. simpl. rewrite drop_0.
    replace (length inner + 1 - 0 - 1) with (length inner) by lia.
    rewrite take_app_length.
    destruct (existsb _ _) eqn:Ex; [|done]. apply existsb_exists in Ex as (b & Hin & Hb).
    apply list_elem_of_In in Hin. rewrite Forall_forall in Hall.
    destruct (Hall b Hin) as [Hr Hne]. rewrite Hr in Hb. simpl in Hb. by reflect_bools.
Qed.

Lemma validate_message_id_length s :
  validate_message_id s = Ok () → 3 ≤ length s ≤ 250.
Proof.
  intros (inner & -> & [Hl _])%validate_message_id_ok. simpl. rewrite length_app. simpl. lia.
Qed.

(** Every validated identifier is ASCII, so it is also well-formed UTF-8. *)
Lemma validate_message_id_utf8 s : validate_message_id s = Ok () → utf8_valid s = true.
Proof.
  intros (inner & -> & [_ Hall])%validate_message_id_ok. apply utf8_valid_ascii.
  apply Forall_cons. split; [done|]. apply Forall_app. split; [|by constructor].
  eapply Forall_impl; [exact Hall|]. intros b [Hb _].
  unfold byte_in in *. reflect_bools. apply andb_true_iff. rewrite !N.leb_le.
  simpl in *. lia.
Qed.

Lemma MessageId_new_ok s m :
  MessageId_new s = Ok m ↔ validate_message_id s = Ok () ∧ m = mkMessageId s.
Proof.
  unfold MessageId_new, mbind, result_bind. destruct (validate_message_id s) as [[]|].
  - split; [by intros [= <-]|by intros [_ ->]].
  - split; [done|by intros [? _]].
Qed.

Lemma without_brackets_new s m :
  MessageId_new s = Ok m →
  ∃ inner, without_brackets m = Some inner ∧ s = x3c :: inner ++ [x3e] ∧ message_id_inner inner.
Proof.
  intros [(inner & -> & Hin)%validate_message_id_ok ->]%MessageId_new_ok.
  exists inner. split; [|done]. unfold without_brackets. simpl. rewrite last_snoc, length_app.
  simpl. replace (length inner + 1 - 1) with (length inner) by lia. by rewrite take_app_length.
Qed.

Lemma digit_byte_not_dot n : digit_byte n ≠ x2e.
Proof.
  unfold digit_byte. destruct (Byte.of_N (48 + n)) as [b|] eqn:E; [|done].
  simpl. intros ->. apply Byte.to_of_N in E. cbn in E. lia.
Qed.
