(* ===== verification/Request.v ===== *)
(** * Request: the typed request context

    Models [src/src/protocol/request.rs]: the classification of command verbs,
    the parser of a client command line, the routing class of a request, the
    shape of its response, its serialisation, and the completion record; and
    the request constructors of [src/src/protocol/commands.rs]. *)

From S2P Require Import Prelude Protocol.

(** ** Data *)

Definition MAX_COMMAND_LINE_OCTETS : nat := 512.

Inductive RequestKind :=
| Article | Body | Head | Stat | Group | ListGroup | Last | Next | List | Date | Help
| Capabilities | Mode | Quit | Over | Xover | Hdr | Xhdr | NewGroups | NewNews | Post
| Ihave | Check_ | TakeThis | AuthInfo | StartTls | Compress | Unknown.

#[global] Instance RequestKind_eq_dec : EqDecision RequestKind.
Proof. solve_decision. Defined.

Inductive RequestRouteClass :=
| ArticleByMessageId | Stateless | Stateful | Local | Reject.

#[global] Instance RequestRouteClass_eq_dec : EqDecision RequestRouteClass.
Proof. solve_decision. Defined.

Inductive RequestCacheStatus := Hit | PartialHit | Miss.

Record RequestResponseMetadata := mkResponseMetadata {
  meta_status : StatusCode;
  meta_wire_len : nat;
}.

(** [RequestCacheAvailability]: two [usize] bitmaps indexed by backend. *)
Record RequestCacheAvailability := mkCacheAvailability {
  checked_bits : N;
  missing_bits_of : N;
}.

Definition backend_has_article (a : RequestCacheAvailability) (backend : N) : bool :=
  let mask := N.shiftl 1 backend in
  negb (N.land (checked_bits a) mask =? 0)%N && (N.land (missing_bits_of a) mask =? 0)%N.

Inductive RequestCachePayloadKind :=
| PkMissing | PkAvailabilityOnly | PkArticle | PkHead | PkBody | PkStat.

Record RequestCacheEntryMetadata := mkCacheEntryMetadata {
  entry_status : StatusCode;
  entry_availability : RequestCacheAvailability;
  entry_tier : N;
  entry_timestamp : N;
  entry_payload_kind : RequestCachePayloadKind;
  entry_article_number : option N;
}.

(** The backend variant's payload is only set by tests and is left out. *)
Inductive RequestCompletion :=
| CompletedLocal (response : RequestResponseMetadata)
| CompletedCache (response : RequestResponseMetadata)
| CompletedBackend (backend_id : N) (response : RequestResponseMetadata).

Record RequestContext := mkRequestContext {
  kind : RequestKind;
  verb : bytes;
  args : bytes;
  message_id_span : option (nat * nat);
  cache_status : option RequestCacheStatus;
  cache_entry : option RequestCacheEntryMetadata;
  completion : option RequestCompletion;
}.

Record RequestLine := mkRequestLine {
  line_kind : RequestKind;
  line_verb : bytes;
  line_args : bytes;
  line_message_id : option (nat * nat);
}.

(** ** Helpers of the parser *)

(** The loop of [trim_line_end] removes one byte per round. *)
Fixpoint trim_line_end_loop (fuel : nat) (line : bytes) : bytes :=
  match fuel with
  | 0 => line
  | S fuel =>
      match last line with
      | Some x0d | Some x0a => trim_line_end_loop fuel (take (length line - 1) line)
      | _ => line
      end
  end.

Definition trim_line_end (line : bytes) : bytes := trim_line_end_loop (length line) line.

Definition ascii_upper (b : byte) : byte :=
  if byte_in x61 x7a b then default b (Byte.of_N (Byte.to_N b - 32)) else b.

(** [eq_ignore_ascii_case_const]: length test, then the index loop. *)
Fixpoint eq_ignore_loop (left_ right_ : bytes) : bool :=
  match left_, right_ with
  | x :: l, y :: r => if negb (Byte.eqb (ascii_upper x) (ascii_upper y)) then false
                      else eq_ignore_loop l r
  | _, _ => true
  end.

Definition eq_ignore_ascii_case_const (left_ right_ : bytes) : bool :=
  if negb (length left_ =? length right_) then false else eq_ignore_loop left_ right_.

(** The table of one verb length: the first literal that matches wins. *)
Fixpoint classify_in (verb : bytes) (table : list (string * RequestKind)) : RequestKind :=
  match table with
  | [] => Unknown
  | (lit, k) :: table =>
      if eq_ignore_ascii_case_const verb (bs lit) then k else classify_in verb table
  end.

(** The verb literals of each length, as the macro [classify_verbs!] lists them. *)
Definition verb_table (len : nat) : list (string * RequestKind) :=
  match len with
  | 3 => [("HDR", Hdr)]
  | 4 =>
      [("BODY", Body); ("DATE", Date); ("HEAD", Head); ("HELP", Help); ("LAST", Last);
       ("LIST", List); ("MODE", Mode); ("NEXT", Next); ("OVER", Over); ("POST", Post);
       ("QUIT", Quit); ("STAT", Stat); ("XHDR", Xhdr)]
  | 5 => [("CHECK", Check_); ("GROUP", Group); ("IHAVE", Ihave); ("XOVER", Xover)]
  | 7 => [("ARTICLE", Article); ("NEWNEWS", NewNews)]
  | 8 =>
      [("AUTHINFO", AuthInfo); ("COMPRESS", Compress); ("STARTTLS", StartTls);
       ("TAKETHIS", TakeThis)]
  | 9 => [("LISTGROUP", ListGroup); ("NEWGROUPS", NewGroups)]
  | 12 => [("CAPABILITIES", Capabilities)]
  | _ => []
  end.

Definition classify_verb (verb : bytes) : RequestKind :=
  classify_in verb (verb_table (length verb)).

Definition not_whitespace (b : byte) : bool := negb (is_ascii_whitespace b).

Definition find_message_id (args : bytes) : option (nat * nat) :=
  start ← position not_whitespace args;
  last_ ← rposition not_whitespace args;
  let end_ := S last_ in
  let trimmed := slice start end_ args in
  if negb (bool_decide (head trimmed = Some x3c))
     || negb (bool_decide (last trimmed = Some x3e))
     || existsb is_ascii_whitespace (slice 1 (length trimmed - 1) trimmed)
  then None
  else if utf8_valid trimmed then
    match MessageId_new trimmed with
    | Ok _ => Some (start, end_)
    | Err _ => None
    end
  else None.

Definition route_class_of (k : RequestKind) (has_message_id : bool) : RequestRouteClass :=
  match k with
  | Capabilities | Quit | AuthInfo => Local
  | Post | Ihave | Check_ | TakeThis | StartTls | Compress => Reject
  | Article | Body | Head | Stat => if has_message_id then ArticleByMessageId else Stateful
  | Group | ListGroup | Last | Next | Over | Xover | Hdr | Xhdr | Unknown => Stateful
  | List | Date | Help | Mode | NewGroups | NewNews => Stateless
  end.

Definition status_implies_response_body (code : N) : bool :=
  existsb (N.eqb code)
    [codes.HELP_TEXT; codes.CAPABILITY_LIST; codes.INFORMATION_FOLLOWS;
     codes.ARTICLE_FOLLOWS; codes.HEAD_FOLLOWS; codes.BODY_FOLLOWS;
     codes.OVERVIEW_FOLLOWS; codes.HEADERS_FOLLOW; codes.NEW_ARTICLES_FOLLOW;
     codes.NEW_GROUPS_FOLLOW; 282; 288]%N.

(** The request kinds and codes of the [matches!] in
    [request_kind_has_response_body]. *)
Definition body_pair (k : RequestKind) (code : N) : bool :=
  match k with
  | Article => (code =? 220)%N
  | Head => (code =? 221)%N
  | Body => (code =? 222)%N
  | ListGroup => (code =? 211)%N
  | Help => (code =? 100)%N
  | Capabilities => (code =? 101)%N
  | List => (code =? 215)%N
  | Over | Xover => (code =? 224)%N
  | Hdr => (code =? 225)%N
  | Xhdr => (code =? 221)%N || (code =? 225)%N
  | NewNews => (code =? 230)%N
  | NewGroups => (code =? 231)%N
  | _ => false
  end.

Definition request_kind_has_response_body (k : RequestKind) (status : StatusCode) : bool :=
  let code := as_u16 status in
  if is_error status then false
  else body_pair k code
       || bool_decide (k = Unknown) && status_implies_response_body code.

(** ** [RequestContext] *)

Definition from_parts (k : RequestKind) (v a : bytes) (span : option (nat * nat))
    : RequestContext :=
  mkRequestContext k v a span None None None.

Definition from_verb_args (v a : bytes) : RequestContext :=
  from_parts (classify_verb v) v a (find_message_id a).

(** The argument slices are joined before they are scanned. *)
Definition from_verb_arg_slices (v : bytes) (a : list bytes) : RequestContext :=
  let joined_args := concat a in
  from_parts (classify_verb v) v joined_args (find_message_id joined_args).

Section Parser.
Context {MC : Memchr}.

(** [RequestLine::parse] *)
Definition parse_request_line (line : bytes) : RequestLine :=
  let b := trim_line_end line in
  let split_ := default (length b) (memchr2 x20 x09 b) in
  let v := take split_ b in
  let a := if split_ <? length b then drop (split_ + 1) b else [] in
  mkRequestLine (classify_verb v) v a (find_message_id a).

(** [RequestContext::parse] *)
Definition parse_request (line : bytes) : option RequestContext :=
  if MAX_COMMAND_LINE_OCTETS <? length line then None
  else
    let l := parse_request_line line in
    match line_verb l with
    | [] => None
    | _ => Some (from_parts (line_kind l) (line_verb l) (line_args l) (line_message_id l))
    end.
End Parser.

#[global] Arguments parse_request_line {_} _ : simpl never.

Definition has_message_id (r : RequestContext) : bool := bool_decide (is_Some (message_id_span r)).

(** [message_id_value]: [None] when the span is absent or fails validation. *)
Definition message_id_value (r : RequestContext) : option MessageId :=
  '(start, end_) ← message_id_span r;
  let s := slice start end_ (args r) in
  if utf8_valid s then
    match MessageId_new s with Ok m => Some m | Err _ => None end
  else None.

Definition route_class (r : RequestContext) : RequestRouteClass :=
  route_class_of (kind r) (has_message_id r).

Definition is_pipelineable (r : RequestContext) : bool :=
  bool_decide (route_class r = ArticleByMessageId).

Definition is_large_transfer (r : RequestContext) : bool :=
  match kind r with Article | Body => has_message_id r | _ => false end.

Definition has_response_body (r : RequestContext) (status : StatusCode) : bool :=
  request_kind_has_response_body (kind r) status.

Definition request_wire_len (r : RequestContext) : nat :=
  length (verb r) + (if bool_decide (args r = []) then 0 else 1) + length (args r) + 2.

(** [write_wire_to]: the slices handed to the vectored write, in order. *)
Definition write_wire_slices (r : RequestContext) : list bytes :=
  match args r with
  | [] => [verb r; CRLF]
  | _ => [verb r; [x20]; args r; CRLF]
  end.

Definition write_wire (r : RequestContext) : bytes := concat (write_wire_slices r).

(** ** Recording what happened to the request *)

Definition record_cache_status (s : RequestCacheStatus) (r : RequestContext) : RequestContext :=
  mkRequestContext (kind r) (verb r) (args r) (message_id_span r) (Some s)
    (cache_entry r) (completion r).

Definition record_cache_entry_metadata (m : RequestCacheEntryMetadata) (r : RequestContext)
    : RequestContext :=
  mkRequestContext (kind r) (verb r) (args r) (message_id_span r) (cache_status r)
    (Some m) (completion r).

Definition set_completion (c : RequestCompletion) (s : option RequestCacheStatus)
    (r : RequestContext) : RequestContext :=
  mkRequestContext (kind r) (verb r) (args r) (message_id_span r) s (cache_entry r) (Some c).

Definition record_backend_response (backend : N) (m : RequestResponseMetadata)
    (r : RequestContext) : RequestContext :=
  set_completion (CompletedBackend backend m) (cache_status r) r.

Definition record_cache_response (m : RequestResponseMetadata) (r : RequestContext)
    : RequestContext :=
  set_completion (CompletedCache m) (Some Hit) r.

Definition record_local_response (m : RequestResponseMetadata) (r : RequestContext)
    : RequestContext :=
  set_completion (CompletedLocal m) (cache_status r) r.

Definition response_metadata (r : RequestContext) : option RequestResponseMetadata :=
  match completion r with
  | Some (CompletedLocal m) | Some (CompletedCache m) | Some (CompletedBackend _ m) => Some m
  | None => None
  end.

Definition response_status (r : RequestContext) : option StatusCode :=
  meta_status <$> response_metadata r.

Definition backend_id (r : RequestContext) : option N :=
  match completion r with Some (CompletedBackend b _) => Some b | _ => None end.

(** [clone_for_background_probe] *)
Definition clone_for_background_probe (r : RequestContext) : RequestContext :=
  mkRequestContext (kind r) (verb r) (args r) (message_id_span r) (cache_status r)
    (cache_entry r) None.

(** ** Request constructors ([protocol/commands.rs]) *)

Definition authinfo_user (username : bytes) : RequestContext :=
  from_verb_arg_slices (bs "AUTHINFO") [bs "USER "; username].

Definition authinfo_pass (password : bytes) : RequestContext :=
  from_verb_arg_slices (bs "AUTHINFO") [bs "PASS "; password].

Definition article_request (m : MessageId) : RequestContext :=
  from_verb_args (bs "ARTICLE") (message_id_str m).

Definition body_request (m : MessageId) : RequestContext :=
  from_verb_args (bs "BODY") (message_id_str m).

Definition head_request (m : MessageId) : RequestContext :=
  from_verb_args (bs "HEAD") (message_id_str m).

Definition stat_request (m : MessageId) : RequestContext :=
  from_verb_args (bs "STAT") (message_id_str m).

Definition date_request : RequestContext := from_verb_args (bs "DATE") [].

(** ** Verb classification *)

(** The canonical spelling of each command verb. *)
Definition verb_name (k : RequestKind) : string :=
  match k with
  | Article => "ARTICLE" | Body => "BODY" | Head => "HEAD" | Stat => "STAT"
  | Group => "GROUP" | ListGroup => "LISTGROUP" | Last => "LAST" | Next => "NEXT"
  | List => "LIST" | Date => "DATE" | Help => "HELP" | Capabilities => "CAPABILITIES"
  | Mode => "MODE" | Quit => "QUIT" | Over => "OVER" | Xover => "XOVER" | Hdr => "HDR"
  | Xhdr => "XHDR" | NewGroups => "NEWGROUPS" | NewNews => "NEWNEWS" | Post => "POST"
  | Ihave => "IHAVE" | Check_ => "CHECK" | TakeThis => "TAKETHIS"
  | AuthInfo => "AUTHINFO" | StartTls => "STARTTLS" | Compress => "COMPRESS"
  | Unknown => EmptyString
  end.

Lemma eq_ignore_loop_upper l r :
  length l = length r →
  eq_ignore_loop l r = bool_decide (ascii_upper <$> l = ascii_upper <$> r).
Proof.
  revert r. induction l as [|x l IH]; intros [|y r] Hl; simplify_eq/=; [done|].
  rewrite IH by done. destruct (Byte.eqb _ _) eqn:E; simpl.
  - apply byte_eqb_eq in E. rewrite E. apply bool_decide_ext. split; congruence.
  - apply byte_eqb_neq in E. symmetry. apply bool_decide_eq_false. congruence.
Qed.

Lemma eq_ignore_ascii_case_const_upper l r :
  eq_ignore_ascii_case_const l r = bool_decide (ascii_upper <$> l = ascii_upper <$> r).
Proof.
  unfold eq_ignore_ascii_case_const. destruct (Nat.eqb_spec (length l) (length r)) as [E|E].
  - by apply eq_ignore_loop_upper.
  - symmetry. apply bool_decide_eq_false. intros H%(f_equal length). by rewrite !length_fmap in H.
Qed.

Lemma classify_in_cases v tbl :
  classify_in v tbl = Unknown ∨
  ∃ lit, (lit, classify_in v tbl) ∈ tbl ∧ ascii_upper <$> v = ascii_upper <$> bs lit.
Proof.
  induction tbl as [|[lit k] tbl IH]; [by left|]. cbn [classify_in].
  rewrite eq_ignore_ascii_case_const_upper. case_bool_decide as E.
  - right. exists lit. split; [by left|done].
  - destruct IH as [?|(lit' & Hin & Hu)]; [by left|]. right. exists lit'. split; [by right|done].
Qed.

Lemma verb_table_names n :
  Forall (λ '(lit, k), ascii_upper <$> bs lit = bs (verb_name k)) (verb_table n).
Proof. do 13 (destruct n as [|n]; [repeat constructor|]). constructor. Qed.

Lemma classify_verb_name v :
  classify_verb v ≠ Unknown → ascii_upper <$> v = bs (verb_name (classify_verb v)).
Proof.
  unfold classify_verb. intros Hne.
  destruct (classify_in_cases v (verb_table (length v))) as [?|(lit & Hin & ->)]; [done|].
  pose proof (verb_table_names (length v)) as Hall. rewrite Forall_forall in Hall.
  apply (Hall _ Hin).
Qed.

Lemma verb_name_classify k v :
  k ≠ Unknown → ascii_upper <$> v = bs (verb_name k) → classify_verb v = k.
Proof.
  intros Hk Hv. unfold classify_verb.
  rewrite <-(length_fmap ascii_upper v), Hv.
  destruct k; try congruence; cbn -[eq_ignore_ascii_case_const];
    rewrite ?eq_ignore_ascii_case_const_upper, ?Hv; reflexivity.
Qed.

(** ** Line trimming *)

Definition is_eol (b : byte) : Prop := b = CR ∨ b = LF.
Definition no_eol_end (l : bytes) : Prop := ∀ b, last l = Some b → ¬ is_eol b.

Lemma trim_loop_no_eol n l : no_eol_end l → trim_line_end_loop n l = l.
Proof.
  intros Hl. destruct n as [|n]; [done|]. simpl. unfold no_eol_end, is_eol, CR, LF in Hl.
  destruct (last l) as [b|]; [|done]. specialize (Hl b eq_refl).
  destruct b; try done; exfalso; apply Hl; auto.
Qed.

Lemma trim_loop_app n l sfx :
  no_eol_end l → Forall is_eol sfx → length sfx ≤ n → trim_line_end_loop n (l ++ sfx) = l.
Proof.
  intros Hl. revert sfx. induction n as [|n IH]; intros sfx Hsfx Hn.
  - destruct sfx; [|simpl in Hn; lia]. by rewrite app_nil_r.
  - destruct sfx as [|c sfx _] using rev_ind; [by rewrite app_nil_r, trim_loop_no_eol|].
    apply Forall_app in Hsfx as [Hsfx Hc]. apply Forall_cons in Hc as [Hc _].
    rewrite length_app in Hn. simpl in Hn.
    assert (take (length (l ++ sfx ++ [c]) - 1) (l ++ sfx ++ [c]) = l ++ sfx) as Ht.
    { rewrite app_assoc. rewrite length_app. simpl.
      replace (length (l ++ sfx) + 1 - 1) with (length (l ++ sfx)) by lia.
      by rewrite take_app_length. }
    cbn [trim_line_end_loop]. rewrite Ht, app_assoc, last_snoc.
    destruct Hc as [-> | ->]; apply IH; (done || lia).
Qed.

Lemma trim_line_end_app l sfx :
  no_eol_end l → Forall is_eol sfx → trim_line_end (l ++ sfx) = l.
Proof. intros. apply trim_loop_app; [done..|]. rewrite length_app. lia. Qed.

Lemma trim_line_end_decomp line :
  ∃ sfx, line = trim_line_end line ++ sfx ∧ Forall is_eol sfx ∧ no_eol_end (trim_line_end line).
Proof.
  assert (∃ l sfx, line = l ++ sfx ∧ Forall is_eol sfx ∧ no_eol_end l) as (l & sfx & -> & Hs & Hl).
  { induction line as [|b line IH] using rev_ind; [by exists [], []|].
    assert (is_eol b ∨ ¬ is_eol b) as [Hb|Hb].
    { unfold is_eol. destruct (decide (b = CR)), (decide (b = LF)); naive_solver. }
    - destruct IH as (l & sfx & -> & Hs & Hl). exists l, (sfx ++ [b]).
      rewrite app_assoc. repeat split; [|done]. apply Forall_app. auto using Forall_cons.
    - exists (line ++ [b]), []. rewrite app_nil_r. repeat split; [constructor|].
      intros c. rewrite last_snoc. by intros [= ->]. }
  exists sfx. by rewrite trim_line_end_app.
Qed.

(** ** Message-id arguments *)

Lemma whitespace_not_printable b : is_ascii_whitespace b = true → byte_in x21 x7e b = false.
Proof. destruct b; done. Qed.

(** A span found in the arguments always holds a valid message-id. *)
Lemma find_message_id_sound a s e :
  find_message_id a = Some (s, e) → validate_message_id (slice s e a) = Ok ().
Proof.
  unfold find_message_id. intros H.
  destruct (position _ a) as [st|]; simpl in H; [|done].
  destruct (rposition _ a) as [en|]; simpl in H; [|done].
  destruct (_ || _); [done|]. destruct (utf8_valid _); [|done].
  destruct (MessageId_new _) eqn:E; [|done]. injection H as <- <-.
  by apply MessageId_new_ok in E as [? _].
Qed.

(** Surrounding white space is skipped and any valid message-id is found. *)
Lemma find_message_id_complete ws1 m ws2 :
  Forall (λ b, is_ascii_whitespace b = true) ws1 →
  Forall (λ b, is_ascii_whitespace b = true) ws2 →
  validate_message_id m = Ok () →
  find_message_id (ws1 ++ m ++ ws2) = Some (length ws1, length ws1 + length m).
Proof.
  intros H1 H2 Hm. pose proof (validate_message_id_utf8 m Hm) as Hutf.
  assert (MessageId_new m = Ok (mkMessageId m)) as Hnew by by apply MessageId_new_ok.
  apply validate_message_id_ok in Hm as (inner & -> & [Hl Hall]).
  assert (position not_whitespace (ws1 ++ (x3c :: inner ++ [x3e]) ++ ws2) = Some (length ws1)) as Hp.
  { rewrite position_app. replace (position not_whitespace ws1) with (@None nat).
    - simpl. f_equal. lia.
    - symmetry. apply position_None. eapply Forall_impl; [exact H1|].
      intros b Hb. unfold not_whitespace. by rewrite Hb. }
  assert (rposition not_whitespace (ws1 ++ (x3c :: inner ++ [x3e]) ++ ws2)
          = Some (length ws1 + length inner + 1)) as Hr.
  { unfold rposition. rewrite !reverse_app, reverse_cons, reverse_app, !position_app.
    replace (position not_whitespace (reverse ws2)) with (@None nat).
    - simpl. f_equal. autorewrite with nntp. simpl. autorewrite with nntp. simpl. lia.
    - symmetry. apply position_None, Forall_reverse. eapply Forall_impl; [exact H2|].
      intros b Hb. unfold not_whitespace. by rewrite Hb. }
  assert (slice (length ws1) (S (length ws1 + length inner + 1))
            (ws1 ++ (x3c :: inner ++ [x3e]) ++ ws2) = x3c :: inner ++ [x3e]) as Hs.
  { unfold slice. rewrite drop_app_length.
    replace (S (length ws1 + length inner + 1) - length ws1)
      with (length (x3c :: inner ++ [x3e])) by (simpl; rewrite length_app; simpl; lia).
    by rewrite take_app_length. }
  unfold find_message_id. rewrite Hp. cbn [mbind option_bind]. rewrite Hr.
  cbn [mbind option_bind]. rewrite Hs.
  replace (negb (bool_decide (head (x3c :: inner ++ [x3e]) = Some x3c))) with false by done.
  replace (last (x3c :: inner ++ [x3e])) with (Some x3e) by (by rewrite app_comm_cons, last_snoc).
  assert (existsb is_ascii_whitespace
    (slice 1 (length (x3c :: inner ++ [x3e]) - 1) (x3c :: inner ++ [x3e])) = false) as ->.
  { apply not_true_iff_false. intros (b & Hb & Hw)%existsb_exists.
    unfold slice in Hb. cbn [length drop] in Hb. rewrite drop_0, length_app in Hb. simpl in Hb.
    replace (length inner + 1 - 0 - 1) with (length inner) in Hb by lia.
    rewrite take_app_length in Hb. apply list_elem_of_In in Hb.
    rewrite Forall_forall in Hall. destruct (Hall b Hb) as [Hpr _].
    apply whitespace_not_printable in Hw. congruence. }
  rewrite Hutf, Hnew. cbn -[length]. do 2 f_equal. simpl. rewrite length_app. simpl. lia.
Qed.

(** A context whose span comes from the argument scan. *)
Definition span_ok (r : RequestContext) : Prop := message_id_span r = find_message_id (args r).

Lemma span_ok_message_id_value r :
  span_ok r → has_message_id r = true → ∃ m, message_id_value r = Some m.
Proof.
  unfold span_ok, has_message_id, message_id_value. intros Hs Hh. reflect_bools.
  destruct Hh as [[s e] Hse]. rewrite Hse. simpl. rewrite Hs in Hse.
  apply find_message_id_sound in Hse. rewrite (validate_message_id_utf8 _ Hse).
  exists (mkMessageId (slice s e (args r))).
  replace (MessageId_new (slice s e (args r))) with (Ok (E := ValidationError) (mkMessageId (slice s e (args r))));
    [done|]. symmetry. by apply MessageId_new_ok.
Qed.

Section ParserFacts.
Context {MC : Memchr} {MS : MemchrSpec MC}.

Definition is_separator (b : byte) : bool := Byte.eqb x20 b || Byte.eqb x09 b.

(** The shape of a parsed line: a verb without separators, then either nothing
    or one separator and the arguments. *)
Lemma parse_request_line_shape line :
  let b := trim_line_end line in
  let l := parse_request_line line in
  Forall (λ c, is_separator c = false) (line_verb l) ∧
  line_kind l = classify_verb (line_verb l) ∧
  line_message_id l = find_message_id (line_args l) ∧
  ((b = line_verb l ∧ line_args l = []) ∨
   ∃ c, is_separator c = true ∧ b = line_verb l ++ c :: line_args l).
Proof.
  unfold parse_request_line. set (b := trim_line_end line). rewrite memchr2_spec.
  destruct (position _ b) as [i|] eqn:E; simpl.
  - pose proof (position_lt _ _ _ E) as Hlt.
    apply position_Some in E as [(c & Hc & Hsep) Hbefore].
    split; [|split; [done|split; [done|]]].
    + apply Forall_lookup. intros j x Hx. apply lookup_take_Some in Hx as [Hx Hj]. eauto.
    + right. exists c. split; [done|].
      destruct (Nat.ltb_spec i (length b)); [|lia].
      rewrite <-(take_drop_middle b i c Hc) at 1. by rewrite Nat.add_1_r.
  - apply position_None in E. rewrite Nat.ltb_irrefl, take_ge by lia.
    split; [done|]. split; [done|]. split; [done|]. by left.
Qed.

Lemma parse_request_Some line r :
  parse_request line = Some r →
  length line ≤ 512 ∧ verb r ≠ [] ∧
  let l := parse_request_line line in
  r = from_parts (line_kind l) (line_verb l) (line_args l) (line_message_id l).
Proof.
  unfold parse_request, MAX_COMMAND_LINE_OCTETS. intros H.
  destruct (Nat.ltb_spec 512 (length line)); [done|].
  destruct (line_verb (parse_request_line line)) eqn:E; [done|].
  injection H as <-. split; [lia|]. by split.
Qed.

Lemma parse_request_span_ok line r : parse_request line = Some r → span_ok r.
Proof.
  intros (_ & _ & ->)%parse_request_Some.
  pose proof (parse_request_line_shape line) as (_ & _ & H & _). done.
Qed.

(** A verb without separators, and arguments that do not end in a
    line end, are what the parser reads back from their serialisation. *)
Lemma parse_request_line_of v a c sfx :
  Forall (λ b, is_separator b = false) v → (a ≠ [] ∨ no_eol_end v) → no_eol_end a →
  is_separator c = true → Forall is_eol sfx →
  parse_request_line ((if bool_decide (a = []) then v else v ++ c :: a) ++ sfx) =
  mkRequestLine (classify_verb v) v a (find_message_id a).
Proof.
  intros Hv Hve Hae Hc Hs.
  assert (position is_separator v = None) as Hp by by apply position_None.
  unfold parse_request_line. rewrite memchr2_spec. fold is_separator.
  case_bool_decide as Ha.
  - subst a. destruct Hve as [|Hve]; [done|]. rewrite trim_line_end_app by done.
    rewrite Hp. simpl.
    rewrite Nat.ltb_irrefl, take_ge by lia. done.
  - assert (no_eol_end (v ++ c :: a)) as Hne.
    { intros b. rewrite last_app, last_cons. destruct (last a) as [x|] eqn:El.
      - intros [= ->]. by apply Hae.
      - by apply last_None in El. }
    rewrite trim_line_end_app by done. rewrite position_app, Hp. simpl. rewrite Hc. simpl.
    rewrite Nat.add_0_r, take_app_length.
    replace (length v <? length (v ++ c :: a)) with true
      by (symmetry; apply Nat.ltb_lt; rewrite length_app; simpl; lia).
    rewrite Nat.add_1_r. by rewrite drop_app_ge, Nat.sub_succ_l, Nat.sub_diag by lia.
Qed.

Lemma parse_request_parts line r :
  parse_request line = Some r →
  Forall (λ b, is_separator b = false) (verb r) ∧ no_eol_end (args r) ∧
  kind r = classify_verb (verb r) ∧
  ∃ sep sfx, line = verb r ++ sep ++ args r ++ sfx ∧ Forall is_eol sfx ∧
    no_eol_end (verb r ++ sep ++ args r) ∧ (sep = [] ∧ args r = [] ∨ ∃ c, sep = [c] ∧ is_separator c = true).
Proof.
  intros (_ & _ & ->)%parse_request_Some. cbn [verb args kind from_parts].
  pose proof (parse_request_line_shape line) as (Hv & Hk & _ & Hb).
  destruct (trim_line_end_decomp line) as (sfx & Hline & Hs & Hne).
  split; [done|]. destruct Hb as [[Hb Ha]|(c & Hc & Hb)].
  - rewrite Ha. split; [by intros ?|]. split; [done|]. exists [], sfx.
    rewrite !app_nil_r. cbn [app]. rewrite <-Hb. eauto 6.
  - split; [|split; [done|]].
    + intros b Hl. apply Hne. rewrite Hb, last_app, last_cons, Hl. done.
    + exists [c], sfx. split; [|split; [done|split; [|by eauto]]].
      * rewrite Hline, Hb at 1. cbn [app]. by rewrite <-app_assoc.
      * cbn [app]. by rewrite <-Hb.
Qed.

Lemma write_wire_shape r :
  write_wire r =
  (if bool_decide (args r = []) then verb r else verb r ++ x20 :: args r) ++ CRLF.
Proof.
  unfold write_wire, write_wire_slices. destruct (args r); [done|].
  simpl. by rewrite <-app_assoc.
Qed.

Lemma write_wire_length r : length (write_wire r) = request_wire_len r.
Proof.
  rewrite write_wire_shape. unfold request_wire_len.
  case_bool_decide as H; rewrite !length_app; cbn [length CRLF]; [|lia].
  rewrite H. simpl. lia.
Qed.
End ParserFacts.

(** ** Theorems *)



(** A client command line cannot smuggle a second command: when the only
    line feed of the line is its last byte (as the line reader guarantees), the
    bytes sent to the backend are exactly one line, of the length the request
    announces, and contain a line feed only in the terminating CRLF. *)
Theorem request_wire_single_line {MC : Memchr} {MS : MemchrSpec MC} line r :
  parse_request line = Some r →
  (∀ i, line !! i = Some x0a → S i = length line) →
  length (write_wire r) = request_wire_len r ∧
  ∃ w, write_wire r = w ++ CRLF ∧ x0a ∉ w.
Proof.
  intros (_ & _ & _ & sep & sfx & Hline & _ & Hne & _)%parse_request_parts Hlf.
  split; [apply write_wire_length|].
  eexists. split; [apply write_wire_shape|]. intros Hin.
  assert (x0a ∈ verb r ++ sep ++ args r) as Hin'.
  { case_bool_decide; [set_solver|]. apply elem_of_app in Hin as [|[|]%elem_of_cons]; set_solver. }
  apply list_elem_of_lookup in Hin' as [i Hi].
  assert (i < length (verb r ++ sep ++ args r)) as Hil by (apply lookup_lt_Some in Hi; done).
  assert (line = (verb r ++ sep ++ args r) ++ sfx) as Hl2 by (by rewrite Hline, !app_assoc).
  specialize (Hlf i). rewrite Hl2, lookup_app_l, length_app in Hlf by done. specialize (Hlf Hi).
  apply (Hne x0a); [|by right]. rewrite last_lookup. by replace (pred _) with i by lia.
Qed.

Lemma request_wire_single_line_witness :
  let r := from_verb_args (bs "GROUP") (bs "alt.test") in
  length (write_wire r) = request_wire_len r ∧ ∃ w, write_wire r = w ++ CRLF ∧ x0a ∉ w.
Proof.
  refine (request_wire_single_line (MC := naive_memchr) (MS := naive_memchr_spec)
    (bs "GROUP alt.test" ++ CRLF) _ _ _).
  - vm_compute. reflexivity.
  - intros i. do 16 (destruct i as [|i]; [by vm_compute|]). done.
Defined.

(** A request that was parsed with a message-id always yields a valid one
    (so the lookup constructors that rely on it cannot fail), and conversely a
    valid message-id padded with white space is always recognised. *)
Theorem request_message_id {MC : Memchr} {MS : MemchrSpec MC} :
  (∀ line r, parse_request line = Some r → has_message_id r = true →
     ∃ m, message_id_value r = Some m ∧ validate_message_id (message_id_str m) = Ok ()) ∧
  (∀ v ws1 m ws2,
     Forall (λ b, is_ascii_whitespace b = true) (ws1 ++ ws2) →
     validate_message_id m = Ok () →
     message_id_value (from_verb_args v (ws1 ++ m ++ ws2)) = Some (mkMessageId m)).
Proof.
  split.
  - intros line r Hp Hm. apply parse_request_span_ok in Hp.
    destruct (span_ok_message_id_value r Hp Hm) as [m Hv]. exists m. split; [done|].
    unfold message_id_value in Hv. destruct (message_id_span r) as [[s e]|]; simpl in Hv; [|done].
    destruct (utf8_valid _); [|done]. destruct (MessageId_new _) eqn:E; [|done].
    injection Hv as <-. by apply MessageId_new_ok in E as [? ->].
  - intros v ws1 m ws2 [H1 H2]%Forall_app Hm.
    unfold message_id_value, from_verb_args. cbn [message_id_span from_parts args].
    rewrite find_message_id_complete by done. simpl.
    assert (slice (length ws1) (length ws1 + length m) (ws1 ++ m ++ ws2) = m) as ->.
    { unfold slice. rewrite drop_app_length. rewrite Nat.add_comm, Nat.add_sub; apply take_app_length. }
    rewrite (validate_message_id_utf8 _ Hm).
    by replace (MessageId_new m) with (Ok (E := ValidationError) (mkMessageId m))
      by (symmetry; by apply MessageId_new_ok).
Qed.

Lemma request_message_id_witness :
  message_id_value (from_verb_args (bs "STAT") (bs "  <a@b> ")) = Some (mkMessageId (bs "<a@b>")).
Proof.
  refine (proj2 (request_message_id (MC := naive_memchr) (MS := naive_memchr_spec))
    (bs "STAT") (bs "  ") (bs "<a@b>") (bs " ") _ _).
  - repeat constructor.
  - vm_compute. reflexivity.
Defined.

(** Verb classification is exact and case-insensitive: a verb is classified
    as a kind other than [Unknown] precisely when its upper-case form is that
    kind's command name. *)
Theorem classify_verb_exact v k :
  k ≠ Unknown → classify_verb v = k ↔ ascii_upper <$> v = bs (verb_name k).
Proof. intros Hk. split; [by intros <-; apply classify_verb_name|by apply verb_name_classify]. Qed.

Lemma classify_verb_exact_witness :
  classify_verb (bs "xOvEr") = Xover ↔ ascii_upper <$> bs "xOvEr" = bs "XOVER".
Proof. apply (classify_verb_exact (bs "xOvEr") Xover). discriminate. Defined.

(** The proxy waits for a response body only after a success or
    informational status: a request of any kind whose response has a body got a
    code below 400 that is not a continuation, and only article, list, overview,
    header and help requests (or an unknown verb) ever have one; every request
    kind the router treats as stateful position movement or as an existence
    check is single line. *)
Theorem response_body_status k s :
  request_kind_has_response_body k s = true →
  (is_success s = true ∨ is_informational s = true) ∧
  is_error s = false ∧ is_continuation s = false ∧
  k ∉ [Stat; Group; Last; Next; Date; Mode; Quit; Post; Ihave; Check_; TakeThis; AuthInfo;
       StartTls; Compress].
Proof.
  intros Hb. assert (as_u16 s ∈ [100; 101; 211; 215; 220; 221; 222; 224; 225; 230; 231;
    282; 288]%N ∧ k ∉ [Stat; Group; Last; Next; Date; Mode; Quit; Post; Ihave; Check_; TakeThis;
    AuthInfo; StartTls; Compress]) as [Hc Hk].
  { unfold request_kind_has_response_body in Hb. destruct (is_error s); [done|].
    split.
    - apply orb_true_iff in Hb as [Hb|[_ Hb]%andb_true_iff].
      + unfold body_pair in Hb. rewrite !elem_of_cons.
        destruct k; try done; rewrite ?orb_true_iff, ?N.eqb_eq in Hb; tauto.
      + unfold status_implies_response_body in Hb. cbn [existsb] in Hb.
        rewrite !orb_true_iff, !N.eqb_eq in Hb. rewrite !elem_of_cons.
        repeat (destruct Hb as [Hb|Hb]; [rewrite Hb; cbv; tauto|]). done.
    - intros Hin. repeat (apply elem_of_cons in Hin as [->|Hin]; [done|]). by apply elem_of_nil in Hin. }
  split; [|split; [|split; [|done]]].
  all: destruct s as [c]; cbn in Hc;
    repeat (apply elem_of_cons in Hc as [->|Hc]; [vm_compute; auto|]); by apply elem_of_nil in Hc.
Qed.

Lemma response_body_status_witness :
  is_error (mkStatusCode 220) = false ∧ is_continuation (mkStatusCode 220) = false.
Proof.
  refine ((λ H, conj (proj1 (proj2 H)) (proj1 (proj2 (proj2 H))))
    (response_body_status Article (mkStatusCode 220) _)).
  vm_compute. reflexivity.
Defined.
