(* ===== verification/Scanner.v ===== *)
(** * Scanner: searching for the multiline terminator

    Models the [vector_scanner] module and [terminator_ends_in_chunk] of
    [src/src/session/multiline_framing.rs]: block-wise scanners written to be
    vectorised, of which the target architecture selects one, and the portable
    fallback that calls [memchr]'s substring finder.  The theorems show that
    every scanner is a leftmost search for the terminator, so the choice of the
    target cannot be observed. *)

From Stdlib Require Import Sorted.
From S2P Require Import Prelude.

(** ** Definitions *)

(** CRLF, dot, CRLF *)
Definition TERMINATOR : bytes := [x0d; x0a; x2e; x0d; x0a].
Definition DOT_TERMINATOR : bytes := [x2e; x0d; x0a].

(** The targets the [cfg] attributes distinguish. *)
Inductive target := Aarch64 | X86Avx512 | X86Avx2 | Generic.

#[global] Instance target_eq_dec : EqDecision target.
Proof. solve_decision. Defined.

(** [slice::windows(n)] for positive [n]. *)
Definition windows (n : nat) (l : bytes) : list bytes :=
  (λ i, slice i (i + n) l) <$> seq 0 (S (length l) - n).

Definition first_match (block : bytes) : option nat :=
  position (λ w, bool_decide (w = TERMINATOR)) (windows (length TERMINATOR) block).

(** [block[i]]; the scanners only use indices inside the block. *)
Definition byte_at (block : bytes) (i : nat) : byte := default x00 (block !! i).

(** One lane of the two vector predicates, and the loop over the lanes that
    accumulates them. *)
Definition pair_lane (first : nat) (c : byte) (block : bytes) (lane : nat) : bool :=
  Byte.eqb (byte_at block (lane + first)) c && Byte.eqb (byte_at block (lane + first + 3)) c.

Definition or_lane (first : nat) (c : byte) (block : bytes) (lane : nat) : bool :=
  Byte.eqb (byte_or (byte_at block (lane + first)) (byte_at block (lane + first + 3))) c.

Definition any_lane (width : nat) (test : nat → bool) : bool :=
  foldl (λ possible lane, possible || test lane) false (seq 0 width).

Definition exact_pair_match (width first : nat) (c : byte) (block : bytes) : option nat :=
  if any_lane width (pair_lane first c block) then first_match block else None.

Section Scan.
Context {MC : Memchr}.

(** The block loop that [find_repeat] and [find_or] share: [lane_test] is the
    predicate of a lane and [verify] the check of a candidate block.  Every
    round advances [offset] by [width], so a round per byte is enough. *)
Fixpoint find_blocks (fuel width : nat) (lane_test : bytes → nat → bool)
    (verify : bytes → option nat) (data : bytes) (offset : nat) : option nat :=
  match fuel with
  | 0 => None
  | S fuel =>
      if width + 4 <=? length data - offset then
        let block := slice offset (offset + width + 4) data in
        match (if any_lane width (lane_test block) then verify block else None) with
        | Some lane => Some (offset + lane)
        | None => find_blocks fuel width lane_test verify data (offset + width)
        end
      else (λ start, offset + start) <$> memmem_find TERMINATOR (drop offset data)
  end.

Definition find_repeat (width first : nat) (c : byte) (data : bytes) : option nat :=
  find_blocks (S (length data)) width (pair_lane first c) first_match data 0.

Definition find_or (width first : nat) (c : byte) (verify : bytes → option nat)
    (data : bytes) : option nat :=
  find_blocks (S (length data)) width (or_lane first c) verify data 0.

(** [vector_scanner::find]; the generic target has no such function. *)
Definition vector_find (t : target) (data : bytes) : option nat :=
  match t with
  | Aarch64 => find_or 128 0 x0d (exact_pair_match 128 0 x0d) data
  | X86Avx512 => find_or 256 1 x0a (exact_pair_match 256 1 x0a) data
  | X86Avx2 => find_repeat 128 0 x0d data
  | Generic => memmem_find TERMINATOR data
  end.

(** The [from_fn] iterator over [remaining]; each item shortens it. *)
Fixpoint vector_ends (fuel : nat) (t : target) (data remaining : bytes) : list nat :=
  match fuel with
  | 0 => []
  | S fuel =>
      match vector_find t remaining with
      | None => []
      | Some start =>
          let remaining := drop (start + length TERMINATOR) remaining in
          (length data - length remaining) :: vector_ends fuel t data remaining
      end
  end.

Definition terminator_ends_in_chunk (t : target) (data : bytes) : list nat :=
  match t with
  | Generic => (λ found, found + length TERMINATOR) <$> memmem_find_iter TERMINATOR data
  | _ => vector_ends (S (length data)) t data data
  end.
End Scan.

(** ** Lemmas *)

Lemma foldl_orb {A} (test : A → bool) l acc :
  foldl (λ possible x, possible || test x) acc l = acc || existsb test l.
Proof. revert acc. induction l as [|x l IH]; intros acc; simpl; [by rewrite orb_false_r|].
  by rewrite IH, orb_assoc. Qed.

Lemma any_lane_intro width test lane :
  lane < width → test lane = true → any_lane width test = true.
Proof.
  intros Hl Ht. unfold any_lane. rewrite foldl_orb. apply existsb_exists. exists lane.
  split; [apply in_seq; lia|done].
Qed.

Lemma slice_eq_match_at (pat l : bytes) i :
  i + length pat ≤ length l → slice i (i + length pat) l = pat ↔ match_at pat l i.
Proof.
  intros Hl. unfold slice, match_at. replace (i + length pat - i) with (length pat) by lia. split.
  - intros Hp. exists (drop (length pat) (drop i l)). rewrite <-Hp at 1. by rewrite take_drop.
  - intros [k ->]. by rewrite take_app_length.
Qed.

(** [first_match] is a leftmost search. *)
Lemma first_match_leftmost block : leftmost TERMINATOR block (first_match block).
Proof.
  unfold first_match, windows. pose proof (slice_eq_match_at TERMINATOR block) as Hsl.
  cbn [length TERMINATOR] in *. destruct (position _ _) as [i|] eqn:E; cbn [leftmost].
  - apply position_Some in E as [(w & Hw & Hp) Hb]. rewrite list_lookup_fmap in Hw.
    apply fmap_Some in Hw as (i' & [-> Hi]%lookup_seq & ->). rewrite Nat.add_0_l in Hp.
    apply bool_decide_eq_true in Hp. split; [apply Hsl; [lia|done]|].
    intros j Hj Hm. apply Hsl in Hm; [|lia]. specialize (Hb j (slice j (j + 5) block) Hj).
    rewrite list_lookup_fmap, lookup_seq_lt in Hb by lia. specialize (Hb eq_refl).
    by apply bool_decide_eq_false in Hb.
  - apply position_None in E. intros j Hm.
    pose proof (match_at_length _ _ _ Hm ltac:(discriminate)) as Hl. cbn [length TERMINATOR] in Hl.
    rewrite Forall_fmap, Forall_forall in E.
    assert (j ∈ seq 0 (S (length block) - 5)) as Hj by (apply elem_of_seq; lia).
    specialize (E j Hj). apply bool_decide_eq_false in E. by apply E, Hsl.
Qed.

(** A terminator makes its lane pass both predicates: byte 0 equals byte 3 and
    byte 1 equals byte 4. *)
Definition repeats (first : nat) (c : byte) : Prop :=
  TERMINATOR !! first = Some c ∧ TERMINATOR !! (first + 3) = Some c.

Lemma match_at_byte (block : bytes) lane k c :
  match_at TERMINATOR block lane → TERMINATOR !! k = Some c → byte_at block (lane + k) = c.
Proof.
  intros [rest Hr] Hk. unfold byte_at. rewrite <-lookup_drop, Hr.
  rewrite lookup_app_l by (by eapply lookup_lt_Some). by rewrite Hk.
Qed.

Lemma pair_lane_match first c block lane :
  repeats first c → match_at TERMINATOR block lane → pair_lane first c block lane = true.
Proof.
  intros [H1 H2] Hm. unfold pair_lane. rewrite <-Nat.add_assoc.
  rewrite (match_at_byte _ _ _ _ Hm H1), (match_at_byte _ _ _ _ Hm H2).
  apply andb_true_iff. by rewrite byte_eqb_eq.
Qed.

Lemma or_lane_match first c block lane :
  repeats first c → match_at TERMINATOR block lane → or_lane first c block lane = true.
Proof.
  intros [H1 H2] Hm. unfold or_lane. rewrite <-Nat.add_assoc.
  rewrite (match_at_byte _ _ _ _ Hm H1), (match_at_byte _ _ _ _ Hm H2).
  by rewrite byte_or_diag, byte_eqb_eq.
Qed.

(** Filtering a search by a predicate that every occurrence passes does not
    change it. *)
Lemma guarded_search width test (verify : bytes → option nat) block :
  length block = width + 4 →
  (∀ lane, match_at TERMINATOR block lane → test lane = true) →
  leftmost TERMINATOR block (verify block) →
  leftmost TERMINATOR block (if any_lane width test then verify block else None).
Proof.
  intros Hl Ht Hv. destruct (any_lane width test) eqn:E; [done|].
  intros j Hm. pose proof (match_at_length _ _ _ Hm ltac:(discriminate)) as Hj.
  rewrite (any_lane_intro width test j) in E; [done| |by apply Ht]. simpl in Hj. lia.
Qed.

Lemma exact_pair_match_leftmost width first c block :
  repeats first c → length block = width + 4 →
  leftmost TERMINATOR block (exact_pair_match width first c block).
Proof.
  intros Hr Hl. apply guarded_search; [done| |apply first_match_leftmost].
  intros lane. by apply pair_lane_match.
Qed.

Section ScanFacts.
Context {MC : Memchr} {MS : MemchrSpec MC}.

(** The block loop: no occurrence before [offset] and a faithful test and
    verifier give a leftmost search of the whole input. *)
Lemma find_blocks_leftmost fuel width lane_test verify data offset :
  0 < width →
  (∀ block lane, match_at TERMINATOR block lane → lane_test block lane = true) →
  (∀ block, length block = width + 4 → leftmost TERMINATOR block (verify block)) →
  length data < fuel + offset → offset ≤ length data →
  (∀ j, j < offset → ¬ match_at TERMINATOR data j) →
  leftmost TERMINATOR data (find_blocks fuel width lane_test verify data offset).
Proof.
  intros Hw Ht Hv. revert offset. induction fuel as [|fuel IH]; intros offset Hf Ho Hb; [lia|].
  cbn [find_blocks]. destruct (Nat.leb_spec (width + 4) (length data - offset)) as [Hl|Hl].
  - set (block := slice offset (offset + width + 4) data).
    assert (length block = width + 4) as Hbl by (unfold block; rewrite slice_length; lia).
    assert (∀ j, j < width → match_at TERMINATOR block j ↔ match_at TERMINATOR data (offset + j))
      as Hin.
    { intros j Hj. unfold block, slice. rewrite match_at_take, match_at_drop; [done|simpl; lia|].
      rewrite length_drop. lia. }
    pose proof (guarded_search width (lane_test block) verify block Hbl
      ltac:(eauto) (Hv block Hbl)) as Hg.
    destruct (if any_lane _ _ then _ else _) as [lane|]; simpl in Hg.
    + destruct Hg as [Hm Hbefore].
      pose proof (match_at_length _ _ _ Hm ltac:(discriminate)) as Hll. simpl in Hll.
      split; [apply Hin; [lia|done]|]. intros j Hj Hmj.
      destruct (decide (j < offset)); [by apply (Hb j)|].
      apply (Hbefore (j - offset)); [lia|]. apply Hin; [lia|].
      by replace (offset + (j - offset)) with j by lia.
    + apply IH; [lia|lia|]. intros j Hj Hmj.
      destruct (decide (j < offset)); [by apply (Hb j)|].
      apply (Hg (j - offset)), Hin; [lia|]. by replace (offset + (j - offset)) with j by lia.
  - pose proof (memmem_find_spec TERMINATOR (drop offset data)) as Hs.
    assert (∀ j, ¬ j < offset → match_at TERMINATOR data j →
                 match_at TERMINATOR (drop offset data) (j - offset)) as Hd.
    { intros j Hj Hm. apply match_at_drop. by replace (offset + (j - offset)) with j by lia. }
    destruct (memmem_find _ _) as [i|]; simpl in *.
    + destruct Hs as [Hm Hbefore]. split; [by apply match_at_drop|]. intros j Hj Hmj.
      destruct (decide (j < offset)); [by apply (Hb j)|]. apply (Hbefore (j - offset)); [lia|auto].
    + intros j Hmj. destruct (decide (j < offset)); [by apply (Hb j)|]. apply (Hs (j - offset)). auto.
Qed.

Lemma vector_find_leftmost t data : leftmost TERMINATOR data (vector_find t data).
Proof.
  destruct t; simpl; [| | |apply memmem_find_spec]; apply find_blocks_leftmost;
    try lia; intros.
  all: first [apply or_lane_match | apply pair_lane_match | apply exact_pair_match_leftmost
             | apply first_match_leftmost]; done.
Qed.

Lemma vector_find_memmem t data : vector_find t data = memmem_find TERMINATOR data.
Proof. eapply leftmost_unique; [apply vector_find_leftmost|apply memmem_find_spec]. Qed.

Lemma memmem_terminator_bound data i :
  memmem_find TERMINATOR data = Some i → i + length TERMINATOR ≤ length data.
Proof.
  intros Hi. pose proof (memmem_find_spec TERMINATOR data) as Hm. rewrite Hi in Hm.
  by apply match_at_length; [apply Hm|].
Qed.

Lemma vector_ends_finder fuel t data remaining :
  length remaining < fuel → length remaining ≤ length data →
  vector_ends fuel t data remaining =
  (λ found, length data - length remaining + (found + length TERMINATOR)) <$>
    memmem_find_iter TERMINATOR remaining.
Proof.
  revert remaining. induction fuel as [|fuel IH]; intros remaining Hf Hd; [lia|].
  cbn [vector_ends]. rewrite vector_find_memmem, memmem_find_iter_spec by done.
  destruct (memmem_find TERMINATOR remaining) as [i|] eqn:E; [|done].
  apply memmem_terminator_bound in E. simpl in E. cbn [fmap list_fmap]. f_equal.
  - rewrite length_drop. simpl. lia.
  - rewrite IH by (rewrite length_drop; simpl; lia). rewrite <-list_fmap_compose.
    apply list_fmap_ext. intros _ j _. rewrite length_drop. simpl. lia.
Qed.

Lemma terminator_ends_generic t data :
  terminator_ends_in_chunk t data = terminator_ends_in_chunk Generic data.
Proof.
  unfold terminator_ends_in_chunk at 1. destruct t; [..|done];
    rewrite vector_ends_finder by lia; rewrite Nat.sub_diag; done.
Qed.

(** The first end of the iterator is five past the leftmost occurrence. *)
Lemma head_terminator_ends t data :
  head (terminator_ends_in_chunk t data) =
  (λ found, found + length TERMINATOR) <$> memmem_find TERMINATOR data.
Proof.
  rewrite terminator_ends_generic. unfold terminator_ends_in_chunk.
  rewrite memmem_find_iter_spec by done. by destruct (memmem_find TERMINATOR data).
Qed.

(** The ends reported: increasing, each the end of an occurrence, and every
    occurrence overlaps the last one reported before its own end. *)
Definition covers (ends : list nat) (j : nat) : Prop :=
  ∃ e, e ∈ ends ∧ j < e ≤ j + length TERMINATOR.

Lemma find_iter_sound n data :
  length data < n →
  Forall (λ i, match_at TERMINATOR data i) (memmem_find_iter TERMINATOR data) ∧
  StronglySorted (λ i j, i + length TERMINATOR ≤ j) (memmem_find_iter TERMINATOR data) ∧
  ∀ j, match_at TERMINATOR data j →
    ∃ i, i ∈ memmem_find_iter TERMINATOR data ∧ i ≤ j < i + length TERMINATOR.
Proof.
  revert data. induction n as [|n IH]; intros data Hn; [lia|].
  rewrite memmem_find_iter_spec by done.
  pose proof (memmem_find_spec TERMINATOR data) as Hs.
  destruct (memmem_find TERMINATOR data) as [i|] eqn:E; simpl in Hs.
  - destruct Hs as [Hm Hb]. apply memmem_terminator_bound in E. cbn [length TERMINATOR] in *.
    destruct (IH (drop (i + 5) data)) as (H1 & H2 & H3); [rewrite length_drop; lia|].
    split; [|split].
    + constructor; [done|]. apply Forall_fmap. eapply Forall_impl; [exact H1|].
      intros j Hj. by apply match_at_drop in Hj.
    + constructor; [|by apply Forall_fmap, Forall_true; intros; simpl; lia].
      clear -H2. induction H2 as [|x l _ IH Hx]; [constructor|]. constructor; [done|].
      apply Forall_fmap. eapply Forall_impl; [exact Hx|]. intros; simpl in *; lia.
    + intros j Hj. destruct (decide (j < i)); [by destruct (Hb j)|].
      destruct (decide (j < i + 5)); [exists i; split; [by left|lia]|].
      destruct (H3 (j - (i + 5))) as (k & Hk & ?).
      { apply match_at_drop. by replace (i + 5 + (j - (i + 5))) with j by lia. }
      exists (i + 5 + k). split; [right; by apply list_elem_of_fmap_2|lia].
  - split; [constructor|split; [constructor|]]. intros j Hj. by destruct (Hs j).
Qed.

Lemma scanners_sound t data :
  Forall (λ e, ∃ i, e = i + length TERMINATOR ∧ match_at TERMINATOR data i)
    (terminator_ends_in_chunk t data).
Proof.
  rewrite terminator_ends_generic. unfold terminator_ends_in_chunk.
  apply Forall_fmap. eapply Forall_impl; [apply (find_iter_sound (S (length data))); lia|].
  simpl. eauto.
Qed.
End ScanFacts.

(** ** Theorems *)

(** Every scanner is the same search: on each target the vectorised scanner
    returns the leftmost occurrence of the terminator, and the iterator over
    terminator ends yields the same sequence as the portable finder, in which
    the ends increase by at least the terminator's length, each end closes an
    occurrence, and every occurrence overlaps a reported one. *)
Theorem scanners_equivalent {MC : Memchr} {MS : MemchrSpec MC} (t : target) (data : bytes) :
  leftmost TERMINATOR data (vector_find t data) ∧
  terminator_ends_in_chunk t data = terminator_ends_in_chunk Generic data ∧
  Forall (λ e, ∃ i, e = i + length TERMINATOR ∧ match_at TERMINATOR data i)
    (terminator_ends_in_chunk t data) ∧
  StronglySorted (λ d e, d + length TERMINATOR ≤ e) (terminator_ends_in_chunk t data) ∧
  ∀ j, match_at TERMINATOR data j → covers (terminator_ends_in_chunk t data) j.
Proof.
  split; [apply vector_find_leftmost|]. split; [apply terminator_ends_generic|].
  rewrite terminator_ends_generic. unfold terminator_ends_in_chunk, covers.
  destruct (find_iter_sound (S (length data)) data) as (H1 & H2 & H3); [lia|].
  split; [apply (scanners_sound Generic)|split].
  - clear -H2. induction H2 as [|x l _ IH Hx]; [constructor|]. constructor; [done|].
    apply Forall_fmap. eapply Forall_impl; [exact Hx|]. intros; simpl in *; lia.
  - intros j (i & Hi & ?)%H3. exists (i + length TERMINATOR).
    split; [by apply (list_elem_of_fmap_2 (λ found, found + length TERMINATOR))|simpl in *; lia].
Qed.

Lemma scanners_equivalent_witness :
  terminator_ends_in_chunk (MC := naive_memchr) X86Avx512
    (replicate 300 x0d ++ TERMINATOR ++ bs "ab" ++ TERMINATOR) = [305; 312].
Proof.
  refine (eq_trans (proj1 (proj2 (scanners_equivalent (MC := naive_memchr)
    (MS := naive_memchr_spec) X86Avx512 _))) _).
  vm_compute. reflexivity.
Defined.
