(* ===== verification/Framer.v ===== *)
(** * Framer: finding the end of a multiline response

    Models [MultilineFramer] and the framing functions around it in
    [src/src/session/multiline_framing.rs]: the rolling tail that remembers the
    last bytes of the previous reads, the search for a terminator that spans
    reads, the policy for bytes packed after a terminator, the classification
    of a response by its status line, and the split of a captured payload. *)

From S2P Require Import Prelude Protocol Request Scanner.

(** ** Data *)

Definition TERMINATOR_TAIL_SIZE : nat := 4.

(** The four-byte array and the number of its bytes in use. *)
Record MultilineFramer := mkFramer {
  data : bytes;
  len : nat;
}.

Definition default_framer : MultilineFramer := mkFramer (replicate TERMINATOR_TAIL_SIZE x00) 0.

Inductive FramingError :=
| UnexpectedTrailingResponseBytes
| InvalidFrameMetadata
| BackendEof
| Io
| CapturedResponseTooLarge (size max : N).

Inductive PackedPendingBytesPolicy := PolicyReject | AllowIfStatusPrefix.

(** [ChunkProgress]; the payload of [Complete] is [ChunkConsumed]. *)
Inductive ChunkProgress := Complete (consumed : nat) | Incomplete.

(** [ResponseWindow]: half-open ranges of the accumulated window. *)
Inductive ResponseWindow :=
| CompleteWindow (response next_response_input : nat * nat)
| IncompleteWindow (response : nat * nat).

(** ** The rolling tail *)

(** [dst[at..at + src.len()].copy_from_slice(src)] *)
Definition copy_into (dst : bytes) (at_ : nat) (src : bytes) : bytes :=
  take at_ dst ++ src ++ drop (at_ + length src) dst.

Definition update (f : MultilineFramer) (chunk : bytes) : MultilineFramer :=
  if TERMINATOR_TAIL_SIZE <=? length chunk then
    mkFramer (copy_into (data f) 0 (drop (length chunk - TERMINATOR_TAIL_SIZE) chunk))
      TERMINATOR_TAIL_SIZE
  else if negb (length chunk =? 0) then
    let combined_len := len f + length chunk in
    if TERMINATOR_TAIL_SIZE <=? combined_len then
      let keep := TERMINATOR_TAIL_SIZE - length chunk in
      let d := copy_into (data f) 0 (slice (len f - keep) (len f) (data f)) in
      mkFramer (copy_into d keep chunk) TERMINATOR_TAIL_SIZE
    else mkFramer (copy_into (data f) (len f) chunk) combined_len
  else f.

(** [tail[tail_len - n..tail_len] == pat] guarded by the length test. *)
Definition tail_ends (tail : bytes) (tail_len : nat) (pat : bytes) : bool :=
  (length pat <=? tail_len) &&
  bool_decide (slice (tail_len - length pat) tail_len tail = pat).

(** [current[..n] == pat] guarded by the length test. *)
Definition current_starts (current : bytes) (current_len : nat) (pat : bytes) : bool :=
  (length pat <=? current_len) && bool_decide (take (length pat) current = pat).

(** The free function [find_spanning_terminator]: the four splits of the
    terminator, in the order the code tries them. *)
Definition find_spanning (tail : bytes) (tail_len : nat) (current : bytes) (current_len : nat)
    : option nat :=
  if (tail_len <? 1) || (current_len <? 1) then None
  else if tail_ends tail tail_len [x0d] && current_starts current current_len [x0a; x2e; x0d; x0a]
  then Some 4
  else if tail_ends tail tail_len [x0d; x0a] && current_starts current current_len [x2e; x0d; x0a]
  then Some 3
  else if tail_ends tail tail_len [x0d; x0a; x2e] && current_starts current current_len [x0d; x0a]
  then Some 2
  else if tail_ends tail tail_len [x0d; x0a; x2e; x0d] && current_starts current current_len [x0a]
  then Some 1
  else None.

(** The method of the same name. *)
Definition find_spanning_terminator (f : MultilineFramer) (chunk : bytes) : option nat :=
  if len f =? 0 then None
  else find_spanning (take (len f) (data f)) (len f) chunk (length chunk).

Section Framing.
Context {MC : Memchr} (t : target).

Definition next_terminator_end (f : MultilineFramer) (chunk : bytes) : option nat :=
  match find_spanning_terminator f chunk with
  | Some e => Some e
  | None => head (terminator_ends_in_chunk t chunk)
  end.

Definition advance_to_next_terminator_end (f : MultilineFramer) (chunk : bytes)
    : option nat * MultilineFramer :=
  let pos := next_terminator_end f chunk in
  (pos, match pos with None => update f chunk | Some _ => f end).

(** ** Status lines *)

Definition status_line_len (b : bytes) : option nat := S <$> memchr x0a b.

Definition plausible_status_prefix (b : bytes) : bool :=
  match b with
  | [] => true
  | first :: _ =>
      if negb (byte_in x31 x35 first) then false
      else match status_line_len b with
           | Some e => bool_decide (is_Some (parse (take e b)))
           | None => forallb is_ascii_digit (take 3 b)
           end
  end.

(** ** One read *)

(** The loop over the terminators that end in the chunk: [Some] is an early
    return. *)
Fixpoint split_loop (chunk : bytes) (policy : PackedPendingBytesPolicy) (ends : list nat)
    : option (result FramingError ChunkProgress) :=
  match ends with
  | [] => None
  | e :: ends =>
      if e =? length chunk then Some (Ok (Complete e))
      else match policy with
           | PolicyReject => Some (Err UnexpectedTrailingResponseBytes)
           | AllowIfStatusPrefix =>
               if plausible_status_prefix (drop e chunk) then Some (Ok (Complete e))
               else split_loop chunk policy ends
           end
  end.

Definition is_allow (policy : PackedPendingBytesPolicy) : bool :=
  match policy with AllowIfStatusPrefix => true | PolicyReject => false end.

(** The early returns of the spanning test. *)
Definition split_spanning (f : MultilineFramer) (chunk : bytes)
    (policy : PackedPendingBytesPolicy) : option (result FramingError ChunkProgress) :=
  match find_spanning_terminator f chunk with
  | Some e =>
      if (e =? length chunk) || is_allow policy && plausible_status_prefix (drop e chunk)
      then Some (Ok (Complete e))
      else if negb (is_allow policy) then Some (Err UnexpectedTrailingResponseBytes)
      else None
  | None => None
  end.

Definition split_chunk (f : MultilineFramer) (chunk : bytes) (policy : PackedPendingBytesPolicy)
    : result FramingError ChunkProgress * MultilineFramer :=
  match split_spanning f chunk policy with
  | Some r => (r, f)
  | None =>
      match split_loop chunk policy (terminator_ends_in_chunk t chunk) with
      | Some r => (r, f)
      | None => (Ok Incomplete, update f chunk)
      end
  end.

(** [ChunkProgress::in_window] *)
Definition in_window (origin window_len : nat) (p : ChunkProgress) : ResponseWindow :=
  match p with
  | Complete consumed =>
      let e := origin + consumed in CompleteWindow (0, e) (e, window_len)
  | Incomplete => IncompleteWindow (0, window_len)
  end.

Definition frame_with_policy (f : MultilineFramer) (chunk : bytes)
    (policy : PackedPendingBytesPolicy) : result FramingError ResponseWindow * MultilineFramer :=
  let '(r, f) := split_chunk f chunk policy in (in_window 0 (length chunk) <$> r, f).

(** [split_appended]: the window before the read and the bytes it appended. *)
Definition split_appended (f : MultilineFramer) (previous_len : nat) (new_bytes : bytes)
    (policy : PackedPendingBytesPolicy) : result FramingError ResponseWindow * MultilineFramer :=
  let '(r, f) := split_chunk f new_bytes policy in
  (in_window previous_len (previous_len + length new_bytes) <$> r, f).

(** [ResponseCursor::begin_after_status_line]: the frame of the first window
    and the framer to continue with. *)
Definition begin_after_status_line (buffer : bytes) (status_line_end : nat)
    (policy : PackedPendingBytesPolicy) : result FramingError (ResponseWindow * MultilineFramer) :=
  if length buffer <? status_line_end then Err InvalidFrameMetadata
  else
    let f := update default_framer (take status_line_end buffer) in
    let '(r, f) := split_chunk f (drop status_line_end buffer) policy in
    (λ p, (in_window status_line_end (length buffer) p, f)) <$> r.

(** ** Classifying a response *)

Inductive ResponseWarning :=
| ShortResponse (size min : nat)
| InvalidResponse
| UnusualStatusCode (code : N).

Definition parse_response_status (chunk : bytes) : option StatusCode * list ResponseWarning :=
  let short := if length chunk <? responses.MIN_RESPONSE_LENGTH
               then [ShortResponse (length chunk) responses.MIN_RESPONSE_LENGTH] else [] in
  match parse chunk with
  | Some code =>
      (Some code,
       short ++ (if ((as_u16 code =? 0) || (600 <=? as_u16 code))%N
                 then [UnusualStatusCode (as_u16 code)] else []))
  | None => (None, short ++ [InvalidResponse])
  end.

Inductive ResponseReadError := ReadIncomplete | ReadInvalid (warnings : list ResponseWarning).

Inductive ResponseFrame :=
| SingleLine (status : StatusCode) (status_line_end : nat) (response next_input : nat * nat)
| Multiline (status : StatusCode) (status_line_end : nat).

(** [ResponseFrame::parse_bytes] *)
Definition parse_bytes (request : RequestContext) (chunk : bytes)
    : result ResponseReadError ResponseFrame :=
  match status_line_len chunk with
  | None => Err ReadIncomplete
  | Some e =>
      let '(status_code, warnings) := parse_response_status chunk in
      match status_code with
      | None => Err (ReadInvalid warnings)
      | Some status =>
          if has_response_body request status then Ok (Multiline status e)
          else Ok (SingleLine status e (0, e) (e, length chunk))
      end
  end.

(** ** Captured payloads *)

Definition MAX_CAPTURED_MULTILINE_RESPONSE_BYTES : N := (4 * 1024 * 1024)%N.

Definition ensure_capture_len_with_limit (size max : N) : result FramingError unit :=
  if (max <? size)%N then Err (CapturedResponseTooLarge size max) else Ok ().

Definition capture_would_exceed_limit (current_len next_len max : N) : bool :=
  match ensure_capture_len_with_limit (sat_add64 current_len next_len) max with
  | Ok _ => false
  | Err _ => true
  end.

(** [usize::checked_sub] *)
Definition checked_sub (a b : nat) : option nat := if a <? b then None else Some (a - b).

(** The body and terminator ranges of a complete payload. *)
Definition complete_multiline_payload_split (payload : bytes)
    : option ((nat * nat) * (nat * nat)) :=
  if bool_decide (payload = DOT_TERMINATOR) then Some ((0, 0), (0, 3))
  else
    match (split_chunk default_framer payload PolicyReject).1 with
    | Ok (Complete response_end) =>
        body_end ← checked_sub response_end (length DOT_TERMINATOR);
        terminator_start ← checked_sub response_end (length DOT_TERMINATOR);
        Some ((0, body_end), (terminator_start, response_end))
    | Ok Incomplete | Err _ => None
    end.

Definition captured_multiline_payload_body (payload : bytes) : option bytes :=
  (λ s, slice (s.1).1 (s.1).2 payload) <$> complete_multiline_payload_split payload.

Definition captured_article_payload_sections (payload : bytes)
    : option ((nat * nat) * (nat * nat)) :=
  if bool_decide (CRLF `prefix_of` payload) then Some ((0, 0), (2, length payload))
  else (λ split, ((0, split + 2), (split + 4, length payload))) <$>
       memmem_find [x0d; x0a; x0d; x0a] payload.
End Framing.

(** ** The rolling tail is the end of the stream *)

Definition framer_wf (f : MultilineFramer) : Prop :=
  length (data f) = TERMINATOR_TAIL_SIZE ∧ len f ≤ TERMINATOR_TAIL_SIZE.

Definition framer_tail (f : MultilineFramer) : bytes := take (len f) (data f).

(** [f] is the framer after the bytes [s] were read. *)
Definition framer_for (s : bytes) (f : MultilineFramer) : Prop :=
  framer_wf f ∧ framer_tail f = lastn TERMINATOR_TAIL_SIZE s.

Lemma framer_for_default : framer_for [] default_framer.
Proof. repeat split. cbn. unfold TERMINATOR_TAIL_SIZE. lia. Qed.

Lemma length_copy_into dst n src :
  length (copy_into dst n src) =
  Nat.min n (length dst) + length src + (length dst - (n + length src)).
Proof. unfold copy_into. autorewrite with nntp. lia. Qed.

Lemma take_copy_into dst n src :
  n ≤ length dst → take (n + length src) (copy_into dst n src) = take n dst ++ src.
Proof.
  intros Hn. unfold copy_into. rewrite app_assoc, take_app_le by (autorewrite with nntp; lia).
  rewrite take_ge by (autorewrite with nntp; lia). done.
Qed.

Lemma update_wf f chunk : framer_wf f → framer_wf (update f chunk).
Proof.
  unfold framer_wf, update, TERMINATOR_TAIL_SIZE. intros [Hd Hl].
  destruct (Nat.leb_spec 4 (length chunk)); [|destruct (Nat.eqb_spec (length chunk) 0); cbn [negb];
    [done|destruct (Nat.leb_spec 4 (len f + length chunk))]]; cbn [len data]; (split; [|lia]).
  all: rewrite !length_copy_into; unfold slice; autorewrite with nntp; lia.
Qed.

(** [update] keeps exactly the last four bytes of the tail and the chunk. *)
Lemma update_tail f chunk :
  framer_wf f →
  framer_tail (update f chunk) = lastn TERMINATOR_TAIL_SIZE (framer_tail f ++ chunk).
Proof.
  unfold framer_wf, framer_tail, update, TERMINATOR_TAIL_SIZE. intros [Hd Hl].
  assert (length (take (len f) (data f)) = len f) as Ht by (rewrite length_take; lia).
  destruct (Nat.leb_spec 4 (length chunk)) as [Hc|Hc]; cbn [len data].
  { rewrite lastn_app_ge by done. unfold lastn.
    pose proof (take_copy_into (data f) 0 (drop (length chunk - 4) chunk) ltac:(lia)) as H.
    rewrite length_drop in H. replace (0 + (length chunk - (length chunk - 4))) with 4 in H by lia.
    by rewrite H. }
  destruct (Nat.eqb_spec (length chunk) 0) as [H0|H0]; cbn [negb].
  { apply nil_length_inv in H0 as ->. rewrite app_nil_r, lastn_all by lia. done. }
  destruct (Nat.leb_spec 4 (len f + length chunk)) as [H4|H4]; cbn [len data].
  - set (keep := 4 - length chunk). set (kept := slice (len f - keep) (len f) (data f)).
    assert (length kept = keep) as Hk by (unfold kept; rewrite slice_length; lia).
    replace 4 with (keep + length chunk) at 1 by lia.
    rewrite take_copy_into by (rewrite length_copy_into; lia).
    pose proof (take_copy_into (data f) 0 kept ltac:(lia)) as H. rewrite Hk in H. simpl in H.
    rewrite H, lastn_app, (lastn_all 4 chunk) by lia. f_equal. fold keep.
    unfold lastn. rewrite Ht. unfold kept, slice. rewrite take_drop_commute. f_equal. f_equal. lia.
  - rewrite take_copy_into by lia. symmetry. apply lastn_all. rewrite length_app. lia.
Qed.

Lemma framer_for_update s f chunk : framer_for s f → framer_for (s ++ chunk) (update f chunk).
Proof.
  intros [Hwf Ht]. split; [by apply update_wf|].
  rewrite update_tail, Ht by done. apply lastn_lastn_app.
Qed.

(** ** Terminators that touch a chunk *)

(** A terminator ends [e] bytes into the chunk [c] that follows the bytes [s]. *)
Definition touching_end (s c : bytes) (e : nat) : Prop :=
  0 < e ≤ length c ∧ TERMINATOR `suffix_of` (s ++ take e c).

#[global] Instance touching_end_dec s c e : Decision (touching_end s c e).
Proof. unfold touching_end. apply _. Defined.

Definition first_touching (s c : bytes) (r : option nat) : Prop :=
  match r with
  | Some e => touching_end s c e ∧ ∀ j, j < e → ¬ touching_end s c j
  | None => ∀ j, ¬ touching_end s c j
  end.

Lemma first_touching_unique s c r r' : first_touching s c r → first_touching s c r' → r = r'.
Proof.
  destruct r as [i|], r' as [j|]; simpl; [|naive_solver..].
  intros [Hi Hbi] [Hj Hbj]. destruct (Nat.lt_total i j) as [?|[?|?]]; naive_solver.
Qed.

(** The reference search: try every end in turn. *)
Definition first_touching_end (s c : bytes) : option nat :=
  S <$> position (λ e, bool_decide (touching_end s c e)) (seq 1 (length c)).

Lemma first_touching_end_spec s c : first_touching s c (first_touching_end s c).
Proof.
  unfold first_touching_end. destruct (position _ _) as [i|] eqn:E; simpl.
  - apply position_Some in E as [(e & [-> Hi]%lookup_seq & He%bool_decide_eq_true) Hb].
    split; [done|]. intros j Hj Ht. assert (0 < j) by (destruct Ht; lia).
    specialize (Hb (j - 1) j ltac:(lia)). rewrite lookup_seq_lt in Hb by lia.
    specialize (Hb ltac:(f_equal; lia)). by apply bool_decide_eq_false in Hb.
  - apply position_None in E. rewrite Forall_forall in E. intros j Ht.
    assert (j ∈ seq 1 (length c)) as Hj by (apply elem_of_seq; destruct Ht; lia).
    apply E, bool_decide_eq_false in Hj. done.
Qed.

Lemma first_touching_iff s c r : first_touching s c r ↔ first_touching_end s c = r.
Proof.
  split; [|intros <-; apply first_touching_end_spec].
  intros H. by apply (first_touching_unique s c); [apply first_touching_end_spec|].
Qed.

Lemma suffix_app_split {A} (p1 p2 s x : list A) :
  length p2 = length x → p1 ++ p2 `suffix_of` s ++ x ↔ p1 `suffix_of` s ∧ p2 = x.
Proof.
  intros Hl. split.
  - intros [k Hk]. rewrite app_assoc in Hk. apply app_inj_2 in Hk as [-> ->]; [|done].
    split; [by apply suffix_app_r|done].
  - intros [[k ->] ->]. exists k. by rewrite app_assoc.
Qed.

Lemma suffix_lastn {A} (p s : list A) n : length p ≤ n → p `suffix_of` lastn n s ↔ p `suffix_of` s.
Proof.
  intros Hl. unfold lastn. split.
  - intros H. etrans; [exact H|]. exists (take (length s - n) s). by rewrite take_drop.
  - intros [k ->]. exists (drop (length (k ++ p) - n) k).
    rewrite drop_app_le; [done|]. rewrite length_app. lia.
Qed.

Lemma tail_ends_suffix (tl pat : bytes) :
  tail_ends tl (length tl) pat = bool_decide (pat `suffix_of` tl).
Proof.
  unfold tail_ends, slice. rewrite (take_ge (drop _ _)) by (rewrite length_drop; lia).
  destruct (Nat.leb_spec (length pat) (length tl)) as [H|H]; simpl.
  - apply bool_decide_ext. split.
    + intros <-. exists (take (length tl - length pat) tl). by rewrite take_drop.
    + intros [k ->]. rewrite length_app, Nat.add_sub. apply drop_app_length.
  - symmetry. apply bool_decide_eq_false. intros Hs%suffix_length. lia.
Qed.

Lemma current_starts_prefix (c pat : bytes) :
  current_starts c (length c) pat = bool_decide (take (length pat) c = pat).
Proof.
  unfold current_starts. destruct (Nat.leb_spec (length pat) (length c)) as [H|H]; [done|].
  symmetry. apply bool_decide_eq_false. intros Hs%(f_equal length). rewrite length_take in Hs. lia.
Qed.

(** A terminator that ends in the first four bytes of the chunk is split
    between the tail and the chunk. *)
Lemma touching_split s c p1 p2 :
  p1 ++ p2 = TERMINATOR → 0 < length p2 → length p1 ≤ 4 →
  touching_end s c (length p2) ↔ p1 `suffix_of` lastn 4 s ∧ take (length p2) c = p2.
Proof.
  intros Hp H2 H1. unfold touching_end. rewrite suffix_lastn by done. rewrite <-Hp. split.
  - intros [Hl Hs]. apply suffix_app_split in Hs as [? ?]; [done|]. rewrite length_take. lia.
  - intros [Hs Ht]. assert (length p2 ≤ length c) as Hc.
    { apply (f_equal length) in Ht. rewrite length_take in Ht. lia. }
    split; [lia|]. apply suffix_app_split; [rewrite length_take; lia|done].
Qed.

(** The spanning test returns the largest end among the first four bytes. *)
Lemma find_spanning_terminator_spec s f c :
  framer_for s f →
  find_spanning_terminator f c =
  if decide (touching_end s c 4) then Some 4
  else if decide (touching_end s c 3) then Some 3
  else if decide (touching_end s c 2) then Some 2
  else if decide (touching_end s c 1) then Some 1 else None.
Proof.
  intros [[Hd Hl] Ht]. unfold framer_tail, TERMINATOR_TAIL_SIZE in *.
  assert (length (take (len f) (data f)) = len f) as Hlen by (rewrite length_take; lia).
  assert (∀ p1 p2, p1 ++ p2 = TERMINATOR → 0 < length p2 → length p1 ≤ 4 →
    tail_ends (take (len f) (data f)) (len f) p1 && current_starts c (length c) p2 =
    bool_decide (touching_end s c (length p2))) as Hcase.
  { intros p1 p2 Hp H2 H1. rewrite <-Hlen at 2. rewrite tail_ends_suffix, current_starts_prefix, Ht.
    rewrite <-bool_decide_and. apply bool_decide_ext. by rewrite touching_split by done. }
  assert (len f = 0 ∨ length c = 0 → ∀ e, e < 5 → ¬ touching_end s c e) as Hnone.
  { intros H e He Ht'. assert (e ≠ 0) by (destruct Ht'; lia). destruct H as [H|H];
      [|unfold touching_end in Ht'; lia].
    pose proof (proj1 (touching_split s c (take (5 - e) TERMINATOR) (drop (5 - e) TERMINATOR)
      (take_drop _ _) ltac:(rewrite length_drop; simpl; lia) ltac:(rewrite length_take; simpl; lia)))
      as Hsp. rewrite length_drop in Hsp. replace (length TERMINATOR - (5 - e)) with e in Hsp
      by (simpl; lia). destruct (Hsp Ht') as [Hs%suffix_length _].
    rewrite <-Ht, Hlen, length_take in Hs. simpl in Hs. lia. }
  unfold find_spanning_terminator, find_spanning.
  destruct (Nat.eqb_spec (len f) 0) as [H0|H0];
    [rewrite !decide_False by (apply Hnone; [by left|lia]); done|].
  destruct (Nat.ltb_spec (len f) 1); [lia|]. cbn [orb].
  destruct (Nat.ltb_spec (length c) 1) as [Hc|Hc];
    [rewrite !decide_False by (apply Hnone; [right; lia|lia]); done|].
  rewrite !Hcase by (done || (simpl; lia)). cbn [length].
  by repeat (case_decide; case_bool_decide; try done).
Qed.

Lemma touching_in_chunk s c e :
  5 ≤ e → touching_end s c e ↔ match_at TERMINATOR c (e - 5).
Proof.
  intros He. unfold touching_end, match_at. split.
  - intros [Hl Hs]. assert (TERMINATOR `suffix_of` take e c) as [k Hk].
    { rewrite <-(suffix_lastn TERMINATOR _ 5) in Hs by (simpl; lia).
      rewrite lastn_app_ge in Hs by (rewrite length_take; lia).
      by apply suffix_lastn in Hs; [|simpl; lia]. }
    rewrite <-(take_drop e c), Hk, <-app_assoc.
    assert (length k = e - 5) as <-.
    { apply (f_equal length) in Hk. rewrite length_take, length_app in Hk. simpl in Hk. lia. }
    rewrite drop_app_length. by apply prefix_app_r.
  - intros Hm. pose proof (match_at_length _ _ _ Hm ltac:(discriminate)) as Hl. simpl in Hl.
    split; [lia|]. destruct Hm as [k Hk]. exists (s ++ take (e - 5) c).
    rewrite <-(take_drop (e - 5) c) at 1. rewrite Hk, take_app, take_take.
    rewrite length_take, Nat.min_r, Nat.min_l by lia. replace (e - (e - 5)) with 5 by lia.
    by rewrite app_assoc.
Qed.

Lemma touching_take s c e :
  touching_end s c e → e ≤ 4 → take e c = drop (5 - e) TERMINATOR.
Proof.
  intros Ht He. assert (0 < e) by (destruct Ht; lia).
  pose proof (proj1 (touching_split s c (take (5 - e) TERMINATOR) (drop (5 - e) TERMINATOR)
    (take_drop _ _) ltac:(rewrite length_drop; simpl; lia) ltac:(rewrite length_take; simpl; lia)))
    as Hsp. rewrite length_drop in Hsp.
  replace (length TERMINATOR - (5 - e)) with e in Hsp by (simpl; lia). by apply Hsp.
Qed.

(** Two terminators can only end in the first four bytes when they overlap in
    three bytes. *)
Lemma touching_overlap s c d e :
  touching_end s c d → touching_end s c e → d < e ≤ 4 → d = 1 ∧ e = 4.
Proof.
  intros Hd He Hlt. assert (0 < d) by (destruct Hd; lia).
  apply touching_take in Hd, He; [|lia..].
  apply (f_equal (take d)) in He. rewrite take_take, Nat.min_l, Hd in He by lia.
  destruct d as [|[|[|[|d]]]], e as [|[|[|[|[|e]]]]]; try lia; cbn in He; try congruence; done.
Qed.

(** The bytes after the end of a reply do not repeat the dot line: what a
    server that sends status lines between its replies guarantees. *)
Definition clean_after (c : bytes) (e : nat) : Prop := ¬ DOT_TERMINATOR `prefix_of` drop e c.

Lemma head_first_touching {MC : Memchr} {MS : MemchrSpec MC} t s c :
  (∀ j, j ≤ 4 → ¬ touching_end s c j) →
  first_touching s c (head (terminator_ends_in_chunk t c)).
Proof.
  intros Hsmall. rewrite head_terminator_ends.
  assert (∀ j, touching_end s c j → 5 ≤ j ∧ match_at TERMINATOR c (j - 5)) as Hbig.
  { intros j Hj. destruct (decide (j ≤ 4)); [by destruct (Hsmall j)|].
    split; [lia|]. apply (touching_in_chunk s); [lia|done]. }
  pose proof (memmem_find_spec TERMINATOR c) as Hm.
  destruct (memmem_find TERMINATOR c) as [i|]; cbn in *.
  - destruct Hm as [Hm Hb]. split.
    + apply touching_in_chunk; [lia|]. by replace (i + 5 - 5) with i by lia.
    + intros j Hj [? Hmj]%Hbig. apply (Hb (j - 5)); [lia|done].
  - intros j [? Hmj]%Hbig. by apply (Hm (j - 5)).
Qed.

(** The search is exact, unless two overlapping terminators end inside the
    first four bytes of the chunk. *)
Lemma next_terminator_end_cases {MC : Memchr} {MS : MemchrSpec MC} t s f c :
  framer_for s f →
  first_touching s c (next_terminator_end t f c) ∨
  (next_terminator_end t f c = Some 4 ∧ first_touching s c (Some 1) ∧ touching_end s c 4).
Proof.
  intros Hf. unfold next_terminator_end. rewrite (find_spanning_terminator_spec s) by done.
  assert (¬ touching_end s c 0) as H0 by (intros [? _]; lia).
  assert (∀ e, 0 < e ≤ 4 → touching_end s c e → e ≠ 4 ∨ ¬ touching_end s c 1 →
    first_touching s c (Some e)) as Hone.
  { intros e Hle He H4. split; [done|]. intros j Hj Htj.
    destruct (touching_overlap s c j e) as [-> ->]; [done..|lia|]. destruct H4; congruence. }
  repeat case_decide; [| | | |left].
  - destruct (decide (touching_end s c 1)) as [H1|H1]; [right|left; apply Hone; auto; lia].
    split; [done|]. split; [|done]. apply Hone; auto; lia.
  - left. apply Hone; auto; lia.
  - left. apply Hone; auto; lia.
  - left. apply Hone; auto; lia.
  - apply head_first_touching. intros j Hj Ht.
    destruct j as [|[|[|[|[|j]]]]]; try done; lia.
Qed.

Lemma next_terminator_end_spec {MC : Memchr} {MS : MemchrSpec MC} t s f c :
  framer_for s f →
  (∀ e, first_touching s c (Some e) → clean_after c e) →
  first_touching s c (next_terminator_end t f c).
Proof.
  intros Hf Hc. destruct (next_terminator_end_cases t s f c Hf) as [?|(_ & H1 & H4)]; [done|].
  exfalso. apply (Hc 1 H1). apply touching_take in H4; [|lia].
  rewrite <-(take_drop 4 c), H4. cbn. by exists (drop 4 c).
Qed.

(** ** The policies *)

Section PolicyFacts.
Context {MC : Memchr} {MS : MemchrSpec MC} (t : target).

(** With isolated responses the first terminator decides. *)
Lemma split_chunk_reject f c :
  split_chunk t f c PolicyReject =
  match next_terminator_end t f c with
  | Some e => (if e =? length c then Ok (Complete e)
               else Err UnexpectedTrailingResponseBytes, f)
  | None => (Ok Incomplete, update f c)
  end.
Proof.
  unfold split_chunk, split_spanning, next_terminator_end. cbn [is_allow negb andb].
  destruct (find_spanning_terminator f c) as [e|].
  - rewrite orb_false_r. by destruct (e =? length c).
  - destruct (terminator_ends_in_chunk t c) as [|e ends]; cbn; [done|].
    by destruct (e =? length c).
Qed.

(** With pipelined responses a terminator followed by nothing or by the start
    of a status line ends the response. *)
Lemma split_chunk_allow f c e :
  next_terminator_end t f c = Some e →
  plausible_status_prefix (drop e c) = true →
  split_chunk t f c AllowIfStatusPrefix = (Ok (Complete e), f).
Proof.
  unfold split_chunk, split_spanning, next_terminator_end. intros Hn Hp. cbn [is_allow andb].
  destruct (find_spanning_terminator f c) as [e'|].
  - injection Hn as ->. by rewrite Hp, orb_true_r.
  - destruct (terminator_ends_in_chunk t c) as [|e' ends]; [done|]. injection Hn as ->.
    cbn. rewrite Hp. by destruct (e =? length c).
Qed.

Lemma split_chunk_none f c policy :
  next_terminator_end t f c = None →
  split_chunk t f c policy = (Ok Incomplete, update f c).
Proof.
  unfold split_chunk, split_spanning, next_terminator_end. intros Hn.
  destruct (find_spanning_terminator f c) as [e'|]; [done|].
  by destruct (terminator_ends_in_chunk t c).
Qed.

(** A completed read always ends at a terminator, whatever the policy. *)
Lemma split_loop_sound c policy ends e :
  split_loop c policy ends = Some (Ok (Complete e)) →
  e ∈ ends ∧ (e = length c ∨ plausible_status_prefix (drop e c) = true).
Proof.
  induction ends as [|d ends IH]; simpl; [done|].
  destruct (Nat.eqb_spec d (length c)) as [->|Hd]; [intros [= <-]; split; [by left|by left]|].
  destruct policy; [done|]. destruct (plausible_status_prefix (drop d c)) eqn:E.
  - intros [= <-]. split; [by left|by right].
  - intros [? ?]%IH. split; [by right|done].
Qed.

Lemma split_chunk_sound s f c policy e f' :
  framer_for s f →
  split_chunk t f c policy = (Ok (Complete e), f') →
  touching_end s c e ∧ (e = length c ∨ plausible_status_prefix (drop e c) = true).
Proof.
  intros Hf. unfold split_chunk. destruct (split_spanning f c policy) as [r|] eqn:E.
  - intros [= -> ->]. unfold split_spanning in E.
    rewrite (find_spanning_terminator_spec s) in E by done. repeat case_decide; [..|done].
    all: destruct (_ || _) eqn:E2 in E; [|by destruct policy].
    all: injection E as <-; split; [done|].
    all: apply orb_true_iff in E2 as [?%Nat.eqb_eq|[_ ?]%andb_true_iff]; auto.
  - destruct (split_loop c policy _) as [r|] eqn:E2; [|done]. intros [= -> ->].
    apply split_loop_sound in E2 as [Hin ?]. split; [|done].
    pose proof (scanners_sound t c) as Hall. rewrite Forall_forall in Hall.
    apply Hall in Hin as (i & -> & Hm). apply touching_in_chunk; [simpl; lia|].
    cbn. by replace (i + 5 - 5) with i by lia.
Qed.
End PolicyFacts.

(** ** Several reads *)

Lemma touching_app_l s c rest e :
  e ≤ length c → touching_end s (c ++ rest) e ↔ touching_end s c e.
Proof.
  intros He. unfold touching_end. rewrite take_app_le, length_app by done.
  split; intros [? ?]; (split; [lia|done]).
Qed.

Lemma touching_app_r s c rest e :
  touching_end s (c ++ rest) (length c + e) ↔
  (0 < e ∧ touching_end (s ++ c) rest e) ∨ (e = 0 ∧ touching_end s c (length c)).
Proof.
  destruct e as [|e].
  - rewrite Nat.add_0_r, touching_app_l by done. split; [auto|]. intros [[? _]|[_ ?]]; [lia|done].
  - unfold touching_end. rewrite take_app_add, <-app_assoc, length_app.
    split; [intros [? ?]; left; split_and!; (lia || done)|].
    intros [(_ & ? & ?)|[? _]]; [|lia]. split; [lia|done].
Qed.

Lemma first_touching_app_Some s c rest e :
  first_touching s c (Some e) → first_touching s (c ++ rest) (Some e).
Proof.
  intros [He Hb]. assert (e ≤ length c) by (destruct He; lia).
  split; [by apply touching_app_l|]. intros j Hj. rewrite touching_app_l by lia. auto.
Qed.

Lemma first_touching_app_None s c rest r :
  first_touching s c None → first_touching (s ++ c) rest r →
  first_touching s (c ++ rest) ((λ e, length c + e) <$> r).
Proof.
  intros Hn Hr.
  assert (∀ j, touching_end s (c ++ rest) j →
    ∃ k, j = length c + k ∧ touching_end (s ++ c) rest k) as Hj.
  { intros j Hj. destruct (decide (j ≤ length c)) as [Hl|Hl].
    - rewrite touching_app_l in Hj by done. by destruct (Hn j).
    - exists (j - length c). replace j with (length c + (j - length c)) in Hj by lia.
      apply touching_app_r in Hj as [[_ ?]|[? _]]; [|lia]. split; [lia|done]. }
  destruct r as [e|]; simpl in *.
  - destruct Hr as [He Hb]. split.
    + apply touching_app_r. left. split; [destruct He; lia|done].
    + intros j Hlt (k & -> & Hk)%Hj. apply (Hb k); [lia|done].
  - intros j (k & -> & Hk)%Hj. by destruct (Hr k).
Qed.

Lemma clean_after_app_l c rest e : e ≤ length c → clean_after (c ++ rest) e → clean_after c e.
Proof.
  unfold clean_after. intros He Hc Hp. apply Hc. rewrite drop_app_le by done.
  by apply prefix_app_r.
Qed.

Section Reads.
Context {MC : Memchr} (t : target).

(** The framer over a sequence of reads, stopping at the first hit; the answer
    is an offset into their concatenation. *)
Fixpoint advance_all (f : MultilineFramer) (chunks : list bytes) : option nat :=
  match chunks with
  | [] => None
  | c :: chunks =>
      let '(pos, f) := advance_to_next_terminator_end t f c in
      match pos with
      | Some e => Some e
      | None => (λ e, length c + e) <$> advance_all f chunks
      end
  end.

Lemma advance_all_spec {MS : MemchrSpec MC} chunks s f :
  framer_for s f →
  (∀ e, first_touching s (concat chunks) (Some e) → clean_after (concat chunks) e) →
  first_touching s (concat chunks) (advance_all f chunks).
Proof.
  revert s f. induction chunks as [|c chunks IH]; intros s f Hf Hc.
  { intros j [? _]. simpl in *. lia. }
  cbn [concat advance_all]. unfold advance_to_next_terminator_end.
  assert (first_touching s c (next_terminator_end t f c)) as Hn.
  { apply next_terminator_end_spec; [done|]. intros e He.
    apply (clean_after_app_l c (concat chunks)); [destruct He as [[] _]; lia|].
    by apply Hc, first_touching_app_Some. }
  destruct (next_terminator_end t f c) as [e|]; [by apply first_touching_app_Some|].
  apply first_touching_app_None; [done|]. apply IH; [by apply framer_for_update|].
  intros e He. specialize (Hc (length c + e)). unfold clean_after in *. cbn [concat] in Hc.
  rewrite drop_app_add in Hc. apply Hc. by apply (first_touching_app_None s c _ (Some e)).
Qed.
End Reads.

(** ** Theorems *)

(** The framer's four-byte window is exactly the end of the byte stream: after
    any sequence of reads, whatever their sizes, the array and length hold the
    last four bytes (or all of them, if fewer) of the concatenation. *)
Theorem rolling_tail_refines chunks :
  framer_tail (foldl update default_framer chunks) = lastn TERMINATOR_TAIL_SIZE (concat chunks) ∧
  framer_wf (foldl update default_framer chunks).
Proof.
  assert (∀ s f, framer_for s f → framer_for (s ++ concat chunks) (foldl update f chunks)) as H.
  { induction chunks as [|c chunks IH]; intros s f Hf; simpl; [by rewrite app_nil_r|].
    rewrite app_assoc. by apply IH, framer_for_update. }
  destruct (H [] default_framer framer_for_default) as [? ?]. done.
Qed.



(** Two terminators that share their middle CRLF: a fragmentation that puts the
    boundary four bytes into the first one makes the framer report the second,
    where a single read reports the first. *)
Example overlapping_terminators :
  advance_all (MC := naive_memchr) Generic default_framer
    [bs "x" ++ TERMINATOR ++ DOT_TERMINATOR] = Some 6 ∧
  advance_all (MC := naive_memchr) Generic default_framer
    [bs "x" ++ [x0d; x0a; x2e; x0d]; [x0a] ++ DOT_TERMINATOR] = Some 9.
Proof. split; vm_compute; reflexivity. Qed.

(** What one read of a response decides, under each policy.  For an isolated
    response the first terminator completes it if the read ends there and is
    an error otherwise; for a pipelined one, completion always happens at a
    terminator that is followed by nothing or by the start of a status line,
    and the first terminator is taken whenever it is; without a terminator the
    response stays open and the framer remembers the read. *)
Theorem split_chunk_correct {MC : Memchr} {MS : MemchrSpec MC} t s f c :
  framer_for s f →
  (∀ e, first_touching_end s c = Some e → clean_after c e) →
  split_chunk t f c PolicyReject =
    match first_touching_end s c with
    | Some e => (if e =? length c then Ok (Complete e)
                 else Err UnexpectedTrailingResponseBytes, f)
    | None => (Ok Incomplete, update f c)
    end ∧
  (∀ e f', split_chunk t f c AllowIfStatusPrefix = (Ok (Complete e), f') →
     touching_end s c e ∧ plausible_status_prefix (drop e c) = true) ∧
  (∀ e, first_touching_end s c = Some e → plausible_status_prefix (drop e c) = true →
     split_chunk t f c AllowIfStatusPrefix = (Ok (Complete e), f)) ∧
  (first_touching_end s c = None →
     split_chunk t f c AllowIfStatusPrefix = (Ok Incomplete, update f c) ∧
     framer_for (s ++ c) (update f c)).
Proof.
  intros Hf Hc.
  assert (next_terminator_end t f c = first_touching_end s c) as Hn.
  { symmetry. apply first_touching_iff, next_terminator_end_spec; [done|].
    intros e He. by apply Hc, first_touching_iff. }
  split_and!.
  - by rewrite split_chunk_reject, Hn.
  - intros e f' He. destruct (split_chunk_sound t s f c _ e f' Hf He) as [? [->|?]]; [|done].
    split; [done|]. by rewrite drop_all.
  - intros e He Hp. apply split_chunk_allow; [by rewrite Hn|done].
  - intros H0. split; [apply split_chunk_none; by rewrite Hn|by apply framer_for_update].
Qed.

Lemma split_chunk_correct_witness :
  let c := bs "x" ++ TERMINATOR ++ bs "223 0 <a@b>" in
  split_chunk (MC := naive_memchr) Generic default_framer c AllowIfStatusPrefix
  = (Ok (Complete 6), default_framer).
Proof.
  refine (proj1 (proj2 (proj2 (split_chunk_correct (MC := naive_memchr) (MS := naive_memchr_spec)
    Generic [] default_framer _ framer_for_default _))) _ _ _).
  - intros e He Hp. vm_compute in He. injection He as <-. by vm_compute in Hp; destruct Hp.
  - vm_compute. reflexivity.
  - vm_compute. reflexivity.
Defined.

(** A terminator at the front of a fresh framer must lie inside the chunk. *)
Lemma next_terminator_end_default {MC : Memchr} {MS : MemchrSpec MC} t c :
  next_terminator_end t default_framer c = (λ i, i + 5) <$> memmem_find TERMINATOR c.
Proof. unfold next_terminator_end. cbn. by rewrite head_terminator_ends. Qed.

Lemma captured_payload_body_iff {MC : Memchr} {MS : MemchrSpec MC} t p body :
  captured_multiline_payload_body t p = Some body ↔
  p = body ++ DOT_TERMINATOR ∧ (body = [] ∨ CRLF `suffix_of` body) ∧
  (∀ i, match_at TERMINATOR p i → i + length TERMINATOR = length p).
Proof.
  unfold captured_multiline_payload_body, complete_multiline_payload_split.
  case_bool_decide as Hd.
  { subst p. split.
    - intros [= <-]. split; [done|]. split; [by left|]. intros i Hi.
      apply match_at_length in Hi; [|done]. simpl in *. lia.
    - intros (Hp & _). apply (app_inv_tail DOT_TERMINATOR [] body) in Hp. by rewrite <-Hp. }
  rewrite split_chunk_reject, next_terminator_end_default.
  pose proof (memmem_find_spec TERMINATOR p) as Hm.
  destruct (memmem_find TERMINATOR p) as [i|]; cbn [fmap option_fmap option_map fst].
  - destruct Hm as [Hm Hb]. pose proof (match_at_length _ _ _ Hm ltac:(discriminate)) as Hl.
    cbn [length TERMINATOR] in *. destruct Hm as [k Hk].
    assert (p = take i p ++ TERMINATOR ++ k) as Hp by (rewrite <-Hk; by rewrite take_drop).
    destruct (Nat.eqb_spec (i + 5) (length p)) as [He|He].
    + assert (k = []) as ->.
      { apply nil_length_inv. apply (f_equal length) in Hk. rewrite length_drop, length_app in Hk.
        simpl in Hk. lia. }
      unfold checked_sub. destruct (Nat.ltb_spec (i + 5) (length DOT_TERMINATOR)) as [?|_];
        [simpl in *; lia|]. cbn [mbind option_bind fmap option_fmap option_map fst snd].
      assert (slice 0 (i + 5 - length DOT_TERMINATOR) p = take i p ++ CRLF) as ->.
      { unfold slice. rewrite drop_0. replace (i + 5 - length DOT_TERMINATOR - 0) with (i + 2)
          by (simpl; lia). by rewrite <-take_take_drop, Hk. }
      split.
      * intros [= <-]. split; [rewrite <-app_assoc; exact Hp|]. split; [right; by exists (take i p)|].
        intros j Hj. pose proof (match_at_length _ _ _ Hj ltac:(discriminate)) as Hjl. simpl in Hjl.
        destruct (decide (j < i)); [by destruct (Hb j)|lia].
      * intros (Hb' & _). f_equal. rewrite Hp in Hb' at 1. 
        apply (app_inv_tail DOT_TERMINATOR). rewrite <-Hb'. by rewrite <-app_assoc.
    + split; [done|]. intros (_ & _ & Hlast). destruct He. rewrite <-(Hlast i); [done|by exists k].
  - split; [done|]. intros (-> & [->|[k ->]] & _); [done|]. destruct (Hm (length k)).
    unfold match_at. rewrite <-app_assoc, drop_app_length. by exists [].
Qed.

(** The captured body of a multiline payload is the payload without its dot
    line, and it is returned exactly for complete payloads: a sequence of
    lines (empty, or ending in CRLF) followed by the dot line, with no earlier
    terminator. *)
Theorem captured_payload_body_exact {MC : Memchr} {MS : MemchrSpec MC} t p body :
  captured_multiline_payload_body t p = Some body ↔
  p = body ++ DOT_TERMINATOR ∧ (body = [] ∨ CRLF `suffix_of` body) ∧
  (∀ i, match_at TERMINATOR p i → i + length TERMINATOR = length p).
Proof. apply captured_payload_body_iff. Qed.

Lemma captured_payload_body_exact_witness :
  captured_multiline_payload_body (MC := naive_memchr) X86Avx2
    (bs "From: x" ++ CRLF ++ DOT_TERMINATOR) = Some (bs "From: x" ++ CRLF).
Proof.
  refine (proj2 (captured_payload_body_exact (MC := naive_memchr) (MS := naive_memchr_spec)
    X86Avx2 _ _) _).
  split; [reflexivity|]. split; [right; by exists (bs "From: x")|].
  intros i Hi. pose proof (match_at_length _ _ _ Hi ltac:(discriminate)) as Hl. simpl in Hl.
  destruct Hi as [k Hk]. do 8 (destruct i as [|i]; [by (discriminate Hk || reflexivity)|]). lia.
Defined.

(** Header blocks: no line is empty and every line is complete. *)
Definition wf_headers (h : bytes) : Prop :=
  h = [] ∨ (CRLF `suffix_of` h ∧ ¬ CRLF `prefix_of` h ∧
            ∀ i, ¬ match_at [x0d; x0a; x0d; x0a] h i).

Lemma blank_line_leftmost h b :
  CRLF `suffix_of` h → (∀ i, ¬ match_at [x0d; x0a; x0d; x0a] h i) →
  leftmost [x0d; x0a; x0d; x0a] (h ++ CRLF ++ b) (Some (length h - 2)).
Proof.
  intros [k ->] Hno. rewrite length_app, Nat.add_sub. split.
  - unfold match_at. rewrite <-!app_assoc, drop_app_length. by exists b.
  - intros j Hj Hm. destruct (decide (j + 4 ≤ length (k ++ CRLF))) as [Hl|Hl].
    + apply (Hno j). by rewrite match_at_app_l in Hm.
    + rewrite length_app in Hl. simpl in Hl. destruct Hm as [r Hr].
      apply (f_equal (.!! 1)) in Hr. rewrite lookup_drop in Hr.
      replace (j + 1) with (length k + 0) in Hr by lia.
      by rewrite <-!app_assoc, lookup_app_r, Nat.add_0_r, Nat.sub_diag in Hr by lia.
Qed.

Lemma captured_article_sections_iff {MC : Memchr} {MS : MemchrSpec MC} p h b :
  p = h ++ CRLF ++ b →
  captured_article_payload_sections p = Some ((0, length h), (length h + 2, length p)) ↔
  wf_headers h.
Proof.
  intros Hp. unfold captured_article_payload_sections. case_bool_decide as Hc.
  - split; [intros [= H]; left; by apply nil_length_inv|].
    intros [->|(Hs & Hnp & _)]; [done|]. destruct Hnp. rewrite Hp in Hc.
    apply suffix_length in Hs. destruct h as [|x [|y h]]; simpl in Hs; try lia.
    destruct Hc as [r Hr]. injection Hr as -> -> _. by exists h.
  - pose proof (memmem_find_spec [x0d; x0a; x0d; x0a] p) as Hm. split.
    + destruct (memmem_find _ p) as [split|]; [|done]. intros [= Hs _]. destruct Hm as [Hm Hb].
      right. assert (h = take (split + 2) p) as Hh by (by rewrite Hp, Hs, take_app_length).
      destruct Hm as [r Hr]. split_and!.
      * exists (take split p). by rewrite Hh, <-take_take_drop, Hr.
      * intros [r' Hr']. apply Hc. rewrite Hp, Hr', <-app_assoc. by exists (r' ++ CRLF ++ b).
      * intros i Hi. pose proof (match_at_length _ _ _ Hi ltac:(discriminate)) as Hil. simpl in Hil.
        apply (Hb i); [lia|]. rewrite Hp. apply match_at_app_l; [simpl; lia|done].
    + intros [->|(Hs & _ & Hno)]; [destruct Hc; rewrite Hp; by exists b|].
      pose proof (blank_line_leftmost h b Hs Hno) as Hl. rewrite <-Hp in Hl.
      rewrite (leftmost_unique _ _ _ _ Hm Hl). simpl. apply suffix_length in Hs. simpl in Hs.
      by replace (length h - 2 + 2) with (length h) by lia; replace (length h - 2 + 4) with (length h + 2) by lia.
Qed.

(** A captured article is split at its first blank line: of all ways to write
    the payload as a header block, a blank line and a body, the sections
    returned are the one whose header block contains no blank line (an article
    without headers starts with the blank line). *)
Theorem captured_article_sections_exact {MC : Memchr} {MS : MemchrSpec MC} p h b :
  p = h ++ CRLF ++ b →
  captured_article_payload_sections p = Some ((0, length h), (length h + 2, length p)) ↔
  wf_headers h.
Proof. apply captured_article_sections_iff. Qed.

Lemma captured_article_sections_exact_witness :
  captured_article_payload_sections (MC := naive_memchr)
    (bs "A: 1" ++ CRLF ++ CRLF ++ bs "x" ++ CRLF ++ CRLF ++ bs "y") = Some ((0, 6), (8, 14)).
Proof.
  refine (proj2 (captured_article_sections_exact (MC := naive_memchr) (MS := naive_memchr_spec) _
    (bs "A: 1" ++ CRLF) (bs "x" ++ CRLF ++ CRLF ++ bs "y") eq_refl) _).
  right. split; [by exists (bs "A: 1")|]. split; [by intros [k Hk]|].
  intros i Hi. pose proof (match_at_length _ _ _ Hi ltac:(discriminate)) as Hl. simpl in Hl.
  destruct Hi as [k Hk]. do 3 (destruct i as [|i]; [by discriminate Hk|]). lia.
Defined.

(** Classification of a response: it is postponed exactly while no line feed
    has arrived, refused exactly when the first bytes are not a status code,
    and otherwise keyed to the first line: the status is that line's code, the
    request decides whether a body follows, and a single-line response and the
    bytes packed after it split the read without gap or overlap. *)
Theorem parse_bytes_correct {MC : Memchr} {MS : MemchrSpec MC} request chunk :
  match parse_bytes request chunk with
  | Err ReadIncomplete => x0a ∉ chunk
  | Err (ReadInvalid _) => x0a ∈ chunk ∧ parse chunk = None
  | Ok (Multiline st e) =>
      parse chunk = Some st ∧ has_response_body request st = true ∧
      (∃ line, take e chunk = line ++ [x0a] ∧ x0a ∉ line)
  | Ok (SingleLine st e resp next) =>
      parse chunk = Some st ∧ has_response_body request st = false ∧
      (∃ line, take e chunk = line ++ [x0a] ∧ x0a ∉ line) ∧
      slice resp.1 resp.2 chunk ++ slice next.1 next.2 chunk = chunk ∧
      slice resp.1 resp.2 chunk = take e chunk
  end.
Proof.
  unfold parse_bytes, status_line_len, parse_response_status. rewrite memchr_spec.
  destruct (position _ chunk) as [i|] eqn:E; cbn.
  - pose proof (position_line _ _ _ E) as (line & rest & -> & <- & Hline).
    assert (x0a ∈ line ++ x0a :: rest) as Hin by (apply elem_of_app; right; left).
    assert (take (S (length line)) (line ++ x0a :: rest) = line ++ [x0a]) as Ht.
    { rewrite cons_middle, app_assoc. apply take_app_length'. rewrite length_app. simpl. lia. }
    destruct (parse (line ++ x0a :: rest)) as [st|] eqn:P; [|done].
    destruct (has_response_body request st) eqn:B; cbn -[take slice length];
      [by eauto 6|split_and!; [done|done|by eauto| |]].
    + unfold slice. rewrite drop_0, Nat.sub_0_r, (take_ge (drop _ _)) by (rewrite length_drop; lia).
      apply take_drop.
    + unfold slice. by rewrite drop_0, Nat.sub_0_r.
  - apply position_None in E. intros Hin. rewrite Forall_forall in E.
    specialize (E _ Hin). by apply byte_eqb_neq in E.
Qed.

Lemma parse_bytes_correct_witness :
  parse_bytes (MC := naive_memchr) (from_verb_args (bs "GROUP") (bs "a")) (bs "211 1 1 1 a" ++ CRLF ++ bs "22")
  = Ok (SingleLine (mkStatusCode 211) 13 (0, 13) (13, 15)) ∧
  (∃ line, take 13 (bs "211 1 1 1 a" ++ CRLF ++ bs "22") = line ++ [x0a] ∧ x0a ∉ line).
Proof.
  split; [vm_compute; reflexivity|].
  exact (proj1 (proj2 (proj2 (parse_bytes_correct (MC := naive_memchr) (MS := naive_memchr_spec)
    (from_verb_args (bs "GROUP") (bs "a")) (bs "211 1 1 1 a" ++ CRLF ++ bs "22"))))).
Defined.

(** Under the pipelining policy a terminator that is followed, in the same
    read, by bytes that cannot start a status line does not end the response,
    while the same bytes cut after the terminator do. *)
Example packed_suffix_depends_on_reads :
  (split_chunk (MC := naive_memchr) Generic default_framer (bs "x" ++ TERMINATOR ++ bs "zz")
     AllowIfStatusPrefix).1 = Ok Incomplete ∧
  (split_chunk (MC := naive_memchr) Generic default_framer (bs "x" ++ TERMINATOR)
     AllowIfStatusPrefix).1 = Ok (Complete 6).
Proof. split; vm_compute; reflexivity. Qed.
