(* ===== verification/Tracker.v ===== *)
(** * Tracker: matching backend bytes to pipelined requests

    Models [PendingRequestFrame], [BackendReplyTracker] and
    [BackendResponseOrder] of [src/src/session/multiline_framing.rs]: in
    stateful sessions the proxy forwards backend bytes as they arrive, tracks
    where each pipelined request's reply ends, and releases its own replies
    only between backend replies.  The abstract specification is [reply_end],
    the length of the first reply of a byte stream, and the machine [abs_step],
    which delivers a queue of expected replies in order. *)

From S2P Require Import Prelude Protocol Request Scanner Framer.

(** ** Data *)

(** [constants::buffer::COMMAND] *)
Definition COMMAND : nat := 512.

Inductive PendingRequestFrameState :=
| AwaitingStatusLine
| DiscardingOverlongStatusLine
| ReadingMultiline (framer : MultilineFramer).

Record PendingRequestFrame := mkPending {
  pending_kind : RequestKind;
  pending_state : PendingRequestFrameState;
  status_line : bytes;
}.

(** [BackendReplyBytes] *)
Inductive BackendReplyBytes :=
| CompletedTrackedReply (b : bytes)
| ForwardUntracked (b : bytes).

Inductive OrderedResponse := OBackend | OLocal (reply : bytes).

(** [BackendResponseOrder] with the queue of its [BackendReplyTracker]. *)
Record BackendResponseOrder := mkOrder {
  pending : list PendingRequestFrame;
  ordered : list OrderedResponse;
}.

Definition default_order : BackendResponseOrder := mkOrder [] [].

Definition new_pending (k : RequestKind) : PendingRequestFrame :=
  mkPending k AwaitingStatusLine [].

(** [BackendResponseOrder::push_request], with [BackendReplyTracker::push_request]. *)
Definition push_request (k : RequestKind) (o : BackendResponseOrder) : BackendResponseOrder :=
  mkOrder (pending o ++ [new_pending k]) (ordered o ++ [OBackend]).

Definition push_deferred_reply (reply : bytes) (o : BackendResponseOrder) : BackendResponseOrder :=
  mkOrder (pending o) (ordered o ++ [OLocal reply]).

Definition is_backend (r : OrderedResponse) : bool :=
  match r with OBackend => true | OLocal _ => false end.

Definition has_pending_backend_replies (o : BackendResponseOrder) : bool :=
  existsb is_backend (ordered o).

Definition has_deferred_replies (o : BackendResponseOrder) : bool :=
  existsb (λ r, negb (is_backend r)) (ordered o).

Definition should_drain_backend_replies (o : BackendResponseOrder) : bool :=
  match ordered o with
  | OBackend :: rest => existsb (λ r, negb (is_backend r)) rest
  | _ => false
  end.

Section Tracking.
Context {MC : Memchr} (t : target).

(** [PendingRequestFrame::consume]: the range of the chunk that completes the
    reply, if the chunk holds its end, and the frame afterwards. *)
Definition consume (fr : PendingRequestFrame) (chunk : bytes) (offset : nat)
    : option (nat * nat) * PendingRequestFrame :=
  let offset_bytes := drop offset chunk in
  let k := pending_kind fr in
  match pending_state fr with
  | AwaitingStatusLine =>
      match memchr x0a offset_bytes with
      | None =>
          if COMMAND <? length (status_line fr) + length offset_bytes
          then (None, mkPending k DiscardingOverlongStatusLine [])
          else (None, mkPending k AwaitingStatusLine (status_line fr ++ offset_bytes))
      | Some pos =>
          let end_ := offset + (pos + 1) in
          if COMMAND <? length (status_line fr) + end_ - offset
          then (Some (offset, end_), fr)
          else
            let line := status_line fr ++ slice offset end_ chunk in
            match parse line with
            | None => (Some (offset, end_), mkPending k AwaitingStatusLine line)
            | Some status =>
                if negb (request_kind_has_response_body k status)
                then (Some (offset, end_), mkPending k AwaitingStatusLine line)
                else
                  let framer := update default_framer line in
                  match advance_to_next_terminator_end t framer (drop end_ chunk) with
                  | (Some consumed, _) =>
                      (Some (offset, end_ + consumed), mkPending k AwaitingStatusLine [])
                  | (None, framer) => (None, mkPending k (ReadingMultiline framer) [])
                  end
            end
      end
  | DiscardingOverlongStatusLine =>
      ((λ pos, (offset, offset + (pos + 1))) <$> memchr x0a offset_bytes, fr)
  | ReadingMultiline framer =>
      let '(pos, framer) := advance_to_next_terminator_end t framer offset_bytes in
      ((λ consumed, (offset, offset + consumed)) <$> pos,
       mkPending k (ReadingMultiline framer) (status_line fr))
  end.

(** [BackendReplyTracker::accept_backend_bytes]: every round of the loop but
    the last removes a pending frame. *)
Fixpoint accept_loop (pending : list PendingRequestFrame) (chunk : bytes) (offset : nat)
    : list BackendReplyBytes * list PendingRequestFrame :=
  if offset <? length chunk then
    match pending with
    | [] => ([ForwardUntracked (drop offset chunk)], [])
    | front :: rest =>
        match consume front chunk offset with
        | (None, front) => ([ForwardUntracked (drop offset chunk)], front :: rest)
        | (Some (start, end_), _) =>
            let '(output, pending) := accept_loop rest chunk end_ in
            (CompletedTrackedReply (slice start end_ chunk) :: output, pending)
        end
    end
  else ([], pending).

Definition accept_backend_bytes (pending : list PendingRequestFrame) (chunk : bytes)
    : list BackendReplyBytes * list PendingRequestFrame :=
  accept_loop pending chunk 0.

(** A sequence of backend reads. *)
Fixpoint accept_reads (pending : list PendingRequestFrame) (reads : list bytes)
    : list BackendReplyBytes * list PendingRequestFrame :=
  match reads with
  | [] => ([], pending)
  | r :: reads =>
      let '(out, pending) := accept_backend_bytes pending r in
      let '(outs, pending) := accept_reads pending reads in (out ++ outs, pending)
  end.

Fixpoint take_ready (ordered : list OrderedResponse) : list bytes * list OrderedResponse :=
  match ordered with
  | OLocal reply :: rest => let '(replies, rest) := take_ready rest in (reply :: replies, rest)
  | _ => ([], ordered)
  end.

Definition take_ready_deferred_replies (o : BackendResponseOrder)
    : list bytes * BackendResponseOrder :=
  let '(replies, rest) := take_ready (ordered o) in (replies, mkOrder (pending o) rest).

(** The loop of [client_writes_for_backend_read] over the tracked pieces. *)
Fixpoint write_replies (output : list BackendReplyBytes) (ordered : list OrderedResponse)
    : list bytes * list OrderedResponse :=
  match output with
  | [] => ([], ordered)
  | CompletedTrackedReply b :: output =>
      let ordered := match ordered with OBackend :: rest => rest | _ => ordered end in
      let '(ready, ordered) := take_ready ordered in
      let '(writes, ordered) := write_replies output ordered in
      (b :: ready ++ writes, ordered)
  | ForwardUntracked b :: output =>
      let '(writes, ordered) := write_replies output ordered in (b :: writes, ordered)
  end.

Definition client_writes_for_backend_read (o : BackendResponseOrder) (backend_read : bytes)
    : list bytes * BackendResponseOrder :=
  let '(ready, ordered) := take_ready (ordered o) in
  let '(output, pending) := accept_backend_bytes (pending o) backend_read in
  let '(writes, ordered) := write_replies output ordered in
  (ready ++ writes, mkOrder pending ordered).

(** A sequence of backend reads, and all the writes they cause. *)
Fixpoint client_writes_for_reads (o : BackendResponseOrder) (reads : list bytes)
    : list bytes * BackendResponseOrder :=
  match reads with
  | [] => ([], o)
  | r :: reads =>
      let '(w, o) := client_writes_for_backend_read o r in
      let '(ws, o) := client_writes_for_reads o reads in (w ++ ws, o)
  end.
End Tracking.

(** ** Abstract specification *)

(** The length of the reply to a request of kind [k] that the stream [s] starts
    with, once it is complete: the first line, and the lines up to the dot line
    if the status says that a body follows.  A status line longer than the
    limit, or one without a status code, is a reply by itself. *)
Definition reply_end (k : RequestKind) (s : bytes) : option nat :=
  match position (Byte.eqb x0a) s with
  | None => None
  | Some p =>
      let line := take (S p) s in
      if COMMAND <? length line then Some (S p)
      else match parse line with
           | None => Some (S p)
           | Some status =>
               if request_kind_has_response_body k status
               then (λ e, S p + e) <$> first_touching_end line (drop (S p) s)
               else Some (S p)
           end
  end.

(** The complete replies at the front of the stream, the requests still waiting
    and the bytes that belong to the next one. *)
Fixpoint split_replies (ks : list RequestKind) (s : bytes)
    : list bytes * (list RequestKind * bytes) :=
  match ks with
  | [] => ([], ([], s))
  | k :: ks' =>
      match reply_end k s with
      | None => ([], (ks, s))
      | Some e => let '(rs, rest) := split_replies ks' (drop e s) in (take e s :: rs, rest)
      end
  end.

(** No reply is directly followed by a dot line. *)
Fixpoint clean_stream (ks : list RequestKind) (s : bytes) : Prop :=
  match ks with
  | [] => True
  | k :: ks =>
      match reply_end k s with
      | None => True
      | Some e => clean_after s e ∧ clean_stream ks (drop e s)
      end
  end.

(** What a client should see: its queue of expected replies, in order. *)
Inductive Expected := EBackend (k : RequestKind) | ELocal (reply : bytes).

(** [deliver q s] consumes the stream [s]: the bytes of the queue entries it
    satisfies, the entries left, and the bytes received for the next one. *)
Fixpoint deliver (q : list Expected) (s : bytes) : bytes * (list Expected * bytes) :=
  match q with
  | [] => ([], ([], s))
  | ELocal reply :: q => let '(pre, st) := deliver q s in (reply ++ pre, st)
  | EBackend k :: q' =>
      match reply_end k s with
      | None => ([], (q, s))
      | Some e => let '(pre, st) := deliver q' (drop e s) in (take e s ++ pre, st)
      end
  end.

Definition kind_of (x : Expected) : option RequestKind :=
  match x with EBackend k => Some k | ELocal _ => None end.

Abbreviation kinds q := (omap kind_of q).

(** The abstract machine: a queue of expected replies and the bytes, already
    forwarded, of the reply in progress.  A new entry behind a queue without
    backend requests starts afresh. *)
Inductive OrderOp := Push (k : RequestKind) | Defer (reply : bytes) | TakeReady | Read (b : bytes).

Record AbsOrder := mkAbs { abs_queue : list Expected; abs_seen : bytes }.

Definition in_progress (a : AbsOrder) : bytes :=
  match kinds (abs_queue a) with [] => [] | _ => abs_seen a end.

Fixpoint split_ready (q : list Expected) : bytes * list Expected :=
  match q with
  | ELocal reply :: q => let '(ready, q) := split_ready q in (reply ++ ready, q)
  | _ => ([], q)
  end.

Definition abs_step (a : AbsOrder) (op : OrderOp) : bytes * AbsOrder :=
  match op with
  | Push k => ([], mkAbs (abs_queue a ++ [EBackend k]) (in_progress a))
  | Defer reply => ([], mkAbs (abs_queue a ++ [ELocal reply]) (in_progress a))
  | TakeReady => let '(ready, q) := split_ready (abs_queue a) in (ready, mkAbs q (abs_seen a))
  | Read b =>
      let '(pre, (q, rest)) := deliver (abs_queue a) (abs_seen a ++ b) in
      (drop (length (abs_seen a)) (pre ++ rest), mkAbs q rest)
  end.

Section Steps.
Context {MC : Memchr} (t : target).

Definition order_step (o : BackendResponseOrder) (op : OrderOp) : bytes * BackendResponseOrder :=
  match op with
  | Push k => ([], push_request k o)
  | Defer reply => ([], push_deferred_reply reply o)
  | TakeReady => let '(ready, o) := take_ready_deferred_replies o in (concat ready, o)
  | Read b => let '(writes, o) := client_writes_for_backend_read t o b in (concat writes, o)
  end.
End Steps.

(** Runs: the bytes written for each operation and the final state. *)
Fixpoint run_steps {St : Type} (step : St → OrderOp → bytes * St) (st : St) (ops : list OrderOp)
    : list bytes * St :=
  match ops with
  | [] => ([], st)
  | op :: ops =>
      let '(w, st) := step st op in
      let '(ws, st) := run_steps step st ops in (w :: ws, st)
  end.

(** Every read of the run leaves a clean stream. *)
Fixpoint clean_run (a : AbsOrder) (ops : list OrderOp) : Prop :=
  match ops with
  | [] => True
  | op :: ops =>
      match op with
      | Read b => clean_stream (kinds (abs_queue a)) (abs_seen a ++ b)
      | _ => True
      end ∧ clean_run (abs_step a op).2 ops
  end.

#[global] Instance clean_after_dec c e : Decision (clean_after c e).
Proof. unfold clean_after. apply _. Defined.

#[global] Instance clean_stream_dec ks s : Decision (clean_stream ks s).
Proof.
  revert s. induction ks as [|k ks IH]; intros s; cbn; [apply _|].
  destruct (reply_end k s); apply _.
Defined.

#[global] Instance clean_run_dec a ops : Decision (clean_run a ops).
Proof.
  revert a. induction ops as [|op ops IH]; intros a; cbn; [apply _|].
  destruct op; apply _.
Defined.

(** ** The end of a reply *)

(** [reply_end] on a stream whose first line, with its line feed, is [line]. *)
Definition line_reply (k : RequestKind) (line rest : bytes) : option nat :=
  if COMMAND <? length line then Some (length line)
  else match parse line with
       | None => Some (length line)
       | Some status =>
           if request_kind_has_response_body k status
           then (λ e, length line + e) <$> first_touching_end line rest
           else Some (length line)
       end.

Lemma position_not_elem (c : byte) l : c ∉ l → position (Byte.eqb c) l = None.
Proof.
  intros Hc. apply position_None, Forall_forall. intros x Hx. apply byte_eqb_neq. by intros ->.
Qed.

Lemma position_first (c : byte) l rest :
  c ∉ l → position (Byte.eqb c) (l ++ c :: rest) = Some (length l).
Proof.
  intros Hc. rewrite position_app, position_not_elem by done. simpl.
  rewrite (proj2 (byte_eqb_eq c c)) by done. simpl. f_equal. lia.
Qed.

Lemma reply_end_no_lf k s : x0a ∉ s → reply_end k s = None.
Proof. intros H. unfold reply_end. by rewrite position_not_elem. Qed.

Lemma reply_end_line k l rest :
  x0a ∉ l → reply_end k (l ++ x0a :: rest) = line_reply k (l ++ [x0a]) rest.
Proof.
  intros H. unfold reply_end, line_reply. rewrite position_first by done.
  rewrite cons_middle, app_assoc.
  replace (S (length l)) with (length (l ++ [x0a])) by (rewrite length_app; simpl; lia).
  by rewrite take_app_length, drop_app_length.
Qed.

Lemma line_split (s : bytes) : x0a ∉ s ∨ ∃ l rest, s = l ++ x0a :: rest ∧ x0a ∉ l.
Proof.
  destruct (position (Byte.eqb x0a) s) as [i|] eqn:E.
  - apply position_line in E as (l & rest & -> & _ & ?). right. eauto.
  - apply position_None in E. left. intros Hin. rewrite Forall_forall in E.
    by apply E, byte_eqb_neq in Hin.
Qed.

Lemma first_touching_end_bounds s c e : first_touching_end s c = Some e → 0 < e ≤ length c.
Proof. intros H. by apply first_touching_iff in H as [[? _] _]. Qed.

Lemma first_touching_end_app s c x e :
  first_touching_end s c = Some e → first_touching_end s (c ++ x) = Some e.
Proof. intros H. apply first_touching_iff. by apply first_touching_app_Some, first_touching_iff. Qed.

Lemma first_touching_end_app_None s c x :
  first_touching_end s c = None →
  first_touching_end s (c ++ x) = (λ e, length c + e) <$> first_touching_end (s ++ c) x.
Proof.
  intros H. apply first_touching_iff. apply first_touching_app_None;
    [by apply first_touching_iff|apply first_touching_end_spec].
Qed.

Lemma reply_end_bounds k s e : reply_end k s = Some e → 0 < e ≤ length s.
Proof.
  destruct (line_split s) as [?|(l & rest & -> & Hl)]; [by rewrite reply_end_no_lf|].
  rewrite reply_end_line by done. unfold line_reply. rewrite !length_app. cbn [length].
  intros H. repeat case_match; simplify_eq; try lia.
  apply fmap_Some in H as (d & Hd%first_touching_end_bounds & ->). lia.
Qed.

(** More bytes do not move the end of a complete reply. *)
Lemma reply_end_app k s x e : reply_end k s = Some e → reply_end k (s ++ x) = Some e.
Proof.
  destruct (line_split s) as [?|(l & rest & -> & Hl)]; [by rewrite reply_end_no_lf|].
  rewrite <-app_assoc, <-app_comm_cons, !reply_end_line by done. unfold line_reply. intros H.
  repeat case_match; try done. apply fmap_Some in H as (d & Hd & ->).
  by rewrite (first_touching_end_app _ _ _ _ Hd).
Qed.

Lemma reply_end_nil k : reply_end k [] = None.
Proof. done. Qed.

(** ** One pending request *)

(** [fr] waits for the reply of a request of kind [k] of which the bytes [seen]
    have arrived. *)
Definition pending_for (k : RequestKind) (seen : bytes) (fr : PendingRequestFrame) : Prop :=
  pending_kind fr = k ∧
  match pending_state fr with
  | AwaitingStatusLine => status_line fr = seen ∧ x0a ∉ seen ∧ length seen ≤ COMMAND
  | DiscardingOverlongStatusLine => x0a ∉ seen ∧ COMMAND < length seen
  | ReadingMultiline f =>
      ∃ l body status, seen = l ++ x0a :: body ∧ x0a ∉ l ∧ length (l ++ [x0a]) ≤ COMMAND ∧
        parse (l ++ [x0a]) = Some status ∧ request_kind_has_response_body k status = true ∧
        framer_for seen f ∧ first_touching_end (l ++ [x0a]) body = None
  end.

Lemma pending_for_new k : pending_for k [] (new_pending k).
Proof. split; [done|]. split; [done|]. split; [set_solver|]. unfold COMMAND. simpl. lia. Qed.

Lemma pending_for_incomplete k seen fr : pending_for k seen fr → reply_end k seen = None.
Proof.
  intros [_ H]. destruct (pending_state fr).
  - apply reply_end_no_lf, H.
  - apply reply_end_no_lf, H.
  - destruct H as (l & body & st & -> & Hl & Hc & Hp & Hb & _ & Hn).
    rewrite reply_end_line by done. unfold line_reply. rewrite Hp, Hb, Hn.
    by destruct (Nat.ltb_spec COMMAND (length (l ++ [x0a]))); [lia|].
Qed.

Section TrackerFacts.
Context {MC : Memchr} {MS : MemchrSpec MC} (t : target).

(** The answer of a frame that has consumed the bytes [c] after [seen]. *)
Definition consumed_as (k : RequestKind) (seen c : bytes) (offset : nat)
    (r : option (nat * nat) * PendingRequestFrame) : Prop :=
  match reply_end k (seen ++ c) with
  | Some e => length seen < e ≤ length (seen ++ c) ∧
              r.1 = Some (offset, offset + (e - length seen))
  | None => r.1 = None ∧ pending_for k (seen ++ c) r.2
  end.

Lemma next_terminator_end_reference s f c :
  framer_for s f → (∀ e, first_touching_end s c = Some e → clean_after c e) →
  next_terminator_end t f c = first_touching_end s c.
Proof.
  intros Hf Hc. symmetry. apply first_touching_iff, next_terminator_end_spec; [done|].
  intros e He. by apply Hc, first_touching_iff.
Qed.

Lemma clean_after_app s c e : clean_after (s ++ c) (length s + e) ↔ clean_after c e.
Proof. unfold clean_after. by rewrite drop_app_add. Qed.

(** Inside a body the framer decides. *)
Lemma consume_multiline k seen f sl chunk offset :
  (∃ l body status, seen = l ++ x0a :: body ∧ x0a ∉ l ∧ length (l ++ [x0a]) ≤ COMMAND ∧
     parse (l ++ [x0a]) = Some status ∧ request_kind_has_response_body k status = true ∧
     framer_for seen f ∧ first_touching_end (l ++ [x0a]) body = None) →
  (∀ e, reply_end k (seen ++ drop offset chunk) = Some e →
        clean_after (seen ++ drop offset chunk) e) →
  consumed_as k seen (drop offset chunk) offset
    (consume t (mkPending k (ReadingMultiline f) sl) chunk offset).
Proof.
  intros (l & body & st & -> & Hl & Hc & Hp & Hb & Hf & Hn) Hclean.
  set (c := drop offset chunk) in *.
  assert (reply_end k ((l ++ x0a :: body) ++ c) =
    (λ e, length (l ++ x0a :: body) + e) <$> first_touching_end (l ++ x0a :: body) c) as Hr.
  { rewrite <-app_assoc, <-app_comm_cons, reply_end_line by done. unfold line_reply.
    rewrite Hp, Hb, first_touching_end_app_None by done.
    destruct (Nat.ltb_spec COMMAND (length (l ++ [x0a]))) as [?|_]; [lia|].
    rewrite <-app_assoc, <-app_comm_cons. cbn [app].
    destruct (first_touching_end (l ++ x0a :: body) c); [|done]. simpl. f_equal.
    rewrite !length_app. simpl. lia. }
  unfold consumed_as, consume. cbn [pending_state]. unfold advance_to_next_terminator_end. fold c.
  rewrite (next_terminator_end_reference (l ++ x0a :: body)) by
    (done || (intros e He; rewrite Hr, He in Hclean; by apply (clean_after_app (l ++ x0a :: body)), Hclean)).
  rewrite Hr. destruct (first_touching_end (l ++ x0a :: body) c) as [e|] eqn:He;
    cbn [fmap option_fmap option_map fst snd].
  - apply first_touching_end_bounds in He. rewrite !length_app in *. split; [lia|]. do 2 f_equal. lia.
  - split; [done|]. split; [done|]. cbn [pending_state]. exists l, (body ++ c), st.
    split_and!; try done; [by rewrite <-app_assoc|by apply framer_for_update|].
    rewrite first_touching_end_app_None, <-app_assoc, <-app_comm_cons by done. cbn [app]. by rewrite He.
Qed.

(** A line that ends in the chunk: the three ways to go on. *)
Lemma consume_line k seen l rest offset chunk :
  drop offset chunk = l ++ x0a :: rest → x0a ∉ seen → x0a ∉ l → length seen ≤ COMMAND →
  (∀ e, reply_end k (seen ++ drop offset chunk) = Some e →
        clean_after (seen ++ drop offset chunk) e) →
  consumed_as k seen (drop offset chunk) offset
    (consume t (mkPending k AwaitingStatusLine seen) chunk offset).
Proof.
  intros Hd Hs Hl Hc Hclean.
  assert (slice offset (offset + (length l + 1)) chunk = l ++ [x0a]) as Hslice.
  { unfold slice. rewrite Hd, Nat.add_comm, Nat.add_sub, cons_middle, app_assoc.
    apply take_app_length'. rewrite length_app. simpl. lia. }
  assert (drop (offset + (length l + 1)) chunk = rest) as Hrest.
  { rewrite <-drop_drop, Hd, cons_middle, app_assoc. apply drop_app_length'.
    rewrite length_app. simpl. lia. }
  assert (x0a ∉ seen ++ l) as Hsl by set_solver.
  unfold consumed_as, consume. cbn [pending_state pending_kind status_line].
  rewrite Hd, app_assoc, reply_end_line in * by done. rewrite memchr_spec, position_first by done.
  rewrite Hslice, Hrest, (app_assoc seen l [x0a]). unfold line_reply in *.
  assert (length seen + (offset + (length l + 1)) - offset = length ((seen ++ l) ++ [x0a])) as ->
    by (rewrite !length_app; simpl; lia).
  set (line := (seen ++ l) ++ [x0a]) in *.
  assert (length line = length seen + length l + 1) as Hline
    by (unfold line; rewrite !length_app; simpl; lia).
  assert (length ((seen ++ l) ++ x0a :: rest) = length line + length rest) as Hall
    by (rewrite Hline, !length_app; simpl; lia).
  destruct (COMMAND <? length line) eqn:Hcmd; [split; [lia|cbn [fst]; do 2 f_equal; lia]|].
  destruct (parse line) as [st|] eqn:Hp; [|split; [lia|cbn [fst]; do 2 f_equal; lia]].
  destruct (request_kind_has_response_body k st) eqn:Hb; cbn [negb];
    [|split; [lia|cbn [fst]; do 2 f_equal; lia]].
  assert (framer_for line (update default_framer line)) as Hf
    by apply (framer_for_update [] _ line framer_for_default).
  unfold advance_to_next_terminator_end. rewrite (next_terminator_end_reference line) by
    (done || (intros e He; rewrite He in Hclean; specialize (Hclean _ eq_refl);
     rewrite cons_middle, app_assoc in Hclean; fold line in Hclean; by apply clean_after_app in Hclean)).
  destruct (first_touching_end line rest) as [e|] eqn:He; cbn [fmap option_fmap option_map fst snd].
  - apply first_touching_end_bounds in He. split; [lia|]. do 2 f_equal. lia.
  - split; [done|]. split; [done|]. cbn [pending_state]. exists (seen ++ l), rest, st.
    apply Nat.ltb_ge in Hcmd. split_and!; try done.
    rewrite cons_middle, app_assoc. by apply framer_for_update.
Qed.

Lemma consume_spec k seen fr chunk offset :
  pending_for k seen fr →
  (∀ e, reply_end k (seen ++ drop offset chunk) = Some e →
        clean_after (seen ++ drop offset chunk) e) →
  consumed_as k seen (drop offset chunk) offset (consume t fr chunk offset).
Proof.
  intros [Hk Hst] Hclean. destruct fr as [k' st sl]. cbn in Hk, Hst. subst k'.
  destruct (line_split (drop offset chunk)) as [Hno|(l & rest & Hd & Hl)].
  - destruct st as [| |f].
    + destruct Hst as (-> & Hs & Hc). unfold consumed_as. rewrite reply_end_no_lf by set_solver.
      unfold consume. cbn [pending_state pending_kind status_line].
      rewrite memchr_spec, position_not_elem by done.
      destruct (Nat.ltb_spec COMMAND (length seen + length (drop offset chunk)));
        (split; [done|]); (split; [done|]); cbn [pending_state];
        [split|split; [done|split]]; try set_solver; rewrite length_app; lia.
    + destruct Hst as [Hs Hc]. unfold consumed_as. rewrite reply_end_no_lf by set_solver.
      unfold consume. cbn [pending_state]. rewrite memchr_spec, position_not_elem by done.
      split; [done|]. split; [done|]. cbn. rewrite length_app. split; [set_solver|lia].
    + by apply consume_multiline.
  - destruct st as [| |f].
    + destruct Hst as (-> & Hs & Hc). by eapply consume_line.
    + destruct Hst as [Hs Hc]. unfold consumed_as, consume. cbn [pending_state].
      rewrite Hd, app_assoc, reply_end_line, memchr_spec, position_first by set_solver.
      unfold line_reply. destruct (Nat.ltb_spec COMMAND (length ((seen ++ l) ++ [x0a])));
        rewrite !length_app in *; simpl in *; [|lia]. split; [lia|]. do 2 f_equal. lia.
    + by apply consume_multiline.
Qed.
End TrackerFacts.

(** ** The queue of pending requests *)

(** The queue waits for the replies of [ks]; [seen] are the bytes of the first
    that have arrived (without requests, the bytes since the last reply). *)
Definition tracker_for (ks : list RequestKind) (seen : bytes) (ps : list PendingRequestFrame)
    : Prop :=
  match ks, ps with
  | [], [] => True
  | k :: ks, p :: ps => pending_for k seen p ∧ ps = new_pending <$> ks
  | _, _ => False
  end.

Lemma tracker_for_new ks : tracker_for ks [] (new_pending <$> ks).
Proof. destruct ks as [|k ks]; [done|]. split; [apply pending_for_new|done]. Qed.

Lemma tracker_for_split ks seen ps :
  tracker_for ks seen ps → split_replies ks seen = ([], (ks, seen)).
Proof.
  destruct ks as [|k ks], ps as [|p ps]; try done. intros [H _]. cbn.
  by rewrite (pending_for_incomplete _ _ _ H).
Qed.

Definition reply_bytes (r : BackendReplyBytes) : bytes :=
  match r with CompletedTrackedReply b | ForwardUntracked b => b end.

(** Collect the pieces of each reply: [acc] holds the pieces of the current one. *)
Fixpoint reassemble (acc : bytes) (out : list BackendReplyBytes) : list bytes * bytes :=
  match out with
  | [] => ([], acc)
  | ForwardUntracked b :: out => reassemble (acc ++ b) out
  | CompletedTrackedReply b :: out =>
      let '(rs, rest) := reassemble [] out in ((acc ++ b) :: rs, rest)
  end.

Lemma reassemble_app acc out1 out2 :
  reassemble acc (out1 ++ out2) =
  let '(rs, rest) := reassemble acc out1 in
  let '(rs', rest') := reassemble rest out2 in (rs ++ rs', rest').
Proof.
  revert acc. induction out1 as [|[b|b] out1 IH]; intros acc; cbn.
  - by destruct (reassemble acc out2).
  - rewrite IH. destruct (reassemble [] out1) as [rs rest]. by destruct (reassemble rest out2).
  - apply IH.
Qed.

Lemma split_replies_app ks s x :
  split_replies ks (s ++ x) =
  let '(rs, (ks', rest)) := split_replies ks s in
  let '(rs', fin) := split_replies ks' (rest ++ x) in (rs ++ rs', fin).
Proof.
  revert s. induction ks as [|k ks IH]; intros s; [done|]. cbn [split_replies].
  destruct (reply_end k s) as [e|] eqn:E.
  - rewrite (reply_end_app _ _ x _ E). apply reply_end_bounds in E.
    rewrite drop_app_le, take_app_le, IH by lia.
    destruct (split_replies ks (drop e s)) as [rs [ks' rest]].
    by destruct (split_replies ks' (rest ++ x)).
  - cbn [split_replies]. destruct (reply_end k (s ++ x)); [|done].
    by destruct (split_replies ks (drop n (s ++ x))).
Qed.

(** A clean stream stays clean when it is cut short, and the rest of a clean
    stream is clean. *)
Lemma clean_stream_app_l ks s x : clean_stream ks (s ++ x) → clean_stream ks s.
Proof.
  revert s. induction ks as [|k ks IH]; intros s; [done|]. cbn.
  destruct (reply_end k s) as [e|] eqn:E; [|done]. rewrite (reply_end_app _ _ x _ E).
  apply reply_end_bounds in E. rewrite drop_app_le by lia. intros [Hc Hr].
  split; [|by apply IH]. by eapply clean_after_app_l; [|exact Hc]; lia.
Qed.

Lemma clean_stream_rest ks s x rs ks' rest :
  split_replies ks s = (rs, (ks', rest)) →
  clean_stream ks (s ++ x) → clean_stream ks' (rest ++ x).
Proof.
  revert s rs. induction ks as [|k ks IH]; intros s rs; cbn [split_replies].
  - intros [= <- <- <-]. done.
  - destruct (reply_end k s) as [e|] eqn:E; [|by intros [= <- <- <-]].
    destruct (split_replies ks (drop e s)) as [rs' [k2 r2]] eqn:E2. intros [= _ <- <-].
    cbn. rewrite (reply_end_app _ _ x _ E). apply reply_end_bounds in E.
    rewrite drop_app_le by lia. intros [_ Hc]. by eapply IH.
Qed.

Section QueueFacts.
Context {MC : Memchr} {MS : MemchrSpec MC} (t : target).

Lemma accept_loop_spec ks seen ps chunk offset :
  tracker_for ks seen ps → offset ≤ length chunk →
  clean_stream ks (seen ++ drop offset chunk) →
  let '(out, ps') := accept_loop t ps chunk offset in
  let '(rs, (ks', rest)) := split_replies ks (seen ++ drop offset chunk) in
  reassemble seen out = (rs, rest) ∧ tracker_for ks' rest ps' ∧
  concat (reply_bytes <$> out) = drop offset chunk.
Proof.
  revert seen ps offset. induction ks as [|k ks IH]; intros seen ps offset Ht Ho Hc;
    destruct ps as [|p ps]; try done; cbn [accept_loop].
  - destruct (Nat.ltb_spec offset (length chunk)) as [Hlt|Hge]; cbn.
    + by rewrite app_nil_r.
    + rewrite drop_ge, app_nil_r by lia. done.
  - destruct Ht as [Hp Hps]. destruct (Nat.ltb_spec offset (length chunk)) as [Hlt|Hge].
    2:{ rewrite drop_ge, app_nil_r by lia. cbn. by rewrite (pending_for_incomplete _ _ _ Hp). }
    cbn [split_replies clean_stream] in Hc |- *.
    assert (consumed_as k seen (drop offset chunk) offset (consume t p chunk offset)) as Hcons.
    { apply consume_spec; [done|]. intros e He. by rewrite He in Hc; destruct Hc. }
    unfold consumed_as in Hcons. destruct (consume t p chunk offset) as [r p'].
    destruct (reply_end k (seen ++ drop offset chunk)) as [e|]; cbn [fst snd] in Hcons.
    + destruct Hcons as [He ->]. destruct Hc as [_ Hc].
      rewrite length_app, length_drop in He.
      assert (drop e (seen ++ drop offset chunk) = drop (offset + (e - length seen)) chunk) as Hd.
      { rewrite drop_app_ge, drop_drop by lia. done. }
      assert (slice offset (offset + (e - length seen)) chunk = take (e - length seen) (drop offset chunk))
        as Hs by (unfold slice; f_equal; lia).
      rewrite Hd in Hc |- *. specialize (IH [] ps (offset + (e - length seen))).
      cbn [app] in IH. destruct (accept_loop t ps chunk _) as [out ps'].
      destruct (split_replies ks (drop _ chunk)) as [rs [ks' rest]].
      destruct IH as (H1 & H2 & H3); [subst; apply tracker_for_new|lia|done|].
      cbn. rewrite H1, H3, Hs. split_and!; [|done|].
      * f_equal. f_equal. by rewrite take_app_ge by lia.
      * rewrite <-drop_drop. apply take_drop.
    + destruct Hcons as [-> Hp']. cbn. by rewrite app_nil_r.
Qed.

Lemma accept_backend_bytes_spec ks seen ps chunk :
  tracker_for ks seen ps → clean_stream ks (seen ++ chunk) →
  let '(out, ps') := accept_backend_bytes t ps chunk in
  let '(rs, (ks', rest)) := split_replies ks (seen ++ chunk) in
  reassemble seen out = (rs, rest) ∧ tracker_for ks' rest ps' ∧
  concat (reply_bytes <$> out) = chunk.
Proof. intros. by apply (accept_loop_spec ks seen ps chunk 0); [|lia|]. Qed.

Lemma accept_reads_spec reads seen ks ps :
  tracker_for ks seen ps → clean_stream ks (seen ++ concat reads) →
  let '(out, ps') := accept_reads t ps reads in
  let '(rs, (ks', rest)) := split_replies ks (seen ++ concat reads) in
  reassemble seen out = (rs, rest) ∧ tracker_for ks' rest ps'.
Proof.
  revert seen ks ps. induction reads as [|r reads IH]; intros seen ks ps Ht Hc.
  - cbn. by rewrite app_nil_r, (tracker_for_split _ _ _ Ht).
  - cbn [accept_reads concat] in *. rewrite app_assoc in *.
    pose proof (accept_backend_bytes_spec ks seen ps r Ht (clean_stream_app_l _ _ _ Hc)) as Ha.
    destruct (accept_backend_bytes t ps r) as [out1 ps1]. rewrite split_replies_app.
    destruct (split_replies ks (seen ++ r)) as [rs1 [ks1 s1]] eqn:E. destruct Ha as (Hr1 & Ht1 & _).
    specialize (IH s1 ks1 ps1 Ht1 (clean_stream_rest _ _ _ _ _ _ E Hc)).
    destruct (accept_reads t ps1 reads) as [out ps2].
    destruct (split_replies ks1 (s1 ++ concat reads)) as [rs [ks2 rest]].
    destruct IH as [IH ?]. split; [|done]. by rewrite reassemble_app, Hr1, IH.
Qed.
End QueueFacts.

(** ** Ordering *)

Definition erase (x : Expected) : OrderedResponse :=
  match x with EBackend _ => OBackend | ELocal reply => OLocal reply end.

Definition front_local (q : list Expected) : Prop := ∃ reply q', q = ELocal reply :: q'.

(** The concrete state [o] implements the abstract state. *)
Definition order_for (a : AbsOrder) (o : BackendResponseOrder) : Prop :=
  ordered o = erase <$> abs_queue a ∧
  tracker_for (kinds (abs_queue a)) (abs_seen a) (pending o) ∧
  (front_local (abs_queue a) → abs_seen a = []).

(** The entries that the complete replies [rs] satisfy. *)
Fixpoint weave (q : list Expected) (rs : list bytes) : bytes * list Expected :=
  match q with
  | [] => ([], [])
  | ELocal reply :: q => let '(b, q) := weave q rs in (reply ++ b, q)
  | EBackend _ :: q' =>
      match rs with
      | [] => ([], q)
      | r :: rs => let '(b, q) := weave q' rs in (r ++ b, q)
      end
  end.

Lemma weave_deliver q s rs ks rest :
  split_replies (kinds q) s = (rs, (ks, rest)) →
  deliver q s = ((weave q rs).1, ((weave q rs).2, rest)) ∧ kinds (weave q rs).2 = ks ∧
  length rs ≤ length (kinds q) ∧ ¬ front_local (weave q rs).2.
Proof.
  revert s rs. induction q as [|[k|reply] q IH]; intros s rs.
  - intros [= <- <- <-]. split_and!; [done|done|done|]. by intros (? & ? & ?).
  - cbn. destruct (reply_end k s) as [e|].
    + destruct (split_replies _ (drop e s)) as [rs' [k2 r2]] eqn:E. intros [= <- <- <-].
      apply IH in E as (-> & Hk & Hl & Hn). destruct (weave q rs'). cbn in *.
      split_and!; [done|done|lia|done].
    + intros [= <- <- <-]. cbn. split_and!; [done|done|lia|]. by intros (? & ? & ?).
  - cbn. intros E. apply IH in E as (-> & Hk & Hl & Hn). by destruct (weave q rs).
Qed.

Lemma take_ready_erase q :
  ∃ fl, take_ready (erase <$> q) = (fl, erase <$> (split_ready q).2) ∧
        concat fl = (split_ready q).1.
Proof.
  induction q as [|[k|reply] q (fl & IH1 & IH2)]; [by exists []|by exists []|].
  exists (reply :: fl). cbn. destruct (split_ready q) as [fl' q']. cbn in *.
  rewrite IH1. by rewrite IH2.
Qed.

Lemma split_ready_weave q rs :
  weave q rs = ((split_ready q).1 ++ (weave (split_ready q).2 rs).1, (weave (split_ready q).2 rs).2).
Proof.
  induction q as [|[k|reply] q IH]; cbn -[weave]; [apply surjective_pairing..|].
  cbn [weave]. rewrite IH. destruct (split_ready q) as [fl q']. cbn. by rewrite app_assoc.
Qed.

Lemma split_ready_kinds q : kinds (split_ready q).2 = kinds q ∧ ¬ front_local (split_ready q).2.
Proof.
  induction q as [|[k|reply] q IH]; cbn; [by split; [|intros (?&?&?)]..|].
  by destruct (split_ready q).
Qed.

(** Writing the tracked pieces interleaves them with the local replies. *)
Lemma write_replies_weave out q acc rs rest :
  reassemble acc out = (rs, rest) → length rs ≤ length (kinds q) → ¬ front_local q →
  ∃ writes, write_replies out (erase <$> q) = (writes, erase <$> (weave q rs).2) ∧
            acc ++ concat writes = (weave q rs).1 ++ rest.
Proof.
  revert q acc rs. induction out as [|[b|b] out IH]; intros q acc rs Hr Hl Hq.
  - injection Hr as <- <-. exists []. cbn. rewrite app_nil_r.
    destruct q as [|[k|reply] q]; [done|done|]. destruct Hq. by eexists _, _.
  - cbn in Hr. destruct (reassemble [] out) as [rs' rest'] eqn:E. injection Hr as <- <-.
    destruct q as [|[k|reply] q]; [cbn in Hl; lia| |destruct Hq; by eexists _, _].
    cbn [write_replies fmap list_fmap erase]. destruct (take_ready_erase q) as (fl & Hfl & Hcf).
    rewrite Hfl. destruct (split_ready_kinds q) as [Hk Hn].
    destruct (IH (split_ready q).2 [] rs' E) as (w & Hw & Hcw); [rewrite Hk; cbn in Hl; lia|done|].
    rewrite Hw. cbn in Hcw. exists (b :: fl ++ w). cbn [weave]. rewrite (split_ready_weave q).
    cbn [fst snd]. split; [reflexivity|]. cbn. rewrite concat_app, Hcw, Hcf. by rewrite <-!app_assoc.
  - cbn in Hr. destruct (IH q (acc ++ b) rs Hr Hl Hq) as (w & Hw & Hcw).
    exists (b :: w). cbn. rewrite Hw. split; [done|]. by rewrite <-Hcw, <-app_assoc.
Qed.

Lemma tracker_for_snoc ks seen ps k :
  tracker_for ks seen ps →
  tracker_for (ks ++ [k]) (match ks with [] => [] | _ => seen end) (ps ++ [new_pending k]).
Proof.
  destruct ks as [|k' ks], ps as [|p ps]; try done; intros H.
  - split; [apply pending_for_new|done].
  - destruct H as [H ->]. split; [done|]. by rewrite fmap_app.
Qed.

Lemma kinds_app q1 q2 : kinds (q1 ++ q2) = kinds q1 ++ kinds q2.
Proof. apply omap_app. Qed.

Section OrderFacts.
Context {MC : Memchr} {MS : MemchrSpec MC} (t : target).

Lemma read_step a o b :
  order_for a o → clean_stream (kinds (abs_queue a)) (abs_seen a ++ b) →
  (order_step t o (Read b)).1 = (abs_step a (Read b)).1 ∧
  order_for (abs_step a (Read b)).2 (order_step t o (Read b)).2 ∧
  (let '(pre, (_, rest)) := deliver (abs_queue a) (abs_seen a ++ b) in
   abs_seen a ++ (order_step t o (Read b)).1 = pre ++ rest).
Proof.
  destruct a as [q seen]. intros (Ho & Ht & Hf) Hc. cbn [abs_queue abs_seen] in *.
  cbn [order_step abs_step abs_queue abs_seen]. unfold client_writes_for_backend_read.
  rewrite Ho. destruct (take_ready_erase q) as (fl & -> & Hfl).
  destruct (split_ready_kinds q) as [Hk Hn].
  pose proof (accept_backend_bytes_spec t _ _ _ b Ht Hc) as Ha.
  destruct (accept_backend_bytes t (pending o) b) as [out ps'].
  destruct (split_replies (kinds q) (seen ++ b)) as [rs [ks rest]] eqn:E.
  destruct Ha as (Hr & Ht' & _). pose proof (weave_deliver _ _ _ _ _ E) as (Hd & Hks & Hl & Hn').
  destruct (write_replies_weave out (split_ready q).2 seen rs rest Hr) as (w & -> & Hw);
    [by rewrite Hk|done|].
  rewrite Hd, (split_ready_weave q) in *. cbn [fst snd] in *.
  assert (seen ++ concat (fl ++ w) =
    ((split_ready q).1 ++ (weave (split_ready q).2 rs).1) ++ rest) as Hall.
  { rewrite concat_app, Hfl. destruct (decide (seen = [])) as [->|Hs].
    - cbn in *. by rewrite <-app_assoc, <-Hw.
    - assert ((split_ready q).1 = []) as ->; [|done].
      destruct q as [|[k|reply] q]; [done|done|]. destruct Hs. apply Hf. by eexists _, _. }
  split; [by rewrite <-Hall, drop_app_length|]. split; [|done].
  split_and!; cbn; [done|by rewrite Hks|done].
Qed.

Lemma push_step a o op :
  order_for a o → match op with Push _ | Defer _ => True | _ => False end →
  (order_step t o op).1 = (abs_step a op).1 ∧
  order_for (abs_step a op).2 (order_step t o op).2.
Proof.
  destruct a as [q seen]. intros (Ho & Ht & Hf) Hop. unfold in_progress in *. cbn in Ho, Ht, Hf.
  destruct op as [k|reply| |b]; try done; (split; [done|]); split_and!;
    cbn [order_step abs_step snd push_request push_deferred_reply ordered pending abs_queue abs_seen];
    unfold in_progress; cbn [abs_queue abs_seen]; rewrite ?kinds_app; try (by rewrite fmap_app, Ho).
  - by apply tracker_for_snoc.
  - intros (r & q' & Hq). destruct q as [|x q]; [done|]. injection Hq as -> _.
    destruct (kinds (ELocal r :: q)); [done|]. apply Hf. by eexists _, _.
  - cbn. rewrite app_nil_r. destruct (kinds q); [|done]. by destruct (pending o).
  - intros (r & q' & Hq). destruct q as [|x q]; [done|]. injection Hq as -> _.
    destruct (kinds (ELocal r :: q)); [done|]. apply Hf. by eexists _, _.
Qed.

Lemma take_ready_step a o :
  order_for a o →
  (order_step t o TakeReady).1 = (abs_step a TakeReady).1 ∧
  order_for (abs_step a TakeReady).2 (order_step t o TakeReady).2.
Proof.
  destruct a as [q seen]. intros (Ho & Ht & Hf). cbn in Ho, Ht, Hf. cbn.
  unfold take_ready_deferred_replies. rewrite Ho.
  destruct (take_ready_erase q) as (fl & -> & Hfl). destruct (split_ready_kinds q) as [Hk Hn].
  destruct (split_ready q) as [ready q']. cbn in *. split; [done|].
  split_and!; cbn; [done|by rewrite Hk|done].
Qed.

Lemma order_step_refines a o op :
  order_for a o →
  match op with Read b => clean_stream (kinds (abs_queue a)) (abs_seen a ++ b) | _ => True end →
  (order_step t o op).1 = (abs_step a op).1 ∧
  order_for (abs_step a op).2 (order_step t o op).2.
Proof.
  intros Ha Hc. destruct op; [by apply push_step..|by apply take_ready_step|].
  by destruct (read_step a o b Ha Hc) as (? & ? & _).
Qed.

Lemma order_run_refines a o ops :
  order_for a o → clean_run a ops →
  (run_steps (order_step t) o ops).1 = (run_steps abs_step a ops).1 ∧
  order_for (run_steps abs_step a ops).2 (run_steps (order_step t) o ops).2.
Proof.
  revert a o. induction ops as [|op ops IH]; intros a o Ha Hc; [done|]. cbn in Hc |- *.
  destruct Hc as [Hop Hc]. destruct (order_step_refines a o op Ha Hop) as [Hout Hst].
  destruct (order_step t o op) as [w o'], (abs_step a op) as [w' a']. cbn in *. subst w'.
  destruct (IH a' o' Hst Hc) as [H1 H2].
  destruct (run_steps (order_step t) o' ops), (run_steps abs_step a' ops). cbn in *. by subst.
Qed.

Lemma deliver_app q s x :
  deliver q (s ++ x) =
  let '(pre, (q1, rest)) := deliver q s in
  let '(pre', fin) := deliver q1 (rest ++ x) in (pre ++ pre', fin).
Proof.
  revert s. induction q as [|[k|reply] q IH]; intros s; [done| |].
  - cbn [deliver]. destruct (reply_end k s) as [e|] eqn:E.
    + rewrite (reply_end_app _ _ x _ E). apply reply_end_bounds in E.
      rewrite drop_app_le, take_app_le, IH by lia. destruct (deliver q (drop e s)) as [pre [q1 rest]].
      destruct (deliver q1 (rest ++ x)). by rewrite <-app_assoc.
    + cbn [deliver]. destruct (reply_end k (s ++ x)) as [e|]; [|done].
      by destruct (deliver q (drop e (s ++ x))).
  - cbn. rewrite IH. destruct (deliver q s) as [pre [q1 rest]].
    destruct (deliver q1 (rest ++ x)). by rewrite <-app_assoc.
Qed.

Lemma deliver_idem q s pre q1 rest :
  deliver q s = (pre, (q1, rest)) → deliver q1 rest = ([], (q1, rest)).
Proof.
  revert s pre. induction q as [|[k|reply] q IH]; intros s pre; cbn.
  - by intros [= <- <- <-].
  - destruct (reply_end k s) as [e|] eqn:E.
    + destruct (deliver q (drop e s)) as [p st] eqn:E2. intros [= _ ->]. by eapply IH.
    + intros [= <- <- <-]. cbn. by rewrite E.
  - destruct (deliver q s) as [p st] eqn:E2. intros [= _ ->]. by eapply IH.
Qed.

(** Any nonempty sequence of reads has the effect of one. *)
Lemma reads_spec reads a o :
  order_for a o → reads ≠ [] →
  clean_stream (kinds (abs_queue a)) (abs_seen a ++ concat reads) →
  let '(pre, (q, rest)) := deliver (abs_queue a) (abs_seen a ++ concat reads) in
  abs_seen a ++ concat (client_writes_for_reads t o reads).1 = pre ++ rest ∧
  order_for (mkAbs q rest) (client_writes_for_reads t o reads).2.
Proof.
  revert a o. induction reads as [|r reads IH]; intros a o Ha Hne Hc; [done|].
  cbn [client_writes_for_reads concat] in *. rewrite app_assoc in *.
  destruct (read_step a o r Ha) as (_ & Hst & Hout); [by eapply clean_stream_app_l|].
  cbn [order_step abs_step] in Hst, Hout.
  destruct (client_writes_for_backend_read t o r) as [w o1]. cbn [fst snd] in Hst, Hout.
  pose proof (weave_deliver (abs_queue a) (abs_seen a ++ r)) as Hw.
  destruct (split_replies _ (abs_seen a ++ r)) as [rs [ks rest0]] eqn:E.
  destruct (Hw _ _ _ eq_refl) as (Hd & Hk & _). rewrite deliver_app. rewrite Hd in Hst, Hout |- *.
  cbn [fst snd] in *. destruct (decide (reads = [])) as [->|Hne'].
  - cbn. rewrite !app_nil_r.
    rewrite (deliver_idem _ _ _ _ _ Hd).
    by rewrite app_nil_r.
  - specialize (IH _ _ Hst Hne'). cbn [abs_queue abs_seen] in IH.
    destruct (deliver (weave (abs_queue a) rs).2 (rest0 ++ concat reads)) as [pre' [q2 r2]].
    destruct (client_writes_for_reads t o1 reads) as [ws o2]. cbn [fst snd] in *.
    destruct IH as [IH1 IH2]; [rewrite Hk; by eapply clean_stream_rest|].
    split; [|done]. by rewrite concat_app, app_assoc, Hout, <-app_assoc, IH1, app_assoc.
Qed.

Lemma order_for_default : order_for (mkAbs [] []) default_order.
Proof. split_and!; [done|done|]. by intros (? & ? & ?). Qed.
End OrderFacts.

(** ** Complete pipelines *)

(** A complete reply to a request of kind [k]: a status line, with its body if
    it has one, and nothing else. *)
Definition framed_reply (k : RequestKind) (r : bytes) : Prop :=
  reply_end k r = Some (length r) ∧ is_Some (parse r).

#[global] Instance framed_reply_dec k r : Decision (framed_reply k r).
Proof. unfold framed_reply. apply _. Defined.

(** The queue with the backend replies filled in, in order. *)
Fixpoint fill (q : list Expected) (rs : list bytes) : bytes :=
  match q with
  | [] => []
  | ELocal reply :: q => reply ++ fill q rs
  | EBackend _ :: q => match rs with [] => [] | r :: rs => r ++ fill q rs end
  end.

Definition enqueue (o : BackendResponseOrder) (x : Expected) : BackendResponseOrder :=
  match x with EBackend k => push_request k o | ELocal reply => push_deferred_reply reply o end.

Lemma touching_prefix s1 s2 c j :
  5 ≤ length s2 + j → j ≤ length c → touching_end (s1 ++ s2) c j → touching_end s2 c j.
Proof.
  intros H5 Hj [Hj0 Hs]. split; [done|]. rewrite <-app_assoc in Hs.
  rewrite <-(suffix_lastn TERMINATOR _ 5) in Hs by (simpl; lia).
  rewrite lastn_app_ge in Hs by (rewrite length_app, length_take; lia).
  by apply suffix_lastn in Hs; [|simpl; lia].
Qed.

(** In the bytes of a body whose only terminator closes it, no earlier end is
    reported. *)
Lemma body_first_touching line body :
  (∀ i, match_at TERMINATOR (CRLF ++ body ++ CRLF ++ DOT_TERMINATOR) i → i = length (body ++ CRLF)) →
  first_touching (line ++ CRLF) (body ++ CRLF ++ DOT_TERMINATOR)
    (Some (length (body ++ CRLF ++ DOT_TERMINATOR))).
Proof.
  intros Hone. set (c := body ++ CRLF ++ DOT_TERMINATOR) in *.
  assert (length c = length body + 5) as Hlc by (unfold c; rewrite !length_app; simpl; lia).
  split.
  - split; [lia|]. rewrite take_ge by done. exists (line ++ CRLF ++ body). unfold c.
    by rewrite <-!app_assoc.
  - intros j Hj Ht. destruct (decide (3 ≤ j)) as [H3|H3].
    + apply touching_prefix in Ht; [|simpl; lia|lia].
      assert (touching_end [] (CRLF ++ c) (length CRLF + j)) as Ht2
        by (apply touching_app_r; left; split; [lia|done]).
      apply touching_in_chunk in Ht2; [|simpl; lia]. apply Hone in Ht2.
      rewrite length_app in Ht2. simpl in Ht2. lia.
    + assert (j = 1 ∨ j = 2) as [Hj1|Hj1] by (destruct Ht; lia); subst j.
      * apply (touching_split _ _ [x0d; x0a; x2e; x0d] [x0a]) in Ht as [[k Hk] _]; [|done|simpl; lia|simpl; lia].
        apply (f_equal last) in Hk. rewrite lastn_app, !last_app in Hk. done.
      * apply (touching_split _ _ [x0d; x0a; x2e] [x0d; x0a]) in Ht as [[k Hk] _]; [|done|simpl; lia|simpl; lia].
        apply (f_equal last) in Hk. rewrite lastn_app, !last_app in Hk. done.
Qed.

Lemma parse_not_dot r x : is_Some (parse r) → ¬ DOT_TERMINATOR `prefix_of` (r ++ x).
Proof.
  intros [st [Hst [rest ->]]%parse_Some] [k Hk]. unfold print_status in Hk. simpl in Hk.
  injection Hk as Hd _. by apply (digit_byte_not_dot (as_u16 st / 100)).
Qed.

Lemma framed_clean ks rs : Forall2 framed_reply ks rs → clean_stream ks (concat rs).
Proof.
  induction 1 as [|k r ks rs [He Hp] Hall IH]; [done|]. cbn.
  rewrite (reply_end_app _ _ (concat rs) _ He). rewrite drop_app_length. split; [|done].
  unfold clean_after. rewrite drop_app_length.
  destruct Hall as [|? r' ? ? [_ Hp'] _]; [by intros [? ?]|]. by apply parse_not_dot.
Qed.

Lemma framed_deliver q rs :
  Forall2 framed_reply (kinds q) rs → deliver q (concat rs) = (fill q rs, ([], [])).
Proof.
  revert rs. induction q as [|[k|reply] q IH]; intros rs Hall; cbn in *.
  - by inversion Hall.
  - inversion Hall as [|? r ? rs' [He _] Hall']; subst. cbn.
    rewrite (reply_end_app _ _ (concat rs') _ He), drop_app_length, take_app_length.
    by rewrite (IH _ Hall').
  - by rewrite (IH _ Hall).
Qed.

Lemma enqueue_all q o :
  ordered (foldl enqueue o q) = ordered o ++ (erase <$> q) ∧
  pending (foldl enqueue o q) = pending o ++ (new_pending <$> kinds q).
Proof.
  revert o. induction q as [|x q IH]; intros o; cbn; [by rewrite !app_nil_r|].
  destruct (IH (enqueue o x)) as [-> ->]. destruct x; cbn; rewrite <-?app_assoc; done.
Qed.

Lemma enqueue_order_for q : order_for (mkAbs q []) (foldl enqueue default_order q).
Proof.
  destruct (enqueue_all q default_order) as [Ho Hp]. split_and!; [done| |done].
  rewrite Hp. apply tracker_for_new.
Qed.

Section Lossless.
Context {MC : Memchr} {MS : MemchrSpec MC} (t : target).

Lemma current_starts_length c n pat : current_starts c n pat = true → length pat ≤ n.
Proof. unfold current_starts. intros [H%Nat.leb_le _]%andb_true_iff. done. Qed.

Lemma next_terminator_end_bound f c e : next_terminator_end t f c = Some e → e ≤ length c.
Proof.
  unfold next_terminator_end, find_spanning_terminator, find_spanning.
  intros H. repeat case_match; simplify_eq; reflect_bools;
    try (match goal with H : current_starts _ _ _ = true |- _ =>
           apply current_starts_length in H; simpl in H; lia end).
  all: rewrite head_terminator_ends in H; apply fmap_Some in H as (i & Hi & ->);
    by apply memmem_terminator_bound.
Qed.

Lemma consume_range fr chunk offset a e fr' :
  consume t fr chunk offset = (Some (a, e), fr') → offset ≤ length chunk →
  a = offset ∧ offset ≤ e ≤ length chunk.
Proof.
  unfold consume, advance_to_next_terminator_end. rewrite memchr_spec. intros H Ho.
  assert (length (drop offset chunk) = length chunk - offset) as Hl by apply length_drop.
  repeat case_match; simplify_eq/=;
    repeat match goal with
    | H : fmap _ _ = Some _ |- _ => apply fmap_Some in H as (? & ? & ?); simplify_eq
    | H : position _ _ = Some _ |- _ => apply position_lt in H
    | H : next_terminator_end _ _ _ = Some _ |- _ =>
        apply next_terminator_end_bound in H; rewrite ?length_drop in H
    end; lia.
Qed.

Lemma accept_loop_lossless ps chunk offset :
  offset ≤ length chunk →
  concat (reply_bytes <$> (accept_loop t ps chunk offset).1) = drop offset chunk.
Proof.
  revert offset. induction ps as [|p ps IH]; intros offset Ho; cbn [accept_loop];
    (destruct (Nat.ltb_spec offset (length chunk)); [|by rewrite drop_ge]).
  - cbn. by rewrite app_nil_r.
  - destruct (consume t p chunk offset) as [[[a e]|] p'] eqn:E.
    + apply consume_range in E as [-> He]; [|done].
      specialize (IH e ltac:(lia)). destruct (accept_loop t ps chunk e) as [out ps'].
      cbn in *. rewrite IH. unfold slice. rewrite <-(take_drop (e - offset) (drop offset chunk)) at 2.
      f_equal. rewrite drop_drop. f_equal. lia.
    + cbn. by rewrite app_nil_r.
Qed.
End Lossless.

(** ** Theorems *)

(** C6 Pipelined replies reach the client whole and in order: for any queue of
    backend requests and local replies, any complete replies of the backend and
    any way the network cuts those replies into reads, the client receives
    exactly the queue with each backend reply in its place, each local reply
    after the reply of every earlier request, and nothing is left over. *)
Theorem pipelined_replies_in_order {MC : Memchr} {MS : MemchrSpec MC} t q rs reads :
  Forall2 framed_reply (kinds q) rs → reads ≠ [] → concat reads = concat rs →
  let '(writes, o) := client_writes_for_reads t (foldl enqueue default_order q) reads in
  concat writes = fill q rs ∧ o = default_order.
Proof.
  intros Hall Hne Hcat. pose proof (reads_spec t reads _ _ (enqueue_order_for q) Hne) as H.
  cbn [abs_queue abs_seen app] in H. rewrite Hcat, (framed_deliver _ _ Hall) in H.
  destruct (client_writes_for_reads t _ reads) as [writes o].
  destruct (H (framed_clean _ _ Hall)) as [Hw (Ho & Ht & _)]. cbn in *.
  rewrite app_nil_r in Hw. split; [done|]. destruct o as [ps os]. cbn in *. subst os.
  by destruct ps.
Qed.

Lemma pipelined_replies_in_order_witness :
  let q := [EBackend Stat; ELocal (bs "480 x" ++ CRLF); EBackend Article] in
  let rs := [bs "223 0 <a@b>" ++ CRLF; bs "220 0 <a@b>" ++ CRLF ++ bs "b" ++ TERMINATOR] in
  concat (client_writes_for_reads (MC := naive_memchr) Aarch64 (foldl enqueue default_order q)
    [bs "223 0 <a@"; bs "b>" ++ CRLF ++ bs "2"; bs "20 0 <a@b>" ++ CRLF ++ bs "b" ++ [x0d; x0a; x2e];
     CRLF]).1 = fill q rs.
Proof.
  intros q rs.
  pose proof (pipelined_replies_in_order (MC := naive_memchr) (MS := naive_memchr_spec) Aarch64 q rs
    [bs "223 0 <a@"; bs "b>" ++ CRLF ++ bs "2"; bs "20 0 <a@b>" ++ CRLF ++ bs "b" ++ [x0d; x0a; x2e];
     CRLF]) as H.
  destruct (client_writes_for_reads _ _ _) as [writes o]. apply H.
  - repeat constructor; first [vm_compute; reflexivity | by eexists].
  - discriminate.
  - reflexivity.
Defined.

(** The ordering layer refines its abstract machine: under any interleaving of
    newly registered requests, deferred local replies, flushes and backend
    reads, every operation writes exactly the bytes the machine of expected
    replies prescribes, and the two states stay related. *)
Theorem response_order_refines {MC : Memchr} {MS : MemchrSpec MC} t ops :
  clean_run (mkAbs [] []) ops →
  (run_steps (order_step t) default_order ops).1 = (run_steps abs_step (mkAbs [] []) ops).1 ∧
  order_for (run_steps abs_step (mkAbs [] []) ops).2 (run_steps (order_step t) default_order ops).2.
Proof. apply order_run_refines, order_for_default. Qed.

Lemma response_order_refines_witness :
  let ops := [Push Group; Defer (bs "500 x" ++ CRLF); Read (bs "211 1 1 1 a"); Push Head; TakeReady;
              Read (CRLF ++ bs "221 0 <a@b>" ++ CRLF ++ bs "A: 1"); Read TERMINATOR] in
  (run_steps (order_step (MC := naive_memchr) X86Avx2) default_order ops).1 =
  [[]; []; bs "211 1 1 1 a"; []; [];
   CRLF ++ bs "500 x" ++ CRLF ++ bs "221 0 <a@b>" ++ CRLF ++ bs "A: 1"; TERMINATOR].
Proof.
  intros ops. refine (eq_trans (proj1 (response_order_refines (MC := naive_memchr)
    (MS := naive_memchr_spec) X86Avx2 ops _)) _); [|vm_compute; reflexivity].
  apply (bool_decide_unpack _). vm_compute. exact I.
Defined.

(** The tracker attributes every byte to its request: over any sequence of
    reads, the pieces forwarded for each request, put together, are exactly
    the complete replies of the stream in order, followed by the bytes received
    so far of the next one, and the queue holds exactly the requests whose
    replies are incomplete. *)
Theorem tracker_attributes_replies {MC : Memchr} {MS : MemchrSpec MC} t ks reads :
  clean_stream ks (concat reads) →
  let '(out, ps) := accept_reads t (new_pending <$> ks) reads in
  let '(rs, (ks', rest)) := split_replies ks (concat reads) in
  reassemble [] out = (rs, rest) ∧ tracker_for ks' rest ps.
Proof. intros Hc. apply (accept_reads_spec t reads [] ks); [apply tracker_for_new|done]. Qed.

Lemma tracker_attributes_replies_witness :
  reassemble [] (accept_reads (MC := naive_memchr) Generic
    (new_pending <$> [Stat; Body]) [bs "430 no"; bs "ne" ++ CRLF ++ bs "222 0"]).1
  = ([bs "430 none" ++ CRLF], bs "222 0").
Proof.
  refine (proj1 (tracker_attributes_replies (MC := naive_memchr) (MS := naive_memchr_spec) Generic
    [Stat; Body] [bs "430 no"; bs "ne" ++ CRLF ++ bs "222 0"] _)).
  apply (bool_decide_unpack _). vm_compute. exact I.
Defined.

(** No byte is lost, duplicated or reordered on the way to the client,
    whatever the backend sends and in whatever state the tracker is: the pieces
    of a read are the read. *)
Theorem tracker_lossless {MC : Memchr} {MS : MemchrSpec MC} t ps chunk :
  concat (reply_bytes <$> (accept_backend_bytes t ps chunk).1) = chunk.
Proof. apply (accept_loop_lossless t ps chunk 0). lia. Qed.

Lemma tracker_lossless_witness :
  concat (reply_bytes <$> (accept_backend_bytes (MC := naive_memchr) Generic
    [new_pending Head] (bs "junk" ++ CRLF ++ bs "more")).1) = bs "junk" ++ CRLF ++ bs "more".
Proof. apply (tracker_lossless (MC := naive_memchr) (MS := naive_memchr_spec)). Defined.

(** The abstract reply boundary is the protocol's: a reply to a request with a
    body, made of a status line that announces the body, lines without an
    early dot line, and the dot line, ends after that dot line; a single-line
    reply ends after its line; and a boundary never moves when more bytes
    arrive. *)
Theorem reply_end_protocol k line body :
  x0a ∉ line → length (line ++ CRLF) ≤ COMMAND →
  (∀ status, parse (line ++ CRLF) = Some status →
     request_kind_has_response_body k status = true →
     (∀ i, match_at TERMINATOR (CRLF ++ body ++ CRLF ++ DOT_TERMINATOR) i →
           i = length (body ++ CRLF)) →
     reply_end k (line ++ CRLF ++ body ++ CRLF ++ DOT_TERMINATOR) =
     Some (length (line ++ CRLF ++ body ++ CRLF ++ DOT_TERMINATOR))) ∧
  (∀ status, parse (line ++ CRLF) = Some status →
     request_kind_has_response_body k status = false →
     reply_end k (line ++ CRLF) = Some (length (line ++ CRLF))) ∧
  (∀ s e x, reply_end k s = Some e → reply_end k (s ++ x) = Some e).
Proof.
  intros Hl Hc. assert (x0a ∉ line ++ [x0d]) as Hl' by set_solver.
  assert (∀ rest, line ++ CRLF ++ rest = (line ++ [x0d]) ++ x0a :: rest) as Hsplit
    by (intros; by rewrite <-app_assoc).
  assert ((line ++ [x0d]) ++ [x0a] = line ++ CRLF) as Hline by by rewrite <-app_assoc.
  split_and!.
  - intros st Hp Hb Hone. rewrite Hsplit, reply_end_line, Hline by done. unfold line_reply.
    rewrite Hp, Hb. destruct (Nat.ltb_spec COMMAND (length (line ++ CRLF))); [lia|].
    assert (first_touching_end (line ++ CRLF) (body ++ CRLF ++ DOT_TERMINATOR) =
      Some (length (body ++ CRLF ++ DOT_TERMINATOR))) as ->.
    { apply first_touching_iff. by apply body_first_touching. }
    cbn [fmap option_fmap option_map]. f_equal. autorewrite with nntp. simpl. lia.
  - intros st Hp Hb. rewrite <-(app_nil_r CRLF), Hsplit, reply_end_line, Hline by done.
    unfold line_reply. rewrite Hp, Hb. by case_match.
  - intros s e x. apply reply_end_app.
Qed.

Lemma reply_end_protocol_witness :
  reply_end Body (bs "222 0" ++ CRLF ++ bs "hi" ++ CRLF ++ DOT_TERMINATOR) = Some 14.
Proof.
  refine (proj1 (reply_end_protocol Body (bs "222 0") (bs "hi") _ _) (mkStatusCode 222) _ _ _).
  - by apply (bool_decide_unpack _).
  - vm_compute. lia.
  - reflexivity.
  - reflexivity.
  - intros i Hi. pose proof (match_at_length _ _ _ Hi ltac:(discriminate)) as Hl. simpl in Hl.
    destruct Hi as [k Hk]. do 5 (destruct i as [|i]; [by (discriminate Hk || reflexivity)|]). lia.
Defined.
