(* ===== verification/Command.v ===== *)
(** * Command: from a parsed request to an execution plan

    Models [src/src/command/handler.rs]: the classifier that decides, for the
    session's authentication access and routing mode, whether a request is
    intercepted, refused, forwarded to a backend or moves the session to
    stateful routing; and [src/src/session/mode_state.rs], the one-way switch
    of a hybrid session. *)

From S2P Require Import Prelude Protocol Request.

(** ** Data *)

Inductive RoutingMode := RmStateful | RmPerCommand | RmHybrid.

#[global] Instance RoutingMode_eq_dec : EqDecision RoutingMode.
Proof. solve_decision. Defined.

Inductive AuthenticationAccess := Required | Authenticated | Unrestricted.

#[global] Instance AuthenticationAccess_eq_dec : EqDecision AuthenticationAccess.
Proof. solve_decision. Defined.

Inductive AuthAction :=
| RequestPassword (username : bytes)
| ValidateAndRespond (password : bytes)
| UnknownSubcommand.

Record RejectResponse := mkReject {
  reject_status : StatusCode;
  reject_wire : bytes;
}.

Inductive CommandPlan :=
| InterceptAuth (a : AuthAction)
| PlanReject (response : RejectResponse)
| Forward
| RequireAuth
| SwitchToStateful (request : RequestContext)
| InterceptCapabilities.

(** ** [AuthenticationAccess] *)

Definition from_auth_enabled (auth_enabled : bool) : AuthenticationAccess :=
  if auth_enabled then Required else Unrestricted.

Definition can_access_backend (a : AuthenticationAccess) : bool :=
  match a with Required => false | _ => true end.

Definition access_auth_enabled (a : AuthenticationAccess) : bool :=
  match a with Unrestricted => false | _ => true end.

Definition after_success (a : AuthenticationAccess) : AuthenticationAccess :=
  match a with Required => Authenticated | Authenticated | Unrestricted => a end.

(** ** Refusals *)

(** [wire_status]: the code a response text starts with, 0 if none. *)
Definition wire_status (wire : bytes) : N :=
  match wire with
  | b0 :: b1 :: b2 :: _ =>
      let d0 := digit_value b0 in
      let d1 := digit_value b1 in
      let d2 := digit_value b2 in
      if (9 <? d0)%N || (9 <? d1)%N || (9 <? d2)%N then 0%N
      else (d0 * 100 + d1 * 10 + d2)%N
  | _ => 0%N
  end.

(** [RejectResponse::new]: [None] is the assertion failure. *)
Definition RejectResponse_new (status : StatusCode) (wire : bytes) : option RejectResponse :=
  if (wire_status wire =? as_u16 status)%N then Some (mkReject status wire) else None.

Definition POST_REJECT : RejectResponse :=
  mkReject (mkStatusCode 440) (bs "440 Posting not permitted" ++ CRLF).
Definition TRANSIT_REJECT : RejectResponse :=
  mkReject (mkStatusCode codes.FEATURE_NOT_SUPPORTED)
    (bs "503 Feature not supported in per-command routing mode" ++ CRLF).
Definition STATEFUL_REJECT : RejectResponse :=
  mkReject (mkStatusCode codes.FEATURE_NOT_SUPPORTED)
    (bs "503 Feature not supported in stateless proxy mode" ++ CRLF).
Definition TRANSPORT_REJECT : RejectResponse :=
  mkReject (mkStatusCode codes.FEATURE_NOT_SUPPORTED)
    (bs "503 Transport-changing command not supported" ++ CRLF).

Definition reject_metadata (r : RejectResponse) : RequestResponseMetadata :=
  mkResponseMetadata (reject_status r) (length (reject_wire r)).

Definition rejection_for (r : RequestContext) : RejectResponse :=
  match kind r with
  | Post => POST_REJECT
  | Ihave => TRANSIT_REJECT
  | Compress | StartTls => TRANSPORT_REJECT
  | _ => match route_class r with
         | Stateful => STATEFUL_REJECT
         | _ => TRANSIT_REJECT
         end
  end.

(** ** AUTHINFO arguments *)

Definition trim_ascii (b : bytes) : bytes :=
  let start := default (length b) (position not_whitespace b) in
  let end_ := match rposition not_whitespace b with Some i => S i | None => start end in
  slice start end_ b.

Definition strip_authinfo_arg (a subcommand : bytes) : option bytes :=
  let a := trim_ascii a in
  let split_ := default (length a) (position is_ascii_whitespace a) in
  let head_ := take split_ a in
  let tail_ := trim_ascii (drop split_ a) in
  if eq_ignore_ascii_case head_ subcommand
  then if utf8_valid tail_ then Some tail_ else None
  else None.

Definition classify_auth (a : bytes) : AuthAction :=
  match strip_authinfo_arg a (bs "USER") with
  | Some username => RequestPassword username
  | None =>
      match strip_authinfo_arg a (bs "PASS") with
      | Some password => ValidateAndRespond password
      | None => UnknownSubcommand
      end
  end.

(** ** The classifier *)

Definition classify_request (r : RequestContext) (auth_access : AuthenticationAccess)
    (routing_mode : RoutingMode) : CommandPlan :=
  match kind r with
  | AuthInfo => InterceptAuth (classify_auth (args r))
  | Capabilities => InterceptCapabilities
  | Quit => Forward
  | _ =>
      match route_class r with
      | ArticleByMessageId | Stateless =>
          if can_access_backend auth_access then Forward else RequireAuth
      | Stateful =>
          match routing_mode with
          | RmHybrid =>
              if can_access_backend auth_access then SwitchToStateful r else RequireAuth
          | RmStateful =>
              if negb (can_access_backend auth_access) then RequireAuth
              else PlanReject (rejection_for r)
          | RmPerCommand =>
              if negb (can_access_backend auth_access) then RequireAuth
              else PlanReject (rejection_for r)
          end
      | Reject =>
          if negb (can_access_backend auth_access) then RequireAuth
          else PlanReject (rejection_for r)
      | Local =>
          if bool_decide (routing_mode = RmStateful) then Forward else PlanReject TRANSIT_REJECT
      end
  end.

(** [ArticleLookupRequest::new] and its [message_id]; the inner [None] is the
    panic of [expect]. *)
Definition article_lookup_request (r : RequestContext) : option RequestContext :=
  if bool_decide (route_class r = ArticleByMessageId) then Some r else None.

Definition lookup_message_id (r : RequestContext) : option MessageId := message_id_value r.

(** [prepare_stateful_handoff]: the error gives the request back. *)
Definition prepare_stateful_handoff (r : RequestContext) (auth_access : AuthenticationAccess)
    (routing_mode : RoutingMode) : result RequestContext RequestContext :=
  match classify_request r auth_access routing_mode with
  | SwitchToStateful _ => Ok r
  | _ => Err r
  end.

(** ** Session mode ([session/mode_state.rs]) *)

Inductive SessionMode := SmPerCommand | SmStateful.

Inductive RuntimeRoutingState := RtStateful | RtPerCommand | RtHybridPerCommand | RtHybridStateful.

Inductive ModeTransition := Switched | AlreadyStateful | NotHybrid.

Definition from_routing_mode (m : RoutingMode) : RuntimeRoutingState :=
  match m with
  | RmStateful => RtStateful
  | RmPerCommand => RtPerCommand
  | RmHybrid => RtHybridPerCommand
  end.

Definition mode (s : RuntimeRoutingState) : SessionMode :=
  match s with
  | RtStateful | RtHybridStateful => SmStateful
  | RtPerCommand | RtHybridPerCommand => SmPerCommand
  end.

Definition routing_mode (s : RuntimeRoutingState) : RoutingMode :=
  match s with
  | RtStateful => RmStateful
  | RtPerCommand => RmPerCommand
  | RtHybridPerCommand | RtHybridStateful => RmHybrid
  end.

Definition can_switch_mode (s : RuntimeRoutingState) : bool :=
  match s with RtHybridPerCommand => true | _ => false end.

Definition switch_to_stateful (s : RuntimeRoutingState) : ModeTransition * RuntimeRoutingState :=
  match s with
  | RtHybridPerCommand => (Switched, RtHybridStateful)
  | RtHybridStateful | RtStateful => (AlreadyStateful, s)
  | RtPerCommand => (NotHybrid, s)
  end.

Definition is_per_command_routing (s : RuntimeRoutingState) : bool :=
  match routing_mode s with RmPerCommand | RmHybrid => true | RmStateful => false end.

(** ** Lemmas *)

Lemma local_kinds r : route_class r = Local → kind r ∈ [Capabilities; Quit; AuthInfo].
Proof.
  unfold route_class, route_class_of. destruct (kind r), (has_message_id r); try done; set_solver.
Qed.

(** Arguments without surrounding white space are trimmed to themselves. *)
Lemma trim_ascii_id b :
  (∀ c, head b = Some c → is_ascii_whitespace c = false) →
  (∀ c, last b = Some c → is_ascii_whitespace c = false) → trim_ascii b = b.
Proof.
  intros Hh Hl. unfold trim_ascii.
  destruct b as [|c b] using rev_ind; [done|]. clear IHb.
  assert (not_whitespace c = true) as Hc.
  { unfold not_whitespace. by rewrite (Hl c) by apply last_snoc. }
  assert (rposition not_whitespace (b ++ [c]) = Some (length b)) as ->.
  { unfold rposition. rewrite reverse_app. cbn. rewrite Hc. cbn. f_equal. len. }
  assert (position not_whitespace (b ++ [c]) = Some 0) as ->.
  { destruct b as [|d b]; cbn; [by rewrite Hc|].
    unfold not_whitespace. by rewrite (Hh d). }
  cbn. unfold slice. rewrite drop_0. apply take_ge. len.
Qed.

Lemma trim_ascii_cons_space b :
  (∀ c, last b = Some c → is_ascii_whitespace c = false) → trim_ascii (x20 :: b) = trim_ascii b.
Proof.
  intros Hl. destruct b as [|c b] using rev_ind; [done|]. clear IHb.
  assert (not_whitespace c = true) as Hc.
  { unfold not_whitespace. by rewrite (Hl c) by apply last_snoc. }
  unfold trim_ascii. unfold rposition. rewrite reverse_cons, reverse_app. cbn. rewrite Hc. cbn.
  destruct (position not_whitespace (b ++ [c])) as [i|] eqn:E.
  - cbn. unfold slice. cbn. f_equal. len.
  - apply position_None in E. apply Forall_app in E as [_ [E _]%Forall_cons]. congruence.
Qed.

Lemma take_length_app {A} (l k : list A) : take (length l) (l ++ k) = l.
Proof. apply take_app_length. Qed.

(** The arguments the proxy itself sends to backends are understood by its own
    classifier. *)
Lemma strip_authinfo_space sub value :
  Forall (λ b, is_ascii_whitespace b = false) sub → sub ≠ [] →
  (∀ c, head value = Some c → is_ascii_whitespace c = false) →
  (∀ c, last value = Some c → is_ascii_whitespace c = false) →
  value ≠ [] → utf8_valid value = true →
  ∀ name, strip_authinfo_arg (sub ++ x20 :: value) name =
          if eq_ignore_ascii_case sub name then Some value else None.
Proof.
  intros Hs Hs0 Hh Hl Hv Hu name. unfold strip_authinfo_arg.
  rewrite (trim_ascii_id (sub ++ x20 :: value)).
  - assert (position is_ascii_whitespace (sub ++ x20 :: value) = Some (length sub)) as ->.
    { rewrite position_app. replace (position is_ascii_whitespace sub) with (@None nat)
        by (symmetry; by apply position_None). cbn. f_equal. lia. }
    cbn [from_option id]. rewrite take_length_app, drop_app_length, trim_ascii_cons_space by done.
    rewrite trim_ascii_id, Hu by done. done.
  - intros c. destruct sub as [|d sub]; [done|]. cbn. intros [= <-].
    by apply Forall_cons in Hs as [? _].
  - intros c. rewrite last_app, last_cons. destruct (last value) eqn:E; [|by apply last_None in E].
    intros [= <-]. by apply Hl.
Qed.

Lemma unauthenticated_plan r m :
  match classify_request r Required m with
  | Forward => kind r = Quit
  | SwitchToStateful _ => False
  | _ => True
  end.
Proof.
  unfold classify_request, route_class, route_class_of.
  by destruct (kind r), (has_message_id r), m.
Qed.

Lemma rejection_for_cases r :
  rejection_for r ∈ [POST_REJECT; TRANSIT_REJECT; STATEFUL_REJECT; TRANSPORT_REJECT].
Proof.
  unfold rejection_for. rewrite !elem_of_cons. destruct (kind r), (route_class r); tauto.
Qed.

Lemma rejection_for_parse r :
  parse (reject_wire (rejection_for r)) = Some (reject_status (rejection_for r)).
Proof.
  pose proof (rejection_for_cases r) as Hin. rewrite !elem_of_cons, elem_of_nil in Hin.
  by destruct Hin as [->|[->|[->|[->|[]]]]].
Qed.

Lemma plan_reject_response r access m resp :
  classify_request r access m = PlanReject resp → resp = rejection_for r.
Proof.
  unfold classify_request. destruct (kind r) eqn:Ek; try done;
    destruct (route_class r) eqn:Er; repeat case_match; try done; try (by intros [= <-]).
  all: apply local_kinds in Er; rewrite Ek, !elem_of_cons, elem_of_nil in Er; naive_solver.
Qed.

(** ** Theorems *)

(** The execution plan of every request, as a decision table over the
    authentication access and the routing mode. *)
Theorem command_plan_table r access m :
  (classify_request r access m = Forward ↔
     kind r = Quit ∨
     can_access_backend access = true ∧ (route_class r = ArticleByMessageId ∨ route_class r = Stateless)) ∧
  (∀ r', classify_request r access m = SwitchToStateful r' ↔
     r' = r ∧ can_access_backend access = true ∧ route_class r = Stateful ∧ m = RmHybrid) ∧
  (classify_request r access m = RequireAuth ↔
     access = Required ∧ kind r ∉ [AuthInfo; Capabilities; Quit]) ∧
  (∀ resp, classify_request r access m = PlanReject resp ↔
     can_access_backend access = true ∧ resp = rejection_for r ∧
     (route_class r = Reject ∨ route_class r = Stateful ∧ m ≠ RmHybrid)) ∧
  (classify_request r access m = InterceptCapabilities ↔ kind r = Capabilities) ∧
  (∀ act, classify_request r access m = InterceptAuth act ↔
     kind r = AuthInfo ∧ act = classify_auth (args r)).
Proof.
  unfold classify_request, route_class, route_class_of.
  destruct (kind r) eqn:Ek, (has_message_id r), access, m; cbn [can_access_backend negb];
    split_and!; rewrite ?elem_of_cons, ?elem_of_nil; try (intros ?); split; intros; intuition congruence.
Qed.

(** A client that must authenticate and has not can make the proxy contact a
    backend with no command at all: nothing but QUIT, which the session answers
    itself, is planned as a forward, and no session becomes stateful. *)
Theorem unauthenticated_no_backend r m :
  match classify_request r Required m with
  | Forward => kind r = Quit
  | SwitchToStateful _ => False
  | _ => True
  end.
Proof. apply unauthenticated_plan. Qed.

(** Commands that post articles, transfer them between servers or change the
    transport are never passed to a backend, in any mode and for any client; an
    authorised client gets 440 for posting and 503 otherwise. *)
Theorem posting_and_transport_refused r access m :
  kind r ∈ [Post; Ihave; Check_; TakeThis; StartTls; Compress] →
  classify_request r access m =
    (if can_access_backend access then PlanReject (rejection_for r) else RequireAuth) ∧
  as_u16 (reject_status (rejection_for r)) =
    (if bool_decide (kind r = Post) then 440 else codes.FEATURE_NOT_SUPPORTED)%N.
Proof.
  rewrite !elem_of_cons, elem_of_nil. unfold classify_request, rejection_for, route_class, route_class_of.
  destruct (kind r) eqn:Ek; intros Hin; try (exfalso; intuition congruence);
    destruct access, m; done.
Qed.

Lemma posting_and_transport_refused_witness :
  classify_request (from_verb_args (bs "post") []) Authenticated RmHybrid = PlanReject POST_REJECT.
Proof.
  refine (proj1 (posting_and_transport_refused (from_verb_args (bs "post") []) Authenticated RmHybrid _)).
  vm_compute. apply list_elem_of_here.
Defined.

(** Every refusal is a well-formed response: the text starts with the status
    recorded for it (so the compile-time assertion holds), which is an error
    status, and it is exactly one CRLF-terminated line. *)
Theorem rejections_well_formed r :
  let resp := rejection_for r in
  RejectResponse_new (reject_status resp) (reject_wire resp) = Some resp ∧
  parse (reject_wire resp) = Some (reject_status resp) ∧
  is_error (reject_status resp) = true ∧
  meta_wire_len (reject_metadata resp) = length (reject_wire resp) ∧
  ∃ line, reject_wire resp = line ++ CRLF ∧ LF ∉ line.
Proof.
  pose proof (rejection_for_cases r) as Hin. cbv zeta. generalize dependent (rejection_for r). intros resp Hin.
  assert (∀ l : bytes, bool_decide (LF ∉ l) = true → ∃ line, l ++ CRLF = line ++ CRLF ∧ LF ∉ line) as Hl.
  { intros l Hl%bool_decide_eq_true. by exists l. }
  rewrite !elem_of_cons, elem_of_nil in Hin.
  destruct Hin as [->|[->|[->|[->|[]]]]]; split_and!; try reflexivity; by apply Hl.
Qed.

(** An article lookup taken from a parsed request always has a valid
    message-id, so reading it cannot panic. *)
Theorem article_lookup_message_id {MC : Memchr} {MS : MemchrSpec MC} line r lookup :
  parse_request line = Some r → article_lookup_request r = Some lookup →
  ∃ m, lookup_message_id lookup = Some m.
Proof.
  unfold article_lookup_request. intros Hp Hl. case_bool_decide as Hr; [|done].
  injection Hl as <-. apply span_ok_message_id_value; [by eapply parse_request_span_ok|].
  unfold route_class, route_class_of in Hr. by destruct (kind r), (has_message_id r).
Qed.

Lemma article_lookup_message_id_witness :
  ∃ m, lookup_message_id (from_verb_args (bs "HEAD") (bs "<a@b>")) = Some m.
Proof.
  refine (article_lookup_message_id (MC := naive_memchr) (MS := naive_memchr_spec)
    (bs "HEAD <a@b>" ++ CRLF) _ _ _ _); vm_compute; reflexivity.
Defined.

(** AUTHINFO arguments are understood: the user name and password requests
    that the proxy's own constructors build are classified back to exactly that
    name and password, for any text without surrounding ASCII white space. *)
Theorem authinfo_roundtrip value :
  value ≠ [] → utf8_valid value = true →
  (∀ c, head value = Some c → is_ascii_whitespace c = false) →
  (∀ c, last value = Some c → is_ascii_whitespace c = false) →
  (∀ access m, classify_request (authinfo_user value) access m =
     InterceptAuth (RequestPassword value)) ∧
  (∀ access m, classify_request (authinfo_pass value) access m =
     InterceptAuth (ValidateAndRespond value)).
Proof.
  intros Hv Hu Hh Hl.
  assert (∀ sub name, sub ∈ [bs "USER"; bs "PASS"] →
    strip_authinfo_arg (sub ++ x20 :: value) name =
    if eq_ignore_ascii_case sub name then Some value else None) as Hs.
  { intros sub name Hin. apply strip_authinfo_space; try done.
    - rewrite !elem_of_cons in Hin. destruct Hin as [->|[->|?%elem_of_nil]]; by repeat constructor.
    - rewrite !elem_of_cons in Hin. destruct Hin as [->|[->|?%elem_of_nil]]; done. }
  assert (concat [bs "USER "; value] = bs "USER" ++ x20 :: value) as Hcu by (cbn; by rewrite app_nil_r).
  assert (concat [bs "PASS "; value] = bs "PASS" ++ x20 :: value) as Hcp by (cbn; by rewrite app_nil_r).
  split; intros access m; unfold classify_request, authinfo_user, authinfo_pass, from_verb_arg_slices;
    cbn [kind args from_parts]; rewrite ?Hcu, ?Hcp;
    replace (classify_verb (bs "AUTHINFO")) with AuthInfo by reflexivity;
    unfold classify_auth; rewrite !Hs by set_solver; reflexivity.
Qed.

Lemma authinfo_roundtrip_witness :
  classify_request (authinfo_user (bs "alice b")) Required RmHybrid =
  InterceptAuth (RequestPassword (bs "alice b")).
Proof.
  refine (proj1 (authinfo_roundtrip (bs "alice b") _ _ _ _) Required RmHybrid).
  - discriminate.
  - reflexivity.
  - intros c [= <-]. reflexivity.
  - intros c [= <-]. reflexivity.
Defined.

(** The mode of a session moves at most once: a switch succeeds exactly for a
    hybrid session in per-command mode, makes it stateful for good, and never
    changes the configured routing mode; a per-command session never becomes
    stateful. *)
Theorem mode_switch_one_way s :
  let '(tr, s') := switch_to_stateful s in
  (tr = Switched ↔ can_switch_mode s = true) ∧
  routing_mode s' = routing_mode s ∧
  (tr = NotHybrid ∨ mode s' = SmStateful) ∧
  (routing_mode s = RmPerCommand → mode s' = SmPerCommand) ∧
  can_switch_mode s' = false ∧ (switch_to_stateful s').2 = s'.
Proof. destruct s; cbn; split_and!; (done || auto || by split). Qed.
