(* ===== verification/Auth.v ===== *)
(** * Auth: client authentication

    Models [src/src/auth/handler.rs] (the configured users and their
    validation), [src/src/session/auth_state.rs] (the pure authentication
    reducer and the write-once identity) and [handle_auth_command] of
    [src/src/session/common.rs], which writes the reply and commits the new
    state, together with the user names and passwords of
    [src/src/types/validated.rs]. *)

From S2P Require Import Prelude Protocol Request Command.

(** ** Validated strings *)

(** [Username::try_new] and [Password::try_new]: trim, then refuse the empty
    string. *)
Definition Username_try_new (s : bytes) : result ValidationError bytes :=
  let s := str_trim s in
  if bool_decide (s = []) then Err EmptyUsername else Ok s.

Definition Password_try_new (s : bytes) : result ValidationError bytes :=
  let s := str_trim s in
  if bool_decide (s = []) then Err EmptyPassword else Ok s.

(** ** The configured users *)

(** [AuthHandler]: the password of each user name. *)
Abbreviation AuthHandler := (gmap bytes bytes).

Definition AuthHandler_new (username password : option bytes) : result ValidationError AuthHandler :=
  match username, password with
  | Some u, Some p =>
      u ← Username_try_new u; p ← Password_try_new p; mret {[ u := p ]}
  | _, _ => mret ∅
  end.

(** The loop of [with_users]: later entries replace earlier ones. *)
Fixpoint with_users_loop (user_list : list (bytes * bytes)) (users : AuthHandler)
    : result ValidationError AuthHandler :=
  match user_list with
  | [] => mret users
  | (u, p) :: user_list =>
      u ← Username_try_new u; p ← Password_try_new p;
      with_users_loop user_list (<[u := p]> users)
  end.

Definition with_users (user_list : list (bytes * bytes)) : result ValidationError AuthHandler :=
  with_users_loop user_list ∅.

Definition is_enabled (h : AuthHandler) : bool := negb (bool_decide (h = ∅)).

Definition validate_credentials_bytes (h : AuthHandler) (username password : bytes) : bool :=
  if bool_decide (h = ∅) then true
  else match Username_try_new username with
       | Err _ => false
       | Ok username => bool_decide (h !! username = Some password)
       end.

(** ** The reducer *)

Inductive ClientAuthState :=
| Anonymous
| AwaitingPassword (username : bytes)
| ClientAuthenticated (username : bytes).

Inductive ClientAuthEvent :=
| EvUser (username : bytes)
| EvPassword (b : bytes)
| EvUnknown.

Inductive AuthReducerResult :=
| PasswordRequired | Accepted | Rejected | OutOfSequence | AlreadyAuthenticated | UnknownAuth.

#[global] Instance AuthReducerResult_eq_dec : EqDecision AuthReducerResult.
Proof. solve_decision. Defined.

Definition auth_username (s : ClientAuthState) : option bytes :=
  match s with
  | Anonymous => None
  | AwaitingPassword u | ClientAuthenticated u => Some u
  end.

(** [ClientAuthState::decide] *)
Definition decide_auth (s : ClientAuthState) (event : ClientAuthEvent) (credentials_valid : bool)
    : ClientAuthState * AuthReducerResult :=
  match s, event with
  | ClientAuthenticated u, _ => (ClientAuthenticated u, AlreadyAuthenticated)
  | Anonymous, EvUser u | AwaitingPassword _, EvUser u => (AwaitingPassword u, PasswordRequired)
  | Anonymous, EvPassword _ => (Anonymous, OutOfSequence)
  | AwaitingPassword u, EvPassword _ =>
      if credentials_valid then (ClientAuthenticated u, Accepted)
      else (AwaitingPassword u, Rejected)
  | s, EvUnknown => (s, UnknownAuth)
  end.

(** ** The published identity *)

(** [AuthState]: a write-once cell. *)
Abbreviation AuthState := (option bytes).

Definition is_authenticated (s : AuthState) : bool := bool_decide (is_Some s).

(** [mark_authenticated]: the flag says whether this call set the cell. *)
Definition mark_authenticated (s : AuthState) (username : bytes) : bool * AuthState :=
  match s with None => (true, Some username) | Some _ => (false, s) end.

Definition is_authenticated_or_skipped (s : AuthState) (skip_check : bool) : bool :=
  skip_check || is_authenticated s.

(** ** Handling an AUTHINFO command *)

Inductive AuthError :=
| AuthWrite                          (** the client connection failed *)
| AuthValidation (e : ValidationError).

(** [AuthResult] with the bytes written. *)
Inductive AuthResult :=
| ResAuthenticated (written : bytes) (response : RequestResponseMetadata)
| ResNotAuthenticated (written : bytes) (response : RequestResponseMetadata).

Definition local_response_metadata (status : N) (response : bytes) : RequestResponseMetadata :=
  mkResponseMetadata (mkStatusCode status) (length response).

Definition auth_response (r : AuthReducerResult) : bytes * RequestResponseMetadata :=
  let '(status, response) :=
    match r with
    | PasswordRequired => (codes.PASSWORD_REQUIRED, responses.AUTH_REQUIRED)
    | Accepted => (codes.AUTH_ACCEPTED, responses.AUTH_ACCEPTED)
    | Rejected => (codes.AUTH_REJECTED, responses.AUTH_FAILED)
    | OutOfSequence => (codes.AUTH_OUT_OF_SEQUENCE, responses.AUTH_OUT_OF_SEQUENCE)
    | AlreadyAuthenticated => (codes.ACCESS_DENIED, responses.AUTH_ALREADY_AUTHENTICATED)
    | UnknownAuth => (codes.COMMAND_SYNTAX_ERROR, responses.AUTH_UNKNOWN_SUBCOMMAND)
    end in
  (response, local_response_metadata status response).

(** [common::handle_auth_command]: [writable] says whether [write_all] to the
    client succeeds; the new reducer state is committed only after it. *)
Definition handle_auth_command (h : AuthHandler) (action : AuthAction) (writable : bool)
    (auth : ClientAuthState) (identity : AuthState)
    : result AuthError AuthResult * ClientAuthState :=
  if is_authenticated identity then
    (if writable
     then Ok (ResNotAuthenticated responses.AUTH_ALREADY_AUTHENTICATED
                (local_response_metadata codes.ACCESS_DENIED responses.AUTH_ALREADY_AUTHENTICATED))
     else Err AuthWrite, auth)
  else
    let event : result AuthError ClientAuthEvent :=
      match action with
      | RequestPassword username =>
          EvUser <$> map_err AuthValidation (Username_try_new username)
      | ValidateAndRespond password => Ok (EvPassword password)
      | UnknownSubcommand => Ok EvUnknown
      end in
    match event with
    | Err e => (Err e, auth)
    | Ok event =>
        let credentials_valid :=
          match event with
          | EvPassword b =>
              match auth_username auth with
              | Some username => validate_credentials_bytes h username b
              | None => false
              end
          | EvUser _ | EvUnknown => false
          end in
        let '(next_state, reducer_result) := decide_auth auth event credentials_valid in
        let '(response, metadata) := auth_response reducer_result in
        if writable then
          (Ok (if bool_decide (reducer_result = Accepted)
               then ResAuthenticated response metadata
               else ResNotAuthenticated response metadata), next_state)
        else (Err AuthWrite, auth)
    end.

(** The AUTHINFO branch of [process_single_command_with_plan]: after an
    accepted password, [on_authentication_success] publishes the identity. *)
Definition auth_step (h : AuthHandler) (action : AuthAction) (writable : bool)
    (st : ClientAuthState * AuthState)
    : result AuthError AuthResult * (ClientAuthState * AuthState) :=
  let '(auth, identity) := st in
  let '(res, auth') := handle_auth_command h action writable auth identity in
  match res with
  | Ok (ResAuthenticated _ _) =>
      (res, (auth', match auth_username auth' with
                    | Some username => (mark_authenticated identity username).2
                    | None => identity
                    end))
  | _ => (res, (auth', identity))
  end.

(** ** Lemmas *)

Lemma Username_try_new_Ok s u : Username_try_new s = Ok u ↔ u = str_trim s ∧ u ≠ [].
Proof.
  unfold Username_try_new. case_bool_decide; [split; [done|intros [-> ?]; done]|].
  split; [by intros [= <-]|by intros [-> _]].
Qed.

(** The last entry of a user name decides. *)
Definition last_entry (user_list : list (bytes * bytes)) (u : bytes) : option bytes :=
  last (omap (λ '(u', p), if decide (str_trim u' = u) then Some (str_trim p) else None) user_list).

Lemma with_users_loop_lookup user_list users h u :
  with_users_loop user_list users = Ok h →
  h !! u = match last_entry user_list u with Some p => Some p | None => users !! u end.
Proof.
  revert users. induction user_list as [|[u' p'] l IH]; intros users; [by intros [= <-]|].
  cbn [with_users_loop]. unfold Username_try_new, Password_try_new.
  destruct (bool_decide (str_trim u' = [])); cbn; [done|].
  destruct (bool_decide (str_trim p' = [])); cbn; [done|]. intros E.
  rewrite (IH _ E). unfold last_entry. cbn. case_decide as Hu.
  - subst u. rewrite last_cons. destruct (last (omap _ l)); [done|]. apply lookup_insert_eq.
  - destruct (last (omap _ l)); [done|]. by apply lookup_insert_ne.
Qed.

Lemma with_users_loop_enabled user_list users h :
  with_users_loop user_list users = Ok h → user_list ≠ [] ∨ users ≠ ∅ → h ≠ ∅.
Proof.
  revert users. induction user_list as [|[u p] l IH]; intros users.
  - intros [= <-] [?|?]; done.
  - cbn [with_users_loop]. unfold Username_try_new, Password_try_new.
    destruct (bool_decide (str_trim u = [])); cbn; [done|].
    destruct (bool_decide (str_trim p = [])); cbn; [done|]. intros E _.
    apply (IH _ E). right. apply insert_non_empty.
Qed.

(** A session's authentication state: an identity is published exactly in the
    authenticated state, and its user name is the validated one. *)
Definition auth_inv (h : AuthHandler) (st : ClientAuthState * AuthState) : Prop :=
  match st.1 with
  | ClientAuthenticated u => st.2 = Some u
  | _ => st.2 = None
  end.

Lemma auth_step_inv h action writable st :
  auth_inv h st → auth_inv h (auth_step h action writable st).2.
Proof.
  destruct st as [auth identity]. unfold auth_inv, auth_step, handle_auth_command. cbn [fst snd].
  intros Hinv. destruct auth as [|u|u]; subst identity; cbn [is_authenticated bool_decide].
  all: destruct action as [u'|p|], writable; cbn -[validate_credentials_bytes Username_try_new]; try done;
    try (destruct (Username_try_new u'); cbn; done).
  all: by destruct (validate_credentials_bytes h u p).
Qed.

(** A run of AUTHINFO commands, each with its write outcome. *)
Fixpoint auth_run (h : AuthHandler) (cmds : list (AuthAction * bool)) (st : ClientAuthState * AuthState)
    : list (result AuthError AuthResult) * (ClientAuthState * AuthState) :=
  match cmds with
  | [] => ([], st)
  | (action, writable) :: cmds =>
      let '(res, st) := auth_step h action writable st in
      let '(ress, st) := auth_run h cmds st in (res :: ress, st)
  end.

(** What makes an identity appear. *)
Lemma auth_step_publish h action writable auth identity auth' u :
  auth_inv h (auth, identity) →
  (auth_step h action writable (auth, identity)).2 = (auth', Some u) →
  identity = Some u ∨
  (identity = None ∧ writable = true ∧ auth = AwaitingPassword u ∧
   ∃ p, action = ValidateAndRespond p ∧ validate_credentials_bytes h u p = true).
Proof.
  unfold auth_inv, auth_step, handle_auth_command. cbn [fst snd]. intros Hinv.
  destruct auth as [|u0|u0]; subst identity; cbn [is_authenticated bool_decide].
  all: destruct action as [u'|p|], writable; cbn -[validate_credentials_bytes Username_try_new];
    try (by intros [= ? ?]); try (intros [= _ <-]; by left);
    try (destruct (Username_try_new u'); by intros [= ?]).
  - destruct (validate_credentials_bytes h u0 p) eqn:E; intros [= _ ?]; subst. right. eauto 8.
  - by destruct (validate_credentials_bytes h u0 p); intros [= ?].
Qed.

(** The two steps of a login. *)
Lemma auth_step_user h raw u :
  Username_try_new raw = Ok u →
  auth_step h (RequestPassword raw) true (Anonymous, None) =
  (Ok (ResNotAuthenticated responses.AUTH_REQUIRED
         (local_response_metadata codes.PASSWORD_REQUIRED responses.AUTH_REQUIRED)),
   (AwaitingPassword u, None)).
Proof. intros Hu. unfold auth_step, handle_auth_command. by rewrite Hu. Qed.

Lemma auth_step_pass h u pw :
  auth_step h (ValidateAndRespond pw) true (AwaitingPassword u, None) =
  if validate_credentials_bytes h u pw
  then (Ok (ResAuthenticated responses.AUTH_ACCEPTED
              (local_response_metadata codes.AUTH_ACCEPTED responses.AUTH_ACCEPTED)),
        (ClientAuthenticated u, Some u))
  else (Ok (ResNotAuthenticated responses.AUTH_FAILED
              (local_response_metadata codes.AUTH_REJECTED responses.AUTH_FAILED)),
        (AwaitingPassword u, None)).
Proof.
  unfold auth_step, handle_auth_command. cbn [auth_username decide_auth].
  by destruct (validate_credentials_bytes h u pw).
Qed.

(** ** Theorems *)

(** C25 An identity is published only by a correct password: after any sequence of
    AUTHINFO commands and write outcomes from a fresh session, an authenticated
    user name implies a successfully answered PASS command whose password the
    handler accepted for that user name; and once published, the identity never
    changes, whatever follows. *)
Theorem authentication_sound h cmds auth u :
  (auth_run h cmds (Anonymous, None)).2 = (auth, Some u) →
  (∃ p, (ValidateAndRespond p, true) ∈ cmds ∧ validate_credentials_bytes h u p = true) ∧
  ∀ cmds', (auth_run h cmds' (auth, Some u)).2 = (auth, Some u).
Proof.
  intros Hrun.
  assert (∀ cmds st, auth_inv h st → auth_inv h (auth_run h cmds st).2) as Hinvs.
  { clear. induction cmds as [|[a w] cmds IH]; intros st Hst; [done|]. cbn.
    pose proof (auth_step_inv h a w st Hst) as H. destruct (auth_step h a w st) as [r st'].
    specialize (IH st' H). by destruct (auth_run h cmds st'). }
  split.
  - assert (∀ cmds st, auth_inv h st → (auth_run h cmds st).2 = (auth, Some u) →
      st.2 = Some u ∨ ∃ p, (ValidateAndRespond p, true) ∈ cmds ∧ validate_credentials_bytes h u p = true)
      as Hgen.
    { clear cmds Hrun. induction cmds as [|[a w] cmds IH]; intros st Hst; [intros Hr; cbn in Hr; subst st; by left|]. cbn.
      pose proof (auth_step_inv h a w st Hst) as Hst'.
      destruct (auth_step h a w st) as [r st'] eqn:E. intros Hr.
      destruct (IH st' Hst') as [Hs|(p & Hin & Hp)].
      - by destruct (auth_run h cmds st').
      - destruct st as [auth0 id0], st' as [auth1 id1]. cbn in Hs. subst id1.
        pose proof (auth_step_publish h a w auth0 id0 auth1 u Hst ltac:(by rewrite E)) as [?|H]; [by left|].
        destruct H as (_ & -> & _ & p & -> & Hp). right. exists p. split; [by left|done].
      - right. exists p. split; [by right|done]. }
    destruct (Hgen cmds (Anonymous, None)) as [?|?]; [done|done|done|done].
  - intros cmds'. induction cmds' as [|[a w] cmds' IH]; [done|]. cbn [auth_run].
    assert ((auth_step h a w (auth, Some u)).2 = (auth, Some u)) as Hs.
    { unfold auth_step, handle_auth_command. cbn. by destruct w. }
    destruct (auth_step h a w (auth, Some u)) as [r st]. cbn in Hs. subst st.
    by destruct (auth_run h cmds' (auth, Some u)).
Qed.

Lemma authentication_sound_witness :
  ∃ p, (ValidateAndRespond p, true) ∈
    [(RequestPassword (bs "bob"), true); (ValidateAndRespond (bs "no"), true);
     (ValidateAndRespond (bs "pw"), true)] ∧
    validate_credentials_bytes {[ bs "bob" := bs "pw" ]} (bs "bob") p = true.
Proof.
  refine (proj1 (authentication_sound _ _ (ClientAuthenticated (bs "bob")) (bs "bob") _)).
  vm_compute. reflexivity.
Defined.

(** A configured user can log in: with the users the configuration lists, the
    USER and PASS commands with that user's (trimmed) name and password are
    answered 381 and 281 and authenticate the session, and any other password
    is answered 481 and does not. *)
Theorem configured_user_logs_in user_list h u p pw :
  with_users user_list = Ok h → last_entry user_list u = Some p →
  str_trim u = u → u ≠ [] →
  auth_run h [(RequestPassword u, true); (ValidateAndRespond pw, true)] (Anonymous, None) =
  ([Ok (ResNotAuthenticated responses.AUTH_REQUIRED
          (local_response_metadata codes.PASSWORD_REQUIRED responses.AUTH_REQUIRED));
    Ok (if bool_decide (pw = p)
        then ResAuthenticated responses.AUTH_ACCEPTED
               (local_response_metadata codes.AUTH_ACCEPTED responses.AUTH_ACCEPTED)
        else ResNotAuthenticated responses.AUTH_FAILED
               (local_response_metadata codes.AUTH_REJECTED responses.AUTH_FAILED))],
   if bool_decide (pw = p) then (ClientAuthenticated u, Some u) else (AwaitingPassword u, None)).
Proof.
  intros Hw Hlast Hu Hne.
  assert (Username_try_new u = Ok u) as Hun by by apply Username_try_new_Ok.
  assert (h !! u = Some p) as Hlook by (rewrite (with_users_loop_lookup _ _ _ u Hw); by rewrite Hlast).
  assert (validate_credentials_bytes h u pw = bool_decide (pw = p)) as Hval.
  { unfold validate_credentials_bytes. rewrite bool_decide_eq_false_2.
    - rewrite Hun, Hlook. apply bool_decide_ext. split; congruence.
    - intros ->. by rewrite lookup_empty in Hlook. }
  cbn [auth_run]. rewrite (auth_step_user h u u Hun), auth_step_pass, Hval.
  by case_bool_decide.
Qed.

(** The example configuration: a second entry replaces the first. *)
Lemma example_users :
  with_users [(bs "bob", bs "x"); (bs " bob ", bs "pw ")] =
  Ok (<[ bs "bob" := bs "pw" ]> (<[ bs "bob" := bs "x" ]> ∅)).
Proof.
  unfold with_users, with_users_loop, Username_try_new, Password_try_new.
  replace (str_trim (bs " bob ")) with (bs "bob") by (vm_compute; reflexivity).
  replace (str_trim (bs "bob")) with (bs "bob") by (vm_compute; reflexivity).
  replace (str_trim (bs "pw ")) with (bs "pw") by (vm_compute; reflexivity).
  replace (str_trim (bs "x")) with (bs "x") by (vm_compute; reflexivity).
  reflexivity.
Qed.

Lemma configured_user_logs_in_witness :
  (auth_run (<[ bs "bob" := bs "pw" ]> (<[ bs "bob" := bs "x" ]> ∅))
     [(RequestPassword (bs "bob"), true); (ValidateAndRespond (bs "pw"), true)] (Anonymous, None)).2
  = (ClientAuthenticated (bs "bob"), Some (bs "bob")).
Proof.
  rewrite (configured_user_logs_in _ _ (bs "bob") (bs "pw") (bs "pw") example_users);
    [reflexivity|vm_compute; reflexivity|vm_compute; reflexivity|discriminate].
Defined.

(** A failed write never changes the authentication state, and a reply is
    written exactly when the command succeeds: an error leaves both the reducer
    state and the identity as they were. *)
Theorem auth_error_no_transition h action writable st e :
  (auth_step h action writable st).1 = Err e →
  (auth_step h action writable st).2 = st ∧
  (e = AuthWrite → writable = false) ∧
  (∀ v, e = AuthValidation v → ∃ raw, action = RequestPassword raw ∧ str_trim raw = []).
Proof.
  destruct st as [auth identity]. unfold auth_step, handle_auth_command.
  destruct (is_authenticated identity); [destruct writable; cbn; [done|]; by intros [= <-]|].
  destruct action as [raw|p|].
  - unfold Username_try_new. case_bool_decide as Hr; cbn.
    + intros [= <-]. split_and!; [done|done|]. intros v _. by exists raw.
    + destruct auth, writable; cbn; try done; by intros [= <-].
  - destruct auth as [|u|u]; cbn; [by destruct writable; cbn; [|intros [= <-]]| |by destruct writable; cbn; [|intros [= <-]]].
    by destruct (validate_credentials_bytes h u p), writable; cbn; try done; intros [= <-].
  - by destruct auth, writable; cbn; try done; intros [= <-].
Qed.

Lemma auth_error_no_transition_witness :
  (auth_step ∅ (RequestPassword (bs " ")) true (Anonymous, None)).2 = (Anonymous, None).
Proof.
  refine (proj1 (auth_error_no_transition ∅ (RequestPassword (bs " ")) true (Anonymous, None)
    (AuthValidation EmptyUsername) _)).
  vm_compute. reflexivity.
Defined.

(** The users of the configuration are exactly the ones that validate: with at
    least one user the check accepts a name and password precisely when the last
    entry for the trimmed name has that (trimmed) password, and with none every
    client is accepted; entries with an empty name or password are refused when
    the configuration is loaded. *)
Theorem with_users_validates user_list h :
  with_users user_list = Ok h →
  is_enabled h = negb (bool_decide (user_list = [])) ∧
  Forall (λ '(u, p), str_trim u ≠ [] ∧ str_trim p ≠ []) user_list ∧
  ∀ name pw, validate_credentials_bytes h name pw = true ↔
    user_list = [] ∨ str_trim name ≠ [] ∧ last_entry user_list (str_trim name) = Some pw.
Proof.
  intros Hw. assert (user_list = [] ↔ h = ∅) as Hempty.
  { split; [intros ->; by injection Hw as <-|]. intros Hh. destruct user_list; [done|].
    destruct (with_users_loop_enabled _ _ _ Hw); [by left|done]. }
  split_and!.
  - unfold is_enabled. f_equal. apply bool_decide_ext. by rewrite Hempty.
  - clear Hempty. unfold with_users in Hw. generalize dependent (∅ : AuthHandler).
    induction user_list as [|[u p] l IH]; intros users Hw; [constructor|].
    cbn [with_users_loop] in Hw. unfold Username_try_new, Password_try_new in Hw.
    destruct (bool_decide (str_trim u = [])) eqn:Eu; cbn in Hw; [done|].
    destruct (bool_decide (str_trim p = [])) eqn:Ep; cbn in Hw; [done|].
    apply bool_decide_eq_false in Eu, Ep. constructor; [done|]. by eapply IH.
  - intros name pw. unfold validate_credentials_bytes. rewrite (bool_decide_ext _ _ (iff_sym Hempty)).
    case_bool_decide as Hl; [tauto|]. unfold Username_try_new. case_bool_decide as Hn.
    + split; [done|]. intros [?|[? _]]; done.
    + rewrite (with_users_loop_lookup _ _ _ (str_trim name) Hw), bool_decide_eq_true, lookup_empty.
      destruct (last_entry user_list (str_trim name)); split; [intros [= ->]; auto|intros [?|[_ ?]]; done|done|intros [?|[_ ?]]; done].
Qed.

Lemma with_users_validates_witness :
  validate_credentials_bytes (<[ bs "bob" := bs "pw" ]> (<[ bs "bob" := bs "x" ]> ∅))
    (bs " bob") (bs "pw") = true.
Proof.
  refine (proj2 (proj2 (proj2 (with_users_validates _ _ example_users)) (bs " bob") (bs "pw")) _).
  right. split; [vm_compute; discriminate|vm_compute; reflexivity].
Defined.
