(* ===== verification/Pipeline.v ===== *)
(** * Pipeline: reading client commands

    Models [src/src/session/handlers/pipeline.rs]: the reader that takes one
    command line at a time from the client's buffered connection, within the
    512-octet limit, and the batch reader that collects the pipelined article
    requests a client has already sent.  The buffered reader of tokio is
    modelled by its buffer and the reads still to come. *)

From S2P Require Import Prelude Protocol Request.

(** ** The buffered client connection *)

(** A read that the socket will deliver: its bytes, or an I/O error.  The flag
    says whether it is already available to a poll that does not wait. *)
Inductive Incoming :=
| Chunk (ready : bool) (b : bytes)
| ReadError (ready : bool).

(** [BufReader]: its buffer and the reads to come; no further read is the end
    of the stream. *)
Record Reader := mkReader {
  rbuf : bytes;
  incoming : list Incoming;
}.

Inductive IoError := IoErr.

(** [fill_buf().await] *)
Definition fill_buf (r : Reader) : result IoError bytes * Reader :=
  match rbuf r with
  | [] =>
      match incoming r with
      | [] => (Ok [], r)
      | Chunk _ b :: rest => (Ok b, mkReader b rest)
      | ReadError _ :: rest => (Err IoErr, mkReader [] rest)
      end
  | b => (Ok b, r)
  end.

(** [consume(n)] *)
Definition reader_consume (n : nat) (r : Reader) : Reader :=
  mkReader (drop n (rbuf r)) (incoming r).

(** ** Command lines *)

Inductive CommandLine :=
| Eof
| Oversized (wire_len : nat)
| Invalid
| Parsed (request : RequestContext).

(** [CommandLine::parsed] *)
Definition parsed (request : option RequestContext) : CommandLine :=
  match request with Some r => Parsed r | None => Invalid end.

Section Lines.
Context {MC : Memchr}.

(** [drain_oversized_command_line]; a round per read. *)
Fixpoint drain_oversized_command_line (fuel : nat) (r : Reader) (wire_len : nat)
    : result IoError CommandLine * Reader :=
  match fuel with
  | 0 => (Ok Eof, r)
  | S fuel =>
      let '(available, r) := fill_buf r in
      match available with
      | Err e => (Err e, r)
      | Ok [] => (Ok (Oversized wire_len), r)
      | Ok available =>
          let newline := memchr x0a available in
          let take_ := match newline with Some pos => pos + 1 | None => length available end in
          let r := reader_consume take_ r in
          let wire_len := wire_len + take_ in
          match newline with
          | Some _ => (Ok (Oversized wire_len), r)
          | None => drain_oversized_command_line fuel r wire_len
          end
      end
  end.

(** The loop of [read_command_line]; [line] is [line_buf[..len]]. *)
Fixpoint read_line_loop (fuel : nat) (r : Reader) (line : bytes)
    : result IoError CommandLine * Reader :=
  match fuel with
  | 0 => (Ok Eof, r)
  | S fuel =>
      let '(available, r) := fill_buf r in
      match available with
      | Err e => (Err e, r)
      | Ok [] => (Ok (if length line =? 0 then Eof else parsed (parse_request line)), r)
      | Ok available =>
          let newline := memchr x0a available in
          let take_ := match newline with Some pos => pos + 1 | None => length available end in
          if MAX_COMMAND_LINE_OCTETS <? length line + take_ then
            let r := reader_consume take_ r in
            match newline with
            | Some _ => (Ok (Oversized (length line + take_)), r)
            | None => drain_oversized_command_line fuel r (length line + take_)
            end
          else
            let line := line ++ take take_ available in
            let r := reader_consume take_ r in
            match newline with
            | Some _ => (Ok (parsed (parse_request line)), r)
            | None => read_line_loop fuel r line
            end
      end
  end.

(** One round per read to come, one for the buffer and one for the end. *)
Definition line_fuel (r : Reader) : nat := S (S (length (incoming r))).

Definition read_command_line (r : Reader) : result IoError CommandLine * Reader :=
  let '(available, r) := fill_buf r in
  match available with
  | Err e => (Err e, r)
  | Ok [] => (Ok Eof, r)
  | Ok available =>
      match memchr x0a available with
      | Some pos =>
          let wire_len := pos + 1 in
          if MAX_COMMAND_LINE_OCTETS <? wire_len
          then (Ok (Oversized wire_len), reader_consume wire_len r)
          else (Ok (parsed (parse_request (take wire_len available))), reader_consume wire_len r)
      | None => read_line_loop (line_fuel r) r []
      end
  end.

(** ** Batches *)

Definition MAX_PIPELINE_DEPTH : nat := 32.

Inductive RequestRejection := RejOversized (wire_len : nat) | RejInvalid.

Inductive BatchContents :=
| BatchEmpty
| BatchRejected (r : RequestRejection)
| BatchContexts (contexts : list RequestContext).

Inductive BatchTail :=
| TailNone
| TailContext (request : RequestContext)
| TailRejection (r : RequestRejection).

Record RequestBatch := mkBatch {
  contents : BatchContents;
  trailing : BatchTail;
}.

Definition batch_is_empty (b : RequestBatch) : bool :=
  match contents b, trailing b with BatchEmpty, TailNone => true | _, _ => false end.

Definition batch_len (b : RequestBatch) : nat :=
  match contents b with BatchContexts cs => length cs | BatchEmpty | BatchRejected _ => 0 end.

Definition is_first_oversized (b : RequestBatch) : bool :=
  match contents b with BatchRejected (RejOversized _) => true | _ => false end.

Definition is_first_invalid (b : RequestBatch) : bool :=
  match contents b with BatchRejected RejInvalid => true | _ => false end.

Definition is_trailing_oversized (b : RequestBatch) : bool :=
  match trailing b with TailRejection (RejOversized _) => true | _ => false end.

Definition is_trailing_invalid (b : RequestBatch) : bool :=
  match trailing b with TailRejection RejInvalid => true | _ => false end.

Definition take_trailing_context (b : RequestBatch) : option RequestContext * RequestBatch :=
  (match trailing b with TailContext r => Some r | TailNone | TailRejection _ => None end,
   mkBatch (contents b) TailNone).

(** [PipelineableRequest::partition] *)
Definition partition_request (r : RequestContext) : result RequestContext RequestContext :=
  if is_pipelineable r then Ok r else Err r.

Definition queued_complete_command_line (r : Reader) : bool :=
  bool_decide (is_Some (memchr x0a (rbuf r))).

(** [refill_available_client_bytes]: one poll of an empty buffer that does not
    wait; the flag says whether bytes arrived. *)
Definition refill_available_client_bytes (r : Reader) : result IoError bool * Reader :=
  match rbuf r with
  | [] =>
      match incoming r with
      | [] => (Ok false, r)
      | Chunk true b :: rest => (Ok (negb (length b =? 0)), mkReader b rest)
      | ReadError true :: rest => (Err IoErr, mkReader [] rest)
      | Chunk false _ :: _ | ReadError false :: _ => (Ok false, r)
      end
  | _ => (Ok false, r)
  end.

(** The loop of [read_command_batch]: it only goes on after it pushed a request,
    so it ends at the depth limit. *)
Fixpoint batch_loop (fuel : nat) (r : Reader) (contexts : list RequestContext)
    : result IoError RequestBatch * Reader :=
  match fuel with
  | 0 => (Ok (mkBatch (BatchContexts contexts) TailNone), r)
  | S fuel =>
      if length contexts <? MAX_PIPELINE_DEPTH then
        let '(go_on, r) :=
          if queued_complete_command_line r then (Ok true, r)
          else refill_available_client_bytes r in
        match go_on with
        | Err e => (Err e, r)
        | Ok false => (Ok (mkBatch (BatchContexts contexts) TailNone), r)
        | Ok true =>
            if negb (queued_complete_command_line r)
            then (Ok (mkBatch (BatchContexts contexts) TailNone), r)
            else
              let '(line, r) := read_command_line r in
              match line with
              | Err e => (Err e, r)
              | Ok Eof => (Ok (mkBatch (BatchContexts contexts) TailNone), r)
              | Ok (Oversized wire_len) =>
                  (Ok (mkBatch (BatchContexts contexts) (TailRejection (RejOversized wire_len))), r)
              | Ok Invalid =>
                  (Ok (mkBatch (BatchContexts contexts) (TailRejection RejInvalid)), r)
              | Ok (Parsed request) =>
                  match partition_request request with
                  | Ok request => batch_loop fuel r (contexts ++ [request])
                  | Err request =>
                      (Ok (mkBatch (BatchContexts contexts) (TailContext request)), r)
                  end
              end
        end
      else (Ok (mkBatch (BatchContexts contexts) TailNone), r)
  end.

Definition read_command_batch (r : Reader) : result IoError RequestBatch * Reader :=
  let '(line, r) := read_command_line r in
  match line with
  | Err e => (Err e, r)
  | Ok Eof => (Ok (mkBatch BatchEmpty TailNone), r)
  | Ok Invalid => (Ok (mkBatch (BatchRejected RejInvalid) TailNone), r)
  | Ok (Oversized wire_len) => (Ok (mkBatch (BatchRejected (RejOversized wire_len)) TailNone), r)
  | Ok (Parsed request) =>
      match partition_request request with
      | Ok request => batch_loop MAX_PIPELINE_DEPTH r [request]
      | Err request => (Ok (mkBatch BatchEmpty (TailContext request)), r)
      end
  end.
End Lines.

(** ** Specification: the lines of a stream *)

(** The bytes to come, and whether they end in an error. *)
Fixpoint incoming_stream (l : list Incoming) : bytes * bool :=
  match l with
  | [] => ([], false)
  | Chunk _ b :: l => let '(s, e) := incoming_stream l in (b ++ s, e)
  | ReadError _ :: _ => ([], true)
  end.

Definition reader_stream (r : Reader) : bytes * bool :=
  let '(s, e) := incoming_stream (incoming r) in (rbuf r ++ s, e).

(** A socket never delivers an empty read before the end of the stream. *)
Definition reader_wf (r : Reader) : Prop :=
  Forall (λ i, match i with Chunk _ b => b ≠ [] | ReadError _ => True end) (incoming r).

Section LineSpec.
Context {MC : Memchr}.

(** The next command of a stream and the rest of the stream; [None] if the
    stream breaks off inside the line. *)
Definition next_line (st : bytes * bool) : option (CommandLine * (bytes * bool)) :=
  let '(s, e) := st in
  let classify line :=
    if MAX_COMMAND_LINE_OCTETS <? length line then Oversized (length line)
    else parsed (parse_request line) in
  match position (Byte.eqb x0a) s with
  | Some p => Some (classify (take (S p) s), (drop (S p) s, e))
  | None =>
      if e then None
      else match s with
           | [] => Some (Eof, ([], false))
           | _ => Some (classify s, ([], false))
           end
  end.

(** A result read from [r] is the one of the stream. *)
Definition reads_line (st : bytes * bool) (res : result IoError CommandLine * Reader) : Prop :=
  reader_wf res.2 ∧
  match next_line st with
  | Some (line, rest) => res.1 = Ok line ∧ reader_stream res.2 = rest
  | None => res.1 = Err IoErr
  end.
End LineSpec.

(** ** Lemmas *)

(** Rounds a loop needs to exhaust the reader. *)
Definition rounds (r : Reader) : nat :=
  length (incoming r) + (match rbuf r with [] => 0 | _ => 1 end) + 1.

Lemma fill_buf_cases r :
  reader_wf r →
  (fill_buf r = (Ok [], r) ∧ reader_stream r = ([], false)) ∨
  (∃ r', fill_buf r = (Err IoErr, r') ∧ reader_stream r = ([], true) ∧ reader_wf r') ∨
  (∃ r', fill_buf r = (Ok (rbuf r'), r') ∧ rbuf r' ≠ [] ∧ reader_stream r' = reader_stream r ∧
         reader_wf r' ∧ length (incoming r') + 2 = rounds r).
Proof.
  destruct r as [[|b buf] inc]; unfold reader_wf, rounds; cbn; intros Hwf.
  - destruct inc as [|[rd b|rd] inc]; [by left| |right; left].
    + apply Forall_cons in Hwf as [Hb Hwf]. right. right. exists (mkReader b inc).
      split_and!; [done|done| |done|cbn; lia]. unfold reader_stream. cbn.
      by destruct (incoming_stream inc).
    + apply Forall_cons in Hwf as [_ Hwf]. by exists (mkReader [] inc).
  - right. right. exists (mkReader (b :: buf) inc). split_and!; try done. cbn. lia.
Qed.

Lemma reader_consume_wf n r : reader_wf r → reader_wf (reader_consume n r).
Proof. done. Qed.

Lemma reader_stream_consume n r s e :
  n ≤ length (rbuf r) → reader_stream r = (s, e) →
  reader_stream (reader_consume n r) = (drop n s, e).
Proof.
  unfold reader_stream. cbn. destruct (incoming_stream (incoming r)) as [t e'].
  intros Hn [= <- <-]. by rewrite drop_app_le.
Qed.

Lemma reader_stream_buf r s e :
  reader_stream r = (s, e) → ∃ t, s = rbuf r ++ t ∧ incoming_stream (incoming r) = (t, e).
Proof.
  unfold reader_stream. destruct (incoming_stream (incoming r)) as [t e']. intros [= <- <-]. eauto.
Qed.

Lemma rounds_consumed r : rounds (reader_consume (length (rbuf r)) r) = length (incoming r) + 1.
Proof. unfold rounds. cbn. rewrite drop_all. lia. Qed.

Section LineFacts.
Context {MC : Memchr} {MS : MemchrSpec MC}.

(** A line feed in the buffer, or not. *)
Lemma buffer_newline r s e :
  reader_stream r = (s, e) →
  match memchr x0a (rbuf r) with
  | Some p => position (Byte.eqb x0a) s = Some p ∧ p < length (rbuf r) ∧
              take (p + 1) (rbuf r) = take (S p) s ∧
              reader_stream (reader_consume (p + 1) r) = (drop (S p) s, e)
  | None => ∃ t, s = rbuf r ++ t ∧ x0a ∉ rbuf r ∧
                 position (Byte.eqb x0a) s = (λ i, length (rbuf r) + i) <$> position (Byte.eqb x0a) t ∧
                 reader_stream (reader_consume (length (rbuf r)) r) = (t, e)
  end.
Proof.
  intros Hs. destruct (reader_stream_buf _ _ _ Hs) as (t & -> & _). rewrite memchr_spec.
  destruct (position (Byte.eqb x0a) (rbuf r)) as [p|] eqn:E.
  - pose proof (position_lt _ _ _ E) as Hp. rewrite position_app, E. split_and!; try done.
    + rewrite Nat.add_1_r. by rewrite take_app_le by lia.
    + rewrite Nat.add_1_r. apply reader_stream_consume; [lia|done].
  - exists t. rewrite position_app, E. split_and!; try done.
    + intros Hin. apply position_None in E. rewrite Forall_forall in E.
      by apply E, byte_eqb_neq in Hin.
    + rewrite (reader_stream_consume _ _ _ _ (le_n _) Hs). by rewrite drop_app_length.
Qed.

Lemma drain_spec fuel r w s e :
  reader_wf r → reader_stream r = (s, e) → rounds r ≤ fuel →
  let res := drain_oversized_command_line fuel r w in
  reader_wf res.2 ∧
  match position (Byte.eqb x0a) s with
  | Some p => res.1 = Ok (Oversized (w + S p)) ∧ reader_stream res.2 = (drop (S p) s, e)
  | None => if e then res.1 = Err IoErr
            else res.1 = Ok (Oversized (w + length s)) ∧ reader_stream res.2 = ([], false)
  end.
Proof.
  revert r w s. induction fuel as [|fuel IH]; intros r w s Hwf Hs Hf; [unfold rounds in Hf; lia|].
  cbn [drain_oversized_command_line].
  destruct (fill_buf_cases r Hwf) as [[-> Hst]|[(r' & -> & Hst & Hwf')|(r' & -> & Hne & Hst & Hwf' & Hr)]].
  - rewrite Hst in Hs. injection Hs as <- <-. cbn. split; [done|]. split; [f_equal; f_equal; lia|done].
  - rewrite Hst in Hs. injection Hs as <- <-. done.
  - rewrite <-Hst in Hs. destruct (rbuf r') as [|b0 buf] eqn:Eb; [done|]. rewrite <-Eb in *.
    pose proof (buffer_newline r' s e Hs) as Hn.
    destruct (memchr x0a (rbuf r')) as [p|].
    + destruct Hn as (-> & _ & _ & Hrest). cbn [fst snd]. split; [done|].
      rewrite Nat.add_1_r in *. done.
    + destruct Hn as (t & -> & _ & -> & Hrest).
      specialize (IH (reader_consume (length (rbuf r')) r') (w + length (rbuf r')) t
        (reader_consume_wf _ _ Hwf') Hrest ltac:(rewrite rounds_consumed; lia)) as [IH1 IH2].
      split; [done|]. destruct (position (Byte.eqb x0a) t) as [p|]; cbn.
      * destruct IH2 as [-> ->]. split; [f_equal; f_equal; lia|]. f_equal.
        rewrite <-Nat.add_succ_r. by rewrite drop_app_add.
      * destruct e; [done|]. destruct IH2 as [-> ->]. split; [|done]. do 2 f_equal.
        rewrite length_app. lia.
Qed.

Lemma position_after (l s : bytes) :
  x0a ∉ l → position (Byte.eqb x0a) (l ++ s) = (λ i, length l + i) <$> position (Byte.eqb x0a) s.
Proof.
  intros Hl. rewrite position_app.
  destruct (position (Byte.eqb x0a) l) as [i|] eqn:E; [|done].
  apply position_line in E as (l1 & l2 & -> & _ & _). set_solver.
Qed.

(** The classification of a line that is too long, whatever it is. *)
Lemma next_line_long s e p :
  position (Byte.eqb x0a) s = Some p → MAX_COMMAND_LINE_OCTETS < S p →
  next_line (s, e) = Some (Oversized (S p), (drop (S p) s, e)).
Proof.
  intros Hp Hl. unfold next_line. rewrite Hp. apply position_lt in Hp.
  rewrite length_take, Nat.min_l by lia.
  by destruct (Nat.ltb_spec MAX_COMMAND_LINE_OCTETS (S p)); [|lia].
Qed.

Lemma next_line_short s e p :
  position (Byte.eqb x0a) s = Some p → S p ≤ MAX_COMMAND_LINE_OCTETS →
  next_line (s, e) = Some (parsed (parse_request (take (S p) s)), (drop (S p) s, e)).
Proof.
  intros Hp Hl. unfold next_line. rewrite Hp. apply position_lt in Hp.
  rewrite length_take, Nat.min_l by lia.
  by destruct (Nat.ltb_spec MAX_COMMAND_LINE_OCTETS (S p)); [lia|].
Qed.

Lemma next_line_end s :
  position (Byte.eqb x0a) s = None → s ≠ [] →
  next_line (s, false) =
  Some (if MAX_COMMAND_LINE_OCTETS <? length s then Oversized (length s)
        else parsed (parse_request s), ([], false)).
Proof. intros Hp Hne. unfold next_line. rewrite Hp. by destruct s. Qed.

Lemma read_line_loop_spec fuel r line s e :
  reader_wf r → reader_stream r = (s, e) → rounds r ≤ fuel →
  x0a ∉ line → length line ≤ MAX_COMMAND_LINE_OCTETS →
  reads_line (line ++ s, e) (read_line_loop fuel r line).
Proof.
  revert r line s. induction fuel as [|fuel IH]; intros r line s Hwf Hs Hf Hlf Hlen;
    [unfold rounds in Hf; lia|].
  pose proof (position_after line s Hlf) as Hpos. cbn [read_line_loop].
  destruct (fill_buf_cases r Hwf) as [[-> Hst]|[(r' & -> & Hst & Hwf')|(r' & -> & Hne & Hst & Hwf' & Hr)]].
  - rewrite Hst in Hs. injection Hs as <- <-. rewrite app_nil_r in *. split; [done|].
    destruct line as [|b line]; [done|]. rewrite next_line_end by done.
    by destruct (Nat.ltb_spec MAX_COMMAND_LINE_OCTETS (length (b :: line))); [lia|].
  - rewrite Hst in Hs. injection Hs as <- <-. split; [done|]. unfold next_line. by rewrite Hpos.
  - rewrite <-Hst in Hs. destruct (rbuf r') as [|b0 buf] eqn:Eb; [done|]. rewrite <-Eb in *.
    pose proof (buffer_newline r' s e Hs) as Hn. destruct (memchr x0a (rbuf r')) as [p|].
    + destruct Hn as (Hp & Hlt & Htake & Hrest). rewrite Hp in Hpos. cbn in Hpos.
      destruct (Nat.ltb_spec MAX_COMMAND_LINE_OCTETS (length line + (p + 1))) as [Hbig|Hsmall];
        (split; [done|]).
      * rewrite (next_line_long _ _ _ Hpos) by lia. rewrite <-Nat.add_succ_r, drop_app_add.
        split; [cbn [fst]; do 2 f_equal; lia|done].
      * rewrite (next_line_short _ _ _ Hpos) by lia.
        rewrite <-Nat.add_succ_r, take_app_add, drop_app_add, <-Htake. done.
    + destruct Hn as (t & -> & Hnl & Hpt & Hrest). rewrite Hpt in Hpos.
      pose proof (reader_consume_wf (length (rbuf r')) r' Hwf') as Hwf2.
      pose proof (rounds_consumed r') as Hround.
      destruct (Nat.ltb_spec MAX_COMMAND_LINE_OCTETS (length line + length (rbuf r'))) as [Hbig|Hsmall].
      * pose proof (drain_spec fuel _ (length line + length (rbuf r')) t e Hwf2 Hrest ltac:(lia)) as [Hd1 Hd2].
        split; [done|]. destruct (position (Byte.eqb x0a) t) as [p|]; cbn in Hpos.
        -- rewrite (next_line_long _ _ _ Hpos) by lia. destruct Hd2 as [-> ->].
           rewrite <-!Nat.add_succ_r, !drop_app_add. split; [cbn [fst]; do 2 f_equal; lia|done].
        -- destruct e; [unfold next_line; by rewrite Hpos|]. destruct Hd2 as [-> ->].
           rewrite next_line_end by (done || by destruct line, (rbuf r')).
           rewrite !length_app. destruct (Nat.ltb_spec MAX_COMMAND_LINE_OCTETS
             (length line + (length (rbuf r') + length t))); [|lia]. split; [cbn [fst]; do 2 f_equal; lia|done].
      * rewrite take_ge, app_assoc by done.
        apply IH; [done|done|lia|set_solver|rewrite length_app; lia].
Qed.

Lemma read_command_line_spec r :
  reader_wf r → reads_line (reader_stream r) (read_command_line r).
Proof.
  intros Hwf. unfold read_command_line.
  destruct (fill_buf_cases r Hwf) as [[-> Hst]|[(r' & -> & Hst & Hwf')|(r' & -> & Hne & Hst & Hwf' & Hr)]].
  - rewrite Hst. done.
  - rewrite Hst. done.
  - rewrite <-Hst. destruct (rbuf r') as [|b0 buf] eqn:Eb; [done|]. rewrite <-Eb in *.
    destruct (reader_stream r') as [s e] eqn:Es.
    pose proof (buffer_newline r' s e Es) as Hn. destruct (memchr x0a (rbuf r')) as [p|] eqn:Em.
    + destruct Hn as (Hp & Hlt & Htake & Hrest).
      destruct (Nat.ltb_spec MAX_COMMAND_LINE_OCTETS (p + 1)) as [Hbig|Hsmall]; (split; [done|]).
      * rewrite (next_line_long _ _ _ Hp) by lia. split; [cbn [fst]; do 2 f_equal; lia|done].
      * rewrite (next_line_short _ _ _ Hp), <-Htake by lia. done.
    + apply (read_line_loop_spec (line_fuel r') r' [] s e); [done|done| |set_solver|cbn; unfold MAX_COMMAND_LINE_OCTETS; lia].
      unfold rounds, line_fuel. destruct (rbuf r'); lia.
Qed.
End LineFacts.

(** ** Batches and the lines of the stream *)

Section BatchFacts.
Context {MC : Memchr} {MS : MemchrSpec MC}.

(** Reading several lines of a stream. *)
Inductive reads_lines : bytes * bool → list CommandLine → bytes * bool → Prop :=
| reads_none st : reads_lines st [] st
| reads_more st line st1 lines st2 :
    next_line st = Some (line, st1) → reads_lines st1 lines st2 →
    reads_lines st (line :: lines) st2.

Definition rejection_line (r : RequestRejection) : CommandLine :=
  match r with RejOversized n => Oversized n | RejInvalid => Invalid end.

(** The commands of a batch, in order. *)
Definition batch_lines (b : RequestBatch) : list CommandLine :=
  match contents b with
  | BatchEmpty => []
  | BatchRejected r => [rejection_line r]
  | BatchContexts cs => Parsed <$> cs
  end ++
  match trailing b with
  | TailNone => []
  | TailContext r => [Parsed r]
  | TailRejection r => [rejection_line r]
  end.

(** The shape of a batch: at most [MAX_PIPELINE_DEPTH] requests, all of them
    article requests by message-id, and a trailing request that is not. *)
Definition batch_ok (b : RequestBatch) : Prop :=
  batch_len b ≤ MAX_PIPELINE_DEPTH ∧
  match contents b with
  | BatchContexts cs => Forall (λ r, is_pipelineable r = true) cs
  | _ => True
  end ∧
  match trailing b with TailContext r => is_pipelineable r = false | _ => True end.

Definition incoming_ready (i : Incoming) : bool :=
  match i with Chunk ready _ | ReadError ready => ready end.

(** The reads taken between two states were all available at once. *)
Definition no_wait (r r' : Reader) : Prop :=
  ∃ taken, incoming r = taken ++ incoming r' ∧ Forall (λ i, incoming_ready i = true) taken.

Lemma no_wait_refl r : no_wait r r.
Proof. exists []. split; [done|constructor]. Qed.

Lemma no_wait_trans r1 r2 r3 : no_wait r1 r2 → no_wait r2 r3 → no_wait r1 r3.
Proof.
  intros (t1 & H1 & F1) (t2 & H2 & F2). exists (t1 ++ t2).
  split; [by rewrite H1, H2, app_assoc|]. by apply Forall_app.
Qed.

Lemma next_line_not_eof st st' : next_line st = Some (Eof, st') → st' = st.
Proof.
  destruct st as [s e]. unfold next_line, parsed.
  destruct (position _ s); [by repeat case_match|].
  destruct e; [done|]. destruct s as [|b s]; [by intros [= <-]|by repeat case_match].
Qed.

Lemma refill_spec r res r' :
  reader_wf r → refill_available_client_bytes r = (res, r') →
  reader_wf r' ∧ no_wait r r' ∧ (∀ go, res = Ok go → reader_stream r' = reader_stream r).
Proof.
  intros Hwf. unfold refill_available_client_bytes.
  destruct r as [[|b buf] inc]; cbn [rbuf incoming];
    [|intros [= <- <-]; split_and!; [done|by apply no_wait_refl|done]].
  destruct inc as [|[[] b|[]] inc]; intros [= <- <-];
    try (split_and!; [done|by apply no_wait_refl|done]).
  - apply Forall_cons in Hwf as [_ Hwf]. split_and!; [done|by exists [Chunk true b]; auto|].
    intros go _. unfold reader_stream. cbn. by destruct (incoming_stream inc).
  - apply Forall_cons in Hwf as [_ Hwf]. split_and!; [done|by exists [ReadError true]; auto|done].
Qed.

(** A complete line in the buffer is read without touching the socket. *)
Lemma read_queued_line r :
  queued_complete_command_line r = true → incoming (read_command_line r).2 = incoming r.
Proof.
  unfold queued_complete_command_line. intros [p Hp]%bool_decide_eq_true.
  unfold read_command_line, fill_buf. destruct (rbuf r) as [|b buf] eqn:E.
  { rewrite memchr_spec in Hp. done. }
  rewrite Hp. by destruct (MAX_COMMAND_LINE_OCTETS <? p + 1).
Qed.

Lemma batch_loop_spec fuel r cs b r' :
  reader_wf r → length cs ≤ MAX_PIPELINE_DEPTH → Forall (λ r, is_pipelineable r = true) cs →
  batch_loop fuel r cs = (Ok b, r') →
  batch_ok b ∧ no_wait r r' ∧
  ∃ lines, batch_lines b = (Parsed <$> cs) ++ lines ∧
           reads_lines (reader_stream r) lines (reader_stream r').
Proof.
  revert r cs. induction fuel as [|fuel IH]; intros r cs Hwf Hl Hp.
  { intros [= <- <-]. split; [done|]. split; [apply no_wait_refl|]. exists []. split; [done|constructor]. }
  assert (∀ r0, reader_stream r0 = reader_stream r → no_wait r r0 →
    (Ok (mkBatch (BatchContexts cs) TailNone), r0) = (Ok (E := IoError) b, r') →
    batch_ok b ∧ no_wait r r' ∧
    ∃ lines, batch_lines b = (Parsed <$> cs) ++ lines ∧
             reads_lines (reader_stream r) lines (reader_stream r')) as Hstop.
  { intros r0 Hs Hw [= <- <-]. split; [done|]. split; [done|]. exists []. split; [done|].
    rewrite Hs. constructor. }
  cbn [batch_loop]. destruct (Nat.ltb_spec (length cs) MAX_PIPELINE_DEPTH) as [Hlt|?];
    [|apply Hstop; [done|apply no_wait_refl]].
  destruct (if queued_complete_command_line r then _ else _) as [go r1] eqn:Ego.
  assert (reader_wf r1 ∧ no_wait r r1 ∧ (∀ g, go = Ok g → reader_stream r1 = reader_stream r))
    as (Hwf1 & Hw1 & Hs1).
  { destruct (queued_complete_command_line r); [|by apply refill_spec].
    injection Ego as <- <-. split_and!; [done|apply no_wait_refl|done]. }
  destruct go as [[]|]; [|by apply Hstop; [eapply Hs1|]|done].
  destruct (queued_complete_command_line r1) eqn:Eq; [|by apply Hstop; [eapply Hs1|]]. cbn [negb].
  pose proof (read_command_line_spec r1 Hwf1) as [Hwf2 Hnext].
  pose proof (read_queued_line r1 Eq) as Hinc.
  destruct (read_command_line r1) as [line r2]. cbn [fst snd] in *. rewrite (Hs1 true eq_refl) in Hnext.
  assert (no_wait r r2) as Hw2.
  { eapply no_wait_trans; [exact Hw1|]. exists []. split; [done|constructor]. }
  destruct (next_line (reader_stream r)) as [[l st]|] eqn:En; [|by rewrite Hnext].
  destruct Hnext as [-> Hst].
  destruct l as [|n| |request].
  - apply Hstop; [|done]. apply next_line_not_eof in En. congruence.
  - intros [= <- <-]. split; [done|]. split; [done|]. exists [Oversized n]. split; [done|].
    rewrite Hst. by econstructor; [|constructor].
  - intros [= <- <-]. split; [done|]. split; [done|]. exists [Invalid]. split; [done|].
    rewrite Hst. by econstructor; [|constructor].
  - unfold partition_request. destruct (is_pipelineable request) eqn:Epipe.
    + intros Hloop. destruct (IH r2 (cs ++ [request])) as (Hb & Hw & lines & Hlines & Hreads); try done.
      * rewrite length_app. cbn. lia.
      * apply Forall_app. by repeat constructor.
      * split; [done|]. split; [by eapply no_wait_trans|]. exists (Parsed request :: lines).
        split; [rewrite Hlines, fmap_app; by rewrite <-app_assoc|].
        econstructor; [done|]. by rewrite <-Hst.
    + intros [= <- <-]. split; [done|]. split; [done|]. exists [Parsed request]. split; [done|].
      rewrite Hst. by econstructor; [|constructor].
Qed.
Lemma read_batch_spec r b r' :
  reader_wf r → read_command_batch r = (Ok b, r') →
  batch_ok b ∧ reads_lines (reader_stream r) (batch_lines b) (reader_stream r') ∧
  no_wait (read_command_line r).2 r'.
Proof.
  intros Hwf. unfold read_command_batch.
  pose proof (read_command_line_spec r Hwf) as [Hwf1 Hnext].
  destruct (read_command_line r) as [line r1]. cbn [fst snd] in *.
  destruct (next_line (reader_stream r)) as [[l st]|] eqn:En; [|by rewrite Hnext].
  destruct Hnext as [-> Hst]. assert (0 ≤ MAX_PIPELINE_DEPTH) by (unfold MAX_PIPELINE_DEPTH; lia).
  destruct l as [|n| |request].
  - intros [= <- <-]. split_and!; [done| |apply no_wait_refl].
    apply next_line_not_eof in En. rewrite Hst, En. constructor.
  - intros [= <- <-]. split_and!; [done| |apply no_wait_refl]. rewrite Hst. by econstructor; [|constructor].
  - intros [= <- <-]. split_and!; [done| |apply no_wait_refl]. rewrite Hst. by econstructor; [|constructor].
  - unfold partition_request. destruct (is_pipelineable request) eqn:Ep.
    + intros Hloop. apply batch_loop_spec in Hloop as (Hb & Hw & lines & -> & Hreads);
        [|done|unfold MAX_PIPELINE_DEPTH; cbn; lia|by repeat constructor].
      split_and!; [done| |done]. cbn. econstructor; [done|]. by rewrite <-Hst.
    + intros [= <- <-]. split_and!; [done| |apply no_wait_refl]. rewrite Hst. by econstructor; [|constructor].
Qed.

(** A refused first line is alone, and a batch of requests has one. *)
Definition batch_shape (b : RequestBatch) : Prop :=
  match contents b with
  | BatchRejected _ => trailing b = TailNone
  | BatchContexts cs => cs ≠ []
  | BatchEmpty => True
  end.

(** Whatever a batch reads, the reader stays well-formed; it fails only if the
    connection breaks off. *)
Definition batch_read (r : Reader) (res : result IoError RequestBatch * Reader) : Prop :=
  reader_wf res.2 ∧ match res.1 with Ok b => batch_shape b | Err _ => (reader_stream r).2 = true end.

Lemma next_line_broken st : next_line st = None → st.2 = true.
Proof. destruct st as [s e]. unfold next_line. destruct (position _ s); [done|]. destruct e; [done|]. by destruct s. Qed.

Lemma next_line_flag st line st' : next_line st = Some (line, st') → st'.2 = st.2.
Proof.
  destruct st as [s e]. unfold next_line. destruct (position _ s); [by intros [= _ <-]|]. destruct e; [done|].
  destruct s; by intros [= _ <-].
Qed.

Lemma refill_error r res r' e :
  refill_available_client_bytes r = (res, r') → res = Err e → (reader_stream r).2 = true.
Proof.
  unfold refill_available_client_bytes. destruct r as [[|b buf] inc]; cbn [rbuf incoming]; [|by intros [= <- _]].
  destruct inc as [|[[] b|[]] inc]; by intros [= <- _].
Qed.

Lemma batch_loop_read fuel r cs : reader_wf r → cs ≠ [] → batch_read r (batch_loop fuel r cs).
Proof.
  revert r cs. induction fuel as [|fuel IH]; intros r cs Hwf Hcs; [done|]. cbn [batch_loop]. destruct (_ <? _); [|done].
  destruct (if queued_complete_command_line r then _ else _) as [go r1] eqn:Ego.
  assert (reader_wf r1 ∧ (∀ g, go = Ok g → reader_stream r1 = reader_stream r) ∧ (∀ e, go = Err e → (reader_stream r).2 = true)) as (Hwf1 & Hs1 & He1).
  { destruct (queued_complete_command_line r); [by injection Ego as <- <-|]. pose proof (refill_spec _ _ _ Hwf Ego) as (? & _ & ?).
    split_and!; [done|done|]. intros e. by eapply refill_error. }
  destruct go as [[]|e]; [|done|by split; [|eapply He1]]. destruct (queued_complete_command_line r1); cbn [negb]; [|done].
  pose proof (read_command_line_spec r1 Hwf1) as [Hwf2 Hnext]. rewrite (Hs1 true eq_refl) in Hnext.
  destruct (read_command_line r1) as [line r2]. cbn [fst snd] in *.
  destruct (next_line (reader_stream r)) as [[l st]|] eqn:En; [|rewrite Hnext; split; [done|by apply next_line_broken]].
  destruct Hnext as [-> Hst]. destruct l as [|n| |request]; [done|done|done|]. unfold partition_request. destruct (is_pipelineable request); [|done].
  destruct (IH r2 (cs ++ [request])) as [Hw H]; [done|by destruct cs|]. split; [done|]. destruct (batch_loop _ _ _).1; [done|].
  rewrite Hst in H. by rewrite <- (next_line_flag _ _ _ En).
Qed.

Lemma read_batch_read r : reader_wf r → batch_read r (read_command_batch r).
Proof.
  intros Hwf. unfold read_command_batch. pose proof (read_command_line_spec r Hwf) as [Hwf1 Hnext].
  destruct (read_command_line r) as [line r1]. cbn [fst snd] in *.
  destruct (next_line (reader_stream r)) as [[l st]|] eqn:En; [|rewrite Hnext; split; [done|by apply next_line_broken]].
  destruct Hnext as [-> Hst]. destruct l as [|n| |request]; [done|done|done|]. unfold partition_request. destruct (is_pipelineable request); [|done].
  destruct (batch_loop_read MAX_PIPELINE_DEPTH r1 [request]) as [Hw H]; [done|done|]. split; [done|]. destruct (batch_loop _ _ _).1; [done|].
  rewrite Hst in H. by rewrite <- (next_line_flag _ _ _ En).
Qed.

(** An empty batch is the end of the stream. *)
Lemma next_line_eof st st' : next_line st = Some (Eof, st') → st = ([], false).
Proof.
  destruct st as [s e]. unfold next_line, parsed. destruct (position _ s); [by repeat case_match|].
  destruct e; [done|]. destruct s as [|b s]; [done|by repeat case_match].
Qed.

Lemma read_batch_eof r b r' : reader_wf r → read_command_batch r = (Ok b, r') → batch_lines b = [] → reader_stream r = ([], false).
Proof.
  intros Hwf Hr Hb. pose proof (read_batch_read r Hwf) as [_ Hshape]. rewrite Hr in Hshape. cbn in Hshape. revert Hr. unfold read_command_batch.
  pose proof (read_command_line_spec r Hwf) as [_ Hnext]. destruct (read_command_line r) as [line r1]. cbn [fst snd] in *.
  destruct (next_line (reader_stream r)) as [[l st]|] eqn:En; [|by rewrite Hnext]. destruct Hnext as [-> _].
  destruct l as [|n| |request]; [intros _; by apply next_line_eof in En|by intros [= <- _]..|].
  unfold partition_request. destruct (is_pipelineable request); [|by intros [= <- _]]. intros Hl. exfalso.
  assert (contents b ≠ BatchEmpty) as Hc.
  { clear -Hl. revert Hl. generalize [request] as cs. generalize MAX_PIPELINE_DEPTH as fuel. intros fuel. revert r1.
    induction fuel as [|fuel IH]; intros r1 cs; cbn [batch_loop]; [by intros [= <- _]|]. destruct (_ <? _); [|by intros [= <- _]].
    destruct (if queued_complete_command_line r1 then _ else _) as [[[]|] r2]; [|by intros [= <- _]|done].
    destruct (negb _); [by intros [= <- _]|]. destruct (read_command_line r2) as [[[|n| |q]|] r3]; try (by intros [= <- _]).
    destruct (partition_request q); [apply IH|by intros [= <- _]]. }
  unfold batch_lines, batch_shape in *. destruct (contents b) as [| |cs]; [done|done|]. by destruct cs.
Qed.

(** A line takes bytes from the stream. *)
Lemma next_line_shorter st line st' : next_line st = Some (line, st') → line ≠ Eof → length st'.1 < length st.1.
Proof.
  destruct st as [s e]. unfold next_line. destruct (position (Byte.eqb x0a) s) as [p|] eqn:Ep.
  - intros [= _ <-] _. cbn. apply position_lt in Ep. rewrite length_drop. lia.
  - destruct e; [done|]. destruct s; [by intros [= <- _]|]. intros [= _ <-] _. cbn. lia.
Qed.

Lemma reads_lines_shorter st lines st' :
  reads_lines st lines st' → Eof ∉ lines → lines ≠ [] → length st'.1 < length st.1.
Proof.
  induction 1 as [|st line st1 lines st2 Hn Hr IH]; intros Hno Hne; [done|]. apply not_elem_of_cons in Hno as [Hl Hno].
  apply next_line_shorter in Hn; [|by intros ->]. destruct lines as [|l lines]; [inversion Hr; by subst|]. specialize (IH Hno ltac:(done)). lia.
Qed.

Lemma reads_lines_app st lines1 st1 lines2 st2 :
  reads_lines st lines1 st1 → reads_lines st1 lines2 st2 → reads_lines st (lines1 ++ lines2) st2.
Proof. induction 1; [done|]. intros H2. econstructor; eauto. Qed.

Lemma reads_lines_end st lines st' : reads_lines st lines st' → st'.2 = st.2.
Proof. induction 1 as [|st line st1 lines st2 Hn _ IH]; [done|]. rewrite IH. by apply next_line_flag in Hn. Qed.
End BatchFacts.

(** ** Theorems *)

(** C23 Reading a command does not depend on how the client's bytes arrive: the
    reader returns the next line of the stream, cut at its line feed (or at the
    end of the stream), refuses exactly the lines above 512 octets and reports
    their full length, parses all others, and leaves exactly the following
    bytes; it only fails if the connection breaks off inside the line.  In
    particular its loops terminate. *)
Theorem read_command_line_exact {MC : Memchr} {MS : MemchrSpec MC} r :
  reader_wf r → reads_line (reader_stream r) (read_command_line r).
Proof. apply read_command_line_spec. Qed.

Lemma read_command_line_exact_witness :
  (read_command_line (MC := naive_memchr)
     (mkReader (bs "DA") [Chunk true (bs "TE"); Chunk false (CRLF ++ bs "QUIT")])).1
  = Ok (Parsed (from_verb_args (bs "DATE") [])).
Proof.
  refine (proj1 (proj2 (read_command_line_exact (MC := naive_memchr) (MS := naive_memchr_spec)
    (mkReader (bs "DA") [Chunk true (bs "TE"); Chunk false (CRLF ++ bs "QUIT")]) _))).
  repeat constructor; discriminate.
Defined.

(** A batch is a faithful prefix of what the client sent: its commands are the
    next lines of the stream, none dropped, duplicated or reordered; it holds at
    most 32 pipelined requests, all article requests by message-id, and at most
    one trailing command, which is not one or is refused; and after its first
    command it never waits for the client. *)
Theorem read_command_batch_exact {MC : Memchr} {MS : MemchrSpec MC} r b r' :
  reader_wf r → read_command_batch r = (Ok b, r') →
  batch_ok b ∧ reads_lines (reader_stream r) (batch_lines b) (reader_stream r') ∧
  no_wait (read_command_line r).2 r'.
Proof. apply read_batch_spec. Qed.

Lemma read_command_batch_exact_witness :
  let r := mkReader (bs "STAT <a@b>" ++ CRLF ++ bs "DA") [Chunk true (bs "TE" ++ CRLF ++ bs "QUIT")] in
  reads_lines (MC := naive_memchr) (reader_stream r)
    [Parsed (from_verb_args (bs "STAT") (bs "<a@b>"))]
    (bs "DATE" ++ CRLF ++ bs "QUIT", false).
Proof.
  intros r. refine (proj1 (proj2 (read_command_batch_exact (MC := naive_memchr)
    (MS := naive_memchr_spec) r (mkBatch (BatchContexts [from_verb_args (bs "STAT") (bs "<a@b>")]) TailNone)
    (mkReader (bs "DA") [Chunk true (bs "TE" ++ CRLF ++ bs "QUIT")]) _ _))).
  - repeat constructor. discriminate.
  - vm_compute. reflexivity.
Defined.
