(* ===== verification/Wire.v ===== *)
(** * Wire: little-endian fields and cursor parsers

    The persistent formats of the cache ([availability_identity.rs],
    [availability_index.rs]) are byte vectors written with [to_le_bytes] and
    read back through a cursor ([read_u16], [read_u32], [read_u64] and the
    length-prefixed strings).  This file models those primitives; [reads]
    says that a parser reads back what an encoder wrote, wherever it lies in
    the data, and composes along the parser monad. *)

From S2P Require Import Prelude.

(** ** Little-endian integers *)

Definition byte_of (n : N) : byte := default x00 (Byte.of_N (n mod 256)).

(** [uN::to_le_bytes] for an integer of [k] bytes. *)
Fixpoint to_le_bytes (k : nat) (v : N) : bytes :=
  match k with
  | 0 => []
  | S k => byte_of v :: to_le_bytes k (v / 256)
  end.

(** [uN::from_le_bytes]. *)
Fixpoint from_le_bytes (l : bytes) : N :=
  match l with
  | [] => 0
  | b :: l => Byte.to_N b + 256 * from_le_bytes l
  end.

(** ** Cursor parsers *)

Inductive WireError :=
| Truncated
| InvalidLength
| InvalidUtf8
| InvalidFormat
| InvalidEpoch
| TooManyIdentities
| DuplicateIdentity
| InvalidEntryCount
| BitsExceedTable
| TrailingBytes
| InvalidStatus
| InvalidKind.

(** A function of [(data: &[u8], cursor: &mut usize)]. *)
Definition Parser (A : Type) : Type := bytes → nat → result WireError (A * nat).

#[global] Instance parser_ret : MRet Parser := λ A a data cursor, Ok (a, cursor).

#[global] Instance parser_bind : MBind Parser := λ A B f p data cursor,
  match p data cursor with
  | Ok (a, cursor) => f a data cursor
  | Err e => Err e
  end.

Definition p_ensure (e : WireError) (b : bool) : Parser unit := λ data cursor,
  if b then Ok ((), cursor) else Err e.

Definition p_fail {A} (e : WireError) : Parser A := λ _ _, Err e.

(** [data.get(cursor..cursor + n)] and the advance of the cursor. *)
Definition read_bytes (n : nat) : Parser bytes := λ data cursor,
  if cursor + n <=? length data
  then Ok (slice cursor (cursor + n) data, cursor + n)
  else Err Truncated.

Definition read_uint (k : nat) : Parser N := b ← read_bytes k; mret (from_le_bytes b).

Definition read_u16 : Parser N := read_uint 2.
Definition read_u32 : Parser N := read_uint 4.
Definition read_u64 : Parser N := read_uint 8.

(** [for _ in 0..count { items.push(read(data, &mut cursor)?) }] *)
Fixpoint read_many {A} (count : nat) (p : Parser A) : Parser (list A) :=
  match count with
  | 0 => mret []
  | S count => a ← p; l ← read_many count p; mret (a :: l)
  end.

(** ** Facts *)

(** [p] reads [a] from the bytes [enc], whatever surrounds them. *)
Definition reads {A} (p : Parser A) (enc : bytes) (a : A) : Prop :=
  ∀ pre post, p (pre ++ enc ++ post) (length pre) = Ok (a, length pre + length enc).

Lemma reads_ret {A} (a : A) : reads (mret a) [] a.
Proof. intros pre post. unfold mret, parser_ret. do 2 f_equal. len. Qed.

Lemma reads_bind {A B} (p : Parser A) (f : A → Parser B) e1 e2 a b :
  reads p e1 a → reads (f a) e2 b → reads (x ← p; f x) (e1 ++ e2) b.
Proof.
  intros H1 H2 pre post. unfold mbind, parser_bind. rewrite <- (assoc_L (++)), H1.
  specialize (H2 (pre ++ e1) post). rewrite <- (assoc_L (++)) in H2. rewrite length_app in H2.
  rewrite H2. do 2 f_equal. len.
Qed.

Lemma reads_ensure {A} e (p : Parser A) enc a :
  reads p enc a → reads (_ ← p_ensure e true; p) enc a.
Proof. intros H. apply (reads_bind _ _ [] enc ()); [|done]. intros pre post. cbn. do 2 f_equal. lia. Qed.

Lemma reads_read_bytes n (enc : bytes) : length enc = n → reads (read_bytes n) enc enc.
Proof.
  intros <- pre post. unfold read_bytes, slice.
  rewrite (proj2 (Nat.leb_le _ _)) by len. do 2 f_equal.
  rewrite drop_app_length. replace (_ + _ - _) with (length enc) by lia. apply take_app_length.
Qed.

Lemma byte_of_to_N n : Byte.to_N (byte_of n) = (n mod 256)%N.
Proof.
  unfold byte_of. destruct (byte_of_N_lt (n mod 256)) as (b & Hb & Hn); [by apply N.mod_lt|].
  by rewrite Hb.
Qed.

Lemma length_to_le_bytes k v : length (to_le_bytes k v) = k.
Proof. revert v. induction k as [|k IH]; intros v; cbn; [done|]. by rewrite IH. Qed.

Lemma from_to_le_bytes k v : (v < 256 ^ N.of_nat k)%N → from_le_bytes (to_le_bytes k v) = v.
Proof.
  revert v. induction k as [|k IH]; intros v Hv.
  { cbn in *. lia. }
  cbn [to_le_bytes from_le_bytes]. rewrite byte_of_to_N, IH.
  - pose proof (N.div_mod v 256 ltac:(done)). lia.
  - apply N.Div0.div_lt_upper_bound. by rewrite Nat2N.inj_succ, N.pow_succ_r' in Hv.
Qed.

Lemma from_le_bytes_lt l : (from_le_bytes l < 256 ^ N.of_nat (length l))%N.
Proof.
  induction l as [|b l IH]; cbn [from_le_bytes length]; [done|].
  rewrite Nat2N.inj_succ, N.pow_succ_r'. pose proof (byte_to_N_lt b). lia.
Qed.

Lemma reads_uint k v : (v < 256 ^ N.of_nat k)%N → reads (read_uint k) (to_le_bytes k v) v.
Proof.
  intros Hv. rewrite <- (app_nil_r (to_le_bytes k v)). eapply reads_bind.
  - apply reads_read_bytes, length_to_le_bytes.
  - rewrite from_to_le_bytes by done. apply reads_ret.
Qed.

Lemma reads_u16 v : (v < 2 ^ 16)%N → reads read_u16 (to_le_bytes 2 v) v.
Proof. apply (reads_uint 2). Qed.
Lemma reads_u32 v : (v < 2 ^ 32)%N → reads read_u32 (to_le_bytes 4 v) v.
Proof. apply (reads_uint 4). Qed.
Lemma reads_u64 v : (v < 2 ^ 64)%N → reads read_u64 (to_le_bytes 8 v) v.
Proof. apply (reads_uint 8). Qed.

Lemma reads_many {A} (p : Parser A) (enc : A → bytes) (l : list A) :
  Forall (λ a, reads p (enc a) a) l → reads (read_many (length l) p) (l ≫= enc) l.
Proof.
  induction 1 as [|a l Ha _ IH]; cbn [length read_many]; [apply reads_ret|].
  cbn [mbind list_bind]. eapply reads_bind; [done|].
  rewrite <- (app_nil_r (l ≫= enc)). eapply reads_bind; [done|apply reads_ret].
Qed.

(** *** What a successful read says of the bytes *)

Lemma parser_bind_inv {A B} (p : Parser A) (f : A → Parser B) data c b c' :
  (x ← p; f x) data c = Ok (b, c') → ∃ a c1, p data c = Ok (a, c1) ∧ f a data c1 = Ok (b, c').
Proof. unfold mbind, parser_bind. destruct (p data c) as [[a c1]|e]; [eauto|done]. Qed.

Lemma parser_ret_inv {A} (a b : A) data c c' : (mret a : Parser A) data c = Ok (b, c') → b = a ∧ c' = c.
Proof. unfold mret, parser_ret. naive_solver. Qed.

Lemma ensure_inv e b data c u c' : p_ensure e b data c = Ok (u, c') → b = true ∧ c' = c.
Proof. unfold p_ensure. destruct b; naive_solver. Qed.

(** The parser took the bytes [enc] from the input. *)
Definition took (data : bytes) (c c' : nat) (enc : bytes) : Prop :=
  c ≤ c' ∧ c' ≤ length data ∧ slice c c' data = enc.

Lemma took_app data c1 c2 c3 e1 e2 : took data c1 c2 e1 → took data c2 c3 e2 → took data c1 c3 (e1 ++ e2).
Proof.
  intros (H1 & H2 & <-) (H3 & H4 & <-). split_and!; [lia|lia|]. unfold slice.
  replace (drop c2 data) with (drop (c2 - c1) (drop c1 data)) by (rewrite drop_drop; f_equal; lia).
  replace (c3 - c1) with ((c2 - c1) + (c3 - c2)) by lia. symmetry. apply take_take_drop.
Qed.

Lemma took_nil data c : c ≤ length data → took data c c [].
Proof. intros. split_and!; [lia|done|]. unfold slice. by rewrite Nat.sub_diag. Qed.

Lemma took_le data c c' enc : took data c c' enc → c' ≤ length data.
Proof. by intros (? & ? & ?). Qed.

Lemma read_bytes_inv n data c b c' :
  read_bytes n data c = Ok (b, c') → took data c c' b ∧ length b = n.
Proof.
  unfold read_bytes. destruct (Nat.leb_spec (c + n) (length data)); [|done]. intros [= <- <-].
  split; [by split_and!; try lia|]. rewrite slice_length; lia.
Qed.

Lemma to_from_le_bytes l : to_le_bytes (length l) (from_le_bytes l) = l.
Proof.
  induction l as [|b l IH]; [done|]. cbn [length from_le_bytes to_le_bytes]. pose proof (byte_to_N_lt b). f_equal.
  - apply byte_to_N_inj. rewrite byte_of_to_N.
    rewrite (N.mul_comm 256), N.Div0.mod_add, N.mod_small; [done|lia].
  - etransitivity; [|exact IH]. f_equal. rewrite (N.mul_comm 256), N.div_add, N.div_small by lia. lia.
Qed.

Lemma read_uint_inv k data c v c' :
  read_uint k data c = Ok (v, c') → took data c c' (to_le_bytes k v) ∧ (v < 256 ^ N.of_nat k)%N.
Proof.
  intros (b & c1 & (Hb & <-)%read_bytes_inv & (-> & ->)%parser_ret_inv)%parser_bind_inv.
  rewrite to_from_le_bytes. split; [done|apply from_le_bytes_lt].
Qed.

Lemma read_many_inv {A} (p : Parser A) (enc : A → bytes) (P : A → Prop) n data c l c' :
  (∀ c a c', p data c = Ok (a, c') → took data c c' (enc a) ∧ P a) →
  c ≤ length data → read_many n p data c = Ok (l, c') →
  took data c c' (l ≫= enc) ∧ length l = n ∧ Forall P l.
Proof.
  intros Hp. revert c l c'. induction n as [|n IH]; intros c l c' Hc; cbn [read_many].
  { intros (-> & ->)%parser_ret_inv. by split_and!; [apply took_nil| |]. }
  intros (a & c1 & [Ha HP]%Hp & (l' & c2 & Hl & (-> & ->)%parser_ret_inv)%parser_bind_inv)%parser_bind_inv.
  apply IH in Hl as (Hl & Hlen & HF); [|by eapply took_le].
  split_and!; [by eapply took_app|by cbn; rewrite Hlen|by constructor].
Qed.

#[export] Hint Resolve reads_ret reads_u16 reads_u32 reads_u64 : nntp.
