(* ===== verification/Availability.v ===== *)
(** * Availability: provider slots, missing sets and the identity registry

    Models [src/src/cache/availability.rs] (the bit set of providers that
    answered 430 for an article), [src/src/cache/availability_identity.rs]
    (host identities, slots, the layout of the configured servers and the
    on-disk registry that keeps slots stable across restarts) and the tier
    arithmetic of [src/src/cache/ttl.rs].

    A slot is a bit position, a bit set is a [usize] as an [N].  Servers enter
    the layout through their host name only, so the layout functions take the
    list of hosts.  The file system is what the functions receive: the result
    of reading the registry file, whether publishing it succeeds, and the 64
    bits of a fresh UUID. *)

From stdpp Require Import gmap pretty strings.
From S2P Require Import Prelude Wire.

(** ** Slots and bit sets *)

Definition USIZE_BITS : nat := 64.

Record AvailabilitySlot := mkSlot { slot_index : nat }.

#[global] Instance AvailabilitySlot_eq_dec : EqDecision AvailabilitySlot.
Proof. solve_decision. Defined.

Definition slot_new (i : nat) : option AvailabilitySlot :=
  if i <? USIZE_BITS then Some (mkSlot i) else None.

(** [1usize << self.0] *)
Definition slot_bit (s : AvailabilitySlot) : N := N.shiftl 1 (N.of_nat (slot_index s)).

Abbreviation AvailabilityMask := N (only parsing).

Definition mask_insert (m : AvailabilityMask) (s : AvailabilitySlot) : AvailabilityMask :=
  N.lor m (slot_bit s).

Definition from_slots (slots : list AvailabilitySlot) : AvailabilityMask :=
  foldl mask_insert 0%N slots.

Inductive BackendStatus := Missing | Unknown.

Record ArticleAvailability := mkAvailability { missing_bits : N }.

Definition new_availability : ArticleAvailability := mkAvailability 0.

Definition from_missing_bits (bits : N) : ArticleAvailability := mkAvailability bits.

Definition record_missing_slot (a : ArticleAvailability) (s : AvailabilitySlot)
    : ArticleAvailability :=
  mkAvailability (N.lor (missing_bits a) (slot_bit s)).

Definition is_missing_slot (a : ArticleAvailability) (s : AvailabilitySlot) : bool :=
  negb (N.land (missing_bits a) (slot_bit s) =? 0)%N.

Definition should_try_slot (a : ArticleAvailability) (s : AvailabilitySlot) : bool :=
  negb (is_missing_slot a s).

Definition all_exhausted (a : ArticleAvailability) (configured : AvailabilityMask) : bool :=
  (N.land (missing_bits a) configured =? configured)%N.

Definition has_availability_info (a : ArticleAvailability) : bool := negb (missing_bits a =? 0)%N.

Definition slot_status (a : ArticleAvailability) (s : AvailabilitySlot) : BackendStatus :=
  if negb (N.land (missing_bits a) (slot_bit s) =? 0)%N then Missing else Unknown.

(** ** Tiered time to live *)

Definition MAX_TTL_TIER : N := 63.

Definition capped_tier (tier : N) : N := if (MAX_TTL_TIER <? tier)%N then MAX_TTL_TIER else tier.

Definition effective_ttl (base_ttl tier : N) : N :=
  sat_mul64 base_ttl (N.shiftl 1 (capped_tier tier)).

Definition ttl_multiplier (tier : N) : N := N.shiftl 1 (capped_tier tier).

(** [now] is the clock, [now_millis()]. *)
Definition is_expired (now inserted_at base_ttl tier : N) : bool :=
  (effective_ttl base_ttl tier <=? sat_sub now inserted_at)%N.

(** ** Identities *)

Definition strip_dot (h : bytes) : bytes :=
  match last h with
  | Some x2e => take (length h - 1) h
  | _ => h
  end.

Definition canonicalize_host (h : bytes) : bytes := to_ascii_lowercase <$> strip_dot h.

Definition MAX_REGISTRY_FIELD_BYTES : N := 1024 * 1024.

Definition from_persisted_host (h : bytes) : result WireError bytes :=
  let host := canonicalize_host h in
  if (length host =? 0) || (MAX_REGISTRY_FIELD_BYTES <? N.of_nat (length host))%N
  then Err InvalidLength else Ok host.

(** ** The layout *)

Inductive LayoutEpoch := Derived | Registered (epoch : N).

Record AvailabilityLayout := mkLayout {
  backend_slots : list AvailabilitySlot;
  layout_identities : list bytes;
  layout_mask : AvailabilityMask;
  layout_epoch : LayoutEpoch }.

Definition find_identity (ids : list bytes) (identity : bytes) : option nat :=
  position (λ c, bool_decide (c = identity)) ids.

(** [if !identities.contains(&identity) { identities.push(identity) }] for
    each server. *)
Definition collect_identity (ids : list bytes) (host : bytes) : list bytes :=
  let identity := canonicalize_host host in
  if bool_decide (identity ∈ ids) then ids else ids ++ [identity].

Definition collect_identities (ids : list bytes) (hosts : list bytes) : list bytes :=
  foldl collect_identity ids hosts.

(** The slot of one server; [None] is the error [TooManyIdentities].  The
    source's [expect] on the position never fires ([find_collected]). *)
Definition server_slot (ids : list bytes) (host : bytes) : option AvailabilitySlot :=
  i ← find_identity ids (canonicalize_host host); slot_new i.

Definition from_servers (hosts : list bytes) : result WireError AvailabilityLayout :=
  let ids := collect_identities [] hosts in
  match mapM (server_slot ids) hosts with
  | None => Err TooManyIdentities
  | Some slots =>
      Ok (mkLayout slots ids (from_slots (mkSlot <$> seq 0 (length ids))) Derived)
  end.

(** [AvailabilityLayout::synthetic]; [pretty] is the decimal printing of
    [format!]. *)
Definition synthetic (count : nat) : AvailabilityLayout :=
  let slots := mkSlot <$> seq 0 count in
  mkLayout slots ((λ i, bs ("backend-" +:+ pretty i)) <$> seq 0 count) (from_slots slots) Derived.

Definition slot_for_backend (l : AvailabilityLayout) (backend : nat) : option AvailabilitySlot :=
  backend_slots l !! backend.

Definition slot_for_identity (l : AvailabilityLayout) (identity : bytes) : option AvailabilitySlot :=
  i ← find_identity (layout_identities l) identity; slot_new i.

(** ** The registry file *)

Definition REGISTRY_MAGIC : bytes := bs "ANEGREG2".

Definition write_string (value : bytes) : result WireError bytes :=
  if (MAX_REGISTRY_FIELD_BYTES <? N.of_nat (length value))%N then Err InvalidLength
  else Ok (to_le_bytes 4 (N.of_nat (length value)) ++ value).

(** The bytes [publish_registry] writes. *)
Definition registry_bytes (epoch : N) (ids : list bytes) : result WireError bytes :=
  fields ← mapM write_string ids;
  mret (REGISTRY_MAGIC ++ to_le_bytes 8 epoch ++ to_le_bytes 8 (N.of_nat (length ids)) ++ mjoin fields).

Definition read_registry_string : Parser bytes :=
  length ← read_u32;
  _ ← p_ensure InvalidLength (negb ((length =? 0) || (MAX_REGISTRY_FIELD_BYTES <? length))%N);
  b ← read_bytes (N.to_nat length);
  _ ← p_ensure InvalidUtf8 (utf8_valid b);
  mret b.

Definition lift {A} (r : result WireError A) : Parser A := λ _ cursor,
  match r with Ok a => Ok (a, cursor) | Err e => Err e end.

(** The loop over the declared identities. *)
Fixpoint read_registry_identities (count : nat) (ids : list bytes) : Parser (list bytes) :=
  match count with
  | 0 => mret ids
  | S count =>
      host ← read_registry_string;
      identity ← lift (from_persisted_host host);
      _ ← p_ensure DuplicateIdentity (negb (bool_decide (identity ∈ ids)));
      read_registry_identities count (ids ++ [identity])
  end.

Definition parse_registry (data : bytes) : result WireError (list bytes * N) :=
  if (length data <? length REGISTRY_MAGIC + 2 * 8)
     || negb (bool_decide (take (length REGISTRY_MAGIC) data = REGISTRY_MAGIC))
  then Err InvalidFormat
  else
    '(epoch, cursor) ← read_u64 data (length REGISTRY_MAGIC);
    _ ← ensure InvalidEpoch (negb (epoch =? 0)%N);
    '(count, cursor) ← read_u64 data cursor;
    _ ← ensure TooManyIdentities (count <=? N.of_nat USIZE_BITS)%N;
    '(ids, cursor) ← read_registry_identities (N.to_nat count) [] data cursor;
    _ ← ensure TrailingBytes (cursor =? length data);
    Ok (ids, epoch).

(** What [fs::read] of the registry file gave. *)
Inductive RegistryFile := FileData (data : bytes) | FileNotFound | FileError.

Inductive RegistryError := RegistryIo | RegistryWire (e : WireError).

Definition load_registry (file : RegistryFile) : result RegistryError (option (list bytes * N)) :=
  match file with
  | FileData data => Ok (match parse_registry data with Ok r => Some r | Err _ => None end)
  | FileNotFound => Ok None
  | FileError => Err RegistryIo
  end.

(** The layout, and the bytes published when the registry changed ([changed]
    is set where an identity is pushed, that is when the table grew). *)
Definition from_hybrid_registry (hosts : list bytes) (file : RegistryFile) (uuid_low : N)
    (publishes : bool) : result RegistryError (AvailabilityLayout * option bytes) :=
  loaded ← load_registry file;
  let '(ids0, epoch) :=
    match loaded with
    | Some r => r
    | None => ([], if (uuid_low =? 0)%N then 1%N else uuid_low)
    end in
  let ids := collect_identities ids0 hosts in
  let changed := bool_decide (loaded = None) || negb (length ids =? length ids0) in
  if USIZE_BITS <? length ids then Err (RegistryWire TooManyIdentities)
  else
    published ←
      (if changed then
         data ← map_err RegistryWire (registry_bytes epoch ids);
         if publishes then Ok (Some data) else Err RegistryIo
       else Ok None);
    match mapM (server_slot ids) hosts with
    | None => Err (RegistryWire TooManyIdentities)
    | Some slots => Ok (mkLayout slots ids (from_slots slots) (Registered epoch), published)
    end.

(** ** Bit sets as sets of slots *)

Definition slots_of (bits : N) : gset nat :=
  list_to_set (filter (λ i, N.testbit bits (N.of_nat i) = true) (seq 0 USIZE_BITS)).
#[global] Arguments slots_of : simpl never.

Lemma elem_of_slots_of i bits :
  i ∈ slots_of bits ↔ i < USIZE_BITS ∧ N.testbit bits (N.of_nat i) = true.
Proof.
  unfold slots_of. rewrite elem_of_list_to_set, list_elem_of_filter, elem_of_seq. intuition lia.
Qed.

Lemma slot_bit_testbit s i : N.testbit (slot_bit s) i = (i =? N.of_nat (slot_index s))%N.
Proof. unfold slot_bit. rewrite N.shiftl_1_l, N.pow2_bits_eqb. apply N.eqb_sym. Qed.

Lemma land_slot_bit bits s :
  negb (N.land bits (slot_bit s) =? 0)%N = N.testbit bits (N.of_nat (slot_index s)).
Proof.
  destruct (N.testbit bits _) eqn:E.
  - apply negb_true_iff, N.eqb_neq. intros H.
    apply (f_equal (λ n, N.testbit n (N.of_nat (slot_index s)))) in H.
    by rewrite N.land_spec, E, slot_bit_testbit, N.eqb_refl, N.bits_0 in H.
  - apply negb_false_iff, N.eqb_eq, N.bits_inj_0. intros i. rewrite N.land_spec, slot_bit_testbit.
    destruct (N.eqb_spec i (N.of_nat (slot_index s))) as [->|]; [by rewrite E|apply andb_false_r].
Qed.

Lemma u64_testbit n i : u64_ok n → (64 <= i)%N → N.testbit n i = false.
Proof.
  intros Hn Hi. destruct (decide (n = 0%N)) as [->|]; [apply N.bits_0|].
  apply N.bits_above_log2. apply N.log2_lt_pow2 in Hn; lia.
Qed.

Lemma u64_lor a b : u64_ok a → u64_ok b → u64_ok (N.lor a b).
Proof.
  intros Ha Hb. unfold u64_ok. destruct (decide (N.lor a b = 0%N)) as [->|H0]; [done|].
  apply N.log2_lt_pow2; [lia|]. rewrite N.log2_lor.
  assert (∀ n, u64_ok n → (N.log2 n < 64)%N) as Hl.
  { intros n Hn. destruct (decide (n = 0%N)) as [->|]; [done|]. apply N.log2_lt_pow2; [lia|done]. }
  pose proof (Hl a Ha). pose proof (Hl b Hb). lia.
Qed.

Lemma u64_slot_bit s : slot_index s < USIZE_BITS → u64_ok (slot_bit s).
Proof.
  intros H. unfold u64_ok, slot_bit, USIZE_BITS in *. rewrite N.shiftl_1_l.
  apply N.pow_lt_mono_r; lia.
Qed.

Lemma slots_of_lor a b : slots_of (N.lor a b) = slots_of a ∪ slots_of b.
Proof.
  apply set_eq. intros i. rewrite elem_of_union, !elem_of_slots_of, N.lor_spec, orb_true_iff. tauto.
Qed.

Lemma slots_of_slot_bit s : slot_index s < USIZE_BITS → slots_of (slot_bit s) = {[ slot_index s ]}.
Proof.
  intros H. apply set_eq. intros i. rewrite elem_of_slots_of, elem_of_singleton, slot_bit_testbit, N.eqb_eq.
  lia.
Qed.

(** Exhaustion is inclusion of the configured slots. *)
Lemma all_exhausted_subset a m :
  u64_ok m → all_exhausted a m = true ↔ slots_of m ⊆ slots_of (missing_bits a).
Proof.
  intros Hm. unfold all_exhausted. rewrite N.eqb_eq. split.
  - intros H i. rewrite !elem_of_slots_of. intros [Hi Hb]. split; [done|].
    rewrite <- H, N.land_spec in Hb. by apply andb_true_iff in Hb as [? _].
  - intros H. apply N.bits_inj. intros i. rewrite N.land_spec.
    destruct (N.testbit m i) eqn:E; [|apply andb_false_r]. rewrite andb_true_r.
    destruct (N.le_gt_cases 64 i) as [Hi|Hi]; [by rewrite u64_testbit in E|].
    destruct (proj1 (elem_of_slots_of (N.to_nat i) (missing_bits a))) as [_ Hb].
    { apply H, elem_of_slots_of. rewrite N2Nat.id. split; [unfold USIZE_BITS; lia|done]. }
    by rewrite N2Nat.id in Hb.
Qed.

Lemma should_try_not_missing a s :
  slot_index s < USIZE_BITS →
  should_try_slot a s = false ↔ slot_index s ∈ slots_of (missing_bits a).
Proof.
  intros H. unfold should_try_slot, is_missing_slot. rewrite land_slot_bit, negb_false_iff, elem_of_slots_of.
  tauto.
Qed.

Lemma from_slots_slots (l : list AvailabilitySlot) m :
  Forall (λ s, slot_index s < USIZE_BITS) l → u64_ok m →
  u64_ok (foldl mask_insert m l) ∧
  slots_of (foldl mask_insert m l) = slots_of m ∪ list_to_set (slot_index <$> l).
Proof.
  intros Hl. revert m. induction Hl as [|s l Hs _ IH]; intros m Hm; cbn [foldl].
  { split; [done|]. cbn. set_solver. }
  destruct (IH (mask_insert m s)) as [H1 H2].
  { apply u64_lor; [done|by apply u64_slot_bit]. }
  split; [done|]. rewrite H2. unfold mask_insert. rewrite slots_of_lor, slots_of_slot_bit by done.
  cbn. by rewrite (assoc_L (∪)).
Qed.

(** ** Layout lemmas *)

Lemma find_identity_Some ids x i : find_identity ids x = Some i → ids !! i = Some x.
Proof.
  unfold find_identity. intros H. apply position_Some in H as [(y & Hy & Hd) _].
  apply bool_decide_eq_true in Hd. by subst y.
Qed.

Lemma find_identity_elem ids x : x ∈ ids → is_Some (find_identity ids x).
Proof.
  intros Hx. destruct (find_identity ids x) eqn:E; [done|].
  apply position_None in E. rewrite Forall_forall in E. apply E in Hx.
  by apply bool_decide_eq_false in Hx.
Qed.

Lemma find_identity_NoDup ids x i :
  NoDup ids → ids !! i = Some x → find_identity ids x = Some i.
Proof.
  intros Hn Hi. destruct (find_identity_elem ids x) as [j Hj]; [by eapply list_elem_of_lookup_2|].
  rewrite Hj. f_equal. eapply NoDup_lookup; [done| |done]. by apply find_identity_Some.
Qed.

Lemma collect_spec hosts ids :
  let ids' := collect_identities ids hosts in
  ids `prefix_of` ids' ∧ (NoDup ids → NoDup ids') ∧
  (∀ x, x ∈ ids' ↔ x ∈ ids ∨ x ∈ canonicalize_host <$> hosts).
Proof.
  revert ids. induction hosts as [|h hosts IH]; intros ids; cbn.
  { split_and!; [done|done|]. intros x. rewrite elem_of_nil. tauto. }
  destruct (IH (collect_identity ids h)) as (Hp & Hn & He). unfold collect_identity in *.
  case_bool_decide as Hin.
  - split_and!; [done|done|]. intros x. rewrite He, elem_of_cons. set_solver.
  - split_and!.
    + etrans; [|exact Hp]. by apply prefix_app_r.
    + intros Hnd. apply Hn, NoDup_app. split_and!; [done|set_solver|apply NoDup_singleton].
    + intros x. rewrite He, elem_of_cons, elem_of_app, list_elem_of_singleton. tauto.
Qed.

(** The source's [expect("identity was collected above")] never fires. *)
Lemma find_collected hosts ids h :
  h ∈ hosts → is_Some (find_identity (collect_identities ids hosts) (canonicalize_host h)).
Proof.
  intros Hh. apply find_identity_elem. apply (collect_spec hosts ids). right. by apply list_elem_of_fmap_2.
Qed.

Lemma slot_new_Some i s : slot_new i = Some s ↔ s = mkSlot i ∧ i < USIZE_BITS.
Proof.
  unfold slot_new. destruct (Nat.ltb_spec i USIZE_BITS); split; intros; destruct_and?; simplify_eq;
    intuition lia.
Qed.

Lemma server_slot_Some ids h s :
  server_slot ids h = Some s ↔
  find_identity ids (canonicalize_host h) = Some (slot_index s) ∧ slot_index s < USIZE_BITS.
Proof.
  unfold server_slot. rewrite bind_Some. setoid_rewrite slot_new_Some. split.
  - by intros (i & H & -> & ?).
  - intros [H ?]. exists (slot_index s). by destruct s.
Qed.

(** What both constructors establish. *)
Record layout_ok (hosts : list bytes) (l : AvailabilityLayout) : Prop := {
  ok_nodup : NoDup (layout_identities l);
  ok_count : length (layout_identities l) ≤ USIZE_BITS;
  ok_slots : Forall2 (λ h s, server_slot (layout_identities l) h = Some s) hosts (backend_slots l);
  ok_mask64 : u64_ok (layout_mask l);
  ok_mask : slots_of (layout_mask l) = list_to_set (slot_index <$> backend_slots l) }.

Lemma slots_bounded ids hosts slots :
  Forall2 (λ h s, server_slot ids h = Some s) hosts slots →
  Forall (λ s, slot_index s < USIZE_BITS) slots.
Proof. induction 1 as [|h s hosts slots H]; constructor; [by apply server_slot_Some in H as [_ ?]|done]. Qed.

Lemma mask_of_slots slots :
  Forall (λ s, slot_index s < USIZE_BITS) slots →
  u64_ok (from_slots slots) ∧ slots_of (from_slots slots) = list_to_set (slot_index <$> slots).
Proof.
  intros H. destruct (from_slots_slots slots 0%N H) as [H1 H2]; [done|]. split; [done|].
  unfold from_slots. rewrite H2. assert (slots_of 0%N = ∅) as ->; [|by rewrite (left_id_L ∅ (∪))].
  apply set_eq. intros i. rewrite elem_of_slots_of, N.bits_0. set_solver.
Qed.

(** From [Vec::new()], every identity belongs to a server. *)
Lemma collected_used hosts slots :
  Forall2 (λ h s, server_slot (collect_identities [] hosts) h = Some s) hosts slots →
  ∀ i, i ∈ slot_index <$> slots ↔ i < length (collect_identities [] hosts).
Proof.
  set (ids := collect_identities [] hosts). intros HF i.
  destruct (collect_spec hosts []) as (_ & Hn & He). fold ids in Hn, He. split.
  - intros (s & -> & Hs)%list_elem_of_fmap. apply list_elem_of_lookup in Hs as [j Hj].
    destruct (Forall2_lookup_r _ _ _ _ _ HF Hj) as (h & _ & Hs).
    apply server_slot_Some in Hs as [Hs _]. by eapply position_lt.
  - intros Hi. destruct (lookup_lt_is_Some_2 ids i Hi) as [x Hx].
    destruct (proj1 (He x)) as [[]%elem_of_nil|Hin]; [by eapply list_elem_of_lookup_2|].
    apply list_elem_of_fmap in Hin as (h & -> & Hh). apply list_elem_of_lookup in Hh as [j Hj].
    destruct (Forall2_lookup_l _ _ _ _ _ HF Hj) as (s & Hs & Hss).
    apply server_slot_Some in Hss as [Hss _].
    rewrite (find_identity_NoDup ids _ i) in Hss by (try done; apply Hn, NoDup_nil_2).
    injection Hss as ->. apply list_elem_of_fmap_2. by eapply list_elem_of_lookup_2.
Qed.

Lemma from_servers_ok hosts l : from_servers hosts = Ok l → layout_ok hosts l.
Proof.
  unfold from_servers. destruct (mapM _ _) as [slots|] eqn:E; [|done]. intros [= <-].
  apply mapM_Some in E. pose proof (slots_bounded _ _ _ E) as Hb.
  pose proof (collected_used hosts slots E) as Hu.
  set (ids := collect_identities [] hosts) in *.
  assert (length ids ≤ USIZE_BITS) as Hc.
  { destruct (decide (length ids ≤ USIZE_BITS)) as [|Hgt]; [done|exfalso].
    destruct (proj1 (list_elem_of_fmap slot_index slots USIZE_BITS)) as (s & Hs & Hin); [apply Hu; lia|].
    rewrite Forall_forall in Hb. apply Hb in Hin. lia. }
  destruct (mask_of_slots (mkSlot <$> seq 0 (length ids))) as [H1 H2].
  { apply Forall_fmap, Forall_seq. cbn. lia. }
  constructor; cbn; [apply collect_spec, NoDup_nil_2|done|done|done|].
  rewrite H2. apply set_eq. intros i. rewrite !elem_of_list_to_set, Hu.
  rewrite <- list_fmap_compose, list_fmap_id, elem_of_seq. lia.
Qed.

Lemma from_servers_total hosts :
  from_servers hosts = Err TooManyIdentities ↔ USIZE_BITS < length (collect_identities [] hosts).
Proof.
  destruct (from_servers hosts) as [l|e] eqn:E.
  - split; [done|]. pose proof (ok_count _ _ (from_servers_ok _ _ E)) as Hc.
    unfold from_servers in E. case_match; [|done]. simplify_eq/=. lia.
  - unfold from_servers in E. destruct (mapM _ _) eqn:Em; [done|]. simplify_eq. split; [intros _|done].
    apply mapM_None_1, Exists_exists in Em as (h & Hh & Hs).
    destruct (find_collected hosts [] h Hh) as [i Hi]. unfold server_slot in Hs. rewrite Hi in Hs. cbn in Hs.
    unfold slot_new in Hs. destruct (Nat.ltb_spec i USIZE_BITS); [done|].
    apply position_lt in Hi. lia.
Qed.

Lemma mapM_server_slot hosts ids0 :
  let ids := collect_identities ids0 hosts in
  length ids ≤ USIZE_BITS → is_Some (mapM (server_slot ids) hosts).
Proof.
  cbn zeta. intros Hl. apply mapM_is_Some, Forall_forall. intros h Hh.
  destruct (find_collected hosts ids0 h Hh) as [i Hi].
  exists (mkSlot i). apply server_slot_Some. split; [done|]. apply position_lt in Hi. cbn. lia.
Qed.

(** The registry that a start begins with. *)
Definition start_registry (file : RegistryFile) (uuid_low : N) : list bytes * N :=
  match load_registry file with
  | Ok (Some r) => r
  | _ => ([], if (uuid_low =? 0)%N then 1%N else uuid_low)
  end.

(** One start: the layout and what it published. *)
Lemma from_hybrid_registry_inv hosts file u p l pub :
  from_hybrid_registry hosts file u p = Ok (l, pub) →
  let '(ids0, e) := start_registry file u in
  let ids := collect_identities ids0 hosts in
  layout_identities l = ids ∧ layout_epoch l = Registered e ∧ length ids ≤ USIZE_BITS ∧
  Forall2 (λ h s, server_slot ids h = Some s) hosts (backend_slots l) ∧
  layout_mask l = from_slots (backend_slots l) ∧
  match pub with
  | Some d => registry_bytes e ids = Ok d
  | None => load_registry file = Ok (Some (ids0, e)) ∧ ids = ids0
  end.
Proof.
  unfold from_hybrid_registry, start_registry.
  destruct (load_registry file) as [loaded|]; [|done].
  cbn [mbind result_bind].
  set (start := match loaded with Some r => r | None => _ end). destruct start as [ids0 e] eqn:Es.
  subst start. set (ids := collect_identities ids0 hosts).
  destruct (Nat.ltb_spec USIZE_BITS (length ids)) as [|Hl]; [done|].
  destruct (mapM_server_slot hosts ids0 Hl) as [slots Hs]. fold ids in Hs. rewrite Hs.
  apply mapM_Some in Hs.
  destruct (bool_decide (loaded = None) || negb (length ids =? length ids0)) eqn:Hc; cbn.
  - destruct (registry_bytes e ids) as [d|] eqn:Hd; [|done]. cbn. destruct p; [|done]. cbn.
    intros [= <- <-]. destruct loaded; by simplify_eq.
  - intros [= <- <-]. reflect_bools. destruct loaded as [[]|]; [|done]. simplify_eq.
    split_and!; try done. symmetry. eapply prefix_length_eq; [|by rewrite H0].
    apply collect_spec.
Qed.

(** ** The registry round trip *)

(** An identity that persists: what the registry accepts and gives back. *)
Definition id_ok (x : bytes) : Prop :=
  canonicalize_host x = x ∧ x ≠ [] ∧ (N.of_nat (length x) ≤ MAX_REGISTRY_FIELD_BYTES)%N ∧
  utf8_valid x = true.

Definition string_bytes (x : bytes) : bytes := to_le_bytes 4 (N.of_nat (length x)) ++ x.

Lemma write_string_ok x : id_ok x → write_string x = Ok (string_bytes x).
Proof.
  intros (_ & _ & Hl & _). unfold write_string.
  by rewrite (proj2 (N.ltb_ge _ _)) by done.
Qed.

Lemma reads_string x : id_ok x → reads read_registry_string (string_bytes x) x.
Proof.
  intros (_ & Hne & Hl & Hu). unfold read_registry_string, string_bytes.
  eapply reads_bind.
  { apply reads_u32. unfold MAX_REGISTRY_FIELD_BYTES in Hl. lia. }
  rewrite (proj2 (N.eqb_neq _ _)) by (destruct x; [done|cbn; lia]).
  rewrite (proj2 (N.ltb_ge _ _)) by done. apply reads_ensure.
  rewrite <- (app_nil_r x) at 2. eapply reads_bind; [apply reads_read_bytes; by rewrite Nat2N.id|].
  rewrite Hu. apply reads_ensure, reads_ret.
Qed.

Lemma reads_registry_identities ids acc :
  Forall id_ok ids → NoDup (acc ++ ids) →
  reads (read_registry_identities (length ids) acc) (ids ≫= string_bytes) (acc ++ ids).
Proof.
  intros Hids. revert acc. induction Hids as [|x ids Hx _ IH]; intros acc Hn.
  { rewrite app_nil_r. apply reads_ret. }
  cbn [length read_registry_identities]. change ((x :: ids) ≫= string_bytes)
    with (string_bytes x ++ (ids ≫= string_bytes)).
  eapply reads_bind; [by apply reads_string|].
  pose proof Hx as (Hc & Hne & Hl & _). unfold from_persisted_host. rewrite Hc.
  destruct (Nat.eqb_spec (length x) 0) as [E|_]; [by destruct x|].
  rewrite (proj2 (N.ltb_ge _ _)) by done. cbn [orb].
  apply (reads_bind _ _ [] _ x); [intros pre post; cbn; do 2 f_equal; lia|].
  rewrite bool_decide_false.
  2:{ apply NoDup_app in Hn as (_ & Hd & _). intros Hin. apply (Hd x Hin). set_solver. }
  apply reads_ensure. replace (acc ++ x :: ids) with ((acc ++ [x]) ++ ids) in * by by rewrite <- (assoc_L (++)).
  by apply IH.
Qed.

Lemma registry_bytes_ok e ids :
  Forall id_ok ids →
  registry_bytes e ids =
    Ok (REGISTRY_MAGIC ++ to_le_bytes 8 e ++ to_le_bytes 8 (N.of_nat (length ids)) ++ (ids ≫= string_bytes)).
Proof.
  intros Hids. unfold registry_bytes.
  assert (mapM write_string ids = Ok (string_bytes <$> ids)) as ->.
  { induction Hids as [|x ids Hx _ IH]; [done|]. cbn. rewrite write_string_ok by done. cbn. by rewrite IH. }
  cbn [mbind result_bind]. unfold mret, result_ret. do 5 f_equal. clear Hids.
  induction ids as [|x ids IH]; [done|].
  change (string_bytes x ++ mjoin (string_bytes <$> ids) = string_bytes x ++ (ids ≫= string_bytes)).
  by rewrite IH.
Qed.

Lemma registry_roundtrip e ids d :
  e ≠ 0%N → u64_ok e → Forall id_ok ids → NoDup ids → length ids ≤ USIZE_BITS →
  registry_bytes e ids = Ok d → parse_registry d = Ok (ids, e).
Proof.
  intros He He64 Hids Hn Hl Hd. rewrite registry_bytes_ok in Hd by done.
  apply Ok_inj in Hd. subst d.
  set (body := ids ≫= string_bytes). set (cnt := N.of_nat (length ids)).
  assert ((cnt <= N.of_nat USIZE_BITS)%N) as Hc by (subst cnt; lia).
  unfold parse_registry. rewrite take_app_length, bool_decide_true by done. cbn [negb].
  rewrite orb_false_r, (proj2 (Nat.ltb_ge _ _)).
  2:{ rewrite !length_app, !length_to_le_bytes. lia. }
  pose proof (reads_u64 e He64 REGISTRY_MAGIC (to_le_bytes 8 cnt ++ body)) as R1. rewrite R1. cbn [mbind result_bind].
  rewrite (proj2 (N.eqb_neq _ _)) by done. cbn [ensure negb mbind result_bind].
  pose proof (reads_u64 cnt ltac:(unfold USIZE_BITS in Hc; lia) (REGISTRY_MAGIC ++ to_le_bytes 8 e) body) as R2.
  rewrite <- !(assoc_L (++)), length_app in R2. rewrite R2. cbn [mbind result_bind].
  rewrite (proj2 (N.leb_le _ _)) by done. cbn [ensure mbind result_bind].
  pose proof (reads_registry_identities ids [] Hids Hn
    (REGISTRY_MAGIC ++ to_le_bytes 8 e ++ to_le_bytes 8 cnt) []) as R3.
  rewrite app_nil_r, <- !(assoc_L (++)), !length_app, app_nil_l, Nat.add_assoc in R3.
  unfold cnt at 2. rewrite Nat2N.id. fold cnt body in R3 |- *. rewrite R3. cbn [mbind result_bind].
  rewrite (proj2 (Nat.eqb_eq _ _)); [done|]. rewrite !length_app. lia.
Qed.

Lemma read_registry_identities_spec count ids data c ids' c' :
  read_registry_identities count ids data c = Ok (ids', c') →
  NoDup ids → NoDup ids' ∧ length ids' = length ids + count.
Proof.
  revert ids c. induction count as [|count IH]; intros ids c; cbn [read_registry_identities].
  { intros [= <- <-]. split; [done|lia]. }
  unfold mbind, parser_bind, lift, p_ensure.
  destruct (read_registry_string data c) as [[h c1]|]; [|done].
  destruct (from_persisted_host h) as [x|]; [|done].
  destruct (bool_decide (x ∈ ids)) eqn:Hx; [done|]. cbn [negb]. reflect_bools.
  intros H Hn. destruct (IH _ _ H) as [H1 H2].
  { apply NoDup_app. split_and!; [done|set_solver|apply NoDup_singleton]. }
  split; [done|]. rewrite H2. len.
Qed.

Lemma read_uint_lt k data c v c' :
  read_uint k data c = Ok (v, c') → (v < 256 ^ N.of_nat k)%N.
Proof.
  unfold read_uint, mbind, parser_bind, read_bytes.
  destruct (Nat.leb_spec (c + k) (length data)); [|done]. intros [= <- <-].
  eapply N.lt_le_trans; [apply from_le_bytes_lt|]. apply N.pow_le_mono_r; [done|].
  rewrite slice_length by lia. lia.
Qed.

Lemma parse_registry_spec data ids e :
  parse_registry data = Ok (ids, e) →
  NoDup ids ∧ length ids ≤ USIZE_BITS ∧ e ≠ 0%N ∧ u64_ok e.
Proof.
  unfold parse_registry. destruct (_ || _); [done|]. unfold mbind, result_bind, ensure.
  destruct (read_u64 data _) as [[e' c1]|] eqn:He; [|done].
  destruct (N.eqb_spec e' 0) as [|Hz]; [done|]. cbn [negb].
  destruct (read_u64 data c1) as [[n c2]|]; [|done].
  destruct (N.leb_spec n (N.of_nat USIZE_BITS)) as [Hn|]; [|done].
  destruct (read_registry_identities _ _ _ _) as [[ids' c3]|] eqn:Hi; [|done].
  destruct (c3 =? length data); [|done]. intros [= <- <-].
  destruct (read_registry_identities_spec _ _ _ _ _ _ Hi) as [H1 H2]; [apply NoDup_nil_2|].
  apply read_uint_lt in He. split_and!; [done| |done|done]. rewrite H2. cbn. lia.
Qed.

(** The state of the registry file after a start. *)
Definition after_start (file : RegistryFile) (published : option bytes) : RegistryFile :=
  match published with Some d => FileData d | None => file end.

Definition file_ok (file : RegistryFile) : Prop :=
  match load_registry file with
  | Ok (Some (ids, _)) => Forall id_ok ids
  | _ => True
  end.

Lemma start_registry_ok file u :
  u64_ok u → file_ok file →
  let '(ids, e) := start_registry file u in
  NoDup ids ∧ Forall id_ok ids ∧ e ≠ 0%N ∧ u64_ok e.
Proof.
  intros Hu. unfold file_ok, start_registry.
  destruct (load_registry file) as [[[ids e]|]|] eqn:E.
  2,3: intros _; split_and!; [apply NoDup_nil_2|constructor| |]; destruct (N.eqb_spec u 0); done.
  intros Hids. destruct file as [data| |]; cbn in E; simplify_eq.
  destruct (parse_registry data) as [[]|] eqn:Hp; simplify_eq.
  apply parse_registry_spec in Hp. tauto.
Qed.

Lemma collect_ids_ok hosts ids :
  Forall id_ok ids → Forall (λ h, id_ok (canonicalize_host h)) hosts →
  Forall id_ok (collect_identities ids hosts).
Proof.
  intros Hi Hh. apply Forall_forall. intros x Hx. apply collect_spec in Hx as [Hx|Hx].
  - by eapply Forall_forall in Hi.
  - apply list_elem_of_fmap in Hx as (h & -> & Hin). by eapply Forall_forall in Hh.
Qed.

(** What a start leaves on disk is the table of the layout it runs with. *)
Lemma start_persists hosts file u p l pub :
  u64_ok u → file_ok file → Forall (λ h, id_ok (canonicalize_host h)) hosts →
  from_hybrid_registry hosts file u p = Ok (l, pub) →
  file_ok (after_start file pub) ∧ layout_ok hosts l ∧
  ∃ e, layout_epoch l = Registered e ∧
       load_registry (after_start file pub) = Ok (Some (layout_identities l, e)).
Proof.
  intros Hu Hf Hh H. apply from_hybrid_registry_inv in H. pose proof (start_registry_ok file u Hu Hf) as Hs.
  destruct (start_registry file u) as [ids0 e]. destruct Hs as (Hn & Hids & He0 & He).
  destruct H as (Hi & Hep & Hl & Hsl & Hm & Hpub).
  pose proof (collect_spec hosts ids0) as (_ & Hnd & _).
  pose proof (collect_ids_ok hosts ids0 Hids Hh) as Hok.
  destruct (mask_of_slots (backend_slots l)) as [Hm1 Hm2]; [by eapply slots_bounded|].
  assert (load_registry (after_start file pub) = Ok (Some (layout_identities l, e))) as Hload.
  { rewrite Hi. destruct pub as [d|]; cbn.
    - rewrite (registry_roundtrip e (collect_identities ids0 hosts)); try done. by apply Hnd.
    - destruct Hpub as [-> ->]. done. }
  split_and!.
  - unfold file_ok. rewrite Hload. by rewrite Hi.
  - constructor; rewrite ?Hi, ?Hm; auto.
  - by exists e.
Qed.

Lemma start_registry_nodup file u : NoDup (start_registry file u).1.
Proof.
  unfold start_registry. destruct (load_registry file) as [[[ids e]|]|] eqn:E; try apply NoDup_nil_2.
  destruct file as [data| |]; cbn in E; simplify_eq.
  destruct (parse_registry data) as [[]|] eqn:Hp; simplify_eq. by apply parse_registry_spec in Hp as [? _].
Qed.

Lemma from_hybrid_registry_ok hosts file u p l pub :
  from_hybrid_registry hosts file u p = Ok (l, pub) → layout_ok hosts l.
Proof.
  intros H. apply from_hybrid_registry_inv in H. pose proof (start_registry_nodup file u) as Hn.
  destruct (start_registry file u) as [ids0 e]. destruct H as (Hi & _ & Hl & Hsl & Hm & _).
  destruct (mask_of_slots (backend_slots l)) as [Hm1 Hm2]; [by eapply slots_bounded|].
  constructor; rewrite ?Hi, ?Hm; try done. by apply collect_spec.
Qed.

(** The layouts the proxy runs with. *)
Definition layout_built (hosts : list bytes) (l : AvailabilityLayout) : Prop :=
  from_servers hosts = Ok l ∨
  ∃ file uuid_low publishes published,
    from_hybrid_registry hosts file uuid_low publishes = Ok (l, published).

Lemma layout_built_ok hosts l : layout_built hosts l → layout_ok hosts l.
Proof.
  intros [H|(f & u & p & pub & H)]; [by apply from_servers_ok|by eapply from_hybrid_registry_ok].
Qed.

(** ** Properties *)

(** The bit set of an article is a set of slots: recording a miss inserts
    the slot (and stays a 64-bit word), the membership tests and the status
    are membership, and exhaustion of a mask of configured slots is inclusion
    of that mask. *)
Theorem availability_is_a_set (a : ArticleAvailability) (s : AvailabilitySlot) (m : AvailabilityMask) :
  slot_index s < USIZE_BITS → u64_ok (missing_bits a) → u64_ok m →
  u64_ok (missing_bits (record_missing_slot a s)) ∧
  slots_of (missing_bits (record_missing_slot a s)) = {[ slot_index s ]} ∪ slots_of (missing_bits a) ∧
  slots_of (missing_bits new_availability) = ∅ ∧
  is_missing_slot a s = bool_decide (slot_index s ∈ slots_of (missing_bits a)) ∧
  (slot_status a s = Missing ↔ slot_index s ∈ slots_of (missing_bits a)) ∧
  (has_availability_info a = true ↔ slots_of (missing_bits a) ≠ ∅) ∧
  (all_exhausted a m = true ↔ slots_of m ⊆ slots_of (missing_bits a)).
Proof.
  intros Hs Ha Hm. split_and!.
  - apply u64_lor; [done|by apply u64_slot_bit].
  - cbn. rewrite slots_of_lor, slots_of_slot_bit by done. apply (comm_L (∪)).
  - apply set_eq. intros i. rewrite elem_of_slots_of, N.bits_0. set_solver.
  - unfold is_missing_slot. rewrite land_slot_bit. apply eq_bool_prop_intro.
    rewrite bool_decide_spec, elem_of_slots_of, Is_true_true. tauto.
  - unfold slot_status. rewrite land_slot_bit, elem_of_slots_of. case_match; intuition congruence.
  - unfold has_availability_info. rewrite negb_true_iff, N.eqb_neq. split.
    + intros Hne He. apply Hne, N.bits_inj_0. intros i.
      destruct (N.le_gt_cases 64 i); [by apply u64_testbit|].
      destruct (N.testbit (missing_bits a) i) eqn:E; [|done].
      assert (N.to_nat i ∈ slots_of (missing_bits a)) as Hin; [|rewrite He in Hin; set_solver].
      apply elem_of_slots_of. rewrite N2Nat.id. split; [unfold USIZE_BITS; lia|done].
    + intros Hne E. apply Hne, set_eq. intros i. rewrite E, elem_of_slots_of, N.bits_0. set_solver.
  - by apply all_exhausted_subset.
Qed.

Lemma availability_is_a_set_witness :
  u64_ok (missing_bits (record_missing_slot (mkAvailability 5) (mkSlot 63))).
Proof.
  apply (availability_is_a_set (mkAvailability 5) (mkSlot 63) 1%N);
    [unfold USIZE_BITS; cbn; lia| |]; apply (bool_decide_unpack _); vm_compute; exact I.
Defined.

(** In a layout built from the configured servers, an article is exhausted
    exactly when no configured backend is left to try: the proxy answers 430
    neither early nor late, whatever hosts are shared between servers and
    whatever other identities the registry remembers. *)
Theorem exhausted_iff_no_backend_left hosts l (a : ArticleAvailability) :
  layout_built hosts l →
  all_exhausted a (layout_mask l) = true ↔
  ∀ backend s, slot_for_backend l backend = Some s → should_try_slot a s = false.
Proof.
  intros Hb. destruct (layout_built_ok _ _ Hb) as [_ _ Hs Hm Hset].
  rewrite all_exhausted_subset, Hset by done.
  pose proof (slots_bounded _ _ _ Hs) as Hbound. split.
  - intros H b s Hl. apply should_try_not_missing.
    + by eapply (Forall_lookup_1 _ _ _ _ Hbound).
    + apply H, elem_of_list_to_set, list_elem_of_fmap_2. by eapply list_elem_of_lookup_2.
  - intros H i. rewrite elem_of_list_to_set. intros (s & -> & Hin)%list_elem_of_fmap.
    apply list_elem_of_lookup in Hin as [b Hl].
    apply should_try_not_missing; [by eapply (Forall_lookup_1 _ _ _ _ Hbound)|by eapply H].
Qed.

Lemma exhausted_iff_no_backend_left_witness :
  ∃ l, from_servers [bs "news.a.example"; bs "NEWS.A.example."; bs "b.example"] = Ok l ∧
       all_exhausted (mkAvailability 3) (layout_mask l) = true ∧
       all_exhausted (mkAvailability 1) (layout_mask l) = false.
Proof.
  eexists. split; [reflexivity|]. split; [|reflexivity].
  apply (exhausted_iff_no_backend_left [bs "news.a.example"; bs "NEWS.A.example."; bs "b.example"]).
  - left. reflexivity.
  - intros [|[|[|b]]] s [= <-]; reflexivity.
Defined.

(** Servers share a slot exactly when their hosts are the same name up to
    case and one trailing dot; the slot of a server is the slot of its
    identity, below 64; and [from_servers] fails exactly when the servers
    have more than 64 distinct names. *)
Theorem servers_share_slots hosts :
  (from_servers hosts = Err TooManyIdentities ↔
     USIZE_BITS < size (list_to_set (canonicalize_host <$> hosts) : gset bytes)) ∧
  ∀ l, layout_built hosts l →
    length (backend_slots l) = length hosts ∧
    ∀ i j hi hj, hosts !! i = Some hi → hosts !! j = Some hj →
      ∃ si sj, slot_for_backend l i = Some si ∧ slot_for_backend l j = Some sj ∧
        slot_index si < USIZE_BITS ∧ slot_for_identity l (canonicalize_host hi) = Some si ∧
        (si = sj ↔ canonicalize_host hi = canonicalize_host hj).
Proof.
  split.
  - rewrite from_servers_total. destruct (collect_spec hosts []) as (_ & Hn & He).
    rewrite <- (size_list_to_set (C := gset bytes)) by apply Hn, NoDup_nil_2.
    replace (list_to_set (collect_identities [] hosts) : gset bytes)
      with (list_to_set (canonicalize_host <$> hosts) : gset bytes); [done|].
    apply set_eq. intros x. rewrite !elem_of_list_to_set, He, elem_of_nil. tauto.
  - intros l Hb. destruct (layout_built_ok _ _ Hb) as [_ _ HF _ _].
    split; [symmetry; by eapply Forall2_length|]. intros i j hi hj Hi Hj.
    destruct (Forall2_lookup_l _ _ _ _ _ HF Hi) as (si & Hsi & Hi').
    destruct (Forall2_lookup_l _ _ _ _ _ HF Hj) as (sj & Hsj & Hj').
    exists si, sj. split_and!; [done|done| |exact Hi'|].
    { by apply server_slot_Some in Hi' as [_ ?]. }
    split; [|by intros E; unfold server_slot in *; rewrite E in Hi'; simplify_eq].
    intros ->. apply server_slot_Some in Hi' as [Hi' _]. apply server_slot_Some in Hj' as [Hj' _].
    apply find_identity_Some in Hi', Hj'. congruence.
Qed.

Lemma servers_share_slots_witness :
  ∃ l, layout_built [bs "news.a.example"; bs "b.example"; bs "NEWS.A.example."] l ∧
       slot_for_backend l 0 = slot_for_backend l 2.
Proof.
  eexists. assert (layout_built [bs "news.a.example"; bs "b.example"; bs "NEWS.A.example."] _) as Hb
    by (left; reflexivity).
  split; [exact Hb|].
  destruct (proj2 (servers_share_slots _) _ Hb) as [_ H].
  destruct (H 0 2 _ _ eq_refl eq_refl) as (si & sj & Hi & Hj & _ & _ & Heq).
  rewrite Hi, Hj. f_equal. apply Heq. reflexivity.
Defined.

(** A restart keeps every provider's slot: after a start, the registry
    file holds exactly the identity table and the epoch of the running
    layout, and any later start from that file, with any servers and any
    UUID, keeps the epoch and gives every identity it knew the slot it had,
    so persisted availability bits keep their meaning. *)
Theorem registry_slots_stable hosts file uuid publishes l published hosts' uuid' publishes' l' published' :
  u64_ok uuid → file_ok file → Forall (λ h, id_ok (canonicalize_host h)) hosts →
  from_hybrid_registry hosts file uuid publishes = Ok (l, published) →
  from_hybrid_registry hosts' (after_start file published) uuid' publishes' = Ok (l', published') →
  file_ok (after_start file published) ∧
  layout_epoch l' = layout_epoch l ∧
  ∀ identity s, slot_for_identity l identity = Some s → slot_for_identity l' identity = Some s.
Proof.
  intros Hu Hf Hh H H'. destruct (start_persists _ _ _ _ _ _ Hu Hf Hh H) as (Hf' & Hok & e & He & Hload).
  split; [done|]. apply from_hybrid_registry_inv in H'. unfold start_registry in H'. rewrite Hload in H'.
  destruct H' as (Hi' & He' & _). split; [by rewrite He, He'|]. intros x s.
  unfold slot_for_identity. intros (i & Hfi & Hs)%bind_Some. apply bind_Some. exists i. split; [|done].
  rewrite Hi'. destruct (collect_spec hosts' (layout_identities l)) as (Hp & Hn & _).
  apply find_identity_NoDup; [apply Hn, (ok_nodup _ _ Hok)|].
  eapply prefix_lookup_Some; [by apply find_identity_Some|done].
Qed.

Lemma registry_slots_stable_witness :
  ∃ l d l' p',
    from_hybrid_registry [bs "b.example"; bs "A.example"] FileNotFound 7 true = Ok (l, Some d) ∧
    from_hybrid_registry [bs "a.example"; bs "c.example"] (FileData d) 9 true = Ok (l', p') ∧
    slot_for_identity l (bs "a.example") = Some (mkSlot 1) ∧
    slot_for_identity l' (bs "a.example") = Some (mkSlot 1).
Proof.
  eexists _, _, _, _. split; [reflexivity|]. split; [reflexivity|]. split; [reflexivity|].
  eapply (registry_slots_stable [bs "b.example"; bs "A.example"] FileNotFound 7 true _ (Some _)
           [bs "a.example"; bs "c.example"] 9 true _ _); try reflexivity.
  repeat constructor; vm_compute; done.
Defined.

(** [canonicalize_host] removes one trailing dot, so it is not idempotent: a
    host configured with two trailing dots is written to the registry as an
    identity that reads back as another one, and the server loses its slot at
    the next start. *)
Lemma two_trailing_dots_move :
  ∃ l d l' p',
    from_hybrid_registry [bs "a.example.."] FileNotFound 7 true = Ok (l, Some d) ∧
    from_hybrid_registry [bs "a.example.."] (FileData d) 9 true = Ok (l', p') ∧
    slot_for_backend l 0 = Some (mkSlot 0) ∧ slot_for_backend l' 0 = Some (mkSlot 1).
Proof. eexists _, _, _, _. repeat split; reflexivity. Qed.
