(* ===== verification/Filter.v ===== *)
(** * Filter: the rotating fingerprint filter of missing articles

    Models [Block], [Generation] and [FilterState] of
    [src/src/cache/availability_index.rs], with the slot matching helpers at
    the end of that file.  A filter keeps a ring of generations of blocks of
    two slots; a slot holds a 64-bit hash, a 16-bit tag, the exact message key
    and a bit set of the providers that answered 430.  The clock is the
    argument [now], in milliseconds.

    Indexing a boxed slice is total lookup here; that every index is in range
    is part of the well-formedness lemmas ([locate_in_range] of [Index]). *)

From stdpp Require Import list.
From S2P Require Import Prelude.

Definition BLOCK_SLOTS : nat := 2.
Definition ALL_BACKEND_BITS : N := u64_max.
Definition MAX_MESSAGE_ID_BYTES : nat := 250.

Record Block := mkBlock {
  hashes : list N;
  tags : list N;
  block_missing : list N }.

Definition default_block : Block :=
  mkBlock (replicate BLOCK_SLOTS 0%N) (replicate BLOCK_SLOTS 0%N) (replicate BLOCK_SLOTS 0%N).

#[global] Instance Block_inhabited : Inhabited Block := populate default_block.

Record ArticleFingerprint := mkFingerprint { fp_hash : N; fp_tag : N }.

(** The bits of the slots whose hash and tag are the needle's. *)
Definition matching_slots (hs ts : list N) (needle_hash needle_tag : N) : N :=
  foldl (λ mask i,
    if ((hs !!! i =? needle_hash) && (ts !!! i =? needle_tag))%N
    then N.lor mask (N.shiftl 1 (N.of_nat i)) else mask)
    0%N (seq 0 (length hs)).

(** [u8::trailing_zeros] of a nonzero mask. *)
Fixpoint pos_trailing_zeros (p : positive) : nat :=
  match p with xO p => S (pos_trailing_zeros p) | _ => 0 end.

Definition trailing_zeros (n : N) : nat :=
  match n with N0 => 8 | Npos p => pos_trailing_zeros p end.

Definition victim_slot (hash : N) : nat :=
  N.to_nat (N.land (N.shiftr hash 48) (N.of_nat BLOCK_SLOTS - 1)).

Inductive InsertOutcome := Inserted | Updated | Replaced.

(** ** Generations *)

Record Generation := mkGeneration {
  started_at : N;
  occupied : nat;
  blocks : list Block;
  keys : list (option bytes) }.

Definition new_generation (blocks_per_generation : nat) : Generation :=
  mkGeneration 0 0 (replicate blocks_per_generation default_block)
    (replicate (blocks_per_generation * BLOCK_SLOTS) None).

#[global] Instance Generation_inhabited : Inhabited Generation := populate (new_generation 0).

(** [Block::clear] and [Generation::clear]; the second component is the
    number of evicted entries. *)
Definition clear_block (b : Block) : Block :=
  mkBlock (replicate BLOCK_SLOTS 0%N) (replicate BLOCK_SLOTS 0%N) (replicate BLOCK_SLOTS 0%N).

Definition clear_generation (g : Generation) : Generation * nat :=
  (mkGeneration 0 0 (clear_block <$> blocks g)
     (imap (λ i k, if i <? length (blocks g) * BLOCK_SLOTS then None else k) (keys g)),
   occupied g).

Definition gen_key (g : Generation) (block slot : nat) : option bytes :=
  keys g !!! (block * BLOCK_SLOTS + slot).

(** The [while candidates != 0] loops; [fuel] bounds the bits of the mask. *)
Fixpoint lookup_candidates (fuel : nat) (g : Generation) (key : bytes) (block : nat)
    (candidates missing_bits : N) : N :=
  match fuel with
  | 0 => missing_bits
  | S fuel =>
      if (candidates =? 0)%N then missing_bits
      else
        let slot := trailing_zeros candidates in
        let missing_bits :=
          if bool_decide (gen_key g block slot = Some key)
          then N.lor missing_bits (block_missing (blocks g !!! block) !!! slot) else missing_bits in
        lookup_candidates fuel g key block (N.land candidates (candidates - 1)) missing_bits
  end.

Definition gen_lookup (g : Generation) (fp : ArticleFingerprint) (key : bytes) (block : nat) : N :=
  let b := blocks g !!! block in
  lookup_candidates (S BLOCK_SLOTS) g key block
    (matching_slots (hashes b) (tags b) (fp_hash fp) (fp_tag fp)) 0.

Fixpoint exact_slot (fuel : nat) (g : Generation) (key : bytes) (block : nat) (exact : N)
    : option nat :=
  match fuel with
  | 0 => None
  | S fuel =>
      if (exact =? 0)%N then None
      else
        let slot := trailing_zeros exact in
        if bool_decide (gen_key g block slot = Some key) then Some slot
        else exact_slot fuel g key block (N.land exact (exact - 1))
  end.

Definition set_slot (b : Block) (slot : nat) (hash tag bits : N) : Block :=
  mkBlock (<[slot := hash]> (hashes b)) (<[slot := tag]> (tags b)) (<[slot := bits]> (block_missing b)).

Definition gen_insert (g : Generation) (fp : ArticleFingerprint) (key : bytes) (bits : N)
    (block : nat) : Generation * InsertOutcome :=
  let b := blocks g !!! block in
  let candidates := matching_slots (hashes b) (tags b) (fp_hash fp) (fp_tag fp) in
  match exact_slot (S BLOCK_SLOTS) g key block candidates with
  | Some slot =>
      let b' := mkBlock (hashes b) (tags b)
        (<[slot := N.lor (block_missing b !!! slot) bits]> (block_missing b)) in
      (mkGeneration (started_at g) (occupied g) (<[block := b']> (blocks g)) (keys g), Updated)
  | None =>
      let slot := default (victim_slot (fp_hash fp)) (position (λ h, (h =? 0)%N) (hashes b)) in
      let outcome := if (hashes b !!! slot =? 0)%N then Inserted else Replaced in
      (mkGeneration (started_at g) (occupied g)
         (<[block := set_slot b slot (fp_hash fp) (fp_tag fp) bits]> (blocks g))
         (<[block * BLOCK_SLOTS + slot := Some key]> (keys g)), outcome)
  end.

(** ** The ring of generations *)

Record FilterState := mkFilter {
  generations : list Generation;
  current_generation : nat;
  blocks_per_generation : nat;
  live_generations : nat;
  rotation_interval : N;
  next_rotation_at : N }.

Definition new_filter (blocks_per_generation generation_count : nat) (interval : N) : FilterState :=
  let generation_count := Nat.max generation_count 1 in
  mkFilter (replicate generation_count (new_generation blocks_per_generation))
    0 blocks_per_generation 0 interval 0.

Definition active_generation_indices (s : FilterState) : list nat :=
  (λ offset, (current_generation s + length (generations s) - offset) mod length (generations s))
    <$> seq 0 (live_generations s).

Definition occupied_slots (s : FilterState) : nat :=
  sum_list ((λ i, occupied (generations s !!! i)) <$> active_generation_indices s).

Definition reset (s : FilterState) : FilterState :=
  mkFilter ((λ g, (clear_generation g).1) <$> generations s) 0 (blocks_per_generation s) 0
    (rotation_interval s) 0.

(** [match interval { 0 | u64::MAX => 0, interval => from.saturating_add(interval) }] *)
Definition rotation_after (interval from : N) : N :=
  if ((interval =? 0) || (interval =? u64_max))%N then 0 else sat_add64 from interval.

Definition start_generation (g : Generation) (now : N) : Generation :=
  mkGeneration now (occupied g) (blocks g) (keys g).

Definition ensure_current_generation_started (s : FilterState) (now : N) : FilterState :=
  let g := generations s !!! current_generation s in
  if negb (started_at g =? 0)%N then s
  else
    mkFilter (<[current_generation s := start_generation g now]> (generations s))
      (current_generation s) (blocks_per_generation s) (Nat.max (live_generations s) 1)
      (rotation_interval s) (rotation_after (rotation_interval s) now).

(** The last generation with the greatest nonzero start ([max_by_key] keeps
    the last of equal maxima). *)
Definition latest_generation (gs : list Generation) : option nat :=
  foldl (λ best i,
    let t := started_at (gs !!! i) in
    if (t =? 0)%N then best
    else match best with
         | None => Some i
         | Some j => if (started_at (gs !!! j) <=? t)%N then Some i else Some j
         end) None (seq 0 (length gs)).

Definition reanchor_current_generation (s : FilterState) : FilterState :=
  match latest_generation (generations s) with
  | None => s
  | Some i =>
      mkFilter (generations s) i (blocks_per_generation s) (live_generations s) (rotation_interval s)
        (rotation_after (rotation_interval s) (started_at (generations s !!! i)))
  end.

(** The [for _ in 0..rotations] loop. *)
Fixpoint rotate_loop (rotations : nat) (gs : list Generation) (current evicted : nat)
    : list Generation * nat * nat :=
  match rotations with
  | 0 => (gs, current, evicted)
  | S rotations =>
      let current := (current + 1) mod length gs in
      let '(g, n) := clear_generation (gs !!! current) in
      rotate_loop rotations (<[current := g]> gs) current (evicted + n)
  end.

Definition rotations_due (s : FilterState) (now : N) : nat :=
  N.to_nat (N.min (1 + sat_sub now (next_rotation_at s) / rotation_interval s)
                  (N.of_nat (length (generations s)))).

Definition rotate_if_needed (s : FilterState) (now : N) : FilterState * nat :=
  if (blocks_per_generation s =? 0) || bool_decide (generations s = []) then (s, 0)
  else if (rotation_interval s =? 0)%N then
    (reset s, sum_list (occupied <$> generations s))
  else if (rotation_interval s =? u64_max)%N then (s, 0)
  else if (live_generations s =? 0) || (next_rotation_at s =? 0)%N || (now <? next_rotation_at s)%N
  then (s, 0)
  else
    let rotations := rotations_due s now in
    let '(gs, current, evicted) := rotate_loop rotations (generations s) (current_generation s) 0 in
    (mkFilter gs current (blocks_per_generation s)
       (Nat.min (live_generations s + rotations) (length (generations s))) (rotation_interval s)
       (sat_add64 (next_rotation_at s) (sat_mul64 (N.of_nat rotations) (rotation_interval s))),
     evicted).

(** The loop over the active generations, with its early exit. *)
Fixpoint lookup_generations (gs : list Generation) (fp : ArticleFingerprint) (key : bytes)
    (block : nat) (indices : list nat) (bits : N) : N :=
  match indices with
  | [] => bits
  | i :: indices =>
      let bits := N.lor bits (gen_lookup (gs !!! i) fp key block) in
      if (bits =? ALL_BACKEND_BITS)%N then bits
      else lookup_generations gs fp key block indices bits
  end.

(** [lookup_missing_bits]: the state, the bits and the evictions. *)
Definition lookup_missing_bits (s : FilterState) (fp : ArticleFingerprint) (key : bytes)
    (block : nat) (now : N) : FilterState * N * nat :=
  let '(s, evicted) := rotate_if_needed s now in
  if (blocks_per_generation s =? 0) || bool_decide (generations s = []) then (s, 0%N, evicted)
  else (s, lookup_generations (generations s) fp key block (active_generation_indices s) 0, evicted).

Definition set_generation (s : FilterState) (i : nat) (g : Generation) : FilterState :=
  mkFilter (<[i := g]> (generations s)) (current_generation s) (blocks_per_generation s)
    (live_generations s) (rotation_interval s) (next_rotation_at s).

(** [generation.occupied += 1] after [Inserted]. *)
Definition count_inserted (g : Generation) (outcome : InsertOutcome) : Generation :=
  match outcome with
  | Inserted => mkGeneration (started_at g) (S (occupied g)) (blocks g) (keys g)
  | _ => g
  end.

Definition insert_missing_bits (s : FilterState) (fp : ArticleFingerprint) (key : bytes)
    (bits : N) (block : nat) (now : N) : FilterState * nat :=
  let '(s, evicted) := rotate_if_needed s now in
  if (blocks_per_generation s =? 0) || (bits =? 0)%N || (rotation_interval s =? 0)%N then (s, evicted)
  else
    let s := ensure_current_generation_started s now in
    let '(g, outcome) := gen_insert (generations s !!! current_generation s) fp key bits block in
    (set_generation s (current_generation s) (count_inserted g outcome),
     match outcome with Replaced => evicted + 1 | _ => evicted end).

(** ** Persistence of a filter *)

Record PersistedEntry := mkEntry {
  pe_hash : N;
  pe_tag : N;
  pe_key : bytes;
  pe_missing : N;
  pe_inserted_at : N }.

Definition restore_offset (s : FilterState) (inserted_at now : N) : nat :=
  let interval := rotation_interval s in
  N.to_nat (N.min
    (if ((interval =? 0) || (interval =? u64_max))%N then 0%N
     else (sat_sub now inserted_at / interval)%N)
    (N.of_nat (length (generations s) - 1))).

Definition restore_entry (s : FilterState) (entry : PersistedEntry) (block : nat) (now ttl : N)
    : FilterState * nat :=
  if (blocks_per_generation s =? 0) || (pe_hash entry =? 0)%N || (pe_missing entry =? 0)%N
     || (ttl <=? sat_sub now (pe_inserted_at entry))%N
  then (s, 0)
  else
    let offset := restore_offset s (pe_inserted_at entry) now in
    let i := (current_generation s + length (generations s) - offset) mod length (generations s) in
    let g := generations s !!! i in
    let started :=
      if (started_at g =? 0)%N then pe_inserted_at entry
      else N.min (started_at g) (pe_inserted_at entry) in
    let s' := mkFilter (generations s) (current_generation s) (blocks_per_generation s)
      (Nat.max (live_generations s) (offset + 1)) (rotation_interval s) (next_rotation_at s) in
    let '(g, outcome) :=
      gen_insert (start_generation g started) (mkFingerprint (pe_hash entry) (pe_tag entry))
        (pe_key entry) (pe_missing entry) block in
    (set_generation s' i (count_inserted g outcome),
     match outcome with Replaced => 1 | _ => 0 end).

(** The entry of one slot; the outer [None] is the failure of
    [expect("occupied availability slot has a message key")], the inner one an
    empty slot. *)
Definition slot_entry (g : Generation) (block slot : nat) : option (option PersistedEntry) :=
  let b := blocks g !!! block in
  let hash := hashes b !!! slot in
  let bits := block_missing b !!! slot in
  if ((hash =? 0) || (bits =? 0))%N then Some None
  else key ← gen_key g block slot;
       Some (Some (mkEntry hash (tags b !!! slot) key bits (started_at g))).

Definition generation_entries (g : Generation) : option (list PersistedEntry) :=
  rows ← mapM (λ p, slot_entry g p.1 p.2)
           (list_prod (seq 0 (length (blocks g))) (seq 0 BLOCK_SLOTS));
  Some (omap id rows).

Definition snapshot_entries (s : FilterState) (now : N)
    : FilterState * option (list PersistedEntry) * nat :=
  let '(s, evicted) := rotate_if_needed s now in
  (s,
   rows ← mapM (λ i, generation_entries (generations s !!! i)) (active_generation_indices s);
   Some (mjoin rows),
   evicted).

(** ** Slots of a generation *)

Record Slot := mkSlotView { sl_hash : N; sl_tag : N; sl_key : option bytes; sl_missing : N }.

Definition view (g : Generation) (b s : nat) : Slot :=
  mkSlotView (hashes (blocks g !!! b) !!! s) (tags (blocks g !!! b) !!! s)
    (gen_key g b s) (block_missing (blocks g !!! b) !!! s).

Record block_ok (b : Block) : Prop := {
  len_hashes : length (hashes b) = BLOCK_SLOTS;
  len_tags : length (tags b) = BLOCK_SLOTS;
  len_missing : length (block_missing b) = BLOCK_SLOTS }.

Definition empty_slot : Slot := mkSlotView 0 0 None 0.

(** A slot is occupied (its hash is not zero) only with a key. *)
Definition slot_ok (v : Slot) : Prop := sl_hash v ≠ 0%N → is_Some (sl_key v).

Record gen_ok (B : nat) (g : Generation) : Prop := {
  gen_blocks : length (blocks g) = B;
  gen_keys : length (keys g) = B * BLOCK_SLOTS;
  gen_shape : Forall block_ok (blocks g);
  gen_slots : ∀ b s, b < B → s < BLOCK_SLOTS → slot_ok (view g b s) }.

Definition slot_matches (fp : ArticleFingerprint) (v : Slot) : bool :=
  ((sl_hash v =? fp_hash fp) && (sl_tag v =? fp_tag fp))%N.

Lemma lookup2 {A} `{Inhabited A} (l : list A) :
  length l = 2 → l = [l !!! 0; l !!! 1].
Proof. destruct l as [|x [|y [|]]]; done. Qed.

Lemma gen_block B g b : gen_ok B g → b < B → block_ok (blocks g !!! b).
Proof.
  intros [Hl _ Hs _] Hb. eapply Forall_lookup_1 in Hs; [exact Hs|].
  by apply list_lookup_lookup_total_lt; rewrite Hl.
Qed.

(** The masks of a two-slot block. *)
Lemma matching_mask B g b fp :
  gen_ok B g → b < B →
  matching_slots (hashes (blocks g !!! b)) (tags (blocks g !!! b)) (fp_hash fp) (fp_tag fp) =
  ((if slot_matches fp (view g b 0) then 1 else 0) + (if slot_matches fp (view g b 1) then 2 else 0))%N.
Proof.
  intros Hg Hb. destruct (gen_block _ _ _ Hg Hb) as [Hh _ _]. unfold matching_slots. rewrite Hh.
  unfold slot_matches. cbn [BLOCK_SLOTS seq foldl view sl_hash sl_tag].
  by do 2 destruct (_ && _).
Qed.

Definition key_is (g : Generation) (key : bytes) (b s : nat) : bool :=
  bool_decide (gen_key g b s = Some key).

Lemma lookup_candidates_eq g key b (m0 m1 : bool) :
  lookup_candidates (S BLOCK_SLOTS) g key b ((if m0 then 1 else 0) + (if m1 then 2 else 0)) 0 =
  N.lor (if m0 && key_is g key b 0 then sl_missing (view g b 0) else 0)
        (if m1 && key_is g key b 1 then sl_missing (view g b 1) else 0).
Proof.
  unfold key_is. destruct m0, m1; cbn -[gen_key N.lor lookup_total]; repeat case_bool_decide;
    cbn -[gen_key N.lor lookup_total]; rewrite ?N.lor_0_r, ?N.lor_0_l; done.
Qed.

Lemma exact_slot_eq g key b (m0 m1 : bool) :
  exact_slot (S BLOCK_SLOTS) g key b ((if m0 then 1 else 0) + (if m1 then 2 else 0)) =
  if m0 && key_is g key b 0 then Some 0
  else if m1 && key_is g key b 1 then Some 1 else None.
Proof.
  unfold key_is. destruct m0, m1; cbn -[gen_key]; repeat case_bool_decide; done.
Qed.

(** The slots a lookup of [key] reads. *)
Definition hit (g : Generation) (fp : ArticleFingerprint) (key : bytes) (b s : nat) : bool :=
  slot_matches fp (view g b s) && key_is g key b s.

Lemma gen_lookup_eq B g fp key b :
  gen_ok B g → b < B →
  gen_lookup g fp key b =
  N.lor (if hit g fp key b 0 then sl_missing (view g b 0) else 0)
        (if hit g fp key b 1 then sl_missing (view g b 1) else 0).
Proof.
  intros Hg Hb. unfold gen_lookup. rewrite (matching_mask B) by done. apply lookup_candidates_eq.
Qed.

Lemma gen_lookup_testbit B g fp key b j :
  gen_ok B g → b < B →
  N.testbit (gen_lookup g fp key b) j = true ↔
  ∃ s, s < BLOCK_SLOTS ∧ hit g fp key b s = true ∧ N.testbit (sl_missing (view g b s)) j = true.
Proof.
  intros Hg Hb. rewrite (gen_lookup_eq B) by done. rewrite N.lor_spec, orb_true_iff. split.
  - intros [H|H]; [exists 0|exists 1]; destruct (hit _ _ _ _ _) eqn:E; rewrite ?N.bits_0 in H;
      repeat split; try done; unfold BLOCK_SLOTS; lia.
  - intros (s & Hs & Hh & Hj). unfold BLOCK_SLOTS in Hs. destruct s as [|[|s]]; [left|right|lia];
      by rewrite Hh.
Qed.

(** Writing slot [s] of block [b]. *)
Definition write_slot (g : Generation) (b s : nat) (hash tag : N) (key : option bytes) (bits : N)
    : Generation :=
  mkGeneration (started_at g) (occupied g)
    (<[b := set_slot (blocks g !!! b) s hash tag bits]> (blocks g))
    (<[b * BLOCK_SLOTS + s := key]> (keys g)).

Lemma view_write_slot B g b s hash tag key bits :
  gen_ok B g → b < B → s < BLOCK_SLOTS →
  view (write_slot g b s hash tag key bits) b s = mkSlotView hash tag key bits.
Proof.
  intros Hg Hb Hs. destruct (gen_block _ _ _ Hg Hb) as [H1 H2 H3]. destruct Hg as [Hl Hk _ _].
  unfold view, gen_key. cbn. rewrite list_lookup_total_insert_eq by lia. cbn.
  rewrite !list_lookup_total_insert_eq by (unfold BLOCK_SLOTS in *; lia). done.
Qed.

Lemma view_write_other B g b s hash tag key bits b' s' :
  gen_ok B g → s < BLOCK_SLOTS → s' < BLOCK_SLOTS → (b', s') ≠ (b, s) →
  view (write_slot g b s hash tag key bits) b' s' = view g b' s'.
Proof.
  intros Hg Hs Hs' Hne. unfold view, gen_key. cbn.
  rewrite (list_lookup_total_insert_ne (keys g)) by (unfold BLOCK_SLOTS in *; intros E; apply Hne; f_equal; lia).
  destruct (decide (b = b')) as [<-|]; [|by rewrite list_lookup_total_insert_ne].
  assert (s ≠ s') by congruence. rewrite list_lookup_total_insert.
  destruct (decide _) as [[_ Hb]|]; [|done]. cbn. by rewrite !list_lookup_total_insert_ne.
Qed.

Lemma gen_ok_write_slot B g b s hash tag key bits :
  gen_ok B g → b < B → s < BLOCK_SLOTS → (hash ≠ 0%N → is_Some key) →
  gen_ok B (write_slot g b s hash tag key bits).
Proof.
  intros Hg Hb Hs Hk. pose proof (gen_block _ _ _ Hg Hb) as [H1 H2 H3]. constructor; cbn.
  - rewrite length_insert. apply Hg.
  - rewrite length_insert. apply Hg.
  - apply Forall_insert; [apply Hg|]. constructor; cbn; by rewrite length_insert.
  - intros b' s' Hb' Hs'. destruct (decide ((b', s') = (b, s))) as [[= -> ->]|Hne].
    + erewrite view_write_slot by done. done.
    + erewrite view_write_other by done. by apply (gen_slots B g Hg).
Qed.

Lemma write_slot_same B g b s bits :
  gen_ok B g → b < B → s < BLOCK_SLOTS →
  mkGeneration (started_at g) (occupied g)
    (<[b := mkBlock (hashes (blocks g !!! b)) (tags (blocks g !!! b))
              (<[s := bits]> (block_missing (blocks g !!! b)))]> (blocks g)) (keys g) =
  write_slot g b s (sl_hash (view g b s)) (sl_tag (view g b s)) (sl_key (view g b s)) bits.
Proof.
  intros Hg Hb Hs. destruct (gen_block _ _ _ Hg Hb) as [H1 H2 H3]. destruct Hg as [Hl Hk _ _].
  unfold write_slot, set_slot, view, gen_key. cbn. f_equal.
  - f_equal. f_equal; symmetry; apply list_insert_id, list_lookup_lookup_total_lt; lia.
  - symmetry. apply list_insert_id, list_lookup_lookup_total_lt. unfold BLOCK_SLOTS in *. lia.
Qed.

Lemma victim_slot_lt h : victim_slot h < BLOCK_SLOTS.
Proof.
  unfold victim_slot, BLOCK_SLOTS. change (N.of_nat 2 - 1)%N with (N.ones 1). rewrite N.land_ones.
  pose proof (N.mod_lt (N.shiftr h 48) (2 ^ 1) ltac:(done)). cbn in *. lia.
Qed.

(** What an insertion writes. *)
Definition inserted_slot (g : Generation) (fp : ArticleFingerprint) (key : bytes) (bits : N)
    (b s : nat) (o : InsertOutcome) : Prop :=
  match o with
  | Updated => hit g fp key b s = true
  | Inserted => sl_hash (view g b s) = 0%N ∧ ∀ s', s' < BLOCK_SLOTS → hit g fp key b s' = false
  | Replaced =>
      ∀ s', s' < BLOCK_SLOTS → sl_hash (view g b s') ≠ 0%N ∧ hit g fp key b s' = false
  end.

Lemma gen_insert_spec B g fp key bits b :
  gen_ok B g → b < B →
  ∃ s o, s < BLOCK_SLOTS ∧ inserted_slot g fp key bits b s o ∧
    gen_insert g fp key bits b =
      (write_slot g b s (fp_hash fp) (fp_tag fp) (Some key)
         (match o with Updated => N.lor (sl_missing (view g b s)) bits | _ => bits end), o).
Proof.
  intros Hg Hb. unfold gen_insert. rewrite (matching_mask B), exact_slot_eq by done.
  fold (hit g fp key b 0) (hit g fp key b 1).
  assert (∀ s, s < BLOCK_SLOTS → hit g fp key b s = true →
    mkGeneration (started_at g) (occupied g)
      (<[b := mkBlock (hashes (blocks g !!! b)) (tags (blocks g !!! b))
        (<[s := N.lor (block_missing (blocks g !!! b) !!! s) bits]> (block_missing (blocks g !!! b)))]> (blocks g)) (keys g)
    = write_slot g b s (fp_hash fp) (fp_tag fp) (Some key) (N.lor (sl_missing (view g b s)) bits)) as Hupd.
  { intros s Hs Hh. erewrite write_slot_same by done. unfold hit, slot_matches, key_is in Hh. reflect_bools.
    f_equal; [done|done|done]. }
  destruct (hit g fp key b 0) eqn:H0; [exists 0, Updated|destruct (hit g fp key b 1) eqn:H1; [exists 1, Updated|]].
  1,2: split_and!; [unfold BLOCK_SLOTS; lia|done|f_equal; apply Hupd; [unfold BLOCK_SLOTS; lia|done]].
  assert (∀ s', s' < BLOCK_SLOTS → hit g fp key b s' = false) as Hnone.
  { intros [|[|s']] Hs'; [done|done|]. unfold BLOCK_SLOTS in Hs'. lia. }
  destruct (gen_block _ _ _ Hg Hb) as [Hh _ _].
  set (s := default _ _). assert (s < BLOCK_SLOTS) as Hs.
  { subst s. destruct (position _ _) as [i|] eqn:E; cbn; [|apply victim_slot_lt].
    apply position_lt in E. by rewrite Hh in E. }
  destruct (hashes (blocks g !!! b) !!! s =? 0)%N eqn:Hz; [exists s, Inserted|exists s, Replaced];
    split_and!; try done; reflect_bools; [by split|]. intros s' Hs'. split; [|by apply Hnone].
  subst s. destruct (position _ _) as [i|] eqn:E.
  - apply position_Some in E as [(x & Hx & Hx0) _]. reflect_bools. cbn in Hz. subst x.
    by apply list_lookup_total_correct in Hx.
  - apply position_None in E. unfold view. cbn.
    eapply Forall_lookup_1 in E; [apply N.eqb_neq, E|]. apply list_lookup_lookup_total_lt. lia.
Qed.

(** Every bit of every entry of a generation is justified by [S]. *)
Definition gen_sup (B : nat) (g : Generation) (S : bytes → N → Prop) : Prop :=
  ∀ b s k j, b < B → s < BLOCK_SLOTS → sl_key (view g b s) = Some k →
    N.testbit (sl_missing (view g b s)) j = true → S k j.

Lemma gen_sup_mono B g (S S' : bytes → N → Prop) :
  (∀ k j, S k j → S' k j) → gen_sup B g S → gen_sup B g S'.
Proof. intros HS Hg b s k j ????. eapply HS, Hg; done. Qed.

Lemma view_clear B g b s :
  gen_ok B g → b < B → s < BLOCK_SLOTS → view (clear_generation g).1 b s = empty_slot.
Proof.
  intros [Hl Hk _ _] Hb Hs. unfold view, gen_key, clear_generation. cbn [fst blocks keys].
  rewrite (list_lookup_total_fmap clear_block (blocks g)) by lia. cbn [clear_block hashes tags block_missing].
  rewrite !(lookup_total_replicate_2 BLOCK_SLOTS) by done.
  unfold empty_slot. f_equal. rewrite list_lookup_total_alt, list_lookup_imap.
  destruct (lookup_lt_is_Some_2 (keys g) (b * BLOCK_SLOTS + s)) as [k Hkk]; [unfold BLOCK_SLOTS in *; lia|].
  rewrite Hkk. cbn -[Nat.ltb Nat.mul]. rewrite Hl, (proj2 (Nat.ltb_lt _ _)); [done|]. unfold BLOCK_SLOTS in *. lia.
Qed.

Lemma gen_ok_clear B g : gen_ok B g → gen_ok B (clear_generation g).1.
Proof.
  intros Hg. constructor; cbn.
  - rewrite length_fmap. apply Hg.
  - rewrite length_imap. apply Hg.
  - apply Forall_fmap, Forall_true. intros b. by constructor.
  - intros b s Hb Hs. change (slot_ok (view (clear_generation g).1 b s)).
    rewrite (view_clear B) by done. by intros [].
Qed.

Lemma gen_sup_clear B g S : gen_ok B g → gen_sup B (clear_generation g).1 S.
Proof. intros Hg b s k j Hb Hs. by rewrite (view_clear B). Qed.

Lemma view_new B b s : b < B → s < BLOCK_SLOTS → view (new_generation B) b s = empty_slot.
Proof.
  intros Hb Hs. unfold view, gen_key, new_generation, blocks, keys.
  rewrite (lookup_total_replicate_2 B) by done. cbn [hashes tags block_missing default_block].
  rewrite !(lookup_total_replicate_2 BLOCK_SLOTS) by done.
  by rewrite (lookup_total_replicate_2 (B * BLOCK_SLOTS)) by (unfold BLOCK_SLOTS in *; lia).
Qed.

Lemma gen_ok_new B : gen_ok B (new_generation B).
Proof.
  constructor; cbn.
  - apply length_replicate.
  - apply length_replicate.
  - by apply Forall_replicate.
  - intros b s Hb Hs. change (slot_ok (view (new_generation B) b s)).
    rewrite view_new by done. by intros [].
Qed.

Lemma gen_sup_new B S : gen_sup B (new_generation B) S.
Proof. intros b s k j Hb Hs. by rewrite view_new. Qed.

Lemma gen_ok_insert B g fp key bits b :
  gen_ok B g → b < B → gen_ok B (gen_insert g fp key bits b).1.
Proof.
  intros Hg Hb. destruct (gen_insert_spec B g fp key bits b) as (s & o & Hs & _ & ->); [done|done|].
  by apply gen_ok_write_slot.
Qed.

Lemma gen_sup_insert B g fp key bits b S :
  gen_ok B g → b < B → (∀ j, N.testbit bits j = true → S key j) →
  gen_sup B g S → gen_sup B (gen_insert g fp key bits b).1 S.
Proof.
  intros Hg Hb Hbits HS. destruct (gen_insert_spec B g fp key bits b) as (s & o & Hs & Ho & ->); [done|done|].
  intros b' s' k j Hb' Hs'. cbn [fst]. destruct (decide ((b', s') = (b, s))) as [[= -> ->]|Hne].
  - rewrite (view_write_slot B) by done. cbn. intros [= <-]. destruct o; [by apply Hbits| |by apply Hbits].
    rewrite N.lor_spec, orb_true_iff. intros [Hj|]; [|by apply Hbits].
    apply (HS b s); [done|done| |done]. cbn in Ho. unfold hit, key_is in Ho. by reflect_bools.
  - rewrite (view_write_other B) by done. by apply HS.
Qed.

Lemma gen_sup_lookup B g fp key b S j :
  gen_ok B g → b < B → gen_sup B g S → N.testbit (gen_lookup g fp key b) j = true → S key j.
Proof.
  intros Hg Hb HS Hj. apply (gen_lookup_testbit B) in Hj as (s & Hs & Hh & Hj); [|done|done].
  apply (HS b s); [done|done| |done]. unfold hit, key_is in Hh. by reflect_bools.
Qed.

(** An insertion is found by the next lookup of its key; insertions into other
    blocks, and of the same key, do not lose it. *)
Definition holds (g : Generation) (fp : ArticleFingerprint) (key : bytes) (b : nat) (bits : N) : Prop :=
  ∀ j, N.testbit bits j = true → N.testbit (gen_lookup g fp key b) j = true.

Lemma slot_matches_written fp key bits : slot_matches fp (mkSlotView (fp_hash fp) (fp_tag fp) key bits) = true.
Proof. unfold slot_matches. cbn. by rewrite !N.eqb_refl. Qed.

Lemma holds_insert B g fp key bits b :
  gen_ok B g → b < B → holds (gen_insert g fp key bits b).1 fp key b bits.
Proof.
  intros Hg Hb j Hj. destruct (gen_insert_spec B g fp key bits b) as (s & o & Hs & Ho & ->); [done|done|].
  cbn [fst]. apply (gen_lookup_testbit B); [by apply gen_ok_write_slot|done|]. exists s. split; [done|].
  unfold hit, key_is. change (gen_key ?g b s) with (sl_key (view g b s)).
  rewrite (view_write_slot B) by done. rewrite slot_matches_written. cbn. rewrite bool_decide_true by done.
  split; [done|]. destruct o; try done. by rewrite N.lor_spec, Hj, orb_true_r.
Qed.

Lemma holds_insert_other B g fp key bits b fp' key' bits' b' :
  gen_ok B g → b < B → b' < B → b' ≠ b ∨ (fp' = fp ∧ key' = key) →
  holds g fp key b bits → holds (gen_insert g fp' key' bits' b').1 fp key b bits.
Proof.
  intros Hg Hb Hb' Hd H j Hj. apply H in Hj. apply (gen_lookup_testbit B) in Hj as (s & Hs & Hh & Hj); [|done|done].
  pose proof (gen_ok_insert B g fp' key' bits' b' Hg Hb') as Hok.
  apply (gen_lookup_testbit B); [done|done|]. exists s. split; [done|].
  destruct (gen_insert_spec B g fp' key' bits' b') as (s' & o & Hs' & Ho & E); [done|done|].
  rewrite E in *. cbn [fst] in *. unfold hit, key_is in *. change (gen_key ?g b s) with (sl_key (view g b s)) in *.
  destruct (decide ((b, s) = (b', s'))) as [[= <- <-]|Hne]; [|by rewrite (view_write_other B)].
  destruct Hd as [|[-> ->]]; [done|]. rewrite (view_write_slot B) by done.
  rewrite slot_matches_written. cbn. rewrite bool_decide_true by done. split; [done|].
  destruct o; cbn in Ho.
  - destruct Ho as [_ Ho]. specialize (Ho s Hs). change (hit g fp key b s = true) in Hh. congruence.
  - rewrite N.lor_spec. apply orb_true_iff. left. exact Hj.
  - destruct (Ho s Hs) as [_ Ho']. change (hit g fp key b s = true) in Hh. congruence.
Qed.

(** ** The ring *)

(** How many rotations ago generation [i] was current. *)
Definition offset (G current i : nat) : nat :=
  if i <=? current then current - i else current + G - i.

Lemma ring_next G c : c < G → (c + 1) mod G = if c + 1 =? G then 0 else c + 1.
Proof.
  intros Hc. destruct (Nat.eqb_spec (c + 1) G) as [->|]; [apply Nat.Div0.mod_same|].
  apply Nat.mod_small. lia.
Qed.

Lemma offset_next G c i :
  c < G → i < G →
  offset G ((c + 1) mod G) i = if i =? (c + 1) mod G then 0 else S (offset G c i).
Proof.
  intros Hc Hi. rewrite ring_next by done. unfold offset.
  destruct (Nat.eqb_spec (c + 1) G); repeat case_match; reflect_bools; lia.
Qed.

Lemma offset_lt G c i : c < G → i < G → offset G c i < G.
Proof. intros. unfold offset. case_match; reflect_bools; lia. Qed.

Lemma elem_of_active s i :
  let G := length (generations s) in
  current_generation s < G → live_generations s ≤ G →
  i ∈ active_generation_indices s ↔ i < G ∧ offset G (current_generation s) i < live_generations s.
Proof.
  intros G Hc Hl. unfold active_generation_indices. rewrite list_elem_of_fmap. fold G.
  assert (∀ o, o < G → (current_generation s + G - o) mod G =
            if o <=? current_generation s then current_generation s - o else current_generation s + G - o) as Hm.
  { intros o Ho. destruct (Nat.leb_spec o (current_generation s)).
    - replace (current_generation s + G - o) with (current_generation s - o + 1 * G) by lia.
      rewrite Nat.Div0.mod_add. apply Nat.mod_small. lia.
    - apply Nat.mod_small. lia. }
  unfold offset. split.
  - intros (o & -> & Ho%elem_of_seq). rewrite Hm by lia. repeat case_match; reflect_bools; lia.
  - intros [Hi Ho]. exists (if i <=? current_generation s then current_generation s - i else current_generation s + G - i).
    rewrite elem_of_seq, Hm by (case_match; reflect_bools; lia). repeat case_match; reflect_bools; lia.
Qed.

Lemma rotate_loop_spec r gs c ev :
  let G := length gs in
  c < G → r ≤ G →
  let '(gs', c', _) := rotate_loop r gs c ev in
  length gs' = G ∧ c' < G ∧
  ∀ i, i < G →
    if offset G c i + r <? G
    then gs' !!! i = gs !!! i ∧ offset G c' i = offset G c i + r
    else gs' !!! i = (clear_generation (gs !!! i)).1 ∧ (offset G c i + r < 2 * G → offset G c' i = offset G c i + r - G).
Proof.
  revert gs c ev. induction r as [|r IH]; intros gs c ev G Hc Hr; cbn [rotate_loop].
  { split_and!; [done|done|]. intros i Hi. pose proof (offset_lt G c i Hc Hi).
    rewrite (proj2 (Nat.ltb_lt _ _)) by lia. split; [done|lia]. }
  fold G. set (c1 := (c + 1) mod G). assert (c1 < G) as Hc1 by (apply Nat.mod_upper_bound; lia).
  destruct (clear_generation (gs !!! c1)) as [g n] eqn:Eg.
  set (gs1 := <[c1 := g]> gs). specialize (IH gs1 c1 (ev + n)). cbn zeta in IH.
  assert (length gs1 = G) as Hl1 by (unfold gs1; by rewrite length_insert). rewrite Hl1 in IH.
  destruct (rotate_loop r gs1 c1 (ev + n)) as [[gs' c'] ev'].
  destruct IH as (Hl & Hc' & IH); [done|lia|]. split_and!; [done|done|].
  intros i Hi. specialize (IH i Hi). pose proof (offset_next G c i Hc Hi) as Ho. fold c1 in Ho.
  pose proof (offset_lt G c i Hc Hi) as Hlt.
  destruct (Nat.eqb_spec i c1) as [->|Hne].
  - assert (offset G c c1 = G - 1) as Hoc.
    { unfold c1, offset. rewrite ring_next by done. repeat case_match; reflect_bools; lia. }
    rewrite Ho, (proj2 (Nat.ltb_lt _ _)) in IH by lia. rewrite (proj2 (Nat.ltb_ge _ _)) by lia.
    destruct IH as [-> ->]. unfold gs1. rewrite list_lookup_total_insert_eq, Eg by done. split; [done|lia].
  - rewrite Ho in IH. unfold gs1 in IH. rewrite list_lookup_total_insert_ne in IH by done.
    replace (S (offset G c i) + r) with (offset G c i + S r) in IH by lia. exact IH.
Qed.

(** ** The invariant *)

Record filter_ok (s : FilterState) : Prop := {
  fo_current : current_generation s < length (generations s);
  fo_live : live_generations s ≤ length (generations s);
  fo_gens : Forall (gen_ok (blocks_per_generation s)) (generations s) }.

Definition gen_at (s : FilterState) (i : nat) : Generation := generations s !!! i.
Definition ring (s : FilterState) : nat := length (generations s).
Definition age (s : FilterState) (i : nat) : nat := offset (ring s) (current_generation s) i.

Definition finite (s : FilterState) : Prop :=
  rotation_interval s ≠ 0%N ∧ rotation_interval s ≠ u64_max.

Definition started (s : FilterState) : bool :=
  negb (started_at (gen_at s (current_generation s)) =? 0)%N.

(** A recorded miss: key, bits and the time of the record. *)
Abbreviation History := (list (bytes * N * N)).

(** What justifies bit [j] of [k] in a generation of age [o]: a record of [k]
    whose time bounds the next rotation. *)
Definition support (s : FilterState) (hist : History) (now : N) (o : nat) (k : bytes) (j : N) : Prop :=
  o < live_generations s ∧ (o = 0 → started s = true) ∧
  ∃ bits t, (k, bits, t) ∈ hist ∧ N.testbit bits j = true ∧ (t <= now)%N ∧
    (finite s → (next_rotation_at s <=
       t + (2 * N.of_nat o + (if started s then 1 else 0)) * rotation_interval s)%N).

Record filter_inv (hist : History) (now : N) (s : FilterState) : Prop := {
  fi_ok : filter_ok s;
  fi_sup : ∀ i, i < ring s →
    gen_sup (blocks_per_generation s) (gen_at s i) (support s hist now (age s i));
  fi_next : finite s → 0 < live_generations s →
    (0 < next_rotation_at s <= now + rotation_interval s)%N;
  fi_started : started s = true → 0 < live_generations s }.

Lemma gen_at_ok s i : filter_ok s → i < ring s → gen_ok (blocks_per_generation s) (gen_at s i).
Proof.
  intros [_ _ Hg] Hi. eapply Forall_lookup_1 in Hg; [exact Hg|]. by apply list_lookup_lookup_total_lt.
Qed.

Lemma filter_inv_mono hist hist' now now' s :
  hist ⊆ hist' → (now <= now')%N → filter_inv hist now s → filter_inv hist' now' s.
Proof.
  intros Hh Hn [Hok Hs Hnx Hst]. constructor; [done| | |done].
  - intros i Hi. eapply gen_sup_mono; [|by apply Hs].
    intros k j (H1 & H2 & bits & t & H3 & H4 & H5 & H6). split; [done|]. split; [done|].
    exists bits, t. split_and!; [by apply Hh|done|lia|done].
  - intros Hf Hl. specialize (Hnx Hf Hl). lia.
Qed.

Lemma new_filter_inv B G I hist now : filter_inv hist now (new_filter B G I).
Proof.
  assert (∀ i, i < Nat.max G 1 → gen_at (new_filter B G I) i = new_generation B) as Hg.
  { intros i Hi. unfold gen_at, new_filter. cbn [generations]. by rewrite lookup_total_replicate_2. }
  constructor.
  - constructor; cbn [new_filter generations current_generation live_generations blocks_per_generation].
    + rewrite length_replicate. lia.
    + lia.
    + apply Forall_replicate, gen_ok_new.
  - intros i Hi. unfold ring in Hi. cbn [new_filter generations] in Hi. rewrite length_replicate in Hi.
    rewrite Hg by done. apply gen_sup_new.
  - cbn. lia.
  - unfold started. cbn [new_filter current_generation]. rewrite Hg by lia. done.
Qed.

#[local] Arguments Nat.ltb : simpl never.
#[local] Arguments clear_generation : simpl never.

(** ** Rotation *)

Definition same_shape (s s' : FilterState) : Prop :=
  ring s' = ring s ∧ blocks_per_generation s' = blocks_per_generation s ∧
  rotation_interval s' = rotation_interval s.

(** [r] rotations of a live ring. *)
Record rotated (s : FilterState) (r : nat) (s' : FilterState) : Prop := {
  ro_live : live_generations s' = Nat.min (live_generations s + r) (ring s);
  ro_next : next_rotation_at s' =
    sat_add64 (next_rotation_at s) (sat_mul64 (N.of_nat r) (rotation_interval s));
  ro_gens : ∀ i, i < ring s →
    if age s i + r <? ring s
    then gen_at s' i = gen_at s i ∧ age s' i = age s i + r
    else gen_at s' i = (clear_generation (gen_at s i)).1;
  ro_started : started s' = false }.

Definition due (s : FilterState) (now : N) : Prop :=
  finite s ∧ blocks_per_generation s ≠ 0 ∧ live_generations s ≠ 0 ∧ (0 < next_rotation_at s <= now)%N.

Definition not_due (s : FilterState) (now : N) : Prop :=
  blocks_per_generation s = 0 ∨ rotation_interval s = u64_max ∨
  (finite s ∧ (live_generations s = 0 ∨ next_rotation_at s = 0%N ∨ (now < next_rotation_at s)%N)).

Lemma reset_ok s : filter_ok s → filter_ok (reset s).
Proof.
  intros [Hc Hl Hg]. constructor; cbn; [rewrite length_fmap; lia|lia|].
  apply Forall_fmap. eapply Forall_impl; [exact Hg|]. intros g. apply gen_ok_clear.
Qed.

Lemma reset_gen s i S :
  filter_ok s → i < ring s → gen_sup (blocks_per_generation s) (gen_at (reset s) i) S.
Proof.
  intros Hok Hi. unfold gen_at, reset. cbn [generations].
  rewrite (list_lookup_total_fmap (λ g, (clear_generation g).1)) by done.
  by apply gen_sup_clear, gen_at_ok.
Qed.

Lemma ring_pos s : filter_ok s → 0 < ring s.
Proof. intros [Hc _ _]. unfold ring. lia. Qed.

Lemma gens_nonempty s : filter_ok s → bool_decide (generations s = []) = false.
Proof.
  intros Hok%ring_pos. apply bool_decide_eq_false. intros E. unfold ring in Hok. rewrite E in Hok. cbn in Hok. lia.
Qed.

Lemma rotate_state s now : 
  filter_ok s → due s now →
  let s' := (rotate_if_needed s now).1 in
  let r := rotations_due s now in
  filter_ok s' ∧ same_shape s s' ∧ rotated s r s' ∧ 1 ≤ r ≤ ring s.
Proof.
  intros Hok ((HI & HI') & HB & Hl & Hnx). set (r := rotations_due s now).
  assert (1 ≤ r ≤ ring s) as Hr.
  { pose proof (ring_pos s Hok). unfold r, rotations_due, ring in *.
    generalize (sat_sub now (next_rotation_at s) / rotation_interval s)%N. lia. }
  unfold rotate_if_needed.
  rewrite (proj2 (Nat.eqb_neq (blocks_per_generation s) 0)), gens_nonempty by done. cbn [orb].
  rewrite (proj2 (N.eqb_neq _ 0)), (proj2 (N.eqb_neq _ u64_max)) by done.
  rewrite (proj2 (Nat.eqb_neq _ 0)), (proj2 (N.eqb_neq (next_rotation_at s) 0)) by (done || lia).
  rewrite (proj2 (N.ltb_ge _ _)) by lia. cbn [orb]. fold r.
  pose proof (rotate_loop_spec r (generations s) (current_generation s) 0 (fo_current s Hok)) as H.
  destruct (rotate_loop r _ _ 0) as [[gs c] ev]. destruct H as (Hlen & Hc & Hg); [by apply Hr|]. cbn.
  assert (∀ i, i < ring s → gen_ok (blocks_per_generation s) (gs !!! i)) as Hgs.
  { intros i Hi. specialize (Hg i Hi). pose proof (gen_at_ok s i Hok Hi) as Hgi.
    destruct (_ <? _); destruct Hg as [-> _]; [done|by apply gen_ok_clear]. }
  split; [|split; [unfold same_shape, ring; cbn; by rewrite Hlen|split; [|exact Hr]]].
  - constructor; cbn; [by rewrite Hlen|rewrite Hlen; lia|]. apply Forall_lookup. intros i g Hi.
    pose proof (lookup_lt_Some _ _ _ Hi). apply list_lookup_total_correct in Hi as <-. apply Hgs.
    unfold ring. lia.
  - constructor; cbn; [done|done| |].
    + intros i Hi. specialize (Hg i Hi). unfold age, ring, gen_at in *. cbn. rewrite Hlen.
      destruct (_ <? _); tauto.
    + unfold started, gen_at. cbn. specialize (Hg c Hc). unfold ring in Hr.
      pose proof (offset_lt _ _ _ (fo_current s Hok) Hc). set (G := length (generations s)) in *.
      assert (offset G c c = 0) as H0 by (unfold offset; rewrite Nat.leb_refl; lia).
      destruct (Nat.ltb_spec (offset G (current_generation s) c + r) G); destruct Hg as [E Ho].
      * lia.
      * by rewrite E.
Qed.

Lemma rotate_not_due s now : filter_ok s → not_due s now → (rotate_if_needed s now).1 = s.
Proof.
  intros Hok H. unfold rotate_if_needed.
  destruct (Nat.eqb_spec (blocks_per_generation s) 0) as [|HB]; [done|].
  rewrite gens_nonempty by done. cbn [orb]. destruct H as [|[HI|[[HI HI'] H]]]; [done| |].
  { by rewrite HI. }
  rewrite (proj2 (N.eqb_neq _ 0)), (proj2 (N.eqb_neq _ u64_max)) by done.
  destruct H as [->|[->|H]]; [done|by rewrite orb_true_r|].
  rewrite (proj2 (N.ltb_lt _ _)) by done. by rewrite orb_true_r.
Qed.

Lemma rotate_zero s now :
  filter_ok s → blocks_per_generation s ≠ 0 → rotation_interval s = 0%N →
  (rotate_if_needed s now).1 = reset s.
Proof.
  intros Hok HB HI. unfold rotate_if_needed.
  by rewrite (proj2 (Nat.eqb_neq _ _)), gens_nonempty, HI by done.
Qed.

Lemma rotate_split s now :
  due s now ∨ not_due s now ∨ (blocks_per_generation s ≠ 0 ∧ rotation_interval s = 0%N).
Proof.
  unfold due, not_due, finite. destruct (decide (blocks_per_generation s = 0)); [tauto|].
  destruct (decide (rotation_interval s = 0%N)); [tauto|].
  destruct (decide (rotation_interval s = u64_max)); [tauto|].
  destruct (decide (live_generations s = 0)); [tauto|]. lia.
Qed.

(** The arithmetic of the rotation schedule. *)
Lemma schedule_le (now n I q m r : N) :
  (n <= now → now - n = I * q + m → m < I → r <= 1 + q → n + r * I <= now + I)%N.
Proof.
  intros. assert (r * I <= (1 + q) * I)%N by (apply N.mul_le_mono_r; lia).
  assert ((1 + q) * I = I + I * q)%N by ring. lia.
Qed.

Lemma schedule_lt (now n I q m : N) :
  (n <= now → now - n = I * q + m → m < I → now < n + (1 + q) * I)%N.
Proof. intros. assert ((1 + q) * I = I + I * q)%N by ring. lia. Qed.

Lemma rotations_bounds s now :
  finite s → (next_rotation_at s <= now)%N → (now + rotation_interval s < 2 ^ 64)%N →
  let r := N.of_nat (rotations_due s now) in
  let next' := sat_add64 (next_rotation_at s) (sat_mul64 r (rotation_interval s)) in
  next' = (next_rotation_at s + r * rotation_interval s)%N ∧
  (next' <= now + rotation_interval s)%N ∧
  (rotations_due s now < ring s → (now < next')%N).
Proof.
  intros [HI _] Hn H64 r next'. set (I := rotation_interval s) in *. set (n := next_rotation_at s) in *.
  set (q := ((now - n) / I)%N). pose proof (N.div_mod (now - n) I HI) as Hdm. fold q in Hdm.
  pose proof (N.mod_lt (now - n) I HI) as Hm.
  assert (r = N.min (1 + q) (N.of_nat (ring s))) as Hr by (unfold r, rotations_due; fold I n q; unfold ring; lia).
  assert (n + r * I <= now + I)%N as Hsum by (eapply schedule_le; [|exact Hdm| |]; lia).
  assert (next' = n + r * I)%N as E.
  { unfold next', sat_add64, sat_mul64, u64_max. fold I n. lia. }
  split_and!; [done|by rewrite E|]. intros Hlt. assert (r = 1 + q)%N as Hr' by lia.
  rewrite E, Hr'. by eapply schedule_lt.
Qed.

Lemma rotate_inv hist now0 now s :
  filter_inv hist now0 s → (now0 <= now)%N → (finite s → (now + rotation_interval s < 2 ^ 64)%N) →
  let s' := (rotate_if_needed s now).1 in
  filter_inv hist now s' ∧ same_shape s s' ∧
  (finite s → ∀ i, i < ring s →
    gen_sup (blocks_per_generation s) (gen_at s' i) (λ _ _, now < next_rotation_at s')%N).
Proof.
  intros Hinv Hnow H64. apply (filter_inv_mono hist hist _ now) in Hinv; [|done|done].
  pose proof Hinv as [Hok Hsup Hnx Hst]. destruct (rotate_split s now) as [Hd|[Hd|[HB HI]]].
  - destruct (rotate_state s now Hok Hd) as (Hok' & Hsh & Hro & Hr). destruct Hd as (Hf & HB & Hl & Hn).
    set (s' := (rotate_if_needed s now).1) in *. set (r := rotations_due s now) in *.
    destruct (rotations_bounds s now Hf) as (E & Hle & Hlt); [lia|by apply H64|]. fold r in E, Hle, Hlt.
    rewrite <- (ro_next s r s' Hro) in E, Hle, Hlt. destruct Hsh as (Hs1 & Hs2 & Hs3).
    assert (∀ i, i < ring s → gen_sup (blocks_per_generation s) (gen_at s' i)
              (λ k j, support s' hist now (age s' i) k j ∧ (now < next_rotation_at s')%N)) as Hall.
    { intros i Hi. pose proof (ro_gens s r s' Hro i Hi) as Hg.
      destruct (Nat.ltb_spec (age s i + r) (ring s)).
      2:{ rewrite Hg. by apply gen_sup_clear, gen_at_ok. }
      destruct Hg as [-> Hage]. eapply gen_sup_mono; [|by apply Hsup].
      intros k j (H1 & H2 & bits & t & H3 & H4 & H5 & H6). split; [|apply Hlt; lia].
      rewrite Hage. unfold support. rewrite (ro_live s r s' Hro), (ro_started s r s' Hro), Hs3.
      split; [lia|]. split; [lia|]. exists bits, t. split_and!; [done|done|done|]. intros _.
      specialize (H6 Hf). rewrite E. destruct (started s); nia. }
    split; [|split; [done|]].
    + constructor; [done| | |].
      * rewrite Hs1, Hs2. intros i Hi. eapply gen_sup_mono; [|by apply Hall]. by intros k j [? _].
      * intros _ _. rewrite Hs3. lia.
      * by rewrite (ro_started s r s' Hro).
    + intros _ i Hi. eapply gen_sup_mono; [|by apply Hall]. by intros k j [_ ?].
  - rewrite rotate_not_due by done. split; [done|]. split; [done|]. intros Hf i Hi.
    destruct Hd as [HB|[HI|[_ Hd]]]; [rewrite HB; intros b ???; lia|by destruct Hf|].
    eapply gen_sup_mono; [|by apply Hsup]. intros k j (H1 & _). specialize (Hnx Hf). lia.
  - rewrite rotate_zero by done. split; [|split; [|by intros [? _]]].
    + constructor; [by apply reset_ok| |by cbn; lia|].
      2:{ unfold started, gen_at. cbn. rewrite (list_lookup_total_fmap (λ g, (clear_generation g).1)); [done|].
          by apply ring_pos. }
      intros i Hi. apply (reset_gen s); [done|].
      unfold ring in *. cbn in Hi. by rewrite length_fmap in Hi.
    + unfold same_shape, ring. cbn. by rewrite length_fmap.
Qed.

(** ** Insertion and lookup *)

Lemma start_generation_view g now b s : view (start_generation g now) b s = view g b s.
Proof. done. Qed.

Lemma gen_ok_start B g now : gen_ok B g → gen_ok B (start_generation g now).
Proof. intros [H1 H2 H3 H4]. by constructor. Qed.

(** Replacing the current generation. *)
Lemma set_current_ok s g :
  filter_ok s → gen_ok (blocks_per_generation s) g → filter_ok (set_generation s (current_generation s) g).
Proof.
  intros [Hc Hl Hg] Hok. constructor; cbn; [by rewrite length_insert|by rewrite length_insert|].
  by apply Forall_insert.
Qed.

Lemma gen_at_set s g i :
  filter_ok s → gen_at (set_generation s (current_generation s) g) i =
  if decide (i = current_generation s) then g else gen_at s i.
Proof.
  intros Hok. unfold gen_at, set_generation. cbn. destruct (decide _) as [->|].
  - apply list_lookup_total_insert_eq, Hok.
  - by apply list_lookup_total_insert_ne.
Qed.

Lemma age_current s : age s (current_generation s) = 0.
Proof. unfold age, offset. rewrite Nat.leb_refl. lia. Qed.

Lemma rotation_after_finite s now :
  finite s → (now + rotation_interval s < 2 ^ 64)%N →
  rotation_after (rotation_interval s) now = (now + rotation_interval s)%N.
Proof.
  intros [H1 H2] H. unfold rotation_after. rewrite !(proj2 (N.eqb_neq _ _)) by done. cbn [orb].
  unfold sat_add64, u64_max. lia.
Qed.

Lemma ensure_started_inv hist now s :
  filter_inv hist now s → (0 < now)%N → (finite s → (now + rotation_interval s < 2 ^ 64)%N) →
  (finite s → ∀ i, i < ring s →
     gen_sup (blocks_per_generation s) (gen_at s i) (λ _ _, now < next_rotation_at s)%N) →
  let s' := ensure_current_generation_started s now in
  filter_inv hist now s' ∧ same_shape s s' ∧ started s' = true ∧
  current_generation s' = current_generation s ∧
  (∀ i b sl, view (gen_at s' i) b sl = view (gen_at s i) b sl).
Proof.
  intros Hinv H0 H64 Hfresh. pose proof Hinv as [Hok Hsup Hnx Hst].
  unfold ensure_current_generation_started. fold (gen_at s (current_generation s)) (started s).
  destruct (started s) eqn:Es; [done|]. set (s' := mkFilter _ _ _ _ _ _).
  pose proof (fo_current s Hok) as Hc. set (g' := start_generation (gen_at s (current_generation s)) now).
  assert (∀ i, gen_at s' i = if decide (i = current_generation s) then g' else gen_at s i) as Hg.
  { intros i. apply (gen_at_set s g' i Hok). }
  assert (∀ i b sl, view (gen_at s' i) b sl = view (gen_at s i) b sl) as Hview.
  { intros i b sl. rewrite Hg. by destruct (decide _) as [->|]. }
  assert (started s' = true) as Hst'.
  { unfold started. rewrite Hg, decide_True by done. cbn. by rewrite (proj2 (N.eqb_neq _ _)) by lia. }
  assert (ring s' = ring s) as Hring by (unfold ring; cbn; by rewrite length_insert).
  split; [|by split_and!]. constructor.
  - constructor; cbn; [by rewrite length_insert|rewrite length_insert; pose proof (fo_live s Hok); lia|].
    apply Forall_insert; [apply Hok|]. apply gen_ok_start. by apply gen_at_ok.
  - intros i Hi. rewrite Hring in Hi. intros b sl k j Hb Hs Hk Hj. rewrite Hview in Hk, Hj.
    assert (age s' i = age s i) as Hage by (unfold age; rewrite Hring; done).
    destruct (Hsup i Hi b sl k j Hb Hs Hk Hj) as (H1 & H2 & bits & t & H3 & H4 & H5 & H6).
    unfold support. rewrite Hage, Hst'. split; [cbn; lia|]. split; [done|].
    exists bits, t. split_and!; [done|done|done|]. intros Hf. specialize (H6 Hf). rewrite Es in H6.
    pose proof (Hfresh Hf i Hi b sl k j Hb Hs Hk Hj) as Hlt. cbv beta in Hlt.
    unfold s'. cbn [next_rotation_at rotation_interval]. rewrite rotation_after_finite by auto.
    assert (∀ x z : N, (2 * x + 1) * z = (2 * x + 0) * z + z)%N as -> by (intros; ring). lia.
  - intros Hf _. cbn. rewrite rotation_after_finite by auto. destruct Hf. lia.
  - cbn. lia.
Qed.

Lemma lookup_generations_sound gs fp key b idx acc j :
  N.testbit (lookup_generations gs fp key b idx acc) j = true →
  N.testbit acc j = true ∨ ∃ i, i ∈ idx ∧ N.testbit (gen_lookup (gs !!! i) fp key b) j = true.
Proof.
  revert acc. induction idx as [|i idx IH]; intros acc; cbn; [by left|].
  assert (N.testbit (N.lor acc (gen_lookup (gs !!! i) fp key b)) j = true →
    N.testbit acc j = true ∨ ∃ i', i' ∈ i :: idx ∧ N.testbit (gen_lookup (gs !!! i') fp key b) j = true) as H.
  { rewrite N.lor_spec, orb_true_iff. intros [?|?]; [by left|right]. exists i. by split; [left|]. }
  destruct (_ =? _)%N; [done|]. intros Hj. destruct (IH _ Hj) as [?|(i' & ? & ?)]; [by apply H|].
  right. exists i'. by split; [right|].
Qed.

Lemma u64_max_testbit j : (j < 64)%N → N.testbit u64_max j = true.
Proof. intros Hj. change u64_max with (N.ones 64). by apply N.ones_spec_low. Qed.

Lemma lookup_generations_complete gs fp key b idx acc i j :
  (j < 64)%N →
  N.testbit acc j = true ∨ (i ∈ idx ∧ N.testbit (gen_lookup (gs !!! i) fp key b) j = true) →
  N.testbit (lookup_generations gs fp key b idx acc) j = true.
Proof.
  intros Hj. revert acc. induction idx as [|i' idx IH]; intros acc; cbn [lookup_generations].
  { by intros [?|[[]%elem_of_nil _]]. }
  intros H. destruct (N.eqb_spec (N.lor acc (gen_lookup (gs !!! i') fp key b)) ALL_BACKEND_BITS) as [->|_].
  { by apply u64_max_testbit. }
  apply IH. rewrite N.lor_spec. destruct H as [->|[[->|?]%elem_of_cons Hl]]; [by left| |by right].
  left. by rewrite Hl, orb_true_r.
Qed.

Lemma set_current_inv hist now s g :
  filter_inv hist now s → gen_ok (blocks_per_generation s) g →
  started_at g = started_at (gen_at s (current_generation s)) →
  gen_sup (blocks_per_generation s) g (support s hist now 0) →
  filter_inv hist now (set_generation s (current_generation s) g).
Proof.
  intros [Hok Hsup Hnx Hlive] Hg Hst Hgs. set (s' := set_generation _ _ _).
  assert (ring s' = ring s) as Hr by (unfold ring; cbn; by rewrite length_insert).
  assert (∀ i, gen_at s' i = if decide (i = current_generation s) then g else gen_at s i) as Hga
    by (intros; by apply gen_at_set).
  assert (started s' = started s) as Hst'.
  { unfold started. rewrite Hga. cbn. by rewrite decide_True, Hst by done. }
  assert (∀ o k j, support s hist now o k j → support s' hist now o k j) as Hsupp.
  { intros o k j. unfold support. by rewrite Hst'. }
  constructor; [by apply set_current_ok| |done|by rewrite Hst'].
  intros i Hi. rewrite Hr in Hi. eapply gen_sup_mono; [apply Hsupp|]. rewrite Hga.
  assert (age s' i = age s i) as -> by (unfold age; by rewrite Hr).
  destruct (decide _) as [->|]; [by rewrite age_current|by apply Hsup].
Qed.

Lemma insert_inv hist now0 now s fp key bits b :
  filter_inv hist now0 s → (now0 <= now)%N → (0 < now)%N →
  (finite s → (now + rotation_interval s < 2 ^ 64)%N) →
  (blocks_per_generation s ≠ 0 → b < blocks_per_generation s) →
  let s' := (insert_missing_bits s fp key bits b now).1 in
  filter_inv ((key, bits, now) :: hist) now s' ∧ same_shape s s'.
Proof.
  intros Hinv Hnow H0 H64 Hb. unfold insert_missing_bits.
  destruct (rotate_inv hist now0 now s) as (Hi1 & (Hs1 & Hs2 & Hs3) & Hfresh); [done|done|done|].
  destruct (rotate_if_needed s now) as [s1 ev]. cbn [fst] in *.
  assert (hist ⊆ (key, bits, now) :: hist) as Hsub by set_solver.
  destruct ((blocks_per_generation s1 =? 0) || (bits =? 0)%N || (rotation_interval s1 =? 0)%N) eqn:Hz.
  { split; [|by split_and!]. apply (filter_inv_mono hist _ now); [done|lia|done]. }
  reflect_bools. rewrite Hs2 in *. specialize (Hb ltac:(done)).
  assert (finite s ↔ finite s1) as Hff by (unfold finite; by rewrite Hs3).
  destruct (ensure_started_inv hist now s1) as (Hi2 & (Hs1' & Hs2' & Hs3') & Hst & Hcur & _);
    [done|done|by rewrite <- Hff, Hs3|rewrite <- Hff, Hs1, Hs2; exact Hfresh|].
  set (s2 := ensure_current_generation_started s1 now) in *.
  pose proof (filter_inv_mono hist _ now now s2 Hsub (N.le_refl _) Hi2) as [Hok Hsup Hnx Hlive].
  fold (gen_at s2 (current_generation s2)).
  assert (blocks_per_generation s2 = blocks_per_generation s) as HB by congruence.
  pose proof (gen_at_ok s2 _ Hok (fo_current s2 Hok)) as Hg. rewrite HB in Hg.
  pose proof (gen_ok_insert _ _ fp key bits b Hg Hb) as Hgi.
  pose proof (gen_sup_insert _ _ fp key bits b (support s2 ((key, bits, now) :: hist) now 0) Hg Hb) as Hgs.
  pose proof (gen_insert_spec _ _ fp key bits b Hg Hb) as (sl & o' & _ & _ & Heq).
  destruct (gen_insert (gen_at s2 (current_generation s2)) fp key bits b) as [g' o]. cbn [fst] in *.
  set (g'' := count_inserted g' o).
  assert (∀ b' sl', view g'' b' sl' = view g' b' sl') as Hv by (by intros; unfold g''; destruct o).
  assert (gen_ok (blocks_per_generation s) g'') as Hgok''.
  { unfold g''. destruct o; [by destruct Hgi; constructor|done|done]. }
  assert (started_at g'' = started_at (gen_at s2 (current_generation s2))) as Hstart.
  { injection Heq as -> _. unfold g''. by destruct o. }
  split; [|unfold same_shape, ring in *; cbn; rewrite length_insert; by split_and!; congruence].
  apply set_current_inv; [done|by rewrite HB|done|]. rewrite HB. intros b' sl' k j ??. rewrite Hv.
  apply Hgs; [| |done|done].
  - intros j' Hj'. split; [by apply Hlive|]. split; [done|]. exists bits, now. split_and!; [by left|done|lia|].
    intros Hf. specialize (Hnx Hf (Hlive Hst)). rewrite Hst. lia.
  - rewrite <- HB, <- (age_current s2). apply Hsup, Hok.
Qed.

Lemma lookup_inv hist now0 now s fp key b :
  filter_inv hist now0 s → (now0 <= now)%N → (finite s → (now + rotation_interval s < 2 ^ 64)%N) →
  (blocks_per_generation s ≠ 0 → b < blocks_per_generation s) →
  let '(s', bits, _) := lookup_missing_bits s fp key b now in
  filter_inv hist now s' ∧ same_shape s s' ∧ s' = (rotate_if_needed s now).1 ∧
  ∀ j, N.testbit bits j = true →
    ∃ bits' t, (key, bits', t) ∈ hist ∧ N.testbit bits' j = true ∧ (t <= now)%N ∧
      (finite s → (now < t + (2 * N.of_nat (ring s) - 1) * rotation_interval s)%N).
Proof.
  intros Hinv Hnow H64 Hb. unfold lookup_missing_bits.
  destruct (rotate_inv hist now0 now s) as (Hi1 & (Hs1 & Hs2 & Hs3) & Hfresh); [done|done|done|].
  destruct (rotate_if_needed s now) as [s1 ev]. cbn [fst] in *. pose proof Hi1 as [Hok Hsup _ _].
  destruct ((blocks_per_generation s1 =? 0) || bool_decide (generations s1 = [])) eqn:Hz.
  { split; [done|]. split; [by split_and!|]. split; [done|]. intros j. by rewrite N.bits_0. }
  reflect_bools. rewrite Hs2 in *. specialize (Hb ltac:(done)).
  split; [done|]. split; [by split_and!|]. split; [done|]. intros j Hj.
  apply lookup_generations_sound in Hj as [Hj|(i & Hi & Hj)]; [by rewrite N.bits_0 in Hj|].
  apply elem_of_active in Hi as [Hi Hlive]; [|apply Hok|apply Hok].
  fold (ring s1) in Hi. pose proof (gen_at_ok s1 i Hok Hi) as Hg. fold (gen_at s1 i) in Hj. rewrite Hs2 in Hg.
  pose proof (gen_sup_lookup _ _ fp key b _ j Hg Hb (Hsup i Hi) Hj) as (_ & _ & bits & t & H3 & H4 & H5 & H6).
  exists bits, t. split_and!; [done|done|done|]. intros Hf. rewrite Hs1 in Hi.
  pose proof (gen_sup_lookup _ _ fp key b _ j Hg Hb (Hfresh Hf i Hi) Hj) as Hlt. cbv beta in Hlt.
  assert (finite s1) as Hf1 by (unfold finite; by rewrite Hs3). specialize (H6 Hf1). rewrite Hs3 in H6.
  assert (age s1 i < ring s) as Ha by (rewrite <- Hs1; apply offset_lt; [apply Hok|by rewrite Hs1]).
  eapply N.lt_le_trans; [exact Hlt|]. etrans; [exact H6|]. apply N.add_le_mono_l, N.mul_le_mono_r.
  destruct (started s1); lia.
Qed.

(** ** Retention *)

(** A record of [bits] for [key] at time [t] is still in an active generation,
    with at least [ring - 1 - age] rotations left. *)
Definition present (s : FilterState) (fp : ArticleFingerprint) (key : bytes) (b : nat) (bits t : N) : Prop :=
  ∃ i, i < ring s ∧ age s i < live_generations s ∧ holds (gen_at s i) fp key b bits ∧
    (finite s → (t + N.of_nat (age s i) * rotation_interval s < next_rotation_at s)%N).

Lemma present_lookup s fp key b bits t j :
  filter_ok s → (j < 64)%N → present s fp key b bits t → N.testbit bits j = true →
  N.testbit (lookup_generations (generations s) fp key b (active_generation_indices s) 0) j = true.
Proof.
  intros Hok Hj (i & Hi & Hl & Hh & _) Hb. apply (lookup_generations_complete _ _ _ _ _ _ i); [done|]. right.
  split; [|by apply Hh]. apply elem_of_active; [apply Hok|apply Hok|done].
Qed.

Lemma present_rotate hist now s fp key b bits t :
  filter_inv hist now s → rotation_interval s ≠ 0%N →
  (finite s → (now + rotation_interval s < 2 ^ 64)%N ∧
              (now <= t + (N.of_nat (ring s) - 1) * rotation_interval s)%N) →
  present s fp key b bits t → present (rotate_if_needed s now).1 fp key b bits t.
Proof.
  intros Hinv HI0 Hfin (i & Hi & Hl & Hh & Hnext). pose proof Hinv as [Hok _ _ _].
  destruct (rotate_split s now) as [Hd|[Hd|[_ ?]]]; [|rewrite rotate_not_due by done; by exists i|done].
  destruct (rotate_state s now Hok Hd) as (Hok' & (Hs1 & Hs2 & Hs3) & Hro & Hr).
  destruct Hd as (Hf & HB & Hl0 & Hn). destruct (Hfin Hf) as [H64 Hret]. specialize (Hnext Hf).
  destruct (rotations_bounds s now Hf) as (E & _ & _); [lia|done|].
  set (s' := (rotate_if_needed s now).1) in *. set (r := rotations_due s now) in *.
  rewrite <- (ro_next s r s' Hro) in E.
  assert (age s i + r < ring s) as Har.
  { assert ((N.of_nat r - 1) * rotation_interval s <= now - next_rotation_at s)%N as Hq.
    { etrans; [|apply (N.Div0.mul_div_le _ (rotation_interval s))]. rewrite N.mul_comm.
      apply N.mul_le_mono_l. unfold r, rotations_due.
      generalize (sat_sub now (next_rotation_at s) / rotation_interval s)%N. lia. }
    assert (N.of_nat (age s i) + (N.of_nat r - 1) < N.of_nat (ring s) - 1)%N; [|lia].
    apply (N.mul_lt_mono_pos_r (rotation_interval s)); [lia|]. lia. }
  pose proof (ro_gens s r s' Hro i Hi) as Hg. rewrite (proj2 (Nat.ltb_lt _ _)) in Hg by done.
  destruct Hg as [Hg Hage]. exists i. rewrite Hs1, Hg, Hage, (ro_live s r s' Hro). split_and!; [done|lia|done|].
  intros _. rewrite Hs3, E. lia.
Qed.

Lemma holds_ext g g' fp key b bits :
  blocks g' = blocks g → keys g' = keys g → holds g fp key b bits → holds g' fp key b bits.
Proof. destruct g, g'. cbn. intros -> ->. done. Qed.

Lemma ensure_started_eq s now :
  let s' := ensure_current_generation_started s now in
  (started s = true ∧ s' = s) ∨
  (started s = false ∧
   s' = mkFilter (<[current_generation s := start_generation (gen_at s (current_generation s)) now]> (generations s))
      (current_generation s) (blocks_per_generation s) (Nat.max (live_generations s) 1)
      (rotation_interval s) (rotation_after (rotation_interval s) now)).
Proof.
  unfold ensure_current_generation_started. fold (gen_at s (current_generation s)) (started s).
  destruct (started s); [by left|by right].
Qed.

Lemma present_ensure hist now s fp key b bits t :
  filter_inv hist now s → (finite s → (now + rotation_interval s < 2 ^ 64)%N) →
  present s fp key b bits t → present (ensure_current_generation_started s now) fp key b bits t.
Proof.
  intros Hinv H64 Hp. destruct (ensure_started_eq s now) as [[_ ->]|[_ E]]; [done|].
  destruct Hp as (i & Hi & Hl & Hh & Hnext). rewrite E. set (s' := mkFilter _ _ _ _ _ _).
  assert (ring s' = ring s) as Hr by (unfold ring; cbn; by rewrite length_insert).
  assert (age s' i = age s i) as Ha by (unfold age; by rewrite Hr).
  exists i. rewrite Hr, Ha. split_and!; [done|cbn; lia| |].
  - assert (gen_at s' i = _) as -> by apply (gen_at_set s (start_generation (gen_at s (current_generation s)) now) i), Hinv.
    by destruct (decide _) as [->|].
  - intros Hf. specialize (Hnext Hf). destruct Hinv as [_ _ Hnx _]. specialize (Hnx Hf ltac:(lia)).
    cbn. rewrite rotation_after_finite by auto. lia.
Qed.

Lemma insert_eq s fp key bits b now :
  let s1 := (rotate_if_needed s now).1 in
  let s2 := ensure_current_generation_started s1 now in
  let g := gen_insert (gen_at s2 (current_generation s2)) fp key bits b in
  (insert_missing_bits s fp key bits b now).1 =
  if (blocks_per_generation s1 =? 0) || (bits =? 0)%N || (rotation_interval s1 =? 0)%N then s1
  else set_generation s2 (current_generation s2) (count_inserted g.1 g.2).
Proof.
  unfold insert_missing_bits. destruct (rotate_if_needed s now) as [s1 ev]. cbn [fst].
  destruct (_ || _); [done|]. fold (gen_at (ensure_current_generation_started s1 now)
    (current_generation (ensure_current_generation_started s1 now))).
  by destruct (gen_insert _ _ _ _ _) as [g o].
Qed.

Lemma holds_counted g o fp key b bits : holds g fp key b bits → holds (count_inserted g o) fp key b bits.
Proof. intros H. destruct o; [|done|done]. by eapply (holds_ext g). Qed.

Lemma present_set s fp key b bits t g :
  filter_ok s →
  present s fp key b bits t →
  (holds (gen_at s (current_generation s)) fp key b bits → holds g fp key b bits) →
  present (set_generation s (current_generation s) g) fp key b bits t.
Proof.
  intros Hok (i & Hi & Hl & Hh & Hn) Hg. set (s' := set_generation _ _ _).
  assert (ring s' = ring s) as Hr by (unfold ring; cbn; by rewrite length_insert).
  assert (age s' i = age s i) as Ha by (unfold age; by rewrite Hr).
  exists i. rewrite Hr, Ha. split_and!; [done|done| |done].
  unfold s'. rewrite gen_at_set by done. destruct (decide _) as [->|]; [by apply Hg|done].
Qed.

(** Recording another article keeps a present one, unless it needs its block. *)
Lemma present_insert_other hist now0 now s fp key b bits t fp' key' bits' b' :
  filter_inv hist now0 s → (now0 <= now)%N → (0 < now)%N → rotation_interval s ≠ 0%N →
  (finite s → (now + rotation_interval s < 2 ^ 64)%N ∧
              (now <= t + (N.of_nat (ring s) - 1) * rotation_interval s)%N) →
  b < blocks_per_generation s → b' < blocks_per_generation s → b' ≠ b ∨ (fp' = fp ∧ key' = key) →
  present s fp key b bits t → present (insert_missing_bits s fp' key' bits' b' now).1 fp key b bits t.
Proof.
  intros Hinv Hnow H0 HI Hfin Hb Hb' Hd Hp. apply (filter_inv_mono hist hist _ now) in Hinv; [|done|done].
  apply (present_rotate hist now) in Hp; [|done|done|done].
  destruct (rotate_inv hist now now s) as (Hi1 & (Hs1 & Hs2 & Hs3) & Hfresh); [done|lia|by intros; apply Hfin|].
  rewrite insert_eq. cbv zeta. set (s1 := (rotate_if_needed s now).1) in *.
  destruct (_ || _); [done|]. assert (finite s ↔ finite s1) as Hff by (unfold finite; by rewrite Hs3).
  apply (present_ensure hist now) in Hp; [|done|rewrite <- Hff, Hs3; by intros; apply Hfin].
  destruct (ensure_started_inv hist now s1) as (Hi2 & (Hr1 & Hr2 & Hr3) & _);
    [done|done|rewrite <- Hff, Hs3; by intros; apply Hfin|rewrite <- Hff, Hs1, Hs2; exact Hfresh|].
  set (s2 := ensure_current_generation_started s1 now) in *.
  apply present_set; [apply Hi2|done|]. intros Hh. apply holds_counted.
  apply (holds_insert_other (blocks_per_generation s2)); [|congruence|congruence|done|done].
  apply gen_at_ok; apply Hi2.
Qed.

(** After a rotation, a started ring is not due. *)
Lemma rotate_started hist now s :
  filter_inv hist now s → finite s → 0 < blocks_per_generation s →
  let s' := (rotate_if_needed s now).1 in
  started s' = true → (now < next_rotation_at s')%N.
Proof.
  intros [Hok Hsup Hnx Hlive] Hf HB. cbv zeta. destruct (rotate_split s now) as [Hd|[Hd|[_ HI]]].
  - destruct (rotate_state s now Hok Hd) as (_ & _ & Hro & _). by rewrite (ro_started _ _ _ Hro).
  - rewrite rotate_not_due by done. intros Hst. specialize (Hnx Hf (Hlive Hst)). specialize (Hlive Hst).
    destruct Hd as [?|[HI|[_ ?]]]; [lia|by destruct Hf|lia].
  - by destruct Hf.
Qed.

(** A recorded miss is present. *)
Lemma present_insert hist now0 now s fp key b bits :
  filter_inv hist now0 s → (now0 <= now)%N → (0 < now)%N → rotation_interval s ≠ 0%N → bits ≠ 0%N →
  (finite s → (now + rotation_interval s < 2 ^ 64)%N) → b < blocks_per_generation s →
  present (insert_missing_bits s fp key bits b now).1 fp key b bits now.
Proof.
  intros Hinv Hnow H0 HI Hbits Hfin Hb. apply (filter_inv_mono hist hist _ now) in Hinv; [|done|done].
  destruct (rotate_inv hist now now s) as (Hi1 & (Hs1 & Hs2 & Hs3) & Hfresh); [done|lia|done|].
  rewrite insert_eq. cbv zeta. pose proof (rotate_started hist now s Hinv) as Hrs.
  set (s1 := (rotate_if_needed s now).1) in *.
  rewrite (proj2 (Nat.eqb_neq _ _)), (proj2 (N.eqb_neq bits _)), (proj2 (N.eqb_neq (rotation_interval s1) _)) by (lia || congruence).
  cbn [orb]. assert (finite s ↔ finite s1) as Hff by (unfold finite; by rewrite Hs3).
  destruct (ensure_started_inv hist now s1) as (Hi2 & (Hr1 & Hr2 & Hr3) & Hst & _);
    [done|done|rewrite <- Hff, Hs3; done|rewrite <- Hff, Hs1, Hs2; exact Hfresh|].
  set (s2 := ensure_current_generation_started s1 now) in *.
  assert (finite s → (now < next_rotation_at s2)%N) as Hlt.
  { intros Hf. unfold s2. destruct (ensure_started_eq s1 now) as [[E ->]|[_ ->]].
    - apply Hrs; [done|lia|done].
    - cbn. rewrite rotation_after_finite; [destruct Hf; lia|by apply Hff|rewrite Hs3; by apply Hfin]. }
  set (g := gen_insert _ _ _ _ _). set (s' := set_generation _ _ _).
  assert (ring s' = ring s2) as Hr by (unfold ring; cbn; by rewrite length_insert).
  assert (age s' (current_generation s2) = 0) as Ha by apply (age_current s').
  exists (current_generation s2). rewrite Hr, Ha. split_and!.
  - apply Hi2.
  - apply (fi_started hist now s2 Hi2 Hst).
  - unfold s'. rewrite gen_at_set, decide_True by (done || apply Hi2). apply holds_counted.
    apply (holds_insert (blocks_per_generation s2)); [apply gen_at_ok; apply Hi2|congruence].
  - intros Hf. rewrite N.mul_0_l, N.add_0_r. apply Hlt. unfold finite in *. cbn in Hf. by rewrite <- Hs3, <- Hr3.
Qed.

(** ** Untimed support, for restored filters *)

Definition filter_sup (s : FilterState) (S : bytes → N → Prop) : Prop :=
  filter_ok s ∧ ∀ i, i < ring s → gen_sup (blocks_per_generation s) (gen_at s i) S.

Lemma reset_sup s S : filter_ok s → filter_sup (reset s) S ∧ same_shape s (reset s).
Proof.
  intros Hok. assert (ring (reset s) = ring s) as Hr by (unfold ring; cbn; by rewrite length_fmap).
  split; [|by split_and!]. split; [by apply reset_ok|]. rewrite Hr. intros i Hi. by apply (reset_gen s).
Qed.

Lemma rotate_sup s now S :
  filter_sup s S → filter_sup (rotate_if_needed s now).1 S ∧ same_shape s (rotate_if_needed s now).1.
Proof.
  intros [Hok HS]. destruct (rotate_split s now) as [Hd|[Hd|[HB HI]]].
  - destruct (rotate_state s now Hok Hd) as (Hok' & Hsh & Hro & _). split; [|done]. split; [done|].
    destruct Hsh as (H1 & H2 & _). rewrite H1, H2. intros i Hi. pose proof (ro_gens _ _ _ Hro i Hi) as Hg.
    destruct (_ <? _); [destruct Hg as [-> _]; by apply HS|]. rewrite Hg. by apply gen_sup_clear, gen_at_ok.
  - by rewrite rotate_not_due.
  - rewrite rotate_zero by done. by apply reset_sup.
Qed.

Lemma lookup_sup s S fp key b now :
  filter_sup s S → (blocks_per_generation s ≠ 0 → b < blocks_per_generation s) →
  let '(s', bits, _) := lookup_missing_bits s fp key b now in
  ∀ j, N.testbit bits j = true → S key j.
Proof.
  intros HS Hb. unfold lookup_missing_bits. destruct (rotate_sup s now S HS) as [[Hok HS'] (H1 & H2 & _)].
  destruct (rotate_if_needed s now) as [s1 ev]. cbn [fst] in *.
  destruct ((blocks_per_generation s1 =? 0) || _) eqn:Hz; intros j Hj; [by rewrite N.bits_0 in Hj|].
  reflect_bools. rewrite H2 in *. specialize (Hb ltac:(done)).
  apply lookup_generations_sound in Hj as [Hj|(i & Hi & Hj)]; [by rewrite N.bits_0 in Hj|].
  apply elem_of_active in Hi as [Hi _]; [|apply Hok|apply Hok].
  pose proof (gen_at_ok s1 i Hok Hi) as Hg. rewrite H2 in Hg.
  by apply (gen_sup_lookup _ _ fp key b _ j Hg Hb (HS' i Hi)).
Qed.

Lemma set_generation_sup s i g S :
  filter_sup s S → i < ring s → gen_ok (blocks_per_generation s) g → gen_sup (blocks_per_generation s) g S →
  filter_sup (set_generation s i g) S ∧ same_shape s (set_generation s i g).
Proof.
  intros [[Hc Hl Hg] HS] Hi Hok HgS.
  assert (ring (set_generation s i g) = ring s) as Hr by (unfold ring; cbn; by rewrite length_insert).
  split; [|by split_and!]. split.
  - constructor; cbn; rewrite ?length_insert; [done|done|by apply Forall_insert].
  - rewrite Hr. intros k Hk. unfold gen_at, set_generation. cbn. rewrite list_lookup_total_insert.
    destruct (decide _) as [[_ _]|]; [done|by apply HS].
Qed.

Lemma restore_entry_sup s e b now ttl S :
  filter_sup s S → (blocks_per_generation s ≠ 0 → b < blocks_per_generation s) →
  ((sat_sub now (pe_inserted_at e) < ttl)%N → ∀ j, N.testbit (pe_missing e) j = true → S (pe_key e) j) →
  filter_sup (restore_entry s e b now ttl).1 S ∧ same_shape s (restore_entry s e b now ttl).1.
Proof.
  intros [Hok HS] Hb HeS. unfold restore_entry. destruct (_ || _) eqn:Hz; [done|]. reflect_bools.
  specialize (HeS ltac:(done)). specialize (Hb ltac:(done)).
  set (off := restore_offset _ _ _). set (i := _ mod _). set (s1 := mkFilter _ _ _ _ _ _). fold (gen_at s i).
  pose proof (ring_pos s Hok) as Hr. assert (i < ring s) as Hi by (apply Nat.mod_upper_bound; unfold ring in *; lia).
  assert (off < ring s) as Hoff by (unfold off, restore_offset, ring in *; lia).
  assert (filter_sup s1 S) as Hs1.
  { split; [|exact HS]. destruct Hok as [Hc Hl Hg]. constructor; cbn; [done|unfold ring in *; lia|done]. }
  match goal with |- context [gen_insert ?g ?fp ?k ?m b] =>
    pose proof (gen_ok_insert (blocks_per_generation s) g fp k m b) as Hgok;
    pose proof (gen_sup_insert (blocks_per_generation s) g fp k m b S) as Hgs;
    destruct (gen_insert g fp k m b) as [g' o] end. cbn [fst] in *.
  assert (gen_ok (blocks_per_generation s) g') as Hg' by (apply Hgok; [apply gen_ok_start; by apply gen_at_ok|done]).
  destruct (set_generation_sup s1 i (count_inserted g' o) S) as [Hset Hshape]; [done|done| | |].
  - destruct o; [by destruct Hg'; constructor|done|done].
  - intros b' sl k j ??. assert (view (count_inserted g' o) b' sl = view g' b' sl) as -> by by destruct o.
    apply Hgs; [apply gen_ok_start; by apply gen_at_ok|done|done|exact (HS i Hi)|done|done].
  - by split.
Qed.

Lemma latest_generation_lt gs i : latest_generation gs = Some i → i < length gs.
Proof.
  unfold latest_generation. intros H.
  assert (∀ l best, (∀ j, j ∈ l → j < length gs) → (∀ j, best = Some j → j < length gs) →
    ∀ k, foldl (λ best i, let t := started_at (gs !!! i) in
      if (t =? 0)%N then best
      else match best with
           | None => Some i
           | Some j => if (started_at (gs !!! j) <=? t)%N then Some i else Some j
           end) best l = Some k → k < length gs) as Hgen.
  { induction l as [|x l IH]; intros best Hl Hb k; cbn [foldl]; [auto|]. apply IH; [set_solver|].
    intros j. cbv zeta. repeat case_match; intros E; simplify_eq; auto; apply Hl; set_solver. }
  eapply Hgen; [| |exact H]; [|done]. intros j Hj%elem_of_seq. lia.
Qed.

Lemma reanchor_sup s S :
  filter_sup s S → filter_sup (reanchor_current_generation s) S ∧ same_shape s (reanchor_current_generation s).
Proof.
  intros [[Hc Hl Hg] HS]. unfold reanchor_current_generation.
  destruct (latest_generation (generations s)) as [i|] eqn:E; [|by split].
  apply latest_generation_lt in E. split; [|done]. split; [by constructor|exact HS].
Qed.
