(* ===== verification/Index.v ===== *)
(** * Index: the sharded index of missing articles and its snapshot

    Models [AvailabilityIndex] of [src/src/cache/availability_index.rs]: the
    geometry of the shards, the partition of the article keys, the publication
    latch, recording and lookup, and the snapshot written to and read from
    disk.  Each operation locks the one shard of its key, so an execution is a
    sequence of operations with their clock readings; the clock is the argument
    [now].  [XxHash64] is an argument of the model, a function of the seed and
    the bytes. *)

From S2P Require Import Prelude Protocol Wire Availability Filter.

Definition DEFAULT_GENERATIONS : nat := 2.
Definition DEFAULT_SHARDS : nat := 32.
Definition MAX_BACKENDS : nat := 64.

(** [size_of::<Block>()]: two hashes, two bit sets and two tags, aligned to 8. *)
Definition SIZE_OF_BLOCK : N := 40.
Definition FIXED_TOTAL_BLOCKS : N := 256 * 1024 / N.of_nat BLOCK_SLOTS.
Definition FIXED_CAPACITY_BYTES : N := FIXED_TOTAL_BLOCKS * SIZE_OF_BLOCK.

Record ShardState := mkShard {
  sh_filter : FilterState;
  sh_hits : N;
  sh_misses : N;
  sh_evictions : N;
  sh_initial_misses : N }.

#[global] Instance FilterState_inhabited : Inhabited FilterState := populate (new_filter 0 1 0).
#[global] Instance ShardState_inhabited : Inhabited ShardState :=
  populate (mkShard (new_filter 0 1 0) 0 0 0 0).

Record AvailabilityIndex := mkIndex {
  ix_shards : list ShardState;
  ix_populated : bool;
  ix_blocks : nat;
  ix_layout : AvailabilityLayout;
  ix_capacity : N;
  ix_ttl : N }.

Definition rotation_interval_of (ttl : N) (generation_count : nat) : N :=
  if (ttl =? 0)%N then 0
  else if (ttl =? u64_max)%N then u64_max
  else N.max (ttl / N.of_nat generation_count) 1.

Definition with_geometry (capacity_bytes ttl : N) (generation_count shard_count : nat)
    : AvailabilityIndex :=
  let total_blocks := N.to_nat (capacity_bytes / SIZE_OF_BLOCK) in
  let generation_count := Nat.min (Nat.max generation_count 1) (Nat.max total_blocks 1) in
  let blocks := if total_blocks =? 0 then 0 else total_blocks / generation_count in
  let interval := rotation_interval_of ttl generation_count in
  let shard_count := Nat.min (Nat.max shard_count 1) (Nat.max blocks 1) in
  mkIndex
    ((λ shard, mkShard
        (new_filter (blocks / shard_count + (if shard <? blocks mod shard_count then 1 else 0))
           generation_count interval) 0 0 0 0) <$> seq 0 shard_count)
    false blocks (synthetic MAX_BACKENDS) capacity_bytes ttl.

(** [with_ttl] and [with_layout]. *)
Definition with_ttl (ttl : N) : AvailabilityIndex :=
  with_geometry FIXED_CAPACITY_BYTES ttl DEFAULT_GENERATIONS DEFAULT_SHARDS.

Definition with_layout (ttl : N) (layout : AvailabilityLayout) : AvailabilityIndex :=
  let ix := with_ttl ttl in
  mkIndex (ix_shards ix) (ix_populated ix) (ix_blocks ix) layout (ix_capacity ix) (ix_ttl ix).

Definition normalize_hash (hash : N) : N := if (hash =? 0)%N then 1 else hash.

Definition block_index (hash : N) (block_count : nat) : nat :=
  N.to_nat (N.lxor (N.shiftr hash 32) hash mod N.of_nat block_count).

Definition locate_bucket (ix : AvailabilityIndex) (global : nat) : nat * nat :=
  (global mod length (ix_shards ix), global / length (ix_shards ix)).

Definition locate_hash (ix : AvailabilityIndex) (hash : N) : nat * nat :=
  locate_bucket ix (if ix_blocks ix =? 0 then 0 else block_index hash (ix_blocks ix)).

Definition set_shard (ix : AvailabilityIndex) (i : nat) (sh : ShardState) : AvailabilityIndex :=
  mkIndex (<[i := sh]> (ix_shards ix)) (ix_populated ix) (ix_blocks ix) (ix_layout ix)
    (ix_capacity ix) (ix_ttl ix).

Definition set_populated (ix : AvailabilityIndex) : AvailabilityIndex :=
  mkIndex (ix_shards ix) true (ix_blocks ix) (ix_layout ix) (ix_capacity ix) (ix_ttl ix).

Section Operations.
  Context (xxhash64 : N → bytes → N).

Definition hash_key (key : bytes) : N * N :=
  (normalize_hash (xxhash64 0 key), N.land (xxhash64 0x9E3779B97F4A7C15 key) (2 ^ 16 - 1)).

Definition from_key (key : bytes) : ArticleFingerprint :=
  let '(hash, tag) := hash_key key in mkFingerprint hash tag.

(** [ArticlePartition::lookup] on the shard of the key. *)
Definition partition_lookup (ix : AvailabilityIndex) (key : bytes) (now : N)
    : option ArticleAvailability * AvailabilityIndex :=
  let fp := from_key key in
  let '(shard, bucket) := locate_hash ix (fp_hash fp) in
  let sh := ix_shards ix !!! shard in
  let '(f, bits, evicted) := lookup_missing_bits (sh_filter sh) fp key bucket now in
  let evictions := wrap64 (sh_evictions sh + N.of_nat evicted) in
  if (bits =? 0)%N
  then (None, set_shard ix shard
          (mkShard f (sh_hits sh) (wrap64 (sh_misses sh + 1)) evictions (sh_initial_misses sh)))
  else (Some (from_missing_bits bits), set_shard ix shard
          (mkShard f (wrap64 (sh_hits sh + 1)) (sh_misses sh) evictions (sh_initial_misses sh))).

(** [lookup_by_key]; [stripe] is the counter stripe of the worker. *)
Definition lookup_by_key (ix : AvailabilityIndex) (stripe : nat) (key : bytes) (now : N)
    : option ArticleAvailability * AvailabilityIndex :=
  if negb (ix_populated ix) then
    let i := stripe mod length (ix_shards ix) in
    let sh := ix_shards ix !!! i in
    (None, set_shard ix i (mkShard (sh_filter sh) (sh_hits sh) (sh_misses sh) (sh_evictions sh)
                             (wrap64 (sh_initial_misses sh + 1))))
  else partition_lookup ix key now.

(** [insert_missing_bits] *)
Definition index_insert (ix : AvailabilityIndex) (key : bytes) (bits now : N) : AvailabilityIndex :=
  if (length key =? 0) || (bits =? 0)%N || (ix_ttl ix =? 0)%N then ix
  else
    let fp := from_key key in
    let '(shard, bucket) := locate_hash ix (fp_hash fp) in
    let sh := ix_shards ix !!! shard in
    let '(f, evicted) := insert_missing_bits (sh_filter sh) fp key bits bucket now in
    set_populated (set_shard ix shard
      (mkShard f (sh_hits sh) (sh_misses sh) (wrap64 (sh_evictions sh + N.of_nat evicted))
         (sh_initial_misses sh))).

(** [get] and [record_availability_missing]; [None] is the panic of
    [without_brackets], which a [MessageId] never causes. *)
Definition index_get (ix : AvailabilityIndex) (stripe : nat) (m : MessageId) (now : N)
    : option (option ArticleAvailability * AvailabilityIndex) :=
  key ← without_brackets m; Some (lookup_by_key ix stripe key now).

Definition record_availability_missing (ix : AvailabilityIndex) (m : MessageId)
    (slot : AvailabilitySlot) (now : N) : option AvailabilityIndex :=
  key ← without_brackets m; Some (index_insert ix key (slot_bit slot) now).
End Operations.

(** ** The snapshot file *)

Definition PERSISTENCE_MAGIC : bytes := bs "ANEGSIM7".

Definition LEGACY_MAGICS : list bytes :=
  [bs "ANEGIDX1"; bs "ANEGIDX2"; bs "ANEGSIM1"; bs "ANEGSIM2"; bs "ANEGSIM3"; bs "ANEGSIM4";
   bs "ANEGSIM5"; bs "ANEGSIM6"].

Definition MAX_IDENTITY_FIELD_BYTES : N := 1024 * 1024.

Definition write_identity (identity : bytes) : result WireError bytes :=
  if (N.of_nat (length identity) <? 2 ^ 32)%N
  then Ok (to_le_bytes 4 (N.of_nat (length identity)) ++ identity)
  else Err InvalidLength.

Definition key_length_ok (n : nat) : bool := (1 <=? n) && (n <=? MAX_MESSAGE_ID_BYTES).

Definition write_message_key (key : bytes) : result WireError bytes :=
  if key_length_ok (length key)
  then Ok (to_le_bytes 2 (N.of_nat (length key)) ++ key)
  else Err InvalidLength.

Definition write_entry (e : PersistedEntry) : result WireError bytes :=
  key ← write_message_key (pe_key e);
  mret (to_le_bytes 8 (pe_hash e) ++ to_le_bytes 2 (pe_tag e) ++ key ++
        to_le_bytes 8 (pe_missing e) ++ to_le_bytes 8 (pe_inserted_at e)).

(** The bytes [save_to_path] writes for a layout and the collected entries. *)
Definition snapshot_bytes (ids : list bytes) (entries : list PersistedEntry) : result WireError bytes :=
  identities ← mapM write_identity ids;
  rows ← mapM write_entry entries;
  mret (PERSISTENCE_MAGIC ++ to_le_bytes 8 (N.of_nat (length ids)) ++ mjoin identities ++
        to_le_bytes 8 (N.of_nat (length entries)) ++ mjoin rows).

Definition read_string : Parser bytes :=
  length ← read_u32;
  _ ← p_ensure InvalidLength (negb (MAX_IDENTITY_FIELD_BYTES <? length))%N;
  b ← read_bytes (N.to_nat length);
  _ ← p_ensure InvalidUtf8 (utf8_valid b);
  _ ← p_ensure InvalidLength (negb (bool_decide (b = [])));
  mret b.

Definition read_identity : Parser bytes :=
  host ← read_string; lift (from_persisted_host host).

Definition read_message_key : Parser bytes :=
  length ← read_u16;
  _ ← p_ensure InvalidLength (key_length_ok (N.to_nat length));
  b ← read_bytes (N.to_nat length);
  _ ← p_ensure InvalidUtf8 (utf8_valid b);
  mret b.

Definition identity_mask (identity_count : nat) : N :=
  if identity_count =? 64 then u64_max else N.shiftl 1 (N.of_nat identity_count) - 1.

Definition read_entry (identity_count : nat) : Parser PersistedEntry :=
  hash ← read_u64;
  tag ← read_u16;
  key ← read_message_key;
  missing ← read_u64;
  _ ← p_ensure BitsExceedTable (N.ldiff missing (identity_mask identity_count) =? 0)%N;
  inserted_at ← read_u64;
  mret (mkEntry hash tag key missing inserted_at).

Definition has_duplicates (ids : list bytes) : bool := negb (bool_decide (NoDup ids)).

(** [parse_snapshot]: [Ok None] is a legacy file. *)
Definition parse_snapshot (data : bytes) : result WireError (option (list bytes * list PersistedEntry)) :=
  if length data <? length PERSISTENCE_MAGIC + 8 then Err Truncated
  else
    let magic := take (length PERSISTENCE_MAGIC) data in
    if bool_decide (magic ∈ LEGACY_MAGICS) then Ok None
    else if negb (bool_decide (magic = PERSISTENCE_MAGIC)) then Err InvalidFormat
    else
      '(identity_count, cursor) ← read_u64 data (length PERSISTENCE_MAGIC);
      _ ← ensure TooManyIdentities (identity_count <=? N.of_nat MAX_BACKENDS)%N;
      '(ids, cursor) ← read_many (N.to_nat identity_count) read_identity data cursor;
      _ ← ensure DuplicateIdentity (negb (has_duplicates ids));
      '(entry_count, cursor) ← read_u64 data cursor;
      _ ← ensure InvalidEntryCount
            (entry_count <=? N.of_nat ((length data - cursor) / (8 + 2 * 2 + 8 + 8)))%N;
      '(entries, cursor) ←
        read_many (N.to_nat entry_count) (read_entry (N.to_nat identity_count)) data cursor;
      _ ← ensure TrailingBytes (cursor =? length data);
      Ok (Some (ids, entries)).

(** ** Restoring a snapshot *)

(** [sort_by_key(inserted_at)], a stable sort. *)
Fixpoint insert_by_age (e : PersistedEntry) (l : list PersistedEntry) : list PersistedEntry :=
  match l with
  | [] => [e]
  | e' :: l' => if (pe_inserted_at e <? pe_inserted_at e')%N then e :: l else e' :: insert_by_age e l'
  end.

Definition sort_by_age (l : list PersistedEntry) : list PersistedEntry :=
  foldl (λ acc e, insert_by_age e acc) [] l.

(** The stored bits in the layout of the running index. *)
Definition remap_bits (layout : AvailabilityLayout) (ids : list bytes) (bits : N) : N :=
  foldl N.lor 0%N
    (slot_bit <$> omap (slot_for_identity layout)
       (omap (λ p, if negb (N.land bits (N.shiftl 1 (N.of_nat p.1)) =? 0)%N then Some p.2 else None)
          (imap (λ i identity, (i, identity)) ids))).

Definition restore_one (layout : AvailabilityLayout) (ids : list bytes) (now : N)
    (ix : AvailabilityIndex) (e : PersistedEntry) : AvailabilityIndex :=
  let mapped := mkEntry (pe_hash e) (pe_tag e) (pe_key e)
                  (remap_bits layout ids (pe_missing e)) (pe_inserted_at e) in
  let '(shard, bucket) := locate_hash ix (pe_hash e) in
  let sh := ix_shards ix !!! shard in
  let '(f, evicted) := restore_entry (sh_filter sh) mapped bucket now (ix_ttl ix) in
  set_shard ix shard (mkShard f (sh_hits sh) (sh_misses sh)
                        (wrap64 (sh_evictions sh + N.of_nat evicted)) (sh_initial_misses sh)).

Definition map_shards (f : ShardState → ShardState) (ix : AvailabilityIndex) : AvailabilityIndex :=
  mkIndex (f <$> ix_shards ix) (ix_populated ix) (ix_blocks ix) (ix_layout ix) (ix_capacity ix)
    (ix_ttl ix).

Definition reanchor_shard (sh : ShardState) : ShardState :=
  if live_generations (sh_filter sh) =? 0 then sh
  else mkShard (reanchor_current_generation (sh_filter sh)) (sh_hits sh) (sh_misses sh)
         (sh_evictions sh) (sh_initial_misses sh).

Definition restore_into (ids : list bytes) (entries : list PersistedEntry) (ix : AvailabilityIndex)
    (now : N) : AvailabilityIndex :=
  let ix := map_shards (λ sh, mkShard (reset (sh_filter sh)) 0 0 0 0) ix in
  let ix := foldl (restore_one (ix_layout ix) ids now) ix (sort_by_age entries) in
  let ix := map_shards reanchor_shard ix in
  if existsb (λ sh, negb (occupied_slots (sh_filter sh) =? 0)) (ix_shards ix)
  then set_populated ix else ix.

(** [snapshot_entries] over the shards, in allocation order. *)
Definition index_snapshot (ix : AvailabilityIndex) (now : N)
    : AvailabilityIndex * option (list PersistedEntry) :=
  (map_shards (λ sh,
     let '(f, _, evicted) := snapshot_entries (sh_filter sh) now in
     mkShard f (sh_hits sh) (sh_misses sh) (wrap64 (sh_evictions sh + N.of_nat evicted))
       (sh_initial_misses sh)) ix,
   rows ← mapM (λ sh, (snapshot_entries (sh_filter sh) now).1.2) (ix_shards ix);
   Some (mjoin rows)).

(** [load_from_path]: [None] is a missing file. *)
Definition load_snapshot (ix : AvailabilityIndex) (file : option bytes) (now : N)
    : result WireError (bool * AvailabilityIndex) :=
  match file with
  | None => Ok (false, ix)
  | Some data =>
      snapshot ← parse_snapshot data;
      let '(ids, entries) := default ([], []) snapshot in
      Ok (true, restore_into ids entries ix now)
  end.

(** ** Executions *)

Inductive IndexOp :=
| OpRecord (key : bytes) (bits : N)
| OpLookup (stripe : nat) (key : bytes).

Section Executions.
  Context (xxhash64 : N → bytes → N).

Definition step_index (ix : AvailabilityIndex) (op : IndexOp * N) : AvailabilityIndex :=
  match op with
  | (OpRecord key bits, now) => index_insert xxhash64 ix key bits now
  | (OpLookup stripe key, now) => (lookup_by_key xxhash64 ix stripe key now).2
  end.

Definition run_index (ix : AvailabilityIndex) (ops : list (IndexOp * N)) : AvailabilityIndex :=
  foldl step_index ix ops.

Definition records (ops : list (IndexOp * N)) : History :=
  omap (λ op, match op with (OpRecord key bits, t) => Some (key, bits, t) | _ => None end) ops.

Definition last_time (now : N) (ops : list (IndexOp * N)) : N :=
  foldl (λ (_ : N) (op : IndexOp * N), op.2) now ops.

(** The clock does not go back, is past the epoch, and stays away from the end
    of the 64-bit range. *)
Fixpoint clock_ok (ttl now : N) (ops : list (IndexOp * N)) : Prop :=
  match ops with
  | [] => True
  | (_, t) :: ops =>
      (now <= t)%N ∧ (0 < t)%N ∧ (ttl ≠ u64_max → (t + ttl < 2 ^ 64)%N) ∧ clock_ok ttl t ops
  end.

Definition flt (ix : AvailabilityIndex) (i : nat) : FilterState := sh_filter (ix_shards ix !!! i).
Definition shard_count (ix : AvailabilityIndex) : nat := length (ix_shards ix).

(** The blocks of shard [i]. *)
Definition shard_blocks (ix : AvailabilityIndex) (i : nat) : nat :=
  ix_blocks ix / shard_count ix + (if i <? ix_blocks ix mod shard_count ix then 1 else 0).

Record index_inv (G : nat) (I : N) (hist : History) (now : N) (ix : AvailabilityIndex) : Prop := {
  ii_shards : 0 < shard_count ix;
  ii_filter : ∀ i, i < shard_count ix → filter_inv hist now (flt ix i);
  ii_blocks : ∀ i, i < shard_count ix → blocks_per_generation (flt ix i) = shard_blocks ix i;
  ii_ring : ∀ i, i < shard_count ix → ring (flt ix i) = G;
  ii_interval : ∀ i, i < shard_count ix → rotation_interval (flt ix i) = I }.

Lemma div_lt_share (g B n : nat) :
  g < B → 0 < n → g / n < B / n + (if g mod n <? B mod n then 1 else 0).
Proof.
  intros Hg Hn. pose proof (Nat.div_mod g n ltac:(lia)). pose proof (Nat.div_mod B n ltac:(lia)).
  pose proof (Nat.mod_upper_bound g n ltac:(lia)). pose proof (Nat.mod_upper_bound B n ltac:(lia)).
  destruct (Nat.ltb_spec (g mod n) (B mod n)); [assert (g / n <= B / n); [|lia]|]; [by apply Nat.Div0.div_le_mono; lia|].
  destruct (Nat.lt_ge_cases (g / n) (B / n)); [lia|]. nia.
Qed.

(** Every index the operations use is in range. *)
Lemma locate_in_range ix hash :
  0 < shard_count ix →
  let '(shard, bucket) := locate_hash ix hash in
  shard < shard_count ix ∧ (ix_blocks ix ≠ 0 → bucket < shard_blocks ix shard).
Proof.
  intros Hn. unfold locate_hash, locate_bucket, shard_blocks. fold (shard_count ix).
  split; [apply Nat.mod_upper_bound; lia|]. intros HB. rewrite (proj2 (Nat.eqb_neq _ _)) by done.
  apply div_lt_share; [|done]. unfold block_index.
  pose proof (N.mod_lt (N.lxor (N.shiftr hash 32) hash) (N.of_nat (ix_blocks ix)) ltac:(lia)). lia.
Qed.

Lemma flt_set_shard ix i sh j :
  i < shard_count ix → flt (set_shard ix i sh) j = if decide (j = i) then sh_filter sh else flt ix j.
Proof.
  intros Hi. unfold flt, set_shard. cbn. destruct (decide _) as [->|].
  - by rewrite list_lookup_total_insert_eq.
  - by rewrite list_lookup_total_insert_ne.
Qed.

Lemma shape_set_shard ix i sh :
  shard_count (set_shard ix i sh) = shard_count ix ∧
  ∀ j, shard_blocks (set_shard ix i sh) j = shard_blocks ix j.
Proof.
  assert (shard_count (set_shard ix i sh) = shard_count ix) as H.
  { unfold shard_count, set_shard. cbn. apply length_insert. }
  split; [done|]. intros j. unfold shard_blocks. by rewrite H.
Qed.

(** Replacing the filter of one shard. *)
Lemma set_shard_inv G I hist hist' now now' ix i sh :
  index_inv G I hist now ix → i < shard_count ix → hist ⊆ hist' → (now <= now')%N →
  filter_inv hist' now' (sh_filter sh) → same_shape (flt ix i) (sh_filter sh) →
  index_inv G I hist' now' (set_shard ix i sh).
Proof.
  intros [Hn Hf HB Hr HI] Hi Hh Ht Hinv (H1 & H2 & H3).
  destruct (shape_set_shard ix i sh) as [Hc Hsb]. constructor; rewrite ?Hc; [done|..];
    intros j Hj; rewrite flt_set_shard, ?Hsb by done; destruct (decide _) as [->|]; auto.
  - eapply filter_inv_mono; eauto.
  - rewrite H2. auto.
  - rewrite H1. auto.
  - rewrite H3. auto.
Qed.

Lemma shard_bucket ix hash :
  0 < shard_count ix →
  (∀ i, i < shard_count ix → blocks_per_generation (flt ix i) = shard_blocks ix i) →
  let '(shard, bucket) := locate_hash ix hash in
  shard < shard_count ix ∧
  (blocks_per_generation (flt ix shard) ≠ 0 → bucket < blocks_per_generation (flt ix shard)).
Proof.
  intros Hn HB. pose proof (locate_in_range ix hash Hn) as H.
  destruct (locate_hash ix hash) as [shard bucket]. destruct H as [Hs Hb]. split; [done|].
  rewrite HB by done. intros Hnz. apply Hb. intros Hz. apply Hnz. unfold shard_blocks. rewrite Hz.
  rewrite Nat.Div0.div_0_l, Nat.Div0.mod_0_l. by rewrite (proj2 (Nat.ltb_ge _ _)) by lia.
Qed.

Lemma index_insert_inv G I hist now0 now ix key bits :
  index_inv G I hist now0 ix → (now0 <= now)%N → (0 < now)%N →
  (I ≠ 0%N ∧ I ≠ u64_max → (now + I < 2 ^ 64)%N) →
  index_inv G I ((key, bits, now) :: hist) now (index_insert xxhash64 ix key bits now).
Proof.
  intros Hinv Hnow H0 H64. assert (hist ⊆ (key, bits, now) :: hist) as Hsub by set_solver.
  unfold index_insert. destruct (_ || _).
  { destruct Hinv. constructor; try done. intros i Hi. eapply filter_inv_mono; eauto. }
  pose proof (shard_bucket ix (fp_hash (from_key xxhash64 key)) (ii_shards _ _ _ _ _ Hinv) (ii_blocks _ _ _ _ _ Hinv)) as Hb.
  destruct (locate_hash ix _) as [shard bucket]. destruct Hb as [Hs Hb]. fold (flt ix shard).
  destruct (insert_inv hist now0 now (flt ix shard) (from_key xxhash64 key) key bits bucket) as [Hi Hsh];
    [by apply (ii_filter _ _ _ _ _ Hinv)|done|done| |done|].
  { unfold finite. by rewrite (ii_interval _ _ _ _ _ Hinv). }
  destruct (insert_missing_bits (flt ix shard) _ _ _ _ _) as [f ev]. cbn [fst] in *.
  assert (∀ ix', index_inv G I ((key, bits, now) :: hist) now ix' →
    index_inv G I ((key, bits, now) :: hist) now (set_populated ix')) as Hp.
  { intros ix' H. by destruct H; constructor. }
  apply Hp. by apply (set_shard_inv G I hist _ now0 now).
Qed.

Lemma index_lookup_inv G I hist now0 now ix stripe key :
  index_inv G I hist now0 ix → (now0 <= now)%N →
  (I ≠ 0%N ∧ I ≠ u64_max → (now + I < 2 ^ 64)%N) →
  let '(r, ix') := lookup_by_key xxhash64 ix stripe key now in
  index_inv G I hist now ix' ∧
  ∀ a j, r = Some a → N.testbit (missing_bits a) j = true →
    ∃ bits t, (key, bits, t) ∈ hist ∧ N.testbit bits j = true ∧ (t <= now)%N ∧
      (I ≠ 0%N ∧ I ≠ u64_max → (now < t + (2 * N.of_nat G - 1) * I)%N).
Proof.
  intros Hinv Hnow H64. unfold lookup_by_key. destruct (ix_populated ix); cbn [negb].
  2:{ split; [|done]. set (i := stripe mod _).
      assert (i < shard_count ix) as Hi by (apply Nat.mod_upper_bound; destruct Hinv; unfold shard_count in *; lia).
      apply (set_shard_inv G I hist hist now0 now); try done. cbn.
      eapply filter_inv_mono; [done|done|by apply (ii_filter _ _ _ _ _ Hinv)]. }
  unfold partition_lookup.
  pose proof (shard_bucket ix (fp_hash (from_key xxhash64 key)) (ii_shards _ _ _ _ _ Hinv) (ii_blocks _ _ _ _ _ Hinv)) as Hb.
  destruct (locate_hash ix _) as [shard bucket]. destruct Hb as [Hs Hb]. fold (flt ix shard).
  pose proof (ii_interval _ _ _ _ _ Hinv shard Hs) as HI. pose proof (ii_ring _ _ _ _ _ Hinv shard Hs) as HG.
  pose proof (lookup_inv hist now0 now (flt ix shard) (from_key xxhash64 key) key bucket
    (ii_filter _ _ _ _ _ Hinv shard Hs) Hnow) as H. unfold finite in H. rewrite HI, HG in H.
  specialize (H H64 Hb).
  destruct (lookup_missing_bits (flt ix shard) _ _ _ _) as [[f bits] ev]. destruct H as (Hi & Hsh & _ & Hsound).
  destruct (bits =? 0)%N; (split; [by apply (set_shard_inv G I hist hist now0 now)|]); [done|].
  intros a j [= <-] Hj. by apply Hsound.
Qed.

Lemma run_index_inv G I ttl hist now0 ix ops :
  (I ≠ 0%N ∧ I ≠ u64_max → ttl ≠ u64_max ∧ (I <= ttl)%N) →
  index_inv G I hist now0 ix → clock_ok ttl now0 ops →
  index_inv G I (reverse (records ops) ++ hist) (last_time now0 ops) (run_index ix ops).
Proof.
  intros HI. revert hist now0 ix. induction ops as [|[op t] ops IH]; intros hist now0 ix Hinv; [done|].
  cbn [clock_ok]. intros (H1 & H2 & H3 & H4). cbn [run_index last_time foldl snd].
  assert (I ≠ 0%N ∧ I ≠ u64_max → (t + I < 2 ^ 64)%N) as H64.
  { intros Hf. destruct (HI Hf) as [Ht Hle]. specialize (H3 Ht). lia. }
  destruct op as [key bits|stripe key].
  - cbn [records omap list_omap]. rewrite reverse_cons, <- (assoc_L (++)). apply IH; [|done].
    by apply (index_insert_inv G I hist now0 t).
  - cbn [records omap list_omap]. apply IH; [|done]. pose proof (index_lookup_inv G I hist now0 t ix stripe key Hinv H1 H64) as H.
    cbn. by destruct (lookup_by_key xxhash64 ix stripe key t) as [r ix'], H as [H _].
Qed.
(** ** Retention in the index *)

(** The place of a key. *)
Definition place (ix : AvailabilityIndex) (key : bytes) : nat * nat :=
  locate_hash ix (fp_hash (from_key xxhash64 key)).

Definition index_present (ix : AvailabilityIndex) (key : bytes) (bits t : N) : Prop :=
  present (flt ix (place ix key).1) (from_key xxhash64 key) key (place ix key).2 bits t.

Lemma place_set_shard ix i sh key : place (set_shard ix i sh) key = place ix key.
Proof.
  unfold place, locate_hash, locate_bucket. fold (shard_count ix) (shard_count (set_shard ix i sh)).
  by destruct (shape_set_shard ix i sh) as [-> _].
Qed.

Lemma place_ok G I hist now ix key :
  index_inv G I hist now ix → ix_blocks ix ≠ 0 →
  (place ix key).1 < shard_count ix ∧ (place ix key).2 < blocks_per_generation (flt ix (place ix key).1).
Proof.
  intros [Hn _ HB _ _] Hnz. pose proof (locate_in_range ix (fp_hash (from_key xxhash64 key)) Hn) as H.
  unfold place. destruct (locate_hash _ _) as [s b]. destruct H as [Hs Hb]. cbn. rewrite HB by done. auto.
Qed.

Lemma index_insert_eq ix key bits now :
  index_insert xxhash64 ix key bits now = ix ∨
  ∃ sh, index_insert xxhash64 ix key bits now = set_populated (set_shard ix (place ix key).1 sh) ∧
    sh_filter sh = (insert_missing_bits (flt ix (place ix key).1) (from_key xxhash64 key) key bits
                      (place ix key).2 now).1.
Proof.
  unfold index_insert, place. destruct (_ || _); [by left|right].
  destruct (locate_hash ix _) as [s b]. cbn [fst snd]. fold (flt ix s).
  destruct (insert_missing_bits _ _ _ _ _ _) as [f ev]. by eexists.
Qed.

Lemma lookup_state ix stripe key now :
  0 < shard_count ix →
  ∃ i sh, (lookup_by_key xxhash64 ix stripe key now).2 = set_shard ix i sh ∧ i < shard_count ix ∧
    (sh_filter sh = flt ix i ∨ sh_filter sh = (rotate_if_needed (flt ix i) now).1).
Proof.
  intros Hn. unfold lookup_by_key. destruct (ix_populated ix); cbn [negb].
  2:{ eexists _, _. split; [done|]. split; [|by left]. apply Nat.mod_upper_bound. lia. }
  unfold partition_lookup. pose proof (locate_in_range ix (fp_hash (from_key xxhash64 key)) Hn) as H.
  destruct (locate_hash ix _) as [s b]. destruct H as [Hs _]. fold (flt ix s).
  unfold lookup_missing_bits. destruct (rotate_if_needed (flt ix s) now) as [f ev] eqn:E.
  destruct ((blocks_per_generation f =? 0) || _); [|destruct (_ =? 0)%N];
    eexists s, _; (split; [done|]); (split; [done|]); right; by rewrite E.
Qed.

Lemma index_present_set ix i sh key bits t :
  i < shard_count ix →
  (i = (place ix key).1 → present (flt ix i) (from_key xxhash64 key) key (place ix key).2 bits t →
     present (sh_filter sh) (from_key xxhash64 key) key (place ix key).2 bits t) →
  index_present ix key bits t → index_present (set_shard ix i sh) key bits t.
Proof.
  intros Hi H Hp. unfold index_present. rewrite place_set_shard, flt_set_shard by done.
  destruct (decide _) as [E|]; [|done]. apply H; [done|]. rewrite <- E. exact Hp.
Qed.

(** Every operation before [t] plus [G - 1] rotation intervals keeps a present
    record, unless it records another key in the same block. *)
Definition undisturbed (ix : AvailabilityIndex) (key : bytes) (op : IndexOp * N) : Prop :=
  match op with
  | (OpRecord key' _, _) => place ix key' ≠ place ix key ∨ key' = key
  | (OpLookup _ _, _) => True
  end.

Lemma step_present G I hist now0 ix key bits t op now :
  index_inv G I hist now0 ix → ix_blocks ix ≠ 0 → I ≠ 0%N → (now0 <= now)%N → (0 < now)%N →
  (I ≠ u64_max → (now + I < 2 ^ 64)%N ∧ (now <= t + (N.of_nat G - 1) * I)%N) →
  undisturbed ix key (op, now) →
  index_present ix key bits t → index_present (step_index ix (op, now)) key bits t.
Proof.
  intros Hinv HB HI0 Hnow H0 Hfin Hund Hp.
  assert (∀ i, i < shard_count ix → filter_inv hist now0 (flt ix i) ∧ rotation_interval (flt ix i) ≠ 0%N ∧
    (finite (flt ix i) → (now + rotation_interval (flt ix i) < 2 ^ 64)%N ∧
       (now <= t + (N.of_nat (ring (flt ix i)) - 1) * rotation_interval (flt ix i))%N)) as Hflt.
  { intros i Hi. unfold finite. rewrite (ii_interval _ _ _ _ _ Hinv i Hi), (ii_ring _ _ _ _ _ Hinv i Hi).
    split; [by apply (ii_filter _ _ _ _ _ Hinv)|]. split; [done|]. intros [_ ?]. auto. }
  destruct op as [key' bits'|stripe key']; cbn [step_index].
  - destruct (index_insert_eq ix key' bits' now) as [->|(sh & -> & Hsh)]; [done|].
    destruct (place_ok _ _ _ _ _ key Hinv HB) as [Hs Hb].
    destruct (place_ok _ _ _ _ _ key' Hinv HB) as [Hs' Hb']. destruct (Hflt _ Hs') as (H1 & H2 & H3).
    apply (index_present_set ix _ sh); [done| |done]. intros E Hp'. rewrite Hsh.
    apply (present_insert_other hist now0); try done; [by rewrite E|].
    cbn in Hund. destruct Hund as [Hne| ->]; [left|by right]. intros Eb. apply Hne.
    by apply injective_projections.
  - destruct (lookup_state ix stripe key' now) as (i & sh & -> & Hi & Hsh); [apply Hinv|].
    destruct (Hflt _ Hi) as (H1 & H2 & H3). apply index_present_set; [done| |done]. intros E Hp'.
    destruct Hsh as [->| ->]; [done|]. apply (present_rotate hist); [|done|done|done].
    by apply (filter_inv_mono hist hist now0).
Qed.

Lemma step_shape ix op : 
  0 < shard_count ix →
  shard_count (step_index ix op) = shard_count ix ∧ ix_blocks (step_index ix op) = ix_blocks ix ∧
  ix_ttl (step_index ix op) = ix_ttl ix.
Proof.
  intros Hn. destruct op as [[key bits|stripe key] now]; cbn [step_index].
  - destruct (index_insert_eq ix key bits now) as [->|(sh & -> & _)]; [done|].
    split; [|done]. apply (shape_set_shard ix).
  - destruct (lookup_state ix stripe key now Hn) as (i & sh & -> & _). split; [|done]. apply (shape_set_shard ix).
Qed.

Lemma run_shape ix ops :
  0 < shard_count ix →
  shard_count (run_index ix ops) = shard_count ix ∧ ix_blocks (run_index ix ops) = ix_blocks ix ∧
  ix_ttl (run_index ix ops) = ix_ttl ix.
Proof.
  revert ix. induction ops as [|op ops IH]; intros ix Hn; [done|]. cbn [run_index foldl].
  destruct (step_shape ix op Hn) as (H1 & H2 & H3). rewrite <- H1, <- H2, <- H3. apply IH. by rewrite H1.
Qed.

Lemma place_shape ix ix' key :
  shard_count ix' = shard_count ix → ix_blocks ix' = ix_blocks ix → place ix' key = place ix key.
Proof.
  intros H1 H2. unfold place, locate_hash, locate_bucket. fold (shard_count ix) (shard_count ix').
  by rewrite H1, H2.
Qed.

Lemma place_step ix op key : 0 < shard_count ix → place (step_index ix op) key = place ix key.
Proof. intros Hn. destruct (step_shape ix op Hn) as (H1 & H2 & _). by apply place_shape. Qed.

Lemma undisturbed_shape ix ix' key op :
  shard_count ix' = shard_count ix → ix_blocks ix' = ix_blocks ix →
  undisturbed ix key op → undisturbed ix' key op.
Proof. intros H1 H2. destruct op as [[k b|] x]; [|done]. unfold undisturbed. by rewrite !(place_shape ix ix'). Qed.

Lemma run_present G I ttl hist now0 ix key bits t ops :
  (I ≠ 0%N ∧ I ≠ u64_max → ttl ≠ u64_max ∧ (I <= ttl)%N) →
  index_inv G I hist now0 ix → ix_blocks ix ≠ 0 → I ≠ 0%N → clock_ok ttl now0 ops →
  Forall (λ op, I ≠ u64_max → (op.2 <= t + (N.of_nat G - 1) * I)%N) ops →
  Forall (undisturbed ix key) ops →
  index_present ix key bits t → index_present (run_index ix ops) key bits t.
Proof.
  intros HI. revert hist now0 ix. induction ops as [|[op now] ops IH]; intros hist now0 ix Hinv HB HI0; [done|].
  cbn [clock_ok]. intros (H1 & H2 & H3 & H4) [Ht Hts]%Forall_cons [Hu Hus]%Forall_cons Hp. cbn [run_index foldl].
  assert (I ≠ u64_max → (now + I < 2 ^ 64)%N) as H64.
  { intros Hm. destruct (HI (conj HI0 Hm)) as [Hx Hle]. specialize (H3 Hx). lia. }
  pose proof (step_shape ix (op, now) (ii_shards _ _ _ _ _ Hinv)) as (Hsc & Hbl & _).
  pose proof (run_index_inv G I ttl hist now0 ix [(op, now)] HI Hinv) as Hinv1. cbn [clock_ok] in Hinv1.
  change (run_index ix [(op, now)]) with (step_index ix (op, now)) in Hinv1.
  eapply IH; [apply Hinv1; done|by rewrite Hbl|done|done|done| |].
  - eapply Forall_impl; [exact Hus|]. intros op'. by apply undisturbed_shape.
  - eapply step_present; [exact Hinv|..]; try done. auto.
Qed.
End Executions.

(** ** The geometry of a fresh index *)

Definition generations_of (capacity_bytes : N) (generation_count : nat) : nat :=
  Nat.min (Nat.max generation_count 1) (Nat.max (N.to_nat (capacity_bytes / SIZE_OF_BLOCK)) 1).

Lemma interval_le ttl G :
  0 < G →
  let I := rotation_interval_of ttl G in
  I ≠ 0%N ∧ I ≠ u64_max → ttl ≠ u64_max ∧ (I <= ttl)%N.
Proof.
  intros HG I. unfold I, rotation_interval_of. destruct (N.eqb_spec ttl 0); [by intros [[] _]|].
  destruct (N.eqb_spec ttl u64_max); [by intros [_ []]|]. intros _. split; [done|].
  pose proof (N.Div0.div_le_upper_bound ttl (N.of_nat G) ttl ltac:(nia)). lia.
Qed.

Lemma with_geometry_inv capacity ttl gc sc now :
  let G := generations_of capacity gc in
  index_inv G (rotation_interval_of ttl G) [] now (with_geometry capacity ttl gc sc).
Proof.
  intros G. unfold with_geometry. fold (generations_of capacity gc). fold G.
  set (B := if N.to_nat (capacity / SIZE_OF_BLOCK) =? 0 then 0 else _). set (n := Nat.min (Nat.max sc 1) _).
  assert (0 < n) as Hn by (unfold n; lia).
  assert (0 < G) as HG by (unfold G, generations_of; lia).
  set (ix := mkIndex _ _ _ _ _ _). assert (shard_count ix = n) as Hc.
  { unfold shard_count. cbn. by rewrite length_fmap, length_seq. }
  assert (∀ i, i < n → flt ix i = new_filter (shard_blocks ix i) G (rotation_interval_of ttl G)) as Hflt.
  { intros i Hi. unfold flt, shard_blocks. rewrite Hc. cbn [ix_shards ix_blocks ix].
    by rewrite list_lookup_total_alt, list_lookup_fmap, lookup_seq_lt by done. }
  constructor; rewrite Hc; [done|..]; intros i Hi; rewrite Hflt by done.
  - apply new_filter_inv.
  - done.
  - unfold ring. cbn. rewrite length_replicate. lia.
  - done.
Qed.

(** ** Lookups and retention *)

Lemma elem_of_records ops key bits t : (key, bits, t) ∈ records ops ↔ (OpRecord key bits, t) ∈ ops.
Proof.
  unfold records. rewrite list_elem_of_omap. split.
  - by intros ([[k b|] t'] & H & [= -> -> ->]).
  - intros H. by eexists.
Qed.

Lemma interval_finite ttl G :
  0 < G → ttl ≠ 0%N → ttl ≠ u64_max → (ttl < 2 ^ 64)%N →
  rotation_interval_of ttl G ≠ 0%N ∧ rotation_interval_of ttl G ≠ u64_max.
Proof.
  intros HG H0 Hm H64. unfold rotation_interval_of. rewrite !(proj2 (N.eqb_neq _ _)) by done.
  pose proof (N.Div0.div_le_upper_bound ttl (N.of_nat G) ttl ltac:(nia)). unfold u64_max in *. lia.
Qed.

Lemma clock_last ttl now0 ops now :
  clock_ok ttl now0 ops → (last_time now0 ops <= now)%N →
  (now0 <= now)%N ∧ Forall (λ op, (op.2 <= now)%N) ops.
Proof.
  revert now0. induction ops as [|[op t] ops IH]; intros now0; cbn [clock_ok]; [done|].
  intros (H1 & H2 & H3 & H4) Hl. destruct (IH t H4 Hl) as [Ht Hts]. split; [lia|]. by constructor.
Qed.

Lemma clock_app ttl now0 ops1 ops2 :
  clock_ok ttl now0 (ops1 ++ ops2) ↔ clock_ok ttl now0 ops1 ∧ clock_ok ttl (last_time now0 ops1) ops2.
Proof.
  revert now0. induction ops1 as [|[op t] ops1 IH]; intros now0; cbn [clock_ok app]; [cbn; tauto|].
  rewrite IH. cbn [last_time foldl snd]. tauto.
Qed.

Section Retention.
  Context (xxhash64 : N → bytes → N).

Lemma run_populated ix ops :
  0 < shard_count ix → ix_populated ix = true → ix_populated (run_index xxhash64 ix ops) = true.
Proof.
  revert ix. induction ops as [|[op now] ops IH]; intros ix Hn Hp; [done|]. cbn [run_index foldl].
  apply IH; [by destruct (step_shape xxhash64 ix (op, now) Hn) as [-> _]|].
  destruct op as [key bits|stripe key]; cbn [step_index].
  - by destruct (index_insert_eq xxhash64 ix key bits now) as [->|(sh & -> & _)].
  - by destruct (lookup_state xxhash64 ix stripe key now Hn) as (i & sh & -> & _).
Qed.

Lemma insert_present G I hist now0 now ix key bits :
  index_inv G I hist now0 ix → ix_blocks ix ≠ 0 → ix_ttl ix ≠ 0%N → I ≠ 0%N →
  key ≠ [] → bits ≠ 0%N → (now0 <= now)%N → (0 < now)%N → (I ≠ u64_max → (now + I < 2 ^ 64)%N) →
  index_present xxhash64 (index_insert xxhash64 ix key bits now) key bits now ∧
  ix_populated (index_insert xxhash64 ix key bits now) = true.
Proof.
  intros Hinv HB Httl HI0 Hkey Hbits Hnow H0 H64. destruct (place_ok xxhash64 _ _ _ _ _ key Hinv HB) as [Hs Hb].
  unfold index_insert. destruct (Nat.eqb_spec (length key) 0) as [E|_]; [by destruct key|].
  rewrite (proj2 (N.eqb_neq bits 0)), (proj2 (N.eqb_neq (ix_ttl ix) 0)) by done. cbn [orb].
  unfold place in Hs, Hb. destruct (locate_hash ix _) as [s b] eqn:Ep. cbn [fst snd] in *. fold (flt ix s).
  pose proof (present_insert hist now0 now (flt ix s) (from_key xxhash64 key) key b bits
    (ii_filter _ _ _ _ _ Hinv s Hs) Hnow H0) as Hp. unfold finite in Hp.
  rewrite (ii_interval _ _ _ _ _ Hinv s Hs) in Hp. specialize (Hp HI0 Hbits ltac:(intros [_ ?]; auto) Hb).
  destruct (insert_missing_bits _ _ _ _ _ _) as [f ev]. cbn [fst] in Hp. split; [|done].
  set (sh := mkShard _ _ _ _ _). change (index_present xxhash64 (set_shard ix s sh) key bits now).
  unfold index_present. rewrite place_set_shard. unfold place. rewrite Ep. cbn [fst snd].
  by rewrite flt_set_shard, decide_True by done.
Qed.

Lemma lookup_present G I hist now0 now ix stripe key bits t :
  index_inv G I hist now0 ix → ix_blocks ix ≠ 0 → I ≠ 0%N → (now0 <= now)%N → ix_populated ix = true →
  (I ≠ u64_max → (now + I < 2 ^ 64)%N ∧ (now <= t + (N.of_nat G - 1) * I)%N) →
  bits ≠ 0%N → u64_ok bits → index_present xxhash64 ix key bits t →
  ∃ a ix', lookup_by_key xxhash64 ix stripe key now = (Some a, ix') ∧
    ∀ j, N.testbit bits j = true → N.testbit (missing_bits a) j = true.
Proof.
  intros Hinv HB HI0 Hnow Hpop Hfin Hbits H64 Hp. unfold lookup_by_key. rewrite Hpop. cbn [negb].
  unfold partition_lookup. destruct (place_ok xxhash64 _ _ _ _ _ key Hinv HB) as [Hs Hb].
  unfold index_present, place in *. destruct (locate_hash ix _) as [s b]. cbn [fst snd] in *. fold (flt ix s).
  pose proof (ii_interval _ _ _ _ _ Hinv s Hs) as HI. pose proof (ii_ring _ _ _ _ _ Hinv s Hs) as HG.
  pose proof (filter_inv_mono hist hist now0 now _ ltac:(reflexivity) Hnow (ii_filter _ _ _ _ _ Hinv s Hs)) as Hf.
  assert (finite (flt ix s) → (now + rotation_interval (flt ix s) < 2 ^ 64)%N ∧
    (now <= t + (N.of_nat (ring (flt ix s)) - 1) * rotation_interval (flt ix s))%N) as Hfin'.
  { unfold finite. rewrite HI, HG. intros [_ ?]. auto. }
  apply (present_rotate hist now) in Hp; [|done|by rewrite HI|done].
  destruct (rotate_inv hist now now (flt ix s)) as (Hi1 & (_ & Hb1 & _) & _); [done|lia|by intros; apply Hfin'|].
  unfold lookup_missing_bits. destruct (rotate_if_needed (flt ix s) now) as [f ev]. cbn [fst] in *.
  rewrite (proj2 (Nat.eqb_neq _ _)), gens_nonempty by (lia || apply Hi1). cbn [orb].
  set (r := lookup_generations _ _ _ _ _ _).
  assert (∀ j, N.testbit bits j = true → N.testbit r j = true) as Hall.
  { intros j Hj. eapply present_lookup; [apply Hi1| |done|done].
    destruct (N.lt_ge_cases j 64) as [|Hge]; [done|]. by rewrite u64_testbit in Hj. }
  rewrite (proj2 (N.eqb_neq r 0)); [by eexists _, _|]. intros E. apply Hbits, N.bits_inj_0. intros j.
  destruct (N.testbit bits j) eqn:Hj; [|done]. apply Hall in Hj. by rewrite E, N.bits_0 in Hj.
Qed.
(** Recording, then any undisturbing operations, then a lookup. *)
Lemma retained G I ttl hist now0 ix key bits t ops stripe now :
  (I ≠ 0%N ∧ I ≠ u64_max → ttl ≠ u64_max ∧ (I <= ttl)%N) →
  index_inv G I hist now0 ix → ix_blocks ix ≠ 0 → ix_ttl ix ≠ 0%N → I ≠ 0%N →
  key ≠ [] → bits ≠ 0%N → u64_ok bits → (now0 <= t)%N → (0 < t)%N → clock_ok ttl t ops →
  (last_time t ops <= now)%N →
  (I ≠ u64_max → (t + I < 2 ^ 64)%N ∧ (now + I < 2 ^ 64)%N ∧ (now <= t + (N.of_nat G - 1) * I)%N) →
  Forall (undisturbed xxhash64 ix key) ops →
  ∃ a, (lookup_by_key xxhash64 (run_index xxhash64 (index_insert xxhash64 ix key bits t) ops) stripe key now).1
         = Some a ∧
    ∀ j, N.testbit bits (N.of_nat j) = true → is_missing_slot a (mkSlot j) = true.
Proof.
  intros HI Hinv HB Httl HI0 Hkey Hbits Hb64 Ht0 Ht Hc Hl Hfin Hund.
  pose proof (index_insert_inv xxhash64 G I hist now0 t ix key bits Hinv Ht0 Ht ltac:(by intros [_ Hm]; apply Hfin)) as Hinv2.
  destruct (insert_present G I hist now0 t ix key bits) as [Hp Hpop]; try done; [by intros; apply Hfin|].
  destruct (step_shape xxhash64 ix (OpRecord key bits, t) (ii_shards _ _ _ _ _ Hinv)) as (Hs1 & Hs2 & _).
  cbn [step_index] in Hs1, Hs2. set (ix2 := index_insert xxhash64 ix key bits t) in *.
  destruct (clock_last _ _ _ _ Hc Hl) as [Htn Hall].
  assert (index_present xxhash64 (run_index xxhash64 ix2 ops) key bits t) as Hp'.
  { eapply run_present; [exact HI|exact Hinv2|by rewrite Hs2|done|done| | |done].
    - eapply Forall_impl; [exact Hall|]. cbn. intros op Hop Hm. destruct (Hfin Hm) as (_ & _ & ?). lia.
    - eapply Forall_impl; [exact Hund|]. intros op. by apply undisturbed_shape. }
  pose proof (run_index_inv xxhash64 G I ttl _ _ _ ops HI Hinv2 Hc) as Hinv3.
  destruct (run_shape xxhash64 ix2 ops (ii_shards _ _ _ _ _ Hinv2)) as (_ & Hb3 & _).
  destruct (lookup_present G I _ _ now _ stripe key bits t Hinv3) as (a & ix' & E & Ha); try done.
  { by rewrite Hb3, Hs2. }
  { apply run_populated; [apply Hinv2|done]. }
  { intros Hm. apply Hfin, Hm. }
  exists a. rewrite E. split; [done|]. intros j Hj. unfold is_missing_slot. rewrite land_slot_bit. by apply Ha.
Qed.
End Retention.

(** C12 The index never reports a miss it was not told: in every execution, when
    a lookup reports slot [j] missing for a key, that very slot was recorded
    for that very key (not one that merely shares its fingerprint), and the
    record is younger than [2 G - 1] rotation intervals, [G] being the number
    of generations. *)
Theorem index_lookup_sound xxhash64 capacity ttl gc sc ops stripe key now a j :
  let G := generations_of capacity gc in
  clock_ok ttl 0 ops → (last_time 0 ops <= now)%N → (ttl ≠ u64_max → (now + ttl < 2 ^ 64)%N) →
  (lookup_by_key xxhash64 (run_index xxhash64 (with_geometry capacity ttl gc sc) ops) stripe key now).1
    = Some a →
  is_missing_slot a (mkSlot j) = true →
  ∃ bits t, (OpRecord key bits, t) ∈ ops ∧ N.testbit bits (N.of_nat j) = true ∧ (t <= now)%N ∧
    (ttl ≠ 0%N → ttl ≠ u64_max → (now - t < (2 * N.of_nat G - 1) * rotation_interval_of ttl G)%N).
Proof.
  intros G Hc Hl H64 Hlook Hj. assert (0 < G) as HG by (unfold G, generations_of; lia).
  pose proof (interval_le ttl G HG) as HI.
  pose proof (run_index_inv xxhash64 G _ ttl [] 0 _ ops HI (with_geometry_inv capacity ttl gc sc 0) Hc) as Hinv.
  pose proof (index_lookup_inv xxhash64 G _ _ _ now _ stripe key Hinv Hl) as H.
  destruct (lookup_by_key _ _ _ _ _) as [r ix']. cbn in Hlook. subst r.
  unfold is_missing_slot in Hj. rewrite land_slot_bit in Hj.
  destruct H as [_ H].
  { intros Hf. destruct (HI Hf) as [Hx Hle]. specialize (H64 Hx). lia. }
  destruct (H a (N.of_nat j) eq_refl Hj) as (bits & t & Hin & Hb & Ht & Hage). exists bits, t.
  rewrite app_nil_r in Hin. apply elem_of_reverse, elem_of_records in Hin. split_and!; [done|done|done|].
  intros H0 Hm. specialize (Hage (interval_finite ttl G HG H0 Hm ltac:(specialize (H64 Hm); lia))). lia.
Qed.

Definition test_hash (seed : N) (key : bytes) : N := (seed + 7 * N.of_nat (length key))%N.

Definition sample_ops : list (IndexOp * N) :=
  [(OpRecord (bs "a@x") 4, 10%N); (OpLookup 0 (bs "b"), 20%N)].

Lemma index_lookup_sound_witness :
  (lookup_by_key test_hash (run_index test_hash (with_geometry 400 1000 2 2) sample_ops) 0 (bs "a@x") 30).1
    = Some (mkAvailability 4) ∧
  ∃ bits t, (OpRecord (bs "a@x") bits, t) ∈ sample_ops ∧ N.testbit bits 2 = true.
Proof.
  assert ((lookup_by_key test_hash (run_index test_hash (with_geometry 400 1000 2 2) sample_ops) 0 (bs "a@x") 30).1
    = Some (mkAvailability 4)) as H by (vm_compute; reflexivity).
  split; [exact H|].
  destruct (index_lookup_sound test_hash 400 1000 2 2 sample_ops 0 (bs "a@x") 30 (mkAvailability 4) 2)
    as (bits & t & H1 & H2 & _); [| | |exact H|vm_compute; reflexivity|];
    clear H.
  - cbn. repeat split; try done; intros _; vm_compute; reflexivity.
  - vm_compute. discriminate.
  - intros _. vm_compute. reflexivity.
  - exists bits, t. split; assumption.
Defined.

Lemma geometry_blocks capacity ttl gc sc :
  (SIZE_OF_BLOCK <= capacity)%N → ix_blocks (with_geometry capacity ttl gc sc) ≠ 0.
Proof.
  intros H. unfold with_geometry. cbn [ix_blocks]. set (T := N.to_nat (capacity / SIZE_OF_BLOCK)).
  assert (0 < T) as HT.
  { assert (1 <= capacity / SIZE_OF_BLOCK)%N; [|unfold T; lia]. by apply N.div_le_lower_bound; unfold SIZE_OF_BLOCK in *; lia. }
  rewrite (proj2 (Nat.eqb_neq _ _)) by lia. intros E%Nat.div_small_iff; lia.
Qed.

(** A recorded miss is found again: for at least [G - 1] rotation intervals
    after the record, whatever else is looked up or recorded in between, the
    lookup of the key reports all its recorded slots, unless another key was
    recorded in the same block of two entries. *)
Theorem recorded_miss_retained xxhash64 capacity ttl gc sc ops1 ops2 stripe key bits t now :
  let G := generations_of capacity gc in
  let ix := with_geometry capacity ttl gc sc in
  (SIZE_OF_BLOCK <= capacity)%N → ttl ≠ 0%N → (ttl ≠ u64_max → (now + ttl < 2 ^ 64)%N) →
  key ≠ [] → bits ≠ 0%N → u64_ok bits →
  clock_ok ttl 0 (ops1 ++ (OpRecord key bits, t) :: ops2) → (last_time t ops2 <= now)%N →
  (ttl ≠ u64_max → (now - t <= (N.of_nat G - 1) * rotation_interval_of ttl G)%N) →
  Forall (undisturbed xxhash64 ix key) ops2 →
  ∃ a, (lookup_by_key xxhash64 (run_index xxhash64 ix (ops1 ++ (OpRecord key bits, t) :: ops2)) stripe key now).1
         = Some a ∧
    ∀ j, N.testbit bits (N.of_nat j) = true → is_missing_slot a (mkSlot j) = true.
Proof.
  intros G ix Hcap Httl H64 Hkey Hbits Hb64 [Hc1 Hc2]%clock_app Hl Hret Hund.
  destruct Hc2 as (Ht0 & Ht & Htt & Hc2). assert (0 < G) as HG by (unfold G, generations_of; lia).
  pose proof (interval_le ttl G HG) as HI. set (I := rotation_interval_of ttl G) in *.
  assert (I ≠ 0%N) as HI0.
  { unfold I, rotation_interval_of. rewrite (proj2 (N.eqb_neq _ _)) by done. destruct (_ =? u64_max)%N; [done|lia]. }
  pose proof (with_geometry_inv capacity ttl gc sc 0) as Hinv0.
  pose proof (run_index_inv xxhash64 G I ttl [] 0 ix ops1 HI Hinv0 Hc1) as Hinv1.
  destruct (run_shape xxhash64 ix ops1 (ii_shards _ _ _ _ _ Hinv0)) as (Hs1 & Hs2 & Hs3).
  unfold run_index. rewrite foldl_app. cbn [foldl step_index]. fold (run_index xxhash64 ix ops1).
  eapply (retained xxhash64 G I ttl); try done.
  - rewrite Hs2. by apply geometry_blocks.
  - by rewrite Hs3.
  - intros Hm. destruct (HI (conj HI0 Hm)) as [Hx Hle]. specialize (H64 Hx). specialize (Htt Hx).
    specialize (Hret Hx). lia.
  - eapply Forall_impl; [exact Hund|]. intros op. by apply undisturbed_shape.
Qed.

Lemma recorded_miss_retained_witness :
  ∃ a, (lookup_by_key test_hash (run_index test_hash (with_geometry 400 1000 2 2)
          ([] ++ (OpRecord (bs "a@x") 4, 10%N) :: [(OpRecord (bs "bb@xyz") 1, 300%N)])) 0 (bs "a@x") 500).1 = Some a ∧
    is_missing_slot a (mkSlot 2) = true.
Proof.
  destruct (recorded_miss_retained test_hash 400 1000 2 2 [] [(OpRecord (bs "bb@xyz") 1, 300%N)] 0 (bs "a@x") 4 10 500)
    as (a & Ha & Hj).
  1-6, 8, 9: first [discriminate | reflexivity | intros _; first [discriminate | reflexivity]].
  - cbn. repeat split; first [discriminate | intros _; reflexivity].
  - constructor; [left; vm_compute; discriminate|constructor].
  - exists a. split; [exact Ha|]. apply (Hj 2). reflexivity.
Defined.

(** The age bound of a reported miss is sharp beyond the configured
    retention: with a TTL of 1000 ms, a record of time 10 is still reported at
    time 1508, because the first record after a rotation restarts the rotation
    clock while the older generation stays active. *)
Example miss_reported_after_ttl :
  (lookup_by_key test_hash (run_index test_hash (with_geometry 400 1000 2 2)
     [(OpRecord (bs "a@x") 4, 10%N); (OpRecord (bs "b@x") 1, 1009%N)]) 0 (bs "a@x") 1508).1
  = Some (mkAvailability 4).
Proof. vm_compute. reflexivity. Qed.

(** ** The snapshot round trip *)

Lemma reads_identity x : id_ok x → reads read_identity (string_bytes x) x.
Proof.
  intros Hx. pose proof Hx as (Hc & Hne & Hl & Hu). rewrite <- (app_nil_r (string_bytes x)).
  apply (reads_bind _ _ (string_bytes x) [] x).
  - unfold read_string, string_bytes. eapply reads_bind.
    { apply reads_u32. unfold MAX_REGISTRY_FIELD_BYTES in Hl. lia. }
    rewrite (proj2 (N.ltb_ge _ _)) by done. apply reads_ensure.
    rewrite <- (app_nil_r x) at 2. eapply reads_bind; [apply reads_read_bytes; by rewrite Nat2N.id|].
    rewrite Hu. apply reads_ensure. rewrite bool_decide_false by done. apply reads_ensure, reads_ret.
  - unfold from_persisted_host. rewrite Hc. destruct (Nat.eqb_spec (length x) 0) as [E|_]; [by destruct x|].
    rewrite (proj2 (N.ltb_ge _ _)) by done. intros pre post. cbn. do 2 f_equal. lia.
Qed.

(** An entry the index can persist: 64-bit fields, a 16-bit tag, a message key
    of 1 to 250 octets, and bits within the identity table. *)
Definition entry_ok (n : nat) (e : PersistedEntry) : Prop :=
  u64_ok (pe_hash e) ∧ (pe_tag e < 2 ^ 16)%N ∧ key_length_ok (length (pe_key e)) = true ∧
  utf8_valid (pe_key e) = true ∧ u64_ok (pe_missing e) ∧
  N.ldiff (pe_missing e) (identity_mask n) = 0%N ∧ u64_ok (pe_inserted_at e).

Definition entry_bytes (e : PersistedEntry) : bytes :=
  to_le_bytes 8 (pe_hash e) ++ to_le_bytes 2 (pe_tag e) ++
  (to_le_bytes 2 (N.of_nat (length (pe_key e))) ++ pe_key e) ++
  to_le_bytes 8 (pe_missing e) ++ to_le_bytes 8 (pe_inserted_at e).

Lemma reads_message_key k :
  key_length_ok (length k) = true → utf8_valid k = true →
  reads read_message_key (to_le_bytes 2 (N.of_nat (length k)) ++ k) k.
Proof.
  intros Hl Hu. unfold read_message_key. eapply reads_bind.
  { apply reads_u16. unfold key_length_ok, MAX_MESSAGE_ID_BYTES in Hl. reflect_bools. lia. }
  rewrite Nat2N.id, Hl. apply reads_ensure. rewrite <- (app_nil_r k) at 2.
  eapply reads_bind; [by apply reads_read_bytes|]. rewrite Hu. apply reads_ensure, reads_ret.
Qed.

Lemma reads_entry n e : entry_ok n e → reads (read_entry n) (entry_bytes e) e.
Proof.
  intros (H1 & H2 & H3 & H4 & H5 & H6 & H7). unfold read_entry, entry_bytes.
  eapply reads_bind; [by apply reads_u64|]. eapply reads_bind; [by apply reads_u16|].
  eapply reads_bind; [by apply reads_message_key|]. eapply reads_bind; [by apply reads_u64|].
  rewrite H6. apply reads_ensure. rewrite <- (app_nil_r (to_le_bytes 8 (pe_inserted_at e))).
  eapply reads_bind; [by apply reads_u64|]. destruct e. apply reads_ret.
Qed.

Lemma mapM_ok {A} (f : A → result WireError bytes) (enc : A → bytes) l :
  Forall (λ a, f a = Ok (enc a)) l → mapM f l = Ok (enc <$> l).
Proof. induction 1 as [|a l Ha _ IH]; [done|]. cbn. rewrite Ha. cbn. by rewrite IH. Qed.

Lemma join_bind {A} (enc : A → bytes) (l : list A) : mjoin (enc <$> l) = l ≫= enc.
Proof.
  induction l as [|x l IH]; [done|]. change (enc x ++ mjoin (enc <$> l) = enc x ++ (l ≫= enc)). by rewrite IH.
Qed.

Lemma snapshot_bytes_ok ids entries :
  Forall id_ok ids → Forall (entry_ok (length ids)) entries →
  snapshot_bytes ids entries =
    Ok (PERSISTENCE_MAGIC ++ to_le_bytes 8 (N.of_nat (length ids)) ++ (ids ≫= string_bytes) ++
        to_le_bytes 8 (N.of_nat (length entries)) ++ (entries ≫= entry_bytes)).
Proof.
  intros Hids He. unfold snapshot_bytes.
  rewrite (mapM_ok write_identity string_bytes).
  2:{ eapply Forall_impl; [exact Hids|]. intros x (_ & _ & Hl & _). unfold write_identity, MAX_REGISTRY_FIELD_BYTES in *.
      by rewrite (proj2 (N.ltb_lt _ _)) by lia. }
  cbn [mbind result_bind]. rewrite (mapM_ok write_entry entry_bytes).
  2:{ eapply Forall_impl; [exact He|]. intros e (_ & _ & Hl & _). unfold write_entry, write_message_key. by rewrite Hl. }
  cbn [mbind result_bind]. by rewrite !join_bind.
Qed.

Lemma length_entry_bytes e : length (entry_bytes e) = 28 + length (pe_key e).
Proof. unfold entry_bytes. rewrite !length_app, !length_to_le_bytes. lia. Qed.

Lemma length_entries n entries :
  Forall (entry_ok n) entries → 28 * length entries ≤ length (entries ≫= entry_bytes).
Proof.
  induction 1 as [|e l _ _ IH]; [done|]. change ((e :: l) ≫= entry_bytes) with (entry_bytes e ++ (l ≫= entry_bytes)).
  rewrite length_app, length_entry_bytes. cbn [length]. lia.
Qed.

Lemma parse_snapshot_bytes ids entries :
  Forall id_ok ids → NoDup ids → length ids ≤ MAX_BACKENDS → Forall (entry_ok (length ids)) entries →
  u64_ok (N.of_nat (length entries)) →
  parse_snapshot (PERSISTENCE_MAGIC ++ to_le_bytes 8 (N.of_nat (length ids)) ++ (ids ≫= string_bytes) ++
     to_le_bytes 8 (N.of_nat (length entries)) ++ (entries ≫= entry_bytes)) = Ok (Some (ids, entries)).
Proof.
  intros Hids Hn Hl He H64. set (n := N.of_nat (length ids)). set (m := N.of_nat (length entries)) in *.
  set (E1 := ids ≫= string_bytes). set (E2 := entries ≫= entry_bytes).
  assert (n <= N.of_nat MAX_BACKENDS)%N as Hn64 by (unfold n; lia).
  assert (reads (read_many (N.to_nat n) read_identity) E1 ids) as R2.
  { unfold n. rewrite Nat2N.id. apply reads_many. eapply Forall_impl; [exact Hids|]. apply reads_identity. }
  assert (reads (read_many (N.to_nat m) (read_entry (N.to_nat n))) E2 entries) as R4.
  { unfold m, n. rewrite !Nat2N.id. apply reads_many. eapply Forall_impl; [exact He|]. apply reads_entry. }
  pose proof (length_entries _ _ He) as Hle. fold E2 in Hle.
  unfold parse_snapshot. rewrite take_app_length.
  rewrite (proj2 (Nat.ltb_ge _ _)) by (rewrite !length_app, !length_to_le_bytes; lia).
  rewrite (bool_decide_false (PERSISTENCE_MAGIC ∈ LEGACY_MAGICS)) by (apply (bool_decide_unpack _); vm_compute; exact I).
  rewrite bool_decide_true by done. cbn [negb].
  pose proof (reads_u64 n ltac:(unfold MAX_BACKENDS in Hn64; lia) PERSISTENCE_MAGIC (E1 ++ to_le_bytes 8 m ++ E2)) as R1.
  rewrite R1. cbn [mbind result_bind]. rewrite (proj2 (N.leb_le _ _)) by done. cbn [ensure mbind result_bind].
  specialize (R2 (PERSISTENCE_MAGIC ++ to_le_bytes 8 n) (to_le_bytes 8 m ++ E2)).
  rewrite <- !(assoc_L (++)), length_app in R2. rewrite R2. cbn [mbind result_bind].
  unfold has_duplicates. rewrite bool_decide_true by done. cbn [negb ensure mbind result_bind].
  pose proof (reads_u64 m H64 (PERSISTENCE_MAGIC ++ to_le_bytes 8 n ++ E1) E2) as R3.
  rewrite <- !(assoc_L (++)), !length_app, Nat.add_assoc in R3. rewrite R3. cbn [mbind result_bind].
  rewrite (proj2 (N.leb_le _ _)).
  2:{ unfold m. assert (length entries ≤ length E2 / 28); [apply Nat.div_le_lower_bound; lia|].
      rewrite !length_app. match goal with |- context [(?a - ?b) / _] => replace (a - b) with (length E2) by lia end. cbn [Nat.add Nat.mul]. lia. }
  cbn [ensure mbind result_bind].
  specialize (R4 (PERSISTENCE_MAGIC ++ to_le_bytes 8 n ++ E1 ++ to_le_bytes 8 m) []).
  rewrite app_nil_r, <- !(assoc_L (++)), !length_app, !Nat.add_assoc in R4. rewrite R4. cbn [mbind result_bind].
  rewrite (proj2 (Nat.eqb_eq _ _)); [done|]. rewrite !length_app. lia.
Qed.

(** ** Restoring *)

Lemma foldl_lor_testbit (l : list N) acc j :
  N.testbit (foldl N.lor acc l) j = true ↔ N.testbit acc j = true ∨ ∃ x, x ∈ l ∧ N.testbit x j = true.
Proof.
  revert acc. induction l as [|x l IH]; intros acc; cbn [foldl].
  { split; [by left|]. by intros [|(x & []%elem_of_nil & _)]. }
  rewrite IH, N.lor_spec, orb_true_iff. setoid_rewrite elem_of_cons. naive_solver.
Qed.

(** A bit of the translated set is the slot, in the running layout, of a
    provider whose bit is set in the stored table. *)
Lemma remap_bits_testbit layout ids bits j :
  N.testbit (remap_bits layout ids bits) j = true ↔
  ∃ p identity s, ids !! p = Some identity ∧ N.testbit bits (N.of_nat p) = true ∧
    slot_for_identity layout identity = Some s ∧ j = N.of_nat (slot_index s).
Proof.
  unfold remap_bits. rewrite foldl_lor_testbit, N.bits_0. split.
  - intros [|(x & Hx & Hj)]; [done|]. apply list_elem_of_fmap in Hx as (s & -> & Hs).
    apply list_elem_of_omap in Hs as (identity & Hi & Hs). apply list_elem_of_omap in Hi as ([p x] & Hp & Hb).
    apply elem_of_lookup_imap in Hp as (p' & x' & [= -> ->] & Hp). cbn in Hb.
    pose proof (land_slot_bit bits (mkSlot p')) as Hl. unfold slot_bit in Hl. cbn in Hl. rewrite Hl in Hb.
    destruct (N.testbit bits (N.of_nat p')) eqn:E; [|done]. injection Hb as ->.
    rewrite slot_bit_testbit in Hj. reflect_bools. by eexists _, _, _.
  - intros (p & x & s & Hp & Hb & Hs & ->). right. exists (slot_bit s). rewrite slot_bit_testbit, N.eqb_refl. split; [|done].
    apply list_elem_of_fmap_2, list_elem_of_omap. exists x. split; [|done]. apply list_elem_of_omap. exists (p, x).
    split; [by apply elem_of_lookup_imap_2|]. cbn.
    pose proof (land_slot_bit bits (mkSlot p)) as Hl. unfold slot_bit in Hl. cbn in Hl. by rewrite Hl, Hb.
Qed.

Lemma elem_of_insert_by_age e x l : e ∈ insert_by_age x l ↔ e = x ∨ e ∈ l.
Proof.
  induction l as [|y l IH]; cbn; [set_solver|]. destruct (_ <? _)%N; rewrite !elem_of_cons, ?IH; tauto.
Qed.

Lemma elem_of_sort_by_age e l : e ∈ sort_by_age l ↔ e ∈ l.
Proof.
  unfold sort_by_age. assert (∀ acc, e ∈ foldl (λ acc e, insert_by_age e acc) acc l ↔ e ∈ acc ∨ e ∈ l) as H.
  { induction l as [|x l IH]; intros acc; cbn [foldl]; [set_solver|].
    rewrite IH, elem_of_insert_by_age, elem_of_cons. tauto. }
  rewrite H, elem_of_nil. tauto.
Qed.

Record index_sup (ix : AvailabilityIndex) (S : bytes → N → Prop) : Prop := {
  is_shards : 0 < shard_count ix;
  is_sup : ∀ i, i < shard_count ix → filter_sup (flt ix i) S;
  is_blocks : ∀ i, i < shard_count ix → blocks_per_generation (flt ix i) = shard_blocks ix i }.

Lemma index_sup_set ix i sh S :
  index_sup ix S → i < shard_count ix → filter_sup (sh_filter sh) S → same_shape (flt ix i) (sh_filter sh) →
  index_sup (set_shard ix i sh) S.
Proof.
  intros [Hn HS HB] Hi Hs (_ & H2 & _). destruct (shape_set_shard ix i sh) as [Hc Hsb].
  constructor; rewrite ?Hc; [done|..]; intros j Hj; rewrite flt_set_shard, ?Hsb by done;
    destruct (decide _) as [->|]; auto. rewrite H2. auto.
Qed.

Lemma flt_map f ix i : i < shard_count ix → flt (map_shards f ix) i = sh_filter (f (ix_shards ix !!! i)).
Proof. intros Hi. unfold flt, map_shards. cbn. by rewrite (list_lookup_total_fmap f). Qed.

Lemma shape_map f ix :
  shard_count (map_shards f ix) = shard_count ix ∧
  ∀ i, shard_blocks (map_shards f ix) i = shard_blocks ix i.
Proof.
  assert (shard_count (map_shards f ix) = shard_count ix) as H by (unfold shard_count; cbn; apply length_fmap).
  split; [done|]. intros i. unfold shard_blocks. by rewrite H.
Qed.

Lemma restore_one_sup layout ids now ix e S :
  index_sup ix S →
  ((now - pe_inserted_at e < ix_ttl ix)%N →
     ∀ j, N.testbit (remap_bits layout ids (pe_missing e)) j = true → S (pe_key e) j) →
  index_sup (restore_one layout ids now ix e) S ∧ ix_ttl (restore_one layout ids now ix e) = ix_ttl ix.
Proof.
  intros HS He. unfold restore_one. pose proof (shard_bucket ix (pe_hash e) (is_shards ix S HS) (is_blocks ix S HS)) as Hb.
  destruct (locate_hash ix _) as [s b]. destruct Hb as [Hs Hb]. fold (flt ix s).
  set (m := mkEntry _ _ _ _ _). destruct (restore_entry_sup (flt ix s) m b now (ix_ttl ix) S) as [H1 H2];
    [by apply HS|done|done|].
  destruct (restore_entry _ m b now _) as [f ev]. split; [|done]. by apply index_sup_set.
Qed.

Lemma restore_all_sup layout ids now ttl (entries : list PersistedEntry) ix S :
  index_sup ix S → ix_ttl ix = ttl →
  (∀ e, e ∈ entries → (now - pe_inserted_at e < ttl)%N →
     ∀ j, N.testbit (remap_bits layout ids (pe_missing e)) j = true → S (pe_key e) j) →
  index_sup (foldl (restore_one layout ids now) ix entries) S.
Proof.
  revert ix. induction entries as [|e l IH]; intros ix HS Httl He; [done|]. cbn [foldl].
  destruct (restore_one_sup layout ids now ix e S HS) as [H1 H2]; [rewrite Httl; apply He; by left|].
  apply IH; [done|congruence|]. intros e' Hin. apply He. by right.
Qed.

Lemma map_shards_sup f ix S S' :
  0 < shard_count ix →
  (∀ i, i < shard_count ix → blocks_per_generation (flt ix i) = shard_blocks ix i) →
  (∀ i, i < shard_count ix → filter_sup (flt ix i) S → filter_sup (sh_filter (f (ix_shards ix !!! i))) S' ∧
     same_shape (flt ix i) (sh_filter (f (ix_shards ix !!! i)))) →
  (∀ i, i < shard_count ix → filter_sup (flt ix i) S) →
  index_sup (map_shards f ix) S'.
Proof.
  intros Hn HB Hf HS. destruct (shape_map f ix) as [Hc Hsb].
  constructor; rewrite Hc; [done|..]; intros i Hi; rewrite flt_map by done; destruct (Hf i Hi (HS i Hi)) as [H1 (_ & H2 & _)].
  - done.
  - rewrite Hsb, H2. auto.
Qed.

Lemma restore_into_sup G I hist now0 ix ids entries now :
  index_inv G I hist now0 ix →
  index_sup (restore_into ids entries ix now) (λ k j, ∃ e, e ∈ entries ∧ pe_key e = k ∧
    (now - pe_inserted_at e < ix_ttl ix)%N ∧ N.testbit (remap_bits (ix_layout ix) ids (pe_missing e)) j = true).
Proof.
  intros Hinv. set (S := λ k j, _). unfold restore_into.
  set (ix1 := map_shards _ ix). assert (index_sup ix1 S) as H1.
  { apply (map_shards_sup _ ix (λ _ _, True)); [apply Hinv|apply Hinv| |].
    - intros i Hi [Hok _]. by apply reset_sup.
    - intros i Hi. split; [apply (ii_filter _ _ _ _ _ Hinv i Hi)|done]. }
  set (ix2 := foldl _ ix1 _). assert (index_sup ix2 S) as H2.
  { apply restore_all_sup with (ttl := ix_ttl ix); [done|done|]. intros e He Hage j Hj.
    rewrite elem_of_sort_by_age in He. exists e. split_and!; [done|done|exact Hage|exact Hj]. }
  set (ix3 := map_shards _ ix2). assert (index_sup ix3 S) as H3.
  { apply (map_shards_sup _ ix2 S); [apply H2|apply H2| |apply H2].
    intros i Hi HS. unfold reanchor_shard. fold (flt ix2 i). destruct (_ =? 0); [done|]. by apply reanchor_sup. }
  destruct (existsb _ _); [|done]. by destruct H3; constructor.
Qed.

(** The snapshot file round-trips: what [save_to_path] writes for an identity
    table and the entries of the index is read back exactly, entry by entry. *)
Theorem snapshot_roundtrip ids entries :
  Forall id_ok ids → NoDup ids → length ids ≤ MAX_BACKENDS → Forall (entry_ok (length ids)) entries →
  u64_ok (N.of_nat (length entries)) →
  ∃ data, snapshot_bytes ids entries = Ok data ∧ parse_snapshot data = Ok (Some (ids, entries)).
Proof.
  intros Hids Hn Hl He H64. eexists. split; [by apply snapshot_bytes_ok|by apply parse_snapshot_bytes].
Qed.

Definition sample_entry : PersistedEntry := mkEntry 77 5 (bs "a@x") 2 10.

Lemma snapshot_roundtrip_witness :
  ∃ data, snapshot_bytes [bs "a.example"; bs "b.example"] [sample_entry] = Ok data ∧
    parse_snapshot data = Ok (Some ([bs "a.example"; bs "b.example"], [sample_entry])).
Proof.
  apply (snapshot_roundtrip [bs "a.example"; bs "b.example"] [sample_entry]).
  - repeat constructor; vm_compute; done.
  - apply (bool_decide_unpack _). vm_compute. exact I.
  - unfold MAX_BACKENDS. cbn. lia.
  - repeat constructor.
  - reflexivity.
Defined.

(** Loading a snapshot translates providers by identity: after a load into
    any reachable index, a lookup reports slot [j] missing for a key only if
    the file had an entry for that very key, younger than the TTL at the load,
    that marked a provider whose identity now has slot [j], whatever the slot
    it had when the file was written. *)
Theorem snapshot_load_sound xxhash64 G I hist now0 ix data now ix' stripe key now' a j :
  index_inv G I hist now0 ix → load_snapshot ix (Some data) now = Ok (true, ix') →
  (lookup_by_key xxhash64 ix' stripe key now').1 = Some a → is_missing_slot a (mkSlot j) = true →
  ∃ ids entries e p identity,
    parse_snapshot data = Ok (Some (ids, entries)) ∧ e ∈ entries ∧ pe_key e = key ∧
    (now - pe_inserted_at e < ix_ttl ix)%N ∧ ids !! p = Some identity ∧
    N.testbit (pe_missing e) (N.of_nat p) = true ∧
    slot_for_identity (ix_layout ix) identity = Some (mkSlot j).
Proof.
  intros Hinv Hload Hlook Hj. unfold load_snapshot in Hload.
  destruct (parse_snapshot data) as [snap|] eqn:Ep; [|done]. cbn [mbind result_bind] in Hload.
  destruct (default ([], []) snap) as [ids entries] eqn:Ed. injection Hload as <-.
  pose proof (restore_into_sup G I hist now0 ix ids entries now Hinv) as HS.
  unfold lookup_by_key in Hlook. destruct (negb _); [done|]. unfold partition_lookup in Hlook.
  set (ix' := restore_into ids entries ix now) in *.
  pose proof (shard_bucket ix' (fp_hash (from_key xxhash64 key)) (is_shards _ _ HS) (is_blocks _ _ HS)) as Hb.
  destruct (locate_hash ix' _) as [s b]. destruct Hb as [Hs Hb]. fold (flt ix' s) in Hlook.
  pose proof (lookup_sup _ _ (from_key xxhash64 key) key b now' (is_sup _ _ HS s Hs) Hb) as Hsup.
  destruct (lookup_missing_bits _ _ _ _ _) as [[f bits] ev]. destruct (bits =? 0)%N; [done|].
  cbn in Hlook. injection Hlook as <-. unfold is_missing_slot in Hj. rewrite land_slot_bit in Hj.
  destruct (Hsup _ Hj) as (e & He & Hk & Hage & Hr). apply remap_bits_testbit in Hr as (p & x & sl & Hp & Hbit & Hsl & Hjs).
  destruct snap as [[ids' entries']|]; cbn in Ed; simplify_eq.
  exists ids, entries, e, p, x. split_and!; try done. rewrite Hsl. destruct sl. cbn in Hjs. do 2 f_equal. lia.
Qed.

Definition small_layout : AvailabilityLayout :=
  mkLayout [mkSlot 0; mkSlot 1] [bs "b.example"; bs "a.example"] 3 Derived.

Definition small_index : AvailabilityIndex :=
  mkIndex (ix_shards (with_geometry 400 1000 2 2)) false (ix_blocks (with_geometry 400 1000 2 2))
    small_layout 400 1000.

(** A provider in position 1 of the stored table and in slot 0 of the running
    layout. *)
Definition stored : result WireError bytes :=
  snapshot_bytes [bs "a.example"; bs "b.example"]
    [mkEntry (fp_hash (from_key test_hash (bs "a@x"))) (fp_tag (from_key test_hash (bs "a@x"))) (bs "a@x") 2 10].

Lemma snapshot_load_sound_witness :
  ∃ data ix', stored = Ok data ∧ load_snapshot small_index (Some data) 20 = Ok (true, ix') ∧
    (lookup_by_key test_hash ix' 0 (bs "a@x") 30).1 = Some (mkAvailability 1) ∧
    ∃ identity, slot_for_identity small_layout identity = Some (mkSlot 0).
Proof.
  destruct stored as [data|] eqn:Ed; [|vm_compute in Ed; discriminate].
  exists data. destruct (load_snapshot small_index (Some data) 20) as [[[] ix']|] eqn:El;
    vm_compute in Ed; injection Ed as <-.
  2,3: vm_compute in El; discriminate.
  exists ix'. split; [reflexivity|]. split; [reflexivity|].
  assert ((lookup_by_key test_hash ix' 0 (bs "a@x") 30).1 = Some (mkAvailability 1)) as Hl.
  { vm_compute in El. injection El as <-. vm_compute. reflexivity. }
  split; [exact Hl|].
  assert (index_inv 2 500 [] 0 small_index) as Hinv.
  { pose proof (with_geometry_inv 400 1000 2 2 0) as [H1 H2 H3 H4 H5]. constructor; assumption. }
  destruct (snapshot_load_sound test_hash 2 500 [] 0 small_index _ 20 ix' 0 (bs "a@x") 30 (mkAvailability 1) 0 Hinv El Hl)
    as (ids & entries & e & p & identity & _ & _ & _ & _ & _ & _ & Hs); [reflexivity|].
  exists identity. exact Hs.
Defined.
