(* ===== verification/Router.v ===== *)
(** * Router: backend selection, load tracking and reservations

    Models [BackendSelector] of [src/src/router/mod.rs] with
    [router/strategies.rs] and [router/backend_info.rs]: tiers, suppression and
    article availability, queue pressure, weighted round robin, least loaded
    with its tie breaker, the reservation of the selected backend and the
    stateful slots of hybrid mode.

    The connection pool belongs to [deadpool]: [pool] is an argument that gives
    the status counts of each backend's pool.  A load ratio is an [f64], as the
    binary64 numbers of [SpecFloat].  The atomics are fields of the state; what
    other threads do between a selection and its reservation is the argument
    [env] of [route]. *)

From Stdlib Require Import SpecFloat Sorted.
From stdpp Require Import list.
From S2P Require Import Prelude Availability.


(** ** Backends *)

Record StatusCounts := mkStatus {
  st_available : N;
  st_size : N;
  st_max_size : N;
  st_waiting : N }.

Record BackendInfo := mkBackend {
  backend_id : nat;
  availability_slot : AvailabilitySlot;
  pending_count : N;
  stateful_count : N;
  tier : N }.

Inductive SelectionStrategy :=
| StWeightedRoundRobin (counter total_weight : N)
| StLeastLoaded (tie_breaker : N).

(** Percentages of waiters per connection. *)
Record QueuePressureLimits := mkLimits { soft : N; hard : N }.

(** [QueuePressureLimits::try_new]: both at most 100, hard not below soft. *)
Definition limits_try_new (soft hard : N) : option QueuePressureLimits :=
  if ((soft <=? 100) && (hard <=? 100) && (soft <=? hard))%N then Some (mkLimits soft hard) else None.

Record BackendSelector := mkSelector {
  backends : list BackendInfo;
  strategy : SelectionStrategy;
  sorted_tiers : list N;
  probe_counter : N;
  availability_mask : AvailabilityMask;
  backpressure_enabled : bool;
  backpressure_limits : QueuePressureLimits;
  all_busy_sleep_ms : N }.

(** [SuppressedBackends]: a bit set of backend ids. *)
Definition backend_bit (i : nat) : N := N.shiftl 1 (N.of_nat i).
Definition suppress (bits : N) (i : nat) : N := N.lor bits (backend_bit i).
Definition suppressed (bits : N) (i : nat) : bool := negb (N.land bits (backend_bit i) =? 0)%N.

Definition find_backend (s : BackendSelector) (i : nat) : option BackendInfo :=
  head (filter (λ b, backend_id b = i) (backends s)).

Definition set_backends (s : BackendSelector) (bs : list BackendInfo) : BackendSelector :=
  mkSelector bs (strategy s) (sorted_tiers s) (probe_counter s) (availability_mask s)
    (backpressure_enabled s) (backpressure_limits s) (all_busy_sleep_ms s).

Definition set_strategy (s : BackendSelector) (st : SelectionStrategy) : BackendSelector :=
  mkSelector (backends s) st (sorted_tiers s) (probe_counter s) (availability_mask s)
    (backpressure_enabled s) (backpressure_limits s) (all_busy_sleep_ms s).

Definition set_probe_counter (s : BackendSelector) (c : N) : BackendSelector :=
  mkSelector (backends s) (strategy s) (sorted_tiers s) c (availability_mask s)
    (backpressure_enabled s) (backpressure_limits s) (all_busy_sleep_ms s).

(** ** Construction *)

Inductive BackendSelectionStrategy := WeightedRoundRobin | LeastLoaded.

Definition with_strategy (st : BackendSelectionStrategy) : BackendSelector :=
  mkSelector []
    (match st with
     | WeightedRoundRobin => StWeightedRoundRobin 0 0
     | LeastLoaded => StLeastLoaded 0
     end) [] 0 0 true (mkLimits 25 50) 1.

Definition with_queue_backpressure (s : BackendSelector) (enabled : bool)
    (limits : QueuePressureLimits) (sleep_ms : N) : BackendSelector :=
  mkSelector (backends s) (strategy s) (sorted_tiers s) (probe_counter s) (availability_mask s)
    enabled limits sleep_ms.

(** [push] and [sort_unstable] of a tier not yet present. *)
Fixpoint insert_tier (t : N) (l : list N) : list N :=
  match l with
  | [] => [t]
  | t' :: l' => if (t <? t')%N then t :: l else t' :: insert_tier t l'
  end.

(** [add_backend_with_slot] for a pool of [max_connections]; [None] is the
    panic of [BackendId::from_index]. *)
Definition add_backend_with_slot (s : BackendSelector) (max_connections tier : N)
    (slot : AvailabilitySlot) : option BackendSelector :=
  let i := length (backends s) in
  if i <? USIZE_BITS then
    Some (mkSelector (backends s ++ [mkBackend i slot 0 0 tier])
      (match strategy s with
       | StWeightedRoundRobin c w => StWeightedRoundRobin c (w + max_connections)
       | st => st
       end)
      (if bool_decide (tier ∈ sorted_tiers s) then sorted_tiers s else insert_tier tier (sorted_tiers s))
      (probe_counter s) (mask_insert (availability_mask s) slot) (backpressure_enabled s)
      (backpressure_limits s) (all_busy_sleep_ms s))
  else None.

(** ** Queue pressure *)

Definition active_for_score (pending checked_out waiting : N) : N :=
  let checked_out_with_waiters := sat_add64 checked_out waiting in
  if (checked_out_with_waiters <? pending)%N then pending else checked_out_with_waiters.

Definition queue_depth_for_score (pending checked_out waiting : N) : N :=
  sat_sub (active_for_score pending checked_out waiting) checked_out.

Definition div_ceil (a b : N) : N := (a / b + (if a mod b =? 0 then 0 else 1))%N.

Definition queue_depth_limit (max_connections percent : N) : N :=
  div_ceil (sat_mul64 max_connections percent) 100.

Definition exceeds_hard_queue_depth (s : BackendSelector) (pending checked_out waiting max_connections : N)
    : bool :=
  if negb (backpressure_enabled s) || (max_connections =? 0)%N then false
  else (queue_depth_limit max_connections (hard (backpressure_limits s)) <?
        queue_depth_for_score pending checked_out waiting)%N.

Definition queue_soft_pressure_penalty (s : BackendSelector)
    (pending checked_out waiting max_connections : N) : N :=
  if negb (backpressure_enabled s) || (max_connections =? 0)%N then 0
  else sat_sub (queue_depth_for_score pending checked_out waiting)
         (queue_depth_limit max_connections (soft (backpressure_limits s))).

Definition checked_out (c : StatusCounts) : N := sat_sub (st_size c) (st_available c).

(** ** Load ratios *)

Definition PREC : Z := 53.
Definition EMAX : Z := 1024.

(** [n as f64] *)
Definition f64_of_N (n : N) : spec_float := binary_normalize PREC EMAX (Z.of_N n) 0 false.

Definition F64_MAX : spec_float := S754_finite false (2 ^ 53 - 1)%positive 971.

Definition f64_lt (x y : spec_float) : bool :=
  match SFcompare x y with Some Lt => true | _ => false end.

(** ** Strategies *)

(** [WeightedRoundRobin::select_with_weight]: the position and the counter. *)
Definition select_with_weight (counter weight : N) : option N * N :=
  if (weight =? 0)%N then (None, counter)
  else (Some (counter mod weight)%N, wrap64 (counter + 1)).

Definition mix (value : N) : N :=
  let value := N.lxor value (N.shiftr value 16) in
  let value := wrap64 (value * 0x7feb352d) in
  let value := N.lxor value (N.shiftr value 15) in
  let value := wrap64 (value * 0x846ca68b) in
  N.lxor value (N.shiftr value 16).

(** [LeastLoaded::should_replace_tie]: the decision and the tie breaker. *)
Definition should_replace_tie (tie_breaker tie_count : N) : bool * N :=
  if (tie_count <=? 1)%N then (false, tie_breaker)
  else ((mix tie_breaker mod tie_count =? 0)%N, wrap64 (tie_breaker + 0x9e3779b97f4a7c15)).

Record SelectedBackend := mkSelected {
  sel_backend : BackendInfo;
  sel_snapshot : option N }.

(** The [find] over cumulative weights. *)
Fixpoint at_position (weight : BackendInfo → N) (l : list BackendInfo) (cumulative position : N)
    : option BackendInfo :=
  match l with
  | [] => None
  | b :: l =>
      let cumulative := (cumulative + weight b)%N in
      if (position <? cumulative)%N then Some b else at_position weight l cumulative position
  end.

Section Selection.
  Context (pool : nat → StatusCounts).

Definition status_counts (b : BackendInfo) : StatusCounts := pool (backend_id b).
Definition weight (b : BackendInfo) : N := st_max_size (status_counts b).
Definition total (l : list BackendInfo) : N := foldr N.add 0%N (weight <$> l).

Definition over_hard (s : BackendSelector) (b : BackendInfo) : bool :=
  let c := status_counts b in
  exceeds_hard_queue_depth s (pending_count b) (checked_out c) (st_waiting c) (st_max_size c).

Definition backend_load_ratio_with_pending (s : BackendSelector) (b : BackendInfo) (pending : N)
    : spec_float :=
  let c := status_counts b in
  let max_conns := f64_of_N (st_max_size c) in
  if f64_lt (f64_of_N 0) max_conns then
    let penalty := queue_soft_pressure_penalty s pending (checked_out c) (st_waiting c) (st_max_size c) in
    let active := active_for_score pending (checked_out c) (sat_add64 (st_waiting c) penalty) in
    SFdiv PREC EMAX (f64_of_N active) max_conns
  else F64_MAX.

(** [select_capacity_weighted] on the backends that pass the filter. *)
Definition select_capacity_weighted (s : BackendSelector) (l : list BackendInfo)
    : option SelectedBackend * BackendSelector :=
  if (total l =? 0)%N then (None, s)
  else
    let position := (probe_counter s mod total l)%N in
    (b ← match at_position weight l 0 position with Some b => Some b | None => head l end;
     Some (mkSelected b None),
     set_probe_counter s (wrap64 (probe_counter s + 1))).

Record LeastState := mkLeast {
  ls_selected : option SelectedBackend;
  ls_load : spec_float;
  ls_ties : N;
  ls_breaker : N }.

(** One iteration of the least-loaded scan. *)
Definition least_step (s : BackendSelector) (st : LeastState) (b : BackendInfo) : LeastState :=
  let pending := pending_count b in
  let load := backend_load_ratio_with_pending s b pending in
  match default Gt (SFcompare load (ls_load st)) with
  | Lt => mkLeast (Some (mkSelected b (Some pending))) load 1 (ls_breaker st)
  | Eq =>
      let ties := (ls_ties st + 1)%N in
      let '(replace, breaker) := should_replace_tie (ls_breaker st) ties in
      mkLeast (if replace then Some (mkSelected b (Some pending)) else ls_selected st)
        (ls_load st) ties breaker
  | Gt => st
  end.

Definition select_weighted (s : BackendSelector) (l : list BackendInfo)
    : option SelectedBackend * BackendSelector :=
  match strategy s with
  | StWeightedRoundRobin counter tw =>
      if (total l =? 0)%N then (None, s)
      else
        let '(position, counter) := select_with_weight counter (total l) in
        (position ← position;
         b ← match at_position weight l 0 position with Some b => Some b | None => head l end;
         Some (mkSelected b None),
         set_strategy s (StWeightedRoundRobin counter tw))
  | StLeastLoaded breaker =>
      let st := foldl (least_step s) (mkLeast None F64_MAX 0 breaker) l in
      (ls_selected st, set_strategy s (StLeastLoaded (ls_breaker st)))
  end.

Definition is_available (availability : option ArticleAvailability) (bits : N) (b : BackendInfo) : bool :=
  negb (suppressed bits (backend_id b)) &&
  match availability with None => true | Some a => should_try_slot a (availability_slot b) end.

Definition availability_missing_in_tier (s : BackendSelector) (a : ArticleAvailability) (t : N) : bool :=
  existsb (λ b, (tier b =? t)%N && is_missing_slot a (availability_slot b)) (backends s).

(** The candidates of a tier after the queue-pressure filter. *)
Definition tier_candidates (s : BackendSelector) (availability : option ArticleAvailability) (bits t : N)
    : list BackendInfo :=
  let in_tier b := (tier b =? t)%N && is_available availability bits b in
  let tier_has_non_over_hard_backend :=
    backpressure_enabled s && existsb (λ b, in_tier b && negb (over_hard s b)) (backends s) in
  filter (λ b, in_tier b && (negb tier_has_non_over_hard_backend || negb (over_hard s b)) = true)
    (backends s).

Definition select_in_tier (s : BackendSelector) (availability : option ArticleAvailability) (bits t : N)
    : option SelectedBackend * BackendSelector :=
  let l := tier_candidates s availability bits t in
  match availability with
  | Some a =>
      if negb (availability_missing_in_tier s a t) then
        match strategy s with
        | StWeightedRoundRobin _ _ => select_capacity_weighted s l
        | StLeastLoaded _ => select_weighted s l
        end
      else select_weighted s l
  | None => select_weighted s l
  end.

Fixpoint select_tiers (s : BackendSelector) (availability : option ArticleAvailability) (bits : N)
    (tiers : list N) : option SelectedBackend * BackendSelector :=
  match tiers with
  | [] => (None, s)
  | t :: tiers =>
      let '(selected, s) := select_in_tier s availability bits t in
      match selected with
      | Some sel => (Some sel, s)
      | None =>
          match availability with
          | Some a =>
              if existsb (λ b, (tier b =? t)%N && should_try_slot a (availability_slot b)) (backends s)
              then (None, s)
              else select_tiers s availability bits tiers
          | None => select_tiers s availability bits tiers
          end
      end
  end.

Definition select_backend (s : BackendSelector) (availability : option ArticleAvailability) (bits : N)
    : option SelectedBackend * BackendSelector :=
  match backends s with
  | [] => (None, s)
  | _ => select_tiers s availability bits (sorted_tiers s)
  end.
End Selection.

(** ** Reservation and completion *)

(** An update of the first backend with the id. *)
Fixpoint update_backend (i : nat) (f : BackendInfo → BackendInfo) (l : list BackendInfo) : list BackendInfo :=
  match l with
  | [] => []
  | b :: l => if backend_id b =? i then f b :: l else b :: update_backend i f l
  end.

Definition set_pending (n : N) (b : BackendInfo) : BackendInfo :=
  mkBackend (backend_id b) (availability_slot b) n (stateful_count b) (tier b).

Definition set_stateful (n : N) (b : BackendInfo) : BackendInfo :=
  mkBackend (backend_id b) (availability_slot b) (pending_count b) n (tier b).

(** [PendingCount::increment] and [decrement]: [fetch_add] and [fetch_sub] wrap. *)
Definition pending_increment (n : N) : N := wrap64 (n + 1).
Definition pending_decrement (n : N) : N := wrap64 (n + u64_max).

(** [StatefulCount::try_acquire] and [release], at the instant their
    compare-exchange loops succeed or give up. *)
Definition stateful_try_acquire (current max_stateful : N) : option N :=
  if (max_stateful <=? current)%N then None else Some (current + 1)%N.

Definition stateful_release (current : N) : option N :=
  if (current =? 0)%N then None else Some (current - 1)%N.

(** [mark_backend_pending] and [complete_command]. *)
Definition mark_backend_pending (s : BackendSelector) (i : nat) : BackendSelector :=
  set_backends s (update_backend i (λ b, set_pending (pending_increment (pending_count b)) b) (backends s)).

Definition complete_command (s : BackendSelector) (i : nat) : BackendSelector :=
  set_backends s (update_backend i (λ b, set_pending (pending_decrement (pending_count b)) b) (backends s)).

Inductive RouteError := NoBackends | NotEligible.

(** [PendingCount::try_increment_from]: a compare-exchange. *)
Definition try_increment_from (s : BackendSelector) (i : nat) (observed : N) : option BackendSelector :=
  b ← find_backend s i;
  if (pending_count b =? observed)%N
  then Some (set_backends s (update_backend i (set_pending (pending_increment observed)) (backends s)))
  else None.

(** [route_selected_backend]: [env k] is what the other threads do between the
    [k]-th selection and its reservation; [fuel] bounds the retries of the
    compare-exchange, [None] is running out of it. *)
Fixpoint route (pool : nat → StatusCounts) (env : nat → BackendSelector → BackendSelector)
    (fuel k : nat) (s : BackendSelector) (availability : option ArticleAvailability) (bits : N)
    : option (result RouteError nat * BackendSelector) :=
  match fuel with
  | 0 => None
  | S fuel =>
      let '(selected, s) := select_backend pool s availability bits in
      match selected with
      | None => Some (Err NoBackends, s)
      | Some sel =>
          let b := sel_backend sel in
          let i := backend_id b in
          let eligible := match availability with
                          | None => true
                          | Some a => should_try_slot a (availability_slot b)
                          end in
          if negb eligible then Some (Err NotEligible, s)
          else
            let s := env k s in
            match sel_snapshot sel with
            | None => Some (Ok i, mark_backend_pending s i)
            | Some observed =>
                match try_increment_from s i observed with
                | Some s => Some (Ok i, s)
                | None => route pool env fuel (S k) s availability bits
                end
            end
      end
  end.

(** [try_acquire_stateful] and [release_stateful]. *)
Definition try_acquire_stateful (pool : nat → StatusCounts) (s : BackendSelector) (i : nat)
    : bool * BackendSelector :=
  match find_backend s i with
  | None => (false, s)
  | Some b =>
      let max_stateful := sat_sub (st_max_size (pool (backend_id b))) 1 in
      match stateful_try_acquire (stateful_count b) max_stateful with
      | None => (false, s)
      | Some n => (true, set_backends s (update_backend i (set_stateful n) (backends s)))
      end
  end.

Definition release_stateful (s : BackendSelector) (i : nat) : BackendSelector :=
  match find_backend s i with
  | None => s
  | Some b =>
      match stateful_release (stateful_count b) with
      | None => s
      | Some n => set_backends s (update_backend i (set_stateful n) (backends s))
      end
  end.

(** [CommandGuard]: completing it or dropping it calls [complete_command] once. *)
Record CommandGuard := mkGuard { guard_backend : nat; guard_completed : bool }.

Definition guard_for_routed_backend (i : nat) : CommandGuard := mkGuard i false.

Definition guard_for_manual_backend (s : BackendSelector) (i : nat) : CommandGuard * BackendSelector :=
  (mkGuard i false, mark_backend_pending s i).

Definition guard_drop (s : BackendSelector) (g : CommandGuard) : BackendSelector :=
  if guard_completed g then s else complete_command s (guard_backend g).

Definition guard_complete (s : BackendSelector) (g : CommandGuard) : BackendSelector :=
  guard_drop (complete_command s (guard_backend g)) (mkGuard (guard_backend g) true).

(** [queue_backpressure_delay_for_article], in milliseconds. *)
Fixpoint delay_tiers (pool : nat → StatusCounts) (s : BackendSelector) (a : ArticleAvailability)
    (bits : N) (tiers : list N) : option N :=
  match tiers with
  | [] => None
  | t :: tiers =>
      match filter (λ b, (tier b =? t)%N && is_available (Some a) bits b = true) (backends s) with
      | [] => delay_tiers pool s a bits tiers
      | l => if existsb (λ b, negb (over_hard pool s b)) l then None else Some (all_busy_sleep_ms s)
      end
  end.

Definition queue_backpressure_delay_for_article (pool : nat → StatusCounts) (s : BackendSelector)
    (a : ArticleAvailability) (bits : N) : option N :=
  if negb (backpressure_enabled s) || (all_busy_sleep_ms s =? 0)%N then None
  else delay_tiers pool s a bits (sorted_tiers s).

(** ** The order of load ratios *)

Definition f64_key (x : spec_float) : option (Z * Z * Z) :=
  match x with
  | S754_nan => None
  | S754_zero _ => Some (0, 0, 0)%Z
  | S754_infinity s => Some ((if s then -2 else 2), 0, 0)%Z
  | S754_finite s m e => Some (if s then (-1, - e, Zneg m) else (1, e, Zpos m))%Z
  end.

Definition key_compare (x y : Z * Z * Z) : comparison :=
  match (x.1.1 ?= y.1.1)%Z with
  | Eq => match (x.1.2 ?= y.1.2)%Z with Eq => (x.2 ?= y.2)%Z | c => c end
  | c => c
  end.

Lemma SFcompare_key x y :
  SFcompare x y = (kx ← f64_key x; ky ← f64_key y; Some (key_compare kx ky)).
Proof.
  destruct x as [sx|sx| |sx mx ex], y as [sy|sy| |sy my ey]; cbn; try destruct sx; try destruct sy; try done.
  unfold key_compare. cbn. rewrite Z.compare_opp, (Z.compare_antisym ex ey).
  by destruct (ex ?= ey)%Z.
Qed.

Lemma key_compare_lt x y :
  key_compare x y = Lt ↔
  (x.1.1 < y.1.1 ∨ x.1.1 = y.1.1 ∧ (x.1.2 < y.1.2 ∨ x.1.2 = y.1.2 ∧ x.2 < y.2))%Z.
Proof.
  unfold key_compare. destruct (Z.compare_spec x.1.1 y.1.1), (Z.compare_spec x.1.2 y.1.2), (Z.compare_spec x.2 y.2);
    split; intros; try done; lia.
Qed.

Lemma key_compare_eq x y : key_compare x y = Eq ↔ x = y.
Proof.
  destruct x as [[x1 x2] x3], y as [[y1 y2] y3]. unfold key_compare. cbn.
  destruct (Z.compare_spec x1 y1), (Z.compare_spec x2 y2), (Z.compare_spec x3 y3); split; intros H'; simplify_eq; try done; lia.
Qed.

Lemma f64_lt_key x y :
  f64_lt x y = true ↔ ∃ kx ky, f64_key x = Some kx ∧ f64_key y = Some ky ∧ key_compare kx ky = Lt.
Proof.
  unfold f64_lt. rewrite SFcompare_key. destruct (f64_key x) as [kx|], (f64_key y) as [ky|]; cbn; try naive_solver.
  split; [|by intros (? & ? & [= <-] & [= <-] & ->)]. intros H. exists kx, ky. split_and!; [done|done|].
  by destruct (key_compare kx ky).
Qed.

Lemma f64_lt_trans x y z : f64_lt x y = true → f64_lt y z = true → f64_lt x z = true.
Proof.
  rewrite !f64_lt_key. intros (kx & ky & Hx & Hy & H1) (ky' & kz & Hy' & Hz & H2). simplify_eq.
  exists kx, kz. split_and!; [done|done|]. rewrite key_compare_lt in *. lia.
Qed.

Lemma f64_lt_eq x y z : f64_lt x y = true → SFcompare y z = Some Eq → f64_lt x z = true.
Proof.
  rewrite !f64_lt_key, SFcompare_key. intros (kx & ky & Hx & Hy & H1) H2. rewrite Hy in H2. cbn in H2.
  destruct (f64_key z) as [kz|]; cbn in H2; [|done]. injection H2 as H2. apply key_compare_eq in H2 as ->.
  by exists kx, kz.
Qed.

Lemma SFcompare_sym_eq x y : SFcompare x y = Some Eq → SFcompare y x = Some Eq.
Proof.
  rewrite !SFcompare_key. destruct (f64_key x) as [kx|], (f64_key y) as [ky|]; cbn; try done.
  intros [= H]. apply key_compare_eq in H as ->. f_equal. by apply key_compare_eq.
Qed.

(** ** Selection lemmas *)

Section SelectionLemmas.
  Context (pool : nat → StatusCounts).

Lemma at_position_elem w l c p b : at_position w l c p = Some b → b ∈ l.
Proof.
  revert c. induction l as [|x l IH]; intros c; cbn; [done|].
  destruct (_ <? _)%N; [intros [= ->]; by left|]. intros H. right. by eapply IH.
Qed.

Definition load (s : BackendSelector) (b : BackendInfo) : spec_float :=
  backend_load_ratio_with_pending pool s b (pending_count b).

(** What the least-loaded scan has established of the backends it has seen. *)
Definition least_inv (s : BackendSelector) (seen : list BackendInfo) (st : LeastState) : Prop :=
  (∀ b, b ∈ seen → f64_lt (load s b) (ls_load st) = false) ∧
  match ls_selected st with
  | None => ls_load st = F64_MAX
  | Some sel =>
      sel_backend sel ∈ seen ∧ sel_snapshot sel = Some (pending_count (sel_backend sel)) ∧
      SFcompare (load s (sel_backend sel)) (ls_load st) = Some Eq
  end.

Lemma f64_self x y c : SFcompare x y = Some c → SFcompare x x = Some Eq.
Proof.
  rewrite !SFcompare_key. destruct (f64_key x); cbn; [|done]. intros _. f_equal. by apply key_compare_eq.
Qed.

Lemma least_step_inv s seen st b : least_inv s seen st → least_inv s (seen ++ [b]) (least_step pool s st b).
Proof.
  intros [Hall Hsel]. unfold least_step. fold (load s b).
  assert (SFcompare (load s b) (ls_load st) ≠ Some Lt → ∀ x, x ∈ seen ++ [b] → f64_lt (load s x) (ls_load st) = false) as Hge.
  { intros Hn x [?|Hx%list_elem_of_singleton]%elem_of_app; [by apply Hall|subst x]. unfold f64_lt. by destruct (SFcompare _ _) as [[]|]. }
  assert (∀ sel, ls_selected st = Some sel → sel_backend sel ∈ seen ++ [b] ∧
    sel_snapshot sel = Some (pending_count (sel_backend sel)) ∧ SFcompare (load s (sel_backend sel)) (ls_load st) = Some Eq) as Hold.
  { intros sel E. rewrite E in Hsel. destruct Hsel as (? & ? & ?). split_and!; [set_solver|done|done]. }
  destruct (SFcompare (load s b) (ls_load st)) as [[]|] eqn:E; cbn [default from_option id].
  - destruct (should_replace_tie _ _) as [rep br]. split; [by apply Hge|]. cbn.
    destruct rep; [split_and!; [set_solver|done|done]|]. destruct (ls_selected st); [by apply Hold|done].
  - split; cbn; [|split_and!; [set_solver|done|by eapply f64_self]].
    intros x [Hx|Hx%list_elem_of_singleton]%elem_of_app; [|subst x].
    + destruct (f64_lt (load s x) (load s b)) eqn:Hlt; [|done]. rewrite <- (Hall x Hx). symmetry.
      eapply f64_lt_trans; [done|]. unfold f64_lt. by rewrite E.
    + unfold f64_lt. by rewrite (f64_self _ _ _ E).
  - split; [by apply Hge|]. destruct (ls_selected st); [by apply Hold|done].
  - split; [by apply Hge|]. destruct (ls_selected st); [by apply Hold|done].
Qed.

Lemma least_fold_inv s l seen st :
  least_inv s seen st → least_inv s (seen ++ l) (foldl (least_step pool s) st l).
Proof.
  revert seen st. induction l as [|b l IH]; intros seen st H; cbn [foldl]; [by rewrite app_nil_r|].
  replace (seen ++ b :: l) with ((seen ++ [b]) ++ l) by (by rewrite <- (assoc_L (++))).
  by apply IH, least_step_inv.
Qed.

Lemma total_zero l : Forall (λ b, (0 < weight pool b)%N) l → total pool l = 0%N → l = [].
Proof. unfold total. destruct 1 as [|b l Hb _]; [done|]. cbn. lia. Qed.

(** What a selection from a list of candidates returns. *)
Definition selects (s : BackendSelector) (l : list BackendInfo) (r : option SelectedBackend) : Prop :=
  match r with
  | None => l = []
  | Some sel =>
      sel_backend sel ∈ l ∧
      (∀ n, sel_snapshot sel = Some n → n = pending_count (sel_backend sel))
  end.

(** Every load is below [f64::MAX] and every pool has room for a connection. *)
Definition pools_ok (s : BackendSelector) : Prop :=
  Forall (λ b, (0 < weight pool b)%N ∧ f64_lt (load s b) F64_MAX = true) (backends s).

Lemma position_or_head w l p :
  l ≠ [] →
  ∃ b, match at_position w l 0 p with Some b => Some b | None => head l end = Some b ∧ b ∈ l.
Proof.
  intros Hl. destruct (at_position w l 0 p) as [b|] eqn:E; [exists b; split; [done|by eapply at_position_elem]|].
  destruct l as [|b l]; [done|]. exists b. split; [done|by left].
Qed.

Lemma select_capacity_selects s l :
  Forall (λ b, (0 < weight pool b)%N ∧ f64_lt (load s b) F64_MAX = true) l →
  selects s l (select_capacity_weighted pool s l).1.
Proof.
  intros Hl. unfold select_capacity_weighted. destruct (N.eqb_spec (total pool l) 0) as [H0|H0]; cbn [fst].
  - eapply total_zero; [|done]. eapply Forall_impl; [exact Hl|]. by intros b [? _].
  - destruct (position_or_head (weight pool) l (probe_counter s mod total pool l)) as (b & E & Hb);
      [by intros ->|]. rewrite E. by split.
Qed.

Lemma select_weighted_selects s l :
  Forall (λ b, (0 < weight pool b)%N ∧ f64_lt (load s b) F64_MAX = true) l →
  selects s l (select_weighted pool s l).1.
Proof.
  intros Hl. unfold select_weighted. destruct (strategy s) as [c tw|br].
  - destruct (N.eqb_spec (total pool l) 0) as [H0|H0]; cbn [fst].
    { eapply total_zero; [|done]. eapply Forall_impl; [exact Hl|]. by intros b [? _]. }
    unfold select_with_weight. rewrite (proj2 (N.eqb_neq _ _)) by done. cbn [fst mbind option_bind].
    destruct (position_or_head (weight pool) l (c mod total pool l)) as (b & E & Hb); [by intros ->|].
    rewrite E. by split.
  - destruct (least_fold_inv s l [] (mkLeast None F64_MAX 0 br)) as [Hall Hsel].
    { split; [|done]. intros b []%elem_of_nil. }
    cbn [fst]. rewrite app_nil_l in *. destruct (ls_selected _) as [sel|].
    + destruct Hsel as (H1 & H2 & _). split; [done|]. intros n. rewrite H2. congruence.
    + destruct l as [|b l]; [done|]. rewrite Hsel in Hall. apply Forall_cons in Hl as [[_ Hb] _].
      rewrite Hall in Hb by (by left). done.
Qed.

(** What selections leave alone: everything but the counters. *)
Definition same_static (s s' : BackendSelector) : Prop :=
  backends s' = backends s ∧ sorted_tiers s' = sorted_tiers s ∧
  backpressure_enabled s' = backpressure_enabled s ∧ backpressure_limits s' = backpressure_limits s ∧
  availability_mask s' = availability_mask s.

Lemma select_weighted_static s l : same_static s (select_weighted pool s l).2.
Proof. unfold select_weighted. by repeat case_match. Qed.

Lemma select_in_tier_static s a bits t : same_static s (select_in_tier pool s a bits t).2.
Proof.
  unfold select_in_tier. destruct a as [a|]; [|apply select_weighted_static].
  destruct (negb _); [|apply select_weighted_static].
  destruct (strategy s); [|apply select_weighted_static]. unfold select_capacity_weighted. by case_match.
Qed.

Lemma static_over_hard s s' b : same_static s s' → over_hard pool s' b = over_hard pool s b.
Proof. intros (_ & _ & H3 & H4 & _). unfold over_hard, exceeds_hard_queue_depth. by rewrite H3, H4. Qed.

Lemma static_load s s' b : same_static s s' → load s' b = load s b.
Proof.
  intros (_ & _ & H3 & H4 & _). unfold load, backend_load_ratio_with_pending, queue_soft_pressure_penalty.
  by rewrite H3, H4.
Qed.

Lemma static_candidates s s' a bits t :
  same_static s s' → tier_candidates pool s' a bits t = tier_candidates pool s a bits t.
Proof.
  intros Hs. pose proof Hs as (H1 & _ & H3 & _). unfold tier_candidates. rewrite H1, H3.
  assert (∀ f l, existsb (λ b, f b && negb (over_hard pool s' b)) l = existsb (λ b, f b && negb (over_hard pool s b)) l) as He.
  { intros f l. induction l as [|b l IH]; [done|]. cbn. by rewrite IH, (static_over_hard s s'). }
  rewrite He. apply list_filter_iff. intros b. by rewrite (static_over_hard s s').
Qed.

Lemma static_pools s s' : same_static s s' → pools_ok s → pools_ok s'.
Proof.
  intros Hs. pose proof Hs as (H1 & _). unfold pools_ok. rewrite H1. intros H. eapply Forall_impl; [exact H|].
  intros b. by rewrite (static_load s s').
Qed.

(** The candidates of a tier. *)
Lemma elem_of_candidates s a bits t b :
  b ∈ tier_candidates pool s a bits t →
  b ∈ backends s ∧ tier b = t ∧ is_available a bits b = true ∧
  (over_hard pool s b = true → ∀ b', b' ∈ backends s → tier b' = t → is_available a bits b' = true →
     over_hard pool s b' = true).
Proof.
  unfold tier_candidates. rewrite list_elem_of_filter. intros [Hf Hb].
  set (h := _ && existsb _ _) in Hf. reflect_bools. split_and!; [done|done|done|].
  intros Hov b' Hb' Ht Ha. destruct (over_hard pool s b') eqn:E; [done|exfalso].
  assert (h = true) as Hh; [|by rewrite Hh, Hov in *].
  unfold h. apply andb_true_iff. split.
  - unfold over_hard, exceeds_hard_queue_depth in Hov. by destruct (backpressure_enabled s).
  - apply existsb_exists. exists b'. split; [by apply list_elem_of_In|]. by rewrite Ht, N.eqb_refl, Ha, E.
Qed.

Lemma no_candidates s a bits t :
  tier_candidates pool s a bits t = [] →
  ∀ b, b ∈ backends s → tier b = t → is_available a bits b = false.
Proof.
  set (in_tier b := (tier b =? t)%N && is_available a bits b).
  set (h := backpressure_enabled s && existsb (λ b, in_tier b && negb (over_hard pool s b)) (backends s)).
  change (filter (λ b, in_tier b && (negb h || negb (over_hard pool s b)) = true) (backends s) = [] →
    ∀ b, b ∈ backends s → tier b = t → is_available a bits b = false). intros H b Hb Ht.
  destruct (is_available a bits b) eqn:Ha; [exfalso|done].
  assert (in_tier b = true) as Hin by (unfold in_tier; by rewrite Ht, N.eqb_refl, Ha).
  assert (∃ b', b' ∈ backends s ∧ in_tier b' = true ∧ (negb h || negb (over_hard pool s b')) = true) as (b' & Hb' & Hi & Ho).
  { destruct h eqn:Eh; [|by exists b]. unfold h in Eh. reflect_bools.
    match goal with H : existsb _ _ = true |- _ => apply existsb_exists in H as (b' & Hb' & Hx) end.
    reflect_bools. exists b'. split; [by apply list_elem_of_In|]. split; [done|]. cbn. by apply negb_true_iff. }
  apply (elem_of_nil b'). rewrite <- H. apply list_elem_of_filter. split; [|done]. by rewrite Hi, Ho.
Qed.

(** The backends that keep the search in their tier: for an article those not
    known to miss it, otherwise those not suppressed. *)
Definition blocking (a : option ArticleAvailability) (bits : N) (b : BackendInfo) : bool :=
  match a with
  | Some a => should_try_slot a (availability_slot b)
  | None => negb (suppressed bits (backend_id b))
  end.

Definition tiers_searched (s : BackendSelector) (a : option ArticleAvailability) (bits : N)
    (tiers : list N) (r : option SelectedBackend) : Prop :=
  match r with
  | Some sel =>
      ∃ pre t post, tiers = pre ++ t :: post ∧ selects s (tier_candidates pool s a bits t) r ∧
        ∀ b, b ∈ backends s → tier b ∈ pre → blocking a bits b = false
  | None =>
      (∀ b, b ∈ backends s → tier b ∈ tiers → blocking a bits b = false) ∨
      ∃ pre t post, tiers = pre ++ t :: post ∧ tier_candidates pool s a bits t = [] ∧
        (∃ b, b ∈ backends s ∧ tier b = t ∧ blocking a bits b = true) ∧
        ∀ b, b ∈ backends s → tier b ∈ pre → blocking a bits b = false
  end.

Lemma tiers_searched_cons s a bits t tiers r :
  (∀ b, b ∈ backends s → tier b = t → blocking a bits b = false) →
  tiers_searched s a bits tiers r → tiers_searched s a bits (t :: tiers) r.
Proof.
  intros Ht. destruct r as [sel|]; cbn.
  - intros (pre & t' & post & -> & H1 & H2). exists (t :: pre), t', post. split; [done|]. split; [exact H1|].
    intros b Hb [?|?]%elem_of_cons; auto.
  - intros [H|(pre & t' & post & -> & H1 & H2 & H3)]; [left; intros b Hb [?|?]%elem_of_cons; auto|right].
    exists (t :: pre), t', post. split; [done|]. split; [exact H1|]. split; [exact H2|].
    intros b Hb [?|?]%elem_of_cons; auto.
Qed.

Lemma select_in_tier_selects s a bits t :
  pools_ok s → selects s (tier_candidates pool s a bits t) (select_in_tier pool s a bits t).1.
Proof.
  intros Hp. set (l := tier_candidates pool s a bits t).
  assert (Forall (λ b, (0 < weight pool b)%N ∧ f64_lt (load s b) F64_MAX = true) l) as Hl.
  { apply Forall_forall. intros b Hb. apply elem_of_candidates in Hb as [Hb _].
    by apply (proj1 (Forall_forall _ _) Hp). }
  unfold select_in_tier. fold l. destruct a as [a|]; [|by apply select_weighted_selects].
  destruct (negb _); [|by apply select_weighted_selects].
  destruct (strategy s); [by apply select_capacity_selects|by apply select_weighted_selects].
Qed.

Lemma static_searched s s' a bits tiers r :
  same_static s s' → tiers_searched s' a bits tiers r → tiers_searched s a bits tiers r.
Proof.
  intros Hs. pose proof Hs as (H1 & _). unfold tiers_searched. rewrite H1.
  destruct r as [sel|]; [|intros [H|(pre & t & post & H2 & H3 & H4)]; [by left|right; exists pre, t, post; by rewrite <- (static_candidates s s')]].
  intros (pre & t & post & H2 & H3 & H4). exists pre, t, post. rewrite <- (static_candidates s s') by done. done.
Qed.

Lemma select_tiers_searched s a bits tiers :
  pools_ok s → tiers_searched s a bits tiers (select_tiers pool s a bits tiers).1.
Proof.
  revert s. induction tiers as [|t tiers IH]; intros s Hp; cbn [select_tiers].
  { left. intros b _ []%elem_of_nil. }
  pose proof (select_in_tier_selects s a bits t Hp) as Hsel. pose proof (select_in_tier_static s a bits t) as Hst.
  destruct (select_in_tier pool s a bits t) as [[sel|] s1]; cbn [fst snd] in *.
  { exists [], t, tiers. split; [done|]. split; [exact Hsel|]. intros b _ []%elem_of_nil. }
  pose proof (static_pools _ _ Hst Hp) as Hp1. pose proof Hst as (Hb & _).
  assert ((∀ b, b ∈ backends s → tier b = t → blocking a bits b = false) →
    tiers_searched s a bits (t :: tiers) (select_tiers pool s1 a bits tiers).1) as Hnext.
  { intros Hn. apply tiers_searched_cons; [done|]. apply (static_searched s s1); [done|by apply IH]. }
  destruct a as [a|].
  - destruct (existsb _ _) eqn:E.
    + apply existsb_exists in E as (b & Hin & Hx). reflect_bools. right. exists [], t, tiers.
      split; [done|]. split; [exact Hsel|]. split; [|by intros b' _ []%elem_of_nil].
      exists b. rewrite <- Hb. split; [by apply list_elem_of_In|done].
    + apply Hnext. intros b Hin Ht. rewrite Hb in E. cbn. destruct (should_try_slot a (availability_slot b)) eqn:Es; [|done].
      rewrite <- E. symmetry. apply existsb_exists. exists b. split; [by apply list_elem_of_In|]. by rewrite Ht, N.eqb_refl, Es.
  - apply Hnext. intros b Hin Ht. pose proof (no_candidates s None bits t Hsel b Hin Ht) as Ha.
    unfold is_available in Ha. by rewrite andb_true_r in Ha.
Qed.
End SelectionLemmas.

(** ** Selectors built from the configuration *)

Record selector_ok (s : BackendSelector) : Prop := {
  so_sorted : StronglySorted N.lt (sorted_tiers s);
  so_tiers : ∀ t, t ∈ sorted_tiers s ↔ ∃ b, b ∈ backends s ∧ tier b = t;
  so_ids : ∀ i b, backends s !! i = Some b → backend_id b = i;
  so_count : length (backends s) ≤ USIZE_BITS;
  so_mask : availability_mask s = from_slots (availability_slot <$> backends s) }.

Definition add_all (s : BackendSelector) (servers : list (N * N * AvailabilitySlot)) : option BackendSelector :=
  foldl (λ os server, s ← os; add_backend_with_slot s server.1.1 server.1.2 server.2) (Some s) servers.

Lemma elem_of_insert_tier x t l : x ∈ insert_tier t l ↔ x = t ∨ x ∈ l.
Proof.
  induction l as [|y l IH]; cbn; [set_solver|]. destruct (_ <? _)%N; rewrite !elem_of_cons, ?IH; tauto.
Qed.

Lemma insert_tier_sorted t l : t ∉ l → StronglySorted N.lt l → StronglySorted N.lt (insert_tier t l).
Proof.
  intros Hn Hs. induction Hs as [|y l Hs IH Hy]; cbn; [repeat constructor|].
  apply not_elem_of_cons in Hn as [Hne Hn]. destruct (N.ltb_spec t y).
  - constructor; [by constructor|]. constructor; [done|]. eapply Forall_impl; [exact Hy|]. intros z. cbn. lia.
  - constructor; [by apply IH|]. apply Forall_forall. intros z [->|Hz]%elem_of_insert_tier; [lia|].
    by apply (proj1 (Forall_forall _ _) Hy).
Qed.

Lemma add_backend_ok s max_connections t slot s' :
  selector_ok s → add_backend_with_slot s max_connections t slot = Some s' → selector_ok s'.
Proof.
  intros [Hs Ht Hi Hc Hm] H. unfold add_backend_with_slot in H.
  destruct (Nat.ltb_spec (length (backends s)) USIZE_BITS) as [Hl|]; [|done]. injection H as <-.
  constructor; cbn.
  - case_bool_decide; [done|by apply insert_tier_sorted].
  - intros x. setoid_rewrite elem_of_app. setoid_rewrite list_elem_of_singleton.
    case_bool_decide as Hin; rewrite ?elem_of_insert_tier, ?Ht; [|naive_solver].
    rewrite Ht in Hin. destruct Hin as (b0 & Hb0 & Ht0). split; [naive_solver|]. intros (b & [?| ->] & <-); eauto.
  - intros i b. rewrite lookup_app_Some, list_lookup_singleton_Some. intros [?|(? & ? & <-)]; [by apply Hi|]. cbn. lia.
  - rewrite length_app. cbn. lia.
  - unfold from_slots. rewrite fmap_app, foldl_app. cbn. by rewrite Hm.
Qed.

Lemma with_strategy_ok st : selector_ok (with_strategy st).
Proof. constructor; cbn; [constructor| |done|lia|done]. intros t. set_solver. Qed.

Lemma sorted_split (l pre post : list N) t x :
  StronglySorted N.lt l → l = pre ++ t :: post → x ∈ l → (x < t)%N → x ∈ pre.
Proof.
  intros Hs -> Hx Hlt. induction pre as [|y pre IH]; cbn in *.
  - inversion Hs as [|? ? _ Hall]; subst. apply elem_of_cons in Hx as [->|Hx]; [lia|].
    apply (proj1 (Forall_forall _ _) Hall) in Hx. lia.
  - inversion Hs; subst. apply elem_of_cons in Hx as [->|Hx]; [by left|right; by apply IH].
Qed.

(** ** Properties *)


(** Two servers of tier 0 and one of tier 1, ten connections each. *)
Definition three_servers : list (N * N * AvailabilitySlot) :=
  [(10, 0, mkSlot 0); (10, 0, mkSlot 1); (10, 1, mkSlot 2)]%N.

Definition sample_selector (st : BackendSelectionStrategy) : BackendSelector :=
  default (with_strategy st) (add_all (with_strategy st) three_servers).

Definition idle_pool (i : nat) : StatusCounts := mkStatus 0 0 10 0.

Lemma add_all_ind (P : BackendSelector → Prop) servers s s' :
  (∀ s server s', P s → add_backend_with_slot s server.1.1 server.1.2 server.2 = Some s' → P s') →
  P s → add_all s servers = Some s' → P s'.
Proof.
  intros Hstep. revert s. induction servers as [|server l IH]; intros s Hs H; [by injection H as <-|].
  unfold add_all in H. cbn in H. destruct (add_backend_with_slot s _ _ _) as [s1|] eqn:E.
  - eapply (IH s1); [by eapply Hstep|exact H].
  - exfalso. clear -H. induction l as [|x l IH]; [done|]. apply IH. exact H.
Qed.

Lemma add_all_ok servers s s' : selector_ok s → add_all s servers = Some s' → selector_ok s'.
Proof. apply add_all_ind. intros ? ? ?. apply add_backend_ok. Qed.

Lemma sample_selector_ok st : selector_ok (sample_selector st).
Proof. apply (add_all_ok three_servers (with_strategy st)); [apply with_strategy_ok|]. by destruct st. Qed.


(** ** Fairness of the weighted round robin *)

#[global] Instance BackendInfo_eq_dec : EqDecision BackendInfo.
Proof. solve_decision. Defined.

(** How many [k] below a bound satisfy a test, starting at [c]. *)
Definition tally (g : nat → bool) (c n : nat) : nat := length (filter (λ k, g k = true) (seq c n)).

Lemma tally_app g c n m : tally g c (n + m) = tally g c n + tally g (c + n) m.
Proof. unfold tally. by rewrite seq_app, filter_app, length_app. Qed.

Lemma tally_all g c n v : (∀ k, c ≤ k < c + n → g k = v) → tally g c n = if v then n else 0.
Proof.
  revert c. induction n as [|n IH]; intros c H; [by destruct v|]. change (S n) with (1 + n). rewrite tally_app, IH.
  2:{ intros k Hk. apply H. lia. }
  unfold tally at 1. cbn [seq]. rewrite filter_cons, H by lia. by destruct v.
Qed.

Lemma tally_ext g h c n : (∀ k, c ≤ k < c + n → g k = h k) → tally g c n = tally h c n.
Proof.
  revert c. induction n as [|n IH]; intros c H; [done|]. change (S n) with (1 + n). rewrite !tally_app.
  rewrite (IH (c + 1)) by (intros k Hk; apply H; lia). f_equal. unfold tally. cbn [seq].
  by rewrite !filter_cons, H by lia.
Qed.

(** A full period of a periodic test, wherever it starts. *)
Lemma tally_period g c W : (∀ k, g (k + W) = g k) → tally g c W = tally g 0 W.
Proof.
  intros Hg. induction c as [|c IH]; [done|]. rewrite <- IH.
  pose proof (tally_app g c 1 W) as H1. pose proof (tally_app g c W 1) as H2.
  replace (c + 1) with (S c) in H1 by lia. rewrite Nat.add_comm in H2. rewrite H2 in H1.
  assert (tally g (c + W) 1 = tally g c 1) as E by (unfold tally; cbn [seq filter list_filter]; rewrite Hg; by destruct (g c)).
  lia.
Qed.

Section Fairness.
  Context (pool : nat → StatusCounts).

Lemma total_cons b l : total pool (b :: l) = (weight pool b + total pool l)%N.
Proof. done. Qed.

(** Each backend owns as many positions as its weight. *)
Lemma positions_owned l c b :
  NoDup l → b ∈ l →
  tally (λ k, bool_decide (at_position (weight pool) l c (N.of_nat k) = Some b)) (N.to_nat c) (N.to_nat (total pool l))
  = N.to_nat (weight pool b).
Proof.
  intros Hn. revert c. induction Hn as [|x l Hx Hn IH]; intros c Hb; [by apply elem_of_nil in Hb|].
  rewrite total_cons, N2Nat.inj_add, tally_app.
  rewrite (tally_all _ _ (N.to_nat (weight pool x)) (bool_decide (x = b))).
  2:{ intros k Hk. cbn. rewrite (proj2 (N.ltb_lt _ _)) by lia. apply bool_decide_ext. split; congruence. }
  rewrite (tally_ext _ (λ k, bool_decide (at_position (weight pool) l (c + weight pool x) (N.of_nat k) = Some b))).
  2:{ intros k Hk. cbn. by rewrite (proj2 (N.ltb_ge _ _)) by lia. }
  rewrite <- N2Nat.inj_add. case_bool_decide as E.
  - subst x. rewrite (tally_all _ _ _ false); [lia|]. intros k _. apply bool_decide_eq_false. intros H.
    by apply at_position_elem in H.
  - apply elem_of_cons in Hb as [->|Hb]; [done|]. by apply IH.
Qed.

Lemma at_position_total l c p :
  (p < c + total pool l)%N → (c <= p)%N → is_Some (at_position (weight pool) l c p).
Proof.
  revert c. induction l as [|x l IH]; intros c Hp Hc; [unfold total in Hp; cbn in Hp; lia|].
  cbn. destruct (N.ltb_spec p (c + weight pool x)); [done|]. apply IH; [|done]. rewrite total_cons in Hp. lia.
Qed.

(** [n] selections from the candidates [l]. *)
Fixpoint wrr_picks (n : nat) (s : BackendSelector) (l : list BackendInfo) : list (option BackendInfo) :=
  match n with
  | 0 => []
  | S n => let '(sel, s) := select_weighted pool s l in (sel_backend <$> sel) :: wrr_picks n s l
  end.

Lemma wrr_picks_eq n s l c tw :
  strategy s = StWeightedRoundRobin c tw → total pool l ≠ 0%N → (c + N.of_nat n <= 2 ^ 64)%N →
  wrr_picks n s l =
  (λ k, at_position (weight pool) l 0 (N.of_nat k mod total pool l)%N) <$> seq (N.to_nat c) n.
Proof.
  revert s c. induction n as [|n IH]; intros s c Hst Hw Hc; [done|]. cbn [wrr_picks seq fmap list_fmap].
  unfold select_weighted. rewrite Hst. unfold select_with_weight. rewrite (proj2 (N.eqb_neq _ _)) by done.
  cbn [mbind option_bind]. pose proof (N.mod_lt c (total pool l) Hw) as Hlt.
  destruct (at_position_total l 0 (c mod total pool l)) as [b Hb]; [by rewrite N.add_0_l|apply N.le_0_l|]. rewrite Hb. cbn [fmap option_fmap option_map].
  rewrite N2Nat.id, Hb. f_equal. destruct n as [|n]; [done|].
  assert (wrap64 (c + 1) = c + 1)%N as Hwr by (unfold wrap64; apply N.mod_small; lia).
  rewrite (IH _ (c + 1)%N); [|cbn; by rewrite Hwr|done|lia]. by rewrite N2Nat.inj_add, Nat.add_1_r.
Qed.
End Fairness.

(** Weighted round robin is fair: in every run of [W] consecutive selections
    from the same candidates, [W] being their total number of connections, each
    candidate is selected exactly as often as it has connections, wherever the
    shared counter stands (short of its wrap at 2^64). *)
Theorem weighted_round_robin_fair pool s l counter tw b :
  strategy s = StWeightedRoundRobin counter tw → NoDup l → b ∈ l →
  total pool l ≠ 0%N → (counter + total pool l <= 2 ^ 64)%N →
  length (filter (λ p, p = Some b) (wrr_picks pool (N.to_nat (total pool l)) s l)) = N.to_nat (weight pool b).
Proof.
  intros Hst Hn Hb Hw Hc. set (W := N.to_nat (total pool l)).
  rewrite (wrr_picks_eq pool W s l counter tw) by (try done; unfold W; lia).
  set (g k := bool_decide (at_position (weight pool) l 0 (N.of_nat k mod total pool l)%N = Some b)).
  assert (length (filter (λ p, p = Some b) ((λ k, at_position (weight pool) l 0 (N.of_nat k mod total pool l)%N)
    <$> seq (N.to_nat counter) W)) = tally g (N.to_nat counter) W) as ->.
  { unfold tally. generalize (seq (N.to_nat counter) W). intros ks. induction ks as [|k ks IH]; [done|].
    cbn [fmap list_fmap]. rewrite !filter_cons. unfold g at 1.
    destruct (decide (_ = Some b)), (decide (bool_decide _ = true)) as [Hd|Hd]; rewrite bool_decide_eq_true in Hd;
      cbn; rewrite ?IH; done. }
  rewrite tally_period.
  2:{ intros k. unfold g. replace (N.of_nat (k + W)) with (N.of_nat k + 1 * total pool l)%N by (unfold W; lia).
      by rewrite N.Div0.mod_add. }
  rewrite <- (positions_owned pool l 0 b) by done. apply tally_ext. intros k Hk. unfold g.
  by rewrite N.mod_small by (unfold W in Hk; lia).
Qed.

Lemma weighted_round_robin_fair_witness :
  length (filter (λ p, p = Some (mkBackend 1 (mkSlot 1) 0 0 0))
    (wrr_picks idle_pool 30 (set_strategy (sample_selector WeightedRoundRobin) (StWeightedRoundRobin 17 30))
       (backends (sample_selector WeightedRoundRobin)))) = 10.
Proof.
  apply (weighted_round_robin_fair idle_pool
    (set_strategy (sample_selector WeightedRoundRobin) (StWeightedRoundRobin 17 30))
    (backends (sample_selector WeightedRoundRobin)) 17 30 (mkBackend 1 (mkSlot 1) 0 0 0)).
  - reflexivity.
  - apply (bool_decide_unpack _). vm_compute. exact I.
  - right. left.
  - discriminate.
  - discriminate.
Defined.

(** The least-loaded strategy selects a candidate than which no other is
    less loaded (as an [f64] ratio), and remembers the pending count it saw. *)
Theorem least_loaded_minimal pool s l breaker sel :
  strategy s = StLeastLoaded breaker → (select_weighted pool s l).1 = Some sel →
  sel_backend sel ∈ l ∧ sel_snapshot sel = Some (pending_count (sel_backend sel)) ∧
  ∀ b, b ∈ l → f64_lt (load pool s b) (load pool s (sel_backend sel)) = false.
Proof.
  intros Hst Hsel. unfold select_weighted in Hsel. rewrite Hst in Hsel. cbn [fst] in Hsel.
  destruct (least_fold_inv pool s l [] (mkLeast None F64_MAX 0 breaker)) as [Hall H].
  { split; [|done]. intros b []%elem_of_nil. }
  rewrite app_nil_l in *. rewrite Hsel in H. destruct H as (H1 & H2 & H3). split_and!; [done|done|].
  intros b Hb. destruct (f64_lt (load pool s b) (load pool s (sel_backend sel))) eqn:E; [|done].
  rewrite <- (Hall b Hb). symmetry. by eapply f64_lt_eq.
Qed.

Definition busy_pool (i : nat) : StatusCounts := mkStatus 0 (if i =? 1 then 2 else 7) 10 0.

Lemma least_loaded_minimal_witness :
  ∃ sel, (select_weighted busy_pool (sample_selector LeastLoaded) (backends (sample_selector LeastLoaded))).1 = Some sel ∧
    f64_lt (load busy_pool (sample_selector LeastLoaded) (mkBackend 0 (mkSlot 0) 0 0 0))
      (load busy_pool (sample_selector LeastLoaded) (sel_backend sel)) = false.
Proof.
  exists (mkSelected (mkBackend 1 (mkSlot 1) 0 0 0) (Some 0%N)). split; [vm_compute; reflexivity|].
  apply (least_loaded_minimal busy_pool (sample_selector LeastLoaded) (backends (sample_selector LeastLoaded)) 0
    (mkSelected (mkBackend 1 (mkSlot 1) 0 0 0) (Some 0%N))); [reflexivity|vm_compute; reflexivity|left].
Defined.

(** ** Reservations *)

Definition ids_from (k : nat) (l : list BackendInfo) : Prop := ∀ j b, l !! j = Some b → backend_id b = k + j.

Lemma update_backend_alter k i f l : ids_from k l → update_backend (k + i) f l = alter f i l.
Proof.
  revert k i. induction l as [|b l IH]; intros k i Hids; [done|]. cbn.
  pose proof (Hids 0 b eq_refl) as H0. rewrite H0. destruct i as [|i]; cbn.
  - by rewrite (proj2 (Nat.eqb_eq _ _)) by lia.
  - rewrite (proj2 (Nat.eqb_neq _ _)) by lia. f_equal. replace (k + S i) with (S k + i) by lia.
    apply IH. intros j x Hj. specialize (Hids (S j) x Hj). lia.
Qed.

Lemma find_from k i l : ids_from k l → head (filter (λ b, backend_id b = k + i) l) = l !! i.
Proof.
  revert k i. induction l as [|b l IH]; intros k i Hids; [done|].
  pose proof (Hids 0 b eq_refl) as H0. rewrite filter_cons.
  assert (ids_from (S k) l) as Hl by (intros j x Hj; specialize (Hids (S j) x Hj); lia).
  destruct i as [|i]; [by rewrite decide_True by lia|]. rewrite decide_False by lia. cbn.
  replace (k + S i) with (S k + i) by lia. by apply IH.
Qed.

(** What other threads do not change: the configuration of the backends. *)
Definition config (b : BackendInfo) : nat * AvailabilitySlot * N :=
  (backend_id b, availability_slot b, tier b).

Definition same_config (s s' : BackendSelector) : Prop :=
  config <$> backends s' = config <$> backends s ∧ sorted_tiers s' = sorted_tiers s ∧
  availability_mask s' = availability_mask s.

Lemma same_config_ids s s' : same_config s s' → ids_from 0 (backends s) → ids_from 0 (backends s').
Proof.
  intros [Hc _] Hids j b Hj. assert ((config <$> backends s') !! j = Some (config b)) as H by (by rewrite list_lookup_fmap, Hj).
  rewrite Hc, list_lookup_fmap in H. destruct (backends s !! j) as [b'|] eqn:E; [|done]. cbn in H.
  unfold config in H. injection H as Hid _ _. rewrite <- Hid. by apply Hids.
Qed.

Lemma select_weighted_elem pool s l sel :
  (select_weighted pool s l).1 = Some sel →
  sel_backend sel ∈ l ∧ ∀ n, sel_snapshot sel = Some n → n = pending_count (sel_backend sel).
Proof.
  unfold select_weighted. destruct (strategy s) as [c tw|br].
  - destruct (N.eqb_spec (total pool l) 0) as [|H0]; [done|]. unfold select_with_weight.
    rewrite (proj2 (N.eqb_neq _ _)) by done. cbn [fst mbind option_bind].
    destruct (position_or_head (weight pool) l (c mod total pool l)) as (b & -> & Hb); [by intros ->|].
    cbn. by intros [= <-].
  - cbn [fst]. intros E. destruct (least_fold_inv pool s l [] (mkLeast None F64_MAX 0 br)) as [_ H].
    { split; [|done]. intros b []%elem_of_nil. }
    rewrite app_nil_l, E in H. destruct H as (H1 & H2 & _). split; [done|]. intros n. rewrite H2. congruence.
Qed.

Lemma select_in_tier_elem pool s a bits t sel :
  (select_in_tier pool s a bits t).1 = Some sel →
  sel_backend sel ∈ tier_candidates pool s a bits t ∧
  ∀ n, sel_snapshot sel = Some n → n = pending_count (sel_backend sel).
Proof.
  unfold select_in_tier. destruct a as [a|]; [|apply select_weighted_elem].
  destruct (negb _); [|apply select_weighted_elem].
  destruct (strategy s); [|apply select_weighted_elem]. unfold select_capacity_weighted.
  destruct (N.eqb_spec (total pool (tier_candidates pool s (Some a) bits t)) 0) as [|H0]; [done|]. cbn [fst].
  destruct (position_or_head (weight pool) (tier_candidates pool s (Some a) bits t)
    (probe_counter s mod total pool (tier_candidates pool s (Some a) bits t))) as (b & -> & Hb); [by intros E; rewrite E in H0|].
  cbn. by intros [= <-].
Qed.

Lemma select_backend_elem pool s a bits :
  same_static s (select_backend pool s a bits).2 ∧
  ∀ sel, (select_backend pool s a bits).1 = Some sel →
    sel_backend sel ∈ backends s ∧ is_available a bits (sel_backend sel) = true ∧
    ∀ n, sel_snapshot sel = Some n → n = pending_count (sel_backend sel).
Proof.
  assert (∀ tiers s, same_static s (select_tiers pool s a bits tiers).2 ∧
    ∀ sel, (select_tiers pool s a bits tiers).1 = Some sel →
      sel_backend sel ∈ backends s ∧ is_available a bits (sel_backend sel) = true ∧
      ∀ n, sel_snapshot sel = Some n → n = pending_count (sel_backend sel)) as H.
  { intros tiers. induction tiers as [|t tiers IH]; intros s0; [done|]. cbn [select_tiers].
    pose proof (select_in_tier_static pool s0 a bits t) as Hst. pose proof (select_in_tier_elem pool s0 a bits t) as He.
    destruct (select_in_tier pool s0 a bits t) as [[sel|] s1]; cbn [fst snd] in *.
    { split; [done|]. intros sel' [= <-]. destruct (He sel eq_refl) as [Hc Hs].
      apply elem_of_candidates in Hc as (? & _ & ? & _). done. }
    destruct (IH s1) as [IH1 IH2]. destruct Hst as (H1 & H2 & H3 & H4 & H5). rewrite H1 in IH2.
    assert (same_static s0 (select_tiers pool s1 a bits tiers).2) as Hs.
    { destruct IH1 as (? & ? & ? & ? & ?). unfold same_static. by split_and!; etrans. }
    destruct a as [a|]; [destruct (existsb _ _)|]; by split_and!. }
  unfold select_backend. destruct (backends s) eqn:E; [done|]. rewrite <- E. apply H.
Qed.

(** The backend a selection chose, in the state after the interference. *)
Lemma config_lookup s s' i b :
  same_config s s' → backends s !! i = Some b →
  ∃ b', backends s' !! i = Some b' ∧ config b' = config b.
Proof.
  intros [Hc _] Hb. assert ((config <$> backends s') !! i = Some (config b)) as H by (by rewrite Hc, list_lookup_fmap, Hb).
  rewrite list_lookup_fmap in H. apply fmap_Some in H as (b' & Hb' & E). by exists b'.
Qed.

Lemma available_config a bits b b' : config b' = config b → is_available a bits b' = is_available a bits b.
Proof. unfold config, is_available. intros [= -> -> _]. done. Qed.

Lemma find_lookup s i : ids_from 0 (backends s) → find_backend s i = backends s !! i.
Proof. intros H. apply (find_from 0 i _ H). Qed.

Lemma static_config s s' : same_static s s' → same_config s s'.
Proof. intros (H1 & H2 & _ & _ & H3). split_and!; [by rewrite H1|done|done]. Qed.

Lemma config_trans s1 s2 s3 : same_config s1 s2 → same_config s2 s3 → same_config s1 s3.
Proof. intros (H1 & H2 & H3) (H4 & H5 & H6). split_and!; by etrans. Qed.

(** The reservation of backend [i] of state [s1]. *)
Definition reserved (a : option ArticleAvailability) (bits : N) (s1 s' : BackendSelector) (i : nat) : Prop :=
  ∃ b, backends s1 !! i = Some b ∧ is_available a bits b = true ∧
    backends s' = <[i := set_pending (pending_increment (pending_count b)) b]> (backends s1).

Lemma reserve_alter f i s b :
  ids_from 0 (backends s) → backends s !! i = Some b →
  backends (set_backends s (update_backend i f (backends s))) = <[i := f b]> (backends s).
Proof.
  intros Hids Hb. cbn. pose proof (update_backend_alter 0 i f (backends s) Hids) as E. cbn in E. rewrite E.
  apply list_eq. intros j.
  destruct (decide (i = j)) as [<-|Hne].
  - rewrite list_lookup_alter_eq, list_lookup_insert_eq, Hb by by eapply lookup_lt_Some. done.
  - by rewrite list_lookup_alter_ne, list_lookup_insert_ne.
Qed.

Lemma route_ok pool env fuel k s a bits r s' :
  ids_from 0 (backends s) → (∀ j s, same_config s (env j s)) →
  route pool env fuel k s a bits = Some (r, s') →
  match r with
  | Ok i => ∃ s1, same_config s s1 ∧ reserved a bits s1 s' i
  | Err NoBackends => same_config s s'
  | Err NotEligible => False
  end.
Proof.
  intros Hids Henv. revert k s Hids. induction fuel as [|fuel IH]; intros k s Hids; [done|]. cbn [route].
  destruct (select_backend_elem pool s a bits) as [Hst He].
  destruct (select_backend pool s a bits) as [[sel|] s1]; cbn [fst snd] in *.
  2:{ intros [= <- <-]. by apply static_config. }
  destruct (He sel eq_refl) as (Hin & Hav & Hsn). pose proof (static_config _ _ Hst) as Hc1.
  assert (∀ e, match a with None => true | Some a => should_try_slot a (availability_slot (sel_backend sel)) end = e → e = true) as Hel.
  { intros e <-. unfold is_available in Hav. reflect_bools. by destruct a. }
  rewrite (Hel _ eq_refl). cbn [negb]. pose proof (config_trans _ _ _ Hc1 (Henv k s1)) as Hc2.
  pose proof (same_config_ids _ _ Hc2 Hids) as Hids2. set (s2 := env k s1) in *.
  apply list_elem_of_lookup in Hin as [i Hi]. rewrite (Hids i _ Hi). cbn.
  destruct (config_lookup _ _ _ _ Hc2 Hi) as (b & Hb & Hcfg).
  pose proof (available_config a bits _ _ Hcfg) as Hav'. rewrite Hav in Hav'.
  destruct (sel_snapshot sel) as [obs|].
  + unfold try_increment_from. rewrite find_lookup, Hb by done. cbn [mbind option_bind].
    destruct (N.eqb_spec (pending_count b) obs) as [<-|].
    * intros [= <- <-]. exists s2. split; [done|]. exists b. split_and!; [done|done|]. by rewrite (reserve_alter _ i s2 b).
    * intros H. apply IH in H; [|done]. destruct r as [j|[]]; [|by eapply config_trans|done].
      destruct H as (s3 & Hc3 & H). exists s3. split; [by eapply config_trans|done].
  + intros [= <- <-]. exists s2. split; [done|]. exists b. split_and!; [done|done|].
    unfold mark_backend_pending. by rewrite (reserve_alter _ i s2 b).
Qed.

Lemma update_config i f s :
  (∀ b, config (f b) = config b) → same_config s (set_backends s (update_backend i f (backends s))).
Proof.
  intros Hf. split_and!; [|done|done]. cbn. induction (backends s) as [|b l IH]; [done|]. cbn.
  destruct (backend_id b =? i); cbn; [by rewrite Hf|by rewrite IH].
Qed.

Lemma route_config pool env fuel k s a bits r s' :
  (∀ j s, same_config s (env j s)) → route pool env fuel k s a bits = Some (r, s') → same_config s s'.
Proof.
  intros Henv. revert k s. induction fuel as [|fuel IH]; intros k s; [done|]. cbn [route].
  destruct (select_backend_elem pool s a bits) as [Hst _].
  destruct (select_backend pool s a bits) as [[sel|] s1]; cbn [fst snd] in *; apply static_config in Hst.
  2: by intros [= _ <-].
  destruct (negb _); [by intros [= _ <-]|]. pose proof (config_trans _ _ _ Hst (Henv k s1)) as Hc.
  destruct (sel_snapshot sel) as [obs|].
  - unfold try_increment_from. destruct (find_backend _ _) as [b|]; cbn [mbind option_bind].
    + destruct (pending_count b =? obs)%N.
      * intros [= _ <-]. eapply config_trans; [done|]. by apply update_config.
      * intros H%IH. by eapply config_trans.
    + intros H%IH. by eapply config_trans.
  - intros [= _ <-]. eapply config_trans; [done|]. by apply update_config.
Qed.

Lemma route_terminates pool env n k s a bits :
  ids_from 0 (backends s) → (∀ j s, same_config s (env j s)) → (∀ j s, k + n ≤ j → env j s = s) →
  is_Some (route pool env (S n) k s a bits).
Proof.
  intros Hids Henv. revert k s Hids. induction n as [|n IH]; intros k s Hids Hq.
  all: destruct (select_backend_elem pool s a bits) as [Hst He]; cbn [route];
    destruct (select_backend pool s a bits) as [[sel|] s1]; cbn [fst snd] in *; [|done];
    destruct (negb _); [done|]; destruct (sel_snapshot sel) as [obs|] eqn:Eo; [|done];
    destruct (try_increment_from _ _ _) as [s3|] eqn:Et; [done|].
  + exfalso. rewrite Hq in Et by lia. destruct (He sel eq_refl) as (Hin & _ & Hsn).
    destruct Hst as (Hb & _). apply list_elem_of_lookup in Hin as [i Hi]. pose proof (Hids i _ Hi) as Hid. cbn in Hid.
    unfold try_increment_from in Et. rewrite find_lookup in Et by by rewrite Hb.
    rewrite Hb, Hid, Hi in Et. cbn in Et. by rewrite (Hsn obs Eo), N.eqb_refl in Et.
  + apply IH; [|intros j s' Hj; apply Hq; lia].
    eapply same_config_ids; [|exact Hids]. eapply config_trans; [by apply static_config|apply Henv].
Qed.

(** Routing reserves exactly one command: whatever other threads do between
    a selection and its reservation, a successful route returns a configured
    backend that is not suppressed and not known to miss the article, and adds
    one to its pending count as it is at the reservation, and to nothing else;
    the check that the selected backend is still eligible never fails; and the
    retry loop ends with the interference. *)
Theorem route_reserves_once pool env n k s a bits :
  ids_from 0 (backends s) → (∀ j s, same_config s (env j s)) →
  (∀ r s' fuel, route pool env fuel k s a bits = Some (r, s') →
     match r with
     | Ok i => ∃ s1, same_config s s1 ∧ reserved a bits s1 s' i
     | Err NoBackends => same_config s s'
     | Err NotEligible => False
     end) ∧
  ((∀ j s, k + n ≤ j → env j s = s) → is_Some (route pool env (S n) k s a bits)).
Proof.
  intros Hids Henv. split; [intros; by eapply route_ok|by apply route_terminates].
Qed.

(** Another thread completes the reservation it holds, once. *)
Definition one_interference (k : nat) (s : BackendSelector) : BackendSelector :=
  if k =? 0 then mark_backend_pending s 0 else s.

Lemma route_reserves_once_witness :
  is_Some (route idle_pool one_interference 2 0 (sample_selector LeastLoaded) None 0).
Proof.
  apply (route_reserves_once idle_pool one_interference 1 0 (sample_selector LeastLoaded) None 0).
  - exact (so_ids _ (sample_selector_ok LeastLoaded)).
  - intros j s. unfold one_interference. destruct (j =? 0); [|done]. split; [|done].
    cbn. induction (backends s) as [|b l IH]; [done|]. cbn. destruct (backend_id b =? 0); cbn; [done|]. by rewrite IH.
  - intros j s Hj. unfold one_interference. destruct j; [cbn in Hj; lia|done].
Defined.

(** ** The ledger of reservations *)

(** The selector with the command guards that are alive ([open]) and the
    sessions that hold a stateful slot ([sessions]), by backend.  The steps are
    the atomic operations the threads interleave; [cap i] is the configured
    size of the pool of backend [i], which the pool reports unchanged. *)
Record Ledger := mkLedger {
  l_selector : BackendSelector;
  l_open : list nat;
  l_sessions : list nat }.

Inductive ledger_step (cap : nat → N) : Ledger → Ledger → Prop :=
| step_select pool s a bits g h :
    ledger_step cap (mkLedger s g h) (mkLedger (select_backend pool s a bits).2 g h)
| step_reserve_observed s s' i n g h :
    try_increment_from s i n = Some s' →
    ledger_step cap (mkLedger s g h) (mkLedger s' (guard_backend (guard_for_routed_backend i) :: g) h)
| step_guard_manual s i g h :
    ledger_step cap (mkLedger s g h)
      (mkLedger (guard_for_manual_backend s i).2 (guard_backend (guard_for_manual_backend s i).1 :: g) h)
| step_guard_complete s i g1 g2 h :
    ledger_step cap (mkLedger s (g1 ++ i :: g2) h)
      (mkLedger (guard_complete s (guard_for_routed_backend i)) (g1 ++ g2) h)
| step_guard_drop s i g1 g2 h :
    ledger_step cap (mkLedger s (g1 ++ i :: g2) h)
      (mkLedger (guard_drop s (guard_for_routed_backend i)) (g1 ++ g2) h)
| step_acquire pool s s' i g h :
    (∀ j, st_max_size (pool j) = cap j) →
    try_acquire_stateful pool s i = (true, s') →
    ledger_step cap (mkLedger s g h) (mkLedger s' g (i :: h))
| step_release s i g h1 h2 :
    ledger_step cap (mkLedger s g (h1 ++ i :: h2)) (mkLedger (release_stateful s i) g (h1 ++ h2)).

Definition occurrences (i : nat) (l : list nat) : N := N.of_nat (length (filter (λ j, j = i) l)).

Definition ledger_inv (cap : nat → N) (l : Ledger) : Prop :=
  ids_from 0 (backends (l_selector l)) ∧
  ∀ i b, backends (l_selector l) !! i = Some b →
    pending_count b = wrap64 (occurrences i (l_open l)) ∧
    stateful_count b = occurrences i (l_sessions l) ∧
    (stateful_count b <= sat_sub (cap i) 1)%N.

Lemma occurrences_cons i j l : occurrences i (j :: l) = ((if decide (j = i) then 1 else 0) + occurrences i l)%N.
Proof. unfold occurrences. rewrite filter_cons. case_decide; cbn; lia. Qed.

Lemma occurrences_middle i j l1 l2 :
  occurrences i (l1 ++ j :: l2) = ((if decide (j = i) then 1 else 0) + occurrences i (l1 ++ l2))%N.
Proof.
  induction l1 as [|x l1 IH]; [apply occurrences_cons|]. cbn [app]. rewrite !occurrences_cons, IH. lia.
Qed.

Lemma wrap64_succ n : wrap64 (wrap64 n + 1) = wrap64 (1 + n).
Proof. unfold wrap64. by rewrite N.Div0.add_mod_idemp_l, N.add_comm. Qed.

Lemma wrap64_pred n : wrap64 (wrap64 (1 + n) + u64_max) = wrap64 n.
Proof.
  unfold wrap64. rewrite N.Div0.add_mod_idemp_l. replace (1 + n + u64_max)%N with (n + 1 * 2 ^ 64)%N by (unfold u64_max; lia).
  apply N.Div0.mod_add.
Qed.

(** One backend's counters change, and the ledger's entries for it with them. *)
Lemma ledger_inv_update cap s i f g h g' h' :
  ledger_inv cap (mkLedger s g h) →
  (∀ j, j ≠ i → occurrences j g' = occurrences j g ∧ occurrences j h' = occurrences j h) →
  (∀ b, backends s !! i = Some b →
     pending_count b = wrap64 (occurrences i g) → stateful_count b = occurrences i h →
     (stateful_count b <= sat_sub (cap i) 1)%N →
     backend_id (f b) = backend_id b ∧ pending_count (f b) = wrap64 (occurrences i g') ∧
     stateful_count (f b) = occurrences i h' ∧ (stateful_count (f b) <= sat_sub (cap i) 1)%N) →
  ledger_inv cap (mkLedger (set_backends s (update_backend i f (backends s))) g' h').
Proof.
  intros [Hids Hinv] Hne Hi. cbn [l_selector l_open l_sessions] in *.
  pose proof (update_backend_alter 0 i f (backends s) Hids) as E. cbn in E.
  assert (∀ j b, alter f i (backends s) !! j = Some b →
    backend_id b = j ∧ pending_count b = wrap64 (occurrences j g') ∧ stateful_count b = occurrences j h' ∧
    (stateful_count b <= sat_sub (cap j) 1)%N) as H.
  { intros j b Hj. destruct (decide (i = j)) as [<-|Hij].
    - rewrite list_lookup_alter_eq in Hj. apply fmap_Some in Hj as (b0 & Hb0 & ->).
      destruct (Hinv i b0 Hb0) as (H1 & H2 & H3). destruct (Hi b0 Hb0 H1 H2 H3) as (-> & ?). split; [by apply Hids|done].
    - rewrite list_lookup_alter_ne in Hj by done. destruct (Hne j) as [-> ->]; [done|]. split; [by apply Hids|by apply Hinv]. }
  split; cbn; rewrite E; intros j b Hj; by apply H.
Qed.

Lemma ledger_complete cap s i g1 g2 h :
  ledger_inv cap (mkLedger s (g1 ++ i :: g2) h) → ledger_inv cap (mkLedger (complete_command s i) (g1 ++ g2) h).
Proof.
  intros H. eapply ledger_inv_update; [exact H| |].
  - intros j Hj. by rewrite occurrences_middle, decide_False by done.
  - intros b _ Hp Hs Hc. rewrite occurrences_middle, decide_True in Hp by done. cbn.
    unfold pending_decrement. by rewrite Hp, wrap64_pred.
Qed.

Lemma ledger_mark cap s i g h :
  ledger_inv cap (mkLedger s g h) → ledger_inv cap (mkLedger (mark_backend_pending s i) (i :: g) h).
Proof.
  intros H. eapply ledger_inv_update; [exact H| |].
  - intros j Hj. by rewrite occurrences_cons, decide_False by done.
  - intros b _ Hp Hs Hc. cbn. unfold pending_increment. by rewrite Hp, wrap64_succ, occurrences_cons, decide_True.
Qed.

Lemma ledger_acquire cap pool s s' i g h :
  (∀ j, st_max_size (pool j) = cap j) → try_acquire_stateful pool s i = (true, s') →
  ledger_inv cap (mkLedger s g h) → ledger_inv cap (mkLedger s' g (i :: h)).
Proof.
  intros Hcap Hacq H. pose proof H as [Hids _]. unfold try_acquire_stateful, stateful_try_acquire in Hacq. rewrite find_lookup in Hacq by done.
  destruct (backends s !! i) as [b|] eqn:Hb; [|done]. pose proof (Hids i b Hb) as Hid. cbn in Hid.
  destruct (N.leb_spec (sat_sub (st_max_size (pool (backend_id b))) 1) (stateful_count b)) as [|Hlt]; [done|].
  injection Hacq as <-. rewrite Hcap, Hid in Hlt. eapply ledger_inv_update; [exact H| |].
  - intros j Hj. by rewrite occurrences_cons, decide_False by done.
  - intros b' Hb' Hp Hs Hc. simplify_eq. cbn. rewrite occurrences_cons, decide_True by done. split_and!; [done|done|lia|lia].
Qed.

Lemma ledger_release cap s i g h1 h2 :
  ledger_inv cap (mkLedger s g (h1 ++ i :: h2)) → ledger_inv cap (mkLedger (release_stateful s i) g (h1 ++ h2)).
Proof.
  intros H. pose proof H as [Hids Hinv]. cbn [l_selector l_open l_sessions] in *.
  assert (∀ j, j ≠ i → occurrences j (h1 ++ h2) = occurrences j (h1 ++ i :: h2)) as Hne.
  { intros j Hj. by rewrite occurrences_middle, decide_False by done. }
  unfold release_stateful, stateful_release. rewrite find_lookup by done. destruct (backends s !! i) as [b|] eqn:Hb.
  - destruct (Hinv i b Hb) as (_ & Hs & _). rewrite occurrences_middle, decide_True in Hs by done.
    rewrite (proj2 (N.eqb_neq _ _)) by lia. eapply ledger_inv_update; [exact H|by auto|].
    intros b' Hb' Hp Hs' Hc. simplify_eq. cbn. split_and!; [done|done|lia|lia].
  - split; [done|]. cbn. intros j b Hj. rewrite Hne; [by apply Hinv|]. by intros ->; rewrite Hb in Hj.
Qed.

Lemma ledger_step_inv cap l l' : ledger_step cap l l' → ledger_inv cap l → ledger_inv cap l'.
Proof.
  intros Hstep Hinv. destruct Hstep as [pool s a bits g h|s s' i n g h Hr|s i g h|s i g1 g2 h|s i g1 g2 h|pool s s' i g h Hc Ha|s i g h1 h2].
  - destruct (select_backend_elem pool s a bits) as [(Hb & _) _]. unfold ledger_inv. cbn. by rewrite Hb.
  - unfold try_increment_from in Hr. destruct (find_backend s i) as [b|] eqn:Hf; [|done]. cbn in Hr.
    destruct (N.eqb_spec (pending_count b) n) as [<-|]; [|done]. injection Hr as <-.
    rewrite find_lookup in Hf by apply Hinv. eapply ledger_inv_update; [exact Hinv| |].
    + intros j Hj. cbn. by rewrite occurrences_cons, decide_False by done.
    + intros b' Hb' Hp Hs Hle. simplify_eq. cbn. unfold pending_increment. by rewrite Hp, wrap64_succ, occurrences_cons, decide_True.
  - by apply ledger_mark.
  - by apply ledger_complete.
  - by apply ledger_complete.
  - by eapply ledger_acquire.
  - by apply ledger_release.
Qed.

Definition idle (s : BackendSelector) : Prop :=
  ∀ i b, backends s !! i = Some b → pending_count b = 0%N ∧ stateful_count b = 0%N.

Lemma add_all_idle servers s s' : idle s → add_all s servers = Some s' → idle s'.
Proof.
  apply add_all_ind. clear. intros s [[m t] sl] s' Hs H. unfold add_backend_with_slot in H.
  destruct (_ <? _); [|done]. injection H as <-. intros i b. cbn.
  rewrite lookup_app_Some, list_lookup_singleton_Some. intros [?|(_ & _ & <-)]; [by apply (Hs i)|done].
Qed.


