(* ===== verification/Article.v ===== *)
(** * Article: cached article payloads and the responses served from them

    Models the payload half of [src/src/cache/article.rs]: a complete backend
    response is cut into typed sections ([CachedPayload]), contiguous or
    chunked; complementary sections are merged; and a request is answered from
    the sections with a regenerated status line ([CachedResponseWire]).  The
    theorems show that what a client gets from the cache is what the backend
    sent, and always one complete response. *)

From S2P Require Import Prelude Availability Protocol Request Scanner Framer Tracker.

(** ** Payloads *)

Inductive CachedPayload :=
| CpMissing
| CpAvailabilityOnly
| CpArticle (article_number : option N) (headers body : bytes)
| CpHead (article_number : option N) (headers : bytes)
| CpBody (article_number : option N) (body : bytes)
| CpStat (article_number : option N).

#[global] Instance CachedPayload_eq_dec : EqDecision CachedPayload.
Proof. solve_decision. Defined.

(** [ARTICLE], [HEAD], [BODY] and [STAT] are the bits 1, 2, 4 and 8. *)
Definition answer_bits (p : CachedPayload) : N :=
  match p with
  | CpArticle _ _ _ => 15
  | CpHead _ _ => 10
  | CpBody _ _ => 12
  | CpStat _ => 8
  | CpMissing | CpAvailabilityOnly => 0
  end.

Definition strictly_more_useful_than (new existing : CachedPayload) : bool :=
  (N.land (answer_bits new) (answer_bits existing) =? answer_bits existing)%N &&
  negb (answer_bits new =? answer_bits existing)%N.

(** [CachedPayload::len] *)
Definition payload_len (p : CachedPayload) : nat :=
  match p with
  | CpMissing | CpAvailabilityOnly | CpStat _ => 0
  | CpArticle _ headers body => length headers + length body
  | CpHead _ headers => length headers
  | CpBody _ body => length body
  end.

Definition payload_article_number (p : CachedPayload) : option N :=
  match p with
  | CpArticle n _ _ | CpHead n _ | CpBody n _ | CpStat n => n
  | CpMissing | CpAvailabilityOnly => None
  end.

Definition request_payload_kind (p : CachedPayload) : RequestCachePayloadKind :=
  match p with
  | CpMissing => PkMissing
  | CpAvailabilityOnly => PkAvailabilityOnly
  | CpArticle _ _ _ => PkArticle
  | CpHead _ _ => PkHead
  | CpBody _ _ => PkBody
  | CpStat _ => PkStat
  end.

Definition keep_same_completeness (existing_len new_len : nat) (existing new : CachedPayload) : bool :=
  (new_len <? existing_len) ||
  ((existing_len =? new_len) && negb (strictly_more_useful_than new existing)).

Definition retained_article_number (left right : option N) : option N :=
  match left, right with
  | Some l, Some r => if (l =? r)%N then Some l else None
  | Some n, None | None, Some n => Some n
  | None, None => None
  end.

(** The sections of [merge_compatible_sections]. *)
Definition merge_payloads (left right : CachedPayload) : option CachedPayload :=
  match left, right with
  | CpHead ln headers, CpBody rn body => Some (CpArticle (retained_article_number ln rn) headers body)
  | CpBody ln body, CpHead rn headers => Some (CpArticle (retained_article_number ln rn) headers body)
  | _, _ => None
  end.

(** ** Ingest *)

Section Ingest.
Context {MC : Memchr} (t : target).

Definition parse_article_number (status_line : bytes) : option N :=
  if length status_line <? 4 then None
  else
    let rest := drop 4 status_line in
    let end_ := default (length rest) (memchr x20 rest) in
    let text := take end_ rest in
    if utf8_valid text then parse_u64 text else None.

Definition captured_payload_body_for_status (code : N) (payload : bytes) : option bytes :=
  if negb ((220 <=? code)%N && (code <=? 222)%N) then Some payload
  else captured_multiline_payload_body t payload.

Definition payload_for_status (code : N) (article_number : option N) (payload : bytes) : CachedPayload :=
  match code with
  | 220%N =>
      match captured_article_payload_sections payload with
      | Some ((h0, h1), (b0, b1)) =>
          CpArticle article_number (slice h0 h1 payload) (slice b0 b1 payload)
      | None => CpArticle article_number [] payload
      end
  | 221%N => CpHead article_number payload
  | 222%N => CpBody article_number payload
  | 223%N => CpStat article_number
  | _ => CpAvailabilityOnly
  end.

Definition parse_payload (status : StatusCode) (buffer : bytes) : CachedPayload :=
  let code := as_u16 status in
  if bool_decide (status = mkStatusCode 430) then CpMissing
  else
    match (λ pos, pos + 2) <$> memmem_find CRLF buffer with
    | None => CpAvailabilityOnly
    | Some status_end =>
        let article_number := parse_article_number (take status_end buffer) in
        match captured_payload_body_for_status code (drop status_end buffer) with
        | None => match code with 223%N => CpStat article_number | _ => CpAvailabilityOnly end
        | Some payload => payload_for_status code article_number payload
        end
    end.

(** ** Chunked ingest *)

(** [ChunkedResponse::copy_prefix_into] *)
Fixpoint copy_prefix_loop (remaining : nat) (chunks : list bytes) : bytes :=
  match chunks with
  | [] => []
  | chunk :: chunks =>
      if remaining =? 0 then []
      else
        let take_ := remaining `min` length chunk in
        take take_ chunk ++ copy_prefix_loop (remaining - take_) chunks
  end.

Definition copy_prefix_into (len : nat) (chunks : list bytes) : bytes :=
  copy_prefix_loop (len `min` length (concat chunks)) chunks.

(** The loop of [copy_payload_bytes] over the range [start..end_]. *)
Fixpoint copy_range_loop (start end_ chunk_start : nat) (chunks : list bytes) : bytes :=
  match chunks with
  | [] => []
  | chunk :: chunks =>
      let chunk_end := chunk_start + length chunk in
      let copied :=
        if (start <? chunk_end) && (chunk_start <? end_)
        then slice (start - chunk_start) ((end_ - chunk_start) `min` length chunk) chunk else [] in
      copied ++ (if end_ <=? chunk_end then [] else copy_range_loop start end_ chunk_end chunks)
  end.

Definition copy_payload_bytes (chunks : list bytes) (start end_ : nat) : bytes :=
  if end_ <? start then [] else copy_range_loop start end_ 0 chunks.

Definition payload_for_status_owned (code : N) (article_number : option N) (payload : bytes)
    : CachedPayload :=
  match code with
  | 220%N =>
      match captured_article_payload_sections payload with
      | Some ((_, h1), (b0, _)) => CpArticle article_number (take h1 (take b0 payload)) (drop b0 payload)
      | None => CpArticle article_number [] payload
      end
  | 221%N => CpHead article_number payload
  | 222%N => CpBody article_number payload
  | _ => CpAvailabilityOnly
  end.

Definition parse_framed_chunked_payload (status : StatusCode) (status_end : nat) (chunks : list bytes)
    (payload_end : nat) : CachedPayload :=
  let code := as_u16 status in
  if bool_decide (status = mkStatusCode 430) then CpMissing
  else
    let status_line := copy_prefix_into status_end chunks in
    if negb (length status_line =? status_end) then CpAvailabilityOnly
    else
      let article_number := parse_article_number status_line in
      if (code =? 223)%N then CpStat article_number
      else if negb ((220 <=? code)%N && (code <=? 222)%N) then CpAvailabilityOnly
      else payload_for_status_owned code article_number (copy_payload_bytes chunks status_end payload_end).
End Ingest.

(** ** Responses *)

(** [StackStatusLine]: a line in an array of 1024 bytes. *)
Definition push_slice (line part : bytes) : option bytes :=
  if length line + length part <=? 1024 then Some (line ++ part) else None.

(** The digits of [push_u64]; twenty are enough for a [u64]. *)
Fixpoint u64_digits (fuel : nat) (n : N) (digits : bytes) : bytes :=
  match fuel with
  | 0 => digits
  | S fuel =>
      let digits := digit_byte (n mod 10) :: digits in
      if (n / 10 =? 0)%N then digits else u64_digits fuel (n / 10) digits
  end.

Definition push_u64 (line : bytes) (n : N) : option bytes := push_slice line (u64_digits 20 n []).

Definition stack_status_line (code number : N) (message_id : bytes) : option bytes :=
  line ← push_u64 [] code;
  line ← push_slice line [x20];
  line ← push_u64 line number;
  line ← push_slice line [x20];
  line ← push_slice line message_id;
  push_slice line CRLF.

Inductive CachedResponseWirePayload :=
| WireNone
| WireArticle (headers body : bytes)
| WireHead (headers : bytes)
| WireBody (body : bytes).

Record CachedResponseWire := mkWire {
  wire_status_code : StatusCode;
  wire_status_line : bytes;
  wire_payload : CachedResponseWirePayload }.

Definition article_separator (headers body : bytes) : bytes :=
  if bool_decide (headers = []) && bool_decide (body = []) then [] else CRLF.

(** The slices of [CachedResponseWire::write_to]. *)
Definition write_to (w : CachedResponseWire) : bytes :=
  match wire_payload w with
  | WireNone => wire_status_line w
  | WireArticle headers body =>
      concat [wire_status_line w; headers; article_separator headers body; body; DOT_TERMINATOR]
  | WireHead headers => concat [wire_status_line w; headers; DOT_TERMINATOR]
  | WireBody body => concat [wire_status_line w; body; DOT_TERMINATOR]
  end.

Definition wire_payload_len (p : CachedResponseWirePayload) : nat :=
  match p with
  | WireNone => 0
  | WireArticle headers body =>
      length headers + length (article_separator headers body) + length body + length DOT_TERMINATOR
  | WireHead headers => length headers + length DOT_TERMINATOR
  | WireBody body => length body + length DOT_TERMINATOR
  end.

Definition wire_len (w : CachedResponseWire) : nat :=
  length (wire_status_line w) + wire_payload_len (wire_payload w).

Definition cached_response_for_payload (p : CachedPayload) (k : RequestKind) (message_id : bytes)
    : option CachedResponseWire :=
  let number := default 0%N (payload_article_number p) in
  let wire code payload :=
    line ← stack_status_line code number message_id;
    Some (mkWire (mkStatusCode code) line payload) in
  match k, p with
  | Stat, (CpArticle _ _ _ | CpHead _ _ | CpBody _ _ | CpStat _) => wire 223%N WireNone
  | Article, CpArticle _ headers body => wire 220%N (WireArticle headers body)
  | Head, (CpArticle _ headers _ | CpHead _ headers) => wire 221%N (WireHead headers)
  | Body, (CpArticle _ _ body | CpBody _ body) => wire 222%N (WireBody body)
  | _, _ => None
  end.

(** ** Copies out of chunks *)

Lemma copy_prefix_take len chunks : copy_prefix_into len chunks = take len (concat chunks).
Proof.
  unfold copy_prefix_into. assert (∀ n, n ≤ length (concat chunks) → copy_prefix_loop n chunks = take n (concat chunks)) as H.
  { induction chunks as [|c chunks IH]; intros n Hn; cbn in *; [by rewrite take_nil|].
    destruct (Nat.eqb_spec n 0) as [->|]; [done|]. rewrite length_app in Hn.
    rewrite IH by lia. rewrite take_app. f_equal.
    - destruct (Nat.min_spec n (length c)) as [[_ ->]|[? ->]]; [done|]. by rewrite !take_ge by lia.
    - f_equal. lia. }
  rewrite H by lia. destruct (Nat.min_spec len (length (concat chunks))) as [[_ ->]|[? ->]]; [done|].
  by rewrite !take_ge by lia.
Qed.

Lemma copy_range_slice start end_ cs chunks :
  start ≤ end_ → cs ≤ end_ →
  copy_range_loop start end_ cs chunks = slice (start - cs) (end_ - cs) (concat chunks).
Proof.
  revert cs. induction chunks as [|c chunks IH]; intros cs Hse Hcs; cbn [copy_range_loop concat].
  { unfold slice. by rewrite drop_nil, take_nil. }
  assert (slice (start - cs) (end_ - cs) (c ++ concat chunks) =
    slice (start - cs) ((end_ - cs) `min` length c) c ++
    slice (start - (cs + length c)) (end_ - (cs + length c)) (concat chunks)) as ->.
  { unfold slice. rewrite drop_app, take_app, length_drop. f_equal.
    - destruct (decide (end_ - cs ≤ length c)); [by rewrite Nat.min_l by lia|].
      rewrite Nat.min_r by lia. by rewrite !take_ge by (rewrite length_drop; lia).
    - f_equal; [lia|]. f_equal. lia. }
  f_equal.
  - destruct (Nat.ltb_spec start (cs + length c)), (Nat.ltb_spec cs end_); cbn; [done|..].
    all: unfold slice; symmetry; apply nil_length_inv; rewrite length_take, length_drop; lia.
  - destruct (Nat.leb_spec end_ (cs + length c)).
    + unfold slice. by replace (end_ - _ - _) with 0 by lia.
    + apply IH; lia.
Qed.

Lemma copy_payload_slice chunks start end_ : copy_payload_bytes chunks start end_ = slice start end_ (concat chunks).
Proof.
  unfold copy_payload_bytes. destruct (Nat.ltb_spec end_ start).
  - unfold slice. by replace (end_ - start) with 0 by lia.
  - rewrite copy_range_slice by lia. by rewrite !Nat.sub_0_r.
Qed.

(** ** Status lines and sections *)

(** A line whose only CRLF ends it. *)
Definition crlf_line (line : bytes) : Prop :=
  ∃ l, line = l ++ CRLF ∧ ∀ i, match_at CRLF line i → i = length l.

(** The lines of a section: none is a dot line, the last one is complete. *)
Definition complete_section (c : bytes) : Prop :=
  (c = [] ∨ CRLF `suffix_of` c) ∧ ∀ i, match_at TERMINATOR (CRLF ++ c ++ DOT_TERMINATOR) i → i = length c.

Definition payload_ok (p : CachedPayload) : Prop :=
  match p with
  | CpArticle _ headers body => complete_section headers ∧ complete_section body
  | CpHead _ s | CpBody _ s => complete_section s
  | CpMissing | CpAvailabilityOnly | CpStat _ => True
  end.

Section IngestFacts.
Context {MC : Memchr} {MS : MemchrSpec MC} (t : target).

Lemma find_crlf_line line rest : crlf_line line → (λ pos, pos + 2) <$> memmem_find CRLF (line ++ rest) = Some (length line).
Proof.
  intros (l & -> & Hl). rewrite (leftmost_unique CRLF _ (memmem_find CRLF _) (Some (length l)) (memmem_find_spec _ _)).
  - cbn. by rewrite length_app.
  - split.
    + unfold match_at. rewrite <-app_assoc, drop_app_length. by exists rest.
    + intros j Hj Hm. apply match_at_app_l in Hm; [|len]. apply Hl in Hm. lia.
Qed.

Lemma captured_section c : complete_section c → captured_multiline_payload_body t (c ++ DOT_TERMINATOR) = Some c.
Proof.
  intros [Hc Hone]. apply captured_payload_body_iff. split; [done|]. split; [done|]. intros i Hi.
  assert (match_at TERMINATOR (CRLF ++ c ++ DOT_TERMINATOR) (2 + i)) as H%Hone by by rewrite <- match_at_drop.
  rewrite length_app. cbn. lia.
Qed.

Lemma sections_inside p h0 h1 b0 b1 :
  captured_article_payload_sections p = Some ((h0, h1), (b0, b1)) →
  h0 = 0 ∧ h1 + 2 = b0 ∧ b0 ≤ length p ∧ b1 = length p.
Proof.
  unfold captured_article_payload_sections. case_bool_decide as Hc.
  - intros [= <- <- <- <-]. apply prefix_length in Hc. cbn in Hc. lia.
  - pose proof (memmem_find_spec [x0d; x0a; x0d; x0a] p) as Hm. destruct (memmem_find _ p) as [s|]; [|done].
    destruct Hm as [Hm _]. apply match_at_length in Hm; [|done]. cbn in *. intros [= <- <- <- <-]. lia.
Qed.

Lemma payload_owned code n p :
  (220 <= code <= 222)%N → payload_for_status_owned code n p = payload_for_status code n p.
Proof.
  intros Hc. assert (code = 220 ∨ code = 221 ∨ code = 222)%N as [->|[->| ->]] by lia; [|done..]. cbn.
  destruct (captured_article_payload_sections p) as [[[h0 h1] [b0 b1]]|] eqn:E; [|done].
  destruct (sections_inside _ _ _ _ _ E) as (-> & <- & Hb & ->). unfold slice.
  rewrite drop_0, take_take, Nat.sub_0_r, Nat.min_l by lia. f_equal. symmetry. apply take_ge. rewrite length_drop. lia.
Qed.
End IngestFacts.

Section ParseFacts.
Context {MC : Memchr} {MS : MemchrSpec MC} (t : target).

Lemma parse_payload_line status line tail :
  crlf_line line → status ≠ mkStatusCode 430 →
  parse_payload t status (line ++ tail) =
  match captured_payload_body_for_status t (as_u16 status) tail with
  | None => CpAvailabilityOnly
  | Some p => payload_for_status (as_u16 status) (parse_article_number line) p
  end.
Proof.
  intros Hl Hs. unfold parse_payload. rewrite bool_decide_eq_false_2 by done.
  rewrite (find_crlf_line line tail Hl), take_app_length, drop_app_length.
  unfold captured_payload_body_for_status. destruct (negb _) eqn:E; [done|]. reflect_bools.
  destruct (captured_multiline_payload_body t tail); [done|].
  assert (as_u16 status = 220 ∨ as_u16 status = 221 ∨ as_u16 status = 222)%N as [->|[->| ->]] by lia; done.
Qed.

Lemma parse_framed_line status line tail chunks e :
  status ≠ mkStatusCode 430 → concat chunks = line ++ tail →
  parse_framed_chunked_payload status (length line) chunks e =
  if (as_u16 status =? 223)%N then CpStat (parse_article_number line)
  else if negb ((220 <=? as_u16 status)%N && (as_u16 status <=? 222)%N) then CpAvailabilityOnly
  else payload_for_status (as_u16 status) (parse_article_number line) (take (e - length line) tail).
Proof.
  intros Hs Hc. unfold parse_framed_chunked_payload. rewrite bool_decide_eq_false_2 by done.
  rewrite copy_prefix_take, Hc, take_app_length, Nat.eqb_refl. cbn [negb].
  destruct (as_u16 status =? 223)%N; [done|]. destruct (negb _) eqn:E; [done|]. reflect_bools.
  rewrite payload_owned by lia. f_equal. rewrite copy_payload_slice, Hc. unfold slice. by rewrite drop_app_length.
Qed.

Lemma article_sections n h b :
  wf_headers h → payload_for_status 220 n (h ++ CRLF ++ b) = CpArticle n h b.
Proof.
  intros Hh. unfold payload_for_status.
  rewrite (proj2 (captured_article_sections_iff (h ++ CRLF ++ b) h b eq_refl) Hh). f_equal.
  - unfold slice. by rewrite drop_0, Nat.sub_0_r, take_app_length.
  - unfold slice. rewrite (app_assoc h), drop_app. rewrite drop_ge by len.
    replace (length h + 2 - length (h ++ CRLF)) with 0 by len. rewrite drop_0. cbn [app]. apply take_ge. len.
Qed.
End ParseFacts.

(** ** Terminators in sections *)

(** Across a boundary after a line end, a terminator can only start there. *)
Lemma terminator_boundary a r i :
  match_at TERMINATOR ((a ++ CRLF) ++ r) i →
  i + 5 ≤ length (a ++ CRLF) ∨ i = length a ∨ length (a ++ CRLF) ≤ i.
Proof.
  intros Hm. destruct (decide (i + 5 ≤ length (a ++ CRLF))); [by left|].
  destruct (decide (length (a ++ CRLF) ≤ i)); [by right; right|]. right. left.
  assert (∀ k x, TERMINATOR !! k = Some x → ((a ++ CRLF) ++ r) !! (i + k) = Some x) as Hl.
  { intros k x Hk. destruct Hm as [z Hz]. rewrite <- lookup_drop, Hz. by apply lookup_app_l_Some. }
  rewrite <- app_assoc in Hl. autorewrite with nntp in *. cbn in *.
  assert (∀ k x, TERMINATOR !! k = Some x → i + k = length a → x = x0d) as H0.
  { intros k x Hk E. specialize (Hl k x Hk). rewrite E, lookup_app_r, Nat.sub_diag in Hl by lia. by injection Hl. }
  assert (∀ k x, TERMINATOR !! k = Some x → i + k = length a + 1 → x = x0a) as H1.
  { intros k x Hk E. specialize (Hl k x Hk). rewrite E, lookup_app_r in Hl by lia.
    replace (length a + 1 - length a) with 1 in Hl by lia. by injection Hl. }
  destruct (decide (i = length a + 1)) as [->|]; [by discriminate (H1 0 x0d eq_refl ltac:(lia))|].
  destruct (decide (i + 1 = length a)); [by discriminate (H0 1 x0a eq_refl ltac:(lia))|].
  destruct (decide (i + 2 = length a)); [by discriminate (H0 2 x2e eq_refl ltac:(lia))|]. lia.
Qed.

Lemma section_line_end c : complete_section c → ∃ a, CRLF ++ c = a ++ CRLF ∧ length a = length c.
Proof.
  intros [[->|[k ->]] _]; [by exists []|]. exists (CRLF ++ k). rewrite <- app_assoc. split; [done|len].
Qed.

Lemma complete_nil : complete_section [].
Proof.
  split; [by left|]. intros i Hi. pose proof (match_at_length _ _ _ Hi ltac:(done)) as H. cbn in H. cbn. lia.
Qed.

(** Two sections with a blank line between them are a section. *)
Lemma complete_join h b : complete_section h → complete_section b → complete_section (h ++ CRLF ++ b).
Proof.
  intros Hh Hb. split.
  - right. destruct Hb as [[->|[k ->]] _]; [by exists h|]. exists (h ++ CRLF ++ k). by rewrite <- !app_assoc.
  - intros i Hi. destruct (section_line_end h Hh) as (a & Ha & Hla).
    rewrite <- !app_assoc, app_assoc, Ha in Hi.
    destruct (terminator_boundary _ _ _ Hi) as [Hl|[->|Hr]].
    + exfalso. apply match_at_app_l in Hi; [|cbn; lia]. rewrite <- Ha in Hi, Hl.
      rewrite length_app in Hl. cbn in Hl.
      assert (match_at TERMINATOR (CRLF ++ h ++ DOT_TERMINATOR) i) as H%Hh
        by (rewrite app_assoc; apply match_at_app_l; [cbn; lia|done]). lia.
    + exfalso. destruct Hi as [z Hz]. rewrite <- app_assoc, drop_app_length in Hz. done.
    + replace i with (length (a ++ CRLF) + (i - length (a ++ CRLF))) in Hi by lia.
      rewrite <- match_at_drop, drop_app_length in Hi. apply Hb in Hi. rewrite length_app in *. rewrite length_app. cbn in *. lia.
Qed.

Lemma complete_split h b :
  wf_headers h → b = [] ∨ CRLF `suffix_of` b → complete_section (h ++ CRLF ++ b) →
  complete_section h ∧ complete_section b.
Proof.
  intros Hh Hb [_ Hone]. split; [split|split].
  - destruct Hh as [->|(? & _)]; [by left|by right].
  - intros i Hi. assert (∃ a, CRLF ++ h = a ++ CRLF ∧ length a = length h) as (a & Ha & Hla).
    { destruct Hh as [->|([k ->] & _)]; [by exists []|]. exists (CRLF ++ k). rewrite <- app_assoc. split; [done|len]. }
    pose proof Hi as Hi'. rewrite app_assoc, Ha in Hi'. destruct (terminator_boundary _ _ _ Hi') as [Hl|[->|Hr]]; [|done|].
    + exfalso. apply match_at_app_l in Hi'; [|cbn; lia]. rewrite <- Ha in Hi', Hl.
      rewrite length_app in Hl. cbn in Hl.
      assert (match_at TERMINATOR (CRLF ++ (h ++ CRLF ++ b) ++ DOT_TERMINATOR) i) as H%Hone.
      { rewrite <- (app_assoc h), app_assoc. apply match_at_app_l; [cbn; lia|done]. }
      rewrite !length_app in *. cbn in *. lia.
    + apply match_at_length in Hi'; [|done]. rewrite !length_app in *. cbn in *. lia.
  - done.
  - intros i Hi. assert (match_at TERMINATOR (CRLF ++ (h ++ CRLF ++ b) ++ DOT_TERMINATOR) (length (CRLF ++ h) + i)) as H%Hone.
    { rewrite <- match_at_drop, <- !app_assoc, (app_assoc CRLF h), drop_app_length. done. }
    rewrite !length_app in H. cbn in H. lia.
Qed.

(** ** The regenerated status line *)

Lemma length_u64_digits fuel n acc : length (u64_digits fuel n acc) ≤ fuel + length acc.
Proof.
  revert n acc. induction fuel as [|fuel IH]; intros n acc; cbn; [lia|].
  destruct (_ =? 0)%N; cbn; [lia|]. specialize (IH (n / 10)%N (digit_byte (n mod 10) :: acc)). cbn in IH. lia.
Qed.

Lemma digit_byte_not_lf n : (n <= 9)%N → digit_byte n ≠ x0a.
Proof. intros Hn E. pose proof (digit_value_digit_byte n Hn) as H. rewrite E in H. vm_compute in H. lia. Qed.

Lemma u64_digits_no_lf fuel n acc : x0a ∉ acc → x0a ∉ u64_digits fuel n acc.
Proof.
  revert n acc. induction fuel as [|fuel IH]; intros n acc Ha; cbn; [done|].
  assert (x0a ∉ digit_byte (n mod 10) :: acc) as Hc.
  { apply not_elem_of_cons. split; [|done]. apply not_eq_sym, digit_byte_not_lf.
    pose proof (N.mod_lt n 10 ltac:(done)). lia. }
  destruct (_ =? 0)%N; [done|by apply IH].
Qed.

(** The line without its CRLF. *)
Definition status_text (code number : N) (message_id : bytes) : bytes :=
  print_status (mkStatusCode code) ++ [x20] ++ u64_digits 20 number [] ++ [x20] ++ message_id.

Lemma valid_id_facts mid : validate_message_id mid = Ok () → x0a ∉ mid ∧ length mid ≤ 250.
Proof.
  intros (inner & -> & Hl & Hf)%validate_message_id_ok. split; [|cbn; rewrite length_app; cbn; lia].
  rewrite elem_of_cons, elem_of_app, list_elem_of_singleton. intros [?|[Hin|?]]; [done| |done].
  rewrite Forall_forall in Hf. by destruct (Hf _ Hin) as [? _].
Qed.

Lemma stack_status_line_text code number mid :
  (220 <= code <= 223)%N → validate_message_id mid = Ok () →
  stack_status_line code number mid = Some (status_text code number mid ++ CRLF).
Proof.
  intros Hc [_ Hm]%valid_id_facts. unfold stack_status_line, push_u64, push_slice.
  assert (u64_digits 20 code [] = print_status (mkStatusCode code)) as ->.
  { assert (code = 220 ∨ code = 221 ∨ code = 222 ∨ code = 223)%N as [->|[->|[->| ->]]] by lia; done. }
  pose proof (length_u64_digits 20 number []) as Hn. set (d := u64_digits 20 number []) in *. cbn in Hn.
  repeat (rewrite (proj2 (Nat.leb_le _ _)) by (rewrite ?length_app; cbn; lia); cbn [mbind option_bind]).
  unfold status_text. fold d. by rewrite <- !app_assoc.
Qed.

Lemma status_text_line code number mid :
  (220 <= code <= 223)%N → validate_message_id mid = Ok () →
  x0a ∉ status_text code number mid ∧ length (status_text code number mid ++ CRLF) ≤ COMMAND ∧
  ∀ rest, parse (status_text code number mid ++ rest) = Some (mkStatusCode code).
Proof.
  intros Hc [Hlf Hm]%valid_id_facts. split_and!.
  - unfold status_text. rewrite !not_elem_of_app. split_and!; [|by apply (bool_decide_unpack _)| |by apply (bool_decide_unpack _)|done].
    + assert (code = 220 ∨ code = 221 ∨ code = 222 ∨ code = 223)%N as [->|[->|[->| ->]]] by lia;
        apply (bool_decide_unpack _); by vm_compute.
    + apply u64_digits_no_lf. apply not_elem_of_nil.
  - pose proof (length_u64_digits 20 number []). unfold status_text, COMMAND. rewrite !length_app. cbn in *. lia.
  - intros rest. apply parse_Some. split; [unfold status_ok; cbn; lia|]. unfold status_text. rewrite <- !app_assoc. by eexists.
Qed.

(** ** Served responses *)

Lemma section_first_touching line c :
  complete_section c → first_touching (line ++ CRLF) (c ++ DOT_TERMINATOR) (Some (length (c ++ DOT_TERMINATOR))).
Proof.
  intros [[->|[k ->]] Hone].
  - split.
    + split; [cbn; lia|]. exists line. cbn. by rewrite <- app_assoc.
    + intros j Hj [Hj0 [k Hk]]. cbn in Hj, Hj0. apply (f_equal reverse) in Hk. rewrite !reverse_app in Hk.
      destruct j as [|[|[|j]]]; [lia|done|done|lia].
  - rewrite <- app_assoc in Hone |- *. by apply body_first_touching.
Qed.

Lemma served_reply_end k text c status :
  x0a ∉ text → length (text ++ CRLF) ≤ COMMAND → parse (text ++ CRLF) = Some status →
  request_kind_has_response_body k status = true → complete_section c →
  reply_end k ((text ++ CRLF) ++ c ++ DOT_TERMINATOR) = Some (length ((text ++ CRLF) ++ c ++ DOT_TERMINATOR)).
Proof.
  intros Hlf Hl Hp Hb Hc.
  assert ((text ++ CRLF) ++ c ++ DOT_TERMINATOR = (text ++ [x0d]) ++ x0a :: c ++ DOT_TERMINATOR) as ->
    by by rewrite <- !app_assoc.
  rewrite reply_end_line by set_solver. unfold line_reply.
  assert ((text ++ [x0d]) ++ [x0a] = text ++ CRLF) as -> by by rewrite <- app_assoc.
  rewrite Hp, Hb. destruct (Nat.ltb_spec COMMAND (length (text ++ CRLF))); [lia|].
  rewrite (proj1 (first_touching_iff _ _ _) (section_first_touching text c Hc)). cbn. f_equal. len.
Qed.

Lemma served_line_end k text status :
  x0a ∉ text → length (text ++ CRLF) ≤ COMMAND → parse (text ++ CRLF) = Some status →
  request_kind_has_response_body k status = false →
  reply_end k (text ++ CRLF) = Some (length (text ++ CRLF)).
Proof.
  intros Hlf Hl Hp Hb. assert (text ++ CRLF = (text ++ [x0d]) ++ [x0a]) as E by by rewrite <- app_assoc.
  rewrite E at 1. rewrite reply_end_line by set_solver. unfold line_reply. rewrite <- E, Hp, Hb. by case_match.
Qed.

(** The content of a served response, between the status line and the dot line. *)
Definition wire_content (p : CachedResponseWirePayload) : option bytes :=
  match p with
  | WireNone => None
  | WireArticle h b => Some (h ++ article_separator h b ++ b)
  | WireHead s | WireBody s => Some s
  end.

Lemma write_to_content w :
  write_to w = wire_status_line w ++ match wire_content (wire_payload w) with Some c => c ++ DOT_TERMINATOR | None => [] end.
Proof. unfold write_to. destruct (wire_payload w); cbn; by rewrite ?app_nil_r, <- ?app_assoc. Qed.

Lemma wire_len_exact w : wire_len w = length (write_to w).
Proof.
  unfold wire_len. rewrite write_to_content, length_app. f_equal. destruct (wire_payload w); cbn; rewrite ?length_app; cbn; lia.
Qed.

Lemma article_content_complete h b : complete_section h → complete_section b → complete_section (h ++ article_separator h b ++ b).
Proof.
  intros Hh Hb. unfold article_separator. case_bool_decide as H1; [case_bool_decide as H2|]; cbn [andb].
  - subst. apply complete_nil.
  - by apply complete_join.
  - by apply complete_join.
Qed.

(** ** Properties *)

(** The bit of a request kind in [answer_bits]. *)
Definition kind_bit (k : RequestKind) : N :=
  match k with Article => 1 | Head => 2 | Body => 4 | Stat => 8 | _ => 0 end.

Lemma served_wire code number mid wp k :
  (220 <= code <= 223)%N → validate_message_id mid = Ok () →
  (match wire_content wp with
   | Some c => complete_section c ∧ request_kind_has_response_body k (mkStatusCode code) = true
   | None => request_kind_has_response_body k (mkStatusCode code) = false
   end) →
  match (line ← stack_status_line code number mid; Some (mkWire (mkStatusCode code) line wp)) with
  | Some w => wire_len w = length (write_to w) ∧ parse (write_to w) = Some (wire_status_code w) ∧
      reply_end k (write_to w) = Some (length (write_to w))
  | None => False
  end.
Proof.
  intros Hc Hm Hw. rewrite stack_status_line_text by done. cbn [mbind option_bind wire_status_code].
  destruct (status_text_line code number mid Hc Hm) as (Hlf & Hl & Hp).
  split; [apply wire_len_exact|]. rewrite write_to_content. cbn [wire_status_line wire_payload].
  rewrite <- app_assoc, Hp, app_assoc. split; [done|]. destruct (wire_content wp) as [c|].
  - destruct Hw. eapply served_reply_end; [done|done|apply Hp|done|done].
  - rewrite app_nil_r. eapply served_line_end; [done|done|apply Hp|done].
Qed.

Lemma served_complete p k mid :
  payload_ok p → validate_message_id mid = Ok () →
  match cached_response_for_payload p k mid with
  | Some w =>
      N.land (answer_bits p) (kind_bit k) ≠ 0%N ∧ wire_len w = length (write_to w) ∧
      parse (write_to w) = Some (wire_status_code w) ∧
      reply_end k (write_to w) = Some (length (write_to w))
  | None => N.land (answer_bits p) (kind_bit k) = 0%N
  end.
Proof.
  intros Hp Hm.
  assert (∀ code number wp, (220 <= code <= 223)%N → N.land (answer_bits p) (kind_bit k) ≠ 0%N →
    (match wire_content wp with
     | Some c => complete_section c ∧ request_kind_has_response_body k (mkStatusCode code) = true
     | None => request_kind_has_response_body k (mkStatusCode code) = false
     end) →
    match (line ← stack_status_line code number mid; Some (mkWire (mkStatusCode code) line wp)) with
    | Some w =>
        N.land (answer_bits p) (kind_bit k) ≠ 0%N ∧ wire_len w = length (write_to w) ∧
        parse (write_to w) = Some (wire_status_code w) ∧
        reply_end k (write_to w) = Some (length (write_to w))
    | None => N.land (answer_bits p) (kind_bit k) = 0%N
    end) as Hs.
  { intros code number wp Hc Hb Hw. pose proof (served_wire code number mid wp k Hc Hm Hw) as H.
    destruct (stack_status_line code number mid); cbn [mbind option_bind] in *; done. }
  unfold cached_response_for_payload. cbn zeta.
  destruct k, p; try reflexivity; apply Hs; try lia; try discriminate; cbn [wire_content] in *;
    try (split; [|reflexivity]); try reflexivity; cbn in Hp; try done; try apply Hp.
  apply article_content_complete; apply Hp.
Qed.

(** C30 A response served from the cache is one complete reply to its request: it
    starts with the status it records, its length is the announced one, and a
    client (or another proxy) frames it exactly at its end; and a payload
    answers precisely the requests its usefulness bits claim. *)
Theorem served_response_complete p k mid :
  payload_ok p → validate_message_id mid = Ok () →
  match cached_response_for_payload p k mid with
  | Some w =>
      N.land (answer_bits p) (kind_bit k) ≠ 0%N ∧ wire_len w = length (write_to w) ∧
      parse (write_to w) = Some (wire_status_code w) ∧
      reply_end k (write_to w) = Some (length (write_to w))
  | None => N.land (answer_bits p) (kind_bit k) = 0%N
  end.
Proof. apply served_complete. Qed.

Definition sample_line : bytes := bs "220 7 <a@b>" ++ CRLF.
Definition sample_headers : bytes := bs "A: 1" ++ CRLF.
Definition sample_body : bytes := bs "x" ++ CRLF ++ bs ".." ++ CRLF.

(** A decision procedure for concrete sections. *)
Lemma complete_section_dec c :
  bool_decide (c = [] ∨ CRLF `suffix_of` c) = true →
  forallb (λ i, negb (bool_decide (match_at TERMINATOR (CRLF ++ c ++ DOT_TERMINATOR) i)) || (i =? length c))
    (seq 0 (length c + 5)) = true →
  complete_section c.
Proof.
  intros H1%bool_decide_eq_true H2. split; [done|]. intros i Hi.
  pose proof (match_at_length _ _ _ Hi ltac:(done)) as Hl. rewrite forallb_forall in H2.
  assert (i ∈ seq 0 (length c + 5)) as Hin by (apply elem_of_seq; len). apply list_elem_of_In, H2, orb_true_iff in Hin.
  destruct Hin as [Hn|He]; [|by apply Nat.eqb_eq]. apply negb_true_iff, bool_decide_eq_false in Hn. done.
Qed.

Lemma served_response_complete_witness :
  reply_end Body (bs "222 7 <a@b>" ++ CRLF ++ sample_body ++ DOT_TERMINATOR) =
  Some (length (bs "222 7 <a@b>" ++ CRLF ++ sample_body ++ DOT_TERMINATOR)).
Proof.
  refine (match served_response_complete (CpArticle (Some 7%N) sample_headers sample_body) Body (bs "<a@b>") _ _ with
          | conj _ (conj _ (conj _ H)) => H end).
  - split; apply complete_section_dec; vm_compute; reflexivity.
  - vm_compute. reflexivity.
Defined.

(** The bytes a client gets for a request of kind [k]. *)
Definition served (p : CachedPayload) (k : RequestKind) (mid : bytes) : option bytes :=
  write_to <$> cached_response_for_payload p k mid.

Lemma served_bytes code number mid wp :
  (220 <= code <= 223)%N → validate_message_id mid = Ok () →
  write_to <$> (line ← stack_status_line code number mid; Some (mkWire (mkStatusCode code) line wp)) =
  Some (status_text code number mid ++ CRLF ++
        match wire_content wp with Some c => c ++ DOT_TERMINATOR | None => [] end).
Proof.
  intros Hc Hm. rewrite stack_status_line_text by done. cbn [mbind option_bind fmap option_fmap option_map].
  f_equal. rewrite write_to_content. cbn [wire_status_line wire_payload]. by rewrite <- app_assoc.
Qed.

Lemma article_separator_crlf h b : h ++ b ≠ [] → article_separator h b = CRLF.
Proof.
  intros Hne. unfold article_separator. case_bool_decide; [|done]. case_bool_decide; [|done]. by subst.
Qed.

(** The cache serves what the backend sent: from a complete ARTICLE response,
    captured in any chunks, an ARTICLE request is answered with the very bytes
    that followed the status line, HEAD with its header block and BODY with
    what follows the blank line, each closed by the dot line, and STAT with the
    status line alone; and a HEAD or BODY response is replayed the same way. *)
Theorem cached_response_verbatim {MC : Memchr} {MS : MemchrSpec MC} line h b c chunks mid :
  crlf_line line → wf_headers h → h ++ b ≠ [] → validate_message_id mid = Ok () →
  let n := default 0%N (parse_article_number line) in
  let capture content code :=
    parse_framed_chunked_payload (mkStatusCode code) (length line) chunks (length line + length content) in
  (concat chunks = line ++ h ++ CRLF ++ b ++ DOT_TERMINATOR →
   let p := capture (h ++ CRLF ++ b) 220%N in
   served p Article mid = Some (status_text 220 n mid ++ CRLF ++ h ++ CRLF ++ b ++ DOT_TERMINATOR) ∧
   served p Head mid = Some (status_text 221 n mid ++ CRLF ++ h ++ DOT_TERMINATOR) ∧
   served p Body mid = Some (status_text 222 n mid ++ CRLF ++ b ++ DOT_TERMINATOR) ∧
   served p Stat mid = Some (status_text 223 n mid ++ CRLF)) ∧
  (concat chunks = line ++ c ++ DOT_TERMINATOR →
   served (capture c 221%N) Head mid = Some (status_text 221 n mid ++ CRLF ++ c ++ DOT_TERMINATOR) ∧
   served (capture c 222%N) Body mid = Some (status_text 222 n mid ++ CRLF ++ c ++ DOT_TERMINATOR)).
Proof.
  intros Hl Hh Hne Hm. cbn zeta. split.
  - intros Hc0. assert (concat chunks = line ++ (h ++ CRLF ++ b) ++ DOT_TERMINATOR) as Hc by (by rewrite Hc0, <- !app_assoc).
    rewrite (parse_framed_line (mkStatusCode 220) line _ chunks _ ltac:(done) Hc).
    rewrite Nat.add_comm, Nat.add_sub, take_app_length. cbn [as_u16 N.eqb Pos.eqb N.leb negb andb].
    rewrite article_sections by done. unfold served, cached_response_for_payload. cbn [payload_article_number].
    split_and!; (etrans; [apply served_bytes; [lia|done]|]); cbn [wire_content];
      by rewrite ?article_separator_crlf, ?app_nil_r, <- ?app_assoc by done.
  - intros Hc. rewrite (parse_framed_line (mkStatusCode 221) line _ chunks _ ltac:(done) Hc),
      (parse_framed_line (mkStatusCode 222) line _ chunks _ ltac:(done) Hc).
    rewrite Nat.add_comm, Nat.add_sub, take_app_length. unfold served, cached_response_for_payload.
    split; (etrans; [apply served_bytes; [lia|done]|]); done.
Qed.

Lemma crlf_line_dec l :
  forallb (λ i, negb (bool_decide (match_at CRLF (l ++ CRLF) i)) || (i =? length l)) (seq 0 (length l + 2)) = true →
  crlf_line (l ++ CRLF).
Proof.
  intros H. exists l. split; [done|]. intros i Hi. pose proof (match_at_length _ _ _ Hi ltac:(done)) as Hl.
  rewrite forallb_forall in H. assert (i ∈ seq 0 (length l + 2)) as Hin by (apply elem_of_seq; len).
  apply list_elem_of_In, H, orb_true_iff in Hin.
  destruct Hin as [Hn|He]; [|by apply Nat.eqb_eq]. apply negb_true_iff, bool_decide_eq_false in Hn. done.
Qed.

Lemma sample_headers_wf : wf_headers sample_headers.
Proof.
  right. split; [by exists (bs "A: 1")|]. split; [by intros [k Hk]|].
  intros i Hi. pose proof (match_at_length _ _ _ Hi ltac:(discriminate)) as Hl. simpl in Hl.
  destruct Hi as [k Hk]. do 3 (destruct i as [|i]; [by discriminate Hk|]). lia.
Qed.

Lemma cached_response_verbatim_witness :
  served (parse_framed_chunked_payload (MC := naive_memchr) (mkStatusCode 220) 13
            [bs "220 7 <a@"; bs "b>" ++ CRLF ++ sample_headers; CRLF ++ sample_body ++ DOT_TERMINATOR] 28)
    Body (bs "<a@b>") = Some (bs "222 7 <a@b>" ++ CRLF ++ sample_body ++ DOT_TERMINATOR).
Proof.
  refine (proj1 (proj2 (proj2 (proj1 (cached_response_verbatim (MC := naive_memchr) (MS := naive_memchr_spec)
    sample_line sample_headers sample_body []
    [bs "220 7 <a@"; bs "b>" ++ CRLF ++ sample_headers; CRLF ++ sample_body ++ DOT_TERMINATOR]
    (bs "<a@b>") _ sample_headers_wf _ _) _)))).
  - apply (crlf_line_dec (bs "220 7 <a@b>")). vm_compute. reflexivity.
  - discriminate.
  - vm_compute. reflexivity.
  - reflexivity.
Defined.

(** Ingest does not depend on the buffering: for a complete response, in any
    chunks and with the boundary the framer established, the chunked parser
    builds the same entry as the contiguous one. *)
Theorem framed_parse_equivalent {MC : Memchr} {MS : MemchrSpec MC} t status line tail chunks payload_end :
  crlf_line line → concat chunks = line ++ tail →
  ((220 <= as_u16 status <= 222)%N →
   ∃ content, tail = content ++ DOT_TERMINATOR ∧ complete_section content ∧
     payload_end = length line + length content) →
  parse_framed_chunked_payload status (length line) chunks payload_end =
  parse_payload t status (concat chunks).
Proof.
  intros Hl Hc Hm. destruct (decide (status = mkStatusCode 430)) as [->|Hs].
  { unfold parse_framed_chunked_payload, parse_payload. by rewrite bool_decide_eq_true_2 by done. }
  rewrite (parse_framed_line _ _ _ _ _ Hs Hc), Hc, parse_payload_line by done.
  unfold captured_payload_body_for_status. destruct (N.eqb_spec (as_u16 status) 223) as [->|H3]; [done|].
  destruct (negb _) eqn:E; reflect_bools.
  - apply andb_false_iff in E. unfold payload_for_status.
    repeat case_match; try done; simplify_eq; exfalso; destruct E as [E|E]; reflect_bools; lia.
  - destruct Hm as (content & -> & Hcs & ->); [lia|]. rewrite captured_section by done.
    by rewrite Nat.add_comm, Nat.add_sub, take_app_length.
Qed.

Lemma framed_parse_equivalent_witness :
  parse_framed_chunked_payload (MC := naive_memchr) (mkStatusCode 222) (length sample_line)
    [bs "220 7 <a@"; bs "b>" ++ CRLF ++ sample_body ++ DOT_TERMINATOR] 20 =
  CpBody (Some 7%N) sample_body.
Proof.
  rewrite (framed_parse_equivalent (MC := naive_memchr) (MS := naive_memchr_spec) Generic (mkStatusCode 222)
    sample_line (sample_body ++ DOT_TERMINATOR) [bs "220 7 <a@"; bs "b>" ++ CRLF ++ sample_body ++ DOT_TERMINATOR] 20).
  - vm_compute. reflexivity.
  - apply (crlf_line_dec (bs "220 7 <a@b>")). vm_compute. reflexivity.
  - reflexivity.
  - intros _. exists sample_body. split; [reflexivity|]. split; [|reflexivity].
    apply complete_section_dec; vm_compute; reflexivity.
Defined.

(** ** What ingest and merging establish of an entry *)

Lemma suffix_after_blank a b : CRLF `suffix_of` a ++ CRLF ++ b → b = [] ∨ CRLF `suffix_of` b.
Proof.
  intros [k Hk]. destruct b as [|y b' _] using rev_ind; [by left|]. right.
  assert (∀ (u v : bytes) (x z : byte), u ++ [x] = v ++ [z] → u = v ∧ x = z) as Hinv.
  { intros u v x z H. by apply app_inj_tail in H. }
  replace (k ++ CRLF) with ((k ++ [x0d]) ++ [x0a]) in Hk by by rewrite <- app_assoc.
  rewrite !app_assoc in Hk. apply Hinv in Hk as [Hk ->].
  destruct b' as [|x b'' _] using rev_ind.
  - rewrite app_nil_r in Hk. replace (a ++ CRLF) with ((a ++ [x0d]) ++ [x0a]) in Hk by by rewrite <- app_assoc.
    apply Hinv in Hk as [_ Hx]. discriminate.
  - rewrite app_assoc in Hk. apply Hinv in Hk as [_ ->]. exists b''. by rewrite <- app_assoc.
Qed.

Section IngestOk.
Context {MC : Memchr} {MS : MemchrSpec MC}.

Lemma sections_blank p h0 h1 b0 b1 :
  captured_article_payload_sections p = Some ((h0, h1), (b0, b1)) → p = take h1 p ++ CRLF ++ drop b0 p.
Proof.
  intros E. destruct (sections_inside _ _ _ _ _ E) as (_ & <- & Hl & _).
  assert (CRLF `prefix_of` drop h1 p) as [r Hr].
  { unfold captured_article_payload_sections in E. case_bool_decide as Hc; [by injection E as _ <- _|].
    pose proof (memmem_find_spec [x0d; x0a; x0d; x0a] p) as Hm. destruct (memmem_find _ p) as [s|]; [|done].
    destruct Hm as [[r Hm] _]. injection E as _ <- _ _. exists r.
    rewrite <- drop_drop, Hm. done. }
  rewrite <- (take_drop h1 p) at 1. f_equal. rewrite Hr, <- drop_drop, Hr. done.
Qed.

Lemma article_payload_ok n content : complete_section content → payload_ok (payload_for_status 220 n content).
Proof.
  intros Hc. unfold payload_for_status.
  destruct (captured_article_payload_sections content) as [[[h0 h1] [b0 b1]]|] eqn:E; [|by split; [apply complete_nil|]].
  pose proof (sections_blank _ _ _ _ _ E) as Hp. destruct (sections_inside _ _ _ _ _ E) as (-> & <- & Hl & ->).
  assert (slice 0 h1 content = take h1 content) as -> by (unfold slice; by rewrite drop_0, Nat.sub_0_r).
  assert (slice (h1 + 2) (length content) content = drop (h1 + 2) content) as ->
    by (unfold slice; apply take_ge; rewrite length_drop; lia).
  assert (length (take h1 content) = h1) as Hlt by (rewrite length_take; lia).
  rewrite Hp in Hc. cbn. apply complete_split; [|eapply suffix_after_blank|done].
  - apply (captured_article_sections_iff content _ _ Hp). by rewrite Hlt.
  - destruct Hc as [[Hnil|Hsuf] _]; [|exact Hsuf]. by destruct (take h1 content).
Qed.

(** A complete response as the framer hands it to the cache. *)
Definition complete_capture (status : StatusCode) (line : bytes) (chunks : list bytes) (payload_end : nat) : Prop :=
  ∃ tail, concat chunks = line ++ tail ∧
    ((220 <= as_u16 status <= 222)%N →
     ∃ content, tail = content ++ DOT_TERMINATOR ∧ complete_section content ∧
       payload_end = length line + length content).

Lemma framed_payload_ok status line chunks payload_end :
  complete_capture status line chunks payload_end →
  payload_ok (parse_framed_chunked_payload status (length line) chunks payload_end).
Proof.
  intros (tail & Hc & Hm). destruct (decide (status = mkStatusCode 430)) as [->|Hs]; [done|].
  rewrite (parse_framed_line _ _ _ _ _ Hs Hc). destruct (as_u16 status =? 223)%N; [done|].
  destruct (negb _) eqn:E; [done|]. reflect_bools. destruct Hm as (content & -> & Hcs & ->); [lia|].
  rewrite Nat.add_comm, Nat.add_sub, take_app_length.
  assert (as_u16 status = 220 ∨ as_u16 status = 221 ∨ as_u16 status = 222)%N as [->|[->| ->]] by lia; [|done..].
  by apply article_payload_ok.
Qed.
End IngestOk.

Lemma merge_payloads_ok l r p : payload_ok l → payload_ok r → merge_payloads l r = Some p → payload_ok p.
Proof. destruct l, r; cbn; try done; intros ? ? [= <-]; by split. Qed.
