(* ===== verification/Cache.v ===== *)
(** * Cache: entries of the in-memory article cache

    Models [CachedArticle] and the updates of [ArticleCache] in
    [src/src/cache/article.rs]: an entry joins a payload ([Article.v]) with the
    provider slots that answered 430 and the time of each answer; an update is
    merged into the entry under the key's lock.

    The map itself belongs to [moka]: it is a finite map from which any entry
    may disappear between two operations ([OpEvict]).  The clock is the
    argument [now] of every operation.  The hit and miss statistics are left
    out. *)

From stdpp Require Import gmap.
From S2P Require Import Prelude Availability Protocol Request Scanner Framer Tracker Article.

(** ** Entries *)

Record CachedArticle := mkCached {
  ca_availability : ArticleAvailability;
  ca_negative : list (AvailabilitySlot * N);
  ca_status : StatusCode;
  ca_payload : CachedPayload;
  ca_tier : N;
  ca_inserted_at : N }.

Definition clear_slot_bit (bits : N) (s : AvailabilitySlot) : N := N.ldiff bits (slot_bit s).

(** [CachedArticle::expire_stale_availability] *)
Definition ca_expire_stale (now ttl : N) (e : CachedArticle) : CachedArticle :=
  let stale p := is_expired now p.2 ttl 0 in
  mkCached
    (from_missing_bits
       (foldl (λ bits p, if stale p then clear_slot_bit bits p.1 else bits)
          (missing_bits (ca_availability e)) (ca_negative e)))
    (filter (λ p, stale p = false) (ca_negative e))
    (ca_status e) (ca_payload e) (ca_tier e) (ca_inserted_at e).

Definition availability_only_entry (now : N) (status : StatusCode) (tier : N) : CachedArticle :=
  mkCached new_availability [] status CpAvailabilityOnly tier now.

Definition stat_entry (now tier : N) : CachedArticle :=
  mkCached new_availability [] (mkStatusCode 223) (CpStat None) tier now.

Definition missing_entry (now tier : N) : CachedArticle :=
  mkCached new_availability [] (mkStatusCode 430) CpMissing tier now.

Definition ca_is_expired (now ttl : N) (e : CachedArticle) : bool :=
  is_expired now (ca_inserted_at e) ttl (ca_tier e).

(** [CachedArticle::record_availability_missing]: the first recorded timestamp of
    the slot is renewed, or a new one is pushed. *)
Fixpoint renew_timestamp (slot : AvailabilitySlot) (now : N) (l : list (AvailabilitySlot * N))
    : list (AvailabilitySlot * N) :=
  match l with
  | [] => [(slot, now)]
  | (s, ts) :: l =>
      if slot_index s =? slot_index slot then (s, now) :: l else (s, ts) :: renew_timestamp slot now l
  end.

Definition ca_record_missing (now : N) (slot : AvailabilitySlot) (e : CachedArticle) : CachedArticle :=
  mkCached (record_missing_slot (ca_availability e) slot) (renew_timestamp slot now (ca_negative e))
    (ca_status e) (ca_payload e) (ca_tier e) (ca_inserted_at e).

Definition payload_is_complete_article (status : StatusCode) (p : CachedPayload) : bool :=
  if negb (as_u16 status =? 220)%N then false
  else match p with
       | CpArticle _ headers body => negb (bool_decide (headers = [])) || negb (bool_decide (body = []))
       | _ => false
       end.

Definition is_complete_article (e : CachedArticle) : bool :=
  payload_is_complete_article (ca_status e) (ca_payload e).

Definition set_content (e : CachedArticle) (status : StatusCode) (p : CachedPayload) (tier inserted_at : N)
    : CachedArticle :=
  mkCached (ca_availability e) (ca_negative e) status p tier inserted_at.

(** [CachedArticle::merge_compatible_sections]: [None] is [false]. *)
Definition merge_compatible_sections (now : N) (e other : CachedArticle) : option CachedArticle :=
  p ← merge_payloads (ca_payload e) (ca_payload other);
  Some (set_content e (mkStatusCode 220) p (N.max (ca_tier e) (ca_tier other)) now).

Definition cached_response_for (e : CachedArticle) (k : RequestKind) (mid : bytes) : option CachedResponseWire :=
  cached_response_for_payload (ca_payload e) k mid.

Definition request_cache_metadata (e : CachedArticle) (a : ArticleAvailability) : RequestCacheEntryMetadata :=
  mkCacheEntryMetadata (ca_status e) (mkCacheAvailability (missing_bits a) (missing_bits a)) (ca_tier e)
    (ca_inserted_at e) (request_payload_kind (ca_payload e)) (payload_article_number (ca_payload e)).

(** ** Updates *)

Definition fresh_entry_for_mutation (now ttl : N) (maybe : option CachedArticle) : option CachedArticle :=
  e ← maybe;
  let e := ca_expire_stale now ttl e in
  if negb (ca_is_expired now ttl e) then Some e else None.

(** Whether an ingested entry replaces the content of an existing one. *)
Definition should_replace (e new : CachedArticle) : bool :=
  match is_complete_article e, is_complete_article new with
  | false, true => true
  | true, false => false
  | _, _ =>
      negb (keep_same_completeness (payload_len (ca_payload e)) (payload_len (ca_payload new))
              (ca_payload e) (ca_payload new))
  end.

Definition merge_ingest_entry (now ttl : N) (maybe : option CachedArticle) (new : CachedArticle)
    (slot : AvailabilitySlot) : CachedArticle :=
  match fresh_entry_for_mutation now ttl maybe with
  | Some e =>
      if is_missing_slot (ca_availability e) slot then e
      else
        match merge_compatible_sections now e new with
        | Some e => e
        | None =>
            if should_replace e new
            then set_content e (ca_status new) (ca_payload new) (ca_tier new) now
            else e
        end
  | None => new
  end.

Definition without_section (p : CachedPayload) : bool :=
  match p with CpMissing | CpAvailabilityOnly => true | _ => false end.

Definition merge_backend_has_status_entry (now ttl : N) (maybe : option CachedArticle) (status : StatusCode)
    (slot : AvailabilitySlot) (tier : N) : CachedArticle :=
  let e := default (availability_only_entry now status tier) (fresh_entry_for_mutation now ttl maybe) in
  if is_missing_slot (ca_availability e) slot then e
  else if without_section (ca_payload e) then set_content e status CpAvailabilityOnly tier now
  else set_content e (ca_status e) (ca_payload e) (ca_tier e) now.

Definition merge_backend_stat_entry (now ttl : N) (maybe : option CachedArticle)
    (slot : AvailabilitySlot) (tier : N) : CachedArticle :=
  let new := stat_entry now tier in
  let e := default new (fresh_entry_for_mutation now ttl maybe) in
  if is_missing_slot (ca_availability e) slot then e
  else if without_section (ca_payload e)
  then set_content e (ca_status new) (ca_payload new) (ca_tier new) now
  else set_content e (ca_status e) (ca_payload e) (ca_tier e) now.

Definition merge_availability_missing_entry (now ttl : N) (maybe : option CachedArticle)
    (slot : AvailabilitySlot) : CachedArticle :=
  match fresh_entry_for_mutation now ttl maybe with
  | Some e => ca_record_missing now slot e
  | None => ca_record_missing now slot (missing_entry now 0)
  end.

(** ** The cache *)

Section ArticleCache.
Context {MC : Memchr}.

Definition from_framed_chunked_with_tier (now : N) (status : StatusCode) (status_end : nat)
    (chunks : list bytes) (payload_end : nat) (tier : N) : CachedArticle :=
  mkCached new_availability [] status (parse_framed_chunked_payload status status_end chunks payload_end) tier now.

Abbreviation Entries := (gmap bytes CachedArticle).

(** [get_by_cache_key]: an expired entry is removed. *)
Definition get_by_cache_key (now ttl : N) (key : bytes) (c : Entries) : option CachedArticle * Entries :=
  match c !! key with
  | Some e =>
      if negb (ca_is_expired now ttl e) then (Some (ca_expire_stale now ttl e), c) else (None, delete key c)
  | None => (None, c)
  end.

Inductive CacheOp :=
| OpIngest (key : bytes) (status : StatusCode) (line : bytes) (chunks : list bytes) (payload_end : nat)
    (slot : AvailabilitySlot) (tier : N)
| OpHasStatus (key : bytes) (status : StatusCode) (slot : AvailabilitySlot) (tier : N)
| OpStat (key : bytes) (slot : AvailabilitySlot) (tier : N)
| OpMissing (key : bytes) (slot : AvailabilitySlot)
| OpGet (key : bytes)
| OpEvict (key : bytes).

(** [upsert_framed_ingest_for_slot], [record_has_status_for_slot],
    [record_stat_for_slot], [record_availability_missing] and
    [get_by_cache_key], one at a time for a key. *)
Definition cache_step (ttl now : N) (op : CacheOp) (c : Entries) : Entries :=
  match op with
  | OpIngest key status line chunks payload_end slot tier =>
      let new := from_framed_chunked_with_tier now status (length line) chunks payload_end tier in
      <[key := merge_ingest_entry now ttl (c !! key) new slot]> c
  | OpHasStatus key status slot tier =>
      <[key := merge_backend_has_status_entry now ttl (c !! key) status slot tier]> c
  | OpStat key slot tier => <[key := merge_backend_stat_entry now ttl (c !! key) slot tier]> c
  | OpMissing key slot => <[key := merge_availability_missing_entry now ttl (c !! key) slot]> c
  | OpGet key => (get_by_cache_key now ttl key c).2
  | OpEvict key => delete key c
  end.

(** The operations of a run with the times at which they happen. *)
Definition run_cache (ttl : N) (ops : list (CacheOp * N)) (c : Entries) : Entries :=
  foldl (λ c op, cache_step ttl op.2 op.1 c) c ops.
End ArticleCache.

(** ** Negative facts of an entry *)

Definition neg_slots (e : CachedArticle) : list nat := (λ p, slot_index p.1) <$> ca_negative e.

(** The bit set and the timestamps agree. *)
Definition neg_inv (e : CachedArticle) : Prop :=
  NoDup (neg_slots e) ∧
  ∀ s, is_missing_slot (ca_availability e) s = true ↔ slot_index s ∈ neg_slots e.

Lemma is_missing_testbit a s : is_missing_slot a s = N.testbit (missing_bits a) (N.of_nat (slot_index s)).
Proof. unfold is_missing_slot. rewrite land_slot_bit. by destruct (N.testbit _ _). Qed.

Lemma expire_bits_testbit (stale : AvailabilitySlot * N → bool) l bits j :
  N.testbit (foldl (λ bits p, if stale p then clear_slot_bit bits p.1 else bits) bits l) (N.of_nat j) =
  N.testbit bits (N.of_nat j) && negb (existsb (λ p, stale p && (slot_index p.1 =? j)) l).
Proof.
  revert bits. induction l as [|p l IH]; intros bits; cbn [foldl existsb]; [by rewrite andb_true_r|].
  rewrite IH. destruct (stale p); cbn [andb orb]; [|done]. unfold clear_slot_bit.
  rewrite N.ldiff_spec, slot_bit_testbit. destruct (Nat.eqb_spec (slot_index p.1) j) as [->|Hne].
  - by rewrite N.eqb_refl, andb_false_r, orb_true_l, andb_false_r.
  - rewrite (proj2 (N.eqb_neq _ _)) by lia. by rewrite andb_true_r.
Qed.

Lemma NoDup_fmap_inj {A B} (f : A → B) l x y : NoDup (f <$> l) → x ∈ l → y ∈ l → f x = f y → x = y.
Proof.
  induction l as [|z l IH]; [by intros _ ?%elem_of_nil|]. rewrite fmap_cons, NoDup_cons. intros [Hz Hl].
  rewrite !elem_of_cons. intros [->|Hx] [->|Hy] E; [done| | |by apply IH].
  - destruct Hz. apply list_elem_of_fmap. by exists y.
  - destruct Hz. apply list_elem_of_fmap. by exists x.
Qed.

Lemma expire_stale_inv now ttl e : neg_inv e → neg_inv (ca_expire_stale now ttl e).
Proof.
  intros [Hnd Hiff]. unfold neg_inv, neg_slots, ca_expire_stale. cbn [ca_negative ca_availability].
  unfold neg_slots in Hnd, Hiff. set (stale := λ p : AvailabilitySlot * N, is_expired now p.2 ttl 0).
  split.
  - clear Hiff. induction (ca_negative e) as [|p l IH]; [by rewrite filter_nil|]. rewrite fmap_cons, NoDup_cons in Hnd.
    destruct Hnd as [Hp Hl]. rewrite filter_cons. case_decide; [|by apply IH]. rewrite fmap_cons, NoDup_cons.
    split; [|by apply IH]. contradict Hp. apply list_elem_of_fmap in Hp as (q & -> & [_ Hq]%list_elem_of_filter).
    apply list_elem_of_fmap. eauto.
  - intros s. rewrite is_missing_testbit. cbn [missing_bits from_missing_bits].
    rewrite (expire_bits_testbit stale), <- is_missing_testbit, andb_true_iff, negb_true_iff, Hiff. split.
    + intros [(p & Hs & Hp)%list_elem_of_fmap Hno]. apply list_elem_of_fmap. exists p. split; [done|].
      apply list_elem_of_filter. split; [|done]. fold (stale p). destruct (stale p) eqn:E; [|done].
      rewrite <- Hno. symmetry. apply existsb_exists. exists p. split; [by apply list_elem_of_In|]. by rewrite E, Hs, Nat.eqb_refl.
    + intros (p & Hs & [Hst Hp]%list_elem_of_filter)%list_elem_of_fmap. split; [apply list_elem_of_fmap; eauto|].
      destruct (existsb _ _) eqn:E; [|done]. apply existsb_exists in E as (q & Hq%list_elem_of_In & [Hqs Hqi]%andb_true_iff).
      apply Nat.eqb_eq in Hqi. assert (q = p) as ->; [|by unfold stale in Hqs; rewrite Hst in Hqs].
      eapply (NoDup_fmap_inj (λ p, slot_index p.1)); [exact Hnd|done|done|by rewrite Hqi].
Qed.

Lemma renew_slots slot now l j :
  j ∈ (λ p, slot_index p.1) <$> renew_timestamp slot now l ↔ j = slot_index slot ∨ j ∈ (λ p, slot_index p.1) <$> l.
Proof.
  induction l as [|[s ts] l IH]; cbn [renew_timestamp].
  { cbn. rewrite list_elem_of_singleton, elem_of_nil. tauto. }
  destruct (Nat.eqb_spec (slot_index s) (slot_index slot)) as [E|E]; rewrite !fmap_cons, !elem_of_cons; cbn [fst].
  - rewrite E. naive_solver.
  - rewrite IH. naive_solver.
Qed.

Lemma renew_NoDup slot now l :
  NoDup ((λ p, slot_index p.1) <$> l) → NoDup ((λ p, slot_index p.1) <$> renew_timestamp slot now l).
Proof.
  induction l as [|[s ts] l IH]; cbn [renew_timestamp]; [intros _; repeat constructor; by apply not_elem_of_nil|].
  rewrite fmap_cons, NoDup_cons. cbn [fst]. intros [Hs Hl].
  destruct (Nat.eqb_spec (slot_index s) (slot_index slot)) as [E|E]; rewrite fmap_cons, NoDup_cons; cbn [fst]; [done|].
  split; [|by apply IH]. rewrite renew_slots. naive_solver.
Qed.

Lemma renew_elem slot now l q :
  q ∈ renew_timestamp slot now l → q ∈ l ∨ q = (slot, now).
Proof.
  induction l as [|[s ts] l IH]; cbn [renew_timestamp]; [intros ->%list_elem_of_singleton; by right|].
  destruct (Nat.eqb_spec (slot_index s) (slot_index slot)) as [E|E]; rewrite !elem_of_cons.
  - assert (s = slot) as -> by (destruct s, slot; cbn in E; by subst). naive_solver.
  - intros [->|[?|?]%IH]; naive_solver.
Qed.

Lemma record_missing_inv now slot e : neg_inv e → neg_inv (ca_record_missing now slot e).
Proof.
  intros [Hnd Hiff]. split; [by apply renew_NoDup|]. intros s. cbn. unfold neg_slots. cbn.
  rewrite renew_slots. fold (neg_slots e). rewrite <- Hiff, !is_missing_testbit. cbn.
  rewrite N.lor_spec, slot_bit_testbit, orb_true_iff, N.eqb_eq, Nat2N.inj_iff. naive_solver.
Qed.

Lemma empty_neg_inv status p tier now : neg_inv (mkCached new_availability [] status p tier now).
Proof.
  split; [constructor|]. intros s. rewrite is_missing_testbit. cbn. split; [|by intros ?%elem_of_nil].
  by destruct (slot_index s).
Qed.

(** ** Runs *)

(** The sections of a payload, with whether they are header blocks. *)
Definition sections (p : CachedPayload) : list (bool * bytes) :=
  match p with
  | CpArticle _ headers body => [(true, headers); (false, body)]
  | CpHead _ headers => [(true, headers)]
  | CpBody _ body => [(false, body)]
  | CpMissing | CpAvailabilityOnly | CpStat _ => []
  end.

(** An entry that can answer ARTICLE came from a 220 response. *)
Definition status_agrees (e : CachedArticle) : Prop :=
  ∀ n h b, ca_payload e = CpArticle n h b → as_u16 (ca_status e) = 220%N.

Section Runs.
Context {MC : Memchr} {MS : MemchrSpec MC}.

(** Every ingested response is one the framer found complete. *)
Definition captures_complete (op : CacheOp) : Prop :=
  match op with
  | OpIngest _ status line chunks payload_end _ _ => complete_capture status line chunks payload_end
  | _ => True
  end.

(** A section of a response that was ingested for the key. *)
Definition ingested (ops : list (CacheOp * N)) (key : bytes) (x : bool * bytes) : Prop :=
  ∃ status line chunks payload_end slot tier now,
    (OpIngest key status line chunks payload_end slot tier, now) ∈ ops ∧
    x ∈ sections (parse_framed_chunked_payload status (length line) chunks payload_end).

Record entry_inv (ops : list (CacheOp * N)) (key : bytes) (e : CachedArticle) : Prop := {
  ei_neg : neg_inv e;
  ei_recorded : ∀ p, p ∈ ca_negative e → (OpMissing key p.1, p.2) ∈ ops;
  ei_ok : payload_ok (ca_payload e);
  ei_status : status_agrees e;
  ei_sections : ∀ x, x ∈ sections (ca_payload e) → ingested ops key x }.

Lemma ingested_mono ops ops' key x : ops ⊆ ops' → ingested ops key x → ingested ops' key x.
Proof. intros Hs (st & li & ch & pe & sl & ti & now & Hin & Hx). exists st, li, ch, pe, sl, ti, now. split; [by apply Hs|done]. Qed.

Lemma entry_inv_mono ops ops' key e : ops ⊆ ops' → entry_inv ops key e → entry_inv ops' key e.
Proof.
  intros Hs [H1 H2 H3 H4 H5]. constructor; [done| |done|done|].
  - intros p Hp. by apply Hs, H2.
  - intros x Hx. eapply ingested_mono; [done|by apply H5].
Qed.

Lemma entry_inv_content ops key e status p tier ins :
  entry_inv ops key e → payload_ok p → (∀ n h b, p = CpArticle n h b → as_u16 status = 220%N) →
  (∀ x, x ∈ sections p → ingested ops key x) →
  entry_inv ops key (set_content e status p tier ins).
Proof. intros [H1 H2 _ _ _] Hp Hs Hx. by constructor. Qed.

Lemma entry_inv_expire ops key now ttl e : entry_inv ops key e → entry_inv ops key (ca_expire_stale now ttl e).
Proof.
  intros [H1 H2 H3 H4 H5]. constructor; [by apply expire_stale_inv| |done|done|done].
  intros p [_ Hp]%list_elem_of_filter. by apply H2.
Qed.

Lemma entry_inv_fresh ops key now ttl maybe e :
  (∀ e, maybe = Some e → entry_inv ops key e) → fresh_entry_for_mutation now ttl maybe = Some e → entry_inv ops key e.
Proof.
  intros Hm. destruct maybe as [e0|]; [|done]. cbn. destruct (negb _); [|done]. intros [= <-].
  apply entry_inv_expire, Hm, eq_refl.
Qed.

Lemma merged_sections l r p x :
  merge_payloads l r = Some p → x ∈ sections p → x ∈ sections l ∨ x ∈ sections r.
Proof. destruct l, r; cbn; try done; intros [= <-]; cbn; rewrite !elem_of_cons; set_solver. Qed.

Lemma entry_inv_new ops key now status line chunks payload_end slot tier :
  (OpIngest key status line chunks payload_end slot tier, now) ∈ ops →
  complete_capture status line chunks payload_end →
  entry_inv ops key (from_framed_chunked_with_tier now status (length line) chunks payload_end tier).
Proof.
  intros Hin Hc. constructor; [apply empty_neg_inv|by intros p ?%elem_of_nil|by apply framed_payload_ok| |].
  { intros n h b. cbn. unfold parse_framed_chunked_payload, payload_for_status_owned. repeat case_match; done. }
  intros x Hx. by exists status, line, chunks, payload_end, slot, tier, now.
Qed.

Lemma entry_inv_plain ops key status p tier now :
  sections p = [] → payload_ok p → entry_inv ops key (mkCached new_availability [] status p tier now).
Proof.
  intros Hs Hp. constructor; [apply empty_neg_inv|by intros q ?%elem_of_nil|done|by destruct p|]. cbn. rewrite Hs. by intros x ?%elem_of_nil.
Qed.

Lemma entry_inv_ingest ops key now ttl maybe new slot :
  (∀ e, maybe = Some e → entry_inv ops key e) → entry_inv ops key new →
  entry_inv ops key (merge_ingest_entry now ttl maybe new slot).
Proof.
  intros Hm Hn. unfold merge_ingest_entry.
  destruct (fresh_entry_for_mutation now ttl maybe) as [e|] eqn:Ef; [|done].
  pose proof (entry_inv_fresh _ _ _ _ _ _ Hm Ef) as He. destruct (is_missing_slot _ _); [done|].
  unfold merge_compatible_sections. destruct (merge_payloads _ _) as [p|] eqn:Ep; cbn [mbind option_bind].
  - apply entry_inv_content; [done|eapply merge_payloads_ok; [apply He|apply Hn|done]|done|].
    intros x [Hx|Hx]%(merged_sections _ _ _ _ Ep); [by apply He|by apply Hn].
  - destruct (should_replace e new); [|done]. apply entry_inv_content; [done|apply Hn|apply Hn|apply Hn].
Qed.

Lemma entry_inv_status ops key now ttl maybe status slot tier :
  (∀ e, maybe = Some e → entry_inv ops key e) →
  entry_inv ops key (merge_backend_has_status_entry now ttl maybe status slot tier) ∧
  entry_inv ops key (merge_backend_stat_entry now ttl maybe slot tier).
Proof.
  intros Hm. unfold merge_backend_has_status_entry, merge_backend_stat_entry.
  assert (∀ d, sections (ca_payload d) = [] → entry_inv ops key d →
    entry_inv ops key (default d (fresh_entry_for_mutation now ttl maybe))) as Hd.
  { intros d _ Hd. destruct (fresh_entry_for_mutation now ttl maybe) as [e|] eqn:Ef; [|done].
    by eapply entry_inv_fresh. }
  pose proof (Hd (availability_only_entry now status tier) eq_refl ltac:(by apply entry_inv_plain)) as H1.
  pose proof (Hd (stat_entry now tier) eq_refl ltac:(by apply entry_inv_plain)) as H2.
  split; (destruct (is_missing_slot _ _); [done|]); destruct (without_section _);
    (apply entry_inv_content; [done|by (apply H1 || apply H2 || idtac)|by (apply H1 || apply H2 || idtac)
      |by (apply H1 || apply H2 || intros x ?%elem_of_nil)]).
Qed.

Lemma entry_inv_missing ops key now ttl maybe slot :
  (∀ e, maybe = Some e → entry_inv ops key e) → (OpMissing key slot, now) ∈ ops →
  entry_inv ops key (merge_availability_missing_entry now ttl maybe slot).
Proof.
  intros Hm Hin. assert (∀ e, entry_inv ops key e → entry_inv ops key (ca_record_missing now slot e)) as Hr.
  { intros e [H1 H2 H3 H4 H5]. constructor; [by apply record_missing_inv| |done|done|done].
    intros p [Hp| ->]%renew_elem; [by apply H2|done]. }
  unfold merge_availability_missing_entry. destruct (fresh_entry_for_mutation now ttl maybe) as [e|] eqn:Ef.
  - apply Hr. by eapply entry_inv_fresh.
  - apply Hr. by apply entry_inv_plain.
Qed.

Definition cache_inv (ops : list (CacheOp * N)) (c : gmap bytes CachedArticle) : Prop :=
  ∀ key e, c !! key = Some e → entry_inv ops key e.

Lemma cache_step_inv ttl now op ops c :
  captures_complete op → cache_inv ops c → cache_inv (ops ++ [(op, now)]) (cache_step ttl now op c).
Proof.
  intros Hop Hc. assert (cache_inv (ops ++ [(op, now)]) c) as Hc'.
  { intros key e He. eapply entry_inv_mono; [|by apply Hc]. set_solver. }
  assert ((op, now) ∈ ops ++ [(op, now)]) as Hin by (apply elem_of_app; right; by apply list_elem_of_singleton).
  clear Hc. set (ops' := ops ++ [(op, now)]) in *. clearbody ops'.
  assert (∀ key e, entry_inv ops' key e → cache_inv ops' (<[key := e]> c)) as Hins.
  { intros key e He k' e'. rewrite lookup_insert_Some. intros [[<- <-]|[_ ?]]; [done|by apply Hc']. }
  destruct op; cbn [cache_step captures_complete] in *.
  - apply Hins, entry_inv_ingest; [by intros; apply Hc'|by eapply entry_inv_new].
  - apply Hins. eapply entry_inv_status. by intros; apply Hc'.
  - apply Hins. eapply (entry_inv_status _ _ _ _ _ (mkStatusCode 223)). by intros; apply Hc'.
  - apply Hins, entry_inv_missing; [by intros; apply Hc'|done].
  - unfold get_by_cache_key. destruct (c !! key); [|done]. destruct (negb _); cbn; [done|].
    intros k' e'. rewrite lookup_delete_Some. intros [_ ?]. by apply Hc'.
  - intros k' e'. rewrite lookup_delete_Some. intros [_ ?]. by apply Hc'.
Qed.

Lemma run_cache_inv ttl ops : Forall captures_complete ops.*1 → cache_inv ops (run_cache ttl ops ∅).
Proof.
  induction ops as [|[op now] ops IH] using rev_ind; intros Hf; [by intros key e|].
  rewrite fmap_app, Forall_app in Hf. destruct Hf as [Hf [Ho _]%Forall_cons]. unfold run_cache.
  rewrite foldl_app. cbn [foldl]. by apply cache_step_inv, IH.
Qed.

Lemma get_entry ttl now key c e ops :
  cache_inv ops c → (get_by_cache_key now ttl key c).1 = Some e →
  entry_inv ops key e ∧ ∀ p, p ∈ ca_negative e → is_expired now p.2 ttl 0 = false.
Proof.
  intros Hc. unfold get_by_cache_key. destruct (c !! key) as [e0|] eqn:E; [|done]. destruct (negb _); [|done].
  intros [= <-]. split; [by apply entry_inv_expire, Hc|]. intros p [Hp _]%list_elem_of_filter. done.
Qed.
End Runs.

(** ** Properties *)

Lemma not_expired_age now ts ttl : is_expired now ts ttl 0 = false → (now - ts < ttl)%N.
Proof.
  unfold is_expired, effective_ttl, sat_mul64. rewrite N.leb_gt. cbn [capped_tier N.ltb N.compare].
  change (N.shiftl 1 (capped_tier 0)) with 1%N. rewrite N.mul_1_r. lia.
Qed.

Lemma missing_recorded {MC : Memchr} {MS : MemchrSpec MC} ttl ops now key e s :
  Forall captures_complete ops.*1 → (get_by_cache_key now ttl key (run_cache ttl ops ∅)).1 = Some e →
  is_missing_slot (ca_availability e) s = true → ∃ τ, (OpMissing key s, τ) ∈ ops ∧ (now - τ < ttl)%N.
Proof.
  intros Hf Hg Hs. destruct (get_entry _ _ _ _ _ _ (run_cache_inv ttl ops Hf) Hg) as [[[_ Hiff] Hrec _ _ _] Hexp].
  apply Hiff, list_elem_of_fmap in Hs as ([s' ts] & E & Hp). cbn in E.
  assert (s' = s) as -> by (destruct s', s; cbn in E; by subst).
  exists ts. split; [by apply (Hrec _ Hp)|]. by apply not_expired_age, (Hexp _ Hp).
Qed.

(** The sections a response is made of. *)
Definition wire_sections (w : CachedResponseWire) : list (bool * bytes) :=
  match wire_payload w with
  | WireNone => []
  | WireArticle headers body => [(true, headers); (false, body)]
  | WireHead headers => [(true, headers)]
  | WireBody body => [(false, body)]
  end.

Lemma served_sections p k mid w : cached_response_for_payload p k mid = Some w → wire_sections w ⊆ sections p.
Proof.
  unfold cached_response_for_payload. destruct k, p; try done; destruct (stack_status_line _ _ _); cbn; try done;
    intros [= <-]; unfold wire_sections; cbn; set_solver.
Qed.

(** The cache never invents a miss: when a lookup reports that a provider
    slot misses the article, that slot was recorded missing for that very key,
    less than the TTL ago, whatever updates, expiries and evictions happened in
    between. *)
Theorem cached_miss_recorded {MC : Memchr} {MS : MemchrSpec MC} ttl ops now key e s :
  Forall captures_complete ops.*1 →
  (get_by_cache_key now ttl key (run_cache ttl ops ∅)).1 = Some e →
  is_missing_slot (ca_availability e) s = true →
  ∃ τ, (OpMissing key s, τ) ∈ ops ∧ (now - τ < ttl)%N.
Proof. apply missing_recorded. Qed.

Lemma cached_miss_recorded_witness :
  ∃ τ, (OpMissing (bs "a@b") (mkSlot 3), τ) ∈ [(OpMissing (bs "a@b") (mkSlot 3), 100%N); (OpStat (bs "a@b") (mkSlot 1) 0, 200%N)] ∧
    (1000 - τ < 1000)%N.
Proof.
  apply (cached_miss_recorded (MC := naive_memchr) (MS := naive_memchr_spec) 1000
    [(OpMissing (bs "a@b") (mkSlot 3), 100%N); (OpStat (bs "a@b") (mkSlot 1) 0, 200%N)] 1000 (bs "a@b")
    (mkCached (mkAvailability 8) [(mkSlot 3, 100%N)] (mkStatusCode 223) (CpStat None) 0 200) (mkSlot 3)).
  - repeat constructor.
  - vm_compute. reflexivity.
  - vm_compute. reflexivity.
Defined.

(** C22 The cache serves only what backends sent for the key: a response built
    from a looked-up entry is one complete reply to its request, its header
    block and its body are each a section of a response that was ingested for
    that key, and nothing else but the status line and the separator is added. *)
Theorem cached_response_provenance {MC : Memchr} {MS : MemchrSpec MC} ttl ops now key e k mid w :
  Forall captures_complete ops.*1 →
  (get_by_cache_key now ttl key (run_cache ttl ops ∅)).1 = Some e →
  validate_message_id mid = Ok () → cached_response_for e k mid = Some w →
  reply_end k (write_to w) = Some (length (write_to w)) ∧
  ∀ x, x ∈ wire_sections w → ingested ops key x.
Proof.
  intros Hf Hg Hm Hw. destruct (get_entry _ _ _ _ _ _ (run_cache_inv ttl ops Hf) Hg) as [[_ _ Hok _ Hsec] _].
  split; [|intros x Hx; by apply Hsec, (served_sections _ _ _ _ Hw)].
  pose proof (served_complete (ca_payload e) k mid Hok Hm) as H. unfold cached_response_for in Hw.
  rewrite Hw in H. by destruct H as (_ & _ & _ & ?).
Qed.

(** A HEAD and a BODY response are merged, and the article is served. *)
Definition sample_ingests : list (CacheOp * N) :=
  [(OpIngest (bs "a@b") (mkStatusCode 221) (bs "221 7 <a@b>" ++ CRLF)
      [bs "221 7 <a@b>" ++ CRLF; sample_headers ++ DOT_TERMINATOR] 19 (mkSlot 0) 0, 100%N);
   (OpIngest (bs "a@b") (mkStatusCode 222) (bs "222 0 <a@b>" ++ CRLF)
      [bs "222 0 <a@b>" ++ CRLF ++ sample_body ++ DOT_TERMINATOR] 20 (mkSlot 1) 1, 200%N)].

Lemma sample_ingests_complete : Forall captures_complete sample_ingests.*1.
Proof.
  repeat constructor; cbn; eexists; (split; [reflexivity|intros _]).
  - exists sample_headers. split_and!; [reflexivity| |reflexivity]. apply complete_section_dec; vm_compute; reflexivity.
  - exists sample_body. split_and!; [reflexivity| |reflexivity]. apply complete_section_dec; vm_compute; reflexivity.
Qed.

Lemma cached_response_provenance_witness :
  reply_end Article (bs "220 0 <a@b>" ++ CRLF ++ sample_headers ++ CRLF ++ sample_body ++ DOT_TERMINATOR) =
  Some (length (bs "220 0 <a@b>" ++ CRLF ++ sample_headers ++ CRLF ++ sample_body ++ DOT_TERMINATOR)).
Proof.
  refine (proj1 (cached_response_provenance (MC := naive_memchr) (MS := naive_memchr_spec) 1000 sample_ingests 300
    (bs "a@b") (mkCached (mkAvailability 0) [] (mkStatusCode 220) (CpArticle None sample_headers sample_body) 1 200)
    Article (bs "<a@b>")
    (mkWire (mkStatusCode 220) (bs "220 0 <a@b>" ++ CRLF) (WireArticle sample_headers sample_body))
    sample_ingests_complete _ _ _)); vm_compute; reflexivity.
Defined.

(** An article whose response had neither headers nor a body. *)
Definition empty_article (p : CachedPayload) : bool :=
  match p with CpArticle _ [] [] => true | _ => false end.

Lemma replaced_useful p q :
  (∀ n h b, p ≠ CpArticle n h b) → merge_payloads p q = None →
  keep_same_completeness (payload_len p) (payload_len q) p q = false →
  N.land (answer_bits p) (answer_bits q) = answer_bits p.
Proof.
  intros Hp Hm Hk. unfold keep_same_completeness in Hk. apply orb_false_iff in Hk as [Hl%Nat.ltb_ge Hu].
  destruct p as [| |n h b|n h|n b|n]; [done|done|by destruct (Hp n h b)|..]; destruct q; try done; cbn in Hl, Hu; exfalso.
  all: first [rewrite (proj2 (Nat.eqb_eq _ _)) in Hu by lia; done | done].
Qed.

(** [e'] answers every request that [e] answers. *)
Definition answers_more (e e' : CachedArticle) : Prop :=
  N.land (answer_bits (ca_payload e)) (answer_bits (ca_payload e')) = answer_bits (ca_payload e).

Lemma complete_article_bits e : is_complete_article e = true → answer_bits (ca_payload e) = 15%N.
Proof. unfold is_complete_article, payload_is_complete_article. destruct (negb _); [done|]. by destruct (ca_payload e). Qed.

Lemma should_replace_useful e new :
  status_agrees e → empty_article (ca_payload e) = false → merge_payloads (ca_payload e) (ca_payload new) = None →
  should_replace e new = true →
  N.land (answer_bits (ca_payload e)) (answer_bits (ca_payload new)) = answer_bits (ca_payload e).
Proof.
  intros Hs He Hm Hr. unfold should_replace in Hr.
  destruct (is_complete_article new) eqn:En; [rewrite (complete_article_bits _ En); by destruct (ca_payload e)|].
  destruct (is_complete_article e) eqn:Ee; [done|]. apply negb_true_iff in Hr. apply replaced_useful; [|done|done].
  intros n h b E. unfold is_complete_article, payload_is_complete_article in Ee.
  rewrite (Hs _ _ _ E), E in Ee. rewrite E in He. cbn in Ee. by destruct h, b.
Qed.

(** An update never makes an entry less useful and never forgets a miss: as
    long as the entry has not expired, after the ingest of a response, a
    status-only success, a STAT or a 430 it answers every request it answered
    before (an article without headers and body apart, which a longer section
    may replace), and it still reports every slot whose 430 is younger than the
    TTL. *)
Theorem update_monotone {MC : Memchr} {MS : MemchrSpec MC} ops now ttl key e new status slot tier :
  Forall captures_complete ops.*1 → run_cache ttl ops ∅ !! key = Some e →
  ca_is_expired now ttl e = false → empty_article (ca_payload e) = false →
  Forall (λ e', answers_more e e' ∧
      ∀ s ts, (s, ts) ∈ ca_negative e → (now - ts < ttl)%N → (ttl <= u64_max)%N →
        is_missing_slot (ca_availability e') s = true)
    [merge_ingest_entry now ttl (Some e) new slot;
     merge_backend_has_status_entry now ttl (Some e) status slot tier;
     merge_backend_stat_entry now ttl (Some e) slot tier;
     merge_availability_missing_entry now ttl (Some e) slot].
Proof.
  intros Hf Hlk Hexp He. destruct (run_cache_inv ttl ops Hf key e Hlk) as [Hneg _ _ Hst _]. clear Hf Hlk. set (e1 := ca_expire_stale now ttl e).
  assert (fresh_entry_for_mutation now ttl (Some e) = Some e1) as Hf.
  { unfold fresh_entry_for_mutation. cbn. unfold ca_is_expired in *. cbn. by rewrite Hexp. }
  assert (∀ p, N.land (answer_bits p) (answer_bits p) = answer_bits p) as Hrefl by (by intros []).
  assert (∀ s ts, (s, ts) ∈ ca_negative e → (now - ts < ttl)%N → (ttl <= u64_max)%N →
    is_missing_slot (ca_availability e1) s = true) as Hkeep.
  { intros s ts Hin Hage Hu. apply (expire_stale_inv now ttl e Hneg). apply list_elem_of_fmap. exists (s, ts).
    split; [done|]. apply list_elem_of_filter. split; [|done]. unfold is_expired, effective_ttl, sat_mul64. cbn [snd].
    change (N.shiftl 1 (capped_tier 0)) with 1%N. rewrite N.mul_1_r, N.min_l, N.leb_gt by done. done. }
  constructor; [|constructor; [|constructor; [|constructor; [|constructor]]]].
  - unfold merge_ingest_entry. rewrite Hf. destruct (is_missing_slot _ _); [by split; [apply Hrefl|]|].
    unfold merge_compatible_sections. destruct (merge_payloads _ _) as [p|] eqn:Em; cbn [mbind option_bind].
    { split; [|done]. unfold answers_more. cbn in *. by destruct (ca_payload e), (ca_payload new); simplify_eq/=. }
    destruct (should_replace e1 new) eqn:Er; [|by split; [apply Hrefl|]]. split; [|done].
    by apply (should_replace_useful e1 new).
  - unfold merge_backend_has_status_entry. rewrite Hf. cbn [default from_option].
    destruct (is_missing_slot _ _); [by split; [apply Hrefl|]|].
    destruct (without_section _) eqn:Ew; (split; [|done]); [|apply Hrefl]. unfold answers_more. cbn in *. by destruct (ca_payload e).
  - unfold merge_backend_stat_entry. rewrite Hf. cbn [default from_option].
    destruct (is_missing_slot _ _); [by split; [apply Hrefl|]|].
    destruct (without_section _) eqn:Ew; (split; [|done]); [|apply Hrefl]. unfold answers_more. cbn in *. by destruct (ca_payload e).
  - unfold merge_availability_missing_entry. rewrite Hf. split; [apply Hrefl|]. intros s ts Hin Hage Hu.
    rewrite is_missing_testbit. cbn. rewrite N.lor_spec, <- (is_missing_testbit (ca_availability e1)).
    by rewrite (Hkeep s ts Hin Hage Hu).
Qed.

Lemma update_monotone_witness :
  is_missing_slot (ca_availability (merge_backend_stat_entry 500 1000
    (Some (mkCached (mkAvailability 8) [(mkSlot 3, 100%N)] (mkStatusCode 223) (CpStat None) 0 200))
    (mkSlot 1) 0)) (mkSlot 3) = true.
Proof.
  pose (e := mkCached (mkAvailability 8) [(mkSlot 3, 100%N)] (mkStatusCode 223) (CpStat None) 0 200).
  pose proof (update_monotone (MC := naive_memchr) (MS := naive_memchr_spec)
    [(OpMissing (bs "a@b") (mkSlot 3), 100%N); (OpStat (bs "a@b") (mkSlot 1) 0, 200%N)] 500 1000 (bs "a@b") e e
    (mkStatusCode 223) (mkSlot 1) 0 ltac:(repeat constructor) ltac:(vm_compute; reflexivity)
    ltac:(vm_compute; reflexivity) eq_refl) as H.
  apply (proj2 (proj1 (Forall_forall _ _) H (merge_backend_stat_entry 500 1000 (Some e) (mkSlot 1) 0) ltac:(right; right; left))
    (mkSlot 3) 100%N).
  - left.
  - vm_compute. reflexivity.
  - discriminate.
Defined.
