(* ===== verification/Disk.v ===== *)
(** * Disk: entries of the hybrid cache and their binary format

    Models [DiskCachedArticle] of [src/src/cache/hybrid_codec.rs]: the entry the
    hybrid cache stores, its updates, and the versioned binary format that
    [foyer]'s [Code] trait writes to and reads from the disk.  The versions V6 to
    V8 are read and upgraded, V9 is written. *)

From S2P Require Import Prelude Wire Availability Protocol Request Scanner Framer Tracker Article Cache.

(** ** Entries *)

(** A [u16] enum: only these responses are cacheable. *)
Inductive CacheableStatusCode := CsArticle | CsHead | CsBody | CsStat | CsMissing.

#[global] Instance CacheableStatusCode_eq_dec : EqDecision CacheableStatusCode.
Proof. solve_decision. Defined.

Definition cacheable_as_u16 (s : CacheableStatusCode) : N :=
  match s with CsArticle => 220 | CsHead => 221 | CsBody => 222 | CsStat => 223 | CsMissing => 430 end.

Definition cacheable_try_from (code : N) : option CacheableStatusCode :=
  match code with
  | 220%N => Some CsArticle
  | 221%N => Some CsHead
  | 222%N => Some CsBody
  | 223%N => Some CsStat
  | 430%N => Some CsMissing
  | _ => None
  end.

Record DiskCachedArticle := mkDisk {
  d_status : CacheableStatusCode;
  d_epoch : N;
  d_availability : ArticleAvailability;
  d_negative : list N;
  d_timestamp : N;
  d_tier : N;
  d_payload : CachedPayload }.

(** [MAX_BACKENDS] slots, all zero. *)
Definition no_timestamps : list N := replicate USIZE_BITS 0%N.

Definition new_disk_entry (now : N) (status : CacheableStatusCode) (p : CachedPayload) (tier : N)
    : DiskCachedArticle :=
  mkDisk status 0 new_availability no_timestamps now tier p.

Definition disk_availability_only (now : N) (status : CacheableStatusCode) (tier : N) : DiskCachedArticle :=
  new_disk_entry now status CpAvailabilityOnly tier.

Definition disk_stat (now tier : N) : DiskCachedArticle := new_disk_entry now CsStat (CpStat None) tier.

Definition disk_missing (now tier : N) : DiskCachedArticle := new_disk_entry now CsMissing CpMissing tier.

Definition disk_from_framed {MC : Memchr} (now : N) (status : StatusCode) (status_end : nat)
    (chunks : list bytes) (payload_end : nat) (tier : N) : option DiskCachedArticle :=
  code ← cacheable_try_from (as_u16 status);
  Some (new_disk_entry now code (parse_framed_chunked_payload status status_end chunks payload_end) tier).

Definition disk_record_missing (now : N) (slot : AvailabilitySlot) (d : DiskCachedArticle) : DiskCachedArticle :=
  mkDisk (d_status d) (d_epoch d) (record_missing_slot (d_availability d) slot)
    (<[slot_index slot := now]> (d_negative d)) (d_timestamp d) (d_tier d) (d_payload d).

Definition set_availability_epoch (epoch : N) (d : DiskCachedArticle) : DiskCachedArticle :=
  mkDisk (d_status d) epoch (d_availability d) (d_negative d) (d_timestamp d) (d_tier d) (d_payload d).

Definition clear_availability (d : DiskCachedArticle) : DiskCachedArticle :=
  mkDisk (d_status d) (d_epoch d) new_availability no_timestamps (d_timestamp d) (d_tier d) (d_payload d).

(** The availability of another entry is kept when its content is replaced. *)
Definition with_availability (d from : DiskCachedArticle) : DiskCachedArticle :=
  mkDisk (d_status d) (d_epoch d) (d_availability from) (d_negative from) (d_timestamp d) (d_tier d) (d_payload d).

Definition disk_merge_sections (now : N) (d other : DiskCachedArticle) : option DiskCachedArticle :=
  p ← merge_payloads (d_payload d) (d_payload other);
  Some (mkDisk CsArticle (d_epoch d) (d_availability d) (d_negative d) now
          (N.max (d_tier d) (d_tier other)) p).

(** One index of [expire_stale_availability]: the test reads the availability of
    the entry, the updates accumulate in the bits and the timestamps. *)
Definition expire_slot (now ttl : N) (d : DiskCachedArticle) (acc : N * list N) (index : nat) : N * list N :=
  match slot_new index with
  | None => acc
  | Some slot =>
      if is_missing_slot (d_availability d) slot && is_expired now (acc.2 !!! index) ttl 0
      then (clear_slot_bit acc.1 slot, <[index := 0%N]> acc.2)
      else acc
  end.

Definition disk_expire_stale (now ttl : N) (d : DiskCachedArticle) : DiskCachedArticle :=
  let '(bits, negative) :=
    foldl (expire_slot now ttl d) (missing_bits (d_availability d), d_negative d) (seq 0 USIZE_BITS) in
  mkDisk (d_status d) (d_epoch d) (from_missing_bits bits) negative (d_timestamp d) (d_tier d) (d_payload d).

Definition disk_record_has_status (now : N) (status : CacheableStatusCode) (tier : N) (d : DiskCachedArticle)
    : DiskCachedArticle :=
  if without_section (d_payload d)
  then mkDisk status (d_epoch d) (d_availability d) (d_negative d) now tier CpAvailabilityOnly
  else mkDisk (d_status d) (d_epoch d) (d_availability d) (d_negative d) now (d_tier d) (d_payload d).

Definition disk_record_stat (now tier : N) (d : DiskCachedArticle) : DiskCachedArticle :=
  if without_section (d_payload d)
  then mkDisk CsStat (d_epoch d) (d_availability d) (d_negative d) now tier (CpStat None)
  else mkDisk (d_status d) (d_epoch d) (d_availability d) (d_negative d) now (d_tier d) (d_payload d).

Definition disk_is_complete_article (d : DiskCachedArticle) : bool :=
  payload_is_complete_article (mkStatusCode (cacheable_as_u16 (d_status d))) (d_payload d).

Definition keep_over_same_completeness (d new : DiskCachedArticle) : bool :=
  keep_same_completeness (payload_len (d_payload d)) (payload_len (d_payload new)) (d_payload d) (d_payload new).

Definition disk_is_expired (now ttl : N) (d : DiskCachedArticle) : bool :=
  is_expired now (d_timestamp d) ttl (d_tier d).

(** One index of the [filter_map] of [into_cached_article]. *)
Definition slot_timestamp (d : DiskCachedArticle) (index : nat) : option (AvailabilitySlot * N) :=
  slot ← slot_new index;
  ts ← d_negative d !! index;
  if is_missing_slot (d_availability d) slot then Some (slot, ts) else None.

Definition into_cached_article (d : DiskCachedArticle) : CachedArticle :=
  mkCached (d_availability d) (omap (slot_timestamp d) (seq 0 (length (d_negative d))))
    (mkStatusCode (cacheable_as_u16 (d_status d))) (d_payload d) (d_tier d) (d_timestamp d).

(** ** The binary format *)

Definition DISK_ENTRY_MAGIC_V6 : N := 0x4e504336.
Definition DISK_ENTRY_MAGIC_V7 : N := 0x4e504337.
Definition DISK_ENTRY_MAGIC_V8 : N := 0x4e504338.
Definition DISK_ENTRY_MAGIC_V9 : N := 0x4e504339.

(** [PAYLOAD_MISSING] to [PAYLOAD_STAT]. *)
Definition PAYLOAD_MISSING : N := 0.
Definition PAYLOAD_AVAILABILITY_ONLY : N := 1.
Definition PAYLOAD_ARTICLE : N := 2.
Definition PAYLOAD_HEAD : N := 3.
Definition PAYLOAD_BODY : N := 4.
Definition PAYLOAD_STAT : N := 5.
Definition NO_ARTICLE_NUMBER : N := u64_max.

(** [CachedSectionLen::MAX] *)
Definition SECTION_MAX : N := 4 * 1024 * 1024.

Definition write_article_number (n : option N) : bytes := to_le_bytes 8 (default NO_ARTICLE_NUMBER n).

Definition write_section (s : bytes) : result WireError bytes :=
  if (SECTION_MAX <? N.of_nat (length s))%N then Err InvalidLength
  else Ok (to_le_bytes 4 (N.of_nat (length s)) ++ s).

Definition encode_payload (p : CachedPayload) : result WireError bytes :=
  match p with
  | CpMissing => Ok (to_le_bytes 1 PAYLOAD_MISSING)
  | CpAvailabilityOnly => Ok (to_le_bytes 1 PAYLOAD_AVAILABILITY_ONLY)
  | CpStat n => Ok (to_le_bytes 1 PAYLOAD_STAT ++ write_article_number n)
  | CpArticle n headers body =>
      h ← write_section headers;
      b ← write_section body;
      Ok (to_le_bytes 1 PAYLOAD_ARTICLE ++ write_article_number n ++ h ++ b)
  | CpHead n headers =>
      h ← write_section headers; Ok (to_le_bytes 1 PAYLOAD_HEAD ++ write_article_number n ++ h)
  | CpBody n body =>
      b ← write_section body; Ok (to_le_bytes 1 PAYLOAD_BODY ++ write_article_number n ++ b)
  end.

(** [Code::encode] into a vector; a failed entry is not stored. *)
Definition encode (d : DiskCachedArticle) : result WireError bytes :=
  p ← encode_payload (d_payload d);
  Ok (to_le_bytes 4 DISK_ENTRY_MAGIC_V9 ++ to_le_bytes 2 (cacheable_as_u16 (d_status d)) ++
      to_le_bytes 8 (d_epoch d) ++ to_le_bytes 8 (missing_bits (d_availability d)) ++
      (d_negative d ≫= to_le_bytes 8) ++ to_le_bytes 8 (d_timestamp d) ++ to_le_bytes 1 (d_tier d) ++ p).

Definition read_article_number : Parser (option N) :=
  raw ← read_u64; mret (if (raw =? NO_ARTICLE_NUMBER)%N then None else Some raw).

Definition read_section : Parser bytes :=
  len ← read_u32;
  _ ← p_ensure InvalidLength (len <=? SECTION_MAX)%N;
  read_bytes (N.to_nat len).

Definition normalize_section (s : bytes) (legacy : bool) : bytes :=
  if legacy && negb (bool_decide (s = [])) then s ++ CRLF else s.

Definition read_normalized (legacy : bool) : Parser bytes :=
  s ← read_section; mret (normalize_section s legacy).

Definition decode_payload (legacy : bool) : Parser CachedPayload :=
  kind ← read_uint 1;
  match kind with
  | 0%N => mret CpMissing
  | 1%N => mret CpAvailabilityOnly
  | 5%N => n ← read_article_number; mret (CpStat n)
  | 2%N =>
      n ← read_article_number; h ← read_normalized legacy; b ← read_normalized legacy; mret (CpArticle n h b)
  | 3%N => n ← read_article_number; h ← read_normalized legacy; mret (CpHead n h)
  | 4%N => n ← read_article_number; b ← read_normalized legacy; mret (CpBody n b)
  | _ => p_fail InvalidKind
  end.

(** [Code::decode] *)
Definition decode : Parser DiskCachedArticle :=
  magic ← read_u32;
  let version v := (magic =? v)%N in
  let v8_or_v9 := version DISK_ENTRY_MAGIC_V8 || version DISK_ENTRY_MAGIC_V9 in
  _ ← p_ensure InvalidFormat (version DISK_ENTRY_MAGIC_V6 || version DISK_ENTRY_MAGIC_V7 || v8_or_v9);
  code ← read_u16;
  match cacheable_try_from code with
  | None => p_fail InvalidStatus
  | Some status =>
      epoch ← (if version DISK_ENTRY_MAGIC_V7 || v8_or_v9 then read_u64 else mret 0%N);
      missing ← read_u64;
      negative ← (if v8_or_v9 then read_many USIZE_BITS read_u64 else mret no_timestamps);
      timestamp ← read_u64;
      let negative := if negb v8_or_v9 then replicate USIZE_BITS timestamp else negative in
      tier ← read_uint 1;
      payload ← decode_payload (negb (version DISK_ENTRY_MAGIC_V9));
      mret (mkDisk status epoch (from_missing_bits missing) negative timestamp tier payload)
  end.

Definition encoded_payload_size (p : CachedPayload) : nat :=
  match p with
  | CpMissing | CpAvailabilityOnly => 1
  | CpStat _ => 1 + 8
  | CpArticle _ headers body => 1 + 8 + 4 + length headers + 4 + length body
  | CpHead _ headers => 1 + 8 + 4 + length headers
  | CpBody _ body => 1 + 8 + 4 + length body
  end.

Definition DISK_ENTRY_FIXED_SIZE : nat := 4 + 2 + 8 + 8 * USIZE_BITS + 8 + 8 + 1.

Definition encoded_len (d : DiskCachedArticle) : nat :=
  DISK_ENTRY_FIXED_SIZE + encoded_payload_size (d_payload d).

(** ** Round trip *)

Definition number_ok (n : option N) : Prop := ∀ v, n = Some v → (v < NO_ARTICLE_NUMBER)%N.

Definition payload_number_ok (p : CachedPayload) : Prop := number_ok (payload_article_number p).

(** The ranges of the fields' types, and a representable article number. *)
Record disk_ok (d : DiskCachedArticle) : Prop := {
  do_epoch : (d_epoch d < 2 ^ 64)%N;
  do_missing : (missing_bits (d_availability d) < 2 ^ 64)%N;
  do_slots : length (d_negative d) = USIZE_BITS;
  do_negative : Forall (λ ts, ts < 2 ^ 64)%N (d_negative d);
  do_timestamp : (d_timestamp d < 2 ^ 64)%N;
  do_tier : (d_tier d < 256)%N;
  do_number : payload_number_ok (d_payload d) }.

Definition section_fits (s : bytes) : Prop := (N.of_nat (length s) ≤ SECTION_MAX)%N.

(** Every section is within [CachedSectionLen::MAX]. *)
Definition sections_fit (p : CachedPayload) : Prop := Forall (λ x, section_fits x.2) (sections p).

Lemma cacheable_try_from_as_u16 s : cacheable_try_from (cacheable_as_u16 s) = Some s.
Proof. by destruct s. Qed.

Lemma cacheable_try_from_Some code s : cacheable_try_from code = Some s → code = cacheable_as_u16 s.
Proof.
  unfold cacheable_try_from. intros H.
  repeat match goal with H : match ?x with _ => _ end = Some _ |- _ => destruct x; try done end; by injection H as <-.
Qed.

Lemma write_section_cases s :
  (section_fits s ∧ write_section s = Ok (to_le_bytes 4 (N.of_nat (length s)) ++ s)) ∨
  (¬ section_fits s ∧ write_section s = Err InvalidLength).
Proof.
  unfold section_fits, write_section. destruct (N.ltb_spec SECTION_MAX (N.of_nat (length s))); [right|left]; split; (done || lia).
Qed.

Lemma write_section_ok s : section_fits s → write_section s = Ok (to_le_bytes 4 (N.of_nat (length s)) ++ s).
Proof. by destruct (write_section_cases s) as [[_ ->]|[? _]]. Qed.

Lemma reads_section s : section_fits s → reads read_section (to_le_bytes 4 (N.of_nat (length s)) ++ s) s.
Proof.
  unfold section_fits. intros H. unfold read_section. eapply reads_bind.
  - apply reads_u32. unfold SECTION_MAX in H. lia.
  - rewrite (proj2 (N.leb_le _ _)) by done. apply reads_ensure, reads_read_bytes. lia.
Qed.

Lemma reads_normalized legacy s :
  section_fits s → reads (read_normalized legacy) (to_le_bytes 4 (N.of_nat (length s)) ++ s) (normalize_section s legacy).
Proof.
  intros H. rewrite <- (app_nil_r (_ ++ s)). eapply reads_bind; [by apply reads_section|apply reads_ret].
Qed.

Lemma reads_article_number n : number_ok n → reads read_article_number (write_article_number n) n.
Proof.
  intros H. unfold write_article_number. rewrite <- (app_nil_r (to_le_bytes 8 _)). eapply reads_bind.
  - apply reads_u64. destruct n as [v|]; [specialize (H v eq_refl)|]; unfold NO_ARTICLE_NUMBER, u64_max in *; cbn [from_option id] in *; lia.
  - destruct n as [v|]; cbn [from_option id]; [|apply reads_ret].
    specialize (H v eq_refl). rewrite (proj2 (N.eqb_neq _ _)) by lia. apply reads_ret.
Qed.

(** What a legacy or a current section list becomes when it is decoded. *)
Definition normalize_payload (legacy : bool) (p : CachedPayload) : CachedPayload :=
  match p with
  | CpArticle n headers body => CpArticle n (normalize_section headers legacy) (normalize_section body legacy)
  | CpHead n headers => CpHead n (normalize_section headers legacy)
  | CpBody n body => CpBody n (normalize_section body legacy)
  | CpMissing | CpAvailabilityOnly | CpStat _ => p
  end.

Lemma normalize_current p : normalize_payload false p = p.
Proof. by destruct p. Qed.

Lemma reads_last {A B} (p : Parser A) (f : A → B) enc a : reads p enc a → reads (x ← p; mret (f x)) enc (f a).
Proof. intros H. rewrite <- (app_nil_r enc). eapply reads_bind; [done|apply reads_ret]. Qed.

Lemma reads_last_eq {A B} (p : Parser A) (f : A → B) enc a b :
  reads p enc a → f a = b → reads (x ← p; mret (f x)) enc b.
Proof. intros H <-. by apply reads_last. Qed.

Ltac read_fields :=
  repeat first
    [ apply reads_last; [by apply reads_article_number || by apply reads_normalized]
    | eapply reads_bind; [first [by apply (reads_uint 1) | by apply reads_article_number | by apply reads_normalized]|] ].

Lemma encode_payload_spec p :
  match encode_payload p with
  | Ok enc => sections_fit p ∧ length enc = encoded_payload_size p ∧
      (payload_number_ok p → ∀ legacy, reads (decode_payload legacy) enc (normalize_payload legacy p))
  | Err e => e = InvalidLength ∧ ¬ sections_fit p
  end.
Proof.
  unfold sections_fit, decode_payload.
  assert (∀ n, length (write_article_number n) = 8) as Hn by (intros; apply length_to_le_bytes).
  destruct p as [| |n h b|n h|n b|n]; cbn [encode_payload sections encoded_payload_size normalize_payload].
  1, 2: split_and!; [done|done|intros _ legacy];
    rewrite <- (app_nil_r (to_le_bytes 1 _)); read_fields; apply reads_ret.
  4: split_and!; [done|by rewrite length_app, Hn|intros Hok legacy]; read_fields.
  - destruct (write_section_cases h) as [[Hh ->]|[Hh ->]]; cbn [mbind result_bind].
    2: split; [done|]; by intros [? _]%Forall_cons.
    destruct (write_section_cases b) as [[Hb ->]|[Hb ->]]; cbn [mbind result_bind].
    2: split; [done|]; by intros [_ [? _]%Forall_cons]%Forall_cons.
    split_and!; [by repeat constructor| |intros Hok legacy; read_fields].
    rewrite !length_app, Hn, !length_to_le_bytes. lia.
  - destruct (write_section_cases h) as [[Hh ->]|[Hh ->]]; cbn [mbind result_bind].
    2: split; [done|]; by intros [? _]%Forall_cons.
    split_and!; [by repeat constructor| |intros Hok legacy; read_fields].
    rewrite !length_app, Hn, !length_to_le_bytes. lia.
  - destruct (write_section_cases b) as [[Hb ->]|[Hb ->]]; cbn [mbind result_bind].
    2: split; [done|]; by intros [? _]%Forall_cons.
    split_and!; [by repeat constructor| |intros Hok legacy; read_fields].
    rewrite !length_app, Hn, !length_to_le_bytes. lia.
Qed.

(** *** The versions of the format *)

Inductive Version := V6 | V7 | V8 | V9.

#[global] Instance Version_eq_dec : EqDecision Version.
Proof. solve_decision. Defined.

Definition version_magic (v : Version) : N :=
  match v with V6 => DISK_ENTRY_MAGIC_V6 | V7 => DISK_ENTRY_MAGIC_V7 | V8 => DISK_ENTRY_MAGIC_V8 | V9 => DISK_ENTRY_MAGIC_V9 end.

Definition has_timestamps (v : Version) : bool := match v with V6 | V7 => false | V8 | V9 => true end.

(** The documented layout of an entry whose payload is stored as [p]. *)
Definition stored_entry (v : Version) (d : DiskCachedArticle) (p : bytes) : bytes :=
  to_le_bytes 4 (version_magic v) ++ to_le_bytes 2 (cacheable_as_u16 (d_status d)) ++
  (match v with V6 => [] | _ => to_le_bytes 8 (d_epoch d) end) ++
  to_le_bytes 8 (missing_bits (d_availability d)) ++
  (if has_timestamps v then d_negative d ≫= to_le_bytes 8 else []) ++
  to_le_bytes 8 (d_timestamp d) ++ to_le_bytes 1 (d_tier d) ++ p.

(** The entry that is read back from it. *)
Definition upgraded (v : Version) (d : DiskCachedArticle) : DiskCachedArticle :=
  mkDisk (d_status d) (match v with V6 => 0 | _ => d_epoch d end) (d_availability d)
    (if has_timestamps v then d_negative d else replicate USIZE_BITS (d_timestamp d))
    (d_timestamp d) (d_tier d) (normalize_payload (bool_decide (v ≠ V9)) (d_payload d)).

Lemma encode_stored d : encode d = (p ← encode_payload (d_payload d); Ok (stored_entry V9 d p)).
Proof. done. Qed.

Lemma upgraded_current d : upgraded V9 d = d.
Proof. unfold upgraded. cbn. rewrite normalize_current. by destruct d. Qed.

Lemma decode_stored v d p :
  disk_ok d → reads (decode_payload (bool_decide (v ≠ V9))) p (normalize_payload (bool_decide (v ≠ V9)) (d_payload d)) →
  reads decode (stored_entry v d p) (upgraded v d).
Proof.
  intros [He Hm Hs Hn Ht Hti _] Hp. unfold decode, stored_entry.
  eapply reads_bind; [apply reads_u32; by destruct v|].
  replace (_ || _ || _) with true by (by destruct v). apply reads_ensure.
  eapply reads_bind; [apply reads_u16; by destruct (d_status d)|]. rewrite cacheable_try_from_as_u16.
  assert (reads (read_many USIZE_BITS read_u64) (d_negative d ≫= to_le_bytes 8) (d_negative d)) as Hneg.
  { rewrite <- Hs. apply reads_many. eapply Forall_impl; [exact Hn|]. intros ts Hts. by apply reads_u64. }
  destruct v; cbn [has_timestamps version_magic].
  1: eapply (reads_bind _ _ [] _ 0%N); [apply reads_ret|].
  2, 3, 4: eapply reads_bind; [by apply reads_u64|].
  all: eapply reads_bind; [by apply reads_u64|].
  1, 2: eapply (reads_bind _ _ [] _ no_timestamps); [apply reads_ret|].
  3, 4: eapply reads_bind; [exact Hneg|].
  all: eapply reads_bind; [by apply reads_u64|]; eapply reads_bind; [by apply (reads_uint 1)|].
  all: eapply reads_last_eq; [exact Hp|].
  all: unfold upgraded; by destruct (d_availability d).
Qed.

Lemma length_stored_entry d p : length (d_negative d) = USIZE_BITS → length (stored_entry V9 d p) = DISK_ENTRY_FIXED_SIZE + length p.
Proof.
  intros Hs. unfold stored_entry, DISK_ENTRY_FIXED_SIZE. cbn [has_timestamps].
  rewrite !length_app, !length_to_le_bytes.
  assert (∀ l : list N, length (l ≫= to_le_bytes 8) = 8 * length l) as ->.
  { induction l as [|x l IH]; [done|]. cbn [mbind list_bind]. rewrite length_app, length_to_le_bytes, IH. cbn [length]. lia. }
  rewrite Hs. unfold USIZE_BITS. lia.
Qed.


(** *** Every accepted input *)

Lemma read_article_number_inv data c n c' :
  read_article_number data c = Ok (n, c') → took data c c' (write_article_number n) ∧ number_ok n.
Proof.
  intros (raw & c1 & [Ht Hlt]%(read_uint_inv 8) & (-> & ->)%parser_ret_inv)%parser_bind_inv.
  unfold write_article_number, number_ok. destruct (N.eqb_spec raw NO_ARTICLE_NUMBER) as [->|Hne].
  - by split.
  - split; [done|]. intros v [= ->]. unfold NO_ARTICLE_NUMBER, u64_max in *. lia.
Qed.

Lemma read_normalized_inv legacy data c s c' :
  read_normalized legacy data c = Ok (s, c') →
  ∃ s0, s = normalize_section s0 legacy ∧ section_fits s0 ∧ took data c c' (to_le_bytes 4 (N.of_nat (length s0)) ++ s0).
Proof.
  intros (s0 & c1 & H & (-> & ->)%parser_ret_inv)%parser_bind_inv.
  apply parser_bind_inv in H as (len & c2 & [Hl _]%(read_uint_inv 4) & H).
  apply parser_bind_inv in H as (u & c3 & [Hle ->]%ensure_inv & [Hs Hlen]%read_bytes_inv).
  exists s0. unfold section_fits. apply N.leb_le in Hle. split_and!; [done|lia|].
  replace (N.of_nat (length s0)) with len by lia. by eapply took_app.
Qed.

Lemma decode_payload_inv legacy data c p c' :
  decode_payload legacy data c = Ok (p, c') →
  ∃ q enc, p = normalize_payload legacy q ∧ payload_number_ok q ∧ encode_payload q = Ok enc ∧ took data c c' enc.
Proof.
  intros (kind & c1 & [Hk _]%(read_uint_inv 1) & H)%parser_bind_inv.
  assert (c1 ≤ length data) as Hc1 by (by eapply took_le).
  repeat match type of H with match ?x with _ => _ end _ _ = _ => destruct x; try done end.
  all: repeat match goal with
         | H : (_ ≫= _) _ _ = Ok _ |- _ => apply parser_bind_inv in H as (? & ? & ? & ?)
         | H : mret _ _ _ = Ok _ |- _ => apply parser_ret_inv in H as (-> & ->)
         | H : read_article_number _ _ = Ok _ |- _ => apply read_article_number_inv in H as [? ?]
         | H : read_normalized _ _ _ = Ok _ |- _ => apply read_normalized_inv in H as (? & -> & ? & ?)
         end.
  all: match goal with
       | |- ∃ q _, CpArticle ?n (normalize_section ?h _) (normalize_section ?b _) = _ ∧ _ => exists (CpArticle n h b)
       | |- ∃ q _, CpHead ?n (normalize_section ?h _) = _ ∧ _ => exists (CpHead n h)
       | |- ∃ q _, CpBody ?n (normalize_section ?b _) = _ ∧ _ => exists (CpBody n b)
       | |- ∃ q _, ?p = _ ∧ _ => exists p
       end; eexists; split_and!; [done|done|cbn [encode_payload]; rewrite ?write_section_ok by done; done|].
  all: repeat (eapply took_app; [eassumption|]); (eassumption || (eapply took_app; eassumption)).
Qed.

Lemma decode_inv data c d c' :
  decode data c = Ok (d, c') →
  ∃ v d0 p, disk_ok d0 ∧ encode_payload (d_payload d0) = Ok p ∧ took data c c' (stored_entry v d0 p) ∧ d = upgraded v d0.
Proof.
  intros (magic & c1 & [Hmagic _]%(read_uint_inv 4) & H)%parser_bind_inv.
  apply parser_bind_inv in H as (u & c2 & [Hv ->]%ensure_inv & H).
  assert (∃ v, magic = version_magic v) as [v ->].
  { rewrite !orb_true_iff, !N.eqb_eq in Hv. destruct Hv as [[->| ->]|[->| ->]]; [by exists V6|by exists V7|by exists V8|by exists V9]. }
  apply parser_bind_inv in H as (code & c3 & [Hcode _]%(read_uint_inv 2) & H).
  destruct (cacheable_try_from code) as [status|] eqn:Es; [|done]. apply cacheable_try_from_Some in Es as ->.
  apply parser_bind_inv in H as (epoch & c4 & Hepoch & H).
  apply parser_bind_inv in H as (missing & c5 & [Hmiss Hmlt]%(read_uint_inv 8) & H).
  apply parser_bind_inv in H as (negative & c6 & Hneg & H).
  apply parser_bind_inv in H as (ts & c7 & [Hts Htlt]%(read_uint_inv 8) & H).
  apply parser_bind_inv in H as (tier & c8 & [Htier Htilt]%(read_uint_inv 1) & H).
  apply parser_bind_inv in H as (payload & c9 & Hp & (-> & ->)%parser_ret_inv).
  apply decode_payload_inv in Hp as (q & p & -> & Hnum & Hq & Hp).
  assert (took data c3 c4 (match v with V6 => [] | _ => to_le_bytes 8 epoch end) ∧ (epoch < 2 ^ 64)%N ∧ (v = V6 → epoch = 0%N))
    as (He & Helt & Hv6).
  { assert (c3 ≤ length data) by (by eapply took_le). destruct v; cbn in Hepoch;
      [apply parser_ret_inv in Hepoch as (-> & ->); by split_and!; [apply took_nil| |]|apply (read_uint_inv 8) in Hepoch as [? ?]..];
      by split_and!. }
  assert (took data c5 c6 (if has_timestamps v then negative ≫= to_le_bytes 8 else []) ∧ length negative = USIZE_BITS ∧
    Forall (λ ts, ts < 2 ^ 64)%N negative) as (Hn & Hnlen & Hnlt).
  { assert (c5 ≤ length data) by (by eapply took_le). destruct v; cbn [has_timestamps].
    1, 2: apply parser_ret_inv in Hneg as (-> & ->); split_and!; [by apply took_nil|apply length_replicate|by apply Forall_replicate].
    all: eapply read_many_inv; [intros ??? Hr; exact (read_uint_inv 8 _ _ _ _ Hr)|done|exact Hneg]. }
  exists v, (mkDisk status epoch (from_missing_bits missing) negative ts tier q), p. split_and!; [by split|done| |].
  - unfold stored_entry. cbn [d_status d_epoch d_availability d_negative d_timestamp d_tier missing_bits from_missing_bits].
    repeat (eapply took_app; [eassumption|]). done.
  - unfold upgraded. destruct v; cbn; try done. by rewrite Hv6.
Qed.

Lemma reads_took {A} (p : Parser A) enc a data c c' : reads p enc a → took data c c' enc → p data c = Ok (a, c').
Proof.
  intros H (Hc & Hc' & Hs). specialize (H (take c data) (drop c' data)). rewrite <- Hs in H.
  replace (take c data ++ slice c c' data ++ drop c' data) with data in H.
  - rewrite length_take, slice_length, Nat.min_l in H by lia. rewrite H. do 2 f_equal. lia.
  - unfold slice. rewrite <- (take_drop c data) at 1. f_equal.
    rewrite <- (take_drop (c' - c) (drop c data)) at 1. f_equal. rewrite drop_drop. f_equal. lia.
Qed.

Definition sample_entry : DiskCachedArticle :=
  disk_record_missing 1700 (mkSlot 3)
    (set_availability_epoch 5 (new_disk_entry 1650 CsArticle (CpArticle (Some 42%N) sample_headers sample_body) 1)).

Lemma sample_entry_ok : disk_ok sample_entry.
Proof.
  split; [vm_compute; reflexivity..| |vm_compute; reflexivity|vm_compute; reflexivity|].
  - apply (bool_decide_eq_true_1 _). vm_compute. reflexivity.
  - intros v [= <-]. vm_compute. reflexivity.
Qed.


(** The bytes [decode] accepts are exactly the documented layouts of the four
    versions.  What a version did not store is filled in: no epoch in V6; in V6
    and V7 every miss gets the timestamp of the entry; before V9 a non-empty
    section gets its final line break back.  Anything else is an error. *)
Theorem decode_exact (data : bytes) (c : nat) (d : DiskCachedArticle) (c' : nat) :
  decode data c = Ok (d, c') ↔
  ∃ v d0 p, disk_ok d0 ∧ encode_payload (d_payload d0) = Ok p ∧
    took data c c' (stored_entry v d0 p) ∧ d = upgraded v d0.
Proof.
  split; [apply decode_inv|]. intros (v & d0 & p & Hok & Ep & Ht & ->). eapply reads_took; [|exact Ht].
  apply decode_stored; [done|]. pose proof (encode_payload_spec (d_payload d0)) as Hp.
  rewrite Ep in Hp. apply Hp, Hok.
Qed.
