(* ===== verification/Hybrid.v ===== *)
(** * Hybrid: the cache with a disk tier

    Models the operations of [HybridArticleCache] in [src/src/cache/hybrid.rs]
    and proves that they implement the in-memory cache of [Cache.v]: the same
    operations make the same entries visible, whichever of the two caches the
    proxy is configured with.

    The two-tier store belongs to [foyer]: it is a finite map from which any
    entry may disappear between two operations ([OpEvict]); a failed read is
    handled as an absent entry.  Counters and tracing are left out. *)

From stdpp Require Import gmap.
From S2P Require Import Prelude Availability Protocol Request Scanner Framer Tracker Article Cache Wire Disk.

(** The misses of an entry that was written under another assignment of slots
    are dropped. *)
Definition current_availability (epoch : N) (d : DiskCachedArticle) : DiskCachedArticle :=
  if negb (d_epoch d =? epoch)%N then clear_availability d else d.

(** [get_fresh_entry_for_mutation] and the lookup of [get_by_cache_key]. *)
Definition hybrid_fresh (epoch ttl now : N) (maybe : option DiskCachedArticle) : option DiskCachedArticle :=
  d ← maybe;
  let d := disk_expire_stale now ttl (current_availability epoch d) in
  if negb (disk_is_expired now ttl d) then Some d else None.

Section Hybrid.
Context {MC : Memchr}.

Abbreviation Store := (gmap bytes DiskCachedArticle).

Definition hybrid_get (epoch ttl now : N) (key : bytes) (h : Store) : option DiskCachedArticle :=
  hybrid_fresh epoch ttl now (h !! key).

Definition keep_existing (existing new : DiskCachedArticle) : bool :=
  match disk_is_complete_article existing, disk_is_complete_article new with
  | true, false => true
  | false, true => false
  | _, _ => keep_over_same_completeness existing new
  end.

Definition upsert_entry_for_slot (epoch ttl now : N) (key : bytes) (entry : DiskCachedArticle)
    (slot : AvailabilitySlot) (h : Store) : Store :=
  let entry := set_availability_epoch epoch entry in
  match hybrid_fresh epoch ttl now (h !! key) with
  | Some existing =>
      if is_missing_slot (d_availability existing) slot then h
      else
        match disk_merge_sections now existing entry with
        | Some merged => <[key := set_availability_epoch epoch merged]> h
        | None =>
            if keep_existing existing entry then h
            else <[key := set_availability_epoch epoch (with_availability entry existing)]> h
        end
  | None => <[key := set_availability_epoch epoch entry]> h
  end.

Definition upsert_framed_ingest_for_slot (epoch ttl now : N) (key : bytes) (status : StatusCode) (status_end : nat)
    (chunks : list bytes) (payload_end : nat) (slot : AvailabilitySlot) (tier : N) (h : Store) : Store :=
  match disk_from_framed now status status_end chunks payload_end tier with
  | Some entry => upsert_entry_for_slot epoch ttl now key entry slot h
  | None => h
  end.

Definition hybrid_record_missing (epoch ttl now : N) (key : bytes) (slot : AvailabilitySlot) (h : Store) : Store :=
  let entry :=
    match hybrid_fresh epoch ttl now (h !! key) with
    | Some existing => disk_record_missing now slot existing
    | None => disk_record_missing now slot (disk_missing now 0)
    end in
  <[key := set_availability_epoch epoch entry]> h.

Definition record_has_status_for_slot (epoch ttl now : N) (key : bytes) (status : StatusCode)
    (slot : AvailabilitySlot) (tier : N) (h : Store) : Store :=
  match cacheable_try_from (as_u16 status) with
  | None => h
  | Some cacheable =>
      match hybrid_fresh epoch ttl now (h !! key) with
      | Some existing =>
          if is_missing_slot (d_availability existing) slot then h
          else <[key := set_availability_epoch epoch (disk_record_has_status now cacheable tier existing)]> h
      | None => <[key := set_availability_epoch epoch (disk_availability_only now cacheable tier)]> h
      end
  end.

Definition record_stat_for_slot (epoch ttl now : N) (key : bytes) (slot : AvailabilitySlot) (tier : N)
    (h : Store) : Store :=
  match hybrid_fresh epoch ttl now (h !! key) with
  | Some existing =>
      if is_missing_slot (d_availability existing) slot then h
      else <[key := set_availability_epoch epoch (disk_record_stat now tier existing)]> h
  | None => <[key := set_availability_epoch epoch (disk_stat now tier)]> h
  end.

(** The operations of the in-memory cache, on this one; a lookup changes nothing. *)
Definition hybrid_step (epoch ttl now : N) (op : CacheOp) (h : Store) : Store :=
  match op with
  | OpIngest key status line chunks payload_end slot tier =>
      upsert_framed_ingest_for_slot epoch ttl now key status (length line) chunks payload_end slot tier h
  | OpHasStatus key status slot tier => record_has_status_for_slot epoch ttl now key status slot tier h
  | OpStat key slot tier => record_stat_for_slot epoch ttl now key slot tier h
  | OpMissing key slot => hybrid_record_missing epoch ttl now key slot h
  | OpGet _ => h
  | OpEvict key => delete key h
  end.

Definition run_hybrid (epoch ttl : N) (ops : list (CacheOp * N)) (h : Store) : Store :=
  foldl (λ h op, hybrid_step epoch ttl op.2 op.1 h) h ops.
End Hybrid.

(** ** Expiry of availability *)

Lemma is_expired_later now now' ts ttl tier :
  (now ≤ now')%N → is_expired now ts ttl tier = true → is_expired now' ts ttl tier = true.
Proof. unfold is_expired. rewrite !N.leb_le. lia. Qed.

(** The index is a missing slot whose timestamp has expired. *)
Definition stale_at (now ttl : N) (d : DiskCachedArticle) (j : nat) : bool :=
  (j <? USIZE_BITS) && N.testbit (missing_bits (d_availability d)) (N.of_nat j) &&
  is_expired now (d_negative d !!! j) ttl 0.

Lemma expire_fold now ttl d n :
  n ≤ USIZE_BITS → length (d_negative d) = USIZE_BITS →
  let acc := foldl (expire_slot now ttl d) (missing_bits (d_availability d), d_negative d) (seq 0 n) in
  (∀ j, N.testbit acc.1 (N.of_nat j) =
     N.testbit (missing_bits (d_availability d)) (N.of_nat j) && negb ((j <? n) && stale_at now ttl d j)) ∧
  (∀ j, acc.2 !! j = (λ ts, if (j <? n) && stale_at now ttl d j then 0%N else ts) <$> d_negative d !! j).
Proof.
  intros Hn Hlen. induction n as [|n IH].
  { cbn [seq foldl]. split; intros j; [by rewrite andb_true_r|]. cbn. by rewrite option_fmap_id. }
  destruct IH as [Hb Hs]; [lia|]. rewrite seq_S, foldl_snoc, Nat.add_0_l.
  set (acc := foldl _ _ _) in *. unfold expire_slot. rewrite (proj2 (slot_new_Some n (mkSlot n))) by (split; [done|lia]).
  assert (acc.2 !!! n = d_negative d !!! n) as ->.
  { rewrite !list_lookup_total_alt, Hs. rewrite Nat.ltb_irrefl. cbn. by rewrite option_fmap_id. }
  rewrite is_missing_testbit. cbn [slot_index].
  assert (N.testbit (missing_bits (d_availability d)) (N.of_nat n) && is_expired now (d_negative d !!! n) ttl 0 =
    stale_at now ttl d n) as -> by (unfold stale_at; by rewrite (proj2 (Nat.ltb_lt _ _)) by lia).
  assert (∀ j, j ≠ n → (j <? S n) = (j <? n)) as Hlt by (intros j Hj; apply eq_bool_prop_intro; rewrite !Is_true_true, !Nat.ltb_lt; lia).
  assert ((n <? S n) = true) as HSn by (apply Nat.ltb_lt; lia).
  destruct (stale_at now ttl d n) eqn:Est; cbn [fst snd]; split; intros j; destruct (decide (j = n)) as [->|Hj].
  - unfold clear_slot_bit. rewrite N.ldiff_spec, slot_bit_testbit, N.eqb_refl, HSn, Est. cbn. by rewrite !andb_false_r.
  - unfold clear_slot_bit. rewrite N.ldiff_spec, slot_bit_testbit, Hlt, Hb by done. cbn [slot_index].
    rewrite (proj2 (N.eqb_neq _ _)) by lia. cbn. by rewrite andb_true_r.
  - rewrite HSn, Est. rewrite list_lookup_insert_eq.
    + destruct (d_negative d !! n) eqn:E; [done|]. apply lookup_ge_None in E. lia.
    + rewrite <- (length_fmap (λ _, 0%N)). apply lookup_lt_is_Some. rewrite list_lookup_fmap, Hs. apply fmap_is_Some, fmap_is_Some, lookup_lt_is_Some. lia.
  - by rewrite list_lookup_insert_ne, Hs, Hlt by done.
  - by rewrite Hb, HSn, Est, !andb_false_r.
  - by rewrite Hb, Hlt by done.
  - by rewrite Hs, HSn, Est, !andb_false_r.
  - by rewrite Hs, Hlt by done.
Qed.

Lemma availability_ext a b :
  (∀ j : nat, N.testbit (missing_bits a) (N.of_nat j) = N.testbit (missing_bits b) (N.of_nat j)) → a = b.
Proof.
  intros H. destruct a as [a], b as [b]. f_equal. apply N.bits_inj. intros n.
  specialize (H (N.to_nat n)). by rewrite N2Nat.id in H.
Qed.

Lemma disk_expire_same now ttl d :
  let d' := disk_expire_stale now ttl d in
  d_status d' = d_status d ∧ d_epoch d' = d_epoch d ∧ d_timestamp d' = d_timestamp d ∧
  d_tier d' = d_tier d ∧ d_payload d' = d_payload d.
Proof. unfold disk_expire_stale. by destruct (foldl _ _ _). Qed.

Lemma disk_expire_is_expired now now' ttl d : disk_is_expired now' ttl (disk_expire_stale now ttl d) = disk_is_expired now' ttl d.
Proof. unfold disk_is_expired. by destruct (disk_expire_same now ttl d) as (_ & _ & -> & -> & _). Qed.

Lemma stale_at_in_range now ttl d j : (j <? USIZE_BITS) && stale_at now ttl d j = stale_at now ttl d j.
Proof. unfold stale_at. by destruct (j <? USIZE_BITS). Qed.

Lemma disk_expire_bit now ttl d j :
  length (d_negative d) = USIZE_BITS →
  N.testbit (missing_bits (d_availability (disk_expire_stale now ttl d))) (N.of_nat j) =
  N.testbit (missing_bits (d_availability d)) (N.of_nat j) && negb (stale_at now ttl d j).
Proof.
  intros Hl. destruct (expire_fold now ttl d USIZE_BITS) as [Hb _]; [done|done|]. unfold disk_expire_stale.
  destruct (foldl _ _ _) as [bits neg]. cbn [d_availability from_missing_bits missing_bits]. cbn [fst] in Hb.
  by rewrite Hb, stale_at_in_range.
Qed.

Lemma disk_expire_timestamp now ttl d j :
  length (d_negative d) = USIZE_BITS →
  d_negative (disk_expire_stale now ttl d) !! j = (λ ts, if stale_at now ttl d j then 0%N else ts) <$> d_negative d !! j.
Proof.
  intros Hl. destruct (expire_fold now ttl d USIZE_BITS) as [_ Hs]; [done|done|]. unfold disk_expire_stale.
  destruct (foldl _ _ _) as [bits neg]. cbn [d_negative]. cbn [snd] in Hs. by rewrite Hs, stale_at_in_range.
Qed.

Lemma disk_expire_length now ttl d :
  length (d_negative d) = USIZE_BITS → length (d_negative (disk_expire_stale now ttl d)) = USIZE_BITS.
Proof.
  intros Hl. rewrite <- Hl. apply Nat.le_antisymm; apply Nat.nlt_ge; intros Hlt%lookup_lt_is_Some.
  - rewrite disk_expire_timestamp, fmap_is_Some in Hlt by done. apply lookup_lt_is_Some in Hlt. lia.
  - rewrite <- (fmap_is_Some (λ ts, if stale_at now ttl d (length (d_negative (disk_expire_stale now ttl d))) then 0%N else ts)),
      <- disk_expire_timestamp in Hlt by done. apply lookup_lt_is_Some in Hlt. lia.
Qed.

Lemma disk_expire_twice now now' ttl d :
  length (d_negative d) = USIZE_BITS → (now ≤ now')%N →
  disk_expire_stale now' ttl (disk_expire_stale now ttl d) = disk_expire_stale now' ttl d.
Proof.
  intros Hl Hle. pose proof (disk_expire_length now ttl d Hl) as Hl1.
  set (d1 := disk_expire_stale now ttl d) in *.
  assert (∀ j, stale_at now' ttl d1 j = stale_at now' ttl d j && negb (stale_at now ttl d j)) as Hst.
  { intros j. unfold stale_at at 1. unfold d1. rewrite disk_expire_bit by done.
    destruct (stale_at now ttl d j) eqn:E; cbn [negb]; [by rewrite !andb_false_r|]. rewrite !andb_true_r.
    unfold stale_at. do 2 f_equal. rewrite !list_lookup_total_alt, disk_expire_timestamp, E by done.
    by destruct (d_negative d !! j). }
  assert (∀ j, stale_at now ttl d j = true → stale_at now' ttl d j = true) as Hmono.
  { intros j. unfold stale_at. rewrite !andb_true_iff. intros [H He]. split; [done|]. by eapply is_expired_later. }
  destruct (disk_expire_same now' ttl d1) as (E1 & E2 & E3 & E4 & E5), (disk_expire_same now ttl d) as (F1 & F2 & F3 & F4 & F5),
    (disk_expire_same now' ttl d) as (G1 & G2 & G3 & G4 & G5). fold d1 in F1, F2, F3, F4, F5.
  assert (d_availability (disk_expire_stale now' ttl d1) = d_availability (disk_expire_stale now' ttl d)) as Ha.
  { apply availability_ext. intros j. rewrite !disk_expire_bit, Hst by done. unfold d1. rewrite disk_expire_bit by done.
    specialize (Hmono j). destruct (stale_at now ttl d j); [rewrite Hmono by done|]; cbn; by rewrite ?andb_true_r, ?andb_false_r. }
  assert (d_negative (disk_expire_stale now' ttl d1) = d_negative (disk_expire_stale now' ttl d)) as Hn.
  { apply list_eq. intros j. rewrite !disk_expire_timestamp, Hst by done. unfold d1. rewrite disk_expire_timestamp by done.
    specialize (Hmono j). destruct (d_negative d !! j); cbn; [|done].
    destruct (stale_at now ttl d j); [rewrite Hmono by done|]; by rewrite ?andb_true_r, ?andb_false_r. }
  destruct (disk_expire_stale now' ttl d1), (disk_expire_stale now' ttl d). cbn in *. congruence.
Qed.

Lemma ca_expire_bit now ttl e j :
  N.testbit (missing_bits (ca_availability (ca_expire_stale now ttl e))) (N.of_nat j) =
  N.testbit (missing_bits (ca_availability e)) (N.of_nat j) &&
    negb (existsb (λ p, is_expired now p.2 ttl 0 && (slot_index p.1 =? j)) (ca_negative e)).
Proof. unfold ca_expire_stale. cbn [ca_availability missing_bits from_missing_bits]. apply (expire_bits_testbit (λ p, is_expired now p.2 ttl 0)). Qed.

Lemma ca_expire_twice now now' ttl e :
  (now ≤ now')%N → ca_expire_stale now' ttl (ca_expire_stale now ttl e) = ca_expire_stale now' ttl e.
Proof.
  intros Hle.
  assert (∀ q : AvailabilitySlot * N, is_expired now q.2 ttl 0 = true → is_expired now' q.2 ttl 0 = true) as Hmono
    by (intros q; by apply is_expired_later).
  assert (ca_negative (ca_expire_stale now' ttl (ca_expire_stale now ttl e)) = ca_negative (ca_expire_stale now' ttl e)) as Hn.
  { cbn. rewrite list_filter_filter. apply list_filter_iff. intros q. specialize (Hmono q).
    destruct (is_expired now q.2 ttl 0); [rewrite Hmono by done|]; naive_solver. }
  assert (ca_availability (ca_expire_stale now' ttl (ca_expire_stale now ttl e)) = ca_availability (ca_expire_stale now' ttl e)) as Ha.
  { apply availability_ext. intros j. rewrite !ca_expire_bit, <- andb_assoc, <- negb_orb. do 2 f_equal.
    cbn [ca_negative ca_expire_stale]. induction (ca_negative e) as [|q l IH]; [done|]. rewrite filter_cons. cbn [existsb].
    specialize (Hmono q). destruct (is_expired now q.2 ttl 0); case_decide; try done; cbn [existsb andb].
    - rewrite Hmono by done. cbn [andb]. by rewrite <- orb_assoc, IH.
    - rewrite <- IH. by destruct (_ && _), (existsb _ l), (existsb _ (filter _ l)). }
  unfold ca_expire_stale in *. cbn in *. by rewrite Ha, Hn.
Qed.

Lemma fresh_entry_twice now now' ttl maybe :
  (now ≤ now')%N → fresh_entry_for_mutation now' ttl (fresh_entry_for_mutation now ttl maybe) = fresh_entry_for_mutation now' ttl maybe.
Proof.
  intros Hle. destruct maybe as [e|]; [|done]. unfold fresh_entry_for_mutation at 2. cbn [mbind option_bind].
  destruct (ca_is_expired now ttl (ca_expire_stale now ttl e)) eqn:E; cbn [negb fresh_entry_for_mutation mbind option_bind].
  - replace (ca_is_expired now' ttl _) with true; [done|]. symmetry. by eapply is_expired_later.
  - by rewrite ca_expire_twice.
Qed.

(** The number of slots of an entry is that of its array. *)
Definition disk_shape (d : DiskCachedArticle) : Prop :=
  length (d_negative d) = USIZE_BITS ∧ (missing_bits (d_availability d) < 2 ^ 64)%N.

Lemma current_twice epoch d : current_availability epoch (current_availability epoch d) = current_availability epoch d.
Proof. unfold current_availability. destruct (d_epoch d =? epoch)%N eqn:E; cbn; by rewrite E. Qed.

(** An entry without misses is not changed by expiry, up to its timestamps. *)
Lemma current_expire_current epoch now now' ttl d :
  length (d_negative d) = USIZE_BITS → (now ≤ now')%N →
  disk_expire_stale now' ttl (current_availability epoch (disk_expire_stale now ttl (current_availability epoch d))) =
  disk_expire_stale now' ttl (current_availability epoch d).
Proof.
  intros Hl Hle. unfold current_availability at 1. destruct (disk_expire_same now ttl (current_availability epoch d)) as (_ & -> & _).
  unfold current_availability in *. destruct (d_epoch d =? epoch)%N eqn:E; cbn [negb] in *.
  - rewrite E. by apply disk_expire_twice.
  - cbn [d_epoch clear_availability]. rewrite E. cbn [negb]. reflexivity.
Qed.

Lemma hybrid_fresh_twice epoch now now' ttl maybe :
  (∀ d, maybe = Some d → length (d_negative d) = USIZE_BITS) → (now ≤ now')%N →
  hybrid_fresh epoch ttl now' (hybrid_fresh epoch ttl now maybe) = hybrid_fresh epoch ttl now' maybe.
Proof.
  intros Hl Hle. destruct maybe as [d|]; [|done]. specialize (Hl d eq_refl).
  unfold hybrid_fresh at 2. cbn [mbind option_bind]. rewrite disk_expire_is_expired.
  destruct (disk_is_expired now ttl (current_availability epoch d)) eqn:E; cbn [negb hybrid_fresh mbind option_bind].
  - rewrite disk_expire_is_expired. replace (disk_is_expired now' ttl _) with true; [done|]. symmetry. by eapply is_expired_later.
  - by rewrite current_expire_current.
Qed.

(** ** Simulation *)

(** Entries that differ only in the order of the recorded timestamps. *)
#[global] Instance cached_equiv : Equiv CachedArticle := λ e1 e2,
  ca_availability e1 = ca_availability e2 ∧ ca_negative e1 ≡ₚ ca_negative e2 ∧ ca_status e1 = ca_status e2 ∧
  ca_payload e1 = ca_payload e2 ∧ ca_tier e1 = ca_tier e2 ∧ ca_inserted_at e1 = ca_inserted_at e2.

#[global] Instance cached_equivalence : Equivalence (≡@{CachedArticle}).
Proof.
  split.
  - by intros e.
  - intros e1 e2 (? & ? & ? & ? & ? & ?). by repeat split.
  - intros e1 e2 e3 (? & ? & ? & ? & ? & ?) (? & ? & ? & ? & ? & ?). repeat split; etrans; eauto.
Qed.

(** The responses and the metadata an entry gives do not depend on that order. *)
#[global] Instance cached_response_for_proper : Proper ((≡) ==> (=) ==> (=) ==> (=)) cached_response_for.
Proof. intros e1 e2 (_ & _ & _ & E & _) ?? <- ?? <-. unfold cached_response_for. by rewrite E. Qed.

#[global] Instance request_cache_metadata_proper : Proper ((≡) ==> (=) ==> (=)) request_cache_metadata.
Proof. intros e1 e2 (_ & _ & E1 & E2 & E3 & E4) ?? <-. unfold request_cache_metadata. by rewrite E1, E2, E3, E4. Qed.

Record sim (epoch : N) (d : DiskCachedArticle) (e : CachedArticle) : Prop := {
  sim_shape : disk_shape d;
  sim_epoch : d_epoch d ≠ epoch → d_availability d = new_availability;
  sim_availability : ca_availability e = d_availability d;
  sim_nodup : NoDup (neg_slots e);
  sim_negative : ∀ s ts, (s, ts) ∈ ca_negative e ↔
    is_missing_slot (d_availability d) s = true ∧ d_negative d !! slot_index s = Some ts;
  sim_status : ca_status e = mkStatusCode (cacheable_as_u16 (d_status d));
  sim_payload : ca_payload e = d_payload d;
  sim_tier : ca_tier e = d_tier d;
  sim_inserted : ca_inserted_at e = d_timestamp d }.

Lemma missing_in_range d s :
  disk_shape d → is_missing_slot (d_availability d) s = true → slot_index s < USIZE_BITS.
Proof.
  intros [_ Hb] Hs. rewrite is_missing_testbit in Hs. apply Nat.nle_gt. intros Hge.
  rewrite N.bits_above_log2 in Hs; [done|]. destruct (decide (missing_bits (d_availability d) = 0%N)) as [E|E].
  - by rewrite E, N.bits_0 in Hs.
  - apply N.log2_lt_pow2; [lia|]. eapply N.lt_le_trans; [exact Hb|]. apply N.pow_le_mono_r; [done|]. unfold USIZE_BITS in Hge. lia.
Qed.

Lemma slot_timestamps_elem d s ts :
  disk_shape d →
  (s, ts) ∈ omap (slot_timestamp d) (seq 0 (length (d_negative d))) ↔
  is_missing_slot (d_availability d) s = true ∧ d_negative d !! slot_index s = Some ts.
Proof.
  intros Hd. rewrite list_elem_of_omap. unfold slot_timestamp. split.
  - intros (j & Hj & H). destruct (slot_new j) as [s'|] eqn:E1; [|done]. apply slot_new_Some in E1 as [-> Hlt].
    cbn [mbind option_bind] in H. destruct (d_negative d !! j) as [ts'|] eqn:E2; [|done]. cbn in H.
    destruct (is_missing_slot _ _) eqn:E3; [|done]. by injection H as <- <-.
  - intros [Hm Hts]. assert (Hlt := missing_in_range d s Hd Hm). exists (slot_index s). split.
    + apply elem_of_seq. destruct Hd as [-> _]. lia.
    + rewrite (proj2 (slot_new_Some (slot_index s) s)) by (split; [by destruct s|done]).
      cbn [mbind option_bind]. rewrite Hts. cbn [mbind option_bind]. by rewrite Hm.
Qed.

Lemma slot_timestamps_NoDup d : NoDup ((λ p, slot_index p.1) <$> omap (slot_timestamp d) (seq 0 (length (d_negative d)))).
Proof.
  assert (NoDup (seq 0 (length (d_negative d)))) as Hnd by apply NoDup_seq. revert Hnd.
  induction (seq 0 _) as [|j l IH]; [constructor|]. intros [Hj Hl]%NoDup_cons. cbn [omap list_omap].
  destruct (slot_timestamp d j) as [p|] eqn:E; [|by apply IH]. rewrite fmap_cons, NoDup_cons. split; [|by apply IH].
  assert (∀ i q, slot_timestamp d i = Some q → slot_index q.1 = i) as Hidx.
  { intros i q. unfold slot_timestamp. destruct (slot_new i) as [s|] eqn:Es; [|done]. apply slot_new_Some in Es as [-> _].
    cbn. destruct (d_negative d !! i); [|done]. cbn. destruct (is_missing_slot _ _); [|done]. by intros [= <-]. }
  rewrite (Hidx _ _ E). intros (q & Hq & (i & Hi & Ei)%list_elem_of_omap)%list_elem_of_fmap. apply Hidx in Ei. congruence.
Qed.

Lemma NoDup_of_fmap {A B} (f : A → B) l : NoDup (f <$> l) → NoDup l.
Proof.
  induction l as [|x l IH]; [constructor|]. rewrite fmap_cons, !NoDup_cons. intros [H1 H2]. split; [|by apply IH].
  contradict H1. apply list_elem_of_fmap. eauto.
Qed.

Lemma sim_into_cached epoch d e : sim epoch d e → into_cached_article d ≡ e.
Proof.
  intros [Hd _ Ha Hnd Hn Hs Hp Ht Hi]. repeat split; cbn; try congruence.
  apply NoDup_Permutation; [eapply NoDup_of_fmap, slot_timestamps_NoDup|by eapply NoDup_of_fmap|].
  intros [s ts]. by rewrite slot_timestamps_elem, Hn.
Qed.

Lemma into_cached_sim epoch d :
  disk_shape d → (d_epoch d ≠ epoch → d_availability d = new_availability) → sim epoch d (into_cached_article d).
Proof.
  intros Hd He. split; try done; [apply slot_timestamps_NoDup|]. intros s ts. cbn [ca_negative into_cached_article].
  by apply slot_timestamps_elem.
Qed.

Lemma bits_below (x n : N) : (∀ j, (n ≤ j)%N → N.testbit x j = false) → (x < 2 ^ n)%N.
Proof.
  intros H. assert (x = N.land x (N.ones n)) as ->; [|rewrite N.land_ones; by apply N.mod_lt, N.pow_nonzero].
  apply N.bits_inj. intros j. rewrite N.land_spec. destruct (N.lt_ge_cases j n) as [Hj|Hj].
  - by rewrite N.ones_spec_low, andb_true_r.
  - by rewrite H.
Qed.

Lemma bits_above (x n j : N) : (x < 2 ^ n)%N → (n ≤ j)%N → N.testbit x j = false.
Proof.
  intros Hx Hj. destruct (decide (x = 0%N)) as [->|Hne]; [apply N.bits_0|]. apply N.bits_above_log2.
  eapply N.lt_le_trans; [|exact Hj]. apply N.log2_lt_pow2; [lia|done].
Qed.

Lemma sim_neg_inv epoch d e : sim epoch d e → neg_inv e.
Proof.
  intros [Hd _ Ha Hnd Hn _ _ _ _]. split; [done|]. intros s. rewrite Ha. unfold neg_slots. rewrite list_elem_of_fmap. split.
  - intros Hm. assert (Hlt := missing_in_range d s Hd Hm). destruct Hd as [Hl _]. rewrite <- Hl in Hlt.
    apply lookup_lt_is_Some in Hlt as [ts Hts]. exists (s, ts). split; [done|]. by apply Hn.
  - intros ([s' ts] & E & Hin). apply Hn in Hin as [Hm _]. cbn in E. destruct s, s'. cbn in E. by subst.
Qed.

(** The recorded timestamp of a missing slot decides its staleness in both representations. *)
Lemma sim_stale epoch d e now ttl j :
  sim epoch d e →
  existsb (λ p, is_expired now p.2 ttl 0 && (slot_index p.1 =? j)) (ca_negative e) = stale_at now ttl d j.
Proof.
  intros [Hd _ Ha Hnd Hn _ _ _ _]. apply eq_bool_prop_intro. rewrite !Is_true_true, existsb_exists. unfold stale_at.
  rewrite !andb_true_iff, Nat.ltb_lt. split.
  - intros ([s ts] & [Hm Hts]%list_elem_of_In%Hn & [He Hj]%andb_true_iff). cbn [fst snd] in *. apply Nat.eqb_eq in Hj as <-.
    split_and!; [by eapply missing_in_range|by rewrite <- is_missing_testbit|]. by rewrite (list_lookup_total_correct _ _ _ Hts).
  - intros [[Hj Hb] He]. assert (is_Some (d_negative d !! j)) as [ts Hts] by (apply lookup_lt_is_Some; destruct Hd as [-> _]; done).
    exists (mkSlot j, ts). split.
    + apply list_elem_of_In, Hn. cbn [slot_index]. split; [by rewrite is_missing_testbit|done].
    + cbn [fst snd slot_index]. rewrite Nat.eqb_refl, andb_true_r. by rewrite (list_lookup_total_correct _ _ _ Hts) in He.
Qed.

Lemma expire_shape now ttl d : disk_shape d → disk_shape (disk_expire_stale now ttl d).
Proof.
  intros [Hl Hb]. split; [by apply disk_expire_length|]. apply bits_below. intros j Hj.
  rewrite <- (N2Nat.id j), disk_expire_bit, N2Nat.id by done. by rewrite (bits_above _ 64 j).
Qed.

Lemma expire_sim epoch now ttl d e : sim epoch d e → sim epoch (disk_expire_stale now ttl d) (ca_expire_stale now ttl e).
Proof.
  intros H. pose proof (sim_neg_inv _ _ _ H) as Hinv. pose proof (λ j, sim_stale _ _ _ now ttl j H) as Hst.
  destruct H as [Hd He Ha Hnd Hn Hs Hp Ht Hi]. assert (Hl := proj1 Hd).
  destruct (disk_expire_same now ttl d) as (F1 & F2 & F3 & F4 & F5).
  split; rewrite ?F1, ?F3, ?F4, ?F5; try done; [by apply expire_shape| | |by apply expire_stale_inv|].
  - rewrite F2. intros Hne. apply availability_ext. intros j. rewrite disk_expire_bit, He by done. cbn [missing_bits new_availability]. by rewrite N.bits_0.
  - apply availability_ext. intros j. by rewrite ca_expire_bit, disk_expire_bit, Ha, Hst.
  - intros s ts. cbn [ca_negative ca_expire_stale]. rewrite list_elem_of_filter, Hn. cbn [snd].
    rewrite !is_missing_testbit, disk_expire_bit, disk_expire_timestamp by done.
    destruct (stale_at now ttl d (slot_index s)) eqn:E; cbn [negb].
    + rewrite andb_false_r. split; [|naive_solver]. intros (Hx & Hm & Hts). unfold stale_at in E.
      rewrite (list_lookup_total_correct _ _ _ Hts), Hx, andb_false_r in E. done.
    + rewrite andb_true_r, option_fmap_id. split; [naive_solver|]. intros [Hm Hts]. split; [|done]. unfold stale_at in E.
      rewrite (list_lookup_total_correct _ _ _ Hts), Hm, (proj2 (Nat.ltb_lt _ _)) in E; [done|].
      rewrite <- Hl. by eapply lookup_lt_Some.
Qed.

Lemma no_missing_slot s : is_missing_slot new_availability s = false.
Proof. rewrite is_missing_testbit. apply N.bits_0. Qed.

Lemma current_sim epoch d e : sim epoch d e → sim epoch (current_availability epoch d) e.
Proof.
  intros H. unfold current_availability. destruct (N.eqb_spec (d_epoch d) epoch) as [E|E]; cbn [negb]; [done|].
  destruct H as [Hd He Ha Hnd Hn Hs Hp Ht Hi]. specialize (He E). split; try done; cbn [d_availability d_negative clear_availability].
  - congruence.
  - intros s ts. rewrite Hn, He, no_missing_slot. naive_solver.
Qed.

Lemma fresh_sim epoch ttl now d e :
  sim epoch d e → option_Forall2 (sim epoch) (hybrid_fresh epoch ttl now (Some d)) (fresh_entry_for_mutation now ttl (Some e)).
Proof.
  intros H. unfold hybrid_fresh, fresh_entry_for_mutation. cbn [mbind option_bind].
  pose proof (expire_sim _ now ttl _ _ (current_sim _ _ _ H)) as H'.
  replace (ca_is_expired now ttl (ca_expire_stale now ttl e)) with
    (disk_is_expired now ttl (disk_expire_stale now ttl (current_availability epoch d))).
  - destruct (disk_is_expired _ _ _); cbn [negb]; by constructor.
  - unfold disk_is_expired, ca_is_expired. by rewrite (sim_inserted _ _ _ H'), (sim_tier _ _ _ H').
Qed.

(** ** Operations *)

Section Refinement.
Context {MC : Memchr}.
Variable epoch ttl : N.

(** Both caches show related entries at the time [now]. *)
Definition same_view (now : N) (h : gmap bytes DiskCachedArticle) (m : gmap bytes CachedArticle) : Prop :=
  (∀ k d, h !! k = Some d → length (d_negative d) = USIZE_BITS) ∧
  ∀ k, option_Forall2 (sim epoch) (hybrid_fresh epoch ttl now (h !! k)) (fresh_entry_for_mutation now ttl (m !! k)).

Lemma same_view_later now now' h m : (now ≤ now')%N → same_view now h m → same_view now' h m.
Proof.
  intros Hle [Hl H]. split; [done|]. intros k. rewrite <- (fresh_entry_twice now now') by done.
  rewrite <- (hybrid_fresh_twice _ now now'); [|by apply Hl|done].
  destruct (H k); [by apply fresh_sim|constructor].
Qed.

Lemma same_view_insert now h m key d e :
  same_view now h m → sim epoch d e → same_view now (<[key := d]> h) (<[key := e]> m).
Proof.
  intros [Hl H] Hs. split.
  - intros k d'. rewrite lookup_insert_Some. intros [[<- <-]|[_ ?]]; [apply Hs|by eapply Hl].
  - intros k. destruct (decide (key = k)) as [<-|Hk].
    + rewrite !lookup_insert_eq. by apply fresh_sim.
    + by rewrite !lookup_insert_ne.
Qed.

(** Writing the refreshed entry back is not visible. *)
Lemma same_view_refresh now h m key e :
  same_view now h m → fresh_entry_for_mutation now ttl (m !! key) = Some e → same_view now h (<[key := e]> m).
Proof.
  intros [Hl H] He. split; [done|]. intros k. destruct (decide (key = k)) as [<-|Hk].
  - rewrite lookup_insert_eq, <- He, fresh_entry_twice by done. apply H.
  - by rewrite lookup_insert_ne.
Qed.

(** The content of both entries changes in the same way. *)
Lemma sim_set_content d e status p tier ts :
  sim epoch d e →
  sim epoch (mkDisk status epoch (d_availability d) (d_negative d) ts tier p)
    (set_content e (mkStatusCode (cacheable_as_u16 status)) p tier ts).
Proof. by intros [Hd He Ha Hnd Hn Hs Hp Ht Hi]. Qed.

Lemma sim_new status p tier ts :
  sim epoch (mkDisk status epoch new_availability no_timestamps ts tier p)
    (mkCached new_availability [] (mkStatusCode (cacheable_as_u16 status)) p tier ts).
Proof.
  split; try done; [constructor|]. intros s x. cbn [d_availability ca_negative].
  rewrite no_missing_slot, elem_of_nil. naive_solver.
Qed.
Lemma renew_spec slot now (l : list (AvailabilitySlot * N)) s ts :
  NoDup ((λ p, slot_index p.1) <$> l) →
  (s, ts) ∈ renew_timestamp slot now l ↔ (s = slot ∧ ts = now) ∨ (s ≠ slot ∧ (s, ts) ∈ l).
Proof.
  induction l as [|[s0 t0] l IH]; cbn [renew_timestamp].
  { intros _. rewrite list_elem_of_singleton, elem_of_nil. naive_solver. }
  rewrite fmap_cons, NoDup_cons. cbn [fst]. intros [Hn Hl].
  destruct (Nat.eqb_spec (slot_index s0) (slot_index slot)) as [E|E].
  - assert (s0 = slot) as -> by (destruct s0, slot; cbn in E; by subst). rewrite !elem_of_cons.
    assert (∀ x, (slot, x) ∉ l) by (intros x Hx; apply Hn, list_elem_of_fmap; by exists (slot, x)).
    destruct (decide (s = slot)) as [->|]; naive_solver.
  - rewrite !elem_of_cons, IH by done. assert (s0 ≠ slot) by naive_solver. naive_solver.
Qed.

Lemma sim_record_missing now slot d e :
  slot_index slot < USIZE_BITS → sim epoch d e →
  sim epoch (set_availability_epoch epoch (disk_record_missing now slot d)) (ca_record_missing now slot e).
Proof.
  intros Hslot H. pose proof (record_missing_inv now slot e (sim_neg_inv _ _ _ H)) as [Hnd' _].
  destruct H as [[Hl Hb] He Ha Hnd Hn Hs Hp Ht Hi]. split; try done.
  - split; cbn; [by rewrite length_insert|]. apply bits_below. intros j Hj. rewrite N.lor_spec, (bits_above _ 64 j) by done.
    rewrite <- (N2Nat.id j), slot_bit_testbit. apply N.eqb_neq. unfold USIZE_BITS in Hslot. lia.
  - cbn. by rewrite Ha.
  - intros s ts. cbn [ca_negative ca_record_missing set_availability_epoch disk_record_missing d_availability d_negative].
    rewrite renew_spec, Hn, (is_missing_testbit (record_missing_slot _ _)) by done. unfold record_missing_slot. cbn [missing_bits].
    rewrite N.lor_spec, slot_bit_testbit, <- is_missing_testbit. destruct (decide (s = slot)) as [->|Hne].
    + rewrite N.eqb_refl, orb_true_r, list_lookup_insert_eq by (by rewrite Hl). naive_solver.
    + assert (slot_index slot ≠ slot_index s) by (destruct s, slot; cbn; naive_solver).
      rewrite (proj2 (N.eqb_neq _ _)), orb_false_r, list_lookup_insert_ne by (done || lia). naive_solver.
Qed.

Lemma view_key now h m key :
  same_view now h m →
  (∃ d e, hybrid_fresh epoch ttl now (h !! key) = Some d ∧ fresh_entry_for_mutation now ttl (m !! key) = Some e ∧ sim epoch d e) ∨
  (hybrid_fresh epoch ttl now (h !! key) = None ∧ fresh_entry_for_mutation now ttl (m !! key) = None).
Proof. intros [_ H]. destruct (H key) as [d e Hs|]; [left; by exists d, e|by right]. Qed.

Lemma missing_step_view now h m key slot :
  slot_index slot < USIZE_BITS → same_view now h m →
  same_view now (hybrid_record_missing epoch ttl now key slot h)
    (<[key := merge_availability_missing_entry now ttl (m !! key) slot]> m).
Proof.
  intros Hslot H. unfold hybrid_record_missing, merge_availability_missing_entry.
  destruct (view_key now h m key H) as [(d & e & -> & -> & Hs)|[-> ->]]; apply same_view_insert; try done.
  - by apply sim_record_missing.
  - apply (sim_record_missing now slot (mkDisk CsMissing epoch new_availability no_timestamps now 0 CpMissing)); [done|].
    apply (sim_new CsMissing).
Qed.

Lemma status_step_view now h m key status slot tier cacheable :
  cacheable_try_from (as_u16 status) = Some cacheable → same_view now h m →
  same_view now (record_has_status_for_slot epoch ttl now key status slot tier h)
    (<[key := merge_backend_has_status_entry now ttl (m !! key) status slot tier]> m).
Proof.
  intros Ec H. unfold record_has_status_for_slot, merge_backend_has_status_entry. rewrite Ec.
  assert (status = mkStatusCode (cacheable_as_u16 cacheable)) as -> by (apply cacheable_try_from_Some in Ec; destruct status; cbn in Ec; by subst).
  destruct (view_key now h m key H) as [(d & e & -> & E & Hs)|[-> ->]]; cbn [from_option id].
  - rewrite E. cbn [from_option id]. rewrite (sim_availability _ _ _ Hs), (sim_payload _ _ _ Hs), (sim_tier _ _ _ Hs).
    destruct (is_missing_slot _ _); [by apply same_view_refresh|]. apply same_view_insert; [done|]. unfold disk_record_has_status.
    destruct (without_section _); [by apply (sim_set_content d e)|]. rewrite (sim_status _ _ _ Hs). by apply (sim_set_content d e).
  - cbn [ca_availability availability_only_entry]. rewrite no_missing_slot. apply same_view_insert; [done|apply sim_new].
Qed.

Lemma stat_step_view now h m key slot tier :
  same_view now h m →
  same_view now (record_stat_for_slot epoch ttl now key slot tier h)
    (<[key := merge_backend_stat_entry now ttl (m !! key) slot tier]> m).
Proof.
  intros H. unfold record_stat_for_slot, merge_backend_stat_entry.
  destruct (view_key now h m key H) as [(d & e & -> & E & Hs)|[-> ->]]; cbn [from_option id].
  - rewrite E. cbn [from_option id]. rewrite (sim_availability _ _ _ Hs), (sim_payload _ _ _ Hs), (sim_tier _ _ _ Hs).
    destruct (is_missing_slot _ _); [by apply same_view_refresh|]. apply same_view_insert; [done|]. unfold disk_record_stat.
    destruct (without_section _); [by apply (sim_set_content d e CsStat)|]. rewrite (sim_status _ _ _ Hs). by apply (sim_set_content d e).
  - cbn [ca_availability stat_entry]. rewrite no_missing_slot. apply same_view_insert; [done|]. apply (sim_new CsStat).
Qed.
Lemma sim_should_replace d e d' e' : sim epoch d e → sim epoch d' e' → should_replace e e' = negb (keep_existing d d').
Proof.
  intros H H'. unfold should_replace, keep_existing, is_complete_article, disk_is_complete_article, keep_over_same_completeness.
  rewrite (sim_status _ _ _ H), (sim_payload _ _ _ H), (sim_status _ _ _ H'), (sim_payload _ _ _ H').
  by destruct (payload_is_complete_article _ (d_payload d)), (payload_is_complete_article _ (d_payload d')).
Qed.

Lemma ingest_step_view now h m key slot d' e' :
  d_epoch d' = epoch → d_timestamp d' = now → sim epoch d' e' → same_view now h m →
  same_view now (upsert_entry_for_slot epoch ttl now key d' slot h) (<[key := merge_ingest_entry now ttl (m !! key) e' slot]> m).
Proof.
  intros He' Hnow Hs' H. unfold upsert_entry_for_slot, merge_ingest_entry.
  assert (set_availability_epoch epoch d' = d') as -> by (destruct d'; cbn in *; by subst).
  destruct (view_key now h m key H) as [(d & e & -> & E & Hs)|[-> ->]].
  - rewrite E, (sim_availability _ _ _ Hs). destruct (is_missing_slot _ _); [by apply same_view_refresh|].
    unfold disk_merge_sections, merge_compatible_sections.
    rewrite (sim_payload _ _ _ Hs), (sim_payload _ _ _ Hs'), (sim_tier _ _ _ Hs), (sim_tier _ _ _ Hs').
    destruct (merge_payloads _ _) as [p|]; cbn [mbind option_bind].
    { apply same_view_insert; [done|]. by apply (sim_set_content d e CsArticle). }
    rewrite (sim_should_replace _ _ _ _ Hs Hs'). destruct (keep_existing d d'); cbn [negb]; [by apply same_view_refresh|].
    apply same_view_insert; [done|]. rewrite (sim_status _ _ _ Hs'), <- Hnow. by apply (sim_set_content d e).
  - apply same_view_insert; [done|]. by destruct d'; cbn in *; subst.
Qed.

(** The slots are those of a layout and the statuses are cacheable ones. *)
Definition op_ok (op : CacheOp) : Prop :=
  match op with
  | OpIngest _ status _ _ _ _ _ | OpHasStatus _ status _ _ => is_Some (cacheable_try_from (as_u16 status))
  | OpMissing _ slot => slot_index slot < USIZE_BITS
  | OpStat _ _ _ | OpGet _ | OpEvict _ => True
  end.

Lemma step_view now op h m :
  op_ok op → same_view now h m → same_view now (hybrid_step epoch ttl now op h) (cache_step ttl now op m).
Proof.
  intros Hop H. destruct op as [key status line chunks payload_end slot tier|key status slot tier|key slot tier|key slot|key|key];
    cbn [hybrid_step cache_step op_ok] in *.
  - destruct Hop as [code Ec]. unfold upsert_framed_ingest_for_slot, disk_from_framed. rewrite Ec. cbn [mbind option_bind].
    assert (status = mkStatusCode (cacheable_as_u16 code)) as -> by (apply cacheable_try_from_Some in Ec; destruct status; cbn in Ec; by subst).
    unfold from_framed_chunked_with_tier, new_disk_entry. set (p := parse_framed_chunked_payload _ _ _ _).
    apply (ingest_step_view now h m key slot (mkDisk code epoch new_availability no_timestamps now tier p)); try done. apply sim_new.
  - destruct Hop as [code Ec]. by eapply status_step_view.
  - by apply stat_step_view.
  - by apply missing_step_view.
  - unfold get_by_cache_key. destruct (m !! key) as [e|] eqn:Em; [|done].
    destruct (ca_is_expired now ttl e) eqn:Ex; cbn [negb snd]; [|done].
    destruct H as [Hl H]. split; [done|]. intros k. specialize (H k). destruct (decide (key = k)) as [<-|Hk].
    + rewrite lookup_delete_eq. rewrite Em in H. unfold fresh_entry_for_mutation in H. cbn [mbind option_bind] in H.
      unfold ca_is_expired in H, Ex. cbn [ca_inserted_at ca_tier ca_expire_stale] in H. by rewrite Ex in H.
    + by rewrite lookup_delete_ne.
  - destruct H as [Hl H]. split.
    + intros k d. rewrite lookup_delete_Some. intros [_ ?]. by eapply Hl.
    + intros k. specialize (H k). destruct (decide (key = k)) as [<-|Hk]; [by rewrite !lookup_delete_eq; constructor|].
      by rewrite !lookup_delete_ne.
Qed.

(** The clock does not go back. *)
Fixpoint clock_from (now : N) (ops : list (CacheOp * N)) : Prop :=
  match ops with
  | [] => True
  | (_, now') :: ops => (now ≤ now')%N ∧ clock_from now' ops
  end.

Definition last_time (now : N) (ops : list (CacheOp * N)) : N := foldl (λ _ op, op.2) now ops.

Lemma run_view now ops h m :
  clock_from now ops → Forall (λ op, op_ok op.1) ops → same_view now h m →
  same_view (last_time now ops) (run_hybrid epoch ttl ops h) (run_cache ttl ops m).
Proof.
  revert now h m. induction ops as [|[op now'] ops IH]; intros now h m Hc Hok H; [done|].
  destruct Hc as [Hle Hc]. inversion_clear Hok. cbn. apply IH; try done. apply step_view; [done|]. by eapply same_view_later.
Qed.

(** The in-memory form of a store found on disk: the misses of another
    assignment of slots are dropped. *)
Definition loaded (h : gmap bytes DiskCachedArticle) : gmap bytes CachedArticle :=
  (λ d, into_cached_article (current_availability epoch d)) <$> h.

Lemma loaded_view now h : map_Forall (λ _ d, disk_shape d) h → same_view now h (loaded h).
Proof.
  intros Hh. split; [intros k d Hk; apply (Hh k d Hk)|]. intros k. unfold loaded. rewrite lookup_fmap.
  destruct (h !! k) as [d|] eqn:Hk; [|constructor]. cbn [fmap option_fmap option_map].
  assert (hybrid_fresh epoch ttl now (Some d) = hybrid_fresh epoch ttl now (Some (current_availability epoch d))) as ->
    by (unfold hybrid_fresh; cbn [mbind option_bind]; by rewrite current_twice).
  apply fresh_sim, into_cached_sim.
  - specialize (Hh k d Hk). unfold current_availability. by destruct (d_epoch d =? epoch)%N.
  - unfold current_availability. destruct (N.eqb_spec (d_epoch d) epoch) as [E|E]; cbn [negb]; [done|]. by intros _.
Qed.

Lemma get_is_fresh now key m : (get_by_cache_key now ttl key m).1 = fresh_entry_for_mutation now ttl (m !! key).
Proof.
  unfold get_by_cache_key, fresh_entry_for_mutation. destruct (m !! key) as [e|]; [|done]. cbn [mbind option_bind].
  unfold ca_is_expired. cbn [ca_inserted_at ca_tier ca_expire_stale]. by destruct (is_expired _ _ _ _).
Qed.

(** C26 The hybrid cache implements the in-memory cache.  Start both from the entries
    found on disk and let them perform the same operations under a clock that does
    not go back: every lookup, then and later, finds the same entry in both, up to
    the order in which the entry lists its misses. *)
Theorem hybrid_refines_memory now ops h now' key :
  map_Forall (λ _ d, disk_shape d) h → Forall (λ op, op_ok op.1) ops →
  clock_from now ops → (last_time now ops ≤ now')%N →
  into_cached_article <$> hybrid_get epoch ttl now' key (run_hybrid epoch ttl ops h) ≡
  (get_by_cache_key now' ttl key (run_cache ttl ops (loaded h))).1.
Proof.
  intros Hh Hok Hc Hle. rewrite get_is_fresh. unfold hybrid_get.
  destruct (same_view_later _ now' _ _ Hle (run_view now ops h _ Hc Hok (loaded_view now h Hh))) as [_ H].
  destruct (H key) as [d e Hs|]; cbn; constructor. by eapply sim_into_cached.
Qed.
End Refinement.

Lemma decoded_shape data c d c' : decode data c = Ok (d, c') → disk_shape d.
Proof.
  intros (v & d0 & p & Hok & _ & _ & ->)%decode_inv. split; [|apply Hok].
  unfold upgraded. cbn [d_negative]. destruct (has_timestamps v); [apply Hok|apply length_replicate].
Qed.

Section HybridWitness.
Local Existing Instance naive_memchr.

Definition sample_key : bytes := bs "part1@example".
Definition sample_ops : list (CacheOp * N) :=
  [(OpMissing sample_key (mkSlot 1), 1800%N); (OpStat sample_key (mkSlot 3) 2, 1820%N);
   (OpHasStatus sample_key (mkStatusCode 222) (mkSlot 0) 0, 1850%N); (OpGet sample_key, 1900%N)].

Lemma hybrid_refines_memory_witness :
  ca_negative <$> (get_by_cache_key 2720 1000 sample_key
    (run_cache 1000 sample_ops (loaded 5 {[sample_key := sample_entry]}))).1 = Some [(mkSlot 1, 1800%N)] ∧
  into_cached_article <$> hybrid_get 5 1000 2720 sample_key
      (run_hybrid 5 1000 sample_ops {[sample_key := sample_entry]}) ≡
    (get_by_cache_key 2720 1000 sample_key (run_cache 1000 sample_ops (loaded 5 {[sample_key := sample_entry]}))).1.
Proof.
  split; [vm_compute; reflexivity|]. apply (hybrid_refines_memory 5 1000 1700 sample_ops).
  - apply map_Forall_singleton. split; vm_compute; reflexivity.
  - repeat constructor; cbn; try done; apply Nat.ltb_lt; vm_compute; reflexivity.
  - vm_compute. by repeat split.
  - by vm_compute.
Defined.
End HybridWitness.
