(* ===== verification/Stream.v ===== *)
(** * Stream: buffers, backend connections and the client writer

    Models the byte sources and sinks of a response transfer: [PooledBuffer] and
    [ChunkedResponse] of [src/src/pool/buffer.rs], [ConnectionStream] of
    [src/src/stream/connection_stream.rs] with the input that was read for a later
    response, and the error kinds of [src/src/connection_error.rs].

    The transport below a connection is the list of what its next reads give;
    at the end of the list it is closed.  A client writer is what it has sent and
    a script of the outcomes of its next writes; past the script it succeeds.
    Buffer recycling, TLS and compression have no effect on the bytes. *)

From S2P Require Import Prelude.

(** ** Errors of the operating system *)

(** The kinds of [std::io::ErrorKind] the proxy tells apart, and the others. *)
Inductive ErrorKind := BrokenPipe | ConnectionReset | ConnectionAborted | UnexpectedEof | OtherKind.

#[global] Instance ErrorKind_eq_dec : EqDecision ErrorKind.
Proof. solve_decision. Defined.

Definition DISCONNECT_KINDS : list ErrorKind := [BrokenPipe; ConnectionReset].
Definition CONNECTION_ERROR_KINDS : list ErrorKind :=
  [BrokenPipe; ConnectionReset; ConnectionAborted; UnexpectedEof].

Definition is_disconnect_kind (k : ErrorKind) : bool := bool_decide (k ∈ DISCONNECT_KINDS).
Definition is_connection_error_kind (k : ErrorKind) : bool := bool_decide (k ∈ CONNECTION_ERROR_KINDS).

(** ** Buffers *)

(** [BufferStorage] and the limits of its pool: [visible_from] bytes in front of
    the visible ones still occupy the allocation. *)
Record PooledBuffer := mkBuffer {
  visible_from : nat;
  visible : bytes;
  capacity : nat;
  writable_len : nat }.

Definition initialized (b : PooledBuffer) : nat := length (visible b).

Definition read_limit (b : PooledBuffer) : nat :=
  if writable_len b =? 0 then capacity b else writable_len b.

Definition available_read_capacity (b : PooledBuffer) : nat := read_limit b - initialized b.

Definition clear_buffer (b : PooledBuffer) : PooledBuffer := mkBuffer 0 [] (capacity b) (writable_len b).

(** [retain_range]; [None] is the failed assertion. *)
Definition retain_range (start end_ : nat) (b : PooledBuffer) : option PooledBuffer :=
  if (start <? end_) && (end_ <=? initialized b)
  then Some (mkBuffer (visible_from b + start) (slice start end_ (visible b)) (capacity b) (writable_len b))
  else None.

Definition compact_visible (b : PooledBuffer) : PooledBuffer :=
  mkBuffer 0 (visible b) (capacity b) (writable_len b).

Definition compact_visible_if_tail_full (b : PooledBuffer) : PooledBuffer :=
  if negb (visible_from b =? 0) && (capacity b =? visible_from b + initialized b) then compact_visible b else b.

Definition has_retained_prefix (b : PooledBuffer) : bool := negb (visible_from b =? 0).

Definition retained_append_permitted (b : PooledBuffer) : bool :=
  negb (negb (has_retained_prefix b) || (read_limit b <=? initialized b)).

(** The limit of a read, the same for all buffers of the pool. *)
Class PoolLimit := pool_limit : nat.

(** An allocation is at least as large as what may be read into it. *)
Definition buffer_ok `{PoolLimit} (b : PooledBuffer) : Prop :=
  0 < read_limit b ≤ capacity b ∧ visible_from b + initialized b ≤ capacity b ∧ read_limit b = pool_limit.

(** ** Backend connections *)

Inductive ReadEvent := Data (b : bytes) | ReadFails (k : ErrorKind).

Inductive PendingBackendInput :=
| Copied (b : bytes) (pos : nat)
| Pooled (buffer : PooledBuffer) (start end_ : nat) (pos : nat).

Definition pending_available (p : PendingBackendInput) : bytes :=
  match p with
  | Copied b pos => drop pos b
  | Pooled buffer start end_ pos => slice (start + pos) end_ (visible buffer)
  end.

Definition pending_remaining (p : PendingBackendInput) : nat :=
  match p with
  | Copied b pos => length b - pos
  | Pooled _ start end_ pos => (end_ - start) - pos
  end.

Definition advance_pending (n : nat) (p : PendingBackendInput) : PendingBackendInput :=
  match p with
  | Copied b pos => Copied b (pos + n)
  | Pooled buffer start end_ pos => Pooled buffer start end_ (pos + n)
  end.

(** [PendingBackendInput::read_into] a destination of [cap] free bytes. *)
Definition read_into (cap : nat) (p : PendingBackendInput) : bytes * PendingBackendInput :=
  let n := Nat.min (length (pending_available p)) cap in
  (take n (pending_available p), advance_pending n p).

(** [ConnectionPhase] *)
Inductive ConnectionPhase := PhaseIdle | PhaseInFlight | PhaseComplete.

#[global] Instance ConnectionPhase_eq_dec : EqDecision ConnectionPhase.
Proof. solve_decision. Defined.

(** The stream of a [ConnectionGuard] with the phase of the guard. *)
Record ConnectionStream := mkConn {
  pending_input : list PendingBackendInput;
  transport : list ReadEvent;
  phase : ConnectionPhase }.

Definition set_pending (c : ConnectionStream) (p : list PendingBackendInput) : ConnectionStream :=
  mkConn p (transport c) (phase c).

Definition MAX_PENDING_BACKEND_BYTES : N := 128 * 1024.

Definition pending_bytes_len (c : ConnectionStream) : nat :=
  foldr (λ p n, pending_remaining p + n) 0 (pending_input c).

Definition has_pending_bytes (c : ConnectionStream) : bool :=
  existsb (λ p, negb (pending_remaining p =? 0)) (pending_input c).

(** [queue_pending_bytes_first]; [None] is the error of [ensure_pending_bytes_capacity]. *)
Definition queue_pending_bytes_first (b : bytes) (c : ConnectionStream) : option ConnectionStream :=
  if bool_decide (b = []) then Some c
  else if (N.of_nat (pending_bytes_len c + length b) <=? MAX_PENDING_BACKEND_BYTES)%N
  then Some (set_pending c (Copied b 0 :: pending_input c))
  else None.

Definition queue_pending_bytes (b : bytes) (c : ConnectionStream) : option ConnectionStream :=
  if bool_decide (b = []) then Some c
  else if (N.of_nat (pending_bytes_len c + length b) <=? MAX_PENDING_BACKEND_BYTES)%N
  then Some (set_pending c (pending_input c ++ [Copied b 0]))
  else None.

Definition queue_pooled_pending_bytes_first (buffer : PooledBuffer) (start end_ : nat) (c : ConnectionStream)
    : option ConnectionStream :=
  if negb (start <=? end_) then None
  else if end_ - start =? 0 then Some c
  else if negb (end_ <=? initialized buffer) then None
  else Some (set_pending c (Pooled buffer start end_ 0 :: pending_input c)).

Definition take_leading_pooled_pending_input (c : ConnectionStream)
    : option (PooledBuffer * nat * nat * ConnectionStream) :=
  match pending_input c with
  | Pooled buffer start end_ pos :: rest => Some (buffer, start + pos, end_, set_pending c rest)
  | _ => None
  end.

(** One read of the transport into [cap] free bytes; a closed transport stays closed. *)
Definition transport_read (cap : nat) (l : list ReadEvent) : result ErrorKind bytes * list ReadEvent :=
  match l with
  | [] => (Ok [], [])
  | ReadFails k :: l => (Err k, l)
  | Data [] :: _ => (Ok [], l)
  | Data b :: l => if length b <=? cap then (Ok b, l) else (Ok (take cap b), Data (drop cap b) :: l)
  end.

(** [ConnectionStream::poll_read] *)
Definition stream_read (cap : nat) (c : ConnectionStream) : result ErrorKind bytes * ConnectionStream :=
  match pending_input c with
  | front :: rest =>
      if 0 <? cap then
        let '(b, front) := read_into cap front in
        (Ok b, set_pending c (if pending_remaining front =? 0 then rest else front :: rest))
      else let '(r, l) := transport_read cap (transport c) in (r, mkConn (pending_input c) l (phase c))
  | [] => let '(r, l) := transport_read cap (transport c) in (r, mkConn [] l (phase c))
  end.

(** [read_into_spare]: [Ok n] is the number of new bytes. *)
Definition read_into_spare (read_len : nat) (b : PooledBuffer) (c : ConnectionStream)
    : result ErrorKind nat * PooledBuffer * ConnectionStream :=
  let n := Nat.min read_len (capacity b - (visible_from b + initialized b)) in
  if n =? 0 then (Ok 0, b, c)
  else
    match stream_read n c with
    | (Ok new, c) =>
        (Ok (length new), mkBuffer (visible_from b) (visible b ++ new) (capacity b) (writable_len b), c)
    | (Err k, c) => (Err k, b, c)
    end.

(** [PooledBuffer::read_from] *)
Definition read_from (b : PooledBuffer) (c : ConnectionStream)
    : result ErrorKind nat * PooledBuffer * ConnectionStream :=
  let b := clear_buffer b in read_into_spare (read_limit b) b c.

(** [PooledBuffer::read_more] *)
Definition read_more (b : PooledBuffer) (c : ConnectionStream)
    : result ErrorKind nat * PooledBuffer * ConnectionStream :=
  let b := compact_visible_if_tail_full b in read_into_spare (read_limit b - initialized b) b c.

(** ** Client writers *)

Inductive WriteOutcome := WriteOk | WriteFails (written : nat) (k : ErrorKind).

Record Writer := mkWriter { sent : bytes; outcomes : list WriteOutcome }.

(** [write_all]: an error leaves at least the last byte unwritten. *)
Definition write_all (b : bytes) (w : Writer) : result ErrorKind unit * Writer :=
  match b, outcomes w with
  | [], _ => (Ok (), w)
  | _, [] => (Ok (), mkWriter (sent w ++ b) [])
  | _, WriteOk :: l => (Ok (), mkWriter (sent w ++ b) l)
  | _, WriteFails n k :: l => (Err k, mkWriter (sent w ++ take (Nat.min n (length b - 1)) b) l)
  end.

(** [flush] may report a failure too. *)
Definition flush (w : Writer) : result ErrorKind unit * Writer :=
  match outcomes w with
  | WriteFails _ k :: l => (Err k, mkWriter (sent w) l)
  | WriteOk :: l => (Ok (), mkWriter (sent w) l)
  | [] => (Ok (), w)
  end.

(** ** Chunked responses *)

(** [ChunkedResponse]: the chunks; [len] is their total. *)
Definition chunked_len (chunks : list bytes) : N := N.of_nat (length (concat chunks)).

(** [write_all_to_recording] *)
Fixpoint write_all_to_recording (chunks : list bytes) (w : Writer) : result ErrorKind unit * Writer :=
  match chunks with
  | [] => (Ok (), w)
  | chunk :: chunks =>
      match write_all chunk w with
      | (Ok _, w) => write_all_to_recording chunks w
      | (Err k, w) => (Err k, w)
      end
  end.

(** ** What a connection still has to give *)

Fixpoint transport_bytes (l : list ReadEvent) : bytes :=
  match l with
  | Data (x :: b) :: l => (x :: b) ++ transport_bytes l
  | _ => []
  end.

(** How the transport ends: closed, or with an error. *)
Fixpoint transport_end (l : list ReadEvent) : option ErrorKind :=
  match l with
  | Data (_ :: _) :: l => transport_end l
  | ReadFails k :: _ => Some k
  | Data [] :: _ | [] => None
  end.

Definition upcoming (c : ConnectionStream) : bytes :=
  concat (pending_available <$> pending_input c) ++ transport_bytes (transport c).

Definition from_pool `{PoolLimit} (p : PendingBackendInput) : Prop :=
  match p with Copied _ _ => True | Pooled buffer _ _ _ => buffer_ok buffer end.

Definition pending_ok `{PoolLimit} (p : PendingBackendInput) : Prop :=
  pending_available p ≠ [] ∧ pending_remaining p = length (pending_available p) ∧ from_pool p.

(** No queued segment is empty: an empty one would be read as the end of the stream. *)
Definition conn_ok `{PoolLimit} (c : ConnectionStream) : Prop := Forall pending_ok (pending_input c).

(** A bound on the number of reads that give bytes. *)
Definition reads_left (c : ConnectionStream) : nat := length (upcoming c).

Section StreamFacts.
Context {PL : PoolLimit}.

Lemma advance_pending_spec n p :
  pending_ok p → n ≤ length (pending_available p) →
  pending_available (advance_pending n p) = drop n (pending_available p) ∧
  pending_remaining (advance_pending n p) = length (pending_available p) - n ∧ from_pool (advance_pending n p).
Proof.
  intros (_ & Hr & Hp) Hn. destruct p as [b pos|buffer start end_ pos]; cbn in *.
  - split_and!; [by rewrite drop_drop|rewrite length_drop; lia|done].
  - split_and!; [|lia|done]. unfold slice. rewrite skipn_firstn_comm, drop_drop. f_equal; [lia|f_equal; lia].
Qed.

Lemma stream_read_spec cap c :
  conn_ok c → 0 < cap →
  match stream_read cap c with
  | (Ok b, c') =>
      conn_ok c' ∧ phase c' = phase c ∧ upcoming c = b ++ upcoming c' ∧ length b ≤ cap ∧
      (b = [] → upcoming c = [] ∧ transport_end (transport c) = None) ∧
      (b ≠ [] → transport_end (transport c') = transport_end (transport c))
  | (Err k, c') =>
      conn_ok c' ∧ phase c' = phase c ∧ upcoming c = [] ∧ transport_end (transport c) = Some k
  end.
Proof.
  intros Hok Hcap. unfold stream_read, conn_ok, upcoming in *. destruct c as [pending tr ph]. cbn [pending_input transport phase] in *.
  destruct pending as [|front rest]; cbn [fmap list_fmap concat app].
  - destruct tr as [|[[|x b]|k] tr]; cbn [transport_read].
    + split_and!; (done || cbn; lia).
    + split_and!; (done || cbn; lia).
    + destruct (Nat.leb_spec (length (x :: b)) cap) as [Hle|Hgt]; cbn [pending_input transport phase fmap list_fmap concat app].
      * cbn [transport_bytes transport_end]. split_and!; (done || cbn; lia).
      * assert (∃ y b', drop cap (x :: b) = y :: b') as (y & b' & E).
        { destruct (drop cap (x :: b)) eqn:E; [|eauto]. apply (f_equal length) in E. rewrite length_drop in E. cbn in *. lia. }
        split_and!; [done|done| |rewrite length_take; lia| |].
        -- rewrite E. cbn [transport_bytes]. rewrite <- E, app_assoc, take_drop. done.
        -- intros Hnil. destruct cap; [lia|done].
        -- intros _. by rewrite E.
    + split_and!; (done || cbn; lia).
  - destruct (Nat.ltb_spec 0 cap); [|lia]. cbn [read_into].
    apply Forall_cons in Hok as [Hf Hr]. set (a := pending_available front) in *. set (n := Nat.min (length a) cap).
    destruct (advance_pending_spec n front Hf) as (Ea & Er & Ep); [fold a; lia|]. fold a in Ea, Er.
    assert (a ≠ []) as Hne by apply Hf. assert (0 < length a) by (destruct a; [done|cbn; lia]).
    rewrite Er. cbn [set_pending pending_input transport phase].
    assert (take n a ≠ []) as Htake by (intros E; apply (f_equal length) in E; rewrite length_take in E; cbn in E; lia).
    destruct (Nat.eqb_spec (length a - n) 0) as [E0|E0].
    + split_and!; [done|done| |rewrite length_take; lia|done|done]. rewrite take_ge by lia. by rewrite app_assoc.
    + split_and!; [| |cbn [fmap list_fmap concat]|rewrite length_take; lia|done|done].
      * constructor; [|done]. split; [|by rewrite Ea, Er, length_drop]. rewrite Ea. intros E. apply (f_equal length) in E. rewrite length_drop in E. cbn in E. lia.
      * done.
      * rewrite Ea. rewrite <- (take_drop n a) at 1. by rewrite <- !app_assoc.
Qed.

(** The allocation behind a buffer does not change. *)
Definition same_pool (b b' : PooledBuffer) : Prop := capacity b' = capacity b ∧ writable_len b' = writable_len b.

Lemma same_pool_limit b b' : same_pool b b' → read_limit b' = read_limit b.
Proof. intros [E1 E2]. unfold read_limit. by rewrite E1, E2. Qed.

#[local] Instance same_pool_preorder : PreOrder same_pool.
Proof. split; [by intros b|]. intros b1 b2 b3 [? ?] [? ?]. split; congruence. Qed.

(** A read that may take at least one byte: new bytes are appended, and no bytes
    means that the stream has ended. *)
Lemma read_into_spare_spec read_len b c :
  conn_ok c → buffer_ok b → 0 < read_len ≤ read_limit b - initialized b → visible_from b + initialized b < capacity b →
  match read_into_spare read_len b c with
  | (Ok n, b', c') =>
      ∃ new, visible b' = visible b ++ new ∧ n = length new ∧ same_pool b b' ∧ buffer_ok b' ∧ conn_ok c' ∧
        phase c' = phase c ∧ upcoming c = new ++ upcoming c' ∧ initialized b' ≤ read_limit b ∧
        (n = 0 → upcoming c = [] ∧ transport_end (transport c) = None) ∧
        (n ≠ 0 → transport_end (transport c') = transport_end (transport c))
  | (Err k, b', c') =>
      b' = b ∧ conn_ok c' ∧ phase c' = phase c ∧ upcoming c = [] ∧ transport_end (transport c) = Some k
  end.
Proof.
  intros Hc (Hb1 & Hb2 & Hb3) Hlen Hspare. unfold read_into_spare. unfold initialized in *.
  set (n := Nat.min read_len (capacity b - (visible_from b + length (visible b)))).
  destruct (Nat.eqb_spec n 0); [lia|]. pose proof (stream_read_spec n c Hc ltac:(lia)) as H.
  destruct (stream_read n c) as [[new|k] c']; [|by destruct H as (? & ? & ? & ?)].
  destruct H as (Hok & Hph & Hup & Hle & Hend & Hmore). exists new. cbn [visible].
  split_and!; try done.
  - split; [done|]. split; [|done]. unfold initialized. cbn. rewrite length_app. lia.
  - unfold initialized. cbn. rewrite length_app. lia.
  - intros ->%nil_length_inv. by apply Hend.
  - intros Hne. apply Hmore. by destruct new.
Qed.

Lemma read_from_spec b c :
  conn_ok c → buffer_ok b →
  match read_from b c with
  | (Ok n, b', c') =>
      n = length (visible b') ∧ visible_from b' = 0 ∧ same_pool b b' ∧ buffer_ok b' ∧ conn_ok c' ∧
      phase c' = phase c ∧ upcoming c = visible b' ++ upcoming c' ∧ initialized b' ≤ read_limit b ∧
      (n = 0 → upcoming c = [] ∧ transport_end (transport c) = None) ∧
      (n ≠ 0 → transport_end (transport c') = transport_end (transport c))
  | (Err k, b', c') =>
      visible b' = [] ∧ same_pool b b' ∧ buffer_ok b' ∧ conn_ok c' ∧ phase c' = phase c ∧
      upcoming c = [] ∧ transport_end (transport c) = Some k
  end.
Proof.
  intros Hc Hb. unfold read_from. set (b0 := clear_buffer b).
  assert (buffer_ok b0) as Hb0 by (destruct Hb as ([? ?] & ? & ?); split_and!; (done || cbn; lia)).
  assert (read_limit b0 = read_limit b) as El by done.
  pose proof (read_into_spare_spec (read_limit b0) b0 c Hc Hb0) as H.
  assert (visible_from b0 = 0) by done. assert (visible b0 = []) by done. assert (initialized b0 = 0) as Ei by done.
  assert (capacity b0 = capacity b) by done. destruct Hb as ([? ?] & ? & ?).
  specialize (H ltac:(rewrite Ei; lia) ltac:(rewrite Ei; cbn; lia)).
  unfold read_into_spare in *. destruct (Nat.min _ _ =? 0).
  - destruct H as (new & Hv & Hn & ? & ? & ? & ? & Hup & ? & ? & ?). symmetry in Hn. apply nil_length_inv in Hn as ->.
    split_and!; done.
  - destruct (stream_read _ c) as [[new|k] c'].
    + destruct H as (new' & Hv & -> & ? & ? & ? & ? & Hup & ? & ? & ?). cbn [visible] in *. cbn in Hv. subst new'.
      split_and!; done.
    + destruct H as (_ & ? & ? & ? & ?). by split_and!.
Qed.

Lemma compact_spec b :
  buffer_ok b → visible (compact_visible_if_tail_full b) = visible b ∧ same_pool b (compact_visible_if_tail_full b) ∧
  buffer_ok (compact_visible_if_tail_full b) ∧
  (initialized b < read_limit b →
   visible_from (compact_visible_if_tail_full b) + initialized b < capacity b).
Proof.
  intros ([? ?] & ? & ?). unfold compact_visible_if_tail_full. destruct (Nat.eqb_spec (visible_from b) 0) as [E|E]; cbn [negb andb].
  - split; [done|]. split; [done|]. split; [by split_and!|lia].
  - destruct (Nat.eqb_spec (capacity b) (visible_from b + initialized b)).
    + split; [done|]. split; [done|]. split; [split; [done|]; split; [unfold initialized in *; cbn; lia|done]|cbn; lia].
    + split; [done|]. split; [done|]. split; [by split_and!|lia].
Qed.

Lemma read_more_spec b c :
  conn_ok c → buffer_ok b → initialized b < read_limit b →
  match read_more b c with
  | (Ok n, b', c') =>
      ∃ new, visible b' = visible b ++ new ∧ n = length new ∧ same_pool b b' ∧ buffer_ok b' ∧ conn_ok c' ∧
        phase c' = phase c ∧ upcoming c = new ++ upcoming c' ∧ initialized b' ≤ read_limit b ∧
        (n = 0 → upcoming c = [] ∧ transport_end (transport c) = None) ∧
        (n ≠ 0 → transport_end (transport c') = transport_end (transport c))
  | (Err k, b', c') =>
      visible b' = visible b ∧ same_pool b b' ∧ buffer_ok b' ∧ conn_ok c' ∧ phase c' = phase c ∧
      upcoming c = [] ∧ transport_end (transport c) = Some k
  end.
Proof.
  intros Hc Hb Hlt. unfold read_more. destruct (compact_spec b Hb) as (Ev & Hp & Hb1 & Hsp). specialize (Hsp Hlt).
  set (b1 := compact_visible_if_tail_full b) in *. assert (initialized b1 = initialized b) as Ei by (unfold initialized; by rewrite Ev).
  assert (read_limit b1 = read_limit b) as El by (by apply same_pool_limit).
  pose proof (read_into_spare_spec (read_limit b1 - initialized b1) b1 c Hc Hb1 ltac:(lia)) as H.
  destruct Hp as [Hp1 Hp2]. specialize (H ltac:(lia)).
  destruct (read_into_spare _ b1 c) as [[[n|k] b'] c'].
  - destruct H as (new & Hv & -> & [? ?] & ? & ? & ? & ? & ? & ? & ?). exists new. rewrite Ev in Hv.
    split_and!; try done; [split; congruence|lia].
  - destruct H as (-> & ? & ? & ? & ?). by split_and!.
Qed.

End StreamFacts.

(** ** Writers *)

(** What a write sends is a prefix; on success all of it. *)
Lemma write_all_spec b w :
  match write_all b w with
  | (Ok _, w') => sent w' = sent w ++ b
  | (Err _, w') => ∃ n, sent w' = sent w ++ take n b ∧ n < length b
  end.
Proof.
  unfold write_all. destruct b as [|x b]; [by rewrite app_nil_r|]. destruct (outcomes w) as [|[|n k] l]; [done|done|].
  cbn [sent]. eexists. split; [done|]. cbn. lia.
Qed.

Lemma write_all_to_recording_spec chunks w :
  match write_all_to_recording chunks w with
  | (Ok _, w') => sent w' = sent w ++ concat chunks
  | (Err _, w') => ∃ n, sent w' = sent w ++ take n (concat chunks) ∧ n < length (concat chunks)
  end.
Proof.
  revert w. induction chunks as [|chunk chunks IH]; intros w; cbn [write_all_to_recording concat]; [by rewrite app_nil_r|].
  pose proof (write_all_spec chunk w) as H. destruct (write_all chunk w) as [[[]|k] w1].
  - specialize (IH w1). destruct (write_all_to_recording chunks w1) as [[[]|k] w2]; rewrite H in IH; [by rewrite IH, app_assoc|].
    destruct IH as (n & E & Hn). exists (length chunk + n). rewrite E, take_app_add, app_assoc, length_app. split; [done|lia].
  - destruct H as (n & E & Hn). exists n. rewrite E, take_app_le, length_app by lia. split; [done|lia].
Qed.

(** A writer that never fails. *)
Definition healthy (w : Writer) : Prop := Forall (λ o, o = WriteOk) (outcomes w).

Lemma write_all_healthy b w : healthy w → ∃ w', write_all b w = (Ok (), w') ∧ sent w' = sent w ++ b ∧ healthy w'.
Proof.
  unfold healthy, write_all. intros H. destruct b as [|x b]; [exists w; by rewrite app_nil_r|].
  destruct (outcomes w) as [|o l]; [eexists; split_and!; [done|done|constructor]|].
  apply Forall_cons in H as [-> H]. eexists. by split_and!.
Qed.

Lemma write_all_to_recording_healthy chunks w :
  healthy w → ∃ w', write_all_to_recording chunks w = (Ok (), w') ∧ sent w' = sent w ++ concat chunks ∧ healthy w'.
Proof.
  revert w. induction chunks as [|chunk chunks IH]; intros w H; cbn; [exists w; by rewrite app_nil_r|].
  destruct (write_all_healthy chunk w H) as (w1 & -> & E1 & H1). destruct (IH w1 H1) as (w2 & -> & E2 & H2).
  exists w2. split_and!; [done| |done]. by rewrite E2, E1, app_assoc.
Qed.
