(* ===== verification/Transfer.v ===== *)
(** * Transfer: one backend response on its way to the client

    Models the response exchange of [src/src/session/multiline_framing.rs]
    ([ClassifiedResponse], [StreamingResponse], [Receiving] and
    [BackendResponseExchange]) with the errors and connection fates of
    [src/src/session/response_transfer.rs] and [src/src/session/session_error.rs]:
    reading and classifying a response, forwarding it while it arrives, capturing
    it for the cache, and draining it.

    The loops read the connection until the response is complete.  Each read that
    gives bytes shortens what the connection still has to give, so [reads_left]
    iterations are enough; running out of them is never reached.  Log output and
    the timing samples are left out. *)

From S2P Require Import Prelude Protocol Request Scanner Framer Stream.

(** ** Errors *)

(** The source of an [anyhow::Error] inside [ResponseTransferError::Io]. *)
Inductive IoCause :=
| IoRead (k : ErrorKind)
| IoFraming (e : FramingError)
| IoClassification (e : ResponseReadError)
| IoPendingLimit
| IoInvalidResponse.

Inductive ResponseTransferError :=
| RtClientDisconnect (k : ErrorKind)
| RtClientWrite (k : ErrorKind)
| RtClientWriteUnpreserved (k : ErrorKind)
| RtDeliveredPrefix (e : ResponseTransferError)
| RtBackendEof (backend_id : nat) (bytes_received : N)
| RtIo (cause : IoCause).

Inductive BackendConnectionOutcome := BackendHealthy | BackendDirty | BackendFailed.

Inductive ResponseConnectionReuse := ReuseIncomplete | Reusable | QueuedBytes (len : nat).

Definition from_client_write (k : ErrorKind) : ResponseTransferError :=
  if is_disconnect_kind k then RtClientDisconnect k else RtClientWrite k.

Definition from_client_write_after_cleanup (k : ErrorKind) (cleanup : result ResponseTransferError unit)
    : ResponseTransferError :=
  match cleanup with
  | Err _ => RtClientWriteUnpreserved k
  | Ok _ => from_client_write k
  end.

Definition after_client_delivery (e : ResponseTransferError) : ResponseTransferError :=
  match e with
  | RtClientDisconnect _ | RtClientWrite _ | RtClientWriteUnpreserved _ | RtDeliveredPrefix _ => e
  | RtBackendEof _ _ | RtIo _ => RtDeliveredPrefix e
  end.

Definition error_pool_fate (e : ResponseTransferError) (reuse : ResponseConnectionReuse) : BackendConnectionOutcome :=
  match e with
  | RtClientWriteUnpreserved _ | RtDeliveredPrefix _ => BackendFailed
  | _ =>
      match reuse with
      | ReuseIncomplete => BackendFailed
      | QueuedBytes _ => BackendDirty
      | Reusable =>
          match e with
          | RtClientDisconnect _ | RtClientWrite _ => BackendHealthy
          | _ => BackendFailed
          end
      end
  end.

Definition reuse_pool_fate (r : ResponseConnectionReuse) : BackendConnectionOutcome :=
  match r with
  | ReuseIncomplete => BackendFailed
  | Reusable => BackendHealthy
  | QueuedBytes _ => BackendDirty
  end.

Definition connection_reuse_after_response (c : ConnectionStream) : ResponseConnectionReuse :=
  if negb (bool_decide (phase c = PhaseComplete)) then ReuseIncomplete
  else if has_pending_bytes c then QueuedBytes (pending_bytes_len c)
  else Reusable.

(** [mark_response_complete]; a guard in use is never idle. *)
Definition mark_response_complete (c : ConnectionStream) : ConnectionStream :=
  mkConn (pending_input c) (transport c) PhaseComplete.

(** [SessionError] and the [anyhow::Error]s it wraps. *)
Inductive AnyError :=
| AnyTransfer (e : ResponseTransferError)
| AnyIo (k : ErrorKind)
| AnyConnectionIo (k : ErrorKind)
| AnyConnection
| AnyOther
| AnySession (e : SessionError)
with SessionError :=
| ClientDisconnect (k : ErrorKind)
| BackendError (e : AnyError).

Definition session_error_from_anyhow (e : AnyError) : SessionError :=
  match e with
  | AnySession s => s
  | AnyIo k | AnyConnectionIo k => if is_disconnect_kind k then ClientDisconnect k else BackendError e
  | AnyTransfer _ | AnyConnection | AnyOther => BackendError e
  end.

Definition session_error_from_transfer (e : ResponseTransferError) : SessionError :=
  match e with
  | RtClientDisconnect k => ClientDisconnect k
  | RtClientWrite k | RtClientWriteUnpreserved k =>
      if is_disconnect_kind k then ClientDisconnect k else BackendError (AnyTransfer e)
  | _ => BackendError (AnyTransfer e)
  end.

Definition is_failed_client_write (e : SessionError) : bool :=
  match e with
  | BackendError (AnyTransfer (RtClientWrite _)) | BackendError (AnyTransfer (RtClientWriteUnpreserved _)) => true
  | _ => false
  end.

Definition blocks_another_response (e : SessionError) : bool :=
  if is_failed_client_write e then true
  else match e with BackendError (AnyTransfer (RtDeliveredPrefix _)) => true | _ => false end.

(** ** Write statistics *)

Record ResponseWriteStats := mkStats {
  chunk_count : nat;
  bytes_written : nat;
  tiny_chunks : nat;
  tiny_chunk_bytes : nat;
  small_chunks : nat;
  small_chunk_bytes : nat }.

Definition no_stats : ResponseWriteStats := mkStats 0 0 0 0 0 0.

Definition classify_response_write_chunk (n : nat) : nat * nat * nat * nat :=
  let tiny := (N.of_nat n <=? 256)%N in
  let small := (N.of_nat n <=? 4096)%N in
  (if tiny then 1 else 0, if tiny then n else 0, if small then 1 else 0, if small then n else 0).

Definition add_chunk (n : nat) (s : ResponseWriteStats) : ResponseWriteStats :=
  let '(tc, tb, sc, sb) := classify_response_write_chunk n in
  mkStats (chunk_count s + 1) (bytes_written s + n) (tiny_chunks s + tc) (tiny_chunk_bytes s + tb)
    (small_chunks s + sc) (small_chunk_bytes s + sb).

Definition add_buffered_response (chunks : list bytes) (s : ResponseWriteStats) : ResponseWriteStats :=
  foldl (λ s chunk, add_chunk (length chunk) s) s chunks.

(** [AddAssign] *)
Definition add_stats (a b : ResponseWriteStats) : ResponseWriteStats :=
  mkStats (chunk_count a + chunk_count b) (bytes_written a + bytes_written b) (tiny_chunks a + tiny_chunks b)
    (tiny_chunk_bytes a + tiny_chunk_bytes b) (small_chunks a + small_chunks b)
    (small_chunk_bytes a + small_chunk_bytes b).

(** ** Streaming a response *)

Inductive ResponseShape := ShapeSingleLine | ShapeMultiline.

Record ResponseMetadata := mkMetadata {
  meta_kind : RequestKind;
  meta_status : StatusCode;
  meta_status_line_end : nat }.

(** [StreamingResponse] with its [ResponseCursor]; the policy of the cursor is
    [AllowIfStatusPrefix]. *)
Record StreamingResponse := mkStreaming {
  s_conn : ConnectionStream;
  s_buffer : PooledBuffer;
  s_framer : MultilineFramer;
  s_frame : ResponseWindow;
  s_metadata : ResponseMetadata;
  s_shape : ResponseShape;
  s_received : N }.

(** [CapturedChunkedResponse] *)
Record CapturedChunkedResponse := mkCaptured {
  cap_metadata : ResponseMetadata;
  cap_chunks : list bytes;
  cap_payload_end : nat }.

(** [ClassifiedResponse] *)
Record ClassifiedResponse := mkClassified {
  cl_buffer : PooledBuffer;
  cl_frame : result ResponseReadError ResponseFrame;
  cl_kind : RequestKind }.

Definition is_complete (s : StreamingResponse) : bool :=
  match s_frame s with CompleteWindow _ _ => true | IncompleteWindow _ => false end.

Definition set_io (s : StreamingResponse) (b : PooledBuffer) (c : ConnectionStream) : StreamingResponse :=
  mkStreaming c b (s_framer s) (s_frame s) (s_metadata s) (s_shape s) (s_received s).

(** [CachePayloadEnd::new]: the end lies within the capture. *)
Definition payload_end_new (value total : nat) : option nat := if value <=? total then Some value else None.

Section Exchange.
Context {MC : Memchr} (t : target).

(** The pool's [acquire()], and the backend of the exchange. *)
Variable fresh : PooledBuffer.
Variable backend_id : nat.

(** [CompleteResponseWindow::queue_next_response_input] *)
Definition queue_next_response_input (next : nat * nat) (b : bytes) (c : ConnectionStream)
    : result ResponseTransferError unit * ConnectionStream :=
  if next.1 <? length b then
    match queue_pending_bytes_first (slice next.1 next.2 b) c with
    | Some c => (Ok (), c)
    | None => (Err (RtIo IoPendingLimit), c)
    end
  else (Ok (), c).

(** [queue_pooled_next_response_input] and [observe_from_buffer] *)
Definition queue_pooled_next_response_input (next : nat * nat) (b : PooledBuffer) (c : ConnectionStream)
    : result ResponseTransferError unit * PooledBuffer * ConnectionStream :=
  if next.1 <? initialized b then
    match queue_pooled_pending_bytes_first b next.1 next.2 c with
    | Some c => (Ok (), fresh, c)
    | None => (Err (RtIo IoPendingLimit), fresh, c)
    end
  else (Ok (), b, c).

(** [push_from_buffer]: the window becomes the next chunk of the capture. *)
Definition push_from_buffer (response next : nat * nat) (b : PooledBuffer) (c : ConnectionStream) (chunks : list bytes)
    : result ResponseTransferError (list bytes) * PooledBuffer * ConnectionStream :=
  match queue_next_response_input next (visible b) c with
  | (Ok _, c) => (Ok (chunks ++ [slice response.1 response.2 (visible b)]), fresh, c)
  | (Err e, c) => (Err e, fresh, c)
  end.

(** [write_response_chunk_preserving_suffix_on_error] *)
Definition write_from (response next : nat * nat) (s : StreamingResponse) (w : Writer)
    : result ResponseTransferError ResponseWriteStats * StreamingResponse * Writer :=
  let chunk := slice response.1 response.2 (visible (s_buffer s)) in
  match write_all chunk w with
  | (Err k, w) =>
      let '(cleanup, b, c) := queue_pooled_next_response_input next (s_buffer s) (s_conn s) in
      (Err (from_client_write_after_cleanup k cleanup), set_io s b c, w)
  | (Ok _, w) =>
      let stats := add_chunk (length chunk) no_stats in
      let '(queued, b, c) := queue_pooled_next_response_input next (s_buffer s) (s_conn s) in
      match queued with
      | Ok _ => (Ok stats, set_io s b c, w)
      | Err e => (Err e, set_io s b c, w)
      end
  end.

(** [read_next_chunk] *)
Definition read_next_chunk (s : StreamingResponse) : result ResponseTransferError unit * StreamingResponse :=
  match read_from (s_buffer s) (s_conn s) with
  | (Err k, b, c) => (Err (RtIo (IoRead k)), set_io s b c)
  | (Ok 0, b, c) => (Err (RtBackendEof backend_id (s_received s)), set_io s b c)
  | (Ok n, b, c) =>
      let received := (s_received s + N.of_nat n)%N in
      let '(frame, framer) := frame_with_policy t (s_framer s) (visible b) AllowIfStatusPrefix in
      match frame with
      | Ok frame => (Ok (), mkStreaming c b framer frame (s_metadata s) (s_shape s) received)
      | Err e => (Err (RtIo (IoFraming e)), mkStreaming c b framer (s_frame s) (s_metadata s) (s_shape s) received)
      end
  end.

(** [append_to_retained_prefix_if_writable]; the policy cannot reject trailing bytes. *)
Definition append_to_retained_prefix_if_writable (s : StreamingResponse)
    : result ResponseTransferError unit * StreamingResponse :=
  match s_frame s with
  | CompleteWindow _ _ => (Ok (), s)
  | IncompleteWindow _ =>
      if negb (retained_append_permitted (s_buffer s)) then (Ok (), s)
      else
        let previous_len := initialized (s_buffer s) in
        match read_more (s_buffer s) (s_conn s) with
        | (Err k, b, c) => (Err (RtIo (IoRead k)), set_io s b c)
        | (Ok 0, b, c) => (Err (RtBackendEof backend_id (s_received s)), set_io s b c)
        | (Ok n, b, c) =>
            let received := (s_received s + N.of_nat n)%N in
            let '(frame, framer) :=
              split_appended t (s_framer s) previous_len (drop previous_len (visible b)) AllowIfStatusPrefix in
            match frame with
            | Ok frame => (Ok (), mkStreaming c b framer frame (s_metadata s) (s_shape s) received)
            | Err e => (Err (RtIo (IoFraming e)), mkStreaming c b framer (s_frame s) (s_metadata s) (s_shape s) received)
            end
        end
  end.

(** Unreachable: see [reads_left]. *)
Definition out_of_reads (s : StreamingResponse) : ResponseTransferError := RtBackendEof backend_id (s_received s).

Fixpoint drain_loop (fuel : nat) (s : StreamingResponse) : result ResponseTransferError unit * StreamingResponse :=
  match s_frame s with
  | CompleteWindow _ next =>
      let '(r, c) := queue_next_response_input next (visible (s_buffer s)) (s_conn s) in (r, set_io s (s_buffer s) c)
  | IncompleteWindow _ =>
      match read_next_chunk s with
      | (Err e, s) => (Err e, s)
      | (Ok _, s) => match fuel with 0 => (Err (out_of_reads s), s) | S fuel => drain_loop fuel s end
      end
  end.

Definition drain (s : StreamingResponse) : result ResponseTransferError unit * StreamingResponse :=
  drain_loop (reads_left (s_conn s)) s.

(** [StreamingResponse::observe] *)
Definition observe (s : StreamingResponse) : result ResponseTransferError unit * StreamingResponse :=
  match s_frame s with
  | CompleteWindow _ next =>
      let '(r, b, c) := queue_pooled_next_response_input next (s_buffer s) (s_conn s) in (r, set_io s b c)
  | IncompleteWindow _ => drain s
  end.

(** [write_current_and_remaining_chunks] *)
Fixpoint write_loop (fuel : nat) (stats : ResponseWriteStats) (s : StreamingResponse) (w : Writer)
    : result ResponseTransferError ResponseWriteStats * StreamingResponse * Writer :=
  match s_frame s with
  | CompleteWindow response next =>
      match write_from response next s w with
      | (Ok more, s, w) => (Ok (add_stats stats more), s, w)
      | (Err e, s, w) => (Err e, s, w)
      end
  | IncompleteWindow response =>
      let chunk := slice response.1 response.2 (visible (s_buffer s)) in
      match write_all chunk w with
      | (Err k, w) => let '(cleanup, s) := drain s in (Err (from_client_write_after_cleanup k cleanup), s, w)
      | (Ok _, w) =>
          let stats := add_chunk (length chunk) stats in
          match read_next_chunk s with
          | (Err e, s) => (Err (if 0 <? bytes_written stats then after_client_delivery e else e), s, w)
          | (Ok _, s) => match fuel with 0 => (Err (out_of_reads s), s, w) | S fuel => write_loop fuel stats s w end
          end
      end
  end.

Definition write_current_and_remaining_chunks (s : StreamingResponse) (w : Writer)
    : result ResponseTransferError ResponseWriteStats * StreamingResponse * Writer :=
  write_loop (reads_left (s_conn s)) no_stats s w.

(** [StreamingResponse::write] *)
Definition write (s : StreamingResponse) (w : Writer)
    : result ResponseTransferError ResponseWriteStats * StreamingResponse * Writer :=
  match append_to_retained_prefix_if_writable s with
  | (Err e, s) => (Err e, s, w)
  | (Ok _, s) => write_current_and_remaining_chunks s w
  end.

Definition exceeds_limit (shape : ResponseShape) (chunks : list bytes) (chunk_len : nat) (limit : N) : bool :=
  match shape with
  | ShapeSingleLine => false
  | ShapeMultiline => capture_would_exceed_limit (chunked_len chunks) (N.of_nat chunk_len) limit
  end.

Definition window_len (f : ResponseWindow) : nat :=
  match f with
  | CompleteWindow response _ | IncompleteWindow response => response.2 - response.1
  end.

(** The end of a complete capture: the framer established both bounds. *)
Definition capture_end (shape : ResponseShape) (chunks : list bytes) : option nat :=
  let total := length (concat chunks) in
  match shape with
  | ShapeSingleLine => payload_end_new total total
  | ShapeMultiline => e ← checked_sub total (length DOT_TERMINATOR); payload_end_new e total
  end.

(** [capture_and_write]: the capture starts empty.  [None] in the second
    component of the result is a response above the limit, forwarded and not
    retained; a [None] of [capture_end] would be a failed [expect]. *)
Fixpoint capture_loop (fuel : nat) (chunks : list bytes) (limit : N) (s : StreamingResponse) (w : Writer)
    : result ResponseTransferError (nat * option CapturedChunkedResponse) * StreamingResponse * Writer :=
  if exceeds_limit (s_shape s) chunks (window_len (s_frame s)) limit then
    let stats := add_buffered_response chunks no_stats in
    match write_all_to_recording chunks w with
    | (Err k, w) => let '(cleanup, s) := observe s in (Err (from_client_write_after_cleanup k cleanup), s, w)
    | (Ok _, w) =>
        match write_current_and_remaining_chunks s w with
        | (Ok more, s, w) => (Ok (bytes_written (add_stats stats more), None), s, w)
        | (Err e, s, w) => (Err e, s, w)
        end
    end
  else
    match s_frame s with
    | CompleteWindow response next =>
        match push_from_buffer response next (s_buffer s) (s_conn s) chunks with
        | (Err e, b, c) => (Err e, set_io s b c, w)
        | (Ok chunks, b, c) =>
            let stats := add_buffered_response chunks no_stats in
            match write_all_to_recording chunks w with
            | (Err k, w) => (Err (from_client_write k), set_io s b c, w)
            | (Ok _, w) =>
                (Ok (bytes_written stats, mkCaptured (s_metadata s) chunks <$> capture_end (s_shape s) chunks),
                 set_io s b c, w)
            end
        end
    | IncompleteWindow response =>
        let chunks := chunks ++ [slice response.1 response.2 (visible (s_buffer s))] in
        match read_next_chunk (set_io s fresh (s_conn s)) with
        | (Err e, s) => (Err e, s, w)
        | (Ok _, s) => match fuel with 0 => (Err (out_of_reads s), s, w) | S fuel => capture_loop fuel chunks limit s w end
        end
    end.

Definition capture_and_write (limit : N) (s : StreamingResponse) (w : Writer)
    : result ResponseTransferError (nat * option CapturedChunkedResponse) * StreamingResponse * Writer :=
  capture_loop (reads_left (s_conn s)) [] limit s w.

(** ** Classifying a response *)

(** [stream_mut]: the guard is in use. *)
Definition in_flight (c : ConnectionStream) : ConnectionStream := mkConn (pending_input c) (transport c) PhaseInFlight.

(** [ClassifiedResponse::read_unbound] *)
Fixpoint read_unbound_loop (fuel : nat) (request : RequestContext) (b : PooledBuffer) (c : ConnectionStream)
    : result AnyError ClassifiedResponse * ConnectionStream :=
  match parse_bytes request (visible b) with
  | Err ReadIncomplete =>
      match read_more b c with
      | (Err k, _, c) => (Err (AnyIo k), c)
      | (Ok 0, _, c) => (Err AnyOther, c)
      | (Ok _, b, c) => match fuel with 0 => (Err AnyOther, c) | S fuel => read_unbound_loop fuel request b c end
      end
  | frame => (Ok (mkClassified b frame (kind request)), c)
  end.

Definition read_unbound (request : RequestContext) (b : PooledBuffer) (c : ConnectionStream)
    : result AnyError ClassifiedResponse * ConnectionStream :=
  read_unbound_loop (reads_left c) request b c.

(** [execute_request_exchange] with the outcome of sending the request. *)
Definition execute_request_exchange (send : result ErrorKind unit) (request : RequestContext) (c : ConnectionStream)
    : result AnyError ClassifiedResponse * ConnectionStream :=
  let c := in_flight c in
  match send with
  | Err k => (Err (AnyIo k), c)
  | Ok _ =>
      match read_from fresh c with
      | (Err k, _, c) => (Err (AnyIo k), c)
      | (Ok 0, _, c) => (Err AnyOther, c)
      | (Ok _, b, c) => read_unbound request b c
      end
  end.

(** [take_queued_input_or_acquire_empty]; [None] would be a failed assertion. *)
Definition take_queued_input_or_acquire_empty (c : ConnectionStream) : option (PooledBuffer * ConnectionStream) :=
  match take_leading_pooled_pending_input c with
  | None => Some (fresh, c)
  | Some (b, start, end_, c) => (λ b, (b, c)) <$> retain_range start end_ b
  end.

(** [read_exchange_for_already_sent_request] *)
Definition read_exchange_for_already_sent_request (request : RequestContext) (c : ConnectionStream)
    : option (result AnyError ClassifiedResponse * ConnectionStream) :=
  '(b, c) ← take_queued_input_or_acquire_empty (in_flight c);
  if initialized b =? 0 then
    match read_from b c with
    | (Err k, _, c) => Some (Err (AnyIo k), c)
    | (Ok 0, _, c) => Some (Err AnyOther, c)
    | (Ok _, b, c) => Some (read_unbound request b c)
    end
  else Some (read_unbound request b c).

Definition status_code (cl : ClassifiedResponse) : option StatusCode :=
  match cl_frame cl with
  | Ok (SingleLine status _ _ _) | Ok (Multiline status _) => Some status
  | Err _ => None
  end.

(** ** Consuming operations *)

(** [StreamingResponse::from_classification] *)
Definition from_classification (cl : ClassifiedResponse) (c : ConnectionStream)
    : result ResponseTransferError StreamingResponse :=
  let received := N.of_nat (initialized (cl_buffer cl)) in
  match cl_frame cl with
  | Err e => Err (RtIo (IoClassification e))
  | Ok (SingleLine status sle response next) =>
      Ok (mkStreaming c (cl_buffer cl) default_framer (CompleteWindow response next)
            (mkMetadata (cl_kind cl) status sle) ShapeSingleLine received)
  | Ok (Multiline status sle) =>
      match begin_after_status_line t (visible (cl_buffer cl)) sle AllowIfStatusPrefix with
      | Err e => Err (RtIo (IoFraming e))
      | Ok (frame, framer) =>
          Ok (mkStreaming c (cl_buffer cl) framer frame (mkMetadata (cl_kind cl) status sle) ShapeMultiline received)
      end
  end.

Definition mark_if (completed : bool) (c : ConnectionStream) : ConnectionStream :=
  if completed then mark_response_complete c else c.

(** [Receiving::write] *)
Definition receiving_write (cl : ClassifiedResponse) (c : ConnectionStream) (w : Writer)
    : result ResponseTransferError nat * ConnectionStream * Writer :=
  let c := in_flight c in
  match from_classification cl c with
  | Err e => (Err e, c, w)
  | Ok s =>
      let '(r, s, w) := write s w in
      (bytes_written <$> r, mark_if (is_complete s) (s_conn s), w)
  end.

(** [Receiving::observe] *)
Definition receiving_observe (cl : ClassifiedResponse) (c : ConnectionStream)
    : result ResponseTransferError unit * ConnectionStream :=
  let c := in_flight c in
  match from_classification cl c with
  | Err e => (Err e, c)
  | Ok s =>
      match observe s with
      | (Ok _, s) => (Ok (), mark_response_complete (s_conn s))
      | (Err e, s) => (Err e, s_conn s)
      end
  end.

(** [Receiving::capture_and_write] *)
Definition receiving_capture_and_write (cl : ClassifiedResponse) (c : ConnectionStream) (w : Writer)
    : result ResponseTransferError (nat * option CapturedChunkedResponse) * ConnectionStream * Writer :=
  let c := in_flight c in
  match from_classification cl c with
  | Err e => (Err e, c, w)
  | Ok s =>
      let '(r, s, w) := capture_and_write MAX_CAPTURED_MULTILINE_RESPONSE_BYTES s w in
      (r, mark_if (is_complete s) (s_conn s), w)
  end.
End Exchange.

(** ** Invariant of a transfer *)

(** The framing state belongs to the bytes read so far, and the window covers the
    visible buffer from its start. *)
Definition window_ok (s : StreamingResponse) : Prop :=
  match s_frame s with
  | CompleteWindow response next =>
      response = (0, next.1) ∧ next.2 = initialized (s_buffer s) ∧ next.1 ≤ next.2
  | IncompleteWindow response =>
      response = (0, initialized (s_buffer s)) ∧ 0 < initialized (s_buffer s) ∧ ∃ S, framer_for S (s_framer s)
  end.

Record streaming_ok `{PoolLimit} (s : StreamingResponse) : Prop := {
  so_conn : conn_ok (s_conn s);
  so_buffer : buffer_ok (s_buffer s);
  so_window : window_ok s }.

(** The same before a read, whose buffer has no contents that matter. *)
Record reading_ok `{PoolLimit} (s : StreamingResponse) : Prop := {
  ro_conn : conn_ok (s_conn s);
  ro_buffer : buffer_ok (s_buffer s);
  ro_incomplete : is_complete s = false;
  ro_framer : ∃ S, framer_for S (s_framer s) }.

Lemma streaming_reading `{PoolLimit} s : streaming_ok s → is_complete s = false → reading_ok s.
Proof.
  intros [Hc Hb Hw] Hi. split; try done. unfold window_ok, is_complete in *. destruct (s_frame s); [done|]. apply Hw.
Qed.

(** The bytes the transfer has not delivered yet. *)
Definition remaining (s : StreamingResponse) : bytes := visible (s_buffer s) ++ upcoming (s_conn s).

(** Errors after which another backend may be tried. *)
Definition retryable (e : ResponseTransferError) : Prop :=
  match e with RtBackendEof _ _ | RtIo _ => True | _ => False end.

(** The connection ended in the way the error says. *)
Definition ended_with (c : ConnectionStream) (e : ResponseTransferError) : Prop :=
  match e with
  | RtBackendEof _ _ => transport_end (transport c) = None
  | RtIo (IoRead k) => transport_end (transport c) = Some k
  | _ => False
  end.

Section TransferFacts.
Context {MC : Memchr} {MS : MemchrSpec MC} {PL : PoolLimit} (t : target).
Variable fresh : PooledBuffer.
Variable backend_id : nat.

Lemma split_chunk_allow_cases f c :
  (∃ e, split_chunk t f c AllowIfStatusPrefix = (Ok (Complete e), f)) ∨
  split_chunk t f c AllowIfStatusPrefix = (Ok Incomplete, update f c).
Proof.
  unfold split_chunk. destruct (split_spanning f c _) as [r|] eqn:E1.
  { unfold split_spanning in E1. destruct (find_spanning_terminator f c) as [e|]; [|done].
    destruct (_ || _); [simplify_eq; eauto|by cbn in E1]. }
  induction (terminator_ends_in_chunk t c) as [|d ends IH]; cbn [split_loop]; [eauto|].
  destruct (d =? length c); [eauto|]. destruct (plausible_status_prefix _); [eauto|apply IH].
Qed.

Lemma split_chunk_allow_total S f c :
  framer_for S f →
  ∃ p f', split_chunk t f c AllowIfStatusPrefix = (Ok p, f') ∧
    match p with
    | Complete e => 0 < e ≤ length c
    | Incomplete => framer_for (S ++ c) f'
    end.
Proof.
  intros Hf. destruct (split_chunk_allow_cases f c) as [[e E]|E]; rewrite E; do 2 eexists; (split; [done|]).
  - by apply (split_chunk_sound t S) in E as [[? _] _].
  - by apply framer_for_update.
Qed.

Lemma read_next_chunk_spec s :
  reading_ok s →
  match read_next_chunk t backend_id s with
  | (Ok _, s') =>
      streaming_ok s' ∧ upcoming (s_conn s) = remaining s' ∧ reads_left (s_conn s') < reads_left (s_conn s) ∧
      phase (s_conn s') = phase (s_conn s) ∧ s_metadata s' = s_metadata s ∧ s_shape s' = s_shape s ∧
      transport_end (transport (s_conn s')) = transport_end (transport (s_conn s))
  | (Err e, s') =>
      ended_with (s_conn s) e ∧ upcoming (s_conn s) = [] ∧ conn_ok (s_conn s') ∧
      phase (s_conn s') = phase (s_conn s) ∧ is_complete s' = false
  end.
Proof.
  intros [Hc Hb Hinc [S HS]]. unfold read_next_chunk. pose proof (read_from_spec (s_buffer s) (s_conn s) Hc Hb) as H.
  destruct (read_from (s_buffer s) (s_conn s)) as [[[n|k] b] c].
  - destruct H as (Hn & Hvf & Hp & Hb' & Hc' & Hph & Hup & Hlim & H0 & Hne).
    destruct n as [|n]; [destruct (H0 eq_refl) as [? ?]; by split_and!|]. specialize (Hne ltac:(done)).
    destruct (split_chunk_allow_total S (s_framer s) (visible b) HS) as (p & f' & E & Hprog).
    unfold frame_with_policy. rewrite E. cbn [fmap result_fmap].
    assert (reads_left c < reads_left (s_conn s)) by (unfold reads_left; rewrite Hup, length_app; lia).
    split_and!; try done. split; try done. unfold window_ok, in_window.
    destruct p as [e|]; cbn [s_frame s_buffer s_framer fst snd].
    + unfold initialized. split_and!; [done|done|lia].
    + split_and!; [done|unfold initialized; lia|by exists (S ++ visible b)].
  - destruct H as (Hv & Hp & Hb' & Hc' & Hph & Hup & Hend). split_and!; try done.
Qed.

Lemma queue_first_spec b c :
  conn_ok c →
  match queue_pending_bytes_first b c with
  | Some c' => conn_ok c' ∧ upcoming c' = b ++ upcoming c ∧ phase c' = phase c
  | None => (MAX_PENDING_BACKEND_BYTES < N.of_nat (pending_bytes_len c + length b))%N
  end.
Proof.
  intros Hc. unfold queue_pending_bytes_first. case_bool_decide as Hb; [by subst|].
  destruct (N.leb_spec (N.of_nat (pending_bytes_len c + length b)) MAX_PENDING_BACKEND_BYTES); [|done].
  split_and!; [|unfold upcoming; cbn; by rewrite drop_0, app_assoc|done].
  constructor; [|done]. split; cbn; rewrite drop_0; [done|split; [lia|done]].
Qed.

Lemma queue_pooled_spec b start c :
  conn_ok c → buffer_ok b → start < initialized b →
  ∃ c', queue_pooled_pending_bytes_first b start (initialized b) c = Some c' ∧ conn_ok c' ∧
    upcoming c' = drop start (visible b) ++ upcoming c ∧ phase c' = phase c.
Proof.
  intros Hc Hb Hs. unfold queue_pooled_pending_bytes_first.
  rewrite (proj2 (Nat.leb_le _ _)), (proj2 (Nat.eqb_neq _ _)), (proj2 (Nat.leb_le _ _)) by lia. cbn [negb].
  assert (slice start (initialized b) (visible b) = drop start (visible b)) as E
    by (unfold slice, initialized; apply take_ge; rewrite length_drop; lia).
  eexists. split_and!; [done| | |done].
  - constructor; [|done]. split; cbn [pending_available pending_remaining]; rewrite Nat.add_0_r, E.
    + intros En. apply (f_equal length) in En. rewrite length_drop in En. unfold initialized in Hs. cbn in En. lia.
    + rewrite length_drop. unfold initialized. split; [lia|done].
  - unfold upcoming. cbn [set_pending pending_input transport fmap list_fmap concat pending_available].
    by rewrite Nat.add_0_r, E, app_assoc.
Qed.

(** Queueing the rest of a window puts it in front of the stream. *)
Lemma queue_next_spec e b c :
  conn_ok c → e ≤ length b →
  match queue_next_response_input (e, length b) b c with
  | (Ok _, c') => conn_ok c' ∧ upcoming c' = drop e b ++ upcoming c ∧ phase c' = phase c
  | (Err err, c') => c' = c ∧ err = RtIo IoPendingLimit ∧
      (MAX_PENDING_BACKEND_BYTES < N.of_nat (pending_bytes_len c + (length b - e)))%N
  end.
Proof.
  intros Hc He. unfold queue_next_response_input. cbn [fst snd]. destruct (Nat.ltb_spec e (length b)) as [Hlt|Hge].
  - pose proof (queue_first_spec (slice e (length b) b) c Hc) as H.
    assert (slice e (length b) b = drop e b) as Es by (unfold slice; apply take_ge; rewrite length_drop; lia).
    rewrite Es in *. destruct (queue_pending_bytes_first _ c) as [c'|]; [done|]. rewrite length_drop in H. by split_and!.
  - rewrite drop_ge by lia. by split_and!.
Qed.

Lemma queue_pooled_next_spec e b c :
  conn_ok c → buffer_ok b → buffer_ok fresh → e ≤ initialized b →
  ∃ b' c', queue_pooled_next_response_input fresh (e, initialized b) b c = (Ok (), b', c') ∧ conn_ok c' ∧ buffer_ok b' ∧
    upcoming c' = drop e (visible b) ++ upcoming c ∧ phase c' = phase c.
Proof.
  intros Hc Hb Hf He. unfold queue_pooled_next_response_input. cbn [fst snd].
  destruct (Nat.ltb_spec e (initialized b)) as [Hlt|Hge].
  - destruct (queue_pooled_spec b e c Hc Hb Hlt) as (c' & -> & ? & ? & ?). exists fresh, c'. by split_and!.
  - exists b, c. rewrite drop_ge by (unfold initialized in Hge; lia). by split_and!.
Qed.

(** Draining consumes exactly the rest of the response. *)
Lemma drain_loop_spec fuel s :
  streaming_ok s → reads_left (s_conn s) ≤ fuel →
  match drain_loop t backend_id fuel s with
  | (Ok _, s') => is_complete s' = true ∧ conn_ok (s_conn s') ∧ phase (s_conn s') = phase (s_conn s) ∧
      ∃ p, remaining s = p ++ upcoming (s_conn s')
  | (Err e, s') => retryable e ∧ conn_ok (s_conn s') ∧ phase (s_conn s') = phase (s_conn s)
  end.
Proof.
  revert s. induction fuel as [|fuel IH]; intros s Hs Hle; cbn [drain_loop].
  all: destruct Hs as [Hc Hb Hw]; assert (streaming_ok s) as Hs by done.
  all: unfold window_ok in Hw; destruct (s_frame s) as [resp next|resp] eqn:Ef.
  1, 3: destruct Hw as (-> & Hn2 & Hn1); destruct next as [e n]; cbn [fst snd] in *; subst n;
    pose proof (queue_next_spec e (visible (s_buffer s)) (s_conn s) Hc Hn1) as H;
    unfold initialized in *; destruct (queue_next_response_input _ _ _) as [[[]|err] c'];
    [destruct H as (? & Hup & ?); split_and!; [unfold is_complete; cbn; by rewrite Ef|done|done|];
       exists (take e (visible (s_buffer s))); unfold remaining; cbn; rewrite Hup, app_assoc, take_drop; done
    |destruct H as (-> & -> & ?); by split_and!].
  all: pose proof (read_next_chunk_spec s (streaming_reading s Hs ltac:(unfold is_complete; by rewrite Ef))) as H;
    destruct (read_next_chunk t backend_id s) as [[[]|e] s1].
  2, 4: destruct H as (He & ? & ? & ? & ?); split_and!; try done; by destruct e as [| | | | |[]].
  - destruct H as (? & ? & ? & ?). lia.
  - destruct H as (Hs1 & Hup & Hlt & Hph & _ & _ & _). specialize (IH s1 Hs1 ltac:(lia)).
    destruct (drain_loop t backend_id fuel s1) as [[[]|e] s2]; rewrite <- Hph; [|done].
    destruct IH as (? & ? & ? & p & Hp). split_and!; try done. exists (visible (s_buffer s) ++ p).
    unfold remaining at 1. by rewrite Hup, Hp, app_assoc.
Qed.

Hypothesis fresh_ok : buffer_ok fresh.

Lemma observe_spec s :
  streaming_ok s →
  match observe t fresh backend_id s with
  | (Ok _, s') => is_complete s' = true ∧ conn_ok (s_conn s') ∧ phase (s_conn s') = phase (s_conn s) ∧
      ∃ p, remaining s = p ++ upcoming (s_conn s')
  | (Err e, s') => retryable e ∧ conn_ok (s_conn s') ∧ phase (s_conn s') = phase (s_conn s)
  end.
Proof.
  intros Hs. unfold observe. destruct (s_frame s) as [resp next|resp] eqn:Ef; [|by apply drain_loop_spec].
  destruct Hs as [Hc Hb Hw]. unfold window_ok in Hw. rewrite Ef in Hw. destruct next as [e n], Hw as (-> & Hn2 & Hn1).
  cbn [fst snd] in *. subst n. destruct (queue_pooled_next_spec e (s_buffer s) (s_conn s)) as (b' & c' & -> & Hc' & Hb' & Hup & Hph); [done..|].
  split_and!; [unfold is_complete; cbn; by rewrite Ef|done|done|]. exists (take e (visible (s_buffer s))).
  unfold remaining. cbn. by rewrite Hup, app_assoc, take_drop.
Qed.

(** What is known of a transfer that sent [p]. *)
Definition sent_prefix (s : StreamingResponse) (w w' : Writer) (s' : StreamingResponse) (p : bytes) : Prop :=
  sent w' = sent w ++ p ∧ p `prefix_of` remaining s ∧ conn_ok (s_conn s') ∧ phase (s_conn s') = phase (s_conn s).

(** The client failed; a preserved response leaves the connection after it. *)
Definition client_failed (s s' : StreamingResponse) (e : ResponseTransferError) : Prop :=
  match e with
  | RtClientDisconnect _ | RtClientWrite _ => is_complete s' = true ∧ ∃ q, remaining s = q ++ upcoming (s_conn s')
  | RtClientWriteUnpreserved _ => True
  | _ => False
  end.

Lemma from_client_write_failed s s' k :
  is_complete s' = true → (∃ q, remaining s = q ++ upcoming (s_conn s')) → client_failed s s' (from_client_write k).
Proof. unfold from_client_write. by destruct (is_disconnect_kind k). Qed.

Lemma cleanup_failed s s' k (cleanup : result ResponseTransferError unit) :
  (cleanup = Ok () → is_complete s' = true ∧ ∃ q, remaining s = q ++ upcoming (s_conn s')) →
  client_failed s s' (from_client_write_after_cleanup k cleanup).
Proof. intros H. destruct cleanup as [[]|e]; cbn; [|done]. destruct (H eq_refl). by apply from_client_write_failed. Qed.

Lemma write_from_spec e s w :
  streaming_ok s → s_frame s = CompleteWindow (0, e) (e, initialized (s_buffer s)) →
  let '(r, s', w') := write_from fresh (0, e) (e, initialized (s_buffer s)) s w in
  ∃ p, sent_prefix s w w' s' p ∧ is_complete s' = true ∧
  match r with
  | Ok stats => remaining s = p ++ upcoming (s_conn s') ∧ bytes_written stats = length p ∧ p = take e (visible (s_buffer s))
  | Err err => client_failed s s' err
  end.
Proof.
  intros [Hc Hb Hw] Ef. unfold window_ok in Hw. rewrite Ef in Hw. destruct Hw as (_ & _ & He). cbn [fst snd] in He.
  unfold write_from. cbn [fst snd]. set (chunk := slice 0 e (visible (s_buffer s))).
  assert (chunk = take e (visible (s_buffer s))) as Echunk by (unfold chunk, slice; by rewrite drop_0, Nat.sub_0_r).
  destruct (queue_pooled_next_spec e (s_buffer s) (s_conn s)) as (b' & c' & -> & Hc' & Hb' & Hup & Hph); [done..|].
  assert (remaining s = chunk ++ upcoming c') as Hrem by (unfold remaining; by rewrite Hup, Echunk, app_assoc, take_drop).
  assert (is_complete (set_io s b' c') = true) as Hcomp by (unfold is_complete; cbn; by rewrite Ef).
  pose proof (write_all_spec chunk w) as Hws. destruct (write_all chunk w) as [[[]|k] w'].
  - exists chunk. split_and!; try done.
    split_and!; try done. rewrite Hrem. by apply prefix_app_r.
  - destruct Hws as (n & Es & Hn). exists (take n chunk). split_and!; try done.
    + split_and!; try done. rewrite Hrem. apply prefix_app_r, prefix_take.
    + cbn. apply from_client_write_failed; [done|]. by exists chunk.
Qed.

(** One iteration that does not end with the response. *)
Lemma write_step_spec stats s w :
  streaming_ok s → is_complete s = false →
  let chunk := visible (s_buffer s) in
  match write_all chunk w with
  | (Err k, w') =>
      let '(cleanup, s') := drain t backend_id s in
      ∃ p, sent_prefix s w w' s' p ∧ client_failed s s' (from_client_write_after_cleanup k cleanup)
  | (Ok _, w') =>
      let stats := add_chunk (length chunk) stats in
      sent w' = sent w ++ chunk ∧
      match read_next_chunk t backend_id s with
      | (Err e, s') => 0 < bytes_written stats ∧ retryable e ∧ sent_prefix s w w' s' chunk ∧ is_complete s' = false ∧
          chunk ≠ [] ∧ remaining s = chunk
      | (Ok _, s') => streaming_ok s' ∧ remaining s = chunk ++ remaining s' ∧ reads_left (s_conn s') < reads_left (s_conn s) ∧
          phase (s_conn s') = phase (s_conn s)
      end
  end.
Proof.
  intros Hs Hinc chunk. assert (0 < length chunk) as Hpos.
  { pose proof (so_window _ Hs) as Hw. unfold window_ok, is_complete in *. destruct (s_frame s); [done|]. apply Hw. }
  pose proof (write_all_spec chunk w) as Hws. destruct (write_all chunk w) as [[[]|k] w'].
  - split; [done|]. pose proof (read_next_chunk_spec s (streaming_reading s Hs Hinc)) as H.
    destruct (read_next_chunk t backend_id s) as [[[]|e] s'].
    + destruct H as (? & Hup & ? & ? & _). split_and!; try done. unfold remaining at 1. by rewrite Hup.
    + destruct H as (He & Hup & ? & ? & ?).
      assert (remaining s = chunk) as Hrem by (unfold remaining; by rewrite Hup, app_nil_r).
      split_and!; try done; [cbn; lia|by destruct e as [| | | | |[]]|by split_and!; rewrite ?Hrem|by intros En; rewrite En in Hpos; cbn in Hpos; lia].
  - destruct Hws as (n & Es & Hn). pose proof (drain_loop_spec (reads_left (s_conn s)) s Hs (le_n _)) as H.
    unfold drain. destruct (drain_loop t backend_id _ s) as [cleanup s']. exists (take n chunk). split.
    + split_and!; [done|apply prefix_app_r, prefix_take|..]; by destruct cleanup; destruct_and! H.
    + apply cleanup_failed. intros ->. by destruct H as (? & ? & ? & ?).
Qed.

Lemma write_loop_unfold fuel stats s w :
  write_loop t fresh backend_id fuel stats s w =
  match s_frame s with
  | CompleteWindow response next =>
      match write_from fresh response next s w with
      | (Ok more, s, w) => (Ok (add_stats stats more), s, w)
      | (Err e, s, w) => (Err e, s, w)
      end
  | IncompleteWindow response =>
      let chunk := slice response.1 response.2 (visible (s_buffer s)) in
      match write_all chunk w with
      | (Err k, w) => let '(cleanup, s) := drain t backend_id s in (Err (from_client_write_after_cleanup k cleanup), s, w)
      | (Ok _, w) =>
          let stats := add_chunk (length chunk) stats in
          match read_next_chunk t backend_id s with
          | (Err e, s) => (Err (if 0 <? bytes_written stats then after_client_delivery e else e), s, w)
          | (Ok _, s) =>
              match fuel with 0 => (Err (out_of_reads backend_id s), s, w) | S fuel => write_loop t fresh backend_id fuel stats s w end
          end
      end
  end.
Proof. by destruct fuel. Qed.

Lemma sent_prefix_trans s w w1 s1 w2 s2 chunk p :
  sent w1 = sent w ++ chunk → remaining s = chunk ++ remaining s1 → phase (s_conn s1) = phase (s_conn s) →
  sent_prefix s1 w1 w2 s2 p → sent_prefix s w w2 s2 (chunk ++ p).
Proof.
  intros E1 E2 E3 (E4 & Hp & ? & E5). split_and!; [by rewrite E4, E1, app_assoc| |done|congruence].
  rewrite E2. by apply prefix_app.
Qed.

(** Forwarding sends a prefix of the stream: the whole response on success; after
    a failed read at least one byte, and everything that arrived. *)
Lemma write_loop_spec fuel stats s w :
  streaming_ok s → reads_left (s_conn s) ≤ fuel →
  let '(r, s', w') := write_loop t fresh backend_id fuel stats s w in
  ∃ p, sent_prefix s w w' s' p ∧
  match r with
  | Ok stats' => is_complete s' = true ∧ remaining s = p ++ upcoming (s_conn s') ∧ bytes_written stats' = bytes_written stats + length p
  | Err (RtDeliveredPrefix e) => is_complete s' = false ∧ retryable e ∧ p ≠ [] ∧ remaining s = p
  | Err e => client_failed s s' e
  end.
Proof.
  revert stats s w. induction fuel as [fuel IH] using lt_wf_ind. intros stats s w Hs Hle.
  rewrite write_loop_unfold. assert (Hw := so_window _ Hs). unfold window_ok in Hw.
  destruct (s_frame s) as [resp next|resp] eqn:Ef.
  { destruct next as [e n], Hw as (-> & Hn2 & _). cbn [fst snd] in *. subst n. pose proof (write_from_spec e s w Hs Ef) as H.
    destruct (write_from fresh _ _ s w) as [[[more|err] s'] w'], H as (p & Hp & Hcomp & H); exists p; split; try done.
    - destruct H as (Hrem & Hbytes & _). split_and!; try done. cbn. lia.
    - by destruct err. }
  destruct Hw as (-> & Hpos & _). cbn [fst snd]. unfold initialized; rewrite slice_full.
  pose proof (write_step_spec stats s w Hs ltac:(unfold is_complete; by rewrite Ef)) as H. cbv zeta in *.
  destruct (write_all (visible (s_buffer s)) w) as [[[]|k] w1].
  2: { destruct (drain t backend_id s) as [cleanup s'], H as (p & Hp & Hf). exists p. split; [done|].
       by destruct (from_client_write_after_cleanup k cleanup). }
  destruct H as [Hsent H]. destruct (read_next_chunk t backend_id s) as [[[]|e] s1].
  2: { destruct H as (Hbw & He & Hp & ? & ? & ?). exists (visible (s_buffer s)). split; [done|].
       rewrite (proj2 (Nat.ltb_lt _ _)) by done. by destruct e. }
  destruct H as (Hs1 & Hrem & Hlt & Hph). destruct fuel as [|fuel]; [lia|].
  specialize (IH fuel ltac:(lia) (add_chunk (length (visible (s_buffer s))) stats) s1 w1 Hs1 ltac:(lia)).
  destruct (write_loop t fresh backend_id fuel _ s1 w1) as [[r s2] w2], IH as (p & Hp & H).
  exists (visible (s_buffer s) ++ p). split; [by eapply sent_prefix_trans|].
  destruct r as [stats'|err].
  - destruct H as (? & Hr & Hb). split_and!; [done|by rewrite Hrem, Hr, app_assoc|]. rewrite Hb, length_app. cbn. lia.
  - assert (∀ e, client_failed s1 s2 e → client_failed s s2 e) as Hcf.
    { intros [] Hcf; try done; destruct Hcf as (? & q & Hq); (split; [done|]); exists (visible (s_buffer s) ++ q);
        by rewrite Hrem, Hq, app_assoc. }
    destruct err; try by apply Hcf. destruct H as (? & ? & ? & Hr). split_and!; try done; [by destruct (visible (s_buffer s))|by rewrite Hrem, Hr].
Qed.

Lemma append_spec s :
  streaming_ok s →
  match append_to_retained_prefix_if_writable t backend_id s with
  | (Ok _, s') => streaming_ok s' ∧ remaining s' = remaining s ∧ phase (s_conn s') = phase (s_conn s) ∧
      s_metadata s' = s_metadata s ∧ s_shape s' = s_shape s
  | (Err e, s') => retryable e ∧ conn_ok (s_conn s') ∧ phase (s_conn s') = phase (s_conn s) ∧ is_complete s' = false
  end.
Proof.
  intros Hs. unfold append_to_retained_prefix_if_writable. destruct (s_frame s) as [|resp] eqn:Ef; [done|].
  destruct (retained_append_permitted (s_buffer s)) eqn:Ep; cbn [negb]; [|done].
  destruct Hs as [Hc Hb Hw]. unfold window_ok in Hw. rewrite Ef in Hw. destruct Hw as (-> & Hpos & S & HS).
  assert (initialized (s_buffer s) < read_limit (s_buffer s)) as Hlt.
  { unfold retained_append_permitted in Ep. apply negb_true_iff, orb_false_iff in Ep as [_ ?%Nat.leb_gt]. done. }
  pose proof (read_more_spec (s_buffer s) (s_conn s) Hc Hb Hlt) as H.
  destruct (read_more (s_buffer s) (s_conn s)) as [[[n|k] b] c].
  2: { destruct H as (? & ? & ? & ? & ? & ? & ?). split_and!; try done. unfold is_complete. cbn. by rewrite Ef. }
  destruct H as (new & Hv & Hn & Hp & Hb' & Hc' & Hph & Hup & Hlim & H0 & Hne).
  destruct n as [|n]; [split_and!; try done; unfold is_complete; cbn; by rewrite Ef|].
  unfold split_appended, initialized. rewrite Hv, drop_app_length.
  destruct (split_chunk_allow_total S (s_framer s) new HS) as (p & f' & E & Hprog). rewrite E. cbn [fmap result_fmap].
  split_and!; try done; [|unfold remaining; cbn; by rewrite Hup, Hv, app_assoc]. split; try done.
  unfold window_ok, in_window. destruct p as [e|]; cbn [s_frame s_buffer s_framer fst snd]; unfold initialized in *; rewrite Hv, length_app.
  - split_and!; [done|done|lia].
  - split_and!; [done|lia|by exists (S ++ new)].
Qed.

(** The classification belongs to the bytes in the buffer. *)
Definition classified_ok (request : RequestContext) (cl : ClassifiedResponse) : Prop :=
  buffer_ok (cl_buffer cl) ∧ cl_frame cl = parse_bytes request (visible (cl_buffer cl)).

Lemma from_classification_spec request cl c :
  classified_ok request cl → conn_ok c →
  match from_classification t cl c with
  | Ok s => streaming_ok s ∧ remaining s = visible (cl_buffer cl) ++ upcoming c ∧ s_conn s = c
  | Err e => retryable e
  end.
Proof.
  intros [Hb Hf] Hc. unfold from_classification. rewrite Hf. unfold parse_bytes, status_line_len. rewrite memchr_spec.
  destruct (position _ (visible (cl_buffer cl))) as [i|] eqn:Ei; cbn [fmap option_fmap option_map]; [|done].
  assert (i < length (visible (cl_buffer cl))) as Hi by (apply position_Some in Ei as [(x & Hx & _) _]; by eapply lookup_lt_Some).
  destruct (parse_response_status _) as [[status|] warnings]; [|done]. destruct (has_response_body request status).
  - unfold begin_after_status_line. rewrite (proj2 (Nat.ltb_ge _ _)) by lia.
    set (f := update default_framer _).
    assert (framer_for (take (S i) (visible (cl_buffer cl))) f) as HS by (by apply (framer_for_update []), framer_for_default).
    destruct (split_chunk_allow_total _ f (drop (S i) (visible (cl_buffer cl))) HS) as (p & f' & E & Hprog).
    rewrite E. cbn [fmap result_fmap]. split_and!; try done. split; try done.
    unfold window_ok, in_window. destruct p as [e|]; cbn [s_frame s_buffer s_framer fst snd]; unfold initialized.
    + rewrite length_drop in Hprog. split_and!; [done|done|lia].
    + split_and!; [done|lia|by eexists].
  - by split_and!.
Qed.

Lemma mark_if_spec completed c : conn_ok c → conn_ok (mark_if completed c) ∧ upcoming (mark_if completed c) = upcoming c ∧
  phase (mark_if completed c) = if completed then PhaseComplete else phase c.
Proof. by destruct completed. Qed.

Lemma capture_loop_unfold fuel chunks limit s w :
  capture_loop t fresh backend_id fuel chunks limit s w =
  if exceeds_limit (s_shape s) chunks (window_len (s_frame s)) limit then
    let stats := add_buffered_response chunks no_stats in
    match write_all_to_recording chunks w with
    | (Err k, w) => let '(cleanup, s) := observe t fresh backend_id s in (Err (from_client_write_after_cleanup k cleanup), s, w)
    | (Ok _, w) =>
        match write_current_and_remaining_chunks t fresh backend_id s w with
        | (Ok more, s, w) => (Ok (bytes_written (add_stats stats more), None), s, w)
        | (Err e, s, w) => (Err e, s, w)
        end
    end
  else
    match s_frame s with
    | CompleteWindow response next =>
        match push_from_buffer fresh response next (s_buffer s) (s_conn s) chunks with
        | (Err e, b, c) => (Err e, set_io s b c, w)
        | (Ok chunks, b, c) =>
            let stats := add_buffered_response chunks no_stats in
            match write_all_to_recording chunks w with
            | (Err k, w) => (Err (from_client_write k), set_io s b c, w)
            | (Ok _, w) =>
                (Ok (bytes_written stats, mkCaptured (s_metadata s) chunks <$> capture_end (s_shape s) chunks), set_io s b c, w)
            end
        end
    | IncompleteWindow response =>
        let chunks := chunks ++ [slice response.1 response.2 (visible (s_buffer s))] in
        match read_next_chunk t backend_id (set_io s fresh (s_conn s)) with
        | (Err e, s) => (Err e, s, w)
        | (Ok _, s) =>
            match fuel with
            | 0 => (Err (out_of_reads backend_id s), s, w)
            | S fuel => capture_loop t fresh backend_id fuel chunks limit s w
            end
        end
    end.
Proof. by destruct fuel. Qed.

(** What a capture did with a response of which [chunks] were retained before. *)
Definition capture_result (chunks : list bytes) (s s' : StreamingResponse) (p : bytes)
    (r : result ResponseTransferError (nat * option CapturedChunkedResponse)) : Prop :=
  let all := concat chunks ++ remaining s in
  match r with
  | Ok (n, _) => is_complete s' = true ∧ all = p ++ upcoming (s_conn s') ∧ n = length p
  | Err (RtDeliveredPrefix e) => is_complete s' = false ∧ retryable e ∧ p ≠ [] ∧ all = p
  | Err (RtBackendEof _ _) | Err (RtIo _) => p = []
  | Err (RtClientDisconnect _) | Err (RtClientWrite _) => is_complete s' = true ∧ ∃ q, all = q ++ upcoming (s_conn s')
  | Err (RtClientWriteUnpreserved _) => True
  end.

Definition capture_sent (chunks : list bytes) (s : StreamingResponse) (w w' : Writer) (s' : StreamingResponse) (p : bytes) : Prop :=
  sent w' = sent w ++ p ∧ p `prefix_of` concat chunks ++ remaining s ∧ conn_ok (s_conn s') ∧ phase (s_conn s') = phase (s_conn s).

Lemma client_failed_capture chunks s s' p e :
  client_failed s s' e → capture_result chunks s s' p (Err e).
Proof.
  destruct e; try done; intros (? & q & Hq); (split; [done|]); exists (concat chunks ++ q); by rewrite Hq, app_assoc.
Qed.

Lemma buffered_stats chunks s :
  bytes_written (add_buffered_response chunks s) = bytes_written s + length (concat chunks).
Proof.
  revert s. unfold add_buffered_response. induction chunks as [|c chunks IH]; intros s; cbn [foldl concat]; [cbn; lia|].
  rewrite IH, length_app. cbn. lia.
Qed.

(** The branch that gives up retaining. *)
Lemma capture_forward_spec chunks s w :
  streaming_ok s →
  let '(r, s', w') :=
    let stats := add_buffered_response chunks no_stats in
    match write_all_to_recording chunks w with
    | (Err k, w) => let '(cleanup, s) := observe t fresh backend_id s in (Err (from_client_write_after_cleanup k cleanup), s, w)
    | (Ok _, w) =>
        match write_current_and_remaining_chunks t fresh backend_id s w with
        | (Ok more, s, w) => (Ok (bytes_written (add_stats stats more), None), s, w)
        | (Err e, s, w) => (Err e, s, w)
        end
    end in
  ∃ p, capture_sent chunks s w w' s' p ∧ capture_result chunks s s' p r.
Proof.
  intros Hs. cbv zeta. pose proof (write_all_to_recording_spec chunks w) as Hw.
  destruct (write_all_to_recording chunks w) as [[[]|k] w1].
  - unfold write_current_and_remaining_chunks. pose proof (write_loop_spec (reads_left (s_conn s)) no_stats s w1 Hs (le_n _)) as H.
    destruct (write_loop _ _ _ _ _ s w1) as [[r s'] w'], H as (p & (Es & Hp & Hc & Hph) & H).
    assert (sent w' = sent w ++ concat chunks ++ p) as Es' by by rewrite Es, Hw, app_assoc.
    destruct r as [more|e]; exists (concat chunks ++ p); (split; [split_and!; [done|by apply prefix_app|done|done]|]).
    + destruct H as (? & Hr & Hb). cbn. rewrite Hr, app_assoc, Hb, buffered_stats, !length_app. cbn. split_and!; (done || lia).
    + destruct e; try (by apply client_failed_capture); try done. destruct H as (? & ? & Hne & Hr). cbn. rewrite Hr. split_and!; try done.
      intros [_ ?]%app_nil. done.
  - destruct Hw as (n & Es & Hn). pose proof (observe_spec s Hs) as H. destruct (observe t fresh backend_id s) as [cleanup s'].
    exists (take n (concat chunks)). split.
    + split_and!; [done|apply prefix_app_r, prefix_take|..]; by destruct cleanup; destruct_and! H.
    + apply client_failed_capture, cleanup_failed. intros ->. by destruct H as (? & ? & ? & ?).
Qed.

Lemma capture_loop_spec fuel chunks limit s w :
  streaming_ok s → reads_left (s_conn s) ≤ fuel →
  let '(r, s', w') := capture_loop t fresh backend_id fuel chunks limit s w in
  ∃ p, capture_sent chunks s w w' s' p ∧ capture_result chunks s s' p r.
Proof.
  revert chunks s. induction fuel as [fuel IH] using lt_wf_ind. intros chunks s Hs Hle.
  rewrite capture_loop_unfold. destruct (exceeds_limit _ _ _ _); [by apply capture_forward_spec|].
  assert (∀ s', conn_ok (s_conn s') → phase (s_conn s') = phase (s_conn s) → capture_sent chunks s w w s' []) as Hnil.
  { intros s' ? ?. split_and!; [by rewrite app_nil_r|apply prefix_nil|done|done]. }
  assert (Hwin := so_window _ Hs). unfold window_ok in Hwin. destruct (s_frame s) as [resp [e n]|resp] eqn:Ef.
  - destruct Hwin as (-> & Hn & Hle'). cbn [fst snd] in *. subst n. unfold initialized in *. unfold push_from_buffer.
    pose proof (queue_next_spec e (visible (s_buffer s)) (s_conn s) (so_conn _ Hs) Hle') as H.
    destruct (queue_next_response_input _ _ _) as [[[]|err] c'].
    2: { destruct H as (-> & -> & _). exists []. split; [apply Hnil; [apply Hs|done]|done]. }
    destruct H as (Hc' & Hup & Hph). unfold slice. cbn [fst snd]. rewrite drop_0, Nat.sub_0_r.
    set (chunk := take e (visible (s_buffer s))).
    assert (concat (chunks ++ [chunk]) = concat chunks ++ chunk) as Hcat by (rewrite concat_app; cbn; by rewrite app_nil_r).
    assert (concat chunks ++ remaining s = (concat chunks ++ chunk) ++ upcoming c') as Hall
      by (unfold remaining, chunk; by rewrite Hup, <- app_assoc, (app_assoc (take e _)), take_drop).
    assert (is_complete (set_io s fresh c') = true) as Hcomp by (unfold is_complete; cbn; by rewrite Ef).
    pose proof (write_all_to_recording_spec (chunks ++ [chunk]) w) as Hw. rewrite Hcat in Hw.
    destruct (write_all_to_recording _ w) as [[[]|k] w'].
    + exists (concat chunks ++ chunk). split; [split_and!; [done|rewrite Hall; by apply prefix_app_r|done|done]|].
      split_and!; [done|done|]. by rewrite buffered_stats, Hcat.
    + destruct Hw as (m & Es & Hm). exists (take m (concat chunks ++ chunk)).
      split; [split_and!; [done|rewrite Hall; apply prefix_app_r, prefix_take|done|done]|].
      unfold from_client_write, capture_result. destruct (is_disconnect_kind k); (split; [done|]); by eexists.
  - destruct Hwin as (-> & _ & S & HS). cbn [fst snd]. unfold initialized. rewrite slice_full. cbv zeta.
    pose proof (read_next_chunk_spec (set_io s fresh (s_conn s))) as H.
    destruct (read_next_chunk t backend_id (set_io s fresh (s_conn s))) as [[[]|e] s1].
    + destruct H as (Hs1 & Hup & Hlt & Hph & _); [by split; [apply Hs|done|unfold is_complete; cbn; by rewrite Ef|by exists S]|].
      cbn in Hup, Hlt, Hph. destruct fuel as [|fuel]; [lia|].
      specialize (IH fuel ltac:(lia) (chunks ++ [visible (s_buffer s)]) s1 Hs1 ltac:(lia)).
      assert (concat (chunks ++ [visible (s_buffer s)]) ++ remaining s1 = concat chunks ++ remaining s) as Hcat
        by (unfold remaining at 2; rewrite Hup, concat_app; cbn; by rewrite app_nil_r, <- app_assoc).
      destruct (capture_loop _ _ _ _ _ _ s1 w) as [[r s2] w2], IH as (p & Hsent & Hr). exists p.
      unfold capture_sent, capture_result in *. rewrite Hcat, Hph in *. done.
    + destruct H as (He & _ & Hc & Hph & _); [by split; [apply Hs|done|unfold is_complete; cbn; by rewrite Ef|by exists S]|].
      exists []. split; [by apply Hnil|]. by destruct e as [| | | | |[]].
Qed.

(** ** Exchanges *)

Lemma read_more_full b c : read_limit b ≤ initialized b → ∃ b', read_more b c = (Ok 0, b', c).
Proof.
  intros H. unfold read_more, read_into_spare. eexists.
  assert (initialized (compact_visible_if_tail_full b) = initialized b ∧ read_limit (compact_visible_if_tail_full b) = read_limit b) as [-> ->]
    by (unfold compact_visible_if_tail_full; by destruct (_ && _)).
  replace (read_limit b - initialized b) with 0 by lia. done.
Qed.

Lemma read_unbound_ok fuel request b c :
  conn_ok c → buffer_ok b →
  let '(r, c') := read_unbound_loop fuel request b c in
  conn_ok c' ∧ phase c' = phase c ∧ ∀ cl, r = Ok cl → classified_ok request cl.
Proof.
  revert b c. induction fuel as [|fuel IH]; intros b c Hc Hb; cbn [read_unbound_loop].
  all: destruct (parse_bytes request (visible b)) as [frame|[|ws]] eqn:Ef;
    [split_and!; [done|done|intros cl [= <-]; by split]| |split_and!; [done|done|intros cl [= <-]; by split]].
  all: destruct (decide (initialized b < read_limit b)) as [Hlt|Hge];
    [|destruct (read_more_full b c) as [b' ->]; [lia|by split_and!]].
  all: pose proof (read_more_spec b c Hc Hb Hlt) as H; destruct (read_more b c) as [[[n|k] b'] c'];
    [|destruct H as (_ & _ & _ & ? & ? & _); by split_and!].
  all: destruct H as (new & _ & _ & _ & Hb' & Hc' & Hph & _); destruct n as [|n]; [by split_and!|].
  - by split_and!.
  - specialize (IH b' c' Hc' Hb'). destruct (read_unbound_loop fuel request b' c') as [r c2]. by rewrite Hph in IH.
Qed.

Lemma exchange_ok send request c :
  conn_ok c →
  let '(r, c') := execute_request_exchange fresh send request c in
  conn_ok c' ∧ ∀ cl, r = Ok cl → classified_ok request cl.
Proof.
  intros Hc. unfold execute_request_exchange. destruct send as [[]|k]; [|by split].
  pose proof (read_from_spec fresh (in_flight c) Hc fresh_ok) as H.
  destruct (read_from fresh (in_flight c)) as [[[[|n]|k] b] c'].
  - split; [by destruct_and! H|done].
  - destruct H as (_ & _ & _ & Hb & Hc' & _). unfold read_unbound.
    pose proof (read_unbound_ok (reads_left c') request b c' Hc' Hb) as H.
    destruct (read_unbound_loop _ request b c') as [r c2]. by destruct H as (? & _ & ?).
  - split; [by destruct_and! H|done].
Qed.

Lemma receiving_observe_ok request cl c :
  classified_ok request cl → conn_ok c →
  let '(r, c') := receiving_observe t fresh backend_id cl c in
  conn_ok c' ∧ match r with Ok _ => phase c' = PhaseComplete | Err e => retryable e end.
Proof.
  intros Hcl Hc. unfold receiving_observe. pose proof (from_classification_spec request cl (in_flight c) Hcl Hc) as H.
  destruct (from_classification t cl (in_flight c)) as [s|e]; [|done]. destruct H as (Hs & _).
  pose proof (observe_spec s Hs) as H. destruct (observe t fresh backend_id s) as [[[]|e] s'].
  - by destruct H as (_ & ? & _).
  - by destruct H as (? & ? & _).
Qed.

End TransferFacts.

(** ** Forwarding *)

(** What happened to the connection when a transfer sent [p] of the stream. *)
Definition transfer_outcome (stream p : bytes) (c : ConnectionStream) (r : result ResponseTransferError nat) : Prop :=
  match r with
  | Ok n => n = length p ∧ stream = p ++ upcoming c ∧ phase c = PhaseComplete
  | Err (RtBackendEof _ _) | Err (RtIo _) => p = []
  | Err (RtDeliveredPrefix _) => p ≠ [] ∧ stream = p ∧ phase c = PhaseInFlight
  | Err (RtClientDisconnect _) | Err (RtClientWrite _) => phase c = PhaseComplete ∧ ∃ q, stream = q ++ upcoming c
  | Err (RtClientWriteUnpreserved _) => True
  end.

(** A transfer that sent a prefix of the stream. *)
Definition transferred `{PoolLimit} (stream : bytes) (w w' : Writer) (c : ConnectionStream) (r : result ResponseTransferError nat) : Prop :=
  conn_ok c ∧ ∃ p, sent w' = sent w ++ p ∧ p `prefix_of` stream ∧ transfer_outcome stream p c r.

Section Forwarding.
Context {MC : Memchr} {MS : MemchrSpec MC} {PL : PoolLimit} (t : target).
Variable fresh : PooledBuffer.
Variable backend_id : nat.
Hypothesis fresh_ok : buffer_ok fresh.

Lemma transferred_nothing stream w c e : conn_ok c → retryable e → transferred stream w w c (Err e).
Proof.
  intros Hc He. split; [done|]. exists []. split_and!; [by rewrite app_nil_r|apply prefix_nil|by destruct e].
Qed.

(** A transfer of the whole stream, and what marking the connection adds. *)
Lemma capture_transferred s s' w w' p r :
  phase (s_conn s) = PhaseInFlight → capture_sent [] s w w' s' p → capture_result [] s s' p r →
  transferred (remaining s) w w' (mark_if (is_complete s') (s_conn s')) (fst <$> r).
Proof.
  intros Hin (Es & Hp & Hc & Hph) Hr. destruct (mark_if_spec (is_complete s') (s_conn s') Hc) as (Hm & Hu & Hphm).
  rewrite Hph, Hin in Hphm. split; [done|]. exists p. split; [done|]. split; [done|]. unfold transfer_outcome.
  destruct r as [[n cap]|e]; cbn [fmap result_fmap fst].
  - destruct Hr as (Hcomp & Hr & ->). rewrite Hcomp in *. by rewrite Hu.
  - destruct e; cbn in Hr; try done.
    + destruct Hr as (Hcomp & Hr). rewrite Hcomp in *. by rewrite Hu.
    + destruct Hr as (Hcomp & Hr). rewrite Hcomp in *. by rewrite Hu.
    + destruct Hr as (Hcomp & _ & Hne & Hr). by rewrite Hcomp in *.
Qed.

Lemma receiving_capture_spec request cl c w :
  classified_ok request cl → conn_ok c →
  let '(r, c', w') := receiving_capture_and_write t fresh backend_id cl c w in
  transferred (visible (cl_buffer cl) ++ upcoming c) w w' c' (fst <$> r).
Proof.
  intros Hcl Hc. unfold receiving_capture_and_write. pose proof (from_classification_spec t request cl (in_flight c) Hcl Hc) as H.
  destruct (from_classification t cl (in_flight c)) as [s|e]; [|by apply transferred_nothing].
  destruct H as (Hs & Hrem & Ec). unfold capture_and_write.
  pose proof (capture_loop_spec t fresh backend_id fresh_ok _ [] MAX_CAPTURED_MULTILINE_RESPONSE_BYTES s w Hs (le_n _)) as H.
  destruct (capture_loop _ _ _ _ _ _ s w) as [[r s'] w'], H as (p & Hp & Hr).
  change (upcoming (in_flight c)) with (upcoming c) in Hrem. rewrite <- Hrem.
  eapply capture_transferred; [by rewrite Ec|done..].
Qed.

Lemma receiving_write_spec request cl c w :
  classified_ok request cl → conn_ok c →
  let '(r, c', w') := receiving_write t fresh backend_id cl c w in
  transferred (visible (cl_buffer cl) ++ upcoming c) w w' c' r.
Proof.
  intros Hcl Hc. unfold receiving_write. pose proof (from_classification_spec t request cl (in_flight c) Hcl Hc) as H.
  destruct (from_classification t cl (in_flight c)) as [s|e]; [|by apply transferred_nothing].
  destruct H as (Hs & Hrem & Ec). unfold write. pose proof (append_spec t backend_id s Hs) as Ha.
  destruct (append_to_retained_prefix_if_writable t backend_id s) as [[[]|e] s1].
  2: { destruct Ha as (He & ? & Hph & ->). by apply transferred_nothing. }
  destruct Ha as (Hs1 & Hrem1 & Hph1 & _). rewrite Ec in Hph1.
  pose proof (write_loop_spec t fresh backend_id fresh_ok _ no_stats s1 w Hs1 (le_n _)) as H.
  unfold write_current_and_remaining_chunks. destruct (write_loop _ _ _ _ _ s1 w) as [[r s2] w2].
  destruct H as (p & Hp & H). change (upcoming (in_flight c)) with (upcoming c) in Hrem. rewrite <- Hrem, <- Hrem1.
  pose proof (capture_transferred s1 s2 w w2 p ((λ st, (bytes_written st, None)) <$> r) Hph1 Hp) as Hct.
  destruct r as [stats|e]; cbn [fmap result_fmap fst] in *; apply Hct.
  - by destruct H as (? & ? & ->).
  - destruct e; try done; by apply (client_failed_capture []) with (p := p) in H.
Qed.
End Forwarding.

(** Forwarding a backend response never invents, repeats or skips a byte: the client
    gets a prefix of what the backend sends.  On success that prefix is the response
    and the connection goes on right behind it.  An error that allows another
    backend to be tried means that the client got nothing; a backend that fails
    later is reported as a delivered prefix; after a client failure the connection
    is marked complete only if it stands behind a complete response.  The same holds
    for a response that is captured for the cache on the way. *)
Theorem forwarding_safe {MC : Memchr} {MS : MemchrSpec MC} {PL : PoolLimit} t fresh backend_id request cl c w :
  buffer_ok fresh → classified_ok request cl → conn_ok c →
  let stream := visible (cl_buffer cl) ++ upcoming c in
  (let '(r, c', w') := receiving_write t fresh backend_id cl c w in transferred stream w w' c' r) ∧
  (let '(r, c', w') := receiving_capture_and_write t fresh backend_id cl c w in transferred stream w w' c' (fst <$> r)).
Proof. intros. split; [by eapply receiving_write_spec|by eapply receiving_capture_spec]. Qed.

(** A pool of sixteen-byte buffers and a backend whose answers to an article and a
    STAT request arrive in two pieces. *)
Definition small_pool : PoolLimit := 16.
Definition small_buffer : PooledBuffer := mkBuffer 0 [] 16 16.
Definition sample_article : RequestContext := from_verb_args (bs "ARTICLE") (bs "<a@b>").
Definition sample_stat : RequestContext := from_verb_args (bs "STAT") (bs "<a@b>").

Definition sample_article_response : bytes :=
  bs "220 0 <a@b>" ++ CRLF ++ bs "X: y" ++ CRLF ++ CRLF ++ bs "hello" ++ CRLF ++ DOT_TERMINATOR.
Definition sample_stat_response : bytes := bs "223 0 <a@b>" ++ CRLF.

Definition two_reads : ConnectionStream :=
  mkConn [] [Data (take 9 (sample_article_response ++ sample_stat_response)); Data (drop 9 (sample_article_response ++ sample_stat_response))] PhaseIdle.

Lemma small_buffer_ok : buffer_ok (H := small_pool) small_buffer.
Proof. split; [split; apply Nat.leb_le; reflexivity|]. split; [apply Nat.leb_le; reflexivity|reflexivity]. Qed.

(** The first sixteen bytes of the article are in the buffer; the client fails on
    its second write. *)
Definition first_window : PooledBuffer := mkBuffer 0 (take 16 sample_article_response) 16 16.

Lemma forwarding_safe_witness :
  let cl := mkClassified first_window (parse_bytes (MC := naive_memchr) sample_article (take 16 sample_article_response)) Article in
  let c := mkConn [] [Data (drop 16 sample_article_response)] PhaseInFlight in
  let '(r, c', w') := receiving_write (MC := naive_memchr) Generic small_buffer 0 cl c (mkWriter [] [WriteOk; WriteFails 3 BrokenPipe]) in
  ∃ p, sent w' = p ∧ p `prefix_of` sample_article_response ∧ transfer_outcome sample_article_response p c' r.
Proof.
  intros cl c. pose proof (forwarding_safe (MC := naive_memchr) (MS := naive_memchr_spec) (PL := small_pool) Generic small_buffer 0
    sample_article cl c (mkWriter [] [WriteOk; WriteFails 3 BrokenPipe]) small_buffer_ok) as H.
  assert (classified_ok (MC := naive_memchr) (PL := small_pool) sample_article cl) as Hcl
    by (split; [split; [split; apply Nat.leb_le; reflexivity|]; split; [apply Nat.leb_le; reflexivity|reflexivity]|reflexivity]).
  specialize (H Hcl ltac:(constructor)). apply proj1 in H.
  destruct (receiving_write _ _ _ cl c _) as [[r c'] w'], H as (_ & p & Hs & Hp & Ho).
  exists p. split; [exact Hs|]. split; [exact Hp|exact Ho].
Defined.
