(* ===== verification/Exchange.v ===== *)
(** * Exchange: complete responses

    The functional behaviour of the operations of [Transfer] on a backend that
    answers with a complete response: what is forwarded, what is captured for the
    cache and where the connection stands afterwards, however the backend cuts its
    bytes into reads.  [response_end] is the reference: the status line, and the
    lines up to the dot line if the status announces a body
    ([src/src/session/multiline_framing.rs], [src/src/session/backend.rs]). *)

From S2P Require Import Prelude Protocol Request Scanner Framer Tracker Article Stream Transfer.

(** ** The reference *)

(** The length of the response to [request] that the stream starts with. *)
Definition response_end (request : RequestContext) (stream : bytes) : option nat :=
  match position (Byte.eqb x0a) stream with
  | None => None
  | Some p =>
      let line := take (S p) stream in
      match parse line with
      | None => None
      | Some status =>
          if has_response_body request status
          then (λ e, S p + e) <$> first_touching_end line (drop (S p) stream)
          else Some (S p)
      end
  end.

Lemma response_end_bounds request stream n : response_end request stream = Some n → 0 < n ≤ length stream.
Proof.
  unfold response_end. destruct (position _ stream) as [p|] eqn:Ep; [|done]. cbv zeta.
  assert (p < length stream) by (apply position_Some in Ep as [(x & Hx & _) _]; by eapply lookup_lt_Some).
  destruct (parse _); [|done]. destruct (has_response_body _ _); [|intros [= <-]; lia].
  intros (e & He%first_touching_end_bounds & ->)%fmap_Some. rewrite length_drop in He. lia.
Qed.

(** Nothing, or the first three digits of another response. *)
Definition starts_response (rest : bytes) : bool :=
  match rest with
  | [] => true
  | d0 :: d1 :: d2 :: _ => byte_in x31 x35 d0 && is_ascii_digit d1 && is_ascii_digit d2
  | _ => false
  end.

Lemma parse_digits d0 d1 d2 u :
  byte_in x31 x35 d0 = true → is_ascii_digit d1 = true → is_ascii_digit d2 = true →
  is_Some (parse (d0 :: d1 :: d2 :: u)).
Proof.
  unfold is_ascii_digit. intros H0 H1 H2.
  assert (∀ lo hi d, byte_in lo hi d = true → (Byte.to_N lo <= Byte.to_N d <= Byte.to_N hi)%N) as Hin
    by (unfold byte_in; intros lo hi d H; reflect_bools; lia).
  apply Hin in H0, H1, H2. cbn in H0, H1, H2.
  assert (∀ d lo hi, (48 <= lo <= Byte.to_N d)%N → (Byte.to_N d <= hi <= 57)%N → digit_value d = (Byte.to_N d - 48)%N) as Hd.
  { intros d lo hi Hl Hh. unfold digit_value. replace (Byte.to_N d + 256 - 48)%N with (Byte.to_N d - 48 + 1 * 256)%N by lia.
    rewrite N.Div0.mod_add. apply N.mod_small. lia. }
  unfold parse. rewrite (Hd d0 49%N 53%N), (Hd d1 48%N 57%N), (Hd d2 48%N 57%N) by lia.
  rewrite !(proj2 (N.ltb_ge _ _)) by lia. cbn [orb]. unfold try_new, StatusCode_MIN, StatusCode_MAX.
  rewrite !(proj2 (N.leb_le _ _)) by lia. by eexists.
Qed.

Lemma digit_not_lf lo hi d : byte_in lo hi d = true → (10 < Byte.to_N lo)%N → d ≠ x0a.
Proof. unfold byte_in. intros H Hlo ->. reflect_bools. cbn in *. lia. Qed.

Section Exactness.
Context {MC : Memchr} {MS : MemchrSpec MC} {PL : PoolLimit} (t : target).
Variable fresh : PooledBuffer.
Variable backend_id : nat.

(** Whatever part of the next response came along, the framer accepts it. *)
Lemma starts_response_plausible rest n :
  starts_response rest = true → plausible_status_prefix (take n rest) = true.
Proof.
  destruct rest as [|d0 [|d1 [|d2 u]]]; cbn [starts_response]; [by destruct n|done|done|]. intros H.
  apply andb_true_iff in H as [[H0 H1]%andb_true_iff H2].
  assert (is_ascii_digit d0 = true) as Hd0 by (unfold is_ascii_digit, byte_in in *; reflect_bools; rewrite andb_true_iff, !N.leb_le; cbn in *; lia).
  assert (d0 ≠ x0a ∧ d1 ≠ x0a ∧ d2 ≠ x0a) as (Hn0 & Hn1 & Hn2) by (split_and!; by eapply digit_not_lf).
  destruct n as [|n]; [done|]. cbn [take]. unfold plausible_status_prefix. rewrite H0. cbn [negb].
  unfold status_line_len. rewrite memchr_spec.
  destruct (position _ (d0 :: take n _)) as [i|] eqn:Ei; cbn [fmap option_fmap option_map].
  - assert (∃ v, take (S i) (d0 :: take n (d1 :: d2 :: u)) = d0 :: d1 :: d2 :: v) as [v ->].
    { apply position_Some in Ei as [(x & Hx & <-%byte_eqb_eq) _].
      destruct i as [|[|[|i]]]; [..|destruct n as [|[|n]]; [done..|by eexists]]; exfalso.
      - cbn in Hx. congruence.
      - destruct n; [done|]. cbn in Hx. congruence.
      - destruct n as [|[|n]]; [done..|]. cbn in Hx. congruence. }
    apply bool_decide_eq_true. by apply parse_digits.
  - destruct n as [|[|n]]; cbn [take forallb]; rewrite ?Hd0, ?H1, ?H2; done.
Qed.

Lemma starts_response_clean c e : starts_response (drop e c) = true → clean_after c e.
Proof. unfold clean_after. intros H [u Hu]. by rewrite Hu in H. Qed.

Lemma take_starts c e n : starts_response (drop e (c ++ n)) = true → e ≤ length c → clean_after c e.
Proof. intros H He. apply starts_response_clean in H. by eapply clean_after_app_l. Qed.

(** One read of a response that ends [k] bytes ahead. *)
Lemma split_chunk_exact S f c u k :
  framer_for S f → first_touching_end S (c ++ u) = Some k → starts_response (drop k (c ++ u)) = true →
  if k <=? length c then split_chunk t f c AllowIfStatusPrefix = (Ok (Complete k), f)
  else split_chunk t f c AllowIfStatusPrefix = (Ok Incomplete, update f c) ∧ framer_for (S ++ c) (update f c) ∧
       first_touching_end (S ++ c) u = Some (k - length c).
Proof.
  intros Hf Hk Hst. assert (next_terminator_end t f c = first_touching_end S c) as En.
  { apply next_terminator_end_reference; [done|]. intros e He. assert (Hb := first_touching_end_bounds _ _ _ He).
    rewrite (first_touching_end_app _ _ u _ He) in Hk. simplify_eq. eapply take_starts; [done|lia]. }
  destruct (first_touching_end S c) as [e|] eqn:He.
  - assert (Hb := first_touching_end_bounds _ _ _ He). rewrite (first_touching_end_app _ _ u _ He) in Hk. simplify_eq.
    rewrite (proj2 (Nat.leb_le _ _)) by lia. apply split_chunk_allow; [done|].
    rewrite drop_app_le in Hst by lia. replace (drop k c) with (take (length (drop k c)) (drop k c ++ u)) by apply take_app_length.
    by apply starts_response_plausible.
  - rewrite first_touching_end_app_None in Hk by done. apply fmap_Some in Hk as (d & Hd & ->).
    assert (Hb := first_touching_end_bounds _ _ _ Hd). rewrite (proj2 (Nat.leb_gt _ _)) by lia.
    split_and!; [by apply split_chunk_none|by apply framer_for_update|rewrite Hd; f_equal; lia].
Qed.

(** The response still to be read is [r], and [rest] follows it. *)
Definition awaiting_next (s : StreamingResponse) (r rest : bytes) : Prop :=
  upcoming (s_conn s) = r ++ rest ∧ starts_response rest = true ∧
  ∃ S, framer_for S (s_framer s) ∧ first_touching_end S (r ++ rest) = Some (length r).

(** The same with the window in the buffer. *)
Definition awaiting (s : StreamingResponse) (r rest : bytes) : Prop :=
  match s_frame s with
  | CompleteWindow _ next =>
      next.1 = length r ∧ remaining s = r ++ rest
  | IncompleteWindow _ => ∃ r', r = visible (s_buffer s) ++ r' ∧ awaiting_next s r' rest
  end.

Lemma awaiting_next_nonempty s r rest : awaiting_next s r rest → 0 < length r.
Proof. intros (_ & _ & S & _ & He%first_touching_end_bounds). lia. Qed.

Lemma read_next_chunk_exact s r rest :
  reading_ok s → awaiting_next s r rest →
  ∃ s', read_next_chunk t backend_id s = (Ok (), s') ∧ streaming_ok s' ∧ awaiting s' r rest ∧
    reads_left (s_conn s') < reads_left (s_conn s) ∧ phase (s_conn s') = phase (s_conn s) ∧
    s_metadata s' = s_metadata s ∧ s_shape s' = s_shape s.
Proof.
  intros Hs Ha. assert (Hpos := awaiting_next_nonempty _ _ _ Ha). destruct Ha as (Hup & Hst & S & HS & He).
  pose proof (read_next_chunk_spec t backend_id s Hs) as H.
  destruct (read_next_chunk t backend_id s) as [[[]|e] s'] eqn:Er.
  2: { destruct H as (_ & Hnil & _). rewrite Hup in Hnil. by destruct r; [cbn in Hpos; lia|]. }
  destruct H as (Hs' & Hrem & Hlt & Hph & Hm & Hsh & _). exists s'. split_and!; try done.
  unfold read_next_chunk in Er. destruct (read_from (s_buffer s) (s_conn s)) as [[[[|n]|k] b] c]; [done| |done].
  unfold frame_with_policy in Er. rewrite Hup in Hrem. unfold remaining in Hrem.
  assert (s_buffer s' = b ∧ s_conn s' = c) as [Eb Ec] by (destruct (split_chunk _ _ _ _) as [[]]; by simplify_eq/=).
  rewrite Eb, Ec in Hrem. clear Eb Ec. rewrite Hrem in He.
  pose proof (split_chunk_exact S (s_framer s) (visible b) (upcoming c) (length r) HS He) as H.
  rewrite <- Hrem, drop_app_length in H. specialize (H Hst).
  unfold awaiting. destruct (Nat.leb_spec (length r) (length (visible b))) as [Hle|Hgt].
  - rewrite H in Er. cbn in Er. simplify_eq/=. by split.
  - destruct H as (H & HS' & He'). rewrite H in Er. cbn in Er. simplify_eq/=.
    exists (drop (length (visible b)) r).
    assert (r = visible b ++ drop (length (visible b)) r) as Hr.
    { rewrite <- (take_drop (length (visible b)) r) at 1. f_equal. apply (f_equal (take (length (visible b)))) in Hrem.
      rewrite take_app_length, take_app_le in Hrem by lia. done. }
    assert (upcoming c = drop (length (visible b)) r ++ rest) as Hu.
    { rewrite Hr, <- app_assoc in Hrem. by apply app_inv_head in Hrem. }
    split_and!; [done|]. split_and!; [done|done|]. exists (S ++ visible b). split; [done|].
    cbn. rewrite <- Hu, He'. by rewrite length_drop.
Qed.

Lemma awaiting_incomplete s r rest resp :
  s_frame s = IncompleteWindow resp → awaiting s r rest →
  ∃ r', r = visible (s_buffer s) ++ r' ∧ awaiting_next s r' rest.
Proof. intros Ef. unfold awaiting. by rewrite Ef. Qed.

(** Appending to a retained window keeps what is awaited. *)
Lemma append_exact s r rest :
  streaming_ok s → awaiting s r rest →
  ∃ s', append_to_retained_prefix_if_writable t backend_id s = (Ok (), s') ∧ streaming_ok s' ∧ awaiting s' r rest ∧
    phase (s_conn s') = phase (s_conn s).
Proof.
  intros Hs Ha. unfold append_to_retained_prefix_if_writable. destruct (s_frame s) as [|resp] eqn:Ef; [by exists s|].
  destruct (retained_append_permitted (s_buffer s)) eqn:Ep; cbn [negb]; [|by exists s].
  destruct (awaiting_incomplete _ _ _ _ Ef Ha) as (r' & -> & Hn). assert (Hpos := awaiting_next_nonempty _ _ _ Hn).
  destruct Hn as (Hup & Hst & S & HS & He), Hs as [Hc Hb Hw].
  assert (initialized (s_buffer s) < read_limit (s_buffer s)) as Hlt.
  { unfold retained_append_permitted in Ep. apply negb_true_iff, orb_false_iff in Ep as [_ ?%Nat.leb_gt]. done. }
  pose proof (read_more_spec (s_buffer s) (s_conn s) Hc Hb Hlt) as H.
  destruct (read_more (s_buffer s) (s_conn s)) as [[[n|k] b] c].
  2: { destruct H as (_ & _ & _ & _ & _ & Hnil & _). rewrite Hup in Hnil. by destruct r'; [cbn in Hpos; lia|]. }
  destruct H as (new & Hv & Hn & Hp & Hb' & Hc' & Hph & Hnew & Hlim & H0 & _).
  destruct n as [|n]; [destruct (H0 eq_refl) as [Hnil _]; rewrite Hup in Hnil; by destruct r'; [cbn in Hpos; lia|]|].
  rewrite Hup in Hnew. rewrite Hnew in He.
  pose proof (split_chunk_exact S (s_framer s) new (upcoming c) (length r') HS He) as H.
  rewrite <- Hnew, drop_app_length in H. specialize (H Hst).
  unfold split_appended, initialized. rewrite Hv, drop_app_length.
  destruct (Nat.leb_spec (length r') (length new)) as [Hle|Hgt].
  - rewrite H. eexists. split_and!; [done| | |done].
    + split; try done. unfold window_ok. cbn. unfold initialized. rewrite Hv, length_app. split_and!; [done|done|lia].
    + unfold awaiting, remaining. cbn. by rewrite length_app, Hv, <- !app_assoc, <- Hnew.
  - destruct H as (H & HS' & He'). rewrite H. eexists. split_and!; [done| | |done].
    + split; try done. unfold window_ok. cbn. unfold initialized. rewrite Hv, length_app. split_and!; [done|lia|eauto].
    + exists (drop (length new) r'). cbn.
      assert (r' = new ++ drop (length new) r') as Hr.
      { rewrite <- (take_drop (length new) r') at 1. f_equal. apply (f_equal (take (length new))) in Hnew.
        rewrite take_app_length, take_app_le in Hnew by lia. done. }
      assert (upcoming c = drop (length new) r' ++ rest) as Hu.
      { rewrite Hr, <- app_assoc in Hnew. by apply app_inv_head in Hnew. }
      split; [rewrite Hv, <- app_assoc; by f_equal|]. split_and!; [done|done|]. exists (S ++ new). split; [done|].
      rewrite <- Hu, He'. by rewrite length_drop.
Qed.

Hypothesis fresh_ok : buffer_ok fresh.

(** The transfer ended right behind the response. *)
Definition at_end (s s' : StreamingResponse) (rest : bytes) : Prop :=
  is_complete s' = true ∧ conn_ok (s_conn s') ∧ upcoming (s_conn s') = rest ∧ phase (s_conn s') = phase (s_conn s).

Lemma write_loop_exact fuel stats s w r rest :
  streaming_ok s → awaiting s r rest → healthy w → reads_left (s_conn s) ≤ fuel →
  ∃ stats' s' w', write_loop t fresh backend_id fuel stats s w = (Ok stats', s', w') ∧
    at_end s s' rest ∧ sent w' = sent w ++ r ∧ healthy w' ∧ bytes_written stats' = bytes_written stats + length r.
Proof.
  revert stats s w r. induction fuel as [fuel IH] using lt_wf_ind. intros stats s w r Hs Ha Hw Hle.
  rewrite write_loop_unfold. assert (Hwin := so_window _ Hs). unfold window_ok in Hwin.
  destruct (s_frame s) as [resp next|resp] eqn:Ef.
  - unfold awaiting in Ha. rewrite Ef in Ha. destruct next as [e n], Hwin as (-> & Hn2 & Hn1), Ha as [He Hrem].
    cbn [fst snd] in *. subst e n. unfold write_from. cbn [fst snd].
    assert (slice 0 (length r) (visible (s_buffer s)) = r) as ->.
    { unfold slice. rewrite drop_0, Nat.sub_0_r. apply (f_equal (take (length r))) in Hrem. unfold remaining, initialized in *.
      rewrite take_app_length, (take_app_le (visible (s_buffer s))) in Hrem by (cbn in *; lia). done. }
    destruct (write_all_healthy r w Hw) as (w' & -> & Hsent & Hw').
    destruct (queue_pooled_next_spec fresh (length r) (s_buffer s) (s_conn s)) as (b' & c' & -> & ? & ? & Hup & ?); [apply Hs..|done|done|].
    do 3 eexists. split_and!; [done| |done|done|done]. split_and!; [unfold is_complete; cbn; by rewrite Ef|done| |done].
    cbn. rewrite Hup. apply (f_equal (drop (length r))) in Hrem. unfold remaining, initialized in *.
    rewrite drop_app_length, (drop_app_le (visible (s_buffer s))) in Hrem by (cbn in *; lia). done.
  - destruct (awaiting_incomplete _ _ _ _ Ef Ha) as (r' & -> & Hn). destruct Hwin as (-> & Hpos & _).
    cbn [fst snd]. unfold initialized; rewrite slice_full.
    destruct (write_all_healthy (visible (s_buffer s)) w Hw) as (w1 & -> & Hsent & Hw1).
    destruct (read_next_chunk_exact s r' rest) as (s1 & -> & Hs1 & Ha1 & Hlt & Hph & _);
      [apply streaming_reading; [done|unfold is_complete; by rewrite Ef]|done|].
    destruct fuel as [|fuel]; [lia|]. edestruct (IH fuel ltac:(lia)) as (stats' & s2 & w2 & -> & (? & ? & ? & Hph2) & Hsent2 & ? & Hb);
      [done..|lia|].
    do 3 eexists. split_and!; [done| | |done|rewrite Hb, length_app; cbn; lia].
    + split_and!; congruence.
    + by rewrite Hsent2, Hsent, app_assoc.
Qed.

(** ** Capturing *)

Lemma would_exceed_spec a b limit : (limit < u64_max)%N → capture_would_exceed_limit a b limit = (limit <? a + b)%N.
Proof.
  intros Hl. unfold capture_would_exceed_limit, ensure_capture_len_with_limit, sat_add64.
  destruct (N.ltb_spec limit (a + b)), (N.ltb_spec limit (N.min (a + b) u64_max)); (done || lia).
Qed.

Lemma pending_bytes_len_spec c : conn_ok c → pending_bytes_len c ≤ length (upcoming c).
Proof.
  unfold conn_ok, pending_bytes_len, upcoming. rewrite length_app. induction 1 as [|p l (_ & Hp & _) _ IH]; cbn; [lia|].
  rewrite length_app, Hp. lia.
Qed.

(** A body above the limit is not retained. *)
Definition too_large (shape : ResponseShape) (total : bytes) (limit : N) : bool :=
  match shape with ShapeSingleLine => false | ShapeMultiline => (limit <? N.of_nat (length total))%N end.

(** What a capture of the whole response [total] returns. *)
Definition captured_as (s : StreamingResponse) (limit : N) (total : bytes) (cap : option CapturedChunkedResponse) : Prop :=
  if too_large (s_shape s) total limit then cap = None
  else ∃ chunks, concat chunks = total ∧ cap = mkCaptured (s_metadata s) chunks <$> capture_end (s_shape s) chunks.

Definition capture_outcome (s : StreamingResponse) (limit : N) (w : Writer) (total rest : bytes)
    (o : result ResponseTransferError (nat * option CapturedChunkedResponse) * StreamingResponse * Writer) : Prop :=
  let '(res, s', w') := o in
  match res with
  | Ok (n, cap) => n = length total ∧ sent w' = sent w ++ total ∧ at_end s s' rest ∧ captured_as s limit total cap
  | Err e => e = RtIo IoPendingLimit ∧ sent w' = sent w ∧ (MAX_PENDING_BACKEND_BYTES < N.of_nat (length rest))%N
  end.

Lemma exceeds_too_large s chunks r rest limit :
  (limit < u64_max)%N → streaming_ok s → awaiting s r rest →
  if exceeds_limit (s_shape s) chunks (window_len (s_frame s)) limit then too_large (s_shape s) (concat chunks ++ r) limit = true
  else is_complete s = true → too_large (s_shape s) (concat chunks ++ r) limit = false.
Proof.
  intros Hl [_ _ Hw] Ha. unfold exceeds_limit, too_large. destruct (s_shape s); [done|]. rewrite would_exceed_spec by done.
  unfold window_ok, awaiting, is_complete in *. unfold chunked_len. rewrite length_app. destruct (s_frame s) as [resp [e n]|resp].
  - destruct Hw as (-> & _ & _), Ha as [He _]. cbn in *. subst e. rewrite Nat.sub_0_r, Nat2N.inj_add. by destruct (_ <? _)%N.
  - destruct Hw as (-> & _ & _), Ha as (r' & -> & _). cbn. rewrite length_app. unfold initialized.
    destruct (N.ltb_spec limit (N.of_nat (length (concat chunks)) + N.of_nat (length (visible (s_buffer s)) - 0))); [|done].
    apply N.ltb_lt. lia.
Qed.

Lemma forward_too_large s chunks limit w r rest :
  streaming_ok s → awaiting s r rest → healthy w → too_large (s_shape s) (concat chunks ++ r) limit = true →
  capture_outcome s limit w (concat chunks ++ r) rest
    (let stats := add_buffered_response chunks no_stats in
     match write_all_to_recording chunks w with
     | (Err k, w) => let '(cleanup, s) := observe t fresh backend_id s in (Err (from_client_write_after_cleanup k cleanup), s, w)
     | (Ok _, w) =>
         match write_current_and_remaining_chunks t fresh backend_id s w with
         | (Ok more, s, w) => (Ok (bytes_written (add_stats stats more), None), s, w)
         | (Err e, s, w) => (Err e, s, w)
         end
     end).
Proof.
  intros Hs Ha Hw Htl. destruct (write_all_to_recording_healthy chunks w Hw) as (w1 & -> & Hsent & Hw1).
  unfold write_current_and_remaining_chunks.
  destruct (write_loop_exact (reads_left (s_conn s)) no_stats s w1 r rest) as (stats' & s' & w' & -> & He & Hsent' & _ & Hb); [done..|].
  split_and!; [|by rewrite Hsent', Hsent, app_assoc|done|unfold captured_as; by rewrite Htl].
  cbn [add_stats bytes_written]. rewrite Hb, buffered_stats, length_app. cbn. lia.
Qed.

Lemma capture_last s chunks limit w r rest e :
  streaming_ok s → awaiting s r rest → healthy w → too_large (s_shape s) (concat chunks ++ r) limit = false →
  s_frame s = CompleteWindow (0, e) (e, initialized (s_buffer s)) →
  capture_outcome s limit w (concat chunks ++ r) rest
    (match push_from_buffer fresh (0, e) (e, initialized (s_buffer s)) (s_buffer s) (s_conn s) chunks with
     | (Err e, b, c) => (Err e, set_io s b c, w)
     | (Ok chunks, b, c) =>
         let stats := add_buffered_response chunks no_stats in
         match write_all_to_recording chunks w with
         | (Err k, w) => (Err (from_client_write k), set_io s b c, w)
         | (Ok _, w) =>
             (Ok (bytes_written stats, mkCaptured (s_metadata s) chunks <$> capture_end (s_shape s) chunks), set_io s b c, w)
         end
     end).
Proof.
  intros [Hc Hb Hwin] Ha Hw Htl Ef. unfold window_ok, awaiting in *. rewrite Ef in *. destruct Hwin as (_ & _ & Hle), Ha as [He Hrem].
  cbn [fst snd] in *. subst e. unfold remaining, initialized in *.
  assert (take (length r) (visible (s_buffer s)) = r) as Htake.
  { apply (f_equal (take (length r))) in Hrem. rewrite take_app_length, (take_app_le (visible (s_buffer s))) in Hrem by lia. done. }
  assert (drop (length r) (visible (s_buffer s)) ++ upcoming (s_conn s) = rest) as Hdrop.
  { apply (f_equal (drop (length r))) in Hrem. rewrite drop_app_length, (drop_app_le (visible (s_buffer s))) in Hrem by lia. done. }
  unfold push_from_buffer. pose proof (queue_next_spec (length r) (visible (s_buffer s)) (s_conn s) Hc Hle) as H.
  destruct (queue_next_response_input _ _ _) as [[[]|err] c'].
  - destruct H as (Hc' & Hup & Hph). rewrite Hdrop in Hup. unfold slice. cbn [fst snd]. rewrite drop_0, Nat.sub_0_r, Htake.
    destruct (write_all_to_recording_healthy (chunks ++ [r]) w Hw) as (w' & -> & Hsent & Hw').
    rewrite concat_app in Hsent. cbn [concat] in Hsent. rewrite app_nil_r in Hsent.
    assert (concat (chunks ++ [r]) = concat chunks ++ r) as Hcat by (rewrite concat_app; cbn; by rewrite app_nil_r).
    split_and!; [by rewrite buffered_stats, Hcat|done| |unfold captured_as; rewrite Htl; eauto].
    split_and!; [unfold is_complete; cbn; by rewrite Ef|done..].
  - destruct H as (-> & -> & Hlim). split_and!; try done. apply pending_bytes_len_spec in Hc.
    rewrite <- Hdrop, length_app, length_drop. lia.
Qed.

Lemma capture_loop_exact fuel chunks limit s w r rest :
  (limit < u64_max)%N → streaming_ok s → awaiting s r rest → healthy w → reads_left (s_conn s) ≤ fuel →
  capture_outcome s limit w (concat chunks ++ r) rest (capture_loop t fresh backend_id fuel chunks limit s w).
Proof.
  intros Hlim. revert chunks s r. induction fuel as [fuel IH] using lt_wf_ind. intros chunks s r Hs Ha Hw Hle.
  rewrite capture_loop_unfold. pose proof (exceeds_too_large s chunks r rest limit Hlim Hs Ha) as Hex.
  destruct (exceeds_limit _ _ _ _); [by apply forward_too_large|].
  assert (Hwin := so_window _ Hs). unfold window_ok in Hwin. destruct (s_frame s) as [resp [e n]|resp] eqn:Ef.
  - destruct Hwin as (-> & Hn & _). cbn [fst snd] in *. subst n. apply capture_last; try done.
    apply Hex. unfold is_complete. by rewrite Ef.
  - destruct (awaiting_incomplete _ _ _ _ Ef Ha) as (r' & -> & Hn). destruct Hwin as (-> & _ & S & HS).
    cbn [fst snd]. unfold initialized. rewrite slice_full. cbv zeta.
    destruct (read_next_chunk_exact (set_io s fresh (s_conn s)) r' rest) as (s1 & -> & Hs1 & Ha1 & Hlt & Hph & Hm & Hsh).
    { split; [apply Hs|done|unfold is_complete; cbn; by rewrite Ef|by exists S]. }
    { done. }
    cbn in Hlt, Hph, Hm, Hsh. destruct fuel as [|fuel]; [lia|].
    specialize (IH fuel ltac:(lia) (chunks ++ [visible (s_buffer s)]) s1 r' Hs1 Ha1 Hw ltac:(lia)).
    assert (concat (chunks ++ [visible (s_buffer s)]) ++ r' = concat chunks ++ visible (s_buffer s) ++ r') as Hcat
      by (rewrite concat_app; cbn; by rewrite app_nil_r, <- app_assoc).
    rewrite Hcat in IH. destruct (capture_loop _ _ _ _ _ _ s1 w) as [[[[k cap]|e] s2] w2]; [|done].
    unfold capture_outcome, captured_as, at_end in *. by rewrite Hm, Hsh, Hph in IH.
Qed.

(** ** Classifying *)

Lemma parse_line l u : x0a ∉ l → parse (l ++ x0a :: u) = parse (l ++ [x0a]).
Proof.
  intros _. destruct l as [|b0 [|b1 [|b2 l]]]; [..|done]; cbn [app]; [by destruct u as [|? [|? ?]]| |].
  all: unfold parse; destruct u; try done.
  all: assert (9 <? digit_value x0a = true)%N as -> by done; by rewrite ?orb_true_r.
Qed.

Lemma response_end_line request l u :
  x0a ∉ l →
  response_end request (l ++ x0a :: u) =
  (status ← parse (l ++ [x0a]);
   if has_response_body request status then (λ e, length (l ++ [x0a]) + e) <$> first_touching_end (l ++ [x0a]) u
   else Some (length (l ++ [x0a]))).
Proof.
  intros Hl. unfold response_end. rewrite position_first by done. cbv zeta.
  replace (S (length l)) with (length (l ++ [x0a])) by (rewrite length_app; cbn; lia).
  rewrite (cons_middle x0a l u), (app_assoc l [x0a] u), take_app_length, drop_app_length. by destruct (parse (l ++ [x0a])).
Qed.

(** The buffer of a classification contains the status line. *)
Definition line_read (cl : ClassifiedResponse) : Prop := x0a ∈ visible (cl_buffer cl).

Lemma read_unbound_exact fuel request b c p :
  conn_ok c → buffer_ok b → reads_left c ≤ fuel →
  position (Byte.eqb x0a) (visible b ++ upcoming c) = Some p → p < read_limit b →
  ∃ cl c', read_unbound_loop fuel request b c = (Ok cl, c') ∧ classified_ok request cl ∧ line_read cl ∧ conn_ok c' ∧
    visible (cl_buffer cl) ++ upcoming c' = visible b ++ upcoming c ∧ phase c' = phase c ∧ cl_kind cl = kind request.
Proof.
  revert b c. induction fuel as [fuel IH] using lt_wf_ind. intros b c Hc Hb Hle Hp Hlim.
  assert (read_unbound_loop fuel request b c =
    match parse_bytes request (visible b) with
    | Err ReadIncomplete =>
        match read_more b c with
        | (Err k, _, c) => (Err (AnyIo k), c)
        | (Ok 0, _, c) => (Err AnyOther, c)
        | (Ok _, b, c) => match fuel with 0 => (Err AnyOther, c) | S fuel => read_unbound_loop fuel request b c end
        end
    | frame => (Ok (mkClassified b frame (kind request)), c)
    end) as -> by (by destruct fuel).
  unfold parse_bytes at 1, status_line_len. rewrite memchr_spec. destruct (position _ (visible b)) as [i|] eqn:Ei; cbn [fmap option_fmap option_map].
  - exists (mkClassified b (parse_bytes request (visible b)) (kind request)), c. split_and!; try done.
    + unfold parse_bytes, status_line_len. rewrite memchr_spec, Ei. cbn [fmap option_fmap option_map].
      destruct (parse_response_status _) as [[]]; [|done]. by destruct (has_response_body _ _).
    + apply position_Some in Ei as [(x & Hx & <-%byte_eqb_eq) _]. by eapply list_elem_of_lookup_2.
  - rewrite position_app, Ei in Hp. apply fmap_Some in Hp as (q & Hq & ->).
    assert (q < length (upcoming c)) as Hql by (apply position_Some in Hq as [(x & Hx & _) _]; by eapply lookup_lt_Some).
    pose proof (read_more_spec b c Hc Hb) as H. unfold initialized in *. specialize (H ltac:(lia)).
    destruct (read_more b c) as [[[n|k] b'] c']; [|destruct H as (_ & _ & _ & _ & _ & Hnil & _); by rewrite Hnil in Hql; cbn in Hql; lia].
    destruct H as (new & Hv & Hn & Hpool & Hb' & Hc' & Hph & Hup & _ & H0 & _).
    destruct n as [|n]; [destruct (H0 eq_refl) as [Hnil _]; rewrite Hnil in Hql; cbn in Hql; lia|].
    assert (reads_left c' < reads_left c) as Hlt by (unfold reads_left; rewrite Hup, length_app; lia).
    destruct fuel as [|fuel]; [lia|]. destruct (IH fuel ltac:(lia) b' c' Hc' Hb' ltac:(lia)) as (cl & c2 & E & ? & ? & ? & Hs & Hph2 & ?).
    { rewrite Hv, <- app_assoc, <- Hup, position_app, Ei, Hq. done. }
    { by rewrite (same_pool_limit _ _ Hpool). }
    exists cl, c2. split_and!; try done; [|congruence]. by rewrite Hs, Hv, <- app_assoc, <- Hup.
Qed.

(** The shape of a response follows from its status. *)
Definition shape_of (request : RequestContext) (status : StatusCode) : ResponseShape :=
  if has_response_body request status then ShapeMultiline else ShapeSingleLine.

Lemma from_classification_awaiting request cl c n :
  classified_ok request cl → line_read cl → conn_ok c →
  let stream := visible (cl_buffer cl) ++ upcoming c in
  response_end request stream = Some n → starts_response (drop n stream) = true →
  ∃ s l u status, from_classification t cl c = Ok s ∧ s_conn s = c ∧ awaiting s (take n stream) (drop n stream) ∧
    stream = l ++ x0a :: u ∧ x0a ∉ l ∧ parse (l ++ [x0a]) = Some status ∧
    s_shape s = shape_of request status ∧ s_metadata s = mkMetadata (cl_kind cl) status (length (l ++ [x0a])).
Proof.
  intros Hcl Hline Hc stream Hn Hst.
  destruct Hcl as [Hb Hf], cl as [b fr kd]. unfold line_read in *. cbn [cl_buffer cl_frame cl_kind] in *. subst fr.
  destruct (line_split (visible b)) as [?|(l & u & Hv & Hl)]; [done|].
  assert (stream = l ++ x0a :: u ++ upcoming c) as Hstream by (unfold stream; by rewrite Hv, <- app_assoc).
  rewrite Hstream, response_end_line in Hn by done. apply bind_Some in Hn as (status & Hp & Hn).
  unfold from_classification in *. cbn [cl_frame cl_buffer cl_kind] in *. unfold parse_bytes, status_line_len in *.
  rewrite memchr_spec, Hv, position_first by done.
  cbn [fmap option_fmap option_map]. unfold parse_response_status. rewrite parse_line, Hp by done.
  assert (Datatypes.S (length l) = length (l ++ [x0a])) as El by (rewrite length_app; cbn; lia). rewrite El.
  unfold shape_of. destruct (has_response_body request status) eqn:Hbody.
  - apply fmap_Some in Hn as (e & He & ->). unfold begin_after_status_line in *.
    rewrite (cons_middle x0a l u), (app_assoc l [x0a] u). rewrite take_app_length, drop_app_length .
    rewrite (proj2 (Nat.ltb_ge _ _))  by (rewrite (length_app (l ++ [x0a]) u); lia).
    assert (framer_for (l ++ [x0a]) (update default_framer (l ++ [x0a]))) as HS by (by apply (framer_for_update []), framer_for_default).
    assert (drop e (u ++ upcoming c) = drop (length (l ++ [x0a]) + e) stream) as Hd
      by (by rewrite Hstream, (cons_middle x0a l (u ++ _)), (app_assoc l [x0a] (u ++ _)), drop_app_add).
    pose proof (split_chunk_exact _ _ u (upcoming c) e HS He ltac:(by rewrite Hd)) as H.
    assert (e ≤ length (u ++ upcoming c)) as Hbound by (apply first_touching_end_bounds in He; lia).
    destruct (Nat.leb_spec e (length u)) as [Hle|Hgt].
    + rewrite H . cbn [fmap result_fmap] in *. eexists _, l, (u ++ upcoming c), status. split; [done|]. split; [done|]. split; [|by rewrite Hbody; split_and!].
      split; [cbn [s_frame fst in_window]; rewrite length_take, Hstream; rewrite !length_app in *; cbn [length] in *; rewrite length_app; lia|].
      unfold remaining. cbn. by rewrite take_drop.
    + destruct H as (H & HS' & He'). rewrite H . cbn [fmap result_fmap] in *. eexists _, l, (u ++ upcoming c), status. split; [done|]. split; [done|]. split; [|by rewrite Hbody; split_and!].
      exists (take (e - length u) (upcoming c)). cbn [s_buffer s_conn s_framer].
      assert (take (length (l ++ [x0a]) + e) stream = visible b ++ take (e - length u) (upcoming c)) as Ht.
      { rewrite Hstream, Hv, (cons_middle x0a l (u ++ _)), (app_assoc l [x0a] (u ++ _)), take_app_add, (cons_middle x0a l u), (app_assoc l [x0a] u).
        rewrite <- (app_assoc (l ++ [x0a]) u). f_equal. rewrite take_app_ge by lia. done. }
      split; [done|]. assert (take (e - length u) (upcoming c) ++ drop (length (l ++ [x0a]) + e) stream = upcoming c) as Hu.
      { rewrite <- Hd, drop_app_ge by lia. by rewrite take_drop. }
      split_and!; [done|done|]. exists ((l ++ [x0a]) ++ u). split; [done|]. rewrite Hu, He'. f_equal.
      rewrite length_take. rewrite length_app in Hbound. lia.
  - injection Hn as <-. eexists _, l, (u ++ upcoming c), status. split; [done|]. split; [done|]. split; [|by rewrite Hbody; split_and!].
    split; [cbn [s_frame fst in_window]; rewrite length_take, Hstream, !length_app; cbn [length]; lia|]. unfold remaining. cbn. by rewrite take_drop.
Qed.

Lemma from_classification_exact request cl c n :
  classified_ok request cl → line_read cl → conn_ok c →
  let stream := visible (cl_buffer cl) ++ upcoming c in
  response_end request stream = Some n → starts_response (drop n stream) = true →
  ∃ s l u status, from_classification t cl c = Ok s ∧ streaming_ok s ∧ s_conn s = c ∧ awaiting s (take n stream) (drop n stream) ∧
    stream = l ++ x0a :: u ∧ x0a ∉ l ∧ parse (l ++ [x0a]) = Some status ∧
    s_shape s = shape_of request status ∧ s_metadata s = mkMetadata (cl_kind cl) status (length (l ++ [x0a])).
Proof.
  intros Hcl Hline Hc stream Hn Hst. assert (Hok := from_classification_spec t request cl c Hcl Hc).
  destruct (from_classification_awaiting request cl c n) as (s & l & u & status & E & H); [done..|].
  rewrite E in Hok. exists s, l, u, status. split_and!; [done|apply Hok|apply H..].
Qed.

(** ** One exchange *)

(** [pool.acquire()] gives an empty buffer. *)
Definition acquired (b : PooledBuffer) : Prop := buffer_ok b ∧ visible b = [].

(** The status line fits into a buffer. *)
Definition line_fits (stream : bytes) : bool :=
  match position (Byte.eqb x0a) stream with Some p => p <? pool_limit | None => false end.

Lemma line_fits_spec stream : line_fits stream = true → ∃ p, position (Byte.eqb x0a) stream = Some p ∧ p < pool_limit.
Proof. unfold line_fits. destruct (position _ _) as [p|]; [|done]. intros ?%Nat.ltb_lt. eauto. Qed.

(** A classification of the response at the front of [stream]. *)
Definition classified_from (request : RequestContext) (stream : bytes) (cl : ClassifiedResponse) (c : ConnectionStream) : Prop :=
  classified_ok request cl ∧ line_read cl ∧ conn_ok c ∧ visible (cl_buffer cl) ++ upcoming c = stream ∧
  phase c = PhaseInFlight ∧ cl_kind cl = kind request.

Lemma classified_status request stream cl c l u status :
  classified_from request stream cl c → stream = l ++ x0a :: u → x0a ∉ l → parse (l ++ [x0a]) = Some status →
  status_code cl = Some status.
Proof.
  intros ([_ Hf] & Hline & _ & Hs & _) -> Hl Hp. unfold line_read in Hline.
  destruct (line_split (visible (cl_buffer cl))) as [?|(l' & u' & Hv & Hl')]; [done|].
  rewrite Hv, <- app_assoc, <- app_comm_cons in Hs.
  assert (l' = l) as ->.
  { assert (H1 := position_first x0a l' (u' ++ upcoming c) Hl'). assert (H2 := position_first x0a l u Hl). rewrite Hs, H2 in H1.
    injection H1 as E. by apply app_inj_1 in Hs as [? _]. }
  unfold status_code. rewrite Hf, Hv. unfold parse_bytes, status_line_len, parse_response_status.
  rewrite memchr_spec, position_first by done. cbn [fmap option_fmap option_map]. rewrite parse_line, Hp by done.
  by destruct (has_response_body _ _).
Qed.

Lemma read_then_classify request b c :
  buffer_ok b → conn_ok c → phase c = PhaseInFlight → line_fits (upcoming c) = true →
  ∃ cl c', (match read_from b c with
            | (Err k, _, c) => (Err (AnyIo k), c)
            | (Ok 0, _, c) => (Err AnyOther, c)
            | (Ok _, b, c) => read_unbound request b c
            end) = (Ok cl, c') ∧ classified_from request (upcoming c) cl c'.
Proof.
  intros Hb Hc Hph (p & Hp & Hlim)%line_fits_spec. pose proof (read_from_spec b c Hc Hb) as H.
  assert (upcoming c ≠ []) as Hne by (intros E; by rewrite E in Hp).
  destruct (read_from b c) as [[[n|k] b'] c']; [|by destruct H as (_ & _ & _ & _ & _ & ? & _)].
  destruct H as (Hn & _ & _ & Hb' & Hc' & Hph' & Hup & _ & H0 & _).
  destruct n as [|n]; [by destruct (H0 eq_refl)|].
  destruct (read_unbound_exact (reads_left c') request b' c' p) as (cl & c2 & E & ? & ? & ? & Hs & ? & ?);
    [done|done|done|by rewrite <- Hup|by destruct Hb' as (_ & _ & ->)|].
  exists cl, c2. split; [done|]. split_and!; (done || congruence).
Qed.

Lemma take_queued_spec c :
  acquired fresh → conn_ok c →
  ∃ b c', take_queued_input_or_acquire_empty fresh c = Some (b, c') ∧ buffer_ok b ∧ conn_ok c' ∧
    visible b ++ upcoming c' = upcoming c ∧ phase c' = phase c.
Proof.
  intros [Hfb Hfv] Hc. unfold take_queued_input_or_acquire_empty, take_leading_pooled_pending_input.
  destruct c as [[|[b0 pos|buffer start end_ pos] rest] tr ph]; cbn [pending_input].
  1, 2: exists fresh; eexists; split_and!; [done|done|done|by rewrite Hfv|done].
  apply Forall_cons in Hc as [(Hne & Hr & Hb) Hrest]. cbn in Hne, Hr.
  assert (start + pos < end_ ∧ end_ ≤ initialized buffer) as [Hlt Hle].
  { unfold slice, initialized in *. rewrite length_take, length_drop in Hr.
    assert (0 < length (take (end_ - (start + pos)) (drop (start + pos) (visible buffer)))) as Hpos by (by destruct (take _ _); [|cbn; lia]).
    rewrite length_take, length_drop in Hpos. lia. }
  unfold retain_range. rewrite (proj2 (Nat.ltb_lt _ _)), (proj2 (Nat.leb_le _ _)) by done. cbn [andb fmap option_fmap option_map].
  do 2 eexists. split_and!; [done| |done|unfold upcoming; cbn; by rewrite app_assoc|done].
  destruct Hb as (? & ? & ?). split_and!; [by destruct_and!..| |done]. unfold initialized, slice in *. cbn. rewrite length_take, length_drop. lia.
Qed.

Lemma read_exchange_exact request c :
  acquired fresh → conn_ok c → line_fits (upcoming c) = true →
  ∃ cl c', read_exchange_for_already_sent_request fresh request c = Some (Ok cl, c') ∧ classified_from request (upcoming c) cl c'.
Proof.
  intros Hfresh Hc Hline. unfold read_exchange_for_already_sent_request.
  destruct (take_queued_spec (in_flight c)) as (b & c1 & E & Hb & Hc1 & Hs & Hph); [done..|]. rewrite E. cbn [mbind option_bind].
  change (upcoming (in_flight c)) with (upcoming c) in Hs. change (phase (in_flight c)) with PhaseInFlight in Hph.
  destruct (Nat.eqb_spec (initialized b) 0) as [E0|E0].
  - apply nil_length_inv in E0. rewrite E0 in Hs. cbn in Hs. rewrite <- Hs in Hline |- *.
    destruct (read_then_classify request b c1) as (cl & c2 & E2 & Hcl); [done..|]. exists cl, c2.
    destruct (read_from b c1) as [[[[|n]|k] b'] c']; rewrite <- E2; done.
  - apply line_fits_spec in Hline as (p & Hp & Hlim). rewrite <- Hs in Hp.
    destruct (read_unbound_exact (reads_left c1) request b c1 p) as (cl & c2 & E2 & ? & ? & ? & ? & ? & ?);
      [done|done|done|done|by destruct Hb as (_ & _ & ->)|].
    exists cl, c2. unfold read_unbound. rewrite E2. split; [done|]. split_and!; (done || congruence).
Qed.

Lemma receiving_write_exact request stream cl c w n :
  classified_from request stream cl c → response_end request stream = Some n → starts_response (drop n stream) = true →
  healthy w →
  ∃ c' w', receiving_write t fresh backend_id cl c w = (Ok n, c', w') ∧ sent w' = sent w ++ take n stream ∧ healthy w' ∧
    conn_ok c' ∧ upcoming c' = drop n stream ∧ phase c' = PhaseComplete.
Proof.
  intros (Hcl & Hline & Hc & <- & _ & _) Hn Hst Hw. unfold receiving_write.
  destruct (from_classification_exact request cl (in_flight c) n) as (s & l & u & st & -> & Hs & Hsc & Ha & Hl & _ & _ & _ & _); [done..|].
  change (upcoming (in_flight c)) with (upcoming c) in *. unfold write.
  destruct (append_exact s _ _ Hs Ha) as (s1 & -> & Hs1 & Ha1 & Hph1). unfold write_current_and_remaining_chunks.
  destruct (write_loop_exact (reads_left (s_conn s1)) no_stats s1 w _ _ Hs1 Ha1 Hw (le_n _))
    as (stats & s2 & w2 & -> & (Hcomp & Hc2 & Hup & Hph2) & Hsent & Hw2 & Hb).
  cbn [fmap result_fmap]. rewrite Hcomp. exists (mark_response_complete (s_conn s2)), w2. split_and!; [|done..]. rewrite Hb. cbn. rewrite length_take.
  assert (n ≤ length (visible (cl_buffer cl) ++ upcoming c)) as Hle.
  { apply response_end_bounds in Hn. lia. }
  do 2 f_equal. f_equal. lia.
Qed.

(** ** A captured response *)

Lemma terminator_suffix_split (line b : bytes) :
  CRLF `suffix_of` line → 0 < length b → TERMINATOR `suffix_of` (line ++ b) →
  ∃ content, b = content ++ DOT_TERMINATOR ∧ (content = [] ∨ CRLF `suffix_of` content).
Proof.
  intros [l ->] Hb [k Hk]. rewrite <- (reverse_involutive b) in *. set (rb := reverse b) in *. clearbody rb.
  apply (f_equal reverse) in Hk. rewrite !reverse_app, reverse_involutive in Hk. cbn in Hk.
  destruct rb as [|b0 [|b1 [|b2 [|b3 [|b4 rb]]]]]; cbn in Hk; simplify_eq.
  - cbn in Hb. lia.
  - exists []. split; [done|by left].
  - exists (reverse rb ++ CRLF). split; [by rewrite !reverse_cons, <- !app_assoc|right; by apply suffix_app_r].
Qed.

(** The body up to the first dot line is a complete section. *)
Lemma body_section line body e :
  CRLF `suffix_of` line → first_touching_end line body = Some e →
  ∃ content, take e body = content ++ DOT_TERMINATOR ∧ complete_section content.
Proof.
  intros Hline He. apply first_touching_iff in He as [[Hb Ht] Hfirst].
  destruct (terminator_suffix_split line (take e body) Hline) as (content & Ec & Hend); [rewrite length_take; lia|done|].
  exists content. split; [done|]. split; [done|]. intros i Hm.
  assert (length content + 3 = e) as Hlen by (apply (f_equal length) in Ec; rewrite length_take, length_app in Ec; cbn in Ec; lia).
  pose proof (match_at_length _ _ _ Hm ltac:(done)) as Hl. rewrite !length_app in Hl. cbn in Hl.
  destruct (decide (i + 3 < e)) as [Hlt|Hge]; [|lia]. exfalso. apply (Hfirst (i + 3) Hlt). split; [lia|].
  rewrite <- Ec in Hm. apply (match_at_app_l _ _ (drop e body)) in Hm; [|rewrite length_app, length_take; cbn; lia].
  rewrite <- app_assoc, take_drop in Hm. replace i with (i + 5 - 5) in Hm by lia.
  apply (touching_in_chunk [] (CRLF ++ body) (i + 5)) in Hm as [_ Hs]; [|lia]. destruct Hline as [l ->].
  rewrite <- app_assoc. apply suffix_app_r. by replace (i + 5) with (length CRLF + (i + 3)) in Hs by (cbn; lia).
Qed.

(** The capture of the response [r] with the status line [line]. *)
Definition captures (request : RequestContext) (status : StatusCode) (line r : bytes) (cap : option CapturedChunkedResponse) : Prop :=
  let body := has_response_body request status in
  if body && (MAX_CAPTURED_MULTILINE_RESPONSE_BYTES <? N.of_nat (length r))%N then cap = None
  else ∃ chunks e, cap = Some (mkCaptured (mkMetadata (kind request) status (length line)) chunks e) ∧ concat chunks = r ∧
    length r = (if body then e + length DOT_TERMINATOR else e) ∧
    (body = true → CRLF `suffix_of` line → complete_capture status line chunks e).

Lemma captured_as_captures request s l u status n cap :
  let stream := l ++ x0a :: u in
  x0a ∉ l → parse (l ++ [x0a]) = Some status → response_end request stream = Some n →
  s_shape s = shape_of request status → s_metadata s = mkMetadata (kind request) status (length (l ++ [x0a])) →
  captured_as s MAX_CAPTURED_MULTILINE_RESPONSE_BYTES (take n stream) cap →
  captures request status (l ++ [x0a]) (take n stream) cap.
Proof.
  intros stream Hl Hp Hn Hsh Hm. unfold captured_as, captures, shape_of, too_large in *. rewrite Hsh, Hm. clear Hsh Hm.
  unfold stream in *. rewrite response_end_line, Hp in Hn by done. cbn [mbind option_bind] in Hn.
  destruct (has_response_body request status); cbn [andb].
  - apply fmap_Some in Hn as (e & He & ->). rewrite (cons_middle x0a l u), (app_assoc l [x0a] u), take_app_add.
    set (line := l ++ [x0a]) in *. set (r := line ++ take e u). destruct (_ <? _)%N; [done|]. intros (chunks & Hc & ->).
    assert (length TERMINATOR ≤ length r) as Hlen.
    { apply first_touching_iff in He as [[_ [k Hk]] _]. unfold r. rewrite Hk, length_app. lia. }
    unfold capture_end, checked_sub, payload_end_new. rewrite Hc. cbn [length DOT_TERMINATOR TERMINATOR] in *.
    rewrite (proj2 (Nat.ltb_ge _ _)) by lia. cbn [mbind option_bind]. rewrite (proj2 (Nat.leb_le _ _)) by lia.
    exists chunks, (length r - 3). split_and!; [done|done|lia|]. intros _ Hcrlf.
    destruct (body_section line u e Hcrlf He) as (content & Ec & Hcs). exists (take e u). split; [done|].
    intros _. exists content. split_and!; [done|done|]. unfold r. rewrite Ec, !length_app. cbn. lia.
  - injection Hn as <-. intros (chunks & Hc & ->). unfold capture_end, payload_end_new. rewrite Nat.leb_refl.
    exists chunks, (length (concat chunks)). split_and!; [done|done|by rewrite Hc|done].
Qed.

Lemma receiving_capture_exact request stream cl c w n :
  classified_from request stream cl c → response_end request stream = Some n → starts_response (drop n stream) = true →
  healthy w →
  ∃ l u status, stream = l ++ x0a :: u ∧ x0a ∉ l ∧ parse (l ++ [x0a]) = Some status ∧
  let '(res, c', w') := receiving_capture_and_write t fresh backend_id cl c w in
  match res with
  | Ok (k, cap) => k = n ∧ sent w' = sent w ++ take n stream ∧ upcoming c' = drop n stream ∧ phase c' = PhaseComplete ∧
      captures request status (l ++ [x0a]) (take n stream) cap
  | Err e => e = RtIo IoPendingLimit ∧ sent w' = sent w ∧ (MAX_PENDING_BACKEND_BYTES < N.of_nat (length (drop n stream)))%N
  end.
Proof.
  intros (Hcl & Hline & Hc & <- & _ & Hk) Hn Hst Hw. unfold receiving_capture_and_write, capture_and_write.
  destruct (from_classification_exact request cl (in_flight c) n) as (s & l & u & st & -> & Hs & Hsc & Ha & Hl & Hnl & Hp & Hsh & Hm); [done..|].
  change (upcoming (in_flight c)) with (upcoming c) in *. exists l, u, st. split; [done|]. split; [done|]. split; [done|].
  pose proof (capture_loop_exact (reads_left (s_conn s)) [] MAX_CAPTURED_MULTILINE_RESPONSE_BYTES s w _ _ ltac:(done) Hs Ha Hw (le_n _)) as H.
  cbn [concat app] in H. destruct (capture_loop _ _ _ _ _ _ s w) as [[[[k cap]|e] s'] w']; [|done].
  destruct H as (Hkn & Hsent & (Hcomp & _ & Hup & _) & Hcap). rewrite Hcomp. apply response_end_bounds in Hn as Hb.
  split_and!; [rewrite Hkn, length_take; lia|done|done|done|]. rewrite Hl in *. rewrite Hk in Hm.
  by eapply captured_as_captures.
Qed.
End Exactness.

(** ** Whole responses *)

(** A complete response to [request] with the given status: a status line, and if
    the status announces a body, lines up to a dot line. *)
Definition whole_response (request : RequestContext) (status : StatusCode) (p : bytes) : Prop :=
  ∃ l body, p = l ++ x0a :: body ∧ x0a ∉ l ∧ parse (l ++ [x0a]) = Some status ∧
    if has_response_body request status then TERMINATOR `suffix_of` p else body = [].

Section Whole.
Context {MC : Memchr} {MS : MemchrSpec MC} {PL : PoolLimit} (t : target).
Variable fresh : PooledBuffer.
Variable backend_id : nat.

(** What is known of the response when it is complete. *)
Variable whole : bytes → Prop.

Definition ends_whole (line : bytes) : Prop := ∀ r, line `prefix_of` r → TERMINATOR `suffix_of` r → whole r.

(** The bytes [d] of the response came before the buffer. *)
Definition tracked (line d : bytes) (s : StreamingResponse) : Prop :=
  match s_frame s with
  | CompleteWindow response next => whole (d ++ slice response.1 response.2 (visible (s_buffer s)))
  | IncompleteWindow response =>
      let r := d ++ visible (s_buffer s) in
      slice response.1 response.2 (visible (s_buffer s)) = visible (s_buffer s) ∧ line `prefix_of` r ∧ framer_for r (s_framer s) ∧
      ends_whole line
  end.

(** The next part of the response, in the window from [origin] on. *)
Lemma split_tracked line d f v c origin s' :
  ends_whole line → framer_for (d ++ v) f → line `prefix_of` d ++ v → visible (s_buffer s') = v ++ c → origin = length v →
  (in_window origin (length (v ++ c)) <$> (split_chunk t f c AllowIfStatusPrefix).1, (split_chunk t f c AllowIfStatusPrefix).2) =
    (Ok (s_frame s'), s_framer s') →
  tracked line d s'.
Proof.
  intros Hw Hf Hl Hv -> H. unfold tracked. destruct (split_chunk_allow_cases t f c) as [[e E]|E]; rewrite E in H; cbn in H; injection H as H1 H2; rewrite <- H1.
  - apply (split_chunk_sound t (d ++ v)) in E as [[He Ht] _]; [|done]. cbn [fst snd]. unfold slice. rewrite drop_0, Nat.sub_0_r, Hv, take_app_add.
    rewrite app_assoc. apply Hw; [by apply prefix_app_r|done].
  - cbn [fst snd]. rewrite Hv, slice_full, app_assoc, <- H2. split_and!; [done|by apply prefix_app_r|by apply framer_for_update|done].
Qed.

Lemma read_next_tracked line d s s' :
  ends_whole line → framer_for d (s_framer s) → line `prefix_of` d → read_next_chunk t backend_id s = (Ok (), s') → tracked line d s'.
Proof.
  intros Hw Hf Hl H. unfold read_next_chunk, frame_with_policy in H. destruct (read_from (s_buffer s) (s_conn s)) as [[[[|n]|k] b] c]; [done| |done].
  apply (split_tracked line d (s_framer s) [] (visible b) 0); [done|by rewrite app_nil_r|by rewrite app_nil_r|..].
  - destruct (split_chunk _ _ _ _) as [[p|e] f']; cbn in H; by simplify_eq.
  - done.
  - destruct (split_chunk _ _ _ _) as [[p|e] f']; cbn in *; by simplify_eq/=.
Qed.

Lemma append_tracked line s s' :
  streaming_ok s → tracked line [] s → append_to_retained_prefix_if_writable t backend_id s = (Ok (), s') → tracked line [] s'.
Proof.
  intros [Hc Hb _] Ht. unfold append_to_retained_prefix_if_writable. unfold tracked in Ht. destruct (s_frame s) as [|resp] eqn:Ef.
  { intros [= <-]. unfold tracked. by rewrite Ef. }
  destruct (retained_append_permitted (s_buffer s)) eqn:Ep; cbn [negb]; [|intros [= <-]; unfold tracked; by rewrite Ef].
  assert (initialized (s_buffer s) < read_limit (s_buffer s)) as Hlt.
  { unfold retained_append_permitted in Ep. apply negb_true_iff, orb_false_iff in Ep as [_ ?%Nat.leb_gt]. done. }
  pose proof (read_more_spec (s_buffer s) (s_conn s) Hc Hb Hlt) as H. destruct Ht as (_ & Hl & Hf & Hw).
  destruct (read_more (s_buffer s) (s_conn s)) as [[[[|n]|k] b] c]; [done| |done].
  destruct H as (new & Hv & _). unfold split_appended, initialized. rewrite Hv, drop_app_length. intros H.
  apply (split_tracked line [] (s_framer s) (visible (s_buffer s)) new (length (visible (s_buffer s)))); [done|done|done|..].
  - destruct (split_chunk _ _ _ _) as [[p|e] f']; cbn in H; by simplify_eq.
  - done.
  - rewrite length_app. destruct (split_chunk _ _ _ _) as [[p|e] f']; cbn in *; by simplify_eq/=.
Qed.

Lemma write_loop_tracked fuel line d stats s w stats' s' w' :
  tracked line d s → write_loop t fresh backend_id fuel stats s w = (Ok stats', s', w') →
  ∃ p, sent w' = sent w ++ p ∧ whole (d ++ p).
Proof.
  revert d stats s w. induction fuel as [fuel IH] using lt_wf_ind. intros d stats s w Ht. rewrite write_loop_unfold.
  unfold tracked in Ht. destruct (s_frame s) as [resp next|resp] eqn:Ef.
  - unfold write_from. pose proof (write_all_spec (slice resp.1 resp.2 (visible (s_buffer s))) w) as Hw.
    destruct (write_all _ w) as [[[]|k] w1]; destruct (queue_pooled_next_response_input _ _ _ _) as [[[[]|e] b] c]; try done.
    intros [= _ _ <-]. by eexists.
  - destruct Ht as (Hs & Hl & Hf & Hwh). cbv zeta. rewrite Hs. pose proof (write_all_spec (visible (s_buffer s)) w) as Hw.
    destruct (write_all _ w) as [[[]|k] w1]; [|by destruct (drain _ _ _)].
    destruct (read_next_chunk t backend_id s) as [[[]|e] s1] eqn:Er; [|done]. destruct fuel as [|fuel]; [done|]. intros H.
    apply (IH fuel ltac:(lia) (d ++ visible (s_buffer s))) in H as (p & Hsent & ?); [|by eapply read_next_tracked].
    exists (visible (s_buffer s) ++ p). by rewrite Hsent, Hw, !app_assoc.
Qed.

Lemma capture_loop_tracked fuel line chunks limit s w x s' w' :
  tracked line (concat chunks) s → capture_loop t fresh backend_id fuel chunks limit s w = (Ok x, s', w') →
  ∃ p, sent w' = sent w ++ p ∧ whole p.
Proof.
  revert chunks s. induction fuel as [fuel IH] using lt_wf_ind. intros chunks s Ht. rewrite capture_loop_unfold.
  destruct (exceeds_limit _ _ _ _).
  - pose proof (write_all_to_recording_spec chunks w) as Hw. cbv zeta.
    destruct (write_all_to_recording chunks w) as [[[]|k] w1]; [|by destruct (observe _ _ _ _)].
    destruct (write_current_and_remaining_chunks _ _ _ _ _) as [[[more|e] s2] w2] eqn:Ew; [|done]. intros [= _ _ <-].
    eapply write_loop_tracked in Ew as (p & Hsent & ?); [|done]. exists (concat chunks ++ p). by rewrite Hsent, Hw, app_assoc.
  - unfold tracked in Ht. destruct (s_frame s) as [resp next|resp] eqn:Ef.
    + unfold push_from_buffer. destruct (queue_next_response_input _ _ _) as [[[]|e] c]; [|done]. cbv zeta.
      set (chunk := slice _ _ _) in *. pose proof (write_all_to_recording_spec (chunks ++ [chunk]) w) as Hw.
      destruct (write_all_to_recording _ w) as [[[]|k] w1]; [|done]. intros [= _ _ <-]. eexists. split; [done|].
      rewrite concat_app. cbn. by rewrite app_nil_r.
    + destruct Ht as (Hs & Hl & Hf & Hwh). cbv zeta. rewrite Hs.
      destruct (read_next_chunk t backend_id (set_io s fresh (s_conn s))) as [[[]|e] s1] eqn:Er; [|done].
      destruct fuel as [|fuel]; [done|]. intros H.
      assert (concat (chunks ++ [visible (s_buffer s)]) = concat chunks ++ visible (s_buffer s)) as Hcat
        by (rewrite concat_app; cbn; by rewrite app_nil_r).
      apply (IH fuel ltac:(lia)) in H; [done|]. rewrite Hcat. by eapply read_next_tracked in Er.
Qed.
End Whole.

Section WholeTransfers.
Context {MC : Memchr} {MS : MemchrSpec MC} {PL : PoolLimit} (t : target).
Variable fresh : PooledBuffer.
Variable backend_id : nat.

Lemma ends_whole_response request l status :
  x0a ∉ l → parse (l ++ [x0a]) = Some status → has_response_body request status = true →
  ends_whole (whole_response request status) (l ++ [x0a]).
Proof.
  intros Hl Hp Hb r [u ->] Ht. exists l, u. rewrite Hb, <- app_assoc in *. by split_and!.
Qed.

Lemma from_classification_tracked request cl c s :
  classified_ok request cl → from_classification t cl c = Ok s →
  ∃ line status, status_code cl = Some status ∧ tracked (whole_response request status) line [] s.
Proof.
  intros [_ Hf]. unfold from_classification, status_code. rewrite Hf. unfold parse_bytes, status_line_len. rewrite memchr_spec.
  destruct (line_split (visible (cl_buffer cl))) as [Hn|(l & u & Hv & Hl)]; [by rewrite position_not_elem|].
  rewrite Hv, position_first by done. cbn [fmap option_fmap option_map]. unfold parse_response_status.
  rewrite parse_line by done. destruct (parse (l ++ [x0a])) as [status|] eqn:Hp; [|done].
  assert (S (length l) = length (l ++ [x0a])) as El by (rewrite length_app; cbn; lia). rewrite El.
  destruct (has_response_body request status) eqn:Hb.
  - unfold begin_after_status_line. rewrite (cons_middle x0a l u), (app_assoc l [x0a] u), take_app_length, drop_app_length.
    rewrite (proj2 (Nat.ltb_ge _ _)) by (rewrite (length_app (l ++ [x0a]) u); lia). intros H. exists (l ++ [x0a]), status. split; [done|].
    assert (framer_for (l ++ [x0a]) (update default_framer (l ++ [x0a]))) as HS by (by apply (framer_for_update []), framer_for_default).
    apply (split_tracked t _ _ [] (update default_framer (l ++ [x0a])) (l ++ [x0a]) u (length (l ++ [x0a])));
      [by eapply ends_whole_response|done|done|..].
    + destruct (split_chunk _ _ _ _) as [[p|e] f']; cbn in H; simplify_eq. cbn. by rewrite Hv, (cons_middle x0a l u), (app_assoc l [x0a] u).
    + done.
    + destruct (split_chunk _ _ _ _) as [[p|e] f']; cbn in *; by simplify_eq/=.
  - intros [= <-]. exists [], status. split; [done|]. unfold tracked. cbn [s_frame s_buffer fst snd]. unfold slice. rewrite drop_0, Nat.sub_0_r.
    rewrite Hv, (cons_middle x0a l u), (app_assoc l [x0a] u), take_app_length. exists l, []. by rewrite Hb.
Qed.

(** A successful transfer gives the client one whole response. *)
Lemma receiving_write_whole request cl c w n c' w' :
  classified_ok request cl → conn_ok c → receiving_write t fresh backend_id cl c w = (Ok n, c', w') →
  ∃ p status, sent w' = sent w ++ p ∧ status_code cl = Some status ∧ whole_response request status p.
Proof.
  intros Hcl Hc. unfold receiving_write. pose proof (from_classification_spec t request cl (in_flight c) Hcl Hc) as Hs.
  destruct (from_classification t cl (in_flight c)) as [s|e] eqn:E; [|done]. destruct Hs as [Hs _].
  apply (from_classification_tracked request) in E as (line & status & Hst & Ht); [|done]. unfold write.
  destruct (append_to_retained_prefix_if_writable t backend_id s) as [[[]|e] s1] eqn:Ea; [|done].
  eapply append_tracked in Ea; [|done|done].
  destruct (write_current_and_remaining_chunks _ _ _ s1 w) as [[[stats|e] s2] w2] eqn:Ew; [|done]. intros [= _ _ <-].
  apply (write_loop_tracked t fresh backend_id (whole_response request status) _ line []) in Ew as (p & ? & ?); [|done]. by exists p, status.
Qed.

Lemma receiving_capture_whole request cl c w x c' w' :
  classified_ok request cl → receiving_capture_and_write t fresh backend_id cl c w = (Ok x, c', w') →
  ∃ p status, sent w' = sent w ++ p ∧ status_code cl = Some status ∧ whole_response request status p.
Proof.
  intros Hcl. unfold receiving_capture_and_write. destruct (from_classification t cl (in_flight c)) as [s|e] eqn:E; [|done].
  apply (from_classification_tracked request) in E as (line & status & Hst & Ht); [|done].
  destruct (capture_and_write _ _ _ _ s w) as [[[y|e] s2] w2] eqn:Ew; [|done]. intros [= _ _ <-].
  unfold capture_and_write in Ew.
  apply (capture_loop_tracked t fresh backend_id (whole_response request status) _ line) in Ew as (p & ? & ?); [|done]. by exists p, status.
Qed.
End WholeTransfers.

(** ** Theorems *)

Section Pipelines.
Context {MC : Memchr} (t : target).
Variable fresh : PooledBuffer.
Variable backend_id : nat.

(** Requests sent ahead on one connection: each response is read and forwarded in
    turn.  The sizes of the forwarded responses; [None] is a failed exchange. *)
Fixpoint exchanges (requests : list RequestContext) (c : ConnectionStream) (w : Writer)
    : option (list nat * ConnectionStream * Writer) :=
  match requests with
  | [] => Some ([], c, w)
  | request :: requests =>
      match read_exchange_for_already_sent_request fresh request c with
      | Some (Ok cl, c) =>
          match receiving_write t fresh backend_id cl c w with
          | (Ok n, c, w) => '(ns, c, w) ← exchanges requests c w; Some (n :: ns, c, w)
          | _ => None
          end
      | _ => None
      end
  end.
End Pipelines.

(** The stream answers every request; the sizes of the responses and what follows. *)
Fixpoint answered `{PoolLimit} (requests : list RequestContext) (stream : bytes) : option (list nat * bytes) :=
  match requests with
  | [] => Some ([], stream)
  | request :: requests =>
      n ← response_end request stream;
      if line_fits stream && starts_response (drop n stream)
      then '(ns, rest) ← answered requests (drop n stream); Some (n :: ns, rest)
      else None
  end.

(** C8 A backend that answers every request sent ahead with a complete response: each
    response is forwarded whole and alone, in the order of the requests, and the
    connection ends up right behind the last one, wherever the reads cut the
    stream and however often the rest of a read had to be queued. *)
Theorem exchanges_in_order {MC : Memchr} {MS : MemchrSpec MC} {PL : PoolLimit} t fresh backend_id requests c w ns rest :
  acquired fresh → conn_ok c → healthy w → answered requests (upcoming c) = Some (ns, rest) →
  ∃ c' w', exchanges t fresh backend_id requests c w = Some (ns, c', w') ∧
    sent w' = sent w ++ take (sum_list ns) (upcoming c) ∧ upcoming c' = drop (sum_list ns) (upcoming c) ∧
    upcoming c' = rest ∧ phase c' = match requests with [] => phase c | _ => PhaseComplete end.
Proof.
  intros Hfresh. revert c w ns. induction requests as [|request requests IH]; intros c w ns Hc Hw Ha; cbn in Ha.
  { simplify_eq. exists c, w. cbn. rewrite app_nil_r, drop_0. by split_and!. }
  apply bind_Some in Ha as (n & Hn & Ha). destruct (line_fits _) eqn:Hl; [|done]. destruct (starts_response _) eqn:Hst; [|done].
  cbn [andb] in Ha. apply bind_Some in Ha as ([ns' rest'] & Ha & [= <- ->]). cbn [exchanges].
  destruct (read_exchange_exact fresh request c Hfresh Hc Hl) as (cl & c1 & -> & Hcl).
  destruct (receiving_write_exact t fresh backend_id (proj1 Hfresh) request _ cl c1 w n Hcl Hn Hst Hw)
    as (c2 & w2 & -> & Hsent & Hw2 & Hc2 & Hup & Hph). rewrite <- Hup in Ha.
  destruct (IH c2 w2 ns' Hc2 Hw2 Ha) as (c3 & w3 & -> & Hsent3 & Hup3 & Hrest & Hph3). cbn [mbind option_bind sum_list].
  exists c3, w3. split; [done|]. apply response_end_bounds in Hn.
  split_and!; [|by rewrite Hup3, Hup, drop_drop|done|].
  - by rewrite Hsent3, Hsent, Hup, <- app_assoc, take_take_drop.
  - by destruct requests; rewrite Hph3.
Qed.

Lemma small_acquired : acquired (PL := small_pool) small_buffer.
Proof. split; [apply small_buffer_ok|reflexivity]. Qed.

Lemma exchanges_in_order_witness :
  ∃ c' w', exchanges (MC := naive_memchr) Generic small_buffer 0 [sample_article; sample_stat] two_reads (mkWriter [] []) =
      Some ([length sample_article_response; length sample_stat_response], c', w') ∧ sent w' = sample_article_response ++ sample_stat_response.
Proof.
  destruct (exchanges_in_order (MC := naive_memchr) (MS := naive_memchr_spec) (PL := small_pool) Generic small_buffer 0
    [sample_article; sample_stat] two_reads (mkWriter [] []) [length sample_article_response; length sample_stat_response] [])
    as (c' & w' & E & Hs & _); [apply small_acquired|constructor|constructor|vm_compute; reflexivity|].
  exists c', w'. split; [exact E|]. rewrite Hs. vm_compute. reflexivity.
Defined.

(** Capturing a response for the cache: the client gets exactly the response, the
    connection stands right behind it, and the captured chunks are the response,
    with the end of the payload in front of the dot line; for an article that is a
    complete capture in the sense of the cache.  A body above the limit is
    forwarded and not retained.  The only error is the limit for queued bytes, and
    then the client got nothing. *)
Theorem capture_exact {MC : Memchr} {MS : MemchrSpec MC} {PL : PoolLimit} t fresh backend_id request c w n :
  let stream := upcoming c in
  acquired fresh → conn_ok c → healthy w → line_fits stream = true →
  response_end request stream = Some n → starts_response (drop n stream) = true →
  ∃ cl c1 l u status, execute_request_exchange fresh (Ok ()) request c = (Ok cl, c1) ∧ status_code cl = Some status ∧
    stream = l ++ x0a :: u ∧ x0a ∉ l ∧ parse (l ++ [x0a]) = Some status ∧
    let '(res, c', w') := receiving_capture_and_write t fresh backend_id cl c1 w in
    match res with
    | Ok (k, cap) => k = n ∧ sent w' = sent w ++ take n stream ∧ upcoming c' = drop n stream ∧ phase c' = PhaseComplete ∧
        captures request status (l ++ [x0a]) (take n stream) cap
    | Err e => e = RtIo IoPendingLimit ∧ sent w' = sent w ∧ (MAX_PENDING_BACKEND_BYTES < N.of_nat (length (drop n stream)))%N
    end.
Proof.
  intros stream Hfresh Hc Hw Hl Hn Hst. unfold execute_request_exchange.
  destruct (read_then_classify request fresh (in_flight c) (proj1 Hfresh)) as (cl & c1 & E & Hcl); [done..|].
  destruct (receiving_capture_exact t fresh backend_id (proj1 Hfresh) request stream cl c1 w n) as (l & u & status & Hs & Hnl & Hp & H); [done..|].
  exists cl, c1, l, u, status. split; [exact E|]. split; [by eapply classified_status|]. done.
Qed.

Lemma capture_exact_witness :
  ∃ cl c1 status, execute_request_exchange (MC := naive_memchr) small_buffer (Ok ()) sample_article two_reads = (Ok cl, c1) ∧
    status_code cl = Some status ∧
    let '(res, c', w') := receiving_capture_and_write (MC := naive_memchr) Generic small_buffer 0 cl c1 (mkWriter [] []) in
    fst <$> res = Ok (length sample_article_response) ∧ sent w' = sample_article_response ∧ upcoming c' = sample_stat_response.
Proof.
  destruct (capture_exact (MC := naive_memchr) (MS := naive_memchr_spec) (PL := small_pool) Generic small_buffer 0
    sample_article two_reads (mkWriter [] []) (length sample_article_response))
    as (cl & c1 & l & u & status & E & Hst & _ & _ & _ & H);
    [apply small_acquired|constructor|constructor|vm_compute; reflexivity..|].
  exists cl, c1, status. split; [exact E|]. split; [exact Hst|].
  destruct (receiving_capture_and_write _ _ _ cl c1 _) as [[[[k cap]|e] c'] w'].
  - destruct H as (-> & Hs & Hu & _). split; [reflexivity|]. rewrite Hs, Hu. split; vm_compute; reflexivity.
  - exfalso. destruct H as (_ & _ & H). vm_compute in H. discriminate H.
Defined.
