(* ===== verification/Isolated.v ===== *)
(** * Isolated: responses that must end with their last byte

    Models the isolated operations of [src/src/session/multiline_framing.rs]: a
    response to a request nothing was sent behind is captured or drained, and bytes
    behind its end are an error ([IsolatedMultilineResponse] and the operations of
    [ClassifiedResponse] and [Receiving] on it).  The background prechecks and the
    client library use them.

    A capture is the list of its chunks; the accumulating capture buffer is their
    concatenation.  The loops get [reads_left] rounds, as in [Transfer]. *)

From S2P Require Import Prelude Protocol Request Scanner Framer Tracker Article Stream Transfer Exchange.

(** ** Cursors *)

(** [ResponseCursor] with the policy [Reject]. *)
Record ResponseCursor := mkCursor {
  cur_conn : ConnectionStream;
  cur_buffer : PooledBuffer;
  cur_framer : MultilineFramer;
  cur_frame : ResponseWindow }.

Definition cur_complete (cur : ResponseCursor) : bool :=
  match cur_frame cur with CompleteWindow _ _ => true | IncompleteWindow _ => false end.

(** The bytes of the response in the window. *)
Definition cur_chunk (cur : ResponseCursor) : bytes :=
  match cur_frame cur with
  | CompleteWindow response _ | IncompleteWindow response => slice response.1 response.2 (visible (cur_buffer cur))
  end.

(** [IsolatedMultilineResponse]'s errors as [anyhow::Error]. *)
Definition isolated_multiline_error (e : FramingError) : AnyError := AnyOther.

Section Isolated.
Context {MC : Memchr} (t : target).
Variable fresh : PooledBuffer.

(** [IsolatedMultilineResponse::begin] *)
Definition isolated_begin (b : PooledBuffer) (c : ConnectionStream) : result FramingError ResponseCursor :=
  let '(r, f) := frame_with_policy t default_framer (visible b) PolicyReject in
  mkCursor c b f <$> r.

(** [IsolatedMultilineResponse::read_next_chunk] *)
Definition isolated_read_next (cur : ResponseCursor) : result FramingError unit * ResponseCursor :=
  match read_from (cur_buffer cur) (cur_conn cur) with
  | (Err k, b, c) => (Err Io, mkCursor c b (cur_framer cur) (cur_frame cur))
  | (Ok 0, b, c) => (Err BackendEof, mkCursor c b (cur_framer cur) (cur_frame cur))
  | (Ok _, b, c) =>
      let '(r, f) := frame_with_policy t (cur_framer cur) (visible b) PolicyReject in
      match r with
      | Ok frame => (Ok (), mkCursor c b f frame)
      | Err e => (Err e, mkCursor c b f (cur_frame cur))
      end
  end.

(** [IsolatedMultilineResponse::observe] *)
Fixpoint isolated_observe_loop (fuel : nat) (cur : ResponseCursor) : result FramingError unit * ConnectionStream :=
  if cur_complete cur then (Ok (), cur_conn cur)
  else
    match isolated_read_next cur with
    | (Err e, cur) => (Err e, cur_conn cur)
    | (Ok _, cur) => match fuel with 0 => (Err BackendEof, cur_conn cur) | S fuel => isolated_observe_loop fuel cur end
    end.

Definition isolated_observe (cur : ResponseCursor) : result FramingError unit * ConnectionStream :=
  isolated_observe_loop (reads_left (cur_conn cur)) cur.

(** [IsolatedMultilineResponse::capture_into] *)
Fixpoint capture_into_loop (fuel : nat) (capture : bytes) (cur : ResponseCursor) : result AnyError bytes * ConnectionStream :=
  let capture := capture ++ cur_chunk cur in
  if cur_complete cur then (Ok capture, cur_conn cur)
  else
    match read_from (cur_buffer cur) (cur_conn cur) with
    | (Err k, b, c) => (Err (AnyIo k), c)
    | (Ok 0, b, c) => (Err (isolated_multiline_error BackendEof), c)
    | (Ok _, b, c) =>
        let '(r, f) := frame_with_policy t (cur_framer cur) (visible b) PolicyReject in
        match r with
        | Err e => (Err (isolated_multiline_error e), c)
        | Ok frame =>
            match fuel with
            | 0 => (Err (isolated_multiline_error BackendEof), c)
            | S fuel => capture_into_loop fuel capture (mkCursor c b f frame)
            end
        end
    end.

(** [IsolatedMultilineResponse::capture_payload_into]: the content of the response
    without its terminator, but with all of its status line. *)
Definition capture_payload_into (status_line_end : nat) (cur : ResponseCursor) : result AnyError bytes * ConnectionStream :=
  match capture_into_loop (reads_left (cur_conn cur)) [] cur with
  | (Err e, c) => (Err e, c)
  | (Ok capture, c) =>
      match checked_sub (length capture) (length TERMINATOR) with
      | None => (Err (isolated_multiline_error InvalidFrameMetadata), c)
      | Some e =>
          let content_end := Nat.max e status_line_end in
          if content_end <=? length capture then (Ok (take content_end capture), c)
          else (Err (isolated_multiline_error InvalidFrameMetadata), c)
      end
  end.

(** [IsolatedMultilineResponse::capture_chunked_optional] *)
Fixpoint capture_chunked_loop (fuel : nat) (chunks : list bytes) (limit : N) (cur : ResponseCursor)
    : result FramingError (option (list bytes * nat)) * ConnectionStream :=
  if capture_would_exceed_limit (chunked_len chunks) (N.of_nat (length (cur_chunk cur))) limit then
    match isolated_observe cur with
    | (Ok _, c) => (Ok None, c)
    | (Err e, c) => (Err e, c)
    end
  else
    let chunks := chunks ++ [cur_chunk cur] in
    if cur_complete cur then (Ok (pair chunks <$> capture_end ShapeMultiline chunks), cur_conn cur)
    else
      match isolated_read_next (mkCursor (cur_conn cur) fresh (cur_framer cur) (cur_frame cur)) with
      | (Err e, cur) => (Err e, cur_conn cur)
      | (Ok _, cur) =>
          match fuel with
          | 0 => (Err BackendEof, cur_conn cur)
          | S fuel => capture_chunked_loop fuel chunks limit cur
          end
      end.

(** ** Consuming operations *)

(** [CapturedResponse]: the content, the metadata and the end of the content. *)
Record CapturedResponse := mkCapturedResponse {
  cr_bytes : bytes;
  cr_metadata : ResponseMetadata;
  cr_content_end : nat }.

(** [require_isolated] *)
Definition require_isolated (next : nat * nat) : bool := next.2 <=? next.1.

(** [ClassifiedResponse::capture_isolated]; a single line is kept with its buffer. *)
Definition capture_isolated (cl : ClassifiedResponse) (c : ConnectionStream)
    : result AnyError CapturedResponse * ConnectionStream :=
  match cl_frame cl with
  | Err _ => (Err AnyOther, c)
  | Ok (SingleLine status sle response next) =>
      if require_isolated next then
        (Ok (mkCapturedResponse (visible (cl_buffer cl)) (mkMetadata (cl_kind cl) status sle) response.2), mark_response_complete c)
      else (Err AnyOther, c)
  | Ok (Multiline status sle) =>
      let c := in_flight c in
      match isolated_begin (cl_buffer cl) c with
      | Err e => (Err (isolated_multiline_error e), c)
      | Ok cur =>
          match capture_payload_into sle cur with
          | (Err e, c) => (Err e, c)
          | (Ok content, c) =>
              (Ok (mkCapturedResponse content (mkMetadata (cl_kind cl) status sle) (length content)), mark_response_complete c)
          end
      end
  end.

(** [ClassifiedResponse::capture_isolated_chunked_optional] *)
Definition capture_isolated_chunked_optional (cl : ClassifiedResponse) (c : ConnectionStream)
    : result AnyError (option CapturedChunkedResponse) * ConnectionStream :=
  match cl_frame cl with
  | Ok (Multiline status sle) =>
      let c := in_flight c in
      match isolated_begin (cl_buffer cl) c with
      | Err _ => (Err AnyOther, c)
      | Ok cur =>
          match capture_chunked_loop (reads_left c) [] MAX_CAPTURED_MULTILINE_RESPONSE_BYTES cur with
          | (Err _, c) => (Err AnyOther, c)
          | (Ok retained, c) =>
              (Ok ((λ '(chunks, payload_end), mkCaptured (mkMetadata (cl_kind cl) status sle) chunks payload_end) <$> retained),
               mark_response_complete c)
          end
      end
  | _ => (Err AnyOther, c)
  end.

(** [ClassifiedResponse::observe_isolated] *)
Definition observe_isolated (cl : ClassifiedResponse) (c : ConnectionStream) : result AnyError unit * ConnectionStream :=
  match cl_frame cl with
  | Err _ => (Err AnyOther, c)
  | Ok (SingleLine _ _ _ next) =>
      if require_isolated next then (Ok (), mark_response_complete c) else (Err AnyOther, c)
  | Ok (Multiline _ _) =>
      let c := in_flight c in
      match isolated_begin (cl_buffer cl) c with
      | Err _ => (Err AnyOther, c)
      | Ok cur =>
          match isolated_observe cur with
          | (Ok _, c) => (Ok (), mark_response_complete c)
          | (Err _, c) => (Err AnyOther, c)
          end
      end
  end.

(** [ClassifiedResponse::complete_single_line] *)
Definition complete_single_line (cl : ClassifiedResponse) (c : ConnectionStream) : result AnyError unit * ConnectionStream :=
  match cl_frame cl with
  | Ok (SingleLine _ _ _ next) =>
      if require_isolated next then (Ok (), mark_response_complete c) else (Err AnyOther, c)
  | Ok (Multiline _ _) | Err _ => (Err AnyOther, c)
  end.

(** [ClassifiedResponse::single_line_bytes] *)
Definition single_line_bytes (cl : ClassifiedResponse) : option bytes :=
  match cl_frame cl with
  | Ok (SingleLine _ _ response _) => Some (slice response.1 response.2 (visible (cl_buffer cl)))
  | Ok (Multiline _ _) | Err _ => None
  end.
End Isolated.

(** ** What was read *)

(** Reading never adds to the queued input. *)
Lemma stream_read_pending cap c : pending_bytes_len (stream_read cap c).2 ≤ pending_bytes_len c.
Proof.
  unfold stream_read, pending_bytes_len. destruct c as [[|p l] tr ph]; cbn [pending_input].
  - by destruct (transport_read _ _).
  - destruct (0 <? cap); [|by destruct (transport_read _ _)]. unfold read_into.
    set (n := Nat.min _ _). destruct (Nat.eqb_spec (pending_remaining (advance_pending n p)) 0); cbn; [lia|].
    assert (pending_remaining (advance_pending n p) ≤ pending_remaining p) by (destruct p; cbn; lia). lia.
Qed.

Lemma read_into_spare_pending n b c : pending_bytes_len (read_into_spare n b c).2 ≤ pending_bytes_len c.
Proof.
  unfold read_into_spare. destruct (_ =? 0); [done|]. pose proof (stream_read_pending (Nat.min n (capacity b - (visible_from b + initialized b))) c).
  by destruct (stream_read _ c) as [[new|k] c'].
Qed.

Lemma read_from_pending b c : pending_bytes_len (read_from b c).2 ≤ pending_bytes_len c.
Proof. apply read_into_spare_pending. Qed.

Lemma read_more_pending b c : pending_bytes_len (read_more b c).2 ≤ pending_bytes_len c.
Proof. apply read_into_spare_pending. Qed.

Section IsolatedFacts.
Context {MC : Memchr} {MS : MemchrSpec MC} {PL : PoolLimit} (t : target).
Variable fresh : PooledBuffer.
Hypothesis fresh_ok : buffer_ok fresh.

(** The bytes [d] of the response came before the buffer. *)
Definition cursor_ok (d : bytes) (cur : ResponseCursor) : Prop :=
  conn_ok (cur_conn cur) ∧ buffer_ok (cur_buffer cur) ∧
  match cur_frame cur with
  | CompleteWindow response _ => response = (0, initialized (cur_buffer cur)) ∧ TERMINATOR `suffix_of` d ++ visible (cur_buffer cur)
  | IncompleteWindow response => response = (0, initialized (cur_buffer cur)) ∧ framer_for (d ++ visible (cur_buffer cur)) (cur_framer cur)
  end.

(** The rest [u] of the stream is the rest of the response. *)
Definition closes (d u : bytes) : Prop := first_touching_end d u = Some (length u).

Definition cursor_closes (d : bytes) (cur : ResponseCursor) : Prop :=
  if cur_complete cur then upcoming (cur_conn cur) = [] else closes (d ++ visible (cur_buffer cur)) (upcoming (cur_conn cur)).

Lemma cursor_chunk d cur : cursor_ok d cur → cur_chunk cur = visible (cur_buffer cur).
Proof.
  intros (_ & _ & H). unfold cur_chunk, initialized in *. destruct (cur_frame cur) as [r n|r], H as [-> _]; cbn; apply slice_full.
Qed.

Lemma frame_reject d f v u :
  framer_for d f →
  match frame_with_policy t f v PolicyReject with
  | (Ok (CompleteWindow r _), _) => r = (0, length v) ∧ TERMINATOR `suffix_of` d ++ v ∧ (closes d (v ++ u) → u = [])
  | (Ok (IncompleteWindow r), f') => r = (0, length v) ∧ framer_for (d ++ v) f' ∧ (closes d (v ++ u) → closes (d ++ v) u)
  | (Err _, _) => ¬ closes d (v ++ u)
  end.
Proof.
  intros Hf. unfold frame_with_policy. pose proof (split_chunk_sound t d f v PolicyReject) as Hsound.
  assert (closes d (v ++ u) → next_terminator_end t f v = first_touching_end d v ∧
    match first_touching_end d v with Some e => e = length v ∧ u = [] | None => closes (d ++ v) u end) as Hn.
  { unfold closes. intros Hc. assert (match first_touching_end d v with Some e => e = length v ∧ u = [] | None => closes (d ++ v) u end) as H.
    - destruct (first_touching_end d v) as [e|] eqn:Ee.
      + assert (Hb := first_touching_end_bounds _ _ _ Ee). rewrite (first_touching_end_app _ _ u _ Ee) in Hc. injection Hc as ->.
        rewrite length_app in *. split; [lia|]. destruct u; [done|cbn in *; lia].
      + rewrite first_touching_end_app_None in Hc by done. apply fmap_Some in Hc as (e & He & Hl). unfold closes. rewrite He. f_equal.
        rewrite length_app in Hl. lia.
    - split; [|done]. apply next_terminator_end_reference; [done|]. intros e He. rewrite He in H. destruct H as [-> _].
      unfold clean_after. rewrite drop_all. by intros [? ?]. }
  rewrite split_chunk_reject in *. destruct (next_terminator_end t f v) as [e|].
  - destruct (e =? length v) eqn:Ee; [apply Nat.eqb_eq in Ee as ->|apply Nat.eqb_neq in Ee]; cbn [fmap result_fmap in_window].
    + destruct (Hsound (length v) f Hf) as [[_ Ht] _]; [done|]. rewrite firstn_all in Ht. split_and!; [done|done|].
      intros Hc. destruct (Hn Hc) as [E H]. rewrite <- E in H. apply H.
    + intros Hc. destruct (Hn Hc) as [E H]. rewrite <- E in H. by destruct H.
  - cbn. split_and!; [done|by apply framer_for_update|]. intros Hc. destruct (Hn Hc) as [E H]. by rewrite <- E in H.
Qed.

Lemma isolated_begin_spec b c :
  buffer_ok b → conn_ok c →
  match isolated_begin t b c with
  | Ok cur => cursor_ok [] cur ∧ cur_conn cur = c ∧ cur_buffer cur = b ∧ (closes [] (visible b ++ upcoming c) → cursor_closes [] cur)
  | Err _ => ¬ closes [] (visible b ++ upcoming c)
  end.
Proof.
  intros Hb Hc. unfold isolated_begin. pose proof (frame_reject [] default_framer (visible b) (upcoming c) framer_for_default) as H.
  destruct (frame_with_policy t default_framer (visible b) PolicyReject) as [[[r n|r]|e] f]; [..|done]; destruct H as (-> & H1 & H2);
    split_and!; try done; by split_and!.
Qed.

Lemma isolated_read_spec d cur :
  conn_ok (cur_conn cur) → buffer_ok (cur_buffer cur) → framer_for d (cur_framer cur) →
  match isolated_read_next t cur with
  | (Ok _, cur') =>
      cursor_ok d cur' ∧ upcoming (cur_conn cur) = visible (cur_buffer cur') ++ upcoming (cur_conn cur') ∧
      reads_left (cur_conn cur') < reads_left (cur_conn cur) ∧ phase (cur_conn cur') = phase (cur_conn cur) ∧
      pending_bytes_len (cur_conn cur') ≤ pending_bytes_len (cur_conn cur) ∧
      (closes d (upcoming (cur_conn cur)) → cursor_closes d cur')
  | (Err _, cur') => conn_ok (cur_conn cur') ∧ ¬ closes d (upcoming (cur_conn cur))
  end.
Proof.
  intros Hc Hb Hf. unfold isolated_read_next. pose proof (read_from_spec (cur_buffer cur) (cur_conn cur) Hc Hb) as H.
  pose proof (read_from_pending (cur_buffer cur) (cur_conn cur)) as Hp.
  assert (¬ closes d []) as Hnil by (unfold closes; intros He%first_touching_end_bounds; cbn in He; lia).
  destruct (read_from (cur_buffer cur) (cur_conn cur)) as [[[n|k] b] c].
  2: { destruct H as (_ & _ & _ & Hc' & _ & -> & _). by split. }
  destruct H as (Hn & _ & _ & Hb' & Hc' & Hph & Hup & _ & H0 & _). cbn in Hp.
  destruct n as [|n]; [destruct (H0 eq_refl) as [-> _]; by split|]. rewrite Hup.
  assert (reads_left c < reads_left (cur_conn cur)) as Hlt by (unfold reads_left; rewrite Hup, length_app; lia).
  pose proof (frame_reject d (cur_framer cur) (visible b) (upcoming c) Hf) as H.
  destruct (frame_with_policy t (cur_framer cur) (visible b) PolicyReject) as [[[r m|r]|e] f]; [..|by split]; destruct H as (-> & H1 & H2);
    split_and!; try done; by split_and!.
Qed.

(** The response goes on with [r], and the connection stands behind it. *)
Record consumed (d : bytes) (cur : ResponseCursor) (r : bytes) (c' : ConnectionStream) : Prop := {
  con_stream : visible (cur_buffer cur) ++ upcoming (cur_conn cur) = r ++ upcoming c';
  con_window : visible (cur_buffer cur) `prefix_of` r;
  con_end : TERMINATOR `suffix_of` d ++ r;
  con_conn : conn_ok c';
  con_phase : phase c' = phase (cur_conn cur);
  con_pending : pending_bytes_len c' ≤ pending_bytes_len (cur_conn cur);
  con_closes : cursor_closes d cur → upcoming c' = [] }.

Definition failed (d : bytes) (cur : ResponseCursor) (c' : ConnectionStream) : Prop := conn_ok c' ∧ ¬ cursor_closes d cur.

Lemma consumed_complete d cur : cursor_ok d cur → cur_complete cur = true → consumed d cur (visible (cur_buffer cur)) (cur_conn cur).
Proof.
  intros (Hc & Hb & Hf) Hi. unfold cur_complete in Hi. destruct (cur_frame cur) as [r n|r] eqn:Ef; [|done]. destruct Hf as [_ Ht].
  split; try done. unfold cursor_closes, cur_complete. by rewrite Ef.
Qed.

Lemma cursor_framer d cur : cursor_ok d cur → cur_complete cur = false → framer_for (d ++ visible (cur_buffer cur)) (cur_framer cur).
Proof. intros (_ & _ & Hf). unfold cur_complete. destruct (cur_frame cur); [done|]. by destruct Hf. Qed.

(** One read of an open response, into any buffer of the pool. *)
Lemma isolated_step d cur b :
  cursor_ok d cur → cur_complete cur = false → buffer_ok b →
  match isolated_read_next t (mkCursor (cur_conn cur) b (cur_framer cur) (cur_frame cur)) with
  | (Ok _, cur') =>
      cursor_ok (d ++ visible (cur_buffer cur)) cur' ∧ reads_left (cur_conn cur') < reads_left (cur_conn cur) ∧
      (∀ r c', consumed (d ++ visible (cur_buffer cur)) cur' r c' → consumed d cur (visible (cur_buffer cur) ++ r) c') ∧
      (∀ c', failed (d ++ visible (cur_buffer cur)) cur' c' → failed d cur c')
  | (Err _, cur') => failed d cur (cur_conn cur')
  end.
Proof.
  intros Hcur Hi Hb. assert (Hf := cursor_framer _ _ Hcur Hi). destruct Hcur as (Hc & _ & _).
  pose proof (isolated_read_spec (d ++ visible (cur_buffer cur)) (mkCursor (cur_conn cur) b (cur_framer cur) (cur_frame cur)) Hc Hb Hf) as H.
  assert (cursor_closes d cur = closes (d ++ visible (cur_buffer cur)) (upcoming (cur_conn cur))) as Ecl by (unfold cursor_closes; by rewrite Hi).
  unfold failed. rewrite Ecl. destruct (isolated_read_next t _) as [[[]|e] cur']; cbn [cur_conn] in H; [|done].
  destruct H as (Hok & Hup & Hlt & Hph & Hp & Hcl). split_and!; try done.
  - intros r c' [C1 C0 C2 C3 C4 C5 C6]. split; try done.
    + by rewrite Hup, C1, app_assoc.
    + by apply prefix_app_r.
    + by rewrite app_assoc.
    + congruence.
    + lia.
    + rewrite Ecl. auto.
  - intros c' [? Hn]. split; [done|]. auto.
Qed.

Lemma isolated_observe_unfold fuel cur :
  isolated_observe_loop t fuel cur =
  if cur_complete cur then (Ok (), cur_conn cur)
  else
    match isolated_read_next t cur with
    | (Err e, cur) => (Err e, cur_conn cur)
    | (Ok _, cur) => match fuel with 0 => (Err BackendEof, cur_conn cur) | S fuel => isolated_observe_loop t fuel cur end
    end.
Proof. by destruct fuel. Qed.

Lemma isolated_observe_spec fuel d cur :
  cursor_ok d cur → reads_left (cur_conn cur) ≤ fuel →
  match isolated_observe_loop t fuel cur with
  | (Ok _, c') => ∃ r, consumed d cur r c'
  | (Err _, c') => failed d cur c'
  end.
Proof.
  revert d cur. induction fuel as [fuel IH] using lt_wf_ind. intros d cur Hcur Hle. rewrite isolated_observe_unfold.
  destruct (cur_complete cur) eqn:Hi; [by eexists; apply consumed_complete|].
  pose proof (isolated_step d cur (cur_buffer cur) Hcur Hi ltac:(apply Hcur)) as H. destruct cur as [c b f fr]. cbn [cur_conn cur_buffer cur_framer cur_frame] in *.
  destruct (isolated_read_next t _) as [[[]|e] cur']; [|done]. destruct H as (Hcur' & Hlt & Hcon & Hfail). destruct fuel as [|fuel]; [lia|].
  specialize (IH fuel ltac:(lia) _ cur' Hcur' ltac:(lia)). destruct (isolated_observe_loop t fuel cur') as [[[]|e] c']; [|auto].
  destruct IH as [r Hr]. eauto.
Qed.

Lemma capture_chunked_unfold fuel chunks limit cur :
  capture_chunked_loop t fresh fuel chunks limit cur =
  if capture_would_exceed_limit (chunked_len chunks) (N.of_nat (length (cur_chunk cur))) limit then
    match isolated_observe t cur with
    | (Ok _, c) => (Ok None, c)
    | (Err e, c) => (Err e, c)
    end
  else
    let chunks := chunks ++ [cur_chunk cur] in
    if cur_complete cur then (Ok (pair chunks <$> capture_end ShapeMultiline chunks), cur_conn cur)
    else
      match isolated_read_next t (mkCursor (cur_conn cur) fresh (cur_framer cur) (cur_frame cur)) with
      | (Err e, cur) => (Err e, cur_conn cur)
      | (Ok _, cur) =>
          match fuel with 0 => (Err BackendEof, cur_conn cur) | S fuel => capture_chunked_loop t fresh fuel chunks limit cur end
      end.
Proof. by destruct fuel. Qed.

Lemma capture_end_complete chunks : TERMINATOR `suffix_of` concat chunks → capture_end ShapeMultiline chunks = Some (length (concat chunks) - 3).
Proof.
  intros [x Hx]. unfold capture_end, checked_sub. rewrite (proj2 (Nat.ltb_ge _ _)) by (rewrite Hx, length_app; cbn; lia).
  cbn [mbind option_bind]. unfold payload_end_new. by rewrite (proj2 (Nat.leb_le _ _)) by (cbn; lia).
Qed.

Lemma capture_chunked_spec fuel chunks limit d cur :
  (limit < u64_max)%N → concat chunks = d → cursor_ok d cur → reads_left (cur_conn cur) ≤ fuel →
  match capture_chunked_loop t fresh fuel chunks limit cur with
  | (Ok (Some (chunks', payload_end)), c') =>
      ∃ r, consumed d cur r c' ∧ concat chunks' = d ++ r ∧ payload_end = length (d ++ r) - 3 ∧ (N.of_nat (length (d ++ r)) <= limit)%N
  | (Ok None, c') => ∃ r, consumed d cur r c' ∧ (limit < N.of_nat (length (d ++ r)))%N
  | (Err _, c') => failed d cur c'
  end.
Proof.
  intros Hl. revert chunks d cur. induction fuel as [fuel IH] using lt_wf_ind. intros chunks d cur <- Hcur Hle. rewrite capture_chunked_unfold.
  rewrite would_exceed_spec, (cursor_chunk _ _ Hcur) by done. unfold chunked_len. destruct (N.ltb_spec limit (N.of_nat (length (concat chunks)) + N.of_nat (length (visible (cur_buffer cur))))) as [Hgt|Hfit].
  { unfold isolated_observe. pose proof (isolated_observe_spec (reads_left (cur_conn cur)) _ cur Hcur ltac:(done)) as H.
    destruct (isolated_observe_loop t _ cur) as [[[]|e] c']; [|done]. destruct H as [r Hr]. exists r. split; [done|].
    assert (Hw := prefix_length _ _ (con_window _ _ _ _ Hr)). rewrite length_app. lia. }
  cbv zeta. destruct (cur_complete cur) eqn:Hi.
  - assert (Hcon := consumed_complete _ _ Hcur Hi). rewrite capture_end_complete by (rewrite concat_app; cbn; rewrite app_nil_r; apply Hcon).
    cbn. eexists. split; [done|]. rewrite concat_app. cbn. rewrite app_nil_r. split_and!; [done|done|rewrite length_app; lia].
  - pose proof (isolated_step _ cur fresh Hcur Hi fresh_ok) as H. destruct (isolated_read_next t _) as [[[]|e] cur']; [|done].
    destruct H as (Hcur' & Hlt & Hcon & Hfail). destruct fuel as [|fuel]; [lia|].
    specialize (IH fuel ltac:(lia) (chunks ++ [visible (cur_buffer cur)]) _ cur' ltac:(by rewrite concat_app; cbn; rewrite app_nil_r) Hcur' ltac:(lia)).
    destruct (capture_chunked_loop t fresh fuel _ limit cur') as [[[[chunks' pe]|]|e] c']; [| |auto].
    + destruct IH as (r & Hr & Hcat & Hpe & Hlim). exists (visible (cur_buffer cur) ++ r). rewrite app_assoc. auto.
    + destruct IH as (r & Hr & Hlim). exists (visible (cur_buffer cur) ++ r). rewrite app_assoc. auto.
Qed.

Lemma capture_into_unfold fuel capture cur :
  capture_into_loop t fuel capture cur =
  let capture := capture ++ cur_chunk cur in
  if cur_complete cur then (Ok capture, cur_conn cur)
  else
    match isolated_read_next t cur with
    | (Err e, cur') => (Err match (read_from (cur_buffer cur) (cur_conn cur)).1.1 with Err k => AnyIo k | Ok _ => AnyOther end, cur_conn cur')
    | (Ok _, cur') => match fuel with 0 => (Err AnyOther, cur_conn cur') | S fuel => capture_into_loop t fuel capture cur' end
    end.
Proof.
  destruct fuel; cbn [capture_into_loop]; destruct (cur_complete cur); try done; unfold isolated_read_next;
    destruct (read_from _ _) as [[[[|n]|k] b] c]; try done; by destruct (frame_with_policy _ _ _ _) as [[]].
Qed.

Lemma capture_into_spec fuel d cur :
  cursor_ok d cur → reads_left (cur_conn cur) ≤ fuel →
  match capture_into_loop t fuel d cur with
  | (Ok capture, c') => ∃ r, consumed d cur r c' ∧ capture = d ++ r
  | (Err _, c') => failed d cur c'
  end.
Proof.
  revert d cur. induction fuel as [fuel IH] using lt_wf_ind. intros d cur Hcur Hle. rewrite capture_into_unfold, (cursor_chunk _ _ Hcur). cbv zeta.
  destruct (cur_complete cur) eqn:Hi; [by eexists; split; [apply consumed_complete|]|].
  pose proof (isolated_step d cur (cur_buffer cur) Hcur Hi ltac:(apply Hcur)) as H. destruct cur as [c b f fr]. cbn [cur_conn cur_buffer cur_framer cur_frame] in *.
  destruct (isolated_read_next t _) as [[[]|e] cur']; [|done]. destruct H as (Hcur' & Hlt & Hcon & Hfail). destruct fuel as [|fuel]; [lia|].
  specialize (IH fuel ltac:(lia) _ cur' Hcur' ltac:(lia)). destruct (capture_into_loop t fuel _ cur') as [[capture|e] c']; [|auto].
  destruct IH as (r & Hr & ->). exists (visible b ++ r). rewrite app_assoc. auto.
Qed.

(** ** Classified responses *)

(** The first line of a classified response and what follows it in the buffer. *)
Lemma classified_cases request cl :
  classified_ok request cl →
  match cl_frame cl with
  | Err _ => status_code cl = None
  | Ok (SingleLine status e response next) =>
      ∃ l u, visible (cl_buffer cl) = l ++ x0a :: u ∧ x0a ∉ l ∧ parse (l ++ [x0a]) = Some status ∧
        has_response_body request status = false ∧ e = S (length l) ∧ response = (0, e) ∧ next = (e, length (visible (cl_buffer cl)))
  | Ok (Multiline status e) =>
      ∃ l u, visible (cl_buffer cl) = l ++ x0a :: u ∧ x0a ∉ l ∧ parse (l ++ [x0a]) = Some status ∧
        has_response_body request status = true ∧ e = S (length l)
  end.
Proof.
  intros [_ Hf]. unfold status_code. rewrite Hf. unfold parse_bytes, status_line_len, parse_response_status. rewrite memchr_spec.
  destruct (line_split (visible (cl_buffer cl))) as [Hn|(l & u & Hv & Hl)]; [by rewrite position_not_elem|].
  rewrite Hv, position_first by done. cbn [fmap option_fmap option_map]. rewrite parse_line by done.
  destruct (parse (l ++ [x0a])) as [status|] eqn:Hp; [|done]. destruct (has_response_body request status) eqn:Hb; exists l, u; by split_and!.
Qed.

(** No terminator ends within a status line. *)
Lemma line_open l : x0a ∉ l → first_touching_end [] (l ++ [x0a]) = None.
Proof.
  intros Hl. apply first_touching_iff. intros e [He [x Hx]]. cbn [app] in Hx. apply Hl.
  assert (take e (l ++ [x0a]) `prefix_of` l ++ [x0a]) as [y Hy] by apply prefix_take. rewrite Hx in Hy.
  assert (x ++ [x0d; x0a] `prefix_of` l) as [z ->]; [|apply elem_of_app; left; apply elem_of_app; right; right; by left].
  assert (length x + 5 ≤ length (l ++ [x0a])) as Hlen by (rewrite Hy, !length_app; cbn; lia).
  exists (drop (length (x ++ [x0d; x0a])) l). rewrite <- (take_drop (length (x ++ [x0d; x0a])) l) at 1. f_equal.
  apply (f_equal (take (length (x ++ [x0d; x0a])))) in Hy. rewrite take_app_le in Hy by (rewrite !length_app in *; cbn in *; lia).
  rewrite Hy. change TERMINATOR with ([x0d; x0a] ++ DOT_TERMINATOR). rewrite (app_assoc x), <- app_assoc. apply take_app_length.
Qed.

(** The stream is the response, and nothing else. *)
Definition alone (request : RequestContext) (stream : bytes) : Prop := response_end request stream = Some (length stream).

Lemma alone_closes request l u status :
  x0a ∉ l → parse (l ++ [x0a]) = Some status → has_response_body request status = true →
  alone request (l ++ x0a :: u) → closes [] (l ++ x0a :: u).
Proof.
  unfold alone, closes. intros Hl Hp Hb. rewrite response_end_line, Hp by done. cbn [mbind option_bind]. rewrite Hb.
  intros (e & He & Hn)%fmap_Some. rewrite (cons_middle x0a l u), (app_assoc l [x0a] u), first_touching_end_app_None by by apply line_open.
  cbn [app]. rewrite He. cbn. f_equal. rewrite <- app_assoc. done.
Qed.

(** The operation took the response [r] and nothing else from the connection. *)
Definition isolated_end (request : RequestContext) (cl : ClassifiedResponse) (c : ConnectionStream) (r : bytes) (c' : ConnectionStream) : Prop :=
  ∃ status, status_code cl = Some status ∧ whole_response request status r ∧ visible (cl_buffer cl) ++ upcoming c = r ++ upcoming c' ∧
    conn_ok c' ∧ phase c' = PhaseComplete ∧ pending_bytes_len c' ≤ pending_bytes_len c ∧
    (alone request (visible (cl_buffer cl) ++ upcoming c) → upcoming c' = []).

Lemma isolated_single request cl c status e response next :
  classified_ok request cl → conn_ok c → cl_frame cl = Ok (SingleLine status e response next) →
  if require_isolated next then isolated_end request cl c (visible (cl_buffer cl)) (mark_response_complete c) ∧
    slice response.1 response.2 (visible (cl_buffer cl)) = visible (cl_buffer cl)
  else ¬ alone request (visible (cl_buffer cl) ++ upcoming c).
Proof.
  intros Hcl Hc Ef. pose proof (classified_cases request cl Hcl) as H. rewrite Ef in H.
  destruct H as (l & u & Hv & Hl & Hp & Hb & -> & -> & ->). unfold require_isolated. cbn [fst snd].
  assert (alone request (visible (cl_buffer cl) ++ upcoming c) → u = [] ∧ upcoming c = []) as Halone.
  { unfold alone. rewrite Hv, <- app_assoc, <- app_comm_cons, response_end_line, Hp by done. cbn [mbind option_bind]. rewrite Hb. intros [= Hn].
    rewrite !length_app in Hn. cbn in Hn. rewrite length_app in Hn. split; apply length_zero_iff_nil; lia. }
  destruct (Nat.leb_spec (length (visible (cl_buffer cl))) (S (length l))) as [Hle|Hgt].
  - assert (u = []) as -> by (rewrite Hv, length_app in Hle; destruct u; [done|cbn in Hle; lia]). split.
    + exists status. split_and!; try done; [unfold status_code; by rewrite Ef| |by intros [_ ?]%Halone].
      exists l, []. rewrite Hb. by split_and!.
    + rewrite Hv. unfold slice. rewrite drop_0, Nat.sub_0_r. apply take_ge. rewrite length_app. cbn. lia.
  - intros [-> _]%Halone. rewrite Hv, length_app in Hgt. cbn in Hgt. lia.
Qed.

(** The start of a multiline operation, and how its end ends the exchange. *)
Lemma isolated_multi request cl c status e :
  classified_ok request cl → conn_ok c → cl_frame cl = Ok (Multiline status e) →
  match isolated_begin t (cl_buffer cl) (in_flight c) with
  | Ok cur => cursor_ok [] cur ∧ (reads_left (cur_conn cur) = reads_left (in_flight c) ∧ cur_buffer cur = cl_buffer cl) ∧
      (∀ r c', consumed [] cur r c' → isolated_end request cl c r (mark_response_complete c')) ∧
      (∀ c', failed [] cur c' → conn_ok c' ∧ ¬ alone request (visible (cl_buffer cl) ++ upcoming c))
  | Err _ => ¬ alone request (visible (cl_buffer cl) ++ upcoming c)
  end.
Proof.
  intros Hcl Hc Ef. pose proof (classified_cases request cl Hcl) as H. rewrite Ef in H. destruct H as (l & u & Hv & Hl & Hp & Hb & ->).
  assert (alone request (visible (cl_buffer cl) ++ upcoming c) → closes [] (visible (cl_buffer cl) ++ upcoming c)) as Halone.
  { rewrite Hv, <- app_assoc, <- app_comm_cons. by apply alone_closes with (status := status). }
  pose proof (isolated_begin_spec (cl_buffer cl) (in_flight c) (proj1 Hcl) Hc) as H.
  destruct (isolated_begin t (cl_buffer cl) (in_flight c)) as [cur|err]; [|intros Ha; by apply H, Halone].
  destruct H as (Hcur & Ec & Eb & Hcl'). split_and!; [done|by rewrite Ec|done| |].
  - intros r c' [C1 C0 C2 C3 C4 C5 C6]. rewrite Eb, Ec in *. exists status. split_and!; try done; [unfold status_code; by rewrite Ef| |].
    + destruct C0 as [x ->]. exists l, (u ++ x). rewrite Hv, <- app_assoc, <- app_comm_cons, Hb in *. by split_and!.
    + intros Ha. by apply C6, Hcl', Halone.
  - intros c' [? Hn]. split; [done|]. intros Ha. by apply Hn, Hcl', Halone.
Qed.

Definition isolated_failure (request : RequestContext) (cl : ClassifiedResponse) (c c' : ConnectionStream) : Prop :=
  conn_ok c' ∧ ¬ alone request (visible (cl_buffer cl) ++ upcoming c).

Lemma not_alone_invalid request cl c : classified_ok request cl → line_read cl → status_code cl = None → ¬ alone request (visible (cl_buffer cl) ++ upcoming c).
Proof.
  intros [_ Hf] Hline. unfold status_code. rewrite Hf. unfold parse_bytes, status_line_len, parse_response_status. rewrite memchr_spec.
  destruct (line_split (visible (cl_buffer cl))) as [Hn|(l & u & Hv & Hl)]; [by rewrite position_not_elem|].
  rewrite Hv, position_first by done. cbn [fmap option_fmap option_map]. rewrite parse_line by done.
  unfold alone. rewrite <- app_assoc, <- app_comm_cons, response_end_line by done.
  destruct (parse (l ++ [x0a])) as [status|]; [|done]. by destruct (has_response_body request status).
Qed.

Lemma observe_isolated_spec request cl c :
  classified_ok request cl → line_read cl → conn_ok c →
  match observe_isolated t cl c with
  | (Ok _, c') => ∃ r, isolated_end request cl c r c'
  | (Err _, c') => isolated_failure request cl c c'
  end.
Proof.
  intros Hcl Hline Hc. unfold observe_isolated, isolated_failure.
  destruct (cl_frame cl) as [[status e response next|status e]|err] eqn:Ef.
  - pose proof (isolated_single request cl c status e response next Hcl Hc Ef) as H. destruct (require_isolated next); [|done].
    destruct H as [H _]. by eexists.
  - pose proof (isolated_multi request cl c status e Hcl Hc Ef) as H. destruct (isolated_begin t _ _) as [cur|err]; [|done].
    destruct H as (Hcur & _ & Hcon & Hfail). unfold isolated_observe. pose proof (isolated_observe_spec (reads_left (cur_conn cur)) [] cur Hcur ltac:(done)) as H.
    destruct (isolated_observe_loop t _ cur) as [[[]|err] c']; [|by apply Hfail]. destruct H as [r Hr]. eauto.
  - split; [done|]. pose proof (classified_cases request cl Hcl) as H. rewrite Ef in H. by apply not_alone_invalid.
Qed.

Lemma complete_single_line_spec request cl c :
  classified_ok request cl → conn_ok c →
  match complete_single_line cl c with
  | (Ok _, c') => isolated_end request cl c (visible (cl_buffer cl)) c' ∧ single_line_bytes cl = Some (visible (cl_buffer cl))
  | (Err _, c') => conn_ok c'
  end.
Proof.
  intros Hcl Hc. unfold complete_single_line, single_line_bytes. destruct (cl_frame cl) as [[status e response next|status e]|err] eqn:Ef; [|done..].
  pose proof (isolated_single request cl c status e response next Hcl Hc Ef) as H. destruct (require_isolated next); [|done].
  destruct H as [? ->]. done.
Qed.

(** What is retained of the response [r]. *)
Definition retained (r : bytes) (cap : option CapturedChunkedResponse) : Prop :=
  match cap with
  | Some cap => concat (cap_chunks cap) = r ∧ cap_payload_end cap = length r - 3 ∧ (N.of_nat (length r) <= MAX_CAPTURED_MULTILINE_RESPONSE_BYTES)%N
  | None => (MAX_CAPTURED_MULTILINE_RESPONSE_BYTES < N.of_nat (length r))%N
  end.

Lemma capture_chunked_optional_spec request cl c :
  classified_ok request cl → line_read cl → conn_ok c →
  match capture_isolated_chunked_optional t fresh cl c with
  | (Ok cap, c') => ∃ r, isolated_end request cl c r c' ∧ retained r cap
  | (Err _, c') => conn_ok c' ∧ ((∃ status e, cl_frame cl = Ok (Multiline status e)) → ¬ alone request (visible (cl_buffer cl) ++ upcoming c))
  end.
Proof.
  intros Hcl Hline Hc. unfold capture_isolated_chunked_optional.
  destruct (cl_frame cl) as [[status e response next|status e]|err] eqn:Ef; [by split; [|intros (? & ? & ?)]| |by split; [|intros (? & ? & ?)]].
  pose proof (isolated_multi request cl c status e Hcl Hc Ef) as H. destruct (isolated_begin t _ _) as [cur|err]; [|done].
  destruct H as (Hcur & [Hrl Eb] & Hcon & Hfail). rewrite <- Hrl.
  pose proof (capture_chunked_spec (reads_left (cur_conn cur)) [] MAX_CAPTURED_MULTILINE_RESPONSE_BYTES [] cur ltac:(done) ltac:(done) Hcur ltac:(done)) as H.
  destruct (capture_chunked_loop t fresh _ _ _ cur) as [[[[chunks pe]|]|err] c']; cbn [fmap option_fmap option_map].
  - destruct H as (r & Hr & ? & ? & ?). exists r. split; [by apply Hcon|done].
  - destruct H as (r & Hr & ?). exists r. split; [by apply Hcon|done].
  - destruct (Hfail _ H). done.
Qed.

Lemma capture_isolated_spec request cl c :
  classified_ok request cl → line_read cl → conn_ok c →
  match capture_isolated t cl c with
  | (Ok cap, c') => ∃ r status l u, isolated_end request cl c r c' ∧ status_code cl = Some status ∧
      visible (cl_buffer cl) = l ++ x0a :: u ∧ x0a ∉ l ∧ cr_metadata cap = mkMetadata (cl_kind cl) status (S (length l)) ∧
      cr_content_end cap = length (cr_bytes cap) ∧
      cr_bytes cap = if has_response_body request status then take (Nat.max (length r - 5) (S (length l))) r else r
  | (Err _, c') => isolated_failure request cl c c'
  end.
Proof.
  intros Hcl Hline Hc. unfold capture_isolated, isolated_failure, status_code.
  pose proof (classified_cases request cl Hcl) as Hcases. destruct (cl_frame cl) as [[status e response next|status e]|err] eqn:Ef.
  - pose proof (isolated_single request cl c status e response next Hcl Hc Ef) as H. destruct Hcases as (l & u & Hv & Hl & _ & Hb & -> & -> & ->).
    destruct (require_isolated _) eqn:Ei; [|done]. destruct H as [H _]. exists (visible (cl_buffer cl)), status, l, u. rewrite Hb. split_and!; try done.
    cbn. unfold require_isolated in Ei. apply Nat.leb_le in Ei. cbn in Ei. rewrite Hv, length_app in *. cbn in *. lia.
  - pose proof (isolated_multi request cl c status e Hcl Hc Ef) as H. destruct (isolated_begin t _ _) as [cur|err]; [|done].
    destruct H as (Hcur & [Hrl Eb] & Hcon & Hfail). unfold capture_payload_into.
    pose proof (capture_into_spec (reads_left (cur_conn cur)) [] cur Hcur ltac:(done)) as H.
    destruct (capture_into_loop t _ [] cur) as [[capture|err] c'] eqn:Ec; [|by apply Hfail]. destruct H as (r & Hr & ->). cbn [app] in *.
    assert (Hend := Hcon _ _ Hr). destruct Hcases as (l & u & Hv & Hl & _ & Hb & ->).
    assert (5 ≤ length r ∧ S (length l) ≤ length r) as [H5 Hsl].
    { destruct (con_end _ _ _ _ Hr) as [x Hx]. assert (Hw := con_window _ _ _ _ Hr). apply prefix_length in Hw.
      split; [cbn in Hx; rewrite Hx, length_app; cbn; lia|]. rewrite Eb, Hv, length_app in Hw. cbn in Hw. lia. }
    unfold checked_sub. rewrite (proj2 (Nat.ltb_ge _ _)) by (cbn; lia). cbv zeta.
    rewrite (proj2 (Nat.leb_le _ _)) by (cbn; lia). exists r, status, l, u. rewrite Hb. by split_and!.
  - split; [done|]. by apply not_alone_invalid; [..|unfold status_code; rewrite Ef].
Qed.
End IsolatedFacts.
