(* ===== verification/Retry.v ===== *)
(** * Retry: executing one article request on the backends

    Models the direct execution path of [src/src/session/handlers/command_execution.rs]
    and the retry loop of [src/src/session/handlers/article_retry.rs], with
    [src/src/session/retry.rs], [src/src/session/routing/cache_policy.rs] and
    [src/src/session/routing/metrics_policy.rs]: checking out a connection, the STAT
    probe, the request and its response, what the cache and the metrics are told,
    what becomes of the connection, and which backend is tried next.

    The handlers are programs in a state monad over [World].  What the proxy does
    not decide (the pool's counts and checkouts, whether a socket is alive, whether
    a request could be sent, the other threads, the order in which probes finish)
    is asked from an [Oracle], a function of the time; every question advances the
    time.  Cache updates and metrics are logged in the order of the calls, and so is
    the fate of every connection that is given up and the status of every response.  Log output, delays and timing
    samples are left out. *)

From S2P Require Import Prelude Protocol Request Scanner Framer Command Availability Router Article Cache Stream Transfer Exchange.

(** ** Policies *)

Inductive CacheAction := CaptureArticle | TrackAvailability | TrackStat | ActionNone.

#[global] Instance CacheAction_eq_dec : EqDecision CacheAction.
Proof. solve_decision. Defined.

Definition should_capture_article_response (request : RequestContext) (status : StatusCode) (stores_payloads : bool) : bool :=
  stores_payloads && has_response_body request status &&
  ((as_u16 status =? 220) || (as_u16 status =? 222))%N.

Definition should_track_availability (status : StatusCode) : bool := ((220 <=? as_u16 status) && (as_u16 status <=? 223))%N.

Definition determine_cache_action_for_request (article_request : option RequestContext) (status : StatusCode)
    (stores_payloads : bool) : CacheAction :=
  match article_request with
  | None => ActionNone
  | Some request =>
      if should_capture_article_response request status stores_payloads then CaptureArticle
      else if has_response_body request status && should_track_availability status then TrackAvailability
      else if (as_u16 status =? 223)%N then TrackStat
      else ActionNone
  end.

Inductive MetricsAction := MaError4xx | MaError5xx | MaArticle | MaNone.

Definition determine_metrics_action_for_request (request : RequestContext) (status : StatusCode) : MetricsAction :=
  let code := as_u16 status in
  if ((400 <=? code) && (code <? 500) && negb (code =? 423) && negb (code =? 430))%N then MaError4xx
  else if (500 <=? code)%N then MaError5xx
  else if has_response_body request status && ((220 <=? code) && (code <=? 222))%N then MaArticle
  else MaNone.

(** ** The world of a request *)

Inductive MetricsEvent :=
| MeCommand (backend : nat)
| MeUserCommand
| MeError (backend : nat)
| MeUserError
| MeError4xx (backend : nat)
| MeError5xx (backend : nat)
| MeArticle (backend : nat) (size : nat)
| MeExecution (backend : nat) (sent received : nat)
| MeUserSent (size : nat)
| MeUserReceived (size : nat)
| MePipelineBatch (size : nat).

(** A connection that left the session: released to its pool, removed without a
    cooldown, removed with one, or handed to the salvage task. *)
Inductive ConnectionFate := Released | RemovedClean | RemovedCooldown | Salvaged.

Record World := mkWorld {
  time : nat;
  selector : BackendSelector;
  availability : ArticleAvailability;
  unavailable : N;
  client : Writer;
  lease : option (nat * ConnectionStream);
  request_bytes : N;
  response_bytes : N;
  completed : option (option nat * StatusCode * nat);
  cache_log : list CacheOp;
  metrics : list MetricsEvent;
  retired : list (nat * ConnectionFate * ConnectionStream);
  prefetched : list nat;
  answers : list (nat * option StatusCode) }.

Record Oracle := mkOracle {
  pool_at : nat → nat → StatusCounts;
  interference : nat → nat → BackendSelector → BackendSelector;
  interferences : nat;
  checkout : nat → nat → option ConnectionStream;
  tcp_alive : nat → bool;
  send_to : nat → result ErrorKind unit;
  finish_order : nat → list nat → list nat;
  update_permit : nat → bool }.

(** [UnifiedCacheKind] and the parts of the configuration the handlers read. *)
Inductive UnifiedCacheKind := KindAvailability | KindMemory | KindHybrid.

Record SessionConfig := mkSession {
  cache_kind : UnifiedCacheKind;
  cache_slot : nat → AvailabilitySlot;
  stat_missing_enabled : nat → bool }.

Definition stores_payload_responses (c : SessionConfig) : bool :=
  match cache_kind c with KindAvailability => false | KindMemory | KindHybrid => true end.

Definition records_backend_has_status (c : SessionConfig) : bool :=
  match cache_kind c with KindAvailability => false | KindMemory | KindHybrid => true end.

Definition M (A : Type) : Type := World → A * World.

#[global] Instance M_ret : MRet M := λ A a w, (a, w).
#[global] Instance M_bind : MBind M := λ A B f m w, let '(a, w) := m w in f a w.

Definition ask {A} (q : nat → A) : M A := λ w,
  (q (time w), mkWorld (S (time w)) (selector w) (availability w) (unavailable w) (client w) (lease w) (request_bytes w)
     (response_bytes w) (completed w) (cache_log w) (metrics w) (retired w) (prefetched w) (answers w)).

Definition read {A} (f : World → A) : M A := λ w, (f w, w).

Definition set_selector (s : BackendSelector) : M unit := λ w,
  ((), mkWorld (time w) s (availability w) (unavailable w) (client w) (lease w) (request_bytes w)
     (response_bytes w) (completed w) (cache_log w) (metrics w) (retired w) (prefetched w) (answers w)).

Definition record_missing (slot : AvailabilitySlot) : M unit := λ w,
  ((), mkWorld (time w) (selector w) (record_missing_slot (availability w) slot) (unavailable w) (client w) (lease w)
     (request_bytes w) (response_bytes w) (completed w) (cache_log w) (metrics w) (retired w) (prefetched w) (answers w)).

(** The availability of the request; no backend is suppressed yet. *)
Definition begin_request (a : ArticleAvailability) : M unit := λ w,
  ((), mkWorld (time w) (selector w) a 0 (client w) (lease w) (request_bytes w)
     (response_bytes w) (completed w) (cache_log w) (metrics w) (retired w) (prefetched w) (answers w)).

Definition suppress_backend (i : nat) : M unit := λ w,
  ((), mkWorld (time w) (selector w) (availability w) (suppress (unavailable w) i) (client w) (lease w) (request_bytes w)
     (response_bytes w) (completed w) (cache_log w) (metrics w) (retired w) (prefetched w) (answers w)).

Definition set_client (wr : Writer) : M unit := λ w,
  ((), mkWorld (time w) (selector w) (availability w) (unavailable w) wr (lease w) (request_bytes w)
     (response_bytes w) (completed w) (cache_log w) (metrics w) (retired w) (prefetched w) (answers w)).

Definition set_lease (l : option (nat * ConnectionStream)) : M unit := λ w,
  ((), mkWorld (time w) (selector w) (availability w) (unavailable w) (client w) l (request_bytes w)
     (response_bytes w) (completed w) (cache_log w) (metrics w) (retired w) (prefetched w) (answers w)).

Definition add_request_bytes (n : nat) : M unit := λ w,
  ((), mkWorld (time w) (selector w) (availability w) (unavailable w) (client w) (lease w) (wrap64 (request_bytes w + N.of_nat n))
     (response_bytes w) (completed w) (cache_log w) (metrics w) (retired w) (prefetched w) (answers w)).

Definition add_response_bytes (n : nat) : M unit := λ w,
  ((), mkWorld (time w) (selector w) (availability w) (unavailable w) (client w) (lease w) (request_bytes w)
     (wrap64 (response_bytes w + N.of_nat n)) (completed w) (cache_log w) (metrics w) (retired w) (prefetched w) (answers w)).

Definition record_completion (i : nat) (status : StatusCode) (n : nat) : M unit := λ w,
  ((), mkWorld (time w) (selector w) (availability w) (unavailable w) (client w) (lease w) (request_bytes w)
     (response_bytes w) (Some (Some i, status, n)) (cache_log w) (metrics w) (retired w) (prefetched w) (answers w)).

(** [record_local_response] *)
Definition record_local (status : StatusCode) (n : nat) : M unit := λ w,
  ((), mkWorld (time w) (selector w) (availability w) (unavailable w) (client w) (lease w) (request_bytes w)
     (response_bytes w) (Some (None, status, n)) (cache_log w) (metrics w) (retired w) (prefetched w) (answers w)).

(** A copy of the session's counter for one request. *)
Definition set_request_bytes (n : N) : M unit := λ w,
  ((), mkWorld (time w) (selector w) (availability w) (unavailable w) (client w) (lease w) n
     (response_bytes w) (completed w) (cache_log w) (metrics w) (retired w) (prefetched w) (answers w)).

Definition log_cache (op : CacheOp) : M unit := λ w,
  ((), mkWorld (time w) (selector w) (availability w) (unavailable w) (client w) (lease w) (request_bytes w)
     (response_bytes w) (completed w) (cache_log w ++ [op]) (metrics w) (retired w) (prefetched w) (answers w)).

Definition log_metrics (l : list MetricsEvent) : M unit := λ w,
  ((), mkWorld (time w) (selector w) (availability w) (unavailable w) (client w) (lease w) (request_bytes w)
     (response_bytes w) (completed w) (cache_log w) (metrics w ++ l) (retired w) (prefetched w) (answers w)).

Definition retire (i : nat) (fate : ConnectionFate) (c : ConnectionStream) : M unit := λ w,
  ((), mkWorld (time w) (selector w) (availability w) (unavailable w) (client w) (lease w) (request_bytes w)
     (response_bytes w) (completed w) (cache_log w) (metrics w) (retired w ++ [(i, fate, c)]) (prefetched w) (answers w)).

Definition log_prefetch (l : list nat) : M unit := λ w,
  ((), mkWorld (time w) (selector w) (availability w) (unavailable w) (client w) (lease w) (request_bytes w)
     (response_bytes w) (completed w) (cache_log w) (metrics w) (retired w) (prefetched w ++ l) (answers w)).

(** The status of a classified response, for the statements below. *)
Definition log_answer (i : nat) (status : option StatusCode) : M unit := λ w,
  ((), mkWorld (time w) (selector w) (availability w) (unavailable w) (client w) (lease w) (request_bytes w)
     (response_bytes w) (completed w) (cache_log w) (metrics w) (retired w) (prefetched w) (answers w ++ [(i, status)])).

(** ** Handlers *)

Inductive ResponseRetention := DiscardAfterWrite | RetainAfterWrite.

Definition can_discard_response_after_write (request : RequestContext) (action : CacheAction) : bool :=
  match kind request with Article | Body | Head => true | _ => false end &&
  match action with TrackAvailability | ActionNone => true | _ => false end.

Definition retention_for_request (request : RequestContext) (action : CacheAction) : ResponseRetention :=
  if can_discard_response_after_write request action then DiscardAfterWrite else RetainAfterWrite.

Inductive BackendAttemptResult :=
| Success
| ArticleNotFound (backend : nat)
| BackendUnavailable
| NoRetryableBackend.

Inductive RetryStatProbeOutcome := ProbeMissing (backend : nat) | ProbePresent | ProbeUnavailable (backend : nat).

Definition stat_probe_request (request : RequestContext) : option RequestContext :=
  if has_message_id request then Some (from_verb_args (bs "STAT") (args request)) else None.

Definition cache_records_backend_has_article (request : RequestContext) (i : nat) : bool :=
  match cache_entry request with
  | Some e => backend_has_article (entry_availability e) (N.of_nat i)
  | None => false
  end.

(** The key of the article an article request asks for. *)
Definition article_key (request : RequestContext) : option bytes :=
  r ← article_lookup_request request; m ← lookup_message_id r; without_brackets m.

Definition is_article_kind (k : RequestKind) : bool := match k with Article | Body | Head => true | _ => false end.

Section Handlers.
Context {MC : Memchr} (t : target) (env : Oracle) (cfg : SessionConfig).
Variable fresh : PooledBuffer.

Definition router_slot (s : BackendSelector) (i : nat) : option AvailabilitySlot := availability_slot <$> find_backend s i.

Definition tier_for_backend (s : BackendSelector) (i : nat) : N := default 0%N (tier <$> find_backend s i).

(** [record_authoritative_article_missing] followed by the cache's
    [record_availability_missing]. *)
Definition record_authoritative_missing (request : RequestContext) (i : nat) (slot : AvailabilitySlot) : M unit :=
  record_missing slot;; log_metrics [MeError4xx i];;
  match article_key request with
  | Some key => log_cache (OpMissing key slot)
  | None => mret ()
  end.

(** [complete_success]: the assertions are facts about the connections it is
    called with, see [released_reusable]. *)
Definition release (i : nat) (c : ConnectionStream) : M unit := retire i Released c.

Definition release_or_reuse_connection (i : nat) (c : ConnectionStream) : M unit :=
  match reuse_pool_fate (connection_reuse_after_response c) with
  | BackendDirty => retire i RemovedClean c
  | BackendFailed => retire i RemovedCooldown c
  | BackendHealthy =>
      l ← read lease;
      match l with
      | None => set_lease (Some (i, c))
      | Some _ => release i c
      end
  end.

Definition handle_response_transfer_error (i : nat) (c : ConnectionStream) (e : ResponseTransferError) : M SessionError :=
  match error_pool_fate e (connection_reuse_after_response c) with
  | BackendFailed => log_metrics [MeError i; MeUserError];; retire i RemovedCooldown c
  | BackendDirty => retire i RemovedClean c
  | BackendHealthy => release i (mark_response_complete c)
  end;;
  mret (session_error_from_transfer e).

(** [checkout_connection_guard] and [activate] *)
Definition checkout_connection (i : nat) : M (result AnyError ConnectionStream) :=
  o ← ask (λ n, checkout env n i);
  mret match o with Some c => Ok c | None => Err AnyConnection end.

Definition checkout_direct_backend_connection (i : nat) : M (result AnyError ConnectionStream) :=
  counts ← ask (λ n, pool_at env n i);
  let can_expand_or_use_idle := ((0 <? st_available counts) || (st_size counts <? st_max_size counts))%N in
  cached ← read lease;
  set_lease None;;
  match cached with
  | None => checkout_connection i
  | Some (j, c) =>
      if negb (j =? i) then release j c;; checkout_connection i
      else
        alive ← ask (tcp_alive env);
        if negb alive then retire i RemovedCooldown c;; checkout_connection i
        else if can_expand_or_use_idle then
          set_lease (Some (j, c));;
          r ← checkout_connection i;
          match r with
          | Ok c' => mret (Ok c')
          | Err _ => set_lease None;; mret (Ok c)
          end
        else mret (Ok c)
  end.

(** [execute_and_read_response]; a failed exchange drops its guard. *)
Definition execute_and_read_response (i : nat) (c : ConnectionStream) (request : RequestContext)
    : M (result AnyError (ClassifiedResponse * ConnectionStream)) :=
  log_metrics [MeCommand i; MeUserCommand];;
  send ← ask (send_to env);
  match execute_request_exchange fresh send request c with
  | (Ok cl, c) => log_answer i (status_code cl);; mret (Ok (cl, c))
  | (Err e, c) => retire i RemovedCooldown c;; mret (Err e)
  end.

(** [PreparedBackendAttempt::observe] *)
Definition observe_attempt (i : nat) (cl : ClassifiedResponse) (c : ConnectionStream) : M (result SessionError ConnectionStream) :=
  match receiving_observe t fresh i cl c with
  | (Ok _, c) => mret (Ok c)
  | (Err e, c) => retire i RemovedCooldown c;; mret (Err (session_error_from_anyhow (AnyTransfer e)))
  end.

Definition should_use_stat_missing_probe (i : nat) (request : RequestContext) (stat_probe_retry_only : bool) : bool :=
  stat_missing_enabled cfg i && stat_probe_retry_only && has_message_id request &&
  negb (bool_decide (kind request = Stat)) && is_article_kind (kind request).

Definition is_430 (status : option StatusCode) : bool :=
  match status with Some s => (as_u16 s =? 430)%N | None => false end.

Definition execute_backend_attempt (i : nat) (request : RequestContext) (stat_probe_retry_only : bool)
    : M (result AnyError (ClassifiedResponse * ConnectionStream)) :=
  guard ← checkout_direct_backend_connection i;
  match guard with
  | Err e => mret (Err e)
  | Ok c =>
      match (if should_use_stat_missing_probe i request stat_probe_retry_only then stat_probe_request request else None) with
      | None => execute_and_read_response i c request
      | Some stat_request =>
          probe ← execute_and_read_response i c stat_request;
          match probe with
          | Err e => mret (Err e)
          | Ok (cl, c) =>
              if is_430 (status_code cl) then mret (Ok (cl, c))
              else
                guard ← observe_attempt i cl c;
                match guard with
                | Err e => mret (Err (AnySession e))
                | Ok c => execute_and_read_response i c request
                end
          end
      end
  end.

(** [retry_once!]: the error of the first attempt is kept. *)
Definition retry_once {A E} (m : M (result E A)) : M (result E A) :=
  first ← m;
  match first with
  | Ok a => mret (Ok a)
  | Err e =>
      second ← m;
      match second with
      | Ok a => mret (Ok a)
      | Err _ => mret (Err e)
      end
  end.

(** [prepare_backend_attempt]: [None] is a backend that is not tried again. *)
Definition prepare_backend_attempt (i : nat) (request : RequestContext) (is_retry_attempt : bool)
    : M (option (ClassifiedResponse * ConnectionStream * StatusCode)) :=
  attempt ← retry_once (execute_backend_attempt i request is_retry_attempt);
  match attempt with
  | Err _ => suppress_backend i;; mret None
  | Ok (cl, c) =>
      add_request_bytes (request_wire_len request);;
      match status_code cl with
      | Some status => mret (Some (cl, c, status))
      | None => retire i Salvaged c;; suppress_backend i;; mret None
      end
  end.

(** ** Probes *)

Definition backend_ids_in_tier (s : BackendSelector) (n : N) : list nat :=
  backend_id <$> filter (λ b, (tier b =? n)%N = true) (backends s).

(** The backends of the given tiers that may have the article and answer probes. *)
Definition probe_candidates (tiers : list N) (w : World) : list nat :=
  let s := selector w in
  filter (λ i, negb (suppressed (unavailable w) i) &&
               match router_slot s i with Some slot => should_try_slot (availability w) slot | None => false end &&
               stat_missing_enabled cfg i = true)
    (tiers ≫= backend_ids_in_tier s).

(** The connection of a probe: the status of its answer, or [None].  The guard that
    [observe_and_reuse] returns is dropped at the end of the test, which removes
    the connection from the pool. *)
Definition probe_exchange (i : nat) (stat_request : RequestContext) : M (option (option StatusCode)) :=
  conn ← checkout_connection i;
  match conn with
  | Err _ => mret None
  | Ok c =>
      send ← ask (send_to env);
      match execute_request_exchange fresh send stat_request c with
      | (Err _, c) => retire i RemovedCooldown c;; mret None
      | (Ok cl, c) =>
          let status := status_code cl in
          log_answer i status;;
          match receiving_observe t fresh i cl c with
          | (Err _, c) => retire i RemovedCooldown c;; mret None
          | (Ok _, c) => retire i RemovedCooldown c;; mret (Some status)
          end
      end
  end.

(** One probe of the sweep, with its guard. *)
Definition stat_probe (i : nat) (stat_request : RequestContext) : M RetryStatProbeOutcome :=
  s ← read selector;
  let '(g, s) := guard_for_manual_backend s i in
  set_selector s;;
  answer ← probe_exchange i stat_request;
  s ← read selector;
  set_selector (guard_drop s g);;
  mret match answer with
       | None => ProbeUnavailable i
       | Some status => if is_430 status then ProbeMissing i else ProbePresent
       end.

Definition apply_probe_outcome (request : RequestContext) (o : RetryStatProbeOutcome) : M unit :=
  match o with
  | ProbeMissing i =>
      s ← read selector;
      match router_slot s i with
      | Some slot => record_authoritative_missing request i slot
      | None => mret ()
      end
  | ProbePresent => mret ()
  | ProbeUnavailable i => suppress_backend i
  end.

Fixpoint run_probes (order : list nat) (request stat_request : RequestContext) : M unit :=
  match order with
  | [] => mret ()
  | i :: order =>
      o ← stat_probe i stat_request;
      apply_probe_outcome request o;;
      run_probes order request stat_request
  end.

(** [parallel_retry_stat_sweep]; the probes are taken in the order they finish. *)
Definition parallel_retry_stat_sweep (request : RequestContext) : M unit :=
  if negb (has_message_id request) || bool_decide (kind request = Stat) || negb (is_article_kind (kind request)) then mret ()
  else match stat_probe_request request with
       | None => mret ()
       | Some stat_request =>
           candidates ← read (λ w, probe_candidates (sorted_tiers (selector w)) w);
           if length candidates <? 2 then mret ()
           else
             order ← ask (λ n, finish_order env n candidates);
             run_probes order request stat_request
       end.

(** [spawn_non_primary_tier_stat_prefetch]: the backends a task is spawned for. *)
Definition spawn_non_primary_tier_stat_prefetch (request : RequestContext) : M unit :=
  if negb (match kind request with Article | Body => true | _ => false end) || bool_decide (kind request = Stat) ||
     negb (has_message_id request) then mret ()
  else match stat_probe_request request, message_id_value request with
       | Some _, Some _ =>
           candidates ← read (λ w, probe_candidates (filter (λ n, (0 <? n)%N = true) (sorted_tiers (selector w))) w);
           log_prefetch candidates
       | _, _ => mret ()
       end.

(** One probe of the spawned task: a miss goes to the cache, not to the request. *)
Definition prefetch_probe (i : nat) (stat_request : RequestContext) (msg_id : MessageId) : M unit :=
  s ← read selector;
  match router_slot s i with
  | None => mret ()
  | Some slot =>
      let '(g, s) := guard_for_manual_backend s i in
      set_selector s;;
      answer ← probe_exchange i stat_request;
      match answer, without_brackets msg_id with
      | Some status, Some key => if is_430 status then log_cache (OpMissing key slot) else mret ()
      | _, _ => mret ()
      end;;
      s ← read selector;
      set_selector (guard_drop s g)
  end.

(** The spawned task; its probes are taken in the order they finish. *)
Fixpoint prefetch_task (order : list nat) (stat_request : RequestContext) (msg_id : MessageId) : M unit :=
  match order with
  | [] => mret ()
  | i :: order => prefetch_probe i stat_request msg_id;; prefetch_task order stat_request msg_id
  end.

(** ** Writing a response *)

Definition upsert_availability (key : bytes) (status : StatusCode) (i : nat) (n : N) : M unit :=
  if negb (records_backend_has_status cfg) then mret ()
  else
    permit ← ask (update_permit env);
    if (permit : bool) then log_cache (OpHasStatus key status (cache_slot cfg i) n) else mret ().

Definition upsert_framed (key : bytes) (cap : CapturedChunkedResponse) (i : nat) (n : N) : M unit :=
  if negb (stores_payload_responses cfg) then mret ()
  else
    permit ← ask (update_permit env);
    if (permit : bool) then
      log_cache (OpIngest key (meta_status (cap_metadata cap))
                   (take (meta_status_line_end (cap_metadata cap)) (concat (cap_chunks cap)))
                   (cap_chunks cap) (cap_payload_end cap) (cache_slot cfg i) n)
    else mret ().

Definition record_stat (key : bytes) (i : nat) (n : N) : M unit :=
  if negb (stores_payload_responses cfg) then mret ()
  else
    permit ← ask (update_permit env);
    if (permit : bool) then log_cache (OpStat key (cache_slot cfg i) n) else mret ().

Definition apply_cache_action (action : CacheAction) (request : RequestContext) (status : StatusCode) (i : nat)
    (captured : option CapturedChunkedResponse) : M unit :=
  n ← read (λ w, tier_for_backend (selector w) i);
  let known := cache_records_backend_has_article request i in
  match action, article_key request, captured with
  | CaptureArticle, Some key, Some cap => upsert_framed key cap i n
  | CaptureArticle, None, Some _ => mret ()
  | TrackAvailability, Some key, _ | CaptureArticle, Some key, None =>
      if negb known then upsert_availability key status i n else mret ()
  | TrackStat, Some key, _ =>
      if stores_payload_responses cfg then record_stat key i n
      else if negb known then upsert_availability key status i n
      else mret ()
  | _, _, _ => mret ()
  end.

(** [write_response_to_client] *)
Definition write_response_to_client (request : RequestContext) (i : nat) (cl : ClassifiedResponse) (c : ConnectionStream)
    : M (result ResponseTransferError (StatusCode * nat) * ConnectionStream) :=
  match status_code cl with
  | None => mret (Err (RtIo IoInvalidResponse), c)
  | Some status =>
      let action := determine_cache_action_for_request (article_lookup_request request) status (stores_payload_responses cfg) in
      (if bool_decide (action = TrackAvailability) then apply_cache_action action request status i None else mret ());;
      wr ← read client;
      let '(r, c, wr) :=
        match retention_for_request request action with
        | DiscardAfterWrite =>
            let '(r, c, wr) := receiving_write t fresh i cl c wr in ((λ n, (n, None)) <$> r, c, wr)
        | RetainAfterWrite => receiving_capture_and_write t fresh i cl c wr
        end in
      set_client wr;;
      match r with
      | Err e => mret (Err e, c)
      | Ok (n, captured) =>
          (if bool_decide (action = TrackAvailability) then mret () else apply_cache_action action request status i captured);;
          mret (Ok (status, n), c)
      end
  end.

Definition record_response_metrics (i : nat) (request : RequestContext) (status : StatusCode) (n : nat) : M unit :=
  log_metrics match determine_metrics_action_for_request request status with
              | MaError4xx => [MeError4xx i]
              | MaError5xx => [MeError5xx i]
              | MaArticle => [MeArticle i n]
              | MaNone => []
              end;;
  log_metrics [MeExecution i (request_wire_len request) n; MeUserSent (request_wire_len request); MeUserReceived n].

(** [client_write.flush()] *)
Definition flush_client : M (result ErrorKind unit) :=
  wr ← read client;
  let '(r, wr) := flush wr in
  set_client wr;; mret r.

(** [write_successful_backend_response] *)
Definition write_successful_backend_response (request : RequestContext) (i : nat) (cl : ClassifiedResponse)
    (c : ConnectionStream) : M (result SessionError (StatusCode * nat)) :=
  '(r, c) ← write_response_to_client request i cl c;
  match r with
  | Err e => e ← handle_response_transfer_error i c e; mret (Err e)
  | Ok (status, n) =>
      f ← flush_client;
      match f with
      | Err k => e ← handle_response_transfer_error i c (from_client_write k); mret (Err e)
      | Ok _ =>
          record_response_metrics i request status n;;
          release_or_reuse_connection i c;;
          mret (Ok (status, n))
      end
  end.

(** ** One attempt and the loop *)

(** [router.route] of a lookup; its compare-exchange loop ends with the
    interference, so running out of fuel is never reached. *)
Definition route_article : M (result RouteError nat) :=
  s ← read selector;
  a ← read availability;
  bits ← read unavailable;
  r ← ask (λ n, route (pool_at env n) (interference env n) (S (interferences env)) 0 s (Some a) bits);
  match r with
  | Some (r, s) => set_selector s;; mret r
  | None => mret (Err NoBackends)
  end.

(** [guard.complete()], or dropping the guard. *)
Definition finish_guard (complete : bool) (i : nat) : M unit :=
  s ← read selector;
  set_selector (if complete then guard_complete s (guard_for_routed_backend i) else guard_drop s (guard_for_routed_backend i)).

(** The attempt with the routed backend [i], without its guard. *)
Definition attempt_backend (i : nat) (request : RequestContext) (is_retry_attempt : bool)
    : M (result SessionError BackendAttemptResult) :=
  attempt ← prepare_backend_attempt i request is_retry_attempt;
  match attempt with
  | None => mret (Ok BackendUnavailable)
  | Some (cl, c, status) =>
      if (as_u16 status =? 430)%N then
        s ← read selector;
        match router_slot s i with
        | None => mret (Ok BackendUnavailable)
        | Some slot =>
            record_authoritative_missing request i slot;;
            conn ← observe_attempt i cl c;
            match conn with
            | Err e => mret (Err e)
            | Ok c => release_or_reuse_connection i c;; mret (Ok (ArticleNotFound i))
            end
        end
      else
        r ← write_successful_backend_response request i cl c;
        match r with
        | Ok (status, n) => record_completion i status n;; mret (Ok Success)
        | Err (ClientDisconnect k) => mret (Err (ClientDisconnect k))
        | Err e => suppress_backend i;; mret (Err e)
        end
  end.

(** [try_backend_for_article] *)
Definition try_backend_for_article (request : RequestContext) (is_retry_attempt : bool)
    : M (result SessionError BackendAttemptResult) :=
  backend ← route_article;
  match backend with
  | Err _ => mret (Ok NoRetryableBackend)
  | Ok i =>
      s ← read selector;
      r ← match find_backend s i with
          | None => mret (Ok BackendUnavailable)
          | Some _ => attempt_backend i request is_retry_attempt
          end;
      finish_guard match r with Ok Success => true | _ => false end i;;
      mret r
  end.

(** [client_write.write_all] of a fixed reply *)
Definition write_client (b : bytes) : M (result ErrorKind unit) :=
  wr ← read client;
  let '(r, wr) := write_all b wr in
  set_client wr;; mret r.

Definition io_error (k : ErrorKind) : SessionError := session_error_from_anyhow (AnyIo k).

Definition send_430_to_client : M (result SessionError unit) :=
  r ← write_client responses.NO_SUCH_ARTICLE;
  match r with
  | Err k => mret (Err (io_error k))
  | Ok _ => add_response_bytes (length responses.NO_SUCH_ARTICLE);; mret (Ok ())
  end.

Definition write_backend_error_response : M (result SessionError unit) :=
  r ← write_client responses.BACKEND_ERROR;
  match r with
  | Err k => mret (Err (io_error k))
  | Ok _ =>
      f ← flush_client;
      match f with
      | Err k => mret (Err (io_error k))
      | Ok _ => add_response_bytes (length responses.BACKEND_ERROR);; mret (Ok ())
      end
  end.

(** The flags of the loop. *)
Record LoopState := mkLoop {
  is_retry_attempt : bool;
  prefetch_started : bool;
  stat_sweep_done : bool }.

(** [execute_article_retry_loop]; [None] is running out of fuel. *)
Fixpoint article_retry_loop (fuel : nat) (request : RequestContext) (l : LoopState)
    : M (option (result SessionError unit)) :=
  match fuel with
  | 0 => mret None
  | S fuel =>
      exhausted ← read (λ w, all_exhausted (availability w) (availability_mask (selector w)));
      if (exhausted : bool) then r ← send_430_to_client; mret (Some r)
      else
        let start_prefetch := negb (is_retry_attempt l) && negb (prefetch_started l) in
        (if start_prefetch then spawn_non_primary_tier_stat_prefetch request else mret ());;
        let start_sweep := is_retry_attempt l && negb (stat_sweep_done l) in
        (if start_sweep then parallel_retry_stat_sweep request else mret ());;
        let l := mkLoop (is_retry_attempt l) (prefetch_started l || start_prefetch) (stat_sweep_done l || start_sweep) in
        let retrying := mkLoop true (prefetch_started l) (stat_sweep_done l) in
        attempt ← try_backend_for_article request (is_retry_attempt l);
        match attempt with
        | Ok Success =>
            done ← read completed;
            add_response_bytes match done with Some (_, _, n) => n | None => 0 end;;
            mret (Some (Ok ()))
        | Ok (ArticleNotFound _) | Ok BackendUnavailable => article_retry_loop fuel request retrying
        | Ok NoRetryableBackend => r ← write_backend_error_response; mret (Some r)
        | Err (ClientDisconnect k) => mret (Some (Err (ClientDisconnect k)))
        | Err (BackendError e) =>
            if blocks_another_response (BackendError e) then mret (Some (Err (BackendError e)))
            else article_retry_loop fuel request l
        end
  end.

Definition execute_article_retry_loop (request : RequestContext) (a : option ArticleAvailability)
    : M (option (result SessionError unit)) :=
  begin_request (default new_availability a);;
  backends ← read (λ w, backends (selector w));
  article_retry_loop (S (length backends)) request (mkLoop false false false).
End Handlers.
