(* ===== verification/RetryFacts.v ===== *)
(** * RetryFacts: what one article request can do

    Facts about the programs of [Retry]
    ([src/src/session/handlers/command_execution.rs],
    [src/src/session/handlers/article_retry.rs]): every handler keeps the invariant
    of the world, only grows what is known about the backends, and tells the client
    nothing unless it is the one that delivers; the retry loop ends after as many
    attempts as there are backends, at most one response reaches the client, and a
    miss is reported only when every configured backend is known to miss the
    article.  The handlers are verified with a weakest-precondition style predicate
    [spec]. *)

From S2P Require Import Prelude Protocol Request Scanner Framer Command Availability Router Article Cache Stream Transfer Exchange Retry.

Create HintDb quiet.

(** ** Programs *)

Definition spec {A} (m : M A) (w : World) (Q : A → World → Prop) : Prop := Q (m w).1 (m w).2.

Lemma spec_bind {A B} (m : M A) (f : A → M B) w Q :
  spec m w (λ a w', spec (f a) w' Q) → spec (m ≫= f) w Q.
Proof. unfold spec, mbind, M_bind. by destruct (m w). Qed.

Lemma spec_let {A} (m : M A) w (Q : A → World → Prop) : spec m w Q → let '(a, w') := m w in Q a w'.
Proof. unfold spec. by destruct (m w). Qed.

Lemma spec_and {A} (m : M A) w (Q Q' : A → World → Prop) : spec m w Q → spec m w Q' → spec m w (λ a w', Q a w' ∧ Q' a w').
Proof. done. Qed.

Lemma spec_ret {A} (a : A) w (Q : A → World → Prop) : Q a w → spec (mret a) w Q.
Proof. done. Qed.

Lemma spec_read {A} (f : World → A) w (Q : A → World → Prop) : Q (f w) w → spec (read f) w Q.
Proof. done. Qed.

Lemma spec_mono {A} (m : M A) w (Q Q' : A → World → Prop) : spec m w Q → (∀ a w', Q a w' → Q' a w') → spec m w Q'.
Proof. unfold spec. eauto. Qed.

(** [run lemma as pattern] executes the first program of a sequence. *)
Tactic Notation "run" uconstr(lemma) "as" simple_intropattern(a) simple_intropattern(w) simple_intropattern(p) :=
  apply spec_bind; eapply spec_mono; [eapply lemma|intros a w p].

(** ** Facts about responses and masks *)

Lemma first_line_unique (l l' u u' : bytes) : x0a ∉ l → x0a ∉ l' → l ++ x0a :: u = l' ++ x0a :: u' → l = l'.
Proof.
  revert l'. induction l as [|x l IH]; intros [|y l']; cbn; try done; rewrite ?not_elem_of_cons.
  - intros _ [] [=]. done.
  - intros [] _ [=]. done.
  - intros [] [] [= -> E]. f_equal. by apply IH.
Qed.

Lemma from_slots_testbit slots slot : slot ∈ slots → N.testbit (from_slots slots) (N.of_nat (slot_index slot)) = true.
Proof.
  unfold from_slots. generalize 0%N. induction slots as [|x l IH]; intros m H; [by apply not_elem_of_nil in H|].
  cbn [foldl]. apply elem_of_cons in H as [<-|H]; [|by apply IH].
  assert (∀ m, N.testbit m (N.of_nat (slot_index slot)) = true → N.testbit (foldl mask_insert m l) (N.of_nat (slot_index slot)) = true) as Hkeep.
  { clear. induction l as [|y l IH]; intros m Hm; [done|]. apply IH. unfold mask_insert. by rewrite N.lor_spec, Hm. }
  apply Hkeep. unfold mask_insert. by rewrite N.lor_spec, slot_bit_testbit, N.eqb_refl, orb_true_r.
Qed.

Section World.
Context {PL : PoolLimit}.

(** ** The invariant *)

(** A connection that may serve another request. *)
Definition reusable (c : ConnectionStream) : Prop :=
  conn_ok c ∧ phase c = PhaseComplete ∧ pending_bytes_len c = 0.

Record world_ok (w : World) : Prop := {
  wo_ids : ids_from 0 (backends (selector w));
  wo_lease : ∀ i c, lease w = Some (i, c) → reusable c;
  wo_released : ∀ i c, (i, Released, c) ∈ retired w → reusable c }.

(** A backend of the slot answered 430. *)
Definition answered_missing (w : World) (slot : AvailabilitySlot) : Prop :=
  ∃ i b status, (i, Some status) ∈ answers w ∧ as_u16 status = 430%N ∧ backends (selector w) !! i = Some b ∧
    slot_index (availability_slot b) = slot_index slot.

(** Every slot known to miss the article was known before the request or belongs
    to a backend that answered 430. *)
Definition miss_known (a0 : ArticleAvailability) (w : World) (slot : AvailabilitySlot) : Prop :=
  is_missing_slot a0 slot = true ∨ answered_missing w slot.

Definition misses_known (a0 : ArticleAvailability) (w : World) : Prop :=
  ∀ slot, is_missing_slot (availability w) slot = true → miss_known a0 w slot.

(** What a step of a request keeps. *)
Record grows (w w' : World) : Prop := {
  gr_config : same_config (selector w) (selector w');
  gr_missing : ∀ slot, is_missing_slot (availability w) slot = true → is_missing_slot (availability w') slot = true;
  gr_suppressed : ∀ i, suppressed (unavailable w) i = true → suppressed (unavailable w') i = true;
  gr_answers : ∀ x, x ∈ answers w → x ∈ answers w';
  gr_ok : world_ok w → world_ok w';
  gr_known : ∀ a0, misses_known a0 w → misses_known a0 w';
  gr_logged : ∀ key slot, OpMissing key slot ∈ cache_log w' → OpMissing key slot ∈ cache_log w ∨ answered_missing w' slot }.

Definition quiet (w w' : World) : Prop := grows w w' ∧ client w' = client w.

Lemma answered_mono w w' slot :
  same_config (selector w) (selector w') → (∀ x, x ∈ answers w → x ∈ answers w') →
  answered_missing w slot → answered_missing w' slot.
Proof.
  intros Hc Ha (i & b & st & Hin & Hst & Hb & Hs). destruct (config_lookup _ _ _ _ Hc Hb) as (b' & Hb' & Hcfg).
  exists i, b', st. unfold config in Hcfg. split_and!; auto. congruence.
Qed.

#[global] Instance grows_preorder : PreOrder grows.
Proof.
  split.
  - intros w. split; auto. done.
  - intros w1 w2 w3 H12 H23. destruct (H12) as [C1 M1 S1 A1 O1 K1 L1], (H23) as [C2 M2 S2 A2 O2 K2 L2].
    split; eauto using config_trans. intros key slot H. destruct (L2 key slot H) as [H'|]; [|by right].
    destruct (L1 key slot H') as [|]; [by left|right]. by apply (answered_mono w2).
Qed.

#[global] Instance quiet_preorder : PreOrder quiet.
Proof.
  split; [by split|]. intros w1 w2 w3 [? E1] [? E2]. split; [by etrans|by rewrite E2].
Qed.

Lemma quiet_grows w w' : quiet w w' → grows w w'.
Proof. by intros []. Qed.

(** Steps that do not touch what the invariant is about. *)
Lemma quiet_same w w' :
  same_config (selector w) (selector w') → availability w' = availability w → unavailable w' = unavailable w →
  answers w' = answers w → client w' = client w → lease w' = lease w → retired w' = retired w →
  (∀ key slot, OpMissing key slot ∈ cache_log w' → OpMissing key slot ∈ cache_log w ∨ answered_missing w' slot) → quiet w w'.
Proof.
  intros Hc Ha Hu Han Hcl Hl Hr Hlog. split; [|done]. split; rewrite ?Ha, ?Hu, ?Han; try done.
  - intros [H1 H2 H3]. split; [by eapply same_config_ids|by rewrite Hl|by rewrite Hr].
  - intros a0 H slot Hs. rewrite Ha in Hs. destruct (H slot Hs) as [?|?]; [by left|right].
    apply (answered_mono w); [done|by rewrite Han|done].
Qed.

(** ** Primitive steps *)

Lemma config_refl s : same_config s s.
Proof. done. Qed.

Lemma ask_spec {A} (q : nat → A) w : spec (ask q) w (λ a w', quiet w w' ∧ a = q (time w)).
Proof. split; [apply quiet_same; auto; done|done]. Qed.

Lemma set_selector_spec s w : same_config (selector w) s → 
  spec (set_selector s) w (λ _ w', quiet w w' ∧ selector w' = s ∧ availability w' = availability w ∧ unavailable w' = unavailable w).
Proof. intros H. split_and!; try done. apply quiet_same; auto; done. Qed.

Definition op_missing (op : CacheOp) : option AvailabilitySlot := match op with OpMissing _ slot => Some slot | _ => None end.

Lemma log_cache_spec op w :
  (∀ slot, op_missing op = Some slot → answered_missing w slot) → spec (log_cache op) w (λ _ w', quiet w w').
Proof.
  intros Hop. apply quiet_same; try done. intros key slot. cbn. rewrite elem_of_app, list_elem_of_singleton.
  intros [?|<-]; [by left|right]. apply (answered_mono w); [done|done|by apply Hop].
Qed.

Lemma log_metrics_spec l w : spec (log_metrics l) w (λ _ w', quiet w w').
Proof. apply quiet_same; auto; done. Qed.

Lemma log_prefetch_spec l w : spec (log_prefetch l) w (λ _ w', quiet w w').
Proof. apply quiet_same; auto; done. Qed.

Lemma add_request_bytes_spec n w : spec (add_request_bytes n) w (λ _ w', quiet w w').
Proof. apply quiet_same; auto; done. Qed.

Lemma add_response_bytes_spec n w : spec (add_response_bytes n) w (λ _ w', quiet w w').
Proof. apply quiet_same; auto; done. Qed.

Lemma record_completion_spec i st n w : spec (record_completion i st n) w (λ _ w', quiet w w').
Proof. apply quiet_same; auto; done. Qed.

Lemma set_client_spec wr w : spec (set_client wr) w (λ _ w', grows w w' ∧ client w' = wr).
Proof. split; [|done]. split; auto; try done. by intros []. Qed.

Lemma set_lease_spec l w :
  (∀ i c, l = Some (i, c) → reusable c) → spec (set_lease l) w (λ _ w', quiet w w').
Proof. intros Hl. split; [|done]. split; auto; try done. by intros []. Qed.

Lemma retire_spec i fate c w : (fate = Released → reusable c) → spec (retire i fate c) w (λ _ w', quiet w w').
Proof.
  intros Hf. split; [|done]. split; auto; try done. intros [H1 H2 H3]. split; try done. cbn. intros j c'.
  rewrite elem_of_app, list_elem_of_singleton. intros [H|[= -> <- ->]]; [by eapply H3|by apply Hf].
Qed.

Lemma log_answer_spec i st w : spec (log_answer i st) w (λ _ w', quiet w w' ∧ (i, st) ∈ answers w').
Proof.
  split; [|cbn; apply elem_of_app; right; by apply list_elem_of_singleton]. split; [|done]. split; auto; try done.
  - intros x Hx. cbn. apply elem_of_app. by left.
  - by intros [].
  - intros a0 H slot Hs. destruct (H slot Hs) as [?|(j & b & st' & Hin & ?)]; [by left|right].
    exists j, b, st'. split; [|done]. cbn. apply elem_of_app. by left.
Qed.

Lemma testbit_suppress bits i j : suppressed (suppress bits i) j = suppressed bits j || (i =? j).
Proof.
  unfold suppressed, suppress. pose proof (land_slot_bit (N.lor bits (backend_bit i)) (mkSlot j)) as H1.
  pose proof (land_slot_bit bits (mkSlot j)) as H2. unfold slot_bit in H1, H2. cbn [slot_index] in H1, H2. unfold backend_bit in *.
  rewrite H1, H2, N.lor_spec. f_equal. rewrite N.shiftl_1_l, N.pow2_bits_eqb.
  destruct (Nat.eqb_spec i j) as [->|]; [apply N.eqb_refl|]. apply N.eqb_neq. lia.
Qed.

Lemma suppress_backend_spec i w : spec (suppress_backend i) w (λ _ w', quiet w w' ∧ suppressed (unavailable w') i = true).
Proof.
  split; [|cbn; by rewrite testbit_suppress, Nat.eqb_refl, orb_true_r]. split; [|done]. split; auto; try done.
  - intros j Hj. cbn. by rewrite testbit_suppress, Hj.
  - by intros [].
Qed.

Lemma missing_record a s slot :
  is_missing_slot (record_missing_slot a s) slot = is_missing_slot a slot || (slot_index s =? slot_index slot).
Proof.
  unfold is_missing_slot, record_missing_slot. cbn [missing_bits]. rewrite !land_slot_bit, N.lor_spec, slot_bit_testbit. f_equal.
  destruct (Nat.eqb_spec (slot_index s) (slot_index slot)) as [->|]; [apply N.eqb_refl|]. apply N.eqb_neq. lia.
Qed.

(** A backend that answered 430 is recorded as missing the article. *)
Lemma record_missing_spec i b st w :
  (i, Some st) ∈ answers w → as_u16 st = 430%N → backends (selector w) !! i = Some b →
  spec (record_missing (availability_slot b)) w (λ _ w', quiet w w' ∧ is_missing_slot (availability w') (availability_slot b) = true).
Proof.
  intros Hin Hst Hb. split; [|cbn; by rewrite missing_record, Nat.eqb_refl, orb_true_r]. split; [|done]. split; auto; try done.
  - intros slot Hs. cbn. by rewrite missing_record, Hs.
  - by intros [].
  - intros a0 H slot. cbn. rewrite missing_record, orb_true_iff, Nat.eqb_eq. intros [Hs|Hs]; [by apply H|].
    right. by exists i, b, st.
Qed.
End World.

(** What the surroundings are assumed to do: connections from the pool have an empty
    queue, other threads only change counters and stop interfering, and
    every probe finishes. *)
Record oracle_ok `{PoolLimit} (env : Oracle) : Prop := {
  oo_checkout : ∀ n i c, checkout env n i = Some c → conn_ok c;
  oo_idle : ∀ n i c, checkout env n i = Some c → pending_bytes_len c = 0;
  oo_config : ∀ n k s, same_config s (interference env n k s);
  oo_ends : ∀ n k s, interferences env ≤ k → interference env n k s = s;
  oo_finish : ∀ n l, finish_order env n l ≡ₚ l }.

Section Handlers.
Context {MC : Memchr} {MS : MemchrSpec MC} {PL : PoolLimit} (t : target) (env : Oracle) (cfg : SessionConfig).
Variable fresh : PooledBuffer.
Hypothesis fresh_ok : buffer_ok fresh.
Hypothesis env_ok : oracle_ok env.

(** ** Connections *)

Lemma checkout_connection_spec i w :
  spec (checkout_connection env i) w (λ r w', quiet w w' ∧ ∀ c, r = Ok c → conn_ok c).
Proof.
  run ask_spec as o w1 [Hq ->]. split; [done|]. cbn. intros c. destruct (checkout env (time w) i) as [c'|] eqn:E; [|done].
  intros [= <-]. by eapply oo_checkout.
Qed.

Lemma pending_zero c : conn_ok c → has_pending_bytes c = false → pending_bytes_len c = 0.
Proof.
  unfold conn_ok, has_pending_bytes, pending_bytes_len. induction 1 as [|p l Hp _ IH]; cbn; [done|].
  intros [E1%negb_false_iff%Nat.eqb_eq E2]%orb_false_iff. rewrite IH by done. lia.
Qed.

Lemma connection_reusable c : conn_ok c → connection_reuse_after_response c = Reusable → reusable c.
Proof.
  unfold connection_reuse_after_response. intros Hc. case_bool_decide as Hp; cbn [negb]; [|done].
  destruct (has_pending_bytes c) eqn:E; [done|]. intros _. by split_and!; try apply pending_zero.
Qed.

Lemma release_or_reuse_spec i c w : conn_ok c → spec (release_or_reuse_connection i c) w (λ _ w', quiet w w').
Proof.
  intros Hc. unfold release_or_reuse_connection. pose proof (connection_reusable c Hc) as Hr.
  destruct (connection_reuse_after_response c); cbn [reuse_pool_fate]; [by apply retire_spec| |by apply retire_spec].
  specialize (Hr eq_refl). apply spec_bind, spec_read. destruct (lease w).
  - by apply retire_spec.
  - apply set_lease_spec. intros j c' [= <- <-]. done.
Qed.

Lemma handle_error_spec i c e w :
  conn_ok c →
  spec (handle_response_transfer_error i c e) w (λ r w', quiet w w' ∧ r = session_error_from_transfer e).
Proof.
  intros Hc. unfold handle_response_transfer_error. apply spec_bind.
  eapply (spec_mono _ _ (λ _ w', quiet w w')); [|intros [] w' Hq; by split].
  destruct (error_pool_fate e _) eqn:Ef.
  - apply retire_spec. intros _. assert (connection_reuse_after_response c = Reusable) as Hr
      by (by destruct e, (connection_reuse_after_response c)).
    by destruct (connection_reusable c Hc Hr) as (? & ? & ?).
  - by apply retire_spec.
  - run log_metrics_spec as [] w1 Hq. eapply spec_mono; [by apply retire_spec|]. intros [] w2 Hq2. by etrans.
Qed.

Lemma checkout_direct_spec i w :
  world_ok w →
  spec (checkout_direct_backend_connection env i) w (λ r w', quiet w w' ∧ ∀ c, r = Ok c → conn_ok c).
Proof.
  intros Hok. unfold checkout_direct_backend_connection. run ask_spec as counts w1 [Hq1 _].
  apply spec_bind, spec_read. assert (world_ok w1) as Hok1 by by apply Hq1.
  run set_lease_spec as [] w2 Hq2; [done|]. assert (quiet w w2) as Hq by by etrans.
  assert (∀ w', quiet w w' → spec (checkout_connection env i) w' (λ r w', quiet w w' ∧ ∀ c, r = Ok c → conn_ok c)) as Hco.
  { intros w' Hw'. eapply spec_mono; [apply checkout_connection_spec|]. intros r w'' [? ?]. split; [by etrans|done]. }
  destruct (lease w1) as [[j c]|] eqn:El; [|by apply Hco].
  assert (reusable c) as Hc by (by eapply wo_lease). destruct (j =? i); cbn [negb].
  2: { run retire_spec as [] w3 Hq3; [done|]. apply Hco. by etrans. }
  run ask_spec as alive w3 [Hq3 _]. assert (quiet w w3) as Hq' by by etrans. destruct alive; cbn [negb].
  2: { run retire_spec as [] w4 Hq4; [done|]. apply Hco. by etrans. }
  destruct (_ || _); [|split; [done|]; cbn; intros c' [= <-]; apply Hc].
  run set_lease_spec as [] w4 Hq4; [by intros ? ? [= <- <-]|].
  run Hco as r w5 [Hq5 Hr5]; [by etrans|]. destruct r as [c'|e]; [split; [done|]; cbn; by apply Hr5|].
  run set_lease_spec as [] w6 Hq6; [done|]. split; [by etrans|]. cbn. intros c' [= <-]. apply Hc.
Qed.

(** ** Exchanges *)

Lemma execute_and_read_spec i c request w :
  conn_ok c →
  spec (execute_and_read_response env fresh i c request) w (λ r w', quiet w w' ∧
    ∀ cl c', r = Ok (cl, c') → classified_ok request cl ∧ conn_ok c' ∧ (i, status_code cl) ∈ answers w').
Proof.
  intros Hc. unfold execute_and_read_response. run log_metrics_spec as [] w1 Hq1. run ask_spec as send w2 [Hq2 _].
  pose proof (exchange_ok fresh fresh_ok send request c Hc) as H.
  destruct (execute_request_exchange fresh send request c) as [[cl|e] c'], H as [Hc' Hcl].
  - run log_answer_spec as [] w3 [Hq3 Hin]. split; [by do 2 (etrans; [done|])|]. cbn. intros cl' c'' [= <- <-]. split_and!; auto.
  - run retire_spec as [] w3 Hq3; [done|]. split; [by do 2 (etrans; [done|])|done].
Qed.

Lemma observe_attempt_spec i request cl c w :
  classified_ok request cl → conn_ok c →
  spec (observe_attempt t fresh i cl c) w (λ r w', quiet w w' ∧
    match r with
    | Ok c' => conn_ok c'
    | Err e => ∃ e', e = BackendError (AnyTransfer e') ∧ retryable e'
    end).
Proof.
  intros Hcl Hc. unfold observe_attempt. pose proof (receiving_observe_ok t fresh i fresh_ok request cl c Hcl Hc) as H.
  destruct (receiving_observe t fresh i cl c) as [[[]|e] c'], H as [Hc' H]; [by split|].
  run retire_spec as [] w1 Hq; [done|]. split; [done|]. by exists e.
Qed.

(** A response that was read for the request, or a 430 to its probe. *)
Definition prepared (i : nat) (request : RequestContext) (w : World) (x : ClassifiedResponse * ConnectionStream) : Prop :=
  (∃ asked, classified_ok asked x.1 ∧ (asked = request ∨ is_430 (status_code x.1) = true)) ∧
  conn_ok x.2 ∧ (i, status_code x.1) ∈ answers w.

Lemma read_prepared i c request w :
  conn_ok c →
  spec (execute_and_read_response env fresh i c request) w (λ r w', quiet w w' ∧ ∀ x, r = Ok x → prepared i request w' x).
Proof.
  intros Hc. eapply spec_mono; [by apply execute_and_read_spec|]. intros r w' [Hq H]. split; [done|]. intros [cl c'] ->.
  destruct (H cl c' eq_refl) as (? & ? & ?). split_and!; [|done|done]. exists request. by auto.
Qed.

Lemma execute_attempt_spec i request retry w :
  world_ok w →
  spec (execute_backend_attempt t env cfg fresh i request retry) w (λ r w', quiet w w' ∧ ∀ x, r = Ok x → prepared i request w' x).
Proof.
  intros Hok. unfold execute_backend_attempt. run checkout_direct_spec as r w1 [Hq1 Hr1]; [done|].
  destruct r as [c|e]; [|by split]. specialize (Hr1 c eq_refl).
  assert (∀ w2 c, quiet w w2 → conn_ok c → spec (execute_and_read_response env fresh i c request) w2
    (λ r w', quiet w w' ∧ ∀ x, r = Ok x → prepared i request w' x)) as Hread.
  { intros w2 c2 Hq Hc2. eapply spec_mono; [by apply read_prepared|]. intros r w' [? ?]. split; [by etrans|done]. }
  destruct (if should_use_stat_missing_probe _ _ _ _ then _ else _) as [stat_request|]; [|by apply Hread].
  run execute_and_read_spec as probe w2 [Hq2 Hr2]; [done|]. assert (quiet w w2) as Hq by by etrans.
  destruct probe as [[cl c2]|e]; [|by split]. destruct (Hr2 cl c2 eq_refl) as (Hcl & Hc2 & Hin).
  destruct (is_430 (status_code cl)) eqn:E430.
  - split; [done|]. cbn. intros x [= <-]. split_and!; [|done|done]. exists stat_request. auto.
  - run observe_attempt_spec as r w3 [Hq3 Hr3]; [done..|]. destruct r as [c3|e]; [|split; [by etrans|done]].
    apply Hread; [by etrans|done].
Qed.

Lemma retry_once_spec {A E} (m : M (result E A)) (P : A → World → Prop) w :
  world_ok w → (∀ w, world_ok w → spec m w (λ r w', quiet w w' ∧ ∀ a, r = Ok a → P a w')) →
  spec (retry_once m) w (λ r w', quiet w w' ∧ ∀ a, r = Ok a → P a w').
Proof.
  intros Hok Hm. unfold retry_once. run Hm as r w1 [Hq1 Hr1]; [done|]. destruct r as [a|e]; [by split|].
  assert (world_ok w1) as Hok1 by by apply Hq1. run Hm as r w2 [Hq2 Hr2]; [done|].
  destruct r as [a|e']; (split; [by etrans|done]).
Qed.

Lemma prepare_spec i request retry w :
  world_ok w →
  spec (prepare_backend_attempt t env cfg fresh i request retry) w (λ r w', quiet w w' ∧
    match r with
    | None => suppressed (unavailable w') i = true
    | Some (cl, c, status) => status_code cl = Some status ∧ prepared i request w' (cl, c)
    end).
Proof.
  intros Hok. unfold prepare_backend_attempt.
  run (retry_once_spec _ (λ x w', prepared i request w' x)) as r w1 [Hq1 Hr1]; [done|intros; by apply execute_attempt_spec|].
  destruct r as [[cl c]|e].
  - run add_request_bytes_spec as [] w2 Hq2. destruct (Hr1 _ eq_refl) as (Ha & Hc & Hin).
    destruct (status_code cl) as [status|] eqn:Est.
    + split; [by etrans|]. cbn. split; [done|]. split; [done|]. split; [done|]. by apply Hq2.
    + run retire_spec as [] w3 Hq3; [done|]. run suppress_backend_spec as [] w4 [Hq4 Hs].
      split; [|done]. by do 3 (etrans; [done|]).
  - run suppress_backend_spec as [] w2 [Hq2 Hs]. split; [by etrans|done].
Qed.

(** ** Cache updates *)

Definition quietly {A} (m : M A) : Prop := ∀ w, spec m w (λ _ w', quiet w w').

Lemma quietly_ret {A} (a : A) : quietly (mret a).
Proof. intros w. apply spec_ret. reflexivity. Qed.

Lemma quietly_bind {A B} (m : M A) (f : A → M B) : quietly m → (∀ a, quietly (f a)) → quietly (m ≫= f).
Proof.
  intros Hm Hf w. run Hm as a w1 Hq1. eapply spec_mono; [apply Hf|]. intros b w2 Hq2. exact (transitivity Hq1 Hq2).
Qed.

Lemma quietly_read {A} (f : World → A) : quietly (read f).
Proof. intros w. apply spec_read. reflexivity. Qed.

Lemma quietly_ask {A} (q : nat → A) : quietly (ask q).
Proof. intros w. eapply spec_mono; [apply ask_spec|]. by intros a w' [? _]. Qed.

Lemma quietly_log_cache op : op_missing op = None → quietly (log_cache op).
Proof. intros Hop w. apply log_cache_spec. by rewrite Hop. Qed.

#[local] Hint Resolve quietly_ret quietly_read quietly_ask quietly_log_cache : quiet.

Lemma apply_cache_action_quiet action request status i captured :
  quietly (apply_cache_action env cfg action request status i captured).
Proof.
  assert (∀ op, op_missing op = None → quietly (permit ← ask (update_permit env); if (permit : bool) then log_cache op else mret ())) as Hop
    by (intros op ?; apply quietly_bind; [auto with quiet|]; intros []; auto with quiet).
  unfold apply_cache_action. apply quietly_bind; [auto with quiet|]. intros n.
  unfold upsert_framed, upsert_availability, record_stat.
  destruct action, (article_key request), captured; repeat case_match; auto with quiet.
Qed.

(** ** Delivering a response *)

(** The client got [p], a prefix of one backend's answer: all of one response, or
    nothing, or something after which nothing else may be sent. *)
Definition terminal (e : SessionError) : Prop :=
  match e with ClientDisconnect _ => True | BackendError _ => blocks_another_response e = true end.

(** A response to the request that is not a miss. *)
Definition article_response (request : RequestContext) (p : bytes) : Prop :=
  ∃ status, as_u16 status ≠ 430%N ∧ whole_response request status p.

Definition delivers {A} (request : RequestContext) (w w' : World) (r : result SessionError A) : Prop :=
  ∃ p, sent (client w') = sent (client w) ++ p ∧
    match r with
    | Ok _ => article_response request p
    | Err e => p = [] ∨ terminal e
    end.

Lemma delivers_nothing {A} request w w' e : client w' = client w → delivers request w w' (Err (A := A) e).
Proof. intros E. exists []. rewrite E, app_nil_r. auto. Qed.

(** A transfer whose success is a whole response. *)
Definition transferred_whole (request : RequestContext) (answer : option StatusCode) (stream : bytes) (w w' : Writer) (c : ConnectionStream)
    (r : result ResponseTransferError nat) : Prop :=
  transferred stream w w' c r ∧ ∀ n, r = Ok n → ∃ p status, sent w' = sent w ++ p ∧ answer = Some status ∧ whole_response request status p.

Lemma transfer_spec request action i cl c wr :
  classified_ok request cl → conn_ok c →
  ∃ r c' wr',
    (match retention_for_request request action with
     | DiscardAfterWrite => let '(r, c, wr) := receiving_write t fresh i cl c wr in ((λ n, (n, None)) <$> r, c, wr)
     | RetainAfterWrite => receiving_capture_and_write t fresh i cl c wr
     end) = (r, c', wr') ∧
    transferred_whole request (status_code cl) (visible (cl_buffer cl) ++ upcoming c) wr wr' c' (fst <$> r).
Proof.
  intros Hcl Hc. destruct (retention_for_request request action).
  - pose proof (receiving_write_spec t fresh i fresh_ok request cl c wr Hcl Hc) as Hwr.
    destruct (receiving_write t fresh i cl c wr) as [[r c'] wr'] eqn:E. do 3 eexists. split; [done|].
    split; [by destruct r|]. destruct r as [m|e]; [|done]. intros n [= <-]. by eapply receiving_write_whole in E.
  - pose proof (receiving_capture_spec t fresh i fresh_ok request cl c wr Hcl Hc) as Hca.
    destruct (receiving_capture_and_write t fresh i cl c wr) as [[r c'] wr'] eqn:E. do 3 eexists. split; [done|].
    split; [done|]. destruct r as [m|e]; [|done]. intros n [= <-]. by eapply receiving_capture_whole in E.
Qed.

Lemma write_response_spec request i cl c w :
  world_ok w → classified_ok request cl → conn_ok c → is_Some (status_code cl) →
  spec (write_response_to_client t env cfg fresh request i cl c) w (λ x w',
    grows w w' ∧ transferred_whole request (status_code cl) (visible (cl_buffer cl) ++ upcoming c) (client w) (client w') x.2 (snd <$> x.1)).
Proof.
  intros Hok Hcl Hc [status Hst]. unfold write_response_to_client. rewrite Hst. cbv zeta.
  set (action := determine_cache_action_for_request _ _ _). apply spec_bind.
  eapply (spec_mono _ _ (λ _ w', quiet w w')).
  { destruct (bool_decide _); [apply apply_cache_action_quiet|]. apply quietly_ret. }
  intros [] w1 [Hg1 Hcl1]. apply spec_bind, spec_read. rewrite <- Hcl1.
  destruct (transfer_spec request action i cl c (client w1) Hcl Hc) as (r & c' & wr & -> & Htr). rewrite Hst in Htr.
  run set_client_spec as [] w2 [Hg2 Hcl2]. destruct r as [[n captured]|e].
  - apply spec_bind. eapply (spec_mono _ _ (λ _ w', quiet w2 w')).
    { destruct (bool_decide _); [apply quietly_ret|apply apply_cache_action_quiet]. }
    intros [] w3 [Hg3 Hcl3]. split; [by do 2 (etrans; [done|])|]. cbn. by rewrite Hcl3, Hcl2.
  - split; [by etrans|]. cbn. by rewrite Hcl2.
Qed.

Lemma transfer_error_terminal stream p c e :
  transfer_outcome stream p c (Err e) → p = [] ∨ terminal (session_error_from_transfer e).
Proof.
  destruct e; cbn; auto; intros _; right; destruct (is_disconnect_kind k); done.
Qed.

Lemma client_write_terminal k : terminal (session_error_from_transfer (from_client_write k)).
Proof. unfold from_client_write. destruct (is_disconnect_kind k) eqn:E; [done|]. cbn. by rewrite E. Qed.

Lemma flush_client_spec w : spec flush_client w (λ r w', grows w w' ∧ sent (client w') = sent (client w)).
Proof.
  unfold flush_client. apply spec_bind, spec_read. assert (∀ r wr, flush (client w) = (r, wr) → sent wr = sent (client w)) as Hf.
  { unfold flush. intros r wr. destruct (outcomes (client w)) as [|[|n k] l]; by intros [= <- <-]. }
  destruct (flush (client w)) as [r wr]. run set_client_spec as [] w1 [Hg Hcl]. split; [done|]. cbn. rewrite Hcl. by eapply Hf.
Qed.

Lemma record_metrics_quiet i request status n : quietly (record_response_metrics i request status n).
Proof. apply quietly_bind; [intros w; apply log_metrics_spec|]. intros [] w. apply log_metrics_spec. Qed.

Lemma write_successful_spec request i cl c w :
  world_ok w → classified_ok request cl → conn_ok c → (∃ status, status_code cl = Some status ∧ as_u16 status ≠ 430%N) →
  spec (write_successful_backend_response t env cfg fresh request i cl c) w (λ r w', grows w w' ∧ delivers request w w' r).
Proof.
  intros Hok Hcl Hc (status & Hst & H430). unfold write_successful_backend_response.
  run write_response_spec as [r c1] w1 [Hg1 [(Hc1 & p & Hsent & Hpre & Hout) Hwhole]]; [done..|by rewrite Hst|]. cbn [fst snd] in *.
  destruct r as [[st n]|e]; cbn [fmap result_fmap snd] in Hout.
  - destruct (Hwhole _ eq_refl) as (p' & status' & Hsent' & Hst' & Hp'). assert (p' = p) as -> by (rewrite Hsent in Hsent'; by apply app_inv_head in Hsent').
    destruct Hout as (-> & _ & _). run flush_client_spec as f w2 [Hg2 Hcl2].
    assert (grows w w2) as Hg by by etrans. rewrite Hsent in Hcl2. destruct f as [[]|k].
    + run record_metrics_quiet as [] w3 [Hg3 Hcl3]. run release_or_reuse_spec as [] w4 [Hg4 Hcl4]; [done|].
      split; [by do 2 (etrans; [done|])|]. exists p. cbn. rewrite Hcl4, Hcl3. split; [done|].
      exists status'. rewrite Hst in Hst'. injection Hst' as ->. done.
    + run handle_error_spec as e w3 [[Hg3 Hcl3] ->]; [done|]. split; [by etrans|]. exists p. cbn. rewrite Hcl3.
      split; [done|]. right. apply client_write_terminal.
  - run handle_error_spec as e' w2 [[Hg2 Hcl2] ->]; [done|]. split; [by etrans|]. exists p. cbn. rewrite Hcl2.
    split; [done|]. by eapply transfer_error_terminal.
Qed.
(** ** One attempt *)

(** A backend that may still be asked. *)
Definition eligible (w : World) (b : BackendInfo) : bool := is_available (Some (availability w)) (unavailable w) b.

Definition ruled_out (i : nat) (w : World) : Prop :=
  ∀ b, backends (selector w) !! i = Some b → eligible w b = false.

Lemma ask_same {A} (q : nat → A) w :
  spec (ask q) w (λ a w', a = q (time w) ∧ selector w' = selector w ∧ availability w' = availability w ∧ unavailable w' = unavailable w ∧ quiet w w').
Proof. split_and!; try done. apply quiet_same; auto; done. Qed.

Lemma eligible_config w w' b b' :
  config b' = config b → availability w' = availability w → unavailable w' = unavailable w → eligible w' b' = eligible w b.
Proof. unfold eligible. intros Hc -> ->. by apply available_config. Qed.

Lemma route_article_spec w :
  world_ok w →
  spec (route_article env) w (λ r w', quiet w w' ∧
    ∀ i, r = Ok i → ∃ b, backends (selector w') !! i = Some b ∧ eligible w' b = true).
Proof.
  intros Hok. unfold route_article. do 3 (apply spec_bind, spec_read).
  run ask_same as r w1 (-> & Es & Ea & Eu & Hq). set (pool := pool_at env (time w)). set (itf := interference env (time w)).
  destruct (route pool itf _ 0 (selector w) _ _) as [[r s]|] eqn:Er; [|by split].
  pose proof (route_ok pool itf _ 0 _ _ _ r s (wo_ids _ Hok) (oo_config _ env_ok (time w)) Er) as H.
  pose proof (route_config pool itf _ 0 _ _ _ r s (oo_config _ env_ok (time w)) Er) as Hc.
  run set_selector_spec as [] w2 (Hq2 & E2 & Ea2 & Eu2); [by rewrite Es|]. split; [by etrans|]. cbn. intros i ->.
  destruct H as (s1 & _ & b & Hb & Hav & Hs). exists (Router.set_pending (pending_increment (pending_count b)) b).
  rewrite E2, Hs. split; [apply list_lookup_insert_eq; by eapply lookup_lt_Some|].
  rewrite (eligible_config w w2 b); [done|done|congruence|congruence].
Qed.

Lemma record_authoritative_spec request i b st w :
  (i, Some st) ∈ answers w → as_u16 st = 430%N → backends (selector w) !! i = Some b →
  spec (record_authoritative_missing request i (availability_slot b)) w (λ _ w', quiet w w' ∧
    is_missing_slot (availability w') (availability_slot b) = true).
Proof.
  intros Hin Hst Hb. unfold record_authoritative_missing. run record_missing_spec as [] w1 [Hq1 Hm]; [done..|].
  run log_metrics_spec as [] w2 Hq2. assert (quiet w w2) as Hq by by etrans.
  assert (is_missing_slot (availability w2) (availability_slot b) = true) as Hm2 by by apply Hq2.
  destruct (article_key request); [|by split]. eapply spec_mono; [apply log_cache_spec|].
  - intros slot [= <-]. apply (answered_mono w); [apply Hq..|]. by exists i, b, st.
  - intros [] w3 Hq3. split; [by etrans|]. by apply Hq3.
Qed.

Lemma lookup_grows w w' i b :
  grows w w' → backends (selector w) !! i = Some b →
  ∃ b', backends (selector w') !! i = Some b' ∧ config b' = config b.
Proof. intros Hg. apply config_lookup, Hg. Qed.

Lemma slot_of_backend w i b :
  world_ok w → backends (selector w) !! i = Some b → router_slot (selector w) i = Some (availability_slot b).
Proof. intros Hok Hb. unfold router_slot. by rewrite find_lookup, Hb by apply Hok. Qed.

(** A backend stays ruled out. *)
Lemma ineligible_grows w w' b b' :
  grows w w' → eligible w b = false → config b' = config b → eligible w' b' = false.
Proof.
  intros Hg. unfold eligible, is_available, config. intros H [= -> -> _]. apply andb_false_iff in H as [H|H].
  - apply negb_false_iff in H. by rewrite (gr_suppressed _ _ Hg _ H).
  - unfold should_try_slot in *. apply negb_false_iff in H. by rewrite (gr_missing _ _ Hg _ H), andb_false_r.
Qed.

Lemma missing_ineligible w b : is_missing_slot (availability w) (availability_slot b) = true → eligible w b = false.
Proof. unfold eligible, is_available, should_try_slot. intros ->. by rewrite andb_false_r. Qed.

Lemma suppressed_ineligible w b : suppressed (unavailable w) (backend_id b) = true → eligible w b = false.
Proof. unfold eligible, is_available. by intros ->. Qed.

(** What an attempt with backend [i] leaves behind. *)
Definition attempted (request : RequestContext) (i : nat) (w w' : World) (r : result SessionError BackendAttemptResult) : Prop :=
  grows w w' ∧
  match r with
  | Ok Success => ∃ p, sent (client w') = sent (client w) ++ p ∧ article_response request p
  | Ok NoRetryableBackend => False
  | Err e => delivers request w w' r ∧ (¬ terminal e → ruled_out i w')
  | Ok _ => sent (client w') = sent (client w) ∧ ruled_out i w'
  end.

Lemma ruled_out_grows i w w' : grows w w' → ruled_out i w → ruled_out i w'.
Proof.
  intros Hg H b' Hb'. destruct (backends (selector w) !! i) as [b|] eqn:Hb.
  - destruct (lookup_grows _ _ _ _ Hg Hb) as (b2 & Hb2 & Hc). rewrite Hb' in Hb2. injection Hb2 as ->.
    eapply ineligible_grows; [done| |done]. by apply H.
  - exfalso. destruct (gr_config _ _ Hg) as [Hc _]. apply (f_equal (.!! i)) in Hc. by rewrite !list_lookup_fmap, Hb', Hb in Hc.
Qed.

Lemma suppressed_ruled_out i w : world_ok w → suppressed (unavailable w) i = true → ruled_out i w.
Proof. intros Hok Hs b Hb. apply suppressed_ineligible. by rewrite (wo_ids _ Hok _ _ Hb). Qed.

(** A 430: the miss is recorded before the response is drained. *)
Lemma attempt_missing_spec i request asked cl c status w b :
  world_ok w → backends (selector w) !! i = Some b → classified_ok asked cl → conn_ok c →
  (i, Some status) ∈ answers w → as_u16 status = 430%N →
  spec (s ← read selector;
        match router_slot s i with
        | None => mret (Ok BackendUnavailable)
        | Some slot =>
            record_authoritative_missing request i slot;;
            conn ← observe_attempt t fresh i cl c;
            match conn with
            | Err e => mret (Err e)
            | Ok c => release_or_reuse_connection i c;; mret (Ok (ArticleNotFound i))
            end
        end) w (λ r w', attempted request i w w' r).
Proof.
  intros Hok Hb Hcl Hc Hin Hst. apply spec_bind, spec_read. rewrite (slot_of_backend _ _ _ Hok Hb).
  run record_authoritative_spec as [] w1 [[Hg1 Hc1] Hm]; [done..|].
  assert (ruled_out i w1) as Hr1.
  { intros b1 Hb1. apply missing_ineligible. destruct (lookup_grows _ _ _ _ Hg1 Hb) as (b2 & Hb2 & Hcfg).
    rewrite Hb1 in Hb2. injection Hb2 as ->. unfold config in Hcfg. injection Hcfg as _ -> _. done. }
  run observe_attempt_spec as r w2 [[Hg2 Hc2] Hr]; [done..|]. assert (grows w w2) as Hg by by etrans.
  assert (client w2 = client w) as Hcl2 by congruence. destruct r as [c2|e].
  - run release_or_reuse_spec as [] w3 [Hg3 Hc3]; [done|]. split; [by etrans|]. cbn.
    split; [by rewrite Hc3, Hcl2|]. eapply ruled_out_grows; [|done]. by etrans.
  - split; [done|]. cbn. split; [by apply delivers_nothing|]. intros _. exact (ruled_out_grows i w1 w2 Hg2 Hr1).
Qed.

Lemma attempt_backend_spec i request retry w b :
  world_ok w → backends (selector w) !! i = Some b →
  spec (attempt_backend t env cfg fresh i request retry) w (λ r w', attempted request i w w' r).
Proof.
  intros Hok Hb. unfold attempt_backend. run prepare_spec as x w1 [[Hg1 Hc1] Hx]; [done|].
  assert (world_ok w1) as Hok1 by by apply Hg1. destruct x as [[[cl c] status]|].
  2: { split; [done|]. cbn. split; [by rewrite Hc1|]. by apply suppressed_ruled_out. }
  destruct Hx as (Hst & (asked & Hcl & Hasked) & Hc & Hin). cbn [fst snd] in *. rewrite Hst in Hin, Hasked. cbn [is_430] in Hasked.
  assert (∀ r w', attempted request i w1 w' r → attempted request i w w' r) as Htrans.
  { intros r w' [Hg H]. split; [by etrans|]. unfold delivers in *. rewrite Hc1 in H. done. }
  destruct (N.eqb_spec (as_u16 status) 430) as [E|E].
  - destruct (lookup_grows _ _ _ _ Hg1 Hb) as (b1 & Hb1 & _).
    eapply spec_mono; [by eapply attempt_missing_spec|]. auto.
  - destruct Hasked as [->|?]; [|done]. run write_successful_spec as r w2 [Hg2 Hd]; [done..|by eauto|].
    destruct r as [[st n]|e].
    + destruct Hd as (p & Hs & Hw). run record_completion_spec as [] w3 [Hg3 Hc3]. apply Htrans. split; [by etrans|].
      cbn. rewrite Hc3. eauto.
    + destruct e as [k|e].
      * apply Htrans. split; [done|]. by split.
      * run suppress_backend_spec as [] w3 [[Hg3 Hc3] Hs3]. apply Htrans. split; [by etrans|]. split.
        -- unfold delivers in *. cbn. by rewrite Hc3.
        -- intros _. apply suppressed_ruled_out; [|done]. by apply Hg3, Hg2.
Qed.

(** One backend less may be asked. *)
Definition narrowed (w w' : World) : Prop :=
  ∃ i b, backends (selector w) !! i = Some b ∧ eligible w b = true ∧ ruled_out i w'.

Lemma eligible_before w w' i b' :
  grows w w' → backends (selector w') !! i = Some b' → eligible w' b' = true →
  ∃ b, backends (selector w) !! i = Some b ∧ eligible w b = true.
Proof.
  intros Hg Hb' He. destruct (backends (selector w) !! i) as [b|] eqn:Hb.
  - exists b. split; [done|]. destruct (lookup_grows _ _ _ _ Hg Hb) as (b2 & Hb2 & Hc). rewrite Hb' in Hb2. injection Hb2 as ->.
    destruct (eligible w b) eqn:E; [done|]. by rewrite (ineligible_grows _ _ _ _ Hg E Hc) in He.
  - exfalso. destruct (gr_config _ _ Hg) as [Hc _]. apply (f_equal (.!! i)) in Hc. by rewrite !list_lookup_fmap, Hb', Hb in Hc.
Qed.

Lemma finish_guard_quiet complete i : quietly (finish_guard complete i).
Proof.
  intros w. unfold finish_guard. apply spec_bind, spec_read. eapply spec_mono; [apply set_selector_spec|by intros [] w' (? & _)].
  destruct complete; by apply update_config.
Qed.

(** What the loop learns from one attempt. *)
Definition tried (request : RequestContext) (w w' : World) (r : result SessionError BackendAttemptResult) : Prop :=
  grows w w' ∧
  match r with
  | Ok Success => ∃ p, sent (client w') = sent (client w) ++ p ∧ article_response request p
  | Ok NoRetryableBackend => sent (client w') = sent (client w)
  | Err e => delivers request w w' r ∧ (¬ terminal e → narrowed w w')
  | Ok _ => sent (client w') = sent (client w) ∧ narrowed w w'
  end.

Lemma try_backend_spec request retry w :
  world_ok w → spec (try_backend_for_article t env cfg fresh request retry) w (λ r w', tried request w w' r).
Proof.
  intros Hok. unfold try_backend_for_article. run route_article_spec as r w1 [[Hg1 Hc1] Hi]; [done|].
  destruct r as [i|e]; [|split; [done|]; cbn; by rewrite Hc1]. assert (world_ok w1) as Hok1 by by apply Hg1.
  destruct (Hi i eq_refl) as (b1 & Hb1 & He1). destruct (eligible_before _ _ _ _ Hg1 Hb1 He1) as (b & Hb & He).
  apply spec_bind, spec_read. rewrite find_lookup, Hb1 by apply Hok1.
  run attempt_backend_spec as r w2 [Hg2 Hr]; [done..|]. run finish_guard_quiet as [] w3 [Hg3 Hc3].
  assert (grows w w3) as Hg by by do 2 (etrans; [done|]). split; [done|].
  assert (ruled_out i w2 → narrowed w w3) as Hn.
  { intros Hro. exists i, b. split_and!; [done|done|]. by apply (ruled_out_grows i w2). }
  cbn. unfold delivers in *. rewrite Hc3, <- Hc1. destruct r as [[]|e]; cbn; try done.
  - by destruct Hr as [? ?%Hn].
  - by destruct Hr as [? ?%Hn].
  - destruct Hr as [Hd Hro]. split; [done|]. auto.
Qed.

(** ** The number of backends left *)

Definition remaining_backends (w : World) : nat := length (filter (λ b, eligible w b = true) (backends (selector w))).

Lemma count_le {A B} (P : A → bool) (Q : B → bool) (l : list A) (k : list B) :
  length k = length l → (∀ j b, k !! j = Some b → Q b = true → ∃ a, l !! j = Some a ∧ P a = true) →
  length (filter (λ b, Q b = true) k) ≤ length (filter (λ a, P a = true) l).
Proof.
  revert k. induction l as [|x l IH]; intros [|y k] Hlen Hsub; try done.
  injection Hlen as Hlen. specialize (IH k Hlen (λ j, Hsub (S j))). rewrite !filter_cons.
  destruct (decide (Q y = true)) as [Hy|Hy].
  - destruct (Hsub 0 y eq_refl Hy) as (a & [= <-] & Hx). rewrite decide_True by done. cbn. lia.
  - destruct (decide (P x = true)); cbn; lia.
Qed.

Lemma count_less {A B} (P : A → bool) (Q : B → bool) (l : list A) (k : list B) i a :
  length k = length l → (∀ j b, k !! j = Some b → Q b = true → ∃ a, l !! j = Some a ∧ P a = true) →
  l !! i = Some a → P a = true → (∀ b, k !! i = Some b → Q b = false) →
  length (filter (λ b, Q b = true) k) < length (filter (λ a, P a = true) l).
Proof.
  revert k i. induction l as [|x l IH]; intros k i Hlen Hsub Hi Ha Hb; [done|]. destruct k as [|y k]; [done|].
  injection Hlen as Hlen. pose proof (count_le P Q l k Hlen (λ j, Hsub (S j))) as Hle. rewrite !filter_cons. destruct i as [|i].
  - injection Hi as ->. rewrite (decide_True _ _ Ha), decide_False by (by rewrite (Hb y eq_refl)). cbn. lia.
  - specialize (IH k i Hlen (λ j, Hsub (S j)) Hi Ha Hb). destruct (decide (Q y = true)) as [Hy|Hy].
    + destruct (Hsub 0 y eq_refl Hy) as (a' & [= <-] & Hx). rewrite decide_True by done. cbn. lia.
    + destruct (decide (P x = true)); cbn; lia.
Qed.

Lemma grows_length w w' : grows w w' → length (backends (selector w')) = length (backends (selector w)).
Proof. intros Hg. destruct (gr_config _ _ Hg) as [Hc _]. apply (f_equal length) in Hc. by rewrite !length_fmap in Hc. Qed.

Lemma remaining_narrowed w w' : grows w w' → narrowed w w' → remaining_backends w' < remaining_backends w.
Proof.
  intros Hg (i & b & Hb & He & Hro). apply (count_less _ _ _ _ i b); [by apply grows_length| |done|done|done].
  intros j b'. by apply eligible_before.
Qed.

Lemma remaining_grows w w' : grows w w' → remaining_backends w' ≤ remaining_backends w.
Proof. intros Hg. apply count_le; [by apply grows_length|]. intros j b'. by apply eligible_before. Qed.

(** ** Probes *)

Lemma probe_exchange_spec i stat_request w :
  spec (probe_exchange t env fresh i stat_request) w (λ o w', quiet w w' ∧ ∀ st, o = Some (Some st) → (i, Some st) ∈ answers w').
Proof.
  unfold probe_exchange. run checkout_connection_spec as conn w2 [Hq2 Hc].
  destruct conn as [c|e]; [|by split]. specialize (Hc c eq_refl). run ask_spec as send w3 [Hq3 _].
  pose proof (exchange_ok fresh fresh_ok send stat_request c Hc) as Hx.
  destruct (execute_request_exchange fresh send stat_request c) as [[cl|e] c'], Hx as [Hc' Hcl].
  2: { run retire_spec as [] w4 Hq4; [done|]. split; [|done]. by do 2 (etrans; [done|]). }
  run log_answer_spec as [] w4 [Hq4 Hin]. destruct (receiving_observe t fresh i cl c') as [[[]|e] c2];
    run retire_spec as [] w5 Hq5; try done; (split; [by do 3 (etrans; [done|])|]); cbn; [|done].
  intros st [= E]. rewrite E in Hin. by apply Hq5.
Qed.

Lemma stat_probe_spec i stat_request w :
  spec (stat_probe t env fresh i stat_request) w (λ o w', quiet w w' ∧
    ∀ j, o = ProbeMissing j → ∃ st, (j, Some st) ∈ answers w' ∧ as_u16 st = 430%N).
Proof.
  unfold stat_probe. apply spec_bind, spec_read. cbn [guard_for_manual_backend].
  run set_selector_spec as [] w1 (Hq1 & _); [by apply update_config|]. run probe_exchange_spec as o w2 [Hq2 Ho].
  apply spec_bind, spec_read. run set_selector_spec as [] w3 (Hq3 & _); [by apply update_config|].
  split; [by do 2 (etrans; [done|])|]. cbn. intros j. destruct o as [[st|]|]; cbn; [|done..].
  destruct (N.eqb_spec (as_u16 st) 430) as [E|]; [|done]. intros [= <-]. exists st. split; [|done]. apply Hq3. by apply Ho.
Qed.

Lemma prefetch_probe_quiet i stat_request msg_id w :
  world_ok w → spec (prefetch_probe t env fresh i stat_request msg_id) w (λ _ w', quiet w w').
Proof.
  intros Hok. unfold prefetch_probe. apply spec_bind, spec_read. destruct (router_slot (selector w) i) as [slot|] eqn:Es; [|done].
  unfold router_slot in Es. rewrite find_lookup in Es by apply Hok. apply fmap_Some in Es as (b & Hb & ->). cbn [guard_for_manual_backend].
  run set_selector_spec as [] w1 (Hq1 & _); [by apply update_config|]. run probe_exchange_spec as o w2 [Hq2 Ho].
  assert (quiet w w2) as Hq by by etrans. apply spec_bind.
  eapply (spec_mono _ _ (λ _ w', quiet w w')).
  - destruct o as [[st|]|], (without_brackets msg_id) as [key|]; try done. cbn. destruct (N.eqb_spec (as_u16 st) 430) as [E|]; [|done].
    eapply spec_mono; [apply log_cache_spec|intros [] w3 Hq3; by etrans]. intros slot [= <-].
    destruct (lookup_grows _ _ _ _ (quiet_grows _ _ Hq) Hb) as (b' & Hb' & Hcfg). exists i, b', st. unfold config in Hcfg.
    split_and!; [by apply Ho|done|done|congruence].
  - intros [] w3 Hq3. apply spec_bind, spec_read. eapply spec_mono; [apply set_selector_spec; by apply update_config|].
    intros [] w4 (Hq4 & _). by etrans.
Qed.

Lemma prefetch_task_quiet order stat_request msg_id w :
  world_ok w → spec (prefetch_task t env fresh order stat_request msg_id) w (λ _ w', quiet w w').
Proof.
  revert w. induction order as [|i order IH]; intros w Hok; [by apply quietly_ret|]. cbn [prefetch_task].
  run prefetch_probe_quiet as [] w1 Hq1; [done|]. eapply spec_mono; [apply IH; by apply Hq1|]. intros [] w2 Hq2. by etrans.
Qed.

Lemma probe_outcome_quiet request o w :
  world_ok w → (∀ j, o = ProbeMissing j → ∃ st, (j, Some st) ∈ answers w ∧ as_u16 st = 430%N) →
  spec (apply_probe_outcome request o) w (λ _ w', quiet w w').
Proof.
  intros Hok Ho. destruct o as [i| |i]; [|done|].
  - apply spec_bind, spec_read. destruct (router_slot (selector w) i) as [slot|] eqn:Es; [|by apply quietly_ret].
    unfold router_slot in Es. rewrite find_lookup in Es by apply Hok. apply fmap_Some in Es as (b & Hb & ->).
    destruct (Ho i eq_refl) as (st & ? & ?). eapply spec_mono; [by eapply record_authoritative_spec|]. by intros [] w' [? _].
  - eapply spec_mono; [apply suppress_backend_spec|]. by intros [] w' [? _].
Qed.

Lemma run_probes_quiet order request stat_request w :
  world_ok w → spec (run_probes t env fresh order request stat_request) w (λ _ w', quiet w w').
Proof.
  revert w. induction order as [|i order IH]; intros w Hok; [by apply quietly_ret|]. cbn [run_probes].
  run stat_probe_spec as o w1 [Hq1 Ho]. assert (world_ok w1) as Hok1 by by apply Hq1.
  run probe_outcome_quiet as [] w2 Hq2; [done..|]. eapply spec_mono; [apply IH; by apply Hq2|]. intros [] w3 Hq3.
  by do 2 (etrans; [done|]).
Qed.

Lemma sweep_quiet request w :
  world_ok w → spec (parallel_retry_stat_sweep t env cfg fresh request) w (λ _ w', quiet w w').
Proof.
  intros Hok. unfold parallel_retry_stat_sweep. destruct (_ || _); [by apply quietly_ret|].
  destruct (stat_probe_request request); [|by apply quietly_ret]. apply spec_bind, spec_read.
  destruct (_ <? 2); [by apply quietly_ret|]. run ask_spec as order w1 [Hq1 _].
  eapply spec_mono; [apply run_probes_quiet; by apply Hq1|]. intros [] w2 Hq2. by etrans.
Qed.

Lemma prefetch_quiet request : quietly (spawn_non_primary_tier_stat_prefetch cfg request).
Proof.
  unfold spawn_non_primary_tier_stat_prefetch. destruct (_ || _); [apply quietly_ret|].
  destruct (stat_probe_request request), (message_id_value request); try apply quietly_ret.
  apply quietly_bind; [apply quietly_read|]. intros l w. apply log_prefetch_spec.
Qed.

(** ** Local replies *)

Lemma write_client_spec b w :
  spec (write_client b) w (λ r w', grows w w' ∧ ∃ p, sent (client w') = sent (client w) ++ p ∧
    match r with Ok _ => p = b | Err _ => p `prefix_of` b end).
Proof.
  unfold write_client. apply spec_bind, spec_read. pose proof (write_all_spec b (client w)) as H.
  destruct (write_all b (client w)) as [[[]|k] wr]; run set_client_spec as [] w1 [Hg Hc]; (split; [done|]); cbn; rewrite Hc.
  - by exists b.
  - destruct H as (n & H & _). exists (take n b). split; [done|]. apply prefix_take.
Qed.

(** A reply of the proxy's own. *)
Definition local_reply (b : bytes) (w w' : World) (r : result SessionError unit) : Prop :=
  grows w w' ∧ ∃ p, sent (client w') = sent (client w) ++ p ∧ match r with Ok _ => p = b | Err _ => p `prefix_of` b end.

Lemma send_430_spec w : spec send_430_to_client w (λ r w', local_reply responses.NO_SUCH_ARTICLE w w' r).
Proof.
  unfold send_430_to_client. run write_client_spec as r w1 [Hg1 (p & Hs & Hp)]. destruct r as [[]|k].
  - run add_response_bytes_spec as [] w2 [Hg2 Hc2]. split; [by etrans|]. cbn. rewrite Hc2. eauto.
  - split; [done|]. cbn. eauto.
Qed.

Lemma backend_error_spec w : spec write_backend_error_response w (λ r w', local_reply responses.BACKEND_ERROR w w' r).
Proof.
  unfold write_backend_error_response. run write_client_spec as r w1 [Hg1 (p & Hs & Hp)]. destruct r as [[]|k].
  - run flush_client_spec as f w2 [Hg2 Hs2]. rewrite Hs in Hs2. assert (grows w w2) by by etrans. destruct f as [[]|k].
    + run add_response_bytes_spec as [] w3 [Hg3 Hc3]. split; [by etrans|]. cbn. rewrite Hc3. eauto.
    + split; [done|]. cbn. exists p. split; [done|]. by rewrite Hp.
  - split; [done|]. cbn. eauto.
Qed.

(** ** The loop *)

Definition exhausted (w : World) : Prop := all_exhausted (availability w) (availability_mask (selector w)) = true.

Lemma exhausted_bits a m : all_exhausted a m = true ↔ ∀ i, N.testbit m (N.of_nat i) = true → is_missing_slot a (mkSlot i) = true.
Proof.
  unfold all_exhausted, is_missing_slot. rewrite N.eqb_eq. split.
  - intros H i Hi. rewrite land_slot_bit. cbn. rewrite <- H, N.land_spec in Hi. by apply andb_true_iff in Hi as [? _].
  - intros H. apply N.bits_inj. intros i. rewrite N.land_spec. destruct (N.testbit m i) eqn:E; [|apply andb_false_r].
    rewrite andb_true_r. specialize (H (N.to_nat i)). rewrite land_slot_bit in H. cbn in H. rewrite N2Nat.id in H. auto.
Qed.

Lemma exhausted_grows w w' : grows w w' → exhausted w → exhausted w'.
Proof.
  unfold exhausted. intros Hg. destruct (gr_config _ _ Hg) as (_ & _ & ->). rewrite !exhausted_bits.
  intros H i Hi. by apply Hg, H.
Qed.

(** What the client has seen when the loop is over. *)
Definition answered_once (request : RequestContext) (w w' : World) (r : result SessionError unit) : Prop :=
  ∃ p, sent (client w') = sent (client w) ++ p ∧
    match r with
    | Ok _ => article_response request p ∨ p = responses.BACKEND_ERROR ∨ (p = responses.NO_SUCH_ARTICLE ∧ exhausted w')
    | Err e => terminal e ∨ p `prefix_of` responses.BACKEND_ERROR ∨ (p `prefix_of` responses.NO_SUCH_ARTICLE ∧ exhausted w')
    end.

(** The start of an iteration. *)
Lemma miss_is_no_article request : ¬ article_response request responses.NO_SUCH_ARTICLE.
Proof.
  intros (status & Hne & l & body & E & Hl & Hp & _).
  assert (l = bs "430 No such article" ++ [x0d]) as ->.
  { apply (first_line_unique _ _ body []); [done|apply (bool_decide_unpack _); by vm_compute|]. rewrite <- E. by vm_compute. }
  apply Hne. vm_compute in Hp. by injection Hp as <-.
Qed.

Lemma start_prefetch_quiet (b : bool) request : quietly (if b then spawn_non_primary_tier_stat_prefetch cfg request else mret ()).
Proof. destruct b; [apply prefetch_quiet|apply quietly_ret]. Qed.

Lemma start_sweep_quiet (b : bool) request w :
  world_ok w → spec (if b then parallel_retry_stat_sweep t env cfg fresh request else mret ()) w (λ _ w', quiet w w').
Proof. intros Hok. destruct b; [by apply sweep_quiet|apply quietly_ret]. Qed.

Lemma not_terminal e : terminal (BackendError e) ↔ blocks_another_response (BackendError e) = true.
Proof. done. Qed.

Lemma retry_loop_spec fuel request l w :
  world_ok w → remaining_backends w < fuel →
  spec (article_retry_loop t env cfg fresh fuel request l) w (λ o w', grows w w' ∧ ∃ r, o = Some r ∧ answered_once request w w' r).
Proof.
  revert l w. induction fuel as [|fuel IH]; intros l w Hok Hfuel; [lia|]. cbn [article_retry_loop].
  apply spec_bind, spec_read. destruct (all_exhausted _ _) eqn:Eex.
  { run send_430_spec as r w1 [Hg (p & Hs & Hp)]. split; [done|]. exists r. split; [done|]. exists p. split; [done|].
    destruct r as [[]|e]; right; right; (split; [done|]); by apply (exhausted_grows w). }
  run start_prefetch_quiet as [] w1 [Hg1 Hc1]. assert (world_ok w1) as Hok1 by by apply Hg1.
  run start_sweep_quiet as [] w2 [Hg2 Hc2]; [done|]. assert (world_ok w2) as Hok2 by by apply Hg2.
  assert (grows w w2) as Hg by by etrans. assert (client w2 = client w) as Hc by congruence.
  run try_backend_spec as r w3 [Hg3 Hr]; [done|]. assert (grows w w3) as Hg' by by etrans. unfold delivers in Hr. rewrite Hc in Hr.
  assert (∀ l, sent (client w3) = sent (client w) → narrowed w2 w3 →
    spec (article_retry_loop t env cfg fresh fuel request l) w3 (λ o w', grows w w' ∧ ∃ r, o = Some r ∧ answered_once request w w' r)) as Hnext.
  { intros l' Hs Hn. pose proof (remaining_narrowed _ _ Hg3 Hn). pose proof (remaining_grows _ _ Hg).
    eapply spec_mono; [apply IH; [by apply Hg3|lia]|]. intros o w4 [Hg4 (r' & -> & p & Hp)]. split; [by etrans|]. exists r'.
    split; [done|]. exists p. by rewrite <- Hs. }
  destruct r as [[| | |]|[k|e]].
  - apply spec_bind, spec_read. run add_response_bytes_spec as [] w4 [Hg4 Hc4]. split; [by etrans|]. eexists. split; [done|].
    cbn. destruct Hr as (p & Hs & Hp). exists p. rewrite Hc4. auto.
  - destruct Hr. by apply Hnext.
  - destruct Hr. by apply Hnext.
  - run backend_error_spec as r w4 [Hg4 (p & Hs & Hp)]. split; [by etrans|]. exists r. split; [done|]. exists p.
    rewrite <- Hr. split; [done|]. destruct r; auto.
  - destruct Hr as [(p & Hs & _) _]. split; [done|]. eexists. split; [done|]. exists p. cbn. auto.
  - destruct Hr as [(p & Hs & Hp) Hn]. destruct (blocks_another_response (BackendError e)) eqn:Eb.
    + split; [done|]. eexists. split; [done|]. exists p. auto.
    + destruct Hp as [->|Ht]; [|by rewrite not_terminal, Eb in Ht]. rewrite app_nil_r in Hs. apply Hnext; [done|].
      apply Hn. by rewrite not_terminal, Eb.
Qed.

(** ** One request *)

Lemma begin_request_spec a w :
  world_ok w → spec (begin_request a) w (λ _ w', world_ok w' ∧ selector w' = selector w ∧ client w' = client w ∧
    availability w' = a ∧ cache_log w' = cache_log w ∧ answers w' = answers w).
Proof. intros [H1 H2 H3]. by split_and!. Qed.

Lemma execute_retry_spec request a w :
  world_ok w →
  spec (execute_article_retry_loop t env cfg fresh request a) w (λ o w', world_ok w' ∧ same_config (selector w) (selector w') ∧
    misses_known (default new_availability a) w' ∧
    (∀ key slot, OpMissing key slot ∈ cache_log w' → OpMissing key slot ∈ cache_log w ∨ answered_missing w' slot) ∧
    (∀ x, x ∈ answers w → x ∈ answers w') ∧ ∃ r, o = Some r ∧ answered_once request w w' r).
Proof.
  intros Hok. run begin_request_spec as [] w1 (Hok1 & Hs1 & Hc1 & Ha1 & El1 & En1); [done|]. apply spec_bind, spec_read.
  eapply spec_mono; [apply retry_loop_spec; [done|apply Nat.lt_succ_r, length_filter]|].
  intros o w' [Hg (r & -> & p & Hp)]. split_and!.
  - by apply Hg.
  - rewrite <- Hs1. apply Hg.
  - apply Hg. intros slot Hm. left. by rewrite Ha1 in Hm.
  - rewrite <- El1. apply Hg.
  - rewrite <- En1. apply Hg.
  - exists r. split; [done|]. exists p. by rewrite <- Hc1.
Qed.

Lemma exhausted_known a0 w w' b :
  selector_ok (selector w) → same_config (selector w) (selector w') → misses_known a0 w' → exhausted w' → b ∈ backends (selector w) →
  miss_known a0 w' (availability_slot b).
Proof.
  intros Hsel Hc Hm He Hb. apply Hm. unfold exhausted in He.
  destruct Hc as (_ & _ & Hmask). rewrite Hmask, exhausted_bits in He. destruct (availability_slot b) as [n] eqn:Eb.
  apply He. rewrite (so_mask _ Hsel). apply (from_slots_testbit _ (mkSlot n)). rewrite <- Eb. by apply list_elem_of_fmap_2.
Qed.


(** C21 Misses come from backends: one is recorded in the cache only if a backend of
    its slot answered 430 to this request, and one is reported to the client only
    if, for each configured backend, the miss was known before the request or a
    backend of the same slot answered 430 to it. *)
Theorem misses_come_from_backends request a w :
  world_ok w → selector_ok (selector w) → answers w = [] →
  let '(o, w') := execute_article_retry_loop t env cfg fresh request a w in
  (∀ key slot, OpMissing key slot ∈ cache_log w' → OpMissing key slot ∈ cache_log w ∨ answered_missing w' slot) ∧
  (o = Some (Ok ()) → sent (client w') = sent (client w) ++ responses.NO_SUCH_ARTICLE →
   ∀ b, b ∈ backends (selector w) → miss_known (default new_availability a) w' (availability_slot b)).
Proof.
  intros Hok Hsel _. apply spec_let. eapply spec_mono; [by apply execute_retry_spec|]. intros o w' (_ & Hc & Hm & Hl & _ & r & -> & p & Hs & Hp).
  split; [done|].
  intros [= ->] Hs' b Hb. rewrite Hs in Hs'. apply app_inv_head in Hs' as ->. apply (exhausted_known _ w); try done.
  by destruct Hp as [Hp|[Hp|[_ He]]]; [apply miss_is_no_article in Hp|..].
Qed.

(** What the steps of a probe do to the list of retired connections. *)
Lemma set_selector_keeps s w : spec (set_selector s) w (λ _ w', retired w' = retired w ∧ time w' = time w).
Proof. done. Qed.

Lemma ask_keeps {A} (q : nat → A) w : spec (ask q) w (λ a w', retired w' = retired w ∧ a = q (time w)).
Proof. done. Qed.

Lemma checkout_keeps i w :
  spec (checkout_connection env i) w (λ r w', retired w' = retired w ∧ r = match checkout env (time w) i with Some c => Ok c | None => Err AnyConnection end).
Proof. done. Qed.

Lemma log_answer_keeps i st w : spec (log_answer i st) w (λ _ w', retired w' = retired w).
Proof. done. Qed.

Lemma retire_appends i fate c w : spec (retire i fate c) w (λ _ w', retired w' = retired w ++ [(i, fate, c)]).
Proof. done. Qed.

End Handlers.

(** ** Samples *)

(** A backend that answers an article request with a miss on its first connection
    and an article on the other, no other session, and a client that reads. *)
Definition miss_response : bytes := bs "430 none" ++ CRLF.

Definition scripted (n i : nat) : option ConnectionStream :=
  Some (mkConn [] [Data (if i =? 2 then sample_article_response else miss_response)] PhaseIdle).

Definition missing_everywhere (n i : nat) : option ConnectionStream := Some (mkConn [] [Data miss_response] PhaseIdle).

Definition sample_oracle (co : nat → nat → option ConnectionStream) : Oracle :=
  mkOracle (λ _, idle_pool) (λ _ _ s, s) 0 co (λ _, true) (λ _, Ok ()) (λ _ l, l) (λ _, true).

Definition sample_config : SessionConfig := mkSession KindAvailability mkSlot (λ _, false).

Definition sample_world : World :=
  mkWorld 0 (sample_selector LeastLoaded) new_availability 0 (mkWriter [] []) None 0 0 None [] [] [] [] [].

Lemma sample_world_ok : world_ok (PL := small_pool) sample_world.
Proof. split; [exact (so_ids _ (sample_selector_ok LeastLoaded))|done|]. intros i c H. by apply not_elem_of_nil in H. Qed.

Lemma sample_oracle_ok co : (∀ n i c, co n i = Some c → pending_input c = []) → oracle_ok (H := small_pool) (sample_oracle co).
Proof.
  intros H. split; try done; intros n i c Hc%H.
  - unfold conn_ok. rewrite Hc. constructor.
  - unfold pending_bytes_len. by rewrite Hc.
Qed.

Lemma scripted_ok : oracle_ok (H := small_pool) (sample_oracle scripted).
Proof. apply sample_oracle_ok. by intros n i c [= <-]. Qed.

Lemma missing_everywhere_ok : oracle_ok (H := small_pool) (sample_oracle missing_everywhere).
Proof. apply sample_oracle_ok. by intros n i c [= <-]. Qed.


Lemma misses_come_from_backends_witness :
  let '(o, w') := execute_article_retry_loop (MC := naive_memchr) Generic (sample_oracle missing_everywhere) sample_config small_buffer
                    sample_article None sample_world in
  o = Some (Ok ()) ∧ sent (client w') = responses.NO_SUCH_ARTICLE ∧
  ∀ b, b ∈ backends (selector sample_world) → miss_known new_availability w' (availability_slot b).
Proof.
  pose proof (misses_come_from_backends (MC := naive_memchr) (MS := naive_memchr_spec) (PL := small_pool) Generic
    (sample_oracle missing_everywhere) sample_config small_buffer small_buffer_ok missing_everywhere_ok sample_article None
    sample_world sample_world_ok (sample_selector_ok LeastLoaded) eq_refl) as H.
  destruct (execute_article_retry_loop _ _ _ _ _ _) as [o w'] eqn:E. vm_compute in E. injection E as <- <-.
  split; [reflexivity|]. split; [reflexivity|]. apply (proj2 H); reflexivity.
Defined.

