(* ===== verification/Precheck.v ===== *)
(** * Precheck: asking all backends of a tier at once

    Models [src/src/session/precheck.rs]: the adaptive precheck of STAT and HEAD
    requests, which queries the backends of one tier concurrently and answers with
    the first that has the article, and the background precheck, whose results
    only go to the cache.

    The queries of a tier run concurrently; here they run in the order in which
    they finish, which the [Oracle] of [Retry] decides.  After a hit the other
    queries of the tier go on in a task of their own ([racing_background]).
    Looking up the cache is a question to [cached]: what the cache contains at that
    time is the subject of [Cache] and [Hybrid]. *)

From S2P Require Import Prelude Protocol Request Scanner Framer Command Availability Router Article Cache Stream Transfer Exchange Isolated Retry RetryFacts.

(** ** Results *)

Inductive PrecheckHit :=
| HitPayload (response : CapturedChunkedResponse)
| HitSingleLine (line : bytes)
| HitAvailability (status : StatusCode).

Inductive DirectResponse := DirectFramed (response : CapturedChunkedResponse) | DirectSingleLine (line : bytes).

Inductive PrecheckResponse := PrecheckCached (entry : CachedArticle) | PrecheckDirect (response : DirectResponse).

Inductive QueryResult :=
| QueryFound (backend : nat) (hit : PrecheckHit)
| QueryMissing (backend : nat) (slot : AvailabilitySlot)
| QueryError.

Inductive QueryAttemptResult := AttemptFound (hit : PrecheckHit) | AttemptMissing | AttemptError.

Inductive TierQuerySummary := Exhausted (a : ArticleAvailability) | Inconclusive (a : ArticleAvailability).

(** The outcome of a race; after a hit, the backends still queried in the background. *)
Inductive RacingQueryOutcome :=
| RaceHit (backend : nat) (hit : PrecheckHit) (background : list (nat * AvailabilitySlot))
| RaceMissing
| RaceInconclusive.

Definition is_found (r : QueryResult) : bool := match r with QueryFound _ _ => true | _ => false end.

Definition summarize_tier_results (results : list QueryResult) : TierQuerySummary :=
  let '(a, exhausted) :=
    foldl (λ '(a, exhausted) r,
      match r with
      | QueryMissing _ slot => (record_missing_slot a slot, exhausted)
      | QueryFound _ _ | QueryError => (a, false)
      end) (new_availability, true) results in
  if exhausted then Exhausted a else Inconclusive a.

Definition is_exhausted (s : TierQuerySummary) : bool := match s with Exhausted _ => true | Inconclusive _ => false end.

Section Precheck.
Context {MC : Memchr} (t : target) (env : Oracle) (cfg : SessionConfig).
Variable fresh : PooledBuffer.
Variable cached : nat → bytes → option CachedArticle.

Definition will_update_cache (hit : PrecheckHit) : bool :=
  match hit with
  | HitPayload _ | HitSingleLine _ => stores_payload_responses cfg
  | HitAvailability _ => records_backend_has_status cfg
  end.

Definition cache_precheck_hit (key : bytes) (i : nat) (hit : PrecheckHit) (tier : N) : M unit :=
  if negb (will_update_cache hit) then mret ()
  else
    match hit with
    | HitPayload cap =>
        log_cache (OpIngest key (meta_status (cap_metadata cap))
                     (take (meta_status_line_end (cap_metadata cap)) (concat (cap_chunks cap)))
                     (cap_chunks cap) (cap_payload_end cap) (cache_slot cfg i) tier)
    | HitSingleLine _ => log_cache (OpStat key (cache_slot cfg i) tier)
    | HitAvailability status => log_cache (OpHasStatus key status (cache_slot cfg i) tier)
    end.

Definition record_precheck_result (key : bytes) (r : QueryResult) : M (option (nat * PrecheckHit)) :=
  match r with
  | QueryFound i hit => mret (Some (i, hit))
  | QueryMissing _ slot => log_cache (OpMissing key slot);; mret None
  | QueryError => mret None
  end.

(** ** One query *)

Definition read_complete_precheck_hit (status : StatusCode) (cl : ClassifiedResponse) (c : ConnectionStream)
    : option PrecheckHit * ConnectionStream :=
  if stores_payload_responses cfg then
    match capture_isolated_chunked_optional t fresh cl c with
    | (Ok (Some cap), c) => (Some (HitPayload cap), c)
    | (Ok None, c) => (Some (HitAvailability status), c)
    | (Err _, c) => (None, c)
    end
  else
    match observe_isolated t cl c with
    | (Ok _, c) => (Some (HitAvailability status), c)
    | (Err _, c) => (None, c)
    end.

Definition build_precheck_hit (request : RequestContext) (status : StatusCode) (cl : ClassifiedResponse) (c : ConnectionStream)
    : option PrecheckHit * ConnectionStream :=
  if has_response_body request status then read_complete_precheck_hit status cl c
  else
    match complete_single_line cl c with
    | (Ok _, c) =>
        (Some match single_line_bytes cl with Some line => HitSingleLine line | None => HitAvailability status end, c)
    | (Err _, c) => (None, c)
    end.

Definition classify_precheck_result (i : nat) (status : StatusCode) (hit : PrecheckHit) : M QueryAttemptResult :=
  log_metrics [MeCommand i];;
  let code := as_u16 status in
  if ((220 <=? code) && (code <=? 223))%N then mret (AttemptFound hit)
  else if (code =? 430)%N then log_metrics [MeError4xx i];; mret AttemptMissing
  else if ((400 <=? code) && (code <=? 499))%N then log_metrics [MeError4xx i];; mret AttemptError
  else if ((500 <=? code) && (code <=? 599))%N then log_metrics [MeError5xx i];; mret AttemptError
  else log_metrics [MeError i];; mret AttemptError.

(** [execute_backend_query]; a failed exchange drops its guard. *)
Definition execute_backend_query (i : nat) (request : RequestContext) : M (result unit QueryAttemptResult) :=
  conn ← checkout_connection env i;
  match conn with
  | Err _ => mret (Ok AttemptError)
  | Ok c =>
      send ← ask (send_to env);
      match execute_request_exchange fresh send request c with
      | (Err _, c) => retire i RemovedCooldown c;; mret (Err ())
      | (Ok cl, c) =>
          log_answer i (status_code cl);;
          match status_code cl with
          | None => retire i RemovedCooldown c;; mret (Err ())
          | Some status =>
              match build_precheck_hit request status cl c with
              | (None, c) => retire i RemovedCooldown c;; mret (Err ())
              | (Some hit, c) =>
                  r ← classify_precheck_result i status hit;
                  release i c;;
                  mret (Ok r)
              end
          end
      end
  end.

Definition query_backend (backend : nat * AvailabilitySlot) (request : RequestContext) : M QueryResult :=
  let '(i, slot) := backend in
  s ← read selector;
  match find_backend s i with
  | None => mret QueryError
  | Some _ =>
      set_selector (mark_backend_pending s i);;
      r ← retry_once (execute_backend_query i request);
      s ← read selector;
      set_selector (complete_command s i);;
      mret match r with
           | Ok (AttemptFound hit) => QueryFound i hit
           | Ok AttemptMissing => QueryMissing i slot
           | Ok AttemptError | Err _ => QueryError
           end
  end.

(** ** Tiers *)

Definition eligible_backends_in_tier (s : BackendSelector) (tier : N) (a : ArticleAvailability) : list (nat * AvailabilitySlot) :=
  omap (λ i, slot ← router_slot s i; if should_try_slot a slot then Some (i, slot) else None) (backend_ids_in_tier s tier).

(** The queries of a list of backends, with their results. *)
Fixpoint run_queries (order : list (nat * AvailabilitySlot)) (request : RequestContext) : M (list QueryResult) :=
  match order with
  | [] => mret []
  | b :: order => r ← query_backend b request; rs ← run_queries order request; mret (r :: rs)
  end.

(** The order in which the queries finish, as positions in the list of backends. *)
Definition finishing (backends : list (nat * AvailabilitySlot)) : M (list (nat * AvailabilitySlot)) :=
  order ← ask (λ n, finish_order env n (seq 0 (length backends)));
  mret (omap (λ k, backends !! k) order).

Definition query_tier_backends (request : RequestContext) (tier : N) (a : ArticleAvailability) : M (list QueryResult) :=
  s ← read selector;
  order ← finishing (eligible_backends_in_tier s tier a);
  run_queries order request.

Fixpoint query_tiers (tiers : list N) (request : RequestContext) (a : ArticleAvailability) : M (list QueryResult) :=
  match tiers with
  | [] => mret []
  | tier :: tiers =>
      results ← query_tier_backends request tier a;
      if existsb is_found results || negb (is_exhausted (summarize_tier_results results)) then mret results
      else rest ← query_tiers tiers request a; mret (results ++ rest)
  end.

Definition query_all_backends (request : RequestContext) (a : ArticleAvailability) : M (list QueryResult) :=
  s ← read selector; query_tiers (sorted_tiers s) request a.

(** The race of one tier: the first hit with the backends still running, or the
    results of all of them. *)
Fixpoint race_tier (order : list (nat * AvailabilitySlot)) (request : RequestContext) (key : bytes) (results : list QueryResult)
    : M (nat * PrecheckHit * list (nat * AvailabilitySlot) + list QueryResult) :=
  match order with
  | [] => mret (inr results)
  | b :: order =>
      r ← query_backend b request;
      match r with
      | QueryFound i hit => mret (inl (i, hit, order))
      | QueryMissing i slot => log_cache (OpMissing key slot);; race_tier order request key (results ++ [QueryMissing i slot])
      | QueryError => race_tier order request key (results ++ [QueryError])
      end
  end.

Fixpoint race_tiers (tiers : list N) (request : RequestContext) (key : bytes) (a : ArticleAvailability) : M RacingQueryOutcome :=
  match tiers with
  | [] => mret RaceMissing
  | tier :: tiers =>
      s ← read selector;
      order ← finishing (eligible_backends_in_tier s tier a);
      r ← race_tier order request key [];
      match r with
      | inl (i, hit, background) => mret (RaceHit i hit background)
      | inr results =>
          if is_exhausted (summarize_tier_results results) then race_tiers tiers request key a else mret RaceInconclusive
      end
  end.

Definition query_all_backends_racing (request : RequestContext) (key : bytes) (a : ArticleAvailability) : M RacingQueryOutcome :=
  s ← read selector; race_tiers (sorted_tiers s) request key a.

(** The task that finishes a race after its hit. *)
Fixpoint racing_background (order : list (nat * AvailabilitySlot)) (request : RequestContext) (key : bytes) : M unit :=
  match order with
  | [] => mret ()
  | b :: order =>
      r ← query_backend b request;
      found ← record_precheck_result key r;
      match found with
      | None => mret ()
      | Some (i, hit) => cache_precheck_hit key i hit 0
      end;;
      racing_background order request key
  end.

(** ** Prechecks *)

Definition lookup_cache (key : bytes) : M (option CachedArticle) := ask (λ n, cached n key).

(** The race of a precheck and what is done with its hit. *)
Definition precheck_race (request : RequestContext) (key : bytes) (a : ArticleAvailability) : M (option PrecheckResponse) :=
  outcome ← query_all_backends_racing request key a;
  match outcome with
  | RaceHit i hit _ =>
      match hit with
      | HitPayload cap =>
          if stores_payload_responses cfg then
            cache_precheck_hit key i hit 0;; e ← lookup_cache key; mret (PrecheckCached <$> e)
          else mret (Some (PrecheckDirect (DirectFramed cap)))
      | HitSingleLine line =>
          if stores_payload_responses cfg then
            cache_precheck_hit key i hit 0;; e ← lookup_cache key; mret (PrecheckCached <$> e)
          else mret (Some (PrecheckDirect (DirectSingleLine line)))
      | HitAvailability _ =>
          (if records_backend_has_status cfg then cache_precheck_hit key i hit 0 else mret ());; mret None
      end
  | RaceMissing | RaceInconclusive => mret None
  end.

Definition precheck (request : RequestContext) (key : bytes) (a : ArticleAvailability) : M (option PrecheckResponse) :=
  e ← lookup_cache key;
  if match e with Some e => is_complete_article e | None => false end then mret (PrecheckCached <$> e)
  else precheck_race request key a.

(** The results of a background precheck, the first hit last. *)
Fixpoint record_results (results : list QueryResult) (key : bytes) (found : option (nat * PrecheckHit)) : M (option (nat * PrecheckHit)) :=
  match results with
  | [] => mret found
  | r :: results =>
      hit ← record_precheck_result key r;
      match hit, found with
      | None, _ => record_results results key found
      | Some hit, None => record_results results key (Some hit)
      | Some (i, hit), Some _ => cache_precheck_hit key i hit 0;; record_results results key found
      end
  end.

(** The task of [spawn_background_precheck] *)
Definition background_precheck (request : RequestContext) (key : bytes) : M unit :=
  e ← lookup_cache key;
  if match e with Some e => is_complete_article e | None => false end then mret ()
  else
    results ← query_all_backends request match e with Some e => ca_availability e | None => new_availability end;
    found ← record_results results key None;
    match found with
    | None => mret ()
    | Some (i, hit) => if will_update_cache hit then cache_precheck_hit key i hit 0 else mret ()
    end.
End Precheck.

(** ** Facts *)

(** An exchange never adds to the queued input. *)
Lemma read_unbound_pending {MC : Memchr} fuel request b c :
  pending_bytes_len (read_unbound_loop fuel request b c).2 ≤ pending_bytes_len c.
Proof.
  revert b c. induction fuel as [|fuel IH]; intros b c; cbn [read_unbound_loop]; (destruct (parse_bytes request (visible b)) as [|[]]; [done| |done]);
    pose proof (read_more_pending b c) as H; destruct (read_more b c) as [[[[|n]|k] b'] c']; try done. cbn in H.
  etrans; [apply IH|done].
Qed.

Lemma exchange_pending {MC : Memchr} fresh send request c :
  pending_bytes_len (execute_request_exchange fresh send request c).2 ≤ pending_bytes_len c.
Proof.
  unfold execute_request_exchange. destruct send; [|done]. pose proof (read_from_pending fresh (in_flight c)) as H.
  destruct (read_from fresh (in_flight c)) as [[[[|n]|k] b] c']; try done. etrans; [apply read_unbound_pending|done].
Qed.

(** What a hit promises: a complete response of that status. *)
Definition hit_ok (request : RequestContext) (status : StatusCode) (hit : PrecheckHit) : Prop :=
  match hit with
  | HitPayload cap => whole_response request status (concat (cap_chunks cap)) ∧ cap_payload_end cap = length (concat (cap_chunks cap)) - 3
  | HitSingleLine line => whole_response request status line
  | HitAvailability st => st = status
  end.

Definition has_article (status : StatusCode) : Prop := (220 <= as_u16 status <= 223)%N.

(** The answer of backend [i] behind a hit. *)
Definition found_ok (request : RequestContext) (w : World) (i : nat) (hit : PrecheckHit) : Prop :=
  ∃ status, (i, Some status) ∈ answers w ∧ has_article status ∧ hit_ok request status hit.

(** The backend has the slot. *)
Definition registered (w : World) (b : nat * AvailabilitySlot) : Prop :=
  ∃ info, backends (selector w) !! b.1 = Some info ∧ slot_index (availability_slot info) = slot_index b.2.

Section PrecheckFacts.
Context {MC : Memchr} {MS : MemchrSpec MC} {PL : PoolLimit} (t : target) (env : Oracle) (cfg : SessionConfig).
Variable fresh : PooledBuffer.
Variable cached : nat → bytes → option CachedArticle.
Hypothesis fresh_ok : buffer_ok fresh.
Hypothesis env_ok : oracle_ok env.

Lemma registered_grows w w' b : grows w w' → registered w b → registered w' b.
Proof.
  intros Hg (info & Hi & Hs). destruct (lookup_grows _ _ _ _ Hg Hi) as (info' & Hi' & Hcfg). exists info'. split; [done|].
  unfold config in Hcfg. congruence.
Qed.

Lemma found_grows request w w' i hit : grows w w' → found_ok request w i hit → found_ok request w' i hit.
Proof. intros Hg (st & Hin & H). exists st. split; [by apply Hg|done]. Qed.

Lemma checkout_idle_spec i w :
  spec (checkout_connection env i) w (λ r w', quiet w w' ∧ ∀ c, r = Ok c → conn_ok c ∧ pending_bytes_len c = 0).
Proof.
  run ask_spec as o w1 [Hq ->]. split; [done|]. cbn. intros c. destruct (checkout env (time w) i) as [c'|] eqn:E; [|done].
  intros [= <-]. split; [by eapply oo_checkout|by eapply oo_idle].
Qed.

Lemma status_line_read request cl status : classified_ok request cl → status_code cl = Some status → line_read cl.
Proof.
  intros Hcl Hst. pose proof (classified_cases request cl Hcl) as H. unfold line_read, status_code in *.
  destruct (cl_frame cl) as [[]|]; [..|done]; destruct H as (l & u & -> & _); apply elem_of_app; right; by left.
Qed.

Lemma build_precheck_hit_spec request status cl c :
  classified_ok request cl → conn_ok c → status_code cl = Some status →
  match build_precheck_hit t cfg fresh request status cl c with
  | (Some hit, c') => conn_ok c' ∧ phase c' = PhaseComplete ∧ pending_bytes_len c' ≤ pending_bytes_len c ∧ hit_ok request status hit
  | (None, c') => conn_ok c'
  end.
Proof.
  intros Hcl Hc Hst. assert (Hline := status_line_read _ _ _ Hcl Hst). unfold build_precheck_hit, read_complete_precheck_hit.
  destruct (has_response_body request status); [destruct (stores_payload_responses cfg)|].
  - pose proof (capture_chunked_optional_spec t fresh fresh_ok request cl c Hcl Hline Hc) as H.
    destruct (capture_isolated_chunked_optional t fresh cl c) as [[[cap|]|e] c']; [..|by destruct H];
      destruct H as (r & (st & Hst' & Hw & _ & ? & ? & ? & _) & Hr); simplify_eq; split_and!; try done; destruct Hr as (<- & ? & _); by split.
  - pose proof (observe_isolated_spec t request cl c Hcl Hline Hc) as H.
    destruct (observe_isolated t cl c) as [[[]|e] c']; [|by destruct H]. destruct H as (r & st & _ & _ & _ & ? & ? & ? & _). done.
  - pose proof (complete_single_line_spec request cl c Hcl Hc) as H. destruct (complete_single_line cl c) as [[[]|e] c']; [|done].
    destruct H as [(st & Hst' & Hw & _ & ? & ? & ? & _) ->]. simplify_eq. done.
Qed.

Lemma classify_precheck_spec i status hit w :
  spec (classify_precheck_result i status hit) w (λ r w', quiet w w' ∧
    match r with AttemptFound hit' => hit' = hit ∧ has_article status | AttemptMissing => as_u16 status = 430%N | AttemptError => True end).
Proof.
  unfold classify_precheck_result. run log_metrics_spec as [] w1 Hq1. destruct (_ && _) eqn:E1.
  { split; [done|]. split; [done|]. apply andb_true_iff in E1 as [?%N.leb_le ?%N.leb_le]. done. }
  destruct (N.eqb_spec (as_u16 status) 430) as [E|E]; [run log_metrics_spec as [] w2 Hq2; split; [by etrans|done]|].
  clear E1. destruct (_ && _); [|destruct (_ && _)]; run log_metrics_spec as [] w2 Hq2; (split; [by etrans|done]).
Qed.

(** What one attempt at backend [i] reports. *)
Definition attempt_ok (request : RequestContext) (i : nat) (w : World) (r : QueryAttemptResult) : Prop :=
  match r with
  | AttemptFound hit => found_ok request w i hit
  | AttemptMissing => ∃ status, (i, Some status) ∈ answers w ∧ as_u16 status = 430%N
  | AttemptError => True
  end.

Lemma execute_backend_query_spec i request w :
  spec (execute_backend_query t env cfg fresh i request) w (λ r w', quiet w w' ∧ ∀ a, r = Ok a → attempt_ok request i w' a).
Proof.
  unfold execute_backend_query. run checkout_idle_spec as conn w1 [Hq1 Hc]. destruct conn as [c|e]; [|by split; [|intros ? [= <-]]].
  destruct (Hc c eq_refl) as [Hcok Hidle]. run ask_spec as send w2 [Hq2 _].
  pose proof (exchange_ok fresh fresh_ok send request c Hcok) as Hx. pose proof (exchange_pending fresh send request c) as Hp.
  destruct (execute_request_exchange fresh send request c) as [[cl|e] c1], Hx as [Hc1 Hcl]; cbn in Hp.
  2: { run retire_spec as [] w3 Hq3; [done|]. split; [|done]. by do 2 (etrans; [done|]). }
  specialize (Hcl cl eq_refl). run log_answer_spec as [] w3 [Hq3 Hin]. assert (quiet w w3) as Hq by by do 2 (etrans; [done|]).
  destruct (status_code cl) as [status|] eqn:Hst.
  2: { run retire_spec as [] w4 Hq4; [done|]. split; [|done]. by etrans. }
  pose proof (build_precheck_hit_spec request status cl c1 Hcl Hc1 Hst) as H.
  destruct (build_precheck_hit t cfg fresh request status cl c1) as [[hit|] c2].
  2: { run retire_spec as [] w4 Hq4; [done|]. split; [|done]. by etrans. }
  destruct H as (Hc2 & Hph & Hp2 & Hhit). run classify_precheck_spec as r w4 [Hq4 Hr].
  unfold release. run retire_spec as [] w5 Hq5; [intros _; split_and!; [done|done|lia]|].
  split; [by do 2 (etrans; [done|])|]. cbn. intros a [= <-]. assert ((i, Some status) ∈ answers w5) by by apply Hq5, Hq4.
  destruct r as [hit'| |]; cbn; [destruct Hr as [-> ?]|..|done]; by exists status.
Qed.

(** A program whose result is right whatever it is tried for. *)
Lemma query_retry_spec {A E} (m : M (result E A)) (P : World → A → Prop) w :
  (∀ w, spec m w (λ r w', quiet w w' ∧ ∀ a, r = Ok a → P w' a)) →
  spec (retry_once m) w (λ r w', quiet w w' ∧ ∀ a, r = Ok a → P w' a).
Proof.
  intros Hm. unfold retry_once. apply spec_bind. eapply spec_mono; [apply Hm|]. intros r w1 [Hq1 Hr]. destruct r as [a|e]; [by split|].
  apply spec_bind. eapply spec_mono; [apply Hm|]. intros r w2 [Hq2 Hr2]. destruct r as [a|e']; (split; [by etrans|]); [done|by intros].
Qed.

Definition query_ok (request : RequestContext) (b : nat * AvailabilitySlot) (w : World) (r : QueryResult) : Prop :=
  match r with
  | QueryFound i hit => i = b.1 ∧ found_ok request w i hit
  | QueryMissing i slot => (i, slot) = b ∧ answered_missing w slot
  | QueryError => True
  end.

Lemma query_backend_spec b request w :
  registered w b → spec (query_backend t env cfg fresh b request) w (λ r w', quiet w w' ∧ query_ok request b w' r).
Proof.
  intros Hreg. destruct b as [i slot]. cbn [query_backend]. apply spec_bind, spec_read. destruct (find_backend (selector w) i); [|done].
  run set_selector_spec as [] w1 (Hq1 & _); [by apply update_config|]. apply spec_bind.
  eapply spec_mono; [apply (query_retry_spec _ (λ w', attempt_ok request i w')); intros w'; apply execute_backend_query_spec|].
  intros r w2 [Hq2 Hr]. apply spec_bind, spec_read. run set_selector_spec as [] w3 (Hq3 & _); [by apply update_config|].
  assert (quiet w w3) as Hq by by do 2 (etrans; [done|]). split; [done|]. apply quiet_grows in Hq, Hq3.
  destruct r as [[hit| |]|e]; cbn; try done.
  - split; [done|]. apply (found_grows _ w2); [done|]. by apply (Hr (AttemptFound hit)).
  - split; [done|]. destruct (Hr AttemptMissing eq_refl) as (st & Hin & Hst). destruct (registered_grows _ _ _ Hq Hreg) as (info & Hi & Hs).
    exists i, info, st. split_and!; [by apply Hq3|done..].
Qed.

(** ** Tiers *)

Lemma tier_registered w tier a : world_ok w → Forall (registered w) (eligible_backends_in_tier (selector w) tier a).
Proof.
  intros Hok. apply Forall_forall. intros [i slot] (j & _ & Hj)%list_elem_of_omap. apply bind_Some in Hj as (sl & Hsl & Hj).
  destruct (should_try_slot a sl); [|done]. injection Hj as -> ->. unfold router_slot in Hsl. rewrite find_lookup in Hsl by apply Hok.
  apply fmap_Some in Hsl as (info & Hi & ->). by exists info.
Qed.

Lemma finishing_spec l w : spec (finishing env l) w (λ order w', quiet w w' ∧ ∀ b, b ∈ order → b ∈ l).
Proof.
  run ask_spec as order w1 [Hq ->]. split; [done|]. cbn. intros b (k & _ & Hk)%list_elem_of_omap. by eapply list_elem_of_lookup_2.
Qed.

Lemma tier_order_spec tier a w :
  world_ok w → spec (finishing env (eligible_backends_in_tier (selector w) tier a)) w (λ order w', quiet w w' ∧ Forall (registered w') order).
Proof.
  intros Hok. eapply spec_mono; [apply finishing_spec|]. intros order w' [Hq Hin]. split; [done|].
  apply Forall_forall. intros b Hb%Hin. eapply registered_grows; [by apply quiet_grows|].
  pose proof (tier_registered w tier a Hok) as H. rewrite Forall_forall in H. auto.
Qed.

Lemma Forall_registered w w' l : grows w w' → Forall (registered w) l → Forall (registered w') l.
Proof. intros Hg H. eapply Forall_impl; [exact H|]. intros b. by apply registered_grows. Qed.

Definition result_ok (request : RequestContext) (w : World) (r : QueryResult) : Prop :=
  match r with
  | QueryFound i hit => found_ok request w i hit
  | QueryMissing i slot => answered_missing w slot
  | QueryError => True
  end.

Lemma query_result request b w r : query_ok request b w r → result_ok request w r.
Proof. destruct r; cbn; [by intros [_ ?]..|done]. Qed.

Lemma result_grows request w w' r : grows w w' → result_ok request w r → result_ok request w' r.
Proof.
  intros Hg. destruct r; cbn; [by apply found_grows| |done]. apply answered_mono; apply Hg.
Qed.

Lemma run_queries_spec order request w :
  Forall (registered w) order → spec (run_queries t env cfg fresh order request) w (λ rs w', quiet w w' ∧ Forall (result_ok request w') rs).
Proof.
  revert w. induction order as [|b order IH]; intros w Hreg; [by split|]. apply Forall_cons in Hreg as [Hb Hreg]. cbn [run_queries].
  run query_backend_spec as r w1 [Hq1 Hr]; [done|]. apply spec_bind. eapply spec_mono; [apply IH; by eapply Forall_registered; [apply quiet_grows|]|].
  intros rs w2 [Hq2 Hrs]. split; [by etrans|]. constructor; [|done]. eapply result_grows; [by apply quiet_grows|]. by eapply query_result.
Qed.

Lemma query_tiers_spec tiers request a w :
  world_ok w → spec (query_tiers t env cfg fresh tiers request a) w (λ rs w', quiet w w' ∧ Forall (result_ok request w') rs).
Proof.
  revert w. induction tiers as [|tier tiers IH]; intros w Hok; [by split|]. cbn [query_tiers]. apply spec_bind.
  eapply (spec_mono _ _ (λ rs w', quiet w w' ∧ Forall (result_ok request w') rs)).
  { unfold query_tier_backends. apply spec_bind, spec_read. run tier_order_spec as order w1 [Hq1 Hord]; [done|].
    eapply spec_mono; [by apply run_queries_spec|]. intros rs w2 [Hq2 Hrs]. split; [by etrans|done]. }
  intros rs w1 [Hq1 Hrs]. destruct (_ || _); [by split|]. apply spec_bind. eapply spec_mono; [apply IH; by apply Hq1|].
  intros rest w2 [Hq2 Hrest]. split; [by etrans|]. apply Forall_app. split; [|done].
  eapply Forall_impl; [done|]. intros r. by apply result_grows, quiet_grows.
Qed.

Lemma race_tier_spec order request key results w :
  Forall (registered w) order →
  spec (race_tier t env cfg fresh order request key results) w (λ r w', quiet w w' ∧
    match r with inl (i, hit, background) => found_ok request w' i hit ∧ Forall (registered w') background | inr _ => True end).
Proof.
  revert results w. induction order as [|b order IH]; intros results w Hreg; [by split|]. apply Forall_cons in Hreg as [Hb Hreg]. cbn [race_tier].
  run query_backend_spec as r w1 [Hq1 Hr]; [done|]. assert (Forall (registered w1) order) as Hreg1 by by eapply Forall_registered; [apply quiet_grows|].
  destruct r as [i hit|i slot|]; cbn in Hr.
  - destruct Hr as [_ Hr]. by split_and!.
  - destruct Hr as [_ Hr]. run log_cache_spec as [] w2 Hq2; [by intros ? [= <-]|].
    eapply spec_mono; [apply IH; by eapply Forall_registered; [apply quiet_grows|]|]. intros r w3 [Hq3 H]. split; [by do 2 (etrans; [done|])|done].
  - eapply spec_mono; [by apply IH|]. intros r w2 [Hq2 H]. split; [by etrans|done].
Qed.

Definition race_ok (request : RequestContext) (w : World) (o : RacingQueryOutcome) : Prop :=
  match o with RaceHit i hit background => found_ok request w i hit ∧ Forall (registered w) background | _ => True end.

Lemma race_tiers_spec tiers request key a w :
  world_ok w → spec (race_tiers t env cfg fresh tiers request key a) w (λ o w', quiet w w' ∧ race_ok request w' o).
Proof.
  revert w. induction tiers as [|tier tiers IH]; intros w Hok; [by split|]. cbn [race_tiers]. apply spec_bind, spec_read.
  run tier_order_spec as order w1 [Hq1 Hord]; [done|]. run race_tier_spec as r w2 [Hq2 Hr]; [done|]. assert (quiet w w2) as Hq by by etrans.
  destruct r as [[[i hit] background]|results]; [by split|]. destruct (is_exhausted _); [|by split].
  eapply spec_mono; [apply IH; by apply Hq|]. intros o w3 [Hq3 Ho]. split; [by etrans|done].
Qed.

Lemma cache_precheck_hit_quiet key i hit tier : quietly (cache_precheck_hit cfg key i hit tier).
Proof. unfold cache_precheck_hit. destruct (negb _); [apply quietly_ret|]. destruct hit; by apply quietly_log_cache. Qed.

Lemma record_result_spec request key r w :
  result_ok request w r → spec (record_precheck_result key r) w (λ _ w', quiet w w').
Proof.
  destruct r as [i hit|i slot|]; cbn; [done|intros Hr|done]. run log_cache_spec as [] w1 Hq1; [by intros ? [= <-]|done].
Qed.

Lemma racing_background_quiet order request key w :
  Forall (registered w) order → spec (racing_background t env cfg fresh order request key) w (λ _ w', quiet w w').
Proof.
  revert w. induction order as [|b order IH]; intros w Hreg; [done|]. apply Forall_cons in Hreg as [Hb Hreg]. cbn [racing_background].
  run query_backend_spec as r w1 [Hq1 Hr]; [done|]. run record_result_spec as found w2 Hq2; [by eapply query_result|]. apply spec_bind.
  eapply (spec_mono _ _ (λ _ w', quiet w2 w')).
  { destruct found as [[i hit]|]; [apply cache_precheck_hit_quiet|apply quietly_ret]. }
  intros [] w3 Hq3. assert (quiet w w3) as Hq by (etrans; [exact Hq1|]; etrans; [exact Hq2|exact Hq3]).
  eapply spec_mono; [apply IH; by eapply Forall_registered; [apply quiet_grows|]|]. intros [] w4 Hq4. by etrans.
Qed.

(** ** Prechecks *)

Definition direct_ok (request : RequestContext) (d : DirectResponse) : Prop :=
  ∃ status, has_article status ∧
    whole_response request status match d with DirectFramed cap => concat (cap_chunks cap) | DirectSingleLine line => line end.

Definition precheck_ok (request : RequestContext) (key : bytes) (o : option PrecheckResponse) : Prop :=
  match o with
  | None => True
  | Some (PrecheckCached e) => ∃ n, cached n key = Some e
  | Some (PrecheckDirect d) => direct_ok request d
  end.

Lemma lookup_cache_spec key w : spec (lookup_cache cached key) w (λ o w', quiet w w' ∧ ∀ e, o = Some e → ∃ n, cached n key = Some e).
Proof. eapply spec_mono; [apply ask_spec|]. intros o w1 [Hq ->]. split; [done|]. eauto. Qed.

Lemma cache_then_lookup request key i hit w :
  spec (cache_precheck_hit cfg key i hit 0;; e ← lookup_cache cached key; mret (PrecheckCached <$> e)) w
    (λ o w', quiet w w' ∧ precheck_ok request key o).
Proof.
  run cache_precheck_hit_quiet as [] w1 Hq1. run lookup_cache_spec as e w2 [Hq2 He]. apply spec_ret. split; [by etrans|].
  destruct e as [e|]; [exact (He e eq_refl)|done].
Qed.

Lemma precheck_race_spec request key a w :
  world_ok w → spec (precheck_race t env cfg fresh cached request key a) w (λ o w', quiet w w' ∧ precheck_ok request key o).
Proof.
  intros Hok. unfold precheck_race, query_all_backends_racing. apply spec_bind. apply spec_bind, spec_read.
  eapply spec_mono; [by apply race_tiers_spec|]. intros o w1 [Hq1 Ho]. destruct o as [i hit background| |]; [|by split..].
  destruct Ho as [(st & _ & Hhas & Hhit) _].
  assert (∀ (m : M (option PrecheckResponse)), spec m w1 (λ o w', quiet w1 w' ∧ precheck_ok request key o) →
    spec m w1 (λ o w', quiet w w' ∧ precheck_ok request key o)) as Hm.
  { intros m H. eapply spec_mono; [exact H|]. intros o w2 [? ?]. split; [by etrans|done]. }
  destruct hit as [cap|line|st']; cbn in Hhit.
  - destruct (stores_payload_responses cfg); [apply Hm, cache_then_lookup|]. split; [done|]. exists st. by destruct Hhit.
  - destruct (stores_payload_responses cfg); [apply Hm, cache_then_lookup|]. split; [done|]. by exists st.
  - apply Hm, spec_bind. eapply (spec_mono _ _ (λ _ w', quiet w1 w')); [|by intros [] w2 Hq2].
    destruct (records_backend_has_status cfg); [apply cache_precheck_hit_quiet|apply quietly_ret].
Qed.

Lemma precheck_spec request key a w :
  world_ok w → spec (precheck t env cfg fresh cached request key a) w (λ o w', quiet w w' ∧ precheck_ok request key o).
Proof.
  intros Hok. unfold precheck. run lookup_cache_spec as e w1 [Hq1 He]. destruct e as [e|]; [destruct (is_complete_article e)|].
  - split; [done|]. by apply He.
  - eapply spec_mono; [apply precheck_race_spec; by apply Hq1|]. intros o w2 [Hq2 Ho]. split; [by etrans|done].
  - eapply spec_mono; [apply precheck_race_spec; by apply Hq1|]. intros o w2 [Hq2 Ho]. split; [by etrans|done].
Qed.

Lemma record_results_quiet request results key found w :
  Forall (result_ok request w) results → spec (record_results cfg results key found) w (λ _ w', quiet w w').
Proof.
  revert found w. induction results as [|r results IH]; intros found w Hrs; [done|]. apply Forall_cons in Hrs as [Hr Hrs]. cbn [record_results].
  run record_result_spec as hit w1 Hq1; [done|].
  assert (∀ w', grows w w' → Forall (result_ok request w') results) as Hrs'.
  { intros w' Hg. eapply Forall_impl; [done|]. intros r'. by apply result_grows. }
  destruct hit as [[i hit]|]; [destruct found as [f|]|].
  - run cache_precheck_hit_quiet as [] w2 Hq2. assert (quiet w w2) as Hq by by etrans.
    eapply spec_mono; [apply IH, Hrs'; by apply quiet_grows|]. intros o w3 Hq3. by etrans.
  - eapply spec_mono; [apply IH, Hrs'; by apply quiet_grows|]. intros o w3 Hq3. by etrans.
  - eapply spec_mono; [apply IH, Hrs'; by apply quiet_grows|]. intros o w3 Hq3. by etrans.
Qed.

Lemma background_precheck_quiet request key w :
  world_ok w → spec (background_precheck t env cfg fresh cached request key) w (λ _ w', quiet w w').
Proof.
  intros Hok. unfold background_precheck. run lookup_cache_spec as e w1 [Hq1 _]. destruct (match e with Some _ => _ | None => _ end); [done|].
  apply spec_bind. unfold query_all_backends. apply spec_bind, spec_read. eapply spec_mono; [apply query_tiers_spec; by apply Hq1|].
  intros rs w2 [Hq2 Hrs]. run record_results_quiet as found w3 Hq3; [done|]. assert (quiet w w3) as Hq by by do 2 (etrans; [done|]).
  destruct found as [[i hit]|]; [destruct (will_update_cache cfg hit)|]; [|done..].
  eapply spec_mono; [apply cache_precheck_hit_quiet|]. intros [] w4 Hq4. by etrans.
Qed.
End PrecheckFacts.
