(* ===== verification/Serve.v ===== *)
(** * Serve: one forwarded request from cache lookup to answer

    Models the way of a forwarded request through
    [src/src/session/handlers/article_retry.rs] ([route_and_execute_request],
    [prepare_request_execution], [try_adaptive_precheck]) and
    [src/src/session/handlers/cache_operations.rs] ([try_serve_from_cached],
    [write_cached_article_response]): it is answered from the cache, by an adaptive
    precheck, or by the retry loop of [Retry].

    The entries the cache returns are answers of [cached], as in [Precheck].  Tasks
    that are spawned on the way ([background_precheck], [prefetch_task]) are
    programs of their own. *)

From S2P Require Import Prelude Protocol Request Scanner Framer Tracker Command Availability Router Article Cache Stream Transfer Exchange Isolated Retry RetryFacts Precheck.

Inductive CacheLookupResult := LookupHit | LookupPartialHit | LookupMiss.

Inductive PreparedRequest := Served | ContinueWith (availability : option ArticleAvailability).

(** [RequestContext::cache_availability] as the availability of the retry loop. *)
Definition request_cache_availability (request : RequestContext) : option ArticleAvailability :=
  (λ e, from_missing_bits (missing_bits_of (entry_availability e))) <$> cache_entry request.

(** The key under which the article of a message-id is cached.  The source takes
    [message_id], which for a parsed request is the validated one, see
    [span_ok_message_id_value]. *)
Definition request_key (request : RequestContext) : option bytes := m ← message_id_value request; without_brackets m.

Section Serve.
Context {MC : Memchr} (t : target) (env : Oracle) (cfg : SessionConfig).
Variable fresh : PooledBuffer.
Variable cached : nat → bytes → option CachedArticle.
Variable adaptive_precheck : bool.

(** [write_cached_article_response] *)
Definition write_cached_article_response (e : CachedArticle) (k : RequestKind) (mid : bytes)
    : M (result ErrorKind (option (StatusCode * nat))) :=
  match cached_response_for e k mid with
  | None => mret (Ok None)
  | Some wire =>
      r ← write_client (write_to wire);
      match r with
      | Err k => mret (Err k)
      | Ok _ =>
          f ← flush_client;
          match f with
          | Err k => mret (Err k)
          | Ok _ => mret (Ok (Some (wire_status_code wire, wire_len wire)))
          end
      end
  end.

(** [try_serve_from_cached], with the request and what it records.  In the mode
    without payloads a STAT may spawn [background_precheck]. *)
Definition try_serve_from_cached (request : RequestContext) (entry : option CachedArticle)
    : M (result SessionError CacheLookupResult * RequestContext) :=
  match message_id_value request, entry with
  | None, _ | Some _, None => mret (Ok LookupMiss, record_cache_status Miss request)
  | Some mid, Some e =>
      let request := record_cache_entry_metadata (request_cache_metadata e (ca_availability e)) request in
      if negb (stores_payload_responses cfg) then mret (Ok LookupPartialHit, record_cache_status PartialHit request)
      else
        r ← write_cached_article_response e (kind request) (message_id_str mid);
        match r with
        | Err k => mret (Err (io_error k), request)
        | Ok None => mret (Ok LookupPartialHit, record_cache_status PartialHit request)
        | Ok (Some (status, n)) =>
            add_response_bytes n;;
            mret (Ok LookupHit, record_cache_response (mkResponseMetadata status n) request)
        end
  end.

(** [write_precheck_direct_response] *)
Definition write_precheck_direct_response (response : DirectResponse) : M (result SessionError nat) :=
  let bytes := match response with DirectFramed cap => concat (cap_chunks cap) | DirectSingleLine line => line end in
  r ← write_client bytes;
  match r with
  | Err k => mret (Err (io_error k))
  | Ok _ =>
      f ← flush_client;
      match f with
      | Err k => mret (Err (io_error k))
      | Ok _ => mret (Ok (length bytes))
      end
  end.

Definition try_adaptive_precheck (request : RequestContext) (availability : option ArticleAvailability) : M (result SessionError bool) :=
  if negb adaptive_precheck || negb (bool_decide (kind request = Stat) || bool_decide (kind request = Head)) then mret (Ok false)
  else if bool_decide (kind request = Head) && negb (stores_payload_responses cfg) then mret (Ok false)
  else
    match message_id_value request, request_key request, availability with
    | Some mid, Some key, Some a =>
        response ← precheck t env cfg fresh cached request key a;
        match response with
        | None => mret (Ok false)
        | Some (PrecheckCached e) =>
            r ← write_cached_article_response e (kind request) (message_id_str mid);
            match r with
            | Err k => mret (Err (io_error k))
            | Ok None => mret (Ok false)
            | Ok (Some (_, n)) => add_response_bytes n;; mret (Ok true)
            end
        | Some (PrecheckDirect d) =>
            r ← write_precheck_direct_response d;
            match r with
            | Err e => mret (Err e)
            | Ok n => add_response_bytes n;; mret (Ok true)
            end
        end
    | _, _, _ => mret (Ok false)
    end.

(** [prepare_request_execution]; the prefetch is for a request that begins. *)
Definition prepare_request_execution (request : RequestContext) (entry : option CachedArticle)
    : M (result SessionError PreparedRequest * RequestContext) :=
  '(looked_up, request) ← try_serve_from_cached request entry;
  match looked_up with
  | Err e => mret (Err e, request)
  | Ok LookupHit => mret (Ok Served, request)
  | Ok found =>
      let availability :=
        match found with LookupPartialHit => request_cache_availability request | _ => None end in
      let availability :=
        match availability, entry, message_id_value request with
        | Some a, _, _ => Some a
        | None, Some e, _ => Some (ca_availability e)
        | None, None, Some _ => Some new_availability
        | None, None, None => None
        end in
      match availability with
      | Some a => begin_request a;; spawn_non_primary_tier_stat_prefetch cfg request
      | None => mret ()
      end;;
      served ← try_adaptive_precheck request availability;
      mret (match served with
            | Err e => Err e
            | Ok true => Ok Served
            | Ok false => Ok (ContinueWith availability)
            end, request)
  end.

(** [route_and_execute_request] *)
Definition route_and_execute_request (request : RequestContext) : M (option (result SessionError unit)) :=
  entry ← match request_key request with Some key => lookup_cache cached key | None => mret None end;
  '(prepared, request) ← prepare_request_execution request entry;
  match prepared with
  | Err e => mret (Some (Err e))
  | Ok Served => mret (Some (Ok ()))
  | Ok (ContinueWith availability) => execute_article_retry_loop t env cfg fresh request availability
  end.
End Serve.

(** ** Facts *)

(** The parts of a request that its records leave alone. *)
Definition same_request (r r' : RequestContext) : Prop :=
  kind r' = kind r ∧ verb r' = verb r ∧ args r' = args r ∧ message_id_span r' = message_id_span r.

Lemma same_article_response r r' p : same_request r r' → article_response r' p ↔ article_response r p.
Proof. intros (E & _). unfold article_response, whole_response, has_response_body. by rewrite E. Qed.

Lemma same_message_id r r' : same_request r r' → message_id_value r' = message_id_value r.
Proof. intros (_ & _ & E1 & E2). unfold message_id_value. by rewrite E1, E2. Qed.

Lemma message_id_valid r mid : message_id_value r = Some mid → validate_message_id (message_id_str mid) = Ok ().
Proof.
  unfold message_id_value. destruct (message_id_span r) as [[a b]|]; [|done]. cbn [mbind option_bind].
  destruct (utf8_valid _); [|done]. unfold MessageId_new. destruct (validate_message_id _) as [[]|] eqn:E; [|done]. by intros [= <-].
Qed.

Lemma selector_ok_config s s' : same_config s s' → selector_ok s → selector_ok s'.
Proof.
  intros Hc [H1 H2 H3 H4 H5]. pose proof (same_config_ids s s' Hc) as Hids. destruct Hc as (Hb & Ht & Hm).
  assert (∀ b', b' ∈ backends s' → ∃ b, b ∈ backends s ∧ config b = config b') as Hto.
  { intros b' Hb'. apply (list_elem_of_fmap_2 config) in Hb'. rewrite Hb in Hb'. apply list_elem_of_fmap in Hb' as (b & ? & ?). by exists b. }
  assert (∀ b, b ∈ backends s → ∃ b', b' ∈ backends s' ∧ config b' = config b) as Hfrom.
  { intros b Hb'. apply (list_elem_of_fmap_2 config) in Hb'. rewrite <- Hb in Hb'. apply list_elem_of_fmap in Hb' as (b' & ? & ?). by exists b'. }
  split.
  - by rewrite Ht.
  - intros n. rewrite Ht, H2. unfold config in *. split.
    + intros (b & Hin & <-). destruct (Hfrom b Hin) as (b' & ? & E). exists b'. split; [done|]. by injection E.
    + intros (b & Hin & <-). destruct (Hto b Hin) as (b' & ? & E). exists b'. split; [done|]. by injection E.
  - intros i b Hi. specialize (Hids ltac:(by intros j b' Hj; apply H3) i b Hi). done.
  - apply (f_equal length) in Hb. rewrite !length_fmap in Hb. by rewrite Hb.
  - rewrite Hm, H5. apply (f_equal (fmap (λ x : nat * AvailabilitySlot * N, x.1.2))) in Hb. rewrite <- !list_fmap_compose in Hb. f_equal.
    symmetry. exact Hb.
Qed.

Section Carry.
Context {PL : PoolLimit}.

(** What a whole request keeps: unlike [grows] it may begin with another
    availability. *)
Record carries (w w' : World) : Prop := {
  cr_config : same_config (selector w) (selector w');
  cr_answers : ∀ x, x ∈ answers w → x ∈ answers w';
  cr_ok : world_ok w → world_ok w';
  cr_logged : ∀ key slot, OpMissing key slot ∈ cache_log w' → OpMissing key slot ∈ cache_log w ∨ answered_missing w' slot }.

Lemma grows_carries w w' : grows w w' → carries w w'.
Proof. by intros []. Qed.

#[global] Instance carries_preorder : PreOrder carries.
Proof.
  split; [intros w; by apply grows_carries|]. intros w1 w2 w3 [C1 A1 O1 L1] [C2 A2 O2 L2]. split; eauto using config_trans.
  intros key slot H. destruct (L2 key slot H) as [H'|]; [|by right]. destruct (L1 key slot H'); [by left|right]. by apply (answered_mono w2).
Qed.

Lemma begin_request_carries a w : spec (begin_request a) w (λ _ w', carries w w' ∧ client w' = client w).
Proof. split; [|done]. split; auto; try done. by intros []. Qed.
End Carry.

Section ServeFacts.
Context {MC : Memchr} {MS : MemchrSpec MC} {PL : PoolLimit} (t : target) (env : Oracle) (cfg : SessionConfig).
Variable fresh : PooledBuffer.
Variable cached : nat → bytes → option CachedArticle.
Variable adaptive : bool.
Hypothesis fresh_ok : buffer_ok fresh.
Hypothesis env_ok : oracle_ok env.

(** A reply built from an entry the cache returned for the article. *)
Definition cache_reply (request : RequestContext) (p : bytes) : Prop :=
  ∃ n key e mid wire, request_key request = Some key ∧ cached n key = Some e ∧ message_id_value request = Some mid ∧
    cached_response_for e (kind request) (message_id_str mid) = Some wire ∧ p = write_to wire.

(** A positive answer: a backend's response or one built from the cache. *)
Definition found (request : RequestContext) (p : bytes) : Prop := article_response request p ∨ cache_reply request p.

Definition partly_found (request : RequestContext) (p : bytes) : Prop := ∃ q, found request q ∧ p `prefix_of` q.

Lemma same_found r r' p : same_request r r' → found r' p → found r p.
Proof.
  intros Hs [H|H]; [left; by apply (same_article_response r r')|right].
  destruct H as (n & key & e & mid & wire & H). exists n, key, e, mid, wire. unfold request_key in *.
  by rewrite (same_message_id _ _ Hs), (proj1 Hs) in H.
Qed.

Lemma write_cached_spec e k mid w :
  spec (write_cached_article_response e k mid) w (λ r w', grows w w' ∧ ∃ p, sent (client w') = sent (client w) ++ p ∧
    match r with
    | Ok None => p = []
    | Ok (Some _) => ∃ wire, cached_response_for e k mid = Some wire ∧ p = write_to wire
    | Err _ => ∃ wire, cached_response_for e k mid = Some wire ∧ p `prefix_of` write_to wire
    end).
Proof.
  unfold write_cached_article_response. destruct (cached_response_for e k mid) as [wire|] eqn:E.
  2: { split; [done|]. exists []. by rewrite app_nil_r. }
  run write_client_spec as r w1 [Hg1 (p & Hs & Hp)]. destruct r as [[]|err].
  - run flush_client_spec as f w2 [Hg2 Hs2]. assert (grows w w2) by by etrans. destruct f as [[]|err]; (split; [done|]); exists p;
      cbn; rewrite Hs2, Hs; split; try done; exists wire; rewrite Hp; done.
  - split; [done|]. exists p. split; [done|]. by exists wire.
Qed.

(** What a lookup told the client and the request. *)
Definition looked_up (request : RequestContext) (entry : option CachedArticle) (w : World)
    (x : result SessionError CacheLookupResult * RequestContext) (w' : World) : Prop :=
  grows w w' ∧ same_request request x.2 ∧ ∃ p, sent (client w') = sent (client w) ++ p ∧
    match x.1 with
    | Ok LookupHit => cache_reply request p
    | Ok LookupMiss => p = []
    | Ok LookupPartialHit => p = [] ∧ ∃ e, entry = Some e ∧ request_cache_availability x.2 = Some (ca_availability e)
    | Err _ => ∃ q, cache_reply request q ∧ p `prefix_of` q
    end.

Lemma try_serve_spec request entry w :
  (∀ e, entry = Some e → ∃ n key, request_key request = Some key ∧ cached n key = Some e) →
  spec (try_serve_from_cached cfg request entry) w (looked_up request entry w).
Proof.
  intros Hentry. unfold try_serve_from_cached.
  assert (looked_up request entry w (Ok LookupMiss, record_cache_status Miss request) w) as Hmiss
    by (split_and!; [done..|exists []; by rewrite app_nil_r]).
  destruct (message_id_value request) as [mid|] eqn:Emid; [|done].
  destruct entry as [e|]; [|done]. destruct (Hentry e eq_refl) as (n & key & Hkey & He). clear Hmiss.
  assert (∀ s, request_cache_availability (record_cache_status s
    (record_cache_entry_metadata (request_cache_metadata e (ca_availability e)) request)) = Some (ca_availability e)) as Ha
    by (intros s; cbn; by destruct (ca_availability e)).
  destruct (stores_payload_responses cfg); cbn [negb].
  2: { split_and!; [done..|]. exists []. rewrite app_nil_r. split; [done|]. split; [done|]. exists e. split; [done|apply (Ha PartialHit)]. }
  assert (∀ wire, cached_response_for e (kind request) (message_id_str mid) = Some wire → cache_reply request (write_to wire)) as Hwire
    by (intros wire ?; by exists n, key, e, mid, wire).
  run write_cached_spec as r w1 [Hg1 (p & Hs & Hp)]. destruct r as [[[status len]|]|err].
  - run add_response_bytes_spec as [] w2 [Hg2 Hc2]. split_and!; [by etrans|by repeat split..|]. exists p. cbn. rewrite Hc2. split; [done|].
    destruct Hp as (wire & ? & ->). auto.
  - split_and!; [done|by repeat split..|]. exists p. split; [done|]. split; [done|]. exists e. split; [done|apply (Ha PartialHit)].
  - split_and!; [done|by repeat split..|]. exists p. split; [done|]. destruct Hp as (wire & ? & Hp). exists (write_to wire). auto.
Qed.

Lemma direct_spec request d w :
  direct_ok request d →
  spec (write_precheck_direct_response d) w (λ r w', grows w w' ∧ ∃ p, sent (client w') = sent (client w) ++ p ∧
    match r with Ok _ => article_response request p | Err _ => ∃ q, article_response request q ∧ p `prefix_of` q end).
Proof.
  intros (status & Hhas & Hw). unfold write_precheck_direct_response. set (b := match d with DirectFramed _ => _ | DirectSingleLine _ => _ end) in *.
  assert (article_response request b) as Hb by (exists status; split; [unfold has_article in Hhas; lia|done]).
  run write_client_spec as r w1 [Hg1 (p & Hs & Hp)]. destruct r as [[]|err].
  - run flush_client_spec as f w2 [Hg2 Hs2]. assert (grows w w2) by by etrans. subst p.
    destruct f as [[]|err]; (split; [done|]); exists b; cbn; rewrite Hs2, Hs; (split; [done|]); [done|]. by exists b.
  - split; [done|]. exists p. split; [done|]. by exists b.
Qed.

Lemma adaptive_precheck_spec request a w :
  world_ok w →
  spec (try_adaptive_precheck t env cfg fresh cached adaptive request a) w (λ r w', grows w w' ∧ ∃ p, sent (client w') = sent (client w) ++ p ∧
    match r with Ok true => found request p | Ok false => p = [] | Err _ => partly_found request p end).
Proof.
  intros Hok. unfold try_adaptive_precheck.
  assert (∀ w', quiet w w' → grows w w' ∧ ∃ p, sent (client w') = sent (client w) ++ p ∧ p = []) as Hnone.
  { intros w' [Hg Hc]. split; [done|]. exists []. by rewrite Hc, app_nil_r. }
  destruct (_ || _); [by apply Hnone|]. destruct (_ && _); [by apply Hnone|].
  destruct (message_id_value request) as [mid|] eqn:Emid; [|by apply Hnone].
  destruct (request_key request) as [key|] eqn:Ekey; [|by apply Hnone]. destruct a as [a|]; [|by apply Hnone].
  run precheck_spec as o w1 [[Hg1 Hc1] Ho]; [done..|]. destruct o as [[e|d]|]; [| |by apply Hnone].
  - destruct Ho as [n He].
    assert (∀ wire, cached_response_for e (kind request) (message_id_str mid) = Some wire → found request (write_to wire)) as Hwire
      by (intros wire ?; right; by exists n, key, e, mid, wire).
    run write_cached_spec as r w2 [Hg2 (p & Hs & Hp)]. rewrite Hc1 in Hs. assert (grows w w2) as Hg by by etrans. destruct r as [[[status len]|]|err].
    + run add_response_bytes_spec as [] w3 [Hg3 Hc3]. split; [by etrans|]. exists p. cbn. rewrite Hc3. split; [done|].
      destruct Hp as (wire & ? & ->). auto.
    + split; [done|]. by exists p.
    + split; [done|]. exists p. split; [done|]. destruct Hp as (wire & ? & Hp). exists (write_to wire). auto.
  - run (direct_spec request d) as r w2 [Hg2 (p & Hs & Hp)]; [done|]. rewrite Hc1 in Hs. assert (grows w w2) as Hg by by etrans. destruct r as [len|err].
    + run add_response_bytes_spec as [] w3 [Hg3 Hc3]. split; [by etrans|]. exists p. cbn. rewrite Hc3. split; [done|]. by left.
    + split; [done|]. exists p. split; [done|]. destruct Hp as (q & ? & ?). exists q. split; [by left|done].
Qed.
(** A miss that an entry of the cache records or a backend answered. *)
Definition known_missing (request : RequestContext) (w : World) (slot : AvailabilitySlot) : Prop :=
  (∃ n key e, request_key request = Some key ∧ cached n key = Some e ∧ is_missing_slot (ca_availability e) slot = true) ∨
  answered_missing w slot.

(** The availability a request starts with is that of an entry, or nothing. *)
Definition starts_with (entry : option CachedArticle) (a : option ArticleAvailability) : Prop :=
  ∀ slot, is_missing_slot (default new_availability a) slot = true → ∃ e, entry = Some e ∧ is_missing_slot (ca_availability e) slot = true.

Definition prepared_ok (request : RequestContext) (entry : option CachedArticle) (w : World)
    (x : result SessionError PreparedRequest * RequestContext) (w' : World) : Prop :=
  carries w w' ∧ same_request request x.2 ∧ ∃ p, sent (client w') = sent (client w) ++ p ∧
    match x.1 with
    | Ok Served => found request p
    | Ok (ContinueWith a) => p = [] ∧ starts_with entry a
    | Err _ => partly_found request p
    end.

Lemma same_partly_found r r' p : same_request r r' → partly_found r' p → partly_found r p.
Proof. intros Hs (q & Hq & ?). exists q. split; [|done]. by apply (same_found r r'). Qed.

Lemma begin_prefetch_spec request (a : option ArticleAvailability) w :
  spec (match a with Some a => begin_request a;; spawn_non_primary_tier_stat_prefetch cfg request | None => mret () end) w
    (λ _ w', carries w w' ∧ client w' = client w).
Proof.
  destruct a as [a|]; [|done]. run begin_request_carries as [] w1 [Hc1 E1]. eapply spec_mono; [apply prefetch_quiet|].
  intros [] w2 [Hg2 E2]. split; [|congruence]. etrans; [exact Hc1|by apply grows_carries].
Qed.

Lemma prepare_request_spec request entry w :
  world_ok w → (∀ e, entry = Some e → ∃ n key, request_key request = Some key ∧ cached n key = Some e) →
  spec (prepare_request_execution t env cfg fresh cached adaptive request entry) w (prepared_ok request entry w).
Proof.
  intros Hok Hentry. unfold prepare_request_execution. run try_serve_spec as [r request'] w1 (Hg1 & Hsame & p & Hs & Hp); [done|].
  cbn [fst snd] in Hsame, Hp.
  destruct r as [found_|e].
  2: { split_and!; [by apply grows_carries|apply Hsame..|]. exists p. split; [done|]. destruct Hp as (q & ? & ?). exists q. split; [by right|done]. }
  set (a := match match found_ with LookupPartialHit => _ | _ => _ end with Some _ => _ | None => _ end).
  assert (found_ = LookupHit ∨ p = [] ∧ starts_with entry a) as [->|[-> Ha]].
  { subst a. destruct found_; [by left|right..].
    - destruct Hp as (-> & e & -> & ->). split; [done|]. intros slot Hm. by exists e.
    - split; [done|]. destruct entry as [e|]; [intros slot Hm; by exists e|]. by destruct (message_id_value request'). }
  { split_and!; [by apply grows_carries|apply Hsame..|]. exists p. split; [done|]. by right. }
  destruct found_.
  1: { split_and!; [by apply grows_carries|apply Hsame..|]. exists []. split; [done|]. by right. }
  all: run begin_prefetch_spec as [] w2 [Hc2 E2]; assert (carries w w2) as Hc by (etrans; [by apply grows_carries|done]);
    run adaptive_precheck_spec as r w3 [Hg3 (p & Hs3 & Hp3)]; [by apply Hc|];
    assert (carries w w3) by (etrans; [done|by apply grows_carries]);
    rewrite E2, Hs, app_nil_r in Hs3; split_and!; [done|apply Hsame..|]; exists p; split; [done|];
    destruct r as [[]|e]; [by apply (same_found request request')|done|by apply (same_partly_found request request')].
Qed.

(** Every backend is known to miss the article of the request. *)
Definition all_missing (request : RequestContext) (w : World) : Prop :=
  ∀ b, b ∈ backends (selector w) → known_missing request w (availability_slot b).

(** The answers to a forwarded request. *)
Definition forward_reply (request : RequestContext) (w : World) (p : bytes) : Prop :=
  found request p ∨ p = responses.BACKEND_ERROR ∨ (p = responses.NO_SUCH_ARTICLE ∧ all_missing request w).

Lemma known_missing_carries request w w' slot : carries w w' → known_missing request w slot → known_missing request w' slot.
Proof. intros Hc [?|?]; [by left|right]. by apply (answered_mono w); [apply Hc..|]. Qed.

Lemma backend_carries w w' b' :
  carries w w' → b' ∈ backends (selector w') → ∃ b, b ∈ backends (selector w) ∧ availability_slot b' = availability_slot b.
Proof.
  intros Hc Hb'. destruct (cr_config _ _ Hc) as (E & _). apply (list_elem_of_fmap_2 config) in Hb'. rewrite E in Hb'.
  apply list_elem_of_fmap in Hb' as (b & Eb & Hb). exists b. split; [done|]. unfold config in Eb. by injection Eb.
Qed.

Lemma all_missing_carries request w w' : carries w w' → all_missing request w → all_missing request w'.
Proof.
  intros Hc Hm b' Hb'. destruct (backend_carries _ _ _ Hc Hb') as (b & Hb & ->). by apply (known_missing_carries _ w), Hm.
Qed.

Lemma forward_reply_carries request w w' p : carries w w' → forward_reply request w p → forward_reply request w' p.
Proof.
  intros Hc [?|[?|[? Hm]]]; [by left|by right; left|right; right]. split; [done|]. by apply (all_missing_carries _ w).
Qed.

(** What the client got for the whole request. *)
Definition served_once (request : RequestContext) (w w' : World) (r : result SessionError unit) : Prop :=
  ∃ p, sent (client w') = sent (client w) ++ p ∧
    match r with
    | Ok _ => forward_reply request w' p
    | Err e => terminal e ∨ ∃ q, forward_reply request w' q ∧ p `prefix_of` q
    end.

Lemma find_entry_spec request w :
  spec (match request_key request with Some key => lookup_cache cached key | None => mret None end) w (λ entry w', quiet w w' ∧
    ∀ e, entry = Some e → ∃ n key, request_key request = Some key ∧ cached n key = Some e).
Proof.
  destruct (request_key request) as [key|]; [|done]. eapply spec_mono; [apply lookup_cache_spec|]. intros entry w' [Hq He].
  split; [done|]. intros e E. destruct (He e E) as [n ?]. by exists n, key.
Qed.

Lemma route_spec request w :
  world_ok w → selector_ok (selector w) →
  spec (route_and_execute_request t env cfg fresh cached adaptive request) w
    (λ o w', carries w w' ∧ ∃ r, o = Some r ∧ served_once request w w' r).
Proof.
  intros Hok Hsel. unfold route_and_execute_request. run find_entry_spec as entry w1 [[Hg1 E1] Hentry].
  run prepare_request_spec as [r request'] w2 (Hc2 & Hsame & p & Hs & Hp); [by apply Hg1|done|]. cbn [fst snd] in Hsame, Hp. rewrite E1 in Hs.
  assert (carries w w2) as Hc by (etrans; [by apply grows_carries|done]). destruct r as [[|a]|e].
  - split; [done|]. eexists. split; [done|]. exists p. split; [done|]. by left.
  - destruct Hp as [-> Ha]. eapply spec_mono; [apply execute_retry_spec; [done..|by apply Hc]|].
    intros o w3 (Hok3 & Hc3 & Hm3 & Hl3 & Hn3 & r & -> & p & Hs3 & Hp3). rewrite Hs, app_nil_r in Hs3.
    assert (carries w w3) as Hc' by (etrans; [done|by split]). split; [done|]. exists r. split; [done|]. exists p. split; [done|].
    assert (exhausted w3 → forward_reply request w3 responses.NO_SUCH_ARTICLE) as Hmiss.
    { intros He. right; right. split; [done|]. intros b' Hb'. destruct (backend_carries _ _ _ Hc' Hb') as (b & Hb & ->).
      destruct (exhausted_known _ w w3 b Hsel (cr_config _ _ Hc') Hm3 He Hb) as [H|H]; [left|by right].
      destruct (Ha _ H) as (en & En & Hen). destruct (Hentry en En) as (n & key & ? & ?). by exists n, key, en. }
    destruct r as [[]|e].
    + destruct Hp3 as [Hp3|[->|[-> He]]]; [left; left; by apply (same_article_response request request')|by right; left|by apply Hmiss].
    + destruct Hp3 as [Hp3|[Hp3|[Hp3 He]]]; [by left|right; eexists; (split; [|exact Hp3])..]; [by right; left|by apply Hmiss].
  - split; [done|]. eexists. split; [done|]. exists p. split; [done|]. destruct Hp as (q & ? & ?). right. exists q. split; [by left|done].
Qed.
End ServeFacts.

(** ** Serving from the memory cache *)

(** The entries of a cache of [Cache] that has gone through [history n], by this
    and by other sessions, when it is asked at time [n]. *)
Definition memory_lookup {MC : Memchr} (ttl : N) (history : nat → list (CacheOp * N)) (clock : nat → N) (n : nat) (key : bytes) : option CachedArticle :=
  (get_by_cache_key (clock n) ttl key (run_cache ttl (history n) ∅)).1.

Section ServeMemory.
Context {MC : Memchr} {MS : MemchrSpec MC} {PL : PoolLimit} (t : target) (env : Oracle) (cfg : SessionConfig).
Variable fresh : PooledBuffer.
Variables (ttl : N) (history : nat → list (CacheOp * N)) (clock : nat → N).
Variable adaptive : bool.
Hypothesis fresh_ok : buffer_ok fresh.
Hypothesis env_ok : oracle_ok env.
Hypothesis history_complete : ∀ n, Forall captures_complete (history n).*1.

(** A complete reply made of sections that were ingested for the article. *)
Definition cached_reply_ok (request : RequestContext) (p : bytes) : Prop :=
  ∃ n key wire, request_key request = Some key ∧ p = write_to wire ∧ reply_end (kind request) p = Some (length p) ∧
    ∀ x, x ∈ wire_sections wire → ingested (history n) key x.

(** A miss recorded for the article less than the TTL before a lookup. *)
Definition recorded_missing (request : RequestContext) (slot : AvailabilitySlot) : Prop :=
  ∃ n key τ, request_key request = Some key ∧ (OpMissing key slot, τ) ∈ history n ∧ (clock n - τ < ttl)%N.

Lemma cache_reply_complete request p : cache_reply (memory_lookup ttl history clock) request p → cached_reply_ok request p.
Proof.
  intros (n & key & e & mid & wire & Hkey & He & Hmid & Hw & ->). exists n, key, wire.
  destruct (get_entry _ _ _ _ _ _ (run_cache_inv ttl (history n) (history_complete n)) He) as [[_ _ Hok _ Hsec] _].
  pose proof (served_complete (ca_payload e) (kind request) (message_id_str mid) Hok (message_id_valid _ _ Hmid)) as H.
  unfold cached_response_for in Hw. rewrite Hw in H. split_and!; [done|done|by destruct H as (_ & _ & _ & ?)|].
  intros x Hx. by apply Hsec, (served_sections _ _ _ _ Hw).
Qed.

(** The answers to a request that is served with this cache. *)
Definition memory_reply (request : RequestContext) (w : World) (p : bytes) : Prop :=
  article_response request p ∨ cached_reply_ok request p ∨ p = responses.BACKEND_ERROR ∨
  (p = responses.NO_SUCH_ARTICLE ∧ ∀ b, b ∈ backends (selector w) →
     recorded_missing request (availability_slot b) ∨ answered_missing w (availability_slot b)).

Lemma memory_reply_forward request w p : forward_reply (memory_lookup ttl history clock) request w p → memory_reply request w p.
Proof.
  intros [[Hq|Hq]|[Hq|[Hq Hm]]]; [by left|right; left; by apply cache_reply_complete|by right; right; left|].
  right; right; right. split; [done|]. intros b Hb. destruct (Hm b Hb) as [H|]; [left|by right].
  destruct H as (n & key & e & Hkey & He & Hmiss). destruct (missing_recorded _ _ _ _ _ _ (history_complete n) He Hmiss) as (τ & ? & ?).
  by exists n, key, τ.
Qed.

End ServeMemory.

Definition payload_config : SessionConfig := mkSession KindMemory mkSlot (λ _, false).

(** A cached HEAD and a cached BODY answer an ARTICLE without a backend. *)
Definition merged_article : bytes := bs "220 0 <a@b>" ++ CRLF ++ sample_headers ++ CRLF ++ sample_body ++ DOT_TERMINATOR.

