(* ===== verification/Session.v ===== *)
(** * Session: executing the plan of one client command

    Models the command handlers of [src/src/session/handlers/per_command.rs]: the
    execution of each plan of [Command], with the authentication state of [Auth],
    the byte counters and the local replies.  A forwarded request goes to
    [route_and_execute_request] of [Serve].  The handlers are programs of the monad
    of [Retry]; the loop state they pass along is explicit. *)

From S2P Require Import Prelude Protocol Request Scanner Framer Tracker Command Auth Availability Router Article Cache Stream Transfer Exchange Isolated Retry RetryFacts Precheck Serve.

(** ** Data *)

Inductive SingleCommandResult := CmdContinue | CmdQuit.

Inductive BatchLoopAction :=
| LoopContinue
| LoopBreak
| LoopSwitchToStateful (handoff : RequestContext).

(** The state of the loop, with the identity that the session publishes; the
    backend-to-client counter is [response_bytes] of the world. *)
Record PerCommandLoopState := mkLoopState {
  client_to_backend_bytes : N;
  loop_auth : ClientAuthState;
  loop_access : AuthenticationAccess;
  loop_identity : AuthState }.

Definition initial_state (auth_handler : AuthHandler) : PerCommandLoopState :=
  mkLoopState 0 Anonymous (from_auth_enabled (is_enabled auth_handler)) None.

(** [ByteCounter::add]: a [u64] addition. *)
Definition counter_add (counter : N) (n : nat) : N := wrap64 (counter + N.of_nat n).

Definition add_client_to_backend (n : nat) (st : PerCommandLoopState) : PerCommandLoopState :=
  mkLoopState (counter_add (client_to_backend_bytes st) n) (loop_auth st) (loop_access st) (loop_identity st).

Definition set_auth (auth : ClientAuthState) (identity : AuthState) (st : PerCommandLoopState) : PerCommandLoopState :=
  mkLoopState (client_to_backend_bytes st) auth (loop_access st) identity.

(** [ClientSession::authentication_access] *)
Definition authentication_access (identity : AuthState) (access : AuthenticationAccess) : AuthenticationAccess :=
  if is_authenticated identity then after_success access else access.

Definition refresh_access (st : PerCommandLoopState) : PerCommandLoopState :=
  mkLoopState (client_to_backend_bytes st) (loop_auth st) (authentication_access (loop_identity st) (loop_access st)) (loop_identity st).

Definition CAPABILITIES_WITHOUT_AUTHINFO_RESPONSE : bytes :=
  bs "101 Capability list:" ++ CRLF ++ bs "VERSION 2" ++ CRLF ++ bs "READER" ++ CRLF ++
  bs "OVER" ++ CRLF ++ bs "HDR" ++ CRLF ++ bs "." ++ CRLF.

Definition CAPABILITIES_WITH_AUTHINFO_RESPONSE : bytes :=
  bs "101 Capability list:" ++ CRLF ++ bs "VERSION 2" ++ CRLF ++ bs "READER" ++ CRLF ++
  bs "AUTHINFO USER PASS" ++ CRLF ++ bs "OVER" ++ CRLF ++ bs "HDR" ++ CRLF ++ bs "." ++ CRLF.

Definition capabilities_response (auth_enabled : bool) : bytes :=
  if auth_enabled then CAPABILITIES_WITH_AUTHINFO_RESPONSE
  else CAPABILITIES_WITHOUT_AUTHINFO_RESPONSE.

(** ** Handlers *)

Section Session.
Context {MC : Memchr} (t : target) (env : Oracle) (cfg : SessionConfig).
Variable fresh : PooledBuffer.
Variable cached : nat → bytes → option CachedArticle.
Variable adaptive_precheck : bool.
Context (auth_handler : AuthHandler) (rmode : RoutingMode).

(** Write a reply, then record and count it. *)
Definition respond_locally (response : bytes) (metadata : RequestResponseMetadata) (res : SingleCommandResult)
    : M (result SessionError SingleCommandResult) :=
  r ← write_client response;
  match r with
  | Err k => mret (Err (io_error k))
  | Ok _ =>
      record_local (Request.meta_status metadata) (meta_wire_len metadata);;
      add_response_bytes (length response);;
      mret (Ok res)
  end.

(** [handle_intercept_auth] and the bookkeeping of its caller: the state changes
    after the reply was written. *)
Definition handle_intercept_auth (action : AuthAction) (st : PerCommandLoopState)
    : M (result SessionError SingleCommandResult * PerCommandLoopState) :=
  let '(res, (auth, identity)) := auth_step auth_handler action true (loop_auth st, loop_identity st) in
  match res with
  | Err _ => mret (Err (session_error_from_anyhow AnyOther), st)
  | Ok (ResAuthenticated written response) | Ok (ResNotAuthenticated written response) =>
      r ← respond_locally written response CmdContinue;
      mret (r, match r with Ok _ => set_auth auth identity st | Err _ => st end)
  end.

Definition handle_require_auth : M (result SessionError SingleCommandResult) :=
  respond_locally responses.AUTH_REQUIRED_FOR_COMMAND
    (local_response_metadata codes.AUTH_REQUIRED responses.AUTH_REQUIRED_FOR_COMMAND) CmdContinue.

Definition handle_rejected_request (response : RejectResponse) : M (result SessionError SingleCommandResult) :=
  respond_locally (reject_wire response) (reject_metadata response) CmdContinue.

Definition handle_capabilities_request (access : AuthenticationAccess) : M (result SessionError SingleCommandResult) :=
  let capabilities := capabilities_response (negb (can_access_backend access)) in
  respond_locally capabilities (local_response_metadata codes.CAPABILITY_LIST capabilities) CmdContinue.

(** The request gets a copy of the counter.  A request always returns, see
    [route_spec]; the default is never used. *)
Definition handle_forward_decision (request : RequestContext) (st : PerCommandLoopState) : M (result SessionError SingleCommandResult) :=
  set_request_bytes (client_to_backend_bytes st);;
  o ← route_and_execute_request t env cfg fresh cached adaptive_precheck request;
  mret ((λ _, CmdContinue) <$> default (Err (BackendError AnyOther)) o).

(** [process_single_command_with_plan]: QUIT is answered before the plan. *)
Definition process_single_command_with_plan (plan : CommandPlan) (access : AuthenticationAccess) (request : RequestContext)
    (st : PerCommandLoopState) : M (result SessionError SingleCommandResult * PerCommandLoopState) :=
  if bool_decide (kind request = Quit) then
    r ← respond_locally responses.CONNECTION_CLOSING
      (local_response_metadata codes.CONNECTION_CLOSING responses.CONNECTION_CLOSING) CmdQuit;
    mret (r, st)
  else
    match plan with
    | InterceptAuth action => handle_intercept_auth action st
    | Forward => r ← handle_forward_decision request st; mret (r, st)
    | RequireAuth => r ← handle_require_auth; mret (r, st)
    | SwitchToStateful _ => mret (Err (BackendError AnyOther), st)
    | PlanReject response => r ← handle_rejected_request response; mret (r, st)
    | InterceptCapabilities => r ← handle_capabilities_request access; mret (r, st)
    end.

Definition process_single_command (access : AuthenticationAccess) (request : RequestContext) (st : PerCommandLoopState)
    : M (result SessionError SingleCommandResult * PerCommandLoopState) :=
  process_single_command_with_plan (classify_request request access rmode) access request st.

(** [execute_pipelineable_command_with_recorded_request_bytes]; what a request
    records about itself does not change whether it is pipelineable. *)
Definition execute_with_recorded_request_bytes (request : RequestContext) (st : PerCommandLoopState)
    : M (result SessionError unit * PerCommandLoopState) :=
  let st := refresh_access st in
  '(r, st) ← process_single_command (loop_access st) request st;
  mret (if negb (is_pipelineable request) then Err (BackendError AnyOther)
        else match r with
             | Ok CmdContinue => Ok ()
             | Ok CmdQuit => Err (BackendError AnyOther)
             | Err e => Err e
             end, st).

(** [execute_pipelineable_command_and_record_request_bytes] *)
Definition execute_and_record_request_bytes (request : RequestContext) (st : PerCommandLoopState)
    : M (result SessionError unit * PerCommandLoopState) :=
  execute_with_recorded_request_bytes request (add_client_to_backend (request_wire_len request) st).
End Session.

(** ** Facts *)

Section SessionFacts.
Context {MC : Memchr} {MS : MemchrSpec MC} {PL : PoolLimit} (t : target) (env : Oracle) (cfg : SessionConfig).
Variable fresh : PooledBuffer.
Variable cached : nat → bytes → option CachedArticle.
Variable adaptive : bool.
Context (auth_handler : AuthHandler) (rmode : RoutingMode).
Hypothesis fresh_ok : buffer_ok fresh.
Hypothesis env_ok : oracle_ok env.

Record session_ok (w : World) : Prop := { se_world : world_ok w; se_selector : selector_ok (selector w) }.

Lemma session_ok_carries w w' : carries w w' → session_ok w → session_ok w'.
Proof. intros Hc [? ?]. split; [by apply Hc|]. eapply selector_ok_config; [apply Hc|done]. Qed.

(** The reply to a command that is handled by the given plan. *)
Definition plan_reply (access : AuthenticationAccess) (plan : CommandPlan) (request : RequestContext) (w : World) (p : bytes) : Prop :=
  if bool_decide (kind request = Quit) then p = responses.CONNECTION_CLOSING
  else match plan with
       | InterceptAuth _ => ∃ outcome, p = (auth_response outcome).1
       | PlanReject response => p = reject_wire response
       | Forward => forward_reply cached request w p
       | RequireAuth => p = responses.AUTH_REQUIRED_FOR_COMMAND
       | SwitchToStateful _ => False
       | InterceptCapabilities => p = capabilities_response (negb (can_access_backend access))
       end.

(** The reply to a command, for some state of the authentication. *)
Definition command_reply (request : RequestContext) (w : World) (p : bytes) : Prop :=
  ∃ access, plan_reply access (classify_request request access rmode) request w p.

Lemma plan_reply_carries access plan request w w' p :
  carries w w' → plan_reply access plan request w p → plan_reply access plan request w' p.
Proof. intros Hc. unfold plan_reply. destruct (bool_decide _), plan; try done. by apply forward_reply_carries. Qed.

(** What ends a session: nothing can follow, or a part of a reply was written. *)
Definition broken_off (reply : bytes → Prop) (e : SessionError) (p : bytes) : Prop :=
  terminal e ∨ p = [] ∨ ∃ q, reply q ∧ p `prefix_of` q.

Definition replied (reply : World → bytes → Prop) (w w' : World) {A} (r : result SessionError A) : Prop :=
  carries w w' ∧ ∃ p, sent (client w') = sent (client w) ++ p ∧
    match r with Ok _ => reply w' p | Err e => broken_off (reply w') e p end.

Lemma record_local_spec st n w : spec (record_local st n) w (λ _ w', quiet w w').
Proof. apply quiet_same; auto; done. Qed.

Lemma set_request_bytes_spec n w : spec (set_request_bytes n) w (λ _ w', quiet w w').
Proof. apply quiet_same; auto; done. Qed.

Lemma respond_locally_spec response metadata res w :
  spec (respond_locally response metadata res) w (λ r w', replied (λ _ p, p = response) w w' r ∧ ∀ x, r = Ok x → x = res).
Proof.
  unfold respond_locally. run write_client_spec as r w1 [Hg1 (p & Hs & Hp)]. destruct r as [[]|k].
  - run record_local_spec as [] w2 [Hg2 Hc2]. run add_response_bytes_spec as [] w3 [Hg3 Hc3]. split; [|by intros x [= <-]].
    split; [apply grows_carries; by do 2 (etrans; [done|])|]. exists p. cbn. by rewrite Hc3, Hc2.
  - split; [|done]. split; [by apply grows_carries|]. exists p. split; [done|]. right. right. by exists response.
Qed.

Lemma auth_step_written h action auth identity res st' written response :
  auth_step h action true (auth, identity) = (Ok res, st') →
  res = ResAuthenticated written response ∨ res = ResNotAuthenticated written response →
  ∃ outcome, auth_response outcome = (written, response).
Proof.
  unfold auth_step. destruct (handle_auth_command h action true auth identity) as [r auth'] eqn:E. intros H Hres.
  assert (r = Ok res) as -> by (destruct r as [[]|]; injection H as <-; reflexivity). clear H. unfold handle_auth_command in E.
  destruct (is_authenticated identity).
  { injection E as <- _. exists AlreadyAuthenticated. destruct Hres as [[=]|Hres]. injection Hres as <- <-. reflexivity. }
  destruct (match action with RequestPassword _ => _ | _ => _ end) as [event|]; [|done].
  destruct (decide_auth _ _ _) as [next outcome]. destruct (auth_response outcome) as [w m] eqn:Eo. injection E as <- _.
  exists outcome. rewrite Eo. destruct (bool_decide _), Hres as [Hres|Hres]; try discriminate Hres; by injection Hres as <- <-.
Qed.

Lemma replied_mono {A} (R R' : World → bytes → Prop) w w' (r : result SessionError A) :
  (∀ p, R w' p → R' w' p) → replied R w w' r → replied R' w w' r.
Proof.
  intros HR [Hc (p & Hs & Hp)]. split; [done|]. exists p. split; [done|]. destruct r; [by apply HR|].
  destruct Hp as [?|[?|(q & ? & ?)]]; [by left|by right; left|right; right]. exists q. auto.
Qed.

(** The end of the session is the reply to QUIT. *)
Definition processed (access : AuthenticationAccess) (plan : CommandPlan) (request : RequestContext) (w w' : World)
    (r : result SessionError SingleCommandResult) : Prop :=
  replied (plan_reply access plan request) w w' r ∧ (r = Ok CmdQuit → kind request = Quit) ∧ (r = Ok CmdContinue → kind request ≠ Quit).

Lemma intercept_auth_spec access action request st w :
  kind request ≠ Quit →
  spec (handle_intercept_auth auth_handler action st) w (λ x w', processed access (InterceptAuth action) request w w' x.1).
Proof.
  intros Hq. unfold handle_intercept_auth. destruct (auth_step _ _ _ _) as [res [auth identity]] eqn:E.
  assert (∀ written response, res = Ok (ResAuthenticated written response) ∨ res = Ok (ResNotAuthenticated written response) →
    spec (r ← respond_locally written response CmdContinue; mret (r, match r with Ok _ => set_auth auth identity st | Err _ => st end)) w
      (λ x w', processed access (InterceptAuth action) request w w' x.1)) as Hwrite.
  { intros written response Hres. run respond_locally_spec as r w1 [Hr Hx]. split; [|split; [by intros ?%Hx|done]].
    eapply replied_mono; [|done]. intros p ->. unfold plan_reply. rewrite bool_decide_false by done.
    destruct res as [res|]; [|by destruct Hres].
    assert (res = ResAuthenticated written response ∨ res = ResNotAuthenticated written response) as Hres'
      by (destruct Hres as [[= ->]|[= ->]]; auto).
    destruct (auth_step_written _ _ _ _ _ _ _ _ E Hres') as [outcome Ho]. exists outcome. by rewrite Ho. }
  destruct res as [[written response|written response]|e]; [by apply Hwrite; left|by apply Hwrite; right|].
  split; [|done]. split; [done|]. exists []. rewrite app_nil_r. split; [done|]. by right; left.
Qed.

Lemma forward_decision_spec access request st w :
  session_ok w → kind request ≠ Quit →
  spec (handle_forward_decision t env cfg fresh cached adaptive request st) w (λ r w', processed access Forward request w w' r).
Proof.
  intros [Hok Hsel] Hq. unfold handle_forward_decision. run set_request_bytes_spec as [] w1 [Hg1 Hc1].
  run route_spec as o w2 [Hc2 (r & -> & p & Hs & Hp)]; [done|done|by apply Hg1|by eapply selector_ok_config; [apply Hg1|]|].
  rewrite Hc1 in Hs. cbn [default]. unfold processed, replied, plan_reply. rewrite bool_decide_false by done. split.
  - split; [etrans; [by apply grows_carries|done]|]. exists p. split; [done|]. destruct r as [[]|e]; [done|].
    destruct Hp as [?|Hp]; [by left|by right; right].
  - by destruct r.
Qed.

Lemma process_with_plan_spec plan access request st w :
  session_ok w →
  spec (process_single_command_with_plan t env cfg fresh cached adaptive auth_handler plan access request st) w
    (λ x w', processed access plan request w w' x.1).
Proof.
  intros Hok. unfold process_single_command_with_plan.
  assert (∀ res response metadata, (res = CmdQuit ↔ kind request = Quit) → (∀ w, plan_reply access plan request w response) →
    spec (r ← respond_locally response metadata res; mret (r, st)) w (λ x w', processed access plan request w w' x.1)) as Hlocal.
  { intros res response metadata Hres Hp. run respond_locally_spec as r w1 [Hr Hx]. split; [|split].
    - eapply replied_mono; [|done]. by intros p ->.
    - intros E%Hx. by apply Hres.
    - intros E%Hx Hq. by apply Hres in Hq; subst. }
  case_bool_decide as Hq.
  { apply Hlocal; [done|]. intros w0. unfold plan_reply. by rewrite bool_decide_true. }
  assert (∀ plan w p, plan_reply access plan request w p ↔ match plan with
       | InterceptAuth _ => ∃ outcome, p = (auth_response outcome).1
       | PlanReject response => p = reject_wire response
       | Forward => forward_reply cached request w p
       | RequireAuth => p = responses.AUTH_REQUIRED_FOR_COMMAND
       | SwitchToStateful _ => False
       | InterceptCapabilities => p = capabilities_response (negb (can_access_backend access))
       end) as Hplan by (intros; unfold plan_reply; by rewrite bool_decide_false).
  destruct plan as [action|response| | |handoff|].
  - by apply intercept_auth_spec.
  - apply Hlocal; [done|]. intros w0. by apply Hplan.
  - run forward_decision_spec as r w1 Hr; [done..|]. exact Hr.
  - apply Hlocal; [done|]. intros w0. by apply Hplan.
  - split; [|done]. split; [done|]. exists []. rewrite app_nil_r. split; [done|]. by right; left.
  - apply Hlocal; [done|]. intros w0. by apply Hplan.
Qed.

Lemma pipelineable_not_quit request : is_pipelineable request = true → kind request ≠ Quit.
Proof. unfold is_pipelineable, route_class, route_class_of. intros H E. by rewrite E in H. Qed.

Lemma execute_recorded_spec request st w :
  session_ok w → is_pipelineable request = true →
  spec (execute_with_recorded_request_bytes t env cfg fresh cached adaptive auth_handler rmode request st) w
    (λ x w', replied (command_reply request) w w' x.1).
Proof.
  intros Hok Hp. unfold execute_with_recorded_request_bytes, process_single_command.
  run process_with_plan_spec as [r st'] w1 (Hr & Hquit & _); [done|]. cbn [fst] in *. rewrite Hp. cbn [negb].
  apply (replied_mono _ (command_reply request)) in Hr; [|intros p ?; by eexists].
  destruct r as [[]|e]; [done| |done]. by destruct (pipelineable_not_quit _ Hp (Hquit eq_refl)).
Qed.

(** ** A session that still has to authenticate *)

(** Nothing but the client's connection, the counter of its bytes, the record of the
    reply and the number of batches has changed: no backend, pool or cache was
    used. *)
Record untouched (w w' : World) : Prop := {
  un_time : time w' = time w;
  un_selector : selector w' = selector w;
  un_lease : lease w' = lease w;
  un_cache : cache_log w' = cache_log w;
  un_metrics : ∀ e, e ∈ metrics w' → e ∈ metrics w ∨ ∃ n, e = MePipelineBatch n;
  un_retired : retired w' = retired w;
  un_prefetched : prefetched w' = prefetched w;
  un_answers : answers w' = answers w }.

#[global] Instance untouched_preorder : PreOrder untouched.
Proof.
  split; [intros w; split; auto|]. intros w1 w2 w3 [? ? ? ? M1 ? ? ?] [? ? ? ? M2 ? ? ?]. split; try congruence.
  intros e [He|?]%M2; [by apply M1|by right].
Qed.

Lemma write_client_untouched b w : spec (write_client b) w (λ _ w', untouched w w').
Proof. unfold write_client. apply spec_bind, spec_read. destruct (write_all b (client w)). split; auto. Qed.

Lemma respond_locally_untouched response metadata res w : spec (respond_locally response metadata res) w (λ _ w', untouched w w').
Proof.
  unfold respond_locally. run write_client_untouched as r w1 H1. destruct r as [[]|k]; [|done]. change (untouched w (add_response_bytes (length response)
    (record_local (Request.meta_status metadata) (meta_wire_len metadata) w1).2).2). etrans; [exact H1|]. split; auto.
Qed.

Definition locked_out (st : PerCommandLoopState) : Prop := loop_identity st = None ∧ loop_access st = Required.

Lemma refresh_locked_out st : locked_out st → locked_out (refresh_access st).
Proof. intros [Hi Ha]. split; cbn; [done|]. by rewrite Hi, Ha. Qed.

(** Whatever a command does, it leaves the access alone and no identity is lost. *)
Lemma auth_step_identity action auth identity : (auth_step auth_handler action true (auth, identity)).2.2 = None → identity = None.
Proof.
  unfold auth_step. destruct (handle_auth_command auth_handler action true auth identity) as [res auth'].
  destruct res as [[]|]; cbn; try done. destruct identity; [|done]. by destruct (auth_username auth').
Qed.

Definition keeps_access (st st' : PerCommandLoopState) : Prop :=
  loop_access st' = loop_access st ∧ (loop_identity st' = None → loop_identity st = None).

Lemma process_locked_out plan access request st w :
  match plan with Forward => kind request = Quit | _ => True end →
  spec (process_single_command_with_plan t env cfg fresh cached adaptive auth_handler plan access request st) w
    (λ x w', untouched w w' ∧ keeps_access st x.2).
Proof.
  intros Hplan. unfold process_single_command_with_plan.
  assert (∀ response metadata res, spec (r ← respond_locally response metadata res; mret (r, st)) w
    (λ x w', untouched w w' ∧ keeps_access st x.2)) as Hlocal.
  { intros response metadata res. run respond_locally_untouched as r w1 H1. by split. }
  case_bool_decide; [apply Hlocal|]. destruct plan as [action|response| | |handoff|]; try apply Hlocal; [|done|done].
  unfold handle_intercept_auth. pose proof (auth_step_identity action (loop_auth st) (loop_identity st)) as Hid.
  destruct (auth_step _ _ _ _) as [res [auth identity]]. cbn [snd] in Hid.
  destruct res as [[written response|written response]|e]; [..|done];
    (run respond_locally_untouched as r w1 H1; split; [done|]; by destruct r).
Qed.

Lemma process_keeps_access plan access request st w :
  spec (process_single_command_with_plan t env cfg fresh cached adaptive auth_handler plan access request st) w
    (λ x _, keeps_access st x.2).
Proof.
  assert (match plan with Forward => kind request = Quit | _ => True end ∨ plan = Forward ∧ kind request ≠ Quit) as [H|[-> Hq]].
  { destruct plan; auto. destruct (decide (kind request = Quit)); auto. }
  - eapply spec_mono; [by apply process_locked_out|by intros x w' [_ ?]].
  - unfold process_single_command_with_plan. rewrite bool_decide_false by done. apply spec_bind.
    eapply (spec_mono _ _ (λ _ _, True)); [done|]. by intros r w1 _.
Qed.

Lemma execute_locked_out request st w :
  locked_out st →
  spec (execute_with_recorded_request_bytes t env cfg fresh cached adaptive auth_handler rmode request st) w
    (λ x w', untouched w w' ∧ keeps_access st x.2).
Proof.
  intros Hl. destruct (refresh_locked_out st Hl) as [Hi Ha]. unfold execute_with_recorded_request_bytes, process_single_command.
  rewrite Ha. run process_locked_out as [r st'] w1 [Hu [Hk1 Hk2]].
  { pose proof (unauthenticated_plan request rmode). by destruct (classify_request _ _ _). }
  split; [done|]. cbn in *. split; [by rewrite Hk1, (proj1 Hl), (proj2 Hl)|done].
Qed.
End SessionFacts.
