(* ===== verification/Window.v ===== *)
(** * Window: pipelining a batch on one backend connection

    Models the article window of [src/src/session/handlers/per_command.rs]
    ([select_single_backend_article_window] to
    [forward_sent_article_window_responses] and [execute_pipelineable_batch]) with
    [forward_response_for_already_sent_request] of
    [src/src/session/handlers/command_execution.rs]: with a single backend and a
    cache that stores no payloads, up to 16 requests of a batch are written to one
    connection before their responses are read, the window is refilled after each
    response, and after a failure the requests without a response are executed one
    by one.

    The loops carry the requests that are still to be answered, each with its route,
    instead of an index into the batch. *)

From S2P Require Import Prelude Protocol Request Scanner Framer Tracker Command Auth Availability Router Article Cache Stream Transfer Exchange Isolated Retry RetryFacts Precheck Serve Session.

Definition MAX_UPSTREAM_ARTICLE_WINDOW : nat := 16.

Inductive ArticleWindowRequest :=
| SendUpstream (availability : ArticleAvailability) (guard : option CommandGuard) (sent : bool)
| KnownMissing.

Record SingleBackendArticleWindow := mkWindow { window_backend : nat; window_slot : AvailabilitySlot }.

Abbreviation Routed := (list (RequestContext * ArticleWindowRequest)).

Inductive ArticleWindowExecution := ForwardedAllResponses | RetryAllSequentially.

Inductive AlreadySentResponseError :=
| AlreadySentRead (e : AnyError)
| AlreadySentTransfer (e : SessionError).

Definition needs_upstream_request (r : ArticleWindowRequest) : bool :=
  match r with SendUpstream _ _ _ => true | KnownMissing => false end.

Section Window.
Context {MC : Memchr} (t : target) (env : Oracle) (cfg : SessionConfig).
Variable fresh : PooledBuffer.
Variable cached : nat → bytes → option CachedArticle.
Variable adaptive_precheck : bool.
Context (auth_handler : AuthHandler) (rmode : RoutingMode).

(** ** Selecting and routing *)

Definition select_single_backend_article_window (s : BackendSelector) (access : AuthenticationAccess) (batch : list RequestContext)
    : option SingleBackendArticleWindow :=
  if (length batch <? 2) || negb (length (backends s) =? 1) || stores_payload_responses cfg || negb (can_access_backend access) ||
     existsb (λ request, negb (is_article_kind (kind request)) ||
                         negb match classify_request request access rmode with Forward => true | _ => false end) batch
  then None
  else
    i ← head (sorted_tiers s ≫= backend_ids_in_tier s);
    _ ← find_backend s i;
    if stat_missing_enabled cfg i then None
    else slot ← router_slot s i; Some (mkWindow i slot).

Definition load_cached_article_availability (request : RequestContext) : M (ArticleAvailability * RequestContext) :=
  entry ← match request_key request with Some key => lookup_cache cached key | None => mret None end;
  match entry with
  | None => mret (new_availability, record_cache_status Miss request)
  | Some e =>
      let a := ca_availability e in
      mret (a, record_cache_status PartialHit (record_cache_entry_metadata (request_cache_metadata e a) request))
  end.

(** [load_cached_availability_and_route_article_window_requests]: the routes of a
    batch; a request for the backend opens a guard. *)
Fixpoint route_window_requests (target : SingleBackendArticleWindow) (batch : list RequestContext) : M Routed :=
  match batch with
  | [] => mret []
  | request :: batch =>
      '(a, request) ← load_cached_article_availability request;
      route ← (if should_try_slot a (window_slot target) then
                 s ← read selector;
                 let '(g, s) := guard_for_manual_backend s (window_backend target) in
                 set_selector s;; mret (SendUpstream a (Some g) false)
               else mret KnownMissing);
      requests ← route_window_requests target batch;
      mret ((request, route) :: requests)
  end.

(** Dropping routed requests drops the guards they still hold. *)
Fixpoint drop_requests (requests : Routed) : M unit :=
  match requests with
  | (_, SendUpstream _ (Some g) _) :: requests =>
      s ← read selector;
      set_selector (guard_drop s g);;
      drop_requests requests
  | _ :: requests => drop_requests requests
  | [] => mret ()
  end.

(** ** Sending *)

Fixpoint write_window_requests (i : nat) (requests : Routed) (in_flight : nat) : M (result ErrorKind nat * Routed) :=
  match requests with
  | [] => mret (Ok in_flight, [])
  | (request, route) :: rest =>
      if in_flight =? MAX_UPSTREAM_ARTICLE_WINDOW then mret (Ok in_flight, requests)
      else
        match route with
        | KnownMissing =>
            '(r, rest) ← write_window_requests i rest in_flight;
            mret (r, (request, route) :: rest)
        | SendUpstream a g _ =>
            log_metrics [MeCommand i; MeUserCommand];;
            written ← ask (send_to env);
            match written with
            | Err k => mret (Err k, requests)
            | Ok _ =>
                '(r, rest) ← write_window_requests i rest (S in_flight);
                mret (r, (request, SendUpstream a g true) :: rest)
            end
        end
  end.

Definition write_and_flush_article_window_requests (i : nat) (requests : Routed) : M (result ErrorKind nat * Routed) :=
  '(r, requests) ← write_window_requests i requests 0;
  match r with
  | Err k => mret (Err k, requests)
  | Ok n =>
      flushed ← ask (send_to env);
      mret (match flushed with Ok _ => Ok n | Err k => Err k end, requests)
  end.

Definition record_article_window_request_bytes (batch : list RequestContext) (st : PerCommandLoopState) : PerCommandLoopState :=
  foldl (λ st request, add_client_to_backend (request_wire_len request) st) st batch.

Fixpoint write_known_missing_responses (request_count : nat) : M (result SessionError unit) :=
  match request_count with
  | 0 => mret (Ok ())
  | S n =>
      r ← send_430_to_client;
      match r with
      | Err e => mret (Err e)
      | Ok _ => write_known_missing_responses n
      end
  end.

Definition write_known_missing_responses_for_entire_window (request_count : nat) : M (result SessionError unit) :=
  r ← write_known_missing_responses request_count;
  match r with
  | Err e => mret (Err e)
  | Ok _ =>
      f ← flush_client;
      mret match f with Ok _ => Ok () | Err k => Err (io_error k) end
  end.

(** [transition_routed_article_window_to_sent]: the requests in flight, their
    routes and the connection; [None] is [RetryAllSequentially]. *)
Definition transition_routed_article_window_to_sent (i : nat) (requests : Routed) (st : PerCommandLoopState)
    : M (option (nat * Routed * ConnectionStream) * PerCommandLoopState) :=
  conn ← checkout_direct_backend_connection env i;
  match conn with
  | Err _ => drop_requests requests;; mret (None, st)
  | Ok c =>
      let c := in_flight c in
      '(r, requests) ← write_and_flush_article_window_requests i requests;
      match r with
      | Err _ => retire i RemovedCooldown c;; drop_requests requests;; mret (None, st)
      | Ok n => mret (Some (n, requests, c), record_article_window_request_bytes requests.*1 st)
      end
  end.

(** ** Receiving *)

(** A failed write to the client after the response was consumed. *)
Definition already_sent_write_error (i : nat) (c : ConnectionStream) (k : ErrorKind) : M (result AlreadySentResponseError ConnectionStream) :=
  e ← handle_response_transfer_error i c (from_client_write k);
  mret (Err (AlreadySentTransfer e)).

(** The response is a 430: it is recorded, drained and reported. *)
Definition report_already_sent_missing (i : nat) (slot : AvailabilitySlot) (request : RequestContext) (cl : ClassifiedResponse)
    (c : ConnectionStream) : M (result AlreadySentResponseError ConnectionStream) :=
  record_authoritative_missing request i slot;;
  match receiving_observe t fresh i cl c with
  | (Err e, c) => e ← handle_response_transfer_error i c e; mret (Err (AlreadySentTransfer e))
  | (Ok _, c) =>
      r ← write_client responses.NO_SUCH_ARTICLE;
      match r with
      | Err k => already_sent_write_error i c k
      | Ok _ =>
          add_response_bytes (length responses.NO_SUCH_ARTICLE);;
          f ← flush_client;
          match f with
          | Err k => already_sent_write_error i c k
          | Ok _ => mret (Ok c)
          end
      end
  end.

(** Any other response goes to the client. *)
Definition write_already_sent_response (i : nat) (request : RequestContext) (cl : ClassifiedResponse) (c : ConnectionStream)
    : M (result AlreadySentResponseError ConnectionStream) :=
  '(r, c) ← write_response_to_client t env cfg fresh request i cl c;
  match r with
  | Err e => e ← handle_response_transfer_error i c e; mret (Err (AlreadySentTransfer e))
  | Ok (status, n) =>
      f ← flush_client;
      match f with
      | Err k => already_sent_write_error i c k
      | Ok _ =>
          record_response_metrics i request status n;;
          record_completion i status n;;
          add_response_bytes n;;
          mret (Ok c)
      end
  end.

(** [forward_response_for_already_sent_request]; the availability is the one of the
    request's route.  [read_exchange_for_already_sent_request] always has a result,
    see [read_sent_spec]. *)
Definition forward_response_for_already_sent_request (i : nat) (slot : AvailabilitySlot) (a : ArticleAvailability)
    (request : RequestContext) (c : ConnectionStream) : M (result AlreadySentResponseError ConnectionStream) :=
  begin_request a;;
  match default (Err AnyOther, c) (read_exchange_for_already_sent_request fresh request c) with
  | (Err e, c) => retire i RemovedCooldown c;; mret (Err (AlreadySentRead e))
  | (Ok cl, c) =>
      log_answer i (status_code cl);;
      match status_code cl with
      | None => retire i RemovedCooldown c;; mret (Err (AlreadySentRead AnyOther))
      | Some status =>
          if (as_u16 status =? 430)%N then report_already_sent_missing i slot request cl c
          else write_already_sent_response i request cl c
      end
  end.

(** [execute_pipelineable_commands_with_recorded_request_bytes_from] *)
Fixpoint execute_recorded_sequentially (batch : list RequestContext) (st : PerCommandLoopState) : M (result SessionError unit * PerCommandLoopState) :=
  match batch with
  | [] => mret (Ok (), st)
  | request :: batch =>
      '(r, st) ← execute_with_recorded_request_bytes t env cfg fresh cached adaptive_precheck auth_handler rmode request st;
      match r with
      | Err e => mret (Err e, st)
      | Ok _ => execute_recorded_sequentially batch st
      end
  end.

(** Write one unsent request and flush it. *)
Definition write_unsent_request (i : nat) : M (result ErrorKind unit) :=
  log_metrics [MeCommand i; MeUserCommand];;
  written ← ask (send_to env);
  match written with
  | Err k => mret (Err k)
  | Ok _ => ask (send_to env)
  end.

(** The refill after a response: the next unsent requests are written while the
    window has room.  The result has the error of a write, whether anything was
    written, the routes, the requests in flight and the connection. *)
Fixpoint refill_window (i : nat) (requests : Routed) (n : nat) (c : ConnectionStream)
    : M (option ErrorKind * bool * Routed * nat * ConnectionStream) :=
  match requests with
  | [] => mret (None, false, [], n, c)
  | (request, SendUpstream a g false) :: rest =>
      if n <? MAX_UPSTREAM_ARTICLE_WINDOW then
        log_metrics [MeCommand i; MeUserCommand];;
        written ← ask (send_to env);
        match written with
        | Err k => mret (Some k, false, requests, n, in_flight c)
        | Ok _ =>
            '(e, _, rest, n, c) ← refill_window i rest (S n) (in_flight c);
            mret (e, true, (request, SendUpstream a g true) :: rest, n, c)
        end
      else mret (None, false, requests, n, c)
  | route :: rest =>
      '(e, refilled, rest, n, c) ← refill_window i rest n c;
      mret (e, refilled, route :: rest, n, c)
  end.

Definition refill_and_flush_window (i : nat) (requests : Routed) (n : nat) (c : ConnectionStream)
    : M (option ErrorKind * Routed * nat * ConnectionStream) :=
  '(e, refilled, requests, n, c) ← refill_window i requests n c;
  match e with
  | Some k => mret (Some k, requests, n, c)
  | None =>
      if (refilled : bool) then
        flushed ← ask (send_to env);
        mret (match flushed with Ok _ => None | Err k => Some k end, requests, n, c)
      else mret (None, requests, n, c)
  end.

(** After a failure: the connection and the guards are given up and the remaining
    requests are executed one by one. *)
Definition abandon_window (requests : Routed) (st : PerCommandLoopState) : M (result SessionError unit * PerCommandLoopState) :=
  drop_requests requests;; execute_recorded_sequentially requests.*1 st.

(** The end of the window: the lease replaces the one of the batch, which is
    dropped. *)
Definition finish_window (i : nat) (c : ConnectionStream) : M (result SessionError unit) :=
  f ← flush_client;
  match f with
  | Err k => retire i RemovedCooldown c;; mret (Err (io_error k))
  | Ok _ =>
      if has_pending_bytes c then retire i RemovedClean c;; mret (Ok ())
      else
        l ← read lease;
        match l with Some (j, old) => retire j RemovedCooldown old | None => mret () end;;
        set_lease (Some (i, c));; mret (Ok ())
  end.

(** ** The window *)

(** [forward_sent_article_window_responses]: a round per request; [n] requests are
    in flight.  [None] is running out of rounds. *)
Fixpoint forward_sent_responses (rounds : nat) (i : nat) (slot : AvailabilitySlot) (requests : Routed) (n : nat) (c : ConnectionStream)
    (st : PerCommandLoopState) : M (option (result SessionError unit * PerCommandLoopState)) :=
  match requests, rounds with
  | [], _ => r ← finish_window i c; mret (Some (r, st))
  | _, 0 => mret None
  | (_, KnownMissing) :: rest, S rounds =>
      r ← send_430_to_client;
      match r with
      | Err e => retire i RemovedCooldown c;; drop_requests rest;; mret (Some (Err e, st))
      | Ok _ => forward_sent_responses rounds i slot rest n c st
      end
  | (request, SendUpstream a g sent) :: rest, S rounds =>
      written ← (if sent then mret (Ok ()) else write_unsent_request i);
      match written with
      | Err _ => retire i RemovedCooldown (in_flight c);; r ← abandon_window requests st; mret (Some r)
      | Ok _ =>
          let n := if sent then n else S n in
          response ← forward_response_for_already_sent_request i slot a request c;
          match response with
          | Err (AlreadySentRead _) => r ← abandon_window requests st; mret (Some r)
          | Err (AlreadySentTransfer e) => drop_requests requests;; mret (Some (Err e, st))
          | Ok c =>
              s ← read selector;
              set_selector match g with Some g => guard_complete s g | None => s end;;
              '(error, rest, n, c) ← refill_and_flush_window i rest (n - 1) c;
              match error with
              | Some _ => retire i RemovedCooldown c;; r ← abandon_window rest st; mret (Some r)
              | None => forward_sent_responses rounds i slot rest n c st
              end
          end
      end
  end.

(** [forward_single_backend_article_window]; a request to retry all requests one by
    one comes with the requests as the routing left them. *)
Definition forward_single_backend_article_window (target : SingleBackendArticleWindow) (batch : list RequestContext) (st : PerCommandLoopState)
    : M (option (result SessionError ArticleWindowExecution) * list RequestContext * PerCommandLoopState) :=
  requests ← route_window_requests target batch;
  if negb (existsb needs_upstream_request requests.*2) then
    r ← write_known_missing_responses_for_entire_window (length requests);
    mret match r with
         | Err e => (Some (Err e), requests.*1, st)
         | Ok _ => (Some (Ok ForwardedAllResponses), requests.*1, record_article_window_request_bytes requests.*1 st)
         end
  else
    '(sent, st) ← transition_routed_article_window_to_sent (window_backend target) requests st;
    match sent with
    | None => mret (Some (Ok RetryAllSequentially), requests.*1, st)
    | Some (n, requests, c) =>
        o ← forward_sent_responses (length requests) (window_backend target) (window_slot target) requests n c st;
        mret match o with
             | None => (None, requests.*1, st)
             | Some (r, st) => (Some ((λ _, ForwardedAllResponses) <$> r), requests.*1, st)
             end
    end.

(** The loop of [execute_pipelineable_batch] over the whole batch. *)
Fixpoint execute_sequentially (batch : list RequestContext) (st : PerCommandLoopState) : M (result SessionError unit * PerCommandLoopState) :=
  match batch with
  | [] => mret (Ok (), st)
  | request :: batch =>
      '(r, st) ← execute_and_record_request_bytes t env cfg fresh cached adaptive_precheck auth_handler rmode request st;
      match r with
      | Err e => mret (Err e, st)
      | Ok _ => execute_sequentially batch st
      end
  end.

Definition execute_pipelineable_batch (batch : list RequestContext) (st : PerCommandLoopState)
    : M (option (result SessionError unit * PerCommandLoopState)) :=
  let st := refresh_access st in
  s ← read selector;
  match select_single_backend_article_window s (loop_access st) batch with
  | None => r ← execute_sequentially batch st; mret (Some r)
  | Some target =>
      '(o, batch, st) ← forward_single_backend_article_window target batch st;
      match o with
      | None => mret None
      | Some (Err e) => mret (Some (Err e, st))
      | Some (Ok ForwardedAllResponses) => mret (Some (Ok (), st))
      | Some (Ok RetryAllSequentially) => r ← execute_sequentially batch st; mret (Some r)
      end
  end.
End Window.

(** ** Replies in order *)

Section InOrder.
Context {PL : PoolLimit} {A : Type} (R : A → World → bytes → Prop).
Hypothesis R_carries : ∀ a w w' p, carries w w' → R a w p → R a w' p.

(** The client got a reply to each of [l], in order; or, if the session ends, to the
    first ones of them and a part of the reply to the next one. *)
Definition in_order (l : list A) (w w' : World) (r : result SessionError unit) : Prop :=
  carries w w' ∧ ∃ ps q, sent (client w') = sent (client w) ++ concat ps ++ q ∧
    match r with
    | Ok _ => Forall2 (λ a p, R a w' p) l ps ∧ q = []
    | Err e => ∃ l1 l2, l = l1 ++ l2 ∧ Forall2 (λ a p, R a w' p) l1 ps ∧
        match l2 with [] => q = [] | a :: _ => broken_off (R a w') e q end
    end.

Lemma in_order_nil w w' : carries w w' → sent (client w') = sent (client w) → in_order [] w w' (Ok ()).
Proof. intros Hc Hs. split; [done|]. exists [], []. cbn. rewrite Hs, app_nil_r. split; [done|]. split; [constructor|done]. Qed.

(** The end of a run that could not be flushed. *)
Lemma in_order_unflushed w w' e : carries w w' → sent (client w') = sent (client w) → in_order [] w w' (Err e).
Proof.
  intros Hc Hs. split; [done|]. exists [], []. cbn. rewrite Hs, app_nil_r. split; [done|].
  exists [], []. split; [done|]. split; [constructor|done].
Qed.

Lemma in_order_cons a l w w1 w' p r :
  carries w w1 → sent (client w1) = sent (client w) ++ p → R a w1 p → in_order l w1 w' r → in_order (a :: l) w w' r.
Proof.
  intros Hc Hs Hp [Hc' (ps & q & Hs' & H)]. split; [by etrans|]. assert (R a w' p) as Hp' by by eapply R_carries.
  exists (p :: ps), q. cbn. rewrite Hs', Hs, <- !app_assoc. split; [done|]. destruct r as [[]|e].
  - destruct H as [H ->]. by split; [constructor|].
  - destruct H as (l1 & l2 & -> & H & Hq). exists (a :: l1), l2. split; [done|]. by split; [constructor|].
Qed.

Lemma in_order_stop a l w w' e q :
  carries w w' → sent (client w') = sent (client w) ++ q → broken_off (R a w') e q → in_order (a :: l) w w' (Err e).
Proof.
  intros Hc Hs Hq. split; [done|]. exists [], q. split; [done|]. exists [], (a :: l). split; [done|]. split; [constructor|done].
Qed.

(** Steps that the client does not see. *)
Lemma in_order_quiet l w w1 w' r : carries w w1 → sent (client w1) = sent (client w) → in_order l w1 w' r → in_order l w w' r.
Proof. intros Hc Hs [Hc' H]. rewrite Hs in H. by split; [etrans|]. Qed.

Lemma in_order_replied a l w w1 r :
  replied (R a) w w1 (A := unit) r → (∀ e, r = Err e → in_order (a :: l) w w1 (Err e)) ∧
    (∀ w' r', r = Ok () → in_order l w1 w' r' → in_order (a :: l) w w' r').
Proof.
  intros [Hc (p & Hs & Hp)]. split.
  - intros e ->. by eapply in_order_stop.
  - intros w' r' -> H. by eapply in_order_cons.
Qed.

Lemma in_order_app l l' w w1 w' r : in_order l w w1 (Ok ()) → in_order l' w1 w' r → in_order (l ++ l') w w' r.
Proof.
  intros [Hc (ps & q & Hs & Hps & ->)] [Hc' (ps' & q' & Hs' & H)]. split; [by etrans|].
  assert (Forall2 (λ a p, R a w' p) l ps) as Hl by (eapply Forall2_impl; [exact Hps|]; intros a p; by apply R_carries).
  exists (ps ++ ps'), q'. rewrite Hs', Hs, concat_app, app_nil_r, <- !app_assoc. split; [done|]. destruct r as [[]|e].
  - destruct H as [H ->]. split; [by apply Forall2_app|done].
  - destruct H as (l1 & l2 & -> & H1 & H2). exists (l ++ l1), l2. rewrite app_assoc. split; [done|]. split; [by apply Forall2_app|done].
Qed.

Lemma in_order_err_app l l' w w' e : in_order l w w' (Err e) → in_order (l ++ l') w w' (Err e).
Proof.
  intros [Hc (ps & q & Hs & l1 & l2 & -> & H1 & H2)]. split; [done|]. exists ps, q. split; [done|]. exists l1, (l2 ++ l').
  rewrite app_assoc. split; [done|]. split; [done|]. destruct l2 as [|a l2]; [|done]. subst q. destruct l'; [done|]. by right; left.
Qed.

(** More that the client does not see at the end. *)
Lemma in_order_after l w w1 w' r : in_order l w w1 r → carries w1 w' → sent (client w') = sent (client w1) → in_order l w w' r.
Proof.
  intros [Hc (ps & q & Hs & H)] Hc' Hs'. split; [by etrans|]. exists ps, q. rewrite Hs', Hs. split; [done|].
  assert (∀ l ps, Forall2 (λ a p, R a w1 p) l ps → Forall2 (λ a p, R a w' p) l ps) as Hl
    by (intros l0 ps0 H0; eapply Forall2_impl; [exact H0|]; intros a p; by apply R_carries).
  destruct r as [[]|e].
  - destruct H as [H ->]. split; [by apply Hl|done].
  - destruct H as (l1 & l2 & -> & H1 & H2). exists l1, l2. split; [done|]. split; [by apply Hl|]. destruct l2 as [|a l2]; [done|].
    destruct H2 as [?|[?|(q' & ? & ?)]]; [by left|by right; left|right; right]. exists q'. split; [by eapply R_carries|done].
Qed.
End InOrder.

(** The same replies for requests that differ in their records only. *)
Lemma in_order_same {PL : PoolLimit} {A B} (R : A → World → bytes → Prop) (R' : B → World → bytes → Prop) l l' w w' r :
  Forall2 (λ a b, ∀ w p, R' b w p → R a w p) l l' → in_order R' l' w w' r → in_order R l w w' r.
Proof.
  intros Hl [Hc (ps & q & Hs & H)]. split; [done|]. exists ps, q. split; [done|].
  assert (∀ l l' ps, Forall2 (λ a b, ∀ w p, R' b w p → R a w p) l l' → Forall2 (λ b p, R' b w' p) l' ps → Forall2 (λ a p, R a w' p) l ps) as Hps.
  { clear. intros l l' ps H. revert ps. induction H as [|a b l l' Hab _ IH]; intros ps Hps; [by inversion Hps|].
    apply Forall2_cons_inv_l in Hps as (p & ps' & Hp & Hps' & ->). constructor; auto. }
  destruct r as [[]|e].
  - destruct H as [H ->]. split; [|done]. by eapply Hps.
  - destruct H as (l1' & l2' & -> & H1 & H2). apply Forall2_app_inv_r in Hl as (l1 & l2 & Hl1 & Hl2 & ->). exists l1, l2.
    split; [done|]. split; [by eapply Hps|]. destruct Hl2 as [|a b l2 l2' Hab Hl2]; [done|].
    destruct H2 as [?|[?|(q' & ? & ?)]]; [by left|by right; left|right; right]. exists q'. auto.
Qed.

(** ** Facts *)

Section WindowFacts.
Context {MC : Memchr} {MS : MemchrSpec MC} {PL : PoolLimit} (t : target) (env : Oracle) (cfg : SessionConfig).
Variable fresh : PooledBuffer.
Variable cached : nat → bytes → option CachedArticle.
Variable adaptive : bool.
Context (auth_handler : AuthHandler) (rmode : RoutingMode).
Hypothesis fresh_acquired : acquired fresh.
Hypothesis env_ok : oracle_ok env.

Let fresh_ok : buffer_ok fresh := proj1 fresh_acquired.

Lemma read_sent_spec request c :
  conn_ok c → ∃ r c', read_exchange_for_already_sent_request fresh request c = Some (r, c') ∧ conn_ok c' ∧
    ∀ cl, r = Ok cl → classified_ok request cl.
Proof.
  intros Hc. unfold read_exchange_for_already_sent_request.
  destruct (take_queued_spec fresh (in_flight c) fresh_acquired Hc) as (b & c1 & -> & Hb & Hc1 & _). cbn [mbind option_bind].
  assert (∀ b c, buffer_ok b → conn_ok c → ∃ r c', Some (read_unbound request b c) = Some (r, c') ∧ conn_ok c' ∧
    ∀ cl, r = Ok cl → classified_ok request cl) as Hun.
  { clear. intros b c Hb Hc. unfold read_unbound. pose proof (read_unbound_ok (reads_left c) request b c Hc Hb) as H.
    destruct (read_unbound_loop _ request b c) as [r c']. exists r, c'. by destruct H as (? & _ & ?). }
  destruct (initialized b =? 0); [|by apply Hun]. pose proof (read_from_spec b c1 Hc1 Hb) as H.
  destruct (read_from b c1) as [[[[|n]|k] b'] c2].
  - eexists _, c2. split; [done|]. split; [by destruct_and! H|done].
  - destruct H as (_ & _ & _ & Hb' & Hc' & _). by apply Hun.
  - eexists _, c2. split; [done|]. split; [by destruct_and! H|done].
Qed.

(** A miss that an entry of the cache records. *)
Definition cached_missing (request : RequestContext) (slot : AvailabilitySlot) : Prop :=
  ∃ n key e, request_key request = Some key ∧ cached n key = Some e ∧ is_missing_slot (ca_availability e) slot = true.

Lemma load_cached_spec request w :
  spec (load_cached_article_availability cached request) w (λ x w', quiet w w' ∧ same_request request x.2 ∧
    ∀ slot, is_missing_slot x.1 slot = true → cached_missing request slot).
Proof.
  unfold load_cached_article_availability. run find_entry_spec as entry w1 [Hq He]. destruct entry as [e|].
  - split; [done|]. split; [done|]. cbn. intros slot Hm. destruct (He e eq_refl) as (n & key & ? & ?). by exists n, key, e.
  - by split; [|split].
Qed.

(** The routes of a batch: a known miss is one of the cache. *)
Definition route_ok (slot : AvailabilitySlot) (x : RequestContext * ArticleWindowRequest) : Prop :=
  match x.2 with KnownMissing => cached_missing x.1 slot | SendUpstream _ _ _ => True end.

Lemma same_key r r' : same_request r r' → request_key r' = request_key r.
Proof. intros H. unfold request_key. by rewrite (same_message_id _ _ H). Qed.

Lemma route_window_spec target batch w :
  spec (route_window_requests cached target batch) w (λ requests w', quiet w w' ∧
    Forall2 same_request batch requests.*1 ∧ Forall (route_ok (window_slot target)) requests).
Proof.
  revert w. induction batch as [|request batch IH]; intros w; [by split_and!|]. cbn [route_window_requests].
  run load_cached_spec as [a request'] w1 (Hq1 & Hs & Ha). cbn [fst snd] in *. apply spec_bind.
  eapply (spec_mono _ _ (λ route w', quiet w1 w' ∧ route_ok (window_slot target) (request', route))).
  - unfold should_try_slot. destruct (is_missing_slot a (window_slot target)) eqn:Em; cbn [negb].
    + split; [done|]. destruct (Ha _ Em) as (n & key & e & ?). exists n, key, e. cbn [fst]. by rewrite (same_key _ _ Hs).
    + apply spec_bind, spec_read. cbn [guard_for_manual_backend].
      run set_selector_spec as [] w2 (Hq2 & _); [by apply update_config|]. by split.
  - intros route w2 [Hq2 Hr]. run IH as requests w3 (Hq3 & Hsame & Hok). split; [by do 2 (etrans; [done|])|].
    split; by constructor.
Qed.

Lemma drop_requests_quiet requests : quietly (drop_requests requests).
Proof.
  induction requests as [|[request [a [g|] sent|]] requests IH]; [apply quietly_ret| |done|done]. intros w. cbn [drop_requests].
  apply spec_bind, spec_read. run set_selector_spec as [] w1 (Hq1 & _).
  - unfold guard_drop. destruct (guard_completed g); [done|]. by apply update_config.
  - eapply spec_mono; [apply IH|]. intros [] w2 Hq2. by etrans.
Qed.

(** Sending does not change where a request goes. *)
Definition same_route (x y : RequestContext * ArticleWindowRequest) : Prop :=
  x.1 = y.1 ∧ match x.2, y.2 with
              | SendUpstream a g _, SendUpstream a' g' _ => a = a' ∧ g = g'
              | KnownMissing, KnownMissing => True
              | _, _ => False
              end.

#[local] Instance same_route_refl : Reflexive same_route.
Proof. by intros [request [a g s|]]. Qed.

Lemma same_routes_requests requests requests' : Forall2 same_route requests requests' → requests'.*1 = requests.*1.
Proof. induction 1 as [|x y l l' [E _] _ IH]; [done|]. cbn. by rewrite E, IH. Qed.

Lemma same_routes_ok slot requests requests' :
  Forall2 same_route requests requests' → Forall (route_ok slot) requests → Forall (route_ok slot) requests'.
Proof.
  induction 1 as [|[r x] [r' y] l l' [E H] _ IH]; intros Hok; [constructor|]. apply Forall_cons in Hok as [Hx Hok].
  constructor; [|auto]. unfold route_ok in *. cbn in *. by destruct x, y; subst.
Qed.

Lemma write_window_spec i requests n w :
  spec (write_window_requests env i requests n) w (λ x w', quiet w w' ∧ Forall2 same_route requests x.2).
Proof.
  revert n w. induction requests as [|[request [a g s|]] requests IH]; intros n w; cbn [write_window_requests]; [by split; [|constructor]|..].
  - destruct (_ =? _); [by split|]. run log_metrics_spec as [] w1 Hq1. run ask_spec as written w2 [Hq2 _].
    assert (quiet w w2) as Hq by by etrans. destruct written as [[]|k]; [|by split].
    run IH as [r rest] w3 [Hq3 Hr]. split; [by etrans|]. by constructor.
  - destruct (_ =? _); [by split|]. run IH as [r rest] w1 [Hq1 Hr]. split; [done|]. by constructor.
Qed.

Lemma write_and_flush_spec i requests w :
  spec (write_and_flush_article_window_requests env i requests) w (λ x w', quiet w w' ∧ Forall2 same_route requests x.2).
Proof.
  unfold write_and_flush_article_window_requests. run write_window_spec as [r rest] w1 [Hq1 Hr]. cbn [snd] in Hr.
  destruct r as [n|k]; [|by split]. run ask_spec as flushed w2 [Hq2 _]. by split; [etrans|].
Qed.

(** ** Replies to article requests *)

(** The reply to a pipelined request. *)
Definition article_reply (request : RequestContext) (w : World) (p : bytes) : Prop :=
  forward_reply cached request w p ∨ p = responses.AUTH_REQUIRED_FOR_COMMAND.

Lemma article_reply_carries request w w' p : carries w w' → article_reply request w p → article_reply request w' p.
Proof. intros Hc [?|?]; [left|by right]. by apply (forward_reply_carries cached _ w). Qed.

Lemma article_reply_same r r' w p : same_request r r' → article_reply r' w p → article_reply r w p.
Proof.
  intros Hs [[H|[H|[H Hm]]]|H]; [left; left; by eapply same_found|by left; right; left| |by right].
  left; right; right. split; [done|]. intros b Hb. unfold known_missing in *. rewrite <- (same_key _ _ Hs). by apply Hm.
Qed.

Lemma same_pipelineable r r' : same_request r r' → is_pipelineable r' = is_pipelineable r.
Proof. intros (E1 & _ & _ & E2). unfold is_pipelineable, route_class, has_message_id. by rewrite E1, E2. Qed.

Lemma same_pipelineables batch batch' :
  Forall2 same_request batch batch' → Forall (λ r, is_pipelineable r = true) batch → Forall (λ r, is_pipelineable r = true) batch'.
Proof.
  induction 1 as [|a b l l' Hab _ IH]; intros Hp; [constructor|]. apply Forall_cons in Hp as [? ?].
  constructor; [by rewrite (same_pipelineable _ _ Hab)|auto].
Qed.

Lemma pipelineable_plan request access :
  is_pipelineable request = true → classify_request request access rmode = if can_access_backend access then Forward else RequireAuth.
Proof.
  unfold is_pipelineable, classify_request, route_class. destruct (kind request), (has_message_id request); try done;
    by destruct access.
Qed.

Lemma command_article_reply request w p : is_pipelineable request = true → command_reply cached rmode request w p ↔ article_reply request w p.
Proof.
  intros Hp. unfold command_reply, plan_reply, article_reply. rewrite bool_decide_false by by apply pipelineable_not_quit. split.
  - intros [access H]. rewrite (pipelineable_plan _ _ Hp) in H. destruct access; cbn in H; auto.
  - intros [?|?]; [exists Unrestricted|exists Required]; by rewrite (pipelineable_plan _ _ Hp).
Qed.

(** ** Receiving a response *)

(** The only backend. *)
Definition only_backend (i : nat) (slot : AvailabilitySlot) (w : World) : Prop :=
  (∃ b, backends (selector w) !! i = Some b ∧ availability_slot b = slot) ∧
  ∀ b, b ∈ backends (selector w) → availability_slot b = slot.

Lemma only_backend_carries i slot w w' : carries w w' → only_backend i slot w → only_backend i slot w'.
Proof.
  intros Hc [(b & Hb & Hs) Hall]. split.
  - destruct (config_lookup _ _ _ _ (cr_config _ _ Hc) Hb) as (b' & Hb' & E). exists b'. split; [done|]. unfold config in E. congruence.
  - intros b' Hb'. destruct (backend_carries _ _ _ Hc Hb') as (b0 & Hb0 & ->). auto.
Qed.

(** What became of the response to a request that was sent. *)
Definition received (request : RequestContext) (w : World) (r : result AlreadySentResponseError ConnectionStream) (w' : World) : Prop :=
  carries w w' ∧ ∃ p, sent (client w') = sent (client w) ++ p ∧
    match r with
    | Ok c => conn_ok c ∧ phase c = PhaseComplete ∧ forward_reply cached request w' p
    | Err (AlreadySentRead _) => p = []
    | Err (AlreadySentTransfer e) => broken_off (forward_reply cached request w') e p
    end.

Lemma already_sent_write_spec i c k request w w0 p :
  conn_ok c → carries w0 w → sent (client w) = sent (client w0) ++ p →
  spec (already_sent_write_error i c k) w (received request w0).
Proof.
  intros Hc Hw Hs. unfold already_sent_write_error. run handle_error_spec as e w1 [[Hg1 Hc1] ->]; [done|].
  split; [etrans; [done|by apply grows_carries]|]. exists p. cbn. rewrite Hc1. split; [done|]. left. apply client_write_terminal.
Qed.

Lemma report_missing_spec i slot request asked cl c status w :
  world_ok w → only_backend i slot w → classified_ok asked cl → conn_ok c → (i, Some status) ∈ answers w → as_u16 status = 430%N →
  spec (report_already_sent_missing t fresh i slot request cl c) w (received request w).
Proof.
  intros Hok Honly Hcl Hc Hin Hst. unfold report_already_sent_missing. destruct Honly as [(b & Hb & <-) Hall].
  run record_authoritative_spec as [] w1 [[Hg1 Hc1] _]; [done..|]. pose proof (receiving_observe_ok t fresh i fresh_ok asked cl c Hcl Hc) as Ho.
  destruct (receiving_observe t fresh i cl c) as [[[]|e] c1], Ho as [Hcok Ho].
  2: { run handle_error_spec as e' w2 [[Hg2 Hc2] ->]; [done|]. split; [apply grows_carries; by etrans|]. exists []. cbn.
       rewrite Hc2, Hc1, app_nil_r. split; [done|]. by right; left. }
  run write_client_spec as r w2 [Hg2 (p & Hs2 & Hp)]. rewrite Hc1 in Hs2. assert (grows w w2) as Hg by by etrans. destruct r as [[]|k].
  2: { eapply already_sent_write_spec; [done|by apply grows_carries|done]. }
  run add_response_bytes_spec as [] w3 [Hg3 Hc3]. run flush_client_spec as f w4 [Hg4 Hs4].
  assert (carries w w4) as Hcar by (apply grows_carries; by do 2 (etrans; [done|])). rewrite Hc3, Hs2 in Hs4.
  destruct f as [[]|k]; [|by eapply already_sent_write_spec]. split; [done|]. exists p. split; [done|]. split; [done|]. split; [done|].
  right; right. split; [done|]. intros b' Hb'. right. apply (answered_mono w); [apply Hcar..|].
  destruct (backend_carries _ _ _ Hcar Hb') as (b0 & Hb0 & ->). exists i, b, status. by rewrite (Hall _ Hb0).
Qed.

Lemma write_sent_spec i request cl c status w :
  world_ok w → classified_ok request cl → conn_ok c → status_code cl = Some status → as_u16 status ≠ 430%N →
  spec (write_already_sent_response t env cfg fresh i request cl c) w (received request w).
Proof.
  intros Hok Hcl Hc Hst Hne. unfold write_already_sent_response.
  run write_response_spec as [r c1] w1 [Hg1 [(Hc1 & p & Hs & _ & Hout) Hwhole]]; [done..|by rewrite Hst|]. cbn [fst snd] in *.
  destruct r as [[st n]|e]; cbn [fmap result_fmap snd] in Hout.
  - destruct (Hwhole _ eq_refl) as (p' & status' & Hs' & Hst' & Hp'). assert (p' = p) as -> by (rewrite Hs in Hs'; by apply app_inv_head in Hs').
    destruct Hout as (-> & _ & Hph). run flush_client_spec as f w2 [Hg2 Hs2]. assert (grows w w2) as Hg by by etrans. rewrite Hs in Hs2.
    destruct f as [[]|k]; [|eapply already_sent_write_spec; [done|by apply grows_carries|done]].
    run record_metrics_quiet as [] w3 [Hg3 Hc3]. run record_completion_spec as [] w4 [Hg4 Hc4]. run add_response_bytes_spec as [] w5 [Hg5 Hc5].
    split; [apply grows_carries; by do 3 (etrans; [done|])|]. exists p. cbn. rewrite Hc5, Hc4, Hc3. split; [done|]. split; [done|].
    split; [done|]. left. left. exists status'. rewrite Hst in Hst'. injection Hst' as <-. done.
  - run handle_error_spec as e' w2 [[Hg2 Hc2] ->]; [done|]. split; [apply grows_carries; by etrans|]. exists p. cbn. rewrite Hc2.
    split; [done|]. apply transfer_error_terminal in Hout as [->|?]; [by right; left|by left].
Qed.

Lemma forward_sent_spec i slot a request c w :
  world_ok w → only_backend i slot w → conn_ok c →
  spec (forward_response_for_already_sent_request t env cfg fresh i slot a request c) w (received request w).
Proof.
  intros Hok Honly Hc. unfold forward_response_for_already_sent_request. run begin_request_carries as [] w1 [Hc1 E1].
  destruct (read_sent_spec request c Hc) as (r & c1 & -> & Hcok & Hcl). cbn [default].
  assert (∀ w2 e, carries w w2 → client w2 = client w → spec (retire i RemovedCooldown c1;; mret (Err (AlreadySentRead e))) w2 (received request w)) as Hread.
  { intros w2 e Hcar E. run retire_spec as [] w3 [Hg3 Hc3]; [done|]. split; [etrans; [done|by apply grows_carries]|]. exists []. cbn.
    by rewrite Hc3, E, app_nil_r. }
  destruct r as [cl|e]; [|by apply Hread]. specialize (Hcl cl eq_refl). run log_answer_spec as [] w2 [[Hg2 Hc2] Hin].
  assert (carries w w2) as Hcar by (etrans; [done|by apply grows_carries]). assert (client w2 = client w) as E2 by congruence.
  assert (world_ok w2) as Hok2 by by apply Hcar. assert (only_backend i slot w2) as Honly2 by by apply (only_backend_carries _ _ w).
  destruct (status_code cl) as [status|] eqn:Est; [|by apply Hread].
  assert (∀ m, spec m w2 (received request w2) → spec m w2 (received request w)) as Hm.
  { intros m H. eapply spec_mono; [exact H|]. intros r w3 [Hc3 (p & Hs & Hr)]. rewrite E2 in Hs. split; [by etrans|]. by exists p. }
  apply Hm. destruct (N.eqb_spec (as_u16 status) 430).
  - by eapply report_missing_spec.
  - by eapply write_sent_spec.
Qed.

(** ** The window *)

Abbreviation answers_requests := (in_order article_reply).

Lemma execute_recorded_article request st w :
  session_ok w → is_pipelineable request = true →
  spec (execute_with_recorded_request_bytes t env cfg fresh cached adaptive auth_handler rmode request st) w
    (λ x w', replied (article_reply request) w w' x.1).
Proof.
  intros Hok Hp. eapply spec_mono; [by apply execute_recorded_spec|]. intros x w'. apply replied_mono. intros p. by apply command_article_reply.
Qed.

Lemma execute_recorded_sequentially_spec batch st w :
  session_ok w → Forall (λ r, is_pipelineable r = true) batch →
  spec (execute_recorded_sequentially t env cfg fresh cached adaptive auth_handler rmode batch st) w
    (λ x w', answers_requests batch w w' x.1).
Proof.
  revert st w. induction batch as [|request batch IH]; intros st w Hok Hp; [by apply in_order_nil|]. apply Forall_cons in Hp as [Hp Hps].
  cbn [execute_recorded_sequentially]. run execute_recorded_article as [r st'] w1 Hr; [done..|]. cbn [fst] in Hr.
  destruct (in_order_replied _ article_reply_carries _ batch _ _ _ Hr) as [Herr Hnext]. destruct r as [[]|e]; [|by apply Herr].
  eapply spec_mono; [apply IH; [|done]|intros x w2; by apply Hnext]. eapply session_ok_carries; [apply Hr|done].
Qed.

Lemma execute_sequentially_spec batch st w :
  session_ok w → Forall (λ r, is_pipelineable r = true) batch →
  spec (execute_sequentially t env cfg fresh cached adaptive auth_handler rmode batch st) w (λ x w', answers_requests batch w w' x.1).
Proof.
  revert st w. induction batch as [|request batch IH]; intros st w Hok Hp; [by apply in_order_nil|]. apply Forall_cons in Hp as [Hp Hps].
  cbn [execute_sequentially]. unfold execute_and_record_request_bytes. run execute_recorded_article as [r st'] w1 Hr; [done..|]. cbn [fst] in Hr.
  destruct (in_order_replied _ article_reply_carries _ batch _ _ _ Hr) as [Herr Hnext]. destruct r as [[]|e]; [|by apply Herr].
  eapply spec_mono; [apply IH; [|done]|intros x w2; by apply Hnext]. eapply session_ok_carries; [apply Hr|done].
Qed.

Lemma abandon_spec requests st w :
  session_ok w → Forall (λ r, is_pipelineable r = true) requests.*1 →
  spec (abandon_window t env cfg fresh cached adaptive auth_handler rmode requests st) w (λ x w', answers_requests requests.*1 w w' x.1).
Proof.
  intros Hok Hp. unfold abandon_window. run drop_requests_quiet as [] w1 [Hg1 Hc1]. assert (carries w w1) as Hc by by apply grows_carries.
  eapply spec_mono; [apply execute_recorded_sequentially_spec; [by apply (session_ok_carries w)|done]|].
  intros x w2. apply in_order_quiet; [done|by rewrite Hc1].
Qed.

Definition no_upstream (requests : Routed) : bool := negb (existsb needs_upstream_request requests.*2).

Lemma same_routes_upstream requests requests' : Forall2 same_route requests requests' → no_upstream requests' = no_upstream requests.
Proof.
  unfold no_upstream. intros Hs. f_equal. induction Hs as [|[? x] [? y] l l' [_ H] _ IH]; [done|]. cbn in *. rewrite <- IH. by destruct x, y.
Qed.

Lemma refill_window_spec i requests n c w :
  conn_ok c →
  spec (refill_window env i requests n c) w (λ x w', let '(_, refilled, requests', _, c') := x in
    quiet w w' ∧ Forall2 same_route requests requests' ∧ conn_ok c' ∧ (no_upstream requests = true → c' = c ∧ refilled = false)).
Proof.
  revert n c w. induction requests as [|[request [a g [|]|]] requests IH]; intros n c w Hc; cbn [refill_window]; [by split_and!|..].
  - run IH as [[[[e refilled] rest] n'] c'] w1 (Hq & Hs & Hc' & Hno); [done|]. split_and!; [done|by constructor|done|done].
  - destruct (n <? _); [|by split_and!]. run log_metrics_spec as [] w1 Hq1. run ask_spec as written w2 [Hq2 _].
    assert (quiet w w2) as Hq by by etrans. destruct written as [[]|k]; [|by split_and!].
    run IH as [[[[e refilled] rest] n'] c'] w3 (Hq3 & Hs & Hc' & _); [done|]. split_and!; [by etrans|by constructor|done|done].
  - run IH as [[[[e refilled] rest] n'] c'] w1 (Hq & Hs & Hc' & Hno); [done|]. split_and!; [done|by constructor|done|done].
Qed.

Lemma refill_and_flush_spec i requests n c w :
  conn_ok c →
  spec (refill_and_flush_window env i requests n c) w (λ x w', let '(_, requests', _, c') := x in
    quiet w w' ∧ Forall2 same_route requests requests' ∧ conn_ok c' ∧ (no_upstream requests = true → c' = c)).
Proof.
  intros Hc. unfold refill_and_flush_window. run refill_window_spec as [[[[e refilled] rest] n'] c'] w1 (Hq & Hs & Hc' & Hno); [done|].
  destruct e as [k|]; [split_and!; try done; intros H; by apply Hno|]. destruct refilled; [|split_and!; try done; intros H; by apply Hno].
  run ask_spec as flushed w2 [Hq2 _]. split_and!; try done; [by etrans|]. intros H. by apply Hno.
Qed.

Lemma finish_window_spec i c w :
  world_ok w → conn_ok c → phase c = PhaseComplete → spec (finish_window i c) w (λ r w', answers_requests [] w w' r).
Proof.
  intros Hok Hc Hph. unfold finish_window. run flush_client_spec as f w1 [Hg1 Hs1].
  assert (∀ w', quiet w1 w' → carries w w' ∧ sent (client w') = sent (client w)) as Hend.
  { intros w' [Hg Hcl]. split; [apply grows_carries; by etrans|congruence]. }
  destruct f as [[]|k].
  2: { run retire_spec as [] w2 Hq2; [done|]. by apply in_order_unflushed; apply Hend. }
  destruct (has_pending_bytes c) eqn:Ep.
  { run retire_spec as [] w2 Hq2; [done|]. by apply in_order_nil; apply Hend. }
  apply spec_bind, spec_read. apply spec_bind. eapply (spec_mono _ _ (λ _ w', quiet w1 w')).
  { destruct (lease w1) as [[j old]|]; [by apply retire_spec|by apply quietly_ret]. }
  intros [] w2 Hq2. run set_lease_spec as [] w3 Hq3.
  - intros j c' [= <- <-]. split_and!; [done|done|by apply pending_zero].
  - apply in_order_nil; apply Hend; by etrans.
Qed.

(** A window whose requests are to be answered on the connection. *)
Record window_ok (i : nat) (slot : AvailabilitySlot) (requests : Routed) (c : ConnectionStream) (w : World) : Prop := {
  wk_session : session_ok w;
  wk_only : only_backend i slot w;
  wk_conn : conn_ok c;
  wk_done : no_upstream requests = true → phase c = PhaseComplete;
  wk_routes : Forall (route_ok slot) requests;
  wk_requests : Forall (λ r, is_pipelineable r = true) requests.*1 }.

Lemma window_ok_carries i slot requests c w w' : carries w w' → window_ok i slot requests c w → window_ok i slot requests c w'.
Proof.
  intros Hc [H1 H2 H3 H4 H5 H6]. split; try done; [by apply (session_ok_carries w)|by apply (only_backend_carries _ _ w)].
Qed.

(** The window answered its requests. *)
Definition forwarded (requests : list RequestContext) (w : World) (o : option (result SessionError unit * PerCommandLoopState)) (w' : World) : Prop :=
  ∃ r st, o = Some (r, st) ∧ answers_requests requests w w' r.

Lemma abandon_forwarded requests rest st w w1 :
  Forall (λ r, is_pipelineable r = true) requests.*1 → session_ok w1 →
  (∀ w' r, answers_requests requests.*1 w1 w' r → answers_requests rest w w' r) →
  spec (r ← abandon_window t env cfg fresh cached adaptive auth_handler rmode requests st; mret (Some r)) w1 (forwarded rest w).
Proof.
  intros Hp Hok H. run abandon_spec as [r st'] w2 Hr; [done..|]. exists r, st'. split; [done|]. by apply H.
Qed.

(** A known miss is reported. *)
Lemma known_missing_step i slot request requests c st w k :
  window_ok i slot ((request, KnownMissing) :: requests) c w →
  (∀ w1, window_ok i slot requests c w1 → spec k w1 (forwarded requests.*1 w1)) →
  spec (r ← send_430_to_client;
        match r with
        | Err e => retire i RemovedCooldown c;; drop_requests requests;; mret (Some (Err e, st))
        | Ok _ => k
        end) w (forwarded (request :: requests.*1) w).
Proof.
  intros [Hok Honly Hc Hdone Hroutes Hreqs] Hk. apply Forall_cons in Hroutes as [Hmiss Hroutes]. apply Forall_cons in Hreqs as [_ Hreqs].
  run send_430_spec as r w1 [Hg1 (p & Hs & Hp)]. assert (carries w w1) as Hc1 by by apply grows_carries.
  assert (∀ w', carries w1 w' → article_reply request w' responses.NO_SUCH_ARTICLE) as Hreply.
  { intros w' Hc'. left; right; right. split; [done|]. intros b Hb. left.
    by rewrite (proj2 (only_backend_carries i slot w w' (transitivity Hc1 Hc') Honly) b Hb). }
  destruct r as [[]|e].
  - eapply spec_mono; [apply Hk, (window_ok_carries _ _ _ _ w); [done|by split]|]. intros o w2 (r & st' & -> & Hr). exists r, st'. split; [done|].
    subst p. by eapply (in_order_cons _ article_reply_carries); [|done|apply Hreply|].
  - run retire_spec as [] w2 [Hg2 Hc2]; [done|]. run drop_requests_quiet as [] w3 [Hg3 Hc3].
    assert (carries w1 w3) as Hc13 by (apply grows_carries; by etrans). exists (Err e), st. split; [done|].
    eapply in_order_stop; [by etrans|cbn; by rewrite Hc3, Hc2|]. right; right. exists responses.NO_SUCH_ARTICLE. split; [by apply Hreply|done].
Qed.

(** After a response: the guard is completed and the window refilled. *)
Lemma refill_step i slot requests n c g st w k :
  session_ok w → only_backend i slot w → conn_ok c → phase c = PhaseComplete → Forall (route_ok slot) requests →
  Forall (λ r, is_pipelineable r = true) requests.*1 →
  (∀ requests' n' c' w', requests'.*1 = requests.*1 → window_ok i slot requests' c' w' → spec (k requests' n' c') w' (forwarded requests.*1 w')) →
  spec (s ← read selector;
        set_selector match g with Some g => guard_complete s g | None => s end;;
        '(error, rest, n, c) ← refill_and_flush_window env i requests n c;
        match error with
        | Some _ => retire i RemovedCooldown c;; r ← abandon_window t env cfg fresh cached adaptive auth_handler rmode rest st; mret (Some r)
        | None => k rest n c
        end) w (forwarded requests.*1 w).
Proof.
  intros Hok Honly Hc Hph Hroutes Hreqs Hk. apply spec_bind, spec_read.
  run set_selector_spec as [] w1 (Hq1 & _). { destruct g as [g|]; [|done]. by apply update_config. }
  run refill_and_flush_spec as [[[error rest] n'] c'] w2 (Hq2 & Hsame & Hc' & Hno); [done|].
  assert (quiet w w2) as [Hg Hcl] by by etrans. assert (carries w w2) as Hcar by by apply grows_carries.
  pose proof (same_routes_requests _ _ Hsame) as Erest. assert (session_ok w2) as Hok2 by by apply (session_ok_carries w).
  destruct error as [err|].
  - run retire_spec as [] w3 [Hg3 Hc3]; [done|]. assert (carries w2 w3) as Hc23 by by apply grows_carries.
    apply abandon_forwarded; [by rewrite Erest|by apply (session_ok_carries w2)|].
    intros w' r Hr. rewrite Erest in Hr. eapply in_order_quiet; [by etrans|by rewrite Hc3, Hcl|done].
  - eapply spec_mono; [apply Hk; [done|]|].
    + split; [done|by apply (only_backend_carries _ _ w)|done| |by eapply same_routes_ok|by rewrite Erest].
      intros Hnone. rewrite Hno; [done|]. by rewrite <- (same_routes_upstream _ _ Hsame).
    + intros o w' (r & st' & -> & Hr). exists r, st'. split; [done|]. eapply in_order_quiet; [done|by rewrite Hcl|done].
Qed.

Lemma write_unsent_quiet i : quietly (write_unsent_request env i).
Proof.
  intros w. unfold write_unsent_request. run log_metrics_spec as [] w1 Hq1. run ask_spec as written w2 [Hq2 _].
  destruct written as [[]|k]; [|exact (transitivity Hq1 Hq2)]. eapply spec_mono; [apply ask_spec|]. intros r w3 [Hq3 _].
  exact (transitivity Hq1 (transitivity Hq2 Hq3)).
Qed.

Lemma forward_responses_spec rounds i slot requests n c st w :
  length requests ≤ rounds → window_ok i slot requests c w →
  spec (forward_sent_responses t env cfg fresh cached adaptive auth_handler rmode rounds i slot requests n c st) w (forwarded requests.*1 w).
Proof.
  revert requests n c st w. induction rounds as [|rounds IH]; intros requests n c st w Hr Hw.
  { destruct requests; [|cbn in Hr; lia]. cbn [forward_sent_responses]. run finish_window_spec as r w1 Hf; [apply Hw..|by apply (wk_done _ _ _ _ _ Hw)|].
    by exists r, st. }
  destruct requests as [|[request [a g is_sent|]] requests]; cbn [forward_sent_responses].
  { run finish_window_spec as r w1 Hf; [apply Hw..|by apply (wk_done _ _ _ _ _ Hw)|]. by exists r, st. }
  2: { eapply known_missing_step; [done|]. intros w1 Hw1. apply IH; [cbn in Hr; lia|done]. }
  apply spec_bind. eapply (spec_mono _ _ (λ _ w', quiet w w')).
  { destruct is_sent; [apply quietly_ret|apply write_unsent_quiet]. }
  intros written w1 [Hg1 Hc1]. assert (carries w w1) as Hcar1 by by apply grows_carries.
  destruct (window_ok_carries _ _ _ _ _ _ Hcar1 Hw) as [Hok1 Honly1 Hc _ Hroutes Hreqs].
  assert (∀ w2, carries w w2 → sent (client w2) = sent (client w) → spec (r ← abandon_window t env cfg fresh cached adaptive auth_handler rmode
      ((request, SendUpstream a g is_sent) :: requests) st; mret (Some r)) w2 (forwarded (request :: requests.*1) w)) as Habandon.
  { intros w2 Hcar2 Hs2. apply abandon_forwarded; [done|eapply session_ok_carries; [done|apply Hw]|].
    intros w' r. by apply in_order_quiet. }
  destruct written as [[]|k].
  2: { run retire_spec as [] w2 [Hg2 Hc2]; [done|]. apply Habandon; [etrans; [done|by apply grows_carries]|by rewrite Hc2, Hc1]. }
  run forward_sent_spec as response w2 [Hcar2 (p & Hs2 & Hp)]; [apply Hok1|done|done|]. rewrite Hc1 in Hs2.
  assert (carries w w2) as Hcar by by etrans. destruct response as [c2|[e|e]].
  - destruct Hp as (Hc2 & Hph & Hp). apply Forall_cons in Hroutes as [_ Hroutes]. apply Forall_cons in Hreqs as [_ Hreqs].
    eapply spec_mono; [eapply (refill_step i slot requests); try done|].
    + by apply (session_ok_carries w1).
    + by apply (only_backend_carries _ _ w1).
    + intros requests' n' c' w' E Hw'. rewrite <- E. apply IH; [|done]. apply (f_equal length) in E. rewrite !length_fmap in E. cbn in Hr. lia.
    + intros o w' (r & st' & -> & Ho). exists r, st'. split; [done|].
      eapply (in_order_cons _ article_reply_carries); [exact Hcar|exact Hs2|by left|done].
  - subst p. apply Habandon; [done|by rewrite Hs2, app_nil_r].
  - run drop_requests_quiet as [] w3 [Hg3 Hc3]. assert (carries w2 w3) as Hcar3 by by apply grows_carries. exists (Err e), st. split; [done|].
    eapply in_order_stop; [by etrans|cbn; by rewrite Hc3|]. destruct Hp as [?|[?|(q & Hq & ?)]]; [by left|by right; left|right; right].
    exists q. split; [|done]. left. by apply (forward_reply_carries cached _ w2).
Qed.

Lemma transition_spec i requests st w :
  world_ok w →
  spec (transition_routed_article_window_to_sent env i requests st) w (λ x w', quiet w w' ∧
    ∀ n requests' c, x.1 = Some (n, requests', c) → Forall2 same_route requests requests' ∧ conn_ok c).
Proof.
  intros Hok. unfold transition_routed_article_window_to_sent. run checkout_direct_spec as conn w1 [Hq1 Hc]; [done..|].
  destruct conn as [c|e]. 2: { run drop_requests_quiet as [] w2 Hq2. split; [by etrans|done]. }
  run write_and_flush_spec as [r requests'] w2 [Hq2 Hs]. assert (quiet w w2) as Hq by by etrans. cbn [snd] in Hs. destruct r as [n|k].
  - split; [done|]. intros n' rs c' [= <- <- <-]. split; [done|]. by apply (Hc c).
  - run retire_spec as [] w3 Hq3; [done|]. run drop_requests_quiet as [] w4 Hq4. split; [|done]. by do 2 (etrans; [done|]).
Qed.

Lemma known_missing_responses_spec i slot requests w :
  only_backend i slot w → Forall (route_ok slot) requests → no_upstream requests = true →
  spec (write_known_missing_responses (length requests)) w (λ r w', answers_requests requests.*1 w w' r).
Proof.
  revert w. induction requests as [|[request [|]] requests IH]; intros w Honly Hroutes Hno; [by apply in_order_nil|done|].
  apply Forall_cons in Hroutes as [Hmiss Hroutes]. cbn [write_known_missing_responses length].
  run send_430_spec as r w1 [Hg1 (p & Hs & Hp)]. assert (carries w w1) as Hc1 by by apply grows_carries.
  assert (article_reply request w1 responses.NO_SUCH_ARTICLE) as Hreply.
  { left; right; right. split; [done|]. intros b Hb. left. by rewrite (proj2 (only_backend_carries i slot w w1 Hc1 Honly) b Hb). }
  destruct r as [[]|e].
  - eapply spec_mono; [apply IH; [by apply (only_backend_carries _ _ w)|done|done]|]. intros r w2 Hr. subst p.
    by eapply (in_order_cons _ article_reply_carries).
  - eapply in_order_stop; [done|done|]. right; right. by exists responses.NO_SUCH_ARTICLE.
Qed.

Lemma in_order_flush l w w1 w' r :
  answers_requests l w w1 (Ok ()) → carries w1 w' → sent (client w') = sent (client w1) → answers_requests l w w' r.
Proof.
  intros Hl Hc Hs. apply (in_order_after _ article_reply_carries _ _ _ w') in Hl; [|done|done]. destruct r as [[]|e]; [done|].
  rewrite <- (app_nil_r l). eapply (in_order_app _ article_reply_carries); [done|]. by apply in_order_unflushed.
Qed.

(** What the window did with a batch. *)
Definition windowed (batch : list RequestContext) (w : World)
    (x : option (result SessionError ArticleWindowExecution) * list RequestContext * PerCommandLoopState) (w' : World) : Prop :=
  match x.1.1 with
  | None => False
  | Some (Ok ForwardedAllResponses) => answers_requests batch w w' (Ok ())
  | Some (Ok RetryAllSequentially) => carries w w' ∧ sent (client w') = sent (client w) ∧ Forall2 same_request batch x.1.2
  | Some (Err e) => answers_requests batch w w' (Err e)
  end.

Lemma forward_window_spec target batch st w :
  session_ok w → only_backend (window_backend target) (window_slot target) w → Forall (λ r, is_pipelineable r = true) batch →
  spec (forward_single_backend_article_window t env cfg fresh cached adaptive auth_handler rmode target batch st) w (windowed batch w).
Proof.
  intros Hok Honly Hp. unfold forward_single_backend_article_window. run route_window_spec as requests w1 ([Hg1 Hc1] & Hsame & Hroutes).
  assert (carries w w1) as Hcar by by apply grows_carries. assert (session_ok w1) as Hok1 by by apply (session_ok_carries w).
  assert (only_backend (window_backend target) (window_slot target) w1) as Honly1 by by apply (only_backend_carries _ _ w).
  assert (∀ w2 w' r, carries w w2 → client w2 = client w → answers_requests requests.*1 w2 w' r → answers_requests batch w w' r) as Hback.
  { intros w2 w' r Hc2 E2 H. eapply in_order_same; [|eapply in_order_quiet; [exact Hc2|by rewrite E2|exact H]].
    eapply Forall2_impl; [exact Hsame|]. intros a b Hab w0 p. by apply article_reply_same. }
  fold (no_upstream requests). destruct (no_upstream requests) eqn:Eno.
  - unfold write_known_missing_responses_for_entire_window. apply spec_bind, spec_bind.
    eapply spec_mono; [by eapply known_missing_responses_spec|]. intros r w2 Hr. destruct r as [[]|e]; [|by apply (Hback w1)].
    run flush_client_spec as f w3 [Hg3 Hs3]. assert (∀ r, answers_requests batch w w3 r) as Hall.
    { intros r. apply (Hback w1); [done..|]. eapply in_order_flush; [done|by apply grows_carries|done]. }
    destruct f as [[]|k]; apply Hall.
  - run transition_spec as [o st1] w2 [[Hg2 Hc2] Ho]; [apply Hok1|]. assert (carries w w2) as Hcar2 by (etrans; [done|by apply grows_carries]).
    cbn [fst] in Ho. destruct o as [[[n requests'] c]|]; [|split; [done|]; split; [|done]; cbn; by rewrite Hc2, Hc1].
    destruct (Ho n requests' c eq_refl) as [Hrs Hc]. pose proof (same_routes_requests _ _ Hrs) as E.
    run forward_responses_spec as o w3 (r & st' & -> & Hr); [done| |].
    + split; [by apply (session_ok_carries w)|by apply (only_backend_carries _ _ w)|done| |by eapply same_routes_ok|].
      * rewrite (same_routes_upstream _ _ Hrs). congruence.
      * rewrite E. by eapply same_pipelineables.
    + rewrite E in Hr. apply (Hback w2) in Hr; [|done|by rewrite Hc2]. by destruct r as [[]|e].
Qed.

Lemma select_only_backend w access batch target :
  world_ok w → select_single_backend_article_window cfg rmode (selector w) access batch = Some target →
  only_backend (window_backend target) (window_slot target) w.
Proof.
  intros Hok. unfold select_single_backend_article_window. destruct (length (backends (selector w)) =? 1) eqn:E1; [|by rewrite !orb_true_r].
  destruct (_ || _); [done|]. destruct (head _) as [i|]; [|done]. cbn. destruct (find_backend (selector w) i) as [b|] eqn:Eb; [|done]. cbn.
  destruct (stat_missing_enabled cfg i); [done|]. unfold router_slot. rewrite Eb. cbn. intros [= <-]. cbn.
  rewrite find_lookup in Eb by apply Hok. split; [by exists b|]. intros b' Hb'.
  apply Nat.eqb_eq in E1. destruct (backends (selector w)) as [|b0 [|]]; try done. apply list_elem_of_singleton in Hb' as ->.
  destruct i; [|done]. by injection Eb as <-.
Qed.

Lemma pipelined_batch_spec batch st w :
  session_ok w → Forall (λ r, is_pipelineable r = true) batch →
  spec (execute_pipelineable_batch t env cfg fresh cached adaptive auth_handler rmode batch st) w (forwarded batch w).
Proof.
  intros Hok Hp. unfold execute_pipelineable_batch. apply spec_bind, spec_read.
  destruct (select_single_backend_article_window _ _ _ _ _) as [target|] eqn:Es.
  2: { run execute_sequentially_spec as [r st'] w1 Hr; [done..|]. by exists r, st'. }
  apply select_only_backend in Es; [|apply Hok]. run forward_window_spec as [[o batch'] st1] w1 Hw; [done..|]. unfold windowed in Hw. cbn [fst snd] in Hw.
  destruct o as [[[|]|e]|]; [by exists (Ok ()), st1| |by exists (Err e), st1|done].
  destruct Hw as (Hc & Hs & Hsame). run execute_sequentially_spec as [r st'] w2 Hr; [by apply (session_ok_carries w)|by eapply same_pipelineables|].
  exists r, st'. split; [done|]. eapply in_order_same; [|by eapply in_order_quiet].
  eapply Forall2_impl; [exact Hsame|]. intros a b Hab w0 p. by apply article_reply_same.
Qed.
End WindowFacts.

(** ** The size of the window *)

Definition is_sent (r : ArticleWindowRequest) : bool := match r with SendUpstream _ _ sent => sent | KnownMissing => false end.

Definition is_unsent (r : ArticleWindowRequest) : bool := match r with SendUpstream _ _ sent => negb sent | KnownMissing => false end.

(** The requests on the wire without a response. *)
Fixpoint outstanding (requests : Routed) : nat :=
  match requests with [] => 0 | (_, r) :: requests => (if is_sent r then 1 else 0) + outstanding requests end.

(** No request overtakes another one. *)
Fixpoint fifo (requests : Routed) : bool :=
  match requests with
  | [] => true
  | (_, r) :: requests => (negb (is_unsent r) || negb (existsb is_sent requests.*2)) && fifo requests
  end.

Lemma outstanding_zero requests : outstanding requests = 0 ↔ existsb is_sent requests.*2 = false.
Proof. induction requests as [|[? r] requests IH]; [done|]. cbn. destruct (is_sent r); cbn; [lia|done]. Qed.

Lemma fifo_unsent requests : existsb is_sent requests.*2 = false → fifo requests = true.
Proof.
  induction requests as [|[? r] requests IH]; [done|]. cbn. intros [_ H]%orb_false_iff. by rewrite H, IH, orb_true_r.
Qed.

Section WindowSize.
Context (env : Oracle).

(** [n] requests that will not be written now are followed by [requests]. *)
Lemma write_window_size i requests n w :
  n ≤ MAX_UPSTREAM_ARTICLE_WINDOW → existsb is_sent requests.*2 = false →
  spec (write_window_requests env i requests n) w (λ x _, ∀ n', x.1 = Ok n' →
    n' = n + outstanding x.2 ∧ n' ≤ MAX_UPSTREAM_ARTICLE_WINDOW ∧ fifo x.2 = true ∧
    (n' < MAX_UPSTREAM_ARTICLE_WINDOW → existsb is_unsent x.2.*2 = false)).
Proof.
  revert n w. induction requests as [|[request route] requests IH]; intros n w Hn Hu; cbn [write_window_requests].
  { apply spec_ret. cbn. intros n' [= <-]. split_and!; [lia|done..]. }
  destruct (Nat.eqb_spec n MAX_UPSTREAM_ARTICLE_WINDOW) as [->|].
  { apply spec_ret. intros n' [= <-]. split_and!; [|done|by apply fifo_unsent|lia]. pose proof (proj2 (outstanding_zero _) Hu) as E. cbn [snd]. lia. }
  cbn in Hu. apply orb_false_iff in Hu as [Hr Hu]. destruct route as [a g s|].
  - apply spec_bind. eapply (spec_mono _ _ (λ _ _, True)); [done|]. intros [] w1 _. run ask_keeps as written w2 _. destruct written as [[]|k]; [|done].
    run IH as [r rest] w3 H3; [lia|done|]. apply spec_ret. cbn in *. intros n' ->. destruct (H3 n' eq_refl) as (? & ? & ? & ?). split_and!; [lia|done..].
  - run IH as [r rest] w1 H1; [done|done|]. apply spec_ret. cbn in *. intros n' ->. destruct (H1 n' eq_refl) as (? & ? & ? & ?). by split_and!.
Qed.

Lemma refill_window_size i requests k n c w :
  n = k + outstanding requests → n ≤ MAX_UPSTREAM_ARTICLE_WINDOW → fifo requests = true →
  spec (refill_window env i requests n c) w (λ x _, let '(e, _, requests', n', _) := x in
    e = None → n' = k + outstanding requests' ∧ n' ≤ MAX_UPSTREAM_ARTICLE_WINDOW ∧ fifo requests' = true ∧
    (n' < MAX_UPSTREAM_ARTICLE_WINDOW → existsb is_unsent requests'.*2 = false)).
Proof.
  revert k n c w. induction requests as [|[request route] requests IH]; intros k n c w Hk Hn Hf; cbn [refill_window].
  { apply spec_ret. by intros _. }
  cbn in Hf. apply andb_true_iff in Hf as [Hr Hf]. destruct route as [a g [|]|]; cbn in Hr, Hk.
  - run (IH (S k)) as [[[[e refilled] rest] n'] c'] w1 H1; [lia|done|done|]. apply spec_ret. intros He. destruct (H1 He) as (? & ? & ? & ?). cbn. split_and!; [lia|done..].
  - destruct (Nat.ltb_spec n MAX_UPSTREAM_ARTICLE_WINDOW).
    + apply spec_bind. eapply (spec_mono _ _ (λ _ _, True)); [done|]. intros [] w1 _. run ask_keeps as written w2 _.
      destruct written as [[]|err]; [|by apply spec_ret].
      run (IH (S k)) as [[[[e refilled] rest] n'] c'] w3 H3; [lia|lia|done|]. apply spec_ret. intros He. destruct (H3 He) as (? & ? & ? & ?).
      cbn. split_and!; [lia|done..].
    + apply spec_ret. intros _. cbn. rewrite Hr. split_and!; [lia|done|done|lia].
  - run (IH k) as [[[[e refilled] rest] n'] c'] w1 H1; [done|done|done|]. apply spec_ret. intros He. destruct (H1 He) as (? & ? & ? & ?). by cbn.
Qed.

(** The window is full or nothing is left to send, and it never exceeds its limit. *)
Definition window_full (requests : Routed) (n : nat) : Prop :=
  n = outstanding requests ∧ n ≤ MAX_UPSTREAM_ARTICLE_WINDOW ∧ fifo requests = true ∧
  (n < MAX_UPSTREAM_ARTICLE_WINDOW → existsb is_unsent requests.*2 = false).

End WindowSize.

(** Sixteen of seventeen requests are written. *)
Definition seventeen : Routed := replicate 17 (sample_article, SendUpstream new_availability None false).

