(* ===== verification/Loop.v ===== *)
(** * Loop: a client session with per-command routing

    Models the session loop of [src/src/session/handlers/per_command.rs]
    ([handle_command_batch], [handle_batch_rejections], [handle_trailing_command],
    [run_per_command_loop]): batches read by [Pipeline] are refused, pipelined by
    [Window] or executed by [Session], and the connection a batch has kept goes back
    to its pool when the batch succeeded and is removed when it failed. *)

From S2P Require Import Prelude Protocol Request Scanner Framer Tracker Command Auth Pipeline Availability Router Article Cache Stream Transfer Exchange Isolated Retry RetryFacts Precheck Serve Session Window.

Inductive SessionEnd :=
| SessionClosed
| SessionSwitched (handoff : RequestContext) (reader : Reader)
| SessionFailed (e : SessionError).

Section Loop.
Context {MC : Memchr} (t : target) (env : Oracle) (cfg : SessionConfig).
Variable fresh : PooledBuffer.
Variable cached : nat → bytes → option CachedArticle.
Variable adaptive_precheck : bool.
Context (auth_handler : AuthHandler) (rmode : RoutingMode).

(** A refusal of a line that was not parsed. *)
Definition write_refusal (response : bytes) : M (result SessionError BatchLoopAction) :=
  r ← write_client response;
  mret match r with Ok _ => Ok LoopContinue | Err k => Err (io_error k) end.

(** [handle_batch_rejections]: [None] goes on with the batch. *)
Definition handle_batch_rejections (b : RequestBatch) : M (option (result SessionError BatchLoopAction)) :=
  if is_first_oversized b then r ← write_refusal responses.COMMAND_TOO_LONG; mret (Some r)
  else if is_first_invalid b then r ← write_refusal responses.COMMAND_SYNTAX_ERROR_RESPONSE; mret (Some r)
  else if batch_is_empty b then mret (Some (Ok LoopBreak))
  else mret None.

Definition batch_requests (b : RequestBatch) : list RequestContext :=
  match contents b with BatchContexts cs => cs | BatchEmpty | BatchRejected _ => [] end.

(** [process_pipelineable_batch] *)
Definition process_pipelineable_batch (b : RequestBatch) (st : PerCommandLoopState)
    : M (option (result SessionError unit * PerCommandLoopState)) :=
  let batch_size := batch_len b in
  if batch_size =? 0 then mret (Some (Ok (), st))
  else
    o ← execute_pipelineable_batch t env cfg fresh cached adaptive_precheck auth_handler rmode (batch_requests b) st;
    match o with
    | Some (Ok _, st) =>
        (if 1 <? batch_size then log_metrics [MePipelineBatch batch_size] else mret ());;
        mret (Some (Ok (), st))
    | _ => mret o
    end.

Definition handle_trailing_command (b : RequestBatch) (st : PerCommandLoopState)
    : M (result SessionError BatchLoopAction * PerCommandLoopState) :=
  if is_trailing_oversized b then r ← write_refusal responses.COMMAND_TOO_LONG; mret (r, st)
  else if is_trailing_invalid b then r ← write_refusal responses.COMMAND_SYNTAX_ERROR_RESPONSE; mret (r, st)
  else
    match (take_trailing_context b).1 with
    | None => mret (Ok LoopContinue, st)
    | Some request =>
        let st := refresh_access (add_client_to_backend (request_wire_len request) st) in
        let plan := classify_request request (loop_access st) rmode in
        match plan with
        | SwitchToStateful _ => mret (Ok (LoopSwitchToStateful request), st)
        | _ =>
            '(r, st) ← process_single_command_with_plan t env cfg fresh cached adaptive_precheck auth_handler plan (loop_access st) request st;
            mret (match r with
                  | Ok CmdContinue => Ok LoopContinue
                  | Ok CmdQuit => Ok LoopBreak
                  | Err e => Err e
                  end, st)
        end
    end.

(** [BatchBackendConnection]: released after a success, dropped otherwise. *)
Definition close_batch_connection (success : bool) : M unit :=
  l ← read lease;
  set_lease None;;
  match l with
  | Some (i, c) => if success then release i c else retire i RemovedCooldown c
  | None => mret ()
  end.

Definition handle_command_batch (b : RequestBatch) (st : PerCommandLoopState)
    : M (option (result SessionError BatchLoopAction * PerCommandLoopState)) :=
  set_lease None;;
  refused ← handle_batch_rejections b;
  match refused with
  | Some r => mret (Some (r, st))
  | None =>
      o ← process_pipelineable_batch b st;
      match o with
      | None => mret None
      | Some (Err e, st) => close_batch_connection false;; mret (Some (Err e, st))
      | Some (Ok _, st) =>
          '(r, st) ← handle_trailing_command b st;
          close_batch_connection match r with Ok _ => true | Err _ => false end;;
          mret (Some (r, st))
      end
  end.

(** [run_per_command_loop]; a round per batch, [None] is running out of rounds. *)
Fixpoint run_per_command_loop (rounds : nat) (reader : Reader) (st : PerCommandLoopState)
    : M (option (SessionEnd * PerCommandLoopState)) :=
  match rounds with
  | 0 => mret None
  | S rounds =>
      match read_command_batch reader with
      | (Err _, _) => mret (Some (SessionClosed, st))
      | (Ok b, reader) =>
          o ← handle_command_batch b st;
          match o with
          | None => mret None
          | Some (Err e, st) => mret (Some (SessionFailed e, st))
          | Some (Ok LoopContinue, st) => run_per_command_loop rounds reader st
          | Some (Ok LoopBreak, st) => mret (Some (SessionClosed, st))
          | Some (Ok (LoopSwitchToStateful request), st) => mret (Some (SessionSwitched request reader, st))
          end
      end
  end.

Definition handle_per_command_routing (reader : Reader) : M (option (SessionEnd * PerCommandLoopState)) :=
  run_per_command_loop (S (length (reader_stream reader).1)) reader (initial_state auth_handler).
End Loop.

(** ** Facts *)

Section LoopFacts.
Context {MC : Memchr} {MS : MemchrSpec MC} {PL : PoolLimit} (t : target) (env : Oracle) (cfg : SessionConfig).
Variable fresh : PooledBuffer.
Variable cached : nat → bytes → option CachedArticle.
Variable adaptive : bool.
Context (auth_handler : AuthHandler) (rmode : RoutingMode).
Hypothesis fresh_acquired : acquired fresh.
Hypothesis env_ok : oracle_ok env.

Let fresh_ok : buffer_ok fresh := proj1 fresh_acquired.

(** The reply to a line of the client. *)
Definition line_reply (line : CommandLine) (w : World) (p : bytes) : Prop :=
  match line with
  | Eof => False
  | Oversized _ => p = responses.COMMAND_TOO_LONG
  | Invalid => p = responses.COMMAND_SYNTAX_ERROR_RESPONSE
  | Parsed request => command_reply cached rmode request w p
  end.

Lemma line_reply_carries line w w' p : carries w w' → line_reply line w p → line_reply line w' p.
Proof.
  intros Hc. destruct line as [| | |request]; try done. intros [access H]. exists access. by eapply plan_reply_carries.
Qed.

Abbreviation answers_lines := (in_order line_reply).

Lemma refusal_spec response w :
  spec (write_refusal response) w (λ r w', replied (λ _ p, p = response) w w' r ∧ ∀ a, r = Ok a → a = LoopContinue).
Proof.
  unfold write_refusal. run write_client_spec as r w1 [Hg (p & Hs & Hp)]. destruct r as [[]|k].
  - split; [|by intros a [= <-]]. split; [by apply grows_carries|]. by exists p.
  - split; [|done]. split; [by apply grows_carries|]. exists p. split; [done|]. right; right. by exists response.
Qed.

(** The end of a batch. *)
Definition batch_done (b : RequestBatch) (w w' : World) (r : result SessionError BatchLoopAction) : Prop :=
  match r with
  | Ok LoopContinue => answers_lines (batch_lines b) w w' (Ok ()) ∧ batch_lines b ≠ []
  | Ok LoopBreak => answers_lines (batch_lines b) w w' (Ok ()) ∧
      (batch_lines b = [] ∨ ∃ q, last (batch_lines b) = Some (Parsed q) ∧ kind q = Quit)
  | Ok (LoopSwitchToStateful q) => ∃ lines, batch_lines b = lines ++ [Parsed q] ∧ answers_lines lines w w' (Ok ())
  | Err e => answers_lines (batch_lines b) w w' (Err e)
  end.

(** The lines of the trailing command. *)
Definition trailing_lines (b : RequestBatch) : list CommandLine :=
  match trailing b with
  | TailNone => []
  | TailContext r => [Parsed r]
  | TailRejection r => [rejection_line r]
  end.

(** What the trailing command did. *)
Definition trailing_done (b : RequestBatch) (w w' : World) (r : result SessionError BatchLoopAction) : Prop :=
  match r with
  | Ok LoopContinue => answers_lines (trailing_lines b) w w' (Ok ())
  | Ok LoopBreak => answers_lines (trailing_lines b) w w' (Ok ()) ∧ ∃ q, trailing_lines b = [Parsed q] ∧ kind q = Quit
  | Ok (LoopSwitchToStateful q) => trailing_lines b = [Parsed q] ∧ w' = w
  | Err e => answers_lines (trailing_lines b) w w' (Err e)
  end.

Lemma one_line line w w' {A} (r : result SessionError A) :
  replied (line_reply line) w w' r → answers_lines [line] w w' ((λ _, ()) <$> r).
Proof.
  intros [Hc (p & Hs & Hp)]. destruct r as [a|e]; cbn.
  - eapply (in_order_cons _ line_reply_carries); [done|done|done|]. by apply in_order_nil.
  - by eapply in_order_stop.
Qed.

Lemma trailing_spec b st w :
  session_ok w → spec (handle_trailing_command t env cfg fresh cached adaptive auth_handler rmode b st) w (λ x w', trailing_done b w w' x.1).
Proof.
  intros Hok. unfold handle_trailing_command, is_trailing_oversized, is_trailing_invalid, take_trailing_context, trailing_done, trailing_lines.
  cbn [fst]. destruct (trailing b) as [|request|[n|]].
  - by apply in_order_nil.
  - set (st' := refresh_access _). destruct (classify_request request (loop_access st') rmode) eqn:Eplan; try (by split);
      (run process_with_plan_spec as [r st2] w1 (Hr & Hq & _); [done..|]; cbn [fst] in *;
       eapply (replied_mono _ (line_reply (Parsed request))) in Hr; [|intros p Hp; exists (loop_access st'); by rewrite Eplan];
       apply one_line in Hr; destruct r as [[]|e]; [done|split; [done|]; exists request; by rewrite Hq|done]).
  - run refusal_spec as r w1 [Hr Ha]. apply (replied_mono _ (line_reply (Oversized n))) in Hr; [|done]. apply one_line in Hr.
    destruct r as [a|e]; [|done]. by rewrite (Ha a eq_refl).
  - run refusal_spec as r w1 [Hr Ha]. apply (replied_mono _ (line_reply Invalid)) in Hr; [|done]. apply one_line in Hr.
    destruct r as [a|e]; [|done]. by rewrite (Ha a eq_refl).
Qed.

(** The pipelined requests of a batch. *)
Lemma pipelined_spec b st w :
  session_ok w → batch_ok b →
  spec (process_pipelineable_batch t env cfg fresh cached adaptive auth_handler rmode b st) w (λ o w', ∃ r st',
    o = Some (r, st') ∧ answers_lines (Parsed <$> batch_requests b) w w' r).
Proof.
  intros Hok (_ & Hp & _). unfold process_pipelineable_batch. destruct (batch_len b =? 0) eqn:En.
  { exists (Ok ()), st. split; [done|]. unfold batch_len, batch_requests in *. destruct (contents b) as [| |[|]]; try done; by apply in_order_nil. }
  assert (Forall (λ r, is_pipelineable r = true) (batch_requests b)) as Hp' by (unfold batch_requests; by destruct (contents b)).
  run pipelined_batch_spec as o w1 (r & st1 & -> & Hr); [done..|].
  assert (answers_lines (Parsed <$> batch_requests b) w w1 r) as Hl.
  { eapply in_order_same; [|exact Hr]. clear -Hp'. induction Hp' as [|request l Hreq _ IH]; [constructor|]. constructor; [|done].
    intros w0 p. by apply command_article_reply. }
  destruct r as [[]|e]; [|by exists (Err e), st1]. apply spec_bind. eapply (spec_mono _ _ (λ _ w', quiet w1 w')).
  { destruct (1 <? _); [apply log_metrics_spec|apply quietly_ret]. }
  intros [] w2 [Hg Hc]. exists (Ok ()), st1. split; [done|].
  eapply (in_order_after _ line_reply_carries); [exact Hl|by apply grows_carries|cbn; by rewrite Hc].
Qed.

Lemma close_batch_quiet success w : world_ok w → spec (close_batch_connection success) w (λ _ w', quiet w w').
Proof.
  intros Hok. unfold close_batch_connection. apply spec_bind, spec_read. run set_lease_spec as [] w1 Hq1; [done|].
  destruct (lease w) as [[i c]|] eqn:El; [|done]. assert (reusable c) as Hc by by eapply wo_lease.
  destruct success; (eapply spec_mono; [by apply retire_spec|]; intros [] w2 Hq2; by etrans).
Qed.

Lemma rejections_spec b w :
  batch_shape b →
  spec (handle_batch_rejections b) w (λ o w',
    match o with
    | Some r => batch_done b w w' r
    | None => w' = w ∧ batch_lines b = (Parsed <$> batch_requests b) ++ trailing_lines b ∧ batch_lines b ≠ []
    end).
Proof.
  assert (∀ line response, batch_lines b = [line] → (∀ w, line_reply line w response) →
    spec (r ← write_refusal response; mret (Some r)) w (λ o w', match o with Some r => batch_done b w w' r | None => False end)) as Hrefused.
  { intros line response El Hp. run refusal_spec as r w1 [Hr Ha].
    apply (replied_mono _ (line_reply line)) in Hr; [|intros p ->; apply Hp]. apply one_line in Hr. unfold batch_done. cbn. rewrite El.
    destruct r as [a|e]; [|done]. by rewrite (Ha a eq_refl). }
  intros Hshape. unfold handle_batch_rejections, is_first_oversized, is_first_invalid, batch_is_empty, batch_shape, batch_requests, trailing_lines in *.
  destruct (contents b) as [|[n|]|cs] eqn:Ec.
  - destruct (trailing b) eqn:Et; [|by apply spec_ret; unfold batch_lines; rewrite Ec, Et..].
    apply spec_ret. cbn. unfold batch_lines. rewrite Ec, Et. split; [by apply in_order_nil|by left].
  - eapply spec_mono; [apply (Hrefused (Oversized n)); [by unfold batch_lines; rewrite Ec, Hshape|done]|by intros []].
  - eapply spec_mono; [apply (Hrefused Invalid); [by unfold batch_lines; rewrite Ec, Hshape|done]|by intros []].
  - apply spec_ret. unfold batch_lines. rewrite Ec. split_and!; [done|done|]. by destruct cs.
Qed.

Lemma batch_done_around b w w1 w2 w' r :
  carries w w1 → sent (client w1) = sent (client w) → batch_done b w1 w2 r → carries w2 w' → sent (client w') = sent (client w2) →
  batch_done b w w' r.
Proof.
  intros Hc Hs Hb Hc' Hs'.
  assert (∀ lines r, answers_lines lines w1 w2 r → answers_lines lines w w' r) as Hl.
  { intros lines r' H. eapply in_order_quiet; [exact Hc|exact Hs|]. by eapply (in_order_after _ line_reply_carries). }
  destruct r as [[| |q]|e]; cbn in *; [by destruct Hb; auto..| |by auto]. destruct Hb as (lines & ? & ?). exists lines. auto.
Qed.

Lemma batch_done_split b w w1 w' r :
  batch_lines b = (Parsed <$> batch_requests b) ++ trailing_lines b → batch_lines b ≠ [] →
  answers_lines (Parsed <$> batch_requests b) w w1 (Ok ()) → trailing_done b w1 w' r → batch_done b w w' r.
Proof.
  intros El Hne Hl Ht.
  assert (∀ r, answers_lines (trailing_lines b) w1 w' r → answers_lines (batch_lines b) w w' r) as Happ.
  { intros r' H. rewrite El. by eapply (in_order_app _ line_reply_carries). }
  destruct r as [[| |q]|e]; cbn in *; [auto| | |auto].
  - destruct Ht as (H & q & Eq & Hq). split; [auto|]. right. exists q. by rewrite El, Eq, last_snoc.
  - destruct Ht as [Eq ->]. exists (Parsed <$> batch_requests b). by rewrite El, Eq.
Qed.

Lemma batch_spec b st w :
  session_ok w → batch_ok b → batch_shape b →
  spec (handle_command_batch t env cfg fresh cached adaptive auth_handler rmode b st) w (λ o w', ∃ r st', o = Some (r, st') ∧ batch_done b w w' r).
Proof.
  intros Hok Hb Hshape. unfold handle_command_batch. run set_lease_spec as [] w1 [Hg1 Hc1]; [done|].
  assert (carries w w1) as Hcar1 by by apply grows_carries. assert (session_ok w1) as Hok1 by by apply (session_ok_carries w).
  assert (sent (client w1) = sent (client w)) as Hs1 by by rewrite Hc1.
  run rejections_spec as o w2 Ho; [done|]. destruct o as [r|].
  { exists r, st. split; [done|]. by eapply (batch_done_around _ w w1 w2). }
  destruct Ho as (-> & El & Hne). run pipelined_spec as o w3 (r & st1 & -> & Hr); [done..|].
  assert (session_ok w3) as Hok3 by (eapply session_ok_carries; [apply Hr|done]). destruct r as [[]|e].
  - run trailing_spec as [x st2] w4 Hx; [done|]. cbn [fst] in Hx. pose proof (batch_done_split _ _ _ _ _ El Hne Hr Hx) as Hd.
    assert (world_ok w4) as Hok4.
    { destruct x as [[| |q]|e]; cbn in Hx; [apply Hx, Hok3|by apply Hx, Hok3| |apply Hx, Hok3]. destruct Hx as [_ ->]. apply Hok3. }
    run close_batch_quiet as [] w5 [Hg5 Hc5]; [done|]. exists x, st2. split; [done|].
    eapply (batch_done_around _ w w1 w4); [done|done|done|by apply grows_carries|cbn; by rewrite Hc5].
  - run close_batch_quiet as [] w4 [Hg4 Hc4]; [apply Hok3|]. exists (Err e), st1. split; [done|].
    eapply (batch_done_around _ w w1 w3); [done|done| |by apply grows_carries|cbn; by rewrite Hc4]. cbn. rewrite El. by apply in_order_err_app.
Qed.

Lemma batch_lines_no_eof b : Eof ∉ batch_lines b.
Proof.
  unfold batch_lines. rewrite elem_of_app. intros [H|H].
  - destruct (contents b) as [|[]|cs]; [by apply elem_of_nil in H|by apply list_elem_of_singleton in H..|]. by apply list_elem_of_fmap in H as (x & ? & _).
  - destruct (trailing b) as [|x|[]]; [by apply elem_of_nil in H|by apply list_elem_of_singleton in H..].
Qed.

(** A session: the lines it took from the client and what the client got for them. *)
Definition session_done (stream : bytes * bool) (w w' : World) (e : SessionEnd) : Prop :=
  ∃ lines rest, reads_lines stream lines rest ∧
    match e with
    | SessionClosed => answers_lines lines w w' (Ok ()) ∧
        ((∃ q, last lines = Some (Parsed q) ∧ kind q = Quit) ∨ rest = ([], false) ∨ rest.2 = true)
    | SessionSwitched q reader => answers_lines lines w w' (Ok ()) ∧ reads_lines rest [Parsed q] (reader_stream reader)
    | SessionFailed e => answers_lines lines w w' (Err e)
    end.

Lemma session_done_cons stream lines stream1 w w1 w' e :
  reads_lines stream lines stream1 → lines ≠ [] → answers_lines lines w w1 (Ok ()) → session_done stream1 w1 w' e → session_done stream w w' e.
Proof.
  intros Hr Hne Hl (lines' & rest & Hr' & H). exists (lines ++ lines'), rest. split; [by eapply reads_lines_app|].
  assert (∀ r, answers_lines lines' w1 w' r → answers_lines (lines ++ lines') w w' r) as Happ
    by (intros r Ho; by eapply (in_order_app _ line_reply_carries)).
  destruct e as [|q reader|e]; [|by destruct H; auto|by auto]. destruct H as [Ho Hend]. split; [auto|].
  destruct Hend as [(q & Hq & ?)|?]; [left; exists q|by right]. split; [|done]. rewrite last_app, Hq. done.
Qed.

Lemma reads_lines_snoc_inv stream lines line rest :
  reads_lines stream (lines ++ [line]) rest → ∃ stream1, reads_lines stream lines stream1 ∧ reads_lines stream1 [line] rest.
Proof.
  revert stream. induction lines as [|l lines IH]; intros stream H; [exists stream; split; [constructor|done]|].
  inversion H as [|? ? st1 ? ? Hn Hr]; subst. destruct (IH st1 Hr) as (st2 & ? & ?). exists st2. split; [by econstructor|done].
Qed.

Lemma loop_spec rounds reader st w :
  reader_wf reader → length (reader_stream reader).1 < rounds → session_ok w →
  spec (run_per_command_loop t env cfg fresh cached adaptive auth_handler rmode rounds reader st) w
    (λ o w', ∃ e st', o = Some (e, st') ∧ carries w w' ∧ session_done (reader_stream reader) w w' e).
Proof.
  revert reader st w. induction rounds as [|rounds IH]; intros reader st w Hwf Hrounds Hok; [lia|]. cbn [run_per_command_loop].
  pose proof (read_batch_read reader Hwf) as Hbr. destruct (read_command_batch reader) as [[b|err] reader'] eqn:Eb; destruct Hbr as [Hwf' Hshape]; cbn in Hwf', Hshape.
  2: { exists SessionClosed, st. split; [done|]. split; [done|]. exists [], (reader_stream reader). split; [constructor|]. split; [by apply in_order_nil|auto]. }
  destruct (read_batch_spec _ _ _ Hwf Eb) as (Hb & Hlines & _). run batch_spec as o w1 (r & st1 & -> & Hd); [done..|].
  destruct r as [[| |q]|e]; cbn in Hd.
  - destruct Hd as [Ho Hne]. pose proof (reads_lines_shorter _ _ _ Hlines (batch_lines_no_eof b) Hne).
    eapply spec_mono; [apply IH; [done|lia|eapply session_ok_carries; [apply Ho|done]]|].
    intros o w' (e & st' & -> & Hc & Hs). exists e, st'. split; [done|]. split; [etrans; [apply Ho|done]|]. by eapply session_done_cons.
  - destruct Hd as [Ho Hend]. exists SessionClosed, st1. split; [done|]. split; [apply Ho|].
    exists (batch_lines b), (reader_stream reader'). split; [done|]. split; [done|]. destruct Hend as [Hnil|Hq]; [right; left|by left].
    pose proof (read_batch_eof _ _ _ Hwf Eb Hnil) as Es. rewrite Hnil in Hlines. inversion Hlines. congruence.
  - destruct Hd as (lines & El & Ho). rewrite El in Hlines. apply reads_lines_snoc_inv in Hlines as (st2 & Hl1 & Hl2).
    exists (SessionSwitched q reader'), st1. split; [done|]. split; [apply Ho|]. by exists lines, st2.
  - exists (SessionFailed e), st1. split; [done|]. split; [apply Hd|]. by exists (batch_lines b), (reader_stream reader').
Qed.

End LoopFacts.

(** ** Authentication *)

Section LoopAuth.
Context {MC : Memchr} (t : target) (env : Oracle) (cfg : SessionConfig).
Variable fresh : PooledBuffer.
Variable cached : nat → bytes → option CachedArticle.
Variable adaptive : bool.
Context (auth_handler : AuthHandler) (rmode : RoutingMode).

(** No step of a session loses the identity. *)
Definition keeps_identity (st st' : PerCommandLoopState) : Prop := loop_identity st' = None → loop_identity st = None.

#[local] Instance keeps_identity_preorder : PreOrder keeps_identity.
Proof. unfold keeps_identity. split; [by intros st H|]. intros st1 st2 st3 H1 H2. auto. Qed.

Lemma spec_any {A} (m : M A) w : spec m w (λ _ _, True).
Proof. done. Qed.

Lemma execute_identity request st w :
  spec (execute_with_recorded_request_bytes t env cfg fresh cached adaptive auth_handler rmode request st) w (λ x _, keeps_identity st x.2).
Proof.
  unfold execute_with_recorded_request_bytes, process_single_command. run process_keeps_access as [r st'] w1 [_ Hk]. exact Hk.
Qed.

Lemma recorded_sequentially_identity batch st w :
  spec (execute_recorded_sequentially t env cfg fresh cached adaptive auth_handler rmode batch st) w (λ x _, keeps_identity st x.2).
Proof.
  revert st w. induction batch as [|request batch IH]; intros st w; [by apply spec_ret|]. cbn [execute_recorded_sequentially].
  run execute_identity as [r st'] w1 Hk. destruct r as [[]|e]; [|done]. eapply spec_mono; [apply IH|]. intros x w2 Hx. by etrans.
Qed.

Lemma sequentially_identity batch st w :
  spec (execute_sequentially t env cfg fresh cached adaptive auth_handler rmode batch st) w (λ x _, keeps_identity st x.2).
Proof.
  revert st w. induction batch as [|request batch IH]; intros st w; [by apply spec_ret|]. cbn [execute_sequentially]. unfold execute_and_record_request_bytes.
  run execute_identity as [r st'] w1 Hk. destruct r as [[]|e]; [|done]. eapply spec_mono; [apply IH|]. intros x w2 Hx.
  change (keeps_identity st x.2). by etrans.
Qed.

Definition some_identity {A} (st : PerCommandLoopState) (o : option (A * PerCommandLoopState)) : Prop :=
  match o with Some (_, st') => keeps_identity st st' | None => True end.

Lemma abandon_identity requests st w :
  spec (r ← abandon_window t env cfg fresh cached adaptive auth_handler rmode requests st; mret (Some r)) w (λ o _, some_identity st o).
Proof.
  unfold abandon_window. apply spec_bind, spec_bind. eapply spec_mono; [apply spec_any|]. intros [] w1 _.
  eapply spec_mono; [apply recorded_sequentially_identity|]. by intros [r st'] w2 H.
Qed.

Lemma same_identity {A} (x : A) st w : spec (mret (M := M) (Some (x, st))) w (λ o _, some_identity st o).
Proof. apply spec_ret. by intros H. Qed.

Lemma responses_identity rounds i slot requests n c st w :
  spec (forward_sent_responses t env cfg fresh cached adaptive auth_handler rmode rounds i slot requests n c st) w (λ o _, some_identity st o).
Proof.
  revert requests n c w. induction rounds as [|rounds IH]; intros requests n c w; destruct requests as [|[request [a g is_sent|]] requests];
    cbn [forward_sent_responses].
  1, 4: run @spec_any as r w1 _; apply same_identity.
  1, 2: by apply spec_ret.
  - run @spec_any as written w1 _. destruct written as [[]|k]; [|run @spec_any as r w2 _; apply abandon_identity].
    run @spec_any as response w2 _. destruct response as [c2|[e|e]]; [|apply abandon_identity|run @spec_any as r w3 _; apply same_identity].
    run @spec_any as s w3 _. run @spec_any as u w4 _. run @spec_any as [[[error rest] n'] c'] w5 _.
    destruct error; [|apply IH]. run @spec_any as r w6 _. apply abandon_identity.
  - run @spec_any as r w1 _. destruct r as [[]|e]; [apply IH|]. run @spec_any as r w2 _. run @spec_any as r' w3 _. apply same_identity.
Qed.

Lemma recorded_bytes_identity batch st : loop_identity (record_article_window_request_bytes batch st) = loop_identity st.
Proof. unfold record_article_window_request_bytes. revert st. induction batch as [|request batch IH]; intros st; [done|]. cbn. by rewrite IH. Qed.

Lemma window_identity target batch st w :
  spec (forward_single_backend_article_window t env cfg fresh cached adaptive auth_handler rmode target batch st) w (λ x _, keeps_identity st x.2).
Proof.
  unfold forward_single_backend_article_window. run @spec_any as requests w1 _. destruct (negb _).
  { run @spec_any as r w2 _. destruct r as [[]|e]; apply spec_ret; unfold keeps_identity; cbn; by rewrite ?recorded_bytes_identity. }
  apply spec_bind. eapply (spec_mono _ _ (λ x _, keeps_identity st x.2)).
  - unfold transition_routed_article_window_to_sent. run @spec_any as conn w2 _. destruct conn as [c|e]; [|run @spec_any as u w3 _; by intros H].
    run @spec_any as [r requests'] w3 _. destruct r; [|run @spec_any as u w4 _; run @spec_any as u' w5 _; by intros H].
    apply spec_ret. unfold keeps_identity. cbn. by rewrite recorded_bytes_identity.
  - intros [o st1] w2 Hk. destruct o as [[[n requests'] c]|]; [|exact Hk]. run responses_identity as o w3 Ho.
    destruct o as [[r st']|]; [|exact Hk]. exact (transitivity Hk Ho).
Qed.

Lemma pipelined_identity batch st w :
  spec (execute_pipelineable_batch t env cfg fresh cached adaptive auth_handler rmode batch st) w (λ o _, some_identity st o).
Proof.
  unfold execute_pipelineable_batch. run @spec_any as s w1 _. assert (keeps_identity st (refresh_access st)) as Hr by by intros H.
  destruct (select_single_backend_article_window _ _ _ _ _) as [target|].
  - run window_identity as [[o batch'] st1] w2 Hk. destruct o as [[[|]|e]|]; [exact (transitivity Hr Hk)| |exact (transitivity Hr Hk)|done].
    run sequentially_identity as [r st'] w3 Hk'. exact (transitivity Hr (transitivity Hk Hk')).
  - run sequentially_identity as [r st'] w2 Hk. exact (transitivity Hr Hk).
Qed.

Lemma trailing_identity b st w :
  spec (handle_trailing_command t env cfg fresh cached adaptive auth_handler rmode b st) w (λ x _, keeps_identity st x.2).
Proof.
  unfold handle_trailing_command. destruct (is_trailing_oversized b); [run @spec_any as r w1 _; by intros H|].
  destruct (is_trailing_invalid b); [run @spec_any as r w1 _; by intros H|]. destruct ((take_trailing_context b).1) as [request|]; [|by intros H].
  set (st1 := refresh_access _). assert (keeps_identity st st1) as H1 by by intros H.
  destruct (classify_request _ _ _) eqn:E; try exact H1; rewrite <- E;
    (run process_keeps_access as [r st'] w1 [_ Hk]; exact (transitivity H1 Hk)).
Qed.

Lemma batch_identity b st w :
  spec (handle_command_batch t env cfg fresh cached adaptive auth_handler rmode b st) w (λ o _, some_identity st o).
Proof.
  unfold handle_command_batch. run @spec_any as u w1 _. run @spec_any as refused w2 _. destruct refused as [r|]; [apply same_identity|].
  apply spec_bind. eapply (spec_mono _ _ (λ o _, some_identity st o)).
  { unfold process_pipelineable_batch. destruct (_ =? 0); [apply same_identity|]. run pipelined_identity as o w3 Ho.
    destruct o as [[[[]|e] st1]|]; [|done|done]. run @spec_any as v w4 _. exact Ho. }
  intros o w3 Ho. destruct o as [[[[]|e] st1]|]; [|run @spec_any as v w4 _; exact Ho|done].
  run trailing_identity as [r st2] w4 Hk. run @spec_any as v w5 _. exact (transitivity Ho Hk).
Qed.

Lemma loop_identity_kept rounds reader st w :
  spec (run_per_command_loop t env cfg fresh cached adaptive auth_handler rmode rounds reader st) w (λ o _, some_identity st o).
Proof.
  revert reader st w. induction rounds as [|rounds IH]; intros reader st w; cbn [run_per_command_loop]; [by apply spec_ret|].
  destruct (read_command_batch reader) as [[b|err] reader']; [|apply same_identity]. run batch_identity as o w1 Ho.
  destruct o as [[[[| |q]|e] st1]|]; try done. eapply spec_mono; [apply IH|]. intros o w2 Ho2.
  destruct o as [[x st2]|]; [|done]. exact (transitivity Ho Ho2).
Qed.

(** ** A session that is locked out *)

Lemma keeps_locked_out st st' : keeps_access st st' → locked_out st → loop_identity st' = None → locked_out st'.
Proof. intros [Ha _] [_ Hl] Hi. split; [done|congruence]. Qed.

Lemma locked_sequentially batch st w :
  locked_out st →
  spec (execute_sequentially t env cfg fresh cached adaptive auth_handler rmode batch st) w (λ x w', loop_identity x.2 = None → untouched w w' ∧ locked_out x.2).
Proof.
  revert st w. induction batch as [|request batch IH]; intros st w Hl; cbn [execute_sequentially]; [by apply spec_ret|].
  unfold execute_and_record_request_bytes. set (st0 := add_client_to_backend _ _). assert (locked_out st0) as Hl0 by done.
  run execute_locked_out as [r st1] w1 [Hu Hk]; [done|]. cbn [snd] in Hk. destruct r as [[]|e].
  2: { intros Hi. split; [done|]. by apply (keeps_locked_out st0). }
  destruct (loop_identity st1) eqn:Ei.
  - eapply spec_mono; [apply sequentially_identity|]. intros x w2 Hx Hi. by rewrite (Hx Hi) in Ei.
  - eapply spec_mono; [apply IH; by apply (keeps_locked_out st0)|]. intros x w2 Hx Hi. destruct (Hx Hi). split; [by etrans|done].
Qed.

Lemma write_refusal_untouched response w : spec (write_refusal response) w (λ r w', untouched w w' ∧ ∀ q, r ≠ Ok (LoopSwitchToStateful q)).
Proof. unfold write_refusal. run write_client_untouched as r w1 Hu. split; [done|]. intros q. by destruct r. Qed.

(** A step of a session that stays locked out. *)
Definition stays_locked {A} (w : World) (o : option (A * PerCommandLoopState)) (w' : World) : Prop :=
  match o with Some (_, st) => loop_identity st = None → untouched w w' ∧ locked_out st | None => True end.

Lemma locked_pipelined b st w :
  locked_out st → spec (process_pipelineable_batch t env cfg fresh cached adaptive auth_handler rmode b st) w (stays_locked w).
Proof.
  intros Hl. unfold process_pipelineable_batch. destruct (_ =? 0); [by intros _|]. unfold execute_pipelineable_batch. apply spec_bind, spec_bind, spec_read.
  destruct (refresh_locked_out st Hl) as [Hi Ha].
  assert (select_single_backend_article_window cfg rmode (selector w) (loop_access (refresh_access st)) (batch_requests b) = None) as ->.
  { unfold select_single_backend_article_window. rewrite Ha. cbn. by rewrite !orb_true_r. }
  run locked_sequentially as [r st1] w1 Hx; [done|]. apply spec_ret. destruct r as [[]|e]; [|exact Hx]. apply spec_bind.
  eapply (spec_mono _ _ (λ _ w', untouched w1 w')).
  { destruct (1 <? _); [|by apply spec_ret]. split; try done. cbn. intros e [?|E%list_elem_of_singleton]%elem_of_app; eauto. }
  intros [] w2 Hu. intros Hn. destruct (Hx Hn). split; [by etrans|done].
Qed.

Lemma locked_trailing b st w :
  locked_out st →
  spec (handle_trailing_command t env cfg fresh cached adaptive auth_handler rmode b st) w (λ x w',
    (loop_identity x.2 = None → untouched w w' ∧ locked_out x.2) ∧ ∀ q, x.1 ≠ Ok (LoopSwitchToStateful q)).
Proof.
  intros Hl. unfold handle_trailing_command.
  destruct (is_trailing_oversized b); [run write_refusal_untouched as r w1 [Hu Hr]; by split|].
  destruct (is_trailing_invalid b); [run write_refusal_untouched as r w1 [Hu Hr]; by split|].
  destruct ((take_trailing_context b).1) as [request|]; [|by split].
  set (st1 := refresh_access _). assert (locked_out st1) as Hl1 by by apply refresh_locked_out. pose proof (unauthenticated_plan request rmode) as Hplan.
  rewrite (proj2 Hl1). destruct (classify_request request Required rmode) eqn:E; try done;
    (run process_locked_out as [r st2] w1 [Hu Hk]; [done|]; split;
     [intros Hi; split; [done|]; by apply (keeps_locked_out st1)|intros q; by destruct r as [[]|]]).
Qed.

Lemma close_untouched success w : lease w = None → spec (close_batch_connection success) w (λ _ w', untouched w w').
Proof. intros Hl. unfold close_batch_connection. apply spec_bind, spec_read. rewrite Hl. split; auto. Qed.

Lemma locked_batch b st w :
  locked_out st → lease w = None →
  spec (handle_command_batch t env cfg fresh cached adaptive auth_handler rmode b st) w (λ o w',
    stays_locked w o w' ∧ ∀ q st', o = Some (Ok (LoopSwitchToStateful q), st') → loop_identity st' ≠ None).
Proof.
  intros Hl Hlease. unfold handle_command_batch. apply spec_bind.
  eapply (spec_mono _ _ (λ _ w', untouched w w')); [split; auto|]. intros [] w1 H1. apply spec_bind.
  eapply (spec_mono _ _ (λ o w', untouched w1 w' ∧ ∀ r, o = Some r → ∀ q, r ≠ Ok (LoopSwitchToStateful q))).
  { unfold handle_batch_rejections. destruct (is_first_oversized b); [run write_refusal_untouched as r w2 [Hu Hr]; split; [done|]; by intros r' [= <-]|].
    destruct (is_first_invalid b); [run write_refusal_untouched as r w2 [Hu Hr]; split; [done|]; by intros r' [= <-]|].
    destruct (batch_is_empty b); [split; [done|]; by intros r' [= <-]|by split]. }
  intros refused w2 [H2 Hsw]. assert (untouched w w2) as Hu2 by by etrans. destruct refused as [r|].
  { split; [by intros _|]. intros q st' [= E _]. by apply (Hsw r eq_refl) in E. }
  run locked_pipelined as o w3 Ho; [done|]. destruct o as [[[[]|e] st1]|]; [| |by split].
  2: { destruct (loop_identity st1) eqn:Ei.
       - run @spec_any as v w4 _. split; [|done]. cbn. congruence.
       - destruct (Ho Ei) as [Hu3 Hl3]. run close_untouched as v w4 Hu4.
         { by rewrite (un_lease _ _ Hu3), (un_lease _ _ Hu2). }
         split; [|done]. intros _. split; [|done]. by do 2 (etrans; [done|]). }
  destruct (loop_identity st1) eqn:Ei.
  { run trailing_identity as [r st2] w4 Hk. run @spec_any as v w5 _. assert (loop_identity st2 ≠ None) as Hne
      by (intros E; by rewrite (Hk E) in Ei). split; [by intros E|]. by intros q st' [= _ <-]. }
  destruct (Ho Ei) as [Hu3 Hl3]. run locked_trailing as [r st2] w4 [Hx Hr]; [done|]. cbn [fst snd] in *.
  destruct (loop_identity st2) eqn:Ei2.
  - run @spec_any as v w5 _. split; [cbn; congruence|]. intros q st' [= E _]. by apply Hr in E.
  - destruct (Hx eq_refl) as [Hu4 Hl4]. run close_untouched as v w5 Hu5.
    { by rewrite (un_lease _ _ Hu4), (un_lease _ _ Hu3), (un_lease _ _ Hu2). }
    split; [|intros q st' [= E _]; by apply Hr in E]. intros _. split; [|done]. by do 3 (etrans; [done|]).
Qed.

Lemma locked_loop rounds reader st w :
  locked_out st → lease w = None →
  spec (run_per_command_loop t env cfg fresh cached adaptive auth_handler rmode rounds reader st) w (λ o w',
    ∀ e st', o = Some (e, st') → loop_identity st' = None → untouched w w' ∧ ∀ q reader', e ≠ SessionSwitched q reader').
Proof.
  revert reader st w. induction rounds as [|rounds IH]; intros reader st w Hl Hlease; cbn [run_per_command_loop]; [by apply spec_ret|].
  destruct (read_command_batch reader) as [[b|err] reader']; [|intros e st' [= <- <-] _; by split].
  run locked_batch as o w1 [Ho Hsw]; [done..|]. destruct o as [[[[| |q]|e] st1]|].
  - destruct (loop_identity st1) eqn:Ei.
    + eapply spec_mono; [apply loop_identity_kept|]. intros o w2 Hk e st' -> Hi. by rewrite (Hk Hi) in Ei.
    + destruct (Ho Ei) as [Hu Hl1]. eapply spec_mono; [apply IH; [done|by rewrite (un_lease _ _ Hu)]|].
      intros o w2 H e st' Hs Hi. destruct (H e st' Hs Hi). split; [by etrans|done].
  - intros e st' [= <- <-] Hi. split; [by apply Ho|done].
  - intros e st' [= _ <-] Hi. by apply (Hsw q st1 eq_refl) in Hi.
  - intros e' st' [= <- <-] Hi. split; [by apply Ho|done].
  - by intros e st' [=].
Qed.

(** C2 Until a client authenticates, nothing it sends reaches a backend: in a session
    that requires authentication, if no identity was published by its end, the
    whole session used no backend, no pool and no cache (it asked its
    surroundings nothing, and the routing state, the leased and retired
    connections, the cache updates and the backend metrics are untouched), and it
    was not handed to stateful routing, whatever commands, pipelined batches and
    malformed lines the client sent. *)
Theorem no_backend_before_authentication reader w :
  is_enabled auth_handler = true → lease w = None →
  let '(o, w') := handle_per_command_routing t env cfg fresh cached adaptive auth_handler rmode reader w in
  ∀ e st', o = Some (e, st') → loop_identity st' = None → untouched w w' ∧ ∀ q reader', e ≠ SessionSwitched q reader'.
Proof.
  intros Hen Hlease. apply spec_let. apply locked_loop; [|done]. split; [done|]. unfold initial_state. cbn. by rewrite Hen.
Qed.
End LoopAuth.

(** ** Concrete sessions *)

Definition one_server : BackendSelector :=
  default (with_strategy LeastLoaded) (add_all (with_strategy LeastLoaded) [(10, 0, mkSlot 0)]%N).

Lemma one_server_ok : selector_ok one_server.
Proof. apply (add_all_ok [(10, 0, mkSlot 0)]%N (with_strategy LeastLoaded)); [apply with_strategy_ok|reflexivity]. Qed.

Definition one_world : World :=
  mkWorld 0 one_server new_availability 0 (mkWriter [] []) None 0 0 None [] [] [] [] [].

Lemma one_world_ok : session_ok (PL := small_pool) one_world.
Proof. split; [|exact one_server_ok]. split; [exact (so_ids _ one_server_ok)|done|]. intros i c H. by apply not_elem_of_nil in H. Qed.

Definition sample_head_response : bytes := bs "221 0 <c@d>" ++ CRLF ++ bs "X: y" ++ CRLF ++ DOT_TERMINATOR.

(** The responses to the pipelined requests arrive together. *)
Definition packed_responses (n i : nat) : option ConnectionStream :=
  Some (mkConn [] [Data (sample_article_response ++ sample_head_response)] PhaseIdle).

Definition sample_input : Reader :=
  mkReader [] [Chunk true (bs "ARTICLE <a@b>" ++ CRLF ++ bs "HEAD <c@d>" ++ CRLF ++ bs "QU"); Chunk true (bs "IT" ++ CRLF)].

Lemma packed_ok : oracle_ok (H := small_pool) (sample_oracle packed_responses).
Proof. apply sample_oracle_ok. by intros n i c [= <-]. Qed.


Definition locked_input : Reader :=
  mkReader (bs "ARTICLE <a@b>" ++ CRLF ++ bs "HEAD <c@d>" ++ CRLF ++ bs "AUTHINFO USER bob" ++ CRLF ++ bs "LIST" ++ CRLF ++ bs "QUIT" ++ CRLF) [].

Definition sample_users : AuthHandler := {[ bs "bob" := bs "pw" ]}.

Lemma sample_users_enabled : is_enabled sample_users = true.
Proof. vm_compute. reflexivity. Qed.

Lemma no_backend_before_authentication_witness :
  let '(o, w') := handle_per_command_routing (MC := naive_memchr) Generic (sample_oracle packed_responses) sample_config small_buffer (λ _ _, None)
                    false sample_users RmHybrid locked_input one_world in
  sent (client w') = responses.AUTH_REQUIRED_FOR_COMMAND ++ responses.AUTH_REQUIRED_FOR_COMMAND ++ responses.AUTH_REQUIRED ++
                     responses.AUTH_REQUIRED_FOR_COMMAND ++ responses.CONNECTION_CLOSING ∧ untouched one_world w'.
Proof.
  pose proof (no_backend_before_authentication (MC := naive_memchr) Generic (sample_oracle packed_responses) sample_config small_buffer (λ _ _, None)
    false sample_users RmHybrid locked_input one_world sample_users_enabled eq_refl) as H.
  destruct (handle_per_command_routing _ _ _ _ _ _ _ _ _ _) as [o w'] eqn:E. vm_compute in E. injection E as <- <-.
  split; [reflexivity|]. apply (H _ _ eq_refl). reflexivity.
Defined.
