(* ===== verification/Stateful.v ===== *)
(** * Stateful: a client with a backend connection of its own

    Models [src/src/session/handlers/stateful.rs] with the loop state of
    [src/src/session/state.rs] and [handle_stateful_auth_check] of
    [src/src/session/common.rs]: the loop that forwards commands to a dedicated
    backend connection as they arrive and the backend's bytes to the client, with
    the proxy's own replies put in their places.

    Client and backend are two sources that the loop waits for at once.  Which of
    them is ready first, what the backend sends and whether its socket accepts
    writes is decided by a [Peer]; a round of the model is what happens between two
    awaits, so an unfinished command line survives a read of the backend.  Log
    output is left out. *)

From S2P Require Import Prelude Protocol Request Scanner Framer Tracker Command Auth Pipeline Stream Transfer Retry Session.

(** ** Reading commands *)

Inductive StatefulClientLine := LineEof | LineOversized | LineInvalid | LineReady.

(** [StatefulCommandReader]; [line_buf] is [line_buf[..line_len]]. *)
Record StatefulCommandReader := mkCommandReader {
  line_buf : bytes;
  draining_oversized : bool;
  parsed_request : option RequestContext }.

Definition new_command_reader : StatefulCommandReader := mkCommandReader [] false None.

(** [take_request]; [None] is the panic of its caller. *)
Definition take_request (cr : StatefulCommandReader) : option RequestContext * StatefulCommandReader :=
  (parsed_request cr, mkCommandReader (line_buf cr) (draining_oversized cr) None).

Section Reading.
Context {MC : Memchr}.

(** A complete line: it is parsed and the buffer is empty again. *)
Definition finish_line (line : bytes) : StatefulClientLine * StatefulCommandReader :=
  let request := parse_request line in
  (match request with Some _ => LineReady | None => LineInvalid end, mkCommandReader [] false request).

(** The body of the loop of [read_next]: [None] is another round. *)
Definition read_next_round (cr : StatefulCommandReader) (r : Reader)
    : option (result IoError StatefulClientLine) * StatefulCommandReader * Reader :=
  let '(available, r) := fill_buf r in
  match available with
  | Err e => (Some (Err e), cr, r)
  | Ok [] =>
      if draining_oversized cr then (Some (Ok LineOversized), mkCommandReader (line_buf cr) false (parsed_request cr), r)
      else if length (line_buf cr) =? 0 then (Some (Ok LineEof), cr, r)
      else let '(line, cr) := finish_line (line_buf cr) in (Some (Ok line), cr, r)
  | Ok available =>
      let newline := memchr x0a available in
      let take_ := match newline with Some pos => pos + 1 | None => length available end in
      if draining_oversized cr then
        let r := reader_consume take_ r in
        match newline with
        | Some _ => (Some (Ok LineOversized), mkCommandReader (line_buf cr) false (parsed_request cr), r)
        | None => (None, cr, r)
        end
      else if MAX_COMMAND_LINE_OCTETS <? length (line_buf cr) + take_ then
        let r := reader_consume take_ r in
        match newline with
        | Some _ => (Some (Ok LineOversized), mkCommandReader [] false (parsed_request cr), r)
        | None => (None, mkCommandReader [] true (parsed_request cr), r)
        end
      else
        let line := line_buf cr ++ take take_ available in
        let r := reader_consume take_ r in
        match newline with
        | Some _ => let '(line, cr) := finish_line line in (Some (Ok line), cr, r)
        | None => (None, mkCommandReader line false (parsed_request cr), r)
        end
  end.
End Reading.

(** ** The loop state *)

(** [constants::session::METRICS_FLUSH_INTERVAL] *)
Definition METRICS_FLUSH_INTERVAL : nat := 100.

Record SessionLoopState := mkSessionLoop {
  sl_client_to_backend : N;
  sl_backend_to_client : N;
  last_reported_c2b : N;
  last_reported_b2c : N;
  iteration_count : nat;
  sl_auth : ClientAuthState;
  sl_access : AuthenticationAccess;
  backend_replies : BackendResponseOrder }.

Definition new_loop_state (auth_enabled : bool) : SessionLoopState :=
  mkSessionLoop 0 0 0 0 0 Anonymous (from_auth_enabled auth_enabled) default_order.

Definition with_initial_bytes (c2b b2c : N) (st : SessionLoopState) : SessionLoopState :=
  mkSessionLoop c2b b2c c2b b2c (iteration_count st) (sl_auth st) (sl_access st) (backend_replies st).

Definition from_initial_bytes (c2b b2c : N) (auth_enabled : bool) : SessionLoopState :=
  with_initial_bytes c2b b2c (new_loop_state auth_enabled).

Definition check_and_maybe_flush_metrics (st : SessionLoopState) : bool * SessionLoopState :=
  let count := S (iteration_count st) in
  let flush := METRICS_FLUSH_INTERVAL <=? count in
  (flush, mkSessionLoop (sl_client_to_backend st) (sl_backend_to_client st) (last_reported_c2b st) (last_reported_b2c st)
     (if flush then 0 else count) (sl_auth st) (sl_access st) (backend_replies st)).

Definition sl_add_client_to_backend (n : nat) (st : SessionLoopState) : SessionLoopState :=
  mkSessionLoop (counter_add (sl_client_to_backend st) n) (sl_backend_to_client st) (last_reported_c2b st) (last_reported_b2c st)
    (iteration_count st) (sl_auth st) (sl_access st) (backend_replies st).

Definition sl_add_backend_to_client (n : nat) (st : SessionLoopState) : SessionLoopState :=
  mkSessionLoop (sl_client_to_backend st) (counter_add (sl_backend_to_client st) n) (last_reported_c2b st) (last_reported_b2c st)
    (iteration_count st) (sl_auth st) (sl_access st) (backend_replies st).

(** [flush_byte_deltas]: the deltas given to the metrics, if they are not zero. *)
Definition flush_byte_deltas (st : SessionLoopState) : (N * N) * SessionLoopState :=
  ((sat_sub (sl_client_to_backend st) (last_reported_c2b st), sat_sub (sl_backend_to_client st) (last_reported_b2c st)),
   mkSessionLoop (sl_client_to_backend st) (sl_backend_to_client st) (sl_client_to_backend st) (sl_backend_to_client st)
     (iteration_count st) (sl_auth st) (sl_access st) (backend_replies st)).

Definition sl_set_access (access : AuthenticationAccess) (st : SessionLoopState) : SessionLoopState :=
  mkSessionLoop (sl_client_to_backend st) (sl_backend_to_client st) (last_reported_c2b st) (last_reported_b2c st)
    (iteration_count st) (sl_auth st) access (backend_replies st).

Definition sl_set_auth (auth : ClientAuthState) (st : SessionLoopState) : SessionLoopState :=
  mkSessionLoop (sl_client_to_backend st) (sl_backend_to_client st) (last_reported_c2b st) (last_reported_b2c st)
    (iteration_count st) auth (sl_access st) (backend_replies st).

Definition sl_set_replies (o : BackendResponseOrder) (st : SessionLoopState) : SessionLoopState :=
  mkSessionLoop (sl_client_to_backend st) (sl_backend_to_client st) (last_reported_c2b st) (last_reported_b2c st)
    (iteration_count st) (sl_auth st) (sl_access st) o.

Inductive StatefulReadMode := Bidirectional | DrainBackendReplies.

Definition read_mode (st : SessionLoopState) : StatefulReadMode :=
  if should_drain_backend_replies (backend_replies st) then DrainBackendReplies else Bidirectional.

(** [AuthHandlerResult] *)
Inductive AuthHandlerResult :=
| AhAuthenticated (bytes_written : nat)
| AhNotAuthenticated (bytes_written : nat)
| AhRejected (bytes_written : nat).

Definition ah_bytes_written (r : AuthHandlerResult) : nat :=
  match r with AhAuthenticated n | AhNotAuthenticated n | AhRejected n => n end.

Definition should_skip_further_checks (r : AuthHandlerResult) : bool :=
  match r with AhAuthenticated _ => true | _ => false end.

Definition apply_auth_result (r : AuthHandlerResult) (st : SessionLoopState) : SessionLoopState :=
  let st := sl_add_backend_to_client (ah_bytes_written r) st in
  if should_skip_further_checks r then sl_set_access (after_success (sl_access st)) st else st.

(** ** The world of the loop *)

Inductive StatefulConnectionDisposition := RetireClient | RetireBackend.

Record StatefulLoopError := mkLoopError { loop_source : AnyError; loop_disposition : StatefulConnectionDisposition }.

Inductive StatefulSessionExit := ClientDisconnected | ClientReadError | BackendDisconnected | BackendReadError.

Definition exit_disposition (e : StatefulSessionExit) : StatefulConnectionDisposition :=
  match e with
  | ClientDisconnected | ClientReadError => RetireClient
  | BackendDisconnected | BackendReadError => RetireBackend
  end.

(** The other side of the dedicated connection, as functions of the time: the next
    read of the backend, given the requests written to it and the bytes it has sent;
    whether a write or flush to it succeeds; and whether the client's socket is ready
    before the backend's. *)
Record Peer := mkPeer {
  backend_reads : nat → list RequestContext → bytes → result ErrorKind bytes;
  backend_accepts : nat → result ErrorKind unit;
  client_first : nat → bool }.

(** Where the loop stands: at its head, waiting for the backend only, or in the
    [select!] of both sides. *)
Inductive LoopPhase := AtHead | Draining | Selecting.

Record Session := mkSessionWorld {
  s_time : nat;
  s_reader : Reader;
  s_command : StatefulCommandReader;
  s_client : Writer;
  s_state : SessionLoopState;
  s_identity : AuthState;
  s_pending_writes : nat;
  s_written : list RequestContext;
  s_received : bytes;
  s_reported : list (N * N);
  s_phase : LoopPhase }.

Definition on_reader (cr : StatefulCommandReader) (r : Reader) (s : Session) : Session :=
  mkSessionWorld (s_time s) r cr (s_client s) (s_state s) (s_identity s) (s_pending_writes s) (s_written s) (s_received s) (s_reported s) (s_phase s).

Definition on_client (wr : Writer) (s : Session) : Session :=
  mkSessionWorld (s_time s) (s_reader s) (s_command s) wr (s_state s) (s_identity s) (s_pending_writes s) (s_written s) (s_received s) (s_reported s) (s_phase s).

Definition on_state (f : SessionLoopState → SessionLoopState) (s : Session) : Session :=
  mkSessionWorld (s_time s) (s_reader s) (s_command s) (s_client s) (f (s_state s)) (s_identity s) (s_pending_writes s) (s_written s) (s_received s) (s_reported s) (s_phase s).

Definition on_identity (i : AuthState) (s : Session) : Session :=
  mkSessionWorld (s_time s) (s_reader s) (s_command s) (s_client s) (s_state s) i (s_pending_writes s) (s_written s) (s_received s) (s_reported s) (s_phase s).

Definition on_pending_writes (n : nat) (s : Session) : Session :=
  mkSessionWorld (s_time s) (s_reader s) (s_command s) (s_client s) (s_state s) (s_identity s) n (s_written s) (s_received s) (s_reported s) (s_phase s).

Definition on_written (q : RequestContext) (s : Session) : Session :=
  mkSessionWorld (s_time s) (s_reader s) (s_command s) (s_client s) (s_state s) (s_identity s) (s_pending_writes s) (s_written s ++ [q]) (s_received s) (s_reported s) (s_phase s).

Definition on_received (b : bytes) (s : Session) : Session :=
  mkSessionWorld (s_time s) (s_reader s) (s_command s) (s_client s) (s_state s) (s_identity s) (s_pending_writes s) (s_written s) (s_received s ++ b) (s_reported s) (s_phase s).

Definition on_reported (d : N * N) (s : Session) : Session :=
  mkSessionWorld (s_time s) (s_reader s) (s_command s) (s_client s) (s_state s) (s_identity s) (s_pending_writes s) (s_written s) (s_received s) (s_reported s ++ [d]) (s_phase s).

Definition on_phase (p : LoopPhase) (s : Session) : Session :=
  mkSessionWorld (s_time s) (s_reader s) (s_command s) (s_client s) (s_state s) (s_identity s) (s_pending_writes s) (s_written s) (s_received s) (s_reported s) p.

Definition on_time (s : Session) : Session :=
  mkSessionWorld (S (s_time s)) (s_reader s) (s_command s) (s_client s) (s_state s) (s_identity s) (s_pending_writes s) (s_written s) (s_received s) (s_reported s) (s_phase s).

(** Programs over a session that stop at the first error, as [?] does. *)
Definition L (A : Type) : Type := Session → result StatefulLoopError A * Session.

#[global] Instance L_ret : MRet L := λ A a s, (Ok a, s).
#[global] Instance L_bind : MBind L := λ A B f m s, match m s with (Ok a, s) => f a s | (Err e, s) => (Err e, s) end.

Definition fail {A} (e : StatefulLoopError) : L A := λ s, (Err e, s).
Definition look {A} (f : Session → A) : L A := λ s, (Ok (f s), s).
Definition modify (f : Session → Session) : L unit := λ s, (Ok (), f s).
Definition query {A} (q : nat → A) : L A := λ s, (Ok (q (s_time s)), on_time s).

(** [StatefulLoopError::client] and [StatefulLoopError::backend] *)
Definition client_error (e : AnyError) : StatefulLoopError := mkLoopError e RetireClient.
Definition backend_error (e : AnyError) : StatefulLoopError := mkLoopError e RetireBackend.

Definition write_to_client (b : bytes) : L unit :=
  wr ← look s_client;
  let '(r, wr) := write_all b wr in
  modify (on_client wr);;
  match r with Ok _ => mret () | Err k => fail (client_error (AnyIo k)) end.

Definition flush_to_client : L unit :=
  wr ← look s_client;
  let '(r, wr) := flush wr in
  modify (on_client wr);;
  match r with Ok _ => mret () | Err k => fail (client_error (AnyIo k)) end.

Inductive AuthenticatedStatefulAction :=
| ActForward
| RejectAuthAlreadyAuthenticated
| ActInterceptCapabilities
| ActReject (response : RejectResponse).

Definition classify_authenticated_stateful_action (request : RequestContext) (access : AuthenticationAccess)
    : AuthenticatedStatefulAction :=
  match classify_request request access RmStateful with
  | InterceptAuth _ => if access_auth_enabled access then RejectAuthAlreadyAuthenticated else ActForward
  | InterceptCapabilities => ActInterceptCapabilities
  | PlanReject response =>
      if bool_decide (kind request = Post) || bool_decide (kind request = Ihave) || bool_decide (route_class request = Reject)
      then ActReject response else ActForward
  | _ => ActForward
  end.

Section Loop.
Context {MC : Memchr} (t : target) (peer : Peer) (auth_handler : AuthHandler).

(** A flush of the backend socket, or the write of a request to it. *)
Definition backend_io : L unit :=
  r ← query (backend_accepts peer);
  match r with Ok _ => mret () | Err k => fail (backend_error (AnyIo k)) end.

Definition flush_to_backend : L unit := backend_io;; modify (on_pending_writes 0).

(** Each reply is written and counted. *)
Fixpoint write_counted (writes : list bytes) : L unit :=
  match writes with
  | [] => mret ()
  | b :: writes =>
      write_to_client b;;
      modify (on_state (sl_add_backend_to_client (length b)));;
      write_counted writes
  end.

(** ** Handlers *)

(** A local reply waits for the backend replies ahead of it. *)
Definition reply_or_defer (reply : bytes) : L unit :=
  st ← look s_state;
  if has_pending_backend_replies (backend_replies st)
  then modify (on_state (λ st, sl_set_replies (push_deferred_reply reply (backend_replies st)) st))
  else
    write_to_client reply;; flush_to_client;;
    modify (on_state (sl_add_backend_to_client (length reply))).

Definition handle_authenticated_stateful_request (request : RequestContext) : L unit :=
  st ← look s_state;
  match classify_authenticated_stateful_action request (sl_access st) with
  | ActForward =>
      backend_io;;
      modify (on_written request);;
      modify (on_state (sl_add_client_to_backend (request_wire_len request)));;
      modify (on_state (λ st, sl_set_replies (push_request (kind request) (backend_replies st)) st))
  | RejectAuthAlreadyAuthenticated => reply_or_defer responses.AUTH_ALREADY_AUTHENTICATED
  | ActInterceptCapabilities => reply_or_defer (capabilities_response false)
  | ActReject response => reply_or_defer (reject_wire response)
  end.

(** [common::handle_stateful_auth_check] *)
Definition handle_stateful_auth_check (request : RequestContext) : L AuthHandlerResult :=
  match classify_request request Required RmStateful with
  | Forward | RequireAuth | SwitchToStateful _ | PlanReject _ =>
      write_to_client responses.AUTH_REQUIRED_FOR_COMMAND;;
      mret (AhRejected (length responses.AUTH_REQUIRED_FOR_COMMAND))
  | InterceptCapabilities =>
      write_to_client (capabilities_response true);;
      mret (AhRejected (length (capabilities_response true)))
  | InterceptAuth action =>
      auth ← look (λ s, sl_auth (s_state s));
      published ← look s_identity;
      let '(res, (auth, published)) := auth_step auth_handler action true (auth, published) in
      match res with
      | Err _ => fail (client_error AnyOther)
      | Ok r =>
          write_to_client match r with ResAuthenticated written _ | ResNotAuthenticated written _ => written end;;
          modify (on_state (sl_set_auth auth));;
          modify (on_identity published);;
          mret match r with
               | ResAuthenticated written _ => AhAuthenticated (length written)
               | ResNotAuthenticated written _ => AhNotAuthenticated (length written)
               end
      end
  end.

(** A read of the backend; [None] is the end of its stream. *)
Definition read_stateful_backend_bytes : L (result ErrorKind (option bytes)) :=
  written ← look s_written;
  received ← look s_received;
  r ← query (λ n, backend_reads peer n written received);
  match r with
  | Err k => mret (Err k)
  | Ok [] => mret (Ok None)
  | Ok b => modify (on_received b);; mret (Ok (Some b))
  end.

Definition write_stateful_backend_bytes (b : bytes) : L unit :=
  st ← look s_state;
  let '(writes, o) := client_writes_for_backend_read t (backend_replies st) b in
  modify (on_state (sl_set_replies o));;
  write_counted writes;;
  flush_to_client.

(** ** The loop *)

Definition MAX_UPSTREAM_PIPELINE_DEPTH : nat := 16.

(** Before the loop waits, requests written to the backend are flushed, unless the
    next command is already there. *)
Definition prepare_to_wait : L unit :=
  st ← look s_state;
  pending_writes ← look s_pending_writes;
  reader ← look s_reader;
  match read_mode st with
  | DrainBackendReplies =>
      (if pending_writes =? 0 then mret () else flush_to_backend);;
      modify (on_phase Draining)
  | Bidirectional =>
      (if negb (pending_writes =? 0) && negb (bool_decide (x0a ∈ rbuf reader)) then flush_to_backend else mret ());;
      modify (on_phase Selecting)
  end.

(** The ready replies; the [continue] after them is the head again. *)
Definition write_ready_replies : L unit :=
  st ← look s_state;
  let '(replies, o) := take_ready_deferred_replies (backend_replies st) in
  modify (on_state (sl_set_replies o));;
  match replies with
  | _ :: _ => write_counted replies;; flush_to_client
  | [] => prepare_to_wait
  end.

(** The loop up to its next await of a peer. *)
Definition loop_head : L unit :=
  st ← look s_state;
  let '(flush, st) := check_and_maybe_flush_metrics st in
  modify (on_state (λ _, st));;
  (if flush then
     let '(deltas, st) := flush_byte_deltas st in
     modify (on_state (λ _, st));; modify (on_reported deltas)
   else mret ());;
  write_ready_replies.

(** The backend was ready. *)
Definition on_backend : L (option StatefulSessionExit) :=
  r ← read_stateful_backend_bytes;
  match r with
  | Ok (Some b) => write_stateful_backend_bytes b;; modify (on_phase AtHead);; mret None
  | Ok None => mret (Some BackendDisconnected)
  | Err _ => mret (Some BackendReadError)
  end.

(** A command is ready; a missing one is a panic, which does not happen. *)
Definition on_request (request : RequestContext) : L unit :=
  published ← look s_identity;
  modify (on_state (λ st, sl_set_access (authentication_access published (sl_access st)) st));;
  st ← look s_state;
  if can_access_backend (sl_access st) then
    handle_authenticated_stateful_request request;;
    pending_writes ← look s_pending_writes;
    modify (on_pending_writes (S pending_writes));;
    (if MAX_UPSTREAM_PIPELINE_DEPTH <=? S pending_writes then flush_to_backend else mret ())
  else
    auth_result ← handle_stateful_auth_check request;
    modify (on_state (apply_auth_result auth_result)).

(** The client was ready: a line may still be incomplete. *)
Definition on_client_ready : L (option StatefulSessionExit) :=
  cr ← look s_command;
  reader ← look s_reader;
  let '(line, cr, reader) := read_next_round cr reader in
  modify (on_reader cr reader);;
  match line with
  | None => mret None
  | Some (Err _) => mret (Some ClientReadError)
  | Some (Ok LineEof) => mret (Some ClientDisconnected)
  | Some (Ok LineOversized) =>
      modify (on_state (λ st, sl_set_replies (push_deferred_reply responses.COMMAND_TOO_LONG (backend_replies st)) st));;
      modify (on_phase AtHead);; mret None
  | Some (Ok LineInvalid) =>
      modify (on_state (λ st, sl_set_replies (push_deferred_reply responses.COMMAND_SYNTAX_ERROR_RESPONSE (backend_replies st)) st));;
      modify (on_phase AtHead);; mret None
  | Some (Ok LineReady) =>
      let '(request, cr) := take_request cr in
      modify (on_reader cr reader);;
      match request with
      | None => fail (client_error AnyOther)
      | Some request => on_request request;; modify (on_phase AtHead);; mret None
      end
  end.

(** One round of the loop, between two awaits of a peer. *)
Definition loop_round : L (option StatefulSessionExit) :=
  phase ← look s_phase;
  match phase with
  | AtHead => loop_head;; mret None
  | Draining => on_backend
  | Selecting =>
      client ← query (client_first peer);
      if client : bool then on_client_ready else on_backend
  end.

Inductive StatefulLoopOutcome :=
| LoopRunning
| LoopEnded (disposition : StatefulConnectionDisposition) (metrics : N * N).

(** [run_stateful_proxy_loop], observed after some rounds. *)
Fixpoint run_stateful_proxy_loop (rounds : nat) : L StatefulLoopOutcome :=
  match rounds with
  | 0 => mret LoopRunning
  | S rounds =>
      exit ← loop_round;
      match exit with
      | None => run_stateful_proxy_loop rounds
      | Some exit =>
          st ← look s_state;
          let '(deltas, st) := flush_byte_deltas st in
          modify (on_state (λ _, st));;
          modify (on_reported deltas);;
          mret (LoopEnded (exit_disposition exit) (sl_client_to_backend st, sl_backend_to_client st))
      end
  end.
End Loop.

(** The loop as it is entered, with the requests already handed to the backend. *)
Definition enter_loop (reader : Reader) (client : Writer) (st : SessionLoopState) (published : AuthState)
    (handed : list RequestContext) : Session :=
  mkSessionWorld 0 reader new_command_reader client st published 0 handed [] [] AtHead.

(** What the guard of the dedicated connection does at the end. *)
Definition disposition_fate (d : StatefulConnectionDisposition) : ConnectionFate :=
  match d with RetireClient => RemovedClean | RetireBackend => RemovedCooldown end.

(** How a session with a dedicated connection stands: still running, or over with
    the fate of its connection. *)
Inductive StatefulSession :=
| SessionRunning
| SessionOver (r : result SessionError (N * N)) (fate : ConnectionFate).

Definition session_over (r : result StatefulLoopError StatefulLoopOutcome) : StatefulSession :=
  match r with
  | Ok LoopRunning => SessionRunning
  | Ok (LoopEnded d metrics) => SessionOver (Ok metrics) (disposition_fate d)
  | Err e => SessionOver (Err (session_error_from_anyhow (loop_source e))) (disposition_fate (loop_disposition e))
  end.

(** [handle_stateful_session] after a number of rounds; without a connection from
    the pool the client is told so. *)
Definition handle_stateful_session {MC : Memchr} (t : target) (auth_handler : AuthHandler) (dedicated : option Peer)
    (reader : Reader) (client : Writer) (rounds : nat) : result SessionError StatefulSession * Session :=
  let s := enter_loop reader client (new_loop_state (is_enabled auth_handler)) None [] in
  match dedicated with
  | None =>
      match write_all responses.BACKEND_UNAVAILABLE client with
      | (Ok _, client) => (Err (BackendError AnyOther), on_client client s)
      | (Err k, client) => (Err (session_error_from_anyhow (AnyIo k)), on_client client s)
      end
  | Some peer =>
      let '(r, s) := run_stateful_proxy_loop t peer auth_handler rounds s in
      (Ok (session_over r), s)
  end.

(** ** What a client is owed *)

(** The reply to a request of a client with access to the backend. *)
Definition action_expects (request : RequestContext) (a : AuthenticatedStatefulAction) : Expected :=
  match a with
  | ActForward => EBackend (kind request)
  | RejectAuthAlreadyAuthenticated => ELocal responses.AUTH_ALREADY_AUTHENTICATED
  | ActInterceptCapabilities => ELocal (capabilities_response false)
  | ActReject response => ELocal (reject_wire response)
  end.

(** Where the authentication of a client stands. *)
Abbreviation Standing := (ClientAuthState * AuthState * AuthenticationAccess)%type.

Definition written_reply (r : AuthResult) : bytes :=
  match r with ResAuthenticated written _ | ResNotAuthenticated written _ => written end.

(** The reply a line calls for, and the standing after it; [None] ends the session
    without a reply. *)
Definition line_expects (h : AuthHandler) (a : Standing) (line : CommandLine) : option (Expected * Standing) :=
  let '(auth, published, access) := a in
  match line with
  | Eof => None
  | Oversized _ => Some (ELocal responses.COMMAND_TOO_LONG, a)
  | Invalid => Some (ELocal responses.COMMAND_SYNTAX_ERROR_RESPONSE, a)
  | Parsed request =>
      let access := authentication_access published access in
      if can_access_backend access
      then Some (action_expects request (classify_authenticated_stateful_action request access), (auth, published, access))
      else
        match classify_request request Required RmStateful with
        | InterceptCapabilities => Some (ELocal (capabilities_response true), (auth, published, access))
        | InterceptAuth action =>
            let '(res, (auth, published)) := auth_step h action true (auth, published) in
            match res with
            | Err _ => None
            | Ok r =>
                Some (ELocal (written_reply r),
                      (auth, published, match r with ResAuthenticated _ _ => after_success access | _ => access end))
            end
        | _ => Some (ELocal responses.AUTH_REQUIRED_FOR_COMMAND, (auth, published, access))
        end
  end.

Fixpoint session_expects (h : AuthHandler) (a : Standing) (lines : list CommandLine) : option (list Expected * Standing) :=
  match lines with
  | [] => Some ([], a)
  | line :: lines =>
      '(x, a) ← line_expects h a line;
      '(q, a) ← session_expects h a lines;
      Some (x :: q, a)
  end.

(** What the client sees of its replies once the backend has sent [b]: the replies
    that are complete and what has arrived of the next one. *)
Definition seen_of (q : list Expected) (b : bytes) : bytes :=
  let '(pre, (_, rest)) := deliver q b in pre ++ rest.

Lemma session_expects_snoc h a lines line q a' x a'' :
  session_expects h a lines = Some (q, a') → line_expects h a' line = Some (x, a'') →
  session_expects h a (lines ++ [line]) = Some (q ++ [x], a'').
Proof.
  revert a q. induction lines as [|l lines IH]; intros a q; cbn.
  - intros [= <- <-] ->. done.
  - destruct (line_expects h a l) as [[y b]|]; [|done]. cbn.
    destruct (session_expects h b lines) as [[q1 b1]|] eqn:E; [|done]. cbn. intros [= <- <-] Hx.
    by rewrite (IH _ _ E Hx).
Qed.

(** *** Delivery in steps *)

Lemma deliver_snoc q x b :
  deliver (q ++ [x]) b =
  let '(pre, (q1, rest)) := deliver q b in
  match q1 with
  | [] => let '(pre', st) := deliver [x] rest in (pre ++ pre', st)
  | _ => (pre, (q1 ++ [x], rest))
  end.
Proof.
  revert b. induction q as [|[k|reply] q IH]; intros b.
  - cbn. destruct x as [k|reply]; cbn; [by destruct (reply_end k b)|done].
  - rewrite <-app_comm_cons. remember [x] as l. cbn [deliver]. destruct (reply_end k b) as [e|]; [|by subst].
    rewrite IH. destruct (deliver q (drop e b)) as [pre [[|y q1] rest]]; [|done].
    destruct (deliver l rest). by rewrite app_assoc.
  - rewrite <-app_comm_cons. remember [x] as l. cbn [deliver]. rewrite IH.
    destruct (deliver q b) as [pre [[|y q1] rest]]; [|done]. destruct (deliver l rest). by rewrite app_assoc.
Qed.

Lemma reply_end_later k s x e : reply_end k s = None → reply_end k (s ++ x) = Some e → length s < e.
Proof.
  intros Hs He. destruct (decide (length s < e)) as [|Hle]; [done|exfalso].
  destruct (line_split s) as [Hlf|(l & rest & -> & Hl)].
  - destruct (line_split (s ++ x)) as [?|(l & rest & E & Hl)]; [by rewrite reply_end_no_lf in He|].
    rewrite E, reply_end_line in He by done.
    assert (length s ≤ length l) as Hsl.
    { destruct (decide (length s ≤ length l)) as [|Hn]; [done|]. destruct Hlf.
      assert (s = l ++ x0a :: take (length s - S (length l)) rest) as ->; [|set_solver].
      apply (f_equal (take (length s))) in E. rewrite take_app_length in E. rewrite E at 1.
      rewrite take_app_ge by lia. f_equal. replace (length s - length l) with (S (length s - S (length l))) by lia. done. }
    unfold line_reply in He. rewrite !length_app in He. cbn [length] in He.
    repeat case_match; simplify_eq; try lia. apply fmap_Some in He as (d & _ & ->). lia.
  - rewrite <-app_assoc, <-app_comm_cons, reply_end_line in He by done. rewrite reply_end_line in Hs by done.
    unfold line_reply in *. repeat case_match; try done. apply fmap_None in Hs.
    rewrite first_touching_end_app_None in He by done.
    apply fmap_Some in He as (d & (d' & ?%first_touching_end_bounds & ->)%fmap_Some & ->).
    rewrite !length_app in Hle. cbn [length] in Hle. lia.
Qed.

Lemma deliver_length q b : length (deliver q b).2.1 ≤ length q.
Proof.
  revert b. induction q as [|[k|r] q IH]; intros b; cbn; [done| |].
  - destruct (reply_end k b) as [e|]; [|done]. specialize (IH (drop e b)). destruct (deliver q (drop e b)). cbn in *. lia.
  - specialize (IH b). destruct (deliver q b). cbn in *. lia.
Qed.

(** What has arrived of a reply is at the front of what follows. *)
Lemma deliver_more q b x pre q1 rest :
  deliver q b = (pre, (q1, rest)) → ∃ y, seen_of q1 (rest ++ x) = rest ++ y ∧ seen_of q (b ++ x) = pre ++ rest ++ y.
Proof.
  intros Hd. assert (seen_of q (b ++ x) = pre ++ seen_of q1 (rest ++ x)) as ->.
  { unfold seen_of. rewrite deliver_app, Hd. destruct (deliver q1 (rest ++ x)) as [p [? ?]]. by rewrite app_assoc. }
  enough (∃ y, seen_of q1 (rest ++ x) = rest ++ y) as [y Hy] by (exists y; by rewrite Hy).
  apply deliver_idem in Hd. unfold seen_of. destruct q1 as [|[k|reply] q1]; [by exists x| |].
  - cbn in *. destruct (reply_end k rest) eqn:Er.
    { pose proof (reply_end_bounds _ _ _ Er). destruct (deliver q1 _). injection Hd as Hd _.
      apply app_eq_nil in Hd as [Hd _]. apply (f_equal length) in Hd. rewrite length_take in Hd. cbn in Hd. lia. }
    destruct (reply_end k (rest ++ x)) as [e|] eqn:Ex; [|by exists x].
    pose proof (reply_end_later _ _ _ _ Er Ex). destruct (deliver q1 (drop e (rest ++ x))) as [p' [q' r']].
    exists (take (e - length rest) x ++ p' ++ r'). rewrite (take_app_ge rest x e) by lia. by rewrite <-!app_assoc.
  - exfalso. cbn in Hd. destruct (deliver q1 rest) as [p st] eqn:E. injection Hd as Hp Hst. subst st.
    apply (f_equal (λ o, length o.2.1)) in E. cbn in E.
    pose proof (deliver_length q1 rest). lia.
Qed.

(** A backend that has sent a part of its replies. *)
Lemma deliver_within q b rs :
  Forall2 framed_reply (kinds q) rs → b `prefix_of` concat rs →
  seen_of q b `prefix_of` fill q rs ∧ ((deliver q b).2.1 = [] → (deliver q b).2.2 = []).
Proof.
  intros Hall [x Hx]. pose proof (framed_deliver q rs Hall) as Hf. rewrite Hx in Hf.
  destruct (deliver q b) as [pre [q1 rest]] eqn:Hd. destruct (deliver_more q b x _ _ _ Hd) as (y & _ & Hy). split.
  - unfold seen_of in Hy. rewrite Hf, app_nil_r in Hy. rewrite Hy. unfold seen_of. rewrite Hd. exists y. by rewrite app_assoc.
  - cbn. intros ->. rewrite deliver_app, Hd in Hf. cbn in Hf. injection Hf as _ Hr. by apply app_eq_nil in Hr as [-> _].
Qed.

(** The ordering layer [a] owes the client the queue [q] and has given it [p] while
    the backend sent [b]. *)
Definition delivering (q : list Expected) (b : bytes) (a : AbsOrder) (p : bytes) : Prop :=
  (deliver q b).2 = ((split_ready (abs_queue a)).2, abs_seen a) ∧
  p ++ (split_ready (abs_queue a)).1 = seen_of q b ∧
  ((split_ready (abs_queue a)).2 = [] → abs_seen a = []).

Lemma split_ready_snoc q x :
  split_ready (q ++ [x]) =
  match (split_ready q).2, x with
  | [], ELocal r => ((split_ready q).1 ++ r, [])
  | q1, x => ((split_ready q).1, q1 ++ [x])
  end.
Proof.
  induction q as [|[k|reply] q IH]; cbn; [by destruct x; rewrite ?app_nil_r|by destruct x|]. rewrite IH.
  destruct (split_ready q) as [ready [|y q1]], x; cbn; by rewrite ?app_assoc.
Qed.

Lemma in_progress_queue a :
  ((split_ready (abs_queue a)).2 = [] → abs_seen a = []) → in_progress a = abs_seen a.
Proof.
  intros H. unfold in_progress. destruct (split_ready_kinds (abs_queue a)) as [Hk Hn]. rewrite <-Hk.
  destruct (split_ready (abs_queue a)).2 as [|[k|r] q1] eqn:E; cbn.
  - by rewrite H.
  - done.
  - destruct Hn. by eexists _, _.
Qed.

(** A new entry at the end of the queue. *)
Lemma delivering_snoc q b a p x op :
  delivering q b a p → op = match x with EBackend k => Push k | ELocal r => Defer r end →
  delivering (q ++ [x]) b (abs_step a op).2 p.
Proof.
  intros (Hd & Hp & Hr) ->. pose proof (in_progress_queue a Hr) as Hi.
  assert ((abs_step a match x with EBackend k => Push k | ELocal r => Defer r end).2 = mkAbs (abs_queue a ++ [x]) (abs_seen a)) as ->
    by (destruct x; cbn; by rewrite Hi).
  unfold delivering, seen_of in *. cbn [abs_queue abs_seen]. rewrite deliver_snoc, split_ready_snoc.
  destruct (deliver q b) as [pre [q1 rest]]. cbn [snd] in Hd. injection Hd as -> ->.
  destruct (split_ready (abs_queue a)) as [ready [|y q1]]; cbn [fst snd] in *.
  - specialize (Hr eq_refl). rewrite Hr in *. rewrite app_nil_r in Hp. destruct x as [k|r]; cbn.
    + split_and!; [done|by rewrite !app_nil_r|done].
    + split_and!; [done|by rewrite !app_nil_r, app_assoc, Hp|done].
  - destruct x; cbn; (split_and!; [done|done|by destruct q1]).
Qed.

Lemma delivering_take q b a p :
  delivering q b a p → delivering q b (abs_step a TakeReady).2 (p ++ (abs_step a TakeReady).1).
Proof.
  unfold delivering. cbn. destruct (split_ready_kinds (abs_queue a)) as [_ Hn].
  destruct (split_ready (abs_queue a)) as [ready q1]. cbn in *. intros (Hd & Hp & Hr).
  assert (split_ready q1 = ([], q1)) as -> by (destruct q1 as [|[]]; [done|done|]; destruct Hn; by eexists _, _).
  by rewrite app_nil_r.
Qed.

(** A read of the backend, of which [out] goes to the client. *)
Lemma delivering_read q b a p x out :
  delivering q b a p → (front_local (abs_queue a) → abs_seen a = []) →
  (abs_seen a ++ out = seen_of (abs_queue a) (abs_seen a ++ x)) →
  ((deliver q (b ++ x)).2.1 = [] → (deliver q (b ++ x)).2.2 = []) →
  delivering q (b ++ x) (abs_step a (Read x)).2 (p ++ out).
Proof.
  unfold delivering, seen_of. cbn. intros (Hd & Hp & _) Hf Ho Hend. rewrite deliver_app in Hend |- *.
  destruct (deliver q b) as [pre [q1 rest]]. cbn in Hd. injection Hd as -> ->.
  assert (deliver (abs_queue a) (abs_seen a ++ x) =
    let '(pre', st) := deliver (split_ready (abs_queue a)).2 (abs_seen a ++ x) in ((split_ready (abs_queue a)).1 ++ pre', st)) as Hs.
  { generalize (abs_seen a ++ x) as s. clear. intros s. induction (abs_queue a) as [|[k|r] q IH]; [done|cbn; by repeat case_match|].
    cbn. rewrite IH. destruct (split_ready q) as [ready q1]. cbn. destruct (deliver q1 s). by rewrite app_assoc. }
  rewrite Hs in Ho |- *. destruct (deliver (split_ready (abs_queue a)).2 (abs_seen a ++ x)) as [pre' [q2 rest']] eqn:E. cbn in *.
  assert (¬ front_local q2) as Hn.
  { apply deliver_idem in E. intros (r & q' & ->). cbn in E. destruct (deliver q' rest') as [p2 st2] eqn:E2. injection E as _ E.
    rewrite E in E2. pose proof (deliver_length q' rest'). rewrite E2 in *. cbn in *. lia. }
  assert (split_ready q2 = ([], q2)) as -> by (destruct q2 as [|[]]; [done|done|]; destruct Hn; by eexists _, _).
  cbn. rewrite app_nil_r. split_and!; [done| |done].
  destruct (split_ready (abs_queue a)) as [ready q1] eqn:Er. cbn in *. destruct (decide (ready = [])) as [->|Hne].
  - rewrite app_nil_r in Hp. by rewrite Hp, <-!app_assoc, Ho.
  - assert (abs_seen a = []) as Hz by (apply Hf; destruct (abs_queue a) as [|[k|r] q']; [by injection Er as <- _..|by eexists _, _]).
    rewrite Hz in *. cbn in Ho. rewrite app_nil_r in Hp. by rewrite Ho, !app_assoc, Hp.
Qed.

(** *** Lines *)

Section ReadingFacts.
Context {MC : Memchr} {MS : MemchrSpec MC}.

(** The reader stands in the stream [st], of whose next line it may have taken a
    part. *)
Definition reader_at (cr : StatefulCommandReader) (r : Reader) (st : bytes * bool) : Prop :=
  reader_wf r ∧ ∃ line, x0a ∉ line ∧ st = (line ++ (reader_stream r).1, (reader_stream r).2) ∧
    if draining_oversized cr then MAX_COMMAND_LINE_OCTETS < length line ∧ line_buf cr = []
    else line_buf cr = line ∧ length line ≤ MAX_COMMAND_LINE_OCTETS.

(** What a round of [read_next] found. *)
Definition round_of (st : bytes * bool) (x : option (result IoError StatefulClientLine) * StatefulCommandReader * Reader) : Prop :=
  let '(o, cr, r) := x in
  let found line := ∃ st', next_line st = Some (line, st') ∧ reader_at cr r st' in
  match o with
  | None => reader_at cr r st
  | Some (Err _) => next_line st = None
  | Some (Ok LineEof) => st = ([], false) ∧ reader_at cr r st
  | Some (Ok LineOversized) => ∃ n, found (Oversized n)
  | Some (Ok LineInvalid) => found Invalid
  | Some (Ok LineReady) => ∃ q, parsed_request cr = Some q ∧ found (Parsed q)
  end.

Lemma reader_at_line cr r st :
  reader_wf r → line_buf cr = [] → draining_oversized cr = false → reader_stream r = st → reader_at cr r st.
Proof.
  intros Hwf Hb Hd <-. split; [done|]. exists []. rewrite Hd, Hb.
  split_and!; [set_solver|apply surjective_pairing|done|unfold MAX_COMMAND_LINE_OCTETS; cbn; lia].
Qed.

Lemma finish_line_round line r st :
  next_line st = Some (parsed (parse_request line), reader_stream r) → reader_wf r →
  round_of st (let '(line, cr) := finish_line line in (Some (Ok line), cr, r)).
Proof.
  intros Hn Hwf. unfold finish_line. destruct (parse_request line) as [q|]; cbn in *; [exists q; split; [done|]|];
    (eexists; split; [done|by apply reader_at_line]).
Qed.

(** The end of an oversized line. *)
Lemma oversized_round st n st' cr r :
  next_line st = Some (Oversized n, st') → reader_wf r → line_buf cr = [] → draining_oversized cr = false →
  reader_stream r = st' → round_of st (Some (Ok LineOversized), cr, r).
Proof. intros Hn Hwf Hb Hd Hs. exists n, st'. split; [done|]. by apply reader_at_line. Qed.

Lemma read_next_round_spec cr r st : reader_at cr r st → round_of st (read_next_round cr r).
Proof.
  intros [Hwf (line & Hlf & -> & Hst)]. unfold read_next_round. destruct (reader_stream r) as [s e] eqn:Es. cbn [fst snd].
  pose proof (position_after line s Hlf) as Hpos.
  destruct (fill_buf_cases r Hwf) as [[-> Hs]|[(r' & -> & Hs & Hwf')|(r' & -> & Hne & Hs & Hwf' & _)]].
  - rewrite Hs in Es. injection Es as <- <-. rewrite app_nil_r in *. destruct (draining_oversized cr) eqn:Ed.
    + destruct Hst as [Hlen Hb]. assert (line ≠ []) as Hne by (intros ->; cbn in Hlen; lia).
      eapply oversized_round; [|done..]. rewrite next_line_end by done.
      by destruct (Nat.ltb_spec MAX_COMMAND_LINE_OCTETS (length line)); [|lia].
    + destruct Hst as [Hb Hlen]. rewrite Hb. destruct line as [|b line]; [split; [done|]; by apply reader_at_line|].
      cbn [Nat.eqb length]. apply finish_line_round; [|done]. rewrite next_line_end, Hs by done.
      by destruct (Nat.ltb_spec MAX_COMMAND_LINE_OCTETS (length (b :: line))); [lia|].
  - rewrite Hs in Es. injection Es as <- <-. cbn. by rewrite Hpos.
  - rewrite <-Hs in Es. destruct (rbuf r') as [|b0 buf] eqn:Eb; [done|]. rewrite <-Eb in *. clear Eb.
    pose proof (buffer_newline r' s e Es) as Hn. destruct (memchr x0a (rbuf r')) as [p|].
    + destruct Hn as (Hp & Hlt & Htake & Hrest). rewrite Hp in Hpos. cbn in Hpos.
      assert (drop (S (length line + p)) (line ++ s) = drop (S p) s) as Hdrop by (rewrite <-Nat.add_succ_r; apply drop_app_add).
      destruct (draining_oversized cr) eqn:Ed.
      * destruct Hst as [Hlen Hb]. eapply oversized_round; [rewrite (next_line_long _ _ _ Hpos) by lia|..]; [done..|by rewrite Hdrop].
      * destruct Hst as [Hb Hlen]. rewrite Hb. destruct (Nat.ltb_spec MAX_COMMAND_LINE_OCTETS (length line + (p + 1))).
        -- eapply oversized_round; [rewrite (next_line_long _ _ _ Hpos) by lia|..]; [done..|by rewrite Hdrop].
        -- apply finish_line_round; [|done]. rewrite (next_line_short _ _ _ Hpos), Hrest, Htake, Hdrop by lia.
           by rewrite <-Nat.add_succ_r, take_app_add.
    + destruct Hn as (u & -> & Hnl & _ & Hrest). destruct (draining_oversized cr) eqn:Ed.
      * destruct Hst as [Hlen Hb]. split; [done|]. exists (line ++ rbuf r'). rewrite Hrest, Ed. cbn [fst snd].
        split_and!; [set_solver|by rewrite app_assoc|rewrite length_app; lia|done].
      * destruct Hst as [Hb Hlen]. rewrite Hb. destruct (Nat.ltb_spec MAX_COMMAND_LINE_OCTETS (length line + length (rbuf r'))).
        -- split; [done|]. exists (line ++ rbuf r'). rewrite Hrest. cbn.
           split_and!; [set_solver|by rewrite app_assoc|rewrite length_app; lia|done].
        -- rewrite take_ge by done. split; [done|]. exists (line ++ rbuf r'). rewrite Hrest. cbn.
           split_and!; [set_solver|by rewrite app_assoc|done|rewrite length_app; lia].
Qed.
End ReadingFacts.

(** ** Programs of the loop *)

(** [m] run from [s] ends in [Q], or fails in [E]. *)
Definition lspec {A} (m : L A) (s : Session) (Q : A → Session → Prop) (E : Session → Prop) : Prop :=
  match m s with (Ok a, s') => Q a s' | (Err _, s') => E s' end.

Lemma lspec_bind {A B} (m : L A) (f : A → L B) s Q E :
  lspec m s (λ a s', lspec (f a) s' Q E) E → lspec (m ≫= f) s Q E.
Proof. unfold lspec, mbind, L_bind. by destruct (m s) as [[a|e] s']. Qed.

Lemma lspec_mono {A} (m : L A) s (Q Q' : A → Session → Prop) (E E' : Session → Prop) :
  lspec m s Q E → (∀ a s', Q a s' → Q' a s') → (∀ s', E s' → E' s') → lspec m s Q' E'.
Proof. unfold lspec. destruct (m s) as [[a|e] s']; auto. Qed.

Lemma lspec_look {A B} (f : Session → A) (g : A → L B) s Q E : lspec (g (f s)) s Q E → lspec (look f ≫= g) s Q E.
Proof. done. Qed.

Lemma lspec_modify {B} (f : Session → Session) (g : unit → L B) s Q E : lspec (g ()) (f s) Q E → lspec (modify f ≫= g) s Q E.
Proof. done. Qed.

Lemma lspec_ret {A} (a : A) s (Q : A → Session → Prop) E : Q a s → lspec (mret a) s Q E.
Proof. done. Qed.

(** What the loop decides with, apart from the bytes given to the client and the
    counters. *)
Definition view (s : Session) :=
  (s_reader s, s_command s, s_identity s, s_pending_writes s, s_written s, s_received s, s_phase s,
   sl_auth (s_state s), sl_access (s_state s), backend_replies (s_state s)).

(** The client got [p] and nothing else changed. *)
Definition gave (p : bytes) (s s' : Session) : Prop := sent (s_client s') = sent (s_client s) ++ p ∧ view s' = view s.

(** The client may have got a part of [p]. *)
Definition gave_part (p : bytes) (s s' : Session) : Prop := ∃ p', p' `prefix_of` p ∧ gave p' s s'.

Lemma gave_refl s : gave [] s s.
Proof. split; [by rewrite app_nil_r|done]. Qed.

Lemma write_to_client_spec b s : lspec (write_to_client b) s (λ _, gave b s) (gave_part b s).
Proof.
  unfold write_to_client. apply lspec_look. pose proof (write_all_spec b (s_client s)) as H.
  destruct (write_all b (s_client s)) as [[[]|k] wr]; apply lspec_modify; [done|].
  destruct H as (n & H & _). exists (take n b). split; [apply prefix_take|done].
Qed.

Lemma flush_to_client_spec s : lspec flush_to_client s (λ _, gave [] s) (gave [] s).
Proof.
  unfold flush_to_client, flush. apply lspec_look.
  destruct (outcomes (s_client s)) as [|[|n k] l]; (apply lspec_modify; split; [cbn; by rewrite app_nil_r|done]).
Qed.

Lemma gave_trans p p' s s1 s' : gave p s s1 → gave p' s1 s' → gave (p ++ p') s s'.
Proof. intros [H1 V1] [H2 V2]. split; [by rewrite H2, H1, app_assoc|by rewrite V2]. Qed.

Lemma gave_nil s s' : gave [] s s' → sent (s_client s') = sent (s_client s) ∧ view s' = view s.
Proof. intros [H V]. by rewrite app_nil_r in H. Qed.

Lemma write_counted_spec ws s : lspec (write_counted ws) s (λ _, gave (concat ws) s) (gave_part (concat ws) s).
Proof.
  revert s. induction ws as [|b ws IH]; intros s; cbn [write_counted concat]; [apply lspec_ret, gave_refl|].
  apply lspec_bind. eapply lspec_mono; [apply write_to_client_spec| |].
  - intros [] s1 H1. apply lspec_modify. eapply lspec_mono; [apply IH| |].
    + intros [] s2 H2. eapply gave_trans; [done|]. destruct H2; by split.
    + intros s2 (p & Hp & H2). exists (b ++ p). split; [by apply prefix_app|]. eapply gave_trans; [done|]. destruct H2; by split.
  - intros s1 (p & Hp & H1). exists p. split; [by apply prefix_app_r|done].
Qed.

(** Replies and a flush. *)
Lemma written_and_flushed_spec (m : L unit) p s :
  lspec m s (λ _, gave p s) (gave_part p s) → lspec (m;; flush_to_client) s (λ _, gave p s) (gave_part p s).
Proof.
  intros Hm. apply lspec_bind. eapply lspec_mono; [done| |done]. intros [] s1 H1.
  eapply lspec_mono; [apply flush_to_client_spec| |].
  - intros [] s2 H2. rewrite <-(app_nil_r p). by eapply gave_trans.
  - intros s2 H2. exists p. split; [done|]. rewrite <-(app_nil_r p). by eapply gave_trans.
Qed.

(** ** The session *)

Section LoopFacts.
Context {MC : Memchr} {MS : MemchrSpec MC} (t : target) (peer : Peer) (h : AuthHandler).

(** The [i]-th request written to the backend is answered by one complete reply. *)
Variable reply : nat → RequestContext → bytes.
Hypothesis reply_framed : ∀ i q, framed_reply (kind q) (reply i q).

(** The backend sends its replies in order, and none before the request. *)
Hypothesis peer_answers : ∀ n written received b,
  received `prefix_of` concat (imap reply written) → backend_reads peer n written received = Ok b →
  received ++ b `prefix_of` concat (imap reply written).

(** The client's stream, the requests sent before the loop, the bytes the client had
    before, and its standing. *)
Variable stream : bytes * bool.
Variable handed : list RequestContext.
Variable base : bytes.
Variable start : Standing.

Definition owed (q : list Expected) : list Expected := ((λ r, EBackend (kind r)) <$> handed) ++ q.

Definition standing (s : Session) : Standing := (sl_auth (s_state s), s_identity s, sl_access (s_state s)).

(** The client was given what it is owed. *)
Definition synced (q : list Expected) (s : Session) : Prop :=
  ∃ a p, order_for a (backend_replies (s_state s)) ∧ sent (s_client s) = base ++ p ∧ delivering (owed q) (s_received s) a p.

(** No local reply is ready. *)
Definition settled (s : Session) : Prop := (take_ready_deferred_replies (backend_replies (s_state s))).1 = [].

Definition may_forward (s : Session) : Prop := can_access_backend (authentication_access (s_identity s) (sl_access (s_state s))) = true.

(** The session has answered [lines] and goes on with the stream [st]. *)
Record core (lines : list CommandLine) (st : bytes * bool) (q : list Expected) (s : Session) : Prop := {
  co_lines : reads_lines stream lines st;
  co_expects : session_expects h start lines = Some (q, standing s);
  co_written : kinds (owed q) = kind <$> s_written s;
  co_received : s_received s `prefix_of` concat (imap reply (s_written s));
  co_access : s_written s = [] ∨ may_forward s;
  co_synced : synced q s }.

(** Requests wait for a flush only while the next line is there. *)
Definition flushed (s : Session) : Prop :=
  match s_phase s with
  | AtHead => True
  | Draining => s_pending_writes s = 0
  | Selecting => s_pending_writes s = 0 ∨ x0a ∈ rbuf (s_reader s)
  end.

Record progress (s : Session) : Prop := {
  pr_core : ∃ lines st q, core lines st q s ∧ reader_at (s_command s) (s_reader s) st;
  pr_settled : s_phase s ≠ AtHead → settled s;
  pr_flushed : flushed s }.

(** A session cut off: the client got a part of what it is owed. *)
Definition cut (s : Session) : Prop :=
  ∃ lines st q a p, reads_lines stream lines st ∧ session_expects h start lines = Some (q, a) ∧
    sent (s_client s) = base ++ p ∧ p `prefix_of` seen_of (owed q) (s_received s).

Lemma replies_framed written : Forall2 framed_reply (kind <$> written) (imap reply written).
Proof.
  generalize (λ i, reply_framed i) as H. clear. generalize reply as f. intros f H.
  revert f H. induction written as [|q written IH]; intros f H; cbn; [constructor|].
  constructor; [apply H|]. apply (IH (f ∘ S)). intros i. apply (H (S i)).
Qed.

Lemma view_standing s s' : view s' = view s → standing s' = standing s ∧ s_written s' = s_written s ∧
  s_received s' = s_received s ∧ s_identity s' = s_identity s ∧ backend_replies (s_state s') = backend_replies (s_state s).
Proof. unfold view, standing. intros Hv. injection Hv as Hr Hc Hi Hp Hw Hrc Hph Ha Hac Ho. split_and!; congruence. Qed.

Lemma view_place s s' : view s' = view s → s_reader s' = s_reader s ∧ s_command s' = s_command s ∧ s_phase s' = s_phase s ∧
  s_pending_writes s' = s_pending_writes s.
Proof. unfold view. intros Hv. injection Hv as Hr Hc Hi Hp Hw Hrc Hph Ha Hac Ho. done. Qed.

(** [core] is about the standing, the two sides of the backend and the client's bytes. *)
Lemma core_same lines st q s s' :
  core lines st q s → standing s' = standing s → s_written s' = s_written s → s_received s' = s_received s →
  backend_replies (s_state s') = backend_replies (s_state s) → sent (s_client s') = sent (s_client s) → core lines st q s'.
Proof.
  intros [] Hst Hw Hr Ho Hs. unfold standing in Hst. injection Hst as Ha Hi Hac.
  constructor; unfold standing, synced, may_forward in *; by rewrite ?Ha, ?Hi, ?Hac, ?Hw, ?Hr, ?Ho, ?Hs.
Qed.

Lemma core_view lines st q s s' :
  core lines st q s → view s' = view s → sent (s_client s') = sent (s_client s) → core lines st q s'.
Proof. intros Hc (? & ? & ? & ? & ?)%view_standing Hs. by eapply core_same. Qed.

Lemma core_cut lines st q s : core lines st q s → cut s.
Proof.
  intros [Hl He _ _ _ (a & p & _ & Hs & _ & Hp & _)]. exists lines, st, q, (standing s), p. split_and!; [done..|].
  rewrite <-Hp. by apply prefix_app_r.
Qed.

Lemma reads_lines_snoc st lines st1 line st2 :
  reads_lines st lines st1 → next_line st1 = Some (line, st2) → reads_lines st (lines ++ [line]) st2.
Proof. intros H1 H2. eapply reads_lines_app; [done|]. econstructor; [done|constructor]. Qed.

(** ** Steps *)

Lemma take_ready_idem l : take_ready (take_ready l).2 = ([], (take_ready l).2).
Proof. induction l as [|[|r] l IH]; [done|done|]. cbn. by destruct (take_ready l). Qed.

Lemma settled_queue a s : order_for a (backend_replies (s_state s)) → settled s → split_ready (abs_queue a) = ([], abs_queue a).
Proof.
  intros (Ho & _) Hs. unfold settled, take_ready_deferred_replies in Hs. rewrite Ho in Hs.
  destruct (abs_queue a) as [|[k|r] q]; [done|done|]. cbn in Hs. by destruct (take_ready _).
Qed.

(** The client is given [w], the next bytes it is owed. *)
Lemma core_deliver lines st q s s1 a p w :
  core lines st q s → standing s1 = standing s → s_written s1 = s_written s → s_received s1 `prefix_of` concat (imap reply (s_written s)) →
  sent (s_client s1) = base ++ p → order_for a (backend_replies (s_state s1)) → delivering (owed q) (s_received s1) a (p ++ w) →
  (∀ s', gave w s1 s' → core lines st q s') ∧ (∀ s', gave_part w s1 s' → cut s').
Proof.
  intros Hc Hst1 Hw1 Hr1 Hs1 Ho Hd. split.
  - intros s' [Hg Hv]. apply view_standing in Hv as (Hst & Hw & Hr & _ & Hb).
    rewrite Hst1 in Hst. rewrite Hw1 in Hw. unfold standing in Hst. injection Hst as Ea Ei Eac.
    destruct Hc. constructor; unfold standing, may_forward in *; rewrite ?Ea, ?Ei, ?Eac, ?Hw, ?Hr; try done.
    exists a, (p ++ w). rewrite Hb, Hr. split_and!; [done| |done]. by rewrite Hg, Hs1, app_assoc.
  - intros s' (p' & Hp' & Hg & Hv). apply view_standing in Hv as (_ & _ & Hr & _). destruct Hc.
    eexists lines, st, q, _, (p ++ p'). split_and!; [done|done|by rewrite Hg, Hs1, app_assoc|].
    destruct Hd as (_ & Hp & _). rewrite Hr, <-Hp. apply prefix_app_r. by apply prefix_app.
Qed.

(** The ready replies are given to the client. *)
Lemma core_take lines st q s replies o :
  core lines st q s → take_ready_deferred_replies (backend_replies (s_state s)) = (replies, o) →
  (∀ s', gave (concat replies) (on_state (sl_set_replies o) s) s' → core lines st q s' ∧ settled s') ∧
  (∀ s', gave_part (concat replies) (on_state (sl_set_replies o) s) s' → cut s').
Proof.
  intros Hc Ht. destruct (co_synced _ _ _ _ Hc) as (a & p & Ho & Hs & Hd).
  destruct (take_ready_step t a _ Ho) as [H1 H2]. cbn [order_step] in H1, H2. rewrite Ht in H1, H2. cbn [fst snd] in H1, H2.
  pose proof (delivering_take _ _ _ _ Hd) as Hd'. rewrite <-H1 in Hd'.
  destruct (core_deliver lines st q s (on_state (sl_set_replies o) s) _ _ _ Hc eq_refl eq_refl (co_received _ _ _ _ Hc) Hs H2 Hd') as [Hok Hcut].
  split; [|done]. intros s' Hg. split; [by apply Hok|]. destruct Hg as [_ (_ & _ & _ & _ & Hb)%view_standing].
  unfold settled. rewrite Hb. unfold take_ready_deferred_replies in *. destruct (take_ready (ordered _)) as [rs rest] eqn:E.
  injection Ht as <- <-. cbn. pose proof (take_ready_idem (ordered (backend_replies (s_state s)))) as H. rewrite E in H. cbn in H. by rewrite H.
Qed.

(** A line was answered by the entry [x]. *)
Lemma core_line lines st q s line st' x s' :
  core lines st q s → next_line st = Some (line, st') → line_expects h (standing s) line = Some (x, standing s') →
  s_written s' = s_written s ++ match x with EBackend _ => drop (length (s_written s)) (s_written s') | ELocal _ => [] end →
  kinds [x] = kind <$> drop (length (s_written s)) (s_written s') →
  s_received s' = s_received s → (s_written s' = [] ∨ may_forward s') → synced (q ++ [x]) s' →
  core (lines ++ [line]) st' (q ++ [x]) s'.
Proof.
  intros [] Hn Hx Hw Hk Hr Hacc Hs. assert (s_written s' = s_written s ++ drop (length (s_written s)) (s_written s')) as Hw'
    by (destruct x; [done|]; rewrite app_nil_r in Hw; rewrite Hw at 2; rewrite drop_all; by rewrite app_nil_r).
  constructor; [by eapply reads_lines_snoc|by eapply session_expects_snoc| | |done|done].
  - unfold owed in *. by rewrite app_assoc, kinds_app, co_written0, Hk, <-fmap_app, <-Hw'.
  - rewrite Hr, Hw', imap_app, concat_app. by apply prefix_app_r.
Qed.

Lemma synced_snoc q s x s' :
  synced q s → s_received s' = s_received s → sent (s_client s') = sent (s_client s) →
  backend_replies (s_state s') = enqueue (backend_replies (s_state s)) x → synced (q ++ [x]) s'.
Proof.
  intros (a & p & Ho & Hs & Hd) Hr Hsent Hb. unfold synced. rewrite Hr, Hsent, Hb.
  set (op := match x with EBackend k => Push k | ELocal r => Defer r end).
  exists (abs_step a op).2, p. split_and!; [|done|].
  - destruct (push_step t a _ op Ho) as [_ H]; [by destruct x|]. by destruct x.
  - unfold owed in *. rewrite app_assoc. by apply delivering_snoc.
Qed.

(** A local reply while nothing is pending goes straight to the client. *)
Lemma synced_reply q s r :
  synced q s → settled s → has_pending_backend_replies (backend_replies (s_state s)) = false →
  ∃ a p, order_for a (backend_replies (s_state s)) ∧ sent (s_client s) = base ++ p ∧
    delivering (owed (q ++ [ELocal r])) (s_received s) a (p ++ r).
Proof.
  intros (a & p & Ho & Hs & Hd) Hset Hn. exists a, p. split; [done|]. split; [done|].
  pose proof (settled_queue a s Ho Hset) as Hq. assert (abs_queue a = []) as Hnil.
  { destruct Ho as (Ho & _). unfold has_pending_backend_replies in Hn. rewrite Ho in Hn.
    destruct (abs_queue a) as [|[k|r'] l]; [done|done|].
    destruct (split_ready_kinds (ELocal r' :: l)) as [_ []]. rewrite Hq. by eexists _, _. }
  unfold owed. rewrite app_assoc. fold (owed q). destruct Hd as (Hd & Hp & Hz). rewrite Hq, Hnil in *. cbn in Hz. specialize (Hz eq_refl).
  unfold delivering, seen_of in *. rewrite deliver_snoc, Hnil. destruct (deliver (owed q) (s_received s)) as [pre [q1 rest]].
  cbn in Hd. injection Hd as -> ->. rewrite Hz in *. cbn in *. rewrite !app_nil_r in *. split_and!; [done|by rewrite Hp|done].
Qed.

Lemma write_reply_spec lines st q r a s :
  reads_lines stream lines st → session_expects h start lines = Some (q ++ [ELocal r], a) → synced q s → settled s →
  has_pending_backend_replies (backend_replies (s_state s)) = false →
  ∀ m, lspec m s (λ _ : unit, gave r s) (gave_part r s) → lspec m s (λ _ s', gave r s s' ∧ synced (q ++ [ELocal r]) s') cut.
Proof.
  intros Hl He Hs Hset Hn m Hm. destruct (synced_reply q s r Hs Hset Hn) as (a' & p & Ho & Hsent & Hd).
  eapply lspec_mono; [done| |].
  - intros [] s' [Hg Hv]. split; [done|]. apply view_standing in Hv as (_ & _ & Hr & _ & Hb).
    exists a', (p ++ r). rewrite Hr, Hb. split_and!; [done|by rewrite Hg, Hsent, app_assoc|done].
  - intros s' (p' & Hp' & Hg & Hv). apply view_standing in Hv as (_ & _ & Hr & _).
    eexists _, _, _, _, (p ++ p'). split_and!; [done|done|by rewrite Hg, Hsent, app_assoc|].
    destruct Hd as (_ & Hp & _). rewrite Hr, <-Hp. apply prefix_app_r. by apply prefix_app.
Qed.

(** What the backend sent goes to the client with the local replies it releases. *)
Lemma core_read lines st q s b writes o :
  core lines st q s → s_received s ++ b `prefix_of` concat (imap reply (s_written s)) →
  client_writes_for_backend_read t (backend_replies (s_state s)) b = (writes, o) →
  (∀ s', gave (concat writes) (on_state (sl_set_replies o) (on_received b s)) s' → core lines st q s') ∧
  (∀ s', gave_part (concat writes) (on_state (sl_set_replies o) (on_received b s)) s' → cut s').
Proof.
  intros Hc Hb Hw. destruct (co_synced _ _ _ _ Hc) as (a & p & Ho & Hs & Hd).
  assert (clean_stream (kinds (owed q)) (s_received s ++ b)) as Hclean.
  { destruct Hb as [x Hx]. eapply clean_stream_app_l. rewrite <-Hx, (co_written _ _ _ _ Hc). apply framed_clean, replies_framed. }
  assert (clean_stream (kinds (abs_queue a)) (abs_seen a ++ b)) as Hclean'.
  { destruct (split_replies (kinds (owed q)) (s_received s)) as [rs [ks rest]] eqn:E.
    destruct (weave_deliver _ _ _ _ _ E) as (Hdel & Hks & _). destruct Hd as (Hd & _). rewrite Hdel in Hd. cbn in Hd.
    injection Hd as Hq ->. rewrite Hq in Hks. destruct (split_ready_kinds (abs_queue a)) as [Hk _]. rewrite <-Hk, Hks. by eapply clean_stream_rest. }
  destruct (read_step t a _ b Ho Hclean') as (_ & Ho' & Hout). cbn [order_step] in Ho', Hout. rewrite Hw in Ho', Hout. cbn [fst snd] in Ho', Hout.
  assert (delivering (owed q) (s_received s ++ b) (abs_step a (Read b)).2 (p ++ concat writes)) as Hd'.
  { apply delivering_read; [done|by destruct Ho as (_ & _ & ?)|unfold seen_of; by destruct (deliver (abs_queue a) _) as [? [? ?]]|].
    eapply deliver_within; [|done]. rewrite (co_written _ _ _ _ Hc). apply replies_framed. }
  by apply (core_deliver lines st q s _ (abs_step a (Read b)).2 p).
Qed.
Lemma backend_io_spec s : lspec (backend_io peer) s (λ _ s', s' = on_time s) (λ s', s' = on_time s).
Proof. unfold backend_io, query. apply lspec_bind. cbn. by destruct (backend_accepts peer (s_time s)). Qed.

Lemma flush_to_backend_spec s :
  lspec (flush_to_backend peer) s (λ _ s', s' = on_pending_writes 0 (on_time s)) (λ s', s' = on_time s).
Proof.
  unfold flush_to_backend. apply lspec_bind. eapply lspec_mono; [apply backend_io_spec| |done]. by intros [] s' ->.
Qed.

(** The loop waits with everything flushed. *)
Lemma progress_wait lines st q s phase :
  core lines st q s → reader_at (s_command s) (s_reader s) st → settled s → flushed (on_phase phase s) → progress (on_phase phase s).
Proof. intros Hc Hr Hs Hf. constructor; [|done|done]. exists lines, st, q. split; [|done]. by eapply core_same. Qed.

Lemma prepare_to_wait_spec lines st q s :
  core lines st q s → reader_at (s_command s) (s_reader s) st → settled s → lspec (prepare_to_wait peer) s (λ _, progress) cut.
Proof.
  intros Hc Hr Hs. do 3 apply lspec_look.
  assert (∀ phase, lspec (flush_to_backend peer;; modify (on_phase phase)) s (λ _, progress) cut) as Hflush.
  { intros phase. apply lspec_bind. eapply lspec_mono; [apply flush_to_backend_spec| |].
    - intros [] s' ->. apply (progress_wait lines st q (on_pending_writes 0 (on_time s))); [by eapply core_same|done|done|].
      unfold flushed. cbn. destruct phase; auto.
    - intros s' ->. apply (core_cut lines st q). by eapply core_same. }
  assert (∀ phase, flushed (on_phase phase s) → lspec (mret ();; modify (on_phase phase)) s (λ _, progress) cut) as Hstay
    by (intros phase Hf; by apply (progress_wait lines st q s)).
  destruct (read_mode (s_state s)).
  - destruct (s_pending_writes s =? 0) eqn:E; cbn [negb andb].
    + apply Hstay. left. by apply Nat.eqb_eq.
    + destruct (bool_decide (x0a ∈ rbuf (s_reader s))) eqn:Eb; cbn [negb]; [|apply Hflush]. apply Hstay. right.
      by apply bool_decide_eq_true in Eb.
  - destruct (s_pending_writes s =? 0) eqn:E; [|apply Hflush]. apply Hstay. by apply Nat.eqb_eq.
Qed.

Lemma write_ready_replies_spec lines st q s :
  core lines st q s → reader_at (s_command s) (s_reader s) st → s_phase s = AtHead →
  lspec (write_ready_replies peer) s (λ _, progress) cut.
Proof.
  intros Hc Hr Hph. apply lspec_look. destruct (take_ready_deferred_replies (backend_replies (s_state s))) as [replies o] eqn:Et.
  destruct (core_take _ _ _ _ _ _ Hc Et) as [Hok Hcut]. apply lspec_modify. destruct replies as [|b replies].
  - destruct (Hok _ (gave_refl _)) as [Hc2 Hs2]. by eapply prepare_to_wait_spec.
  - eapply lspec_mono; [apply written_and_flushed_spec, write_counted_spec| |done]. intros [] s2 Hg.
    destruct (Hok _ Hg) as [Hc2 Hs2]. destruct Hg as [_ (Er & Ec & Eph & _)%view_place]. cbn in Er, Ec, Eph.
    constructor; [|done|unfold flushed; by rewrite Eph, Hph]. exists lines, st, q. split; [done|]. by rewrite Er, Ec.
Qed.

Lemma loop_head_spec s : progress s → s_phase s = AtHead → lspec (loop_head peer) s (λ _, progress) cut.
Proof.
  intros [(lines & st & q & Hc & Hr) _ _] Hph. apply lspec_look.
  destruct (check_and_maybe_flush_metrics (s_state s)) as [fl st1] eqn:E1. apply lspec_modify.
  assert (view (on_state (λ _, st1) s) = view s) as Hv by (unfold check_and_maybe_flush_metrics in E1; by injection E1 as _ <-).
  apply lspec_bind. destruct fl; cbn [flush_byte_deltas]; eapply (write_ready_replies_spec lines st q); try done.
  - by eapply core_view; [done|exact Hv|].
  - by eapply core_view.
Qed.
Lemma cut_same s s' : cut s → sent (s_client s') = sent (s_client s) → s_received s' = s_received s → cut s'.
Proof. intros (lines & st & q & a & p & H) Hs Hr. exists lines, st, q, a, p. by rewrite Hs, Hr. Qed.

(** The session has ended. *)
Definition ended (e : StatefulSessionExit) (s : Session) : Prop :=
  ∃ lines st q, core lines st q s ∧ settled s ∧
    match e with ClientDisconnected => st = ([], false) | ClientReadError => next_line st = None | _ => True end.

Definition round_done (o : option StatefulSessionExit) (s : Session) : Prop :=
  match o with None => progress s | Some e => ended e s end.

Lemma progress_head lines st q s : core lines st q s → reader_at (s_command s) (s_reader s) st → progress (on_phase AtHead s).
Proof. intros Hc Hr. constructor; [|done|done]. exists lines, st, q. split; [|done]. by eapply core_same. Qed.

Lemma on_backend_spec s : progress s → s_phase s ≠ AtHead → lspec (on_backend t peer) s round_done cut.
Proof.
  intros [(lines & st & q & Hc & Hr) Hset _] Hph. specialize (Hset Hph).
  assert (core lines st q (on_time s)) as Hc1 by by eapply core_same.
  unfold on_backend, read_stateful_backend_bytes. apply lspec_bind. do 2 apply lspec_look. apply lspec_bind. unfold lspec at 1. cbn [query].
  destruct (backend_reads peer (s_time s) (s_written s) (s_received s)) as [b|k] eqn:E.
  - destruct b as [|x b]; [apply lspec_ret, lspec_ret; by exists lines, st, q|]. apply lspec_modify, lspec_ret, lspec_bind, lspec_look.
    destruct (client_writes_for_backend_read t _ (x :: b)) as [writes o] eqn:Ew. apply lspec_modify.
    destruct (core_read lines st q (on_time s) (x :: b) writes o Hc1) as [Hok Hcut]; [eapply peer_answers; [apply Hc|done]|done|].
    eapply lspec_mono; [apply written_and_flushed_spec, write_counted_spec| |done]. intros [] s2 Hg. apply lspec_modify, lspec_ret.
    pose proof (Hok _ Hg) as Hc2. destruct Hg as [_ (Er & Ec & _)%view_place]. cbn in Er, Ec.
    apply (progress_head lines st q); [done|by rewrite Er, Ec].
  - apply lspec_ret, lspec_ret. by exists lines, st, q.
Qed.
(** The line after [lines] is answered. *)
Definition answered (lines : list CommandLine) (st : bytes * bool) (s s' : Session) : Prop :=
  (∃ q, core lines st q s') ∧ s_reader s' = s_reader s ∧ s_command s' = s_command s.

Lemma access_idem i a : authentication_access i (authentication_access i a) = authentication_access i a.
Proof. unfold authentication_access. destruct (is_authenticated i); [by destruct a|done]. Qed.

(** A local reply to a request of a client with access. *)
Lemma local_answer lines st q s line st' r s1 s' :
  core lines st q s → next_line st = Some (line, st') → line_expects h (standing s) line = Some (ELocal r, standing s1) →
  standing s' = standing s1 → s_written s' = s_written s → s_received s' = s_received s → (s_written s = [] ∨ may_forward s1) →
  synced (q ++ [ELocal r]) s' → core (lines ++ [line]) st' (q ++ [ELocal r]) s'.
Proof.
  intros Hc Hn Hx Hst Hw Hr Hacc Hs. eapply (core_line lines st q s); try done.
  - by rewrite Hst.
  - by rewrite app_nil_r.
  - cbn. by rewrite Hw, drop_all.
  - rewrite Hw. unfold may_forward in *. unfold standing in Hst. injection Hst as _ Hi Ha. by rewrite Hi, Ha.
Qed.

Lemma reply_or_defer_spec lines st q s st' line r s1 :
  core lines st q s → settled s → next_line st = Some (line, st') → line_expects h (standing s) line = Some (ELocal r, standing s1) →
  s_written s1 = s_written s → s_received s1 = s_received s → backend_replies (s_state s1) = backend_replies (s_state s) →
  sent (s_client s1) = sent (s_client s) → may_forward s1 → lspec (reply_or_defer r) s1 (λ _, answered (lines ++ [line]) st' s1) cut.
Proof.
  intros Hc Hset Hn Hx Hw Hr Hb Hs Hacc. unfold reply_or_defer. apply lspec_look.
  assert (synced q s1) as Hsy by (destruct (co_synced _ _ _ _ Hc) as (a & p & H); exists a, p; by rewrite Hr, Hb, Hs).
  destruct (has_pending_backend_replies (backend_replies (s_state s1))) eqn:Ep.
  - split; [|done]. exists (q ++ [ELocal r]). eapply (local_answer lines st q s _ _ _ s1); try done; [by right|].
    by apply (synced_snoc q s1).
  - apply lspec_bind. eapply lspec_mono; [apply (write_reply_spec (lines ++ [line]) st' q r (standing s1)); [..|apply write_to_client_spec]| |done].
    + eapply reads_lines_snoc; [apply Hc|done].
    + eapply session_expects_snoc; [apply Hc|done].
    + done.
    + unfold settled in *. by rewrite Hb.
    + done.
    + intros [] s2 [[Hg Hv] Hsy2]. apply lspec_bind. assert (cut s2) as Hcut.
      { destruct Hsy2 as (a & p & _ & Hsent & _ & Hp & _). eexists _, st', _, _, p. split_and!; [by eapply reads_lines_snoc; [apply Hc|]|by eapply session_expects_snoc; [apply Hc|]|done|].
        rewrite <-Hp. by apply prefix_app_r. }
      eapply lspec_mono; [apply flush_to_client_spec| |].
      * intros [] s3 [Hg3 Hv3]%gave_nil. rewrite Hv in Hv3. apply view_place in Hv3 as Hp3. destruct Hp3 as (Er & Ec & _).
        apply view_standing in Hv3 as (Hst3 & Hw3 & Hr3 & _ & Hb3). split; [|done]. exists (q ++ [ELocal r]).
        eapply (local_answer lines st q s _ _ _ s1); [done..|by rewrite <-Hw|by rewrite <-Hr|by right|].
        destruct Hsy2 as (a & p & Ho & Hsent & Hd). apply view_standing in Hv as (_ & _ & Hr2 & _ & Hb2).
        exists a, p. cbn. rewrite Hr3, Hb3, Hg3. by rewrite Hr2, Hb2 in *.
      * intros s3 [Hg3 Hv3]%gave_nil. eapply cut_same; [done|done|]. by apply view_standing in Hv3 as (_ & _ & ? & _).
Qed.
Lemma handle_authenticated_spec lines st q s st' r :
  let s1 := on_state (λ st, sl_set_access (authentication_access (s_identity s) (sl_access st)) st) s in
  core lines st q s → settled s → next_line st = Some (Parsed r, st') → may_forward s →
  lspec (handle_authenticated_stateful_request peer r) s1 (λ _, answered (lines ++ [Parsed r]) st' s1) cut.
Proof.
  intros s1 Hc Hset Hn Hacc. unfold handle_authenticated_stateful_request. apply lspec_look.
  assert (may_forward s1) as Hacc1 by (unfold may_forward, s1; cbn; by rewrite access_idem).
  assert (line_expects h (standing s) (Parsed r) =
    Some (action_expects r (classify_authenticated_stateful_action r (sl_access (s_state s1))), standing s1)) as Hx.
  { unfold line_expects, standing, s1. cbn. unfold may_forward in Hacc. by rewrite Hacc. }
  assert (∀ reply, line_expects h (standing s) (Parsed r) = Some (ELocal reply, standing s1) →
    lspec (reply_or_defer reply) s1 (λ _, answered (lines ++ [Parsed r]) st' s1) cut) as Hlocal.
  { intros reply' Hx'. by apply (reply_or_defer_spec lines st q s). }
  destruct (classify_authenticated_stateful_action r (sl_access (s_state s1))); cbn in Hx; [|by apply Hlocal..].
  apply lspec_bind. eapply lspec_mono; [apply backend_io_spec| |].
  - intros [] s2 ->. do 2 apply lspec_modify. split; [|done]. exists (q ++ [EBackend (kind r)]).
    apply (core_line lines st q s); [done|done|done|cbn; by rewrite drop_app_length..|done|by right|].
    by apply (synced_snoc q s (EBackend (kind r))); [apply Hc|..].
  - intros s2 ->. by apply (cut_same s); [eapply core_cut|..].
Qed.

(** The state after a line of a client without access, [a]. *)
Lemma auth_answer lines st q s st' r rp a s1 s' :
  core lines st q s → next_line st = Some (Parsed r, st') → line_expects h (standing s) (Parsed r) = Some (ELocal rp, a) →
  s_written s = [] → synced (q ++ [ELocal rp]) s1 → view s1 = view (on_state (λ st, sl_set_access (authentication_access (s_identity s) (sl_access st)) st) s) →
  standing s' = a → s_written s' = s_written s1 → s_received s' = s_received s1 → backend_replies (s_state s') = backend_replies (s_state s1) →
  sent (s_client s') = sent (s_client s1) → s_reader s' = s_reader s1 → s_command s' = s_command s1 → answered (lines ++ [Parsed r]) st' s s'.
Proof.
  intros Hc Hn Hx Hw Hsy Hv Hst Hw' Hr' Hb' Hs' Hrd Hcm. apply view_place in Hv as Hp. destruct Hp as (Er & Ec & _).
  apply view_standing in Hv as (_ & Ew & Erc & _). cbn in *. split; [|by rewrite Hrd, Hcm]. exists (q ++ [ELocal rp]).
  eapply (local_answer lines st q s _ _ _ s'); [done|done|by rewrite Hst|done|by rewrite Hw'|by rewrite Hr'|by left|].
  destruct Hsy as (a' & p & Hsy). exists a', p. by rewrite Hr', Hb', Hs'.
Qed.

Lemma auth_check_spec lines st q s st' r :
  let s1 := on_state (λ st, sl_set_access (authentication_access (s_identity s) (sl_access st)) st) s in
  core lines st q s → settled s → next_line st = Some (Parsed r, st') → ¬ may_forward s →
  lspec (auth_result ← handle_stateful_auth_check h r; modify (on_state (apply_auth_result auth_result))) s1
    (λ _, answered (lines ++ [Parsed r]) st' s) cut.
Proof.
  intros s1 Hc Hset Hn Hacc. assert (s_written s = []) as Hw by (by destruct (co_access _ _ _ _ Hc)).
  assert (can_access_backend (authentication_access (s_identity s) (sl_access (s_state s))) = false) as Hno
    by (unfold may_forward in Hacc; by destruct (can_access_backend _)).
  assert (has_pending_backend_replies (backend_replies (s_state s1)) = false) as Hpend.
  { destruct (co_synced _ _ _ _ Hc) as (a & p & Ho & _ & Hd & _). pose proof (settled_queue a s Ho Hset) as Hq.
    assert (kinds (owed q) = []) as Hk by (rewrite (co_written _ _ _ _ Hc); by rewrite Hw).
    destruct Ho as (Ho & _). unfold s1. cbn. unfold has_pending_backend_replies. rewrite Ho.
    destruct (split_replies (kinds (owed q)) (s_received s)) as [rs [ks rest]] eqn:Esp. destruct (weave_deliver _ _ _ _ _ Esp) as (Hdl & Hks & _).
    rewrite Hk in Esp. injection Esp as <- <- <-. rewrite Hdl, Hq in Hd. cbn in Hd. injection Hd as Hd _. rewrite Hd in Hks.
    destruct (abs_queue a) as [|[k|x] l]; [done|done|]. destruct (split_ready_kinds (ELocal x :: l)) as [_ []]. rewrite Hq. by eexists _, _. }
  assert (∀ rp a, line_expects h (standing s) (Parsed r) = Some (ELocal rp, a) →
    lspec (write_to_client rp) s1 (λ _ s', gave rp s1 s' ∧ synced (q ++ [ELocal rp]) s') cut) as Hwrite.
  { intros rp a Hx. apply (write_reply_spec (lines ++ [Parsed r]) st' q rp a); [by eapply reads_lines_snoc; [apply Hc|]|
      by eapply session_expects_snoc; [apply Hc|]| |done|done|apply write_to_client_spec].
    apply Hc. }
  assert (∀ rp, line_expects h (standing s) (Parsed r) = Some (ELocal rp, standing s1) →
    lspec (x ← (write_to_client rp;; mret (AhRejected (length rp))); modify (on_state (apply_auth_result x))) s1
      (λ _, answered (lines ++ [Parsed r]) st' s) cut) as Hrefuse.
  { intros rp Hx. apply lspec_bind, lspec_bind. eapply lspec_mono; [by eapply Hwrite| |done]. intros [] s2 [[_ Hv] Hsy].
    apply lspec_ret. apply (auth_answer lines st q s st' r rp (standing s1) s2); try done. by apply view_standing in Hv as (<- & _). }
  assert (line_expects h (standing s) (Parsed r) = line_expects h (standing s) (Parsed r)) as Hx by done.
  unfold line_expects at 2 in Hx. unfold standing at 2 in Hx. rewrite Hno in Hx. unfold handle_stateful_auth_check.
  destruct (classify_request r Required RmStateful) as [action| | | | |]; try by apply Hrefuse.
  apply lspec_bind, lspec_look, lspec_look. cbn [s_state on_state sl_auth sl_set_access s_identity].
  change (sl_auth (s_state s1)) with (sl_auth (s_state s)). change (s_identity s1) with (s_identity s).
  destruct (auth_step h action true (sl_auth (s_state s), s_identity s)) as [[res|e] [auth published]].
  - apply lspec_bind. eapply lspec_mono; [by eapply Hwrite| |done]. intros [] s2 [[_ Hv] Hsy]. do 2 apply lspec_modify. apply lspec_ret.
    apply (auth_answer lines st q s st' r _ _ s2 _ Hc Hn Hx Hw Hsy Hv); [|by destruct res..]. apply view_standing in Hv as (Hst & _). unfold standing in *. cbn in Hst.
    injection Hst as _ _ Hac. destruct res; cbn; by rewrite Hac.
  - by apply (cut_same s); [eapply core_cut|..].
Qed.
Lemma on_request_spec lines st q s st' r :
  core lines st q s → settled s → next_line st = Some (Parsed r, st') →
  lspec (on_request peer h r) s (λ _, answered (lines ++ [Parsed r]) st' s) cut.
Proof.
  intros Hc Hset Hn. unfold on_request. apply lspec_look, lspec_modify, lspec_look. cbn [s_state on_state sl_access sl_set_access].
  destruct (can_access_backend (authentication_access (s_identity s) (sl_access (s_state s)))) eqn:Eacc.
  - apply lspec_bind. eapply lspec_mono; [by apply (handle_authenticated_spec lines st q s st' r)| |done].
    intros [] s1 ((q1 & Hc1) & Hr1 & Hcm1). apply lspec_look, lspec_modify. cbn in Hr1, Hcm1.
    destruct (MAX_UPSTREAM_PIPELINE_DEPTH <=? S (s_pending_writes s1)).
    + eapply lspec_mono; [apply flush_to_backend_spec| |].
      * intros [] s2 ->. split; [|done]. exists q1. by apply (core_same _ _ _ s1).
      * intros s2 ->. apply (core_cut (lines ++ [Parsed r]) st' q1). by apply (core_same _ _ _ s1).
    + apply lspec_ret. split; [|done]. exists q1. by apply (core_same _ _ _ s1).
  - apply (auth_check_spec lines st q s st' r); [done..|]. unfold may_forward. by rewrite Eacc.
Qed.

(** A round that leaves a line unfinished found no line feed. *)
Lemma unfinished_line cr r cr' r' : read_next_round cr r = (None, cr', r') → x0a ∉ rbuf r.
Proof.
  unfold read_next_round, fill_buf. destruct (rbuf r) as [|b buf] eqn:E; [set_solver|]. rewrite memchr_spec.
  destruct (position (Byte.eqb x0a) (b :: buf)) as [p|] eqn:Ep.
  - destruct (draining_oversized cr); [done|]. destruct (MAX_COMMAND_LINE_OCTETS <? _); [done|]. done.
  - intros _ Hin. apply position_None in Ep. rewrite Forall_forall in Ep. by apply Ep, byte_eqb_neq in Hin.
Qed.

Lemma on_client_ready_spec s : progress s → s_phase s = Selecting → lspec (on_client_ready peer h) s round_done cut.
Proof.
  intros [(lines & st & q & Hc & Hr) Hset Hf] Hph. specialize (Hset ltac:(by rewrite Hph)). unfold flushed in Hf. rewrite Hph in Hf.
  unfold on_client_ready. do 2 apply lspec_look. pose proof (read_next_round_spec _ _ _ Hr) as Hround.
  destruct (read_next_round (s_command s) (s_reader s)) as [[o cr] r] eqn:E. apply lspec_modify.
  assert (core lines st q (on_reader cr r s)) as Hc1 by by eapply core_same.
  assert (∀ line st' x, next_line st = Some (line, st') → reader_at cr r st' → line_expects h (standing s) line = Some (ELocal x, standing s) →
    lspec (modify (on_state (λ st, sl_set_replies (push_deferred_reply x (backend_replies st)) st));; modify (on_phase AtHead);; mret None)
      (on_reader cr r s) round_done cut) as Hdefer.
  { intros line st' x Hn Hr' Hx. do 2 apply lspec_modify. apply lspec_ret. apply (progress_head (lines ++ [line]) st' (q ++ [ELocal x])); [|done].
    apply (local_answer lines st q s _ _ _ s); try done; [apply Hc|]. by apply (synced_snoc q s (ELocal x)); [apply Hc|..]. }
  destruct o as [[[]|e]|].
  - destruct Hround as [-> Hr']. apply lspec_ret. by exists lines, ([], false), q.
  - destruct Hround as (n & st' & Hn & Hr'). by eapply Hdefer.
  - destruct Hround as (st' & Hn & Hr'). by eapply Hdefer.
  - destruct Hround as (req & Hp & st' & Hn & Hr'). unfold take_request. rewrite Hp. apply lspec_modify, lspec_bind.
    set (cr1 := mkCommandReader _ _ _). eapply lspec_mono; [apply (on_request_spec lines st q); [by eapply core_same|done|done]| |done].
    intros [] s2 ((q2 & Hc2) & Er & Ec). apply lspec_modify, lspec_ret. apply (progress_head (lines ++ [Parsed req]) st' q2); [done|].
    rewrite Er, Ec. done.
  - apply lspec_ret. by exists lines, st, q.
  - apply lspec_ret. constructor; [by exists lines, st, q|done|]. unfold flushed. cbn. rewrite Hph.
    destruct Hf as [Hf|Hf]; [by left|]. by apply unfinished_line in E.
Qed.

Lemma loop_round_spec s : progress s → lspec (loop_round t peer h) s round_done cut.
Proof.
  intros Hp. unfold loop_round. apply lspec_look. destruct (s_phase s) eqn:E.
  - apply lspec_bind. eapply lspec_mono; [by apply loop_head_spec| |done]. by intros [] s' Hs'.
  - apply on_backend_spec; [done|by rewrite E].
  - apply lspec_bind. unfold lspec at 1. cbn [query].
    assert (progress (on_time s)) as Hp1.
    { destruct Hp as [(lines & st & q & Hc & Hr) Hs Hf]. constructor; [|done|done]. exists lines, st, q. split; [by eapply core_same|done]. }
    destruct (client_first peer (s_time s)); [by apply on_client_ready_spec|]. apply on_backend_spec; [done|cbn; by rewrite E].
Qed.

(** After any number of rounds. *)
Definition run_done (o : StatefulLoopOutcome) (s : Session) : Prop :=
  match o with
  | LoopRunning => progress s
  | LoopEnded d _ => ∃ e, d = exit_disposition e ∧ ended e s
  end.

Lemma run_spec n s : progress s → lspec (run_stateful_proxy_loop t peer h n) s run_done cut.
Proof.
  revert s. induction n as [|n IH]; intros s Hp; [done|]. cbn [run_stateful_proxy_loop]. apply lspec_bind.
  eapply lspec_mono; [by apply loop_round_spec| |done]. intros [e|] s' Hs'; [|by apply IH].
  apply lspec_look. cbn [flush_byte_deltas]. do 2 apply lspec_modify. apply lspec_ret. exists e. split; [done|].
  destruct Hs' as (lines & st & q & Hc & Hs & He). exists lines, st, q. split; [by eapply core_same|done].
Qed.

Lemma kinds_requests (l : list RequestContext) : kinds ((λ r, EBackend (kind r)) <$> l) = kind <$> l.
Proof. induction l as [|r l IH]; cbn; [done|by rewrite IH]. Qed.

(** The client has everything the backend has sent, and every local reply whose turn
    has come. *)
Definition up_to_date (q : list Expected) (s : Session) (p : bytes) : Prop :=
  kinds q = kind <$> s_written s ∧ p = seen_of q (s_received s) ∧ p `prefix_of` fill q (imap reply (s_written s)) ∧
  (s_received s = concat (imap reply (s_written s)) → p = fill q (imap reply (s_written s))).

Lemma core_up_to_date lines st q s :
  core lines st q s → settled s → ∃ p, sent (s_client s) = base ++ p ∧ up_to_date (owed q) s p.
Proof.
  intros Hc Hset. destruct (co_synced _ _ _ _ Hc) as (a & p & Ho & Hs & Hd & Hp & Hz). exists p. split; [done|].
  rewrite (settled_queue a s Ho Hset) in *. cbn in *. rewrite app_nil_r in Hp.
  assert (Forall2 framed_reply (kinds (owed q)) (imap reply (s_written s))) as Hf by (rewrite (co_written _ _ _ _ Hc); apply replies_framed).
  destruct (deliver_within _ _ _ Hf (co_received _ _ _ _ Hc)) as [Hpre _].
  split_and!; [apply Hc|done|by rewrite Hp|]. intros Hall. rewrite Hp. unfold seen_of. rewrite Hall, (framed_deliver _ _ Hf). by rewrite app_nil_r.
Qed.

(** What a session has done after some rounds. *)
Definition session_summary (r : StatefulSession) (s : Session) : Prop :=
  ∃ lines st q a p, reads_lines stream lines st ∧ session_expects h start lines = Some (q, a) ∧
    sent (s_client s) = base ++ p ∧ p `prefix_of` seen_of (owed q) (s_received s) ∧
    match r with
    | SessionRunning => s_phase s ≠ AtHead → up_to_date (owed q) s p ∧ (s_pending_writes s = 0 ∨ x0a ∈ rbuf (s_reader s))
    | SessionOver (Ok _) fate => up_to_date (owed q) s p ∧ (fate = RemovedClean → st = ([], false) ∨ next_line st = None)
    | SessionOver (Err _) _ => True
    end.

Lemma run_summary n s : progress s → let '(r, s') := run_stateful_proxy_loop t peer h n s in session_summary (session_over r) s'.
Proof.
  intros Hp. pose proof (run_spec n s Hp) as H. unfold lspec in H. destruct (run_stateful_proxy_loop t peer h n s) as [[[|d m]|e] s'].
  - destruct H as [(lines & st & q & Hc & Hr) Hset Hf]. unfold session_summary. cbn [session_over].
    destruct (co_synced _ _ _ _ Hc) as (a & p & _ & Hs & _ & Hpre & _).
    exists lines, st, q, (standing s'), p. split_and!; [apply Hc|apply Hc|done|rewrite <-Hpre; by apply prefix_app_r|].
    intros Hph. specialize (Hset Hph). destruct (core_up_to_date lines st q s' Hc Hset) as (p' & Hs' & Hu). rewrite Hs in Hs'.
    apply app_inv_head in Hs' as <-. split; [done|]. unfold flushed in Hf. destruct (s_phase s'); [done|by left|done].
  - destruct H as (e & -> & lines & st & q & Hc & Hset & He). destruct (core_up_to_date lines st q s' Hc Hset) as (p & Hs & Hu).
    exists lines, st, q, (standing s'), p. split_and!; [apply Hc|apply Hc|done|by destruct Hu as (_ & -> & _)|].
    split; [done|]. destruct e; cbn; intros Hfate; try done; first [by left|by right].
  - destruct H as (lines & st & q & a & p & ? & ? & ? & ?). by exists lines, st, q, a, p.
Qed.

(** The loop is entered with its replies in order. *)
Lemma enter_progress reader client st published :
  reader_wf reader → stream = reader_stream reader → base = sent client → start = (sl_auth st, published, sl_access st) →
  backend_replies st = foldl enqueue default_order ((λ r, EBackend (kind r)) <$> handed) →
  (handed = [] ∨ can_access_backend (authentication_access published (sl_access st)) = true) →
  progress (enter_loop reader client st published handed).
Proof.
  intros Hwf Hst Hb Hs Ho Hacc. constructor; [|done|done]. exists [], stream, []. split; [|cbn; rewrite Hst; by apply reader_at_line].
  constructor; cbn.
  - constructor.
  - by rewrite Hs.
  - unfold owed. rewrite app_nil_r. apply kinds_requests.
  - apply prefix_nil.
  - done.
  - exists (mkAbs (owed []) []), []. unfold owed. rewrite app_nil_r. cbn.
    split_and!; [rewrite Ho; apply enqueue_order_for|by rewrite app_nil_r|].
    by destruct handed.
Qed.
End LoopFacts.

(** A backend that answers each request by one complete reply, in order and not before
    the request. *)
Definition answering (peer : Peer) (reply : nat → RequestContext → bytes) : Prop :=
  (∀ i q, framed_reply (kind q) (reply i q)) ∧
  (∀ n written received b, received `prefix_of` concat (imap reply written) → backend_reads peer n written received = Ok b →
     received ++ b `prefix_of` concat (imap reply written)).

(** C5 A client with a dedicated backend connection gets its replies complete and in
    order: whatever the interleaving of the two sides, the fragmentation of both
    streams and the point at which one observes the loop, the session has taken a
    sequence of lines from the client and given it the replies that these lines call
    for (the backend's to what was forwarded, the proxy's own for the rest) in their
    order.  Whenever the loop waits, and when it has ended without an I/O error, the
    client has every byte the backend has sent and every local reply whose turn has
    come, the requests of the lines are those written to the backend, and none of
    them waits for a flush unless the next command is already there. *)
Theorem stateful_session_in_order {MC : Memchr} {MS : MemchrSpec MC} t h peer reply reader client rounds :
  answering peer reply → reader_wf reader →
  let '(r, s) := handle_stateful_session t h (Some peer) reader client rounds in
  ∃ o, r = Ok o ∧
    session_summary h reply (reader_stream reader) [] (sent client) (Anonymous, None, from_auth_enabled (is_enabled h)) o s.
Proof.
  intros [Hf Ha] Hwf. unfold handle_stateful_session.
  pose proof (run_summary t peer h reply Hf Ha (reader_stream reader) [] (sent client) (Anonymous, None, from_auth_enabled (is_enabled h)) rounds
    (enter_loop reader client (new_loop_state (is_enabled h)) None [])) as H.
  destruct (run_stateful_proxy_loop t peer h rounds _) as [r s]. eexists. split; [done|]. apply H.
  by apply enter_progress; [..|left].
Qed.

Definition sample_reply (i : nat) (q : RequestContext) : bytes :=
  if bool_decide (kind q = Head) then bs "221 0 <c@d>" ++ CRLF ++ bs "X: y" ++ CRLF ++ DOT_TERMINATOR
  else bs "500 What?" ++ CRLF.

(** The client is served first; replies arrive in pieces of seven bytes. *)
Definition sample_peer : Peer :=
  mkPeer (λ _ written received, Ok (take 7 (drop (length received) (concat (imap sample_reply written))))) (λ _, Ok ()) (λ _, true).

Lemma sample_answering : answering sample_peer sample_reply.
Proof.
  split.
  - intros i q. unfold sample_reply. case_bool_decide as Hk; [rewrite Hk; split; [by vm_compute|]; eexists; by vm_compute|].
    split; [|eexists; by vm_compute]. destruct (kind q); by vm_compute.
  - intros n written received b [x Hx] [= <-]. rewrite Hx, drop_app_length, <-Hx. rewrite Hx. apply prefix_app, prefix_take.
Qed.

Definition stateful_input : Reader :=
  mkReader (bs "HEAD <c@d>" ++ CRLF ++ bs "CAPAB") [Chunk true (bs "ILITIES" ++ CRLF ++ bs "NEWGROUPS" ++ CRLF)].

Lemma stateful_session_in_order_witness :
  (let '(r, s) := handle_stateful_session (MC := naive_memchr) Generic ∅ (Some sample_peer) stateful_input (mkWriter [] []) 30 in
   ∃ o, r = Ok o ∧ session_summary (MC := naive_memchr) ∅ sample_reply (reader_stream stateful_input) [] [] (Anonymous, None, from_auth_enabled (is_enabled ∅)) o s) ∧
  sent (s_client (handle_stateful_session (MC := naive_memchr) Generic ∅ (Some sample_peer) stateful_input (mkWriter [] []) 30).2) =
    bs "221 0 <c@d>" ++ CRLF ++ bs "X: y" ++ CRLF ++ DOT_TERMINATOR ++ capabilities_response false.
Proof.
  split; [|by vm_compute].
  apply (stateful_session_in_order (MS := naive_memchr_spec) Generic ∅ sample_peer sample_reply stateful_input (mkWriter [] []) 30 sample_answering).
  constructor; [done|constructor].
Defined.

(** ** Counters *)

Section Counting.
Context {MC : Memchr} (t : target) (peer : Peer) (h : AuthHandler).
Variable base : bytes.
Variable handed : list RequestContext.
Variables c0 b0 : N.

Definition wire_total (l : list RequestContext) : N := N.of_nat (sum_list (request_wire_len <$> l)).

(** A counter that started at [n0], counts [total] and was reported by [deltas]. *)
Definition tallied (n0 total counter last : N) (deltas : list N) : Prop :=
  counter = wrap64 (n0 + total) ∧
  ((n0 + total <= u64_max)%N → (foldr N.add 0 deltas + n0 = last ∧ last <= counter)%N).

(** The counters of [s] are right, except for [n] bytes given to the client. *)
Definition counted (n : nat) (s : Session) : Prop :=
  ∃ p ws, sent (s_client s) = base ++ p ∧ s_written s = handed ++ ws ∧ n ≤ length p ∧
    tallied c0 (wire_total ws) (sl_client_to_backend (s_state s)) (last_reported_c2b (s_state s)) (s_reported s).*1 ∧
    tallied b0 (N.of_nat (length p - n)) (sl_backend_to_client (s_state s)) (last_reported_b2c (s_state s)) (s_reported s).*2.

Definition counts {A} (m : L A) : Prop := ∀ s, counted 0 s → lspec m s (λ _, counted 0) (λ _, True).

Lemma counts_bind {A B} (m : L A) (f : A → L B) : counts m → (∀ a, counts (f a)) → counts (m ≫= f).
Proof. intros Hm Hf s Hs. apply lspec_bind. eapply lspec_mono; [by apply Hm| |done]. intros a s'. apply Hf. Qed.

Lemma counts_ret {A} (a : A) : counts (mret a).
Proof. by intros s Hs. Qed.

Lemma counts_look {A B} (f : Session → A) (g : A → L B) : (∀ a, counts (g a)) → counts (look f ≫= g).
Proof. intros Hg s Hs. by apply Hg. Qed.

Lemma counts_fail {A} e : counts (fail (A := A) e).
Proof. by intros s Hs. Qed.

Lemma counts_query {A} (q : nat → A) : counts (query q).
Proof. by intros s Hs. Qed.

(** Changes that the counters do not see. *)
Lemma counts_modify (f : Session → Session) :
  (∀ s, s_client (f s) = s_client s ∧ s_written (f s) = s_written s ∧ s_reported (f s) = s_reported s ∧
     sl_client_to_backend (s_state (f s)) = sl_client_to_backend (s_state s) ∧ last_reported_c2b (s_state (f s)) = last_reported_c2b (s_state s) ∧
     sl_backend_to_client (s_state (f s)) = sl_backend_to_client (s_state s) ∧ last_reported_b2c (s_state (f s)) = last_reported_b2c (s_state s)) →
  counts (modify f).
Proof.
  intros Hf s Hs. destruct (Hf s) as (E1 & E2 & E3 & E4 & E5 & E6 & E7). unfold lspec. cbn. unfold counted.
  by rewrite E1, E2, E3, E4, E5, E6, E7.
Qed.

Lemma tallied_add n0 total c last deltas n :
  tallied n0 total c last deltas → tallied n0 (total + N.of_nat n) (counter_add c n) last deltas.
Proof.
  intros [-> Hd]. unfold tallied, counter_add, wrap64. rewrite N.Div0.add_mod_idemp_l, N.add_assoc. split; [done|]. intros Hle.
  destruct (Hd ltac:(lia)) as [He Hl]. split; [done|]. unfold wrap64 in *. rewrite N.mod_small in Hl |- *; unfold u64_max in *; lia.
Qed.

Lemma tallied_report n0 total c last deltas :
  tallied n0 total c last deltas → tallied n0 total c c (deltas ++ [sat_sub c last]).
Proof.
  intros [-> Hd]. split; [done|]. intros Hle. destruct (Hd Hle) as [He Hl]. split; [|done].
  assert (∀ l x, foldr N.add 0%N (l ++ [x]) = (foldr N.add 0 l + x)%N) as -> by (intros l x; induction l as [|y l IH]; cbn; [lia|rewrite IH; lia]).
  lia.
Qed.

Lemma counted_write b n s : counted n s → lspec (write_to_client b) s (λ _, counted (n + length b)) (λ _, True).
Proof.
  intros (p & ws & Hs & Hw & Hn & Hc & Hb). unfold write_to_client. apply lspec_look.
  pose proof (write_all_spec b (s_client s)) as H. destruct (write_all b (s_client s)) as [[[]|k] wr]; apply lspec_modify; [|exact I].
  exists (p ++ b), ws. cbn. rewrite H, Hs, app_assoc, length_app. split_and!; [done|done|lia|done|].
  by replace (length p + length b - (n + length b)) with (length p - n) by lia.
Qed.

Lemma counted_flush n s : counted n s → lspec flush_to_client s (λ _, counted n) (λ _, True).
Proof.
  intros H. unfold flush_to_client, flush. apply lspec_look.
  destruct (outcomes (s_client s)) as [|[|m k] l]; apply lspec_modify; [exact H..|exact I].
Qed.

Lemma counted_add n m s : counted (n + m) s → counted n (on_state (sl_add_backend_to_client m) s).
Proof.
  intros (p & ws & Hs & Hw & Hn & Hc & Hb). exists p, ws. cbn. split_and!; [done|done|lia|done|].
  replace (N.of_nat (length p - n)) with (N.of_nat (length p - (n + m)) + N.of_nat m)%N by lia. by apply tallied_add.
Qed.

Lemma counts_write b : counts (write_to_client b;; modify (on_state (sl_add_backend_to_client (length b)))).
Proof.
  intros s Hs. apply lspec_bind. eapply lspec_mono; [by apply counted_write| |done]. intros [] s' Hs'. by apply (counted_add 0).
Qed.

Lemma counts_write_counted ws : counts (write_counted ws).
Proof.
  induction ws as [|b ws IH]; [apply counts_ret|]. intros s Hs. cbn [write_counted]. apply lspec_bind.
  eapply lspec_mono; [by apply counted_write| |done]. intros [] s1 H1. apply lspec_modify, IH. by apply (counted_add 0).
Qed.

Lemma counts_flush_to_client : counts flush_to_client.
Proof. intros s Hs. by apply counted_flush. Qed.

Lemma counts_backend_io : counts (backend_io peer).
Proof. apply counts_bind; [apply counts_query|]. intros [[]|k]; [apply counts_ret|apply counts_fail]. Qed.

Lemma counts_flush_to_backend : counts (flush_to_backend peer).
Proof. apply counts_bind; [apply counts_backend_io|]. intros []. by apply counts_modify. Qed.

Lemma counts_reply_or_defer reply : counts (reply_or_defer reply).
Proof.
  apply counts_look. intros st. destruct (has_pending_backend_replies _); [by apply counts_modify|]. intros s Hs.
  apply lspec_bind. eapply lspec_mono; [by apply counted_write| |done]. intros [] s1 H1.
  apply lspec_bind. eapply lspec_mono; [by apply counted_flush| |done]. intros [] s2 H2. by apply (counted_add 0).
Qed.

(** A forwarded request is counted with its line end. *)
Lemma counts_forward request :
  counts (modify (on_written request);; modify (on_state (sl_add_client_to_backend (request_wire_len request)))).
Proof.
  intros s (p & ws & Hs & Hw & Hn & Hc & Hb). exists p, (ws ++ [request]). cbn. split_and!; [done|by rewrite Hw, app_assoc|done| |done].
  assert (wire_total (ws ++ [request]) = wire_total ws + N.of_nat (request_wire_len request))%N as ->.
  { unfold wire_total. clear. induction ws as [|w ws IH]; cbn; [lia|]. cbn in IH. lia. }
  by apply tallied_add.
Qed.

Lemma counts_authenticated request : counts (handle_authenticated_stateful_request peer request).
Proof.
  apply counts_look. intros st. destruct (classify_authenticated_stateful_action _ _); [|apply counts_reply_or_defer..].
  apply counts_bind; [apply counts_backend_io|]. intros [] s Hs. pose proof (counts_forward request s Hs) as H. exact H.
Qed.

Lemma counts_auth_check request :
  counts (auth_result ← handle_stateful_auth_check h request; modify (on_state (apply_auth_result auth_result))).
Proof.
  intros s Hs. apply lspec_bind.
  assert (∀ r s', counted (ah_bytes_written r) s' → lspec (modify (on_state (apply_auth_result r))) s' (λ _, counted 0) (λ _, True)) as Hend.
  { intros r s' Hs'. apply (counted_add 0) in Hs'. unfold apply_auth_result. by destruct (should_skip_further_checks r). }
  assert (∀ b (m : L AuthHandlerResult) s, counted 0 s → (∀ s', counted (length b) s' → lspec m s' (λ r, counted (ah_bytes_written r)) (λ _, True)) →
    lspec (write_to_client b;; m) s (λ r, counted (ah_bytes_written r)) (λ _, True)) as Hwrite.
  { intros b m s1 H1 Hm. apply lspec_bind. eapply lspec_mono; [by apply counted_write| |done]. intros [] s2 H2. by apply Hm. }
  eapply lspec_mono; [|exact Hend|done]. unfold handle_stateful_auth_check.
  destruct (classify_request request Required RmStateful) as [action| | | | |]; try by apply Hwrite.
  do 2 apply lspec_look. destruct (auth_step h action true _) as [[r|e] [auth published]]; [|done]. apply Hwrite; [done|].
  intros s' Hs'. by destruct r.
Qed.

(** Reporting the deltas. *)
Lemma counted_report n s :
  counted n s → counted n (on_reported (flush_byte_deltas (s_state s)).1 (on_state (λ _, (flush_byte_deltas (s_state s)).2) s)).
Proof.
  intros (p & ws & Hs & Hw & Hn & Hc & Hb). exists p, ws. cbn. rewrite !fmap_app. cbn.
  split_and!; [done|done|done|by apply tallied_report..].
Qed.

Lemma counts_prepare_to_wait : counts (prepare_to_wait peer).
Proof.
  do 3 (apply counts_look; intros ?). destruct (read_mode _); (apply counts_bind; [|intros []; by apply counts_modify]);
    case_match; [apply counts_flush_to_backend|apply counts_ret|apply counts_ret|apply counts_flush_to_backend].
Qed.

Lemma counts_ready_replies : counts (write_ready_replies peer).
Proof.
  apply counts_look. intros st. destruct (take_ready_deferred_replies _) as [[|b replies] o]; (apply counts_bind; [by apply counts_modify|intros []]).
  - apply counts_prepare_to_wait.
  - apply counts_bind; [apply counts_write_counted|]. intros []. apply counts_flush_to_client.
Qed.

Lemma counts_head : counts (loop_head peer).
Proof.
  intros s Hs. apply lspec_look. destruct (check_and_maybe_flush_metrics (s_state s)) as [fl st] eqn:E. apply lspec_modify.
  assert (counted 0 (on_state (λ _, st) s)) as H1 by (unfold check_and_maybe_flush_metrics in E; by injection E as _ <-).
  apply lspec_bind. destruct fl; [|by apply counts_ready_replies]. apply counts_ready_replies. exact (counted_report 0 _ H1).
Qed.

Lemma counts_backend : counts (on_backend t peer).
Proof.
  apply counts_bind.
  - do 2 (apply counts_look; intros ?). apply counts_bind; [apply counts_query|]. intros [[|x b]|k]; try apply counts_ret.
    apply counts_bind; [by apply counts_modify|intros; apply counts_ret].
  - intros [[b|]|k]; try apply counts_ret. apply counts_bind.
    + apply counts_look. intros st. destruct (client_writes_for_backend_read t _ b) as [writes o].
      apply counts_bind; [by apply counts_modify|]. intros []. apply counts_bind; [apply counts_write_counted|]. intros []. apply counts_flush_to_client.
    + intros []. apply counts_bind; [by apply counts_modify|intros; apply counts_ret].
Qed.

Lemma counts_request request : counts (on_request peer h request).
Proof.
  apply counts_look. intros published. apply counts_bind; [by apply counts_modify|]. intros []. apply counts_look. intros st.
  destruct (can_access_backend _); [|apply counts_auth_check]. apply counts_bind; [apply counts_authenticated|]. intros [].
  apply counts_look. intros n. apply counts_bind; [by apply counts_modify|]. intros [].
  case_match; [apply counts_flush_to_backend|apply counts_ret].
Qed.

Lemma counts_client : counts (on_client_ready peer h).
Proof.
  do 2 (apply counts_look; intros ?). destruct (read_next_round _ _) as [[o cr] r]. apply counts_bind; [by apply counts_modify|]. intros [].
  destruct o as [[[]|e]|]; try apply counts_ret.
  1-2: do 2 (apply counts_bind; [by apply counts_modify|intros []]); apply counts_ret.
  unfold take_request. apply counts_bind; [by apply counts_modify|]. intros []. destruct (parsed_request cr); [|apply counts_fail].
  apply counts_bind; [apply counts_request|]. intros []. apply counts_bind; [by apply counts_modify|intros []; apply counts_ret].
Qed.

Lemma counts_round : counts (loop_round t peer h).
Proof.
  apply counts_look. intros [].
  - apply counts_bind; [apply counts_head|intros; apply counts_ret].
  - apply counts_backend.
  - apply counts_bind; [apply counts_query|]. intros [|]; [apply counts_client|apply counts_backend].
Qed.

Definition ended_with (s : Session) (o : StatefulLoopOutcome) : Prop :=
  match o with
  | LoopRunning => True
  | LoopEnded _ (c, b) => c = sl_client_to_backend (s_state s) ∧ b = sl_backend_to_client (s_state s) ∧
      last_reported_c2b (s_state s) = c ∧ last_reported_b2c (s_state s) = b
  end.

Lemma counts_run n s :
  counted 0 s → lspec (run_stateful_proxy_loop t peer h n) s (λ o s', counted 0 s' ∧ ended_with s' o) (λ _, True).
Proof.
  revert s. induction n as [|n IH]; intros s Hs; [done|]. cbn [run_stateful_proxy_loop]. apply lspec_bind.
  eapply lspec_mono; [by apply counts_round| |done]. intros [e|] s1 H1; [|by apply IH].
  split; [exact (counted_report 0 s1 H1)|done].
Qed.
End Counting.

Lemma stateful_bytes_spec {MC : Memchr} t h peer reader client c0 b0 enabled published handed rounds :
  (c0 <= u64_max)%N → (b0 <= u64_max)%N →
  let '(r, s) := run_stateful_proxy_loop t peer h rounds (enter_loop reader client (from_initial_bytes c0 b0 enabled) published handed) in
  ∀ d c b, r = Ok (LoopEnded d (c, b)) →
    ∃ p ws, sent (s_client s) = sent client ++ p ∧ s_written s = handed ++ ws ∧
      c = wrap64 (c0 + wire_total ws) ∧ b = wrap64 (b0 + N.of_nat (length p)) ∧
      ((c0 + wire_total ws <= u64_max)%N → foldr N.add 0%N (s_reported s).*1 = wire_total ws) ∧
      ((b0 + N.of_nat (length p) <= u64_max)%N → foldr N.add 0%N (s_reported s).*2 = N.of_nat (length p)).
Proof.
  intros Hc0 Hb0. pose proof (counts_run t peer h (sent client) handed c0 b0 rounds
    (enter_loop reader client (from_initial_bytes c0 b0 enabled) published handed)) as H.
  destruct (run_stateful_proxy_loop t peer h rounds _) as [r s] eqn:E. intros d c b ->. unfold lspec in H. rewrite E in H.
  destruct H as [(p & ws & Hs & Hw & _ & [Hc Hrc] & [Hb Hrb]) (Ec & Eb & Elc & Elb)].
  { assert (∀ n, (n <= u64_max)%N → tallied n 0 n n []) as Htally.
    { intros n Hn. split; [|cbn; lia]. unfold wrap64. rewrite N.add_0_r, N.mod_small; unfold u64_max in *; lia. }
    exists [], []. rewrite !app_nil_r. split_and!; [done|done|done|by apply Htally..]. }
  exists p, ws. rewrite Nat.sub_0_r in *. rewrite Ec, Eb. split_and!; [done..| |].
  - intros Hle. destruct (Hrc Hle) as [He _]. rewrite Elc, Ec, Hc in He. unfold wrap64 in He. rewrite N.mod_small in He; unfold u64_max in *; lia.
  - intros Hle. destruct (Hrb Hle) as [He _]. rewrite Elb, Eb, Hb in He. unfold wrap64 in He. rewrite N.mod_small in He; unfold u64_max in *; lia.
Qed.

(** The byte counters of a stateful session are exact: when the loop ends, the
    totals it returns are the initial ones plus the lines written to the backend and
    the bytes given to the client (as [u64]), and, unless a counter overflows, the
    deltas reported to the metrics on the way add up to exactly these bytes. *)
Theorem stateful_bytes_accounted {MC : Memchr} t h peer reader client c0 b0 enabled published handed rounds :
  (c0 <= u64_max)%N → (b0 <= u64_max)%N →
  let '(r, s) := run_stateful_proxy_loop t peer h rounds (enter_loop reader client (from_initial_bytes c0 b0 enabled) published handed) in
  ∀ d c b, r = Ok (LoopEnded d (c, b)) →
    ∃ p ws, sent (s_client s) = sent client ++ p ∧ s_written s = handed ++ ws ∧
      c = wrap64 (c0 + wire_total ws) ∧ b = wrap64 (b0 + N.of_nat (length p)) ∧
      ((c0 + wire_total ws <= u64_max)%N → foldr N.add 0%N (s_reported s).*1 = wire_total ws) ∧
      ((b0 + N.of_nat (length p) <= u64_max)%N → foldr N.add 0%N (s_reported s).*2 = N.of_nat (length p)).
Proof. exact (stateful_bytes_spec t h peer reader client c0 b0 enabled published handed rounds). Qed.

(** A run that ends: 23 bytes to the backend, 77 to the client. *)
Lemma counted_run :
  (run_stateful_proxy_loop (MC := naive_memchr) Generic sample_peer ∅ 30
    (enter_loop stateful_input (mkWriter [] []) (from_initial_bytes 100 7 false) None [])).1 = Ok (LoopEnded RetireClient (123, 84)%N).
Proof. by vm_compute. Qed.

Lemma stateful_bytes_accounted_witness :
  let '(r, s) := run_stateful_proxy_loop (MC := naive_memchr) Generic sample_peer ∅ 30
    (enter_loop stateful_input (mkWriter [] []) (from_initial_bytes 100 7 false) None []) in
  ∀ d c b, r = Ok (LoopEnded d (c, b)) →
    ∃ p ws, sent (s_client s) = sent (mkWriter [] []) ++ p ∧ s_written s = [] ++ ws ∧
      c = wrap64 (100 + wire_total ws) ∧ b = wrap64 (7 + N.of_nat (length p)) ∧
      ((100 + wire_total ws <= u64_max)%N → foldr N.add 0%N (s_reported s).*1 = wire_total ws) ∧
      ((7 + N.of_nat (length p) <= u64_max)%N → foldr N.add 0%N (s_reported s).*2 = N.of_nat (length p)).
Proof.
  exact (stateful_bytes_accounted (MC := naive_memchr) Generic ∅ sample_peer stateful_input (mkWriter [] []) 100 7 false None [] 30
    ltac:(done) ltac:(done)).
Defined.

(** A QUIT before authentication is refused in a stateful session, which stays open;
    a session per command answers it and closes. *)
Example quit_before_authentication :
  let h : AuthHandler := {[ bs "u" := bs "p" ]} in
  let '(r, s) := handle_stateful_session (MC := naive_memchr) Generic h (Some sample_peer) (mkReader (bs "QUIT" ++ CRLF) [Chunk true (bs "DATE" ++ CRLF)])
    (mkWriter [] []) 30 in
  sent (s_client s) = responses.AUTH_REQUIRED_FOR_COMMAND ++ responses.AUTH_REQUIRED_FOR_COMMAND.
Proof. by vm_compute. Qed.
