(* ===== verification/Handoff.v ===== *)
(** * Handoff: a hybrid session that becomes stateful

    Models [src/src/session/handlers/hybrid.rs] and the branch of
    [run_per_command_loop] that enters it: a command that needs reader state moves
    the client from per-command routing ([Loop.v]) to a dedicated backend connection
    ([Stateful.v]).  The connection the pool gives is a [Peer], as a function of the
    time and the backend. *)

From S2P Require Import Prelude Protocol Request Scanner Framer Tracker Command Auth Availability Router Article Cache Pipeline Stream Transfer Exchange Retry RetryFacts Precheck Serve Session Window Loop Stateful.

(** What became of the switch: no backend, given up before the loop, or the loop. *)
Inductive SwitchOutcome :=
| NotAcquired (e : SessionError)
| GivenUp (backend : nat) (fate : ConnectionFate) (e : SessionError)
| Dedicated (backend : nat) (outcome : StatefulSession) (s : Stateful.Session).

(** [stateful_initial_client_bytes] *)
Definition stateful_initial_client_bytes (carried : N) (request : RequestContext) : N :=
  wrap64 (carried + N.of_nat (request_wire_len request)).

(** The state the loop is entered with: the reply to the triggering request is
    expected. *)
Definition handoff_state (c2b b2c : N) (auth_enabled : bool) (request : RequestContext) : SessionLoopState :=
  let st := from_initial_bytes (stateful_initial_client_bytes c2b request) b2c auth_enabled in
  sl_set_replies (push_request (kind request) (backend_replies st)) st.

Section Handoff.
Context {MC : Memchr} (t : target) (env : Oracle) (auth_handler : AuthHandler).
Variable dedicated : nat → nat → option Peer.

(** [route] without an article. *)
Definition route_client : M (result RouteError nat) :=
  s ← read selector;
  r ← ask (λ n, route (pool_at env n) (interference env n) (S (interferences env)) 0 s None 0);
  match r with
  | Some (r, s) => set_selector s;; mret r
  | None => mret (Err NoBackends)
  end.

(** [acquire_stateful_backend]: the guard of the pending command is dropped with the
    lease, or here if there is no connection. *)
Definition acquire_stateful_backend : M (result AnyError (nat * Peer)) :=
  routed ← route_client;
  match routed with
  | Err _ => mret (Err AnyOther)
  | Ok i =>
      s ← read selector;
      match find_backend s i with
      | None => finish_guard false i;; mret (Err AnyOther)
      | Some _ =>
          conn ← ask (λ n, dedicated n i);
          match conn with
          | None => finish_guard false i;; mret (Err AnyConnection)
          | Some peer => mret (Ok (i, peer))
          end
      end
  end.

(** [StatefulBackendLease::finalize] and the end of the lease. *)
Definition finalize (i : nat) (d : StatefulConnectionDisposition) : M ConnectionFate :=
  finish_guard false i;; mret (disposition_fate d).

(** [switch_to_stateful_mode], after a number of rounds of the loop. *)
Definition switch_to_stateful_mode (reader : Reader) (request : RequestContext) (c2b b2c : N)
    (published : AuthState) (mode : RuntimeRoutingState) (rounds : nat) : M (SwitchOutcome * RuntimeRoutingState) :=
  acquired ← acquire_stateful_backend;
  match acquired with
  | Err e => mret (NotAcquired (session_error_from_anyhow e), mode)
  | Ok (i, peer) =>
      written ← ask (send_to env);
      match written with
      | Err k => fate ← finalize i RetireBackend; mret (GivenUp i fate (session_error_from_anyhow (AnyIo k)), mode)
      | Ok _ =>
          let '(transition, mode) := switch_to_stateful mode in
          match transition with
          | Switched =>
              wr ← read client;
              let '(r, s) := run_stateful_proxy_loop t peer auth_handler rounds
                (enter_loop reader wr (handoff_state c2b b2c (is_enabled auth_handler) request) published [request]) in
              set_client (s_client s);;
              match session_over r with
              | SessionRunning => mret ()
              | SessionOver _ _ => finish_guard false i
              end;;
              mret (Dedicated i (session_over r) s, mode)
          | _ => fate ← finalize i RetireBackend; mret (GivenUp i fate (BackendError AnyOther), mode)
          end
      end
  end.
End Handoff.

(** How a hybrid session ends: per command, or after a switch for [request]. *)
Inductive HybridEnd :=
| EndedPerCommand (e : SessionEnd)
| EndedSwitched (request : RequestContext) (o : SwitchOutcome).

Section Hybrid.
Context {MC : Memchr} (t : target) (env : Oracle) (cfg : SessionConfig).
Variable fresh : PooledBuffer.
Variable cached : nat → bytes → option CachedArticle.
Variable adaptive : bool.
Context (auth_handler : AuthHandler).
Variable dedicated : nat → nat → option Peer.

(** A session in hybrid mode: the per-command loop, and the switch its command asks
    for. *)
Definition handle_hybrid_session (reader : Reader) (rounds : nat) : M (option HybridEnd) :=
  o ← handle_per_command_routing t env cfg fresh cached adaptive auth_handler RmHybrid reader;
  match o with
  | None => mret None
  | Some (SessionSwitched request reader, st) =>
      b2c ← read response_bytes;
      '(o, _) ← switch_to_stateful_mode t env auth_handler dedicated reader request (client_to_backend_bytes st) b2c
        (loop_identity st) (from_routing_mode RmHybrid) rounds;
      mret (Some (EndedSwitched request o))
  | Some (e, _) => mret (Some (EndedPerCommand e))
  end.
End Hybrid.

(** ** Facts *)

Section HandoffFacts.
Context {MC : Memchr} {MS : MemchrSpec MC} {PL : PoolLimit} (t : target) (env : Oracle) (cfg : SessionConfig).
Variable fresh : PooledBuffer.
Variable cached : nat → bytes → option CachedArticle.
Variable adaptive : bool.
Context (auth_handler : AuthHandler).
Variable dedicated : nat → nat → option Peer.
Variable reply : nat → RequestContext → bytes.
Hypothesis fresh_acquired : acquired fresh.
Hypothesis env_ok : oracle_ok env.
Hypothesis dedicated_answering : ∀ n i peer, dedicated n i = Some peer → answering peer reply.

(** The reader a switch hands over. *)
Lemma switched_reader rmode rounds reader st w :
  reader_wf reader →
  spec (run_per_command_loop t env cfg fresh cached adaptive auth_handler rmode rounds reader st) w
    (λ o _, ∀ q reader' st', o = Some (SessionSwitched q reader', st') → reader_wf reader').
Proof.
  revert reader st w. induction rounds as [|rounds IH]; intros reader st w Hwf; cbn [run_per_command_loop]; [by apply spec_ret|].
  destruct (read_command_batch reader) as [[b|err] reader'] eqn:E; [|by apply spec_ret].
  destruct (read_batch_read reader Hwf) as [Hwf' _]. rewrite E in Hwf'. cbn in Hwf'.
  apply spec_bind. eapply (spec_mono _ _ (λ _ _, True)); [done|]. intros o w1 _.
  destruct o as [[[[| |q]|e] st1]|]; [by apply IH|by apply spec_ret|apply spec_ret; by intros q' r' st' [= _ <- _]|by apply spec_ret..].
Qed.

(** A switch is asked for only by a client that has access. *)
Lemma switched_access reader w :
  lease w = None →
  spec (handle_per_command_routing t env cfg fresh cached adaptive auth_handler RmHybrid reader) w
    (λ o _, ∀ q reader' st', o = Some (SessionSwitched q reader', st') →
       can_access_backend (authentication_access (loop_identity st') (from_auth_enabled (is_enabled auth_handler))) = true).
Proof.
  intros Hl. unfold handle_per_command_routing. destruct (is_enabled auth_handler) eqn:Een.
  - eapply spec_mono; [apply locked_loop; [|done]; split; [done|]; cbn; by rewrite Een|].
    intros o w' H q reader' st' ->. destruct (loop_identity st') eqn:Ei; [done|]. destruct (H _ _ eq_refl Ei) as [_ Hn]. by destruct (Hn q reader').
  - eapply (spec_mono _ _ (λ _ _, True)); [done|]. intros o w' _ q reader' st' _. cbn. unfold authentication_access. by destruct (is_authenticated _).
Qed.

(** The client sees nothing of the search for a backend. *)
Lemma acquire_spec w :
  spec (acquire_stateful_backend env dedicated) w (λ r w', sent (client w') = sent (client w) ∧
    ∀ i peer, r = Ok (i, peer) → answering peer reply).
Proof.
  unfold acquire_stateful_backend, route_client, finish_guard. do 2 apply spec_bind. apply spec_read. apply spec_bind.
  unfold ask at 1, spec at 1. cbn beta iota. set (routed := route _ _ _ _ _ _ _). destruct routed as [[[i|e] s]|]; [|by split..].
  do 2 (apply spec_bind; apply spec_ret || unfold spec at 1; cbn). destruct (find_backend s i); [|by split].
  apply spec_bind. unfold ask, spec at 1. cbn. destruct (dedicated _ i) as [peer|] eqn:E; [|by split].
  split; [done|]. intros i' peer' [= <- <-]. by eapply dedicated_answering.
Qed.

(** What a switch does for the client that asked for it with [request]. *)
Definition switched (request : RequestContext) (reader : Reader) (base : bytes) (published : AuthState) (o : SwitchOutcome) (w : World) : Prop :=
  match o with
  | NotAcquired _ | GivenUp _ _ _ => sent (client w) = base
  | Dedicated _ o s => client w = s_client s ∧
      session_summary auth_handler reply (reader_stream reader) [request] base
        (Anonymous, published, from_auth_enabled (is_enabled auth_handler)) o s
  end.

Lemma switch_spec reader request c2b b2c published mode rounds w :
  reader_wf reader → can_access_backend (authentication_access published (from_auth_enabled (is_enabled auth_handler))) = true →
  spec (switch_to_stateful_mode t env auth_handler dedicated reader request c2b b2c published mode rounds) w
    (λ x w', switched request reader (sent (client w)) published x.1 w').
Proof.
  intros Hwf Hacc. unfold switch_to_stateful_mode. run acquire_spec as r w1 [Hs1 Hr]. destruct r as [[i peer]|e]; [|done].
  destruct (Hr i peer eq_refl) as [Hf Ha]. unfold ask at 1. apply spec_bind. unfold spec at 1. cbn.
  destruct (send_to env (time w1)); [|done]. destruct (switch_to_stateful mode) as [[] mode']; [|done..].
  apply spec_bind, spec_read. cbn [client]. set (s0 := enter_loop _ _ _ _ _).
  pose proof (run_summary t peer auth_handler reply Hf Ha (reader_stream reader) [request] (sent (client w1))
    (Anonymous, published, from_auth_enabled (is_enabled auth_handler)) rounds s0) as H.
  destruct (run_stateful_proxy_loop t peer auth_handler rounds s0) as [r s].
  assert (session_summary auth_handler reply (reader_stream reader) [request] (sent (client w1))
    (Anonymous, published, from_auth_enabled (is_enabled auth_handler)) (session_over r) s) as Hsum.
  { apply H. by apply enter_progress; [..|right]. }
  rewrite Hs1 in Hsum. apply spec_bind. unfold spec at 1. cbn. apply spec_bind.
  eapply (spec_mono _ _ (λ _ w', client w' = s_client s)); [by destruct (session_over r)|].
  intros [] w2 Hw2. by split.
Qed.

End HandoffFacts.

(** ** A concrete hybrid session *)

Definition hybrid_input : Reader :=
  mkReader [] [Chunk true (bs "ARTICLE <a@b>" ++ CRLF ++ bs "GROUP misc"); Chunk true (CRLF ++ bs "CAPABILITIES" ++ CRLF ++ bs "NEXT" ++ CRLF)].

Definition one_response (n i : nat) : option ConnectionStream := Some (mkConn [] [Data sample_article_response] PhaseIdle).

Lemma one_response_ok : oracle_ok (H := small_pool) (sample_oracle one_response).
Proof. apply sample_oracle_ok. by intros n i c [= <-]. Qed.

(** After the switch the client is ready first as long as there is something to read. *)
Definition hybrid_peer : Peer := mkPeer (backend_reads sample_peer) (λ _, Ok ()) (λ n, n <? 6).

Lemma hybrid_answering n i peer : (λ _ _ : nat, Some hybrid_peer) n i = Some peer → answering peer sample_reply.
Proof. intros [= <-]. apply sample_answering. Qed.

Definition hybrid_run : option HybridEnd * World :=
  handle_hybrid_session (MC := naive_memchr) Generic (sample_oracle one_response) sample_config small_buffer (λ _ _, None)
    false ∅ (λ _ _, Some hybrid_peer) hybrid_input 40 one_world.

(** The whole conversation: the article, then the replies of the dedicated
    connection around the proxy's own. *)
Example hybrid_run_sent :
  sent (client hybrid_run.2) =
    sample_article_response ++ bs "500 What?" ++ CRLF ++ capabilities_response false ++ bs "500 What?" ++ CRLF.
Proof. by vm_compute. Qed.


(** The command that caused the switch is counted by the per-command loop and again
    by the handoff: the totals of the session exceed what was sent by its line. *)
Example switch_counted_twice :
  let request := default (from_verb_args [] []) (parse_request (MC := naive_memchr) (bs "GROUP misc" ++ CRLF)) in
  let input := mkReader (bs "GROUP misc" ++ CRLF) [] in
  match handle_hybrid_session (MC := naive_memchr) Generic (sample_oracle one_response) sample_config small_buffer (λ _ _, None)
    false ∅ (λ _ _, Some hybrid_peer) input 40 one_world with
  | (Some (EndedSwitched _ (Dedicated _ (SessionOver (Ok (c2b, _)) _) s)), _) =>
      s_written s = [request] ∧ c2b = N.of_nat (2 * request_wire_len request)
  | _ => False
  end.
Proof. by vm_compute. Qed.
