(* ===== verification/Yenc.v ===== *)
(** * Yenc: decoding and validation of yEnc bodies

    Models [src/src/protocol/article/yenc.rs]: the decoder of a data line, the
    metadata lines, and the validation of a whole body, with the text functions of
    the standard library they use ([String::from_utf8_lossy],
    [str::split_whitespace], [u32::from_str_radix]).

    The checksum of the [crc32fast] crate is a parameter; the messages of
    [ParseError::InvalidYenc] are constructors that carry what they print. *)

From S2P Require Import Prelude Protocol.

(** ** The [crc32fast] crate *)

(** [Hasher::new], [update] and [finalize], and [hash], which does all three. *)
Class Crc32 := {
  Hasher : Type;
  hasher_new : Hasher;
  hasher_update : Hasher → bytes → Hasher;
  hasher_finalize : Hasher → N;
  crc32_hash : bytes → N;
}.

(** The digest does not depend on how the input is cut into updates. *)
Class Crc32Spec (H32 : Crc32) : Prop := {
  crc32_spec chunks : hasher_finalize (foldl hasher_update hasher_new chunks) = crc32_hash (concat chunks);
}.

(** The bitwise CRC-32 of IEEE 802.3, for evaluation. *)
Definition crc_bit (c : N) : N := if N.odd c then N.lxor (N.div2 c) 0xEDB88320%N else N.div2 c.

Definition crc_byte (c : N) (b : byte) : N := Nat.iter 8 crc_bit (N.lxor c (Byte.to_N b)).

Definition ieee_crc32 : Crc32 := {|
  Hasher := N;
  hasher_new := 0xFFFFFFFF%N;
  hasher_update := foldl crc_byte;
  hasher_finalize c := N.lxor c 0xFFFFFFFF%N;
  crc32_hash l := N.lxor (foldl crc_byte 0xFFFFFFFF%N l) 0xFFFFFFFF%N;
|}.

(** ** Text *)

Definition REPLACEMENT_CHARACTER : bytes := [xef; xbf; xbd].

(** [String::from_utf8_lossy] as the list of its characters: every maximal
    ill-formed part is one replacement character. *)
Fixpoint from_utf8_lossy (l : bytes) : list bytes :=
  match l with
  | [] => []
  | b0 :: l1 =>
      if byte_in x00 x7f b0 then [b0] :: from_utf8_lossy l1
      else if byte_in xc2 xdf b0 then
        match l1 with
        | b1 :: l2 =>
            if utf8_cont b1 then [b0; b1] :: from_utf8_lossy l2 else REPLACEMENT_CHARACTER :: from_utf8_lossy l1
        | [] => [REPLACEMENT_CHARACTER]
        end
      else if byte_in xe0 xef b0 then
        match l1 with
        | b1 :: l2 =>
            if utf8_second3 b0 b1 then
              match l2 with
              | b2 :: l3 =>
                  if utf8_cont b2 then [b0; b1; b2] :: from_utf8_lossy l3
                  else REPLACEMENT_CHARACTER :: from_utf8_lossy l2
              | [] => [REPLACEMENT_CHARACTER]
              end
            else REPLACEMENT_CHARACTER :: from_utf8_lossy l1
        | [] => [REPLACEMENT_CHARACTER]
        end
      else if byte_in xf0 xf4 b0 then
        match l1 with
        | b1 :: l2 =>
            if utf8_second4 b0 b1 then
              match l2 with
              | b2 :: l3 =>
                  if utf8_cont b2 then
                    match l3 with
                    | b3 :: l4 =>
                        if utf8_cont b3 then [b0; b1; b2; b3] :: from_utf8_lossy l4
                        else REPLACEMENT_CHARACTER :: from_utf8_lossy l3
                    | [] => [REPLACEMENT_CHARACTER]
                    end
                  else REPLACEMENT_CHARACTER :: from_utf8_lossy l2
              | [] => [REPLACEMENT_CHARACTER]
              end
            else REPLACEMENT_CHARACTER :: from_utf8_lossy l1
        | [] => [REPLACEMENT_CHARACTER]
        end
      else REPLACEMENT_CHARACTER :: from_utf8_lossy l1
  end.

(** [str::split_whitespace]: the non-empty runs of characters that are not white
    space; [word] is the run being read. *)
Fixpoint split_whitespace (word : bytes) (chars : list bytes) : list bytes :=
  let flush words := match word with [] => words | _ => word :: words end in
  match chars with
  | [] => flush []
  | c :: chars =>
      if bool_decide (c ∈ unicode_white_space) then flush (split_whitespace [] chars)
      else split_whitespace (word ++ c) chars
  end.

(** [strip_prefix] *)
Definition strip_prefix (prefix l : bytes) : option bytes :=
  if decide (prefix `prefix_of` l) then Some (drop (length prefix) l) else None.

(** [strip_suffix] *)
Definition strip_suffix (suffix l : bytes) : option bytes :=
  if decide (suffix `suffix_of` l) then Some (take (length l - length suffix) l) else None.

(** [iter().find_map(f)] *)
Fixpoint find_map {A B} (f : A → option B) (l : list A) : option B :=
  match l with
  | [] => None
  | x :: l => match f x with Some y => Some y | None => find_map f l end
  end.

(** [starts_with] *)
Definition starts_with (prefix l : bytes) : bool := bool_decide (prefix `prefix_of` l).

Definition hex_value (b : byte) : option N :=
  if byte_in x30 x39 b then Some (Byte.to_N b - 48)%N
  else if byte_in x41 x46 b then Some (Byte.to_N b - 55)%N
  else if byte_in x61 x66 b then Some (Byte.to_N b - 87)%N
  else None.

(** [u32::from_str_radix(s, 16)] *)
Definition parse_u32_hex (s : bytes) : option N :=
  let digits := match s with x2b :: s => s | _ => s end in
  if bool_decide (digits = []) then None
  else
    values ← mapM hex_value digits;
    let v := foldl (λ v d, (v * 16 + d)%N) 0%N values in
    if (v <? 2 ^ 32)%N then Some v else None.

(** ** Metadata lines *)

Inductive YencError :=
| MissingSizeParameter
| InvalidPartRange
| MissingBegin
| UnexpectedPart
| MissingPart
| DecodedSizeOverflow
| MissingEnd
| SizeMismatch (expected : N) (footer : option N) (decoded : N)
| CrcMismatch (expected actual : N).

Definition extract_param (line param : bytes) : option bytes :=
  find_map (strip_prefix (param ++ [x3d])) (split_whitespace [] (from_utf8_lossy line)).

Record YencHeader := mkYencHeader { expected_size : N; is_multipart : bool }.

(** [YencHeader::parse] *)
Definition parse_yenc_header (line : bytes) : result YencError YencHeader :=
  size ← ok_or MissingSizeParameter (extract_param line (bs "size") ≫= parse_u64);
  mret (mkYencHeader size (bool_decide (is_Some (extract_param line (bs "part"))))).

Definition parse_part_size (line : bytes) (file_size : N) : result YencError N :=
  match extract_param line (bs "begin") ≫= parse_u64, extract_param line (bs "end") ≫= parse_u64 with
  | Some begin_, Some end_ =>
      if (0 <? begin_)%N && (begin_ <=? end_)%N && (end_ <=? file_size)%N then Ok (end_ - begin_ + 1)%N
      else Err InvalidPartRange
  | _, _ => Err InvalidPartRange
  end.

Record YencFooter := mkYencFooter { footer_size : option N; footer_crc32 : option N }.

(** [YencFooter::parse] *)
Definition parse_yenc_footer (line : bytes) (multipart : bool) : YencFooter :=
  mkYencFooter (extract_param line (bs "size") ≫= parse_u64)
    (extract_param line (if multipart then bs "pcrc32" else bs "crc32") ≫= parse_u32_hex).

Inductive YencLine := YPart | YEnd | YData.

(** [YencLine::classify] *)
Definition classify_yenc_line (line : bytes) : YencLine :=
  if starts_with (bs "=ypart ") line then YPart
  else if starts_with (bs "=yend ") line then YEnd
  else YData.

(** ** Data lines *)

(** [u8::wrapping_sub] *)
Definition wrapping_sub (b : byte) (k : N) : byte := default x00 (Byte.of_N ((Byte.to_N b + (256 - k)) mod 256)).

(** The loop of [decode_yenc_line]. *)
Fixpoint decode_escapes (input : bytes) : bytes :=
  match input with
  | [] => []
  | b :: input =>
      match b with
      | x0d | x0a | x00 => decode_escapes input
      | x3d =>
          match input with
          | escaped :: input => wrapping_sub (wrapping_sub escaped 64) 42 :: decode_escapes input
          | [] => []
          end
      | _ => wrapping_sub b 42 :: decode_escapes input
      end
  end.

Definition decode_yenc_line (input : bytes) : bytes :=
  decode_escapes (if starts_with (bs "..") input then drop 1 input else input).

Section Yenc.
Context {H32 : Crc32}.

(** [YencFooter::validate_checksum] *)
Definition validate_checksum (f : YencFooter) (checksum : Hasher) : result YencError unit :=
  match footer_crc32 f with
  | Some expected =>
      if (hasher_finalize checksum =? expected)%N then Ok () else Err (CrcMismatch expected (hasher_finalize checksum))
  | None => Ok ()
  end.

(** The data of a line with its line end. *)
Definition line_data (line : bytes) : bytes :=
  decode_yenc_line
    match strip_suffix CRLF line with
    | Some l => l
    | None => default line (strip_suffix [LF] line)
    end.

Definition decode_and_checksum (line : bytes) (checksum : Hasher) : N * Hasher :=
  let decoded := line_data line in
  (N.of_nat (length decoded), hasher_update checksum decoded).

(** [YencLines]: what [read_until(b'\n')] returns until the end of the body; [line]
    is the line being read. *)
Fixpoint yenc_lines (line body : bytes) : list bytes :=
  match body with
  | [] => match line with [] => [] | _ => [line] end
  | b :: body => if Byte.eqb b LF then (line ++ [b]) :: yenc_lines [] body else yenc_lines (line ++ [b]) body
  end.

(** The header that [find_map] takes from the lines, and the lines left. *)
Fixpoint find_yenc_header (lines : list bytes) : option (YencHeader * list bytes) :=
  match lines with
  | [] => None
  | line :: lines =>
      if starts_with (bs "=ybegin ") line
      then match parse_yenc_header line with Ok h => Some (h, lines) | Err _ => find_yenc_header lines end
      else find_yenc_header lines
  end.

(** The loop of [validate_yenc_structure]. *)
Fixpoint validate_lines (header : YencHeader) (lines : list bytes) (expected : option N) (checksum : Hasher) (decoded : N)
    : result YencError (option YencFooter * option N * Hasher * N) :=
  match lines with
  | [] => Ok (None, expected, checksum, decoded)
  | line :: lines =>
      match classify_yenc_line line, expected with
      | YPart, None =>
          if is_multipart header then
            size ← parse_part_size line (expected_size header);
            validate_lines header lines (Some size) checksum decoded
          else Err UnexpectedPart
      | YPart, Some _ => Err UnexpectedPart
      | YEnd, _ => Ok (Some (parse_yenc_footer line (is_multipart header)), expected, checksum, decoded)
      | YData, None => Err MissingPart
      | YData, Some _ =>
          let '(n, checksum) := decode_and_checksum line checksum in
          if (decoded + n <=? u64_max)%N then validate_lines header lines expected checksum (decoded + n)
          else Err DecodedSizeOverflow
      end
  end.

Definition validate_yenc_structure (body : bytes) : result YencError unit :=
  '(header, lines) ← ok_or MissingBegin (find_yenc_header (yenc_lines [] body));
  '(footer, expected, checksum, decoded) ←
    validate_lines header lines (if is_multipart header then None else Some (expected_size header)) hasher_new 0;
  footer ← ok_or MissingEnd footer;
  expected ← ok_or MissingPart expected;
  if negb (bool_decide (footer_size footer = Some expected)) || negb (decoded =? expected)%N
  then Err (SizeMismatch expected (footer_size footer) decoded)
  else validate_checksum footer checksum.
End Yenc.

(** [Article::decode_into] on the body ([src/src/protocol/article/mod.rs]): [None] when
    it is not yEnc. *)
Fixpoint split_lf (line body : bytes) : list bytes :=
  match body with
  | [] => [line]
  | b :: body => if Byte.eqb b LF then line :: split_lf [] body else split_lf (line ++ [b]) body
  end.

Fixpoint skip_while {A} (p : A → bool) (l : list A) : list A :=
  match l with
  | [] => []
  | x :: l' => if p x then skip_while p l' else l
  end.

Fixpoint take_while {A} (p : A → bool) (l : list A) : list A :=
  match l with
  | [] => []
  | x :: l => if p x then x :: take_while p l else []
  end.

Definition decode_body (body : bytes) : option bytes :=
  if starts_with (bs "=ybegin") body then
    Some (concat (decode_yenc_line <$>
      take_while (λ l, negb (starts_with (bs "=yend ") l))
        (skip_while (starts_with (bs "=ypart "))
          ((λ l, default l (strip_suffix [CR] l)) <$> drop 1 (split_lf [] body)))))
  else None.

Example ieee_crc32_check : crc32_hash (Crc32 := ieee_crc32) (bs "123456789") = 0xCBF43926%N.
Proof. by vm_compute. Qed.

(** ** Text facts *)

#[global] Instance ieee_crc32_spec : Crc32Spec ieee_crc32.
Proof.
  split. cbn. intros chunks. f_equal. generalize 0xFFFFFFFF%N as c.
  induction chunks as [|x chunks IH]; intros c; [done|]. cbn. by rewrite foldl_app, IH.
Qed.

(** Well-formed text is taken as it is. *)
Lemma from_utf8_lossy_valid n l : length l ≤ n → utf8_valid l = true → concat (from_utf8_lossy l) = l.
Proof.
  revert l. induction n as [|n IH]; intros l; [by destruct l; [|cbn; lia]|].
  destruct l as [|b0 l]; [done|]. cbn [utf8_valid from_utf8_lossy length]. intros Hn.
  destruct (byte_in x00 x7f b0); [intros H; cbn; by rewrite IH by (done || lia)|].
  destruct (byte_in xc2 xdf b0).
  { destruct l as [|b1 l]; [done|]. intros H. reflect_bools. rewrite H. cbn in *. by rewrite IH by (done || lia). }
  destruct (byte_in xe0 xef b0).
  { destruct l as [|b1 [|b2 l]]; [done..|]. intros H. reflect_bools. rewrite H, H1. cbn in *. by rewrite IH by (done || lia). }
  destruct (byte_in xf0 xf4 b0); [|done].
  destruct l as [|b1 [|b2 [|b3 l]]]; [done..|]. intros H. reflect_bools. rewrite H, H2, H1. cbn in *. by rewrite IH by (done || lia).
Qed.

Lemma starts_with_true p l : starts_with p l = true ↔ p `prefix_of` l.
Proof. apply bool_decide_eq_true. Qed.

Lemma prefix_other_head (x y : byte) p l : x ≠ y → ¬ x :: p `prefix_of` y :: l.
Proof. intros Hne Hp. by apply prefix_cons_inv_1 in Hp. Qed.

Lemma starts_with_other_head x y p l : x ≠ y → starts_with (x :: p) (y :: l) = false.
Proof. intros Hne. apply bool_decide_eq_false. by apply prefix_other_head. Qed.

Lemma starts_with_app p l r : length p ≤ length l → starts_with p (l ++ r) = starts_with p l.
Proof.
  intros H. apply bool_decide_ext. pose proof (match_at_app_l p l r 0 H) as Hm. unfold match_at in Hm. by rewrite !drop_0 in Hm.
Qed.

Lemma strip_suffix_app s l : strip_suffix s (l ++ s) = Some l.
Proof.
  unfold strip_suffix. rewrite decide_True by (by exists l). rewrite length_app, Nat.add_sub, take_app_length. done.
Qed.

Lemma strip_suffix_not s l : ¬ s `suffix_of` l → strip_suffix s l = None.
Proof. intros H. unfold strip_suffix. by rewrite decide_False. Qed.

Lemma parse_u64_bound s v : parse_u64 s = Some v → (v <= u64_max)%N.
Proof.
  unfold parse_u64. generalize match s with x2b :: s => s | _ => s end as digits. intros digits.
  destruct (_ && _); [|done]. destruct (N.leb_spec (foldl (λ v b, (v * 10 + digit_value b)%N) 0%N digits) u64_max); [|done]. by intros [= <-].
Qed.

(** ** The encoding *)

(** [u8::wrapping_add] *)
Definition wrapping_add (b : byte) (k : N) : byte := default x00 (Byte.of_N ((Byte.to_N b + k) mod 256)).

(** The critical characters, which an encoder has to escape. *)
Definition critical (b : byte) : Prop := b = x00 ∨ b = x0a ∨ b = x0d ∨ b = x3d.

(** The encodings of [data] on a line according to the yEnc specification: every
    byte plus 42, escaped where that is a critical character and, as the encoder
    likes, elsewhere; [=y] is reserved for metadata lines. *)
Inductive encodes : bytes → bytes → Prop :=
| encodes_nil : encodes [] []
| encodes_plain b data l :
    ¬ critical (wrapping_add b 42) → encodes data l → encodes (b :: data) (wrapping_add b 42 :: l)
| encodes_escaped b data l :
    let e := wrapping_add (wrapping_add b 42) 64 in
    ¬ critical e → e ≠ x79 → encodes data l → encodes (b :: data) (x3d :: e :: l).

(** Dot stuffing of a line on the wire. *)
Definition stuff (l : bytes) : bytes := match l with x2e :: _ => x2e :: l | _ => l end.

Lemma wrapping_add_sub b : wrapping_sub (wrapping_add b 42) 42 = b.
Proof. by destruct b. Qed.

Lemma wrapping_add_sub64 b : wrapping_sub (wrapping_add b 64) 64 = b.
Proof. by destruct b. Qed.

Lemma decode_plain b l : ¬ critical b → decode_escapes (b :: l) = wrapping_sub b 42 :: decode_escapes l.
Proof. unfold critical. intros H. destruct b; first [done | exfalso; apply H; by eauto]. Qed.

Lemma decode_escapes_encodes data l : encodes data l → decode_escapes l = data.
Proof.
  induction 1 as [|b data l Hc _ IH|b data l e He _ _ IH]; [done|..].
  - rewrite decode_plain by done. by rewrite wrapping_add_sub, IH.
  - cbn [decode_escapes]. unfold e. by rewrite wrapping_add_sub64, wrapping_add_sub, IH.
Qed.

Lemma encodes_clean data l : encodes data l → Forall (λ b, b ≠ x00 ∧ b ≠ x0a ∧ b ≠ x0d) l ∧ ¬ bs "=y" `prefix_of` l.
Proof.
  induction 1 as [|b data l Hc _ [IH _]|b data l e He Hy _ [IH _]].
  - split; [done|]. by intros [? Hx].
  - split; [constructor; [|done]; split_and!; intros Hx; apply Hc; rewrite Hx; unfold critical; by eauto|].
    intros [x Hx]. apply Hc. apply (f_equal (hd x00)) in Hx. change (wrapping_add b 42 = x3d) in Hx. rewrite Hx. unfold critical. by eauto.
  - split; [repeat (constructor; [|done || constructor; [|done]]); [done|split_and!; intros Hx; apply He; rewrite Hx; unfold critical; by eauto]|].
    intros [x Hx]. apply Hy. by apply (f_equal (λ l, hd x00 (tail l))) in Hx.
Qed.

Lemma decode_stuffed data l : encodes data l → decode_yenc_line (stuff l) = data.
Proof.
  intros H. apply decode_escapes_encodes in H. unfold decode_yenc_line, stuff. destruct l as [|b l]; [done|].
  destruct (decide (b = x2e)) as [->|Hb]; [by rewrite (proj2 (starts_with_true _ _)) by by exists l|].
  replace (match b with x2e => x2e :: b :: l | _ => b :: l end) with (b :: l) by (by destruct b).
  change (bs "..") with [x2e; x2e]. by rewrite starts_with_other_head by done.
Qed.

Lemma stuff_clean data l : encodes data l → Forall (λ b, b ≠ x00 ∧ b ≠ x0a ∧ b ≠ x0d) (stuff l) ∧ ¬ bs "=y" `prefix_of` stuff l.
Proof.
  intros [Hc Hy]%encodes_clean. unfold stuff. destruct l as [|b l]; [done|]. destruct (decide (b = x2e)) as [->|Hb].
  - split; [by constructor|]. by apply prefix_other_head.
  - by replace (match b with x2e => x2e :: b :: l | _ => b :: l end) with (b :: l) by (by destruct b).
Qed.

(** ** Lines *)

(** A line with its end. *)
Definition is_line (l : bytes) : Prop := ∃ x, l = x ++ [LF] ∧ LF ∉ x.

Lemma yenc_lines_line x line rest : LF ∉ x → yenc_lines line (x ++ LF :: rest) = (line ++ x ++ [LF]) :: yenc_lines [] rest.
Proof.
  revert line. induction x as [|b x IH]; intros line Hx; [done|]. apply not_elem_of_cons in Hx as [Hb Hx].
  cbn [app yenc_lines]. rewrite (proj2 (byte_eqb_neq b LF)) by done. rewrite IH by done. by rewrite <- app_assoc.
Qed.

Lemma split_lf_line x line rest : LF ∉ x → split_lf line (x ++ LF :: rest) = (line ++ x) :: split_lf [] rest.
Proof.
  revert line. induction x as [|b x IH]; intros line Hx; [cbn; by rewrite app_nil_r|]. apply not_elem_of_cons in Hx as [Hb Hx].
  cbn [app split_lf]. rewrite (proj2 (byte_eqb_neq b LF)) by done. rewrite IH by done. by rewrite <- app_assoc.
Qed.

Lemma yenc_lines_app lines rest : Forall is_line lines → yenc_lines [] (concat lines ++ rest) = lines ++ yenc_lines [] rest.
Proof.
  induction 1 as [|l lines (x & -> & Hx) _ IH]; [done|]. cbn [concat]. rewrite <- !app_assoc. cbn [app].
  rewrite yenc_lines_line by done. by rewrite IH.
Qed.

Lemma yenc_lines_concat line body : concat (yenc_lines line body) = line ++ body.
Proof.
  revert line. induction body as [|b body IH]; intros line; cbn [yenc_lines]; [by destruct line; cbn; rewrite ?app_nil_r|].
  destruct (Byte.eqb b LF); cbn; rewrite IH, <- ?app_assoc; done.
Qed.

(** Every line but the last one has its end. *)
Lemma yenc_lines_ended line body lines l rest :
  LF ∉ line → yenc_lines line body = lines ++ l :: rest → Forall is_line lines.
Proof.
  revert line lines. induction body as [|b body IH]; intros line lines Hl; cbn [yenc_lines].
  { destruct line, lines as [|? [|]]; intros; by simplify_eq/=. }
  destruct (Byte.eqb b LF) eqn:Eb; [apply byte_eqb_eq in Eb as ->|apply byte_eqb_neq in Eb].
  - destruct lines as [|l' lines]; intros [= <- H]; [done|]. constructor; [by exists line|]. by apply (IH []); [apply not_elem_of_nil|].
  - apply IH. apply not_elem_of_app. split; [done|]. intros E%list_elem_of_singleton. by apply Eb.
Qed.

(** The decoder strips the ends of lines as the validator does. *)
Definition chomp (x : bytes) : bytes := default x (strip_suffix [CR] x).

Lemma line_data_line x : line_data (x ++ [LF]) = decode_yenc_line (chomp x).
Proof.
  unfold line_data, chomp. f_equal. unfold strip_suffix at 3. destruct (decide ([CR] `suffix_of` x)) as [[y ->]|Hx].
  - rewrite <- app_assoc. change ([CR] ++ [LF]) with CRLF. rewrite strip_suffix_app. cbn. by rewrite length_app, Nat.add_sub, take_app_length.
  - rewrite (strip_suffix_not CRLF), strip_suffix_app; [done|]. intros [y Hy]. apply Hx. exists y.
    change CRLF with ([CR] ++ [LF]) in Hy. rewrite app_assoc in Hy. by apply app_inj_tail in Hy as [-> _].
Qed.

(** Whether a line is a metadata line does not depend on its end. *)
Lemma starts_with_chomp p x : bool_decide (CR ∉ p ∧ LF ∉ p) = true → starts_with p (chomp x) = starts_with p (x ++ [LF]).
Proof.
  intros [HC HL]%bool_decide_eq_true. apply bool_decide_ext.
  assert (∀ y e, e ∉ p → p `prefix_of` y ++ [e] ↔ p `prefix_of` y) as H.
  { intros y e He. split; [|by intros; apply prefix_app_r]. intros [z Hz]. destruct z as [|a z _] using rev_ind.
    - destruct He. rewrite app_nil_r in Hz. rewrite <- Hz. apply elem_of_app. right. by apply list_elem_of_singleton.
    - rewrite app_assoc in Hz. apply app_inj_tail in Hz as [-> _]. by exists z. }
  rewrite H by done. unfold chomp, strip_suffix. destruct (decide ([CR] `suffix_of` x)) as [[y ->]|Hx]; [|done].
  cbn. rewrite length_app, Nat.add_sub, take_app_length. by rewrite H.
Qed.

Lemma classify_chomp x :
  classify_yenc_line (x ++ [LF]) = if starts_with (bs "=ypart ") (chomp x) then YPart else if starts_with (bs "=yend ") (chomp x) then YEnd else YData.
Proof. unfold classify_yenc_line. by rewrite !starts_with_chomp by (by vm_compute). Qed.

(** ** Validation *)

Section YencFacts.
Context {H32 : Crc32} {HS : Crc32Spec H32}.

(** The line that the validator takes for the header. *)
Definition usable_header (l : bytes) (h : YencHeader) : Prop := bs "=ybegin " `prefix_of` l ∧ parse_yenc_header l = Ok h.

(** The part lines and the size they announce. *)
Definition announces (h : YencHeader) (parts : list bytes) (size : N) : Prop :=
  if is_multipart h
  then ∃ l, parts = [l] ∧ classify_yenc_line l = YPart ∧ parse_part_size l (expected_size h) = Ok size
  else parts = [] ∧ size = expected_size h.

(** The footer confirms the size and, if it has one, the checksum. *)
Definition confirms (h : YencHeader) (footer : bytes) (size : N) (data : bytes) : Prop :=
  classify_yenc_line footer = YEnd ∧
  footer_size (parse_yenc_footer footer (is_multipart h)) = Some size ∧
  (∀ crc, footer_crc32 (parse_yenc_footer footer (is_multipart h)) = Some crc → crc32_hash data = crc).

(** The lines start with a complete yEnc part that carries [data]. *)
Definition yenc_part (lines : list bytes) (data : bytes) : Prop :=
  ∃ l h parts body footer rest,
    lines = l :: parts ++ body ++ footer :: rest ∧ usable_header l h ∧
    Forall (λ l, classify_yenc_line l = YData) body ∧ data = concat (line_data <$> body) ∧
    announces h parts (N.of_nat (length data)) ∧ confirms h footer (N.of_nat (length data)) data.

Lemma find_yenc_header_Some lines h rest :
  find_yenc_header lines = Some (h, rest) ↔
  ∃ skipped l, lines = skipped ++ l :: rest ∧ Forall (λ l, ∀ h, ¬ usable_header l h) skipped ∧ usable_header l h.
Proof.
  unfold usable_header. induction lines as [|l lines IH]; cbn [find_yenc_header].
  { split; [done|]. by intros ([|] & ? & ? & _). }
  assert (∀ o, (∀ h', ¬ (bs "=ybegin " `prefix_of` l ∧ parse_yenc_header l = Ok h')) → find_yenc_header lines = o →
    (o = Some (h, rest) ↔ ∃ skipped l', l :: lines = skipped ++ l' :: rest ∧
      Forall (λ l, ∀ h, ¬ (bs "=ybegin " `prefix_of` l ∧ parse_yenc_header l = Ok h)) skipped ∧ bs "=ybegin " `prefix_of` l' ∧ parse_yenc_header l' = Ok h)) as Hskip.
  { intros o Hn <-. rewrite IH. split.
    - intros (skipped & l' & -> & Hs & Hl). exists (l :: skipped), l'. split; [done|]. split; [by constructor|done].
    - intros ([|x skipped] & l' & [= -> ->] & Hs & Hl); [by destruct (Hn h)|]. apply Forall_cons in Hs as [_ Hs]. eauto 10. }
  destruct (starts_with (bs "=ybegin ") l) eqn:Es.
  2: { apply Hskip; [|done]. intros h' [Hp _]. apply starts_with_true in Hp. by rewrite Hp in Es. }
  apply starts_with_true in Es. destruct (parse_yenc_header l) as [h'|e] eqn:Ep; [|apply Hskip; [|done]; intros h' [_ [=]]].
  split.
  - intros [= -> ->]. by exists [], l.
  - intros ([|x skipped] & l' & [= -> ->] & Hs & Hl & Hl'); [congruence|]. apply Forall_cons in Hs as [Hs _]. by destruct (Hs h').
Qed.

(** Data lines are decoded one after the other. *)
Lemma validate_data_lines h body rest size checksum n :
  Forall (λ l, classify_yenc_line l = YData) body → (n + N.of_nat (length (concat (line_data <$> body))) <= u64_max)%N →
  validate_lines h (body ++ rest) (Some size) checksum n =
    validate_lines h rest (Some size) (foldl hasher_update checksum (line_data <$> body)) (n + N.of_nat (length (concat (line_data <$> body)))).
Proof.
  intros Hb. revert checksum n. induction Hb as [|l body Hl _ IH]; intros checksum n; cbn [app fmap list_fmap concat foldl].
  { intros _. cbn. by rewrite N.add_0_r. }
  cbn [validate_lines]. rewrite Hl, length_app, Nnat.Nat2N.inj_add, N.add_assoc. intros Hn. unfold decode_and_checksum.
  rewrite (proj2 (N.leb_le _ _)) by lia. by rewrite IH.
Qed.

Lemma validate_lines_inv h lines size checksum n f e checksum' n' :
  validate_lines h lines (Some size) checksum n = Ok (Some f, e, checksum', n') →
  ∃ body footer rest, lines = body ++ footer :: rest ∧ Forall (λ l, classify_yenc_line l = YData) body ∧
    classify_yenc_line footer = YEnd ∧ f = parse_yenc_footer footer (is_multipart h) ∧ e = Some size ∧
    checksum' = foldl hasher_update checksum (line_data <$> body) ∧ n' = (n + N.of_nat (length (concat (line_data <$> body))))%N.
Proof.
  revert checksum n. induction lines as [|l lines IH]; intros checksum n; [done|]. cbn [validate_lines].
  destruct (classify_yenc_line l) eqn:El; [done| |].
  - intros [= <- <- <- <-]. exists [], l, lines. cbn. by rewrite N.add_0_r.
  - unfold decode_and_checksum. destruct (N.leb_spec (n + N.of_nat (length (line_data l))) u64_max); [|done].
    intros (body & footer & rest & -> & Hb & ? & ? & ? & -> & ->)%IH. exists (l :: body), footer, rest.
    split_and!; try done; [by constructor|]. cbn. rewrite length_app. lia.
Qed.

(** The lines behind the header: the part line of a multipart file, then the data. *)
Definition initial_size (h : YencHeader) : option N := if is_multipart h then None else Some (expected_size h).

Lemma announces_bound h parts size l : usable_header l h → announces h parts size → (size <= u64_max)%N.
Proof.
  intros [_ Hp]. unfold announces. unfold parse_yenc_header in Hp.
  destruct (extract_param l (bs "size") ≫= parse_u64) as [v|] eqn:Ev; [|done]. injection Hp as <-. cbn.
  apply bind_Some in Ev as (s & _ & Hv%parse_u64_bound). destruct (bool_decide _); [|by intros [_ ->]].
  intros (p & _ & _ & Hr). unfold parse_part_size in Hr. do 2 (destruct (_ ≫= parse_u64); [|done]). case_match; [|done].
  reflect_bools. simplify_eq. lia.
Qed.

Lemma validate_announced h parts rest size checksum :
  announces h parts size → validate_lines h (parts ++ rest) (initial_size h) checksum 0 = validate_lines h rest (Some size) checksum 0.
Proof.
  unfold announces, initial_size. destruct (is_multipart h) eqn:Em; [|by intros [-> ->]]. intros (l & -> & Hl & Hs).
  cbn [app validate_lines]. by rewrite Hl, Em, Hs.
Qed.

Lemma validate_announced_inv h lines f e checksum n checksum' :
  validate_lines h lines (initial_size h) checksum 0 = Ok (Some f, Some e, checksum', n) →
  ∃ parts rest size, lines = parts ++ rest ∧ announces h parts size ∧ validate_lines h rest (Some size) checksum 0 = Ok (Some f, Some e, checksum', n).
Proof.
  unfold initial_size, announces. destruct (is_multipart h) eqn:Em; [|intros; by exists [], lines, (expected_size h)].
  destruct lines as [|l lines]; [done|]. cbn [validate_lines]. rewrite Em. destruct (classify_yenc_line l) eqn:El; [|done..].
  destruct (parse_part_size l (expected_size h)) as [size|] eqn:Es; [|done]. intros H. exists [l], lines, size. eauto 10.
Qed.

Lemma yenc_part_valid body :
  (∃ skipped lines data, yenc_lines [] body = skipped ++ lines ∧ Forall (λ l, ∀ h, ¬ usable_header l h) skipped ∧ yenc_part lines data) →
  validate_yenc_structure body = Ok ().
Proof.
  unfold validate_yenc_structure, yenc_part.
  intros (skipped & lines & data & Hlines & Hs & (l & h & parts & rows & footer & rest & -> & Hl & Hd & -> & Ha & Hf & Hsize & Hcrc)).
  rewrite (proj2 (find_yenc_header_Some _ h (parts ++ rows ++ footer :: rest))) by eauto 10. cbn [ok_or mbind result_bind]. fold (initial_size h).
  rewrite (validate_announced _ _ _ _ _ Ha), validate_data_lines by (done || rewrite N.add_0_l; by eapply announces_bound).
  cbn [validate_lines]. rewrite Hf. cbn [ok_or mbind result_bind].
  rewrite bool_decide_true, N.add_0_l, N.eqb_refl by done. cbn [negb orb]. unfold validate_checksum.
  destruct (footer_crc32 _) as [crc|]; [|done]. rewrite crc32_spec, (Hcrc crc), N.eqb_refl by done. done.
Qed.

End YencFacts.

(** ** Decoding a validated body *)

Lemma split_lf_lines lines rest :
  Forall is_line lines → ∃ xs, lines = (λ x, x ++ [LF]) <$> xs ∧ split_lf [] (concat lines ++ rest) = xs ++ split_lf [] rest.
Proof.
  induction 1 as [|l lines (x & -> & Hx) _ (xs & -> & IH)]; [by exists []|]. exists (x :: xs). split; [done|].
  cbn [concat]. rewrite <- !app_assoc. cbn [app]. rewrite split_lf_line by done. by rewrite IH.
Qed.

Lemma split_lf_prefix p line u : p `prefix_of` line → ∃ x pieces, split_lf line u = x :: pieces ∧ p `prefix_of` x.
Proof.
  revert line. induction u as [|b u IH]; intros line Hp; cbn [split_lf]; [eauto|].
  destruct (Byte.eqb b LF); [eauto|]. apply IH. by apply prefix_app_r.
Qed.

(** The first piece of what starts with a footer is that footer. *)
Lemma split_lf_footer r :
  bs "=yend " `prefix_of` r → ∃ x pieces, split_lf [] r = x :: pieces ∧ starts_with (bs "=yend ") (chomp x) = true ∧ starts_with (bs "=ypart ") (chomp x) = false.
Proof.
  intros [u ->]. change (split_lf [] (bs "=yend " ++ u)) with (split_lf (bs "=yend ") u).
  destruct (split_lf_prefix (bs "=yend ") (bs "=yend ") u) as (x & pieces & -> & [y ->]); [done|].
  exists (bs "=yend " ++ y), pieces. rewrite !starts_with_chomp by (by vm_compute). split; [done|]. split; [by apply starts_with_true; exists (y ++ [LF]); rewrite app_assoc|].
  apply bool_decide_eq_false. intros [? [=]].
Qed.

Lemma skip_while_data (f : bytes) xs rest :
  Forall (λ x, starts_with (bs "=ypart ") (chomp x) = false) (xs ++ [f]) →
  skip_while (starts_with (bs "=ypart ")) (chomp <$> (xs ++ f :: rest)) = chomp <$> (xs ++ f :: rest).
Proof.
  rewrite Forall_app, Forall_singleton. intros [Hx Hf]. destruct Hx as [|x xs Hx _]; cbn [app fmap list_fmap skip_while]; by rewrite ?Hf, ?Hx.
Qed.

Lemma take_while_data xs f rest :
  Forall (λ x, starts_with (bs "=yend ") (chomp x) = false) xs → starts_with (bs "=yend ") (chomp f) = true →
  take_while (λ l, negb (starts_with (bs "=yend ") l)) (chomp <$> (xs ++ f :: rest)) = chomp <$> xs.
Proof.
  intros Hx Hf. induction Hx as [|x xs Hx _ IH]; cbn [app fmap list_fmap take_while]; [by rewrite Hf|]. rewrite Hx. cbn [negb]. f_equal. exact IH.
Qed.

Lemma classify_data x :
  classify_yenc_line (x ++ [LF]) = YData ↔ starts_with (bs "=ypart ") (chomp x) = false ∧ starts_with (bs "=yend ") (chomp x) = false.
Proof. rewrite classify_chomp. split; [by repeat case_match|]. by intros [-> ->]. Qed.

Section Decoding.
Context {H32 : Crc32} {HS : Crc32Spec H32}.

(** The decoder reads the part that starts with the first line. *)
Lemma part_decodes body data : yenc_part (yenc_lines [] body) data → decode_body body = Some data.
Proof.
  intros (l & h & parts & rows & footer & rest & Hlines & [[u Hl] _] & Hd & -> & Ha & Hf & _).
  assert (Forall is_line (l :: parts ++ rows)) as Hended.
  { apply (yenc_lines_ended [] body _ footer rest); [apply not_elem_of_nil|]. rewrite Hlines. cbn. by rewrite <- app_assoc. }
  assert (body = concat (l :: parts ++ rows) ++ footer ++ concat rest) as Hbody.
  { pose proof (yenc_lines_concat [] body) as Hc. rewrite Hlines in Hc. cbn in Hc. rewrite !concat_app in Hc. cbn in *.
    by rewrite concat_app, <- !app_assoc. }
  unfold decode_body. rewrite (proj2 (starts_with_true _ body)).
  2: { rewrite Hbody. cbn [concat]. rewrite Hl, <- !app_assoc. by exists (bs " " ++ u ++ concat (parts ++ rows) ++ footer ++ concat rest). }
  f_equal. destruct (split_lf_lines _ (footer ++ concat rest) Hended) as (xs & Hxs & Hsplit). rewrite Hbody, Hsplit.
  assert (bs "=yend " `prefix_of` footer ++ concat rest) as Hend.
  { apply prefix_app_r. unfold classify_yenc_line in Hf. repeat case_match; try done. by apply starts_with_true. }
  destruct (split_lf_footer _ Hend) as (f & pieces & -> & Hfe & Hfp).
  destruct xs as [|x0 xs]; [done|]. injection Hxs as _ Hxs. cbn [app drop]. rewrite drop_0.
  change (λ l, default l (strip_suffix [CR] l)) with chomp. symmetry in Hxs. apply fmap_app_inv in Hxs as (ps & ds & Hps & Hds & ->). symmetry in Hds, Hps. subst rows.
  rewrite Forall_fmap in Hd. assert (Forall (λ x, starts_with (bs "=ypart ") (chomp x) = false ∧ starts_with (bs "=yend ") (chomp x) = false) ds) as Hds.
  { eapply Forall_impl; [exact Hd|]. intros x Hx. by apply classify_data. }
  assert (skip_while (starts_with (bs "=ypart ")) (chomp <$> ((ps ++ ds) ++ f :: pieces)) = chomp <$> (ds ++ f :: pieces)) as ->.
  { rewrite <- app_assoc. assert (skip_while (starts_with (bs "=ypart ")) (chomp <$> (ds ++ f :: pieces)) = chomp <$> (ds ++ f :: pieces)) as Hskip.
    { apply skip_while_data, Forall_app. split; [|by constructor]. eapply Forall_impl; [exact Hds|]. by intros x [? _]. }
    unfold announces in Ha. destruct (is_multipart h); [|destruct Ha as [-> _]; by destruct ps].
    destruct Ha as (p & -> & Hp & _). destruct ps as [|x [|]]; try done. injection Hps as <-. rewrite classify_chomp in Hp.
    cbn [app fmap list_fmap skip_while]. destruct (starts_with (bs "=ypart ") (chomp x)); [done|]. by destruct (starts_with _ _). }
  rewrite take_while_data; [|eapply Forall_impl; [exact Hds|]; by intros x [_ ?]|done].
  rewrite <- !list_fmap_compose. f_equal. apply list_fmap_ext. intros i x _. symmetry. apply line_data_line.
Qed.

(** A row of an encoded file: its data, the encoded line and its line end. *)
Record Row := mkRow { row_data : bytes; row_line : bytes; row_end : bytes }.

Definition row_ok (r : Row) : Prop := encodes (row_data r) (row_line r) ∧ (row_end r = CRLF ∨ row_end r = [LF]).

(** The row on the wire. *)
Definition row_wire (r : Row) : bytes := stuff (row_line r) ++ row_end r.

Lemma row_wire_spec r : row_ok r → is_line (row_wire r) ∧ classify_yenc_line (row_wire r) = YData ∧ line_data (row_wire r) = row_data r.
Proof.
  destruct r as [d l e]. unfold row_ok, row_wire. cbn [row_data row_line row_end]. intros [He Hend]. pose proof (stuff_clean _ _ He) as [Hc Hy]. apply decode_stuffed in He.
  set (s := stuff l) in *. assert (LF ∉ s ∧ CR ∉ s) as [HL HC] by (rewrite Forall_forall in Hc; split; intros Hin; by apply Hc in Hin as (_ & ? & ?)).
  assert (∃ x, s ++ e = x ++ [LF] ∧ LF ∉ x ∧ chomp x = s) as (x & -> & Hx & Hchomp).
  { destruct Hend as [->| ->].
    - exists (s ++ [CR]). change CRLF with ([CR] ++ [LF]). rewrite app_assoc. split; [done|]. split; [|unfold chomp; by rewrite strip_suffix_app].
      apply not_elem_of_app. split; [done|]. by intros E%list_elem_of_singleton.
    - exists s. split; [done|]. split; [done|]. unfold chomp. rewrite strip_suffix_not; [done|]. intros [y E]. apply HC. rewrite E.
      apply elem_of_app. right. by apply list_elem_of_singleton. }
  split; [by exists x|]. rewrite line_data_line, classify_data, Hchomp, He. split; [|done].
  split; apply bool_decide_eq_false; intros Hp; apply Hy; (etrans; [|exact Hp]); by eexists.
Qed.

(** The lines that an encoder writes: header, part lines, rows, and then what starts
    with the footer. *)
Definition encoded_body (l : bytes) (parts : list bytes) (rows : list Row) (end_ : bytes) : bytes :=
  concat (l :: parts ++ (row_wire <$> rows)) ++ end_.

(** They announce the data of their rows. *)
Record encoded (l : bytes) (parts : list bytes) (rows : list Row) (end_ data : bytes) : Prop := {
  enc_data : data = concat (row_data <$> rows);
  enc_rows : Forall row_ok rows;
  enc_lines : is_line l ∧ Forall is_line parts;
  enc_metadata : ∃ h footer more, usable_header l h ∧ announces h parts (N.of_nat (length data)) ∧
    yenc_lines [] end_ = footer :: more ∧ confirms h footer (N.of_nat (length data)) data }.

Lemma encoded_part l parts rows end_ data :
  encoded l parts rows end_ data → yenc_part (yenc_lines [] (encoded_body l parts rows end_)) data.
Proof.
  intros [-> Hr [Hl Hp] (h & footer & more & Hh & Ha & He & Hc)].
  assert (Forall (λ r, is_line (row_wire r) ∧ classify_yenc_line (row_wire r) = YData ∧ line_data (row_wire r) = row_data r) rows) as Hrows
    by (eapply Forall_impl; [exact Hr|]; apply row_wire_spec).
  unfold encoded_body. rewrite yenc_lines_app.
  - rewrite He. exists l, h, parts, (row_wire <$> rows), footer, more. cbn [app]. rewrite <- !app_assoc. split_and!; try done.
    + apply Forall_fmap. eapply Forall_impl; [exact Hrows|]. by intros r (_ & ? & _).
    + rewrite <- list_fmap_compose. f_equal. apply list_fmap_ext. intros i r Hi. symmetry. eapply Forall_lookup_1 in Hrows; [|done]. apply Hrows.
  - constructor; [done|]. rewrite !Forall_app. split; [done|]. apply Forall_fmap. eapply Forall_impl; [exact Hrows|]. by intros r (? & _).
Qed.

Lemma encoded_valid l parts rows end_ data :
  encoded l parts rows end_ data → validate_yenc_structure (encoded_body l parts rows end_) = Ok ().
Proof. intros H%encoded_part. apply yenc_part_valid. exists []. eauto. Qed.

(** C18 A file that any encoder has written is accepted and decoded exactly: whatever the
    data, the lengths of its rows, the bytes escaped without need and the line ends,
    with dots stuffed on the wire, behind any header and part lines that announce the
    size of the data and before any footer that repeats it with the right checksum
    or none. *)
Theorem yenc_roundtrip l parts rows end_ data :
  encoded l parts rows end_ data →
  validate_yenc_structure (encoded_body l parts rows end_) = Ok () ∧ decode_body (encoded_body l parts rows end_) = Some data.
Proof. intros H. split; [by apply (encoded_valid _ _ _ _ data)|by apply part_decodes, encoded_part]. Qed.
End Decoding.

(** ** A concrete file *)

(** The encoder that escapes what it has to. *)
Definition encode_byte (b : byte) : bytes :=
  let e := wrapping_add b 42 in
  match e with
  | x00 | x0a | x0d | x3d => [x3d; wrapping_add e 64]
  | _ => [e]
  end.

Definition encode_line (data : bytes) : bytes := concat (encode_byte <$> data).

Lemma encode_line_encodes data : encodes data (encode_line data).
Proof.
  unfold encode_line. induction data as [|b data IH]; [constructor|]. cbn [fmap list_fmap concat]. unfold encode_byte.
  set (e := wrapping_add b 42). assert ((critical e ∧ ¬ critical (wrapping_add e 64) ∧ wrapping_add e 64 ≠ x79 ∧
    match e with x00 | x0a | x0d | x3d => [x3d; wrapping_add e 64] | _ => [e] end = [x3d; wrapping_add e 64]) ∨
    ¬ critical e ∧ match e with x00 | x0a | x0d | x3d => [x3d; wrapping_add e 64] | _ => [e] end = [e]) as [(_ & He & Hy & ->)|[He ->]].
  { unfold critical. destruct e; first [right; split; [by intros [?|[?|[?|?]]]|done] | left; split_and!; try done; [by eauto|by intros [?|[?|[?|?]]]]]. }
  - by apply (encodes_escaped b).
  - by apply (encodes_plain b).
Qed.

Definition sample_data : bytes := [x04; x13; xd6; x41; xe0].
Definition sample_begin : bytes := bs "=ybegin line=128 size=5 name=a b.bin" ++ CRLF.
Definition sample_end : bytes := bs "=yend size=5 crc32=B1627c12" ++ CRLF.
Definition sample_rows : list Row :=
  [mkRow (take 2 sample_data) (encode_line (take 2 sample_data)) CRLF; mkRow (drop 2 sample_data) (encode_line (drop 2 sample_data)) [LF]].

Lemma is_line_compute (l : bytes) : bool_decide (last l = Some LF ∧ LF ∉ removelast l) = true → is_line l.
Proof.
  intros [Hl Hn]%bool_decide_eq_true. exists (removelast l). split; [|done].
  destruct l as [|x l] using rev_ind; [done|]. rewrite last_snoc in Hl. injection Hl as ->. by rewrite removelast_last.
Qed.

Lemma sample_encoded : encoded (H32 := ieee_crc32) sample_begin [] sample_rows sample_end sample_data.
Proof.
  constructor.
  - by vm_compute.
  - repeat (constructor; [split; [apply encode_line_encodes|by eauto]|]). constructor.
  - split; [|constructor]. apply is_line_compute. by vm_compute.
  - exists (mkYencHeader 5 false), sample_end, []. split_and!; [split; [by eexists|by vm_compute]|by vm_compute..|].
    split_and!; [by vm_compute..|]. intros crc. vm_compute. congruence.
Qed.

Lemma yenc_roundtrip_witness :
  validate_yenc_structure (H32 := ieee_crc32) (encoded_body sample_begin [] sample_rows sample_end) = Ok () ∧
  decode_body (encoded_body sample_begin [] sample_rows sample_end) = Some sample_data.
Proof. exact (yenc_roundtrip (H32 := ieee_crc32) sample_begin [] sample_rows sample_end sample_data sample_encoded). Defined.


(** The validator looks for a usable header, the decoder skips the first line: behind
    a damaged header the decoded bytes are not those that were validated. *)
Example decoded_not_validated :
  let body := bs "=ybegin" ++ CRLF ++ sample_begin ++ concat (row_wire <$> sample_rows) ++ sample_end in
  validate_yenc_structure (H32 := ieee_crc32) body = Ok () ∧
  decode_body body = Some (decode_yenc_line (chomp (removelast sample_begin)) ++ sample_data).
Proof. by vm_compute. Qed.
