(* ===== verification/Headers.v ===== *)
(** * Headers: the header block of an article

    Models [src/src/protocol/article/headers.rs]: the validation of a header block,
    lookups and iteration over it, and unfolding.  The loops run over positions as
    in the source; an outer [None] is a panic (a slice whose start is behind its
    end), which the theorems exclude, and fuel is a round more than there are bytes,
    of which every round skips one. *)

From S2P Require Import Prelude Protocol Yenc.

Definition HTAB : byte := x09.
Definition SPACE : byte := x20.

(** The messages of [ParseError::InvalidHeader]. *)
Inductive HeaderError :=
| StartsWithFolding
| MissingColon (line : bytes)
| EmptyHeaderName
| InvalidNameCharacter (name : bytes)
| LfWithoutCr
| CrWithoutLf
| NulInFramedHeader.

Inductive HeaderTransformation := TransformNone | TransformUnfold.

Record Headers := mkHeaders { raw : bytes; transformation : HeaderTransformation }.

(** The loop of [Headers::find_line_end] at index [i], [n] bytes before the end. *)
Fixpoint scan_line_end (data : bytes) (n i : nat) : result HeaderError nat :=
  match n with
  | 0 => Ok (length data)
  | S n =>
      if bool_decide (data !! i = Some LF) then
        if (0 <? i) && bool_decide (data !! (i - 1) = Some CR) then Ok (i - 1) else Err LfWithoutCr
      else if bool_decide (data !! i = Some CR) then
        if (i + 1 <? length data) && bool_decide (data !! (i + 1) = Some LF) then Ok i
        else if length data <=? i + 1 then Ok i
        else Err CrWithoutLf
      else scan_line_end data n (i + 1)
  end.

Definition find_header_line_end (data : bytes) (start : nat) : result HeaderError nat :=
  scan_line_end data (length data - start) start.

(** The line at [pos] and its end, with which every loop starts. *)
Definition header_line_at (data : bytes) (pos : nat) : option (result HeaderError (bytes * nat)) :=
  match find_header_line_end data pos with
  | Err e => Some (Err e)
  | Ok line_end => if pos <=? line_end then Some (Ok (slice pos line_end data, line_end)) else None
  end.

Definition is_wsp (b : byte) : bool := Byte.eqb b SPACE || Byte.eqb b HTAB.

(** A line that continues the previous one; the line is not empty. *)
Definition continuation (line : bytes) : bool := match line with b :: _ => is_wsp b | [] => false end.

Definition skip_wsp (value : bytes) : bytes := skip_while is_wsp value.

Section Headers.
Context {MC : Memchr}.

(** The checks on a line with a header name. *)
Definition validate_field (line : bytes) : result HeaderError unit :=
  match memchr x3a line with
  | None => Err (MissingColon line)
  | Some colon =>
      let name := take colon line in
      if bool_decide (name = []) then Err EmptyHeaderName
      else if existsb (λ b, is_wsp b || negb (byte_in x21 x7e b)) name then Err (InvalidNameCharacter name)
      else Ok ()
  end.

Fixpoint validate_loop (fuel : nat) (data : bytes) (pos : nat) (folded : bool) : option (result HeaderError bool) :=
  if pos <? length data then
    match fuel with
    | 0 => None
    | S fuel =>
        match header_line_at data pos with
        | None => None
        | Some (Err e) => Some (Err e)
        | Some (Ok (line, line_end)) =>
            if bool_decide (line = []) then validate_loop fuel data (line_end + 2) folded
            else if continuation line then
              if pos =? 0 then Some (Err StartsWithFolding) else validate_loop fuel data (line_end + 2) true
            else
              match validate_field line with
              | Err e => Some (Err e)
              | Ok _ => validate_loop fuel data (line_end + 2) folded
              end
        end
    end
  else Some (Ok folded).

Definition validate_headers (data : bytes) : option (result HeaderError bool) := validate_loop (S (length data)) data 0 false.

(** [Headers::validate] and [Headers::parse] *)
Definition headers_validate (data : bytes) : option (result HeaderError HeaderTransformation) :=
  fmap (M := result HeaderError) (λ folded : bool, if folded then TransformUnfold else TransformNone) <$> validate_headers data.

Definition headers_parse (data : bytes) : option (result HeaderError Headers) :=
  fmap (M := result HeaderError) (mkHeaders data) <$> headers_validate data.

(** The value behind the colon, with the white space before it skipped. *)
Definition field_at (colon : nat) (line : bytes) : bytes * bytes := (take colon line, skip_wsp (drop (colon + 1) line)).

Fixpoint get_loop (fuel : nat) (data lookup : bytes) (pos : nat) : option (option bytes) :=
  if pos <? length data then
    match fuel with
    | 0 => None
    | S fuel =>
        match header_line_at data pos with
        | None => None
        | Some (Err _) => Some None
        | Some (Ok (line, line_end)) =>
            if bool_decide (line = []) || continuation line then get_loop fuel data lookup (line_end + 2)
            else
              match memchr x3a line with
              | None => Some None
              | Some colon =>
                  let '(header_name, value) := field_at colon line in
                  if eq_ignore_ascii_case header_name lookup then Some (Some value)
                  else get_loop fuel data lookup (line_end + 2)
              end
        end
    end
  else Some None.

(** [Headers::get] *)
Definition headers_get (h : Headers) (name : bytes) : option (option bytes) := get_loop (S (length (raw h))) (raw h) name 0.

(** [HeaderIter::next]: the item and the new position. *)
Fixpoint header_iter_next (fuel : nat) (data : bytes) (pos : nat) : option (option (bytes * bytes) * nat) :=
  if pos <? length data then
    match fuel with
    | 0 => None
    | S fuel =>
        match header_line_at data pos with
        | None => None
        | Some (Err _) => Some (None, pos)
        | Some (Ok (line, line_end)) =>
            if bool_decide (line = []) || continuation line then header_iter_next fuel data (line_end + 2)
            else
              match memchr x3a line with
              | None => Some (None, pos)
              | Some colon => Some (Some (field_at colon line), line_end + 2)
              end
        end
    end
  else Some (None, pos).

(** [headers.iter().collect()] *)
Fixpoint header_iter_collect (fuel : nat) (data : bytes) (pos : nat) : option (list (bytes * bytes)) :=
  match fuel with
  | 0 => None
  | S fuel =>
      match header_iter_next (S (length data)) data pos with
      | None => None
      | Some (None, _) => Some []
      | Some (Some item, pos) => cons item <$> header_iter_collect fuel data pos
      end
  end.

Definition headers_iter (h : Headers) : option (list (bytes * bytes)) := header_iter_collect (S (length (raw h))) (raw h) 0.
End Headers.

(** Unfolding drops a line end before white space. *)
Fixpoint unfold_continuations (data : bytes) : bytes :=
  match data with
  | [] => []
  | b :: rest =>
      match rest with
      | c :: ((w :: _) as rest2) =>
          if Byte.eqb b CR && Byte.eqb c LF && is_wsp w then unfold_continuations rest2 else b :: unfold_continuations rest
      | _ => b :: unfold_continuations rest
      end
  end.

(** [Headers::unfolded_bytes] *)
Definition unfolded_bytes (h : Headers) : bytes :=
  match transformation h with
  | TransformNone => raw h
  | TransformUnfold => unfold_continuations (raw h)
  end.

(** ** Blocks of lines *)

Definition plain (x : bytes) : Prop := CR ∉ x ∧ LF ∉ x.

(** The lines of a block: each ended by CRLF, but for the last one, which may have
    no end or a lone CR. *)
Inductive header_block : list bytes → bytes → Prop :=
| block_nil : header_block [] []
| block_last x : x ≠ [] → plain x → header_block [x] x
| block_cr x : plain x → header_block [x] (x ++ [CR])
| block_cons x lines data : plain x → header_block lines data → header_block (x :: lines) (x ++ CRLF ++ data).

(** A line with a header name. *)
Definition field (line name value : bytes) : Prop :=
  line = name ++ x3a :: value ∧ name ≠ [] ∧ Forall (λ b, byte_in x21 x7e b = true ∧ b ≠ x3a) name.

(** The lines that validation admits; only a first line cannot be a continuation. *)
Definition line_ok (first : bool) (line : bytes) : Prop :=
  line = [] ∨ (continuation line = true ∧ first = false) ∨ ∃ name value, field line name value.

Fixpoint lines_ok (first : bool) (lines : list bytes) : Prop :=
  match lines with
  | [] => True
  | line :: lines => line_ok first line ∧ lines_ok false lines
  end.

(** Where the first line ends. *)
Lemma line_cut (s : bytes) :
  ∃ x rest, s = x ++ rest ∧ plain x ∧ match rest with [] => True | b :: _ => b = CR ∨ b = LF end.
Proof.
  induction s as [|b s (x & rest & -> & [HC HL] & Hr)].
  { exists [], []. split_and!; [done| |done]. split; apply not_elem_of_nil. }
  destruct (decide (b = CR ∨ b = LF)) as [Hb|Hb].
  - exists [], (b :: x ++ rest). split_and!; [done| |done]. split; apply not_elem_of_nil.
  - exists (b :: x), rest. split_and!; [done| |done]. split; apply not_elem_of_cons; naive_solver.
Qed.

Lemma scan_plain data n i x rest :
  drop i data = x ++ rest → plain x → n = length (x ++ rest) →
  scan_line_end data n i = scan_line_end data (length rest) (i + length x).
Proof.
  revert n i. induction x as [|b x IH]; intros n i Hd [HC HL] Hn; [cbn in *; subst n; by rewrite Nat.add_0_r|].
  apply not_elem_of_cons in HC as [HC HC'], HL as [HL HL']. subst n. cbn [app length scan_line_end].
  assert (data !! i = Some b) as Hb by (rewrite <- (Nat.add_0_r i), <- lookup_drop, Hd; done).
  rewrite Hb, !bool_decide_false by congruence. rewrite (IH (length (x ++ rest)) (i + 1)); [f_equal; lia| |done|done].
  rewrite <- drop_drop, Hd. done.
Qed.

Lemma find_line_end_spec pre x rest :
  plain x → last pre ≠ Some CR → match rest with [] => True | b :: _ => b = CR ∨ b = LF end →
  find_header_line_end (pre ++ x ++ rest) (length pre) =
    match rest with
    | [] => Ok (length pre + length x)
    | b :: rest =>
        if decide (b = LF) then Err LfWithoutCr
        else match rest with [] => Ok (length pre + length x) | c :: _ => if decide (c = LF) then Ok (length pre + length x) else Err CrWithoutLf end
    end.
Proof.
  intros Hx Hpre Hr. unfold find_header_line_end. set (data := pre ++ x ++ rest).
  assert (length data - length pre = length (x ++ rest)) as -> by (unfold data; rewrite length_app; lia).
  rewrite (scan_plain data _ _ x rest); [|unfold data; apply drop_app_length|done|done].
  assert (∀ k, data !! (length pre + length x + k) = rest !! k) as Hlook.
  { intros k. unfold data. rewrite <- Nat.add_assoc, !lookup_app_r by lia. f_equal. lia. }
  assert (length data = length pre + length x + length rest) as Hlen by (unfold data; rewrite !length_app; lia).
  destruct rest as [|b rest]; cbn [length scan_line_end]; [cbn in Hlen; f_equal; lia|].
  rewrite <- (Nat.add_0_r (length pre + length x)), Hlook, Nat.add_0_r. cbn [lookup list_lookup].
  destruct (decide (b = LF)) as [->|Hb].
  - rewrite bool_decide_true by done. destruct (_ && _) eqn:E; [|done]. reflect_bools. exfalso.
    assert ((pre ++ x) !! (length (pre ++ x) - 1) = Some CR) as Hl.
    { rewrite length_app. unfold data in *. rewrite app_assoc, lookup_app_l in * by (rewrite length_app; lia). done. }
    rewrite Nat.sub_1_r, <- last_lookup in Hl. rewrite last_app in Hl. destruct (last x) as [c|] eqn:El; [|done]. injection Hl as ->.
    apply last_Some in El as [y ->]. destruct Hx as [HC _]. apply HC, elem_of_app. right. by apply list_elem_of_singleton.
  - destruct Hr as [->|]; [|done]. rewrite bool_decide_false, bool_decide_true by done. rewrite Hlook. cbn in Hlen.
    destruct rest as [|c rest]; cbn [lookup list_lookup length] in *.
    + rewrite (proj2 (Nat.ltb_ge _ _)), (proj2 (Nat.leb_le _ _)) by lia. done.
    + rewrite (proj2 (Nat.ltb_lt _ _)), (proj2 (Nat.leb_gt _ _)) by lia. cbn. destruct (decide (c = LF)) as [->|]; [by rewrite bool_decide_true|].
      rewrite bool_decide_false by congruence. done.
Qed.

Definition cut (rest : bytes) : Prop := match rest with [] => True | b :: _ => b = CR ∨ b = LF end.

Lemma cut_unique (x1 r1 x2 r2 : bytes) : plain x1 → plain x2 → cut r1 → cut r2 → x1 ++ r1 = x2 ++ r2 → x1 = x2 ∧ r1 = r2.
Proof.
  assert (∀ b x r, plain (b :: x) → cut r → ∀ u, r = b :: u → False) as Hno.
  { intros b x r [HC HL] Hr u ->. apply not_elem_of_cons in HC as [? _], HL as [? _]. destruct Hr; congruence. }
  revert x2. induction x1 as [|b x1 IH]; intros [|c x2] H1 H2 Hr1 Hr2 E; cbn in E; [done|..].
  - by destruct (Hno c x2 r1 H2 Hr1 _ E).
  - symmetry in E. by destruct (Hno b x1 r2 H1 Hr2 _ E).
  - injection E as -> E. destruct H1 as [H1 H1'], H2 as [H2 H2']. apply not_elem_of_cons in H1 as [_ H1], H1' as [_ H1'], H2 as [_ H2], H2' as [_ H2'].
    by destruct (IH x2) as [-> ->].
Qed.

(** The lines of a block from its first line on. *)
Lemma block_cut lines x rest :
  plain x → cut rest → x ++ rest ≠ [] →
  header_block lines (x ++ rest) ↔
    match rest with
    | [] => lines = [x]
    | b :: [] => b = CR ∧ lines = [x]
    | b :: c :: s => b = CR ∧ c = LF ∧ ∃ lines', lines = x :: lines' ∧ header_block lines' s
    end.
Proof.
  intros Hx Hr Hne. split.
  - intros H. remember (x ++ rest) as s eqn:E. destruct H as [|y Hy Hpl|y Hpl|y lines' data Hpl Hb]; [done|..].
    + destruct (cut_unique x rest y []) as [<- ->]; [done..|by rewrite app_nil_r|done].
    + destruct (cut_unique x rest y [CR]) as [<- ->]; [done|done|done|by left|done|done].
    + destruct (cut_unique x rest y (CRLF ++ data)) as [<- ->]; [done|done|done|by left|done|]. cbn. eauto.
  - destruct rest as [|b [|c s]]; [intros ->|intros [-> ->]|intros (-> & -> & lines' & -> & Hb)].
    + rewrite app_nil_r in *. by constructor.
    + by constructor.
    + by apply (block_cons x lines' s).
Qed.

(** The line that a loop finds, or the error for which there is no block. *)
Lemma header_line_spec pre x rest :
  last pre ≠ Some CR → plain x → cut rest →
  header_line_at (pre ++ x ++ rest) (length pre) =
    match rest with
    | [] | [_] => if decide (rest = [LF]) then Some (Err LfWithoutCr) else Some (Ok (x, length pre + length x))
    | b :: c :: _ =>
        if decide (b = LF) then Some (Err LfWithoutCr)
        else if decide (c = LF) then Some (Ok (x, length pre + length x)) else Some (Err CrWithoutLf)
    end.
Proof.
  intros Hp Hx Hr. unfold header_line_at. rewrite find_line_end_spec by done.
  assert (slice (length pre) (length pre + length x) (pre ++ x ++ rest) = x) as Hs.
  { unfold slice. rewrite drop_app_length. replace (length pre + length x - length pre) with (length x) by lia. apply take_app_length. }
  assert ((length pre <=? length pre + length x) = true) as Hle by (apply Nat.leb_le; lia).
  destruct rest as [|b [|c s]]; [by rewrite Hle, Hs, decide_False|..].
  - destruct (decide (b = LF)) as [->|Hb]; [by rewrite decide_True|]. rewrite decide_False by congruence. by rewrite Hle, Hs.
  - destruct (decide (b = LF)); [done|]. destruct (decide (c = LF)); [|done]. by rewrite Hle, Hs.
Qed.

Section HeaderFacts.
Context {MC : Memchr} {MS : MemchrSpec MC}.

Lemma validate_field_ok line : validate_field line = Ok () ↔ ∃ name value, field line name value.
Proof.
  unfold validate_field. rewrite memchr_spec. destruct (position (Byte.eqb x3a) line) as [i|] eqn:Ei.
  - apply position_line in Ei as (name & value & -> & Hl & Hn). subst i. rewrite take_app_length. split.
    + case_bool_decide; [done|]. destruct (existsb _ _) eqn:Ex; [done|]. intros _. exists name, value. split_and!; [done..|].
      apply Forall_forall. intros b Hb. split; [|by intros ->]. apply not_true_iff_false in Ex. destruct (byte_in x21 x7e b) eqn:Eb; [done|]. destruct Ex.
      apply existsb_exists. exists b. rewrite <- list_elem_of_In, Eb, orb_true_r. done.
    + intros (name' & value' & E & Hne & Hall). assert (name' = name) as ->.
      { assert (x3a ∉ name') as Hn' by (rewrite Forall_forall in Hall; intros Hin; by destruct (Hall _ Hin)).
        clear -E Hn Hn'. revert name' E Hn'. induction name as [|b name IH]; intros [|c name'] E Hn'; cbn in E; simplify_eq; [done|..].
        - by destruct Hn'; constructor.
        - by destruct Hn; constructor.
        - f_equal. apply not_elem_of_cons in Hn as [_ Hn], Hn' as [_ Hn']. by apply IH. }
      rewrite bool_decide_false by done. destruct (existsb _ _) eqn:Ex; [|done]. apply existsb_exists in Ex as (b & Hb & Hbad).
      apply list_elem_of_In in Hb. rewrite Forall_forall in Hall. destruct (Hall _ Hb) as [Hin _]. rewrite Hin, orb_false_r in Hbad. by destruct b.
  - split; [done|]. intros (name & value & -> & _). rewrite position_None, Forall_app, Forall_cons in Ei. destruct Ei as (_ & [=] & _).
Qed.

Lemma validate_loop_end fuel data pos folded : length data ≤ pos → validate_loop fuel data pos folded = Some (Ok folded).
Proof. intros H. destruct fuel; cbn [validate_loop]; by rewrite (proj2 (Nat.ltb_ge _ _)). Qed.

(** What a round of the validation does with a line. *)
Definition on_line (first folded : bool) (line : bytes) : result HeaderError bool :=
  if bool_decide (line = []) then Ok folded
  else if continuation line then if first then Err StartsWithFolding else Ok true
  else match validate_field line with Ok _ => Ok folded | Err e => Err e end.

Lemma on_line_ok first folded line f :
  on_line first folded line = Ok f ↔ line_ok first line ∧ f = folded || continuation line.
Proof.
  unfold on_line, line_ok. destruct line as [|b line]; [rewrite bool_decide_true, orb_false_r by done; naive_solver congruence|].
  rewrite bool_decide_false by done. destruct (continuation (b :: line)) eqn:Ec.
  - rewrite orb_true_r. destruct first; [|naive_solver congruence]. split; [done|]. intros [[?|[[_ ?]|(name & value & E & Hne & Hall)]] _]; [done..|].
    destruct name as [|c name]; [done|]. injection E as <- ->. apply Forall_cons in Hall as [[Hb _] _]. cbn in Ec. unfold is_wsp in Ec.
    apply orb_true_iff in Ec as [->%byte_eqb_eq| ->%byte_eqb_eq]; done.
  - rewrite orb_false_r. pose proof (validate_field_ok (b :: line)) as H. destruct (validate_field (b :: line)) as [[]|e].
    + split; [intros [= <-]|by intros [_ ->]]. split; [|done]. right. right. by apply H.
    + split; [done|]. intros [[?|[[? _]|Hf]] _]; [done..|]. apply H in Hf. done.
Qed.

Lemma validate_loop_step fuel data pos folded x e :
  pos < length data → header_line_at data pos = Some (Ok (x, e)) →
  validate_loop (S fuel) data pos folded =
    match on_line (pos =? 0) folded x with Ok f => validate_loop fuel data (e + 2) f | Err err => Some (Err err) end.
Proof.
  intros Hp Hl. cbn [validate_loop]. rewrite (proj2 (Nat.ltb_lt _ _)) by done. rewrite Hl. unfold on_line.
  destruct (bool_decide (x = [])); [done|]. destruct (continuation x); [by destruct (pos =? 0)|]. by destruct (validate_field x).
Qed.

(** The outcome [o] of validating the rest [s] of a block. *)
Definition decides (first folded : bool) (s : bytes) (o : option (result HeaderError bool)) : Prop :=
  (∃ r, o = Some r) ∧
  ∀ f, o = Some (Ok f) ↔ ∃ lines, header_block lines s ∧ lines_ok first lines ∧ f = folded || existsb continuation lines.

Lemma decides_err first folded s e : (∀ lines, ¬ header_block lines s) → decides first folded s (Some (Err e)).
Proof. intros Hn. split; [eauto|]. intros f. split; [done|]. intros (lines & Hb & _). by apply Hn in Hb. Qed.

Lemma decides_line first folded s x (o : bool → option (result HeaderError bool)) s' :
  (∀ lines, header_block lines s ↔ ∃ lines', lines = x :: lines' ∧ header_block lines' s') → (∀ f, decides false f s' (o f)) →
  decides first folded s match on_line first folded x with Ok f => o f | Err e => Some (Err e) end.
Proof.
  intros Hb Ho. pose proof (on_line_ok first folded x) as Hl. destruct (on_line first folded x) as [f0|e].
  - destruct (Ho f0) as [Hsome Hiff]. destruct (proj1 (Hl f0) eq_refl) as [Hok ->]. split; [done|]. intros f. rewrite Hiff. split.
    + intros (lines & Hlines & Hlok & ->). exists (x :: lines). rewrite Hb. split; [eauto|]. split; [done|]. cbn. by rewrite orb_assoc.
    + intros (lines & Hlines & Hlok & ->). apply Hb in Hlines as (lines' & -> & Hb'). destruct Hlok as [_ Hlok]. exists lines'. cbn. by rewrite orb_assoc.
  - split; [eauto|]. intros f. split; [done|]. intros (lines & Hlines & Hlok & _). apply Hb in Hlines as (lines' & -> & _). destruct Hlok as [Hok _].
    assert (@Err HeaderError bool e = Ok (folded || continuation x)) as [=] by by apply Hl.
Qed.

Lemma decides_end first folded : decides first folded [] (Some (Ok folded)).
Proof.
  split; [eauto|]. intros f. split.
  - intros [= <-]. exists []. split_and!; [constructor|done|by rewrite orb_false_r].
  - intros (lines & Hb & _ & ->). inversion Hb as [|x Hne _ Hl E| |]; subst; [by rewrite orb_false_r|done|by destruct x..].
Qed.

Lemma validate_loop_spec fuel pre s folded :
  last pre ≠ Some CR → length s < fuel →
  decides (length pre =? 0) folded s (validate_loop fuel (pre ++ s) (length pre) folded).
Proof.
  revert pre s folded. induction fuel as [|fuel IH]; intros pre s folded Hpre Hfuel; [lia|].
  destruct (decide (s = [])) as [->|Hne]; [rewrite validate_loop_end by (rewrite app_nil_r; lia); apply decides_end|].
  destruct (line_cut s) as (x & rest & -> & Hx & Hr). fold (cut rest) in Hr.
  assert (length pre < length (pre ++ x ++ rest)) as Hlt by (rewrite length_app; destruct (x ++ rest); [done|cbn; lia]).
  pose proof (header_line_spec pre x rest Hpre Hx Hr) as Hline. pose proof (λ lines, block_cut lines x rest Hx Hr Hne) as Hblock.
  assert (∀ e, header_line_at (pre ++ x ++ rest) (length pre) = Some (Err e) → validate_loop (S fuel) (pre ++ x ++ rest) (length pre) folded = Some (Err e)) as Herr.
  { intros e He. cbn [validate_loop]. by rewrite (proj2 (Nat.ltb_lt _ _)), He. }
  assert (∀ lines : list bytes, (∃ lines', lines = x :: lines' ∧ header_block lines' []) ↔ lines = [x]) as Hlast.
  { intros lines. split; [|intros ->; exists []; split; [done|constructor]]. intros (lines' & -> & Hb). inversion Hb as [|y Hy| |]; subst; [done|done|by destruct x0..]. }
  destruct rest as [|b [|c s]].
  - rewrite decide_False in Hline by done. rewrite (validate_loop_step _ _ _ _ _ _ Hlt Hline). eapply (decides_line _ _ _ x _ []).
    + intros lines. by rewrite Hblock, Hlast.
    + intros f. rewrite validate_loop_end by (rewrite app_nil_r, length_app; lia). apply decides_end.
  - destruct (decide (b = LF)) as [->|Hb]; [rewrite decide_True in Hline by done; rewrite (Herr _ Hline); apply decides_err; intros lines H%Hblock; by destruct H|].
    rewrite decide_False in Hline by congruence. destruct Hr as [->|]; [|done]. rewrite (validate_loop_step _ _ _ _ _ _ Hlt Hline). eapply (decides_line _ _ _ x _ []).
    + intros lines. rewrite Hblock, Hlast. naive_solver.
    + intros f. rewrite validate_loop_end by (rewrite !length_app; cbn; lia). apply decides_end.
  - destruct (decide (b = LF)) as [->|Hb]; [rewrite (Herr _ Hline); apply decides_err; intros lines H%Hblock; by destruct H|].
    destruct (decide (c = LF)) as [->|Hc]; [|rewrite (Herr _ Hline); apply decides_err; intros lines H%Hblock; naive_solver].
    destruct Hr as [->|]; [|done]. rewrite (validate_loop_step _ _ _ _ _ _ Hlt Hline). eapply (decides_line _ _ _ x _ s).
    + intros lines. rewrite Hblock. naive_solver.
    + intros f. replace (pre ++ x ++ CR :: LF :: s) with ((pre ++ x ++ CRLF) ++ s) by by rewrite <- !app_assoc.
      replace (length pre + length x + 2) with (length (pre ++ x ++ CRLF)) by (rewrite !length_app; cbn; lia).
      replace false with (length (pre ++ x ++ CRLF) =? 0) by (rewrite !length_app; apply Nat.eqb_neq; cbn; lia).
      apply IH; [|rewrite length_app in Hfuel; cbn in Hfuel; lia]. by rewrite app_assoc, last_app.
Qed.

Lemma validate_headers_decides data : decides true false data (validate_headers data).
Proof. apply (validate_loop_spec (S (length data)) [] data false); [done|lia]. Qed.

(** Validation never panics and accepts exactly the header blocks: lines ended by
    CRLF without a CR or LF inside (the last line may be open), each of them empty,
    a continuation that is not the first line, or a header whose name is not empty
    and made of printable ASCII characters; the result tells whether there is a
    continuation line. *)
Theorem header_validation_exact data :
  (∃ r, validate_headers data = Some r) ∧
  ∀ folded, validate_headers data = Some (Ok folded) ↔
    ∃ lines, header_block lines data ∧ lines_ok true lines ∧ folded = existsb continuation lines.
Proof. apply validate_headers_decides. Qed.

(** ** Lookups *)

(** The position [p] is the start of a line of a valid block, or behind its end. *)
Definition at_line (data : bytes) (p : nat) (lines : list bytes) : Prop :=
  (lines = [] ∧ length data ≤ p) ∨ ∃ pre s, data = pre ++ s ∧ p = length pre ∧ header_block lines s ∧ last pre ≠ Some CR.

Lemma at_line_step data p lines :
  at_line data p lines →
  match lines with
  | [] => length data ≤ p
  | x :: lines => p < length data ∧ header_line_at data p = Some (Ok (x, p + length x)) ∧ at_line data (p + length x + 2) lines
  end.
Proof.
  intros [[-> Hp]|(pre & s & -> & -> & Hb & Hpre)]; [done|].
  assert (∀ x rest, plain x → cut rest → x ++ rest ≠ [] → rest ≠ [LF] → (∀ b c u, rest = b :: c :: u → b = CR ∧ c = LF) →
    length pre < length (pre ++ x ++ rest) ∧ header_line_at (pre ++ x ++ rest) (length pre) = Some (Ok (x, length pre + length x))) as Hline.
  { intros x rest Hx Hr Hne HL Hcr. split; [rewrite length_app; destruct (x ++ rest); [done|cbn; lia]|]. rewrite header_line_spec by done.
    destruct rest as [|b [|c u]]; [by rewrite decide_False..|]. destruct (Hcr _ _ _ eq_refl) as [-> ->]. by rewrite decide_False, decide_True. }
  destruct Hb as [|x Hne Hx|x Hx|x lines s Hx Hb].
  - rewrite app_nil_r. lia.
  - destruct (Hline x []) as [? ?]; [done|done|by rewrite app_nil_r|done|done|]. rewrite app_nil_r in *. split_and!; [done..|]. left. split; [done|]. rewrite length_app. lia.
  - destruct (Hline x [CR]) as [? ?]; [done|by left|by destruct x|done|by intros ? ? ? [=]|]. split_and!; [done..|]. left. split; [done|]. rewrite !length_app. cbn. lia.
  - destruct (Hline x (CRLF ++ s)) as [? ?]; [done|by left|by destruct x|done|by intros ? ? ? [= <- <- <-]|]. split_and!; [done..|].
    right. exists (pre ++ x ++ CRLF), s. split_and!; [by rewrite <- !app_assoc|rewrite !length_app; cbn; lia|done|by rewrite app_assoc, last_app].
Qed.

(** The header of a line. *)
Definition field_of (line : bytes) : option (bytes * bytes) :=
  if bool_decide (line = []) || continuation line then None else (λ colon, field_at colon line) <$> position (Byte.eqb x3a) line.

Lemma line_colon first line :
  line_ok first line → bool_decide (line = []) || continuation line = false → ∃ colon, position (Byte.eqb x3a) line = Some colon.
Proof.
  intros [->|[[-> _]|(name & value & -> & _)]] H; [done|by rewrite orb_true_r in H|]. rewrite position_app. destruct (position _ name); [eauto|].
  cbn. eauto.
Qed.

Lemma lines_ok_cons first x lines : lines_ok first (x :: lines) → line_ok first x ∧ lines_ok false lines.
Proof. done. Qed.

Lemma get_loop_spec fuel data name p lines first :
  at_line data p lines → lines_ok first lines → length data < fuel + p →
  get_loop fuel data name p = Some (snd <$> find (λ f, eq_ignore_ascii_case f.1 name) (omap field_of lines)).
Proof.
  revert p lines first. induction fuel as [|fuel IH]; intros p lines first Hat Hok Hf; apply at_line_step in Hat.
  { assert (length data ≤ p) by lia. destruct lines; [|lia]. cbn [get_loop]. by rewrite (proj2 (Nat.ltb_ge _ _)). }
  destruct lines as [|x lines]; cbn [get_loop]; [by rewrite (proj2 (Nat.ltb_ge _ _))|]. destruct Hat as (Hp & Hl & Hat).
  rewrite (proj2 (Nat.ltb_lt _ _)), Hl by done. apply lines_ok_cons in Hok as [Hx Hok].
  specialize (IH _ _ _ Hat Hok ltac:(lia)). cbn [omap list_omap]. unfold field_of at 1.
  destruct (bool_decide (x = []) || continuation x) eqn:Ex; [done|]. rewrite memchr_spec.
  destruct (line_colon _ _ Hx Ex) as [colon ->]. cbn [fmap option_fmap option_map find fst]. cbv zeta.
  destruct (field_at colon x) as [n v]. cbn [fst]. by destruct (eq_ignore_ascii_case n name).
Qed.

Lemma iter_next_spec fuel data p lines first :
  at_line data p lines → lines_ok first lines → length data < fuel + p →
  match omap field_of lines with
  | [] => ∃ q, header_iter_next fuel data p = Some (None, q)
  | item :: items => ∃ q lines', header_iter_next fuel data p = Some (Some item, q) ∧ items = omap field_of lines' ∧ at_line data q lines' ∧
      lines_ok false lines' ∧ p < q
  end.
Proof.
  revert p lines first. induction fuel as [|fuel IH]; intros p lines first Hat Hok Hf; pose proof (at_line_step _ _ _ Hat) as Hs.
  { assert (length data ≤ p) by lia. destruct lines; [|lia]. cbn [omap list_omap header_iter_next]. rewrite (proj2 (Nat.ltb_ge _ _)) by lia. eauto. }
  destruct lines as [|x lines]; cbn [omap list_omap header_iter_next]; [rewrite (proj2 (Nat.ltb_ge _ _)) by done; eauto|]. destruct Hs as (Hp & Hl & Hat').
  rewrite (proj2 (Nat.ltb_lt _ _)), Hl by done. apply lines_ok_cons in Hok as [Hx Hok].
  cbn [omap list_omap]. unfold field_of at 1. destruct (bool_decide (x = []) || continuation x) eqn:Ex.
  - specialize (IH _ _ _ Hat' Hok ltac:(lia)). destruct (omap field_of lines) as [|item items]; [done|].
    destruct IH as (q & lines' & ? & ? & ? & ? & ?). exists q, lines'. split_and!; try done. lia.
  - rewrite memchr_spec. destruct (line_colon _ _ Hx Ex) as [colon ->]. cbn [fmap option_fmap option_map].
    exists (p + length x + 2), lines. split_and!; try done. lia.
Qed.

Lemma iter_collect_unfold fuel data p :
  header_iter_collect (S fuel) data p =
    match header_iter_next (S (length data)) data p with
    | None => None
    | Some (None, _) => Some []
    | Some (Some item, pos) => cons item <$> header_iter_collect fuel data pos
    end.
Proof. done. Qed.

Lemma iter_collect_spec fuel data p lines first :
  at_line data p lines → lines_ok first lines → length data ≤ fuel + p → header_iter_collect (S fuel) data p = Some (omap field_of lines).
Proof.
  revert p lines first. induction fuel as [|fuel IH]; intros p lines first Hat Hok Hf; rewrite iter_collect_unfold.
  all: pose proof (iter_next_spec (S (length data)) data p lines first Hat Hok ltac:(lia)) as H; pose proof (at_line_step _ _ _ Hat) as Hs.
  - destruct lines as [|x lines]; [|lia]. by destruct H as [q ->].
  - destruct (omap field_of lines) as [|item items]; [by destruct H as [q ->]|]. destruct H as (q & lines' & -> & -> & Hat' & Hok' & Hq).
    by rewrite (IH q lines' false Hat' Hok' ltac:(lia)).
Qed.

(** On a validated block the iterator yields the name and value of every line that
    has a header, in order, and a lookup finds the value of the first of them whose
    name matches up to case; neither panics or stops early. *)
Theorem header_lookup_exact data h :
  headers_parse data = Some (Ok h) →
  ∃ lines, header_block lines data ∧ lines_ok true lines ∧
    headers_iter h = Some (omap field_of lines) ∧
    ∀ name, headers_get h name = Some (snd <$> find (λ f, eq_ignore_ascii_case f.1 name) (omap field_of lines)).
Proof.
  unfold headers_parse, headers_validate. destruct (validate_headers_decides data) as [_ Hv].
  destruct (validate_headers data) as [[folded|e]|]; [|done..]. intros [= <-].
  destruct (proj1 (Hv folded) eq_refl) as (lines & Hb & Hok & _). exists lines. split_and!; [done..| |].
  all: assert (at_line data 0 lines) as Hat by (right; by exists [], data).
  - apply (iter_collect_spec _ data 0 lines true Hat Hok). cbn [raw]. lia.
  - intros name. apply (get_loop_spec _ data name 0 lines true Hat Hok). cbn [raw]. lia.
Qed.
End HeaderFacts.

(** ** Unfolding *)

(** The logical lines: a continuation belongs to the line before it. *)
Fixpoint unfold_lines (lines : list bytes) : list bytes :=
  match lines with
  | [] => []
  | x :: lines =>
      match unfold_lines lines with
      | c :: rest => if continuation c then (x ++ c) :: rest else x :: c :: rest
      | [] => [x]
      end
  end.

Lemma unfold_plain x rest : CR ∉ x → unfold_continuations (x ++ rest) = x ++ unfold_continuations rest.
Proof.
  induction x as [|b x IH]; intros Hx; [done|]. apply not_elem_of_cons in Hx as [Hb Hx]. rewrite <- app_comm_cons. cbn [unfold_continuations app].
  rewrite IH by done. destruct (x ++ rest) as [|c [|w u]]; [done..|]. by rewrite (proj2 (byte_eqb_neq b CR)).
Qed.

Lemma unfold_crlf data :
  unfold_continuations (CRLF ++ data) = if continuation data then unfold_continuations data else CRLF ++ unfold_continuations data.
Proof.
  destruct data as [|w data]; [done|]. change (CRLF ++ w :: data) with (CR :: LF :: w :: data).
  assert (unfold_continuations (LF :: w :: data) = LF :: unfold_continuations (w :: data)) as HL by (by destruct data).
  cbn [unfold_continuations continuation]. change (Byte.eqb CR CR && Byte.eqb LF LF) with true. cbn [andb]. destruct (is_wsp w); [done|].
  unfold app, CRLF. f_equal. exact HL.
Qed.

Lemma block_prefix x c lines s : plain x → header_block (c :: lines) s → header_block ((x ++ c) :: lines) (x ++ s).
Proof.
  intros [HC HL] Hb. assert (∀ y, plain y → plain (x ++ y)) as Hpl by (intros y [? ?]; split; by apply not_elem_of_app).
  inversion Hb as [|y Hne Hy|y Hy|y lines' data Hy Hd]; subst; rewrite ?app_assoc.
  - apply block_last; [by destruct x|by apply Hpl].
  - by apply block_cr, Hpl.
  - rewrite <- app_assoc. apply block_cons; [by apply Hpl|done].
Qed.

Lemma block_head x lines s : x ≠ [] → header_block (x :: lines) s → continuation s = continuation x.
Proof. intros Hx Hb. destruct x as [|b x]; [done|]. inversion Hb; by subst. Qed.

Lemma unfold_lines_head x lines : ∃ y rest, unfold_lines (x :: lines) = (x ++ y) :: rest.
Proof.
  cbn. destruct (unfold_lines lines) as [|c rest]; [exists [], []; by rewrite app_nil_r|].
  destruct (continuation c); [by eauto|exists []; rewrite app_nil_r; eauto].
Qed.

Lemma continuation_app x y : x ≠ [] → continuation (x ++ y) = continuation x.
Proof. by destruct x. Qed.

Lemma unfold_block lines s :
  header_block lines s → Forall (λ l, l ≠ []) lines → header_block (unfold_lines lines) (unfold_continuations s).
Proof.
  induction 1 as [|x Hne Hx|x Hx|x lines data Hx Hb IH]; intros Hl.
  - constructor.
  - rewrite <- (app_nil_r x) at 2. rewrite unfold_plain by apply Hx. cbn. rewrite app_nil_r. by constructor.
  - rewrite unfold_plain by apply Hx. cbn. by constructor.
  - apply Forall_cons in Hl as [_ Hl]. specialize (IH Hl). rewrite unfold_plain by apply Hx. rewrite unfold_crlf.
    destruct lines as [|l lines]; [inversion Hb; subst; cbn; by apply (block_cons x [] [])|].
    apply Forall_cons in Hl as [Hne Hl]. rewrite (block_head l lines data) by done. cbn [unfold_lines] in IH |- *.
    destruct (unfold_lines_head l lines) as (y & rest & E). cbn [unfold_lines] in E. rewrite E in *. rewrite continuation_app by done.
    destruct (continuation l); [by apply block_prefix|by apply block_cons].
Qed.

Definition is_field (line : bytes) : Prop := ∃ name value, field line name value.

Lemma field_head line : is_field line → line ≠ [] ∧ continuation line = false.
Proof.
  intros (name & value & -> & Hne & Hall). destruct name as [|b name]; [done|]. split; [done|]. apply Forall_cons in Hall as [[Hb _] _].
  cbn. apply not_true_iff_false. unfold is_wsp. intros [->%byte_eqb_eq| ->%byte_eqb_eq]%orb_true_iff; done.
Qed.

Lemma field_extend line y : is_field line → is_field (line ++ y) ∧ fst <$> field_of (line ++ y) = fst <$> field_of line.
Proof.
  intros Hf. destruct (field_head _ Hf) as [Hne Hc]. destruct Hf as (name & value & -> & Hname & Hall). split.
  { exists name, (value ++ y). split; [by rewrite <- app_assoc|done]. }
  unfold field_of. rewrite continuation_app, !bool_decide_false, Hc by (by destruct name). cbn [orb].
  assert (∀ v, position (Byte.eqb x3a) (name ++ x3a :: v) = Some (length name)) as Hp.
  { intros v. rewrite position_app. rewrite (proj2 (position_None _ name)); [cbn; f_equal; lia|]. eapply Forall_impl; [exact Hall|].
    intros b [_ Hb]. by apply byte_eqb_neq. }
  rewrite <- app_assoc, <- app_comm_cons, !Hp. cbn. by rewrite !take_app_length.
Qed.

Lemma continuation_field_of line : continuation line = true → field_of line = None.
Proof. intros H. unfold field_of. by rewrite H, orb_true_r. Qed.

(** The names of the headers of some lines. *)
Definition names (lines : list bytes) : list bytes := (omap field_of lines).*1.

Lemma names_cons x lines : names (x :: lines) = option_list (fst <$> field_of x) ++ names lines.
Proof. unfold names. cbn. by destruct (field_of x). Qed.

Lemma unfold_lines_spec lines :
  Forall (λ l, continuation l = true ∨ is_field l) lines →
  Forall is_field (tail (unfold_lines lines)) ∧
  match lines with l :: _ => is_field l → ∀ y rest, unfold_lines lines = y :: rest → is_field y | [] => True end ∧
  names (unfold_lines lines) = names lines.
Proof.
  induction 1 as [|x lines Hx Hl (IHt & IHh & IHn)]; [done|]. cbn [unfold_lines]. destruct lines as [|l lines]; [by split_and!; [constructor|intros ? ? ? [= <- <-]|]|].
  destruct (unfold_lines_head l lines) as (y & rest & E). rewrite E in *. cbn [tail] in *. apply Forall_cons in Hl as [Hl _].
  assert (l ≠ []) as Hne by (destruct Hl as [Hl|Hl]; [by destruct l|by apply field_head in Hl as []]). rewrite continuation_app by done.
  assert (∀ z, fst <$> field_of (x ++ z) = fst <$> field_of x) as Hext.
  { intros z. destruct Hx as [Hx|Hx]; [|by apply field_extend]. rewrite !continuation_field_of; [done|done|]. by rewrite continuation_app by by destruct x. }
  destruct (continuation l) eqn:Ec.
  - cbn [tail]. split_and!; [done|intros Hf ? ? [= <- <-]; by apply field_extend|].
    rewrite !names_cons in *. rewrite (continuation_field_of l), (continuation_field_of (l ++ y)) in * by (done || by rewrite continuation_app).
    cbn in IHn. rewrite Hext. cbn. by rewrite IHn.
  - destruct Hl as [?|Hl]; [congruence|]. cbn [tail]. split_and!; [constructor; [by eapply IHh|done]|by intros ? ? ? [= <- <-]|].
    rewrite names_cons, IHn. by rewrite (names_cons x).
Qed.

Lemma no_continuation_unfold lines : existsb continuation lines = false → Forall (λ l, l ≠ []) lines → unfold_lines lines = lines.
Proof.
  induction lines as [|x lines IH]; [done|]. cbn [existsb]. intros [Hx H]%orb_false_iff [_ Hne]%Forall_cons. cbn [unfold_lines]. rewrite IH by done.
  destruct lines as [|c lines]; [done|]. cbn in H. apply orb_false_iff in H as [-> _]. done.
Qed.

Lemma fields_not_continuation lines : Forall is_field lines → existsb continuation lines = false.
Proof. induction 1 as [|l lines Hl _ IH]; [done|]. cbn. destruct (field_head _ Hl) as [_ ->]. done. Qed.

Lemma fields_lines_ok lines first : Forall is_field lines → lines_ok first lines.
Proof. intros H. revert first. induction H as [|l lines Hl _ IH]; intros first; [done|]. split; [by right; right|done]. Qed.

Section Unfolding.
Context {MC : Memchr} {MS : MemchrSpec MC}.

(** Unfolding gives the logical header lines: in a validated block without empty
    lines every continuation is joined to its line, white space included, the result
    is a valid block that needs no further unfolding, and its headers have the names
    of the original ones. *)
Theorem unfolding_exact data h :
  headers_parse data = Some (Ok h) →
  ∃ lines, header_block lines data ∧
    (Forall (λ l, l ≠ []) lines →
       header_block (unfold_lines lines) (unfolded_bytes h) ∧
       headers_parse (unfolded_bytes h) = Some (Ok (mkHeaders (unfolded_bytes h) TransformNone)) ∧
       names (unfold_lines lines) = names lines).
Proof.
  unfold headers_parse at 1, headers_validate. destruct (validate_headers_decides data) as [_ Hv].
  destruct (validate_headers data) as [[folded|e]|]; [|done..]. intros [= <-].
  destruct (proj1 (Hv folded) eq_refl) as (lines & Hb & Hok & Hf). exists lines. split; [done|]. intros Hne.
  assert (Forall (λ l, continuation l = true ∨ is_field l) lines ∧ (∀ l, head lines = Some l → is_field l)) as [Hlines Hhead].
  { assert (∀ first, lines_ok first lines → Forall (λ l, continuation l = true ∨ is_field l) lines ∧ (∀ l, first = true → head lines = Some l → is_field l)) as H.
    - clear -Hne. induction Hne as [|l lines Hl _ IH]; intros first; [done|]. intros [Hx Hr]. destruct (IH _ Hr) as [IHa _].
      split; [constructor; [|done]|intros ? -> [= <-]]; destruct Hx as [?|[[? ?]|?]]; try done; by eauto.
    - destruct (H true Hok) as [? H2]. eauto. }
  destruct (unfold_lines_spec lines Hlines) as (Htail & Hh & Hnames).
  assert (Forall is_field (unfold_lines lines)) as Hall.
  { destruct lines as [|l lines]; [constructor|]. destruct (unfold_lines_head l lines) as (y & rest & E). rewrite E in *. constructor; [|done]. by eapply Hh; [apply Hhead|]. }
  assert (header_block (unfold_lines lines) (unfolded_bytes (mkHeaders data (if folded then TransformUnfold else TransformNone)))) as Hblock.
  { destruct folded; cbn [unfolded_bytes transformation raw]; [by apply unfold_block|]. by rewrite no_continuation_unfold. }
  split_and!; [done| |done]. unfold headers_parse, headers_validate. set (u := unfolded_bytes _) in *.
  rewrite (proj2 (proj2 (validate_headers_decides u) false)); [done|]. exists (unfold_lines lines). split_and!; [done|by apply fields_lines_ok|].
  by rewrite fields_not_continuation.
Qed.
End Unfolding.

Definition sample_block : bytes := bs "From: a@b" ++ CRLF ++ bs "Subject: one" ++ CRLF ++ bs " two" ++ CRLF ++ bs "X-Y:z".

Definition sample_headers : Headers := mkHeaders sample_block TransformUnfold.

Lemma sample_headers_parse : headers_parse (MC := naive_memchr) sample_block = Some (Ok sample_headers).
Proof. by vm_compute. Qed.

Lemma header_lookup_exact_witness :
  ∃ lines, header_block lines sample_block ∧ lines_ok true lines ∧
    headers_iter (MC := naive_memchr) sample_headers = Some (omap field_of lines) ∧
    ∀ name, headers_get (MC := naive_memchr) sample_headers name = Some (snd <$> find (λ f, eq_ignore_ascii_case f.1 name) (omap field_of lines)).
Proof. exact (header_lookup_exact (MC := naive_memchr) sample_block sample_headers sample_headers_parse). Defined.

Lemma unfolding_exact_witness :
  ∃ lines, header_block lines sample_block ∧
    (Forall (λ l, l ≠ []) lines →
       header_block (unfold_lines lines) (unfolded_bytes sample_headers) ∧
       headers_parse (MC := naive_memchr) (unfolded_bytes sample_headers) = Some (Ok (mkHeaders (unfolded_bytes sample_headers) TransformNone)) ∧
       names (unfold_lines lines) = names lines).
Proof. exact (unfolding_exact (MC := naive_memchr) sample_block sample_headers sample_headers_parse). Defined.

(** Only the white space before a value is trimmed, and the value of a folded header
    is its first line. *)
Example get_keeps_trailing_space :
  headers_get (MC := naive_memchr) (mkHeaders (bs "A: b " ++ CRLF ++ bs " c") TransformUnfold) (bs "a") = Some (Some (bs "b ")).
Proof. by vm_compute. Qed.

Lemma header_validation_exact_witness :
  ∃ lines, header_block lines (bs "Subject: a" ++ CRLF ++ bs " b" ++ CRLF) ∧ lines_ok true lines ∧ existsb continuation lines = true.
Proof.
  destruct (proj1 (proj2 (header_validation_exact (MC := naive_memchr) (MS := naive_memchr_spec) (bs "Subject: a" ++ CRLF ++ bs " b" ++ CRLF)) true))
    as (lines & Hb & Ho & Hf); [vm_compute; reflexivity|].
  exists lines. split; [exact Hb|]. split; [exact Ho|]. symmetry. exact Hf.
Defined.
