(* ===== verification/Layout.v ===== *)
(** * Layout: article responses and their views

    Models [src/src/protocol/article/mod.rs] and the states of
    [src/src/protocol/article/state.rs]: the parser of a framed or standalone
    article response, its layout of byte ranges, the view read through it, and the
    transition from a framed to a validated response.

    An outer [None] is a panic: a slice out of range or a failed [expect].  The
    theorems exclude it. *)

From S2P Require Import Prelude Protocol Request Scanner Framer Tracker Article Stream Transfer Exchange Isolated Yenc Headers.

(** The messages of [ParseError::InvalidMessageId]. *)
Inductive MessageIdError :=
| NoSpaceAfterStatus
| NoArticleNumber
| NoOpeningBracket
| NoClosingBracket
| MessageIdNotUtf8
| MessageIdInvalid (e : ValidationError).

Inductive ParseError :=
| InvalidStatusCode (code : N)
| MissingSeparator
| InvalidHeader (e : HeaderError)
| UnexpectedBody
| InvalidBody
| InvalidYenc (e : YencError)
| BufferTooShort
| InvalidMessageIdLine (e : MessageIdError).

(** ** Ranges *)

Record ArticleFrameRange := mkRange { range_start : nat; range_end : nat }.

(** [ArticleFrameRange::new] *)
Definition new_range (start end_ : nat) : result ParseError ArticleFrameRange :=
  if end_ <? start then Err BufferTooShort else Ok (mkRange start end_).

(** [buffer.get(range)], and the slice [&buffer[range]], which panics on [None]. *)
Definition range_slice (buf : bytes) (r : ArticleFrameRange) : option bytes :=
  if (range_start r <=? range_end r) && (range_end r <=? length buf)
  then Some (slice (range_start r) (range_end r) buf) else None.

Inductive ArticleContent :=
| ContentArticle (headers : ArticleFrameRange) (transform : HeaderTransformation) (body : ArticleFrameRange)
| ContentHead (headers : ArticleFrameRange) (transform : HeaderTransformation)
| ContentBody (body : ArticleFrameRange)
| ContentStat.

Record ArticleLayout := mkLayout {
  layout_message_id : ArticleFrameRange;
  layout_number : option N;
  layout_content : ArticleContent }.

Inductive ValidationSource := Standalone | FramedResponse.

Inductive YencValidation := YencDisabled | YencEnabled.

(** The view [Article<'a>] of a response. *)
Record ArticleView := mkView {
  view_message_id : MessageId;
  view_number : option N;
  view_headers : option Headers;
  view_body : option bytes }.

(** ** Lines *)

(** [for i in start..start + n { if p(i) { return Some(i) } } None] *)
Fixpoint find_index (p : nat → bool) (n start : nat) : option nat :=
  match n with
  | 0 => None
  | S n => if p start then Some start else find_index p n (start + 1)
  end.

Definition find_line_end (buf : bytes) (start : nat) : result ParseError nat :=
  ok_or BufferTooShort
    (find_index (λ i, bool_decide (buf !! i = Some CR) && (i + 1 <? length buf) && bool_decide (buf !! (i + 1) = Some LF))
      (length buf - start) start).

Definition BLANK_LINE : bytes := CRLF ++ CRLF.

Definition find_blank_line (buf : bytes) (start : nat) : result ParseError nat :=
  ok_or MissingSeparator (find_index (λ i, bool_decide (slice i (i + 4) buf = BLANK_LINE)) ((length buf - 3) - start) start).

Section Layout.
Context {MC : Memchr} {H32 : Crc32}.

Definition parse_first_line_layout (line : bytes) : result ParseError (ArticleFrameRange * option N) :=
  first_space ← ok_or (InvalidMessageIdLine NoSpaceAfterStatus) (memchr x20 line);
  second_space ← ok_or (InvalidMessageIdLine NoArticleNumber)
    ((λ pos, first_space + 1 + pos) <$> memchr x20 (drop (first_space + 1) line));
  let number_bytes := slice (first_space + 1) second_space line in
  let article_number := if utf8_valid number_bytes then parse_u64 number_bytes else None in
  msg_id_start ← ok_or (InvalidMessageIdLine NoOpeningBracket)
    ((λ pos, second_space + pos) <$> memchr x3c (drop second_space line));
  msg_id_end ← ok_or (InvalidMessageIdLine NoClosingBracket)
    ((λ pos, msg_id_start + pos + 1) <$> memchr x3e (drop msg_id_start line));
  let msg_id := slice msg_id_start msg_id_end line in
  _ ← ensure (InvalidMessageIdLine MessageIdNotUtf8) (utf8_valid msg_id);
  _ ← map_err (λ e, InvalidMessageIdLine (MessageIdInvalid e)) (MessageId_new msg_id);
  r ← new_range msg_id_start msg_id_end;
  mret (r, article_number).

(** ** Contents *)

(** The check for NUL bytes, made on framed responses only. *)
Definition nul_in (source : ValidationSource) (part : bytes) : bool :=
  match source with FramedResponse => bool_decide (x00 ∈ part) | Standalone => false end.

(** [Headers::validate] on a range, and the content it is part of. *)
Definition with_headers (source : ValidationSource) (framed : bytes) (r : ArticleFrameRange)
    (k : HeaderTransformation → result ParseError ArticleContent) : option (result ParseError ArticleContent) :=
  headers ← range_slice framed r;
  if nul_in source headers then Some (Err (InvalidHeader NulInFramedHeader))
  else
    match headers_validate headers with
    | None => None
    | Some (Err e) => Some (Err (InvalidHeader e))
    | Some (Ok transform) => Some (k transform)
    end.

(** The range of a body behind [start]. *)
Definition body_content (source : ValidationSource) (framed : bytes) (start : nat) (k : ArticleFrameRange → ArticleContent)
    : result ParseError ArticleContent :=
  r ← new_range start (length framed);
  if nul_in source (slice (range_start r) (range_end r) framed) then Err InvalidBody else Ok (k r).

Definition content_for (source : ValidationSource) (code : N) (framed : bytes) (content_start : nat)
    : option (result ParseError ArticleContent) :=
  match code with
  | 220%N =>
      match find_blank_line framed content_start with
      | Err e => Some (Err e)
      | Ok separator =>
          match new_range content_start separator with
          | Err e => Some (Err e)
          | Ok headers =>
              with_headers source framed headers (λ transform, body_content source framed (separator + 4) (ContentArticle headers transform))
          end
      end
  | 221%N =>
      match find_blank_line framed content_start with
      | Ok _ => Some (Err UnexpectedBody)
      | Err _ =>
          match new_range content_start (length framed) with
          | Err e => Some (Err e)
          | Ok headers => with_headers source framed headers (λ transform, Ok (ContentHead headers transform))
          end
      end
  | 222%N => Some (body_content source framed content_start ContentBody)
  | 223%N => Some (if content_start <? length framed then Err UnexpectedBody else Ok ContentStat)
  | _ => None
  end.

(** [ArticleLayout::from_first_line]; [framed] is [buf.get(..content_end)]. *)
Definition from_first_line (buf : bytes) (status : StatusCode) (first_line_end : nat) (message_id : ArticleFrameRange)
    (number : option N) (content_end : nat) (source : ValidationSource) : option (result ParseError ArticleLayout) :=
  if content_end <=? length buf then
    fmap (M := result ParseError) (mkLayout message_id number) <$>
      content_for source (as_u16 status) (take content_end buf) (first_line_end + 2)
  else Some (Err BufferTooShort).

Definition article_status (code : N) : bool := (220 <=? code)%N && (code <=? 223)%N.

(** [ArticleLayout::parse] *)
Definition layout_parse (buf : bytes) : option (result ParseError ArticleLayout) :=
  match parse buf with
  | None => Some (Err (InvalidStatusCode 0))
  | Some status =>
      if article_status (as_u16 status) then
        match find_line_end buf 0 with
        | Err e => Some (Err e)
        | Ok first_line_end =>
            match parse_first_line_layout (take first_line_end buf) with
            | Err e => Some (Err e)
            | Ok (message_id, number) => from_first_line buf status first_line_end message_id number (length buf) Standalone
            end
        end
      else Some (Err (InvalidStatusCode (as_u16 status)))
  end.

(** [ArticleLayout::parse_framed] *)
Definition layout_parse_framed (buf : bytes) (status : StatusCode) (status_line_end content_end : nat)
    : option (result ParseError ArticleLayout) :=
  if article_status (as_u16 status) then
    match checked_sub status_line_end 2 with
    | None => Some (Err BufferTooShort)
    | Some first_line_end =>
        if (content_end <? status_line_end) || (length buf <? content_end)
           || negb (bool_decide (slice first_line_end status_line_end buf = CRLF))
        then Some (Err BufferTooShort)
        else
          match parse_first_line_layout (take first_line_end buf) with
          | Err e => Some (Err e)
          | Ok (message_id, number) => from_first_line buf status first_line_end message_id number content_end FramedResponse
          end
    end
  else Some (Err (InvalidStatusCode (as_u16 status))).

(** ** Views *)

(** [ArticleLayout::validate_yenc] *)
Definition layout_validate_yenc (l : ArticleLayout) (buf : bytes) : option (result ParseError unit) :=
  match layout_content l with
  | ContentArticle _ _ r | ContentBody r =>
      body ← range_slice buf r;
      Some (if starts_with (bs "=ybegin") body then map_err InvalidYenc (validate_yenc_structure body) else Ok ())
  | ContentHead _ _ | ContentStat => Some (Ok ())
  end.

(** The headers and the body of a view. *)
Definition content_view (c : ArticleContent) (buf : bytes) : option (option Headers * option bytes) :=
  match c with
  | ContentArticle h transform b =>
      headers ← range_slice buf h; body ← range_slice buf b; Some (Some (mkHeaders headers transform), Some body)
  | ContentHead h transform => headers ← range_slice buf h; Some (Some (mkHeaders headers transform), None)
  | ContentBody b => body ← range_slice buf b; Some (None, Some body)
  | ContentStat => Some (None, None)
  end.

(** [ArticleLayout::view] *)
Definition layout_view (l : ArticleLayout) (buf : bytes) : option ArticleView :=
  message_id ← range_slice buf (layout_message_id l);
  if utf8_valid message_id then
    '(headers, body) ← content_view (layout_content l) buf;
    Some (mkView (mkMessageId message_id) (layout_number l) headers body)
  else None.

(** [layout.validate_yenc(buf)?] under a policy. *)
Definition apply_yenc_policy (policy : YencValidation) (l : ArticleLayout) (buf : bytes) : option (result ParseError unit) :=
  match policy with YencDisabled => Some (Ok ()) | YencEnabled => layout_validate_yenc l buf end.

(** [Article::parse_with_yenc] and [Article::parse] *)
Definition parse_with_yenc (buf : bytes) (policy : YencValidation) : option (result ParseError ArticleView) :=
  r ← layout_parse buf;
  match r with
  | Err e => Some (Err e)
  | Ok layout =>
      checked ← apply_yenc_policy policy layout buf;
      match checked with
      | Err e => Some (Err e)
      | Ok _ => Ok <$> layout_view layout buf
      end
  end.

Definition article_parse (buf : bytes) (validate_yenc : bool) : option (result ParseError ArticleView) :=
  parse_with_yenc buf (if validate_yenc then YencEnabled else YencDisabled).

(** [Article::decode_into]: whether the body is yEnc, and the output. *)
Definition decode_into (a : ArticleView) (output : bytes) : bool * bytes :=
  match view_body a with
  | Some body => match decode_body body with Some decoded => (true, decoded) | None => (false, output) end
  | None => (false, output)
  end.

(** [Article::decode] *)
Definition article_decode (a : ArticleView) : option bytes :=
  _ ← view_body a;
  let '(decoded, output) := decode_into a [] in
  if decoded then Some output else None.

(** ** States *)

(** [Validated]: the bytes of a framed response with the layout found in them. *)
Record Validated := mkValidated { validated_bytes : bytes; validated_kind : RequestKind; validated_status : StatusCode; validated_layout : ArticleLayout }.

(** [Framed::validate]; a [Framed] response is a [CapturedResponse]. *)
Definition framed_validate (f : CapturedResponse) (policy : YencValidation) : option (result ParseError Validated) :=
  r ← layout_parse_framed (cr_bytes f) (meta_status (cr_metadata f)) (meta_status_line_end (cr_metadata f)) (cr_content_end f);
  match r with
  | Err e => Some (Err e)
  | Ok layout =>
      checked ← apply_yenc_policy policy layout (cr_bytes f);
      match checked with
      | Err e => Some (Err e)
      | Ok _ => Some (Ok (mkValidated (cr_bytes f) (meta_kind (cr_metadata f)) (meta_status (cr_metadata f)) layout))
      end
  end.

(** [Article::<Validated>::article] *)
Definition validated_article (v : Validated) : option ArticleView := layout_view (validated_layout v) (validated_bytes v).
End Layout.

(** ** Searches *)

Lemma find_index_spec p n s :
  match find_index p n s with
  | Some k => s ≤ k < s + n ∧ p k = true ∧ ∀ j, s ≤ j < k → p j = false
  | None => ∀ j, s ≤ j < s + n → p j = false
  end.
Proof.
  revert s. induction n as [|n IH]; intros s; cbn [find_index]; [intros; lia|].
  destruct (p s) eqn:Es; [split_and!; [lia|lia|done|intros; lia]|]. specialize (IH (s + 1)).
  assert (∀ j, s ≤ j → j < s + 1 → p j = false) as H1 by (intros j ? ?; by replace j with s by lia).
  destruct (find_index p n (s + 1)) as [k|].
  - destruct IH as (? & ? & Hj). split_and!; [lia|lia|done|]. intros j ?. destruct (decide (j < s + 1)); [apply H1; lia|apply Hj; lia].
  - intros j ?. destruct (decide (j < s + 1)); [apply H1; lia|apply IH; lia].
Qed.

Lemma slice_match (pat buf : bytes) i : slice i (i + length pat) buf = pat ↔ match_at pat buf i.
Proof.
  unfold slice, match_at. replace (i + length pat - i) with (length pat) by lia. split.
  - intros <-. apply prefix_take.
  - intros [k ->]. by rewrite take_app_length.
Qed.

Lemma match_at_shift {A} (pat pre l : list A) j : match_at pat (pre ++ l) (length pre + j) ↔ match_at pat l j.
Proof. rewrite <- match_at_drop. by rewrite drop_app_length. Qed.

(** A search for the pattern [pat] from [start] on, as the loops do it. *)
Lemma find_index_leftmost (pat : bytes) p (pre content : bytes) n :
  pat ≠ [] → (∀ i, p i = true ↔ match_at pat (pre ++ content) i) → length content ≤ n + (length pat - 1) →
  ∃ r, leftmost pat content r ∧ find_index p n (length pre) = (λ i, length pre + i) <$> r.
Proof.
  intros Hpat Hp Hn. assert (0 < length pat) by (destruct pat; [done|cbn; lia]). pose proof (find_index_spec p n (length pre)) as H1.
  destruct (find_index p n (length pre)) as [k|].
  - destruct H1 as (Hk & Hm & Hb). exists (Some (k - length pre)). split; [|cbn; f_equal; lia]. split.
    + rewrite <- (match_at_shift _ pre). apply Hp. by replace (length pre + (k - length pre)) with k by lia.
    + intros j Hj Hmj. rewrite <- (match_at_shift _ pre) in Hmj. apply Hp in Hmj. rewrite Hb in Hmj by lia. done.
  - exists None. split; [|done]. intros j Hmj. pose proof (match_at_length _ _ _ Hmj Hpat). rewrite <- (match_at_shift _ pre) in Hmj. apply Hp in Hmj.
    rewrite H1 in Hmj by lia. done.
Qed.

Lemma find_blank_line_spec pre content :
  ∃ r, leftmost BLANK_LINE content r ∧ find_blank_line (pre ++ content) (length pre) = ok_or MissingSeparator ((λ i, length pre + i) <$> r).
Proof.
  destruct (find_index_leftmost BLANK_LINE (λ i, bool_decide (slice i (i + 4) (pre ++ content) = BLANK_LINE)) pre content
    ((length (pre ++ content) - 3) - length pre)) as (r & Hr & Hf); [done| |rewrite length_app; cbn; lia|].
  - intros i. rewrite bool_decide_eq_true. apply (slice_match BLANK_LINE).
  - exists r. split; [done|]. unfold find_blank_line. by rewrite Hf.
Qed.

Lemma find_line_end_exact buf : ∃ r, leftmost CRLF buf r ∧ find_line_end buf 0 = ok_or BufferTooShort r.
Proof.
  destruct (find_index_leftmost CRLF (λ i, bool_decide (buf !! i = Some CR) && (i + 1 <? length buf) && bool_decide (buf !! (i + 1) = Some LF)) [] buf (length buf - 0))
    as (r & Hr & Hf); [done| |cbn; lia|].
  - intros i. rewrite !andb_true_iff, !bool_decide_eq_true, Nat.ltb_lt. unfold match_at. cbn [app]. split.
    + intros [[H1 _] H2]. exists (drop (i + 2) buf). rewrite (drop_S _ _ _ H1), (drop_S buf LF (S i)) by (by rewrite <- H2; f_equal; lia). cbn. do 3 f_equal. lia.
    + intros [u Hu]. assert (∀ k, buf !! (i + k) = (CRLF ++ u) !! k) as Hl by (intros k; by rewrite <- lookup_drop, Hu).
      pose proof (Hl 0) as H0. pose proof (Hl 1) as H1. rewrite Nat.add_0_r in H0. split_and!; [done| |done]. by apply lookup_lt_Some in H1.
  - exists r. split; [done|]. unfold find_line_end. change (length []) with 0 in Hf. rewrite Hf. by destruct r.
Qed.

(** ** What a parse means *)

(** The status line of an article response: the status, the number and, somewhere
    behind, a message-id. *)
Definition status_line (line id : bytes) (number : option N) : Prop :=
  ∃ status text gap inner rest,
    line = status ++ x20 :: text ++ x20 :: gap ++ id ++ rest ∧ id = x3c :: inner ++ [x3e] ∧ message_id_inner inner ∧
    x20 ∉ status ∧ x20 ∉ text ∧ x3c ∉ gap ∧ number = (if utf8_valid text then parse_u64 text else None).

Definition content_ok {MC : Memchr} (source : ValidationSource) (code : N) (content : bytes) (headers : option Headers) (body : option bytes) : Prop :=
  match code with
  | 220%N => ∃ h transform b,
      content = h ++ BLANK_LINE ++ b ∧ leftmost BLANK_LINE content (Some (length h)) ∧ nul_in source h = false ∧ nul_in source b = false ∧
      headers_validate h = Some (Ok transform) ∧ headers = Some (mkHeaders h transform) ∧ body = Some b
  | 221%N => ∃ transform,
      leftmost BLANK_LINE content None ∧ nul_in source content = false ∧ headers_validate content = Some (Ok transform) ∧
      headers = Some (mkHeaders content transform) ∧ body = None
  | 222%N => nul_in source content = false ∧ headers = None ∧ body = Some content
  | 223%N => content = [] ∧ headers = None ∧ body = None
  | _ => False
  end.

(** The first [content_end] bytes of [buf] are an article response with that view. *)
Definition describes {MC : Memchr} (source : ValidationSource) (buf : bytes) (status : StatusCode) (status_line_end content_end : nat) (v : ArticleView) : Prop :=
  ∃ line content,
    take content_end buf = line ++ CRLF ++ content ∧ length line + 2 = status_line_end ∧ content_end ≤ length buf ∧
    status_line line (message_id_str (view_message_id v)) (view_number v) ∧
    content_ok source (as_u16 status) content (view_headers v) (view_body v).

Section LayoutFacts.
Context {MC : Memchr} {MS : MemchrSpec MC} {H32 : Crc32}.

Lemma position_head (c : byte) l rest : c ∉ l → position (Byte.eqb c) (l ++ c :: rest) = Some (length l).
Proof. apply position_first. Qed.

(** A status line is parsed. *)
Lemma first_line_complete line id number :
  status_line line id number → ∃ r, parse_first_line_layout line = Ok (r, number) ∧ range_slice line r = Some id.
Proof.
  intros (status & text & gap & inner & rest & -> & Hid & Hin & Hs & Ht & Hg & ->). set (line := status ++ _).
  set (a := length status). set (b := a + 1 + length text). set (c := b + (1 + length gap)). set (d := c + (1 + length inner) + 1).
  assert (x3e ∉ x3c :: inner) as Hgt.
  { intros [?|Hin']%elem_of_cons; [done|]. destruct Hin as [_ Hall]. rewrite Forall_forall in Hall. by destruct (Hall _ Hin'). }
  assert (drop (a + 1) line = text ++ x20 :: gap ++ id ++ rest) as D1.
  { unfold line, a. rewrite (cons_middle x20), app_assoc. apply drop_app_length'. by rewrite length_app. }
  assert (drop b line = x20 :: gap ++ id ++ rest) as D2 by (unfold b; rewrite <- drop_drop, D1; apply drop_app_length).
  assert (drop c line = id ++ rest) as D3 by (unfold c; rewrite <- drop_drop, D2; cbn [drop Nat.add]; apply drop_app_length).
  assert (slice (a + 1) b line = text) as S1.
  { unfold slice. rewrite D1. replace (b - (a + 1)) with (length text) by (unfold b; lia). apply take_app_length. }
  assert (slice c d line = id) as S2.
  { unfold slice. rewrite D3. replace (d - c) with (length id) by (rewrite Hid; cbn; rewrite length_app; cbn; unfold d; lia). apply take_app_length. }
  exists (mkRange c d). split.
  - assert (position (Byte.eqb x20) line = Some a) as P1 by by apply position_head.
    assert (position (Byte.eqb x20) (drop (a + 1) line) = Some (length text)) as P2 by (rewrite D1; by apply position_head).
    assert (position (Byte.eqb x3c) (drop b line) = Some (1 + length gap)) as P3.
    { rewrite D2, Hid, <- !app_comm_cons, (app_comm_cons gap). apply (position_head x3c (x20 :: gap)). by intros [?|?]%elem_of_cons. }
    assert (position (Byte.eqb x3e) (drop c line) = Some (1 + length inner)) as P4.
    { rewrite D3, Hid. replace ((x3c :: inner ++ [x3e]) ++ rest) with ((x3c :: inner) ++ x3e :: rest) by (cbn; by rewrite <- app_assoc). by apply position_head. }
    unfold parse_first_line_layout. rewrite !memchr_spec, P1. cbn [ok_or mbind result_bind]. rewrite memchr_spec, P2.
    cbn [fmap option_fmap option_map ok_or mbind result_bind]. fold b. rewrite S1, memchr_spec, P3.
    cbn [fmap option_fmap option_map ok_or mbind result_bind]. fold c. rewrite memchr_spec, P4.
    cbn [fmap option_fmap option_map ok_or mbind result_bind]. fold d. rewrite S2.
    assert (validate_message_id id = Ok ()) as Hv by (apply validate_message_id_ok; eauto).
    rewrite (validate_message_id_utf8 _ Hv). cbn [ensure mbind result_bind]. unfold MessageId_new. rewrite Hv. cbn [mbind result_bind map_err mret result_ret].
    unfold new_range. rewrite (proj2 (Nat.ltb_ge d c)) by (unfold d; lia). done.
  - unfold range_slice. cbn [range_start range_end]. rewrite S2, (proj2 (Nat.leb_le c d)) by (unfold d; lia). cbn [andb].
    assert (d ≤ length line) as Hd; [|by rewrite (proj2 (Nat.leb_le d _))].
    unfold line, d, c, b, a. rewrite Hid. cbn. rewrite !length_app. cbn. rewrite !length_app. cbn. rewrite !length_app. cbn. rewrite !length_app. cbn. lia.
Qed.

(** What is parsed is a status line. *)
Lemma first_line_sound line r number :
  parse_first_line_layout line = Ok (r, number) → ∃ id, status_line line id number ∧ range_slice line r = Some id.
Proof.
  unfold parse_first_line_layout. rewrite memchr_spec. destruct (position (Byte.eqb x20) line) as [a|] eqn:E1; [|done]. cbn [ok_or mbind result_bind].
  apply position_line in E1 as (status & u & Hline & Ha & Hs).
  assert (drop (a + 1) line = u) as D1 by (rewrite Hline, (cons_middle x20), app_assoc, <- Ha; apply drop_app_length'; by rewrite length_app).
  rewrite D1, memchr_spec. destruct (position (Byte.eqb x20) u) as [k|] eqn:E2; [|done]. apply position_line in E2 as (text & w & Hu & Hk & Ht).
  cbn [fmap option_fmap option_map ok_or mbind result_bind]. set (b := a + 1 + k).
  assert (drop b line = x20 :: w) as D2 by (unfold b; rewrite <- drop_drop, D1, Hu, <- Hk; apply drop_app_length).
  assert (slice (a + 1) b line = text) as S1.
  { unfold slice. rewrite D1, Hu. replace (b - (a + 1)) with (length text) by (unfold b; lia). apply take_app_length. }
  rewrite D2, S1, memchr_spec. destruct (position (Byte.eqb x3c) (x20 :: w)) as [k3|] eqn:E3; [|done].
  apply position_line in E3 as (g & z & Hw & Hk3 & Hg). destruct g as [|g0 gap]; [done|]. injection Hw as <- Hw.
  cbn [fmap option_fmap option_map ok_or mbind result_bind]. set (c := b + k3).
  assert (drop c line = x3c :: z) as D3 by (unfold c; rewrite <- drop_drop, D2, <- Hk3, Hw; cbn [drop length]; apply drop_app_length).
  rewrite D3, memchr_spec. destruct (position (Byte.eqb x3e) (x3c :: z)) as [k4|] eqn:E4; [|done].
  apply position_line in E4 as (y & rest & Hz & Hk4 & Hy). cbn [fmap option_fmap option_map ok_or mbind result_bind]. set (d := c + k4 + 1).
  assert (slice c d line = y ++ [x3e]) as S2.
  { unfold slice. rewrite D3, Hz, (cons_middle x3e), app_assoc. replace (d - c) with (length (y ++ [x3e])) by (rewrite length_app; cbn; unfold d; lia).
    apply take_app_length. }
  rewrite S2. destruct (utf8_valid (y ++ [x3e])); [|done]. cbn [ensure mbind result_bind]. unfold MessageId_new.
  destruct (validate_message_id (y ++ [x3e])) as [[]|] eqn:Hv; [|done]. cbn [mbind result_bind map_err mret result_ret]. unfold new_range.
  destruct (Nat.ltb_spec d c); [done|]. cbn [mbind result_bind]. intros [= <- <-]. exists (y ++ [x3e]). split.
  - apply validate_message_id_ok in Hv as (inner & Hid & Hin). exists status, text, gap, inner, rest. split_and!; try done.
    + rewrite Hline, Hu, Hw, Hz. by rewrite <- (app_assoc y).
    + intros ?. by apply Hg, elem_of_cons; right.
  - unfold range_slice. cbn [range_start range_end]. rewrite S2, (proj2 (Nat.leb_le c d)) by done. cbn [andb].
    assert (d ≤ length line) as Hd; [|by rewrite (proj2 (Nat.leb_le d _))].
    assert (length (drop c line) = length (y ++ x3e :: rest)) as Hl by by rewrite D3, Hz. rewrite length_drop, length_app in Hl. cbn in Hl. unfold d. lia.
Qed.

Lemma range_slice_mid (pre x post : bytes) : range_slice (pre ++ x ++ post) (mkRange (length pre) (length pre + length x)) = Some x.
Proof.
  unfold range_slice. cbn [range_start range_end]. rewrite (proj2 (Nat.leb_le _ _)), (proj2 (Nat.leb_le _ _)) by (rewrite ?length_app; lia). cbn [andb].
  unfold slice. rewrite drop_app_length. replace (length pre + length x - length pre) with (length x) by lia. by rewrite take_app_length.
Qed.

Lemma range_slice_rest (pre x : bytes) : range_slice (pre ++ x) (mkRange (length pre) (length (pre ++ x))) = Some x.
Proof. rewrite length_app. pose proof (range_slice_mid pre x []) as H. by rewrite app_nil_r in H. Qed.

Lemma range_slice_app (buf post : bytes) r x : range_slice buf r = Some x → range_slice (buf ++ post) r = Some x.
Proof.
  unfold range_slice. destruct (_ && _) eqn:E; [|done]. intros [= <-]. reflect_bools. rewrite (proj2 (Nat.leb_le _ _)), (proj2 (Nat.leb_le _ _)) by (rewrite ?length_app; lia).
  cbn [andb]. f_equal. unfold slice. rewrite drop_app_le by lia. apply take_app_le. rewrite length_drop. lia.
Qed.

Lemma content_view_app c buf post hb : content_view c buf = Some hb → content_view c (buf ++ post) = Some hb.
Proof.
  destruct c as [h tr b|h tr|b|]; cbn [content_view]; intros H; [..|done].
  - apply bind_Some in H as (x & Hx & (y & Hy & E)%bind_Some). rewrite (range_slice_app _ post _ _ Hx). cbn. by rewrite (range_slice_app _ post _ _ Hy).
  - apply bind_Some in H as (x & Hx & E). by rewrite (range_slice_app _ post _ _ Hx).
  - apply bind_Some in H as (x & Hx & E). by rewrite (range_slice_app _ post _ _ Hx).
Qed.

Lemma headers_validate_total data : ∃ r, headers_validate data = Some r.
Proof. unfold headers_validate. destruct (validate_headers_decides data) as [[r ->] _]. cbn. eauto. Qed.

(** A part of the content that is a header block. *)
Lemma with_headers_spec source pre x post k :
  with_headers source (pre ++ x ++ post) (mkRange (length pre) (length pre + length x)) k =
    if nul_in source x then Some (Err (InvalidHeader NulInFramedHeader))
    else match headers_validate x with None => None | Some (Err e) => Some (Err (InvalidHeader e)) | Some (Ok transform) => Some (k transform) end.
Proof. unfold with_headers. by rewrite range_slice_mid. Qed.

Lemma body_content_spec source pre x k :
  body_content source (pre ++ x) (length pre) k = if nul_in source x then Err InvalidBody else Ok (k (mkRange (length pre) (length (pre ++ x)))).
Proof.
  unfold body_content, new_range. rewrite (proj2 (Nat.ltb_ge _ _)) by (rewrite length_app; lia). cbn [mbind result_bind range_start range_end].
  pose proof (range_slice_rest pre x) as H. unfold range_slice in H. cbn [range_start range_end] in H. destruct (_ && _); [|done]. injection H as ->. done.
Qed.

Lemma new_range_mid (pre x : bytes) : new_range (length pre) (length pre + length x) = Ok (mkRange (length pre) (length pre + length x)).
Proof. unfold new_range. by rewrite (proj2 (Nat.ltb_ge _ _)) by lia. Qed.

Lemma blank_line_cut content i : leftmost BLANK_LINE content (Some i) → ∃ h b, content = h ++ BLANK_LINE ++ b ∧ length h = i.
Proof.
  intros [[b Hb] _]. exists (take i content), b. rewrite <- Hb, take_drop. split; [done|]. rewrite length_take.
  assert (length (drop i content) = length (BLANK_LINE ++ b)) as Hl by by rewrite Hb. rewrite length_drop, length_app in Hl. cbn in Hl. lia.
Qed.

(** The outcome for an ARTICLE response. *)
Lemma content_article source pre h b :
  leftmost BLANK_LINE (h ++ BLANK_LINE ++ b) (Some (length h)) →
  content_for source 220 (pre ++ h ++ BLANK_LINE ++ b) (length pre) =
    if nul_in source h then Some (Err (InvalidHeader NulInFramedHeader))
    else
      match headers_validate h with
      | None => None
      | Some (Err e) => Some (Err (InvalidHeader e))
      | Some (Ok transform) =>
          Some (if nul_in source b then Err InvalidBody
                else Ok (ContentArticle (mkRange (length pre) (length pre + length h)) transform
                  (mkRange (length pre + length h + 4) (length (pre ++ h ++ BLANK_LINE ++ b)))))
      end.
Proof.
  intros Hl. unfold content_for. destruct (find_blank_line_spec pre (h ++ BLANK_LINE ++ b)) as (r & Hr & ->).
  rewrite (leftmost_unique _ _ _ _ Hr Hl). cbn [fmap option_fmap option_map ok_or]. rewrite new_range_mid, with_headers_spec.
  destruct (nul_in source h); [done|]. destruct (headers_validate h) as [[tr|e]|]; [|done..]. do 2 f_equal.
  replace (pre ++ h ++ BLANK_LINE ++ b) with ((pre ++ h ++ BLANK_LINE) ++ b) by by rewrite <- !app_assoc.
  replace (length pre + length h + 4) with (length (pre ++ h ++ BLANK_LINE)) by (rewrite !length_app; cbn; lia).
  apply body_content_spec.
Qed.

Lemma content_head source pre content :
  leftmost BLANK_LINE content None →
  content_for source 221 (pre ++ content) (length pre) =
    if nul_in source content then Some (Err (InvalidHeader NulInFramedHeader))
    else
      match headers_validate content with
      | None => None
      | Some (Err e) => Some (Err (InvalidHeader e))
      | Some (Ok transform) => Some (Ok (ContentHead (mkRange (length pre) (length (pre ++ content))) transform))
      end.
Proof.
  intros Hl. unfold content_for. destruct (find_blank_line_spec pre content) as (r & Hr & ->).
  rewrite (leftmost_unique _ _ _ _ Hr Hl). cbn [fmap option_fmap option_map ok_or]. rewrite length_app, new_range_mid.
  pose proof (with_headers_spec source pre content [] (λ transform, Ok (ContentHead (mkRange (length pre) (length pre + length content)) transform))) as H.
  by rewrite app_nil_r in H.
Qed.

Lemma article_status_cases code : article_status code = true → code = 220%N ∨ code = 221%N ∨ code = 222%N ∨ code = 223%N.
Proof. unfold article_status. intros H. reflect_bools. lia. Qed.

(** The parser of the content decides [content_ok], and the layout it returns shows
    the headers and the body. *)
Definition content_result (source : ValidationSource) (code : N) (pre content : bytes) (o : option (result ParseError ArticleContent)) : Prop :=
  match o with
  | None => False
  | Some (Ok c) => ∃ h b, content_view c (pre ++ content) = Some (h, b) ∧ content_ok source code content h b
  | Some (Err _) => ∀ h b, ¬ content_ok source code content h b
  end.

Lemma content_for_article source pre content : content_result source 220 pre content (content_for source 220 (pre ++ content) (length pre)).
Proof.
  destruct (find_blank_line_spec pre content) as ([i|] & Hr & Hf).
  2: { unfold content_for. rewrite Hf. intros h b (h' & tr & b' & _ & Hl & _). pose proof (leftmost_unique _ _ _ _ Hl Hr) as [=]. }
  destruct (blank_line_cut _ _ Hr) as (h & b & -> & <-). rewrite content_article by done.
  assert (∀ hs bd, content_ok source 220 (h ++ BLANK_LINE ++ b) hs bd → nul_in source h = false ∧ nul_in source b = false ∧ ∃ tr, headers_validate h = Some (Ok tr)) as Hno.
  { intros hs bd (h' & tr & b' & E & Hl & ? & ? & ? & _). pose proof (leftmost_unique _ _ _ _ Hl Hr) as [= Hlen]. apply app_inj_1 in E as [-> E]; [|done].
    apply app_inj_1 in E as [_ ->]; [|done]. eauto. }
  destruct (nul_in source h) eqn:En; [intros hs bd (? & _)%Hno; done|]. destruct (headers_validate_total h) as [[tr|e] Hv]; rewrite Hv in *.
  2: { intros hs bd (_ & _ & tr & [=])%Hno. }
  destruct (nul_in source b) eqn:Eb; [intros hs bd (_ & ? & _)%Hno; done|].
  exists (Some (mkHeaders h tr)), (Some b). split; [|by exists h, tr, b; split_and!].
  cbn [content_view]. rewrite range_slice_mid. cbn [mbind option_bind].
  replace (pre ++ h ++ BLANK_LINE ++ b) with ((pre ++ h ++ BLANK_LINE) ++ b) by by rewrite <- !app_assoc.
  replace (length pre + length h + 4) with (length (pre ++ h ++ BLANK_LINE)) by (rewrite !length_app; cbn; lia). by rewrite range_slice_rest.
Qed.

Lemma content_for_head source pre content : content_result source 221 pre content (content_for source 221 (pre ++ content) (length pre)).
Proof.
  destruct (find_blank_line_spec pre content) as ([i|] & Hr & Hf).
  { unfold content_for. rewrite Hf. intros h b (tr & Hl & _). pose proof (leftmost_unique _ _ _ _ Hl Hr) as [=]. }
  rewrite content_head by done. destruct (nul_in source content) eqn:En; [intros h b (tr & _ & ? & _); congruence|].
  destruct (headers_validate_total content) as [[tr|e] Hv]; rewrite Hv; [|intros h b (tr & _ & _ & ? & _); congruence].
  exists (Some (mkHeaders content tr)), None. cbn [content_view]. rewrite range_slice_rest. split; [done|]. by exists tr; split_and!.
Qed.

Lemma content_for_spec source code pre content :
  article_status code = true → content_result source code pre content (content_for source code (pre ++ content) (length pre)).
Proof.
  intros [->|[->|[->| ->]]]%article_status_cases; [apply content_for_article|apply content_for_head|..]; unfold content_for.
  - rewrite body_content_spec. destruct (nul_in source content) eqn:En; [intros h b [? _]; congruence|]. exists None, (Some content).
    cbn [content_view]. by rewrite range_slice_rest.
  - destruct (Nat.ltb_spec (length pre) (length (pre ++ content))) as [Hlt|Hge].
    + intros h b [-> _]. rewrite app_nil_r in Hlt. lia.
    + exists None, None. split; [done|]. split; [|done]. destruct content; [done|]. rewrite length_app in Hge. cbn in Hge. lia.
Qed.

Lemma content_ok_unique source code content h b h' b' :
  content_ok source code content h b → content_ok source code content h' b' → h = h' ∧ b = b'.
Proof.
  destruct (article_status code) eqn:Ea.
  2: { unfold content_ok. intros H. exfalso. repeat case_match; try done. }
  apply article_status_cases in Ea as [->|[->|[->| ->]]].
  - intros (x & tr & y & E & Hl & _ & _ & Hv & -> & ->) (x' & tr' & y' & E' & Hl' & _ & _ & Hv' & -> & ->).
    pose proof (leftmost_unique _ _ _ _ Hl Hl') as [= Hlen]. rewrite E in E'. apply app_inj_1 in E' as [-> E']; [|done]. apply app_inj_1 in E' as [_ ->]; [|done].
    rewrite Hv in Hv'. by injection Hv' as ->.
  - intros (tr & _ & _ & Hv & -> & ->) (tr' & _ & _ & Hv' & -> & ->). rewrite Hv in Hv'. by injection Hv' as ->.
  - by intros (_ & -> & ->) (_ & -> & ->).
  - by intros (_ & -> & ->) (_ & -> & ->).
Qed.

Lemma status_line_utf8 line id number : status_line line id number → utf8_valid id = true.
Proof.
  intros (? & ? & ? & inner & ? & _ & -> & Hin & _). apply validate_message_id_utf8, validate_message_id_ok. eauto.
Qed.

(** The parser behind a known status line. *)
Lemma from_first_line_spec source buf status sle ce line content :
  article_status (as_u16 status) = true → take ce buf = line ++ CRLF ++ content → length line + 2 = sle → ce ≤ length buf →
  match
    match parse_first_line_layout line with
    | Err e => Some (Err e)
    | Ok (message_id, number) => from_first_line buf status (length line) message_id number ce source
    end
  with
  | None => False
  | Some (Ok layout) => (∃ v, layout_view layout buf = Some v) ∧ ∀ v, layout_view layout buf = Some v ↔ describes source buf status sle ce v
  | Some (Err _) => ∀ v, ¬ describes source buf status sle ce v
  end.
Proof.
  intros Hst Htake Hsle Hce.
  assert (∀ v, describes source buf status sle ce v ↔ status_line line (message_id_str (view_message_id v)) (view_number v) ∧
    content_ok source (as_u16 status) content (view_headers v) (view_body v)) as Hdesc.
  { intros v. split; [|intros [? ?]; by exists line, content]. intros (line' & content' & E & Hl & _ & Hs & Hc). rewrite Htake in E.
    apply app_inj_1 in E as [-> E]; [|lia]. by simplify_eq. }
  destruct (parse_first_line_layout line) as [[r number]|e] eqn:Ep.
  2: { intros v [(r & Hr & _)%first_line_complete _]%Hdesc. congruence. }
  destruct (first_line_sound line r number Ep) as (id & Hid & Hr). unfold from_first_line. rewrite (proj2 (Nat.leb_le _ _)) by done. rewrite Htake.
  replace (line ++ CRLF ++ content) with ((line ++ CRLF) ++ content) by by rewrite <- app_assoc.
  replace (length line + 2) with (length (line ++ CRLF)) by (rewrite length_app; cbn; lia).
  pose proof (content_for_spec source (as_u16 status) (line ++ CRLF) content Hst) as Hc. unfold content_result in Hc.
  destruct (content_for source (as_u16 status) _ _) as [[c|e]|]; cbn [fmap option_fmap option_map result_fmap]; [|intros v [_ ?]%Hdesc; by apply (Hc (view_headers v) (view_body v))|done].
  destruct Hc as (h & b & Hv & Hok).
  assert (layout_view (mkLayout r number c) buf = Some (mkView (mkMessageId id) number h b)) as Hview.
  { unfold layout_view. cbn [layout_message_id layout_content layout_number]. rewrite <- (take_drop ce buf), Htake.
    rewrite <- app_assoc, (range_slice_app _ _ _ _ Hr). cbn [mbind option_bind]. rewrite (status_line_utf8 _ _ _ Hid).
    rewrite !app_assoc, <- (app_assoc line), app_assoc in *. by rewrite (content_view_app _ _ _ _ Hv). }
  split; [eauto|]. intros v. rewrite Hview, Hdesc. split; [by intros [= <-]|]. intros [Hs Hc].
  destruct (first_line_complete _ _ _ Hs) as (r' & Hr' & Hsl). rewrite Ep in Hr'. injection Hr' as <- ->. rewrite Hr in Hsl. injection Hsl as ->.
  destruct (content_ok_unique _ _ _ _ _ _ _ Hok Hc) as [-> ->]. by destruct v as [[] ? ? ?].
Qed.

Lemma content_ok_status source code content h b : content_ok source code content h b → article_status code = true.
Proof. unfold content_ok. intros H. repeat case_match; done. Qed.

(** The outcome [o] of a parse decides whether the bytes are an article response, and
    what its view shows. *)
Definition parse_decides (source : ValidationSource) (buf : bytes) (status : StatusCode) (sle ce : nat) (o : option (result ParseError ArticleLayout)) : Prop :=
  match o with
  | None => False
  | Some (Ok layout) => (∃ v, layout_view layout buf = Some v) ∧ ∀ v, layout_view layout buf = Some v ↔ describes source buf status sle ce v
  | Some (Err _) => ∀ v, ¬ describes source buf status sle ce v
  end.

Lemma framed_parse_decides buf status sle ce : parse_decides FramedResponse buf status sle ce (layout_parse_framed buf status sle ce).
Proof.
  unfold layout_parse_framed. destruct (article_status (as_u16 status)) eqn:Ea.
  2: { intros v (line & content & _ & _ & _ & _ & Hc). apply content_ok_status in Hc. congruence. }
  unfold checked_sub. destruct (Nat.ltb_spec sle 2) as [Hlt|Hge]; [intros v (line & content & _ & Hl & _); lia|].
  destruct (_ || _ || _) eqn:E.
  - intros v (line & content & Ht & Hl & Hce & _). assert (length (take ce buf) = length (line ++ CRLF ++ content)) as Hlen by by rewrite Ht.
    rewrite length_take, !length_app in Hlen. cbn in Hlen. apply orb_true_iff in E as [[E|E]%orb_true_iff|E]; [reflect_bools; lia..|].
    apply negb_true_iff, bool_decide_eq_false in E. apply E. rewrite <- (take_drop ce buf), Ht, <- !app_assoc. unfold slice.
    replace (sle - (sle - 2)) with 2 by lia. replace (sle - 2) with (length line) by lia. by rewrite drop_app_length.
  - reflect_bools. assert (take ce buf = take (sle - 2) buf ++ CRLF ++ drop sle (take ce buf)) as Htake.
    { rewrite <- H0 at 1. unfold slice. replace (sle - (sle - 2)) with 2 by lia. rewrite <- (take_drop sle (take ce buf)) at 1. rewrite take_take, Nat.min_l by lia.
      rewrite app_assoc. f_equal. rewrite <- (take_drop (sle - 2) (take sle buf)), take_take, Nat.min_l by lia. f_equal. rewrite skipn_firstn_comm. f_equal. lia. }
    pose proof (from_first_line_spec FramedResponse buf status sle ce (take (sle - 2) buf) (drop sle (take ce buf)) Ea Htake) as H2.
    rewrite length_take, Nat.min_l in H2 by lia. apply H2; lia.
Qed.


(** The standalone parser finds the status line at the first line end. *)
Lemma standalone_parse_decides buf :
  match parse buf, find_line_end buf 0 with
  | Some status, Ok p => parse_decides Standalone buf status (p + 2) (length buf) (layout_parse buf)
  | _, _ => ∃ e, layout_parse buf = Some (Err e)
  end.
Proof.
  unfold layout_parse. destruct (parse buf) as [status|]; [|eauto]. destruct (find_line_end_exact buf) as (r & Hr & ->).
  destruct r as [p|]; cbn [ok_or]; [|destruct (article_status _); eauto]. destruct (article_status (as_u16 status)) eqn:Ea.
  2: { intros v (line & content & _ & _ & _ & _ & Hc). apply content_ok_status in Hc. congruence. }
  destruct Hr as [[content Hc] _]. assert (p ≤ length buf) as Hp.
  { assert (length (drop p buf) = length (CRLF ++ content)) as Hl by by rewrite Hc. rewrite length_drop, length_app in Hl. cbn in Hl. lia. }
  pose proof (from_first_line_spec Standalone buf status (p + 2) (length buf) (take p buf) content Ea) as H.
  rewrite length_take, Nat.min_l in H by lia. apply H; [|done|done]. by rewrite firstn_all, <- Hc, take_drop.
Qed.
End LayoutFacts.

Definition sample_article : bytes :=
  bs "220 7 <a@b>" ++ CRLF ++ bs "Subject: s" ++ CRLF ++ CRLF ++ bs "text" ++ CRLF.

