(* ===== verification/Client.v ===== *)
(** * Client: the standalone client library

    Models [src/src/client/mod.rs]: [NntpClient], which fetches articles over pooled
    connections, and the framed and validated articles it returns.  The pool gives a
    connection or none, the send succeeds or fails; the result says what becomes of
    the connection.  An outer [None] is a failed assertion of the connection guard,
    which the theorems exclude. *)

From S2P Require Import Prelude Protocol Request Scanner Framer Tracker Article Stream Transfer Exchange Isolated Retry Precheck Yenc Headers Layout.

Inductive ClientError :=
| NoConnection
| ExchangeFailed (e : AnyError)
| InvalidServerResponse
| ArticleNotFound
| ServerError (code : N)
| UnexpectedArticleStatus (kind : RequestKind) (expected got : N)
| UnexpectedStatResponse (code : N)
| CaptureFailed (e : AnyError).

(** The end of a connection's use: what the guard does with it. *)
Definition ConnectionEnd : Type := ConnectionFate * ConnectionStream.

(** [ConnectionGuard::complete_success] with its assertions. *)
Definition complete_success (c : ConnectionStream) : option ConnectionEnd :=
  if bool_decide (phase c = PhaseComplete) && (pending_bytes_len c =? 0) then Some (Released, c) else None.

(** [NntpClient::validate_response] *)
Definition validate_response (status : StatusCode) : result ClientError unit :=
  if (as_u16 status =? 430)%N then Err ArticleNotFound
  else if (400 <=? as_u16 status)%N then Err (ServerError (as_u16 status))
  else Ok ().

Definition validate_article_response_shape (k : RequestKind) (status : StatusCode) : result ClientError unit :=
  let check expected := if (as_u16 status =? expected)%N then Ok () else Err (UnexpectedArticleStatus k expected (as_u16 status)) in
  match k with
  | Article => check 220%N
  | Head => check 221%N
  | Body => check 222%N
  | _ => Ok ()
  end.

Definition parse_stat_response (status : StatusCode) : result ClientError bool :=
  match as_u16 status with
  | 223%N => Ok true
  | 430%N => Ok false
  | code => Err (UnexpectedStatResponse code)
  end.

Section Client.
Context {MC : Memchr} (t : target).
Variable fresh : PooledBuffer.

(** [capture_isolated_and_reuse]; an error drops the guard. *)
Definition capture_isolated_and_reuse (cl : ClassifiedResponse) (c : ConnectionStream)
    : option (result ClientError CapturedResponse * ConnectionEnd) :=
  match capture_isolated t cl c with
  | (Err e, c) => Some (Err (CaptureFailed e), (RemovedCooldown, c))
  | (Ok captured, c) => pair (Ok captured) <$> complete_success c
  end.

(** The result of a capture, with [f] applied to what was captured. *)
Definition ended {A B} (f : A → B) (x : result ClientError A * ConnectionEnd) : result ClientError B * option ConnectionEnd :=
  (match x.1 with Ok a => Ok (f a) | Err e => Err e end, Some x.2).

(** [NntpClient::fetch_response]; [fetch_article], [fetch_head] and [fetch_body] call it
    with their request. *)
Definition fetch_response (conn : option ConnectionStream) (send : result ErrorKind unit) (request : RequestContext)
    : option (result ClientError CapturedResponse * option ConnectionEnd) :=
  match conn with
  | None => Some (Err NoConnection, None)
  | Some c =>
      match execute_request_exchange fresh send request c with
      | (Err e, c) => Some (Err (ExchangeFailed e), Some (RemovedCooldown, c))
      | (Ok cl, c) =>
          match status_code cl with
          | None => Some (Err InvalidServerResponse, Some (RemovedCooldown, c))
          | Some status =>
              match (_ ← validate_response status; validate_article_response_shape (kind request) status) with
              | Err e => Some (Err e, Some (RemovedCooldown, c))
              | Ok _ => ended id <$> capture_isolated_and_reuse cl c
              end
          end
      end
  end.

Definition fetch_article conn send (m : MessageId) := fetch_response conn send (article_request m).
Definition fetch_head conn send (m : MessageId) := fetch_response conn send (head_request m).
Definition fetch_body conn send (m : MessageId) := fetch_response conn send (body_request m).

(** [NntpClient::stat] *)
Definition client_stat (conn : option ConnectionStream) (send : result ErrorKind unit) (m : MessageId)
    : option (result ClientError bool * option ConnectionEnd) :=
  match conn with
  | None => Some (Err NoConnection, None)
  | Some c =>
      match execute_request_exchange fresh send (stat_request m) c with
      | (Err e, c) => Some (Err (ExchangeFailed e), Some (RemovedCooldown, c))
      | (Ok cl, c) =>
          match status_code cl with
          | None => Some (Err InvalidServerResponse, Some (RemovedCooldown, c))
          | Some status =>
              match parse_stat_response status with
              | Err e => Some (Err e, Some (RemovedCooldown, c))
              | Ok exists_ =>
                  ended (λ _, exists_) <$> capture_isolated_and_reuse cl c
              end
          end
      end
  end.
End Client.

(** [FramedArticle::validate_with_yenc] and [validate] *)
Definition validate_with_yenc {MC : Memchr} {H32 : Crc32} (f : CapturedResponse) (policy : YencValidation) : option (result ParseError Validated) :=
  framed_validate f policy.

Definition framed_article_validate {MC : Memchr} {H32 : Crc32} (f : CapturedResponse) (validate_yenc : bool) : option (result ParseError Validated) :=
  validate_with_yenc f (if validate_yenc then YencEnabled else YencDisabled).

(** ** Facts *)

Section ClientFacts.
Context {MC : Memchr} {MS : MemchrSpec MC} {PL : PoolLimit} (t : target).
Variable fresh : PooledBuffer.
Hypothesis fresh_acquired : acquired fresh.

(** A connection as the pool hands it out. *)
Definition idle (c : ConnectionStream) : Prop := conn_ok c ∧ pending_bytes_len c = 0.

(** The classified response and what is still to come are what was to come. *)
Lemma read_unbound_stream fuel request b c :
  conn_ok c → buffer_ok b →
  ∀ cl, (read_unbound_loop fuel request b c).1 = Ok cl →
    visible (cl_buffer cl) ++ upcoming (read_unbound_loop fuel request b c).2 = visible b ++ upcoming c ∧ cl_kind cl = kind request.
Proof.
  revert b c. induction fuel as [|fuel IH]; intros b c Hc Hb cl; cbn [read_unbound_loop].
  all: destruct (parse_bytes request (visible b)) as [frame|[|ws]] eqn:Ef; [by intros [= <-]| |by intros [= <-]].
  all: destruct (decide (initialized b < read_limit b)) as [Hlt|Hge]; [|destruct (read_more_full b c) as [b' ->]; [lia|done]].
  all: pose proof (read_more_spec b c Hc Hb Hlt) as H; destruct (read_more b c) as [[[[|n]|k] b'] c']; try done.
  destruct H as (new & Hv & _ & _ & Hb' & Hc' & _ & -> & _). intros Hr. destruct (IH b' c' Hc' Hb' cl Hr) as [-> ?]. by rewrite Hv, <- app_assoc.
Qed.

Lemma exchange_stream send request c :
  conn_ok c →
  match execute_request_exchange fresh send request c with
  | (Ok cl, c') => visible (cl_buffer cl) ++ upcoming c' = upcoming c ∧ cl_kind cl = kind request
  | (Err _, _) => True
  end.
Proof.
  intros Hc. unfold execute_request_exchange. destruct send as [[]|k]; [|done].
  pose proof (read_from_spec fresh (in_flight c) Hc (proj1 fresh_acquired)) as H.
  destruct (read_from fresh (in_flight c)) as [[[[|n]|k] b] c']; try done. destruct H as (_ & _ & _ & Hb & Hc' & _ & Hup & _).
  unfold read_unbound. pose proof (read_unbound_stream (reads_left c') request b c' Hc' Hb) as H.
  destruct (read_unbound_loop _ request b c') as [[cl|e] c2]; [|done]. destruct (H cl eq_refl) as [Hs ?]. cbn in Hs. split; [|done]. by rewrite Hs, <- Hup.
Qed.

(** [cap] holds the response [r] without its terminator. *)
Definition framed_capture (request : RequestContext) (status : StatusCode) (r : bytes) (cap : CapturedResponse) : Prop :=
  ∃ l u, r = l ++ x0a :: u ∧ x0a ∉ l ∧ parse (l ++ [x0a]) = Some status ∧
    cr_metadata cap = mkMetadata (kind request) status (S (length l)) ∧ cr_content_end cap = length (cr_bytes cap) ∧
    cr_bytes cap = if has_response_body request status then take (Nat.max (length r - 5) (S (length l))) r else r.

Lemma line_parts (l u l' u' : bytes) : l ++ x0a :: u = l' ++ x0a :: u' → x0a ∉ l → x0a ∉ l' → l = l' ∧ u = u'.
Proof.
  intros E Hl Hl'. assert (position (Byte.eqb x0a) (l ++ x0a :: u) = position (Byte.eqb x0a) (l' ++ x0a :: u')) as Hp by by rewrite E.
  rewrite !position_first in Hp by done. injection Hp as Hp. apply app_inj_1 in E as [-> E]; [|done]. by injection E as ->.
Qed.

Lemma capture_reuse_spec request cl c status :
  classified_ok request cl → conn_ok c → pending_bytes_len c = 0 → cl_kind cl = kind request → status_code cl = Some status →
  match capture_isolated_and_reuse t cl c with
  | None => False
  | Some (Ok cap, (fate, c')) =>
      fate = Released ∧ ∃ r, framed_capture request status r cap ∧ whole_response request status r ∧
        visible (cl_buffer cl) ++ upcoming c = r ++ upcoming c' ∧ (alone request (visible (cl_buffer cl) ++ upcoming c) → upcoming c' = [])
  | Some (Err _, (fate, _)) => fate = RemovedCooldown ∧ ¬ alone request (visible (cl_buffer cl) ++ upcoming c)
  end.
Proof.
  intros Hcl Hc Hp Hk Hst. assert (line_read cl) as Hline.
  { pose proof (classified_cases request cl Hcl) as H. unfold line_read. unfold status_code in *. destruct (cl_frame cl) as [[|]|]; [..|congruence].
    all: destruct H as (l & u & -> & _); apply elem_of_app; right; constructor. }
  unfold capture_isolated_and_reuse. pose proof (capture_isolated_spec t request cl c Hcl Hline Hc) as H.
  destruct (capture_isolated t cl c) as [[cap|e] c']; [|by destruct H].
  destruct H as (r & status' & l & u & (status2 & Hst2 & Hwhole & Hs & Hc' & Hph & Hpend & Halone) & Hst' & Hv & Hl & Hmeta & Hend & Hbytes).
  assert (status' = status ∧ status2 = status) as [-> ->] by (split; congruence).
  unfold complete_success. rewrite bool_decide_true, (proj2 (Nat.eqb_eq _ _)) by (done || lia). cbn. split; [done|]. exists r.
  split_and!; try done. destruct Hwhole as (l' & body & -> & Hl' & Hparse & _).
  assert (l' = l) as ->.
  { rewrite Hv, <- !app_assoc, <- !app_comm_cons in Hs. by apply line_parts in Hs as [-> _]. }
  exists l, body. rewrite <- Hk. by split_and!.
Qed.

(** The answers that a fetch accepts. *)
Definition fetch_accepts (request : RequestContext) (status : StatusCode) : result ClientError unit :=
  _ ← validate_response status; validate_article_response_shape (kind request) status.

(** What a fetch on an idle connection may do. *)
Definition fetch_result (request : RequestContext) (stream : bytes) (o : option (result ClientError CapturedResponse * option ConnectionEnd)) : Prop :=
  match o with
  | Some (Ok cap, Some (fate, c')) =>
      fate = Released ∧ ∃ r status, stream = r ++ upcoming c' ∧ whole_response request status r ∧ fetch_accepts request status = Ok () ∧
        framed_capture request status r cap
  | Some (Err _, Some (fate, _)) => fate = RemovedCooldown
  | _ => False
  end.

Lemma fetch_response_spec send request c : idle c → fetch_result request (upcoming c) (fetch_response t fresh (Some c) send request).
Proof.
  intros [Hc Hp]. unfold fetch_response. pose proof (exchange_ok fresh (proj1 fresh_acquired) send request c Hc) as Hx.
  pose proof (exchange_stream send request c Hc) as Hs. pose proof (exchange_pending fresh send request c) as Hpe.
  destruct (execute_request_exchange fresh send request c) as [[cl|e] c1]; [|done]. destruct Hx as [Hc1 Hcl], Hs as [Hs Hk]. cbn in Hpe.
  destruct (status_code cl) as [status|] eqn:Est; [|done]. fold (fetch_accepts request status). destruct (fetch_accepts request status) as [[]|] eqn:Ea; [|done].
  pose proof (capture_reuse_spec request cl c1 status (Hcl cl eq_refl) Hc1 ltac:(lia) Hk Est) as H.
  destruct (capture_isolated_and_reuse t cl c1) as [[[cap|e] [fate c']]|]; cbn; [|by destruct H|done].
  destruct H as (-> & r & Hcap & Hw & Hup & _). split; [done|]. exists r, status. rewrite <- Hs. by split_and!.
Qed.

(** A fetch over an idle connection on which the backend sends one response: it is
    returned without its terminator and the connection goes back to the pool with
    nothing left on it; an answer that is not the expected success is an error that
    removes the connection. *)
Lemma fetch_alone request c l u status :
  idle c → line_fits (upcoming c) = true → alone request (upcoming c) → upcoming c = l ++ x0a :: u → x0a ∉ l → parse (l ++ [x0a]) = Some status →
  match fetch_accepts request status with
  | Err e => ∃ c', fetch_response t fresh (Some c) (Ok ()) request = Some (Err e, Some (RemovedCooldown, c'))
  | Ok _ => ∃ cap c', fetch_response t fresh (Some c) (Ok ()) request = Some (Ok cap, Some (Released, c')) ∧ upcoming c' = [] ∧
      framed_capture request status (upcoming c) cap
  end.
Proof.
  intros [Hc Hp] Hfit Ha Hup Hl Hparse. unfold fetch_response, execute_request_exchange.
  destruct (read_then_classify request fresh (in_flight c) (proj1 fresh_acquired)) as (cl & c1 & E & Hcl); [done..|].
  pose proof (exchange_pending fresh (Ok ()) request c) as Hpe. unfold execute_request_exchange in Hpe. cbv zeta in *. rewrite E in *. cbn in Hpe.
  pose proof (classified_status _ _ _ _ _ _ _ Hcl Hup Hl Hparse) as Hst. rewrite Hst. fold (fetch_accepts request status).
  destruct (fetch_accepts request status) as [[]|e]; [|by eexists]. destruct Hcl as (Hok & Hline & Hc1 & Hs & _ & Hk).
  pose proof (capture_reuse_spec request cl c1 status Hok Hc1 ltac:(lia) Hk Hst) as H. rewrite Hs in H. change (upcoming (in_flight c)) with (upcoming c) in H.
  destruct (capture_isolated_and_reuse t cl c1) as [[[cap|e] [fate c']]|]; [|by destruct H|done].
  destruct H as (-> & r & Hcap & _ & Hr & Hnil). specialize (Hnil Ha). rewrite Hnil, app_nil_r in Hr. subst r. exists cap, c'. split; [done|]. by split.
Qed.
End ClientFacts.

(** ** Views of fetched articles *)

Section ClientViews.
Context {MC : Memchr} {MS : MemchrSpec MC} {H32 : Crc32} {HS : Crc32Spec H32}.

(** The yEnc check is made on the body that the view shows. *)
Lemma yenc_of_view layout buf v :
  layout_view layout buf = Some v →
  layout_validate_yenc layout buf =
    Some match view_body v with
         | Some body => if starts_with (bs "=ybegin") body then map_err InvalidYenc (validate_yenc_structure body) else Ok ()
         | None => Ok ()
         end.
Proof.
  unfold layout_view, layout_validate_yenc. intros (id & _ & H)%bind_Some. destruct (utf8_valid id); [|done].
  apply bind_Some in H as ([h b] & Hc & [= <-]). cbn [view_body]. destruct (layout_content layout) as [r tr r'|r tr|r|]; cbn [content_view] in Hc.
  - apply bind_Some in Hc as (x & _ & (y & Hy & [= <- <-])%bind_Some). by rewrite Hy.
  - by apply bind_Some in Hc as (x & _ & [= <- <-]).
  - apply bind_Some in Hc as (x & Hx & [= <- <-]). by rewrite Hx.
  - by injection Hc as <- <-.
Qed.

(** The policy is satisfied by the body. *)
Definition policy_ok (policy : YencValidation) (body : option bytes) : Prop :=
  match policy, body with
  | YencEnabled, Some body => starts_with (bs "=ybegin") body = true → validate_yenc_structure body = Ok ()
  | _, _ => True
  end.

Lemma framed_validate_ok cap line content v policy :
  cr_bytes cap = line ++ CRLF ++ content → cr_content_end cap = length (cr_bytes cap) → meta_status_line_end (cr_metadata cap) = length line + 2 →
  status_line line (message_id_str (view_message_id v)) (view_number v) →
  content_ok FramedResponse (as_u16 (meta_status (cr_metadata cap))) content (view_headers v) (view_body v) → policy_ok policy (view_body v) →
  ∃ validated, framed_validate cap policy = Some (Ok validated) ∧ validated_article validated = Some v.
Proof.
  intros Hb He Hm Hs Hc Hpol. unfold framed_validate.
  pose proof (framed_parse_decides (cr_bytes cap) (meta_status (cr_metadata cap)) (meta_status_line_end (cr_metadata cap)) (cr_content_end cap)) as H.
  assert (describes FramedResponse (cr_bytes cap) (meta_status (cr_metadata cap)) (meta_status_line_end (cr_metadata cap)) (cr_content_end cap) v) as Hd.
  { exists line, content. rewrite He, firstn_all. by split_and!. }
  destruct (layout_parse_framed _ _ _ _) as [[layout|e]|]; [|by destruct (H v)|done]. destruct H as [_ Hv]. apply Hv in Hd. cbn [mbind option_bind].
  assert (apply_yenc_policy policy layout (cr_bytes cap) = Some (Ok ())) as ->.
  { destruct policy; [done|]. cbn [apply_yenc_policy]. rewrite (yenc_of_view _ _ _ Hd). cbn in Hpol. destruct (view_body v) as [body|]; [|done].
    destruct (starts_with _ body); [|done]. by rewrite Hpol. }
  cbn [mbind option_bind]. eexists. split; [done|]. exact Hd.
Qed.
End ClientViews.

Section ClientTheorems.
Context {MC : Memchr} {MS : MemchrSpec MC} {PL : PoolLimit} (t : target).
Variable fresh : PooledBuffer.
Hypothesis fresh_acquired : acquired fresh.

(** Whatever a backend sends and however it arrives, a fetch over a connection from
    the pool ends without a failed assertion; it returns an article only if the
    backend sent a complete response of the status that the request calls for, and
    then its bytes are exactly that response without the terminator; the connection
    goes back to the pool only behind a complete response, and is removed after every
    error. *)
Theorem client_fetch_safe send request c :
  idle c →
  match fetch_response t fresh (Some c) send request with
  | Some (Ok cap, Some (fate, c')) =>
      fate = Released ∧ ∃ r status, upcoming c = r ++ upcoming c' ∧ whole_response request status r ∧ fetch_accepts request status = Ok () ∧
        framed_capture request status r cap
  | Some (Err _, Some (fate, _)) => fate = RemovedCooldown
  | _ => False
  end.
Proof. apply (fetch_response_spec t fresh fresh_acquired). Qed.

Context {H32 : Crc32} {HS : Crc32Spec H32}.

(** C14 A file posted with any yEnc encoder and fetched with BODY is decoded to its data:
    if the backend answers with the encoded part, dots stuffed, in any pieces, the
    client returns the connection to the pool, validates the article with its
    checksum and decodes exactly the bytes that were encoded. *)
Theorem fetched_body_decodes m c line id number l parts rows end_ data :
  idle c → line_fits (upcoming c) = true → alone (body_request m) (upcoming c) →
  upcoming c = line ++ CRLF ++ encoded_body l parts rows end_ ++ TERMINATOR →
  LF ∉ line → parse (line ++ CRLF) = Some (mkStatusCode 222) → status_line line id number →
  encoded l parts rows end_ data → x00 ∉ encoded_body l parts rows end_ →
  ∃ cap c' validated v,
    fetch_body t fresh (Some c) (Ok ()) m = Some (Ok cap, Some (Released, c')) ∧ upcoming c' = [] ∧
    validate_with_yenc cap YencEnabled = Some (Ok validated) ∧ validated_article validated = Some v ∧
    view_message_id v = mkMessageId id ∧ view_number v = number ∧ article_decode v = Some data.
Proof.
  intros Hidle Hfit Ha Hup Hlf Hparse Hline Henc Hnul. set (body := encoded_body l parts rows end_) in *.
  destruct (fetch_alone t fresh fresh_acquired (body_request m) c (line ++ [CR]) (body ++ TERMINATOR) (mkStatusCode 222)) as (cap & c' & Hf & Hnil & Hcap).
  { done. } { done. } { done. } { rewrite Hup, <- !app_assoc. done. } { apply not_elem_of_app. split; [done|]. by intros E%list_elem_of_singleton. }
  { by rewrite <- app_assoc. }
  destruct Hcap as (l' & u & Hr & Hl' & _ & Hmeta & Hend & Hbytes).
  assert (l' = line ++ [CR]) as ->.
  { rewrite Hup in Hr. replace (line ++ CRLF ++ body ++ TERMINATOR) with ((line ++ [CR]) ++ x0a :: body ++ TERMINATOR) in Hr by by rewrite <- !app_assoc.
    apply line_parts in Hr as [<- _]; [done| |done]. apply not_elem_of_app. split; [done|]. by intros E%list_elem_of_singleton. }
  assert (cr_bytes cap = line ++ CRLF ++ body) as Hb.
  { rewrite Hbytes. change (has_response_body (body_request m) (mkStatusCode 222)) with true. cbv iota. rewrite Hup.
    replace (line ++ CRLF ++ body ++ TERMINATOR) with ((line ++ CRLF ++ body) ++ TERMINATOR) by by rewrite <- !app_assoc.
    rewrite Nat.max_l by (rewrite !length_app; cbn; lia). rewrite length_app. replace (_ - 5) with (length (line ++ CRLF ++ body)) by (cbn; lia). apply take_app_length. }
  destruct (framed_validate_ok cap line body (mkView (mkMessageId id) number None (Some body)) YencEnabled) as (validated & Hv & Hview).
  { done. } { done. } { rewrite Hmeta. cbn. rewrite length_app. cbn. lia. } { done. }
  { rewrite Hmeta. cbn. rewrite bool_decide_false by done. by split_and!. } { intros _. by apply (encoded_valid _ _ _ _ data). }
  exists cap, c', validated, (mkView (mkMessageId id) number None (Some body)). split_and!; try done.
  unfold article_decode, decode_into. cbn [view_body mbind option_bind]. rewrite (part_decodes body data) by by apply encoded_part. done.
Qed.
End ClientTheorems.

(** ** Concrete fetches *)

Definition sample_id : bytes := bs "<a@b>".
Definition sample_line : bytes := bs "222 0 <a@b>".
Definition sample_tail : bytes := bs "=yend size=5 crc32=B1627c12".

Definition sample_body_response : bytes := sample_line ++ CRLF ++ encoded_body sample_begin [] sample_rows sample_tail ++ TERMINATOR.

(** The response in two pieces. *)
Definition answering_connection (response : bytes) : ConnectionStream :=
  mkConn [] [Data (take 30 response); Data (drop 30 response)] PhaseIdle.

Lemma sample_tail_encoded : encoded (H32 := ieee_crc32) sample_begin [] sample_rows sample_tail sample_data.
Proof.
  destruct sample_encoded as [Hd Hr Hl _]. split; [done..|]. exists (mkYencHeader 5 false), sample_tail, [].
  split_and!; [split; [by eexists|by vm_compute]|by vm_compute..|]. split_and!; [by vm_compute..|]. intros crc. vm_compute. congruence.
Qed.

Lemma answering_idle response : idle (PL := small_pool) (answering_connection response).
Proof. split; [constructor|done]. Qed.

Lemma client_fetch_safe_witness :
  match fetch_response (MC := naive_memchr) Generic small_buffer (Some (answering_connection sample_body_response)) (Ok ()) (body_request (mkMessageId sample_id)) with
  | Some (Ok cap, Some (fate, c')) =>
      fate = Released ∧ ∃ r status, upcoming (answering_connection sample_body_response) = r ++ upcoming c' ∧
        whole_response (body_request (mkMessageId sample_id)) status r ∧ fetch_accepts (body_request (mkMessageId sample_id)) status = Ok () ∧
        framed_capture (body_request (mkMessageId sample_id)) status r cap
  | Some (Err _, Some (fate, _)) => fate = RemovedCooldown
  | _ => False
  end.
Proof.
  exact (client_fetch_safe (MC := naive_memchr) (MS := naive_memchr_spec) (PL := small_pool) Generic small_buffer small_acquired (Ok ())
    (body_request (mkMessageId sample_id)) (answering_connection sample_body_response) (answering_idle sample_body_response)).
Defined.

Lemma fetched_body_decodes_witness :
  ∃ cap c' validated v,
    fetch_body (MC := naive_memchr) Generic small_buffer (Some (answering_connection sample_body_response)) (Ok ()) (mkMessageId sample_id) =
      Some (Ok cap, Some (Released, c')) ∧ upcoming c' = [] ∧
    validate_with_yenc (MC := naive_memchr) (H32 := ieee_crc32) cap YencEnabled = Some (Ok validated) ∧ validated_article validated = Some v ∧
    view_message_id v = mkMessageId sample_id ∧ view_number v = Some 0%N ∧ article_decode v = Some sample_data.
Proof.
  apply (fetched_body_decodes (MC := naive_memchr) (MS := naive_memchr_spec) (PL := small_pool) Generic small_buffer small_acquired (H32 := ieee_crc32)
    (mkMessageId sample_id) (answering_connection sample_body_response) sample_line sample_id (Some 0%N) sample_begin [] sample_rows sample_tail sample_data).
  - apply answering_idle.
  - by vm_compute.
  - by vm_compute.
  - by vm_compute.
  - by apply (bool_decide_eq_true_1 _); vm_compute.
  - by vm_compute.
  - exists (bs "222"), (bs "0"), [], (bs "a@b"), []. split_and!; try done; try (by apply (bool_decide_eq_true_1 _); vm_compute).
  - apply sample_tail_encoded.
  - by apply (bool_decide_eq_true_1 _); vm_compute.
Defined.

(** An article whose body is empty is framed without its blank line, since the
    terminator takes the line end in front of the dot with it: it cannot be
    validated. *)
Example empty_body_rejected :
  let response := bs "220 0 <a@b>" ++ CRLF ++ bs "X: y" ++ CRLF ++ CRLF ++ DOT_TERMINATOR in
  match fetch_article (MC := naive_memchr) Generic small_buffer (Some (answering_connection response)) (Ok ()) (mkMessageId sample_id) with
  | Some (Ok cap, _) => validate_with_yenc (MC := naive_memchr) (H32 := ieee_crc32) cap YencDisabled = Some (Err MissingSeparator)
  | _ => False
  end.
Proof. by vm_compute. Qed.

(** A missing article costs its connection, although the answer was complete. *)
Example missing_article_drops_connection :
  let response := bs "430 no" ++ CRLF in
  match fetch_body (MC := naive_memchr) Generic small_buffer (Some (answering_connection response)) (Ok ()) (mkMessageId sample_id) with
  | Some (Err ArticleNotFound, Some (RemovedCooldown, c)) => upcoming c = []
  | _ => False
  end.
Proof. by vm_compute. Qed.

(** A STAT of it keeps it. *)
Example missing_stat_keeps_connection :
  let response := bs "430 no" ++ CRLF in
  match client_stat (MC := naive_memchr) Generic small_buffer (Some (answering_connection response)) (Ok ()) (mkMessageId sample_id) with
  | Some (Ok false, Some (Released, c)) => upcoming c = []
  | _ => False
  end.
Proof. by vm_compute. Qed.
