(* ===== verification/Setup.v ===== *)
(** * Setup: how a backend connection is made ready

    Models the dialogue that [src/src/pool/deadpool_connection.rs] has with a backend
    before a connection enters the pool (greeting, AUTHINFO, MODE READER, COMPRESS),
    the reader of single-line replies it uses ([src/src/session/backend.rs]) and the
    health checks of [src/src/pool/health_check.rs] and
    [src/src/pool/connection_guard.rs].

    The backend is the list of what its reads give now, and of what each further
    command makes arrive.  A deadline that passes is a read that fails; the text of an
    error is what it quotes. *)

From S2P Require Import Prelude Protocol Request Scanner Framer Tracker Stream Yenc.

(** ** Single-line replies ([session/backend.rs]) *)

Inductive SingleLineReplyReadError :=
| ReplyIo (k : ErrorKind)
| ReplyClosed
| ReplyFull (bytes_read : nat)
| ReplyInvalid (bytes_read : nat).

(** [String::from_utf8_lossy(bytes).into_owned()] *)
Definition lossy (l : bytes) : bytes := concat (from_utf8_lossy l).

Section Replies.
Context {MC : Memchr}.

Definition unpacked_single_line_response (request : RequestContext) (b : bytes) : result ResponseReadError bytes :=
  frame ← parse_bytes request b;
  match frame with
  | SingleLine _ _ response next =>
      if next.1 =? next.2 then Ok (slice response.1 response.2 b) else Err (ReadInvalid [])
  | Multiline _ _ => Err (ReadInvalid [])
  end.

(** The loop of [read_single_line_reply] with [got] in a scratch buffer of [cap] bytes;
    every round fills a byte of it, so [cap] rounds are enough.  The last component is
    what was read. *)
Fixpoint read_reply_loop (fuel : nat) (request : RequestContext) (cap : nat) (got : bytes) (c : ConnectionStream)
    : result SingleLineReplyReadError bytes * bytes * ConnectionStream :=
  if length got =? cap then (Err (ReplyFull (length got)), got, c)
  else
    match stream_read (cap - length got) c with
    | (Err k, c) => (Err (ReplyIo k), got, c)
    | (Ok [], c) => (Err ReplyClosed, got, c)
    | (Ok new, c) =>
        let got := got ++ new in
        match unpacked_single_line_response request got with
        | Ok b => (Ok (lossy b), got, c)
        | Err (ReadInvalid _) => (Err (ReplyInvalid (length got)), got, c)
        | Err ReadIncomplete =>
            match fuel with
            | 0 => (Err (ReplyFull (length got)), got, c)
            | S fuel => read_reply_loop fuel request cap got c
            end
        end
    end.

Definition read_single_line_reply (request : RequestContext) (cap : nat) (c : ConnectionStream)
    : result SingleLineReplyReadError bytes * bytes * ConnectionStream :=
  read_reply_loop cap request cap [] c.
End Replies.

(** ** The manager ([pool/deadpool_connection.rs]) *)

Inductive CompressionSupport := Supported | Unsupported.

#[global] Instance CompressionSupport_eq_dec : EqDecision CompressionSupport.
Proof. solve_decision. Defined.

Inductive CompressionMode := CompressDisabled | CompressAuto | CompressRequired.

Record CompressionPolicy := mkCompression { compression_mode : CompressionMode; compression_level : N }.

(** The I/O errors that setup reports: a bad level, a reply it quotes, and those of
    the stream. *)
Inductive SetupIo := IoInvalidInput | IoInvalidData (quoted : bytes) | IoKind (k : ErrorKind).

Inductive ConnectionError :=
| AuthenticationFailed (response : bytes)
| ConnectionLimitExceeded (response : bytes)
| InvalidGreeting (greeting : bytes)
| IoError (k : SetupIo)
| PasswordRequired
| UnexpectedAuthResponse (response : bytes)
| CompressionRequired (response : bytes).

(** [CompressionPolicy::from_raw] *)
Definition compression_from_raw (mode : option bool) (level : option N) : result ConnectionError CompressionPolicy :=
  let level := default 1%N level in
  if (9 <? level)%N then Err (IoError IoInvalidInput)
  else
    Ok (mkCompression
      match mode with Some false => CompressDisabled | Some true => CompressRequired | None => CompressAuto end level).

(** What of [TcpManager] the dialogue uses. *)
Record TcpManager := mkManager {
  username : option bytes;
  password : option bytes;
  compression : CompressionPolicy;
  send_mode_reader : bool }.

(** A backend under setup: what its reads give, what every further command makes
    arrive, the commands handed to the transport and the outcomes of the next writes
    (past the list they succeed), and the support for compression that the manager
    has found. *)
Record SetupStream := mkSetup {
  setup_conn : ConnectionStream;
  setup_later : list (list ReadEvent);
  setup_written : list bytes;
  setup_writes : list (option ErrorKind);
  compression_support : option CompressionSupport }.

Definition set_setup_conn (c : ConnectionStream) (s : SetupStream) : SetupStream :=
  mkSetup c (setup_later s) (setup_written s) (setup_writes s) (compression_support s).

Definition set_support (v : CompressionSupport) (s : SetupStream) : SetupStream :=
  mkSetup (setup_conn s) (setup_later s) (setup_written s) (setup_writes s) (Some v).

(** A command that was written: what it makes arrive. *)
Definition on_command (cmd : bytes) (writes : list (option ErrorKind)) (s : SetupStream) : SetupStream :=
  let c := setup_conn s in
  mkSetup (mkConn (pending_input c) (transport c ++ default [] (head (setup_later s))) (phase c)) (tail (setup_later s))
    (setup_written s ++ [cmd]) writes (compression_support s).

(** The error-state monad of the dialogue. *)
Definition Dialogue (A : Type) : Type := SetupStream → result ConnectionError A * SetupStream.

#[global] Instance dialogue_ret : MRet Dialogue := λ A a s, (Ok a, s).

#[global] Instance dialogue_bind : MBind Dialogue := λ A B f m s,
  match m s with (Ok a, s) => f a s | (Err e, s) => (Err e, s) end.

Definition fails {A} (e : ConnectionError) : Dialogue A := λ s, (Err e, s).

(** [write_all] of a command, with the flush behind it where there is one (AUTHINFO has
    none); of a write that fails the backend may have any part. *)
Definition write_command (cmd : bytes) (s : SetupStream) : result ErrorKind unit * SetupStream :=
  match setup_writes s with
  | Some k :: writes =>
      (Err k, mkSetup (setup_conn s) (setup_later s) (setup_written s ++ [cmd]) writes (compression_support s))
  | None :: writes => (Ok (), on_command cmd writes s)
  | [] => (Ok (), on_command cmd [] s)
  end.

Definition send_command (cmd : bytes) : Dialogue unit := λ s,
  let '(r, s) := write_command cmd s in (map_err (λ k, IoError (IoKind k)) r, s).

Definition SETUP_BUFFER : nat := 4096.

Section Setup.
Context {MC : Memchr} (mgr : TcpManager).

Definition MODE_READER : RequestContext := from_verb_args (bs "MODE") (bs "READER").
Definition COMPRESS : RequestContext := from_verb_args (bs "COMPRESS") (bs "DEFLATE").
Definition COMPRESS_DEFLATE : bytes := bs "COMPRESS DEFLATE" ++ CRLF.

Definition reply_error (buffer : bytes) (e : SingleLineReplyReadError) : ConnectionError :=
  match e with
  | ReplyFull bytes_read | ReplyInvalid bytes_read => IoError (IoInvalidData (trim_end (lossy (take bytes_read buffer))))
  | ReplyIo k => IoError (IoKind k)
  | ReplyClosed => IoError (IoKind UnexpectedEof)
  end.

Definition read_backend_setup_reply (request : RequestContext) : Dialogue bytes := λ s,
  let '(r, buffer, c) := read_single_line_reply request SETUP_BUFFER (setup_conn s) in
  (map_err (reply_error buffer) r, set_setup_conn c s).

(** [StatusCode::parse(reply).is_some_and(p)] *)
Definition status_is (p : StatusCode → bool) (reply : bytes) : bool :=
  match parse reply with Some code => p code | None => false end.

Definition consume_greeting : Dialogue unit :=
  greeting ← read_backend_setup_reply MODE_READER;
  if status_is is_greeting greeting then mret () else fails (InvalidGreeting (str_trim greeting)).

Definition negotiate_mode_reader : Dialogue unit :=
  _ ← send_command (bs "MODE READER" ++ CRLF);
  response ← read_backend_setup_reply MODE_READER;
  if status_is (λ code, (as_u16 code =? 200)%N || (as_u16 code =? 201)%N) response then mret ()
  else fails (InvalidGreeting (str_trim response)).

(** [probe_compression], under the deadline of [probe_compression_with_timeout]. *)
Definition probe_compression : Dialogue CompressionSupport :=
  _ ← send_command COMPRESS_DEFLATE;
  response ← read_backend_setup_reply COMPRESS;
  if status_is (λ code, (as_u16 code =? 206)%N) response then mret Supported
  else
    match compression_mode (compression mgr) with
    | CompressRequired => fails (CompressionRequired (str_trim response))
    | _ => mret Unsupported
    end.

Definition is_supported (v : CompressionSupport) : bool := match v with Supported => true | Unsupported => false end.

(** The [OnceCell] that the connections of a manager share; no other connection
    initialises it during the dialogue. *)
Definition known_support : Dialogue (option CompressionSupport) := λ s, (Ok (compression_support s), s).
Definition init_support (v : CompressionSupport) : Dialogue unit := λ s, (Ok (), set_support v s).

Definition negotiate_compression : Dialogue bool :=
  match compression_mode (compression mgr) with
  | CompressDisabled => mret false
  | CompressRequired => v ← probe_compression; mret (is_supported v)
  | CompressAuto =>
      support ← known_support;
      match support with
      | None => v ← probe_compression; _ ← init_support v; mret (is_supported v)
      | Some Unsupported => mret false
      | Some Supported => v ← probe_compression; mret (is_supported v)
      end
  end.

Definition negotiate_auth : Dialogue unit :=
  match username mgr with
  | None => mret ()
  | Some user =>
      _ ← send_command (write_wire (authinfo_user user));
      response ← read_backend_setup_reply (authinfo_user user);
      if status_is requires_auth_credentials response then
        match password mgr with
        | None => fails PasswordRequired
        | Some pass =>
            _ ← send_command (write_wire (authinfo_pass pass));
            response ← read_backend_setup_reply (authinfo_pass pass);
            if status_is is_auth_accepted response then mret ()
            else if status_is (λ code, (as_u16 code =? 482)%N) response
            then fails (ConnectionLimitExceeded (str_trim response))
            else fails (AuthenticationFailed (str_trim response))
        end
      else if status_is is_auth_accepted response then mret ()
      else fails (UnexpectedAuthResponse (str_trim response))
  end.

(** [Manager::create] on a connected stream; the result tells whether the stream is
    then made a compressed one, which a stream that is not compressed yet always
    can be. *)
Definition create : Dialogue bool :=
  _ ← consume_greeting;
  _ ← negotiate_auth;
  _ ← (if send_mode_reader mgr then negotiate_mode_reader else mret ());
  negotiate_compression.
End Setup.

(** ** Health checks ([pool/health_check.rs])

    The deadline of a check is a read that fails, not a [HealthTimeout]. *)

Inductive HealthCheckError :=
| TcpClosed
| UnexpectedData
| TcpError (k : ErrorKind)
| HealthWriteError (k : ErrorKind)
| HealthReadError (k : ErrorKind)
| HealthTimeout
| UnexpectedHealthResponse (response : bytes)
| ConnectionClosedDuringCheck.

(** What [try_read] of one byte gives on the socket. *)
Inductive TryRead := TryGot (n : nat) | TryWouldBlock | TryFails (k : ErrorKind).

Definition check_tcp_alive (c : ConnectionStream) (try_read : TryRead) : result HealthCheckError unit :=
  if has_pending_bytes c then Err UnexpectedData
  else
    match try_read with
    | TryGot 0 => Err TcpClosed
    | TryGot _ => Err UnexpectedData
    | TryFails k => Err (TcpError k)
    | TryWouldBlock => Ok ()
    end.

Definition validate_date_response (response : bytes) : result HealthCheckError unit :=
  if bool_decide (parse response = Some (mkStatusCode 111)) && bool_decide (response !! 3 = Some x20) then Ok ()
  else Err (UnexpectedHealthResponse response).

Definition HEALTH_CHECK_BUFFER_SIZE : nat := 512.
Definition DATE : RequestContext := from_verb_args (bs "DATE") [].

Section HealthCheck.
Context {MC : Memchr}.

Definition date_error (buffer : bytes) (e : SingleLineReplyReadError) : HealthCheckError :=
  match e with
  | ReplyFull bytes_read | ReplyInvalid bytes_read => UnexpectedHealthResponse (lossy (take bytes_read buffer))
  | ReplyIo k => HealthReadError k
  | ReplyClosed => ConnectionClosedDuringCheck
  end.

Definition read_date_response (s : SetupStream) : result HealthCheckError bytes * SetupStream :=
  let '(r, buffer, c) := read_single_line_reply DATE HEALTH_CHECK_BUFFER_SIZE (setup_conn s) in
  (map_err (date_error buffer) r, set_setup_conn c s).

Definition check_date_response (s : SetupStream) : result HealthCheckError unit * SetupStream :=
  match write_command (write_wire DATE) s with
  | (Err k, s) => (Err (HealthWriteError k), s)
  | (Ok _, s) =>
      match read_date_response s with
      | (Err e, s) => (Err e, s)
      | (Ok response, s) => (validate_date_response response, s)
      end
  end.

(** [salvage_with_health_check]: whether the connection may be used again; otherwise
    it is removed from the pool with a cooldown. *)
Definition salvage_with_health_check (s : SetupStream) : bool * SetupStream :=
  match check_date_response s with (Ok _, s) => (true, s) | (Err _, s) => (false, s) end.
End HealthCheck.

(** [HealthCheckMetrics], counters of 64 bits. *)
Record HealthCheckMetrics := mkHealthMetrics { cycles_run : N; connections_checked : N; connections_failed : N }.

Definition record_cycle (checked failed : N) (m : HealthCheckMetrics) : HealthCheckMetrics :=
  mkHealthMetrics ((cycles_run m + 1) mod 2 ^ 64) ((connections_checked m + checked) mod 2 ^ 64)
    ((connections_failed m + failed) mod 2 ^ 64).

(** ** The dialogue as a state machine *)

(** What setup waits for, or how it ended. *)
Inductive SetupState :=
| AwaitGreeting | AwaitUser | AwaitPass | AwaitMode | AwaitCompress
| SetupReady (compressed : bool)
| SetupRefused (e : ConnectionError).

Section Machine.
Context (mgr : TcpManager) (cell : option CompressionSupport).

Definition given (o : option bytes) : bytes := default [] o.

(** The command whose reply a state waits for; a greeting is read like the reply to
    MODE READER. *)
Definition expects (st : SetupState) : RequestContext :=
  match st with
  | AwaitUser => authinfo_user (given (username mgr))
  | AwaitPass => authinfo_pass (given (password mgr))
  | AwaitCompress => COMPRESS
  | _ => MODE_READER
  end.

(** The next state with the command that is sent on entering it. *)
Definition enter_compress : SetupState * list bytes :=
  match compression_mode (compression mgr), cell with
  | CompressDisabled, _ | CompressAuto, Some Unsupported => (SetupReady false, [])
  | _, _ => (AwaitCompress, [bs "COMPRESS DEFLATE" ++ CRLF])
  end.

Definition enter_mode : SetupState * list bytes :=
  if send_mode_reader mgr then (AwaitMode, [bs "MODE READER" ++ CRLF]) else enter_compress.

Definition enter_auth : SetupState * list bytes :=
  match username mgr with
  | None => enter_mode
  | Some user => (AwaitUser, [bs "AUTHINFO USER " ++ user ++ CRLF])
  end.

Definition enter_pass : SetupState * list bytes :=
  match password mgr with
  | None => (SetupRefused PasswordRequired, [])
  | Some pass => (AwaitPass, [bs "AUTHINFO PASS " ++ pass ++ CRLF])
  end.

(** The state and the command after a reply of status [code]; [text] is the reply. *)
Definition on_status (st : SetupState) (code : N) (text : bytes) : SetupState * list bytes :=
  let eq n := (code =? n)%N in
  match st with
  | AwaitGreeting => if eq 200%N || eq 201%N then enter_auth else (SetupRefused (InvalidGreeting text), [])
  | AwaitUser =>
      if eq 381%N || eq 480%N then enter_pass
      else if eq 281%N then enter_mode
      else (SetupRefused (UnexpectedAuthResponse text), [])
  | AwaitPass =>
      if eq 281%N then enter_mode
      else (SetupRefused ((if eq 482%N then ConnectionLimitExceeded else AuthenticationFailed) text), [])
  | AwaitMode => if eq 200%N || eq 201%N then enter_compress else (SetupRefused (InvalidGreeting text), [])
  | AwaitCompress =>
      if eq 206%N then (SetupReady true, [])
      else
        match compression_mode (compression mgr) with
        | CompressRequired => (SetupRefused (CompressionRequired text), [])
        | _ => (SetupReady false, [])
        end
  | SetupReady _ | SetupRefused _ => (st, [])
  end.

(** A line is a reply when it starts with a status for which no body follows. *)
Definition react (st : SetupState) (line : bytes) : SetupState * list bytes :=
  match parse line with
  | Some code =>
      if has_response_body (expects st) code then (SetupRefused (IoError (IoInvalidData (trim_end (lossy line)))), [])
      else on_status st (as_u16 code) (str_trim (lossy line))
  | None => (SetupRefused (IoError (IoInvalidData (trim_end (lossy line)))), [])
  end.

(** The end of the dialogue and the commands sent, when the backend answers with
    these lines and then closes. *)
Fixpoint converse (st : SetupState) (lines : list bytes) : SetupState * list bytes :=
  match st with
  | SetupReady _ | SetupRefused _ => (st, [])
  | _ =>
      match lines with
      | [] => (SetupRefused (IoError (IoKind UnexpectedEof)), [])
      | line :: lines =>
          let '(st, out) := react st line in
          let '(st, out') := converse st lines in (st, out ++ out')
      end
  end.

Definition outcome (st : SetupState) : result ConnectionError bool :=
  match st with
  | SetupReady b => Ok b
  | SetupRefused e => Err e
  | _ => Err (IoError (IoKind UnexpectedEof))
  end.

(** What the manager knows of the backend's compression afterwards. *)
Definition learnt (st : SetupState) : option CompressionSupport :=
  match compression_mode (compression mgr), cell, st with
  | CompressAuto, None, SetupReady b => Some (if b then Supported else Unsupported)
  | _, _, _ => cell
  end.
End Machine.

(** ** Replies that arrive in fragments *)

(** A transport that delivers [b], however it is cut. *)
Definition delivers (l : list ReadEvent) (b : bytes) : Prop :=
  Forall (λ e, ∃ x d, e = Data (x :: d)) l ∧ transport_bytes l = b.

(** One line. *)
Definition is_line (b : bytes) : Prop := ∃ l, b = l ++ [x0a] ∧ x0a ∉ l.

(** What setup makes of one line. *)
Definition line_reply (request : RequestContext) (line : bytes) : result SingleLineReplyReadError bytes :=
  match parse line with
  | Some code => if has_response_body request code then Err (ReplyInvalid (length line)) else Ok (lossy line)
  | None => Err (ReplyInvalid (length line))
  end.

Section ReplyFacts.
Context {MC : Memchr} {MS : MemchrSpec MC}.

Lemma delivers_read cap l b :
  delivers l b → 0 < cap →
  ∃ new l', transport_read cap l = (Ok new, l') ∧ delivers l' (drop (length new) b) ∧ new = take (length new) b ∧
    length new ≤ cap ∧ (new = [] ↔ b = []).
Proof.
  intros [Hf <-] Hcap. destruct Hf as [|e l (x & d & ->) Hf].
  - exists [], []. split_and!; (done || cbn; lia).
  - cbn [transport_read transport_bytes]. destruct (Nat.leb_spec (length (x :: d)) cap) as [Hle|Hgt].
    + exists (x :: d), l. split_and!; [done|split; [done|by rewrite drop_app_length]|by rewrite take_app_length|done|done].
    + destruct (drop cap (x :: d)) as [|y d'] eqn:Ed; [apply (f_equal length) in Ed; rewrite length_drop in Ed; cbn in *; lia|].
      exists (take cap (x :: d)), (Data (y :: d') :: l). rewrite length_take_le by lia.
      split_and!; [done| | |lia|].
      * split; [constructor; [eauto|done]|]. rewrite drop_app_le by lia. by rewrite Ed.
      * by rewrite take_app_le by lia.
      * destruct cap; [lia|done].
Qed.

Lemma position_absent (x : byte) l : x ∉ l → position (Byte.eqb x) l = None.
Proof. intros Hl. apply position_None, Forall_forall. intros y Hy. apply byte_eqb_neq. by intros <-. Qed.

Lemma unpacked_partial request b : x0a ∉ b → unpacked_single_line_response request b = Err ReadIncomplete.
Proof.
  intros Hb. unfold unpacked_single_line_response. unfold parse_bytes, status_line_len. rewrite memchr_spec.
  by rewrite position_absent.
Qed.

Lemma unpacked_line request line :
  is_line line →
  match unpacked_single_line_response request line with
  | Ok b => line_reply request line = Ok (lossy b)
  | Err (ReadInvalid _) => line_reply request line = Err (ReplyInvalid (length line))
  | Err ReadIncomplete => False
  end.
Proof.
  intros (l & -> & Hl). unfold unpacked_single_line_response, line_reply, parse_bytes, status_line_len, parse_response_status.
  rewrite memchr_spec, position_app, position_absent by done.
  cbn [position fmap option_fmap option_map]. change (Byte.eqb x0a x0a) with true. cbn [fmap option_fmap option_map].
  destruct (parse (l ++ [x0a])) as [code|]; [|done]. destruct (has_response_body request code); [done|].
  cbn [mbind result_bind fst snd]. rewrite length_app. cbn [length].
  replace (S (length l + 0) =? length l + 1) with true by (symmetry; apply Nat.eqb_eq; lia).
  f_equal. unfold slice. rewrite drop_0, take_ge; [done|]. rewrite length_app. cbn. lia.
Qed.

Lemma delivers_nil l : delivers l [] → l = [].
Proof. intros [Hf E]. destruct Hf as [|e l (x & d & ->) Hf]; done. Qed.

Lemma line_prefix line n : is_line line → n < length line → x0a ∉ take n line.
Proof.
  intros (l & -> & Hl) Hn Hin. rewrite length_app in Hn. cbn in Hn. rewrite take_app_le in Hin by lia.
  apply Hl. apply elem_of_take in Hin as (i & Hi & _). by apply list_elem_of_lookup_2 in Hi.
Qed.

(** One read of a line that has not arrived completely. *)
Lemma line_round line got cap l :
  take (length got) line = got → length got < length line → length line ≤ cap → delivers l (drop (length got) line) →
  ∃ x new l', transport_read (cap - length got) l = (Ok (x :: new), l') ∧
    take (length (got ++ x :: new)) line = got ++ x :: new ∧ length (got ++ x :: new) ≤ length line ∧
    delivers l' (drop (length (got ++ x :: new)) line).
Proof.
  intros Hgot Hlt Hcap Hd. destruct (delivers_read (cap - length got) _ _ Hd) as (new & l' & E & Hd' & Hnew & Hle & Hnil); [lia|].
  assert (length (drop (length got) line) = length line - length got) as Hlen by apply length_drop.
  destruct new as [|x new]; [rewrite (proj1 Hnil eq_refl) in Hlen; cbn in Hlen; lia|].
  exists x, new, l'. rewrite drop_drop in Hd'. rewrite length_app.
  split_and!; [done|rewrite <- take_take_drop, Hgot; by f_equal| |done].
  apply (f_equal length) in Hnew. rewrite length_take in Hnew. lia.
Qed.

(** However a line is cut into reads, the reply is that of the line, and nothing else
    has been read. *)
Lemma read_reply_loop_line request cap line fuel got l ph :
  is_line line → length line ≤ cap → take (length got) line = got → length got < length line →
  delivers l (drop (length got) line) → length line - length got ≤ S fuel →
  read_reply_loop fuel request cap got (mkConn [] l ph) = (line_reply request line, line, mkConn [] [] ph).
Proof.
  intros Hline Hcap. revert got l. induction fuel as [|fuel IH]; intros got l Hgot Hlt Hd Hfuel; cbn [read_reply_loop].
  all: destruct (Nat.eqb_spec (length got) cap); [lia|]; unfold stream_read; cbn [pending_input transport phase].
  all: destruct (line_round _ _ cap _ Hgot Hlt Hcap Hd) as (x & new & l' & -> & Hgot' & Hle & Hd').
  all: destruct (decide (length (got ++ x :: new) = length line)) as [E|E].
  1,3: rewrite E, firstn_all in Hgot'; rewrite <- Hgot' in *; rewrite drop_all in Hd'; apply delivers_nil in Hd' as ->;
    pose proof (unpacked_line request line Hline) as Hu;
    destruct (unpacked_single_line_response request line) as [|[|]]; [by rewrite Hu|done|by rewrite Hu].
  - rewrite length_app in *. cbn [length] in *. lia.
  - rewrite unpacked_partial.
    + apply IH; [done|lia|done|rewrite length_app; cbn [length]; lia].
    + rewrite <- Hgot'. apply (line_prefix _ _ Hline). lia.
Qed.

Lemma read_single_line_reply_line request cap line l ph :
  is_line line → length line ≤ cap → delivers l line →
  read_single_line_reply request cap (mkConn [] l ph) = (line_reply request line, line, mkConn [] [] ph).
Proof.
  intros Hline Hcap Hd. apply read_reply_loop_line; [done|done|done| |done|cbn; lia].
  destruct Hline as (l0 & -> & _). rewrite length_app. cbn. lia.
Qed.

Lemma read_single_line_reply_closed request cap ph :
  0 < cap → read_single_line_reply request cap (mkConn [] [] ph) = (Err ReplyClosed, [], mkConn [] [] ph).
Proof. intros Hcap. unfold read_single_line_reply. by destruct cap; [lia|]. Qed.

(** The characters of a reply keep its status. *)
Lemma parse_lossy line code : parse line = Some code → parse (lossy line) = Some code.
Proof.
  destruct line as [|b0 [|b1 [|b2 line]]]; [done..|]. cbn [parse]. intros E.
  assert (∀ b, (9 <? digit_value b)%N = false → byte_in x00 x7f b = true) as Hascii by (intros b; by destruct b).
  destruct ((9 <? digit_value b0)%N) eqn:E0, ((9 <? digit_value b1)%N) eqn:E1, ((9 <? digit_value b2)%N) eqn:E2; try done.
  unfold lossy. cbn [from_utf8_lossy]. rewrite !Hascii by done. cbn [concat app parse]. by rewrite E0, E1, E2.
Qed.
End ReplyFacts.

(** ** Setup refines the state machine *)

(** A backend that has said everything that was waited for, and that answers the next
    commands with these lines; writes succeed. *)
Definition awaiting (lines : list bytes) (s : SetupStream) : Prop :=
  (∃ ph, setup_conn s = mkConn [] [] ph) ∧ Forall2 delivers (setup_later s) lines ∧ setup_writes s = [].

(** The first of the lines may be read. *)
Definition holding (lines : list bytes) (s : SetupStream) : Prop :=
  (∃ l ph, setup_conn s = mkConn [] l ph ∧ delivers l (default [] (head lines))) ∧
  Forall2 delivers (setup_later s) (tail lines) ∧ setup_writes s = [].

Definition setup_line (line : bytes) : Prop := is_line line ∧ length line ≤ SETUP_BUFFER.

Definition waits (st : SetupState) : Prop :=
  match st with SetupReady _ | SetupRefused _ => False | _ => True end.

Section Shape.
Context {MC : Memchr} {MS : MemchrSpec MC} (mgr : TcpManager).

Lemma status_is_lossy (p : StatusCode → bool) line code : parse line = Some code → status_is p (lossy line) = p code.
Proof. intros E. unfold status_is. by rewrite (parse_lossy _ _ E). Qed.


Lemma write_authinfo (what value : bytes) :
  write_wire (from_verb_arg_slices (bs "AUTHINFO") [what ++ [x20]; value]) = bs "AUTHINFO " ++ what ++ [x20] ++ value ++ CRLF.
Proof.
  unfold write_wire, write_wire_slices, from_verb_arg_slices. cbn [args verb from_parts concat app]. rewrite app_nil_r.
  destruct ((what ++ [x20]) ++ value) as [|x l] eqn:E; [by destruct what|]. cbn [concat]. rewrite <- E, app_nil_r, <- !app_assoc. done.
Qed.

(** The wire form of the two commands. *)
Lemma write_authinfo_user user : write_wire (authinfo_user user) = bs "AUTHINFO USER " ++ user ++ CRLF.
Proof. apply (write_authinfo (bs "USER")). Qed.

Lemma write_authinfo_pass pass : write_wire (authinfo_pass pass) = bs "AUTHINFO PASS " ++ pass ++ CRLF.
Proof. apply (write_authinfo (bs "PASS")). Qed.

(** A reading of the programs of the dialogue as states of the machine: a program
    that stops stands for the state it stops in, and one that sends a command and
    acts on its reply for the state that waits for the reply. *)
Class Reading (P : option CompressionSupport → Dialogue bool → SetupState * list bytes → Prop) := {
  follows_fails cell e : P cell (fails e) (SetupRefused e, []);
  follows_ready cell m b :
    (∀ s, compression_support s = cell → ∃ s', m s = (Ok b, s') ∧ setup_written s' = setup_written s ∧
      setup_conn s' = setup_conn s ∧ compression_support s' = learnt mgr cell (SetupReady b)) →
    P cell m (SetupReady b, []);
  follows_known cell (f : option CompressionSupport → Dialogue bool) p :
    P cell (f cell) p → P cell (support ← known_support; f support) p;
  follows_stage {A} cell cmd st request (k : bytes → Dialogue A) (h : A → Dialogue bool) :
    waits st → request = expects mgr st →
    (∀ line code, parse line = Some code →
      P cell (a ← k (lossy line); h a) (on_status mgr cell st (as_u16 code) (str_trim (lossy line)))) →
    P cell (a ← (_ ← send_command cmd; reply ← read_backend_setup_reply request; k reply); h a) (st, [cmd]) }.

Context (P : option CompressionSupport → Dialogue bool → SetupState * list bytes → Prop) {RP : Reading P}.

Lemma follows_probe cell (h : CompressionSupport → Dialogue bool) :
  (∀ v, P cell (h v) (SetupReady (is_supported v), [])) →
  P cell (v ← probe_compression mgr; h v) (AwaitCompress, [COMPRESS_DEFLATE]).
Proof.
  intros Hh. unfold probe_compression. apply follows_stage; [done|done|]. intros line code Hp.
  rewrite (status_is_lossy _ _ _ Hp). cbn [on_status]. destruct (as_u16 code =? 206)%N; [apply (Hh Supported)|].
  destruct (compression_mode (compression mgr)); [apply (Hh Unsupported)|apply (Hh Unsupported)|apply follows_fails].
Qed.

Lemma follows_compress cell : P cell (negotiate_compression mgr) (enter_compress mgr cell).
Proof.
  unfold negotiate_compression, enter_compress. destruct (compression_mode (compression mgr)) eqn:Em.
  - apply follows_ready. intros s Hs. exists s. unfold learnt. by rewrite Em.
  - apply follows_known. destruct cell as [[]|].
    + apply follows_probe. intros v. apply follows_ready. intros s Hs. exists s. unfold learnt. by rewrite Em.
    + apply follows_ready. intros s Hs. exists s. unfold learnt. by rewrite Em.
    + apply follows_probe. intros v. apply follows_ready. intros s Hs. exists (set_support v s). unfold learnt. rewrite Em. by destruct v.
  - apply follows_probe. intros v. apply follows_ready. intros s Hs. exists s. unfold learnt. by rewrite Em.
Qed.

Lemma follows_mode cell :
  P cell (_ ← (if send_mode_reader mgr then negotiate_mode_reader else mret ()); negotiate_compression mgr) (enter_mode mgr cell).
Proof.
  unfold enter_mode. destruct (send_mode_reader mgr); [|apply follows_compress].
  unfold negotiate_mode_reader. apply follows_stage; [done|done|]. intros line code Hp. rewrite (status_is_lossy _ _ _ Hp). cbn [on_status].
  destruct (_ || _); [apply follows_compress|apply follows_fails].
Qed.

Lemma follows_pass cell pass (h : unit → Dialogue bool) :
  password mgr = Some pass → (∀ u, P cell (h u) (enter_mode mgr cell)) →
  P cell
    (u ← (_ ← send_command (write_wire (authinfo_pass pass));
          response ← read_backend_setup_reply (authinfo_pass pass);
          if status_is is_auth_accepted response then mret ()
          else if status_is (λ code, (as_u16 code =? 482)%N) response
          then fails (ConnectionLimitExceeded (str_trim response))
          else fails (AuthenticationFailed (str_trim response))); h u)
    (AwaitPass, [bs "AUTHINFO PASS " ++ pass ++ CRLF]).
Proof.
  intros Hpass Hh. rewrite <- write_authinfo_pass.
  apply follows_stage; [done|cbn; by rewrite Hpass|]. intros line code Hp. rewrite !(status_is_lossy _ _ _ Hp). cbn [on_status]. unfold is_auth_accepted.
  destruct (_ =? 281)%N; [apply Hh|]. destruct (_ =? 482)%N; apply follows_fails.
Qed.

Lemma follows_auth cell (h : unit → Dialogue bool) :
  (∀ u, P cell (h u) (enter_mode mgr cell)) →
  P cell (u ← negotiate_auth mgr; h u) (enter_auth mgr cell).
Proof.
  intros Hh. unfold negotiate_auth, enter_auth. destruct (username mgr) as [user|] eqn:Hu; [|apply Hh].
  rewrite <- write_authinfo_user.
  apply follows_stage; [done|cbn; by rewrite Hu|]. intros line code Hp. rewrite !(status_is_lossy _ _ _ Hp). cbn [on_status]. unfold requires_auth_credentials, is_auth_accepted, enter_pass.
  destruct (_ || _).
  - destruct (password mgr) as [pass|] eqn:Ep; [by apply follows_pass|apply follows_fails].
  - destruct (_ =? 281)%N; [apply Hh|apply follows_fails].
Qed.

(** What setup does with the greeting. *)
Definition after_greeting (greeting : bytes) : Dialogue bool :=
  _ ← (if status_is is_greeting greeting then mret () else fails (InvalidGreeting (str_trim greeting)));
  _ ← negotiate_auth mgr;
  _ ← (if send_mode_reader mgr then negotiate_mode_reader else mret ());
  negotiate_compression mgr.

Lemma create_greeting s : create mgr s = (greeting ← read_backend_setup_reply MODE_READER; after_greeting greeting) s.
Proof. unfold create, consume_greeting, mbind, dialogue_bind. by destruct (read_backend_setup_reply MODE_READER s) as [[]]. Qed.

Lemma follows_greeting cell line code :
  parse line = Some code →
  P cell (after_greeting (lossy line)) (on_status mgr cell AwaitGreeting (as_u16 code) (str_trim (lossy line))).
Proof.
  intros Hp. unfold after_greeting. rewrite (status_is_lossy _ _ _ Hp). cbn [on_status]. unfold is_greeting.
  destruct (_ || _); [|apply follows_fails]. apply follows_auth. intros _. apply follows_mode.
Qed.
End Shape.

Section Refinement.
Context {MC : Memchr} {MS : MemchrSpec MC} (mgr : TcpManager).

Lemma send_command_awaiting cmd lines s :
  awaiting lines s →
  ∃ s', send_command cmd s = (Ok (), s') ∧ holding lines s' ∧ setup_written s' = setup_written s ++ [cmd] ∧
    compression_support s' = compression_support s.
Proof.
  intros ((ph & Hc) & Hl & Hw). unfold send_command, write_command. rewrite Hw.
  eexists. split; [done|]. split_and!; try done. unfold holding, on_command. cbn [setup_conn setup_later setup_writes]. rewrite Hc.
  cbn [pending_input transport phase app]. split_and!; [|by destruct Hl|done].
  eexists _, _. split; [done|]. destruct Hl; [by split|done].
Qed.

(** Reading the next reply. *)
Lemma read_setup_reply_spec request lines s :
  holding lines s → Forall setup_line lines →
  ∃ s', setup_written s' = setup_written s ∧ compression_support s' = compression_support s ∧
    match lines with
    | [] => read_backend_setup_reply request s = (Err (IoError (IoKind UnexpectedEof)), s')
    | line :: lines =>
        awaiting lines s' ∧
        read_backend_setup_reply request s =
          (match parse line with
           | Some code =>
               if has_response_body request code then Err (IoError (IoInvalidData (trim_end (lossy line)))) else Ok (lossy line)
           | None => Err (IoError (IoInvalidData (trim_end (lossy line))))
           end, s')
    end.
Proof.
  intros ((l & ph & Hc & Hd) & Hl & Hw) Hlines. unfold read_backend_setup_reply. rewrite Hc.
  destruct Hlines as [|line lines [Hline Hlen] Hlines]; cbn [head default] in Hd.
  - apply delivers_nil in Hd as ->. rewrite read_single_line_reply_closed by (unfold SETUP_BUFFER; lia).
    eexists. split; [|split; [|reflexivity]]; done.
  - rewrite (read_single_line_reply_line request _ line) by done. eexists. split; [|split; [|split]].
    4: f_equal; unfold line_reply; destruct (parse line) as [code|]; [destruct (has_response_body request code)|]; cbn [map_err reply_error]; by rewrite ?firstn_all.
    all: unfold awaiting; by eauto.
Qed.

(** The state after a dialogue that ended in [st]: what was sent and learnt, and that
    nothing is left unread when the connection is ready. *)
Definition ended_as (cell : option CompressionSupport) (st : SetupState) (out : list bytes) (s s' : SetupStream) : Prop :=
  setup_written s' = setup_written s ++ out ∧ compression_support s' = learnt mgr cell st ∧
  ∀ b, st = SetupReady b → ∃ ph, setup_conn s' = mkConn [] [] ph.

(** A program implements a state of the machine when, for every backend that answers
    with lines, it ends as the machine does and has sent what the machine sends. *)
Definition implements (cell : option CompressionSupport) (m : Dialogue bool) (p : SetupState * list bytes) : Prop :=
  ∀ lines s, awaiting lines s → Forall setup_line lines → compression_support s = cell →
  let '(st, out) := converse mgr cell p.1 lines in
  ∃ s', m s = (outcome st, s') ∧ ended_as cell st (p.2 ++ out) s s'.

Lemma converse_waits cell st lines :
  waits st →
  converse mgr cell st lines =
    match lines with
    | [] => (SetupRefused (IoError (IoKind UnexpectedEof)), [])
    | line :: lines =>
        let '(st, out) := react mgr cell st line in
        let '(st, out') := converse mgr cell st lines in (st, out ++ out')
    end.
Proof. by destruct st, lines. Qed.

Lemma converse_refused cell e lines : converse mgr cell (SetupRefused e) lines = (SetupRefused e, []).
Proof. by destruct lines. Qed.

Lemma ended_refused cell e s s' :
  setup_written s' = setup_written s → compression_support s' = cell → ended_as cell (SetupRefused e) [] s s'.
Proof.
  intros W C. split_and!; [by rewrite app_nil_r| |done]. rewrite C. unfold learnt. by destruct (compression_mode _), cell.
Qed.

(** Reading a reply and acting on it, for the greeting and behind a command. *)
Lemma read_and_act cell st (k : bytes → Dialogue bool) lines s :
  waits st → holding lines s → Forall setup_line lines → compression_support s = cell →
  (∀ line code, parse line = Some code →
    implements cell (k (lossy line)) (on_status mgr cell st (as_u16 code) (str_trim (lossy line)))) →
  let '(st', out) := converse mgr cell st lines in
  ∃ s', (reply ← read_backend_setup_reply (expects mgr st); k reply) s = (outcome st', s') ∧ ended_as cell st' out s s'.
Proof.
  intros Hst Hs Hlines Hcell Hk. rewrite converse_waits by done. unfold mbind, dialogue_bind.
  destruct (read_setup_reply_spec (expects mgr st) _ _ Hs Hlines) as (s2 & W2 & C2 & H2).
  destruct Hlines as [|line lines Hline Hlines].
  { rewrite H2. exists s2. split; [done|]. apply ended_refused; congruence. }
  destruct H2 as [H2 ->]. unfold react. specialize (Hk line).
  destruct (parse line) as [code|]; [destruct (has_response_body _ code)|].
  1,3: rewrite converse_refused; exists s2; (split; [done|]); apply ended_refused; congruence.
  specialize (Hk code eq_refl lines s2 H2 Hlines ltac:(congruence)).
  destruct (on_status mgr cell st _ _) as [st' out]. cbn [fst snd] in Hk. destruct (converse mgr cell st' lines) as [st'' out'].
  destruct Hk as (s' & E & W & C). exists s'. split; [done|]. split; [by rewrite W, W2|done].
Qed.

Lemma implements_exchange cell cmd st (k : bytes → Dialogue bool) :
  waits st →
  (∀ line code, parse line = Some code →
    implements cell (k (lossy line)) (on_status mgr cell st (as_u16 code) (str_trim (lossy line)))) →
  implements cell (_ ← send_command cmd; reply ← read_backend_setup_reply (expects mgr st); k reply) (st, [cmd]).
Proof.
  intros Hst Hk lines s Hs Hlines Hcell. cbn [fst snd].
  destruct (send_command_awaiting cmd _ _ Hs) as (s1 & E1 & H1 & W1 & C1).
  pose proof (read_and_act cell st k lines s1 Hst H1 Hlines ltac:(congruence) Hk) as H.
  destruct (converse mgr cell st lines) as [st' out]. destruct H as (s' & E & W & C).
  exists s'. unfold mbind at 1, dialogue_bind at 1. rewrite E1, E. split; [done|].
  split; [by rewrite W, W1, <- app_assoc|done].
Qed.

Lemma implements_fails cell e : implements cell (fails e) (SetupRefused e, []).
Proof. intros lines s _ _ Hcell. cbn [fst snd]. rewrite converse_refused. exists s. split; [done|]. by apply ended_refused. Qed.

(** A stage of the dialogue, with what follows it. *)
Lemma implements_stage {A} cell cmd st request (k : bytes → Dialogue A) (h : A → Dialogue bool) :
  waits st → request = expects mgr st →
  (∀ line code, parse line = Some code →
    implements cell (a ← k (lossy line); h a) (on_status mgr cell st (as_u16 code) (str_trim (lossy line)))) →
  implements cell (a ← (_ ← send_command cmd; reply ← read_backend_setup_reply request; k reply); h a) (st, [cmd]).
Proof.
  intros Hst -> Hk lines s Hs Hlines Hcell.
  pose proof (implements_exchange cell cmd st (λ reply, a ← k reply; h a) Hst Hk lines s Hs Hlines Hcell) as H.
  destruct (converse _ _ _ _) as [st' out]. destruct H as (s' & E & W). exists s'. split; [|done]. rewrite <- E.
  unfold mbind, dialogue_bind. destruct (send_command cmd s) as [[]]; [|done]. by destruct (read_backend_setup_reply _ _) as [[]].
Qed.

Lemma implements_ready cell (m : Dialogue bool) b :
  (∀ s, compression_support s = cell → ∃ s', m s = (Ok b, s') ∧ setup_written s' = setup_written s ∧
    setup_conn s' = setup_conn s ∧ compression_support s' = learnt mgr cell (SetupReady b)) →
  implements cell m (SetupReady b, []).
Proof.
  intros Hm lines s [Hs _] _ Hcell. cbn [fst]. replace (converse mgr cell (SetupReady b) lines) with (SetupReady b, @nil bytes) by (by destruct lines).
  destruct (Hm s Hcell) as (s' & -> & W & Hc & C). exists s'. split; [done|]. split_and!; [by rewrite app_nil_r|done|by rewrite Hc].
Qed.

Lemma implements_known cell (f : option CompressionSupport → Dialogue bool) p :
  implements cell (f cell) p → implements cell (support ← known_support; f support) p.
Proof. intros Hf lines s Hs Hlines <-. by apply Hf. Qed.

#[local] Instance implements_reading : Reading mgr implements.
Proof. split; [exact implements_fails|exact implements_ready|exact implements_known|exact @implements_stage]. Qed.

(** C9 Setup of a connection is the state machine of the protocol: whatever lines the
    backend answers with, and however they are cut into reads, [create] sends exactly
    the commands of the machine in its order (the password only behind a reply that
    asks for it), ends as the machine ends, remembers what it learnt of compression,
    and leaves no byte unread in a connection it reports ready. *)
Theorem setup_refines_machine lines s :
  holding lines s → Forall setup_line lines →
  let cell := compression_support s in
  let '(st, out) := converse mgr cell AwaitGreeting lines in
  ∃ s', create mgr s = (outcome st, s') ∧ ended_as cell st out s s'.
Proof.
  intros Hs Hlines cell. rewrite create_greeting. apply (read_and_act cell AwaitGreeting); [done|done|done|done|].
  intros line code Hp. by apply (follows_greeting mgr implements).
Qed.
End Refinement.

(** ** Setup against any backend *)

(** All the bytes of a script of reads. *)
Definition data (l : list ReadEvent) : bytes :=
  concat ((λ e, match e with Data b => b | ReadFails _ => [] end) <$> l).

(** What a backend still has to say, now and after further commands. *)
Definition arriving (s : SetupStream) : bytes :=
  data (transport (setup_conn s)) ++ concat (data <$> setup_later s).

Section AnyBackend.
Context {MC : Memchr} {MS : MemchrSpec MC} (mgr : TcpManager).

Lemma data_app l l' : data (l ++ l') = data l ++ data l'.
Proof. unfold data. by rewrite fmap_app, concat_app. Qed.

Lemma transport_read_data cap l :
  data l = match (transport_read cap l).1 with Ok new => new | Err _ => [] end ++ data (transport_read cap l).2.
Proof.
  destruct l as [|[[|x b]|k] l]; [done..| |done]. cbn [transport_read].
  destruct (_ <=? cap); cbn [fst snd]; [done|]. unfold data. cbn [fmap list_fmap concat]. by rewrite app_assoc, take_drop.
Qed.

(** A reply that is accepted is one line with a status and no body. *)
Definition reply_of (request : RequestContext) (line reply : bytes) : Prop :=
  is_line line ∧ reply = lossy line ∧ ∃ code, parse line = Some code ∧ has_response_body request code = false.

Lemma unpacked_Ok request got b :
  unpacked_single_line_response request got = Ok b → reply_of request got (lossy b).
Proof.
  unfold unpacked_single_line_response, parse_bytes, status_line_len, parse_response_status. rewrite memchr_spec.
  destruct (position _ got) as [i|] eqn:Ei; [|done]. cbn [fmap option_fmap option_map].
  destruct (parse got) as [code|] eqn:Ep; [|done]. destruct (has_response_body request code) eqn:Eb; [done|].
  cbn [mbind result_bind fst snd]. destruct (Nat.eqb_spec (S i) (length got)) as [E|]; [|done]. intros [= <-].
  apply position_line in Ei as (line & rest & -> & <- & Hl). rewrite length_app in E. cbn in E.
  assert (rest = []) as -> by (destruct rest; [done|cbn in E; lia]).
  split_and!; [by eexists| |by eauto]. f_equal. unfold slice. rewrite drop_0, take_ge; [done|]. rewrite length_app. cbn. lia.
Qed.

Lemma read_reply_loop_sound fuel request cap got l ph :
  let '(r, got', c') := read_reply_loop fuel request cap got (mkConn [] l ph) in
  pending_input c' = [] ∧ got ++ data l = got' ++ data (transport c') ∧
  (∀ reply, r = Ok reply → reply_of request got' reply).
Proof.
  revert got l. induction fuel as [|fuel IH]; intros got l; cbn [read_reply_loop].
  all: destruct (_ =? cap); [done|]; unfold stream_read; cbn [pending_input transport phase].
  all: pose proof (transport_read_data (cap - length got) l) as Hd.
  all: destruct (transport_read _ l) as [[[|x new]|k] l']; cbn [fst snd] in Hd; [by rewrite Hd| |by rewrite Hd].
  all: destruct (unpacked_single_line_response request (got ++ x :: new)) as [b|[|]] eqn:Eu.
  all: try (split_and!; [done|by rewrite Hd, <- app_assoc|]; intros reply [= <-]; by apply unpacked_Ok).
  specialize (IH (got ++ x :: new) l'). destruct (read_reply_loop _ _ _ _ _) as [[r got'] c'].
  destruct IH as (? & IH & ?). by rewrite Hd, app_assoc, IH.
Qed.

(** The run of a program is one of the machine on the lines read so far, which are
    the first of what the backend says; it may stop in a waiting state. *)
Definition traces (cell : option CompressionSupport) (p : SetupState * list bytes) (s : SetupStream)
    (run : result ConnectionError bool * SetupStream) : Prop :=
  ∃ lines, Forall is_line lines ∧ concat lines `prefix_of` arriving s ∧
  let '(st, out) := converse mgr cell p.1 lines in
  setup_written run.2 = setup_written s ++ p.2 ++ out ∧
  ∀ b, run.1 = Ok b → st = SetupReady b ∧ compression_support run.2 = learnt mgr cell st.

Definition safe (cell : option CompressionSupport) (m : Dialogue bool) (p : SetupState * list bytes) : Prop :=
  ∀ s, pending_input (setup_conn s) = [] → compression_support s = cell → traces cell p s (m s).

(** A run that stops before the next reply. *)
Lemma traces_stop cell st out s e s' :
  waits st → setup_written s' = setup_written s ++ out → traces cell (st, out) s (Err e, s').
Proof.
  intros Hst W. exists []. split_and!; [done|apply prefix_nil|]. cbn [fst snd]. rewrite converse_waits by done. by rewrite app_nil_r.
Qed.

Lemma read_safe cell st (k : bytes → Dialogue bool) s :
  waits st → pending_input (setup_conn s) = [] → compression_support s = cell →
  (∀ line code, parse line = Some code → safe cell (k (lossy line)) (on_status mgr cell st (as_u16 code) (str_trim (lossy line)))) →
  traces cell (st, []) s ((reply ← read_backend_setup_reply (expects mgr st); k reply) s).
Proof.
  intros Hst Hp Hcell Hk. unfold mbind, dialogue_bind, read_backend_setup_reply, read_single_line_reply.
  destruct s as [[pending l ph] later written writes support]. cbn [setup_conn pending_input compression_support] in *. subst pending support.
  pose proof (read_reply_loop_sound SETUP_BUFFER (expects mgr st) SETUP_BUFFER [] l ph) as H.
  destruct (read_reply_loop _ _ _ _ _) as [[r got] c']. destruct H as (Hp' & Hd & Hr).
  destruct r as [reply|e]; cbn [map_err]; [|apply traces_stop; [done|by rewrite app_nil_r]].
  destruct (Hr reply eq_refl) as (Hline & -> & code & Ec & Eb).
  destruct (Hk got code Ec (set_setup_conn c' (mkSetup (mkConn [] l ph) later written writes cell)) Hp' eq_refl) as (lines & Hlines & [rest Hrest] & H).
  exists (got :: lines). split_and!; [by constructor| |].
  - exists rest. unfold arriving in *. cbn [setup_conn transport setup_later set_setup_conn] in *. cbn [app] in Hd. cbn [concat]. by rewrite Hd, <- !app_assoc, <- Hrest.
  - cbn [fst snd]. rewrite converse_waits by done. unfold react. rewrite Ec, Eb.
    destruct (on_status mgr cell st _ _) as [st' out]. cbn [fst snd] in H. destruct (converse mgr cell st' lines) as [st'' out']. done.
Qed.

Lemma send_command_safe cmd s :
  pending_input (setup_conn s) = [] →
  let '(r, s') := send_command cmd s in
  setup_written s' = setup_written s ++ [cmd] ∧ pending_input (setup_conn s') = [] ∧
  compression_support s' = compression_support s ∧ arriving s' = arriving s.
Proof.
  intros Hp. unfold send_command, write_command.
  assert (∀ w, arriving (on_command cmd w s) = arriving s) as Ha.
  { intros w. unfold arriving, on_command. cbn [setup_conn transport setup_later]. rewrite data_app, <- app_assoc. by destruct (setup_later s). }
  destruct (setup_writes s) as [|[k|] w]; cbn [map_err]; split_and!; by try apply Ha.
Qed.

Lemma safe_stage {A} cell cmd st request (k : bytes → Dialogue A) (h : A → Dialogue bool) :
  waits st → request = expects mgr st →
  (∀ line code, parse line = Some code →
    safe cell (a ← k (lossy line); h a) (on_status mgr cell st (as_u16 code) (str_trim (lossy line)))) →
  safe cell (a ← (_ ← send_command cmd; reply ← read_backend_setup_reply request; k reply); h a) (st, [cmd]).
Proof.
  intros Hst -> Hk s Hp Hcell.
  replace ((a ← _; h a) s) with ((_ ← send_command cmd; reply ← read_backend_setup_reply (expects mgr st); a ← k reply; h a) s).
  2:{ unfold mbind, dialogue_bind. destruct (send_command cmd s) as [[]]; [|done]. by destruct (read_backend_setup_reply _ _) as [[]]. }
  unfold mbind at 1, dialogue_bind at 1. pose proof (send_command_safe cmd s Hp) as H. destruct (send_command cmd s) as [[u|e] s1]; [|apply traces_stop; [done|apply H]].
  destruct H as (W & Hp1 & C & Ha).
  destruct (read_safe cell st (λ reply, a ← k reply; h a) s1 Hst Hp1 ltac:(congruence) Hk) as (lines & Hlines & Hpre & H).
  exists lines. rewrite <- Ha. split_and!; [done|done|]. cbn [fst snd] in *. destruct (converse mgr cell st lines) as [st' out].
  destruct H as [Ew Hb]. split; [|done]. by rewrite Ew, W, <- app_assoc.
Qed.

#[local] Instance safe_reading : Reading mgr safe.
Proof.
  split; [| | |exact @safe_stage].
  - intros cell e s Hp Hcell. exists []. split_and!; [done|apply prefix_nil|]. cbn [fst snd]. rewrite converse_refused, app_nil_r. done.
  - intros cell m b Hm s Hp Hcell. exists []. split_and!; [done|apply prefix_nil|]. destruct (Hm s Hcell) as (s' & -> & W & _ & C).
    cbn [fst snd converse app]. rewrite app_nil_r. split; [done|]. by intros ? [= <-].
  - intros cell f p Hf s Hp <-. by apply Hf.
Qed.

(** The command that carries the password. *)
Definition pass_command (pass : bytes) : bytes := bs "AUTHINFO PASS " ++ pass ++ CRLF.

Lemma pass_not_entering cell pass :
  pass_command pass ∉ (enter_compress mgr cell).2 ∧ pass_command pass ∉ (enter_mode mgr cell).2 ∧
  pass_command pass ∉ (enter_auth mgr cell).2.
Proof.
  assert (pass_command pass ∉ (enter_compress mgr cell).2) as Hc.
  { unfold enter_compress. destruct (compression_mode _), cell as [[]|]; cbn [snd]; rewrite ?list_elem_of_singleton; (apply not_elem_of_nil || done). }
  assert (pass_command pass ∉ (enter_mode mgr cell).2) as Hm.
  { unfold enter_mode. destruct (send_mode_reader mgr); [|done]. cbn [snd]. by rewrite list_elem_of_singleton. }
  split_and!; [done|done|]. unfold enter_auth. destruct (username mgr); [|done]. cbn [snd]. by rewrite list_elem_of_singleton.
Qed.

Lemma pass_only_asked cell pass st line :
  pass_command pass ∈ (react mgr cell st line).2 → status_is requires_auth_credentials line = true.
Proof.
  destruct (pass_not_entering cell pass) as (Hc & Hm & Ha). unfold react, status_is.
  destruct (parse line) as [code|]; [|by intros ?%not_elem_of_nil]. destruct (has_response_body _ code); [by intros ?%not_elem_of_nil|].
  unfold requires_auth_credentials. destruct st; cbn [on_status].
  all: repeat case_match; first [done|by intros ?%not_elem_of_nil].
Qed.

Lemma converse_pass cell pass st lines :
  pass_command pass ∈ (converse mgr cell st lines).2 → Exists (λ line, status_is requires_auth_credentials line = true) lines.
Proof.
  revert st. induction lines as [|line lines IH]; intros st; [destruct st; by intros ?%not_elem_of_nil|].
  cbn [converse]. destruct st; try (by intros ?%not_elem_of_nil).
  all: pose proof (pass_only_asked cell pass) as Hreact.
  all: match goal with |- context [react _ _ ?st ?l] => specialize (Hreact st l); destruct (react mgr cell st l) as [st' out] end.
  all: specialize (IH st'); destruct (converse mgr cell st' lines) as [st'' out']; cbn [snd] in *; rewrite elem_of_app; intros [?|?]; auto.
Qed.

(** C10 Whatever a backend does (lines of any content, several at once, read and write
    failures, closing at any point), the commands setup hands to it are those of the
    machine on the lines it has read, which come first in what the backend says.  The
    password is sent only when one of the lines asks for it (status 381 or 480), and a
    connection is reported ready only when the machine is. *)
Theorem setup_safe s :
  pending_input (setup_conn s) = [] →
  let run := create mgr s in
  ∃ lines, Forall is_line lines ∧ concat lines `prefix_of` arriving s ∧
  let '(st, out) := converse mgr (compression_support s) AwaitGreeting lines in
  setup_written run.2 = setup_written s ++ out ∧
  (∀ b, run.1 = Ok b → st = SetupReady b) ∧
  (∀ pass, pass_command pass ∈ out → Exists (λ line, status_is requires_auth_credentials line = true) lines).
Proof.
  intros Hp run. unfold run. rewrite create_greeting.
  destruct (read_safe (compression_support s) AwaitGreeting (after_greeting mgr) s) as (lines & Hlines & Hpre & H); [done..| |].
  { intros line code Hc. by apply (follows_greeting mgr safe). }
  exists lines. split_and!; [done|done|]. cbn [fst snd] in H.
  pose proof (converse_pass (compression_support s)) as Hpass. specialize (λ pass, Hpass pass AwaitGreeting lines).
  destruct (converse _ _ _ lines) as [st out]. destruct H as [W Hb].
  split_and!; [done| |done]. intros b E. by apply Hb in E as [? _].
Qed.
End AnyBackend.

(** ** Health checks *)

Section HealthFacts.
Context {MC : Memchr} {MS : MemchrSpec MC}.

Lemma lossy_space b l : lossy (b :: l) !! 0 = Some x20 ↔ b = x20.
Proof.
  unfold lossy. cbn [from_utf8_lossy]. destruct (byte_in x00 x7f b) eqn:Ea; [cbn; split; congruence|].
  assert (b ≠ x20) as Hb by (by intros ->). split; [|done]. intros E. exfalso. revert E.
  repeat case_match; cbn [concat app lookup list_lookup REPLACEMENT_CHARACTER]; congruence.
Qed.

Lemma parse_date rest : parse (bs "111 " ++ rest) = Some (mkStatusCode 111).
Proof. apply parse_Some. split; [done|]. by exists (x20 :: rest). Qed.

Lemma validate_date_lossy line code :
  parse line = Some code → validate_date_response (lossy line) = Ok () ↔ bs "111 " `prefix_of` line.
Proof.
  intros Hp. unfold validate_date_response. rewrite (parse_lossy _ _ Hp).
  destruct (decide (code = mkStatusCode 111)) as [->|Hne].
  - rewrite bool_decide_true by done. cbn [andb]. apply parse_Some in Hp as [_ (rest & ->)].
    change (print_status (mkStatusCode 111)) with (bs "111"). destruct rest as [|b rest].
    { split; [done|]. intros [k E]. by apply (f_equal length) in E. }
    change (lossy (bs "111" ++ b :: rest)) with (bs "111" ++ lossy (b :: rest)).
    change ((bs "111" ++ lossy (b :: rest)) !! 3) with (lossy (b :: rest) !! 0).
    case_bool_decide as Hs; rewrite lossy_space in Hs.
    + subst b. split; [|done]. intros _. by exists rest.
    + split; [done|]. intros [k [= ->]]. done.
  - rewrite bool_decide_false by congruence. split; [done|]. intros [rest ->]. exfalso. apply Hne.
    pose proof (parse_date rest). congruence.
Qed.

(** A connection in doubt is kept exactly when the backend answers DATE with one line
    that starts with the status 111 and a space, however the line is cut; no byte of
    it is left unread. *)
Theorem salvage_exact line s :
  awaiting [line] s → is_line line → length line ≤ HEALTH_CHECK_BUFFER_SIZE →
  let '(kept, s') := salvage_with_health_check s in
  kept = starts_with (bs "111 ") line ∧ setup_written s' = setup_written s ++ [bs "DATE" ++ CRLF] ∧
  ∃ ph, setup_conn s' = mkConn [] [] ph.
Proof.
  intros ((ph & Hc) & Hl & Hw) Hline Hlen. unfold salvage_with_health_check, check_date_response, write_command. rewrite Hw.
  inversion Hl as [|l ? ? ? Hd Hnil Ea]; subst. apply Forall2_nil_inv_r in Hnil as ->.
  unfold read_date_response, on_command. rewrite Hc, <- Ea. cbn [setup_conn pending_input transport phase app head default setup_later tail].
  rewrite (read_single_line_reply_line DATE _ line) by done. unfold line_reply.
  assert (∀ code, has_response_body DATE code = false) as Hb by (intros code; unfold has_response_body, request_kind_has_response_body; by destruct (is_error code)).
  destruct (parse line) as [code|] eqn:Ep.
  - rewrite Hb. cbn [map_err]. pose proof (validate_date_lossy line code Ep) as Hv.
    destruct (validate_date_response (lossy line)) as [[]|]; split_and!; try done; try by eexists.
    + symmetry. apply bool_decide_eq_true. by apply Hv.
    + symmetry. apply bool_decide_eq_false. intros Hs. by apply Hv in Hs.
  - split_and!; [|done|by eexists]. cbn [map_err]. symmetry. apply bool_decide_eq_false. intros [rest ->].
    pose proof (parse_date rest). congruence.
Qed.
End HealthFacts.

(** ** Witnesses *)

Definition reader : TcpManager :=
  mkManager (Some (bs "u")) (Some (bs "p")) (mkCompression CompressAuto 1) true.

(** A backend whose greeting arrives in two reads and which accepts everything but
    compression. *)
Definition plain_backend : SetupStream :=
  mkSetup (mkConn [] [Data (bs "20"); Data (bs "0 hi" ++ CRLF)] PhaseIdle)
    [[Data (bs "381 more" ++ CRLF)]; [Data (bs "281 ok" ++ CRLF)]; [Data (bs "201 reader" ++ CRLF)]; [Data (bs "500 what"); Data CRLF]]
    [] [] None.

Definition plain_lines : list bytes :=
  [bs "200 hi" ++ CRLF; bs "381 more" ++ CRLF; bs "281 ok" ++ CRLF; bs "201 reader" ++ CRLF; bs "500 what" ++ CRLF].

Ltac solve_delivers :=
  split; [repeat (apply Forall_cons_2; [by eexists _, _|]); apply Forall_nil_2|reflexivity].

Ltac solve_later := repeat (apply Forall2_cons_2; [solve_delivers|]); apply Forall2_nil_2.

Lemma is_line_crlf l : bool_decide (x0a ∉ l) = true → is_line (l ++ CRLF).
Proof.
  intros Hl%bool_decide_eq_true. exists (l ++ [x0d]). split; [by rewrite <- app_assoc|].
  rewrite not_elem_of_app, list_elem_of_singleton. done.
Qed.

Lemma plain_lines_ok : Forall setup_line plain_lines.
Proof.
  repeat apply Forall_cons_2; [..|apply Forall_nil_2].
  all: split; [apply is_line_crlf; reflexivity|apply Nat.leb_le; reflexivity].
Qed.

Lemma setup_refines_machine_witness :
  ∃ s', create (MC := naive_memchr) reader plain_backend = (Ok false, s') ∧
    setup_written s' = [bs "AUTHINFO USER u" ++ CRLF; bs "AUTHINFO PASS p" ++ CRLF; bs "MODE READER" ++ CRLF; COMPRESS_DEFLATE] ∧
    compression_support s' = Some Unsupported.
Proof.
  assert (holding plain_lines plain_backend) as Hs.
  { split_and!; [eexists _, _; split; [reflexivity|solve_delivers]| |done]. solve_later. }
  destruct (setup_refines_machine (MC := naive_memchr) (MS := naive_memchr_spec) reader plain_lines plain_backend Hs plain_lines_ok) as (s' & E & W & C & _).
  exists s'. split_and!; [exact E|exact W|exact C].
Defined.

Lemma setup_safe_witness :
  ∃ lines, Forall is_line lines ∧ concat lines `prefix_of` arriving plain_backend ∧
  (converse reader None AwaitGreeting lines).1 = SetupReady false.
Proof.
  destruct (setup_safe (MC := naive_memchr) (MS := naive_memchr_spec) reader plain_backend eq_refl) as (lines & Hl & Hp & H).
  exists lines. split_and!; [exact Hl|exact Hp|]. cbn [compression_support plain_backend] in H.
  destruct (converse reader None AwaitGreeting lines) as [st out]. destruct H as (_ & Hb & _). apply Hb. vm_compute. reflexivity.
Defined.

Definition doubtful : SetupStream :=
  mkSetup (mkConn [] [] PhaseIdle) [[Data (bs "11"); Data (bs "1 20260101000000" ++ CRLF)]] [] [] None.

Lemma salvage_exact_witness : (salvage_with_health_check (MC := naive_memchr) doubtful).1 = true.
Proof.
  pose proof (salvage_exact (MC := naive_memchr) (MS := naive_memchr_spec) (bs "111 20260101000000" ++ CRLF) doubtful) as H.
  destruct (salvage_with_health_check doubtful) as [kept s']. destruct H as [-> _].
  - split_and!; [by eexists|solve_later|done].
  - apply is_line_crlf. reflexivity.
  - apply Nat.leb_le. reflexivity.
  - reflexivity.
Defined.
