(* ===== verification/Connect.v ===== *)
(** * Connect: which address of a backend is connected to

    Models the choice of an address in [src/src/pool/deadpool_connection.rs]: the shared
    DNS resolver with its hosts-file fallback, the rotation of the IPv4 addresses of a
    lookup, and the passes over the addresses until one connects.

    The resolver library, the clock and the network are parameters: what the library
    finds in [/etc/resolv.conf], what a lookup answers, and whether an address
    connects.  A host that is an IP address is given as one. *)

From S2P Require Import Prelude.

(** ** Addresses *)

Inductive IpAddr := V4 (n : N) | V6 (n : N).

#[global] Instance IpAddr_eq_dec : EqDecision IpAddr.
Proof. solve_decision. Defined.

Record SocketAddr := mkSocketAddr { ip : IpAddr; port : N }.

#[global] Instance SocketAddr_eq_dec : EqDecision SocketAddr.
Proof. solve_decision. Defined.

Definition is_ipv4 (a : SocketAddr) : bool := match ip a with V4 _ => true | V6 _ => false end.
Definition is_ipv6 (a : SocketAddr) : bool := match ip a with V4 _ => false | V6 _ => true end.

(** The kinds of a failed connect that matter, and the others. *)
Inductive ConnectKind := NetworkUnreachable | HostUnreachable | OtherConnect.

Inductive ConnectError :=
| DnsNoAddresses
| DnsResolverInit
| DnsResolverBuild
| DnsLookup
| ConnectIo (k : ConnectKind).

Definition is_ipv6_network_unreachable (a : SocketAddr) (e : ConnectError) : bool :=
  is_ipv6 a && match e with ConnectIo (NetworkUnreachable | HostUnreachable) => true | _ => false end.

(** ** The shared resolver *)

Inductive CacheKind := System | HostsPending (retry_at : N) | HostsFinal.

(** A resolver is known by when it was built. *)
Record CachedResolver := mkCached { cached_id : nat; cached_kind : CacheKind }.

Definition RESOLV_CONF_RETRY : N := 5 * 60.

Definition cached_resolver (now : N) (cache : option CachedResolver) : option nat :=
  match cache with
  | None => None
  | Some c =>
      match cached_kind c with
      | HostsPending retry_at => if (retry_at <=? now)%N then None else Some (cached_id c)
      | _ => Some (cached_id c)
      end
  end.

Definition store_system_resolver (r : nat) (cache : option CachedResolver) : nat * option CachedResolver :=
  match cache with
  | Some (mkCached existing System) => (existing, cache)
  | _ => (r, Some (mkCached r System))
  end.

Definition hosts_cache_after_miss (existing : option CacheKind) (now delay : N) : CacheKind :=
  match existing with
  | Some (HostsPending retry_at) => if (retry_at <=? now)%N then HostsFinal else HostsPending retry_at
  | Some HostsFinal => HostsFinal
  | Some System | None => HostsPending (now + delay)
  end.

Definition store_hosts_resolver (now : N) (r : nat) (cache : option CachedResolver) : nat * option CachedResolver :=
  let keep_existing :=
    match cached_kind <$> cache with
    | Some (System | HostsFinal) => true
    | Some (HostsPending retry_at) => (now <? retry_at)%N
    | None => false
    end in
  match cache with
  | Some c =>
      if keep_existing then (cached_id c, cache)
      else (r, Some (mkCached r (hosts_cache_after_miss (Some (cached_kind c)) now RESOLV_CONF_RETRY)))
  | None => (r, Some (mkCached r (hosts_cache_after_miss None now RESOLV_CONF_RETRY)))
  end.

(** What building a resolver from [/etc/resolv.conf] gives: one, no such file (the
    hosts-file resolver is built instead, which may fail), or an error. *)
Inductive ResolvConf := ConfOk | ConfBuildFails | ConfMissing | ConfMissingHostsFail | ConfFails.

(** [dns_resolver]: the id of a resolver it builds is [r]; the last component tells
    whether it tried to build one. *)
Definition dns_resolver (now : N) (conf : ResolvConf) (r : nat) (cache : option CachedResolver)
    : result ConnectError nat * option CachedResolver * bool :=
  match cached_resolver now cache with
  | Some id => (Ok id, cache, false)
  | None =>
      match conf with
      | ConfOk => let '(id, cache) := store_system_resolver r cache in (Ok id, cache, true)
      | ConfBuildFails | ConfMissingHostsFail => (Err DnsResolverBuild, cache, true)
      | ConfMissing => let '(id, cache) := store_hosts_resolver now r cache in (Ok id, cache, true)
      | ConfFails => (Err DnsResolverInit, cache, true)
      end
  end.

(** ** Addresses of a host *)

Inductive Host := HostIp (a : IpAddr) | HostName (name : bytes).

Definition rotate_left {A} (n : nat) (l : list A) : list A := drop n l ++ take n l.

(** The positions of the IPv4 addresses. *)
Definition ipv4_positions (addrs : list SocketAddr) : list nat :=
  omap (λ p : nat * SocketAddr, if is_ipv4 p.2 then Some p.1 else None) (imap pair addrs).

(** The rotation of a lookup: the IPv4 addresses move on by [rotation], in the places of
    IPv4 addresses. *)
Definition rotate_ipv4 (rotation : N) (addrs : list SocketAddr) : list SocketAddr :=
  let positions := ipv4_positions addrs in
  let shift := N.to_nat (rotation mod N.of_nat (length positions)) in
  if shift =? 0 then addrs
  else
    let rotated := rotate_left shift (omap (λ i, addrs !! i) positions) in
    foldl (λ addrs (p : nat * SocketAddr), <[p.1 := p.2]> addrs) addrs (zip positions rotated).

(** The counters [NEXT_ADDR_START] and [NEXT_IPV4_ROTATION], of 64 bits. *)
Record ConnectCounters := mkCounters { next_addr_start : N; next_ipv4_rotation : N }.

Definition fetch_add64 (n : N) : N := (n + 1) mod 2 ^ 64.

(** [lookup_socket_addrs] for a host and what its resolver and its lookup give. *)
Definition lookup_socket_addrs (host : Host) (p : N) (answer : result ConnectError (list IpAddr)) (c : ConnectCounters)
    : result ConnectError (list SocketAddr) * ConnectCounters :=
  match host with
  | HostIp a => (Ok [mkSocketAddr a p], c)
  | HostName _ =>
      match answer with
      | Err e => (Err e, c)
      | Ok [] => (Err DnsNoAddresses, c)
      | Ok ips =>
          let addrs := (λ a, mkSocketAddr a p) <$> ips in
          if 1 <? length (ipv4_positions addrs)
          then (Ok (rotate_ipv4 (next_ipv4_rotation c) addrs),
                mkCounters (next_addr_start c) (fetch_add64 (next_ipv4_rotation c)))
          else (Ok addrs, c)
      end
  end.

(** ** One pass over the addresses *)

(** The loop of [try_resolved_socket_addrs]: [connect] tells what an address gives,
    [resolver] what [dns_resolver] gives when the lookup of IPv6 addresses is to be
    forgotten.  The second component is the addresses tried, in order. *)
Fixpoint try_loop (connect : SocketAddr → result ConnectError unit) (resolver : result ConnectError unit)
    (order : list SocketAddr) (skip_ipv6 : bool) (last_error : option ConnectError)
    : result (option ConnectError) SocketAddr * list SocketAddr :=
  match order with
  | [] => (Err last_error, [])
  | a :: order =>
      if skip_ipv6 && is_ipv6 a then try_loop connect resolver order skip_ipv6 last_error
      else
        match connect a with
        | Ok _ => (Ok a, [a])
        | Err e =>
            if is_ipv6_network_unreachable a e then
              match resolver with
              | Err e => (Err (Some e), [a])
              | Ok _ => let '(r, tried) := try_loop connect resolver order true (Some e) in (r, a :: tried)
              end
            else let '(r, tried) := try_loop connect resolver order skip_ipv6 (Some e) in (r, a :: tried)
        end
  end.

(** [(0..len).map(|offset| addrs[(start + offset) % len])] *)
Definition addr_order (start : nat) (addrs : list SocketAddr) : list SocketAddr :=
  omap (λ offset, addrs !! ((start + offset) mod length addrs)) (seq 0 (length addrs)).

Definition try_resolved_socket_addrs (connect : SocketAddr → result ConnectError unit) (resolver : result ConnectError unit)
    (addrs : list SocketAddr) (c : ConnectCounters)
    : result (option ConnectError) SocketAddr * list SocketAddr * ConnectCounters :=
  match addrs with
  | [] => (Err None, [], c)
  | _ =>
      let start := N.to_nat (next_addr_start c mod N.of_nat (length addrs)) in
      (try_loop connect resolver (addr_order start addrs) false None,
       mkCounters (fetch_add64 (next_addr_start c)) (next_ipv4_rotation c))
  end.

(** What the network and the resolver give during one pass. *)
Record PassEnv := mkPass {
  pass_answer : result ConnectError (list IpAddr);
  pass_connect : SocketAddr → result ConnectError unit;
  pass_resolver : result ConnectError unit }.

(** [create_connected_tcp_stream]: a second lookup, with the answers of the first
    forgotten, when no address of the first connects; [refresh] is the resolver asked
    to forget them. *)
Definition create_connected_tcp_stream (host : Host) (p : N) (first : PassEnv) (refresh : result ConnectError unit)
    (second : PassEnv) (c : ConnectCounters) : result ConnectError SocketAddr * ConnectCounters :=
  match lookup_socket_addrs host p (pass_answer first) c with
  | (Err e, c) => (Err e, c)
  | (Ok addrs, c) =>
      match try_resolved_socket_addrs (pass_connect first) (pass_resolver first) addrs c with
      | (Ok a, _, c) => (Ok a, c)
      | (Err _, _, c) =>
          match refresh with
          | Err e => (Err e, c)
          | Ok _ =>
              match lookup_socket_addrs host p (pass_answer second) c with
              | (Err e, c) => (Err e, c)
              | (Ok addrs, c) =>
                  let '(r, _, c) := try_resolved_socket_addrs (pass_connect second) (pass_resolver second) addrs c in
                  (map_err (default DnsNoAddresses) r, c)
              end
          end
      end
  end.

(** ** Rotation *)

(** The IPv4 places of [addrs] filled with [vs], in order. *)
Fixpoint refill (addrs vs : list SocketAddr) : list SocketAddr :=
  match addrs with
  | [] => []
  | a :: addrs =>
      if is_ipv4 a then match vs with v :: vs => v :: refill addrs vs | [] => a :: addrs end
      else a :: refill addrs vs
  end.

Definition ipv4s (addrs : list SocketAddr) : list SocketAddr := List.filter is_ipv4 addrs.

Lemma ipv4_positions_cons a addrs :
  ipv4_positions (a :: addrs) = (if is_ipv4 a then [0] else []) ++ (S <$> ipv4_positions addrs).
Proof.
  unfold ipv4_positions. cbn [imap omap list_omap fst snd].
  assert (∀ (f : nat → nat) l, omap (λ p : nat * SocketAddr, if is_ipv4 p.2 then Some p.1 else None) (imap (λ i x, (S (f i), x)) l) =
    S <$> omap (λ p : nat * SocketAddr, if is_ipv4 p.2 then Some p.1 else None) (imap (λ i x, (f i, x)) l)) as H.
  { intros f l. revert f. induction l as [|x l IH]; intros f; [done|]. cbn [imap omap list_omap fst snd fmap].
    specialize (IH (f ∘ S)). unfold compose in *. cbn in *. destruct (is_ipv4 x); cbn; [by f_equal|done]. }
  specialize (H id addrs). unfold id, compose in *. destruct (is_ipv4 a); cbn in *; by f_equal.
Qed.

Lemma ipv4_positions_lookup addrs : omap (λ i, addrs !! i) (ipv4_positions addrs) = ipv4s addrs.
Proof.
  induction addrs as [|a addrs IH]; [done|]. rewrite ipv4_positions_cons. cbn [ipv4s List.filter].
  assert (omap (λ i, (a :: addrs) !! i) (S <$> ipv4_positions addrs) = ipv4s addrs) as H.
  { rewrite <- IH. clear IH. generalize (ipv4_positions addrs). induction l as [|i l IH]; [done|]. cbn. by rewrite IH. }
  destruct (is_ipv4 a); cbn [app omap list_omap]; [|exact H]. change ((a :: addrs) !! 0) with (Some a). cbn. by f_equal.
Qed.

Lemma ipv4_positions_length addrs : length (ipv4_positions addrs) = length (ipv4s addrs).
Proof.
  induction addrs as [|a addrs IH]; [done|]. rewrite ipv4_positions_cons, length_app, length_fmap, IH.
  cbn [ipv4s List.filter]. by destruct (is_ipv4 a).
Qed.

(** Writing back position by position fills the IPv4 places. *)
Lemma refill_fold addrs vs pre :
  length vs = length (ipv4s addrs) →
  foldl (λ addrs (p : nat * SocketAddr), <[p.1 := p.2]> addrs) (pre ++ addrs) (zip ((λ i, length pre + i) <$> ipv4_positions addrs) vs) =
  pre ++ refill addrs vs.
Proof.
  revert vs pre. induction addrs as [|a addrs IH]; intros vs pre Hlen; [done|]. rewrite ipv4_positions_cons. cbn [refill].
  assert (∀ x vs, length vs = length (ipv4s addrs) →
    foldl (λ addrs (p : nat * SocketAddr), <[p.1 := p.2]> addrs) (pre ++ x :: addrs) (zip ((λ i, length pre + i) <$> (S <$> ipv4_positions addrs)) vs) =
    pre ++ x :: refill addrs vs) as H.
  { intros x vs' Hvs. specialize (IH vs' (pre ++ [x]) Hvs). rewrite <- !app_assoc in IH. cbn [app] in IH. rewrite <- IH. do 2 f_equal.
    rewrite <- list_fmap_compose. apply list_fmap_ext. intros i y _. rewrite length_app. cbn. lia. }
  cbn [ipv4s List.filter] in Hlen. destruct (is_ipv4 a); cbn [app]; [|by apply H].
  destruct vs as [|v vs]; [done|]. cbn [fmap list_fmap zip zip_with foldl fst snd].
  rewrite insert_app_r. change (<[0 := v]> (a :: addrs)) with (v :: addrs). apply H. by injection Hlen.
Qed.

Lemma refill_families addrs vs :
  length vs = length (ipv4s addrs) → Forall (λ v, is_ipv4 v = true) vs →
  is_ipv4 <$> refill addrs vs = is_ipv4 <$> addrs ∧ ipv4s (refill addrs vs) = vs ∧
  List.filter is_ipv6 (refill addrs vs) = List.filter is_ipv6 addrs.
Proof.
  assert (∀ a, is_ipv6 a = negb (is_ipv4 a)) as H6 by (intros [[] ?]; done).
  unfold ipv4s. revert vs. induction addrs as [|a addrs IH]; intros vs Hlen Hvs; [by destruct vs|].
  cbn [refill ipv4s List.filter fmap list_fmap] in *. rewrite H6. destruct (is_ipv4 a) eqn:Ea.
  - destruct vs as [|v vs]; [done|]. apply Forall_cons in Hvs as [Hv Hvs]. cbn [fmap list_fmap List.filter ipv4s negb].
    rewrite H6, Hv. cbn [negb]. destruct (IH vs) as (-> & E & ->); [by injection Hlen|done|]. by rewrite E.
  - cbn [fmap list_fmap List.filter ipv4s negb]. rewrite H6, Ea. cbn [negb]. destruct (IH vs) as (-> & E & ->); [done|done|]. by rewrite E.
Qed.

Lemma ipv4s_all addrs : Forall (λ v, is_ipv4 v = true) (ipv4s addrs).
Proof. apply Forall_forall. intros a Ha. unfold ipv4s in Ha. apply list_elem_of_In, filter_In in Ha. apply Ha. Qed.

Lemma rotate_left_length {A} n (l : list A) : length (rotate_left n l) = length l.
Proof. unfold rotate_left. rewrite length_app, length_drop, length_take. lia. Qed.

Lemma rotate_left_perm {A} n (l : list A) : rotate_left n l ≡ₚ l.
Proof. unfold rotate_left. rewrite Permutation_app_comm, take_drop. done. Qed.

(** A rotation is a refill. *)
Lemma rotate_ipv4_refill rotation addrs :
  rotate_ipv4 rotation addrs = refill addrs (rotate_left (N.to_nat (rotation mod N.of_nat (length (ipv4s addrs)))) (ipv4s addrs)).
Proof.
  unfold rotate_ipv4. rewrite ipv4_positions_length. set (shift := N.to_nat _).
  assert (refill addrs (ipv4s addrs) = addrs) as Hid.
  { clear. unfold ipv4s. induction addrs as [|a addrs IH]; [done|]. cbn [refill List.filter]. destruct (is_ipv4 a); by rewrite IH. }
  destruct (Nat.eqb_spec shift 0) as [->|Hs].
  - unfold rotate_left. rewrite drop_0, take_0, app_nil_r. done.
  - rewrite ipv4_positions_lookup. pose proof (refill_fold addrs (rotate_left shift (ipv4s addrs)) [] (rotate_left_length _ _)) as H.
    cbn [length app] in H. rewrite <- H. do 2 f_equal. symmetry. apply list_fmap_id.
Qed.

Lemma rotate_left_head {A} n (l : list A) : n < length l → head (rotate_left n l) = l !! n.
Proof.
  intros Hn. unfold rotate_left. rewrite <- (Nat.add_0_r n) at 3. rewrite <- lookup_drop.
  destruct (drop n l) eqn:E; [apply (f_equal length) in E; rewrite length_drop in E; cbn in E; lia|done].
Qed.

Lemma families_perm addrs : addrs ≡ₚ ipv4s addrs ++ List.filter is_ipv6 addrs.
Proof.
  unfold ipv4s. induction addrs as [|a addrs IH]; [done|]. cbn [List.filter].
  assert (is_ipv6 a = negb (is_ipv4 a)) as -> by (by destruct a as [[] ?]). destruct (is_ipv4 a); cbn [negb app].
  - by rewrite <- IH.
  - by rewrite <- Permutation_middle, <- IH.
Qed.

(** Rotating the IPv4 addresses of a lookup loses and adds none: the result is a
    permutation in which every place keeps its family and the IPv6 addresses stay in
    place, the IPv4 addresses keep their cyclic order, and the first of them is that of
    the counter.  So over as many lookups as there are IPv4 addresses every one of them
    comes first once. *)
Theorem rotation_fair rotation addrs :
  let n := length (ipv4s addrs) in
  let rotated := rotate_ipv4 rotation addrs in
  rotated ≡ₚ addrs ∧ is_ipv4 <$> rotated = is_ipv4 <$> addrs ∧
  List.filter is_ipv6 rotated = List.filter is_ipv6 addrs ∧
  ipv4s rotated = rotate_left (N.to_nat (rotation mod N.of_nat n)) (ipv4s addrs) ∧
  (n ≠ 0 → head (ipv4s rotated) = ipv4s addrs !! N.to_nat (rotation mod N.of_nat n)).
Proof.
  intros n rotated. unfold rotated. rewrite rotate_ipv4_refill. fold n. set (shift := N.to_nat _).
  destruct (refill_families addrs (rotate_left shift (ipv4s addrs))) as (Hf & H4 & H6).
  - apply rotate_left_length.
  - rewrite rotate_left_perm. apply ipv4s_all.
  - split_and!; [|done|done|done|].
    + rewrite families_perm, H4, H6, rotate_left_perm, <- families_perm. done.
    + intros Hn. rewrite H4. apply rotate_left_head. unfold shift. fold n. pose proof (N.mod_lt rotation (N.of_nat n)). lia.
Qed.

(** ** Passes *)

Lemma omap_lookup_seq {A} (l : list A) : omap (λ i, l !! i) (seq 0 (length l)) = l.
Proof.
  induction l as [|x l IH]; [done|]. cbn [length seq omap list_omap]. change ((x :: l) !! 0) with (Some x). cbn. f_equal.
  rewrite <- fmap_S_seq. transitivity (omap (λ i, l !! i) (seq 0 (length l))); [|exact IH].
  generalize (seq 0 (length l)). induction l0 as [|i l0 IH0]; [done|]. cbn. by rewrite IH0.
Qed.

(** The loop visits the addresses in cyclic order. *)
Lemma addr_order_rotate start addrs : start < length addrs → addr_order start addrs = rotate_left start addrs.
Proof.
  intros Hs. rewrite <- (omap_lookup_seq (rotate_left start addrs)), rotate_left_length. unfold addr_order.
  assert (∀ i, i ∈ seq 0 (length addrs) → addrs !! ((start + i) mod length addrs) = rotate_left start addrs !! i) as H.
  { intros i [_ Hi]%elem_of_seq. cbn in Hi. unfold rotate_left. destruct (decide (start + i < length addrs)) as [Hlt|Hge].
    - rewrite Nat.mod_small, lookup_app_l, lookup_drop by (try rewrite length_drop; lia). done.
    - rewrite lookup_app_r, length_drop, lookup_take_lt by (rewrite length_drop || idtac; lia).
      f_equal. symmetry. apply (Nat.mod_unique _ _ 1); lia. }
  revert H. generalize (seq 0 (length addrs)). induction l as [|i l IH]; intros H; [done|]. cbn. rewrite H by left.
  rewrite IH; [done|]. intros j Hj. apply H. by right.
Qed.

Section Passes.
Context (connect : SocketAddr → result ConnectError unit).

(** An IPv6 address whose network is not reachable. *)
Definition unreachable (a : SocketAddr) : Prop := ∃ e, connect a = Err e ∧ is_ipv6_network_unreachable a e = true.

(** How a pass over [order] ends: the address that connects is the first that does,
    but for IPv6 addresses that may be passed over once one of them was unreachable. *)
Definition pass_ends (skip : bool) (last : option ConnectError) (order : list SocketAddr)
    (r : result (option ConnectError) SocketAddr) : Prop :=
  match r with
  | Ok a =>
      ∃ before after, order = before ++ a :: after ∧ connect a = Ok () ∧
        Forall (λ b, connect b = Ok () → is_ipv6 b = true ∧ (skip = true ∨ Exists unreachable before)) before
  | Err e =>
      Forall (λ b, connect b = Ok () → is_ipv6 b = true ∧ (skip = true ∨ Exists unreachable order)) order ∧
      (e = None → last = None ∧ (skip = true ∨ order = []))
  end.

Lemma pass_ends_cons skip skip' last last' a order r :
  pass_ends skip' last' order r →
  (connect a = Ok () → is_ipv6 a = true ∧ skip = true) →
  (skip' = true → skip = true ∨ unreachable a) →
  (last' = None → last = None ∧ skip = true) →
  pass_ends skip last (a :: order) r.
Proof.
  intros Hr Ha Hskip Hlast.
  assert (∀ l, skip' = true ∨ Exists unreachable l → skip = true ∨ Exists unreachable (a :: l)) as Hs.
  { intros l [[?|?]%Hskip|?]; auto. }
  destruct r as [x|e].
  - destruct Hr as (before & after & -> & Hx & Hb). exists (a :: before), after. split_and!; [done|done|]. constructor.
    + intros [? ?]%Ha. auto.
    + eapply Forall_impl; [exact Hb|]. intros b Hb' [? ?]%Hb'. auto.
  - destruct Hr as [Hb He]. split.
    + constructor; [intros [? ?]%Ha; auto|]. eapply Forall_impl; [exact Hb|]. intros b Hb' [? ?]%Hb'. auto.
    + intros [[? ?]%Hlast ?]%He. auto.
Qed.

Lemma try_loop_spec order skip last :
  let '(r, tried) := try_loop connect (Ok ()) order skip last in tried `sublist_of` order ∧ pass_ends skip last order r.
Proof.
  revert skip last. induction order as [|a order IH]; intros skip last; cbn [try_loop].
  { split; [done|]. split; [constructor|]. auto. }
  destruct (skip && is_ipv6 a) eqn:Es.
  { apply andb_true_iff in Es as [-> Ea]. specialize (IH true last). destruct (try_loop _ _ order true last) as [r tried].
    destruct IH as [Hsub IH]. split; [by apply sublist_cons|]. by eapply pass_ends_cons; [exact IH|auto..]. }
  destruct (connect a) as [[]|e] eqn:Ec.
  { split; [apply sublist_skip, sublist_nil_l|]. by exists [], order. }
  destruct (is_ipv6_network_unreachable a e) eqn:Eu.
  all: match goal with |- context [try_loop _ _ ?o ?k ?l] => specialize (IH k l); destruct (try_loop connect (Ok ()) o k l) as [r tried] end.
  all: destruct IH as [Hsub IH]; split; [by apply sublist_skip|].
  all: eapply pass_ends_cons; [exact IH|congruence| |done].
  - intros _. right. by exists e.
  - auto.
Qed.
End Passes.

(** One pass over the addresses of a backend tries each at most once, in cyclic order
    from the shared counter.  It ends with the first that connects, passing over only
    IPv6 addresses behind an unreachable one; when it fails no address would have
    connected but for such, so an IPv4 address that accepts connections is always found,
    and the error of the last attempt is reported. *)
Lemma pass_spec connect addrs c :
  let start := N.to_nat (next_addr_start c mod N.of_nat (length addrs)) in
  let '(r, tried, c') := try_resolved_socket_addrs connect (Ok ()) addrs c in
  tried `sublist_of` rotate_left start addrs ∧
  pass_ends connect false None (rotate_left start addrs) r ∧
  (r = Err None ↔ addrs = []) ∧
  (∀ a, a ∈ addrs → is_ipv4 a = true → connect a = Ok () → ∃ b, r = Ok b ∧ connect b = Ok ()).
Proof.
  intros start. destruct (decide (addrs = [])) as [->|Hne].
  { unfold rotate_left. rewrite drop_nil, take_nil. split_and!; [done|split; [constructor|auto]|done|by intros a Ha%elem_of_nil]. }
  assert (0 < length addrs) as Hlen by (by destruct addrs; cbn; [|lia]).
  replace (try_resolved_socket_addrs connect (Ok ()) addrs c) with
    (try_loop connect (Ok ()) (addr_order start addrs) false None, mkCounters (fetch_add64 (next_addr_start c)) (next_ipv4_rotation c))
    by (by destruct addrs).
  rewrite addr_order_rotate by (unfold start; pose proof (N.mod_lt (next_addr_start c) (N.of_nat (length addrs))); lia).
  pose proof (try_loop_spec connect (rotate_left start addrs) false None) as H. destruct (try_loop _ _ _ _ _) as [r tried].
  destruct H as [Hsub H]. split_and!; [done|done| |].
  - split; [|done]. intros ->. destruct H as [_ [_ [?|E]]%(λ f, f eq_refl)]; [done|].
    apply (f_equal length) in E. rewrite rotate_left_length in E. cbn in E. lia.
  - intros a Ha H4 Hc. destruct r as [b|e]; [destruct H as (_ & _ & _ & Hb & _); eauto|]. exfalso.
    destruct H as [H _]. rewrite rotate_left_perm, Forall_forall in H. destruct (H a Ha Hc) as [H6 _].
    by destruct a as [[] ?].
Qed.

(** ** Connecting *)

(** The addresses that a lookup offers. *)
Definition candidates (host : Host) (p : N) (env : PassEnv) : list SocketAddr :=
  match host with
  | HostIp a => [mkSocketAddr a p]
  | HostName _ => match pass_answer env with Ok ips => (λ a, mkSocketAddr a p) <$> ips | Err _ => [] end
  end.

Lemma rotate_ipv4_perm rotation addrs : rotate_ipv4 rotation addrs ≡ₚ addrs.
Proof.
  rewrite rotate_ipv4_refill. set (shift := N.to_nat _).
  destruct (refill_families addrs (rotate_left shift (ipv4s addrs))) as (_ & H4 & H6);
    [apply rotate_left_length|rewrite rotate_left_perm; apply ipv4s_all|].
  by rewrite families_perm, H4, H6, rotate_left_perm, <- families_perm.
Qed.

Lemma lookup_candidates host p env c :
  match lookup_socket_addrs host p (pass_answer env) c with
  | (Ok addrs, _) => addrs ≡ₚ candidates host p env ∧ addrs ≠ []
  | (Err _, _) => candidates host p env = []
  end.
Proof.
  unfold lookup_socket_addrs, candidates. destruct host as [a|]; [done|]. destruct (pass_answer env) as [[|ip ips]|]; [done| |done].
  set (addrs := _ <$> ip :: ips). destruct (_ <? _); [|done]. split; [apply rotate_ipv4_perm|].
  intros E. pose proof (rotate_ipv4_perm (next_ipv4_rotation c) addrs) as Hp. rewrite E in Hp. by apply Permutation_nil_l in Hp.
Qed.

Lemma try_sound connect resolver addrs c :
  let '(r, _, _) := try_resolved_socket_addrs connect resolver addrs c in ∀ a, r = Ok a → a ∈ addrs ∧ connect a = Ok ().
Proof.
  assert (∀ order skip last, let '(r, _) := try_loop connect resolver order skip last in ∀ a, r = Ok a → a ∈ order ∧ connect a = Ok ()) as H.
  { induction order as [|a order IH]; intros skip last; cbn [try_loop]; [done|]. destruct (skip && is_ipv6 a).
    { specialize (IH skip last). destruct (try_loop _ _ _ _ _). intros x [? ?]%IH. split; [by right|done]. }
    destruct (connect a) as [[]|e] eqn:Ec; [intros x [= <-]; split; [left|done]|].
    destruct (is_ipv6_network_unreachable a e), resolver as [[]|]; try done.
    all: match goal with |- context [try_loop _ _ ?o ?k ?l] => specialize (IH k l); destruct (try_loop _ _ o k l) end.
    all: intros x [? ?]%IH; split; [by right|done]. }
  unfold try_resolved_socket_addrs. destruct addrs as [|a addrs]; [done|]. set (start := N.to_nat _).
  specialize (H (addr_order start (a :: addrs)) false None). destruct (try_loop _ _ _ _ _) as [r tried]. intros x [Hx Hc]%H. split; [|done].
  unfold addr_order in Hx. apply list_elem_of_omap in Hx as (i & _ & Hx). by apply list_elem_of_lookup_2 in Hx.
Qed.

Lemma pass_finds connect addrs c a :
  a ∈ addrs → is_ipv4 a = true → connect a = Ok () →
  ∃ b tried c', try_resolved_socket_addrs connect (Ok ()) addrs c = (Ok b, tried, c').
Proof.
  intros Ha H4 Hc. pose proof (pass_spec connect addrs c) as H. destruct (try_resolved_socket_addrs _ _ _ _) as [[r tried] c'].
  destruct H as (_ & _ & _ & H). destruct (H a Ha H4 Hc) as (b & -> & _). eauto.
Qed.

(** A new connection goes to an address that a lookup of the backend offered and that
    accepted it.  One is made whenever an IPv4 address of the first lookup accepts
    connections, and also, after the answers were refreshed, whenever one of the second
    lookup does, for every history of the shared counters. *)
Theorem connection_found host p first refresh second c :
  let r := (create_connected_tcp_stream host p first refresh second c).1 in
  let works env a := a ∈ candidates host p env ∧ pass_connect env a = Ok () in
  (∀ a, r = Ok a → works first a ∨ works second a) ∧
  (∀ a, pass_resolver first = Ok () → works first a → is_ipv4 a = true → ∃ b, r = Ok b) ∧
  (∀ a, candidates host p first ≠ [] → refresh = Ok () → pass_resolver second = Ok () →
    works second a → is_ipv4 a = true → ∃ b, r = Ok b).
Proof.
  intros r works. unfold r, create_connected_tcp_stream. clear r.
  pose proof (lookup_candidates host p first c) as H1. destruct (lookup_socket_addrs host p (pass_answer first) c) as [[addrs1|e1] c1].
  2:{ unfold works. rewrite H1. split_and!; [done|by intros a _ [?%elem_of_nil _]|done]. }
  destruct H1 as [H1 _]. pose proof (try_sound (pass_connect first) (pass_resolver first) addrs1 c1) as S1.
  pose proof (pass_finds (pass_connect first) addrs1 c1) as F1.
  destruct (try_resolved_socket_addrs (pass_connect first) (pass_resolver first) addrs1 c1) as [[r1 t1] c2] eqn:E1.
  destruct r1 as [b1|e1].
  { destruct (S1 b1 eq_refl) as [Hb ?]. rewrite H1 in Hb. split_and!; [|eauto..]. intros a [= <-]. by left. }
  assert (∀ a, pass_resolver first = Ok () → works first a → is_ipv4 a = true → False) as N1.
  { intros a Hr [Ha Hc] H4. rewrite <- H1 in Ha. destruct (F1 a Ha H4 Hc) as (b & tried & c' & E). rewrite Hr in E1. congruence. }
  destruct refresh as [[]|e]; [|split_and!; [done|by intros a ? ? ?%N1|done]].
  pose proof (lookup_candidates host p second c2) as H2. destruct (lookup_socket_addrs host p (pass_answer second) c2) as [[addrs2|e2] c3].
  2:{ split_and!; [done|by intros a ? ? ?%N1|]. unfold works. rewrite H2. by intros a _ _ _ [?%elem_of_nil _]. }
  destruct H2 as [H2 _]. pose proof (try_sound (pass_connect second) (pass_resolver second) addrs2 c3) as S2.
  pose proof (pass_finds (pass_connect second) addrs2 c3) as F2.
  destruct (try_resolved_socket_addrs (pass_connect second) (pass_resolver second) addrs2 c3) as [[r2 t2] c4] eqn:E2.
  split_and!; [|by intros a ? ? ?%N1|].
  - intros a Ha. right. destruct r2 as [b2|]; [|done]. injection Ha as <-. destruct (S2 b2 eq_refl) as [Hb ?]. by rewrite H2 in Hb.
  - intros a _ _ Hr [Ha Hc] H4. rewrite <- H2 in Ha. destruct (F2 a Ha H4 Hc) as (b & tried & c' & E). rewrite Hr in E2.
    exists b. assert (r2 = Ok b) as -> by congruence. done.
Qed.

(** ** The shared resolver settles *)

(** Lookups one after the other: when each asks for the resolver and what it would find
    in [/etc/resolv.conf]. *)
Fixpoint resolve_all (calls : list (N * ResolvConf)) (r : nat) (cache : option CachedResolver)
    : list (result ConnectError nat) * nat * option CachedResolver :=
  match calls with
  | [] => ([], 0, cache)
  | (now, conf) :: calls =>
      let '(res, cache, tried) := dns_resolver now conf r cache in
      let '(results, n, cache) := resolve_all calls (S r) cache in
      (res :: results, (if tried then 1 else 0) + n, cache)
  end.

(** How often the file may still be read. *)
Definition attempts_left (cache : option CachedResolver) : nat :=
  match cached_kind <$> cache with
  | None => 2
  | Some (HostsPending _) => 1
  | Some (System | HostsFinal) => 0
  end.

Definition usable (conf : ResolvConf) : bool := match conf with ConfOk | ConfMissing => true | _ => false end.

Lemma dns_resolver_step now conf r cache :
  usable conf = true →
  let '(res, cache', tried) := dns_resolver now conf r cache in
  (∃ id, res = Ok id) ∧ (if tried then 1 else 0) + attempts_left cache' ≤ attempts_left cache.
Proof.
  intros Hu. unfold dns_resolver, cached_resolver, store_system_resolver, store_hosts_resolver, attempts_left, hosts_cache_after_miss.
  destruct cache as [[id [|retry_at|]]|]; cbn [cached_kind cached_id fmap option_fmap option_map]; destruct conf; try done.
  all: repeat case_match; simplify_eq/=; (split; [by eexists|]); try lia.
  all: rewrite ?N.leb_le, ?N.ltb_lt in *; lia.
Qed.

(** While [/etc/resolv.conf] is either readable or missing, every lookup has a
    resolver, and the file is read at most twice: once, and once more after it was
    missing.  A resolver built from it is used by all later lookups, whatever happens to
    the file. *)
Theorem resolver_settles calls r :
  (Forall (λ call, usable call.2 = true) calls →
    let '(results, tries, cache) := resolve_all calls r None in
    Forall (λ res, ∃ id, res = Ok id) results ∧ tries ≤ 2) ∧
  (∀ id, resolve_all calls r (Some (mkCached id System)) = (replicate (length calls) (Ok id), 0, Some (mkCached id System))).
Proof.
  split.
  - intros Hc. change 2 with (attempts_left None). generalize (@None CachedResolver). revert r.
    induction Hc as [|[now conf] calls Hu Hc IH]; intros r cache; cbn [resolve_all]; [split; [constructor|lia]|].
    pose proof (dns_resolver_step now conf r cache Hu) as Hs. destruct (dns_resolver now conf r cache) as [[res cache'] tried].
    specialize (IH (S r) cache'). destruct (resolve_all calls (S r) cache') as [[results n] cache'']. destruct Hs, IH.
    split; [by constructor|lia].
  - intros id. revert r. induction calls as [|[now conf] calls IH]; intros r; [done|].
    cbn [resolve_all dns_resolver cached_resolver cached_kind cached_id]. by rewrite IH.
Qed.

(** ** Witnesses *)

(** An IPv6 network that is not reachable, an IPv4 address that does not answer, and
    one that does. *)
Example ipv4_found_behind_unreachable_ipv6 :
  let connect a := match ip a with
    | V6 _ => Err (ConnectIo NetworkUnreachable)
    | V4 n => if (n =? 1)%N then Err (ConnectIo OtherConnect) else Ok ()
    end in
  (create_connected_tcp_stream (HostName (bs "news")) 119
    (mkPass (Ok [V6 1; V6 2; V4 1; V4 2]) connect (Ok ())) (Ok ()) (mkPass (Err DnsLookup) connect (Ok ()))
    (mkCounters 0 0)).1 = Ok (mkSocketAddr (V4 2) 119).
Proof. reflexivity. Qed.
