(* ===== verification/Pool.v ===== *)
(** * Pool: the size of a connection pool under failures

    Models the connection provider of [src/src/pool/provider.rs]: a backend connection
    that failed is removed and the pool made smaller until a cooldown has passed.
    Removals, expiring cooldowns and the clearing of idle connections run in tasks of
    their own, so they are modelled twice: as operations, and as tasks that do one
    atomic action at a time ([task_step]) and interleave in any order ([pool_step]).

    The pool library (deadpool) is the interface [Deadpool] with the laws of
    [DeadpoolSpec]. *)

From S2P Require Import Prelude Protocol Request Stream Setup.

(** ** The pool library *)

(** [Pool::status], [Pool::resize] and [Object::take], which removes a checked-out
    connection for good. *)
Class Deadpool (D : Type) := {
  dp_max : D → nat;
  dp_available : D → nat;
  dp_resize : nat → D → D;
  dp_take : D → D }.

Class DeadpoolSpec (D : Type) {DP : Deadpool D} := {
  dp_resize_max n d : dp_max (dp_resize n d) = n;
  dp_resize_0 d : dp_available (dp_resize 0 d) = 0;
  dp_take_max d : dp_max (dp_take d) = dp_max d }.

(** ** The provider *)

(** The timers are the spawned tasks that wait for the end of a cooldown. *)
Record Provider (D : Type) := mkProvider {
  prov_pool : D;
  original_max_size : nat;
  active_cooldowns : nat;
  cooldown_timers : nat;
  replacement_cooldown : option N;
  is_shutting_down : bool }.

Arguments mkProvider {_} _ _ _ _ _ _.
Arguments prov_pool {_} _.
Arguments original_max_size {_} _.
Arguments active_cooldowns {_} _.
Arguments cooldown_timers {_} _.
Arguments replacement_cooldown {_} _.
Arguments is_shutting_down {_} _.

Section Operations.
Context {D : Type} {DP : Deadpool D}.

Definition set_pool (d : D) (p : Provider D) : Provider D :=
  mkProvider d (original_max_size p) (active_cooldowns p) (cooldown_timers p) (replacement_cooldown p) (is_shutting_down p).

Definition set_cooldowns (n : nat) (p : Provider D) : Provider D :=
  mkProvider (prov_pool p) (original_max_size p) n (cooldown_timers p) (replacement_cooldown p) (is_shutting_down p).

Definition set_timers (n : nat) (p : Provider D) : Provider D :=
  mkProvider (prov_pool p) (original_max_size p) (active_cooldowns p) n (replacement_cooldown p) (is_shutting_down p).

Definition from_manager (pool : D) (max_size : nat) (cooldown : option N) : Provider D :=
  mkProvider pool max_size 0 0 cooldown false.

Definition shutdown_and_drop (p : Provider D) : Provider D := set_pool (dp_take (prov_pool p)) p.

Definition resize (n : nat) (p : Provider D) : Provider D := set_pool (dp_resize n (prov_pool p)) p.

Definition resize_then_drop (new_max : nat) (p : Provider D) : Provider D := shutdown_and_drop (resize new_max p).

Definition remove_without_cooldown (p : Provider D) : Provider D := shutdown_and_drop p.

(** [self.replacement_cooldown.filter(|d| !d.is_zero())] *)
Definition cooldown_enabled (p : Provider D) : bool :=
  match replacement_cooldown p with Some d => negb (d =? 0)%N | None => false end.

Definition max_reduction (p : Provider D) : nat := original_max_size p / 2.

(** [self.original_max_size.saturating_sub(cooldowns).max(1)] *)
Definition reduced_max (cooldowns : nat) (p : Provider D) : nat := Nat.max (original_max_size p - cooldowns) 1.

Definition remove_with_cooldown (p : Provider D) : Provider D :=
  if is_shutting_down p then shutdown_and_drop p
  else if negb (cooldown_enabled p) then shutdown_and_drop p
  else if max_reduction p <=? active_cooldowns p then shutdown_and_drop p
  else
    let cooldowns := active_cooldowns p + 1 in
    let p := resize_then_drop (reduced_max cooldowns p) (set_cooldowns cooldowns p) in
    set_timers (S (cooldown_timers p)) p.

(** The drop of a [CooldownGuard], when one of the timers ends. *)
Definition cooldown_expired (p : Provider D) : Provider D :=
  match cooldown_timers p with
  | 0 => p
  | S timers =>
      let remaining := active_cooldowns p - 1 in
      resize (original_max_size p - remaining) (set_cooldowns remaining (set_timers timers p))
  end.

Definition clear_idle_connections (p : Provider D) : Provider D :=
  if 0 <? dp_available (prov_pool p) then resize (reduced_max (active_cooldowns p) p) (resize 0 p) else p.

Definition pool_shutdown (p : Provider D) : Provider D :=
  mkProvider (prov_pool p) (original_max_size p) (active_cooldowns p) (cooldown_timers p) (replacement_cooldown p) true.
End Operations.

(** ** Checkout errors *)

Inductive TimeoutType := WaitTimeout | CreateTimeout | RecycleTimeout.

(** [deadpool::managed::PoolError] *)
Inductive PoolError :=
| PoolTimeout (t : TimeoutType)
| PoolBackend (e : ConnectionError)
| PoolErrorClosed
| NoRuntimeSpecified
| PostCreateHook (e : option ConnectionError).

(** The errors of [get_pooled_connection] that setup does not have. *)
Inductive CheckoutError :=
| CheckoutSetup (e : ConnectionError)
| PoolExhausted (max_size : nat)
| SetupTimedOut
| PoolClosed
| CheckoutOther.

Definition checkout_error {D} `{Deadpool D} (p : Provider D) (e : PoolError) : CheckoutError :=
  match e with
  | PoolBackend e => CheckoutSetup e
  | PoolTimeout WaitTimeout => PoolExhausted (dp_max (prov_pool p))
  | PoolTimeout (CreateTimeout | RecycleTimeout) => SetupTimedOut
  | PoolErrorClosed => PoolClosed
  | NoRuntimeSpecified => CheckoutOther
  | PostCreateHook (Some e) => CheckoutSetup e
  | PostCreateHook None => CheckoutOther
  end.

(** ** Periodic health checks *)

Definition MAX_CONNECTIONS_PER_HEALTH_CHECK_CYCLE : nat := 5.

(** The loop of a cycle of [run_periodic_health_checks]: what [timeout_get] gives each
    time, with the outcome of the DATE check of a connection. *)
Fixpoint health_loop (count : nat) (gets : list (option bool)) (checked failed : N) : N * N :=
  match count, gets with
  | S count, Some healthy :: gets => health_loop count gets (checked + 1) (if healthy then failed else failed + 1)
  | _, _ => (checked, failed)
  end.

Definition health_cycle (available : nat) (gets : list (option bool)) (m : HealthCheckMetrics) : HealthCheckMetrics :=
  if available =? 0 then m
  else
    let '(checked, failed) := health_loop (Nat.min available MAX_CONNECTIONS_PER_HEALTH_CHECK_CYCLE) gets 0 0 in
    if (0 <? checked)%N then record_cycle checked failed m else m.

(** A cycle checks at most five connections, and no more than are idle; not more of
    them fail than are checked, so neither do in total. *)
Theorem health_cycle_bounded available gets m :
  (connections_failed m <= connections_checked m)%N → (connections_checked m + 5 < 2 ^ 64)%N →
  let m' := health_cycle available gets m in
  (connections_checked m <= connections_checked m' <= connections_checked m + N.of_nat (Nat.min available 5))%N ∧
  (connections_failed m' <= connections_checked m')%N.
Proof.
  intros Hle Hmax. unfold health_cycle, MAX_CONNECTIONS_PER_HEALTH_CHECK_CYCLE. destruct (Nat.eqb_spec available 0) as [->|Hne]; [cbn; lia|].
  assert (∀ count gets checked failed, (failed <= checked)%N →
    let '(c, f) := health_loop count gets checked failed in (f <= c)%N ∧ (checked <= c <= checked + N.of_nat count)%N) as H.
  { induction count as [|count IH]; intros gets' checked failed Hf; cbn [health_loop]; [lia|].
    destruct gets' as [|[healthy|] gets']; [lia| |lia].
    specialize (IH gets' (checked + 1)%N (if healthy then failed else failed + 1)%N). destruct (health_loop _ _ _ _).
    destruct IH; [destruct healthy; lia|lia]. }
  specialize (H (Nat.min available 5) gets 0%N 0%N). destruct (health_loop _ _ _ _) as [c f]. destruct H as [Hf Hc]; [lia|].
  destruct (_ <? _)%N; [|lia]. cbn [connections_checked connections_failed record_cycle].
  rewrite !N.mod_small by lia. lia.
Qed.

Lemma health_cycle_bounded_witness :
  (connections_failed (health_cycle 9 [Some true; Some false; None; Some true] (mkHealthMetrics 0 0 0)) <= 2)%N.
Proof.
  destruct (health_cycle_bounded 9 [Some true; Some false; None; Some true] (mkHealthMetrics 0 0 0)) as [_ H].
  - cbn. lia.
  - cbn. lia.
  - etransitivity; [exact H|]. vm_compute. discriminate.
Defined.

(** ** One operation after the other *)

Inductive PoolOp := OpRemoveWithCooldown | OpRemoveWithoutCooldown | OpCooldownExpired | OpClearIdle | OpShutdown.

Section Sequential.
Context {D : Type} {DP : Deadpool D} {DS : DeadpoolSpec D}.

Definition run_op (p : Provider D) (op : PoolOp) : Provider D :=
  match op with
  | OpRemoveWithCooldown => remove_with_cooldown p
  | OpRemoveWithoutCooldown => remove_without_cooldown p
  | OpCooldownExpired => cooldown_expired p
  | OpClearIdle => clear_idle_connections p
  | OpShutdown => pool_shutdown p
  end.

(** Every cooldown has its timer and takes one connection from the pool, which keeps
    at least half of its size. *)
Definition pool_ok (n : nat) (p : Provider D) : Prop :=
  original_max_size p = n ∧ active_cooldowns p = cooldown_timers p ∧ active_cooldowns p ≤ n / 2 ∧
  dp_max (prov_pool p) = n - active_cooldowns p.

Lemma reduced_max_ok n c (p : Provider D) : 0 < n → original_max_size p = n → c ≤ n / 2 → reduced_max c p = n - c.
Proof. intros Hn <- Hc. unfold reduced_max. pose proof (Nat.div_lt (original_max_size p) 2). lia. Qed.

Lemma run_op_ok n p op : 0 < n → pool_ok n p → pool_ok n (run_op p op).
Proof.
  intros Hn (Ho & Ht & Hc & Hm). unfold pool_ok. destruct op; cbn [run_op].
  - unfold remove_with_cooldown, max_reduction. rewrite Ho. destruct (is_shutting_down p), (cooldown_enabled p); cbn [negb]; rewrite ?dp_take_max; try done.
    all: destruct (Nat.leb_spec (n / 2) (active_cooldowns p)); cbn -[Nat.div]; rewrite ?dp_take_max; try done.
    rewrite dp_resize_max, (reduced_max_ok n) by (done || lia). split_and!; (done || lia).
  - cbn -[Nat.div]. by rewrite dp_take_max.
  - unfold cooldown_expired. destruct (cooldown_timers p) as [|t] eqn:Et; [by rewrite Et|]. cbn -[Nat.div]. rewrite dp_resize_max, Ho. split_and!; (done || lia).
  - unfold clear_idle_connections. destruct (_ <? _); [|done]. cbn -[Nat.div]. by rewrite dp_resize_max, (reduced_max_ok n).
  - done.
Qed.

Lemma expire_all n k p : 0 < n → pool_ok n p → k ≤ active_cooldowns p →
  pool_ok n (Nat.iter k cooldown_expired p) ∧ active_cooldowns (Nat.iter k cooldown_expired p) = active_cooldowns p - k.
Proof.
  intros Hn Hp. induction k as [|k IH]; intros Hk; [split; [done|cbn; lia]|].
  destruct IH as [IH E]; [lia|]. change (Nat.iter (S k) cooldown_expired p) with (cooldown_expired (Nat.iter k cooldown_expired p)).
  revert IH E. generalize (Nat.iter k cooldown_expired p). intros q IH E. split; [by apply (run_op_ok n _ OpCooldownExpired)|]. destruct IH as (_ & Ht & _). unfold cooldown_expired. rewrite <- Ht, E.
  replace (active_cooldowns p - k) with (S (active_cooldowns p - S k)) by lia. cbn. lia.
Qed.

(** Operations that do not overlap keep the pool at its configured size less one
    connection for every running cooldown, never below half of it, and once the
    cooldowns have run out it has its configured size again. *)
Theorem pool_size_exact n pool cooldown ops :
  0 < n → dp_max pool = n →
  let p := foldl run_op (from_manager pool n cooldown) ops in
  active_cooldowns p = cooldown_timers p ∧ active_cooldowns p ≤ n / 2 ∧
  dp_max (prov_pool p) = n - active_cooldowns p ∧
  dp_max (prov_pool (Nat.iter (cooldown_timers p) cooldown_expired p)) = n.
Proof.
  intros Hn Hm p. assert (pool_ok n p) as Hp.
  { unfold p. assert (pool_ok n (from_manager pool n cooldown)) as H0 by (split_and!; cbn -[Nat.div]; (done || lia)).
    revert H0. generalize (from_manager pool n cooldown). induction ops as [|op ops IH]; intros q Hq; [done|]. by apply IH, run_op_ok. }
  pose proof Hp as (Ho & Ht & Hc & Hx). split_and!; [done|done|done|]. rewrite <- Ht.
  destruct (expire_all n (active_cooldowns p) p Hn Hp) as [(_ & _ & _ & ->) ->]; lia.
Qed.
End Sequential.

(** ** Operations that overlap *)

(** The tasks, at their next atomic action: removals up to the timer they leave behind,
    and the clearing of idle connections. *)
Inductive Task :=
| RemoveStart
| RemoveCheck
| RemoveCount
| RemoveResize (cooldowns : nat)
| RemoveDrop
| Sleeping
| Waking (remaining : nat)
| ClearStart
| ClearLoad
| ClearEmpty (target : nat)
| ClearRestore (target : nat)
| Finished.

Section Concurrent.
Context {D : Type} {DP : Deadpool D} {DS : DeadpoolSpec D}.

(** One atomic action; [None] when there is none left. *)
Definition task_step (p : Provider D) (t : Task) : option (Provider D * Task) :=
  match t with
  | RemoveStart =>
      if is_shutting_down p || negb (cooldown_enabled p) then Some (shutdown_and_drop p, Finished) else Some (p, RemoveCheck)
  | RemoveCheck =>
      if max_reduction p <=? active_cooldowns p then Some (shutdown_and_drop p, Finished) else Some (p, RemoveCount)
  | RemoveCount =>
      let cooldowns := active_cooldowns p + 1 in Some (set_cooldowns cooldowns p, RemoveResize cooldowns)
  | RemoveResize cooldowns => Some (resize (reduced_max cooldowns p) p, RemoveDrop)
  | RemoveDrop => Some (shutdown_and_drop p, Sleeping)
  | Sleeping => let remaining := active_cooldowns p - 1 in Some (set_cooldowns remaining p, Waking remaining)
  | Waking remaining => Some (resize (original_max_size p - remaining) p, Finished)
  | ClearStart => Some (p, if 0 <? dp_available (prov_pool p) then ClearLoad else Finished)
  | ClearLoad => Some (p, ClearEmpty (reduced_max (active_cooldowns p) p))
  | ClearEmpty target => Some (resize 0 p, ClearRestore target)
  | ClearRestore target => Some (resize target p, Finished)
  | Finished => None
  end.

Inductive pool_step : Provider D * list Task → Provider D * list Task → Prop :=
| step_task p ts i t p' t' :
    ts !! i = Some t → task_step p t = Some (p', t') → pool_step (p, ts) (p', <[i := t']> ts)
| step_remove p ts : pool_step (p, ts) (p, ts ++ [RemoveStart])
| step_clear p ts : pool_step (p, ts) (p, ts ++ [ClearStart])
| step_shutdown p ts : pool_step (p, ts) (pool_shutdown p, ts).

(** The tasks that a cooldown is counted for. *)
Definition holds (t : Task) : bool := match t with RemoveResize _ | RemoveDrop | Sleeping => true | _ => false end.

Definition holding_count (ts : list Task) : nat := count_if holds ts.

(** What holds however the tasks interleave. *)
Definition shared_ok (n : nat) (s : Provider D * list Task) : Prop :=
  original_max_size s.1 = n ∧ active_cooldowns s.1 = holding_count s.2 ∧ dp_max (prov_pool s.1) ≤ n ∧
  Forall (λ t, match t with ClearEmpty target | ClearRestore target => target ≤ n | _ => True end) s.2.

Lemma pool_step_ok n s s' : 0 < n → pool_step s s' → shared_ok n s → shared_ok n s'.
Proof.
  intros Hn Hstep (Ho & Ha & Hm & Ht). destruct Hstep as [p ts i t p' t' Hi Hs|p ts|p ts|p ts]; cbn [fst snd] in *.
  - pose proof (count_if_insert holds ts i t t' Hi) as Hh. fold (holding_count ts) (holding_count (<[i := t']> ts)) in Hh.
    assert (Hti := Forall_lookup_1 _ _ _ _ Ht Hi). cbn in Hti.
    unfold shared_ok. cbn [fst snd]. unfold task_step, reduced_max in Hs.
    destruct t; repeat case_match; simplify_eq/=; rewrite ?dp_take_max, ?dp_resize_max; cbn [holds] in Hh.
    all: split_and!; try done; try lia; apply Forall_insert; (done || lia).
  - split_and!; cbn [fst snd]; [done| |done|apply Forall_app; split; [done|by repeat constructor]].
    unfold holding_count. rewrite count_if_app. cbn. fold (holding_count ts). lia.
  - split_and!; cbn [fst snd]; [done| |done|apply Forall_app; split; [done|by repeat constructor]].
    unfold holding_count. rewrite count_if_app. cbn. fold (holding_count ts). lia.
  - by split_and!.
Qed.

(** Tasks that are not in the middle of an operation. *)
Definition at_rest (t : Task) : Prop := t = Sleeping ∨ t = Finished.

(** C36 However removals, expiring cooldowns and clearing interleave, the pool is never
    larger than configured and the counter of cooldowns is the number of tasks that
    hold one, so that it never falls below zero.  When all tasks are at rest, the next
    cooldown that ends by itself makes the size exact again. *)
Theorem pool_interleaving_safe n pool cooldown p ts :
  0 < n → dp_max pool = n → rtc pool_step (from_manager pool n cooldown, []) (p, ts) →
  dp_max (prov_pool p) ≤ n ∧ active_cooldowns p = holding_count ts ∧
  (∀ i, Forall at_rest ts → ts !! i = Some Sleeping →
    ∃ p' ts', rtc pool_step (p, ts) (p', ts') ∧ ts' = <[i := Finished]> ts ∧
      S (active_cooldowns p') = active_cooldowns p ∧ dp_max (prov_pool p') = n - active_cooldowns p').
Proof.
  intros Hn Hm Hsteps. assert (shared_ok n (p, ts)) as (Ho & Ha & Hmax & _).
  { remember (from_manager pool n cooldown, []) as s eqn:Es. assert (shared_ok n s) as Hs by (subst s; split_and!; cbn; (done || lia)).
    clear Es Hm. induction Hsteps as [|s1 s2 s3 H12 H23 IH]; [done|]. apply IH. by eapply pool_step_ok. }
  cbn [fst snd] in *. split_and!; [done|done|]. intros i Hrest Hi.
  assert (0 < active_cooldowns p) as Hpos.
  { rewrite Ha. unfold holding_count. pose proof (count_if_insert holds ts i Sleeping Finished Hi). cbn in *. lia. }
  set (remaining := active_cooldowns p - 1). exists (resize (n - remaining) (set_cooldowns remaining p)), (<[i := Finished]> ts).
  split_and!; [|done|cbn; unfold remaining; lia|cbn; by rewrite dp_resize_max].
  assert (i < length ts) by (by eapply lookup_lt_Some).
  eapply rtc_l; [by apply (step_task p ts i Sleeping (set_cooldowns remaining p) (Waking remaining))|]. eapply rtc_l; [|apply rtc_refl].
  rewrite <- (list_insert_insert_eq ts i Finished (Waking remaining)). eapply (step_task _ _ i (Waking remaining)); [by apply list_lookup_insert_eq|].
  cbn. by rewrite Ho.
Qed.
End Concurrent.

(** ** A pool *)

Record SimplePool := mkSimplePool { sp_max : nat; sp_idle : nat; sp_size : nat }.

#[global] Instance simple_deadpool : Deadpool SimplePool := {|
  dp_max := sp_max;
  dp_available := sp_idle;
  dp_resize n d := let keep := Nat.min (sp_idle d) (n - (sp_size d - sp_idle d)) in mkSimplePool n keep (sp_size d - sp_idle d + keep);
  dp_take d := mkSimplePool (sp_max d) (sp_idle d) (sp_size d - 1) |}.

#[global] Instance simple_deadpool_spec : DeadpoolSpec SimplePool.
Proof. split; [done|intros d; cbn; lia|done]. Qed.

Definition ten : SimplePool := mkSimplePool 10 4 10.

Lemma pool_size_exact_witness :
  let p := foldl run_op (from_manager ten 10 (Some 30%N)) (replicate 7 OpRemoveWithCooldown ++ [OpClearIdle]) in
  dp_max (prov_pool p) = 5 ∧ dp_max (prov_pool (Nat.iter (cooldown_timers p) cooldown_expired p)) = 10.
Proof.
  assert (0 < 10) as Hn by lia.
  destruct (pool_size_exact (DP := simple_deadpool) 10 ten (Some 30%N) (replicate 7 OpRemoveWithCooldown ++ [OpClearIdle]) Hn eq_refl) as (_ & _ & E & F).
  split; [exact E|exact F].
Defined.

(** The steps of a schedule: which task acts next, or a new removal. *)
Fixpoint run_schedule (l : list (option nat)) (s : Provider SimplePool * list Task) : Provider SimplePool * list Task :=
  match l with
  | [] => s
  | None :: l => run_schedule l (s.1, s.2 ++ [RemoveStart])
  | Some i :: l =>
      match s.2 !! i with
      | Some t => match task_step s.1 t with Some (p', t') => run_schedule l (p', <[i := t']> s.2) | None => run_schedule l s end
      | None => run_schedule l s
      end
  end.

Lemma run_schedule_steps l s : rtc pool_step s (run_schedule l s).
Proof.
  revert s. induction l as [|[i|] l IH]; intros [p ts]; cbn [run_schedule fst snd]; [done| |].
  - destruct (ts !! i) as [t|] eqn:Et; [|apply IH]. destruct (task_step p t) as [[p' t']|] eqn:Es; [|apply IH].
    eapply rtc_l; [by eapply step_task|]. apply IH.
  - eapply rtc_l; [apply step_remove|]. apply IH.
Qed.

(** Two removals that overlap: the first to count itself is the last to resize. *)
Definition overlapping : Provider SimplePool * list Task :=
  run_schedule [None; None; Some 0; Some 0; Some 1; Some 1; Some 0; Some 1; Some 1; Some 0; Some 0; Some 1] (from_manager ten 10 (Some 30%N), []).

Lemma pool_interleaving_safe_witness :
  active_cooldowns overlapping.1 = 2 ∧ ∃ p' ts', rtc pool_step overlapping (p', ts') ∧ dp_max (prov_pool p') = 9.
Proof.
  assert (0 < 10) as Hn by lia. assert (rtc pool_step (from_manager ten 10 (Some 30%N), []) (overlapping.1, overlapping.2)) as Hs.
  { rewrite <- surjective_pairing. apply run_schedule_steps. }
  destruct (pool_interleaving_safe (DP := simple_deadpool) 10 ten (Some 30%N) overlapping.1 overlapping.2 Hn eq_refl Hs) as (_ & Ha & H).
  split; [exact Ha|].
  destruct (H 0) as (p' & ts' & Hs' & _ & Hc & Hm); [by repeat constructor; left|reflexivity|].
  exists p', ts'. split; [rewrite (surjective_pairing overlapping); exact Hs'|]. injection Hc as Hc. by rewrite Hm, Hc.
Defined.

(** Two removals, then both cooldowns end at the same time. *)
Definition shrunk_schedule : list (option nat) :=
  [None; Some 0; Some 0; Some 0; Some 0; Some 0; None; Some 1; Some 1; Some 1; Some 1; Some 1; Some 0; Some 1; Some 1; Some 0].

(** The counter and the size are not updated together, so when two cooldowns end at
    the same time the resize of the first may come last: no cooldown is left and
    nothing is running, but the pool stays smaller than configured. *)
Example pool_stays_shrunk :
  ∃ p ts, rtc pool_step (from_manager ten 10 (Some 30%N), []) (p, ts) ∧
    Forall (λ t, t = Finished) ts ∧ active_cooldowns p = 0 ∧ dp_max (prov_pool p) = 9.
Proof.
  destruct (run_schedule shrunk_schedule (from_manager ten 10 (Some 30%N), [])) as [p ts] eqn:E.
  exists p, ts. split; [rewrite <- E; apply run_schedule_steps|]. vm_compute in E. injection E as <- <-. by repeat constructor.
Qed.

(** Removals that all pass the check before one of them counts itself take more than
    half of the pool. *)
Example cooldown_cap_exceeded :
  ∃ p ts, rtc pool_step (from_manager ten 10 (Some 30%N), []) (p, ts) ∧
    Forall (λ t, t = Sleeping) ts ∧ dp_max (prov_pool p) = 2.
Proof.
  set (l := replicate 8 None ++ concat ((λ i, [Some i; Some i]) <$> seq 0 8) ++ concat ((λ i, [Some i; Some i; Some i]) <$> seq 0 8)).
  destruct (run_schedule l (from_manager ten 10 (Some 30%N), [])) as [p ts] eqn:E.
  exists p, ts. split; [rewrite <- E; apply run_schedule_steps|]. vm_compute in E. injection E as <- <-. by repeat constructor.
Qed.
