(* ===== verification/Compression.v ===== *)
(** * Compression: the deflate layer of a backend connection

    Models [src/src/compression.rs], the stream that compresses what is written to a
    backend and decompresses what is read from it (RFC 8054), poll by poll, and the
    vectored writer of [src/src/io_util.rs] above it.

    The deflate library (flate2) is the interface [Deflate] and [Inflate]; the laws say
    what its documentation promises of the calls that succeed.  [inflated] is what the
    decompression of a stream gives, also of one that is not complete.  The transport
    below is a list of what its next polls do. *)

From S2P Require Import Prelude Stream.

(** ** The deflate library *)

(** [flate2::FlushCompress] *)
Inductive FlushCompress := FlushNone | FlushSync | FlushFinish.

(** [Compress::compress] into [cap] bytes gives the bytes taken and those produced;
    [Decompress::decompress] also tells whether the stream has ended. *)
Class Deflate (C : Type) := compress : FlushCompress → C → bytes → nat → result ErrorKind (nat * bytes * C).
Class Inflate (D : Type) := decompress : D → bytes → nat → result ErrorKind (nat * bytes * bool * D).

(** All that a compressor has taken and produced. *)
Class DeflateSpec (C : Type) {DF : Deflate C} (inflated : bytes → bytes) := {
  taken : C → bytes;
  emitted : C → bytes;
  compress_sound mode c input cap n out c' :
    compress mode c input cap = Ok (n, out, c') →
    n ≤ length input ∧ length out ≤ cap ∧ taken c' = taken c ++ take n input ∧ emitted c' = emitted c ++ out;
  (** Input is taken unless the output has no room left. *)
  compress_progress mode c input cap out c' :
    input ≠ [] → compress mode c input cap = Ok (0, out, c') → length out = cap;
  (** A flush is complete when it leaves room in the output, and takes a bounded
      number of calls. *)
  compress_flushed mode c cap n out c' :
    mode ≠ FlushNone → compress mode c [] cap = Ok (n, out, c') → length out < cap → inflated (emitted c') = taken c';
  owing : C → nat;
  compress_owing mode c cap n out c' :
    mode ≠ FlushNone → 0 < cap → compress mode c [] cap = Ok (n, out, c') →
    owing c' ≤ owing c ∧ (length out = cap → owing c' < owing c) }.

(** All that a decompressor has taken and produced. *)
Class InflateSpec (D : Type) {IF : Inflate D} (inflated : bytes → bytes) := {
  fed : D → bytes;
  given : D → bytes;
  decompress_sound d input cap n out ended d' :
    decompress d input cap = Ok (n, out, ended, d') →
    n ≤ length input ∧ length out ≤ cap ∧ fed d' = fed d ++ take n input ∧ given d' = given d ++ out ∧
    given d' `prefix_of` inflated (fed d');
  inflated_mono l rest : inflated l `prefix_of` inflated (l ++ rest);
  (** At the end of a stream all of it has been produced, and nothing follows. *)
  decompress_ended d input cap n out d' rest :
    decompress d input cap = Ok (n, out, true, d') → inflated (fed d' ++ rest) = given d';
  (** Without progress there was nothing left to do. *)
  decompress_progress d input cap d' :
    0 < cap → decompress d input cap = Ok (0, [], false, d') → input = [] ∧ inflated (fed d') = given d' }.

(** ** Polls *)

Inductive Poll (A : Type) := Ready (a : A) | Pending.
Arguments Ready {_} _.
Arguments Pending {_}.

(** What the transport does when it is polled for a write or a flush. *)
Inductive SinkPoll := SinkTakes (n : nat) | SinkPending | SinkFails (k : ErrorKind).

(** Past the list everything is taken. *)
Record Sink := mkSink { received : bytes; sink_polls : list SinkPoll }.

(** [poll_write] of the transport. *)
Definition sink_write (b : bytes) (s : Sink) : Poll (result ErrorKind nat) * Sink :=
  match sink_polls s with
  | [] => (Ready (Ok (length b)), mkSink (received s ++ b) [])
  | SinkTakes n :: l => let n := Nat.min n (length b) in (Ready (Ok n), mkSink (received s ++ take n b) l)
  | SinkPending :: l => (Pending, mkSink (received s) l)
  | SinkFails k :: l => (Ready (Err k), mkSink (received s) l)
  end.

(** [poll_flush] and [poll_shutdown] of the transport. *)
Definition sink_flush (s : Sink) : Poll (result ErrorKind unit) * Sink :=
  match sink_polls s with
  | [] => (Ready (Ok ()), s)
  | SinkTakes _ :: l => (Ready (Ok ()), mkSink (received s) l)
  | SinkPending :: l => (Pending, mkSink (received s) l)
  | SinkFails k :: l => (Ready (Err k), mkSink (received s) l)
  end.

(** ** Writing *)

Definition WRITE_BUF_SIZE : nat := 16 * 1024.
Definition COMPRESSED_BUF_SIZE : nat := 8 * 1024.

Inductive DrainState := Idle | Draining (pos len : nat).

(** The loop of [poll_drain_buf]; every round but the last writes a byte. *)
Fixpoint drain_rounds (fuel : nat) (buf : bytes) (pos len : nat) (s : Sink)
    : Poll (result ErrorKind unit) * DrainState * Sink :=
  if pos <? len then
    match fuel with
    | 0 => (Pending, Draining pos len, s)
    | S fuel =>
        match sink_write (slice pos len buf) s with
        | (Pending, s) => (Pending, Draining pos len, s)
        | (Ready (Err k), s) => (Ready (Err k), Draining pos len, s)
        | (Ready (Ok 0), s) => (Ready (Err OtherKind), Draining pos len, s)
        | (Ready (Ok n), s) => drain_rounds fuel buf (pos + n) len s
        end
    end
  else (Ready (Ok ()), Idle, s).

Definition poll_drain_buf (buf : bytes) (state : DrainState) (s : Sink) : Poll (result ErrorKind unit) * DrainState * Sink :=
  match state with
  | Idle => (Ready (Ok ()), Idle, s)
  | Draining pos len => drain_rounds (len - pos) buf pos len s
  end.

(** The output of the compressor overwrites the front of a buffer. *)
Definition fill (out buf : bytes) : bytes := out ++ drop (length out) buf.

Definition drain_of (out : bytes) (state : DrainState) : DrainState :=
  if 0 <? length out then Draining 0 (length out) else state.

(** [IoSlice::advance_slices]; advancing past the end would be a panic. *)
Fixpoint advance_slices (n : nat) (l : list bytes) : list bytes :=
  match l with
  | [] => []
  | b :: l => if length b <=? n then advance_slices (n - length b) l else drop n b :: l
  end.

(** The default [poll_write_vectored] writes this slice. *)
Definition first_slice (l : list bytes) : bytes := default [] (List.find (λ b, negb (bool_decide (b = []))) l).

Section Compressed.
Context {C D : Type} {DF : Deflate C} {IF : Inflate D}.

(** The write side of [DecompressStream]. *)
Record CompressWriter := mkCW {
  cw_compressor : C;
  write_buf : bytes;
  flush_buf : bytes;
  write_drain : DrainState;
  flush_drain : DrainState;
  cw_inner : Sink }.

(** [poll_compress_drain] on the flush buffer; a round that fills it is followed by
    another, so the fuel bounds the output of the flush in buffers. *)
Fixpoint poll_compress_drain (fuel : nat) (mode : FlushCompress) (c : C) (buf : bytes) (state : DrainState) (s : Sink)
    : Poll (result ErrorKind unit) * C * bytes * DrainState * Sink :=
  match poll_drain_buf buf state s with
  | (Pending, state, s) => (Pending, c, buf, state, s)
  | (Ready (Err k), state, s) => (Ready (Err k), c, buf, state, s)
  | (Ready (Ok _), state, s) =>
      match compress mode c [] (length buf) with
      | Err k => (Ready (Err k), c, buf, state, s)
      | Ok (_, out, c) =>
          let state := drain_of out state in
          let full := length out =? length buf in
          let buf := fill out buf in
          if full then
            match fuel with
            | 0 => (Pending, c, buf, state, s)
            | S fuel => poll_compress_drain fuel mode c buf state s
            end
          else
            let '(r, state, s) := poll_drain_buf buf state s in (r, c, buf, state, s)
      end
  end.

(** [poll_write] *)
Definition poll_write (b : bytes) (w : CompressWriter) : Poll (result ErrorKind nat) * CompressWriter :=
  match poll_drain_buf (write_buf w) (write_drain w) (cw_inner w) with
  | (Pending, d, s) => (Pending, mkCW (cw_compressor w) (write_buf w) (flush_buf w) d (flush_drain w) s)
  | (Ready (Err k), d, s) => (Ready (Err k), mkCW (cw_compressor w) (write_buf w) (flush_buf w) d (flush_drain w) s)
  | (Ready (Ok _), d, s) =>
      match compress FlushNone (cw_compressor w) b (length (write_buf w)) with
      | Err k => (Ready (Err k), mkCW (cw_compressor w) (write_buf w) (flush_buf w) d (flush_drain w) s)
      | Ok (consumed, out, c) =>
          let buf := fill out (write_buf w) in
          let '(r, d, s) := if 0 <? length out then poll_drain_buf buf (Draining 0 (length out)) s else (Ready (Ok ()), d, s) in
          let w := mkCW c buf (flush_buf w) d (flush_drain w) s in
          match r with
          | Ready (Err k) => (Ready (Err k), w)
          | Ready (Ok _) | Pending => (Ready (Ok (if 0 <? consumed then consumed else Nat.min (length b) 1)), w)
          end
      end
  end.

(** [poll_flush] ([FlushSync]) and [poll_shutdown] ([FlushFinish]). *)
Definition poll_finish (fuel : nat) (mode : FlushCompress) (w : CompressWriter) : Poll (result ErrorKind unit) * CompressWriter :=
  match poll_drain_buf (write_buf w) (write_drain w) (cw_inner w) with
  | (Pending, d, s) => (Pending, mkCW (cw_compressor w) (write_buf w) (flush_buf w) d (flush_drain w) s)
  | (Ready (Err k), d, s) => (Ready (Err k), mkCW (cw_compressor w) (write_buf w) (flush_buf w) d (flush_drain w) s)
  | (Ready (Ok _), d, s) =>
      let '(r, c, buf, fd, s) := poll_compress_drain fuel mode (cw_compressor w) (flush_buf w) (flush_drain w) s in
      match r with
      | Ready (Ok _) => let '(r, s) := sink_flush s in (r, mkCW c (write_buf w) buf d fd s)
      | r => (r, mkCW c (write_buf w) buf d fd s)
      end
  end.

Definition poll_flush (fuel : nat) : CompressWriter → Poll (result ErrorKind unit) * CompressWriter := poll_finish fuel FlushSync.
Definition poll_shutdown (fuel : nat) : CompressWriter → Poll (result ErrorKind unit) * CompressWriter := poll_finish fuel FlushFinish.

(** The write side of [DecompressStream::with_level]. *)
Definition new_writer (c : C) (s : Sink) : CompressWriter :=
  mkCW c (replicate WRITE_BUF_SIZE x00) (replicate WRITE_BUF_SIZE x00) Idle Idle s.

(** [write_all_vectored] of [io_util.rs] as the runtime polls it; [fuel] bounds the
    polls.  A writer without vectored writes takes from the first slice that is not
    empty. *)
Fixpoint write_all_vectored (fuel : nat) (slices : list bytes) (w : CompressWriter) : Poll (result ErrorKind unit) * CompressWriter :=
  match slices with
  | [] => (Ready (Ok ()), w)
  | _ =>
      match fuel with
      | 0 => (Pending, w)
      | S fuel =>
          match poll_write (first_slice slices) w with
          | (Pending, w) => write_all_vectored fuel slices w
          | (Ready (Err k), w) => (Ready (Err k), w)
          | (Ready (Ok 0), w) => (Ready (Err OtherKind), w)
          | (Ready (Ok n), w) => write_all_vectored fuel (advance_slices n slices) w
          end
      end
  end.

(** [flush] as the runtime polls it. *)
Fixpoint flush_polls (fuel flush_fuel : nat) (w : CompressWriter) : Poll (result ErrorKind unit) * CompressWriter :=
  match fuel with
  | 0 => (Pending, w)
  | S fuel =>
      match poll_flush flush_fuel w with
      | (Pending, w) => flush_polls fuel flush_fuel w
      | r => r
      end
  end.

(** [RequestContext::send_to] *)
Definition send_compressed (fuel flush_fuel : nat) (slices : list bytes) (w : CompressWriter) : Poll (result ErrorKind unit) * CompressWriter :=
  match write_all_vectored fuel slices w with
  | (Ready (Ok _), w) => flush_polls fuel flush_fuel w
  | r => r
  end.

(** ** Reading *)

(** The read side: [compressed_buf] from [compressed_pos] to [compressed_len]. *)
Record CompressReader := mkCR {
  cr_decompressor : D;
  compressed_input : bytes;
  cr_inner : list ReadEvent;
  bytes_compressed_in : N;
  bytes_decompressed_out : N }.

(** [try_decompress] into [cap] free bytes: the bytes taken, what was produced and
    whether the read is done. *)
Definition try_decompress (d : D) (input : bytes) (cap : nat) (stats : N) : result ErrorKind (nat * bytes * bool * D * N) :=
  if cap =? 0 then Ok (0, [], true, d, stats)
  else
    '(consumed, out, ended, d) ← decompress d input cap;
    Ok (consumed, out, (0 <? length out) || ended, d, (stats + N.of_nat (length out))%N).

(** The loop of [poll_read] into [cap] free bytes: a round takes compressed bytes, or
    reads some from the transport, or is the last. *)
Fixpoint compressed_read (fuel : nat) (cap : nat) (r : CompressReader) : result ErrorKind bytes * CompressReader :=
  match fuel with
  | 0 => (Err OtherKind, r)
  | S fuel =>
      match try_decompress (cr_decompressor r) (compressed_input r) cap (bytes_decompressed_out r) with
      | Err k => (Err k, r)
      | Ok (consumed, out, done, d, stats) =>
          let r' := mkCR d (drop consumed (compressed_input r)) (cr_inner r) (bytes_compressed_in r) stats in
          if done then (Ok out, r')
          else if bool_decide (compressed_input r ≠ []) then compressed_read fuel cap r'
          else
            match transport_read COMPRESSED_BUF_SIZE (cr_inner r) with
            | (Err k, l) => (Err k, mkCR d [] l (bytes_compressed_in r) stats)
            | (Ok [], l) => (Ok [], mkCR d [] l (bytes_compressed_in r) stats)
            | (Ok b, l) => compressed_read fuel cap (mkCR d b l (bytes_compressed_in r + N.of_nat (length b))%N stats)
            end
      end
  end.

Definition remaining (r : CompressReader) : bytes := compressed_input r ++ transport_bytes (cr_inner r).

Definition compressed_poll_read (cap : nat) (r : CompressReader) : result ErrorKind bytes * CompressReader :=
  compressed_read (2 * length (remaining r) + 2) cap r.

Definition new_reader (d : D) (l : list ReadEvent) : CompressReader := mkCR d [] l 0 0.
End Compressed.

(** ** What is still to be written *)

Definition owed (buf : bytes) (d : DrainState) : bytes :=
  match d with Idle => [] | Draining pos len => slice pos len buf end.

Definition drain_ok (buf : bytes) (d : DrainState) : Prop :=
  match d with Idle => True | Draining pos len => pos ≤ len ≤ length buf end.

(** A transport that makes progress and does not fail. *)
Definition benign (l : list SinkPoll) : Prop :=
  Forall (λ p, match p with SinkTakes n => 0 < n | SinkPending => True | SinkFails _ => False end) l.

(** Between two states of a transport: nothing polled is polled again, and a benign
    transport does not fail, given [R]. *)
Definition polled {A} (R : Prop) (s : Sink) (r : Poll (result ErrorKind A)) (s' : Sink) : Prop :=
  length (sink_polls s') ≤ length (sink_polls s) ∧
  (benign (sink_polls s) → benign (sink_polls s') ∧ (R → ∀ k, r ≠ Ready (Err k))).

(** A poll that is pending used up one of the transport. *)
Definition waits {A} (s : Sink) (r : Poll A) (s' : Sink) : Prop := r = Pending → length (sink_polls s') < length (sink_polls s).

Lemma polled_trans {A B} R (r1 : Poll (result ErrorKind A)) (r2 : Poll (result ErrorKind B)) s s1 s2 :
  polled R s r1 s1 → polled R s1 r2 s2 → polled R s r2 s2.
Proof. intros (L1 & B1) (L2 & B2). split; [lia|]. intros [Hb _]%B1. by apply B2. Qed.

Lemma polled_ready {A} R (a : A) s : polled R s (Ready (Ok a)) s.
Proof. by split. Qed.

Lemma polled_waits {A B} R (r1 : Poll (result ErrorKind A)) (r2 : Poll B) s s1 s2 : polled R s r1 s1 → waits s1 r2 s2 → waits s r2 s2.
Proof. intros [L1 _] W2 E. specialize (W2 E). lia. Qed.

Lemma polled_cast {A B} R (r : Poll (result ErrorKind A)) (r' : Poll (result ErrorKind B)) s s' :
  (∀ k, r' = Ready (Err k) → r = Ready (Err k)) → polled R s r s' → polled R s r' s'.
Proof. intros Hr [L B']. split; [done|]. intros [Hb Hk]%B'. split; [done|]. intros HR k E. by apply (Hk HR k), Hr. Qed.

Lemma drain_rounds_spec R fuel buf pos len s :
  pos ≤ len ≤ length buf → len - pos ≤ fuel →
  let '(r, d, s') := drain_rounds fuel buf pos len s in
  drain_ok buf d ∧ received s' ++ owed buf d = received s ++ slice pos len buf ∧ (r = Ready (Ok ()) → d = Idle) ∧
  polled R s r s' ∧ waits s r s'.
Proof.
  revert pos s. induction fuel as [|fuel IH]; intros pos s Hp Hf; cbn [drain_rounds]; destruct (Nat.ltb_spec pos len) as [Hlt|Hge]; try lia.
  1,3: (split_and!; [done| |done|apply polled_ready|done]); cbn [owed]; unfold slice; by replace (len - pos) with 0 by lia.
  assert (length (slice pos len buf) = len - pos) as Hlen by (unfold slice; rewrite length_take, length_drop; lia).
  assert (∀ n s1, n ≤ len - pos → n ≠ 0 → received s1 = received s ++ take n (slice pos len buf) → polled R s (Ready (Ok ())) s1 →
    let '(r, d, s') := drain_rounds fuel buf (pos + n) len s1 in
    drain_ok buf d ∧ received s' ++ owed buf d = received s ++ slice pos len buf ∧ (r = Ready (Ok ()) → d = Idle) ∧
    polled R s r s' ∧ waits s r s') as Hgo.
  { intros n s1 Hn H0 Hr Hpol. specialize (IH (pos + n) s1 ltac:(lia) ltac:(lia)). destruct (drain_rounds _ _ _ _ _) as [[r d] s'].
    destruct IH as (? & IH & ? & ? & ?). split_and!; [done| |done|by eapply polled_trans|by eapply polled_waits].
    rewrite IH, Hr, <- app_assoc. f_equal. rewrite <- (take_drop n (slice pos len buf)) at 2. f_equal. unfold slice.
    rewrite skipn_firstn_comm, drop_drop. f_equal; lia. }
  unfold sink_write, polled, waits in *. destruct (sink_polls s) as [|[n| |k] l] eqn:El.
  - rewrite Hlen. destruct (len - pos) as [|m] eqn:Em; [lia|]. apply Hgo; [lia|lia|cbn; by rewrite take_ge by lia|done].
  - rewrite Hlen. destruct (Nat.min n (len - pos)) as [|m] eqn:Em.
    + split_and!; [cbn; lia..|cbn; by rewrite take_0, app_nil_r|done|cbn; lia| |done]. intros [Hn _]%Forall_cons. lia.
    + apply Hgo; [lia|lia|done|]. split; [cbn; lia|]. by intros [_ ?]%Forall_cons.
  - split_and!; [cbn; lia..|done|done|cbn; lia| |cbn; lia]. by intros [_ ?]%Forall_cons.
  - split_and!; [cbn; lia..|done|done|cbn; lia| |done]. by intros [? _]%Forall_cons.
Qed.

Lemma poll_drain_buf_spec R buf d s :
  drain_ok buf d →
  let '(r, d', s') := poll_drain_buf buf d s in
  drain_ok buf d' ∧ received s' ++ owed buf d' = received s ++ owed buf d ∧ (r = Ready (Ok ()) → d' = Idle) ∧
  polled R s r s' ∧ waits s r s'.
Proof. destruct d as [|pos len]; [intros _; split_and!; (done || apply polled_ready)|]. intros H. by apply drain_rounds_spec. Qed.

Lemma fill_ok out buf : length out ≤ length buf → length (fill out buf) = length buf ∧ slice 0 (length out) (fill out buf) = out.
Proof.
  intros H. unfold fill, slice. rewrite drop_0, Nat.sub_0_r, take_app_length, length_app, length_drop. split; [lia|done].
Qed.

Section WriterFacts.
Context {C : Type} {DF : Deflate C} {inflated : bytes → bytes} {DS : DeflateSpec C inflated}.

(** The size of the buffers. *)
Context (size : nat) (size_pos : 0 < size).

(** The library does not fail. *)
Definition reliable : Prop := ∀ mode (c : C) input cap, ∃ r, compress mode c input cap = Ok r.

(** What the compressor has produced is with the transport or in one of the buffers. *)
Definition writer_ok (w : CompressWriter (C := C)) : Prop :=
  length (write_buf w) = size ∧ length (flush_buf w) = size ∧
  drain_ok (write_buf w) (write_drain w) ∧ drain_ok (flush_buf w) (flush_drain w) ∧
  (write_drain w = Idle ∨ flush_drain w = Idle) ∧
  emitted (cw_compressor w) = received (cw_inner w) ++ owed (write_buf w) (write_drain w) ++ owed (flush_buf w) (flush_drain w).

Lemma drain_of_ok out buf state :
  length out ≤ length buf → state = Idle → drain_ok (fill out buf) (drain_of out state) ∧ owed (fill out buf) (drain_of out state) = out.
Proof.
  intros Hl ->. destruct (fill_ok out buf Hl) as [Hf Hs]. unfold drain_of. destruct (Nat.ltb_spec 0 (length out)) as [H|H]; cbn [drain_ok owed].
  - split; [lia|done].
  - split; [done|]. by destruct out; [|cbn in H; lia].
Qed.

(** What a poll for a write reports as written was taken by the compressor, unless the
    compressor took nothing and filled the buffer. *)
Lemma poll_write_spec b w :
  writer_ok w → flush_drain w = Idle →
  let '(r, w') := poll_write b w in
  writer_ok w' ∧ flush_drain w' = Idle ∧ polled reliable (cw_inner w) r (cw_inner w') ∧ waits (cw_inner w) r (cw_inner w') ∧
  emitted (cw_compressor w) `prefix_of` emitted (cw_compressor w') ∧
  match r with
  | Pending => taken (cw_compressor w') = taken (cw_compressor w)
  | Ready (Err _) => True
  | Ready (Ok n) =>
      n ≤ length b ∧ (b ≠ [] → 0 < n) ∧
      (taken (cw_compressor w') = taken (cw_compressor w) ++ take n b ∨
       length (emitted (cw_compressor w)) + size ≤ length (emitted (cw_compressor w')))
  end.
Proof.
  intros (Hwl & Hfl & Hwd & Hfd & _ & He) Hfi. rewrite Hfi in He. cbn [owed] in He. rewrite app_nil_r in He. unfold poll_write.
  pose proof (poll_drain_buf_spec reliable (write_buf w) (write_drain w) (cw_inner w) Hwd) as Hd.
  destruct (poll_drain_buf _ _ _) as [[r d] s]. destruct Hd as (Hd & Hr & Hi & Hp & Hw). rewrite <- Hr in He.
  assert (writer_ok (mkCW (cw_compressor w) (write_buf w) (flush_buf w) d (flush_drain w) s)) as Hok.
  { split_and!; [done..|by right|]. cbn. by rewrite Hfi, app_nil_r. }
  destruct r as [[[]|k]|].
  2,3: split_and!; [done|done|(eapply polled_cast; [|exact Hp]; congruence)|(by intros ?; apply Hw)|done|done].
  specialize (Hi eq_refl) as ->. cbn [owed] in He. rewrite app_nil_r in He.
  destruct (compress FlushNone (cw_compressor w) b (length (write_buf w))) as [[[n out] c]|k] eqn:Ec.
  2:{ split_and!; [done|done| |done|done|done]. split; [by apply Hp|]. intros Hb. split; [by apply Hp|]. intros Hrel.
      destruct (Hrel FlushNone (cw_compressor w) b (length (write_buf w))). congruence. }
  pose proof (compress_sound _ _ _ _ _ _ _ Ec) as (Hn & Ho & Ht & Hem).
  destruct (drain_of_ok out (write_buf w) Idle Ho eq_refl) as [Hdo Hso].
  assert ((if 0 <? length out then poll_drain_buf (fill out (write_buf w)) (Draining 0 (length out)) s else (Ready (Ok ()), Idle, s)) =
    poll_drain_buf (fill out (write_buf w)) (drain_of out Idle) s) as -> by (unfold drain_of; by destruct (0 <? length out)).
  pose proof (poll_drain_buf_spec reliable _ _ s Hdo) as Hd2. rewrite Hso in Hd2.
  destruct (poll_drain_buf _ _ s) as [[r d] s2]. destruct Hd2 as (Hd2 & Hr2 & Hi2 & Hp2 & _).
  assert (writer_ok (mkCW c (fill out (write_buf w)) (flush_buf w) d (flush_drain w) s2)) as Hok2.
  { split_and!; [cbn [write_buf]; by rewrite (proj1 (fill_ok _ _ Ho))|done|done|done|by right|]. cbn. by rewrite Hfi, app_nil_r, Hr2, Hem, He. }
  assert (∀ r' : Poll (result ErrorKind nat), (∀ k, r' = Ready (Err k) → r = Ready (Err k)) →
    polled reliable (cw_inner w) r' s2) as Hpol.
  { intros r' Hr'. eapply polled_trans; [exact Hp|]. by eapply polled_cast. }
  assert (emitted (cw_compressor w) `prefix_of` emitted c) as Hpre by (rewrite Hem; by eexists).
  destruct r as [[[]|k]|].
  2:{ split_and!; [done|done|apply Hpol; congruence|done|done|done]. }
  all: split_and!; [done|done|by apply Hpol|done|done|destruct (Nat.ltb_spec 0 n); lia| |].
  1,3: intros Hb; destruct (Nat.ltb_spec 0 n), b; cbn [length Nat.min]; first [done|lia].
  all: destruct (Nat.ltb_spec 0 n) as [H0|H0]; [by left|]; assert (n = 0) as -> by lia.
  all: (destruct b as [|x b]; [by left|right]); cbn [cw_compressor].
  all: apply compress_progress in Ec; [|done]; rewrite Hem, length_app; lia.
Qed.

Lemma advance_slices_concat n l : n ≤ length (concat l) → concat (advance_slices n l) = drop n (concat l).
Proof.
  revert n. induction l as [|b l IH]; intros n Hn; [cbn; by rewrite drop_nil|]. cbn [advance_slices concat] in *. rewrite length_app in Hn.
  destruct (Nat.leb_spec (length b) n); [rewrite IH, drop_app_ge by lia; done|]. cbn [concat]. by rewrite drop_app_le by lia.
Qed.

(** No slices are left, or some that are not empty. *)
Definition slices_ok (l : list bytes) : Prop := concat l = [] → l = [].

Lemma advance_slices_ok n l : slices_ok (advance_slices n l).
Proof.
  revert n. induction l as [|b l IH]; intros n; [done|]. cbn [advance_slices]. destruct (Nat.leb_spec (length b) n); [apply IH|].
  intros E%(f_equal length). cbn in E. rewrite length_app, length_drop in E. lia.
Qed.

Lemma first_slice_prefix l : first_slice l `prefix_of` concat l ∧ (concat l ≠ [] → first_slice l ≠ []).
Proof.
  unfold first_slice. induction l as [|b l IH]; [done|]. cbn [List.find concat]. case_bool_decide as Hb; cbn [negb default].
  - subst b. apply IH.
  - split; [by eexists|done].
Qed.

Lemma write_all_vectored_spec fuel slices w :
  writer_ok w → flush_drain w = Idle → slices_ok slices →
  let '(r, w') := write_all_vectored fuel slices w in
  writer_ok w' ∧ flush_drain w' = Idle ∧ polled reliable (cw_inner w) r (cw_inner w') ∧
  (length (concat slices) + length (sink_polls (cw_inner w)) ≤ fuel → r ≠ Pending) ∧
  emitted (cw_compressor w) `prefix_of` emitted (cw_compressor w') ∧
  (r = Ready (Ok ()) → length (emitted (cw_compressor w')) < length (emitted (cw_compressor w)) + size →
    taken (cw_compressor w') = taken (cw_compressor w) ++ concat slices).
Proof.
  revert slices w. induction fuel as [|fuel IH]; intros slices w Hok Hfi Hs; destruct slices as [|x l] eqn:El; cbn [write_all_vectored].
  1,3: split_and!; [done|done|apply polled_ready|done|done|by rewrite app_nil_r].
  { split_and!; [done|done|done| |done|done]. assert (concat (x :: l) ≠ []) as Hc by (by intros ?%Hs). destruct (concat (x :: l)); [done|cbn; lia]. }
  rewrite <- El in *. assert (concat slices ≠ []) as Hc by (intros ?%Hs; congruence). clear El x l.
  destruct (first_slice_prefix slices) as [Hfs Hne]. specialize (Hne Hc). apply prefix_length in Hfs as Hfl.
  pose proof (poll_write_spec (first_slice slices) w Hok Hfi) as H. destruct (poll_write (first_slice slices) w) as [r w1].
  destruct H as (Hok1 & Hfi1 & Hp1 & Hw1 & Hpre1 & Hr). destruct r as [[n|k]|].
  - destruct Hr as (Hn & H0 & Ht). specialize (H0 Hne). destruct n as [|n]; [lia|].
    specialize (IH (advance_slices (S n) slices) w1 Hok1 Hfi1 (advance_slices_ok _ _)). destruct (write_all_vectored fuel _ w1) as [r w2].
    destruct IH as (Hok2 & Hfi2 & Hp2 & Hf2 & Hpre2 & Ht2). rewrite advance_slices_concat in Hf2, Ht2 by lia. rewrite length_drop in Hf2.
    split_and!; [done|done|by eapply polled_trans|intros Hf; apply Hf2; destruct Hp1; lia|by etrans|].
    intros E Hlt. apply prefix_length in Hpre1 as Hl1. apply prefix_length in Hpre2 as Hl2.
    rewrite Ht2 by (done || lia). destruct Ht as [->|]; [|lia]. rewrite <- app_assoc. f_equal.
    destruct Hfs as [rest ->]. rewrite drop_app_le by lia. by rewrite app_assoc, take_drop.
  - split_and!; [done|done|eapply polled_cast; [|exact Hp1]; congruence|done|done|done].
  - specialize (IH slices w1 Hok1 Hfi1 Hs). destruct (write_all_vectored fuel slices w1) as [r w2].
    destruct IH as (Hok2 & Hfi2 & Hp2 & Hf2 & Hpre2 & Ht2). specialize (Hw1 eq_refl).
    split_and!; [done|done|by eapply polled_trans|intros Hf; apply Hf2; lia|by etrans|].
    intros E Hlt. apply prefix_length in Hpre1 as Hl1. rewrite Ht2, Hr by (done || lia). done.
Qed.

Lemma compress_fails_spec mode c buf d s s' k fuel :
  length buf = size → drain_ok buf d → emitted c = received s' → d = Idle → compress mode c [] (length buf) = Err k →
  polled reliable s (Ready (Ok ())) s' →
  length buf = size ∧ drain_ok buf d ∧ emitted c = received s' ++ owed buf d ∧ taken c = taken c ∧
  emitted c `prefix_of` emitted c ∧ owing c ≤ owing c ∧
  (Ready (Err k) = Ready (A := result ErrorKind unit) (Ok ()) → d = Idle ∧ inflated (emitted c) = taken c) ∧
  polled (A := unit) reliable s (Ready (Err k)) s' ∧ (owing c ≤ fuel → waits s (Ready (A := result ErrorKind unit) (Err k)) s').
Proof.
  intros Hl Hd He -> Ec [Hp Hb]. split_and!; [done|done|by rewrite app_nil_r|done|done|done|done| |done]. split; [done|].
  intros [? _]%Hb. split; [done|]. intros Hrel. destruct (Hrel mode c [] (length buf)). congruence.
Qed.

(** A flush that is ready has given everything to the transport. *)
Lemma poll_compress_drain_spec fuel mode c buf d s :
  mode ≠ FlushNone → length buf = size → drain_ok buf d → emitted c = received s ++ owed buf d →
  let '(r, c', buf', d', s') := poll_compress_drain fuel mode c buf d s in
  length buf' = size ∧ drain_ok buf' d' ∧ emitted c' = received s' ++ owed buf' d' ∧ taken c' = taken c ∧
  emitted c `prefix_of` emitted c' ∧ owing c' ≤ owing c ∧
  (r = Ready (Ok ()) → d' = Idle ∧ inflated (emitted c') = taken c') ∧
  polled reliable s r s' ∧ (owing c ≤ fuel → waits s r s').
Proof.
  intros Hm. revert c buf d s. induction fuel as [|fuel IH]; intros c buf d s Hl Hd He; cbn [poll_compress_drain].
  all: pose proof (poll_drain_buf_spec reliable buf d s Hd) as H; destruct (poll_drain_buf buf d s) as [[r1 d1] s1].
  all: destruct H as (Hd1 & Hr1 & Hi1 & Hp1 & Hw1); rewrite <- Hr1 in He.
  all: destruct r1 as [[[]|k]|]; [|by split_and!..]; specialize (Hi1 eq_refl) as ->.
  all: cbn [owed] in He; rewrite app_nil_r in He.
  all: destruct (compress mode c [] (length buf)) as [[[n out] c1]|k] eqn:Ec; [|by eapply compress_fails_spec].
  all: pose proof (compress_sound _ _ _ _ _ _ _ Ec) as (_ & Ho & Ht & Hem); rewrite take_nil, app_nil_r in Ht.
  all: assert (0 < length buf) as Hpos by (rewrite Hl; exact size_pos).
  all: pose proof (compress_owing _ _ _ _ _ _ Hm Hpos Ec) as [How Hlt].
  all: destruct (drain_of_ok out buf Idle Ho eq_refl) as [Hdo Hso], (fill_ok out buf Ho) as [Hfl _]; rewrite Hl in Hfl.
  all: assert (emitted c1 = received s1 ++ owed (fill out buf) (drain_of out Idle)) as He1 by (by rewrite Hso, Hem, He).
  all: assert (emitted c `prefix_of` emitted c1) as Hpre by (rewrite Hem; by eexists).
  all: destruct (Nat.eqb_spec (length out) (length buf)) as [Hfull|Hroom].
  1: { split_and!; [done..| |intros Hf; specialize (Hlt Hfull); lia]. eapply polled_cast; [|exact Hp1]. done. }
  2: { specialize (IH c1 _ _ s1 Hfl Hdo He1). destruct (poll_compress_drain fuel _ _ _ _ _) as [[[[r c2] buf2] d2] s2].
       destruct IH as (? & ? & ? & ? & ? & ? & ? & ? & Hw). specialize (Hlt Hfull).
       split_and!; [done|done|done|congruence|by etrans|lia|done|by eapply polled_trans|]. intros Hf. eapply polled_waits; [exact Hp1|]. apply Hw. lia. }
  all: pose proof (poll_drain_buf_spec reliable _ _ s1 Hdo) as H; destruct (poll_drain_buf _ _ s1) as [[r2 d2] s2].
  all: destruct H as (Hd2 & Hr2 & Hi2 & Hp2 & Hw2).
  all: split_and!; [done|done|by rewrite Hr2|done|done|lia| |by eapply polled_trans|intros _; by eapply polled_waits].
  all: intros ->; split; [by apply Hi2|]; eapply compress_flushed; [done|exact Ec|lia].
Qed.

Lemma poll_finish_spec fuel mode w :
  mode ≠ FlushNone → writer_ok w →
  let '(r, w') := poll_finish fuel mode w in
  writer_ok w' ∧ taken (cw_compressor w') = taken (cw_compressor w) ∧ emitted (cw_compressor w) `prefix_of` emitted (cw_compressor w') ∧
  owing (cw_compressor w') ≤ owing (cw_compressor w) ∧
  polled reliable (cw_inner w) r (cw_inner w') ∧ (owing (cw_compressor w) ≤ fuel → waits (cw_inner w) r (cw_inner w')) ∧
  (r = Ready (Ok ()) → write_drain w' = Idle ∧ flush_drain w' = Idle ∧ inflated (received (cw_inner w')) = taken (cw_compressor w')).
Proof.
  intros Hm (Hwl & Hfl & Hwd & Hfd & Hone & He). unfold poll_finish.
  pose proof (poll_drain_buf_spec reliable (write_buf w) (write_drain w) (cw_inner w) Hwd) as Hd.
  assert (write_drain w = Idle → poll_drain_buf (write_buf w) (write_drain w) (cw_inner w) = (Ready (Ok ()), Idle, cw_inner w)) as Hidle by (by intros ->).
  destruct (poll_drain_buf _ _ _) as [[r d] s]. destruct Hd as (Hd & Hr & Hi & Hp & Hw). rewrite app_assoc, <- Hr, <- app_assoc in He.
  assert (r ≠ Ready (Ok ()) → writer_ok (mkCW (cw_compressor w) (write_buf w) (flush_buf w) d (flush_drain w) s)) as Hok.
  { intros Hne. split_and!; [done..| |done]. destruct Hone as [H|H]; [specialize (Hidle H); congruence|by right]. }
  destruct r as [[[]|k]|]; [|(split_and!; [by apply Hok|done..])|(split_and!; [by apply Hok|done..])].
  specialize (Hi eq_refl) as ->. cbn [owed app] in He.
  pose proof (poll_compress_drain_spec fuel mode _ _ _ s Hm Hfl Hfd He) as H.
  destruct (poll_compress_drain _ _ _ _ _ _) as [[[[r c] buf] fd] s1].
  destruct H as (Hl1 & Hd1 & He1 & Ht1 & Hpre1 & How1 & Hr1 & Hp1 & Hw1).
  assert (∀ s2, received s2 = received s1 → writer_ok (mkCW c (write_buf w) buf Idle fd s2)) as Hok1.
  { intros s2 E. split_and!; [done..|by left|]. cbn. by rewrite E. }
  destruct r as [[[]|k]|].
  2,3: split_and!; [by apply Hok1|done|done|done|by eapply polled_trans|(intros Hf; eapply polled_waits; [exact Hp|by apply Hw1])|done].
  destruct Hr1 as [-> Hinf]; [done|]. cbn [owed] in He1. rewrite app_nil_r in He1.
  assert (let '(r, s2) := sink_flush s1 in received s2 = received s1 ∧ polled reliable s1 r s2 ∧ waits s1 r s2) as H.
  { unfold sink_flush, polled, waits. destruct (sink_polls s1) as [|[n| |k] l] eqn:El; rewrite ?El; split_and!; cbn; try done; try lia.
    all: by intros [? ?]%Forall_cons. }
  destruct (sink_flush s1) as [r s2]. destruct H as (E2 & Hp2 & Hw2). assert (polled reliable (cw_inner w) (Ready (Ok ())) s1) as Hp01 by (by eapply polled_trans).
  split_and!; [by apply Hok1|done|done|done|by eapply polled_trans|intros _; by eapply polled_waits|].
  intros _. split_and!; [done|done|]. cbn. by rewrite E2, <- He1.
Qed.

Lemma flush_polls_spec fuel flush_fuel w :
  writer_ok w → owing (cw_compressor w) ≤ flush_fuel →
  let '(r, w') := flush_polls fuel flush_fuel w in
  writer_ok w' ∧ taken (cw_compressor w') = taken (cw_compressor w) ∧ emitted (cw_compressor w) `prefix_of` emitted (cw_compressor w') ∧
  polled reliable (cw_inner w) r (cw_inner w') ∧ (length (sink_polls (cw_inner w)) < fuel → r ≠ Pending) ∧
  (r = Ready (Ok ()) → write_drain w' = Idle ∧ flush_drain w' = Idle ∧ inflated (received (cw_inner w')) = taken (cw_compressor w')).
Proof.
  revert w. induction fuel as [|fuel IH]; intros w Hok Hf; cbn [flush_polls].
  { split_and!; [done|done|done|done|lia|done]. }
  pose proof (poll_finish_spec flush_fuel FlushSync w ltac:(done) Hok) as H. unfold poll_flush.
  destruct (poll_finish flush_fuel FlushSync w) as [r w1]. destruct H as (Hok1 & Ht & Hpre & How & Hp & Hw & Hr).
  destruct r as [r|]; [by split_and!|]. specialize (IH w1 Hok1 ltac:(lia)). destruct (flush_polls fuel flush_fuel w1) as [r w2].
  destruct IH as (? & ? & ? & ? & Hf2 & ?). specialize (Hw Hf eq_refl).
  split_and!; [done|congruence|by etrans|by eapply polled_trans|intros; apply Hf2; lia|done].
Qed.

(** A writer with nothing on the way, as after a flush. *)
Definition writer_clean (w : CompressWriter (C := C)) : Prop :=
  writer_ok w ∧ write_drain w = Idle ∧ flush_drain w = Idle ∧ inflated (received (cw_inner w)) = taken (cw_compressor w).

Lemma send_compressed_spec fuel slices w :
  writer_clean w → slices_ok slices →
  ∃ bound, ∀ flush_fuel, bound ≤ flush_fuel →
  let '(r, w') := send_compressed fuel flush_fuel slices w in
  (r = Ready (Ok ()) → length (emitted (cw_compressor w')) < length (emitted (cw_compressor w)) + size →
    writer_clean w' ∧ inflated (received (cw_inner w')) = inflated (received (cw_inner w)) ++ concat slices) ∧
  (reliable → benign (sink_polls (cw_inner w)) → length (concat slices) + length (sink_polls (cw_inner w)) < fuel → r = Ready (Ok ())).
Proof.
  intros (Hok & _ & Hfi & Hin) Hs. unfold send_compressed. pose proof (write_all_vectored_spec fuel slices w Hok Hfi Hs) as H.
  destruct (write_all_vectored fuel slices w) as [r w1]. destruct H as (Hok1 & Hfi1 & Hp1 & Hf1 & Hpre1 & Ht1).
  exists (owing (cw_compressor w1)). intros flush_fuel Hff.
  destruct r as [[[]|k]|].
  2: { split; [done|]. intros Hrel Hb. by destruct (proj2 (proj2 Hp1 Hb) Hrel k). }
  2: { split; [done|]. intros _ _ Hf. destruct Hf1; [lia|done]. }
  pose proof (flush_polls_spec fuel flush_fuel w1 Hok1 Hff) as H. destruct (flush_polls fuel flush_fuel w1) as [r w2].
  destruct H as (Hok2 & Ht2 & Hpre2 & Hp2 & Hf2 & Hr2). apply prefix_length in Hpre1 as Hl1. apply prefix_length in Hpre2 as Hl2. split.
  - intros E Hlt. destruct (Hr2 E) as (? & ? & Hi2). split; [by split_and!|].
    rewrite Hi2, Ht2, Ht1, Hin by (done || lia). done.
  - intros Hrel Hb Hf. destruct (proj2 Hp1 Hb) as [Hb1 _], (proj2 Hp2 Hb1) as [_ Hk]. specialize (Hf2 ltac:(destruct Hp1; lia)).
    destruct r as [[[]|k]|]; [done|by destruct (Hk Hrel k)|done].
Qed.
End WriterFacts.

(** ** What is read *)

Section ReaderFacts.
Context {D : Type} {IF : Inflate D} {inflated : bytes → bytes} {IS : InflateSpec D inflated}.

(** All that the transport gives, and how far the decompressor is in it. *)
Definition reader_ok (total : bytes) (r : CompressReader (D := D)) : Prop :=
  fed (cr_decompressor r) ++ remaining r = total ∧ given (cr_decompressor r) `prefix_of` inflated total.

Lemma transport_read_upcoming cap l :
  0 < cap →
  match transport_read cap l with
  | (Ok b, l') => transport_bytes l = b ++ transport_bytes l' ∧ (b = [] → transport_bytes l = []) ∧ transport_end l' = transport_end l
  | (Err k, l') => transport_bytes l = [] ∧ transport_end l = Some k
  end.
Proof.
  intros Hcap. destruct l as [|[[|x b]|k] l]; [done|done| |done]. cbn [transport_read].
  destruct (Nat.leb_spec (length (x :: b)) cap) as [Hle|Hgt]; [done|].
  assert (∃ y b', drop cap (x :: b) = y :: b') as (y & b' & E).
  { destruct (drop cap (x :: b)) eqn:E; [|eauto]. apply (f_equal length) in E. rewrite length_drop in E. cbn in *. lia. }
  split_and!; [|by destruct cap; [lia|]|by rewrite E]. rewrite E. cbn [transport_bytes]. by rewrite <- E, app_assoc, take_drop.
Qed.

Lemma compressed_read_spec fuel cap total r :
  0 < cap → reader_ok total r → 2 * length (remaining r) + (if bool_decide (compressed_input r = []) then 1 else 0) < fuel →
  let '(res, r') := compressed_read fuel cap r in
  match res with
  | Ok out =>
      reader_ok total r' ∧ given (cr_decompressor r') = given (cr_decompressor r) ++ out ∧ length out ≤ cap ∧
      transport_end (cr_inner r') = transport_end (cr_inner r) ∧ (out = [] → given (cr_decompressor r') = inflated total)
  | Err k => transport_end (cr_inner r) = Some k ∨ ∃ d input cap, decompress (D := D) d input cap = Err k
  end.
Proof.
  intros Hcap. revert r. induction fuel as [|fuel IH]; intros r [Ht Hg] Hf; [lia|]. cbn [compressed_read]. unfold try_decompress.
  destruct (Nat.eqb_spec cap 0) as [|_]; [lia|]. unfold remaining in *.
  destruct (decompress (cr_decompressor r) (compressed_input r) cap) as [[[[n out] ended] d]|k] eqn:Ed; cbn [mbind result_bind]; [|right; by eauto].
  pose proof (decompress_sound _ _ _ _ _ _ _ Ed) as (Hn & Ho & Hfed & Hgiven & Hpre).
  set (rest := drop n (compressed_input r) ++ transport_bytes (cr_inner r)).
  assert (fed d ++ rest = total) as Htot.
  { unfold rest. rewrite Hfed, <- Ht, <- app_assoc. f_equal. by rewrite app_assoc, take_drop. }
  assert (given d `prefix_of` inflated total) as Hg' by (rewrite <- Htot; etrans; [exact Hpre|apply inflated_mono]).
  destruct ((0 <? length out) || ended) eqn:Edone.
  { split_and!; [by split|done|done|done|]. intros ->. cbn in Edone. subst ended. rewrite <- Htot. symmetry. by eapply decompress_ended. }
  apply orb_false_iff in Edone as [Hout%Nat.ltb_ge ->]. assert (out = []) as -> by (by destruct out; [|cbn in Hout; lia]). rewrite app_nil_r in Hgiven.
  destruct (decide (compressed_input r = [])) as [Hin|Hin]; [rewrite (bool_decide_false (_ ≠ [])) by (by intros ?)|rewrite (bool_decide_true (_ ≠ [])) by done].
  2: { assert (n ≠ 0) as Hn0 by (intros ->; destruct (decompress_progress _ _ _ _ Hcap Ed) as [E0 _]; contradiction).
    set (r' := mkCR d _ _ _ _). specialize (IH r' ltac:(by split)).
    rewrite bool_decide_false in Hf by done. rewrite <- Hgiven. change (cr_inner r) with (cr_inner r'). apply IH.
    cbn [compressed_input cr_inner r']. rewrite length_app in Hf. rewrite length_app, length_drop. clear IH; case_bool_decide; lia. }
  rewrite Hin in *. cbn in Hn. assert (n = 0) as -> by lia. cbn [drop app] in rest.
  destruct (decompress_progress _ _ _ _ Hcap Ed) as [_ Hinf].
  pose proof (transport_read_upcoming COMPRESSED_BUF_SIZE (cr_inner r) ltac:(apply Nat.ltb_lt; reflexivity)) as Htr.
  destruct (transport_read _ _) as [[b|k] l]; [|left; by apply Htr]. destruct Htr as (Hb & Hnil & Hend). destruct b as [|x b].
  - unfold rest in Htot. rewrite Hin, Hnil, drop_0 in Htot by done. cbn [app] in Htot. rewrite app_nil_r in Htot. clear Ht; subst total.
    rewrite Hnil in Hb by done. cbn [app] in Hb.
    split_and!; [split; [|done]|by rewrite app_nil_r|cbn; lia|done|intros _; by rewrite Hinf]. unfold remaining. cbn. by rewrite <- Hb, app_nil_r.
  - set (r' := mkCR d _ _ _ _). rewrite <- Hgiven, <- Hend. change l with (cr_inner r').
    assert (reader_ok total r') as Hok by (split; [unfold remaining; cbn; unfold rest in Htot; rewrite Hin, Hb in Htot; done|done]).
    specialize (IH r' Hok). apply IH. rewrite bool_decide_true in Hf by done. rewrite bool_decide_false by done.
    cbn [compressed_input cr_inner r' app] in *. rewrite Hb in Hf. lia.
Qed.

(** One read of a compressed connection. *)
Lemma compressed_poll_read_spec cap total r :
  0 < cap → reader_ok total r →
  let '(res, r') := compressed_poll_read cap r in
  match res with
  | Ok out =>
      reader_ok total r' ∧ given (cr_decompressor r') = given (cr_decompressor r) ++ out ∧ length out ≤ cap ∧
      transport_end (cr_inner r') = transport_end (cr_inner r) ∧ (out = [] → given (cr_decompressor r') = inflated total)
  | Err k => transport_end (cr_inner r) = Some k ∨ ∃ d input cap, decompress (D := D) d input cap = Err k
  end.
Proof. intros Hcap Hr. apply compressed_read_spec; [done|done|]. case_bool_decide; lia. Qed.

(** Reads into buffers of these sizes, up to the end of the stream. *)
Fixpoint read_caps (caps : list nat) (r : CompressReader (D := D)) : result ErrorKind bytes * CompressReader :=
  match caps with
  | [] => (Ok [], r)
  | cap :: caps =>
      match compressed_poll_read cap r with
      | (Err k, r) => (Err k, r)
      | (Ok [], r) => (Ok [], r)
      | (Ok out, r) => let '(res, r) := read_caps caps r in ((λ l, out ++ l) <$> res, r)
      end
  end.

Lemma read_caps_spec caps total r :
  Forall (λ cap, 0 < cap) caps → reader_ok total r → transport_end (cr_inner r) = None →
  (∀ d input cap k, decompress (D := D) d input cap ≠ Err k) →
  ∃ out r', read_caps caps r = (Ok out, r') ∧ given (cr_decompressor r) ++ out `prefix_of` inflated total ∧
    (length (inflated total) < length (given (cr_decompressor r)) + length caps → given (cr_decompressor r) ++ out = inflated total).
Proof.
  intros Hcaps Hr He Hd. revert r Hr He. induction Hcaps as [|cap caps Hcap Hcaps IH]; intros r Hr He; cbn [read_caps].
  { destruct Hr as [_ Hg]. exists [], r. rewrite app_nil_r. split_and!; [done|done|]. apply prefix_length in Hg. cbn. lia. }
  pose proof (compressed_poll_read_spec cap total r Hcap Hr) as H. destruct (compressed_poll_read cap r) as [[out|k] r1].
  2:{ destruct H as [?|(d & input & cap' & ?)]; [congruence|by destruct (Hd d input cap' k)]. }
  destruct H as (Hr1 & Hg1 & _ & He1 & Hend). destruct out as [|x out].
  - exists [], r1. rewrite app_nil_r in *. rewrite <- Hg1, Hend by done. done.
  - destruct (IH r1 Hr1 ltac:(congruence)) as (out2 & r2 & -> & Hp2 & Ht2). exists ((x :: out) ++ out2), r2.
    rewrite Hg1, <- app_assoc in Hp2, Ht2. split_and!; [done|done|]. intros Hlen. apply Ht2.
    rewrite length_app. cbn [length] in *. lia.
Qed.
End ReaderFacts.

(** ** Both sides *)

Section Delivery.
Context {C D : Type} {DF : Deflate C} {IF : Inflate D} {inflated : bytes → bytes}.
Context {DS : DeflateSpec C inflated} {IS : InflateSpec D inflated} (size : nat) (size_pos : 0 < size).

End Delivery.

(** ** A library *)

(** A codec that only delays: the bytes produced, and those taken and not produced. *)
Record Delay := mkDelay { delay_out : bytes; delay_held : bytes }.

#[global] Instance delay_deflate : Deflate Delay := λ mode c input cap,
  if cap <=? length (delay_held c) then
    Ok (0, take cap (delay_held c), mkDelay (delay_out c ++ take cap (delay_held c)) (drop cap (delay_held c)))
  else
    let held := delay_held c ++ input in
    let n := match mode with FlushNone => if cap <=? length held then cap else 0 | _ => cap end in
    Ok (length input, take n held, mkDelay (delay_out c ++ take n held) (drop n held)).

#[global] Instance delay_deflate_spec : DeflateSpec Delay id.
Proof.
  refine {| taken c := delay_out c ++ delay_held c; emitted := delay_out; owing c := length (delay_held c) |}.
  all: unfold compress, delay_deflate; intros mode c.
  - intros input cap n out c'. destruct (Nat.leb_spec cap (length (delay_held c))) as [Hle|Hgt]; intros [= <- <- <-]; cbn [delay_out delay_held].
    + rewrite length_take, take_0, app_nil_r, <- app_assoc, take_drop. split_and!; (done || lia).
    + rewrite length_take, firstn_all, <- !app_assoc, take_drop. split_and!; try done. destruct mode; [case_match|..]; lia.
  - intros input cap out c' Hi. destruct (Nat.leb_spec cap (length (delay_held c))) as [Hle|Hgt]; [intros [= <- <-]; rewrite length_take; lia|].
    intros [= E _ _]. by destruct input.
  - intros cap n out c' Hm. destruct (Nat.leb_spec cap (length (delay_held c))) as [Hle|Hgt]; intros [= <- <- <-]; cbn [delay_out delay_held].
    + rewrite length_take. lia.
    + intros _. rewrite app_nil_r. replace (match mode with FlushNone => _ | _ => cap end) with cap by (by destruct mode).
      by rewrite (take_ge (delay_held c)), (drop_ge (delay_held c)), app_nil_r by lia.
  - intros cap n out c' Hm H0. destruct (Nat.leb_spec cap (length (delay_held c))) as [Hle|Hgt]; intros [= <- <- <-]; cbn [delay_held].
    + rewrite length_drop, length_take. lia.
    + rewrite app_nil_r, length_drop, length_take. lia.
Defined.

(** Its inverse: what was given. *)
#[global] Instance delay_inflate : Inflate bytes := λ d input cap,
  let n := Nat.min cap (length input) in Ok (n, take n input, false, d ++ take n input).

#[global] Instance delay_inflate_spec : InflateSpec bytes id.
Proof.
  refine {| fed := id; given := id |}; unfold decompress, delay_inflate, id.
  - intros d input cap n out ended d' [= <- <- <- <-]. rewrite length_take. split_and!; (done || lia).
  - intros l rest. by eexists.
  - done.
  - intros d input cap d' H0 [= E _ <-]. rewrite E, take_0, app_nil_r. by destruct input; [|cbn in E; lia].
Defined.

(** ** Witnesses *)

(** A new stream is clean. *)
Lemma new_writer_clean polls : writer_clean (inflated := id) WRITE_BUF_SIZE (new_writer (mkDelay [] []) (mkSink [] polls)).
Proof.
  split; [|by split_and!]. split_and!; [apply length_replicate|apply length_replicate|done|done|by left|done].
Qed.

Definition date_slices : list bytes := [bs "DATE"; CRLF].

(** A transport that is slow and takes a few bytes at a time. *)
Definition slow_polls : list SinkPoll := [SinkPending; SinkTakes 1; SinkPending; SinkTakes 3].

(** The stream with its buffers scaled down to four bytes. *)
Definition small_writer (polls : list SinkPoll) : CompressWriter (C := Delay) :=
  mkCW (mkDelay [] []) (replicate 4 x00) (replicate 4 x00) Idle Idle (mkSink [] polls).


(** When the compressor holds more than the buffer takes, a poll for a write finds no
    room for new input, yet it reports a byte as written: the byte is lost. *)
Example write_loses_byte :
  let '(r1, w) := poll_write (bs "0123456789") (small_writer []) in
  let '(r2, w) := poll_write (bs "x") w in
  let '(r3, w) := poll_flush 5 w in
  (r1, r2, r3) = (Ready (Ok 10), Ready (Ok 1), Ready (Ok ())) ∧ received (cw_inner w) = bs "0123456789".
Proof. vm_compute. split; reflexivity. Qed.

(** A poll for a write does not wait for a flush that is not finished: its output
    overtakes the rest of the flush. *)
Example write_overtakes_flush :
  let '(r1, w) := poll_write (bs "ab") (small_writer [SinkTakes 1; SinkPending]) in
  let '(r2, w) := poll_flush 5 w in
  let '(r3, w) := poll_write (bs "cdef") w in
  let '(r4, w) := poll_flush 5 w in
  (r1, r2, r3, r4) = (Ready (Ok 2), Pending, Ready (Ok 4), Ready (Ok ())) ∧ received (cw_inner w) = bs "acdefb".
Proof. vm_compute. split; reflexivity. Qed.
