(* ===== verification/Buffers.v ===== *)
(** * Buffers: the pool of I/O buffers and chunked responses

    Models [BufferPool] and the drop of a [PooledBuffer] of [src/src/pool/buffer.rs]:
    acquiring and returning buffers are lock-free, so they are tasks that do one atomic
    action at a time and interleave in any order; and [ChunkedResponse], the chunks that
    a captured response is kept in.  The regular pool and the capture pool are two pools
    of this kind.  What an acquired buffer does with reads is in [Stream.v].

    The queue (crossbeam's [ArrayQueue]) is a list of bounded length, and the allocator
    gives at least the capacity it is asked for. *)

From S2P Require Import Prelude Article Stream Exchange.

(** ** The pool *)

(** [BytesMut] *)
Record RawBuffer := mkRaw { raw_bytes : bytes; raw_capacity : nat }.

(** [create_aligned_buffer]: whole pages. *)
Definition aligned_size (size : nat) : nat := (size + 4095) / 4096 * 4096.

(** What [acquire_capture_now] asks for. *)
Definition capture_request (capture_capacity buffer_size : nat) : nat :=
  if 0 <? capture_capacity then capture_capacity else buffer_size.

(** [wrap_regular_buffer], and what [acquire_capture_now] does instead. *)
Definition wrap_regular_buffer (buffer_size : nat) (b : RawBuffer) : PooledBuffer := mkBuffer 0 (raw_bytes b) (raw_capacity b) buffer_size.
Definition wrap_capture_buffer (b : RawBuffer) : PooledBuffer := mkBuffer 0 (raw_bytes b) (raw_capacity b) 0.

(** The queue and the two counters that the buffers share. *)
Record BufferPool := mkBufferPool { bp_queue : list RawBuffer; pool_size : nat; allocated_count : nat }.

Definition new_buffer_pool : BufferPool := mkBufferPool [] 0 0.

Definition available_buffers (p : BufferPool) : nat := pool_size p.
Definition buffers_in_use (p : BufferPool) : nat := allocated_count p - available_buffers p.

(** A user of the pool, at its next atomic action.  [Acquired] is what [acquire]
    returns: the buffer, its expected capacity and whether it counts toward the pool. *)
Inductive BufferTask :=
| AcquirePop
| AcquireUncount (b : RawBuffer)
| ReserveLoad
| ReserveCas (seen : nat)
| Acquired (b : RawBuffer) (expected : nat) (counts : bool)
| Held (b : RawBuffer) (expected : nat) (counts : bool)
| DropStart (b : RawBuffer) (expected : nat) (counts : bool)
| ReturnLoad (b : RawBuffer)
| ReturnCas (b : RawBuffer) (seen : nat)
| ReturnPush (b : RawBuffer)
| ReturnUndo
| ReturnDiscard
| BufferDone.

Section Pool.
(** [max_pool_size] and the bytes asked of the allocator. *)
Context (max request : nat).

(** The capacity of the queue. *)
Definition queue_capacity : nat := Nat.max max 1.

(** One atomic action of [acquire_now] with [try_reserve_regular_slot]: a weak
    compare-and-exchange may fail for no reason ([spurious]), and a new buffer has some
    capacity [fresh]. *)
Definition acquire_step (spurious : bool) (fresh : nat) (p : BufferPool) (t : BufferTask) : option (BufferPool * BufferTask) :=
  match t with
  | AcquirePop =>
      match bp_queue p with
      | b :: queue => Some (mkBufferPool queue (pool_size p) (allocated_count p), AcquireUncount b)
      | [] => Some (p, ReserveLoad)
      end
  | AcquireUncount b => Some (mkBufferPool (bp_queue p) (pool_size p - 1) (allocated_count p), Acquired b (raw_capacity b) true)
  | ReserveLoad => Some (p, ReserveCas (allocated_count p))
  | ReserveCas seen =>
      if seen <? max then
        if negb spurious && (allocated_count p =? seen)
        then Some (mkBufferPool (bp_queue p) (pool_size p) (seen + 1), Acquired (mkRaw [] fresh) fresh true)
        else Some (p, ReserveCas (allocated_count p))
      else Some (p, Acquired (mkRaw [] fresh) fresh false)
  | _ => None
  end.

(** One atomic action of the drop of a [PooledBuffer]. *)
Definition drop_step (spurious : bool) (p : BufferPool) (t : BufferTask) : option (BufferPool * BufferTask) :=
  match t with
  | Acquired b expected counts => Some (p, Held b expected counts)
  | Held b expected counts => Some (p, DropStart b expected counts)
  | DropStart b expected counts =>
      if negb (raw_capacity b =? expected) then Some (p, if counts then ReturnDiscard else BufferDone)
      else Some (p, if counts then ReturnLoad (mkRaw [] (raw_capacity b)) else BufferDone)
  | ReturnLoad b => Some (p, ReturnCas b (pool_size p))
  | ReturnCas b seen =>
      if seen <? max then
        if negb spurious && (pool_size p =? seen)
        then Some (mkBufferPool (bp_queue p) (seen + 1) (allocated_count p), ReturnPush b)
        else Some (p, ReturnCas b (pool_size p))
      else Some (p, ReturnDiscard)
  | ReturnPush b =>
      if length (bp_queue p) <? queue_capacity
      then Some (mkBufferPool (bp_queue p ++ [b]) (pool_size p) (allocated_count p), BufferDone)
      else Some (p, ReturnUndo)
  | ReturnUndo => Some (mkBufferPool (bp_queue p) (pool_size p - 1) (allocated_count p), ReturnDiscard)
  | ReturnDiscard => Some (mkBufferPool (bp_queue p) (pool_size p) (allocated_count p - 1), BufferDone)
  | _ => None
  end.

Definition buffer_step (spurious : bool) (fresh : nat) (p : BufferPool) (t : BufferTask) : option (BufferPool * BufferTask) :=
  match acquire_step spurious fresh p t with Some s => Some s | None => drop_step spurious p t end.

(** Tasks act in any order; new ones start with [acquire]; the holder of a buffer may
    do anything with it, also make it grow or take its bytes away ([freeze]). *)
Inductive pool_run : BufferPool * list BufferTask → BufferPool * list BufferTask → Prop :=
| run_task p ts i t spurious fresh p' t' :
    ts !! i = Some t → request ≤ fresh → buffer_step spurious fresh p t = Some (p', t') → pool_run (p, ts) (p', <[i := t']> ts)
| run_acquire p ts : pool_run (p, ts) (p, ts ++ [AcquirePop])
| run_use p ts i b expected counts b' :
    ts !! i = Some (Held b expected counts) → pool_run (p, ts) (p, <[i := Held b' expected counts]> ts).

(** ** Balance *)

(** The tasks that hold a buffer that counts toward the pool. *)
Definition counted (t : BufferTask) : bool :=
  match t with
  | AcquireUncount _ | ReturnLoad _ | ReturnCas _ _ | ReturnPush _ | ReturnUndo | ReturnDiscard => true
  | Acquired _ _ counts | Held _ _ counts | DropStart _ _ counts => counts
  | _ => false
  end.

(** The tasks whose buffer is in [pool_size] and not in the queue. *)
Definition sized (t : BufferTask) : bool :=
  match t with AcquireUncount _ | ReturnPush _ | ReturnUndo => true | _ => false end.

(** A buffer as the pool keeps it. *)
Definition idle_buffer (b : RawBuffer) : Prop := raw_bytes b = [] ∧ request ≤ raw_capacity b.

Definition task_ok (t : BufferTask) : Prop :=
  match t with
  | AcquireUncount b | ReturnLoad b | ReturnCas b _ | ReturnPush b => idle_buffer b
  | Acquired b expected _ => idle_buffer b ∧ expected = raw_capacity b
  | Held _ expected _ | DropStart _ expected _ => request ≤ expected
  | ReturnUndo => False
  | _ => True
  end.

Definition balanced (s : BufferPool * list BufferTask) : Prop :=
  allocated_count s.1 = length (bp_queue s.1) + count_if counted s.2 ∧ allocated_count s.1 ≤ max ∧
  pool_size s.1 = length (bp_queue s.1) + count_if sized s.2 ∧ pool_size s.1 ≤ max ∧
  Forall idle_buffer (bp_queue s.1) ∧ Forall task_ok s.2.

Lemma buffer_step_balanced p ts i t spurious fresh p' t' :
  ts !! i = Some t → request ≤ fresh → buffer_step spurious fresh p t = Some (p', t') → balanced (p, ts) → balanced (p', <[i := t']> ts).
Proof.
  intros Hi Hfresh Hs (Ha & Ham & Hz & Hzm & Hq & Ht). cbn [fst snd] in *.
  pose proof (count_if_insert counted ts i t t' Hi) as Hc. pose proof (count_if_insert sized ts i t t' Hi) as Hd.
  assert (task_ok t) as Hti by (by eapply Forall_lookup_1).
  unfold balanced. cbn [fst snd].
  assert (task_ok t' → Forall task_ok (<[i := t']> ts)) as Hins by (by intros; apply Forall_insert).
  unfold buffer_step, acquire_step, drop_step in Hs. destruct t; repeat case_match; simplify_eq/=; cbn [counted sized] in Hc, Hd.
  all: try (apply Forall_cons in Hq as [? ?]).
  all: rewrite ?length_app; cbn [length].
  all: repeat match goal with
    | H : (_ <? _) = true |- _ => apply Nat.ltb_lt in H
    | H : (_ <? _) = false |- _ => apply Nat.ltb_ge in H
    | H : negb _ && (_ =? _) = true |- _ => apply andb_true_iff in H as [_ H%Nat.eqb_eq]
    | H : negb (_ =? _) = false |- _ => apply negb_false_iff, Nat.eqb_eq in H
    end.
  all: split_and!; try lia; try done; try (apply Hins; done).
  all: try match goal with H : bp_queue _ = [] |- _ => rewrite H; cbn; (done || lia) end.
  all: try (apply Hins; cbn in *; unfold idle_buffer in *; intuition (cbn in *; lia)).
  - exfalso. pose proof (count_if_pos sized ts i _ Hi eq_refl). unfold queue_capacity in *. lia.
  - apply Forall_app. split; [done|]. by repeat constructor; apply Hti.
Qed.

Lemma pool_run_balanced s s' : pool_run s s' → balanced s → balanced s'.
Proof.
  intros [p ts i t spurious fresh p' t' Hi Hf Hst|p ts|p ts i b expected counts b' Hi] Hb.
  - by eapply buffer_step_balanced.
  - destruct Hb as (? & ? & ? & ? & ? & ?). split_and!; try done; cbn [fst snd] in *; rewrite ?count_if_app; cbn; try lia.
    apply Forall_app. split; [done|by repeat constructor].
  - destruct Hb as (? & ? & ? & ? & ? & Ht). cbn [fst snd] in *.
    pose proof (count_if_insert counted ts i _ (Held b' expected counts) Hi) as Hc.
    pose proof (count_if_insert sized ts i _ (Held b' expected counts) Hi) as Hd. cbn in Hc, Hd.
    split_and!; try done; cbn [fst snd]; try lia. apply Forall_insert; [done|]. by apply (Forall_lookup_1 _ _ _ _ Ht Hi).
Qed.

Lemma reachable_balanced s : rtc pool_run (new_buffer_pool, []) s → balanced s.
Proof.
  intros Hrun. assert (balanced (new_buffer_pool, [])) as Hs by (split_and!; cbn; (done || lia || constructor)).
  revert Hs. induction Hrun; eauto using pool_run_balanced.
Qed.

Lemma sized_counted ts : count_if sized ts ≤ count_if counted ts.
Proof.
  unfold count_if. induction ts as [|t ts IH]; [done|]. cbn [List.filter].
  destruct t; cbn [sized counted]; repeat case_match; cbn [length]; lia.
Qed.

(** C37 However acquiring and returning buffers interleave, the pool never allocates more
    buffers that count toward it than configured and never loses one: each of them is in
    the queue or with one task.  A buffer always finds room when it is pushed back, the
    counters never fall below zero, and a buffer that is acquired is empty and as large
    as asked for, whatever its last holder did to it.  When all buffers have been
    dropped, all that were allocated and kept are available again. *)
Theorem buffer_pool_balanced p ts :
  rtc pool_run (new_buffer_pool, []) (p, ts) →
  allocated_count p ≤ max ∧ allocated_count p = length (bp_queue p) + count_if counted ts ∧
  available_buffers p = length (bp_queue p) + count_if sized ts ∧ available_buffers p ≤ allocated_count p ∧
  ReturnUndo ∉ ts ∧
  (∀ b expected counts, Acquired b expected counts ∈ ts → raw_bytes b = [] ∧ request ≤ raw_capacity b) ∧
  (Forall (λ t, t = BufferDone) ts → available_buffers p = length (bp_queue p) ∧ buffers_in_use p = 0).
Proof.
  intros (Ha & Ham & Hz & Hzm & Hq & Ht)%reachable_balanced. cbn [fst snd] in *. rewrite Forall_forall in Ht.
  unfold buffers_in_use, available_buffers. pose proof (sized_counted ts) as Hle.
  split_and!; [done|done|done|lia|by intros ?%Ht| |].
  - intros b expected counts [[? ?] _]%Ht. done.
  - intros Hdone. rewrite (count_if_none counted) in Ha by (eapply Forall_impl; [exact Hdone|]; by intros ? ->).
    rewrite (count_if_none sized) in Hz by (eapply Forall_impl; [exact Hdone|]; by intros ? ->). lia.
Qed.
End Pool.

(** One buffer is acquired, written to and returned to a pool of one, which then has it. *)
Lemma buffer_pool_balanced_witness :
  ∃ p, rtc (pool_run 1 2) (new_buffer_pool, []) (p, [BufferDone]) ∧ bp_queue p = [mkRaw [] 4] ∧ buffers_in_use p = 0.
Proof.
  assert (rtc (pool_run 1 2) (new_buffer_pool, []) (mkBufferPool [mkRaw [] 4] 1 1, [BufferDone])) as Hrun.
  { eapply rtc_l; [apply run_acquire|]. cbn.
    do 4 (eapply rtc_l; [eapply (run_task 1 2 _ _ 0 _ false 4); [reflexivity|lia|reflexivity]|cbn]).
    eapply rtc_l; [eapply (run_use 1 2 _ _ 0 _ _ _ (mkRaw (bs "ab") 4)); reflexivity|cbn].
    do 5 (eapply rtc_l; [eapply (run_task 1 2 _ _ 0 _ false 4); [reflexivity|lia|reflexivity]|cbn]). apply rtc_refl. }
  eexists. split; [exact Hrun|]. split; [reflexivity|].
  apply (buffer_pool_balanced 1 2 _ _ Hrun). repeat constructor.
Defined.

Lemma aligned_size_ge size : size ≤ aligned_size size.
Proof. unfold aligned_size. pose proof (Nat.div_mod_eq (size + 4095) 4096). pose proof (Nat.mod_upper_bound (size + 4095) 4096). lia. Qed.

(** Every buffer that the pool hands out is what the response exchanges of [Exchange.v]
    start from: empty, with room for a whole read of the configured size. *)
Lemma acquired_buffer_ready max size p ts b expected counts :
  0 < size → rtc (pool_run max (aligned_size size)) (new_buffer_pool, []) (p, ts) → Acquired b expected counts ∈ ts →
  acquired (PL := size) (wrap_regular_buffer size b).
Proof.
  intros Hs (_ & _ & _ & _ & _ & Ht)%reachable_balanced Hin. rewrite Forall_forall in Ht.
  destruct (Ht _ Hin) as [[Hb Hc] _]. pose proof (aligned_size_ge size).
  assert (read_limit (wrap_regular_buffer size b) = size) as Hl by (unfold read_limit; cbn; by destruct size; [lia|]).
  unfold acquired, buffer_ok, initialized. rewrite Hl. cbn. rewrite Hb. cbn. split_and!; (done || lia).
Qed.

(** ** Chunked responses *)

Record ResponseChunk := mkChunk { chunk_buffer : PooledBuffer; chunk_start : nat; chunk_end : nat }.

Record ChunkedResponse := mkChunked { chunks : list ResponseChunk; response_len : nat }.

Definition empty_response : ChunkedResponse := mkChunked [] 0.

Definition chunk_slice (k : ResponseChunk) : bytes := slice (chunk_start k) (chunk_end k) (visible (chunk_buffer k)).

Definition iter_chunks (r : ChunkedResponse) : list bytes := chunk_slice <$> chunks r.

Definition can_append (k : ResponseChunk) : bool :=
  (chunk_end k =? initialized (chunk_buffer k)) && (initialized (chunk_buffer k) <? capacity (chunk_buffer k)).

(** [PooledBuffer::extend_from_slice]: the visible bytes move to the front, and a
    buffer without room grows. *)
Definition buffer_extend (data : bytes) (b : PooledBuffer) : PooledBuffer :=
  mkBuffer 0 (visible b ++ data) (Nat.max (capacity b) (initialized b + length data)) (writable_len b).

(** What [acquire_capture_now] gives, with a capacity that may differ from chunk to chunk. *)
Definition capture_buffer (cap : nat) : PooledBuffer := wrap_capture_buffer (mkRaw [] cap).

(** The loop of [ChunkedResponse::extend_from_slice]; every round copies a byte.
    [capture n] is the capacity of the buffer that becomes the [n]th chunk. *)
Fixpoint extend_loop (fuel : nat) (capture : nat → nat) (data : bytes) (r : ChunkedResponse) : ChunkedResponse :=
  match data, fuel with
  | [], _ | _, 0 => r
  | _, S fuel =>
      let need_new_chunk := match last (chunks r) with Some k => negb (can_append k) | None => true end in
      let cs := if need_new_chunk then chunks r ++ [mkChunk (capture_buffer (capture (length (chunks r)))) 0 0] else chunks r in
      match last cs with
      | None => r
      | Some k =>
          let available := capacity (chunk_buffer k) - initialized (chunk_buffer k) in
          let n := Nat.min available (length data) in
          let k := mkChunk (buffer_extend (take n data) (chunk_buffer k)) (chunk_start k) (chunk_end k + n) in
          extend_loop fuel capture (drop n data) (mkChunked (removelast cs ++ [k]) (response_len r + n))
      end
  end.

Definition extend_response (capture : nat → nat) (data : bytes) (r : ChunkedResponse) : ChunkedResponse :=
  extend_loop (length data) capture data r.

(** [push_buffer_range]; [None] is the failed assertion. *)
Definition push_buffer_range (b : PooledBuffer) (start end_ : nat) (r : ChunkedResponse) : option ChunkedResponse :=
  if (start <=? end_) && (end_ <=? initialized b)
  then Some (mkChunked (chunks r ++ [mkChunk b start end_]) (response_len r + (end_ - start)))
  else None.

(** [copy_prefix_into]; the loop is that of [Article.v]. *)
Definition response_prefix (len : nat) (r : ChunkedResponse) : bytes := copy_prefix_loop (Nat.min len (response_len r)) (iter_chunks r).

Definition response_to_vec (r : ChunkedResponse) : bytes := concat (iter_chunks r).

Definition clear_response (r : ChunkedResponse) : ChunkedResponse := empty_response.

(** What is done with a response between its creation and its use. *)
Inductive ResponseOp :=
  | Extend (data : bytes)
  | PushRange (b : PooledBuffer) (start end_ : nat)
  | Clear.

Definition response_op (capture : nat → nat) (op : ResponseOp) (r : ChunkedResponse) : option ChunkedResponse :=
  match op with
  | Extend data => Some (extend_response capture data r)
  | PushRange b start end_ => push_buffer_range b start end_ r
  | Clear => Some (clear_response r)
  end.

Fixpoint response_run (capture : nat → nat) (ops : list ResponseOp) (r : ChunkedResponse) : option ChunkedResponse :=
  match ops with
  | [] => Some r
  | op :: ops => r ← response_op capture op r; response_run capture ops r
  end.

(** The contract: a response is a byte string. *)
Definition abstract_op (op : ResponseOp) (l : bytes) : option bytes :=
  match op with
  | Extend data => Some (l ++ data)
  | PushRange b start end_ =>
      if (start <=? end_) && (end_ <=? initialized b) then Some (l ++ slice start end_ (visible b)) else None
  | Clear => Some []
  end.

Fixpoint abstract_run (ops : list ResponseOp) (l : bytes) : option bytes :=
  match ops with
  | [] => Some l
  | op :: ops => l ← abstract_op op l; abstract_run ops l
  end.

(** The ranges lie inside the initialized bytes, and the length is their total. *)
Definition chunked_ok (r : ChunkedResponse) : Prop :=
  Forall (λ k, chunk_start k ≤ chunk_end k ≤ initialized (chunk_buffer k)) (chunks r) ∧ response_len r = length (response_to_vec r).

Lemma to_vec_app cs ks len len' :
  response_to_vec (mkChunked (cs ++ ks) len) = response_to_vec (mkChunked cs len') ++ concat (chunk_slice <$> ks).
Proof. unfold response_to_vec, iter_chunks. cbn [chunks]. by rewrite fmap_app, concat_app. Qed.

(** One more chunk, and one more stretch of bytes in the last chunk. *)
Lemma push_chunk_ok k r :
  chunked_ok r → chunk_start k ≤ chunk_end k ≤ initialized (chunk_buffer k) →
  let r' := mkChunked (chunks r ++ [k]) (response_len r + length (chunk_slice k)) in
  chunked_ok r' ∧ response_to_vec r' = response_to_vec r ++ chunk_slice k.
Proof.
  intros [Hf Hlen] Hk. cbn zeta. assert (response_to_vec (mkChunked (chunks r ++ [k]) (response_len r + length (chunk_slice k)))
    = response_to_vec r ++ chunk_slice k) as Hv by (rewrite (to_vec_app _ _ _ (response_len r)); cbn; by rewrite app_nil_r; destruct r).
  split; [|done]. split; cbn [chunks response_len]; [apply Forall_app_2; auto|]. by rewrite Hv, length_app, Hlen.
Qed.

Definition extend_chunk (data : bytes) (k : ResponseChunk) : ResponseChunk :=
  mkChunk (buffer_extend data (chunk_buffer k)) (chunk_start k) (chunk_end k + length data).

Lemma extend_chunk_slice data k :
  chunk_start k ≤ chunk_end k → chunk_end k = initialized (chunk_buffer k) →
  chunk_slice (extend_chunk data k) = chunk_slice k ++ data.
Proof.
  unfold chunk_slice, extend_chunk, slice, initialized. cbn. intros Hle He. rewrite He in *.
  rewrite drop_app_le, !take_ge by len. done.
Qed.

Lemma extend_last_ok data cs k len :
  chunked_ok (mkChunked (cs ++ [k]) len) → chunk_end k = initialized (chunk_buffer k) →
  let r' := mkChunked (cs ++ [extend_chunk data k]) (len + length data) in
  chunked_ok r' ∧ response_to_vec r' = response_to_vec (mkChunked (cs ++ [k]) len) ++ data.
Proof.
  intros [[Hf Hk]%Forall_app Hlen] He. cbn zeta. cbn [response_len] in Hlen. apply Forall_inv in Hk. cbn beta in Hk.
  assert (response_to_vec (mkChunked (cs ++ [extend_chunk data k]) (len + length data)) = response_to_vec (mkChunked (cs ++ [k]) len) ++ data) as Hv.
  { rewrite !(to_vec_app _ _ _ 0). cbn [fmap list_fmap concat]. rewrite !app_nil_r, extend_chunk_slice by lia. by rewrite app_assoc. }
  split; [|done]. split; cbn [chunks response_len]; [|by rewrite Hv, length_app, <-Hlen].
  apply Forall_app_2; [done|]. apply Forall_singleton. unfold initialized in *. cbn. len.
Qed.

(** The chunk that a round fills: the last one, or a new one behind it. *)
Definition with_room (capture : nat → nat) (r : ChunkedResponse) : list ResponseChunk :=
  if match last (chunks r) with Some k => negb (can_append k) | None => true end
  then chunks r ++ [mkChunk (capture_buffer (capture (length (chunks r)))) 0 0] else chunks r.

Lemma with_room_spec capture r :
  (∀ n, 0 < capture n) → chunked_ok r →
  ∃ cs k, with_room capture r = cs ++ [k] ∧ can_append k ∧ chunked_ok (mkChunked (cs ++ [k]) (response_len r)) ∧
    response_to_vec (mkChunked (cs ++ [k]) (response_len r)) = response_to_vec r.
Proof.
  intros Hcap Hok. unfold with_room. destruct (match last (chunks r) with Some k => negb (can_append k) | None => true end) eqn:E.
  - set (k := mkChunk _ 0 0). destruct (push_chunk_ok k r) as [Hp Hv]; [done|cbn; lia|]. exists (chunks r), k.
    rewrite Nat.add_0_r in Hp, Hv. rewrite app_nil_r in Hv. split_and!; [done| |done|done].
    unfold can_append. cbn. specialize (Hcap (length (chunks r))). destruct (capture _); [lia|done].
  - destruct (last (chunks r)) as [k|] eqn:Hl; [|done]. apply last_Some in Hl as [cs Hcs]. exists cs, k.
    destruct r as [rc rl]. cbn in *. subst rc. split_and!; try done. by apply negb_false_iff in E; rewrite E.
Qed.

Lemma extend_round capture data r :
  (∀ n, 0 < capture n) → data ≠ [] → chunked_ok r →
  ∃ n r', 0 < n ≤ length data ∧ chunked_ok r' ∧ response_to_vec r' = response_to_vec r ++ take n data ∧
    ∀ fuel, extend_loop (S fuel) capture data r = extend_loop fuel capture (drop n data) r'.
Proof.
  intros Hcap Hdata Hok. destruct (with_room_spec capture r Hcap Hok) as (cs & k & Hcs & Hk & Hok' & Hv).
  unfold can_append in Hk. apply Is_true_true, andb_true_iff in Hk as [He%Nat.eqb_eq Hroom%Nat.ltb_lt].
  set (n := Nat.min (capacity (chunk_buffer k) - initialized (chunk_buffer k)) (length data)).
  assert (length (take n data) = n) as Hn by len.
  destruct (extend_last_ok (take n data) cs k (response_len r) Hok' He) as [Hr Hrv]. rewrite Hn, Hv in *.
  assert (0 < length data) by (destruct data; [done|cbn; lia]).
  eexists n, _. split_and!; [lia|lia|exact Hr|exact Hrv|]. intros fuel.
  destruct data as [|b data]; [done|]. cbn [extend_loop]. fold (with_room capture r). rewrite Hcs, last_snoc.
  fold n. unfold extend_chunk. by rewrite removelast_last, Hn.
Qed.

Lemma extend_loop_ok capture fuel data r :
  (∀ n, 0 < capture n) → length data ≤ fuel → chunked_ok r →
  let r' := extend_loop fuel capture data r in chunked_ok r' ∧ response_to_vec r' = response_to_vec r ++ data.
Proof.
  intros Hcap. revert data r. induction fuel as [|fuel IH]; intros data r Hf Hok.
  - destruct data; [|cbn in Hf; lia]. by rewrite app_nil_r.
  - destruct (decide (data = [])) as [->|Hd]; [by rewrite app_nil_r|].
    destruct (extend_round capture data r Hcap Hd Hok) as (n & r' & Hn & Hok' & Hv & ->).
    destruct (IH (drop n data) r') as [H1 H2]; [len|done|]. cbn zeta. rewrite H2, Hv, <-app_assoc, take_drop. done.
Qed.

(** Every operation implements that of the contract. *)
Lemma response_op_refines capture op r :
  (∀ n, 0 < capture n) → chunked_ok r →
  match response_op capture op r, abstract_op op (response_to_vec r) with
  | Some r', Some l => chunked_ok r' ∧ response_to_vec r' = l
  | None, None => True
  | _, _ => False
  end.
Proof.
  intros Hcap Hok. destruct op as [data|b start end_|]; cbn [response_op abstract_op].
  - by apply extend_loop_ok.
  - unfold push_buffer_range. destruct ((start <=? end_) && (end_ <=? initialized b)) eqn:E; [|done].
    apply andb_true_iff in E as [Hse%Nat.leb_le He%Nat.leb_le].
    pose proof (push_chunk_ok (mkChunk b start end_) r Hok) as Hp. cbn [chunk_start chunk_end chunk_buffer] in Hp.
    unfold chunk_slice in Hp. cbn [chunk_start chunk_end chunk_buffer] in Hp. rewrite slice_length in Hp by done. auto.
  - done.
Qed.

Lemma response_run_refines capture ops r :
  (∀ n, 0 < capture n) → chunked_ok r →
  match response_run capture ops r, abstract_run ops (response_to_vec r) with
  | Some r', Some l => chunked_ok r' ∧ response_to_vec r' = l
  | None, None => True
  | _, _ => False
  end.
Proof.
  intros Hcap. revert r. induction ops as [|op ops IH]; intros r Hok; cbn; [done|].
  pose proof (response_op_refines capture op r Hcap Hok) as Ho.
  destruct (response_op capture op r) as [r'|], (abstract_op op (response_to_vec r)) as [l|]; try done.
  destruct Ho as [Hok' <-]. by apply IH.
Qed.

Lemma response_prefix_take n r : chunked_ok r → response_prefix n r = take n (response_to_vec r).
Proof. intros [_ Hlen]. unfold response_prefix. rewrite Hlen. apply copy_prefix_take. Qed.

(** C38 A captured response is the byte string of what was appended to it: for any sequence
    of appends, moved buffer ranges and clears the chunks are, read in order, exactly the
    appended bytes (no byte outside a moved range shows, however later appends fill the
    same buffers), the recorded length is theirs, a copied prefix is a prefix of them, and
    the only panic is that of a range outside the initialized bytes. *)
Theorem chunked_response_refines capture_capacity buffer_size capture ops :
  0 < buffer_size → (∀ n, capture_request capture_capacity buffer_size ≤ capture n) →
  response_to_vec <$> response_run capture ops empty_response = abstract_run ops [] ∧
  ∀ r, response_run capture ops empty_response = Some r →
    response_len r = length (response_to_vec r) ∧ ∀ n, response_prefix n r = take n (response_to_vec r).
Proof.
  intros Hsize Hreq. assert (∀ n, 0 < capture n) as Hcap.
  { intros n. specialize (Hreq n). unfold capture_request in Hreq. destruct (Nat.ltb_spec 0 capture_capacity); lia. }
  assert (chunked_ok empty_response) as Hok by (split; [constructor|done]).
  pose proof (response_run_refines capture ops empty_response Hcap Hok) as H. change (response_to_vec empty_response) with ([] : bytes) in H.
  destruct (response_run capture ops empty_response) as [r|], (abstract_run ops []) as [l|]; try done.
  destruct H as [Hr <-]. split; [done|]. intros ? [= <-]. split; [apply Hr|]. intros n. by apply response_prefix_take.
Qed.

(** Three-byte chunks; of a moved five-byte buffer only the middle is part of the response. *)
Lemma chunked_response_refines_witness :
  response_to_vec <$> response_run (λ _, 3) [Extend (bs "abcd"); PushRange (mkBuffer 0 (bs "wxyz!") 8 0) 1 3; Extend (bs "ef")] empty_response
  = Some (bs "abcdxyef").
Proof.
  rewrite (proj1 (chunked_response_refines 3 1 (λ _, 3) [Extend (bs "abcd"); PushRange (mkBuffer 0 (bs "wxyz!") 8 0) 1 3; Extend (bs "ef")]
    ltac:(lia) ltac:(intros; cbn; lia))). vm_compute. reflexivity.
Defined.
