(* ===== verification/Metrics.v ===== *)
(** * Metrics: counters and users

    Models the counters of a backend and the users of [src/src/metrics/store.rs], with the
    updates of users in [src/src/metrics/collector.rs]: their gauges, the order in which
    they are kept, and the bound on how many are remembered.

    The map of users is a finite map whose entries are locked one by one.  Counters are
    [u64] and wrap. *)

From stdpp Require Import sorting.
From S2P Require Import Prelude.

(** ** Comparisons *)

(** [Ordering::then_with] *)
Definition then_with (c d : comparison) : comparison := match c with Eq => d | c => c end.

(** [<bool as Ord>::cmp] and the order of strings, byte by byte. *)
Definition bool_cmp (a b : bool) : comparison :=
  match a, b with false, true => Lt | true, false => Gt | _, _ => Eq end.

Fixpoint bytes_cmp (a b : bytes) : comparison :=
  match a, b with
  | [], [] => Eq
  | [], _ => Lt
  | _, [] => Gt
  | x :: a, y :: b => then_with (Byte.to_N x ?= Byte.to_N y)%N (bytes_cmp a b)
  end.

(** ** Counters of a backend *)

Record BackendStore := mkBackendStore {
  total_commands : N;
  bytes_sent : N;
  bytes_received : N;
  errors : N;
  errors_4xx : N;
  errors_5xx : N;
  article_bytes_total : N;
  article_count : N;
  ttfb_micros_total : N;
  ttfb_count : N;
  send_micros_total : N;
  recv_micros_total : N;
  connection_failures : N }.

Definition default_backend_store : BackendStore := mkBackendStore 0 0 0 0 0 0 0 0 0 0 0 0 0.

#[global] Instance backend_store_inhabited : Inhabited BackendStore := populate default_backend_store.

Inductive BackendField :=
| FTotalCommands | FBytesSent | FBytesReceived | FErrors | FErrors4xx | FErrors5xx | FArticleBytesTotal | FArticleCount
| FTtfbMicrosTotal | FTtfbCount | FSendMicrosTotal | FRecvMicrosTotal | FConnectionFailures.

#[global] Instance backend_field_eq : EqDecision BackendField.
Proof. solve_decision. Defined.

Definition field (f : BackendField) (s : BackendStore) : N :=
  match f with
  | FTotalCommands => total_commands s
  | FBytesSent => bytes_sent s
  | FBytesReceived => bytes_received s
  | FErrors => errors s
  | FErrors4xx => errors_4xx s
  | FErrors5xx => errors_5xx s
  | FArticleBytesTotal => article_bytes_total s
  | FArticleCount => article_count s
  | FTtfbMicrosTotal => ttfb_micros_total s
  | FTtfbCount => ttfb_count s
  | FSendMicrosTotal => send_micros_total s
  | FRecvMicrosTotal => recv_micros_total s
  | FConnectionFailures => connection_failures s
  end.

(** [fetch_add] on one of the counters. *)
Definition fetch_add (f : BackendField) (n : N) (s : BackendStore) : BackendStore :=
  let at_ g := if decide (f = g) then wrap64 (field g s + n) else field g s in
  mkBackendStore (at_ FTotalCommands) (at_ FBytesSent) (at_ FBytesReceived) (at_ FErrors) (at_ FErrors4xx) (at_ FErrors5xx)
    (at_ FArticleBytesTotal) (at_ FArticleCount) (at_ FTtfbMicrosTotal) (at_ FTtfbCount) (at_ FSendMicrosTotal)
    (at_ FRecvMicrosTotal) (at_ FConnectionFailures).

(** ** Users *)

Definition ANONYMOUS : bytes := bs "<anonymous>".
Definition MAX_RETAINED_USER_METRICS : nat := 1024.

Record UserMetrics := mkUser {
  username : bytes;
  user_active : N;
  user_total_connections : N;
  user_sent : N;
  user_received : N;
  user_commands : N;
  user_errors : N }.

Definition new_user (name : bytes) : UserMetrics := mkUser name 0 0 0 0 0 0.

Definition record_connection_opened (u : UserMetrics) : UserMetrics :=
  mkUser (username u) (wrap64 (user_active u + 1)) (wrap64 (user_total_connections u + 1)) (user_sent u) (user_received u)
    (user_commands u) (user_errors u).

Definition record_connection_closed (u : UserMetrics) : UserMetrics :=
  mkUser (username u) (sat_sub (user_active u) 1) (user_total_connections u) (user_sent u) (user_received u)
    (user_commands u) (user_errors u).

Definition record_bytes_sent (n : N) (u : UserMetrics) : UserMetrics :=
  mkUser (username u) (user_active u) (user_total_connections u) (wrap64 (user_sent u + n)) (user_received u)
    (user_commands u) (user_errors u).

Definition record_bytes_received (n : N) (u : UserMetrics) : UserMetrics :=
  mkUser (username u) (user_active u) (user_total_connections u) (user_sent u) (wrap64 (user_received u + n))
    (user_commands u) (user_errors u).

Definition record_user_command (u : UserMetrics) : UserMetrics :=
  mkUser (username u) (user_active u) (user_total_connections u) (user_sent u) (user_received u)
    (wrap64 (user_commands u + 1)) (user_errors u).

Definition record_user_error (u : UserMetrics) : UserMetrics :=
  mkUser (username u) (user_active u) (user_total_connections u) (user_sent u) (user_received u)
    (user_commands u) (wrap64 (user_errors u + 1)).

Definition user_total_bytes (u : UserMetrics) : N := sat_add64 (user_sent u) (user_received u).

Abbreviation Users := (@gmap bytes list_eq_dec list_countable UserMetrics).

(** *** The bound on the users *)

Definition is_active (u : UserMetrics) : bool := (0 <? user_active u)%N.

(** The order of [sort_by] in [prune_user_metrics_to], of the entries of the map. *)
Definition rank_cmp (a b : bytes * UserMetrics) : comparison :=
  then_with (bool_cmp (is_active b.2) (is_active a.2))
  (then_with (user_total_bytes b.2 ?= user_total_bytes a.2)%N
  (then_with (user_total_connections b.2 ?= user_total_connections a.2)%N
  (then_with (user_commands b.2 ?= user_commands a.2)%N
  (then_with (user_errors b.2 ?= user_errors a.2)%N
  (bytes_cmp a.1 b.1))))).

Definition ranks_before (a b : bytes * UserMetrics) : Prop := rank_cmp a b ≠ Gt.

#[global] Instance ranks_before_dec a b : Decision (ranks_before a b).
Proof. unfold ranks_before. apply _. Defined.

(** [take_while(..).count()] *)
Fixpoint leading_active (l : list (bytes * UserMetrics)) : nat :=
  match l with
  | (_, u) :: l => if is_active u then S (leading_active l) else 0
  | [] => 0
  end.

Definition remove_users (names : list bytes) (users : Users) : Users := foldl (λ m k, delete k m) users names.

(** [prune_user_metrics_to]: how many users were removed, and the users left. *)
Definition prune_user_metrics_to (limit : nat) (users : Users) : nat * Users :=
  if limit =? 0 then
    let keys := (map_to_list users).*1 in (length keys, remove_users keys users)
  else if size users <=? limit then (0, users)
  else
    let ranked := merge_sort ranks_before (map_to_list users) in
    let keep_count := Nat.max limit (leading_active ranked) in
    let to_remove := (drop keep_count ranked).*1 in
    (length to_remove, remove_users to_remove users).

Definition prune_user_metrics : Users → nat * Users := prune_user_metrics_to MAX_RETAINED_USER_METRICS.

(** *** Updates *)

(** The steps of [update_user_metrics], each of which locks the map once: an update of
    an entry that is there, the insertion of a missing one, and the pruning. *)
Definition update_entry (update : UserMetrics → UserMetrics) (key : bytes) (users : Users) : Users := alter update key users.

Definition insert_entry (key : bytes) (users : Users) : Users :=
  match users !! key with Some _ => users | None => <[key := new_user key]> users end.

Definition update_user_metrics (name : option bytes) (update : UserMetrics → UserMetrics) (users : Users) : Users :=
  let key := default ANONYMOUS name in
  match users !! key with
  | Some _ => update_entry update key users
  | None => (prune_user_metrics (update_entry update key (insert_entry key users))).2
  end.

Definition user_connection_opened (name : option bytes) : Users → Users := update_user_metrics name record_connection_opened.
Definition user_connection_closed (name : option bytes) : Users → Users := update_user_metrics name record_connection_closed.
Definition user_bytes_sent (name : option bytes) (n : N) : Users → Users := update_user_metrics name (record_bytes_sent n).
Definition user_bytes_received (name : option bytes) (n : N) : Users → Users := update_user_metrics name (record_bytes_received n).
Definition user_command (name : option bytes) : Users → Users := update_user_metrics name record_user_command.
Definition user_error (name : option bytes) : Users → Users := update_user_metrics name record_user_error.

(** ** The order of the users *)

(** What makes a comparison function an order. *)
Class Comparator {A} (f : A → A → comparison) : Prop := {
  cmp_opp x y : f y x = CompOpp (f x y);
  cmp_trans x y z : f x y = Lt → f y z = Lt → f x z = Lt;
  cmp_eq x y z : f x y = Eq → f x z = f y z }.

#[global] Instance N_comparator : Comparator N.compare.
Proof.
  split; intros x y.
  - apply N.compare_antisym.
  - intros z. rewrite !N.compare_lt_iff. lia.
  - by intros z ->%N.compare_eq_iff.
Qed.

#[global] Instance bool_comparator : Comparator bool_cmp.
Proof. split; by intros [] []; try intros []. Qed.

Lemma comparator_flip {A} (f : A → A → comparison) : Comparator f → Comparator (λ x y, f y x).
Proof.
  intros [Ho Ht He]. split.
  - intros x y. apply Ho.
  - intros x y z H1 H2. by apply (Ht _ y).
  - intros x y z H. assert (f x y = Eq) as H' by (rewrite Ho, H; done). by rewrite (Ho x z), (Ho y z), (He x y z H').
Qed.

Lemma comparator_on {A B} (f : B → B → comparison) (g : A → B) : Comparator f → Comparator (λ x y, f (g x) (g y)).
Proof. intros [Ho Ht He]. split; eauto. Qed.

Lemma comparator_then {A} (f g : A → A → comparison) :
  Comparator f → Comparator g → Comparator (λ x y, then_with (f x y) (g x y)).
Proof.
  intros Hf Hg. split.
  - intros x y. rewrite (cmp_opp (f := f) x y), (cmp_opp (f := g) x y). by destruct (f x y).
  - intros x y z. destruct (f x y) eqn:E1; cbn; [|intros _|done].
    + rewrite (cmp_eq (f := f) x y z E1). destruct (f y z); cbn; [|done|done]. apply cmp_trans.
    + destruct (f y z) eqn:E2; cbn; [|by rewrite (cmp_trans (f := f) x y z)|done]. intros _.
      assert (f z x = Gt) as E by (rewrite <- (cmp_eq (f := f) y z x E2), (cmp_opp (f := f) x y), E1; done).
      by rewrite (cmp_opp (f := f) z x), E.
  - intros x y z. destruct (f x y) eqn:E1; cbn; [|done|done]. intros E2. by rewrite (cmp_eq (f := f) x y z E1), (cmp_eq (f := g) x y z E2).
Qed.

#[global] Instance bytes_comparator : Comparator bytes_cmp.
Proof.
  split.
  - induction x as [|x a IH]; intros [|y b]; [done..|]. cbn. rewrite IH, N.compare_antisym. by destruct (_ ?= _)%N.
  - induction x as [|x a IH]; intros [|y b] [|z c]; cbn; try done.
    destruct (N.compare_spec (Byte.to_N x) (Byte.to_N y)), (N.compare_spec (Byte.to_N y) (Byte.to_N z)),
      (N.compare_spec (Byte.to_N x) (Byte.to_N z)); cbn; try done; try lia. apply IH.
  - induction x as [|x a IH]; intros [|y b]; cbn; try done. intros z.
    destruct (N.compare_spec (Byte.to_N x) (Byte.to_N y)) as [->| |]; cbn; try done. intros H. destruct z as [|z c]; [done|]. by rewrite (IH b c H).
Qed.

Lemma bytes_cmp_eq a b : bytes_cmp a b = Eq → a = b.
Proof.
  revert b. induction a as [|x a IH]; intros [|y b]; cbn; try done.
  destruct (N.compare_spec (Byte.to_N x) (Byte.to_N y)) as [Hx%byte_to_N_inj| |]; cbn; try done. intros ->%IH. by rewrite Hx.
Qed.

#[global] Instance rank_comparator : Comparator rank_cmp.
Proof.
  unfold rank_cmp. repeat apply comparator_then.
  1: apply (comparator_on (λ x y, bool_cmp y x) (λ a : bytes * UserMetrics, is_active a.2)), comparator_flip, _.
  1-4: match goal with |- Comparator (λ x y, N.compare (@?g y) (@?h x)) =>
    apply (comparator_on (λ x y, N.compare y x) g), comparator_flip, _ end.
  apply (comparator_on bytes_cmp fst), _.
Qed.

Lemma rank_cmp_eq a b : rank_cmp a b = Eq → a.1 = b.1.
Proof.
  unfold rank_cmp, then_with. repeat (case_match; try done). apply bytes_cmp_eq.
Qed.

#[global] Instance ranks_before_trans : Transitive ranks_before.
Proof.
  intros x y z Hxy Hyz. unfold ranks_before in *. destruct (rank_cmp x y) eqn:E1; [|destruct (rank_cmp y z) eqn:E2|done].
  - by rewrite (cmp_eq (f := rank_cmp) x y z E1).
  - rewrite (cmp_opp (f := rank_cmp) z x), <- (cmp_eq (f := rank_cmp) y z x E2), (cmp_opp (f := rank_cmp) x y), E1. done.
  - by rewrite (cmp_trans (f := rank_cmp) x y z).
  - done.
Qed.

#[global] Instance ranks_before_total : Total ranks_before.
Proof. intros x y. unfold ranks_before. rewrite (cmp_opp (f := rank_cmp) x y). destruct (rank_cmp x y); cbn; auto. Qed.

Lemma ranks_before_active a b : ranks_before a b → is_active b.2 = true → is_active a.2 = true.
Proof. unfold ranks_before, rank_cmp. intros H Hb. rewrite Hb in H. by destruct (is_active a.2). Qed.

(** In the sorted list the active users come first. *)
Lemma leading_active_sorted l :
  StronglySorted ranks_before l → ∀ i x, l !! i = Some x → is_active x.2 = bool_decide (i < leading_active l).
Proof.
  induction 1 as [|[k u] l Hs IH Hf]; intros i x Hi; [done|]. cbn. destruct (is_active u) eqn:Eu.
  - destruct i as [|i]; cbn in Hi; [simplify_eq; cbn; rewrite Eu; symmetry; apply bool_decide_eq_true; lia|].
    rewrite (IH i x Hi). apply bool_decide_ext. lia.
  - rewrite bool_decide_eq_false_2 by lia. destruct i as [|i]; cbn in Hi; [by simplify_eq|].
    destruct (is_active x.2) eqn:Ex; [|done]. rewrite Forall_forall in Hf.
    pose proof (ranks_before_active (k, u) x (Hf x (list_elem_of_lookup_2 _ _ _ Hi)) Ex). cbn in *. congruence.
Qed.

Lemma leading_active_le l : leading_active l ≤ length l.
Proof. induction l as [|[k u] l IH]; cbn; [lia|]. case_match; lia. Qed.

Lemma remove_users_lookup (names : list bytes) (m : Users) (k : bytes) :
  remove_users names m !! k = if decide (k ∈ names) then None else m !! k.
Proof.
  revert m. induction names as [|n names IH]; intros m; cbn; [by rewrite decide_False by set_solver|].
  unfold remove_users in IH. rewrite IH. destruct (decide (k ∈ names)) as [Hin|Hn].
  - by rewrite decide_True by set_solver.
  - destruct (decide (k = n)) as [->|Hne]; [rewrite decide_True by set_solver; apply lookup_delete_eq|].
    rewrite decide_False by set_solver. by apply lookup_delete_ne.
Qed.

Lemma remove_users_tail (a b : list (bytes * UserMetrics)) :
  NoDup (a ++ b).*1 → remove_users b.*1 (list_to_map (a ++ b)) = (list_to_map a : Users).
Proof.
  intros Hnd. apply map_eq. intros k. rewrite remove_users_lookup. rewrite fmap_app, NoDup_app in Hnd. destruct Hnd as (Ha & Hd & Hb).
  rewrite list_to_map_app. destruct (decide (k ∈ b.*1)) as [Hk|Hk].
  - symmetry. apply not_elem_of_list_to_map_1. intros Hka. by apply (Hd k).
  - rewrite lookup_union, (not_elem_of_list_to_map_1 b k Hk). by destruct (list_to_map a !! k).
Qed.

(** The users in their order: a sorted list without repeated names that has them all. *)
Lemma ranked_users (users : Users) :
  let ranked := merge_sort ranks_before (map_to_list users) in
  StronglySorted ranks_before ranked ∧ NoDup ranked.*1 ∧ list_to_map ranked = users ∧ length ranked = size users ∧
  ∀ k u, (k, u) ∈ ranked ↔ users !! k = Some u.
Proof.
  cbn zeta. set (ranked := merge_sort _ _). assert (ranked ≡ₚ map_to_list users) as Hp by apply merge_sort_Permutation.
  assert (NoDup ranked.*1) as Hnd by (rewrite Hp; apply NoDup_fst_map_to_list).
  split_and!; [apply StronglySorted_merge_sort; apply _|done| | |].
  - rewrite <- (list_to_map_to_list users). by apply list_to_map_proper.
  - rewrite Hp. apply length_map_to_list.
  - intros k u. rewrite Hp. apply elem_of_map_to_list.
Qed.

Lemma sorted_prefix_ranked {A} (R : A → A → Prop) l n x y :
  StronglySorted R l → x ∈ take n l → y ∈ drop n l → R x y.
Proof.
  intros Hs Hx Hy. rewrite <- (take_drop n l) in Hs. revert Hs Hx. generalize (take n l) as a. induction a as [|z a IH]; intros Hs Hx; [set_solver|].
  inversion Hs as [|? ? Hs' Hf]. subst. apply elem_of_cons in Hx as [->|Hx]; [|by apply IH].
  rewrite Forall_forall in Hf. apply Hf. set_solver.
Qed.

(** What is pruned when there are too many users. *)
Lemma prune_over limit (users : Users) :
  0 < limit < size users →
  let ranked := merge_sort ranks_before (map_to_list users) in
  let keep := Nat.max limit (leading_active ranked) in
  prune_user_metrics_to limit users = (size users - keep, list_to_map (take keep ranked)).
Proof.
  intros Hlim. cbn zeta. destruct (ranked_users users) as (Hs & Hnd & Hm & Hlen & _). unfold prune_user_metrics_to.
  destruct (Nat.eqb_spec limit 0); [lia|]. destruct (Nat.leb_spec (size users) limit); [lia|].
  set (ranked := merge_sort _ _) in *. set (keep := Nat.max _ _). f_equal; [by rewrite length_fmap, length_drop, Hlen|].
  rewrite <- Hm at 1. rewrite <- (take_drop keep ranked) at 2. apply remove_users_tail. by rewrite take_drop.
Qed.

Lemma leading_active_count l : StronglySorted ranks_before l → leading_active l = count_if (λ e, is_active e.2) l.
Proof.
  induction 1 as [|[k u] l Hs IH Hf]; [done|]. unfold count_if in *. cbn. destruct (is_active u) eqn:Eu; cbn; [by rewrite IH|].
  symmetry. apply (count_if_none (λ e, is_active e.2)). rewrite Forall_forall in *. intros e He.
  destruct (is_active e.2) eqn:Ee; [|done]. pose proof (ranks_before_active (k, u) e (Hf e He) Ee). cbn in *. congruence.
Qed.

Lemma prune_user_metrics_to_spec limit (users : Users) :
  0 < limit →
  let '(removed, kept) := prune_user_metrics_to limit users in
  let active := count_if (λ e, is_active e.2) (map_to_list users) in
  kept ⊆ users ∧ size kept = Nat.min (size users) (Nat.max limit active) ∧ removed + size kept = size users ∧
  (∀ k u, users !! k = Some u → is_active u = true → kept !! k = Some u) ∧
  ∀ k u k' u', kept !! k = Some u → users !! k' = Some u' → kept !! k' = None → rank_cmp (k, u) (k', u') = Lt.
Proof.
  intros Hlim. destruct (decide (limit < size users)) as [Hlt|Hge].
  2: { unfold prune_user_metrics_to. destruct (Nat.eqb_spec limit 0); [lia|]. destruct (Nat.leb_spec (size users) limit); [|lia].
       cbn zeta. split_and!; [done|lia|lia|done|]. intros. congruence. }
  destruct (ranked_users users) as (Hs & Hnd & Hm & Hlen & Hin). rewrite (prune_over limit users) by lia. cbn zeta.
  assert (count_if (λ e, is_active e.2) (map_to_list users) = leading_active (merge_sort ranks_before (map_to_list users))) as ->.
  { rewrite leading_active_count by done. by rewrite merge_sort_Permutation. }
  set (ranked := merge_sort _ _) in *. pose proof (leading_active_le ranked) as Hla. set (keep := Nat.max limit (leading_active ranked)).
  assert (NoDup (take keep ranked).*1) as Hnk by (rewrite <- (take_drop keep ranked), fmap_app in Hnd; by apply NoDup_app in Hnd as (? & _)).
  assert (∀ k u, list_to_map (M := Users) (take keep ranked) !! k = Some u ↔ (k, u) ∈ take keep ranked) as Hk by (intros; symmetry; by apply elem_of_list_to_map).
  assert (size (list_to_map (M := Users) (take keep ranked)) = keep) as Hsz.
  { rewrite <- length_map_to_list, map_to_list_to_map, length_take by done. lia. }
  rewrite Hsz. split_and!; [|lia|lia| |].
  - apply map_subseteq_spec. intros k u Hku%Hk. apply Hin. by eapply subseteq_take.
  - intros k u [i Hi]%Hin%list_elem_of_lookup Hu. apply Hk. pose proof (leading_active_sorted ranked Hs i (k, u) Hi) as Ha.
    cbn in Ha. rewrite Hu in Ha. symmetry in Ha. apply bool_decide_eq_true in Ha. apply list_elem_of_lookup. exists i. by rewrite lookup_take_lt by lia.
  - intros k u k' u' Hku%Hk Hin'%Hin Hno. assert ((k', u') ∈ drop keep ranked) as Hd.
    { rewrite <- (take_drop keep ranked) in Hin'. apply elem_of_app in Hin' as [Ht%Hk|]; [congruence|done]. }
    pose proof (sorted_prefix_ranked ranks_before ranked keep _ _ Hs Hku Hd) as Hb. unfold ranks_before in Hb.
    destruct (rank_cmp (k, u) (k', u')) eqn:E; [|done|done]. apply rank_cmp_eq in E. cbn in E. subst k'.
    apply Hk in Hku. congruence.
Qed.

(** The bound on remembered users: pruning keeps the active users and, of the others,
    those with the most traffic, as many as the limit allows; it removes no more than
    needed, changes no counter, and reports how many it removed. *)
Theorem prune_exact limit (users : Users) :
  0 < limit →
  let '(removed, kept) := prune_user_metrics_to limit users in
  let active := count_if (λ e, is_active e.2) (map_to_list users) in
  kept ⊆ users ∧ size kept = Nat.min (size users) (Nat.max limit active) ∧ removed + size kept = size users ∧
  (∀ k u, users !! k = Some u → is_active u = true → kept !! k = Some u) ∧
  ∀ k u k' u', kept !! k = Some u → users !! k' = Some u' → kept !! k' = None → rank_cmp (k, u) (k', u') = Lt.
Proof. exact (prune_user_metrics_to_spec limit users). Qed.

(** Four users and a limit of two: the two active ones stay. *)
Definition sample_users : Users :=
  list_to_map [(bs "a", mkUser (bs "a") 1 1 0 0 0 0); (bs "b", mkUser (bs "b") 0 9 50 50 7 0);
               (bs "c", mkUser (bs "c") 0 9 50 60 7 0); (bs "d", mkUser (bs "d") 2 9 1 1 7 0)].

Lemma prune_exact_witness :
  (prune_user_metrics_to 2 sample_users).1 = 2 ∧ (prune_user_metrics_to 2 sample_users).2 !! bs "a" = sample_users !! bs "a".
Proof.
  split; [by vm_compute|]. pose proof (prune_exact 2 sample_users ltac:(lia)) as H.
  destruct (prune_user_metrics_to 2 sample_users) as [removed kept]. cbn zeta in H. destruct H as (_ & _ & _ & H & _).
  assert (sample_users !! bs "a" = Some (mkUser (bs "a") 1 1 0 0 0 0)) as E by (vm_compute; reflexivity).
  rewrite E. apply H; [exact E|reflexivity].
Defined.

(** ** The gauges of the users *)

Definition gauge (users : Users) (k : bytes) : N := match users !! k with Some u => user_active u | None => 0 end.

Lemma prune_gauge (users : Users) k : gauge (prune_user_metrics users).2 k = gauge users k.
Proof.
  unfold prune_user_metrics. pose proof (prune_user_metrics_to_spec MAX_RETAINED_USER_METRICS users ltac:(unfold MAX_RETAINED_USER_METRICS; lia)) as H.
  destruct (prune_user_metrics_to _ users) as [removed kept]. cbn zeta in H. destruct H as (Hsub & _ & _ & Hact & _). cbn [snd]. unfold gauge.
  destruct (kept !! k) as [u|] eqn:E; [by rewrite (lookup_weaken _ _ _ _ E Hsub)|].
  destruct (users !! k) as [u|] eqn:Eu; [|done]. destruct (is_active u) eqn:Ea; [rewrite (Hact k u Eu Ea) in E; done|].
  unfold is_active in Ea. apply N.ltb_ge in Ea. lia.
Qed.

Lemma update_gauge name f (users : Users) k :
  gauge (update_user_metrics name f users) k =
  if decide (k = default ANONYMOUS name) then user_active (f (default (new_user k) (users !! k))) else gauge users k.
Proof.
  unfold update_user_metrics, update_entry, insert_entry. set (key := default ANONYMOUS name).
  destruct (users !! key) as [u|] eqn:E; [|rewrite prune_gauge]; unfold gauge; destruct (decide (k = key)) as [->|Hne].
  - by rewrite lookup_alter_eq, E.
  - by rewrite lookup_alter_ne by done.
  - by rewrite lookup_alter_eq, lookup_insert_eq, E.
  - by rewrite lookup_alter_ne, lookup_insert_ne by done.
Qed.

(** What a session counts as, between two updates of the users: [SessionMoving] is
    in the middle of [set_username]. *)
Inductive UserSession := SessionOpening | SessionCounted (name : option bytes) | SessionMoving (name : bytes) | SessionGone.

(** The user counters are updated at any time, without effect on the gauges. *)
Inductive UserTraffic := TrafficSent (n : N) | TrafficReceived (n : N) | TrafficCommand | TrafficError.

Definition traffic_update (t : UserTraffic) (name : option bytes) : Users → Users :=
  match t with
  | TrafficSent n => user_bytes_sent name n
  | TrafficReceived n => user_bytes_received name n
  | TrafficCommand => user_command name
  | TrafficError => user_error name
  end.

(** [ClientSessionBuilder::build], [set_username] of a session that has no name yet and
    the drop of a session, one update of the users at a time. *)
Inductive user_session_step : Users * list UserSession → Users * list UserSession → Prop :=
| us_accept users ss : user_session_step (users, ss) (users, ss ++ [SessionOpening])
| us_build users ss i : ss !! i = Some SessionOpening →
    user_session_step (users, ss) (user_connection_opened None users, <[i := SessionCounted None]> ss)
| us_authenticated users ss i name : ss !! i = Some (SessionCounted None) →
    user_session_step (users, ss) (user_connection_closed None users, <[i := SessionMoving name]> ss)
| us_named users ss i name : ss !! i = Some (SessionMoving name) →
    user_session_step (users, ss) (user_connection_opened (Some name) users, <[i := SessionCounted (Some name)]> ss)
| us_drop users ss i name : ss !! i = Some (SessionCounted name) →
    user_session_step (users, ss) (user_connection_closed name users, <[i := SessionGone]> ss)
| us_traffic users ss t name : user_session_step (users, ss) (traffic_update t name users, ss).

Definition counted_as (k : bytes) (s : UserSession) : bool :=
  match s with SessionCounted name => bool_decide (default ANONYMOUS name = k) | _ => false end.

Definition gauges_exact (s : Users * list UserSession) : Prop := ∀ k, gauge s.1 k = N.of_nat (count_if (counted_as k) s.2).

Lemma gauge_default (users : Users) k : user_active (default (new_user k) (users !! k)) = gauge users k.
Proof. unfold gauge. by destruct (users !! k). Qed.

Lemma count_if_le {A} (f : A → bool) l : count_if f l ≤ length l.
Proof. unfold count_if. apply List.filter_length_le. Qed.

Lemma opened_gauge name (users : Users) k :
  gauge (user_connection_opened name users) k = if decide (k = default ANONYMOUS name) then wrap64 (gauge users k + 1) else gauge users k.
Proof. unfold user_connection_opened. rewrite update_gauge. case_decide; [|done]. cbn. by rewrite gauge_default. Qed.

Lemma closed_gauge name (users : Users) k :
  gauge (user_connection_closed name users) k = if decide (k = default ANONYMOUS name) then sat_sub (gauge users k) 1 else gauge users k.
Proof. unfold user_connection_closed. rewrite update_gauge. case_decide; [|done]. cbn. by rewrite gauge_default. Qed.

Lemma traffic_gauge t name (users : Users) k : gauge (traffic_update t name users) k = gauge users k.
Proof.
  destruct t; cbn [traffic_update]; unfold user_bytes_sent, user_bytes_received, user_command, user_error; rewrite update_gauge;
    (case_decide; [cbn; apply gauge_default|done]).
Qed.

Lemma user_session_step_exact s s' :
  user_session_step s s' → (N.of_nat (length s'.2) < 2 ^ 64)%N → gauges_exact s → gauges_exact s'.
Proof.
  intros Hstep Hlen Hs k. specialize (Hs k).
  assert (∀ n, (n < 2 ^ 64)%N → wrap64 n = n) as Hw by (intros; by apply N.mod_small).
  destruct Hstep as [users ss|users ss i Hi|users ss i name Hi|users ss i name Hi|users ss i name Hi|users ss t name]; cbn [fst snd] in *.
  1: by rewrite count_if_app; cbn; rewrite Nat.add_0_r.
  5: by rewrite traffic_gauge.
  all: match goal with Hi : ?l !! ?i = Some ?x |- context [<[?i := ?t]> ?l] => pose proof (count_if_insert (counted_as k) l i x t Hi) as Hc;
         pose proof (count_if_le (counted_as k) (<[i := t]> l)) as Hle; rewrite length_insert in * end.
  all: rewrite ?opened_gauge, ?closed_gauge, Hs; cbn [counted_as] in Hc; unfold default, id in *.
  all: repeat case_bool_decide; repeat case_decide; subst; try done; try lia; rewrite ?Hw by lia; lia.
Qed.

Lemma user_sessions_grow s s' : rtc user_session_step s s' → length s.2 ≤ length s'.2.
Proof.
  induction 1 as [|s1 s2 s3 Hstep _ IH]; [done|]. etrans; [|exact IH].
  destruct Hstep; cbn [snd]; rewrite ?length_insert, ?length_app; lia.
Qed.


Lemma empty_gauges k : gauge ∅ k = 0%N.
Proof. unfold gauge. by rewrite lookup_empty. Qed.


(** The entry of a new user is inserted and updated under two locks.  When another
    session prunes the users in between, the new entry ranks last and is removed, and the
    update is lost: the connection is counted nowhere. *)
Definition busy_users (n : nat) : Users :=
  list_to_map ((λ i, let name := [default x00 (Byte.of_N (N.of_nat (i / 256))); default x00 (Byte.of_N (N.of_nat (i mod 256)))] in
    (name, mkUser name 0 1 100 100 5 0)) <$> seq 0 n).

Example user_update_lost :
  let name := bs "new user" in
  let users := insert_entry name (busy_users MAX_RETAINED_USER_METRICS) in
  let users := (prune_user_metrics users).2 in
  let users := (prune_user_metrics (update_entry record_connection_opened name users)).2 in
  users !! name = None ∧ gauge users name = 0%N.
Proof. by vm_compute. Qed.
