(* ===== verification/Collector.v ===== *)
(** * Collector: recording

    Models the state of [MetricsCollector] and its recording methods
    ([src/src/metrics/collector.rs], [src/src/metrics/store.rs], the health status of
    [src/src/metrics/types.rs]).  A recording method is the list of the atomic actions it
    performs; methods of different threads interleave them. *)

From S2P Require Import Prelude Metrics.

(** ** State *)

Record MetricsStore := mkMetricsStore {
  total_connections : N;
  backend_stores : list BackendStore;
  user_metrics : Users;
  pipeline_batches : N;
  pipeline_commands : N;
  pipeline_requests_queued : N;
  pipeline_requests_completed : N }.

Definition new_store (num_backends : nat) : MetricsStore :=
  mkMetricsStore 0 (replicate num_backends default_backend_store) ∅ 0 0 0 0.

Inductive BackendHealthStatus := Healthy | Degraded | Down.

Definition health_from_u8 (value : N) : BackendHealthStatus :=
  match value with 1%N => Degraded | 2%N => Down | _ => Healthy end.

Definition health_to_u8 (status : BackendHealthStatus) : N :=
  match status with Healthy => 0 | Degraded => 1 | Down => 2 end.

Record BackendMetrics := mkBackendMetrics { backend_active : N; health_status : N }.

Definition default_backend_metrics : BackendMetrics := mkBackendMetrics 0 (health_to_u8 Healthy).

Record MetricsCollector := mkCollector {
  store : MetricsStore;
  active_connections : N;
  stateful_sessions : N;
  backend_metrics : list BackendMetrics }.

(** [with_store] *)
Definition with_store (s : MetricsStore) : MetricsCollector :=
  mkCollector
    (mkMetricsStore (total_connections s) (backend_stores s) (prune_user_metrics (user_metrics s)).2 (pipeline_batches s)
       (pipeline_commands s) (pipeline_requests_queued s) (pipeline_requests_completed s))
    0 0 (replicate (length (backend_stores s)) default_backend_metrics).

Definition new_collector (num_backends : nat) : MetricsCollector := with_store (new_store num_backends).

(** ** Atomic actions *)

(** The single counters; those of a backend are named by its index. *)
Inductive Counter :=
| CBackend (i : nat) (f : BackendField)
| CTotalConnections | CPipelineBatches | CPipelineCommands | CRequestsQueued | CRequestsCompleted
| CActive | CStateful
| CBackendActive (i : nat).

#[global] Instance counter_eq : EqDecision Counter.
Proof. solve_decision. Defined.

(** A counter of a backend that does not exist reads as zero. *)
Definition read (c : Counter) (m : MetricsCollector) : N :=
  match c with
  | CBackend i f => from_option (field f) 0%N (backend_stores (store m) !! i)
  | CTotalConnections => total_connections (store m)
  | CPipelineBatches => pipeline_batches (store m)
  | CPipelineCommands => pipeline_commands (store m)
  | CRequestsQueued => pipeline_requests_queued (store m)
  | CRequestsCompleted => pipeline_requests_completed (store m)
  | CActive => active_connections m
  | CStateful => stateful_sessions m
  | CBackendActive i => from_option backend_active 0%N (backend_metrics m !! i)
  end.

Definition on_store (f : MetricsStore → MetricsStore) (m : MetricsCollector) : MetricsCollector :=
  mkCollector (f (store m)) (active_connections m) (stateful_sessions m) (backend_metrics m).

Definition on_users (f : Users → Users) (m : MetricsCollector) : MetricsCollector :=
  on_store (λ s, mkMetricsStore (total_connections s) (backend_stores s) (f (user_metrics s)) (pipeline_batches s)
    (pipeline_commands s) (pipeline_requests_queued s) (pipeline_requests_completed s)) m.

(** [with_backend_store]: an unknown backend is ignored. *)
Definition with_backend_store (i : nat) (f : BackendStore → BackendStore) (m : MetricsCollector) : MetricsCollector :=
  on_store (λ s, mkMetricsStore (total_connections s) (alter f i (backend_stores s)) (user_metrics s) (pipeline_batches s)
    (pipeline_commands s) (pipeline_requests_queued s) (pipeline_requests_completed s)) m.

Definition with_backend_metrics (i : nat) (f : BackendMetrics → BackendMetrics) (m : MetricsCollector) : MetricsCollector :=
  mkCollector (store m) (active_connections m) (stateful_sessions m) (alter f i (backend_metrics m)).

(** [fetch_add]; [fetch_sub(1)] adds [u64_max]. *)
Definition add_counter (c : Counter) (n : N) (m : MetricsCollector) : MetricsCollector :=
  let up k := wrap64 (k + n) in
  let st f := on_store f m in
  match c with
  | CBackend i f => with_backend_store i (fetch_add f n) m
  | CTotalConnections => st (λ s, mkMetricsStore (up (total_connections s)) (backend_stores s) (user_metrics s) (pipeline_batches s)
      (pipeline_commands s) (pipeline_requests_queued s) (pipeline_requests_completed s))
  | CPipelineBatches => st (λ s, mkMetricsStore (total_connections s) (backend_stores s) (user_metrics s) (up (pipeline_batches s))
      (pipeline_commands s) (pipeline_requests_queued s) (pipeline_requests_completed s))
  | CPipelineCommands => st (λ s, mkMetricsStore (total_connections s) (backend_stores s) (user_metrics s) (pipeline_batches s)
      (up (pipeline_commands s)) (pipeline_requests_queued s) (pipeline_requests_completed s))
  | CRequestsQueued => st (λ s, mkMetricsStore (total_connections s) (backend_stores s) (user_metrics s) (pipeline_batches s)
      (pipeline_commands s) (up (pipeline_requests_queued s)) (pipeline_requests_completed s))
  | CRequestsCompleted => st (λ s, mkMetricsStore (total_connections s) (backend_stores s) (user_metrics s) (pipeline_batches s)
      (pipeline_commands s) (pipeline_requests_queued s) (up (pipeline_requests_completed s)))
  | CActive => mkCollector (store m) (up (active_connections m)) (stateful_sessions m) (backend_metrics m)
  | CStateful => mkCollector (store m) (active_connections m) (up (stateful_sessions m)) (backend_metrics m)
  | CBackendActive i => with_backend_metrics i (λ b, mkBackendMetrics (up (backend_active b)) (health_status b)) m
  end.

(** An update of a user is one action here; what can happen between its steps is in
    [Metrics.v]. *)
Inductive Action :=
| Add (c : Counter) (n : N)
| StoreHealth (i : nat) (status : BackendHealthStatus)
| UpdateUsers (name : option bytes) (update : UserMetrics → UserMetrics).

Definition perform (a : Action) (m : MetricsCollector) : MetricsCollector :=
  match a with
  | Add c n => add_counter c n m
  | StoreHealth i status => with_backend_metrics i (λ b, mkBackendMetrics (backend_active b) (health_to_u8 status)) m
  | UpdateUsers name update => on_users (update_user_metrics name update) m
  end.

Definition run_actions (l : list Action) (m : MetricsCollector) : MetricsCollector := foldl (λ m a, perform a m) m l.

(** ** The recording methods *)

Definition fetch_sub_1 (c : Counter) : Action := Add c u64_max.

Definition connection_opened : list Action := [Add CTotalConnections 1; Add CActive 1].
Definition connection_closed : list Action := [fetch_sub_1 CActive].
Definition stateful_session_started : list Action := [Add CStateful 1].
Definition stateful_session_ended : list Action := [fetch_sub_1 CStateful].
Definition record_command (i : nat) : list Action := [Add (CBackend i FTotalCommands) 1].
Definition record_connection_failure (i : nat) : list Action := [Add (CBackend i FConnectionFailures) 1].
Definition record_error (i : nat) : list Action := [Add (CBackend i FErrors) 1].
Definition record_client_to_backend_bytes_for (i : nat) (n : N) : list Action := [Add (CBackend i FBytesSent) n].
Definition record_backend_to_client_bytes_for (i : nat) (n : N) : list Action := [Add (CBackend i FBytesReceived) n].
Definition backend_connection_opened (i : nat) : list Action := [Add (CBackendActive i) 1].
Definition backend_connection_closed (i : nat) : list Action := [fetch_sub_1 (CBackendActive i)].
Definition record_error_4xx (i : nat) : list Action := [Add (CBackend i FErrors4xx) 1; Add (CBackend i FErrors) 1].
Definition record_error_5xx (i : nat) : list Action := [Add (CBackend i FErrors5xx) 1; Add (CBackend i FErrors) 1].
Definition record_article (i : nat) (n : N) : list Action := [Add (CBackend i FArticleBytesTotal) n; Add (CBackend i FArticleCount) 1].
Definition record_ttfb_micros (i : nat) (n : N) : list Action := [Add (CBackend i FTtfbMicrosTotal) n; Add (CBackend i FTtfbCount) 1].
Definition record_send_recv_micros (i : nat) (s r : N) : list Action :=
  [Add (CBackend i FSendMicrosTotal) s; Add (CBackend i FRecvMicrosTotal) r].
Definition set_backend_health (i : nat) (status : BackendHealthStatus) : list Action := [StoreHealth i status].
Definition record_pipeline_batch (n : N) : list Action := [Add CPipelineBatches 1; Add CPipelineCommands n].
Definition record_pipeline_enqueue : list Action := [Add CRequestsQueued 1].
Definition record_pipeline_complete : list Action := [Add CRequestsCompleted 1].

(** [record_command_execution]; marking the bytes as recorded is a change of type. *)
Definition record_command_execution (i : nat) (sent received : N) : list Action :=
  record_command i ++ record_client_to_backend_bytes_for i sent ++ record_backend_to_client_bytes_for i received.

(** ** Interleavings *)

(** The actions of several threads, each in its order. *)
Inductive interleaved {A} : list (list A) → list A → Prop :=
| interleaved_done ls : Forall (λ l, l = []) ls → interleaved ls []
| interleaved_step ls i x rest l : ls !! i = Some (x :: rest) → interleaved (<[i := rest]> ls) l → interleaved ls (x :: l).

Lemma interleaved_perm {A} (ls : list (list A)) l : interleaved ls l → l ≡ₚ concat ls.
Proof.
  induction 1 as [ls Hf|ls i x rest l Hi _ IH].
  - induction Hf as [|? ls -> _ IH]; [done|]. exact IH.
  - rewrite IH. rewrite <- (take_drop_middle ls i (x :: rest) Hi) at 2.
    rewrite insert_take_drop by (by eapply lookup_lt_Some). rewrite !concat_app. cbn. rewrite Permutation_middle. done.
Qed.

(** What a list of actions adds to a counter. *)
Definition amount (c : Counter) (a : Action) : N :=
  match a with Add c' n => if decide (c = c') then n else 0%N | _ => 0%N end.

Definition total (c : Counter) (l : list Action) : N := foldr (λ a k, (amount c a + k)%N) 0%N l.

Lemma total_app c l1 l2 : total c (l1 ++ l2) = (total c l1 + total c l2)%N.
Proof. unfold total. induction l1 as [|a l1 IH]; cbn; [done|]. rewrite IH. lia. Qed.

#[global] Instance total_proper c : Proper ((≡ₚ) ==> (=)) (total c).
Proof. unfold total. induction 1; cbn; lia. Qed.

#[global] Arguments total _ _ : simpl never.

(** A counter that exists. *)
Definition present (c : Counter) (m : MetricsCollector) : Prop :=
  match c with
  | CBackend i _ => i < length (backend_stores (store m))
  | CBackendActive i => i < length (backend_metrics m)
  | _ => True
  end.

Lemma field_fetch_add f g n s : field g (fetch_add f n s) = if decide (g = f) then wrap64 (field g s + n) else field g s.
Proof. unfold fetch_add. destruct g; cbn [field]; destruct f; reflexivity. Qed.

Lemma from_option_alter {A B} (g : A → B) d (f : A → A) (l : list A) i j :
  from_option g d (alter f i l !! j) = if decide (j = i) then from_option (λ x, g (f x)) d (l !! j) else from_option g d (l !! j).
Proof.
  destruct (decide (j = i)) as [->|Hne]; [rewrite list_lookup_alter_eq|rewrite list_lookup_alter_ne by done]; by destruct (l !! _).
Qed.

Lemma perform_present c a m : present c (perform a m) ↔ present c m.
Proof. destruct a as [[]| |], c; cbn; rewrite ?length_alter; done. Qed.

Lemma perform_read c a m : present c m → (read c m < 2 ^ 64)%N → read c (perform a m) = wrap64 (read c m + amount c a).
Proof.
  intros Hp Hb. assert (∀ k, (k < 2 ^ 64)%N → wrap64 (k + 0) = k) as Hw by (intros; rewrite N.add_0_r; by apply N.mod_small).
  destruct a as [c' n|i status|name update]; cbn [amount perform].
  - destruct (decide (c = c')) as [<-|Hne].
    + destruct c; cbn [add_counter read with_backend_store with_backend_metrics on_store store backend_stores backend_metrics] in *;
        rewrite ?from_option_alter, ?decide_True by done; try reflexivity;
        apply lookup_lt_is_Some in Hp as [x Hx]; rewrite Hx; cbn; rewrite ?field_fetch_add, ?decide_True by done; reflexivity.
    + rewrite Hw by done. destruct c as [i f| | | | | | | |i], c' as [j g| | | | | | | |j];
        cbn [add_counter read with_backend_store with_backend_metrics on_store store backend_stores backend_metrics]; try done;
        rewrite from_option_alter; (destruct (decide (i = j)) as [->|]; [|done]).
      * destruct (_ !! j); cbn; [|done]. rewrite field_fetch_add, decide_False by congruence. done.
      * done.
  - rewrite Hw by done. destruct c; try done. cbn. rewrite from_option_alter. case_decide; [|done]. by destruct (_ !! _).
  - rewrite Hw by done. by destruct c.
Qed.

Lemma wrap64_lt n : (wrap64 n < 2 ^ 64)%N.
Proof. by apply N.mod_lt. Qed.

Lemma run_actions_read c l m :
  present c m → (read c m < 2 ^ 64)%N → read c (run_actions l m) = wrap64 (read c m + total c l).
Proof.
  unfold run_actions. revert m. induction l as [|a l IH]; intros m Hp Hb; cbn [foldl]; [unfold total; cbn [foldr]; rewrite N.add_0_r; unfold wrap64; by rewrite N.mod_small|].
  rewrite IH, perform_read by (try done; rewrite ?perform_read by done; try apply wrap64_lt; by apply perform_present).
  unfold wrap64. rewrite N.Div0.add_mod_idemp_l. change (total c (a :: l)) with (amount c a + total c l)%N. by rewrite N.add_assoc.
Qed.

(** The recording methods that are called. *)
Inductive Method : list Action → Prop :=
| m_connection_opened : Method connection_opened
| m_connection_closed : Method connection_closed
| m_stateful_started : Method stateful_session_started
| m_stateful_ended : Method stateful_session_ended
| m_command i : Method (record_command i)
| m_connection_failure i : Method (record_connection_failure i)
| m_error i : Method (record_error i)
| m_sent i n : Method (record_client_to_backend_bytes_for i n)
| m_received i n : Method (record_backend_to_client_bytes_for i n)
| m_backend_opened i : Method (backend_connection_opened i)
| m_backend_closed i : Method (backend_connection_closed i)
| m_execution i s r : Method (record_command_execution i s r)
| m_error_4xx i : Method (record_error_4xx i)
| m_error_5xx i : Method (record_error_5xx i)
| m_article i n : Method (record_article i n)
| m_ttfb i n : Method (record_ttfb_micros i n)
| m_send_recv i s r : Method (record_send_recv_micros i s r)
| m_health i status : Method (set_backend_health i status)
| m_batch n : Method (record_pipeline_batch n)
| m_enqueue : Method record_pipeline_enqueue
| m_complete : Method record_pipeline_complete
| m_user name update : Method [UpdateUsers name update].

Lemma method_errors i l :
  Method l → (total (CBackend i FErrors4xx) l + total (CBackend i FErrors5xx) l <= total (CBackend i FErrors) l)%N.
Proof. intros []; unfold total; cbn; repeat case_decide; simplify_eq; lia. Qed.

(** A thread calls methods one after the other. *)
Definition program (calls : list (list Action)) : list Action := concat calls.

Lemma threads_errors i threads :
  Forall (Forall Method) threads →
  let l := concat (program <$> threads) in
  (total (CBackend i FErrors4xx) l + total (CBackend i FErrors5xx) l <= total (CBackend i FErrors) l)%N.
Proof.
  induction 1 as [|t threads Ht _ IH]; [done|]. cbn. rewrite !total_app.
  assert (total (CBackend i FErrors4xx) (program t) + total (CBackend i FErrors5xx) (program t) <= total (CBackend i FErrors) (program t))%N; [|cbn in IH; lia].
  unfold program. induction Ht as [|l t Hl _ IHt]; [done|]. cbn. rewrite !total_app. pose proof (method_errors i l Hl). lia.
Qed.


