(* ===== verification/Stats.v ===== *)
(** * Stats: the statistics file

    Models the persistence of the metrics ([src/src/metrics/store.rs]: [save], [load] and
    the file format) and the replacement of a file ([src/src/io_util.rs]).

    serde_json is a pair of functions, [to_json] and [from_json], that round-trip.  The
    order in which the map of users is iterated is an argument. *)

From stdpp Require Import pretty.
From S2P Require Import Prelude Metrics Collector.

(** ** The file format *)

Definition STATS_FILE_VERSION : N := 1.

Record PersistedBackend := mkPersistedBackend {
  pb_name : bytes;
  pb_total_commands : N;
  pb_bytes_sent : N;
  pb_bytes_received : N;
  pb_errors : N;
  pb_errors_4xx : N;
  pb_errors_5xx : N;
  pb_article_bytes_total : N;
  pb_article_count : N;
  pb_ttfb_micros_total : N;
  pb_ttfb_count : N;
  pb_send_micros_total : N;
  pb_recv_micros_total : N;
  pb_connection_failures : N }.

Record PersistedUser := mkPersistedUser {
  pu_username : bytes;
  pu_total_connections : N;
  pu_bytes_sent : N;
  pu_bytes_received : N;
  pu_total_commands : N;
  pu_errors : N }.

Record PersistedPipeline := mkPersistedPipeline {
  pp_batches : N;
  pp_commands : N;
  pp_requests_queued : N;
  pp_requests_completed : N }.

Record StatsFile := mkStatsFile {
  version : N;
  saved_at : bytes;
  global_total_connections : N;
  backends : list PersistedBackend;
  users : list PersistedUser;
  pipeline : PersistedPipeline }.

Definition backend_to_persisted (name : bytes) (s : BackendStore) : PersistedBackend :=
  mkPersistedBackend name (total_commands s) (bytes_sent s) (bytes_received s) (errors s) (errors_4xx s) (errors_5xx s)
    (article_bytes_total s) (article_count s) (ttfb_micros_total s) (ttfb_count s) (send_micros_total s) (recv_micros_total s)
    (connection_failures s).

Definition backend_restore_from (p : PersistedBackend) : BackendStore :=
  mkBackendStore (pb_total_commands p) (pb_bytes_sent p) (pb_bytes_received p) (pb_errors p) (pb_errors_4xx p) (pb_errors_5xx p)
    (pb_article_bytes_total p) (pb_article_count p) (pb_ttfb_micros_total p) (pb_ttfb_count p) (pb_send_micros_total p)
    (pb_recv_micros_total p) (pb_connection_failures p).

Definition user_to_persisted (u : UserMetrics) : PersistedUser :=
  mkPersistedUser (username u) (user_total_connections u) (user_sent u) (user_received u) (user_commands u) (user_errors u).

(** The gauge is not restored. *)
Definition user_restore_from (p : PersistedUser) (u : UserMetrics) : UserMetrics :=
  mkUser (username u) (user_active u) (pu_total_connections p) (pu_bytes_sent p) (pu_bytes_received p) (pu_total_commands p) (pu_errors p).

(** ** Saving *)

(** The backends of the configuration with their counters; [None] is the error of a
    configuration with more backends than counters. *)
Fixpoint persisted_backends (names : list bytes) (stores : list BackendStore) : option (list PersistedBackend) :=
  match names, stores with
  | [], _ => Some []
  | _, [] => None
  | name :: names, s :: stores => cons (backend_to_persisted name s) <$> persisted_backends names stores
  end.

(** [order] lists the entries of the map of users. *)
Definition stats_file (now : bytes) (names : list bytes) (order : list (bytes * UserMetrics)) (s : MetricsStore) : option StatsFile :=
  backends ← persisted_backends names (backend_stores s);
  Some (mkStatsFile STATS_FILE_VERSION now (total_connections s) backends ((λ e, user_to_persisted e.2) <$> order)
    (mkPersistedPipeline (pipeline_batches s) (pipeline_commands s) (pipeline_requests_queued s) (pipeline_requests_completed s))).

(** ** Loading *)

Definition restore_backend (names : list bytes) (stores : list BackendStore) (p : PersistedBackend) : list BackendStore :=
  match position (λ name, bool_decide (name = pb_name p)) names with
  | Some i => <[i := backend_restore_from p]> stores
  | None => stores
  end.

Definition restore_user (m : Users) (p : PersistedUser) : Users :=
  <[pu_username p := user_restore_from p (new_user (pu_username p))]> m.

(** The part of [load] behind the parser; [None] starts fresh. *)
Definition restore (names : list bytes) (f : StatsFile) : option MetricsStore :=
  if negb (version f =? STATS_FILE_VERSION)%N then None
  else
    let s := new_store (length names) in
    Some (mkMetricsStore (global_total_connections f) (foldl (restore_backend names) (backend_stores s) (backends f))
      (prune_user_metrics (foldl restore_user (user_metrics s) (users f))).2
      (pp_batches (pipeline f)) (pp_commands (pipeline f)) (pp_requests_queued (pipeline f)) (pp_requests_completed (pipeline f))).

(** ** Files *)

(** A path: its directory and its file name. *)
Abbreviation Path := (bytes * bytes)%type.
Abbreviation Files := (@gmap (list byte * list byte) prod_eq_dec prod_countable (list byte)).

(** The temporary file of the [seq]th save. *)
Definition tmp_path (path : Path) (seq : N) : Path := (path.1, path.2 ++ bs "." ++ bs (pretty seq) ++ bs ".tmp").

(** What goes wrong during a save, with the part of the file already written. *)
Inductive SaveFault := NoFault | WriteFails (part : option bytes) | RenameFails.

Section Json.
Context (to_json : StatsFile → bytes) (from_json : bytes → option StatsFile).

(** [load]: a missing or unreadable file and an unknown version start fresh; a file that
    cannot be read at all is not modelled. *)
Definition load (path : Path) (names : list bytes) (files : Files) : option MetricsStore :=
  content ← files !! path; f ← from_json content; restore names f.

(** [atomic_replace_file] on Unix. *)
Definition atomic_replace_file (tmp path : Path) (files : Files) : Files :=
  match files !! tmp with Some content => delete tmp (<[path := content]> files) | None => files end.

(** [save]: the successive states of the file system, and whether it succeeds.  The lock
    makes saves of the process one after the other. *)
Definition save (now : bytes) (names : list bytes) (order : list (bytes * UserMetrics)) (seq : N) (fault : SaveFault)
    (path : Path) (s : MetricsStore) (files : Files) : list Files * bool :=
  match stats_file now names order s with
  | None => ([], false)
  | Some f =>
      let json := to_json f in
      let tmp := tmp_path path seq in
      let written := <[tmp := json]> files in
      match fault with
      | WriteFails part => ([match part with Some p => <[tmp := p]> files | None => files end], false)
      | RenameFails => ([written; delete tmp written], false)
      | NoFault => ([written; atomic_replace_file tmp path written], true)
      end
  end.
End Json.

(** ** Round trip *)

(** The user as it is after a restart. *)
Definition idle (u : UserMetrics) : UserMetrics :=
  mkUser (username u) 0 (user_total_connections u) (user_sent u) (user_received u) (user_commands u) (user_errors u).

(** The entries are stored under their names. *)
Definition users_ok (m : Users) : Prop := ∀ k u, m !! k = Some u → username u = k.

Lemma tmp_path_ne path seq : tmp_path path seq ≠ path.
Proof.
  destruct path as [dir file]. intros [= H]. apply (f_equal length) in H. rewrite !length_app in H. cbn in H. lia.
Qed.

Lemma backend_restored name s : backend_restore_from (backend_to_persisted name s) = s.
Proof. by destruct s. Qed.

Lemma persisted_backends_zip names stores :
  length names ≤ length stores → persisted_backends names stores = Some (zip_with backend_to_persisted names stores).
Proof.
  revert stores. induction names as [|name names IH]; intros [|s stores] Hlen; cbn in *; try done; [lia|]. by rewrite IH by lia.
Qed.

Lemma restore_backend_length names stores p : length (restore_backend names stores p) = length stores.
Proof. unfold restore_backend. case_match; by rewrite ?length_insert. Qed.

Lemma position_nodup (names : list bytes) i name :
  NoDup names → names !! i = Some name → position (λ n, bool_decide (n = name)) names = Some i.
Proof.
  revert i. induction names as [|n names IH]; intros i Hnd Hi; [done|]. apply NoDup_cons in Hnd as [Hn Hnd]. cbn.
  destruct i as [|i]; cbn in Hi; [simplify_eq; by rewrite bool_decide_eq_true_2|].
  rewrite bool_decide_eq_false_2 by (intros ->; by apply Hn, (list_elem_of_lookup_2 _ i)). by rewrite (IH i).
Qed.

Lemma restore_backend_lookup names stores p i name :
  NoDup names → names !! i = Some name → length stores = length names →
  restore_backend names stores p !! i = if decide (pb_name p = name) then Some (backend_restore_from p) else stores !! i.
Proof.
  intros Hnd Hi Hlen. unfold restore_backend. pose proof (lookup_lt_Some _ _ _ Hi). case_decide as Hp.
  - rewrite Hp, (position_nodup names i name) by done. apply list_lookup_insert_eq. lia.
  - destruct (position _ names) as [j|] eqn:E; [|done]. apply position_Some in E as [(x & Hj & Hx) _].
    apply bool_decide_eq_true in Hx. subst x. apply list_lookup_insert_ne. intros ->. congruence.
Qed.

Lemma restore_backends_absent names ps stores i name :
  NoDup names → names !! i = Some name → length stores = length names → name ∉ pb_name <$> ps →
  foldl (restore_backend names) stores ps !! i = stores !! i.
Proof.
  intros Hnd Hi. revert stores. induction ps as [|p ps IH]; intros stores Hlen Hn; [done|]. cbn in *. apply not_elem_of_cons in Hn as [Hp Hn].
  rewrite IH by (rewrite ?restore_backend_length; done). rewrite (restore_backend_lookup _ _ _ i name) by done. by rewrite decide_False.
Qed.

Lemma restore_backends_present names ps stores i name p :
  NoDup names → names !! i = Some name → length stores = length names → NoDup (pb_name <$> ps) → p ∈ ps → pb_name p = name →
  foldl (restore_backend names) stores ps !! i = Some (backend_restore_from p).
Proof.
  intros Hnd Hi. revert stores. induction ps as [|q ps IH]; intros stores Hlen Hps Hin Hp; [set_solver|]. cbn in *.
  apply NoDup_cons in Hps as [Hq Hps]. apply elem_of_cons in Hin as [->|Hin].
  - rewrite (restore_backends_absent _ _ _ i name) by (rewrite ?restore_backend_length; congruence).
    by rewrite (restore_backend_lookup _ _ _ i name), decide_True.
  - apply IH; [by rewrite restore_backend_length|done..].
Qed.

Lemma restore_backends_length names ps stores : length (foldl (restore_backend names) stores ps) = length stores.
Proof. revert stores. induction ps as [|p ps IH]; intros stores; [done|]. cbn. by rewrite IH, restore_backend_length. Qed.

(** The counters that a backend of the new configuration starts with. *)
Lemma restore_backends_exact names stores names' i name :
  NoDup names → NoDup names' → length names ≤ length stores → names' !! i = Some name →
  foldl (restore_backend names') (replicate (length names') default_backend_store) (zip_with backend_to_persisted names stores) !! i =
  Some (match position (λ n, bool_decide (n = name)) names with Some j => stores !!! j | None => default_backend_store end).
Proof.
  intros Hn Hn' Hlen Hi. assert (pb_name <$> zip_with backend_to_persisted names stores = names) as Hnames.
  { clear -Hlen. revert stores Hlen. induction names as [|n names IH]; intros [|s stores] Hlen; cbn in *; try done; [lia|]. by rewrite IH by lia. }
  destruct (position _ names) as [j|] eqn:E.
  - apply position_Some in E as [(x & Hj & Hx%bool_decide_eq_true) _]. subst x.
    destruct (lookup_lt_is_Some_2 stores j) as [s Hs]; [apply lookup_lt_Some in Hj; lia|].
    rewrite (list_lookup_total_correct _ _ _ Hs).
    rewrite (restore_backends_present _ _ _ i name (backend_to_persisted name s)); rewrite ?length_replicate, ?Hnames; try done; [by rewrite backend_restored|].
    apply (list_elem_of_lookup_2 _ j). by rewrite lookup_zip_with, Hj, Hs.
  - rewrite (restore_backends_absent _ _ _ i name); rewrite ?length_replicate, ?Hnames; try done.
    + apply lookup_replicate_2. by eapply lookup_lt_Some.
    + intros [j Hj]%list_elem_of_lookup. apply position_None in E.
      pose proof (Forall_lookup_1 _ _ _ _ E Hj) as H. cbn in H. by rewrite bool_decide_eq_true_2 in H.
Qed.

(** The users come back without their gauges, in whatever order they were written. *)
Lemma restore_users_exact (m : Users) order :
  users_ok m → order ≡ₚ map_to_list m → foldl restore_user ∅ ((λ e, user_to_persisted e.2) <$> order) = idle <$> m.
Proof.
  intros Hok Hp. assert (NoDup order.*1) as Hnd by (rewrite Hp; apply NoDup_fst_map_to_list).
  assert (∀ k u, (k, u) ∈ order ↔ m !! k = Some u) as Hin by (intros k u; rewrite Hp; apply elem_of_map_to_list).
  assert (∀ l (acc : Users), Forall (λ e, username e.2 = e.1) l → NoDup l.*1 →
    foldl restore_user acc ((λ e, user_to_persisted e.2) <$> l) = list_to_map (prod_map id idle <$> l) ∪ acc) as Hfold.
  { induction l as [|[k u] l IH]; intros acc Hl Hd; cbn; [by rewrite (left_id_L ∅ (∪))|]. apply Forall_cons in Hl as [Hk Hl]. cbn in Hk, Hd.
    apply NoDup_cons in Hd as [Hkl Hd]. rewrite IH by done. unfold restore_user. cbn. rewrite Hk.
    rewrite <- insert_union_r, insert_union_l; [by destruct u; cbn in *; subst|].
    apply not_elem_of_list_to_map_1. by rewrite <- list_fmap_compose. }
  rewrite Hfold; [|apply Forall_forall; intros [k u] H%Hin; by apply Hok|done].
  rewrite (right_id_L ∅ (∪)). apply map_eq. intros k. rewrite lookup_fmap.
  assert (NoDup (prod_map id idle <$> order).*1) as Hnd' by (by rewrite <- list_fmap_compose).
  destruct (m !! k) as [u|] eqn:E; cbn.
  - apply elem_of_list_to_map; [done|]. apply list_elem_of_fmap. exists (k, u). split; [done|by apply Hin].
  - apply not_elem_of_list_to_map_1. rewrite <- list_fmap_compose. intros ([k' u] & -> & H%Hin)%list_elem_of_fmap. cbn in *. congruence.
Qed.

(** [JsonSpec]: serde_json reads back what it wrote. *)
Class JsonSpec (to_json : StatsFile → bytes) (from_json : bytes → option StatsFile) : Prop :=
  json_roundtrip f : from_json (to_json f) = Some f.

(** Between saving and loading: what a restart with the configuration [names'] finds. *)
Definition restarted (names names' : list bytes) (s s' : MetricsStore) : Prop :=
  total_connections s' = total_connections s ∧ pipeline_batches s' = pipeline_batches s ∧ pipeline_commands s' = pipeline_commands s ∧
  pipeline_requests_queued s' = pipeline_requests_queued s ∧ pipeline_requests_completed s' = pipeline_requests_completed s ∧
  length (backend_stores s') = length names' ∧
  (∀ i name, names' !! i = Some name → backend_stores s' !! i =
    Some (match position (λ n, bool_decide (n = name)) names with Some j => backend_stores s !!! j | None => default_backend_store end)) ∧
  user_metrics s' = (prune_user_metrics (idle <$> user_metrics s)).2.

Lemma restore_restarted now names names' order s :
  NoDup names → NoDup names' → length names ≤ length (backend_stores s) → users_ok (user_metrics s) → order ≡ₚ map_to_list (user_metrics s) →
  ∃ f s', stats_file now names order s = Some f ∧ restore names' f = Some s' ∧ restarted names names' s s'.
Proof.
  intros Hn Hn' Hlen Hu Ho. unfold stats_file. rewrite persisted_backends_zip by done. eexists _, _. split; [reflexivity|]. split; [reflexivity|].
  unfold restarted. cbn. rewrite restore_backends_length, length_replicate, (restore_users_exact (user_metrics s)) by done.
  split_and!; try done. intros i name Hi. by apply restore_backends_exact.
Qed.

(** C28 The statistics survive restarts and failures.  A save that succeeds is read back
    completely, by the names of the backends: a backend that is still configured has its
    counters again, wherever it is in the configuration, a new one starts at zero, and the
    users have theirs, as many as are kept.  At every moment of a save, whatever fails and
    wherever it stops, the file has the old or the new statistics, never a part of them,
    and a save that fails leaves the old ones. *)
Theorem stats_survive_restart {to_json from_json} {JS : JsonSpec to_json from_json} now names names' order seq path s files :
  NoDup names → NoDup names' → length names ≤ length (backend_stores s) → users_ok (user_metrics s) → order ≡ₚ map_to_list (user_metrics s) →
  ∃ s', restarted names names' s s' ∧
    ∀ fault, let '(states, ok) := save to_json now names order seq fault path s files in
      (ok = true ↔ fault = NoFault) ∧
      Forall (λ fs, load from_json path names' fs = load from_json path names' files ∨ load from_json path names' fs = Some s') states ∧
      ∃ fs, last states = Some fs ∧ load from_json path names' fs = if ok then Some s' else load from_json path names' files.
Proof.
  intros Hn Hn' Hlen Hu Ho. destruct (restore_restarted now names names' order s) as (f & s' & Hf & Hr & Hs); [done..|].
  exists s'. split; [done|]. intros fault. unfold save. rewrite Hf. set (tmp := tmp_path path seq).
  assert (tmp ≠ path) as Hne by apply tmp_path_ne.
  assert (∀ c (fs : Files), load from_json path names' (<[tmp := c]> fs) = load from_json path names' fs) as Hw
    by (intros; unfold load; by rewrite lookup_insert_ne).
  assert (∀ fs : Files, load from_json path names' (delete tmp fs) = load from_json path names' fs) as Hd
    by (intros; unfold load; by rewrite lookup_delete_ne).
  assert (load from_json path names' (atomic_replace_file tmp path (<[tmp := to_json f]> files)) = Some s') as Hnew.
  { unfold atomic_replace_file. rewrite lookup_insert_eq, Hd. unfold load. rewrite lookup_insert_eq. cbn. by rewrite (json_roundtrip f). }
  destruct fault as [|[part|]|]; (split; [done|]); (split; [repeat constructor|]); rewrite ?Hw, ?Hd, ?Hw; auto; eexists; (split; [reflexivity|]); rewrite ?Hd, ?Hw; done.
Qed.

(** *** A concrete codec *)

Fixpoint bits (p : positive) : bytes := match p with xH => [] | xO p => x00 :: bits p | xI p => x01 :: bits p end.

Fixpoint of_bits (l : bytes) : positive :=
  match l with [] => xH | b :: l => if Byte.eqb b x00 then xO (of_bits l) else xI (of_bits l) end.

Lemma of_bits_bits p : of_bits (bits p) = p.
Proof. induction p; cbn; congruence. Qed.

#[global] Instance persisted_backend_eq : EqDecision PersistedBackend.
Proof. solve_decision. Defined.
#[global] Instance persisted_user_eq : EqDecision PersistedUser.
Proof. solve_decision. Defined.
#[global] Instance persisted_pipeline_eq : EqDecision PersistedPipeline.
Proof. solve_decision. Defined.
#[global] Instance stats_file_eq : EqDecision StatsFile.
Proof. solve_decision. Defined.

#[global] Instance persisted_backend_countable : Countable PersistedBackend.
Proof.
  refine (inj_countable' (λ p, (pb_name p, [pb_total_commands p; pb_bytes_sent p; pb_bytes_received p; pb_errors p; pb_errors_4xx p; pb_errors_5xx p;
      pb_article_bytes_total p; pb_article_count p; pb_ttfb_micros_total p; pb_ttfb_count p; pb_send_micros_total p; pb_recv_micros_total p;
      pb_connection_failures p]))
    (λ '(n, l), mkPersistedBackend n (l !!! 0) (l !!! 1) (l !!! 2) (l !!! 3) (l !!! 4) (l !!! 5) (l !!! 6) (l !!! 7) (l !!! 8) (l !!! 9) (l !!! 10)
      (l !!! 11) (l !!! 12)) _). by intros [].
Defined.

#[global] Instance persisted_user_countable : Countable PersistedUser.
Proof.
  refine (inj_countable' (λ p, (pu_username p, pu_total_connections p, pu_bytes_sent p, pu_bytes_received p, pu_total_commands p, pu_errors p))
    (λ '(n, a, b, c, d, e), mkPersistedUser n a b c d e) _). by intros [].
Defined.

#[global] Instance stats_file_countable : Countable StatsFile.
Proof.
  refine (inj_countable' (λ f, (version f, saved_at f, global_total_connections f, backends f, users f,
      (pp_batches (pipeline f), pp_commands (pipeline f), pp_requests_queued (pipeline f), pp_requests_completed (pipeline f))))
    (λ '(v, t, g, b, u, (p1, p2, p3, p4)), mkStatsFile v t g b u (mkPersistedPipeline p1 p2 p3 p4)) _). by intros [? ? ? ? ? []].
Defined.

Definition sample_to_json (f : StatsFile) : bytes := bits (encode f).
Definition sample_from_json (l : bytes) : option StatsFile := decode (of_bits l).

#[global] Instance sample_json_spec : JsonSpec sample_to_json sample_from_json.
Proof. intros f. unfold sample_from_json, sample_to_json. by rewrite of_bits_bits, decode_encode. Qed.

Definition sample_store : MetricsStore :=
  mkMetricsStore 7 [fetch_add FBytesSent 10 default_backend_store; fetch_add FBytesSent 20 default_backend_store]
    {[ bs "u" := mkUser (bs "u") 1 2 3 4 5 6 ]} 1 2 3 4.

(** Two backends swap places in the configuration while the program is down. *)
Lemma stats_survive_restart_witness :
  ∃ s', restarted [bs "a"; bs "b"] [bs "b"; bs "a"] sample_store s' ∧
    load sample_from_json (bs "d", bs "stats") [bs "b"; bs "a"]
      (default ∅ (last (save sample_to_json [] [bs "a"; bs "b"] (map_to_list (user_metrics sample_store)) 0 NoFault (bs "d", bs "stats") sample_store ∅).1))
    = Some s'.
Proof.
  destruct (stats_survive_restart (to_json := sample_to_json) (from_json := sample_from_json) [] [bs "a"; bs "b"] [bs "b"; bs "a"]
    (map_to_list (user_metrics sample_store)) 0 (bs "d", bs "stats") sample_store ∅) as (s' & Hs & H).
  - apply (bool_decide_unpack _). vm_compute. exact I.
  - apply (bool_decide_unpack _). vm_compute. exact I.
  - cbn. lia.
  - intros k u H. unfold sample_store in H. cbn [user_metrics] in H. apply lookup_singleton_Some in H as [<- <-]. reflexivity.
  - reflexivity.
  - exists s'. split; [exact Hs|]. specialize (H NoFault). destruct (save _ _ _ _ _ _ _ _ _) as [states ok].
    destruct H as ([_ Hok] & _ & fs & Hl & Hfs). cbn [fst]. rewrite Hl. cbn [default]. rewrite (Hok eq_refl) in Hfs. exact Hfs.
Defined.

(** Two servers with the same name share the first entry after a restart: the first has
    the counters of the second, and the second none. *)
Example duplicate_names_lose_counters :
  let f := stats_file [] [bs "news"; bs "news"] [] sample_store in
  (λ s, bytes_sent <$> backend_stores s) <$> (f ≫= restore [bs "news"; bs "news"]) = Some [20; 0]%N.
Proof. by vm_compute. Qed.
