(* ===== verification/Lifecycle.v ===== *)
(** * Lifecycle: client connections of the proxy and what they leave in the metrics

    Models [src/src/proxy/lifecycle.rs]: the guard of a client connection, the clock of
    idle pools, and the end of a session, with the byte deltas of
    [src/src/session/state.rs].  The sessions are those of [Stateful.v]; the counters are those
    of [Collector.v].

    Clients come and go at the same time: a client is a task of atomic actions.  Time is
    the number of nanoseconds since the start. *)

From S2P Require Import Prelude Protocol Request Auth Pipeline Stream Transfer Tracker Retry Stateful Metrics Collector.

(** ** Client connections *)

(** The counters of the proxy. *)
Record Proxy := mkProxy { active_clients : N; last_activity_nanos : N }.

Definition new_proxy : Proxy := mkProxy 0 0.

(** A client at its next atomic action: [ClientConnectionGuard::new], the session, and the
    drop of the guard.  The last client to leave takes the time and stores it. *)
Inductive ClientTask :=
| ClientArrives
| ClientServed
| ClientClock
| ClientStores (nanos : N)
| ClientGone.

(** [elapsed_nanos_u64] at [now]. *)
Definition elapsed_nanos_u64 (now : N) : N := N.min now u64_max.

(** [increment_active_clients] and [decrement_active_clients], step by step. *)
Definition client_step (now : N) (p : Proxy) (t : ClientTask) : option (Proxy * ClientTask) :=
  match t with
  | ClientArrives => Some (mkProxy (wrap64 (active_clients p + 1)) (last_activity_nanos p), ClientServed)
  | ClientServed =>
      Some (mkProxy (wrap64 (active_clients p + u64_max)) (last_activity_nanos p),
            if (active_clients p =? 1)%N then ClientClock else ClientGone)
  | ClientClock => Some (p, ClientStores (elapsed_nanos_u64 now))
  | ClientStores nanos => Some (mkProxy (active_clients p) nanos, ClientGone)
  | ClientGone => None
  end.

(** [check_and_clear_stale_pools] at [now]: the backends whose pools are cleared. *)
Definition check_and_clear_stale_pools (now : N) (timeouts : list N) (p : Proxy) : list nat :=
  if (0 <? active_clients p)%N then []
  else
    let idle_duration := sat_sub now (last_activity_nanos p) in
    (filter (λ e : nat * N, (e.2 <? idle_duration)%N = true) (zip (seq 0 (length timeouts)) timeouts)).*1.

(** The clients of the proxy with the time; [quiet] is when the last client left, or the
    start. *)
Record Clients := mkClients { clock : N; proxy : Proxy; tasks : list ClientTask; quiet : N }.

Inductive clients_step : Clients → Clients → Prop :=
| cs_tick now now' p ts q : (now <= now')%N → clients_step (mkClients now p ts q) (mkClients now' p ts q)
| cs_accept now p ts q : clients_step (mkClients now p ts q) (mkClients now p (ts ++ [ClientArrives]) q)
| cs_client now p ts q i t p' t' :
    ts !! i = Some t → client_step now p t = Some (p', t') →
    clients_step (mkClients now p ts q)
      (mkClients now p' (<[i := t']> ts) (match t with ClientServed => if (active_clients p =? 1)%N then now else q | _ => q end)).

(** ** The end of a session *)

(** [flush_byte_deltas]: what is recorded for the deltas of a flush. *)
Definition delta_actions (backend : nat) (name : option bytes) (d : N * N) : list Action :=
  (if (0 <? d.1)%N then record_client_to_backend_bytes_for backend d.1 ++ [UpdateUsers name (record_bytes_sent d.1)] else []) ++
  (if (0 <? d.2)%N then record_backend_to_client_bytes_for backend d.2 ++ [UpdateUsers name (record_bytes_received d.2)] else []).

(** All flushes of a session; the user may have changed in between. *)
Fixpoint flush_actions (backend : nat) (names : nat → option bytes) (ds : list (N * N)) : list Action :=
  match ds with
  | [] => []
  | d :: ds => delta_actions backend (names 0) d ++ flush_actions backend (λ k, names (S k)) ds
  end.

(** [record_session_metrics]; a per-command session has no backend of its own. *)
Definition record_session_metrics (backend : option nat) (r : result SessionError (N * N)) : list Action :=
  match r, backend with
  | Ok (c2b, b2c), Some i => record_client_to_backend_bytes_for i c2b ++ record_backend_to_client_bytes_for i b2c
  | Err _, Some i => record_error i
  | _, None => []
  end.

(** What [handle_client] leaves in the counters of its backend when the session is over. *)
Definition handle_client_actions (backend : nat) (names : nat → option bytes) (s : Session) (r : result SessionError (N * N)) : list Action :=
  flush_actions backend names (s_reported s) ++ record_session_metrics (Some backend) r.

(** ** Clients are counted *)

Definition served (t : ClientTask) : bool := match t with ClientServed => true | _ => false end.

Definition clients_ok (s : Clients) : Prop :=
  active_clients (proxy s) = wrap64 (N.of_nat (count_if served (tasks s))) ∧
  (last_activity_nanos (proxy s) <= clock s)%N ∧
  Forall (λ t, match t with ClientStores nanos => (nanos <= clock s)%N | _ => True end) (tasks s).

Lemma clients_step_ok s s' : clients_step s s' → clients_ok s → clients_ok s'.
Proof.
  intros [now now' p ts q Hle|now p ts q|now p ts q i t p' t' Hi Hs] (Ha & Hl & Hf); unfold clients_ok; cbn [proxy tasks clock] in *.
  - split_and!; [done|lia|]. eapply Forall_impl; [exact Hf|]. intros []; cbn; lia.
  - rewrite count_if_app, Nat.add_0_r. split_and!; [done|done|]. apply Forall_app. split; [done|by repeat constructor].
  - pose proof (count_if_insert served ts i t t' Hi) as Hc. pose proof (Forall_lookup_1 _ _ _ _ Hf Hi) as Ht. cbn beta in Ht.
    assert (∀ n, wrap64 (wrap64 n + 1) = wrap64 (n + 1)) as Hup by (intros; apply N.Div0.add_mod_idemp_l).
    assert (∀ n, wrap64 (wrap64 (n + 1) + u64_max) = wrap64 n) as Hdown.
    { intros n. unfold wrap64. rewrite N.Div0.add_mod_idemp_l. replace (n + 1 + u64_max)%N with (n + 1 * 2 ^ 64)%N by (unfold u64_max; lia). apply N.Div0.mod_add. }
    destruct t; cbn in Hs; simplify_eq/=; cbn [served] in Hc; split_and!; try done; try (apply Forall_insert; [done|]; cbn; unfold elapsed_nanos_u64; try case_match; (done || lia)).
    + rewrite Ha, Hup. f_equal. lia.
    + set (t := if (active_clients p =? 1)%N then ClientClock else ClientGone) in *.
      assert (count_if served ts = count_if served (<[i := t]> ts) + 1) as Hd by (subst t; case_match; cbn in Hc; lia).
      rewrite Ha, Hd, Nat2N.inj_add. apply Hdown.
    + rewrite Ha. f_equal. lia.
    + rewrite Ha. f_equal. lia.
Qed.

(** Clients are counted exactly, whatever the order of their comings and goings: the
    number of active clients is the number of those being served, so pools are not cleared
    for being idle while a client is served, and the time of the last activity never lies
    in the future. *)
Theorem clients_counted s timeouts :
  rtc clients_step (mkClients 0 new_proxy [] 0) s → (N.of_nat (length (tasks s)) < 2 ^ 64)%N →
  active_clients (proxy s) = N.of_nat (count_if served (tasks s)) ∧ (last_activity_nanos (proxy s) <= clock s)%N ∧
  (ClientServed ∈ tasks s → check_and_clear_stale_pools (clock s) timeouts (proxy s) = []).
Proof.
  intros Hrun Hlen. assert (clients_ok s) as (Ha & Hl & _).
  { assert (clients_ok (mkClients 0 new_proxy [] 0)) as H0 by (split_and!; [done|done|constructor]).
    revert H0. clear Hlen. induction Hrun; eauto using clients_step_ok. }
  pose proof (count_if_le served (tasks s)). assert (active_clients (proxy s) = N.of_nat (count_if served (tasks s))) as Hn.
  { rewrite Ha. apply N.mod_small. lia. }
  split_and!; [done|done|]. intros [i Hi]%list_elem_of_lookup. unfold check_and_clear_stale_pools. rewrite Hn.
  pose proof (count_if_pos served (tasks s) i _ Hi eq_refl). by destruct (N.ltb_spec 0 (N.of_nat (count_if served (tasks s)))); [|lia].
Qed.

(** Two clients that leave at almost the same time: the first takes the time and is
    delayed, the second stores a later time, which the first overwrites; an idle timeout of
    50 has then passed after 40. *)
Example idle_clock_race :
  ∃ p, rtc clients_step (mkClients 0 new_proxy [] 0) (mkClients 190 p [ClientGone; ClientGone] 150) ∧
    last_activity_nanos p = 100%N ∧ check_and_clear_stale_pools 190 [50%N] p = [0].
Proof.
  exists (mkProxy 0 100). split; [|by vm_compute].
  eapply rtc_l; [apply cs_accept|]. eapply rtc_l; [apply (cs_client _ _ _ _ 0 ClientArrives); reflexivity|].
  eapply rtc_l; [apply (cs_tick _ 100); lia|]. eapply rtc_l; [apply (cs_client _ _ _ _ 0 ClientServed); reflexivity|].
  eapply rtc_l; [apply (cs_client _ _ _ _ 0 ClientClock); reflexivity|]. eapply rtc_l; [apply cs_accept|].
  eapply rtc_l; [apply (cs_client _ _ _ _ 1 ClientArrives); reflexivity|]. eapply rtc_l; [apply (cs_tick _ 150); lia|].
  eapply rtc_l; [apply (cs_client _ _ _ _ 1 ClientServed); reflexivity|].
  eapply rtc_l; [apply (cs_client _ _ _ _ 1 ClientClock); reflexivity|].
  eapply rtc_l; [apply (cs_client _ _ _ _ 1 (ClientStores 150)); reflexivity|].
  eapply rtc_l; [apply (cs_client _ _ _ _ 0 (ClientStores 100)); reflexivity|]. eapply rtc_l; [apply (cs_tick _ 190); lia|]. apply rtc_refl.
Qed.

(** A timeout of zero, documented as no timeout, clears the pool at the first check. *)
Example zero_timeout_clears now : (0 < now)%N → check_and_clear_stale_pools now [0%N] new_proxy = [0].
Proof. intros Hn. unfold check_and_clear_stale_pools. cbn. rewrite N.sub_0_r, decide_True by by apply N.ltb_lt. done. Qed.

(** ** Bytes of a session *)

Lemma flush_actions_total backend names ds :
  total (CBackend backend FBytesSent) (flush_actions backend names ds) = foldr N.add 0%N ds.*1 ∧
  total (CBackend backend FBytesReceived) (flush_actions backend names ds) = foldr N.add 0%N ds.*2.
Proof.
  revert names. induction ds as [|[c b] ds IH]; intros names; [done|]. cbn [flush_actions fmap list_fmap foldr]. rewrite !total_app.
  destruct (IH (λ k, names (S k))) as [-> ->].
  split; f_equal; unfold delta_actions; rewrite total_app; cbn [fst snd]; destruct (N.ltb_spec 0 c), (N.ltb_spec 0 b);
    unfold total; cbn; repeat case_decide; simplify_eq; lia.
Qed.

(** C40 The bytes of a session in stateful mode are counted twice.  When a client of a proxy
    in stateful mode has been served, its lines and the replies have been reported to the
    counters of the backend while the session ran, and the totals are recorded again at
    its end: the counters grow by twice the bytes that were transferred. *)
Theorem stateful_bytes_counted_twice {MC : Memchr} t h peer reader client backend names rounds :
  let '(r, s) := handle_stateful_session t h (Some peer) reader client rounds in
  ∀ c b fate, r = Ok (SessionOver (Ok (c, b)) fate) →
    ∃ p, sent (s_client s) = sent client ++ p ∧
      let l := handle_client_actions backend names s (Ok (c, b)) in
      ((wire_total (s_written s) <= u64_max)%N → total (CBackend backend FBytesSent) l = 2 * wire_total (s_written s))%N ∧
      ((N.of_nat (length p) <= u64_max)%N → total (CBackend backend FBytesReceived) l = 2 * N.of_nat (length p))%N.
Proof.
  unfold handle_stateful_session. pose proof (stateful_bytes_spec t h peer reader client 0 0 (is_enabled h) None [] rounds ltac:(done) ltac:(done)) as H.
  change (from_initial_bytes 0 0 (is_enabled h)) with (new_loop_state (is_enabled h)) in H.
  destruct (run_stateful_proxy_loop t peer h rounds _) as [r s]. intros c b fate [= Hr].
  destruct r as [[|d [c' b']]|e]; cbn in Hr; simplify_eq. destruct (H d c b eq_refl) as (p & ws & Hp & Hw & -> & -> & Hc & Hb).
  exists p. split; [done|]. cbn in Hw. subst ws. rewrite !N.add_0_l in *. unfold handle_client_actions. rewrite !total_app.
  destruct (flush_actions_total backend names (s_reported s)) as [-> ->]. unfold wrap64.
  assert (∀ n, (n <= u64_max)%N → n mod 2 ^ 64 = n)%N as Hm by (intros; apply N.mod_small; unfold u64_max in *; lia).
  split; intros Hle; [rewrite (Hc Hle), (Hm (wire_total _)) by done|rewrite (Hb Hle), (Hm (N.of_nat _)) by done];
    unfold total; cbn; repeat case_decide; simplify_eq; lia.
Qed.

Definition sample_session : result SessionError StatefulSession * Session :=
  handle_stateful_session (MC := naive_memchr) Scanner.Generic ∅ (Some sample_peer) stateful_input (mkWriter [] []) 30.

(** A session of 23 bytes to the backend is recorded as 46. *)
Lemma stateful_bytes_counted_twice_witness :
  sample_session.1 = Ok (SessionOver (Ok (23, 77)%N) RemovedClean) ∧
  total (CBackend 0 FBytesSent) (handle_client_actions 0 (λ _, None) sample_session.2 (Ok (23, 77)%N)) = 46%N.
Proof.
  assert (sample_session.1 = Ok (SessionOver (Ok (23, 77)%N) RemovedClean) ∧ wire_total (s_written sample_session.2) = 23%N) as [Hr Hw].
  { vm_compute. split; reflexivity. }
  split; [exact Hr|]. revert Hr Hw. unfold sample_session.
  pose proof (stateful_bytes_counted_twice (MC := naive_memchr) Scanner.Generic ∅ sample_peer stateful_input (mkWriter [] []) 0 (λ _, None) 30) as H.
  revert H. generalize (handle_stateful_session (MC := naive_memchr) Scanner.Generic ∅ (Some sample_peer) stateful_input (mkWriter [] []) 30).
  intros [r s] H Hr Hw. destruct (H _ _ _ Hr) as (p & _ & Hs & _). cbn [snd] in Hw |- *. rewrite Hs; rewrite Hw; [reflexivity|discriminate].
Defined.

Lemma clients_counted_witness :
  ∃ s, rtc clients_step (mkClients 0 new_proxy [] 0) s ∧ active_clients (proxy s) = 1%N ∧ check_and_clear_stale_pools (clock s) [5%N] (proxy s) = [].
Proof.
  assert (rtc clients_step (mkClients 0 new_proxy [] 0) (mkClients 9 (mkProxy 1 0) [ClientServed] 0)) as Hrun.
  { eapply rtc_l; [apply cs_accept|]. eapply rtc_l; [apply (cs_client _ _ _ _ 0 ClientArrives); reflexivity|].
    eapply rtc_l; [apply (cs_tick _ 9); lia|]. apply rtc_refl. }
  eexists. split; [exact Hrun|]. destruct (clients_counted _ [5%N] Hrun) as (Ha & _ & Hc); [reflexivity|].
  split; [exact Ha|]. apply Hc. left.
Defined.
