(* ===== verification/Config.v ===== *)
(** * Config: the configuration and where it comes from

    Models [src/src/config/types.rs], [src/src/config/defaults.rs],
    [src/src/config/validation.rs] and [src/src/config/loading.rs]: the settings with their
    defaults, their validation, the servers of the environment, the overlay of credentials,
    the migration of files of the old layout, and the order in which the sources are tried.

    The parser and the printer of TOML are parameters.  The environment is a finite map,
    the file system too.  A duration is a number of nanoseconds.  Log output,
    file permissions and the texts of errors are left out. *)

From stdpp Require Import pretty.
From S2P Require Import Prelude Protocol Command Wire Availability Index Router.

(** ** Settings *)

Definition from_secs (n : N) : N := n * 1000000000.
Definition from_millis (n : N) : N := n * 1000000.
Definition as_secs (d : N) : N := d / 1000000000.

Record Server := mkServer {
  sv_host : bytes;
  sv_port : N;
  sv_name : bytes;
  sv_username : option bytes;
  sv_password : option bytes;
  sv_max_connections : N;
  sv_stat_missing : N;
  sv_use_tls : bool;
  sv_tls_verify_cert : bool;
  sv_tls_cert_path : option bytes;
  sv_connection_keepalive : option N;
  sv_replacement_cooldown : option N;
  sv_health_check_max_per_cycle : N;
  sv_health_check_pool_timeout : N;
  sv_tier : N;
  sv_compress : option bool;
  sv_compress_level : option N;
  sv_backend_idle_timeout : N }.

(** [Proxy]; the last two fields, the routing mode and the selection strategy are those of
    the old layout. *)
Record ProxySettings := mkProxySettings {
  px_host : bytes;
  px_port : N;
  px_threads : N;
  px_routing_mode : RoutingMode;
  px_backend_selection : BackendSelectionStrategy;
  px_validate_yenc : bool;
  px_log_file_level : bytes;
  px_response_write_metrics_secs : option N;
  px_stats_file : option bytes;
  px_buffer_pool_count : N;
  px_capture_pool_count : N }.

Record QueueBackpressure := mkBackpressure {
  qb_enabled : bool;
  qb_soft : N;
  qb_hard : N;
  qb_all_busy_sleep_ms : N }.

Record Routing := mkRouting {
  rt_routing_mode : RoutingMode;
  rt_backend_selection : BackendSelectionStrategy;
  rt_adaptive_precheck : bool;
  rt_backpressure : QueueBackpressure }.

Record Memory := mkMemory {
  socket_recv_buffer_size : N;
  socket_send_buffer_size : N;
  buffer_pool_size : N;
  buffer_pool_count : N;
  capture_pool_size : N;
  capture_pool_count : N }.

Inductive CompressionCodec := CodecNone | CodecLz4 | CodecZstd.

Record DiskCache := mkDiskCache {
  dc_path : bytes;
  dc_capacity : N;
  dc_compression : CompressionCodec;
  dc_shards : N }.

(** [Cache]; [cc_adaptive_precheck] is a field of the old layout. *)
Record CacheSettings := mkCacheSettings {
  cc_capacity : N;
  cc_ttl : N;
  cc_store_article_bodies : bool;
  cc_disk : option DiskCache;
  cc_index_path : option bytes;
  cc_adaptive_precheck : bool }.

Record HealthCheck := mkHealthCheck {
  hc_interval : N;
  hc_timeout : N;
  hc_unhealthy_threshold : N }.

(** [ClientAuth]: a user is a name and a password. *)
Record ClientAuth := mkClientAuth { ca_greeting : option bytes; ca_users : list (bytes * bytes) }.

Record Config := mkConfig {
  cf_proxy : ProxySettings;
  cf_routing : Routing;
  cf_memory : Memory;
  cf_cache : option CacheSettings;
  cf_health_check : HealthCheck;
  cf_client_auth : ClientAuth;
  cf_servers : list Server }.

(** ** Defaults *)

Definition default_proxy : ProxySettings :=
  mkProxySettings (bs "0.0.0.0") 8119 1 RmHybrid LeastLoaded true (bs "warn") None None 100 16.

Definition default_backpressure : QueueBackpressure := mkBackpressure true 25 50 1.

Definition default_routing : Routing := mkRouting RmHybrid LeastLoaded false default_backpressure.

Definition default_memory : Memory :=
  mkMemory (16 * 1024 * 1024) (16 * 1024 * 1024) (1024 * 1024) 100 (1024 * 1024) 16.

Definition default_cache : CacheSettings := mkCacheSettings (64 * 1024 * 1024) (from_secs 3600) false None None false.

Definition default_health_check : HealthCheck := mkHealthCheck (from_secs 30) (from_secs 5) 3.

Definition default_config : Config :=
  mkConfig default_proxy default_routing default_memory None default_health_check (mkClientAuth None []) [].

Definition default_max_connections : N := 10.
Definition health_check_max_per_cycle : N := 5.
Definition health_check_pool_timeout : N := from_millis 100.
Definition backend_idle_timeout : N := from_secs 600.
Definition replacement_cooldown_option : option N := Some (from_secs 30).

(** [create_default_config] *)
Definition create_default_config : Config :=
  let c := default_config in
  mkConfig (cf_proxy c) (cf_routing c) (cf_memory c) (cf_cache c) (cf_health_check c) (cf_client_auth c)
    [mkServer (bs "news.example.com") 119 (bs "Example News Server") None None default_max_connections 0 false true None None
       replacement_cooldown_option health_check_max_per_cycle health_check_pool_timeout 0 None None backend_idle_timeout].

Definition set_servers (servers : list Server) (c : Config) : Config :=
  mkConfig (cf_proxy c) (cf_routing c) (cf_memory c) (cf_cache c) (cf_health_check c) (cf_client_auth c) servers.

Definition set_users (users : list (bytes * bytes)) (c : Config) : Config :=
  mkConfig (cf_proxy c) (cf_routing c) (cf_memory c) (cf_cache c) (cf_health_check c)
    (mkClientAuth (ca_greeting (cf_client_auth c)) users) (cf_servers c).

Definition set_routing (r : Routing) (c : Config) : Config :=
  mkConfig (cf_proxy c) r (cf_memory c) (cf_cache c) (cf_health_check c) (cf_client_auth c) (cf_servers c).

Definition set_memory (m : Memory) (c : Config) : Config :=
  mkConfig (cf_proxy c) (cf_routing c) m (cf_cache c) (cf_health_check c) (cf_client_auth c) (cf_servers c).

(** ** Validation *)

Inductive ConfigError :=
| NoServers
| TooManyServers
| RecvBufferTooLarge
| SendBufferTooLarge
| LimitsOutOfOrder
| CredentialsIncomplete (name : bytes).

Definition MAX_SOCKET_BUFFER_SIZE : N := 2 ^ 32 - 1.

Definition validate_socket_buffer_size (e : ConfigError) (size : N) : result ConfigError unit :=
  ensure e (negb (MAX_SOCKET_BUFFER_SIZE <? size)%N).

(** [QueueBackpressure::limits] *)
Definition limits (q : QueueBackpressure) : option QueuePressureLimits := limits_try_new (qb_soft q) (qb_hard q).

Definition is_some {A} (o : option A) : bool := match o with Some _ => true | None => false end.

(** [validate_server]; keep-alive intervals out of range only give a warning. *)
Definition validate_server (s : Server) : result ConfigError unit :=
  ensure (CredentialsIncomplete (sv_name s)) (Bool.eqb (is_some (sv_username s)) (is_some (sv_password s))).

Fixpoint validate_servers (l : list Server) : result ConfigError unit :=
  match l with
  | [] => Ok ()
  | s :: l => _ ← validate_server s; validate_servers l
  end.

(** [Config::validate] *)
Definition validate (c : Config) : result ConfigError unit :=
  _ ← ensure NoServers (negb (bool_decide (cf_servers c = [])));
  _ ← ensure TooManyServers (negb (MAX_BACKENDS <? length (cf_servers c)));
  _ ← validate_socket_buffer_size RecvBufferTooLarge (socket_recv_buffer_size (cf_memory c));
  _ ← validate_socket_buffer_size SendBufferTooLarge (socket_send_buffer_size (cf_memory c));
  _ ← ensure LimitsOutOfOrder (is_some (limits (rt_backpressure (cf_routing c))));
  validate_servers (cf_servers c).

(** ** Servers of the environment *)

Abbreviation Env := (@gmap (list byte) list_eq_dec list_countable (list byte)).

(** [format!("NNTP_SERVER_{index}_HOST")] and the like. *)
Definition server_key (index : N) (suffix : bytes) : bytes := bs "NNTP_SERVER_" ++ bs (pretty index) ++ bs "_" ++ suffix.

Definition host_key (index : N) : bytes := server_key index (bs "HOST").

(** [str::parse] of an unsigned type with the greatest value [max], and of [bool]. *)
Definition parse_uint (max : N) (s : bytes) : option N :=
  v ← parse_u64 s; if (v <=? max)%N then Some v else None.

Definition parse_bool (s : bytes) : option bool :=
  if bool_decide (s = bs "true") then Some true else if bool_decide (s = bs "false") then Some false else None.

(** [HostName::try_new], [ServerName::try_new], [Port::try_new] and [MaxConnections::try_new]. *)
Definition non_blank (s : bytes) : option bytes :=
  let s := str_trim s in if bool_decide (s = []) then None else Some s.

Definition non_zero (n : N) : option N := if (n =? 0)%N then None else Some n.

(** The values of the environment that make the program panic. *)
Inductive EnvPanic := InvalidTier | InvalidHostname | InvalidPort | InvalidServerName.

(** [parse_server_from_env] *)
Definition parse_server_from_env (index : N) (env : Env) : result EnvPanic (option Server) :=
  let get suffix : option bytes := env !! server_key index (bs suffix) in
  match env !! host_key index with
  | None => Ok None
  | Some host =>
      let port := default 119%N (get "PORT"%string ≫= parse_uint 65535) in
      let name := default (bs "Server " ++ bs (pretty index)) (get "NAME"%string) in
      let max_connections := default default_max_connections ((get "MAX_CONNECTIONS"%string ≫= parse_u64) ≫= non_zero) in
      let use_tls := default false (get "USE_TLS"%string ≫= parse_bool) in
      let tls_verify_cert := default true (get "TLS_VERIFY_CERT"%string ≫= parse_bool) in
      let connection_keepalive := from_secs <$> (get "CONNECTION_KEEPALIVE"%string ≫= parse_u64) in
      let max_per_cycle := default health_check_max_per_cycle (get "HEALTH_CHECK_MAX_PER_CYCLE"%string ≫= parse_u64) in
      let pool_timeout := from_option from_secs health_check_pool_timeout (get "HEALTH_CHECK_POOL_TIMEOUT"%string ≫= parse_u64) in
      tier ← (match get "TIER"%string with None => Ok 0%N | Some t => ok_or InvalidTier (parse_uint 255 t) end : result EnvPanic N);
      let stat_missing := default 0%N (get "STAT_MISSING"%string ≫= parse_uint 255) in
      host ← ok_or InvalidHostname (non_blank host);
      port ← ok_or InvalidPort (non_zero port);
      name ← ok_or InvalidServerName (non_blank name);
      Ok (Some (mkServer host port name (get "USERNAME"%string) (get "PASSWORD"%string) max_connections stat_missing use_tls
        tls_verify_cert (get "TLS_CERT_PATH"%string) connection_keepalive replacement_cooldown_option max_per_cycle pool_timeout
        tier None None backend_idle_timeout))
  end.

(** [(0..).map_while(...).collect()]; the fuel is that of [env_servers_enough]. *)
Fixpoint env_servers (fuel : nat) (index : N) (env : Env) : option (result EnvPanic (list Server)) :=
  match fuel with
  | 0 => None
  | S fuel =>
      match parse_server_from_env index env with
      | Err e => Some (Err e)
      | Ok None => Some (Ok [])
      | Ok (Some s) => r ← env_servers fuel (index + 1) env; Some (l ← r; Ok (s :: l))
      end
  end.

(** [load_servers_from_env_provider] *)
Definition load_servers_from_env_provider (env : Env) : result EnvPanic (option (list Server)) :=
  servers ← default (Ok []) (env_servers (S (size env)) 0 env);
  Ok (match servers with [] => None | _ => Some servers end).

(** [has_server_env_vars] *)
Definition has_server_env_vars (env : Env) : bool := is_some (env !! bs "NNTP_SERVER_0_HOST").

(** ** Servers built by programs *)

Record ServerBuilder := mkServerBuilder {
  sb_host : bytes;
  sb_port : N;
  sb_name : option bytes;
  sb_username : option bytes;
  sb_password : option bytes;
  sb_max_connections : option N;
  sb_stat_missing : N;
  sb_use_tls : bool;
  sb_tls_verify_cert : bool;
  sb_tls_cert_path : option bytes;
  sb_connection_keepalive : option N;
  sb_replacement_cooldown : option N;
  sb_health_check_max_per_cycle : option N;
  sb_health_check_pool_timeout : option N;
  sb_tier : N;
  sb_compress : option bool;
  sb_compress_level : option N;
  sb_backend_idle_timeout : option N }.

(** [ServerBuilder::new] *)
Definition new_server_builder (host : bytes) (port : N) : ServerBuilder :=
  mkServerBuilder host port None None None None 0 false true None None None None None 0 None None None.

Inductive ServerBuildError := UnpairedCredentials | BlankHost | BlankName.

(** [ServerBuilder::build] *)
Definition server_build (b : ServerBuilder) : result ServerBuildError Server :=
  _ ← ensure UnpairedCredentials (Bool.eqb (is_some (sb_username b)) (is_some (sb_password b)));
  host ← ok_or BlankHost (non_blank (sb_host b));
  name ← ok_or BlankName (non_blank (default (sb_host b ++ bs ":" ++ bs (pretty (sb_port b))) (sb_name b)));
  Ok (mkServer host (sb_port b) name (sb_username b) (sb_password b) (default default_max_connections (sb_max_connections b)) (sb_stat_missing b)
    (sb_use_tls b) (sb_tls_verify_cert b) (sb_tls_cert_path b) (sb_connection_keepalive b)
    (match sb_replacement_cooldown b with Some d => Some d | None => replacement_cooldown_option end)
    (default health_check_max_per_cycle (sb_health_check_max_per_cycle b)) (default health_check_pool_timeout (sb_health_check_pool_timeout b))
    (sb_tier b) (sb_compress b) (sb_compress_level b) (default backend_idle_timeout (sb_backend_idle_timeout b))).

(** ** The overlay of credentials *)

Record ServerCredentialsOverlay := mkServerOverlay {
  so_name : bytes;
  so_username : option bytes;
  so_password : option bytes }.

Record CredentialsOverlay := mkOverlay { ov_servers : list ServerCredentialsOverlay; ov_users : list (bytes * bytes) }.

Definition set_credentials (o : ServerCredentialsOverlay) (s : Server) : Server :=
  let pick new old := match new with Some x => Some x | None => old end in
  mkServer (sv_host s) (sv_port s) (sv_name s) (pick (so_username o) (sv_username s)) (pick (so_password o) (sv_password s))
    (sv_max_connections s) (sv_stat_missing s) (sv_use_tls s) (sv_tls_verify_cert s) (sv_tls_cert_path s) (sv_connection_keepalive s)
    (sv_replacement_cooldown s) (sv_health_check_max_per_cycle s) (sv_health_check_pool_timeout s) (sv_tier s) (sv_compress s)
    (sv_compress_level s) (sv_backend_idle_timeout s).

(** The first server of the name; [None] is the error of an unknown name. *)
Definition overlay_server (servers : list Server) (o : ServerCredentialsOverlay) : option (list Server) :=
  i ← position (λ s, bool_decide (sv_name s = so_name o)) servers; Some (alter (set_credentials o) i servers).

Fixpoint overlay_servers (servers : list Server) (os : list ServerCredentialsOverlay) : option (list Server) :=
  match os with
  | [] => Some servers
  | o :: os => servers ← overlay_server servers o; overlay_servers servers os
  end.

Definition overlay_user (users : list (bytes * bytes)) (u : bytes * bytes) : list (bytes * bytes) :=
  match position (λ e : bytes * bytes, bool_decide (e.1 = u.1)) users with
  | Some i => alter (λ e, (e.1, u.2)) i users
  | None => users ++ [u]
  end.

(** [apply_credentials_overlay] behind the parser. *)
Definition apply_overlay (c : Config) (o : CredentialsOverlay) : option Config :=
  servers ← overlay_servers (cf_servers c) (ov_servers o);
  Some (set_users (foldl overlay_user (ca_users (cf_client_auth c)) (ov_users o)) (set_servers servers c)).

(** ** TOML *)

Inductive Value :=
| VString (s : bytes)
| VInteger (z : Z)
| VBoolean (b : bool)
| VTable (entries : list (bytes * Value))
| VOther.

(** The TOML library with the derived readers and writers of the settings; [to_string]
    fails on numbers that TOML does not have. *)
Class Toml := {
  value_from_str : bytes → option Value;
  config_from_str : bytes → option Config;
  overlay_from_str : bytes → option CredentialsOverlay;
  to_string : Config → option bytes;
  to_routing_mode : Value → option RoutingMode;
  to_selection : Value → option BackendSelectionStrategy;
  to_usize : Value → option N;
  to_bool : Value → option bool }.

Definition value_get (v : Value) (key : bytes) : option Value :=
  match v with VTable l => snd <$> find (λ e : bytes * Value, bool_decide (e.1 = key)) l | _ => None end.

Definition table (v : Value) (key : bytes) : option Value :=
  match value_get v key with Some (VTable l) => Some (VTable l) | _ => None end.

Definition table_has_key (v : Value) (section key : bytes) : bool :=
  match table v section with Some t => is_some (value_get t key) | None => false end.

Definition table_has_any_key (v : Value) (section : bytes) (keys : list bytes) : bool := existsb (table_has_key v section) keys.

(** Files by their paths. *)
Abbreviation ConfigFiles := (@gmap (list byte) list_eq_dec list_countable (list byte)).

(** ** Migration of the old layout *)

Section Loading.
Context `{T : Toml}.

(** [assign_from_table]: the target and whether it was assigned. *)
Definition assign_from_table {A} (conv : Value → option A) (target : A) (source : Value) (key : bytes) : A * bool :=
  match value_get source key ≫= conv with Some a => (a, true) | None => (target, false) end.

Definition migrate_proxy_routing (c : Config) (raw : Value) : Config * bool :=
  match table raw (bs "proxy") with
  | None => (c, false)
  | Some proxy =>
      let r := cf_routing c in
      let '(mode, m1) :=
        if negb (table_has_any_key raw (bs "routing") [bs "mode"; bs "routing_mode"])
        then assign_from_table to_routing_mode (rt_routing_mode r) proxy (bs "routing_mode") else (rt_routing_mode r, false) in
      let '(selection, m2) :=
        if negb (table_has_any_key raw (bs "routing") [bs "backend_selection"; bs "strategy"])
        then assign_from_table to_selection (rt_backend_selection r) proxy (bs "backend_selection") else (rt_backend_selection r, false) in
      (set_routing (mkRouting mode selection (rt_adaptive_precheck r) (rt_backpressure r)) c, m1 || m2)
  end.

Definition migrate_proxy_memory (c : Config) (raw : Value) : Config * bool :=
  match table raw (bs "proxy") with
  | None => (c, false)
  | Some proxy =>
      let m := cf_memory c in
      let '(count, m1) :=
        if negb (table_has_key raw (bs "memory") (bs "buffer_pool_count"))
        then assign_from_table to_usize (buffer_pool_count m) proxy (bs "buffer_pool_count") else (buffer_pool_count m, false) in
      let '(captures, m2) :=
        if negb (table_has_key raw (bs "memory") (bs "capture_pool_count"))
        then assign_from_table to_usize (capture_pool_count m) proxy (bs "capture_pool_count") else (capture_pool_count m, false) in
      (set_memory (mkMemory (socket_recv_buffer_size m) (socket_send_buffer_size m) (buffer_pool_size m) count (capture_pool_size m) captures) c,
       m1 || m2)
  end.

Definition migrate_cache_precheck (c : Config) (raw : Value) : Config * bool :=
  if negb (table_has_key raw (bs "routing") (bs "adaptive_precheck")) then
    match table raw (bs "cache") with
    | None => (c, false)
    | Some cache =>
        let r := cf_routing c in
        let '(precheck, m) := assign_from_table to_bool (rt_adaptive_precheck r) cache (bs "adaptive_precheck") in
        (set_routing (mkRouting (rt_routing_mode r) (rt_backend_selection r) precheck (rt_backpressure r)) c, m)
    end
  else (c, false).

Definition as_str (v : Value) : option bytes := match v with VString s => Some s | _ => None end.

Definition migrate_client_auth_users (c : Config) (raw : Value) : Config * bool :=
  if bool_decide (ca_users (cf_client_auth c) = []) then
    match table raw (bs "client_auth") ≫= λ t, u ← value_get t (bs "username") ≫= as_str; p ← value_get t (bs "password") ≫= as_str; Some (u, p) with
    | Some user => (set_users [user] c, true)
    | None => (c, false)
    end
  else (c, false).

(** [migrate_legacy_config] *)
Definition migrate_legacy_config (c : Config) (raw : Value) : Config * bool :=
  let '(c, m1) := migrate_proxy_routing c raw in
  let '(c, m2) := migrate_proxy_memory c raw in
  let '(c, m3) := migrate_cache_precheck c raw in
  let '(c, m4) := migrate_client_auth_users c raw in
  (c, m1 || m2 || m3 || m4).

(** ** Rewriting the file *)

(** What goes wrong, with the part of the file that has been written by then. *)
Inductive RewriteFault :=
| RewriteOk
| CopyFails (part : option bytes)
| WriteTmpFails (part : option bytes)
| PermissionsFail
| RenameConfigFails.

Definition written (path : bytes) (part : option bytes) (files : ConfigFiles) : ConfigFiles :=
  match part with Some p => <[path := p]> files | None => files end.

(** [fs::rename] *)
Definition rename (tmp path : bytes) (files : ConfigFiles) : ConfigFiles :=
  match files !! tmp with Some content => delete tmp (<[path := content]> files) | None => files end.

Definition path_with_suffix (path suffix : bytes) : bytes := path ++ suffix.

(** [write_canonical_config]: the successive states of the file system, and whether it
    succeeds. *)
Definition write_canonical_config (fault : RewriteFault) (path : bytes) (c : Config) (files : ConfigFiles) : list ConfigFiles * bool :=
  match to_string c, files !! path with
  | Some canonical, Some old =>
      let backup_path := path_with_suffix path (bs ".bak") in
      let tmp_path := path_with_suffix path (bs ".tmp") in
      let copied := <[backup_path := old]> files in
      let full := <[tmp_path := canonical]> copied in
      match fault with
      | CopyFails part => ([written backup_path part files], false)
      | WriteTmpFails part => ([copied; written tmp_path part copied], false)
      | PermissionsFail | RenameConfigFails => ([copied; full], false)
      | RewriteOk => ([copied; full; rename tmp_path path full], true)
      end
  | _, _ => ([], false)
  end.

(** ** Loading *)

Inductive LoadError :=
| ReadFailed
| ParseFailed
| EnvPanicked (e : EnvPanic)
| NoEnvServers
| OverlayReadFailed
| OverlayParseFailed
| OverlayUnknownServer
| InvalidConfig (e : ConfigError)
| SerializeFailed
| WriteDefaultFailed.

Definition CREDENTIALS_FILE_ENV : bytes := bs "NNTP_PROXY_CREDENTIALS_FILE".

(** [apply_credentials_overlay] *)
Definition apply_credentials_overlay (c : Config) (overlay_path : bytes) (files : ConfigFiles) : result LoadError Config :=
  match files !! overlay_path with
  | None => Err OverlayReadFailed
  | Some content =>
      match overlay_from_str content with
      | None => Err OverlayParseFailed
      | Some o => match apply_overlay c o with Some c => Ok c | None => Err OverlayUnknownServer end
      end
  end.

Definition apply_credentials_overlay_from_env (c : Config) (env : Env) (files : ConfigFiles) : result LoadError Config :=
  match env !! CREDENTIALS_FILE_ENV with None => Ok c | Some overlay_path => apply_credentials_overlay c overlay_path files end.

(** [load_config_from_env_provider] *)
Definition load_config_from_env_provider (env : Env) (files : ConfigFiles) : result LoadError Config :=
  servers ← map_err EnvPanicked (load_servers_from_env_provider env);
  match servers with
  | None => Err NoEnvServers
  | Some servers =>
      c ← apply_credentials_overlay_from_env (set_servers servers default_config) env files;
      _ ← map_err InvalidConfig (validate c);
      Ok c
  end.

(** The part of [load_config_with_env_provider] behind the migration. *)
Definition finish_config (c : Config) (env : Env) (files : ConfigFiles) : result LoadError Config :=
  servers ← map_err EnvPanicked (load_servers_from_env_provider env);
  c ← apply_credentials_overlay_from_env (match servers with Some servers => set_servers servers c | None => c end) env files;
  _ ← map_err InvalidConfig (validate c);
  Ok c.

(** [load_config_with_env_provider], with the states of the file system it leaves behind.
    A file that is not text is one that does not parse. *)
Definition load_config_with_env_provider (fault : RewriteFault) (path : bytes) (env : Env) (files : ConfigFiles)
    : result LoadError Config * list ConfigFiles :=
  match files !! path with
  | None => (Err ReadFailed, [])
  | Some content =>
      match value_from_str content, config_from_str content with
      | Some raw, Some c =>
          let '(file_config, migrated) := migrate_legacy_config c raw in
          let '(c, states) :=
            if migrated then (file_config, (write_canonical_config fault path file_config files).1) else (c, []) in
          (finish_config c env (default files (last states)), states)
      | _, _ => (Err ParseFailed, [])
      end
  end.

Inductive ConfigSource := SourceFile | SourceEnvironment | SourceDefaultCreated.

(** [load_config_with_fallback]; [default_write] says what writing the default file
    leaves behind when it fails. *)
Definition load_config_with_fallback (fault : RewriteFault) (default_write : option (option bytes)) (path : bytes) (env : Env)
    (files : ConfigFiles) : result LoadError (Config * ConfigSource) * list ConfigFiles :=
  if is_some (files !! path) then
    let '(r, states) := load_config_with_env_provider fault path env files in
    (c ← r; Ok (c, SourceFile), states)
  else if has_server_env_vars env then (c ← load_config_from_env_provider env files; Ok (c, SourceEnvironment), [])
  else
    match to_string create_default_config with
    | None => (Err SerializeFailed, [])
    | Some config_toml =>
        match default_write with
        | Some part => (Err WriteDefaultFailed, [written path part files])
        | None => (Ok (create_default_config, SourceDefaultCreated), [<[path := config_toml]> files])
        end
    end.
End Loading.

(** ** The servers of the environment are found *)

Lemma bs_inj s s' : bs s = bs s' → s = s'.
Proof. intros H. rewrite <- (String.string_of_list_byte_of_string s), <- (String.string_of_list_byte_of_string s'). unfold bs in H. by rewrite H. Qed.

Lemma server_key_inj i j suffix : server_key i suffix = server_key j suffix → i = j.
Proof. unfold server_key. intros H%app_inv_head%app_inv_tail%bs_inj. by apply (inj pretty) in H. Qed.

(** What the validated types of a server promise. *)
Record server_ok (s : Server) : Prop := {
  sk_host : ∃ h, non_blank h = Some (sv_host s);
  sk_name : ∃ n, non_blank n = Some (sv_name s);
  sk_port : (0 < sv_port s <= 65535)%N;
  sk_connections : (0 < sv_max_connections s <= u64_max)%N;
  sk_tier : (sv_tier s <= 255)%N }.

Lemma result_bind_Ok {E A B} (m : result E A) (f : A → result E B) b : m ≫= f = Ok b → ∃ a, m = Ok a ∧ f a = Ok b.
Proof. destruct m as [a|e]; [eauto|done]. Qed.

Lemma ok_or_Ok {E A} (e : E) (o : option A) a : ok_or e o = Ok a ↔ o = Some a.
Proof. destruct o; cbn; split; congruence. Qed.

Lemma ensure_Ok {E} (e : E) b u : ensure e b = Ok u ↔ b = true.
Proof. destruct b, u; cbn; split; congruence. Qed.

Lemma non_zero_Some n m : non_zero n = Some m ↔ m = n ∧ (0 < n)%N.
Proof. unfold non_zero. destruct (N.eqb_spec n 0); [|naive_solver lia]. split; [done|lia]. Qed.

Lemma parse_u64_max s n : parse_u64 s = Some n → (n <= u64_max)%N.
Proof.
  unfold parse_u64. match goal with |- context [bool_decide (?d = [])] => generalize d end. intros digits. destruct (_ && _); [|done].
  match goal with |- context [(?v <=? u64_max)%N] => destruct (N.leb_spec v u64_max) as [Hv|] end; [|done]. by intros [= <-].
Qed.

Lemma parse_uint_max max s n : parse_uint max s = Some n → (n <= max)%N.
Proof. unfold parse_uint. destruct (parse_u64 s); cbn; [|done]. destruct (N.leb_spec n0 max); [|done]. by intros [= <-]. Qed.

Lemma parse_server_ok index env o :
  parse_server_from_env index env = Ok o →
  match o with None => env !! host_key index = None | Some s => is_Some (env !! host_key index) ∧ server_ok s end.
Proof.
  unfold parse_server_from_env. destruct (env !! host_key index) as [host|] eqn:Eh; [|by intros [= <-]].
  intros (t & Ht & H)%result_bind_Ok. apply result_bind_Ok in H as (h & Hh%ok_or_Ok & H).
  apply result_bind_Ok in H as (p & Hp%ok_or_Ok%non_zero_Some & H). apply result_bind_Ok in H as (n & Hn%ok_or_Ok & H).
  injection H as <-. split; [done|]. destruct Hp as [-> Hp]. constructor; cbn [sv_host sv_name sv_port sv_max_connections sv_tier]; eauto.
  - split; [done|]. destruct (_ ≫= parse_uint 65535) as [q|] eqn:E; [|done]. cbn. apply bind_Some in E as (x & _ & Hx). by apply parse_uint_max in Hx.
  - destruct (_ ≫= non_zero) as [q|] eqn:E; [|done]. cbn. apply bind_Some in E as (x & Hx & [-> ?]%non_zero_Some).
    apply bind_Some in Hx as (y & _ & Hy%parse_u64_max). done.
  - destruct (env !! server_key index (bs "TIER")); [apply ok_or_Ok, parse_uint_max in Ht; done|]. injection Ht as <-. done.
Qed.

Lemma parse_absent index env : parse_server_from_env index env = Ok None ↔ env !! host_key index = None.
Proof. split; [apply (parse_server_ok index env None)|]. intros H. unfold parse_server_from_env. by rewrite H. Qed.

(** A server built by a program passes the validation of the configuration. *)
Lemma server_build_valid b s :
  (0 < sb_port b <= 65535)%N → (∀ n, sb_max_connections b = Some n → 0 < n <= u64_max)%N → (sb_tier b <= 255)%N →
  server_build b = Ok s → server_ok s ∧ validate_server s = Ok ().
Proof.
  intros Hp Hm Ht (u & Hu%ensure_Ok & H)%result_bind_Ok. apply result_bind_Ok in H as (h & Hh%ok_or_Ok & H).
  apply result_bind_Ok in H as (n & Hn%ok_or_Ok & [= <-]). split; [|unfold validate_server; cbn; by rewrite Hu].
  constructor; cbn [sv_host sv_name sv_port sv_max_connections sv_tier]; eauto. destruct (sb_max_connections b) as [m|]; [by apply Hm|done].
Qed.

(** The indices up to the fuel are all present when it runs out. *)
Lemma env_servers_fuel fuel index env :
  env_servers fuel index env = None → ∀ k, (k < N.of_nat fuel)%N → is_Some (env !! host_key (index + k)).
Proof.
  revert index. induction fuel as [|fuel IH]; intros index H k Hk; [lia|]. cbn [env_servers] in H.
  destruct (parse_server_from_env index env) as [[s|]|e] eqn:E; try done.
  destruct (N.eq_dec k 0%N) as [->|Hk0].
  - rewrite N.add_0_r. destruct (env !! host_key index) eqn:Eh; [done|]. apply parse_absent in Eh. congruence.
  - destruct (env_servers fuel (index + 1) env) eqn:Er; [done|]. replace (index + k)%N with (index + 1 + (k - 1))%N by lia.
    apply IH; [done|lia].
Qed.

Lemma env_servers_enough env : is_Some (env_servers (S (size env)) 0 env).
Proof.
  destruct (env_servers (S (size env)) 0 env) eqn:E; [done|exfalso]. pose proof (env_servers_fuel _ _ _ E) as H.
  set (keys := (λ k : nat, host_key (N.of_nat k)) <$> seq 0 (S (size env))).
  assert (NoDup keys) as Hnd by (apply NoDup_fmap_2; [intros a b Hab%server_key_inj; lia|apply NoDup_seq]).
  assert ((list_to_set keys : gset bytes) ⊆ dom env) as Hsub.
  { intros key (k & -> & Hk)%elem_of_list_to_set%list_elem_of_fmap. apply elem_of_dom, (H (N.of_nat k)). apply elem_of_seq in Hk. lia. }
  apply subseteq_size in Hsub. rewrite size_list_to_set, size_dom in Hsub by done. unfold keys in Hsub.
  rewrite length_fmap, length_seq in Hsub. lia.
Qed.

(** What a run over the indices gives, from [index] on. *)
Lemma env_servers_spec fuel index env r :
  env_servers fuel index env = Some r →
  ∃ n : nat, (∀ k, k < n → ∃ s, parse_server_from_env (index + N.of_nat k) env = Ok (Some s)) ∧
  match r with
  | Ok l => env !! host_key (index + N.of_nat n) = None ∧ length l = n ∧
      ∀ k s, l !! k = Some s → parse_server_from_env (index + N.of_nat k) env = Ok (Some s)
  | Err e => parse_server_from_env (index + N.of_nat n) env = Err e
  end.
Proof.
  revert index r. induction fuel as [|fuel IH]; intros index r H; [done|]. cbn [env_servers] in H.
  destruct (parse_server_from_env index env) as [[s|]|e] eqn:E.
  - destruct (env_servers fuel (index + 1) env) as [r'|] eqn:Er; [|done]. cbn in H. injection H as <-.
    destruct (IH _ _ Er) as (n & Hn & Hr). exists (S n).
    assert (∀ k, (index + N.of_nat (S k) = index + 1 + N.of_nat k)%N) as Hs by lia.
    split; [intros [|k] Hk; [rewrite N.add_0_r; eauto|rewrite Hs; apply Hn; lia]|].
    destruct r' as [l|e]; cbn; [|by rewrite Hs]. destruct Hr as (Ha & Hl & Hp). rewrite Hs. split_and!; [done|by f_equal|].
    intros [|k] s' Hk; cbn in Hk; [simplify_eq; by rewrite N.add_0_r|rewrite Hs; by apply Hp].
  - injection H as <-. exists 0. rewrite N.add_0_r. apply parse_absent in E. split_and!; [lia|done|done|]. intros k s Hk. done.
  - injection H as <-. exists 0. rewrite N.add_0_r. split; [lia|done].
Qed.

Lemma load_servers_spec env :
  ∃ n : nat, (∀ k, k < n → ∃ s, parse_server_from_env (N.of_nat k) env = Ok (Some s)) ∧
  match load_servers_from_env_provider env with
  | Ok o => env !! host_key (N.of_nat n) = None ∧ (o = None ↔ n = 0) ∧
      ∀ l, o = Some l → length l = n ∧ ∀ k s, l !! k = Some s → parse_server_from_env (N.of_nat k) env = Ok (Some s) ∧ server_ok s
  | Err e => parse_server_from_env (N.of_nat n) env = Err e
  end.
Proof.
  destruct (env_servers_enough env) as [r Hr]. destruct (env_servers_spec _ _ _ _ Hr) as (n & Hn & H). exists n. split; [exact Hn|].
  unfold load_servers_from_env_provider. rewrite Hr. destruct r as [l|e]; [|exact H]. destruct H as (Ha & Hl & Hp). cbn.
  split_and!; [exact Ha|destruct l; cbn in Hl; naive_solver lia|]. intros l' E. assert (l' = l) as -> by (destruct l; congruence).
  split; [done|]. intros k s Hk%Hp. split; [done|]. by apply parse_server_ok in Hk as [_ Hk].
Qed.

(** C24 The servers of the environment are read completely: the scan of the indices ends at
    the first index that has no host, and gives the server of every index before it, in
    order; it panics exactly at the first index with an unusable value. *)
Theorem env_servers_exact env :
  ∃ n : nat, (∀ k, k < n → ∃ s, parse_server_from_env (N.of_nat k) env = Ok (Some s)) ∧
  match load_servers_from_env_provider env with
  | Ok o => env !! host_key (N.of_nat n) = None ∧ (o = None ↔ n = 0) ∧
      ∀ l, o = Some l → length l = n ∧ ∀ k s, l !! k = Some s → parse_server_from_env (N.of_nat k) env = Ok (Some s) ∧ server_ok s
  | Err e => parse_server_from_env (N.of_nat n) env = Err e
  end.
Proof. exact (load_servers_spec env). Qed.

Lemma env_servers_ok env l : load_servers_from_env_provider env = Ok (Some l) → Forall server_ok l ∧ l ≠ [].
Proof.
  intros H. destruct (load_servers_spec env) as (n & _ & Hn). rewrite H in Hn. destruct Hn as (_ & Hz & Hl).
  destruct (Hl l eq_refl) as [Hlen Hs]. split; [apply Forall_lookup; intros k s Hk; by apply Hs in Hk as [_ ?]|].
  intros ->. cbn in Hlen. pose proof (proj2 Hz (eq_sym Hlen)). congruence.
Qed.

(** ** A loaded configuration is usable *)

(** What the components rely on. *)
Record usable (c : Config) : Prop := {
  us_servers : cf_servers c ≠ [];
  us_bound : length (cf_servers c) ≤ MAX_BACKENDS;
  us_recv : (socket_recv_buffer_size (cf_memory c) < 2 ^ 32)%N;
  us_send : (socket_send_buffer_size (cf_memory c) < 2 ^ 32)%N;
  us_limits : is_Some (limits (rt_backpressure (cf_routing c)));
  us_credentials : Forall (λ s, is_Some (sv_username s) ↔ is_Some (sv_password s)) (cf_servers c) }.

Lemma is_some_true {A} (o : option A) : is_some o = true ↔ is_Some o.
Proof. destruct o; cbn; [naive_solver eauto|]. split; [done|by intros []]. Qed.

Lemma validate_servers_Ok l u : validate_servers l = Ok u ↔ Forall (λ s, is_Some (sv_username s) ↔ is_Some (sv_password s)) l.
Proof.
  induction l as [|s l IH]; [split; [constructor|by destruct u]|]. rewrite Forall_cons, <- IH, <- !is_some_true. cbn. unfold validate_server.
  destruct (is_some (sv_username s)), (is_some (sv_password s)); cbn; naive_solver.
Qed.

Lemma validate_Ok c : validate c = Ok () ↔ usable c.
Proof.
  unfold validate, validate_socket_buffer_size, MAX_SOCKET_BUFFER_SIZE. split.
  - intros (u1 & H1%ensure_Ok & H)%result_bind_Ok. apply result_bind_Ok in H as (u2 & H2%ensure_Ok & H).
    apply result_bind_Ok in H as (u3 & H3%ensure_Ok & H). apply result_bind_Ok in H as (u4 & H4%ensure_Ok & H).
    apply result_bind_Ok in H as (u5 & H5%ensure_Ok & H%validate_servers_Ok).
    apply negb_true_iff in H1, H2, H3, H4. apply bool_decide_eq_false in H1. apply Nat.ltb_ge in H2. apply N.ltb_ge in H3, H4.
    constructor; [done|done|lia|lia|by apply is_some_true|done].
  - intros [H1 H2 H3 H4 H5%is_some_true H6]. rewrite bool_decide_eq_false_2 by done. destruct (Nat.ltb_spec MAX_BACKENDS (length (cf_servers c))); [lia|].
    destruct (N.ltb_spec (2 ^ 32 - 1) (socket_recv_buffer_size (cf_memory c))); [lia|].
    destruct (N.ltb_spec (2 ^ 32 - 1) (socket_send_buffer_size (cf_memory c))); [lia|]. rewrite H5. by apply validate_servers_Ok.
Qed.

(** *** What the TOML library promises *)

(** A duration is written in whole seconds. *)
Definition whole (d : N) : N := from_secs (as_secs d).

Definition reread_server (s : Server) : Server :=
  mkServer (sv_host s) (sv_port s) (sv_name s) (sv_username s) (sv_password s) (sv_max_connections s) (sv_stat_missing s) (sv_use_tls s)
    (sv_tls_verify_cert s) (sv_tls_cert_path s) (whole <$> sv_connection_keepalive s)
    (match sv_replacement_cooldown s with Some d => Some (whole d) | None => replacement_cooldown_option end)
    (sv_health_check_max_per_cycle s) (whole (sv_health_check_pool_timeout s)) (sv_tier s) (sv_compress s) (sv_compress_level s)
    (whole (sv_backend_idle_timeout s)).

Definition reread_proxy (p : ProxySettings) : ProxySettings :=
  mkProxySettings (px_host p) (px_port p) (px_threads p) RmHybrid LeastLoaded (px_validate_yenc p) (px_log_file_level p)
    (px_response_write_metrics_secs p) (px_stats_file p) 0 0.

Definition reread_cache (c : CacheSettings) : CacheSettings :=
  mkCacheSettings (cc_capacity c) (whole (cc_ttl c)) (cc_store_article_bodies c) (cc_disk c) (cc_index_path c) false.

Definition reread_health_check (h : HealthCheck) : HealthCheck :=
  mkHealthCheck (whole (hc_interval h)) (whole (hc_timeout h)) (hc_unhealthy_threshold h).

(** A configuration written to a file and read back: the fields of the old layout are not
    written, and durations are written in seconds. *)
Definition reread (c : Config) : Config :=
  mkConfig (reread_proxy (cf_proxy c)) (cf_routing c) (cf_memory c) (reread_cache <$> cf_cache c) (reread_health_check (cf_health_check c))
    (cf_client_auth c) (reread_server <$> cf_servers c).

(** What the types of the settings promise. *)
Record config_ok (c : Config) : Prop := {
  ck_servers : Forall server_ok (cf_servers c);
  ck_port : (0 < px_port (cf_proxy c) <= 65535)%N;
  ck_threads : (0 < px_threads (cf_proxy c))%N;
  ck_soft : (qb_soft (rt_backpressure (cf_routing c)) <= 100)%N;
  ck_hard : (qb_hard (rt_backpressure (cf_routing c)) <= 100)%N;
  ck_cache : ∀ k, cf_cache c = Some k → (0 < cc_capacity k)%N ∧ ∀ d, cc_disk k = Some d → (0 < dc_capacity d)%N;
  ck_threshold : (0 < hc_unhealthy_threshold (cf_health_check c))%N }.

(** No field of the old layout is in the file. *)
Definition legacy_free (raw : Value) : Prop :=
  Forall (λ k, table_has_key raw (bs "proxy") k = false)
    [bs "routing_mode"; bs "backend_selection"; bs "buffer_pool_count"; bs "capture_pool_count"] ∧
  table_has_key raw (bs "cache") (bs "adaptive_precheck") = false ∧
  table_has_key raw (bs "client_auth") (bs "username") = false.

Class TomlSpec (T : Toml) : Prop := {
  toml_types s c : config_from_str s = Some c → config_ok c;
  toml_reread s c : config_ok c → to_string c = Some s → config_from_str s = Some (reread c);
  toml_canonical s c : to_string c = Some s → ∃ raw, value_from_str s = Some raw ∧ legacy_free raw }.

(** *** Servers keep what the overlay does not set *)

Definition without_credentials (s : Server) : Server :=
  mkServer (sv_host s) (sv_port s) (sv_name s) None None (sv_max_connections s) (sv_stat_missing s) (sv_use_tls s) (sv_tls_verify_cert s)
    (sv_tls_cert_path s) (sv_connection_keepalive s) (sv_replacement_cooldown s) (sv_health_check_max_per_cycle s)
    (sv_health_check_pool_timeout s) (sv_tier s) (sv_compress s) (sv_compress_level s) (sv_backend_idle_timeout s).

Lemma overlay_server_keeps {A} (f : Server → A) servers o servers' :
  (∀ o s, f (set_credentials o s) = f s) → overlay_server servers o = Some servers' → f <$> servers' = f <$> servers.
Proof.
  intros Hf (i & _ & [= <-])%bind_Some. apply list_eq. intros j. rewrite !list_lookup_fmap.
  destruct (decide (i = j)) as [->|Hne]; [rewrite list_lookup_alter_eq|by rewrite list_lookup_alter_ne].
  destruct (servers !! j); cbn; by rewrite ?Hf.
Qed.

Lemma overlay_servers_keep {A} (f : Server → A) os servers servers' :
  (∀ o s, f (set_credentials o s) = f s) → overlay_servers servers os = Some servers' → f <$> servers' = f <$> servers.
Proof.
  intros Hf. revert servers. induction os as [|o os IH]; intros servers H; [by injection H as <-|]. cbn in H.
  apply bind_Some in H as (l & Hl & H). by rewrite (IH _ H), (overlay_server_keeps f _ _ _ Hf Hl).
Qed.

Lemma server_ok_stripped s : server_ok s ↔ server_ok (without_credentials s).
Proof. split; intros [? ? ? ? ?]; by constructor. Qed.

Lemma servers_ok_stripped l l' : without_credentials <$> l' = without_credentials <$> l → Forall server_ok l → Forall server_ok l'.
Proof.
  intros E H. assert (Forall server_ok (without_credentials <$> l')) as H'.
  { rewrite E. apply Forall_fmap. eapply Forall_impl; [exact H|]. intros s. apply server_ok_stripped. }
  rewrite Forall_fmap in H'. eapply Forall_impl; [exact H'|]. intros s. apply server_ok_stripped.
Qed.

(** *** The theorem *)

Lemma collect_identities_length hosts ids : length (collect_identities ids hosts) ≤ length ids + length hosts.
Proof.
  revert ids. induction hosts as [|h hosts IH]; intros ids; [cbn; lia|].
  change (collect_identities ids (h :: hosts)) with (collect_identities (collect_identity ids h) hosts).
  specialize (IH (collect_identity ids h)). cbn [length]. enough (length (collect_identity ids h) ≤ S (length ids)) by lia.
  unfold collect_identity. case_bool_decide; rewrite ?length_app; cbn; lia.
Qed.

Lemma layout_exists hosts : length hosts ≤ MAX_BACKENDS → ∃ l, from_servers hosts = Ok l.
Proof.
  intros H. destruct (from_servers hosts) as [l|e] eqn:E; [eauto|exfalso]. pose proof (collect_identities_length hosts []).
  assert (e = TooManyIdentities) as -> by (unfold from_servers in E; case_match; congruence).
  apply from_servers_total in E. unfold MAX_BACKENDS, USIZE_BITS in *. cbn in *. lia.
Qed.

Lemma default_servers_ok : Forall server_ok (cf_servers create_default_config).
Proof.
  apply Forall_singleton. constructor; cbn [sv_host sv_name sv_port sv_max_connections sv_tier]; [|by exists (bs "Example News Server")|done..].
  by exists (bs "news.example.com").
Qed.

Section Usable.
Context `{TS : TomlSpec}.

Lemma apply_overlay_keeps c o c' :
  apply_overlay c o = Some c' → cf_memory c' = cf_memory c ∧ cf_routing c' = cf_routing c ∧
    without_credentials <$> cf_servers c' = without_credentials <$> cf_servers c.
Proof. intros (l & Hl & [= <-])%bind_Some. split_and!; [done|done|]. by apply (overlay_servers_keep without_credentials _ _ _ ltac:(done)) in Hl. Qed.

Lemma overlay_from_env_keeps c env files c' :
  apply_credentials_overlay_from_env c env files = Ok c' → without_credentials <$> cf_servers c' = without_credentials <$> cf_servers c.
Proof.
  unfold apply_credentials_overlay_from_env, apply_credentials_overlay. intros H. repeat case_match; simplify_eq; try done.
  by eapply apply_overlay_keeps.
Qed.

(** A migration changes neither the servers nor what is validated, only the settings that
    were moved. *)
Lemma migrate_keeps c raw :
  let m := (migrate_legacy_config c raw).1 in
  cf_servers m = cf_servers c ∧ cf_proxy m = cf_proxy c ∧ cf_cache m = cf_cache c ∧ cf_health_check m = cf_health_check c ∧
  rt_backpressure (cf_routing m) = rt_backpressure (cf_routing c).
Proof.
  assert (∀ c, let m := (migrate_proxy_routing c raw).1 in
    cf_servers m = cf_servers c ∧ cf_proxy m = cf_proxy c ∧ cf_cache m = cf_cache c ∧ cf_health_check m = cf_health_check c ∧
    rt_backpressure (cf_routing m) = rt_backpressure (cf_routing c)) as H1.
  { intros d. unfold migrate_proxy_routing. destruct (table raw _); [|done]. destruct (if negb _ then _ else _), (if negb _ then _ else _). done. }
  assert (∀ c, let m := (migrate_proxy_memory c raw).1 in
    cf_servers m = cf_servers c ∧ cf_proxy m = cf_proxy c ∧ cf_cache m = cf_cache c ∧ cf_health_check m = cf_health_check c ∧ cf_routing m = cf_routing c) as H2.
  { intros d. unfold migrate_proxy_memory. destruct (table raw _); [|done]. destruct (if negb _ then _ else _), (if negb _ then _ else _). done. }
  assert (∀ c, let m := (migrate_cache_precheck c raw).1 in
    cf_servers m = cf_servers c ∧ cf_proxy m = cf_proxy c ∧ cf_cache m = cf_cache c ∧ cf_health_check m = cf_health_check c ∧
    rt_backpressure (cf_routing m) = rt_backpressure (cf_routing c)) as H3.
  { intros d. unfold migrate_cache_precheck. destruct (negb _); [|done]. destruct (table raw _); [|done]. destruct (assign_from_table _ _ _ _). done. }
  assert (∀ c, let m := (migrate_client_auth_users c raw).1 in
    cf_servers m = cf_servers c ∧ cf_proxy m = cf_proxy c ∧ cf_cache m = cf_cache c ∧ cf_health_check m = cf_health_check c ∧ cf_routing m = cf_routing c) as H4.
  { intros d. unfold migrate_client_auth_users. case_bool_decide; [|done]. destruct (table raw _ ≫= _); done. }
  unfold migrate_legacy_config. specialize (H1 c). destruct (migrate_proxy_routing c raw) as [c1 ?]. specialize (H2 c1).
  destruct (migrate_proxy_memory c1 raw) as [c2 ?]. specialize (H3 c2). destruct (migrate_cache_precheck c2 raw) as [c3 ?]. specialize (H4 c3).
  destruct (migrate_client_auth_users c3 raw) as [c4 ?]. cbn in *. destruct_and?. split_and!; congruence.
Qed.

Lemma migrate_config_ok c raw : config_ok c → config_ok (migrate_legacy_config c raw).1.
Proof.
  destruct (migrate_keeps c raw) as (Hs & Hp & Hc & Hh & Hb). intros [? ? ? ? ? ? ?].
  constructor; rewrite ?Hs, ?Hp, ?Hc, ?Hh, ?Hb; done.
Qed.

(** The servers are those of the environment if it has any, and else those of [c]. *)
Lemma finish_config_ok c env files c' :
  finish_config c env files = Ok c' → Forall server_ok (cf_servers c) →
  usable c' ∧ Forall server_ok (cf_servers c') ∧
  ∀ l, load_servers_from_env_provider env = Ok (Some l) → without_credentials <$> cf_servers c' = without_credentials <$> l.
Proof.
  unfold finish_config. intros (servers & Hs & H)%result_bind_Ok Hok. apply result_bind_Ok in H as (c1 & Hc & H).
  apply result_bind_Ok in H as ([] & Hv & [= <-]). destruct (load_servers_from_env_provider env) as [o|] eqn:El; [|done]. cbn in Hs. simplify_eq.
  apply overlay_from_env_keeps in Hc. split_and!.
  - apply validate_Ok. by destruct (validate c1) as [[]|].
  - eapply servers_ok_stripped; [exact Hc|]. destruct servers; [by apply (env_servers_ok env)|done].
  - intros l [= ->]. exact Hc.
Qed.

(** The source of the configuration. *)
Definition source_of (path : bytes) (env : Env) (files : ConfigFiles) : ConfigSource :=
  if is_some (files !! path) then SourceFile else if is_some (env !! host_key 0) then SourceEnvironment else SourceDefaultCreated.

Lemma loaded_file_ok fault path env files c states :
  load_config_with_env_provider fault path env files = (Ok c, states) →
  usable c ∧ Forall server_ok (cf_servers c) ∧
  ∀ l, load_servers_from_env_provider env = Ok (Some l) → without_credentials <$> cf_servers c = without_credentials <$> l.
Proof.
  unfold load_config_with_env_provider. intros H. destruct (files !! path) as [content|]; [|done].
  destruct (value_from_str content) as [raw|]; [|done]. destruct (config_from_str content) as [c0|] eqn:Ec; [|done].
  pose proof (ck_servers _ (toml_types _ _ Ec)) as Hok. destruct (migrate_keeps c0 raw) as [Hs _].
  destruct (migrate_legacy_config c0 raw) as [m migrated]. cbn in Hs. destruct migrated; injection H as H _; apply finish_config_ok in H; try done.
  by rewrite Hs.
Qed.

Lemma loaded_config_spec fault default_write path env files c source states :
  load_config_with_fallback fault default_write path env files = (Ok (c, source), states) →
  usable c ∧ Forall server_ok (cf_servers c) ∧ (∃ l, from_servers (sv_host <$> cf_servers c) = Ok l) ∧ source = source_of path env files ∧
  ∀ l, load_servers_from_env_provider env = Ok (Some l) → without_credentials <$> cf_servers c = without_credentials <$> l.
Proof.
  intros H. enough (usable c ∧ Forall server_ok (cf_servers c) ∧ source = source_of path env files ∧
    ∀ l, load_servers_from_env_provider env = Ok (Some l) → without_credentials <$> cf_servers c = without_credentials <$> l) as (Hu & Hs & Hsrc & Hl).
  { split_and!; try done. apply layout_exists. rewrite length_fmap. apply Hu. }
  unfold load_config_with_fallback, source_of in *. destruct (is_some (files !! path)).
  - destruct (load_config_with_env_provider fault path env files) as [r fs] eqn:E. injection H as H _.
    apply result_bind_Ok in H as (c' & -> & [= <- <-]). apply loaded_file_ok in E. naive_solver.
  - unfold has_server_env_vars in H. change (bs "NNTP_SERVER_0_HOST") with (host_key 0) in H. destruct (env !! host_key 0) as [h0|] eqn:E0; cbn [is_some] in *.
    + injection H as H _. apply result_bind_Ok in H as (c' & H & [= <- <-]). unfold load_config_from_env_provider in H.
      destruct (load_servers_from_env_provider env) as [[l|]|] eqn:El; try done. cbn [map_err] in H.
      destruct (finish_config_ok default_config env files c') as (? & ? & Hl); [unfold finish_config; by rewrite El|constructor|].
      rewrite El in Hl. naive_solver.
    + destruct (to_string _) as [text|]; [|done]. destruct default_write; [done|]. injection H as <- <- _. split_and!; [|apply default_servers_ok|done|].
      * by apply validate_Ok.
      * intros l Hl. destruct (load_servers_spec env) as (n & Hn & H). rewrite Hl in H. destruct H as (_ & Hz & _). destruct n; [pose proof (proj2 Hz eq_refl); congruence|].
        destruct (Hn 0 ltac:(lia)) as [s Hs]. apply parse_server_ok in Hs as [[h Hh] _]. change (N.of_nat 0) with 0%N in Hh. congruence.
Qed.
(** A loaded configuration is usable: it comes from the file if there is one, else from the
    environment if that has a server, else it is the default, and in every case it has
    between one and 64 servers with valid settings, complete or no credentials, limits for
    the router and a layout for the availability of articles.  The servers of the
    environment replace those of the file, up to the credentials of the overlay. *)
Theorem loaded_config_usable fault default_write path env files c source states :
  load_config_with_fallback fault default_write path env files = (Ok (c, source), states) →
  usable c ∧ Forall server_ok (cf_servers c) ∧ (∃ l, from_servers (sv_host <$> cf_servers c) = Ok l) ∧ source = source_of path env files ∧
  ∀ l, load_servers_from_env_provider env = Ok (Some l) → without_credentials <$> cf_servers c = without_credentials <$> l.
Proof. apply loaded_config_spec. Qed.
End Usable.

(** ** Migration happens once *)

(** The same settings, up to the fields of the old layout and fractions of seconds. *)
Definition same_settings (c c' : Config) : Prop := reread c = reread c'.

#[global] Instance same_settings_equiv : Equivalence same_settings.
Proof. unfold same_settings. split; [by intros ?|by intros ? ?|by intros ? ? ? -> ->]. Qed.

Lemma whole_whole d : whole (whole d) = whole d.
Proof. unfold whole, as_secs, from_secs. by rewrite N.div_mul. Qed.

Lemma reread_server_twice s : reread_server (reread_server s) = reread_server s.
Proof.
  unfold reread_server. cbn. rewrite !whole_whole. f_equal; [destruct (sv_connection_keepalive s)|destruct (sv_replacement_cooldown s)]; cbn; by rewrite ?whole_whole.
Qed.

Lemma reread_same c : same_settings (reread c) c.
Proof.
  unfold same_settings, reread. cbn. f_equal.
  - destruct (cf_cache c) as [k|]; [|done]. cbn. unfold reread_cache. cbn. by rewrite whole_whole.
  - unfold reread_health_check. cbn. by rewrite !whole_whole.
  - rewrite <- list_fmap_compose. apply list_fmap_ext. intros _ s _. apply reread_server_twice.
Qed.

Lemma position_fmap {A B} (f : A → B) (p : B → bool) (q : A → bool) l : (∀ x, p (f x) = q x) → position p (f <$> l) = position q l.
Proof. intros H. induction l as [|x l IH]; [done|]. cbn. rewrite H. destruct (q x); [done|]. f_equal. exact IH. Qed.

Lemma overlay_reread (l : list Server) os :
  overlay_servers (reread_server <$> l) os = (λ l : list Server, reread_server <$> l) <$> overlay_servers l os.
Proof.
  revert l. induction os as [|o os IH]; intros l; [done|]. cbn [overlay_servers]. unfold overlay_server.
  rewrite (position_fmap reread_server _ (λ s, bool_decide (sv_name s = so_name o))) by done. destruct (position _ l) as [i|]; [|done]. cbn [mbind option_bind].
  rewrite <- IH. f_equal. apply list_eq. intros j. rewrite list_lookup_fmap.
  destruct (decide (i = j)) as [->|Hne]; [rewrite !list_lookup_alter_eq|rewrite !list_lookup_alter_ne by done]; rewrite list_lookup_fmap; [|done].
  by destruct (l !! j).
Qed.

Lemma apply_overlay_reread c o : apply_overlay (reread c) o = reread <$> apply_overlay c o.
Proof. unfold apply_overlay. cbn [cf_servers reread]. rewrite overlay_reread. by destruct (overlay_servers (cf_servers c) (ov_servers o)). Qed.

Lemma validate_servers_reread (l : list Server) : validate_servers (reread_server <$> l) = validate_servers l.
Proof. induction l as [|s l IH]; [done|]. cbn. by rewrite <- IH. Qed.

Lemma validate_reread c : validate (reread c) = validate c.
Proof.
  unfold validate. cbn [cf_servers cf_memory cf_routing reread]. rewrite length_fmap, validate_servers_reread. by destruct (cf_servers c).
Qed.

#[global] Instance validate_proper : Proper (same_settings ==> eq) validate.
Proof. intros c c' H. rewrite <- (validate_reread c), <- (validate_reread c'). by rewrite H. Qed.

Section Migration.
Context `{TS : TomlSpec}.

Lemma overlay_from_env_reread c env files :
  apply_credentials_overlay_from_env (reread c) env files = reread <$> apply_credentials_overlay_from_env c env files.
Proof.
  unfold apply_credentials_overlay_from_env, apply_credentials_overlay. destruct (env !! _) as [p|]; [|done]. destruct (files !! p) as [content|]; [|done].
  destruct (overlay_from_str content) as [o|]; [|done]. rewrite apply_overlay_reread. by destruct (apply_overlay c o).
Qed.

(** Loading does not tell apart configurations of the same settings. *)
Lemma finish_config_same c c' env files :
  same_settings c c' → reread <$> finish_config c env files = reread <$> finish_config c' env files.
Proof.
  intros H. unfold finish_config. destruct (load_servers_from_env_provider env) as [servers|]; [|done]. cbn [map_err mbind result_bind].
  set (d := match servers with Some l => set_servers l c | None => c end). set (d' := match servers with Some l => set_servers l c' | None => c' end).
  assert (same_settings d d') as Hd.
  { subst d d'. destruct servers; [|done]. unfold same_settings, reread in *. cbn [set_servers cf_proxy cf_routing cf_memory cf_cache cf_health_check cf_client_auth cf_servers].
    injection H. intros _. congruence. }
  pose proof (overlay_from_env_reread d env files) as E. pose proof (overlay_from_env_reread d' env files) as E'. rewrite Hd, E' in E.
  destruct (apply_credentials_overlay_from_env d env files) as [e|e], (apply_credentials_overlay_from_env d' env files) as [e'|e'];
    cbn [fmap result_fmap] in E; [apply Ok_inj in E|discriminate E|discriminate E|injection E as ->; done].
  cbn [mbind result_bind]. assert (same_settings e e') as He by (symmetry; exact E).
  rewrite (validate_proper _ _ He). destruct (validate e'); [|done]. cbn. by f_equal.
Qed.

Lemma assign_absent {A} (conv : Value → option A) target source key : value_get source key = None → assign_from_table conv target source key = (target, false).
Proof. intros H. unfold assign_from_table. by rewrite H. Qed.

Lemma table_key_absent raw section key t : table_has_key raw section key = false → table raw section = Some t → value_get t key = None.
Proof. unfold table_has_key. intros H E. rewrite E in H. by destruct (value_get t key). Qed.

(** A file without fields of the old layout is not migrated. *)
Lemma migrate_legacy_free c raw : legacy_free raw → (migrate_legacy_config c raw).2 = false.
Proof.
  intros (Hp & Hc & Ha). rewrite !Forall_cons in Hp. destruct Hp as (H1 & H2 & H3 & H4 & _). unfold migrate_legacy_config.
  assert (∀ c, (migrate_proxy_routing c raw).2 = false) as M1.
  { intros d. unfold migrate_proxy_routing. destruct (table raw (bs "proxy")) as [t|] eqn:E; [|done].
    rewrite !assign_absent by (by eapply table_key_absent). by destruct (negb _), (negb _). }
  assert (∀ c, (migrate_proxy_memory c raw).2 = false) as M2.
  { intros d. unfold migrate_proxy_memory. destruct (table raw (bs "proxy")) as [t|] eqn:E; [|done].
    rewrite !assign_absent by (by eapply table_key_absent). by destruct (negb _), (negb _). }
  assert (∀ c, (migrate_cache_precheck c raw).2 = false) as M3.
  { intros d. unfold migrate_cache_precheck. destruct (table raw (bs "cache")) as [t|] eqn:E; [|by destruct (negb _)].
    rewrite assign_absent by (by eapply table_key_absent). by destruct (negb _). }
  assert (∀ c, (migrate_client_auth_users c raw).2 = false) as M4.
  { intros d. unfold migrate_client_auth_users. destruct (table raw (bs "client_auth")) as [t|] eqn:E; [|by case_bool_decide].
    cbn [mbind option_bind]. rewrite (table_key_absent _ _ _ _ Ha E). by case_bool_decide. }
  specialize (M1 c). destruct (migrate_proxy_routing c raw) as [c1 m1]. specialize (M2 c1). destruct (migrate_proxy_memory c1 raw) as [c2 m2].
  specialize (M3 c2). destruct (migrate_cache_precheck c2 raw) as [c3 m3]. specialize (M4 c3). destruct (migrate_client_auth_users c3 raw) as [c4 m4].
  cbn in *. by subst.
Qed.

Lemma suffix_ne path suffix : suffix ≠ [] → path_with_suffix path suffix ≠ path.
Proof. unfold path_with_suffix. intros Hs H. apply Hs. rewrite <- (app_nil_r path) in H at 2. by apply app_inv_head in H. Qed.

(** At every moment the file is the old one or the complete new one. *)
Lemma rewrite_atomic fault path c files content s :
  files !! path = Some content → to_string c = Some s →
  let '(states, ok) := write_canonical_config fault path c files in
  Forall (λ fs : ConfigFiles, fs !! path = Some content ∨ fs !! path = Some s ∧ fs !! path_with_suffix path (bs ".bak") = Some content) states ∧
  (ok = true ↔ fault = RewriteOk) ∧ ∃ fs, last states = Some fs ∧ fs !! path = if ok then Some s else Some content.
Proof.
  intros Hf Hs. unfold write_canonical_config. rewrite Hs, Hf.
  pose proof (suffix_ne path (bs ".bak") ltac:(done)) as Hb. pose proof (suffix_ne path (bs ".tmp") ltac:(done)) as Ht.
  assert (path_with_suffix path (bs ".tmp") ≠ path_with_suffix path (bs ".bak")) as Hne by (intros E%app_inv_head; discriminate E).
  set (bak := path_with_suffix path (bs ".bak")) in *. set (tmp := path_with_suffix path (bs ".tmp")) in *.
  destruct fault as [|[part|]|[part|]| |]; cbn [written]; unfold rename; rewrite ?lookup_insert_eq;
    (split; [repeat (apply Forall_cons; split); try apply Forall_nil; cbn beta|split; [done|eexists; split; [reflexivity|]]]);
    rewrite ?(lookup_delete_ne _ tmp), ?lookup_insert_eq, ?(lookup_insert_ne _ tmp path), ?(lookup_insert_ne _ bak path), ?(lookup_insert_ne _ path bak),
      ?(lookup_insert_ne _ tmp bak), ?lookup_insert_eq by done; auto.
Qed.

(** C29 A file of the old layout is migrated once.  It is rewritten with what it said and
    nothing of the environment or the overlay; at every moment, whatever fails, the file
    is the old one or the complete new one with the old one kept beside it.  Loading the
    rewritten file does not change it again and gives the same result, up to the fields of
    the old layout and fractions of seconds. *)
Theorem migration_once fault path env files content raw c0 m s :
  files !! path = Some content → value_from_str content = Some raw → config_from_str content = Some c0 →
  migrate_legacy_config c0 raw = (m, true) → to_string m = Some s →
  let '(r, states) := load_config_with_env_provider fault path env files in
  Forall (λ fs : ConfigFiles, fs !! path = Some content ∨ fs !! path = Some s ∧ fs !! path_with_suffix path (bs ".bak") = Some content) states ∧
  ∃ fs, last states = Some fs ∧ (fault ≠ RewriteOk → fs !! path = Some content) ∧
    (fault = RewriteOk → fs !! path = Some s ∧ ∀ fault',
      let '(r', states') := load_config_with_env_provider fault' path env fs in states' = [] ∧ reread <$> r' = reread <$> r).
Proof.
  intros Hf Hraw Hc Hm Hs. pose proof (migrate_config_ok c0 raw (toml_types _ _ Hc)) as Hok. rewrite Hm in Hok. cbn in Hok.
  pose proof (rewrite_atomic fault path m files content s Hf Hs) as Hw. unfold load_config_with_env_provider at 1. rewrite Hf, Hraw, Hc, Hm.
  destruct (write_canonical_config fault path m files) as [states ok]. cbn [fst]. destruct Hw as (Hall & Hok' & fs & Hlast & Hfs). split; [done|].
  exists fs. split; [done|]. split; [intros Hne; destruct ok; [by destruct Hne; apply Hok'|done]|]. intros ->.
  assert (ok = true) as -> by by apply Hok'. split; [done|]. intros fault'. unfold load_config_with_env_provider. rewrite Hfs.
  destruct (toml_canonical _ _ Hs) as (raw' & -> & Hfree). rewrite (toml_reread _ _ Hok Hs).
  pose proof (migrate_legacy_free (reread m) raw' Hfree) as Hmig. destruct (migrate_legacy_config (reread m) raw') as [m' migrated]. cbn in Hmig. subst migrated.
  split; [done|]. rewrite Hlast. apply finish_config_same, reread_same.
Qed.
End Migration.

(** The default of 100 milliseconds is written as no seconds: the default file, once it is
    read back, has a timeout of zero. *)
Example default_pool_timeout_lost :
  (λ s, (sv_health_check_pool_timeout s, sv_health_check_pool_timeout (reread_server s))) <$> cf_servers create_default_config = [(from_millis 100, 0%N)].
Proof. reflexivity. Qed.

(** ** Examples *)

#[global] Instance codec_eq : EqDecision CompressionCodec.
Proof. solve_decision. Defined.

#[global] Instance selection_eq : EqDecision BackendSelectionStrategy.
Proof. solve_decision. Defined.

#[global] Instance server_eq : EqDecision Server.
Proof. solve_decision. Defined.

#[global] Instance config_eq : EqDecision Config.
Proof.
  assert (EqDecision RoutingMode) by solve_decision. assert (EqDecision ProxySettings) by solve_decision. assert (EqDecision QueueBackpressure) by solve_decision.
  assert (EqDecision Routing) by solve_decision. assert (EqDecision Memory) by solve_decision. assert (EqDecision DiskCache) by solve_decision.
  assert (EqDecision CacheSettings) by solve_decision. assert (EqDecision HealthCheck) by solve_decision. assert (EqDecision ClientAuth) by solve_decision.
  solve_decision.
Defined.

(** A TOML library that knows one file of the old layout and its rewritten form. *)
Definition legacy_text : bytes := bs "[proxy]
routing_mode = 'stateful'".
Definition canonical_text : bytes := bs "[routing]
mode = 'stateful'".

Definition migrated_config : Config := set_routing (mkRouting RmStateful LeastLoaded false default_backpressure) create_default_config.

Definition sample_toml : Toml := {|
  value_from_str s :=
    if bool_decide (s = legacy_text) then Some (VTable [(bs "proxy", VTable [(bs "routing_mode", VString (bs "stateful"))])])
    else if bool_decide (s = canonical_text) then Some (VTable [(bs "routing", VTable [(bs "mode", VString (bs "stateful"))])]) else None;
  config_from_str s :=
    if bool_decide (s = legacy_text) then Some create_default_config
    else if bool_decide (s = canonical_text) then Some (reread migrated_config) else None;
  overlay_from_str s := None;
  to_string c := if bool_decide (c = migrated_config) then Some canonical_text else None;
  to_routing_mode v := match v with VString s => if bool_decide (s = bs "stateful") then Some RmStateful else None | _ => None end;
  to_selection v := None;
  to_usize v := None;
  to_bool v := None |}.

Lemma sample_toml_ok : TomlSpec sample_toml.
Proof.
  assert (config_ok create_default_config) as H0 by (constructor; [apply default_servers_ok|done..]).
  assert (config_ok (reread migrated_config)) as H1.
  { constructor; [|done..]. apply Forall_singleton. pose proof (Forall_inv default_servers_ok) as [? ? ? ? ?]. by constructor. }
  split; cbn.
  - intros s c. repeat case_bool_decide; intros [= <-]; done.
  - intros s c _. repeat case_bool_decide; intros [= <-]; subst; try done.
  - intros s c. repeat case_bool_decide; intros [= <-]; try done. eexists. split; [reflexivity|]. split; [|done]. by repeat constructor.
Qed.

(** Two servers in the environment, the second with an own port. *)
Definition sample_env : Env :=
  list_to_map [(host_key 0, bs "news.a.example"); (host_key 1, bs " news.b.example "); (server_key 1 (bs "PORT"), bs "563")].

Definition loaded_servers : list (bytes * N * bytes) :=
  match (load_config_with_fallback (T := sample_toml) RewriteOk None (bs "config.toml") sample_env ∅).1 with
  | Ok (c, _) => (λ s, (sv_host s, sv_port s, sv_name s)) <$> cf_servers c
  | Err _ => []
  end.

Example env_servers_loaded : loaded_servers = [(bs "news.a.example", 119%N, bs "Server 0"); (bs "news.b.example", 563%N, bs "Server 1")].
Proof. by vm_compute. Qed.

Lemma loaded_config_usable_witness :
  ∃ c source states, load_config_with_fallback (T := sample_toml) RewriteOk None (bs "config.toml") sample_env ∅ = (Ok (c, source), states) ∧
    length (cf_servers c) = 2 ∧ source = SourceEnvironment ∧ usable c.
Proof.
  destruct (load_config_with_fallback (T := sample_toml) RewriteOk None (bs "config.toml") sample_env ∅) as [r states] eqn:E.
  assert (match r with Ok (c, source) => length (cf_servers c) = 2 | Err _ => False end) as Hr.
  { replace r with (load_config_with_fallback (T := sample_toml) RewriteOk None (bs "config.toml") sample_env ∅).1 by by rewrite E. by vm_compute. }
  destruct r as [[c source]|]; [|destruct Hr]. exists c, source, states. destruct (loaded_config_usable (TS := sample_toml_ok) _ _ _ _ _ _ _ _ E) as (Hu & _ & _ & Hs & _).
  split; [reflexivity|]. split; [exact Hr|]. split; [|exact Hu]. rewrite Hs. by vm_compute.
Defined.

Lemma migration_once_witness :
  let files : ConfigFiles := {[ bs "config.toml" := legacy_text ]} in
  ∃ fs : ConfigFiles, fs !! bs "config.toml" = Some canonical_text ∧
    last (load_config_with_env_provider (T := sample_toml) RewriteOk (bs "config.toml") ∅ files).2 = Some fs ∧
    (load_config_with_env_provider (T := sample_toml) RewriteOk (bs "config.toml") ∅ fs).2 = [].
Proof.
  intros files. pose proof (migration_once (TS := sample_toml_ok) RewriteOk (bs "config.toml") ∅ files legacy_text
    (VTable [(bs "proxy", VTable [(bs "routing_mode", VString (bs "stateful"))])]) create_default_config migrated_config canonical_text
    ltac:(vm_compute; reflexivity) ltac:(vm_compute; reflexivity) ltac:(vm_compute; reflexivity) ltac:(vm_compute; reflexivity) ltac:(vm_compute; reflexivity)) as H.
  destruct (load_config_with_env_provider (T := sample_toml) RewriteOk (bs "config.toml") ∅ files) as [r states].
  destruct H as (_ & fs & Hl & _ & Hfs). destruct (Hfs eq_refl) as [Hp Hre]. exists fs. split; [done|]. split; [done|].
  specialize (Hre RewriteOk). destruct (load_config_with_env_provider (T := sample_toml) RewriteOk (bs "config.toml") ∅ fs) as [r' states']. apply Hre.
Defined.
