(* ===== verification/Build.v ===== *)
(** * Build: from the configuration to the components

    Models [src/src/proxy/builder.rs]: the checks and the construction of the connection
    providers, the collector, the availability layout, the router and the users from a
    configuration, and the choice of the cache.  It joins [Config.v] with the components of
    the other files.

    Setting up TLS and creating a deadpool pool is a function of the server that can fail;
    the registry file of the hybrid cache is an argument. *)

From S2P Require Import Prelude Protocol Request Command Auth Wire Availability Index Router Pool Metrics Collector Config.

(** ** The builder *)

Record NntpProxyBuilder := mkBuilder {
  nb_config : Config;
  nb_routing_mode : RoutingMode;
  nb_buffer_size : option N;
  nb_buffer_count : option N;
  nb_metrics_store : option MetricsStore }.

Definition new_builder (c : Config) : NntpProxyBuilder := mkBuilder c (rt_routing_mode (cf_routing c)) None None None.

Definition with_routing_mode (mode : RoutingMode) (b : NntpProxyBuilder) : NntpProxyBuilder :=
  mkBuilder (nb_config b) mode (nb_buffer_size b) (nb_buffer_count b) (nb_metrics_store b).

Definition with_metrics_store (s : MetricsStore) (b : NntpProxyBuilder) : NntpProxyBuilder :=
  mkBuilder (nb_config b) (nb_routing_mode b) (nb_buffer_size b) (nb_buffer_count b) (Some s).

(** [BuildContext]; a buffer pool is given by its sizes. *)
Record BuildContext (D : Type) := mkContext {
  bc_providers : list (Provider D);
  bc_buffer_size : N;
  bc_buffer_count : N;
  bc_metrics : MetricsCollector;
  bc_servers : list Server;
  bc_router : BackendSelector;
  bc_auth_handler : AuthHandler;
  bc_adaptive_precheck : bool;
  bc_routing_mode : RoutingMode;
  bc_memory : Memory;
  bc_layout : AvailabilityLayout }.

Arguments mkContext {_} _ _ _ _ _ _ _ _ _ _ _.
Arguments bc_providers {_} _.
Arguments bc_buffer_size {_} _.
Arguments bc_buffer_count {_} _.
Arguments bc_metrics {_} _.
Arguments bc_servers {_} _.
Arguments bc_router {_} _.
Arguments bc_auth_handler {_} _.
Arguments bc_adaptive_precheck {_} _.
Arguments bc_routing_mode {_} _.
Arguments bc_memory {_} _.
Arguments bc_layout {_} _.

(** [BuildPanic] is an [expect] or an index out of range. *)
Inductive BuildError :=
| BuildNoServers
| BuildInvalid (e : ConfigError)
| ProviderFailed
| BufferSizeZero
| LayoutFailed (e : RegistryError)
| InvalidUsers (e : ValidationError)
| BuildPanic.

(** The registry file of a directory, the low half of a fresh UUID, and whether the file
    can be written. *)
Record Registry := mkRegistry { rg_file : bytes → RegistryFile; rg_uuid_low : N; rg_publishes : bool }.

Section Build.
Context {D : Type} (make_pool : Server → option D) (registry : Registry).

(** [DeadpoolConnectionProvider::from_server_config] *)
Definition from_server_config (s : Server) : option (Provider D) :=
  pool ← make_pool s; Some (from_manager pool (N.to_nat (sv_max_connections s)) (sv_replacement_cooldown s)).

Definition build_layout (cache : option CacheSettings) (hosts : list bytes) : result BuildError AvailabilityLayout :=
  match (k ← cache; if cc_store_article_bodies k then cc_disk k else None) with
  | Some disk =>
      map_err LayoutFailed (r ← from_hybrid_registry hosts (rg_file registry (dc_path disk)) (rg_uuid_low registry) (rg_publishes registry); Ok r.1)
  | None => map_err (λ e, LayoutFailed (RegistryWire e)) (from_servers hosts)
  end.

(** The loop that adds the backends; [None] is a panic. *)
Definition build_router (c : Config) (limits : QueuePressureLimits) (layout : AvailabilityLayout) : option BackendSelector :=
  let q := rt_backpressure (cf_routing c) in
  backends ← mapM (λ e : nat * Server, slot ← slot_for_backend layout e.1; Some (sv_max_connections e.2, sv_tier e.2, slot))
    (zip (seq 0 (length (cf_servers c))) (cf_servers c));
  add_all (with_queue_backpressure (with_strategy (rt_backend_selection (cf_routing c))) (qb_enabled q) limits (qb_all_busy_sleep_ms q)) backends.

Definition build_auth (users : list (bytes * bytes)) : result BuildError AuthHandler :=
  if bool_decide (users = []) then Ok ∅ else map_err InvalidUsers (with_users users).

(** [build_infrastructure] *)
Definition build_infrastructure (b : NntpProxyBuilder) : result BuildError (BuildContext D * option CacheSettings) :=
  let c := nb_config b in
  let memory := cf_memory c in
  _ ← ensure BuildNoServers (negb (bool_decide (cf_servers c = [])));
  _ ← map_err BuildInvalid (validate c);
  let buffer_count := default (buffer_pool_count memory) (nb_buffer_count b) in
  providers ← ok_or ProviderFailed (mapM from_server_config (cf_servers c));
  buffer_size ← ok_or BufferSizeZero (non_zero (default (buffer_pool_size memory) (nb_buffer_size b)));
  let metrics := match nb_metrics_store b with Some s => with_store s | None => new_collector (length (cf_servers c)) end in
  _ ← ensure BuildPanic (length (cf_servers c) <=? MAX_BACKENDS);
  layout ← build_layout (cf_cache c) (sv_host <$> cf_servers c);
  limits ← ok_or BuildPanic (limits (rt_backpressure (cf_routing c)));
  router ← ok_or BuildPanic (build_router c limits layout);
  auth ← build_auth (ca_users (cf_client_auth c));
  Ok (mkContext providers buffer_size buffer_count metrics (cf_servers c) router auth (rt_adaptive_precheck (cf_routing c)) (nb_routing_mode b)
    memory layout, cf_cache c).
End Build.

(** ** The cache *)

(** [UnifiedCacheKind] with what it is made from; [None] as a time to live is unlimited. *)
Inductive UnifiedCacheKind :=
| AvailabilityCache (ttl : option N) (layout : AvailabilityLayout)
| MemoryCache (capacity ttl : N) (layout : AvailabilityLayout)
| HybridCache (memory_capacity ttl : N) (disk : DiskCache) (layout : AvailabilityLayout).

(** The cache of [build]. *)
Definition build_cache (cache : option CacheSettings) (layout : AvailabilityLayout) : UnifiedCacheKind :=
  match cache with
  | None => AvailabilityCache None layout
  | Some k =>
      if negb (cc_store_article_bodies k) then AvailabilityCache (Some (cc_ttl k)) layout
      else match cc_disk k with
           | Some disk => HybridCache (cc_capacity k) (cc_ttl k) disk layout
           | None => MemoryCache (cc_capacity k) (cc_ttl k) layout
           end
  end.

(** The cache of [build_sync], which has no disk. *)
Definition build_cache_sync (cache : option CacheSettings) (layout : AvailabilityLayout) : UnifiedCacheKind :=
  match cache with
  | None => AvailabilityCache None layout
  | Some k => if cc_store_article_bodies k then MemoryCache (cc_capacity k) (cc_ttl k) layout else AvailabilityCache (Some (cc_ttl k)) layout
  end.

(** ** What is built *)

Lemma add_all_cons s x l : add_all s (x :: l) = (s' ← add_backend_with_slot s x.1.1 x.1.2 x.2; add_all s' l).
Proof.
  unfold add_all. cbn. destruct (add_backend_with_slot s x.1.1 x.1.2 x.2) as [s'|]; [done|]. cbn. induction l as [|y l IH]; [done|]. exact IH.
Qed.

(** Up to the width of the bit sets, every backend is added, in order. *)
Lemma add_all_spec l s :
  length (backends s) + length l ≤ USIZE_BITS →
  ∃ s', add_all s l = Some s' ∧
    backends s' = backends s ++ imap (λ k x, mkBackend (length (backends s) + k) x.2 0 0 x.1.2) l ∧
    backpressure_limits s' = backpressure_limits s.
Proof.
  revert s. induction l as [|[[w t] slot] l IH]; intros s Hlen; [exists s; by rewrite app_nil_r|]. rewrite add_all_cons. cbn [fst snd].
  unfold add_backend_with_slot. cbn [length] in Hlen. destruct (Nat.ltb_spec (length (backends s)) USIZE_BITS); [|lia]. cbn [mbind option_bind].
  match goal with |- context [add_all ?r l] => destruct (IH r) as (s' & E & Hb & Hl) end; [cbn; rewrite length_app; cbn; lia|].
  exists s'. split; [done|]. rewrite Hb, Hl. cbn [backends backpressure_limits]. split; [|done]. rewrite <- app_assoc. f_equal. cbn. rewrite Nat.add_0_r. f_equal.
  apply imap_ext. intros k x _. cbn. rewrite length_app. cbn. f_equal. lia.
Qed.

Lemma router_backends (servers : list Server) layout :
  length (backend_slots layout) = length servers →
  mapM (λ e : nat * Server, slot ← slot_for_backend layout e.1; Some (sv_max_connections e.2, sv_tier e.2, slot)) (zip (seq 0 (length servers)) servers) =
  Some (zip_with (λ s slot, (sv_max_connections s, sv_tier s, slot)) servers (backend_slots layout)).
Proof.
  intros Hlen. apply mapM_Some, Forall2_same_length_lookup. split.
  - rewrite !length_zip_with, length_seq. lia.
  - intros i [k s] x Hi Hx. apply lookup_zip_with_Some in Hi as (k' & s' & [= -> ->] & Hk & Hs). apply lookup_seq in Hk as [-> _].
    apply lookup_zip_with_Some in Hx as (s2 & slot & -> & Hs2 & Hslot). simplify_eq. cbn. unfold slot_for_backend. cbn. by rewrite Hslot.
Qed.

(** Every server has its backend, with its tier and the slot of its host. *)
Record router_for (servers : list Server) (layout : AvailabilityLayout) (limits : QueuePressureLimits) (r : BackendSelector) : Prop := {
  rf_ok : selector_ok r;
  rf_length : length (backends r) = length servers;
  rf_backends : ∀ i s, servers !! i = Some s → ∃ b slot, backends r !! i = Some b ∧ backend_slots layout !! i = Some slot ∧
    backend_id b = i ∧ tier b = sv_tier s ∧ availability_slot b = slot;
  rf_limits : backpressure_limits r = limits }.

Lemma build_router_ok c limits layout :
  length (cf_servers c) ≤ MAX_BACKENDS → length (backend_slots layout) = length (cf_servers c) →
  ∃ r, build_router c limits layout = Some r ∧ router_for (cf_servers c) layout limits r.
Proof.
  intros Hn Hlen. unfold build_router. rewrite router_backends by done. cbn [mbind option_bind].
  set (s0 := with_queue_backpressure _ _ _ _). set (l := zip_with _ _ _).
  assert (length l = length (cf_servers c)) as Hl by (unfold l; rewrite length_zip_with; lia).
  destruct (add_all_spec l s0) as (r & E & Hb & Hlim); [unfold MAX_BACKENDS, USIZE_BITS in *; cbn; lia|]. exists r. split; [done|].
  assert (selector_ok s0) as H0 by (destruct (with_strategy_ok (rt_backend_selection (cf_routing c))); by constructor).
  constructor; [by eapply add_all_ok|rewrite Hb; cbn; by rewrite length_imap| |done].
  intros i s Hs. destruct (lookup_lt_is_Some_2 (backend_slots layout) i) as [slot Hslot]; [rewrite Hlen; by eapply lookup_lt_Some|].
  assert (l !! i = Some (sv_max_connections s, sv_tier s, slot)) as Hi by (apply lookup_zip_with_Some; eauto).
  exists (mkBackend i slot 0 0 (sv_tier s)), slot. split_and!; [|done..]. rewrite Hb. cbn. rewrite list_lookup_imap, Hi. done.
Qed.

Lemma build_layout_ok registry cache hosts :
  length hosts ≤ MAX_BACKENDS →
  match build_layout registry cache hosts with
  | Ok l => layout_ok hosts l
  | Err e => (∃ e', e = LayoutFailed e') ∧ ∃ k d, cache = Some k ∧ cc_store_article_bodies k = true ∧ cc_disk k = Some d
  end.
Proof.
  intros Hn. unfold build_layout. destruct (k ← cache; if cc_store_article_bodies k then cc_disk k else None) as [d|] eqn:E.
  - apply bind_Some in E as (k & -> & E). destruct (cc_store_article_bodies k) eqn:Eb; [|done].
    destruct (from_hybrid_registry hosts _ _ _) as [[l p]|e] eqn:El; cbn; [|eauto 10]. apply layout_built_ok. right. eauto.
  - destruct (layout_exists hosts Hn) as [l El]. rewrite El. cbn. by apply from_servers_ok.
Qed.

Lemma build_auth_ok users :
  match build_auth users with
  | Ok h => is_enabled h = true ↔ users ≠ []
  | Err e => (∃ e', e = InvalidUsers e') ∧ users ≠ []
  end.
Proof.
  unfold build_auth, is_enabled. case_bool_decide as Hu; [by subst|]. destruct (with_users users) as [h|e] eqn:E; cbn; [|eauto].
  apply with_users_loop_enabled in E; [|by left]. by rewrite bool_decide_eq_false_2.
Qed.

Lemma providers_sized {D} (make_pool : Server → option D) servers providers :
  Forall2 (λ s p, from_server_config make_pool s = Some p) servers providers → Forall server_ok servers →
  Forall2 (λ s p, original_max_size p = N.to_nat (sv_max_connections s) ∧ 0 < original_max_size p) servers providers.
Proof.
  induction 1 as [|s p servers providers Hp _ IH]; intros Hok; [constructor|]. apply Forall_cons in Hok as [Hs Hok]. constructor; [|by apply IH].
  destruct (sk_connections _ Hs) as [Hpos _]. unfold from_server_config in Hp. destruct (make_pool s); [|done]. cbn in Hp. simplify_eq. cbn. lia.
Qed.

(** The components that are built from a configuration. *)
Record built_from {D} (c : Config) (b : NntpProxyBuilder) (ctx : BuildContext D) : Prop := {
  bf_layout : layout_ok (sv_host <$> cf_servers c) (bc_layout ctx);
  bf_router : ∃ lim, limits (rt_backpressure (cf_routing c)) = Some lim ∧ router_for (cf_servers c) (bc_layout ctx) lim (bc_router ctx);
  bf_providers : Forall2 (λ s p, original_max_size p = N.to_nat (sv_max_connections s) ∧ 0 < original_max_size p) (cf_servers c) (bc_providers ctx);
  bf_auth : is_enabled (bc_auth_handler ctx) = true ↔ ca_users (cf_client_auth c) ≠ [];
  bf_buffers : (0 < bc_buffer_size ctx)%N;
  bf_metrics : nb_metrics_store b = None → length (backend_stores (store (bc_metrics ctx))) = length (cf_servers c) ∧
    length (backend_metrics (bc_metrics ctx)) = length (cf_servers c) }.



(** The capacity has no effect without article bodies: the index is there, whatever it
    is. *)
Example capacity_unused capacity ttl disk path layout :
  build_cache (Some (mkCacheSettings capacity ttl false disk path false)) layout = AvailabilityCache (Some ttl) layout.
Proof. reflexivity. Qed.
