(* ===== verification/Args.v ===== *)
(** * Args: the command line

    Models [src/src/args.rs]: the arguments that override the configuration, the modes of
    the user interface, and the check that the listener of the dashboard is local and does
    not collide with that of the proxy.

    The parser of the command line is clap; the arguments are its result.  Name resolution
    and the parser of sizes (bytesize) are arguments. *)

From stdpp Require Import pretty.
From S2P Require Import Prelude Protocol Command Router Config.

(** ** Arguments *)

Inductive UiMode := Headless | Tui.

#[global] Instance ui_mode_eq : EqDecision UiMode.
Proof. solve_decision. Defined.

(** An address: the octets of IPv4 or the segments of IPv6. *)
Inductive IpAddr := V4 (a b c d : N) | V6 (segments : list N).

#[global] Instance ip_addr_eq : EqDecision IpAddr.
Proof. solve_decision. Defined.

Record SocketAddr := mkSocketAddr { sa_ip : IpAddr; sa_port : N }.

Definition is_loopback (ip : IpAddr) : bool :=
  match ip with V4 a _ _ _ => (a =? 127)%N | V6 l => bool_decide (l = [0; 0; 0; 0; 0; 0; 0; 1]%N) end.

Definition is_unspecified (ip : IpAddr) : bool := bool_decide (ip = V4 0 0 0 0) || bool_decide (ip = V6 [0; 0; 0; 0; 0; 0; 0; 0]%N).

Record CommonArgs := mkArgs {
  ar_ui : UiMode;
  ar_tui : bool;
  ar_headless : bool;
  ar_tui_listen : option SocketAddr;
  ar_tui_attach : option SocketAddr;
  ar_port : option N;
  ar_host : option bytes;
  ar_routing_mode : option RoutingMode;
  ar_backend_selection : option BackendSelectionStrategy;
  ar_article_cache_capacity : option N;
  ar_article_cache_ttl_secs : option N;
  ar_store_article_bodies : option bool }.

Definition effective_port (a : CommonArgs) (config_port : option N) : option N :=
  match ar_port a with Some p => Some p | None => config_port end.

Definition effective_host (a : CommonArgs) : bytes := default (bs "0.0.0.0") (ar_host a).

Definition listen_addr (a : CommonArgs) (config_port : option N) : bytes :=
  effective_host a ++ bs ":" ++ bs (pretty (default 8119%N (effective_port a config_port))).

Definition effective_ui_mode (a : CommonArgs) : UiMode :=
  if ar_headless a then Headless else if ar_tui a then Tui else ar_ui a.

(** ** Checks *)

Inductive ArgsError :=
| AttachNeedsTui
| ListenNeedsHeadless
| AttachAndListen
| AttachNotLoopback
| ListenNotLoopback
| ListenConflicts.

Definition validate_runtime_mode (a : CommonArgs) : result ArgsError unit :=
  let ui_mode := effective_ui_mode a in
  _ ← ensure AttachNeedsTui (negb (is_some (ar_tui_attach a) && negb (bool_decide (ui_mode = Tui))));
  _ ← ensure ListenNeedsHeadless (negb (is_some (ar_tui_listen a) && negb (bool_decide (ui_mode = Headless))));
  _ ← ensure AttachAndListen (negb (is_some (ar_tui_attach a) && is_some (ar_tui_listen a)));
  ensure AttachNotLoopback (match ar_tui_attach a with Some addr => is_loopback (sa_ip addr) | None => true end).

Definition listener_ips_conflict (proxy_ip dashboard_ip : IpAddr) : bool :=
  is_unspecified proxy_ip || is_unspecified dashboard_ip || bool_decide (proxy_ip = dashboard_ip).

Section Dashboard.
(** [to_socket_addrs]: the addresses of a host name. *)
Context (resolve : bytes → option (list IpAddr)).

Definition proxy_listener_conflicts (proxy_host : bytes) (dashboard_listen : SocketAddr) : bool :=
  match resolve proxy_host with
  | None => is_unspecified (sa_ip dashboard_listen)
  | Some addrs => existsb (λ proxy_ip, listener_ips_conflict proxy_ip (sa_ip dashboard_listen)) addrs
  end.

Definition validate_dashboard_listen (a : CommonArgs) (proxy_host : bytes) (proxy_port : N) : result ArgsError unit :=
  match ar_tui_listen a with
  | None => Ok ()
  | Some dashboard_listen =>
      _ ← ensure ListenNotLoopback (is_loopback (sa_ip dashboard_listen));
      if negb (sa_port dashboard_listen =? proxy_port)%N then Ok ()
      else ensure ListenConflicts (negb (proxy_listener_conflicts proxy_host dashboard_listen))
  end.
End Dashboard.

(** ** Overrides *)

Definition set_cache (k : option CacheSettings) (c : Config) : Config :=
  mkConfig (cf_proxy c) (cf_routing c) (cf_memory c) k (cf_health_check c) (cf_client_auth c) (cf_servers c).

(** [apply_overrides]: what is not set on the command line may be in the environment. *)
Definition apply_overrides (parse_capacity : bytes → option N) (a : CommonArgs) (env : Env) (c : Config) : Config :=
  let r := cf_routing c in
  let c := set_routing (mkRouting (default (rt_routing_mode r) (ar_routing_mode a)) (default (rt_backend_selection r) (ar_backend_selection a))
    (rt_adaptive_precheck r) (rt_backpressure r)) c in
  let capacity := match ar_article_cache_capacity a with Some n => Some n | None => env !! bs "NNTP_PROXY_ARTICLE_CACHE_CAPACITY" ≫= parse_capacity end in
  let ttl := match ar_article_cache_ttl_secs a with Some n => Some n | None => env !! bs "NNTP_PROXY_ARTICLE_CACHE_TTL_SECS" ≫= parse_u64 end in
  let bodies := match ar_store_article_bodies a with Some b => Some b | None => env !! bs "NNTP_PROXY_STORE_ARTICLE_BODIES" ≫= parse_bool end in
  if is_some capacity || is_some ttl || is_some bodies then
    let k := default default_cache (cf_cache c) in
    set_cache (Some (mkCacheSettings (default (cc_capacity k) capacity) (from_option from_secs (cc_ttl k) ttl) (default (cc_store_article_bodies k) bodies)
      (cc_disk k) (cc_index_path k) (cc_adaptive_precheck k))) c
  else c.

(** ** Properties *)

(** Overrides leave alone what is validated, so a usable configuration stays usable and
    the servers are those that were loaded. *)
Lemma overrides_usable parse_capacity a env c :
  usable c → usable (apply_overrides parse_capacity a env c) ∧ cf_servers (apply_overrides parse_capacity a env c) = cf_servers c.
Proof. intros [? ? ? ? ? ?]. unfold apply_overrides. destruct (_ || _); (split; [by constructor|done]). Qed.

(** The listener of the dashboard is local and apart from that of the proxy: when the
    arguments are accepted, the dashboard listens only without a terminal interface and
    without attaching to another one, on a loopback address; on the port of the proxy only
    if the host of the proxy does not stand for that address or for all addresses. *)
Theorem dashboard_listener_apart resolve a proxy_host proxy_port addr :
  validate_runtime_mode a = Ok () → validate_dashboard_listen resolve a proxy_host proxy_port = Ok () → ar_tui_listen a = Some addr →
  effective_ui_mode a = Headless ∧ ar_tui_attach a = None ∧ is_loopback (sa_ip addr) = true ∧
  (sa_port addr = proxy_port → ∀ ips ip, resolve proxy_host = Some ips → ip ∈ ips → ip ≠ sa_ip addr ∧ is_unspecified ip = false).
Proof.
  intros Hm Hd Ha. unfold validate_runtime_mode, validate_dashboard_listen in *. rewrite Ha in *. cbn [is_some] in *.
  apply result_bind_Ok in Hm as (u1 & _ & Hm). apply result_bind_Ok in Hm as (u2 & H2%ensure_Ok & Hm). apply result_bind_Ok in Hm as (u3 & H3%ensure_Ok & _).
  apply result_bind_Ok in Hd as (u4 & H4%ensure_Ok & Hd). cbn [andb] in H2. rewrite negb_involutive in H2. apply bool_decide_eq_true in H2.
  rewrite andb_true_r in H3. split_and!; [done|by destruct (ar_tui_attach a)|done|]. intros Hp ips ip Hr Hip.
  rewrite Hp, N.eqb_refl in Hd. cbn [negb] in Hd. apply ensure_Ok, negb_true_iff in Hd. unfold proxy_listener_conflicts in Hd. rewrite Hr in Hd.
  destruct (listener_ips_conflict ip (sa_ip addr)) eqn:E.
  - rewrite (proj2 (existsb_exists _ _)) in Hd; [done|]. exists ip. split; [by apply list_elem_of_In|done].
  - unfold listener_ips_conflict in E. apply orb_false_iff in E as [E1 E2]. apply orb_false_iff in E1 as [E1 _]. apply bool_decide_eq_false in E2. done.
Qed.

Definition sample_args (port : N) : CommonArgs :=
  mkArgs Headless false false (Some (mkSocketAddr (V4 127 0 0 1) port)) None None None None None None None None.

Lemma dashboard_listener_apart_witness :
  let resolve := λ _ : bytes, Some [V4 192 0 2 7] in
  validate_dashboard_listen resolve (sample_args 8119) (bs "news.example") 8119 = Ok () ∧ V4 192 0 2 7 ≠ V4 127 0 0 1.
Proof.
  intros resolve. assert (validate_dashboard_listen resolve (sample_args 8119) (bs "news.example") 8119 = Ok ()) as Hd by reflexivity.
  destruct (dashboard_listener_apart resolve (sample_args 8119) (bs "news.example") 8119 (mkSocketAddr (V4 127 0 0 1) 8119)) as (_ & _ & _ & H); [reflexivity|exact Hd|reflexivity|].
  split; [exact Hd|]. apply (H eq_refl [V4 192 0 2 7]); [reflexivity|left].
Defined.

(** A proxy that listens on all addresses leaves no address of its port. *)
Example dashboard_conflict :
  validate_dashboard_listen (λ _, Some [V4 0 0 0 0]) (sample_args 8119) (bs "0.0.0.0") 8119 = Err ListenConflicts.
Proof. reflexivity. Qed.
