(* ===== verification/Logs.v ===== *)
(** * Logs: captured log lines and aggregated connection events

    Models [src/src/tui/log_capture.rs], the log lines kept for display, and
    [src/src/metrics/connection_stats.rs], which gathers the connections of a user into
    one log line.  A lock is never poisoned.  Durations in the log lines are floating point
    numbers and left out; times are numbers of nanoseconds. *)

From S2P Require Import Prelude Wire Metrics.

(** ** Captured lines *)

Definition MAX_LOG_LINES : nat := 1000.

(** [LogBuffer::push] *)
Definition push_line (lines : list bytes) (line : bytes) : list bytes :=
  (if MAX_LOG_LINES <=? length lines then drop 1 lines else lines) ++ [line].

(** [LogBuffer::recent_lines] *)
Definition recent_lines (count : nat) (lines : list bytes) : list bytes := reverse (take count (reverse lines)).

(** [LogWriter] with the buffer it appends to. *)
Record LogWriter := mkLogWriter { lw_lines : list bytes; line_buffer : bytes }.

Definition push_pending (w : LogWriter) : LogWriter :=
  match line_buffer w with [] => w | line => mkLogWriter (push_line (lw_lines w) line) [] end.

Definition write_char (w : LogWriter) (b : byte) : LogWriter :=
  if bool_decide (b = x0a) then push_pending w else mkLogWriter (lw_lines w) (line_buffer w ++ [b]).

(** [LogWriter::write]; the line end is one byte, so characters may be taken byte by byte.
    [None] is the error of text that is not UTF-8. *)
Definition log_write (w : LogWriter) (buf : bytes) : option LogWriter :=
  if utf8_valid buf then Some (foldl write_char w buf) else None.

(** [LogWriter::flush] *)
Definition log_flush (w : LogWriter) : LogWriter := push_pending w.

(** ** Aggregated connection events *)

Definition AGGREGATION_WINDOW : N := 30000000000.

Inductive ConnectionEvent := Connected | Disconnected.

#[global] Instance connection_event_eq : EqDecision ConnectionEvent.
Proof. solve_decision. Defined.

Record UserConnectionStats := mkUserConnection { uc_count : N; uc_routing_mode : bytes; uc_first_seen : N; uc_last_seen : N }.

Definition new_user_connection (routing_mode : bytes) (timestamp : N) : UserConnectionStats := mkUserConnection 1 routing_mode timestamp timestamp.

Definition uc_record_event (timestamp : N) (u : UserConnectionStats) : UserConnectionStats :=
  mkUserConnection (wrap64 (uc_count u + 1)) (uc_routing_mode u) (uc_first_seen u) timestamp.

Abbreviation UserConnections := (@gmap (list byte) list_eq_dec list_countable UserConnectionStats).

Record Aggregator := mkAggregator {
  connection_stats : UserConnections;
  disconnection_stats : UserConnections;
  seen_connections : gset N;
  last_flush : N }.

Definition new_aggregator (now : N) : Aggregator := mkAggregator ∅ ∅ ∅ now.

(** A log line: the event, the user, how many, the routing mode. *)
Record LogLine := mkLogLine { ll_event : ConnectionEvent; ll_user : bytes; ll_count : N; ll_mode : bytes }.

Definition log_lines (event : ConnectionEvent) (stats : UserConnections) : list LogLine :=
  (λ e : bytes * UserConnectionStats, mkLogLine event e.1 (uc_count e.2) (uc_routing_mode e.2)) <$> map_to_list stats.

(** [maybe_flush]: the lines that are logged. *)
Definition maybe_flush (now : N) (force : bool) (a : Aggregator) : Aggregator * list LogLine :=
  let empty := bool_decide (connection_stats a = ∅) && bool_decide (disconnection_stats a = ∅) in
  if force || ((AGGREGATION_WINDOW <=? sat_sub now (last_flush a))%N && negb empty)
  then (mkAggregator ∅ ∅ (seen_connections a) now, log_lines Connected (connection_stats a) ++ log_lines Disconnected (disconnection_stats a))
  else (a, []).

(** [entry(..).and_modify(..).or_insert_with(..)] *)
Definition count_event (user routing_mode : bytes) (now : N) (stats : UserConnections) : UserConnections :=
  <[user := match stats !! user with Some u => uc_record_event now u | None => new_user_connection routing_mode now end]> stats.

(** [record_event] *)
Definition record_event (username : option bytes) (routing_mode : bytes) (event : ConnectionEvent) (now : N) (a : Aggregator) : Aggregator * list LogLine :=
  let empty := bool_decide (connection_stats a = ∅) && bool_decide (disconnection_stats a = ∅) in
  let '(a, logged) := if negb empty then maybe_flush now false a else (a, []) in
  let user := default ANONYMOUS username in
  (match event with
   | Connected => mkAggregator (count_event user routing_mode now (connection_stats a)) (disconnection_stats a) (seen_connections a) (last_flush a)
   | Disconnected => mkAggregator (connection_stats a) (count_event user routing_mode now (disconnection_stats a)) (seen_connections a) (last_flush a)
   end, logged).

Definition set_seen (seen : gset N) (a : Aggregator) : Aggregator :=
  mkAggregator (connection_stats a) (disconnection_stats a) seen (last_flush a).

(** [record_session_connection] and [record_session_disconnection]. *)
Definition record_session_connection (client : N) (username : option bytes) (routing_mode : bytes) (now : N) (a : Aggregator) : Aggregator * list LogLine :=
  if bool_decide (client ∈ seen_connections a) then (a, [])
  else record_event username routing_mode Connected now (set_seen ({[client]} ∪ seen_connections a) a).

Definition record_session_disconnection (client : N) (username : option bytes) (routing_mode : bytes) (now : N) (a : Aggregator) : Aggregator * list LogLine :=
  if bool_decide (client ∈ seen_connections a)
  then record_event username routing_mode Disconnected now (set_seen (seen_connections a ∖ {[client]}) a)
  else (a, []).

(** [flush] *)
Definition flush_stats (now : N) (a : Aggregator) : Aggregator * list LogLine := maybe_flush now true a.

(** ** The captured lines are the most recent ones *)

(** The pieces between line ends. *)
Fixpoint split_nl (s : bytes) : list bytes :=
  match s with
  | [] => [[]]
  | b :: s => if bool_decide (b = x0a) then [] :: split_nl s else match split_nl s with l :: ls => (b :: l) :: ls | [] => [[b]] end
  end.

Definition text_lines (s : bytes) : list bytes := filter (λ l, l ≠ []) (split_nl s).

(** The last [n] elements. *)
Definition last_n {A} (n : nat) (l : list A) : list A := drop (length l - n) l.

Lemma push_line_last lines line : push_line (last_n MAX_LOG_LINES lines) line = last_n MAX_LOG_LINES (lines ++ [line]).
Proof.
  assert (0 < MAX_LOG_LINES) by (unfold MAX_LOG_LINES; lia). unfold push_line, last_n. rewrite length_drop, length_app. cbn [length].
  destruct (Nat.leb_spec MAX_LOG_LINES (length lines - (length lines - MAX_LOG_LINES))).
  - rewrite drop_drop, drop_app_le by lia. do 2 f_equal. lia.
  - rewrite drop_app_le by lia. do 2 f_equal. lia.
Qed.

Lemma split_nl_snoc s ls cur b :
  split_nl s = ls ++ [cur] → split_nl (s ++ [b]) = if bool_decide (b = x0a) then ls ++ [cur; []] else ls ++ [cur ++ [b]].
Proof.
  revert ls cur. induction s as [|c s IH]; intros ls cur H; cbn in *.
  - destruct ls as [|? []]; cbn in H; simplify_eq. cbn. by case_bool_decide.
  - destruct (bool_decide (c = x0a)).
    + destruct ls as [|l ls]; cbn in H; [by destruct (split_nl s) eqn:E; [destruct s; cbn in E; repeat case_match|]|]. injection H as <- H.
      rewrite (IH ls cur H). by case_bool_decide.
    + destruct (split_nl s) as [|l0 l1] eqn:E; [destruct s; cbn in E; by repeat case_match|].
      destruct l1 as [|l2 l1]; destruct ls as [|l ls]; cbn in H; try (by destruct ls); simplify_eq.
      * rewrite (IH [] l0 eq_refl). by case_bool_decide.
      * rewrite (IH (l0 :: ls) cur) by (cbn; congruence). by case_bool_decide.
Qed.

Lemma split_nl_ends s : ∃ ls cur, split_nl s = ls ++ [cur].
Proof.
  induction s as [|b s IH] using rev_ind; [by exists [], []|]. destruct IH as (ls & cur & H). rewrite (split_nl_snoc _ _ _ _ H).
  case_bool_decide; [exists (ls ++ [cur]), []; by rewrite <- app_assoc|eauto].
Qed.

Lemma write_chars_spec lines s ls cur :
  split_nl s = ls ++ [cur] →
  foldl write_char (mkLogWriter (last_n MAX_LOG_LINES lines) []) s = mkLogWriter (last_n MAX_LOG_LINES (lines ++ filter (λ l, l ≠ []) ls)) cur.
Proof.
  revert ls cur. induction s as [|b s IH] using rev_ind; intros ls cur H.
  - destruct ls as [|? []]; cbn in H; simplify_eq. by rewrite filter_nil, app_nil_r.
  - destruct (split_nl_ends s) as (ls0 & cur0 & H0). rewrite foldl_app, (IH _ _ H0). rewrite (split_nl_snoc _ _ _ b H0) in H. cbn [foldl]. unfold write_char.
    case_bool_decide as Hb.
    + rewrite (app_assoc ls0 [cur0] [[]] : ls0 ++ [cur0; []] = (ls0 ++ [cur0]) ++ [[]]) in H. apply app_inj_tail in H as [<- <-].
      unfold push_pending. cbn [line_buffer lw_lines]. rewrite filter_app. destruct cur0 as [|c cur0]; [by rewrite filter_cons_False, filter_nil, app_nil_r by naive_solver|].
      rewrite filter_cons_True, filter_nil by done. by rewrite push_line_last, app_assoc.
    + apply app_inj_tail in H as [<- <-]. done.
Qed.

(** The captured log is what was written: whatever the pieces in which text arrives, after
    a flush the buffer has the most recent of its lines, in order, behind the lines of
    before, at most a thousand and none of them empty. *)
Theorem captured_lines_exact lines chunks :
  Forall (λ c, utf8_valid c = true) chunks →
  ∃ w, foldl (λ w c, w ← w; log_write w c) (Some (mkLogWriter (last_n MAX_LOG_LINES lines) [])) chunks = Some w ∧
    lw_lines (log_flush w) = last_n MAX_LOG_LINES (lines ++ text_lines (concat chunks)) ∧ length (lw_lines (log_flush w)) ≤ MAX_LOG_LINES.
Proof.
  intros Hc. set (w0 := mkLogWriter _ _). exists (foldl write_char w0 (concat chunks)). split.
  - clearbody w0. revert w0. induction Hc as [|c chunks Hc _ IH]; intros w; [done|]. cbn [foldl concat]. rewrite foldl_app. cbn [mbind option_bind].
    unfold log_write at 2. rewrite Hc. apply IH.
  - destruct (split_nl_ends (concat chunks)) as (ls & cur & H). unfold w0. rewrite (write_chars_spec _ _ _ _ H). unfold text_lines. rewrite H, filter_app.
    assert (lw_lines (log_flush (mkLogWriter (last_n MAX_LOG_LINES (lines ++ filter (λ l, l ≠ []) ls)) cur)) =
      last_n MAX_LOG_LINES (lines ++ filter (λ l, l ≠ []) ls ++ filter (λ l, l ≠ []) [cur])) as ->.
    { unfold log_flush, push_pending. cbn [line_buffer lw_lines]. destruct cur as [|c cur]; [by rewrite filter_cons_False, filter_nil, app_nil_r by naive_solver|].
      rewrite filter_cons_True, filter_nil by done. cbn [lw_lines]. by rewrite push_line_last, app_assoc. }
    split; [done|]. unfold last_n. rewrite length_drop. lia.
Qed.

(** ** Every connection is logged once *)

Inductive SessionOp :=
| SessionConnected (client : N) (username : option bytes) (routing_mode : bytes)
| SessionDisconnected (client : N) (username : option bytes) (routing_mode : bytes)
| FlushStats.

(** One operation at a time [now]. *)
Definition session_op (now : N) (op : SessionOp) (a : Aggregator) : Aggregator * list LogLine :=
  match op with
  | SessionConnected client username mode => record_session_connection client username mode now a
  | SessionDisconnected client username mode => record_session_disconnection client username mode now a
  | FlushStats => flush_stats now a
  end.

Fixpoint run_ops (ops : list (N * SessionOp)) (a : Aggregator) : Aggregator * list LogLine :=
  match ops with
  | [] => (a, [])
  | (now, op) :: ops => let '(a, l) := session_op now op a in let '(a, l') := run_ops ops a in (a, l ++ l')
  end.

(** What there is to log: a client connects once and then disconnects once. *)
Fixpoint session_events (seen : gset N) (ops : list (N * SessionOp)) : list (ConnectionEvent * N * bytes) :=
  match ops with
  | [] => []
  | (_, SessionConnected client username _) :: ops =>
      if bool_decide (client ∈ seen) then session_events seen ops
      else (Connected, client, default ANONYMOUS username) :: session_events ({[client]} ∪ seen) ops
  | (_, SessionDisconnected client username _) :: ops =>
      if bool_decide (client ∈ seen) then (Disconnected, client, default ANONYMOUS username) :: session_events (seen ∖ {[client]}) ops
      else session_events seen ops
  | (_, FlushStats) :: ops => session_events seen ops
  end.

Definition of_user (e : ConnectionEvent) (k : bytes) (x : ConnectionEvent * N * bytes) : bool := bool_decide (x.1.1 = e) && bool_decide (x.2 = k).

Definition of_client (e : ConnectionEvent) (c : N) (x : ConnectionEvent * N * bytes) : bool := bool_decide (x.1.1 = e) && bool_decide (x.1.2 = c).

(** How many events of a user the lines report. *)
Definition logged (e : ConnectionEvent) (k : bytes) (l : list LogLine) : N :=
  foldr (λ x n, if bool_decide (ll_event x = e) && bool_decide (ll_user x = k) then ll_count x + n else n)%N 0%N l.

Definition counted_in (k : bytes) (stats : UserConnections) : N := from_option uc_count 0%N (stats !! k).

Definition stats_of (e : ConnectionEvent) (a : Aggregator) : UserConnections :=
  match e with Connected => connection_stats a | Disconnected => disconnection_stats a end.

Definition unlogged (e : ConnectionEvent) (k : bytes) (a : Aggregator) : N := counted_in k (stats_of e a).

Lemma logged_cons e k x l :
  logged e k (x :: l) = (if bool_decide (ll_event x = e) && bool_decide (ll_user x = k) then ll_count x + logged e k l else logged e k l)%N.
Proof. done. Qed.

Lemma logged_app e k l l' : logged e k (l ++ l') = (logged e k l + logged e k l')%N.
Proof. unfold logged. induction l as [|x l IH]; [done|]. cbn [app foldr]. rewrite IH. destruct (_ && _); lia. Qed.

Lemma logged_perm e k l l' : l ≡ₚ l' → logged e k l = logged e k l'.
Proof. induction 1 as [|x l l' _ IH|x y l|l1 l2 l3 _ IH1 _ IH2]; unfold logged in *; cbn [foldr]; [done|by rewrite IH|repeat case_match; lia|congruence]. Qed.

Lemma logged_lines e e' k stats : logged e k (log_lines e' stats) = if bool_decide (e' = e) then counted_in k stats else 0%N.
Proof.
  unfold log_lines, counted_in. induction stats as [|i u m Hi IH] using map_ind; [rewrite map_to_list_empty; by case_bool_decide|].
  rewrite (logged_perm _ _ _ ((λ x : bytes * UserConnectionStats, mkLogLine e' x.1 (uc_count x.2) (uc_routing_mode x.2)) <$> (i, u) :: map_to_list m))
    by by rewrite map_to_list_insert. rewrite fmap_cons, logged_cons, IH. cbn [ll_event ll_user ll_count fst snd]. case_bool_decide as He; [|done]. cbn [andb].
  destruct (decide (i = k)) as [->|Hne]; [rewrite bool_decide_eq_true_2, lookup_insert_eq, Hi by done; cbn; lia|].
  by rewrite bool_decide_eq_false_2, lookup_insert_ne by done.
Qed.

Lemma maybe_flush_keeps now force a :
  let '(a', l) := maybe_flush now force a in seen_connections a' = seen_connections a ∧ ∀ e k, (logged e k l + unlogged e k a')%N = unlogged e k a.
Proof.
  unfold maybe_flush. destruct (_ || _); [|done]. split; [done|]. intros e k. rewrite logged_app, !logged_lines. unfold unlogged, stats_of.
  assert (counted_in k ∅ = 0%N) as H0 by (unfold counted_in; by rewrite lookup_empty).
  destruct e; cbn [connection_stats disconnection_stats]; rewrite H0; repeat (case_bool_decide; try done); lia.
Qed.

Lemma counted_event user mode now stats k :
  (counted_in k stats < 2 ^ 64 - 1)%N → counted_in k (count_event user mode now stats) = (counted_in k stats + if bool_decide (user = k) then 1 else 0)%N.
Proof.
  unfold counted_in, count_event. intros Hlt. case_bool_decide as Hk; [subst; rewrite lookup_insert_eq|rewrite lookup_insert_ne by done; lia].
  destruct (stats !! k) as [u|]; cbn in *; [|done]. apply N.mod_small. lia.
Qed.

(** One event is added to what is logged and counted. *)
Lemma record_event_exact username mode event now a :
  let '(a', l) := record_event username mode event now a in
  seen_connections a' = seen_connections a ∧
  ∀ e k, (unlogged e k a < 2 ^ 64 - 1)%N →
    (logged e k l + unlogged e k a' = unlogged e k a + if of_user e k (event, 0, default ANONYMOUS username) then 1 else 0)%N.
Proof.
  unfold record_event. set (user := default ANONYMOUS username). destruct (if negb _ then maybe_flush now false a else (a, [])) as [b l] eqn:E.
  assert (seen_connections b = seen_connections a ∧ ∀ e k, (logged e k l + unlogged e k b)%N = unlogged e k a) as [Hs Hb].
  { destruct (negb _); [pose proof (maybe_flush_keeps now false a) as H; by rewrite E in H|by injection E as <- <-]. }
  split; [by destruct event|]. intros e k Hlt. specialize (Hb e k). unfold of_user. cbn [fst snd].
  destruct event, e; unfold unlogged, stats_of in *; cbn [connection_stats disconnection_stats] in *; rewrite ?counted_event by lia;
    rewrite ?(bool_decide_eq_true_2 (Connected = Connected)), ?(bool_decide_eq_true_2 (Disconnected = Disconnected)),
      ?(bool_decide_eq_false_2 (Connected = Disconnected)), ?(bool_decide_eq_false_2 (Disconnected = Connected)) by done; cbn [andb]; lia.
Qed.

Lemma count_if_cons {A} (p : A → bool) x l : count_if p (x :: l) = (if p x then 1 else 0) + count_if p l.
Proof. unfold count_if. cbn. by destruct (p x). Qed.

(** What one operation logs and what is left to happen. *)
Lemma session_op_exact now op a ops :
  let '(a', l) := session_op now op a in
  ∃ evs, session_events (seen_connections a) ((now, op) :: ops) = evs ++ session_events (seen_connections a') ops ∧ length evs ≤ 1 ∧
    (∀ e k, (unlogged e k a < 2 ^ 64 - 1)%N → (logged e k l + unlogged e k a' = unlogged e k a + N.of_nat (count_if (of_user e k) evs))%N) ∧
    ∀ c, count_if (of_client Connected c) evs + (if bool_decide (c ∈ seen_connections a) then 1 else 0) =
      count_if (of_client Disconnected c) evs + (if bool_decide (c ∈ seen_connections a') then 1 else 0).
Proof.
  destruct op as [client username mode|client username mode|]; cbn [session_op session_events].
  - unfold record_session_connection. case_bool_decide as Hc; [exists []; split_and!; (done || cbn; lia)|].
    pose proof (record_event_exact username mode Connected now (set_seen ({[client]} ∪ seen_connections a) a)) as H.
    destruct (record_event username mode Connected now _) as [a' l]. destruct H as [Hs H]. rewrite Hs. eexists [_]. cbn [app]. split_and!; [done|done| |].
    + intros e k Hlt. specialize (H e k Hlt). rewrite H. unfold unlogged, stats_of. f_equal. rewrite count_if_cons. unfold of_user. cbn. by destruct (_ && _).
    + intros c. rewrite !count_if_cons. unfold of_client. cbn. repeat case_bool_decide; set_solver.
  - unfold record_session_disconnection. case_bool_decide as Hc; [|exists []; split_and!; (done || cbn; lia)].
    pose proof (record_event_exact username mode Disconnected now (set_seen (seen_connections a ∖ {[client]}) a)) as H.
    destruct (record_event username mode Disconnected now _) as [a' l]. destruct H as [Hs H]. rewrite Hs. eexists [_]. cbn [app]. split_and!; [done|done| |].
    + intros e k Hlt. specialize (H e k Hlt). rewrite H. unfold unlogged, stats_of. f_equal. rewrite count_if_cons. unfold of_user. cbn. by destruct (_ && _).
    + intros c. rewrite !count_if_cons. unfold of_client. cbn. repeat case_bool_decide; set_solver.
  - unfold flush_stats. pose proof (maybe_flush_keeps now true a) as H. destruct (maybe_flush now true a) as [a' l]. destruct H as [Hs H]. rewrite Hs.
    exists []. split_and!; [done|cbn; lia| |done]. intros e k _. rewrite H. cbn. lia.
Qed.

Lemma run_ops_exact ops a :
  let '(a', l) := run_ops ops a in
  let evs := session_events (seen_connections a) ops in
  (∀ e k, (unlogged e k a + N.of_nat (length ops) < 2 ^ 64)%N → (logged e k l + unlogged e k a' = unlogged e k a + N.of_nat (count_if (of_user e k) evs))%N) ∧
  ∀ c, count_if (of_client Connected c) evs + (if bool_decide (c ∈ seen_connections a) then 1 else 0) =
    count_if (of_client Disconnected c) evs + (if bool_decide (c ∈ seen_connections a') then 1 else 0).
Proof.
  revert a. induction ops as [|[now op] ops IH]; intros a; [split; intros; cbn; lia|]. cbn [run_ops].
  pose proof (session_op_exact now op a ops) as H. destruct (session_op now op a) as [b l1]. destruct H as (evs & -> & Hlen & Hu & Hc).
  specialize (IH b). destruct (run_ops ops b) as [a' l2]. destruct IH as [IHu IHc]. cbn zeta. split.
  - intros e k Hlt. cbn [length] in Hlt. pose proof (Hu e k ltac:(lia)) as H1. assert (count_if (of_user e k) evs ≤ 1) as Hle.
    { pose proof (count_if_le (of_user e k) evs). lia. }
    pose proof (logged_app e k l1 l2) as Hl. specialize (IHu e k). rewrite count_if_app, Hl, Nat2N.inj_add. rewrite <- N.add_assoc, IHu; lia.
  - intros c. specialize (Hc c). specialize (IHc c). rewrite !count_if_app. lia.
Qed.

(** Connections are logged once: whatever the order of connections, disconnections and
    flushes and the passing of time, the lines and what is still held back together report
    every session of a user once when it begins and once when it ends, and a flush leaves
    nothing out.  A client has begun once more than it has ended exactly while it is
    connected. *)
Theorem sessions_logged_once start ops now :
  (N.of_nat (length ops) < 2 ^ 64)%N →
  let '(a, l) := run_ops ops (new_aggregator start) in
  let evs := session_events ∅ ops in
  (∀ e k, logged e k (l ++ (flush_stats now a).2) = N.of_nat (count_if (of_user e k) evs)) ∧
  ∀ c, count_if (of_client Connected c) evs = count_if (of_client Disconnected c) evs + (if bool_decide (c ∈ seen_connections a) then 1 else 0).
Proof.
  intros Hlen. pose proof (run_ops_exact ops (new_aggregator start)) as H. destruct (run_ops ops (new_aggregator start)) as [a l].
  destruct H as [Hu Hc]. cbn [seen_connections new_aggregator] in *. cbn zeta. split.
  - intros e k. assert (unlogged e k (new_aggregator start) = 0%N) as H0 by (unfold unlogged, stats_of, counted_in, new_aggregator; destruct e; cbn; by rewrite lookup_empty).
    specialize (Hu e k). rewrite H0 in Hu. rewrite logged_app. unfold flush_stats, maybe_flush. cbn [orb snd]. rewrite logged_app, !logged_lines.
    specialize (Hu ltac:(lia)). unfold unlogged, stats_of in Hu. destruct e; repeat (case_bool_decide; try done); lia.
  - intros c. specialize (Hc c). rewrite (bool_decide_eq_false_2 (c ∈ ∅)) in Hc by set_solver. lia.
Qed.

(** A flush logs the counts and clears them in two steps: an event in between is lost. *)
Example flush_loses_event :
  let stats := count_event (bs "alice") (bs "hybrid") 0 ∅ in
  let lines := log_lines Connected stats in
  let stats := count_event (bs "alice") (bs "hybrid") 1 stats in
  counted_in (bs "alice") stats = 2%N ∧ logged Connected (bs "alice") lines = 1%N ∧ counted_in (bs "alice") ∅ = 0%N.
Proof. by vm_compute. Qed.

Definition sample_ops : list (N * SessionOp) :=
  [(1, SessionConnected 7 None (bs "hybrid")); (2, SessionConnected 7 (Some (bs "alice")) (bs "hybrid"));
   (40000000000, SessionDisconnected 7 (Some (bs "alice")) (bs "hybrid")); (40000000001, SessionDisconnected 7 None (bs "hybrid"))]%N.

Lemma sessions_logged_once_witness :
  logged Connected ANONYMOUS ((run_ops sample_ops (new_aggregator 0)).2 ++ (flush_stats 5 (run_ops sample_ops (new_aggregator 0)).1).2) = 1%N.
Proof.
  pose proof (sessions_logged_once 0 sample_ops 5 ltac:(vm_compute; reflexivity)) as H.
  destruct (run_ops sample_ops (new_aggregator 0)) as [a l]. destruct H as [H _]. rewrite H. reflexivity.
Defined.

Lemma captured_lines_exact_witness :
  ∃ w, foldl (λ w c, w ← w; log_write w c) (Some (mkLogWriter (last_n MAX_LOG_LINES []) [])) [bs "one
tw"; bs "o

three"] = Some w ∧ lw_lines (log_flush w) = [bs "one"; bs "two"; bs "three"].
Proof.
  destruct (captured_lines_exact [] [bs "one
tw"; bs "o

three"]) as (w & Hw & Hl & _); [repeat constructor|]. exists w. split; [exact Hw|]. rewrite Hl. reflexivity.
Defined.
