(* ===== verification/Dashboard.v ===== *)
(** * Dashboard: snapshots and the state that is displayed

    Models the snapshots of [src/src/metrics/collector.rs] and
    [src/src/metrics/snapshot.rs], how [src/src/tui/app.rs] builds the displayed state of
    them, the router and the servers, how [src/src/tui/dashboard.rs] makes the counters
    agree with each other, and what [src/src/tui/remote.rs] sends of it.  Rates, shares and
    other floating point numbers, the uptime, the statistics of the cache, the system and
    the buffer pool, and the history of the charts are left out. *)

From stdpp Require Import sorting.
From S2P Require Import Prelude Availability Router Metrics Collector Config Logs.

(** ** Snapshots *)

Record BackendStats := mkBackendStats {
  bt_backend_id : nat;
  bt_active_connections : N;
  bt_counters : BackendStore;
  bt_health_status : BackendHealthStatus }.

(** [to_backend_stats] *)
Definition to_backend_stats (i : nat) (m : BackendMetrics) (s : BackendStore) : BackendStats :=
  mkBackendStats i (backend_active m) s (health_from_u8 (health_status m)).

Record MetricsSnapshot := mkSnapshot {
  sn_total_connections : N;
  sn_active_connections : N;
  sn_stateful_sessions : N;
  sn_client_to_backend_bytes : N;
  sn_backend_to_client_bytes : N;
  sn_backend_stats : list BackendStats;
  sn_user_stats : list UserMetrics;
  sn_pipeline_batches : N;
  sn_pipeline_commands : N;
  sn_pipeline_requests_queued : N;
  sn_pipeline_requests_completed : N }.

(** [iter().sum()] of [u64], which wraps. *)
Definition sum64 (l : list N) : N := wrap64 (foldr N.add 0%N l).

(** [BackendId::from_index]; [None] is its panic. *)
Definition from_index (i : nat) : option nat := if i <? USIZE_BITS then Some i else None.

(** [snapshot_with_cache]; [None] is a panic: an index too large for an identifier, or a
    gauge without counters. *)
Definition snapshot (m : MetricsCollector) : option MetricsSnapshot :=
  let st := store m in
  stats ← mapM (λ e : nat * BackendMetrics, i ← from_index e.1; s ← backend_stores st !! e.1; Some (to_backend_stats i e.2 s))
    (zip (seq 0 (length (backend_metrics m))) (backend_metrics m));
  Some (mkSnapshot (total_connections st) (active_connections m) (stateful_sessions m)
    (sum64 ((λ b, bytes_sent (bt_counters b)) <$> stats)) (sum64 ((λ b, bytes_received (bt_counters b)) <$> stats))
    stats (map_to_list (user_metrics st)).*2 (pipeline_batches st) (pipeline_commands st) (pipeline_requests_queued st)
    (pipeline_requests_completed st)).

(** [with_pool_status]: active are the connections checked out of the pool. *)
Definition with_pool_status (pool : nat → StatusCounts) (r : BackendSelector) (s : MetricsSnapshot) : MetricsSnapshot :=
  mkSnapshot (sn_total_connections s) (sn_active_connections s) (sn_stateful_sessions s) (sn_client_to_backend_bytes s)
    (sn_backend_to_client_bytes s)
    ((λ b, match find_backend r (bt_backend_id b) with
       | Some i => let c := pool (backend_id i) in
           mkBackendStats (bt_backend_id b) (sat_sub (st_size c) (st_available c)) (bt_counters b) (bt_health_status b)
       | None => b end) <$> sn_backend_stats s)
    (sn_user_stats s) (sn_pipeline_batches s) (sn_pipeline_commands s) (sn_pipeline_requests_queued s) (sn_pipeline_requests_completed s).

(** [backend_health_counts]: healthy, degraded and down. *)
Definition backend_health_counts (s : MetricsSnapshot) : nat * nat * nat :=
  foldl (λ c b, match bt_health_status b with
    | Healthy => (S c.1.1, c.1.2, c.2) | Degraded => (c.1.1, S c.1.2, c.2) | Down => (c.1.1, c.1.2, S c.2) end) (0, 0, 0) (sn_backend_stats s).

(** ** The dashboard *)

Record DashboardUserStats := mkDashboardUser {
  du_username : bytes;
  du_active_connections : N;
  du_total_connections : N;
  du_bytes_sent : N;
  du_bytes_received : N;
  du_total_commands : N;
  du_errors : N }.

(** [DashboardUserStats::new] of a user. *)
Definition from_user_stats (u : UserMetrics) : DashboardUserStats :=
  mkDashboardUser (username u) (N.min (user_active u) (user_total_connections u)) (user_total_connections u) (user_sent u) (user_received u)
    (user_commands u) (user_errors u).

Record DashboardMetrics := mkDashboardMetrics {
  dm_total_connections : N;
  dm_active_connections : N;
  dm_stateful_sessions : N;
  dm_client_to_backend_bytes : N;
  dm_backend_to_client_bytes : N;
  dm_pipeline_batches : N;
  dm_pipeline_commands : N;
  dm_pipeline_requests_queued : N;
  dm_pipeline_requests_completed : N;
  dm_in_flight_requests : N }.

(** [DashboardMetrics::new] of a snapshot. *)
Definition from_snapshot (s : MetricsSnapshot) : DashboardMetrics :=
  let active := N.min (sn_active_connections s) (sn_total_connections s) in
  mkDashboardMetrics (sn_total_connections s) active (N.min (sn_stateful_sessions s) active) (sn_client_to_backend_bytes s)
    (sn_backend_to_client_bytes s) (N.min (sn_pipeline_batches s) (sn_pipeline_commands s)) (sn_pipeline_commands s)
    (sn_pipeline_requests_queued s) (N.min (sn_pipeline_requests_completed s) (sn_pipeline_requests_queued s)) 0.

(** [cap_classified_errors_to_total_errors] *)
Definition normalize_backend_stats (b : BackendStats) : BackendStats :=
  let s := bt_counters b in
  let e4 := N.min (errors_4xx s) (errors s) in
  let remaining_errors := sat_sub (errors s) e4 in
  mkBackendStats (bt_backend_id b) (bt_active_connections b)
    (mkBackendStore (total_commands s) (bytes_sent s) (bytes_received s) (errors s) e4 (N.min (errors_5xx s) remaining_errors)
      (article_bytes_total s) (article_count s) (ttfb_micros_total s) (ttfb_count s) (send_micros_total s) (recv_micros_total s)
      (connection_failures s)) (bt_health_status b).

(** [ActiveConnectionBudget::take_user] for each user in turn. *)
Fixpoint normalize_user_active_counts (remaining : N) (users : list DashboardUserStats) : list DashboardUserStats :=
  match users with
  | [] => []
  | u :: users =>
      let granted := N.min (du_active_connections u) remaining in
      mkDashboardUser (du_username u) granted (du_total_connections u) (du_bytes_sent u) (du_bytes_received u) (du_total_commands u)
        (N.min (du_errors u) (du_total_commands u)) :: normalize_user_active_counts (remaining - granted) users
  end.

(** A server, as it is displayed. *)
Record BackendDisplay := mkDisplay { bd_host : bytes; bd_port : N; bd_name : bytes; bd_max_connections : N }.

Record BackendView := mkView {
  bv_server : BackendDisplay;
  bv_stats : BackendStats;
  bv_active_connections : N;
  bv_health_status : BackendHealthStatus;
  bv_pending_count : N;
  bv_stateful_count : N }.

(** [normalize_backend_views], of one view. *)
Definition normalize_backend_view (v : BackendView) : BackendView :=
  mkView (bv_server v) (normalize_backend_stats (bv_stats v)) (bv_active_connections v) (bv_health_status v) (bv_pending_count v)
    (bv_stateful_count v).

Record DashboardState := mkDashboardState {
  ds_metrics : DashboardMetrics;
  ds_backend_views : list BackendView;
  ds_top_users : list DashboardUserStats;
  ds_log_lines : list bytes }.

(** [DashboardState::new] *)
Definition new_dashboard (metrics : DashboardMetrics) (views : list BackendView) (users : list DashboardUserStats)
    (log_lines : list bytes) : DashboardState :=
  mkDashboardState metrics (normalize_backend_view <$> views) (normalize_user_active_counts (dm_active_connections metrics) users) log_lines.

(** [From<DashboardState> for RemoteDashboardState]; the state that is sent has the same
    fields, those left out apart, and is normalised again. *)
Definition to_remote (d : DashboardState) : DashboardState :=
  new_dashboard (ds_metrics d) (ds_backend_views d) (ds_top_users d) (ds_log_lines d).

(** ** The application *)

Record TuiApp := mkApp {
  app_snapshot : MetricsSnapshot;
  app_router : BackendSelector;
  app_servers : list Server;
  app_log_buffer : list bytes }.

(** [TuiApp::update], of a collector; [None] is the panic of [snapshot]. *)
Definition update_app (pool : nat → StatusCounts) (m : MetricsCollector) (a : TuiApp) : option TuiApp :=
  s ← snapshot m; Some (mkApp (with_pool_status pool (app_router a) s) (app_router a) (app_servers a) (app_log_buffer a)).

(** [backend_pending_count] and [backend_stateful_count] *)
Definition backend_pending_count (a : TuiApp) (idx : nat) : option N :=
  i ← from_index idx; Some (from_option pending_count 0%N (find_backend (app_router a) i)).
Definition backend_stateful_count (a : TuiApp) (idx : nat) : option N :=
  i ← from_index idx; Some (from_option stateful_count 0%N (find_backend (app_router a) i)).

Definition snapshot_metrics (a : TuiApp) : option DashboardMetrics :=
  counts ← mapM (backend_pending_count a) (seq 0 (length (app_servers a)));
  let m := from_snapshot (app_snapshot a) in
  Some (mkDashboardMetrics (dm_total_connections m) (dm_active_connections m) (dm_stateful_sessions m) (dm_client_to_backend_bytes m)
    (dm_backend_to_client_bytes m) (dm_pipeline_batches m) (dm_pipeline_commands m) (dm_pipeline_requests_queued m)
    (dm_pipeline_requests_completed m) (sum64 counts)).

Definition snapshot_backend_view (a : TuiApp) (idx : nat) (server : Server) (stats : BackendStats) : option BackendView :=
  pending ← backend_pending_count a idx;
  stateful ← backend_stateful_count a idx;
  Some (mkView (mkDisplay (sv_host server) (sv_port server) (sv_name server) (sv_max_connections server)) stats
    (bt_active_connections stats) (bt_health_status stats) pending stateful).

Definition snapshot_backend_views (a : TuiApp) : option (list BackendView) :=
  let l := zip (sn_backend_stats (app_snapshot a)) (app_servers a) in
  mapM (λ e : nat * (BackendStats * Server), snapshot_backend_view a e.1 e.2.2 e.2.1) (zip (seq 0 (length l)) l).

(** [DashboardUserStats::total_bytes] *)
Definition dashboard_total_bytes (u : DashboardUserStats) : N := sat_add64 (du_bytes_sent u) (du_bytes_received u).

(** The order of [sort_by_key], which is stable. *)
Definition more_bytes (u v : DashboardUserStats) : Prop := (dashboard_total_bytes v <= dashboard_total_bytes u)%N.

#[global] Instance more_bytes_dec : RelDecision more_bytes.
Proof. intros u v. unfold more_bytes. apply _. Defined.

Definition snapshot_top_users_with_limit (a : TuiApp) (limit : option nat) : list DashboardUserStats :=
  let top_users := merge_sort more_bytes (from_user_stats <$> sn_user_stats (app_snapshot a)) in
  match limit with Some n => take n top_users | None => top_users end.

Definition snapshot_top_users (a : TuiApp) : list DashboardUserStats := snapshot_top_users_with_limit a (Some 10).

Definition snapshot_log_lines (a : TuiApp) (limit : option nat) : list bytes :=
  match limit with Some n => recent_lines n (app_log_buffer a) | None => app_log_buffer a end.

(** [snapshot_state_with_limits] *)
Definition snapshot_state (a : TuiApp) (log_limit : option nat) : option DashboardState :=
  metrics ← snapshot_metrics a;
  views ← snapshot_backend_views a;
  Some (new_dashboard metrics views (snapshot_top_users a) (snapshot_log_lines a log_limit)).

(** ** The state that is sent *)

Definition REMOTE_DASHBOARD_LOG_LINE_LIMIT : nat := 8.
Definition REMOTE_DASHBOARD_FULLSCREEN_LOG_LINE_LIMIT : nat := 64.
Definition REMOTE_DASHBOARD_TOP_USER_LIMIT : nat := 5.

Definition sanitize_log_tail_limit (lines : nat) : nat :=
  Nat.min (Nat.max lines REMOTE_DASHBOARD_LOG_LINE_LIMIT) REMOTE_DASHBOARD_FULLSCREEN_LOG_LINE_LIMIT.

Definition trim_remote_dashboard_state (d : DashboardState) : DashboardState :=
  mkDashboardState (ds_metrics d) (ds_backend_views d) (take REMOTE_DASHBOARD_TOP_USER_LIMIT (ds_top_users d)) (ds_log_lines d).

Definition remote_dashboard_state (a : TuiApp) : option DashboardState :=
  trim_remote_dashboard_state <$> snapshot_state a (Some REMOTE_DASHBOARD_LOG_LINE_LIMIT).

(** ** Consistency *)

(** What a display may rely on. *)
Record consistent (d : DashboardState) : Prop := {
  co_active : (dm_active_connections (ds_metrics d) <= dm_total_connections (ds_metrics d))%N;
  co_stateful : (dm_stateful_sessions (ds_metrics d) <= dm_active_connections (ds_metrics d))%N;
  co_batches : (dm_pipeline_batches (ds_metrics d) <= dm_pipeline_commands (ds_metrics d))%N;
  co_completed : (dm_pipeline_requests_completed (ds_metrics d) <= dm_pipeline_requests_queued (ds_metrics d))%N;
  co_errors : Forall (λ v, let c := bt_counters (bv_stats v) in errors_4xx c + errors_5xx c <= errors c)%N (ds_backend_views d);
  co_users : (foldr N.add 0 (du_active_connections <$> ds_top_users d) <= dm_active_connections (ds_metrics d))%N;
  co_user : Forall (λ u, du_errors u <= du_total_commands u)%N (ds_top_users d) }.

Lemma normalized_users remaining users :
  let l := normalize_user_active_counts remaining users in
  (foldr N.add 0 (du_active_connections <$> l) <= remaining)%N ∧ Forall (λ u, du_errors u <= du_total_commands u)%N l ∧
  ((foldr N.add 0 (du_active_connections <$> users) <= remaining)%N → Forall (λ u, du_errors u <= du_total_commands u)%N users → l = users).
Proof.
  revert remaining. induction users as [|u users IH]; intros remaining; cbn zeta; [split_and!; [cbn; lia|constructor|done]|].
  cbn [normalize_user_active_counts fmap list_fmap foldr]. destruct (IH (remaining - N.min (du_active_connections u) remaining)%N) as (H1 & H2 & H3).
  split_and!; [cbn; lia|constructor; [cbn; lia|done]|]. intros Hs [He Hf]%Forall_cons. rewrite H3 by (done || lia). f_equal. destruct u. cbn in *. f_equal; lia.
Qed.

Lemma normalized_backend b :
  let c := bt_counters (normalize_backend_stats b) in
  (errors_4xx c + errors_5xx c <= errors c)%N ∧
  ((errors_4xx (bt_counters b) + errors_5xx (bt_counters b) <= errors (bt_counters b))%N → normalize_backend_stats b = b).
Proof. destruct b as [i a [] h]. unfold normalize_backend_stats. cbn. split; [lia|]. intros H. do 2 f_equal; lia. Qed.

(** A snapshot can always be taken: gauges and counters of the backends correspond,
    whatever has been recorded. *)
Lemma snapshot_total m : length (backend_metrics m) = length (backend_stores (store m)) → length (backend_stores (store m)) <= USIZE_BITS →
  ∃ s, snapshot m = Some s ∧ length (sn_backend_stats s) = length (backend_stores (store m)).
Proof.
  intros Hlen Hmax. unfold snapshot. destruct (mapM _ _) as [stats|] eqn:E.
  - eexists. split; [done|]. cbn. apply length_mapM in E. rewrite <- E, length_zip_with, length_seq. lia.
  - exfalso. apply mapM_None_1, Exists_exists in E as ([i b] & Hin & H). apply list_elem_of_lookup in Hin as [j Hj].
    apply lookup_zip_with_Some in Hj as (x & y & [= -> ->] & Hi & Hb). apply lookup_seq in Hi as [-> Hi]. cbn in H.
    unfold from_index in H. rewrite (proj2 (Nat.ltb_lt _ _)) in H by (cbn in *; lia). cbn in H.
    destruct (lookup_lt_is_Some_2 (backend_stores (store m)) j ltac:(lia)) as [s Hs]. rewrite Hs in H. done.
Qed.

Lemma actions_lengths l m :
  length (backend_stores (store (run_actions l m))) = length (backend_stores (store m)) ∧
  length (backend_metrics (run_actions l m)) = length (backend_metrics m).
Proof.
  unfold run_actions. revert m. induction l as [|a l IH]; intros m; [done|]. cbn [foldl]. destruct (IH (perform a m)) as [-> ->].
  destruct a as [[]| |]; cbn; rewrite ?length_alter; done.
Qed.

Lemma from_index_small i : i < USIZE_BITS → from_index i = Some i.
Proof. intros H. unfold from_index. by rewrite (proj2 (Nat.ltb_lt _ _)). Qed.

Lemma mapM_total {A B} (f : A → option B) l : (∀ x, x ∈ l → is_Some (f x)) → is_Some (mapM f l).
Proof. intros H. apply mapM_is_Some_2, Forall_forall, H. Qed.

(** With no more servers than identifiers the state can be built. *)
Lemma snapshot_state_total a limit :
  length (app_servers a) <= USIZE_BITS →
  ∃ m v, snapshot_metrics a = Some m ∧ snapshot_backend_views a = Some v ∧
    length v = Nat.min (length (sn_backend_stats (app_snapshot a))) (length (app_servers a)) ∧
    snapshot_state a limit = Some (new_dashboard m v (snapshot_top_users a) (snapshot_log_lines a limit)).
Proof.
  intros Hn.
  assert (is_Some (mapM (backend_pending_count a) (seq 0 (length (app_servers a))))) as [counts Hc].
  { apply mapM_total. intros i [_ Hi]%elem_of_seq. unfold backend_pending_count. rewrite from_index_small by lia. by eexists. }
  assert (is_Some (snapshot_backend_views a)) as [v Hv].
  { unfold snapshot_backend_views. apply mapM_total. intros [i [b s]] [j Hj]%list_elem_of_lookup.
    apply lookup_zip_with_Some in Hj as (x & y & [= -> ->] & [-> Hi]%lookup_seq & _). rewrite length_zip_with in Hi. cbn.
    unfold snapshot_backend_view, backend_pending_count, backend_stateful_count. rewrite from_index_small by lia. by eexists. }
  unfold snapshot_state. unfold snapshot_metrics. rewrite Hc, Hv. do 2 eexists. split_and!; [done|done| |done].
  unfold snapshot_backend_views in Hv. apply length_mapM in Hv. rewrite <- Hv, !length_zip_with, length_seq, ?length_zip_with. lia.
Qed.

Lemma snapshot_metrics_capped a m :
  snapshot_metrics a = Some m →
  (dm_active_connections m <= dm_total_connections m ∧ dm_stateful_sessions m <= dm_active_connections m ∧
   dm_pipeline_batches m <= dm_pipeline_commands m ∧ dm_pipeline_requests_completed m <= dm_pipeline_requests_queued m)%N.
Proof. unfold snapshot_metrics. intros (counts & _ & [= <-])%bind_Some. cbn. lia. Qed.

Lemma new_dashboard_consistent a m views users lines :
  snapshot_metrics a = Some m → consistent (new_dashboard m views users lines).
Proof.
  intros (H1 & H2 & H3 & H4)%snapshot_metrics_capped. destruct (normalized_users (dm_active_connections m) users) as (Hu & He & _).
  constructor; cbn [new_dashboard ds_metrics ds_backend_views ds_top_users]; try done.
  apply Forall_fmap, Forall_true. intros v. apply (normalized_backend (bv_stats v)).
Qed.

Lemma sum_take n l : (foldr N.add 0 (take n l) <= foldr N.add 0 l)%N.
Proof. revert n. induction l as [|x l IH]; intros [|n]; cbn; [lia..|]. specialize (IH n). lia. Qed.

Lemma trim_consistent d : consistent d → consistent (trim_remote_dashboard_state d).
Proof.
  intros []. constructor; cbn [trim_remote_dashboard_state ds_metrics ds_backend_views ds_top_users]; try done; [|by apply Forall_take].
  rewrite fmap_take. etrans; [apply sum_take|done].
Qed.

(** Consistent data is displayed as it is. *)
Lemma to_remote_consistent d : consistent d → to_remote d = d.
Proof.
  intros [_ _ _ _ Hb Hu He]. destruct d as [m v u l]. unfold to_remote, new_dashboard. cbn in *. f_equal.
  - rewrite <- (list_fmap_id v) at 2. apply list_fmap_ext. intros i [] Hi. rewrite Forall_lookup in Hb. unfold normalize_backend_view. cbn. f_equal.
    apply (proj2 (normalized_backend _)). exact (Hb i _ Hi).
  - by apply (proj2 (proj2 (normalized_users _ _))).
Qed.

#[global] Instance more_bytes_trans : Transitive more_bytes.
Proof. unfold more_bytes. intros x y z. lia. Qed.

#[global] Instance more_bytes_total : Total more_bytes.
Proof. unfold more_bytes. intros x y. lia. Qed.

(** ** Properties *)


(** The users that are shown are those that transferred most: the shown and the hidden ones
    are together the users of the snapshot, and no hidden one has transferred more than a
    shown one. *)
Theorem top_users_ranked a limit :
  ∃ hidden, snapshot_top_users_with_limit a (Some limit) ++ hidden ≡ₚ from_user_stats <$> sn_user_stats (app_snapshot a) ∧
    ∀ u v, u ∈ snapshot_top_users_with_limit a (Some limit) → v ∈ hidden → (dashboard_total_bytes v <= dashboard_total_bytes u)%N.
Proof.
  unfold snapshot_top_users_with_limit. set (r := merge_sort _ _). exists (drop limit r).
  split; [rewrite take_drop; apply merge_sort_Permutation|]. intros u v Hu Hv.
  refine (sorted_prefix_ranked more_bytes r limit u v _ Hu Hv). apply StronglySorted_merge_sort; apply _.
Qed.

(** An application that shows the server of the default configuration. *)
Definition sample_app : TuiApp :=
  mkApp (mkSnapshot 0 0 0 0 0 [] [] 0 0 0 0) (with_strategy LeastLoaded) (cf_servers create_default_config) [bs "started"].


(** Gauges that are read while they change: three stateful sessions of one connection are
    shown as one, and two users with a connection each share it. *)
Example torn_snapshot_capped :
  let user n := mkUser n 1 1 10 0 5 9 in
  let a := mkApp (mkSnapshot 1 2 3 0 0 [] [user (bs "a"); user (bs "b")] 0 0 0 0) (with_strategy LeastLoaded) [] [] in
  (λ d, (dm_active_connections (ds_metrics d), dm_stateful_sessions (ds_metrics d), du_active_connections <$> ds_top_users d,
    du_errors <$> ds_top_users d)) <$> remote_dashboard_state a = Some (1, 1, [1; 0], [5; 5])%N.
Proof. vm_compute. reflexivity. Qed.
